(* ===== verification/_CoqProject ===== *)
-Q . S2P
Prelude.v
Worklist.v
PathPool.v
DependencyGraph.v
CompileGraph.v
CompileTasks.v
CompileInvariant.v
CompileInterest.v
CompileSafety.v
FuzzyMatcher.v
FuzzyAlign.v
FuzzyTable.v
FuzzyTheorems.v
Glob.v
GlobBraces.v
GlobMatch.v
CacheStore.v
CacheInvariant.v
CachePlatform.v
CacheTheorems.v
CacheDisk.v
CacheFrame.v
WorkerAffinity.v
WorkerPool.v
WorkerInvariant.v
WorkerRequests.v
WorkerScaling.v
WorkerTheorems.v
Text.v
Markup.v
MarkupTheorems.v
Doxygen.v
IndexData.v
MergedIndex.v
MergedInvariant.v
MergedImage.v
MergedSimulation.v
IndexLibraries.v
MergedTheorems.v
IncludeGraph.v
TUIndex.v
TUTheorems.v
ProjectIndex.v
Indexer.v
IndexerMerge.v
IndexerQueries.v
IndexerTheorems.v
IndexerSearch.v
BackgroundIndex.v
BackgroundTheorems.v
IndexStore.v
IndexStoreTheorems.v
Snapshot.v
Documents.v
DocumentInvariant.v
DocumentSteps.v
DocumentTasks.v
DocumentTheorems.v
StatefulWorker.v
StatefulTheorems.v
CommandDatabase.v
CommandTheorems.v
Lexer.v
SemanticTokens.v
SemanticTheorems.v
Diagnostics.v
Folding.v
IncludeResolver.v
IncludeTheorems.v
Scanner.v
DependencyScan.v
ScanTheorems.v
Workspace.v
WorkspaceTheorems.v
Config.v
HeaderContext.v
HeaderTheorems.v
PchBuild.v
ModuleBuild.v
Toolchain.v
