(* ===== verification/Prelude.v ===== *)
(** * Verification of the clice language server

    clice is a C++ language server.  This library models the parts of it that hold
    its own algorithms and state machines, and proves what makes them correct.
    The models are executable functions and transition systems over the data the
    code keeps; the definitions carry the names of the functions they translate.

    ** Parts and files

    - _Path interning_ (src/support/path_pool.h): [PathPool].  The pool of
      normalised paths, [intern] and [resolve].
    - _Include graph_ (src/syntax/dependency_graph.{h,cpp}): [DependencyGraph].
      Module table, include edges per configuration, reverse map, the searches
      [find_host_sources] and [find_include_chain].  [Worklist] holds the theory
      of the work-list searches this file and the compile graph share.
    - _Module compilation graph_ (src/server/compiler/compile_graph.{h,cpp}):
      [CompileGraph] has the units, rounds and interest counts with every
      synchronous method; [CompileTasks] the coroutines ([compile],
      [compile_deps], [unit_task], [unit_body], [await_unit]) as frames of a
      transition system whose atomic steps are the segments between suspension
      points, in any order the event loop may choose; [CompileInvariant],
      [CompileInterest] and [CompileSafety] the invariants and theorems.
    - _Fuzzy matcher_ (src/support/fuzzy_matcher.{h,cpp}): [FuzzyMatcher] has
      segmentation, scoring and the table; [FuzzyAlign] the specification as
      alignments of pattern and word; [FuzzyTable] and [FuzzyTheorems] the proof
      that the table computes a best alignment.
    - _Glob patterns_ (src/support/glob_pattern.{h,cpp}): [Glob] has character
      classes, compilation and the backtracking matcher; [GlobBraces] brace
      expansion; [GlobMatch] matching against a reference relation.
    - _Cache store_ (src/support/cache_store.{h,cpp}, src/support/filesystem.h):
      [CacheStore] has every operation against an abstract platform (file system,
      clock, process table), split at the critical sections of the mutex;
      [CacheInvariant] the accounting invariant; [CachePlatform] a concrete
      platform; [CacheTheorems] and [CacheDisk] the theorems on interleavings and
      on the bytes on disk; [CacheFrame] what a store leaves untouched.
    - _Worker pool_ (src/server/worker/worker_pool.{h,cpp}): [WorkerAffinity] has
      the pinning of documents to stateful workers; [WorkerPool] the stateless
      scheduler, its slots, queues, limits, crash recovery and scaling, with
      requests as suspended coroutines; [WorkerInvariant], [WorkerRequests] and
      [WorkerScaling] the invariant through every event; [WorkerTheorems] what
      follows from it.

    - _Markup and comments_ (src/support/markup.{h,cpp},
      src/support/doxygen.{h,cpp}): [Text] has the string operations both use;
      [Markup] the blocks of a document and both renderers, [MarkupTheorems]
      what they guarantee; [Doxygen] the parser of documentation comments.
    - _Index of a unit_ (src/index/tu_index.{h,cpp}, include_graph.{h,cpp}):
      [IndexData] has occurrences, relations, symbols and the tables of a file
      with their lookups; [IncludeGraph] the include locations of a unit; [TUIndex]
      the builder, fed with the events the visitor reports, and the image sent to
      the server; [TUTheorems] the proofs.
    - _Shards_ (src/index/merged_index.{h,cpp}, schema.fbs): [MergedIndex] has
      every operation of a shard, in memory and on an image; [MergedInvariant] and
      [MergedImage] its representation invariant and its image; [MergedSimulation]
      the contexts a shard stands for as its abstract state; [MergedTheorems]
      what lookups report.  [IndexLibraries] has concrete instances
      of the encodings and the hash, which are classes.
    - _Project index_ (src/index/project_index.{h,cpp}): [ProjectIndex].
    - _Indexer_ (src/server/compiler/indexer.{h,cpp}): [Indexer] has the merging of
      a unit into the workspace and the queries; [IndexerMerge] describes shards by
      the history of their operations; [IndexerQueries], [IndexerTheorems] and
      [IndexerSearch] have the theorems on queries and on the whole way from the
      visitor to an answer.  [BackgroundIndex] has the queue of files to index, its
      timer, pauses and the round that drains it as a machine fed with events, and
      [BackgroundTheorems] what it guarantees.  [IndexStore] saves the index
      through the cache store and loads it back; [IndexStoreTheorems] has the round
      trip.
    - _Open documents_ (src/server/service/{session.h,master_server.cpp,lsp_client.cpp},
      src/server/compiler/compiler.cpp): [Snapshot] has the snapshots of dependencies
      (src/server/workspace/workspace.cpp) by which a compilation is found outdated;
      [Documents] the sessions, the notifications that change them and the coroutines
      [run_compile], [ensure_compiled] and [forward_query] as a machine fed with events;
      [DocumentInvariant], [DocumentSteps] and [DocumentTasks] its invariant through
      every event, [DocumentTheorems] what follows.
    - _Stateful worker_ (src/server/worker/stateful_worker.cpp): [StatefulWorker] has the
      documents a worker process keeps, their strands and handlers; [StatefulTheorems]
      the theorems.
    - _Compilation database_ (src/command/{command,argument_parser}.{h,cpp},
      src/support/object_pool.h): [CommandDatabase] has the classification of options,
      loading, lookup and the grouping of files by command; [CommandTheorems]
      the theorems.
    - _Tool chains_ (src/command/toolchain.{h,cpp}): [Toolchain] has the families of
      drivers, the queries, the keys under which answers are kept, and the rewriting of a
      driver command into one of clang's frontend, with its theorems.
    - _Lexical layer_ (src/syntax/{token.h,lexer.h,lexer.cpp}): [Lexer], the wrapper
      around clang's raw lexer.
    - _Language features_: [SemanticTokens] and [SemanticTheorems]
      (src/feature/semantic_tokens.cpp) the lexical tokens, the merging and the encoding;
      [Diagnostics] (src/compile/diagnostic.cpp, src/feature/diagnostics.cpp) the
      collection and publication of diagnostics; [Folding]
      (src/feature/folding_ranges.cpp) the folding of conditionals, regions and
      brackets.
    - _Includes on disk_ (src/command/search_config.cpp,
      src/syntax/{include_resolver,scan,completion,dependency_graph}.cpp):
      [IncludeResolver] has search configurations, include resolution over cached
      directory listings and the completion of includes; [IncludeTheorems] the
      theorems; [Scanner] the quick scan of a file, preamble bounds and completeness;
      [DependencyScan] the wavefront scan that fills the dependency graph and its
      caches, [ScanTheorems] what it records.
    - _Workspace_ (src/server/workspace/{workspace,config}.{h,cpp}): [Workspace] has the
      tables of precompiled headers and modules, saves and closes, and the file that keeps
      the tables between two runs; [WorkspaceTheorems] the proofs.  [Config] has the
      configuration, its defaults, and the rules that add and remove flags.
    - _Preparing a compilation_ (src/server/compiler/compiler.cpp): [HeaderContext] has
      the keys of artifacts, the preamble that stands for the includers of a header, and
      the arguments of a compilation, [HeaderTheorems] the proofs; [PchBuild] the building
      of precompiled headers, with the requests that wait for a build, as a machine fed
      with events, and its invariant; [ModuleBuild] the imports, the building
      and the revalidation of modules, with its theorems.

    The dependency graph names files by the identifiers of the path pool, and the
    compile graph resolves a unit's dependencies through a callback that reads the
    dependency graph, here a parameter.  Units are compiled, and files indexed, by
    requests to the worker pool; the artifacts of those requests live in the cache
    store.  Across these borders the components only exchange identifiers and
    paths, so each is verified for whatever the other side does: the callbacks,
    the order of events and the platform are arguments of the model.  The parts of
    the index are composed: a unit's index travels as an image into the project
    index and the shards, and queries read those.

    ** Conventions

    [Res E A] is the outcome of a C++ function: [Ok], an error value [Err], [Fault]
    for undefined behaviour (an access out of range, a failed [assert],
    [llvm_unreachable]) and [Stuck] for a model that ran out of fuel.  Theorems on
    total functions say the outcome is [Ok] and describe it.  Machine integers are
    [Z] reduced by [u32] and [u64] where the code computes; [DenseMap] and
    [StringMap] are [gmap]; strings are lists of bytes.

    Fuel: the searches on graphs take one unit per node that can still be marked,
    so the number of nodes plus one is enough (proved in [Worklist]); brace parsing,
    the glob matcher and the loops over the characters and lines of a comment take
    fuel bounded by the sizes of their inputs, and the theorems show it is never
    exhausted.  The wavefront scan takes one unit per wave, and [ScanTheorems] shows
    that the number of files is enough; the loops of the lexer take one per byte of the
    text.  Every other loop is structural.

    ** What the theorems show

    - Compile graph: no execution violates an assertion or uses a dead handle;
      interest counts equal the live references; a unit has at most one task; a
      unit is dispatched only after its dependencies are clean; edges are
      symmetric; some step is possible while a request is pending, and a graph
      that cannot move is idle; [update] and [has_wait_cycle] meet their
      specifications.
    - Searches: shortest include chains, exactly the source files that reach a
      header, the reverse map as the converse relation; interning round-trips.
    - Fuzzy matching: the score is that of a best alignment and lies in its range,
      the displayed match is such an alignment, and segmentation equals its
      reference definition.
    - Globs: brace expansion is the product of the alternatives and terminates;
      one-segment wildcards match exactly what the reference relation says.
    - Cache store: in every interleaving of the critical sections the accounted
      sizes are exact, temporary names are unique, eviction is least recently
      used, a committed blob is found, a looked-up path exists with the recorded
      content, and a commit publishes the bytes of the temporary file.
    - Worker pool: the counters are exact; a slot has one holder; no wakeup is
      lost; dispatch is first come, first served with high priority first; the
      low-priority limit stays within its bounds; stopping ends every waiter; no
      step has undefined behaviour unless an excluded worker is being retired at
      the same time, and [excluded_retiring_worker_faults] shows that this case
      does happen.  Document ownership is exact and routing picks a least loaded
      live worker.
    - Markup: escaping is undone by Markdown's backslash rule and keeps a line of
      text from being read as another construct; a fence is longer than any run of
      backticks inside; documents built through the interface render without
      violating an assertion, trimmed and without runs of blank lines.  Comments:
      stripping always ends, leaves text without commands alone, and merges the
      documentation of a parameter in order.

    - Index: the index of a unit holds exactly what the visitor reported, sorted
      and without duplicates; images round-trip; a shard reports every entry of its
      contexts through any sequence of merges, removals, saves and loads, and in
      memory nothing else unless a compilation is merged over an old one; merging
      a unit makes its entries available, and a query returns exactly the locations
      the shards of closed files and the sessions of open ones hold, so that a
      relation the visitor reports is found by a query on its symbol.
    - Background indexing: one round runs at a time, files are taken in the order
      they were queued, and every file queued when a round is scheduled is taken.
      A saved index is published whole and loads to the same content.
    - Open documents: a query that is sent finds the tree of the text the editor has
      now; at most one compilation of a document is with the worker; requests end with
      an answer; a change of a dependency after the snapshot is noticed, up to the
      resolution of file times.  A worker answers from the last compilation, holds at
      most sixteen documents and evicts the least recently used.
    - Commands: every accepted item of the database is found again by lookup, with its
      options classified; the groups of files by command cover the database.
    - Tool chains: queries end; warmed commands are resolved without asking again, by the
      answer to a command with the same key, and commands with one key ask the same
      question.
    - Lexer and features: lookahead is invisible; merging leaves one token per range,
      and the client decodes from the encoded tokens what was meant; notes are attached
      to their diagnostic in order; region pragmas fold like parentheses.
    - Includes: a search configuration keeps the first occurrence of each directory; the
      cached resolution agrees with the plain search on disk; the quick scan reports the
      includes of its directives; the wavefront scan ends and records exactly the
      resolved edges of every file it reaches.
    - Workspace: the tables of artifacts that are saved are those a later process loads,
      as far as their blobs are left, with the same verdicts on staleness; rules apply in
      order, and the flags that survive are described exactly.
    - Preparing a compilation: keys are built from an injective encoding; a header's
      context has a shortest chain of includes with the text in front of each include;
      whoever waits for a precompiled header is woken, also when its build fails or is
      cancelled; modules that are handed to clang have their file on disk, and modules
      whose file is gone are built again.

    ** Not modelled

    Hover, inlay hints, completion of code, signature help, document symbols, the
    selection tree, the resolver of dependent names and the generation of symbol
    identifiers (src/feature, src/semantic, src/index/usr_generation.cpp) are walks over
    clang's syntax trees, whose types are not part of the repository; so are the visitors
    that feed the index, the semantic tokens and the folding ranges, here lists of what
    they report.  clang's option table, raw lexer, directive scanner, preprocessor and
    diagnostics engine, the JSON reader and the file system are parameters.  The agent client and
    the registration of the protocol's other requests translate between JSON and calls.
    In [Documents] the preparation of a compilation is one step with any outcome; what it
    does is in [HeaderContext], [PchBuild] and [ModuleBuild].  Of compiler.cpp the requests
    that bypass the open document (completion, signature help, formatting) and the
    sending of diagnostics are left out.  Of the modelled files, logging, timings, the spawning
    of processes and the transport are left out; their results enter as inputs.  The
    restart counter of a stateful worker is not kept: both outcomes of the test on it are
    considered.

    This first file holds what the others share: outcomes, machine integers, byte
    strings, loops, and facts on lists and maps. *)
From stdpp Require Export base tactics numbers list gmap strings.
From stdpp Require Import options.
From Stdlib Require Export ZArith Ascii.

(** ** Outcomes of C++ code

    [Ok a]      the function returned [a];
    [Err e]     it returned an error value ([std::unexpected], an error code);
    [Fault]     it executed undefined behaviour: an access outside an array or
                a string, a violated [assert];
    [Stuck]     the fuel given to the model of a loop ran out. *)

Inductive Res (E A : Type) : Type :=
| Ok (a : A)
| Err (e : E)
| Fault
| Stuck.
Arguments Ok {E A} a.
Arguments Err {E A} e.
Arguments Fault {E A}.
Arguments Stuck {E A}.

Global Instance Res_eq_dec `{EqDecision E, EqDecision A} : EqDecision (Res E A).
Proof. solve_decision. Defined.

Definition Res_bind {E A B} (o : Res E A) (k : A → Res E B) : Res E B :=
  match o with
  | Ok a => k a
  | Err e => Err e
  | Fault => Fault
  | Stuck => Stuck
  end.

Declare Scope cpp_scope.
Delimit Scope cpp_scope with cpp.
Notation "'let?' x ':=' o 'in' k" := (Res_bind o (λ x, k))
  (at level 10, x pattern, o at level 100, k at level 200) : cpp_scope.

(** The value of an optional read, or undefined behaviour. *)
Definition read {E A} (o : option A) : Res E A :=
  match o with Some a => Ok a | None => Fault end.

Definition is_ok {E A} (o : Res E A) : bool :=
  match o with Ok _ => true | _ => false end.

Lemma Res_bind_Ok {E A B} (o : Res E A) (k : A → Res E B) b :
  Res_bind o k = Ok b ↔ ∃ a, o = Ok a ∧ k a = Ok b.
Proof. split; [destruct o; simpl; intros; simplify_eq; eauto | intros (a & -> & ?); done]. Qed.

(** ** Machine integers *)

Definition two32 : Z := 4294967296.
Definition two64 : Z := 18446744073709551616.
Definition u32 (z : Z) : Z := z mod two32.
Definition u64 (z : Z) : Z := z mod two64.

Lemma u32_range z : (0 ≤ u32 z < two32)%Z.
Proof. unfold u32, two32. apply Z.mod_pos_bound. lia. Qed.

Lemma u64_range z : (0 ≤ u64 z < two64)%Z.
Proof. unfold u64, two64. apply Z.mod_pos_bound. lia. Qed.

Lemma u64_small z : (0 ≤ z < two64)%Z → u64 z = z.
Proof. apply Z.mod_small. Qed.

Lemma u32_small z : (0 ≤ z < two32)%Z → u32 z = z.
Proof. apply Z.mod_small. Qed.

(** ** Byte strings

    [llvm::StringRef] and [std::string] are sequences of bytes. *)

Abbreviation bytes := (list ascii).

Definition str (s : string) : bytes := String.list_ascii_of_string s.

Definition code (c : ascii) : Z := Z.of_N (N_of_ascii c).

Lemma code_range c : (0 ≤ code c < 256)%Z.
Proof. unfold code. pose proof (N_ascii_bounded c). lia. Qed.

(** The value of a plain [char] as an [int]; plain [char] is signed on some
    targets and unsigned on others. *)
Definition char_value (char_signed : bool) (c : ascii) : Z :=
  (if char_signed && bool_decide (128 ≤ code c) then code c - 256 else code c)%Z.

(** ** Automation *)

Create HintDb clice.

(** Case analysis on every [if] and [match] of the goal, then simplification. *)
Ltac cases :=
  repeat (case_match || case_decide || case_bool_decide); simplify_eq/=.

(** Split conjunctions, use hypotheses, and finish with linear arithmetic. *)
Ltac crush := repeat split; simplify_eq/=; try done; eauto with clice; try lia.

(** ** Lists *)

Lemma foldl_invariant {A B} (P : A → Prop) (f : A → B → A) (l : list B) (a : A) :
  P a → (∀ a b, b ∈ l → P a → P (f a b)) → P (foldl f a l).
Proof.
  revert a. induction l as [|b l IH]; intros a Ha Hf; simpl; [done|].
  apply IH; [apply Hf; [set_solver | done] | intros; apply Hf; [set_solver | done]].
Qed.

Lemma foldl_rev {A B} (f : A → B → A) (l : list B) (a : A) :
  foldl f a (rev l) = foldr (λ b a, f a b) a l.
Proof. induction l as [|b l IH]; simpl; [done|]. by rewrite foldl_app, IH. Qed.

(** The state of a fold after each prefix: [P] may mention what was consumed. *)
Lemma foldl_prefix_invariant {A B} (P : list B → A → Prop) (f : A → B → A) (l : list B) (a : A) :
  P [] a →
  (∀ pre b post a, l = pre ++ b :: post → P pre a → P (pre ++ [b]) (f a b)) →
  P l (foldl f a l).
Proof.
  intros H0 Hstep.
  assert (∀ pre post a, l = pre ++ post → P pre a → P l (foldl f a post)) as Hgen.
  { intros pre post. revert pre.
    induction post as [|b post IH]; intros pre a' Heq HP; simpl.
    - rewrite app_nil_r in Heq. by subst.
    - apply (IH (pre ++ [b])); [by rewrite <- app_assoc | eauto]. }
  by apply (Hgen [] l a).
Qed.

(** [push_back] unless already present, as [std::find(v) == v.end()] guards do. *)
Definition push_unique `{EqDecision A} (l : list A) (a : A) : list A :=
  if decide (a ∈ l) then l else l ++ [a].

Lemma elem_of_push_unique `{EqDecision A} (l : list A) a b :
  b ∈ push_unique l a ↔ b ∈ l ∨ b = a.
Proof. unfold push_unique. case_decide; set_solver. Qed.

Lemma NoDup_push_unique `{EqDecision A} (l : list A) a :
  NoDup l → NoDup (push_unique l a).
Proof.
  unfold push_unique. case_decide; [done|]. intros.
  apply NoDup_app. split_and!; [done | set_solver | apply NoDup_singleton].
Qed.

Lemma prefix_push_unique `{EqDecision A} (l : list A) a : l `prefix_of` push_unique l a.
Proof. unfold push_unique. case_decide; [done | by eexists]. Qed.

Lemma size_union_le `{Countable A} (X Y : gset A) : size (X ∪ Y) ≤ size X + size Y.
Proof.
  rewrite size_union_alt.
  pose proof (subseteq_size (Y ∖ X) Y ltac:(set_solver)). lia.
Qed.

Lemma size_list_to_set_le `{Countable A} (l : list A) :
  size (list_to_set (C := gset A) l) ≤ length l.
Proof.
  induction l as [|a l IH]; simpl; [done|].
  etrans; [apply size_union_le|]. rewrite size_singleton. lia.
Qed.

(** The values of a multimap: as many distinct ones as list cells at most. *)
Lemma size_concat_le `{Countable A} {K} (l : list (K * list A)) :
  size (list_to_set (C := gset A) (concat l.*2)) ≤ sum_list_with (λ e, length e.2) l.
Proof.
  induction l as [|[k ids] l IH]; simpl; [done|].
  rewrite list_to_set_app_L. etrans; [apply size_union_le|].
  apply Nat.add_le_mono; [apply size_list_to_set_le | apply IH].
Qed.

Lemma filter_all {A} (P : A → Prop) `{∀ x, Decision (P x)} (l : list A) :
  (∀ x, x ∈ l → P x) → filter P l = l.
Proof.
  induction l as [|a l IH]; intros Hl; [done|].
  rewrite filter_cons_True by (apply Hl; set_solver). f_equal. apply IH. set_solver.
Qed.

Lemma elem_of_concat {A} (x : A) (ls : list (list A)) :
  x ∈ concat ls ↔ ∃ l, l ∈ ls ∧ x ∈ l.
Proof.
  rewrite list_elem_of_In, in_concat. by setoid_rewrite list_elem_of_In.
Qed.

#[export] Hint Resolve NoDup_push_unique prefix_push_unique : clice.
#[export] Hint Resolve u32_range u64_range code_range : clice.

(** ** Default-initialising maps: [DenseMap::operator[]], [StringMap::operator[]] *)

Definition get_or `{Countable K} {V} (d : V) (m : gmap K V) (k : K) : V :=
  default d (m !! k).

(** [ranges::all_of] over the values of a map, in whatever order. *)
Lemma forallb_map `{Countable K} {V} (P : V → bool) (m : gmap K V) :
  forallb (λ e, P e.2) (map_to_list m) = true ↔ ∀ k v, m !! k = Some v → P v = true.
Proof.
  rewrite forallb_forall. split.
  - intros Hall k v Hk. apply (Hall (k, v)). apply list_elem_of_In. by apply elem_of_map_to_list.
  - intros Hall [k v] Hin. apply list_elem_of_In, elem_of_map_to_list in Hin. by eapply Hall.
Qed.

(** ** Occurrences in a list and sums over a map *)

Definition occ `{EqDecision A} (x : A) (l : list A) : nat := length (filter (λ y, y = x) l).

Lemma occ_cons `{EqDecision A} (x y : A) l :
  occ x (y :: l) = ((if decide (y = x) then 1 else 0) + occ x l)%nat.
Proof. unfold occ. rewrite filter_cons. case_decide; done. Qed.

Lemma occ_pos `{EqDecision A} (x : A) l : x ∈ l → (0 < occ x l)%nat.
Proof.
  intros Hx. assert (x ∈ filter (λ y, y = x) l) as Hf by (apply list_elem_of_filter; done).
  unfold occ. destruct (filter (λ y, y = x) l); [set_solver|simpl; lia].
Qed.

Lemma occ_le_length `{EqDecision A} (x : A) l : (occ x l ≤ length l)%nat.
Proof. apply length_filter. Qed.

Definition msum `{Countable K} {V} (f : V → nat) (m : gmap K V) : nat :=
  map_fold (λ _ v acc, f v + acc)%nat 0%nat m.

Lemma msum_empty `{Countable K} {V} (f : V → nat) : msum f (∅ : gmap K V) = 0%nat.
Proof. done. Qed.

Lemma msum_insert `{Countable K} {V} (f : V → nat) (m : gmap K V) k v :
  m !! k = None → msum f (<[k := v]> m) = (f v + msum f m)%nat.
Proof. intros Hk. unfold msum. rewrite map_fold_insert_L; [done|intros; lia|done]. Qed.

Lemma msum_delete `{Countable K} {V} (f : V → nat) (m : gmap K V) k v :
  m !! k = Some v → msum f m = (f v + msum f (delete k m))%nat.
Proof. intros Hk. unfold msum. rewrite (map_fold_delete_L _ _ k v m); [done|intros; lia|done]. Qed.

Lemma msum_update `{Countable K} {V} (f : V → nat) (m : gmap K V) k v v' :
  m !! k = Some v → (msum f (<[k := v']> m) + f v = f v' + msum f m)%nat.
Proof.
  intros Hk. rewrite (msum_delete f m k v) by done.
  rewrite <- insert_delete_eq, msum_insert by apply lookup_delete_eq. lia.
Qed.

Lemma msum_lookup_le `{Countable K} {V} (f : V → nat) (m : gmap K V) k v :
  m !! k = Some v → (f v ≤ msum f m)%nat.
Proof. intros Hk. rewrite (msum_delete f m k v) by done. lia. Qed.

(** ** Counted loops: [for(x: l) body], with the loop state threaded. *)

Fixpoint for_each {E A S} (l : list A) (body : A → S → Res E S) (s : S) : Res E S :=
  match l with
  | [] => Ok s
  | a :: l => Res_bind (body a s) (for_each l body)
  end.

(** Total correctness of a counted loop, with the consumed prefix. *)
Lemma for_each_prefix {E A S} (I : list A → S → Prop) (l : list A) (body : A → S → Res E S) s :
  I [] s →
  (∀ pre a post s, l = pre ++ a :: post → I pre s → ∃ s', body a s = Ok s' ∧ I (pre ++ [a]) s') →
  ∃ s', for_each l body s = Ok s' ∧ I l s'.
Proof.
  intros H0 Hstep.
  assert (∀ pre post s, l = pre ++ post → I pre s →
            ∃ s', for_each post body s = Ok s' ∧ I l s') as Hgen.
  { intros pre post. revert pre. induction post as [|a post IH]; intros pre s1 Heq HI; simpl.
    - rewrite app_nil_r in Heq. subst. by exists s1.
    - destruct (Hstep pre a post s1 Heq HI) as (s2 & -> & HI2). simpl.
      apply (IH (pre ++ [a])); [by rewrite <- app_assoc | done]. }
  by apply (Hgen [] l s).
Qed.

(** The same over [0 .. n-1], the shape of [for(int i = 0; i < n; ++i)]. *)
Lemma for_each_range {E S} (I : nat → S → Prop) (k n : nat) (body : nat → S → Res E S) s :
  I k s →
  (∀ i s, (k ≤ i < k + n)%nat → I i s → ∃ s', body i s = Ok s' ∧ I (Datatypes.S i) s') →
  ∃ s', for_each (seq k n) body s = Ok s' ∧ I (k + n)%nat s'.
Proof.
  revert k s. induction n as [|n IH]; intros k s H0 Hstep; simpl.
  - exists s. by rewrite Nat.add_0_r.
  - destruct (Hstep k s ltac:(lia) H0) as (s' & -> & Hs'). simpl.
    rewrite <- Nat.add_succ_comm. apply IH; [done|]. intros i s1 Hi. apply Hstep. lia.
Qed.
