(* ===== verification/Worklist.v ===== *)
(** * Worklist traversals

    [CompileGraph::update] and [CompileGraph::has_wait_cycle] both run the loop

      while(!queue.empty()) {
          auto current = queue.pop_back_val();
          if(!visited.insert(current).second) continue;
          ... visit current, push successors ...
      }

    This file defines that loop once, over an arbitrary visitor, and proves its
    invariant rule, its termination bound and its reachability theorem.  The
    queue is kept with its back first, so [pop_back_val] takes the head. *)
From S2P Require Import Prelude.
From stdpp Require Import relations.

(** What visiting a node did: finish the whole loop early with a state, or
    push nodes (in program order) and go on. *)
Inductive visit_result (S N : Type) : Type :=
| VStop (s : S)
| VPush (s : S) (pushed : list N).
Arguments VStop {S N} s.
Arguments VPush {S N} s pushed.

(** How the loop ended. *)
Inductive wl_result (S N : Type) `{Countable N} : Type :=
| WStopped (s : S)
| WDone (visited : gset N) (s : S).
Arguments WStopped {S N _ _} s.
Arguments WDone {S N _ _} visited s.

Section Worklist.
Context {N S : Type} `{Countable N}.
Context (visit : S → N → visit_result S N).

Fixpoint worklist (fuel : nat) (queue : list N) (visited : gset N) (s : S)
  : option (wl_result S N) :=
  match fuel with
  | O => None
  | Datatypes.S fuel =>
    match queue with
    | [] => Some (WDone visited s)
    | n :: rest =>
      if decide (n ∈ visited) then worklist fuel rest visited s
      else match visit s n with
           | VStop s' => Some (WStopped s')
           | VPush s' pushed =>
             worklist fuel (rev pushed ++ rest) ({[n]} ∪ visited) s'
           end
    end
  end.

(** *** Termination and invariants *)
Section Termination.
Context (D : gset N) (deg : N → nat).

Definition wl_weight (queue : list N) (visited : gset N) : nat :=
  length queue + sum_list_with deg (elements (D ∖ visited)).

Lemma wl_weight_pop n rest visited k :
  n ∉ visited → k ≤ deg n → (n ∉ D → k = 0) →
  k + wl_weight rest ({[n]} ∪ visited) < wl_weight (n :: rest) visited.
Proof.
  intros Hn Hk HD. unfold wl_weight. simpl.
  destruct (decide (n ∈ D)) as [HnD|HnD].
  - assert (D ∖ visited = {[n]} ∪ (D ∖ ({[n]} ∪ visited))) as ->.
    { apply set_eq. intros x. destruct (decide (x = n)); set_solver. }
    rewrite elements_union_singleton by set_solver. simpl. lia.
  - rewrite (HD HnD).
    assert (D ∖ ({[n]} ∪ visited) = D ∖ visited) as -> by set_solver. lia.
Qed.

(** Total correctness: under an invariant [I] that also bounds what a visit
    pushes (at most [deg n] nodes, none from a node outside [D]), the loop
    ends within [wl_weight] pops, in a state satisfying [I] or, on an early
    exit, [J]. *)
Lemma worklist_run (I : list N → gset N → S → Prop) (J : S → Prop) :
  (∀ n rest visited s, I (n :: rest) visited s → n ∈ visited → I rest visited s) →
  (∀ n rest visited s s' pushed,
      I (n :: rest) visited s → n ∉ visited → visit s n = VPush s' pushed →
      I (rev pushed ++ rest) ({[n]} ∪ visited) s' ∧
      length pushed ≤ deg n ∧ (n ∉ D → pushed = [])) →
  (∀ n rest visited s s',
      I (n :: rest) visited s → n ∉ visited → visit s n = VStop s' → J s') →
  ∀ fuel queue visited s,
    I queue visited s → wl_weight queue visited < fuel →
    ∃ r, worklist fuel queue visited s = Some r ∧
      match r with WStopped s' => J s' | WDone visited' s' => I [] visited' s' end.
Proof.
  intros Hskip Hpush Hstop fuel.
  induction fuel as [|fuel IH]; intros queue visited s HI Hf; [lia|].
  simpl. destruct queue as [|n rest]; [by exists (WDone visited s)|].
  case_decide as Hn.
  - apply IH; [by eauto|]. unfold wl_weight in *. simpl in Hf. lia.
  - destruct (visit s n) as [s'|s' pushed] eqn:E.
    { exists (WStopped s'). split; [done|]. by eapply Hstop. }
    destruct (Hpush _ _ _ _ _ _ HI Hn E) as (HI' & Hlen & HD).
    apply IH; [done|].
    pose proof (wl_weight_pop n rest visited (length pushed) Hn Hlen) as Hw.
    specialize (Hw ltac:(intros; by rewrite HD)).
    unfold wl_weight in *. rewrite length_app, length_rev. simpl in *. lia.
Qed.
End Termination.

(** *** Reachability *)
Section Reachability.
Context (edge : N → N → Prop).

Definition reach_from (starts : list N) (x : N) : Prop :=
  ∃ q, q ∈ starts ∧ rtc edge q x.

Definition reach_inv (starts queue : list N) (visited : gset N) : Prop :=
  (∀ x, x ∈ visited ∨ x ∈ queue → reach_from starts x) ∧
  (∀ q, q ∈ starts → q ∈ visited ∨ q ∈ queue) ∧
  (∀ v x, v ∈ visited → edge v x → x ∈ visited ∨ x ∈ queue).

Lemma reach_inv_init starts : reach_inv starts starts ∅.
Proof.
  split_and!; [|set_solver..]. intros x [?|Hx]; [set_solver|].
  exists x. split; [done | reflexivity].
Qed.

Lemma reach_inv_skip starts n rest visited :
  reach_inv starts (n :: rest) visited → n ∈ visited → reach_inv starts rest visited.
Proof.
  intros (H1 & H2 & H3) Hn. split_and!.
  - intros x Hx. apply H1. set_solver.
  - intros q Hq. destruct (H2 q Hq); set_solver.
  - intros v x Hv Hx. destruct (H3 v x Hv Hx); set_solver.
Qed.

Lemma reach_inv_push starts n rest visited pushed :
  reach_inv starts (n :: rest) visited →
  (∀ x, x ∈ pushed → edge n x) →
  (∀ x, edge n x → x ∈ pushed ∨ x ∈ {[n]} ∪ visited) →
  reach_inv starts (rev pushed ++ rest) ({[n]} ∪ visited).
Proof.
  intros (H1 & H2 & H3) Hsound Hcompl.
  assert (∀ x, x ∈ rev pushed ↔ x ∈ pushed) as Hrev.
  { intros x. rewrite !list_elem_of_In. symmetry. apply List.in_rev. }
  split_and!.
  - intros x. rewrite elem_of_app, Hrev. intros Hx.
    destruct (decide (x ∈ pushed)) as [Hp|Hp]; [|apply H1; set_solver].
    destruct (H1 n) as (q & ? & ?); [set_solver|].
    exists q. split; [done|]. eapply rtc_r; eauto.
  - intros q Hq. rewrite elem_of_app. destruct (H2 q Hq); set_solver.
  - intros v x Hv Hx. rewrite elem_of_app, Hrev.
    destruct (decide (v = n)) as [->|Hvn]; [destruct (Hcompl x Hx); set_solver|].
    destruct (H3 v x); set_solver.
Qed.

Lemma reach_inv_final starts visited :
  reach_inv starts [] visited → ∀ x, x ∈ visited ↔ reach_from starts x.
Proof.
  intros (H1 & H2 & H3) x. split; [intros; apply H1; by left|].
  intros (q & Hq & Hr).
  assert (q ∈ visited) as Hv by (destruct (H2 q Hq); set_solver).
  clear Hq. induction Hr as [|a b c Hab Hbc IH]; [done|].
  apply IH. destruct (H3 a b Hv Hab); set_solver.
Qed.
End Reachability.
End Worklist.

#[export] Hint Resolve reach_inv_init reach_inv_skip reach_inv_push : clice.

(** A cycle that appears when one edge is added to an acyclic relation uses it. *)
Lemma tc_add_edge {A} (R : relation A) (p d a : A) :
  tc (λ x y, R x y ∨ (x = p ∧ y = d)) a a → tc R a a ∨ rtc R d p.
Proof.
  assert (∀ x y, tc (λ x y, R x y ∨ (x = p ∧ y = d)) x y →
            tc R x y ∨ (rtc R x p ∧ rtc R d y)) as Hgen.
  { induction 1 as [x y [H|[-> ->]]|x y z [H|[-> ->]] _ IH].
    - left. by apply tc_once.
    - right. split; reflexivity.
    - destruct IH as [IH|[IH1 IH2]]; [left; by eapply tc_l|right].
      split; [by eapply rtc_l|done].
    - right. split; [reflexivity|]. destruct IH as [IH|[_ IH]]; [by apply tc_rtc|done]. }
  intros Ha. destruct (Hgen a a Ha) as [?|[H1 H2]]; [by left|right]. by etrans.
Qed.
