(* ===== verification/PathPool.v ===== *)
(** * Path interning (src/support/path_pool.h)

    [PathPool] maps file paths to compact 32-bit identifiers and back.  The
    model keeps the vector [paths] and the hash map [cache]; the bump allocator
    that owns the characters of a path has no behaviour of its own. *)
From S2P Require Import Prelude.
Local Open Scope Z_scope.

Record PathPool := mkPathPool {
  paths : list bytes;
  cache : gmap bytes Z;
}.

Definition empty_pool : PathPool := mkPathPool [] ∅.

(** [std::replace(begin, end, '\\', '/')], run only when the path contains a
    backslash. *)
Definition normalize (path : bytes) : bytes :=
  let replaced := (λ c : ascii, if decide (c = "\"%char) then "/"%char else c) <$> path in
  if decide ("\"%char ∈ path) then replaced else path.

(** [cache.try_emplace(path, paths.size())]; the size is converted to
    [std::uint32_t]. *)
Definition intern (pool : PathPool) (path0 : bytes) : PathPool * Z :=
  let path := normalize path0 in
  match cache pool !! path with
  | Some id => (pool, id)
  | None =>
    let id := u32 (Z.of_nat (length (paths pool))) in
    (mkPathPool (paths pool ++ [path]) (<[path := id]> (cache pool)), id)
  end.

(** [resolve] asserts that the identifier is in range. *)
Definition resolve (pool : PathPool) (id : Z) : option bytes :=
  if decide (0 ≤ id) then paths pool !! Z.to_nat id else None.

(** The representation invariant: [cache] is exactly the inverse of [paths]. *)
Definition pool_ok (pool : PathPool) : Prop :=
  Z.of_nat (length (paths pool)) ≤ two32 ∧
  ∀ p id, cache pool !! p = Some id ↔ 0 ≤ id ∧ paths pool !! Z.to_nat id = Some p.

Fixpoint intern_all (pool : PathPool) (ps : list bytes) : PathPool * list Z :=
  match ps with
  | [] => (pool, [])
  | p :: ps =>
    let '(pool1, id) := intern pool p in
    let '(pool2, ids) := intern_all pool1 ps in
    (pool2, id :: ids)
  end.

Lemma normalize_idem p : normalize (normalize p) = normalize p.
Proof.
  unfold normalize.
  set (f := λ c : ascii, if decide (c = "\"%char) then "/"%char else c).
  destruct (decide ("\"%char ∈ p)) as [Hp|Hp].
  - rewrite decide_False; [done|]. rewrite list_elem_of_fmap. unfold f.
    intros (c & Hc & _). case_decide; congruence.
  - by rewrite decide_False.
Qed.

Lemma normalize_noop p : "\"%char ∉ p → normalize p = p.
Proof. intros. unfold normalize. by rewrite decide_False. Qed.

Lemma empty_pool_ok : pool_ok empty_pool.
Proof.
  split; [done|]. intros p id. simpl. rewrite lookup_empty, lookup_nil. naive_solver.
Qed.

Lemma intern_ok pool p :
  pool_ok pool → Z.of_nat (length (paths pool)) < two32 → pool_ok (intern pool p).1.
Proof.
  intros [Hlen Hinv] Hlt. unfold intern.
  destruct (cache pool !! normalize p) as [id|] eqn:E; [done|]. split; simpl.
  { rewrite length_app. simpl. lia. }
  intros q i. rewrite u32_small by lia.
  assert (paths pool !! Z.to_nat i = Some q → 0 ≤ i → (normalize p) ≠ q) as Hne.
  { intros Hq Hi <-. assert (cache pool !! normalize p = Some i) by (by apply Hinv). congruence. }
  destruct (decide (normalize p = q)) as [<-|Hpq].
  - rewrite lookup_insert_eq. split.
    + intros [= <-]. split; [lia|]. rewrite lookup_app_r by lia.
      by replace (_ - _)%nat with 0%nat by lia.
    + intros [Hi Hl]. apply lookup_app_Some in Hl as [Hl|[Hl1 Hl2]]; [by destruct Hne|].
      apply list_lookup_singleton_Some in Hl2 as [? _]. f_equal. lia.
  - rewrite lookup_insert_ne, Hinv by done. split; intros [Hi Hl]; split; try done.
    + by apply lookup_app_l_Some.
    + apply lookup_app_Some in Hl as [Hl|[Hl1 Hl2]]; [done|].
      apply list_lookup_singleton_Some in Hl2 as [? ?]. congruence.
Qed.

Lemma intern_paths_prefix pool p : paths pool `prefix_of` paths (intern pool p).1.
Proof. unfold intern. case_match; simpl; [done | by eexists]. Qed.

Lemma intern_length pool p :
  (length (paths (intern pool p).1) ≤ S (length (paths pool)))%nat.
Proof. unfold intern. case_match; simpl; [lia|]. rewrite length_app. simpl. lia. Qed.

Lemma resolve_intern pool p :
  pool_ok pool → Z.of_nat (length (paths pool)) < two32 →
  resolve (intern pool p).1 (intern pool p).2 = Some (normalize p).
Proof.
  intros Hok Hlt. destruct (intern_ok pool p Hok Hlt) as [_ Hinv].
  assert (cache (intern pool p).1 !! normalize p = Some (intern pool p).2) as Hc.
  { unfold intern. case_match eqn:E; simpl; [done | apply lookup_insert_eq]. }
  apply Hinv in Hc as [? ?]. unfold resolve. by rewrite decide_True.
Qed.

Lemma resolve_stable pool pool' id p :
  paths pool `prefix_of` paths pool' → resolve pool id = Some p → resolve pool' id = Some p.
Proof.
  unfold resolve. intros [l Hl] Hr. case_decide; [|done].
  rewrite Hl. by apply lookup_app_l_Some.
Qed.

Lemma intern_all_prefix pool ps : paths pool `prefix_of` paths (intern_all pool ps).1.
Proof.
  revert pool. induction ps as [|p ps IH]; intros pool; simpl; [done|].
  pose proof (intern_paths_prefix pool p) as Hp.
  destruct (intern pool p) as [pool1 id]. specialize (IH pool1).
  destruct (intern_all pool1 ps) as [pool2 ids]. simpl in *. by trans (paths pool1).
Qed.

Lemma intern_all_resolve pool ps :
  pool_ok pool → Z.of_nat (length (paths pool) + length ps) ≤ two32 →
  let '(pool', ids) := intern_all pool ps in
  pool_ok pool' ∧ Forall2 (λ p id, resolve pool' id = Some (normalize p)) ps ids.
Proof.
  revert pool. induction ps as [|p ps IH]; intros pool Hok Hlen; simpl; [done|].
  simpl in Hlen.
  pose proof (intern_ok pool p Hok ltac:(lia)) as Hok1.
  pose proof (resolve_intern pool p Hok ltac:(lia)) as Hr.
  pose proof (intern_length pool p) as Hl.
  destruct (intern pool p) as [pool1 id]. simpl in *.
  specialize (IH pool1 Hok1 ltac:(lia)).
  pose proof (intern_all_prefix pool1 ps) as Hpre.
  destruct (intern_all pool1 ps) as [pool2 ids]. destruct IH as [Hok2 Hall].
  split; [done|]. constructor; [|done]. by eapply resolve_stable.
Qed.

#[export] Hint Resolve empty_pool_ok intern_ok intern_paths_prefix : clice.

(** Interning any sequence of paths into a fresh pool (within the 32-bit
    identifier space) gives identifiers that all resolve, at the end, to their
    normalised paths, and two paths share an identifier exactly when their
    normalised forms agree. *)
Theorem intern_sequence_correct (ps : list bytes) (i j : nat) (p q : bytes) (a b : Z) :
  Z.of_nat (length ps) ≤ two32 →
  ps !! i = Some p → ps !! j = Some q →
  (intern_all empty_pool ps).2 !! i = Some a →
  (intern_all empty_pool ps).2 !! j = Some b →
  resolve (intern_all empty_pool ps).1 a = Some (normalize p) ∧
  (a = b ↔ normalize p = normalize q).
Proof.
  intros Hlen Hp Hq Ha Hb.
  pose proof (intern_all_resolve empty_pool ps empty_pool_ok Hlen) as Hall.
  destruct (intern_all empty_pool ps) as [pool ids]. simpl in *.
  destruct Hall as [[_ Hinv] Hall].
  pose proof (Forall2_lookup_lr _ _ _ _ _ _ Hall Hp Ha) as Hra.
  pose proof (Forall2_lookup_lr _ _ _ _ _ _ Hall Hq Hb) as Hrb.
  simpl in Hra, Hrb. split; [done|]. split; [congruence|]. intros E. rewrite E in Hra.
  unfold resolve in Hra, Hrb. case_decide as H1; [|done]. case_decide as H2; [|done].
  pose proof (proj2 (Hinv _ _) (conj H2 Hra)). pose proof (proj2 (Hinv _ _) (conj H1 Hrb)).
  congruence.
Qed.

Lemma intern_sequence_correct_witness :
  resolve (intern_all empty_pool [str "a\b"; str "c"; str "a/b"]).1 0 =
    Some (normalize (str "a\b")) ∧
  (0 = 0 ↔ normalize (str "a\b") = normalize (str "a/b")).
Proof.
  apply (intern_sequence_correct [str "a\b"; str "c"; str "a/b"] 0 2).
  - vm_compute. discriminate.
  - reflexivity.
  - reflexivity.
  - vm_compute. reflexivity.
  - vm_compute. reflexivity.
Defined.
