(* ===== verification/DependencyGraph.v ===== *)
(** * The include/module dependency graph (src/syntax/dependency_graph.{h,cpp})

    [DependencyGraph] stores, per (file, search configuration), the list of
    directly included files (bit 31 of an entry marks a conditional include),
    the module-name table and the derived reverse include map; it answers
    [get_all_includes], [find_host_sources] and [find_include_chain]. *)
From S2P Require Import Prelude.
From stdpp Require Import relations.
Local Open Scope Z_scope.

(** Bit 31 marks an include inside #ifdef/#if. *)
Definition CONDITIONAL_FLAG : Z := 0x80000000.
Definition PATH_ID_MASK : Z := 0x7FFFFFFF.

Record IncludeKey := mkIncludeKey {
  path_id : Z;
  config_id : Z;
}.

Global Instance IncludeKey_eq_dec : EqDecision IncludeKey.
Proof. solve_decision. Defined.

Global Instance IncludeKey_countable : Countable IncludeKey.
Proof.
  apply (inj_countable' (λ k, (path_id k, config_id k)) (λ p, mkIncludeKey p.1 p.2)).
  by intros [].
Defined.

Record DependencyGraph := mkDependencyGraph {
  module_to_path : gmap bytes (list Z);
  includes : gmap IncludeKey (list Z);
  file_configs : gmap Z (list Z);
  reverse_includes_ : gmap Z (list Z);
}.

Definition empty_graph : DependencyGraph := mkDependencyGraph ∅ ∅ ∅ ∅.

(** ** Operations *)

Definition add_module (g : DependencyGraph) (module_name : bytes) (path : Z) : DependencyGraph :=
  mkDependencyGraph
    (<[module_name := push_unique (get_or [] (module_to_path g) module_name) path]>
       (module_to_path g))
    (includes g) (file_configs g) (reverse_includes_ g).

Definition lookup_module (g : DependencyGraph) (module_name : bytes) : list Z :=
  get_or [] (module_to_path g) module_name.

Definition set_includes (g : DependencyGraph) (path config : Z) (included_ids : list Z)
  : DependencyGraph :=
  mkDependencyGraph (module_to_path g)
    (<[mkIncludeKey path config := included_ids]> (includes g))
    (<[path := push_unique (get_or [] (file_configs g) path) config]> (file_configs g))
    (reverse_includes_ g).

Definition get_includes (g : DependencyGraph) (path config : Z) : list Z :=
  get_or [] (includes g) (mkIncludeKey path config).

(** The body of the inner loop of [get_all_includes]: [seen] maps a raw id to
    its position in [result]. *)
Definition merge_include (acc : gmap Z nat * list Z) (id : Z) : gmap Z nat * list Z :=
  let '(seen, result) := acc in
  let raw_id := Z.land id PATH_ID_MASK in
  match seen !! raw_id with
  | None => (<[raw_id := length result]> seen, result ++ [id])
  | Some i =>
    if decide (Z.land id CONDITIONAL_FLAG = 0) then (seen, <[i := raw_id]> result)
    else (seen, result)
  end.

Definition get_all_includes (g : DependencyGraph) (path : Z) : list Z :=
  match file_configs g !! path with
  | None => []
  | Some configs =>
    (foldl (λ acc config,
        match includes g !! mkIncludeKey path config with
        | Some ids => foldl merge_include acc ids
        | None => acc
        end) (∅, []) configs).2
  end.

Definition file_count (g : DependencyGraph) : nat := size (file_configs g).

Definition module_count (g : DependencyGraph) : nat := size (module_to_path g).

Definition edge_count (g : DependencyGraph) : nat :=
  map_fold (λ _ ids count, (count + length ids)%nat) 0%nat (includes g).

(** [build_reverse_map] walks a hash map: the order [entries] of the walk is an
    argument, any permutation of the stored pairs. *)
Definition add_reverse (src : Z) (rev_map : gmap Z (list Z)) (flagged_id : Z) : gmap Z (list Z) :=
  let included_id := Z.land flagged_id PATH_ID_MASK in
  <[included_id := push_unique (get_or [] rev_map included_id) src]> rev_map.

Definition build_reverse_map (g : DependencyGraph) (entries : list (IncludeKey * list Z))
  : DependencyGraph :=
  mkDependencyGraph (module_to_path g) (includes g) (file_configs g)
    (foldl (λ rev_map e, foldl (add_reverse (path_id e.1)) rev_map e.2) ∅ entries).

Definition get_includers (g : DependencyGraph) (path : Z) : list Z :=
  get_or [] (reverse_includes_ g) path.

(** The loop of [find_host_sources]; the queue has its back first. *)
Definition enqueue_includer (acc : gset Z * list Z) (includer : Z) : gset Z * list Z :=
  let '(visited, queue) := acc in
  if decide (includer ∈ visited) then (visited, queue)
  else ({[includer]} ∪ visited, includer :: queue).

Fixpoint host_loop (fuel : nat) (g : DependencyGraph) (header : Z)
    (queue : list Z) (visited : gset Z) (result : list Z) : option (list Z) :=
  match fuel with
  | O => None
  | S fuel =>
    match queue with
    | [] => Some result
    | current :: rest =>
      match get_includers g current with
      | [] =>
        host_loop fuel g header rest visited
          (if decide (current ≠ header) then result ++ [current] else result)
      | includers =>
        let '(visited', rest') := foldl enqueue_includer (visited, rest) includers in
        host_loop fuel g header rest' visited' result
      end
    end
  end.

(** Every node but the header enters the queue as an element of some list of
    [reverse_includes_], once: this bounds the number of iterations. *)
Definition host_fuel (g : DependencyGraph) : nat :=
  2 + sum_list_with (λ e, length e.2) (map_to_list (reverse_includes_ g)).

Definition find_host_sources (g : DependencyGraph) (header : Z) : option (list Z) :=
  host_loop (host_fuel g) g header [header] {[header]} [].

(** [find_include_chain]: breadth-first layers with a predecessor map. *)
Record bfs_state := mkBfs {
  prev : gmap Z Z;
  next_queue : list Z;
  found : bool;
}.

Fixpoint scan_children (target current : Z) (ids : list Z) (st : bfs_state) : bfs_state :=
  match ids with
  | [] => st
  | flagged_id :: ids =>
    let child := Z.land flagged_id PATH_ID_MASK in
    match prev st !! child with
    | Some _ => scan_children target current ids st
    | None =>
      let prev' := <[child := current]> (prev st) in
      if decide (child = target) then mkBfs prev' (next_queue st) true
      else scan_children target current ids (mkBfs prev' (next_queue st ++ [child]) false)
    end
  end.

Fixpoint scan_layer (g : DependencyGraph) (target : Z) (queue : list Z) (st : bfs_state)
  : bfs_state :=
  match queue with
  | [] => st
  | current :: queue =>
    let st' := scan_children target current (get_all_includes g current) st in
    if found st' then st' else scan_layer g target queue st'
  end.

Fixpoint bfs_loop (fuel : nat) (g : DependencyGraph) (target : Z)
    (queue : list Z) (prev0 : gmap Z Z) : option (bool * gmap Z Z) :=
  match fuel with
  | O => None
  | S fuel =>
    match queue with
    | [] => Some (false, prev0)
    | _ =>
      let st := scan_layer g target queue (mkBfs prev0 [] false) in
      if found st then Some (true, prev st)
      else bfs_loop fuel g target (next_queue st) (prev st)
    end
  end.

(** [node = prev[node]]: [operator[]] on a missing key yields 0. *)
Fixpoint walk_back (fuel : nat) (host : Z) (prev0 : gmap Z Z) (node : Z) (chain : list Z)
  : option (list Z) :=
  match fuel with
  | O => None
  | S fuel =>
    if decide (node = host) then Some (chain ++ [host])
    else walk_back fuel host prev0 (get_or 0 prev0 node) (chain ++ [node])
  end.

(** Each layer but the last adds a key to [prev], and every key but the host is
    an included id of some entry. *)
Definition chain_fuel (g : DependencyGraph) : nat :=
  3 + sum_list_with (λ e, length e.2) (map_to_list (includes g)).

Definition find_include_chain (g : DependencyGraph) (host target : Z) : option (list Z) :=
  if decide (host = target) then Some [host]
  else
    match bfs_loop (chain_fuel g) g target [host] {[host := host]} with
    | None => None
    | Some (false, _) => Some []
    | Some (true, prev0) =>
      match walk_back (chain_fuel g) host prev0 target [] with
      | None => None
      | Some chain => Some (rev chain)
      end
    end.

(** ** Well-formedness *)

(** [file_configs] lists, without repetition, exactly the configurations that
    have an include entry. *)
Definition graph_ok (g : DependencyGraph) : Prop :=
  ∀ p, NoDup (get_or [] (file_configs g) p) ∧
       ∀ c, c ∈ get_or [] (file_configs g) p ↔ is_Some (includes g !! mkIncludeKey p c).

(** [a] directly includes [b], in some configuration. *)
Definition include_edge (g : DependencyGraph) (a b : Z) : Prop :=
  ∃ c ids id, includes g !! mkIncludeKey a c = Some ids ∧ id ∈ ids ∧ Z.land id PATH_ID_MASK = b.

(** ... outside any conditional directive. *)
Definition unconditional_edge (g : DependencyGraph) (a b : Z) : Prop :=
  ∃ c ids id, includes g !! mkIncludeKey a c = Some ids ∧ id ∈ ids ∧
    Z.land id PATH_ID_MASK = b ∧ Z.land id CONDITIONAL_FLAG = 0.

(** File 1 includes 2 and, under an #if, 3; file 2 includes 3. *)
Definition sample_graph : DependencyGraph :=
  set_includes (set_includes empty_graph 1 0 [2; 3 + CONDITIONAL_FLAG]) 2 0 [3].

Lemma get_or_insert `{Countable K} {V} (d : V) (m : gmap K V) k v k' :
  get_or d (<[k := v]> m) k' = if decide (k = k') then v else get_or d m k'.
Proof. unfold get_or. rewrite lookup_insert. by case_decide. Qed.

Lemma empty_graph_ok : graph_ok empty_graph.
Proof.
  intros p. unfold get_or. simpl. rewrite lookup_empty. split; [constructor|].
  intros c. rewrite lookup_empty. simpl. split; [set_solver | by intros []].
Qed.

Lemma set_includes_ok g p c ids : graph_ok g → graph_ok (set_includes g p c ids).
Proof.
  intros Hg q. unfold set_includes. simpl. rewrite get_or_insert.
  destruct (Hg p) as [Hnd Hin], (Hg q) as [Hndq Hinq].
  case_decide as E; [subst q|].
  - split; [by apply NoDup_push_unique|]. intros c'. rewrite elem_of_push_unique.
    rewrite lookup_insert. rewrite Hin. case_decide; simplify_eq; naive_solver.
  - split; [done|]. intros c'. rewrite lookup_insert_ne by congruence. apply Hinq.
Qed.

Lemma add_module_ok g m p : graph_ok g → graph_ok (add_module g m p).
Proof. done. Qed.

Lemma build_reverse_map_ok g es : graph_ok g → graph_ok (build_reverse_map g es).
Proof. done. Qed.

#[export] Hint Resolve empty_graph_ok set_includes_ok add_module_ok build_reverse_map_ok : clice.

Lemma sample_graph_ok : graph_ok sample_graph.
Proof. unfold sample_graph. do 2 apply set_includes_ok. apply empty_graph_ok. Qed.

(** ** get_all_includes *)

Lemma land_mask_idem id : Z.land (Z.land id PATH_ID_MASK) PATH_ID_MASK = Z.land id PATH_ID_MASK.
Proof. by rewrite <- Z.land_assoc. Qed.

Lemma land_mask_flag id : Z.land (Z.land id PATH_ID_MASK) CONDITIONAL_FLAG = 0.
Proof. rewrite <- Z.land_assoc. apply Z.land_0_r. Qed.

(** The ids the loops of [get_all_includes] visit, in order. *)
Definition all_ids (g : DependencyGraph) (p : Z) : list Z :=
  concat (get_includes g p <$> get_or [] (file_configs g) p).

Lemma get_all_includes_flat g p :
  get_all_includes g p = (foldl merge_include (∅, []) (all_ids g p)).2.
Proof.
  unfold get_all_includes, all_ids. unfold get_or at 1.
  destruct (file_configs g !! p) as [configs|]; [simpl|done].
  generalize (@pair (gmap Z nat) (list Z) ∅ []).
  induction configs as [|c configs IH]; intros acc; simpl; [done|].
  rewrite foldl_app, <- IH. f_equal. f_equal.
  unfold get_includes, get_or. by destruct (includes g !! _).
Qed.

Definition merge_inv (ids : list Z) (acc : gmap Z nat * list Z) : Prop :=
  (∀ raw i, acc.1 !! raw = Some i ↔
            ∃ x, acc.2 !! i = Some x ∧ Z.land x PATH_ID_MASK = raw) ∧
  (∀ raw, (∃ x, x ∈ acc.2 ∧ Z.land x PATH_ID_MASK = raw) ↔
          ∃ id, id ∈ ids ∧ Z.land id PATH_ID_MASK = raw) ∧
  (∀ x, x ∈ acc.2 → Z.land x CONDITIONAL_FLAG = 0 ↔
        ∃ id, id ∈ ids ∧ Z.land id PATH_ID_MASK = Z.land x PATH_ID_MASK ∧
              Z.land id CONDITIONAL_FLAG = 0).

Lemma merge_inv_fresh ids seen result id :
  merge_inv ids (seen, result) → seen !! Z.land id PATH_ID_MASK = None →
  merge_inv (ids ++ [id])
    (<[Z.land id PATH_ID_MASK := length result]> seen, result ++ [id]).
Proof.
  intros (Hs & Hr & Hc) E. simpl in *. split_and!; simpl.
  - intros raw i. rewrite lookup_insert. case_decide as Er.
    + subst raw. split.
      * intros [= <-]. exists id. by rewrite lookup_app_r, Nat.sub_diag by done.
      * intros (x & Hx & Hm). f_equal.
        apply lookup_app_Some in Hx as [Hx|[Hx1 Hx2]].
        -- assert (seen !! Z.land id PATH_ID_MASK = Some i) by (apply Hs; eauto). congruence.
        -- apply list_lookup_singleton_Some in Hx2 as [? _]. lia.
    + rewrite Hs. split; intros (x & Hx & Hm); exists x; split; try done.
      * by apply lookup_app_l_Some.
      * apply lookup_app_Some in Hx as [Hx|[Hx1 Hx2]]; [done|].
        apply list_lookup_singleton_Some in Hx2 as [_ ?]. congruence.
  - intros raw. specialize (Hr raw).
    split; intros (x & Hx & Hm); apply elem_of_app in Hx as [Hx|Hx].
    + destruct (proj1 Hr (ex_intro _ x (conj Hx Hm))) as (y & ? & ?). exists y.
      rewrite elem_of_app. auto.
    + exists x. rewrite elem_of_app. auto.
    + destruct (proj2 Hr (ex_intro _ x (conj Hx Hm))) as (y & ? & ?). exists y.
      rewrite elem_of_app. auto.
    + exists x. rewrite elem_of_app. auto.
  - intros x Hx. rewrite elem_of_app, list_elem_of_singleton in Hx.
    setoid_rewrite elem_of_app. setoid_rewrite list_elem_of_singleton.
    assert (∀ z, z ∈ result → Z.land z PATH_ID_MASK ≠ Z.land id PATH_ID_MASK) as Hfresh.
    { intros z Hz Hm. apply list_elem_of_lookup in Hz as [i Hi].
      assert (seen !! Z.land id PATH_ID_MASK = Some i) by (apply Hs; eauto). congruence. }
    destruct Hx as [Hx| ->].
    + rewrite (Hc x Hx). split; [intros (y & ? & ?); by eauto|].
      intros (y & [Hy| ->] & Hym & Hyc); [by eauto|]. by destruct (Hfresh x Hx).
    + split; [by eauto|]. intros (y & [Hy| ->] & Hym & Hyc); [|done]. exfalso.
      destruct (proj2 (Hr _) (ex_intro _ y (conj Hy Hym))) as (z & Hz & Hzm).
      by destruct (Hfresh z Hz).
Qed.

Lemma merge_inv_known ids seen result id i :
  merge_inv ids (seen, result) → seen !! Z.land id PATH_ID_MASK = Some i →
  merge_inv (ids ++ [id])
    (seen, if decide (Z.land id CONDITIONAL_FLAG = 0)
           then <[i := Z.land id PATH_ID_MASK]> result else result).
Proof.
  intros (Hs & Hr & Hc) E. simpl in *.
  destruct (proj1 (Hs _ _) E) as (x0 & Hx0 & Hm0).
  assert (∀ raw, (∃ y, y ∈ ids ++ [id] ∧ Z.land y PATH_ID_MASK = raw) ↔
                 ∃ y, y ∈ ids ∧ Z.land y PATH_ID_MASK = raw) as Hids.
  { intros raw. setoid_rewrite elem_of_app. setoid_rewrite list_elem_of_singleton.
    split; [|naive_solver]. intros (y & [Hy| ->] & Hy2); [naive_solver|]. apply Hr.
    exists x0. split; [by eapply list_elem_of_lookup_2 | congruence]. }
  case_decide as Hcond.
  - pose proof (lookup_lt_Some _ _ _ Hx0) as Hlt.
    assert (∀ j x, <[i := Z.land id PATH_ID_MASK]> result !! j = Some x →
              (j = i ∧ x = Z.land id PATH_ID_MASK) ∨ (j ≠ i ∧ result !! j = Some x)) as Hins.
    { intros j x Hj. apply list_lookup_insert_Some in Hj. naive_solver. }
    split_and!; simpl.
    + intros raw j. rewrite Hs. split.
      * intros (x & Hx & Hm). destruct (decide (i = j)) as [<-|].
        -- exists (Z.land id PATH_ID_MASK). rewrite list_lookup_insert_eq by done.
           rewrite land_mask_idem. split; [done|]. congruence.
        -- exists x. by rewrite list_lookup_insert_ne.
      * intros (x & Hx & Hm). apply Hins in Hx as [[-> ->]|[? ?]]; [|by eauto].
        rewrite land_mask_idem in Hm. exists x0. split; [done | congruence].
    + intros raw. rewrite Hids, <- Hr. split.
      * intros (x & Hx & Hm). apply list_elem_of_lookup in Hx as [j Hj].
        apply Hins in Hj as [[-> ->]|[? ?]].
        -- rewrite land_mask_idem in Hm. exists x0.
           split; [by eapply list_elem_of_lookup_2 | congruence].
        -- exists x. split; [by eapply list_elem_of_lookup_2 | done].
      * intros (x & Hx & Hm). apply list_elem_of_lookup in Hx as [j Hj].
        destruct (decide (i = j)) as [<-|].
        -- exists (Z.land id PATH_ID_MASK). split; [|rewrite land_mask_idem; congruence].
           apply list_elem_of_lookup. exists i. by rewrite list_lookup_insert_eq.
        -- exists x. split; [|done]. apply list_elem_of_lookup. exists j.
           by rewrite list_lookup_insert_ne.
    + intros x Hx. apply list_elem_of_lookup in Hx as [j Hj].
      setoid_rewrite elem_of_app. setoid_rewrite list_elem_of_singleton.
      apply Hins in Hj as [[-> ->]|[Hne Hj]].
      * rewrite land_mask_flag. split; [|done]. intros _. exists id.
        rewrite land_mask_idem. naive_solver.
      * rewrite (Hc x) by (by eapply list_elem_of_lookup_2). split; [naive_solver|].
        intros (y & [Hy| ->] & Hym & Hyc); [naive_solver|]. exfalso. apply Hne.
        assert (seen !! Z.land id PATH_ID_MASK = Some j) by (apply Hs; eauto). congruence.
  - split_and!; simpl; [done| |].
    + intros raw. by rewrite Hids.
    + intros x Hx. rewrite (Hc x Hx). setoid_rewrite elem_of_app.
      setoid_rewrite list_elem_of_singleton. naive_solver.
Qed.

Lemma merge_inv_all ids : merge_inv ids (foldl merge_include (∅, []) ids).
Proof.
  apply (foldl_prefix_invariant merge_inv).
  - split_and!; simpl.
    + intros raw i. rewrite lookup_empty, lookup_nil. naive_solver.
    + set_solver.
    + set_solver.
  - intros pre id post [seen result] _ Hinv. simpl.
    case_match eqn:E.
    + pose proof (merge_inv_known _ _ _ _ _ Hinv E). by case_decide.
    + by apply merge_inv_fresh.
Qed.

Lemma elem_of_all_ids g p id :
  graph_ok g →
  id ∈ all_ids g p ↔ ∃ c ids, includes g !! mkIncludeKey p c = Some ids ∧ id ∈ ids.
Proof.
  intros Hg. destruct (Hg p) as [_ Hin]. unfold all_ids.
  rewrite elem_of_concat. split.
  - intros (l & Hl & Hid). apply list_elem_of_fmap in Hl as (c & -> & Hc).
    apply Hin in Hc as [ids Hids]. unfold get_includes, get_or in Hid.
    rewrite Hids in Hid. eauto.
  - intros (c & ids & Hids & Hid). exists ids. split; [|done].
    apply list_elem_of_fmap. exists c. unfold get_includes, get_or. rewrite Hids.
    split; [done|]. apply Hin. eauto.
Qed.

Lemma get_all_includes_edge g p b :
  graph_ok g →
  (∃ x, x ∈ get_all_includes g p ∧ Z.land x PATH_ID_MASK = b) ↔ include_edge g p b.
Proof.
  intros Hg. rewrite get_all_includes_flat.
  destruct (merge_inv_all (all_ids g p)) as (_ & Hr & _). rewrite Hr.
  setoid_rewrite (elem_of_all_ids g p _ Hg). unfold include_edge. naive_solver.
Qed.

(** The union of a file's includes lists every included file exactly once, and
    an entry is unconditional iff some configuration includes it
    unconditionally. *)
Theorem get_all_includes_correct (g : DependencyGraph) (p : Z) :
  graph_ok g →
  NoDup ((λ x, Z.land x PATH_ID_MASK) <$> get_all_includes g p) ∧
  (∀ b, (∃ x, x ∈ get_all_includes g p ∧ Z.land x PATH_ID_MASK = b) ↔ include_edge g p b) ∧
  (∀ x, x ∈ get_all_includes g p →
     Z.land x CONDITIONAL_FLAG = 0 ↔ unconditional_edge g p (Z.land x PATH_ID_MASK)).
Proof.
  intros Hg. split_and!; [| by intros; apply get_all_includes_edge|];
    rewrite get_all_includes_flat;
    destruct (merge_inv_all (all_ids g p)) as (Hs & _ & Hc).
  - apply NoDup_alt. intros i j raw Hi Hj.
    apply list_lookup_fmap_Some in Hi as (x & -> & Hx).
    apply list_lookup_fmap_Some in Hj as (y & Hxy & Hy).
    assert (Some i = Some j); [|congruence].
    rewrite <- (proj2 (Hs _ _) (ex_intro _ x (conj Hx eq_refl))).
    rewrite <- (proj2 (Hs _ _) (ex_intro _ y (conj Hy eq_refl))). by rewrite Hxy.
  - intros x Hx. rewrite (Hc x Hx). setoid_rewrite (elem_of_all_ids g p _ Hg).
    unfold unconditional_edge. naive_solver.
Qed.

Lemma get_all_includes_correct_witness :
  get_all_includes sample_graph 1 = [2; 3 + CONDITIONAL_FLAG] ∧
  NoDup ((λ x, Z.land x PATH_ID_MASK) <$> get_all_includes sample_graph 1) ∧
  (∀ b, (∃ x, x ∈ get_all_includes sample_graph 1 ∧ Z.land x PATH_ID_MASK = b) ↔
        include_edge sample_graph 1 b) ∧
  (∀ x, x ∈ get_all_includes sample_graph 1 →
     Z.land x CONDITIONAL_FLAG = 0 ↔ unconditional_edge sample_graph 1 (Z.land x PATH_ID_MASK)).
Proof.
  split; [vm_compute; reflexivity|]. apply get_all_includes_correct. apply sample_graph_ok.
Defined.

(** ** build_reverse_map *)

(** [src ∈ rev[b]] iff one of the processed entries records it, and no list of
    [rev] has a repetition. *)
Definition reverse_inv (done : list (Z * Z)) (rev_map : gmap Z (list Z)) : Prop :=
  ∀ b, NoDup (get_or [] rev_map b) ∧
       ∀ src, src ∈ get_or [] rev_map b ↔
              ∃ flagged, (src, flagged) ∈ done ∧ Z.land flagged PATH_ID_MASK = b.

Lemma add_reverse_inv done rev_map src flagged :
  reverse_inv done rev_map → reverse_inv (done ++ [(src, flagged)]) (add_reverse src rev_map flagged).
Proof.
  intros Hinv b. unfold add_reverse. rewrite get_or_insert.
  destruct (Hinv b) as [Hnd Hin].
  setoid_rewrite elem_of_app. setoid_rewrite list_elem_of_singleton.
  case_decide as E.
  - rewrite E. split; [by apply NoDup_push_unique|]. intros s.
    rewrite elem_of_push_unique, Hin. split.
    + intros [(f & ? & ?)| ->]; eauto.
    + intros (f & [Hf|Hf] & Hm); [by eauto|]. right. congruence.
  - split; [done|]. intros s. rewrite Hin. split; [intros (f & ? & ?); by eauto|].
    intros (f & [Hf|Hf] & Hm); [by eauto|]. congruence.
Qed.

Definition flat_entries (es : list (IncludeKey * list Z)) : list (Z * Z) :=
  concat (map (λ e, (λ f : Z, (path_id e.1, f)) <$> e.2) es).

Lemma reverse_inv_entry done src ids rev_map :
  reverse_inv done rev_map →
  reverse_inv (done ++ ((λ f : Z, (src, f)) <$> ids)) (foldl (add_reverse src) rev_map ids).
Proof.
  revert done rev_map. induction ids as [|f ids IH]; intros done rev_map Hinv; simpl.
  - by rewrite app_nil_r.
  - rewrite (cons_middle (src, f)), app_assoc. by apply IH, add_reverse_inv.
Qed.

Lemma reverse_inv_all es done rev_map :
  reverse_inv done rev_map →
  reverse_inv (done ++ flat_entries es)
    (foldl (λ rev_map e, foldl (add_reverse (path_id e.1)) rev_map e.2) rev_map es).
Proof.
  revert done rev_map. induction es as [|e es IH]; intros done rev_map Hinv; simpl.
  - by rewrite app_nil_r.
  - unfold flat_entries. simpl. rewrite app_assoc. by apply IH, reverse_inv_entry.
Qed.

Lemma elem_of_flat_entries es src f :
  (src, f) ∈ flat_entries es ↔ ∃ c ids, (mkIncludeKey src c, ids) ∈ es ∧ f ∈ ids.
Proof.
  unfold flat_entries. rewrite elem_of_concat. setoid_rewrite list_elem_of_fmap. split.
  - intros (l & ([k ids] & -> & He) & Hf). apply list_elem_of_fmap in Hf as (f' & Hf & ?).
    simplify_eq/=. destruct k as [src c]. eauto.
  - intros (c & ids & He & Hf). eexists. split; [exists (mkIncludeKey src c, ids); done|].
    simpl. apply list_elem_of_fmap. eauto.
Qed.

(** After [build_reverse_map], in whatever order the hash map is walked, the
    includers of a file are exactly the files with an include edge to it. *)
Lemma get_includers_edge g es a b :
  es ≡ₚ map_to_list (includes g) →
  a ∈ get_includers (build_reverse_map g es) b ↔ include_edge g a b.
Proof.
  intros Hes. unfold get_includers, build_reverse_map. simpl.
  destruct (reverse_inv_all es [] ∅) with (b := b) as [_ Hin].
  { intros x. unfold get_or. rewrite lookup_empty. simpl. split; [constructor|set_solver]. }
  rewrite Hin. simpl. setoid_rewrite elem_of_flat_entries. setoid_rewrite Hes.
  setoid_rewrite elem_of_map_to_list. unfold include_edge. naive_solver.
Qed.

(** After [build_reverse_map], the includers of a file are exactly the
    files that include it under some configuration, each listed once, in
    whatever order the hash map is walked. *)
Theorem build_reverse_map_correct (g : DependencyGraph) (es : list (IncludeKey * list Z)) :
  es ≡ₚ map_to_list (includes g) →
  ∀ b, NoDup (get_includers (build_reverse_map g es) b) ∧
       ∀ a, a ∈ get_includers (build_reverse_map g es) b ↔ include_edge g a b.
Proof.
  intros Hes b. split; [|by intros; apply get_includers_edge].
  unfold get_includers, build_reverse_map. simpl.
  apply (reverse_inv_all es [] ∅). intros x. unfold get_or. rewrite lookup_empty.
  simpl. split; [constructor|set_solver].
Qed.

Lemma build_reverse_map_correct_witness :
  NoDup (get_includers (build_reverse_map sample_graph
           (map_to_list (includes sample_graph))) 2) ∧
  ∀ a, a ∈ get_includers (build_reverse_map sample_graph
             (map_to_list (includes sample_graph))) 2 ↔ include_edge sample_graph a 2.
Proof. apply build_reverse_map_correct. reflexivity. Defined.

(** ** find_host_sources *)

Lemma enqueue_includers_spec incs visited queue :
  let r := foldl enqueue_includer (visited, queue) incs in
  ∃ new, r.2 = new ++ queue ∧ NoDup new ∧
    (∀ x, x ∈ new ↔ x ∈ incs ∧ x ∉ visited) ∧ r.1 = list_to_set new ∪ visited.
Proof.
  revert visited queue. induction incs as [|i incs IH]; intros visited queue; simpl.
  - exists []. split_and!; [done|constructor|set_solver|set_solver].
  - case_decide as Hi.
    + destruct (IH visited queue) as (new & ? & ? & Hnew & ?). exists new.
      split_and!; [done|done| |done]. intros x. rewrite Hnew. set_solver.
    + destruct (IH ({[i]} ∪ visited) (i :: queue)) as (new & H1 & H2 & Hnew & H3).
      exists (new ++ [i]). split_and!.
      * by rewrite H1, <- app_assoc.
      * apply NoDup_app. split_and!; [done| |apply NoDup_singleton].
        intros x Hx ->%list_elem_of_singleton. apply Hnew in Hx. set_solver.
      * intros x. rewrite elem_of_app, list_elem_of_singleton, Hnew, elem_of_cons.
        rewrite elem_of_union, elem_of_singleton.
        destruct (decide (x = i)); naive_solver.
      * rewrite H3, list_to_set_app_L. set_solver.
Qed.

(** The loop invariant: discovered nodes are the visited ones; processed nodes
    (visited, not queued) have all their includers visited; the result lists
    the processed roots. *)
Definition host_inv (g : DependencyGraph) (header : Z)
    (queue : list Z) (visited : gset Z) (result : list Z) : Prop :=
  NoDup queue ∧ NoDup result ∧ header ∈ visited ∧
  (∀ x, x ∈ queue → x ∈ visited) ∧
  (∀ x, x ∈ visited → rtc (λ b a, a ∈ get_includers g b) header x) ∧
  (∀ v x, v ∈ visited → v ∉ queue → x ∈ get_includers g v → x ∈ visited) ∧
  (∀ x, x ∈ result ↔ x ∈ visited ∧ (x ∉ queue) ∧ x ≠ header ∧ get_includers g x = []).

Lemma host_inv_root g header current rest visited result :
  host_inv g header (current :: rest) visited result → get_includers g current = [] →
  host_inv g header rest visited
    (if decide (current ≠ header) then result ++ [current] else result).
Proof.
  intros (Hq & Hr & Hh & Hqv & Hreach & Hclosed & Hres) Hroot.
  apply NoDup_cons in Hq as [Hnq Hq]. split_and!; try done.
  - case_decide; [|done]. apply NoDup_app. split_and!; [done| |apply NoDup_singleton].
    intros x Hx ->%list_elem_of_singleton. apply Hres in Hx. set_solver.
  - set_solver.
  - intros v x Hv Hvq Hx. destruct (decide (v = current)) as [->|].
    + rewrite Hroot in Hx. set_solver.
    + apply (Hclosed v); set_solver.
  - intros x. assert (current ∈ visited) by set_solver.
    case_decide; rewrite ?elem_of_app, ?list_elem_of_singleton, Hres, elem_of_cons;
      destruct (decide (x = current)); naive_solver.
Qed.

Lemma host_inv_push g header current rest visited result visited' rest' :
  host_inv g header (current :: rest) visited result → get_includers g current ≠ [] →
  foldl enqueue_includer (visited, rest) (get_includers g current) = (visited', rest') →
  host_inv g header rest' visited' result.
Proof.
  intros (Hq & Hr & Hh & Hqv & Hreach & Hclosed & Hres) Hroot Hf.
  apply NoDup_cons in Hq as [Hnq Hq].
  destruct (enqueue_includers_spec (get_includers g current) visited rest)
    as (new & Hq' & Hnd & Hnew & Hv').
  rewrite Hf in Hq', Hv'. simpl in Hq', Hv'. subst. split_and!.
  - apply NoDup_app. split_and!; [done| |done]. intros x Hx Hxr. apply Hnew in Hx. set_solver.
  - done.
  - set_solver.
  - intros x. rewrite elem_of_app, elem_of_union, elem_of_list_to_set. set_solver.
  - intros x. rewrite elem_of_union, elem_of_list_to_set, Hnew.
    intros [[Hx _]|Hx]; [|by apply Hreach].
    eapply rtc_r; [apply (Hreach current); set_solver | done].
  - intros v x. rewrite !elem_of_union, !elem_of_list_to_set, elem_of_app. intros Hv Hvq Hx.
    destruct (decide (v = current)) as [->|].
    + destruct (decide (x ∈ visited)); [by right|]. left. by apply Hnew.
    + right. apply (Hclosed v); set_solver.
  - intros x. rewrite Hres, elem_of_union, elem_of_list_to_set, elem_of_app, elem_of_cons, Hnew.
    destruct (decide (x = current)) as [->|]; [|naive_solver]. naive_solver.
Qed.

Lemma host_loop_inv fuel g header queue visited result r :
  host_inv g header queue visited result →
  host_loop fuel g header queue visited result = Some r →
  ∃ visited', host_inv g header [] visited' r.
Proof.
  revert queue visited result. induction fuel as [|fuel IH]; intros queue visited result HI Hr;
    simpl in Hr; [done|].
  destruct queue as [|current rest]; [simplify_eq; by eauto|].
  destruct (get_includers g current) as [|i incs] eqn:Ei.
  - eapply IH; [|done]. by eapply host_inv_root.
  - destruct (foldl enqueue_includer (visited, rest) (i :: incs)) as [visited' rest'] eqn:Ef.
    simpl in Hr, Ef. rewrite Ef in Hr.
    eapply IH; [|done]. eapply host_inv_push; [exact HI|by rewrite Ei|by rewrite Ei].
Qed.

(** Nodes that occur as includers. *)
Definition all_includers (g : DependencyGraph) : gset Z :=
  list_to_set (concat (map_to_list (reverse_includes_ g)).*2).

Lemma all_includers_spec g b a : a ∈ get_includers g b → a ∈ all_includers g.
Proof.
  unfold get_includers, get_or, all_includers. intros Ha.
  destruct (reverse_includes_ g !! b) as [l|] eqn:E; simpl in Ha; [|set_solver].
  apply elem_of_list_to_set, elem_of_concat. exists l. split; [|done].
  apply list_elem_of_fmap. exists (b, l). split; [done|].
  by apply elem_of_map_to_list.
Qed.

Lemma all_includers_size g : (S (size (all_includers g)) < host_fuel g)%nat.
Proof.
  unfold all_includers, host_fuel.
  pose proof (size_concat_le (map_to_list (reverse_includes_ g))). lia.
Qed.

Lemma host_loop_total fuel g header queue visited result :
  (length queue + size (all_includers g ∖ visited) < fuel)%nat →
  is_Some (host_loop fuel g header queue visited result).
Proof.
  revert queue visited result. induction fuel as [|fuel IH]; intros queue visited result Hf; [lia|].
  simpl. destruct queue as [|current rest]; [by eexists|]. simpl in Hf.
  destruct (get_includers g current) as [|i incs] eqn:Ei; [apply IH; lia|].
  destruct (enqueue_includers_spec (i :: incs) visited rest) as (new & Hq' & Hnd & Hnew & Hv').
  destruct (foldl _ _ _) as [visited' rest']. simpl in Hq', Hv'. subst. apply IH.
  rewrite length_app.
  assert (length new + size (all_includers g ∖ (list_to_set new ∪ visited)) ≤
          size (all_includers g ∖ visited))%nat; [|lia].
  rewrite <- (size_list_to_set (C := gset Z) new) by done.
  rewrite <- size_union by set_solver. apply subseteq_size.
  assert (∀ x, x ∈ new → x ∈ all_includers g).
  { intros x Hx. apply Hnew in Hx as [Hx _]. eapply all_includers_spec. by rewrite Ei. }
  set_solver.
Qed.

(** [find_host_sources] always terminates; its result lists, without
    repetition, exactly the files other than the header that reach the header
    through include edges and that nothing includes. *)
Theorem find_host_sources_correct (g : DependencyGraph) (header : Z) :
  ∃ r, find_host_sources g header = Some r ∧ NoDup r ∧
    ∀ x, x ∈ r ↔ rtc (λ b a, a ∈ get_includers g b) header x ∧ x ≠ header ∧
                 get_includers g x = [].
Proof.
  destruct (host_loop_total (host_fuel g) g header [header] {[header]} []) as [r Hr].
  { pose proof (all_includers_size g).
    pose proof (subseteq_size (all_includers g ∖ {[header]}) (all_includers g) ltac:(set_solver)).
    simpl. lia. }
  exists r. split; [done|].
  assert (host_inv g header [header] {[header]} []) as Hinit.
  { split_and!; [apply NoDup_singleton|constructor|set_solver|set_solver| | |set_solver].
    - intros x ->%elem_of_singleton. reflexivity.
    - intros v x ->%elem_of_singleton. set_solver. }
  destruct (host_loop_inv _ _ _ _ _ _ _ Hinit Hr) as (V & _ & Hnd & Hh & _ & Hreach & Hcl & Hres).
  split; [done|]. intros x. rewrite Hres. split; [naive_solver set_solver|].
  intros (Hx & ? & ?). split_and!; [|set_solver|done|done].
  clear - Hx Hh Hcl. induction Hx as [|a b c Hab Hbc IH]; [done|].
  apply IH. eapply Hcl; [exact Hh|set_solver|done].
Qed.

(** ** find_include_chain *)

(** [l] is an include chain from [a] to [b]. *)
Definition include_path (g : DependencyGraph) (l : list Z) (a b : Z) : Prop :=
  head l = Some a ∧ last l = Some b ∧
  ∀ i x y, l !! i = Some x → l !! S i = Some y → include_edge g x y.

Lemma include_path_snoc g l a y x :
  include_path g l a y → include_edge g y x → include_path g (l ++ [x]) a x.
Proof.
  intros (Hh & Hl & He) Hyx. split_and!.
  - by destruct l.
  - apply last_snoc.
  - intros i u v Hu Hv. destruct (decide (S i < length l)%nat).
    + rewrite lookup_app_l in Hu, Hv by lia. by eapply He.
    + apply lookup_lt_Some in Hv as Hlt. rewrite length_app in Hlt. simpl in Hlt.
      rewrite lookup_app_r in Hv by lia.
      replace (S i - length l)%nat with 0%nat in Hv by lia. simplify_eq/=.
      rewrite lookup_app_l in Hu by lia. rewrite last_lookup in Hl.
      replace (pred (length l)) with i in Hl by lia. simplify_eq. done.
Qed.

Lemma include_path_nsteps g l a b :
  include_path g l a b → nsteps (include_edge g) (pred (length l)) a b.
Proof.
  revert b. induction l as [|x l IH] using rev_ind; intros b (Hh & Hl & He); [done|].
  rewrite last_snoc in Hl. simplify_eq. rewrite length_app, Nat.add_1_r. simpl.
  destruct l as [|y l _] using rev_ind; simplify_eq/=; [constructor|].
  rewrite length_app, Nat.add_1_r.
  eapply nsteps_r; [|apply (He (length l) y b)].
  - specialize (IH y). rewrite length_app, Nat.add_1_r in IH. apply IH. split_and!.
    + by destruct l.
    + apply last_snoc.
    + intros i u v Hu Hv. eapply (He i); by apply lookup_app_l_Some.
  - rewrite <- app_assoc. by apply list_lookup_middle.
  - rewrite lookup_app_r; rewrite length_app, Nat.add_1_r; [|done]. by rewrite Nat.sub_diag.
Qed.

Section Chain.
Context (g : DependencyGraph) (Hg : graph_ok g) (host target : Z).
Abbreviation edge := (include_edge g).

(** Following predecessors leads from [x] to the host in [n] steps. *)
Inductive back (p : gmap Z Z) : nat → Z → Prop :=
| back_host : back p 0 host
| back_step n x y : x ≠ host → p !! x = Some y → edge y x → back p n y → back p (S n) x.

Lemma back_mono p p' n x : p ⊆ p' → back p n x → back p' n x.
Proof.
  intros Hsub. induction 1; [constructor|].
  econstructor; [done| |done|done]. by eapply lookup_weaken.
Qed.

Lemma walk_back_correct p n x fuel acc :
  back p n x → (n < fuel)%nat →
  ∃ l, walk_back fuel host p x acc = Some (acc ++ l) ∧
       length l = S n ∧ include_path g (rev l) host x.
Proof.
  intros Hb. revert fuel acc. induction Hb as [|n x y Hx Hp Hyx Hb IH]; intros fuel acc Hf;
    (destruct fuel as [|fuel]; [lia|]); simpl.
  - rewrite decide_True by done. exists [host]. split_and!; [done..|].
    split_and!; [done|done|]. intros i u v _ Hv. by destruct i.
  - rewrite decide_False by done. unfold get_or. rewrite Hp. simpl.
    destruct (IH fuel (acc ++ [x]) ltac:(lia)) as (l & Hw & Hlen & Hpath).
    exists (x :: l). rewrite Hw, <- app_assoc. split_and!; [done|simpl; lia|].
    simpl. by eapply include_path_snoc.
Qed.

(** State of a layer scan that started from [queue] and [p0]. *)
Record layer_scan (queue : list Z) (p0 : gmap Z Z) (st : bfs_state) : Prop := {
  ls_sub : p0 ⊆ prev st;
  ls_new : ∀ x y, prev st !! x = Some y → p0 !! x = None → y ∈ queue ∧ edge y x;
  ls_next : ∀ x, x ∈ next_queue st → is_Some (prev st !! x) ∧ p0 !! x = None;
  ls_next_all : ∀ x, is_Some (prev st !! x) → p0 !! x = None →
                x ∈ next_queue st ∨ (found st = true ∧ x = target);
  ls_found : found st = true ↔ is_Some (prev st !! target);
}.

Lemma scan_children_spec queue p0 current ids st :
  current ∈ queue →
  (∀ f, f ∈ ids → edge current (Z.land f PATH_ID_MASK)) →
  layer_scan queue p0 st → found st = false →
  let st' := scan_children target current ids st in
  layer_scan queue p0 st' ∧ prev st ⊆ prev st' ∧
  (found st' = false → ∀ f, f ∈ ids → is_Some (prev st' !! Z.land f PATH_ID_MASK)).
Proof.
  intros Hcur. revert st. induction ids as [|f ids IH]; intros st Hedge Hls Hf; simpl.
  { split_and!; [done|done|set_solver]. }
  set (child := Z.land f PATH_ID_MASK).
  destruct (prev st !! child) as [y|] eqn:Ec.
  { destruct (IH st) as (H1 & H2 & H3); [set_solver|done|done|].
    split_and!; [done|done|]. intros Hnf f' [->|Hf']%elem_of_cons; [|by apply H3].
    eexists. by eapply lookup_weaken. }
  destruct Hls as [Hsub Hnew Hnext Hall Hfound].
  assert (p0 !! child = None) as Hp0 by (by eapply lookup_weaken_None).
  assert (edge current child) as He by (apply Hedge; set_solver).
  assert (prev st ⊆ <[child := current]> (prev st)) as Hins by (by apply insert_subseteq).
  assert (prev st !! target = None) as Htn.
  { apply eq_None_not_Some. rewrite <- Hfound. congruence. }
  assert (∀ x y, <[child := current]> (prev st) !! x = Some y → p0 !! x = None →
            y ∈ queue ∧ edge y x) as Hnew'.
  { intros x y. rewrite lookup_insert. case_decide; [|by apply Hnew]. by intros [= ->] _; subst. }
  case_decide as Et; simpl.
  - split_and!; [|done|done]. split; simpl; [by trans (prev st)|done| | |].
    + intros x Hx. destruct (Hnext x Hx) as [Hs ?]. split; [|done].
      destruct Hs as [y Hy]. exists y. by eapply lookup_weaken.
    + intros x Hx Hx0. rewrite lookup_insert in Hx. case_decide as Ex; [right; by rewrite <- Ex|].
      destruct (Hall x Hx Hx0) as [?|[? ?]]; [by left|congruence].
    + split; [intros _|done]. rewrite <- Et, lookup_insert_eq. by eexists.
  - destruct (IH (mkBfs (<[child := current]> (prev st)) (next_queue st ++ [child]) false))
      as (H1 & H2 & H3); [set_solver| |done|].
    { split; simpl; [by trans (prev st)|done| | |].
      - intros x Hx. rewrite elem_of_app, list_elem_of_singleton in Hx.
        destruct Hx as [Hx| ->].
        + destruct (Hnext x Hx) as [[y Hy] ?]. split; [|done]. exists y. by eapply lookup_weaken.
        + rewrite lookup_insert_eq. split; [by eexists|done].
      - intros x Hx Hx0. left. rewrite elem_of_app, list_elem_of_singleton.
        rewrite lookup_insert in Hx. case_decide; [by right|].
        destruct (Hall x Hx Hx0) as [?|[? ?]]; [by left|congruence].
      - rewrite lookup_insert_ne, Htn by done. split; [done|by intros []]. }
    simpl in *. split_and!; [done|by etrans|].
    intros Hnf f' [->|Hf']%elem_of_cons; [|by apply H3].
    exists current. eapply lookup_weaken; [apply lookup_insert_eq|done].
Qed.

Lemma scan_layer_spec queue p0 rest st :
  (∀ x, x ∈ rest → x ∈ queue) →
  layer_scan queue p0 st → found st = false →
  let st' := scan_layer g target rest st in
  layer_scan queue p0 st' ∧ prev st ⊆ prev st' ∧
  (found st' = false → ∀ x y, x ∈ rest → edge x y → is_Some (prev st' !! y)).
Proof.
  revert st. induction rest as [|current rest IH]; intros st Hq Hls Hf; simpl.
  { split_and!; [done|done|set_solver]. }
  destruct (scan_children_spec queue p0 current (get_all_includes g current) st)
    as (H1 & H2 & H3); [set_solver| |done|done|].
  { intros f Hin. apply get_all_includes_edge; eauto. }
  destruct (found (scan_children _ _ _ _)) eqn:Ef; [split_and!; [done|done|congruence]|].
  destruct (IH (scan_children target current (get_all_includes g current) st))
    as (H4 & H5 & H6); [set_solver|done|done|].
  split_and!; [done|by etrans|].
  intros Hnf x y [->|Hx]%elem_of_cons Hxy; [|by eapply H6].
  apply get_all_includes_edge in Hxy as (f & Hin & <-); [|done].
  destruct (H3 eq_refl f Hin) as [z Hz]. exists z. by eapply lookup_weaken.
Qed.

(** Layer [k]: [p] holds the nodes within [k] steps, [queue] the newest. *)
Record layer (k : nat) (queue : list Z) (p : gmap Z Z) : Prop := {
  ly_target : p !! target = None;
  ly_sound : ∀ x, is_Some (p !! x) → x = host ∨ ∃ a, edge a x;
  ly_complete : ∀ n x, (n ≤ k)%nat → nsteps edge n host x → is_Some (p !! x);
  ly_queue : ∀ x, x ∈ queue → back p k x ∧ is_Some (p !! x);
  ly_closed : ∀ x y, is_Some (p !! x) → x ∉ queue → edge x y → is_Some (p !! y);
}.

Lemma layer_scan_init queue p : p !! target = None → layer_scan queue p (mkBfs p [] false).
Proof.
  intros Ht. split; simpl; [done|congruence|set_solver| |].
  - intros x [y Hy] ?. congruence.
  - rewrite Ht. split; [done|by intros []].
Qed.

Lemma layer_step k queue p st :
  layer k queue p → layer_scan queue p st → is_Some (p !! host) →
  (∀ x y, x ∈ queue → edge x y → is_Some (prev st !! y)) → found st = false →
  layer (S k) (next_queue st) (prev st).
Proof.
  intros [Ht Hs Hc Hq Hcl] [Hsub Hnew Hnext Hall Hfound] Hhost Hkids Hf.
  assert (∀ x, is_Some (p !! x) → is_Some (prev st !! x)) as Hmono.
  { intros x [y Hy]. exists y. by eapply lookup_weaken. }
  assert (∀ x y, is_Some (p !! x) → edge x y → is_Some (prev st !! y)) as Hstep.
  { intros x y Hx Hxy. destruct (decide (x ∈ queue)); [by eapply Hkids|].
    by eapply Hmono, Hcl. }
  split.
  - apply eq_None_not_Some. rewrite <- Hfound. congruence.
  - intros x [y Hy]. destruct (p !! x) eqn:E; [apply Hs; by rewrite E; eexists|].
    right. exists y. by apply Hnew.
  - intros n x Hn Hx. destruct (decide (n ≤ k)%nat); [by eapply Hmono, Hc|].
    replace n with (S k) in Hx by lia. apply nsteps_inv_r in Hx as (y & Hy & Hyx).
    eapply Hstep; [|done]. by apply (Hc k).
  - intros x Hx. destruct (Hnext x Hx) as [[y Hy] Hx0]. split; [|by eexists].
    destruct (Hnew x y Hy Hx0) as [Hyq Hyx].
    apply (back_step _ k x y); [|done|done|].
    + intros ->. by rewrite Hx0 in Hhost; destruct Hhost.
    + eapply back_mono; [done|]. by apply Hq.
  - intros x y Hx Hnq Hxy.
    destruct (p !! x) eqn:E; [apply (Hstep x); [by rewrite E; eexists|done]|].
    destruct (Hall x Hx E) as [?|[? _]]; [done|congruence].
Qed.

(** Every included file. *)
Definition all_children : gset Z :=
  list_to_set ((λ f, Z.land f PATH_ID_MASK) <$> concat (map_to_list (includes g)).*2).

Lemma all_children_spec a b : edge a b → b ∈ all_children.
Proof.
  intros (c & ids & id & Hids & Hid & <-). apply elem_of_list_to_set, list_elem_of_fmap.
  exists id. split; [done|]. apply elem_of_concat. exists ids. split; [|done].
  apply list_elem_of_fmap. eexists (_, ids). split; [done|]. by apply elem_of_map_to_list.
Qed.

Lemma all_children_size : (2 + size all_children < chain_fuel g)%nat.
Proof.
  unfold all_children, chain_fuel.
  assert (size (list_to_set (C := gset Z) ((λ f, Z.land f PATH_ID_MASK) <$>
    concat (map_to_list (includes g)).*2)) ≤
    sum_list_with (λ e, length e.2) (map_to_list (includes g)))%nat; [|lia].
  etrans; [apply size_list_to_set_le|]. rewrite length_fmap.
  generalize (map_to_list (includes g)). induction l as [|[k ids] l IH]; simpl; [done|].
  rewrite length_app. apply Nat.add_le_mono; [done|apply IH].
Qed.

(** Nodes still undiscovered. *)
Definition fresh_count (p : gmap Z Z) : nat := size (all_children ∖ dom p).

Lemma fresh_count_step k queue p st :
  layer k queue p → layer_scan queue p st → next_queue st ≠ [] →
  (fresh_count (prev st) < fresh_count p)%nat.
Proof.
  intros _ Hls Hne. destruct (next_queue st) as [|x rest] eqn:E; [done|].
  destruct (ls_next _ _ _ Hls x) as [[y Hy] Hx]; [rewrite E; set_solver|].
  destruct (ls_new _ _ _ Hls x y Hy Hx) as [_ Hyx].
  pose proof (subseteq_dom _ _ (ls_sub _ _ _ Hls)).
  pose proof (all_children_spec _ _ Hyx). apply elem_of_dom_2 in Hy.
  apply not_elem_of_dom in Hx. unfold fresh_count. apply subset_size. split; set_solver.
Qed.

(** What the search establishes, in terms of the number of steps. *)
Definition bfs_post (r : bool * gmap Z Z) : Prop :=
  match r with
  | (true, p) => ∃ m, (m ≤ size all_children)%nat ∧ back p (S m) target ∧
                      ∀ n, (n ≤ m)%nat → ¬ nsteps edge n host target
  | (false, _) => ∀ n, ¬ nsteps edge n host target
  end.

Lemma layer_exhausted k p :
  layer k [] p → is_Some (p !! host) → ∀ n x, nsteps edge n host x → is_Some (p !! x).
Proof.
  intros Hly Hh n. induction n as [|n IH]; intros x Hx.
  - by inv Hx.
  - apply nsteps_inv_r in Hx as (y & Hy & Hyx).
    eapply (ly_closed _ _ _ Hly y); [by apply IH|set_solver|done].
Qed.

Lemma bfs_loop_spec fuel k queue p :
  target ≠ host → layer k queue p → is_Some (p !! host) →
  (k + fresh_count p ≤ size all_children)%nat → (0 < fuel)%nat →
  (queue ≠ [] → (1 + fresh_count p < fuel)%nat) →
  ∃ r, bfs_loop fuel g target queue p = Some r ∧ bfs_post r.
Proof.
  intros Hth. revert k queue p.
  induction fuel as [|fuel IH]; intros k queue p Hly Hh Hk Hf0 Hf; [lia|]. simpl.
  destruct queue as [|q0 queue0] eqn:Eq.
  { eexists. split; [done|]. intros n Hn. destruct (layer_exhausted k p Hly Hh n _ Hn) as [y Hy].
    rewrite (ly_target _ _ _ Hly) in Hy. done. }
  assert (queue ≠ []) as Hq by (by rewrite Eq). rewrite <- Eq in *. clear q0 queue0 Eq.
  destruct (scan_layer_spec queue p queue (mkBfs p [] false)) as (Hls & Hsub & Hkids);
    [done|by apply layer_scan_init, (ly_target _ _ _ Hly)|done|].
  set (st := scan_layer g target queue (mkBfs p [] false)) in *.
  destruct (found st) eqn:Ef.
  - eexists. split; [done|]. exists k. split_and!; [lia| |].
    + apply (ls_found _ _ _ Hls) in Ef as [y Hy].
      destruct (ls_new _ _ _ Hls target y Hy (ly_target _ _ _ Hly)) as [Hyq Hyx].
      apply (back_step _ k target y); [done|done|done|].
      eapply back_mono; [done|]. by apply (ly_queue _ _ _ Hly).
    + intros n Hn Hst. destruct (ly_complete _ _ _ Hly n target Hn Hst) as [y Hy].
      by rewrite (ly_target _ _ _ Hly) in Hy.
  - assert (layer (S k) (next_queue st) (prev st)) as Hly'.
    { eapply layer_step; [done|done|done| |done]. intros x y. by apply Hkids. }
    assert (is_Some (prev st !! host)) as Hh'.
    { destruct Hh as [y Hy]. exists y. by eapply lookup_weaken. }
    destruct (decide (next_queue st = [])) as [En|En].
    + rewrite En in *. destruct fuel as [|fuel].
      { specialize (Hf Hq). lia. }
      eexists. split; [done|]. intros n Hn.
      destruct (layer_exhausted _ _ Hly' Hh' n _ Hn) as [y Hy].
      by rewrite (ly_target _ _ _ Hly') in Hy.
    + pose proof (fresh_count_step _ _ _ _ Hly Hls En).
      specialize (Hf Hq). apply (IH (S k)); [done|done|lia|lia|lia].
Qed.
End Chain.

Lemma find_include_chain_ok (g : DependencyGraph) (host target : Z) :
  graph_ok g →
  ∃ chain, find_include_chain g host target = Some chain ∧
    match chain with
    | [] => ∀ l, ¬ include_path g l host target
    | _ => include_path g chain host target ∧
           ∀ l, include_path g l host target → (length chain ≤ length l)%nat
    end.
Proof.
  intros Hg. unfold find_include_chain. case_decide as Eht.
  { subst. eexists. split; [done|]. split.
    - split_and!; [done|done|]. intros i u v _ Hv. by destruct i.
    - intros l (Hh & _ & _). destruct l; [done|]. simpl. lia. }
  pose proof (all_children_size g) as Hsz.
  destruct (bfs_loop_spec g Hg host target (chain_fuel g) 0 [host] {[host := host]})
    as (r & Hr & Hpost).
  { done. }
  { split.
    - by rewrite lookup_singleton_ne.
    - intros x [y Hy]. apply lookup_singleton_Some in Hy as [-> _]. by left.
    - intros n x Hn Hx. replace n with 0%nat in Hx by lia. inv Hx.
      rewrite lookup_singleton_eq. by eexists.
    - intros x ->%list_elem_of_singleton. split; [constructor|].
      rewrite lookup_singleton_eq. by eexists.
    - intros x y [z Hz]. apply lookup_singleton_Some in Hz as [-> _]. set_solver. }
  { rewrite lookup_singleton_eq. by eexists. }
  { apply subseteq_size. set_solver. }
  { lia. }
  { intros _. assert (fresh_count g {[host := host]} ≤ size (all_children g))%nat; [|lia].
    apply subseteq_size. set_solver. }
  rewrite Hr. destruct r as [[] p]; simpl in Hpost.
  - destruct Hpost as (m & Hm & Hb & Hmin).
    destruct (walk_back_correct g host p (S m) target (chain_fuel g) [] Hb ltac:(lia))
      as (l & Hw & Hlen & Hpath).
    rewrite Hw. eexists. split; [done|]. simpl.
    destruct (rev l) as [|z zs] eqn:El; [by destruct Hpath|]. rewrite <- El in *. clear El z zs.
    split; [done|]. intros l' Hl'. rewrite length_rev, Hlen.
    apply include_path_nsteps in Hl'. destruct (decide (pred (length l') ≤ m)%nat); [|lia].
    by destruct (Hmin (pred (length l'))).
  - eexists. split; [done|]. simpl. intros l Hl. apply include_path_nsteps in Hl.
    by eapply Hpost.
Qed.

(** C30. [find_include_chain] always terminates.  An empty answer means that no
    include chain leads from the host to the target; otherwise the answer is a
    chain of include edges from host to target, and no chain is shorter. *)
Theorem find_include_chain_correct (g : DependencyGraph) (host target : Z) :
  graph_ok g →
  ∃ chain, find_include_chain g host target = Some chain ∧
    match chain with
    | [] => ∀ l, ¬ include_path g l host target
    | _ => include_path g chain host target ∧
           ∀ l, include_path g l host target → (length chain ≤ length l)%nat
    end.
Proof. apply find_include_chain_ok. Qed.

Lemma find_include_chain_correct_witness :
  ∃ chain, find_include_chain sample_graph 1 3 = Some chain ∧
    match chain with
    | [] => ∀ l, ¬ include_path sample_graph l 1 3
    | _ => include_path sample_graph chain 1 3 ∧
           ∀ l, include_path sample_graph l 1 3 → (length chain ≤ length l)%nat
    end.
Proof. apply find_include_chain_correct. apply sample_graph_ok. Defined.
