(* ===== verification/CompileGraph.v ===== *)
(** * The module compilation graph: data and synchronous operations
      (src/server/compiler/compile_graph.{h,cpp})

    [CompileGraph] keeps one [CompileUnit] per file, with dependency edges in
    both directions, an interest count and the state of the unit's current
    compilation round.  This file models the data and every synchronous
    operation; CompileTasks.v models the coroutines that call them.

    Heap objects are identified by numbers: [rounds] is the heap of
    [shared_ptr<Round>] targets, and a [cancellation_source] is a number, its
    cancellation recorded in [cancelled].  The task group is represented by the
    flag [closed] ([spawn] then returns false) and by the queue [zero_tasks] of
    spawned [zero_interest_check] coroutines. *)
From S2P Require Import Prelude Worklist.
From stdpp Require Import relations.
Local Open Scope Z_scope.

(** ** Data *)

Inductive Outcome := Stale | Success | Failed.

Global Instance Outcome_eq_dec : EqDecision Outcome.
Proof. solve_decision. Defined.

Record Round := mkRound {
  completion : bool;
  outcome : Outcome;
}.

Record CompileUnit := mkUnit {
  dependencies : list Z;
  dependents : list Z;
  resolved : bool;
  dirty : bool;
  compiling : bool;
  refcount : Z;
  zero_check_pending : bool;
  generation : Z;
  source : nat;
  round : option nat;
}.

Record graph := mkGraph {
  units : gmap Z CompileUnit;
  rounds : gmap nat Round;
  next_round : nat;
  cancelled : gset nat;
  next_source : nat;
  closed : bool;
  zero_tasks : list Z;
}.

Definition empty_graph : graph := mkGraph ∅ ∅ 0 ∅ 0 false [].

(** Field updates. *)
Definition set_units (f : gmap Z CompileUnit → gmap Z CompileUnit) (g : graph) : graph :=
  mkGraph (f (units g)) (rounds g) (next_round g) (cancelled g) (next_source g) (closed g)
    (zero_tasks g).
Definition set_dependencies (f : list Z → list Z) (u : CompileUnit) : CompileUnit :=
  mkUnit (f (dependencies u)) (dependents u) (resolved u) (dirty u) (compiling u) (refcount u)
    (zero_check_pending u) (generation u) (source u) (round u).
Definition set_dependents (f : list Z → list Z) (u : CompileUnit) : CompileUnit :=
  mkUnit (dependencies u) (f (dependents u)) (resolved u) (dirty u) (compiling u) (refcount u)
    (zero_check_pending u) (generation u) (source u) (round u).
Definition set_resolved (b : bool) (u : CompileUnit) : CompileUnit :=
  mkUnit (dependencies u) (dependents u) b (dirty u) (compiling u) (refcount u)
    (zero_check_pending u) (generation u) (source u) (round u).
Definition set_dirty (b : bool) (u : CompileUnit) : CompileUnit :=
  mkUnit (dependencies u) (dependents u) (resolved u) b (compiling u) (refcount u)
    (zero_check_pending u) (generation u) (source u) (round u).
Definition set_compiling (b : bool) (u : CompileUnit) : CompileUnit :=
  mkUnit (dependencies u) (dependents u) (resolved u) (dirty u) b (refcount u)
    (zero_check_pending u) (generation u) (source u) (round u).
Definition set_refcount (f : Z → Z) (u : CompileUnit) : CompileUnit :=
  mkUnit (dependencies u) (dependents u) (resolved u) (dirty u) (compiling u) (f (refcount u))
    (zero_check_pending u) (generation u) (source u) (round u).
Definition set_zero_check (b : bool) (u : CompileUnit) : CompileUnit :=
  mkUnit (dependencies u) (dependents u) (resolved u) (dirty u) (compiling u) (refcount u)
    b (generation u) (source u) (round u).
Definition bump_generation (u : CompileUnit) : CompileUnit :=
  mkUnit (dependencies u) (dependents u) (resolved u) (dirty u) (compiling u) (refcount u)
    (zero_check_pending u) (u64 (generation u + 1)) (source u) (round u).
Definition set_source (s : nat) (u : CompileUnit) : CompileUnit :=
  mkUnit (dependencies u) (dependents u) (resolved u) (dirty u) (compiling u) (refcount u)
    (zero_check_pending u) (generation u) s (round u).
Definition set_round (r : option nat) (u : CompileUnit) : CompileUnit :=
  mkUnit (dependencies u) (dependents u) (resolved u) (dirty u) (compiling u) (refcount u)
    (zero_check_pending u) (generation u) (source u) r.

(** A default-constructed unit owns a fresh cancellation source. *)
Definition new_unit (s : nat) : CompileUnit :=
  mkUnit [] [] false true false 0 false 0 s None.

(** [auto& unit = units[path_id]]: get or create. *)
Definition touch (path_id : Z) (g : graph) : graph :=
  match units g !! path_id with
  | Some _ => g
  | None =>
    mkGraph (<[path_id := new_unit (next_source g)]> (units g)) (rounds g) (next_round g)
      (cancelled g) (S (next_source g)) (closed g) (zero_tasks g)
  end.

(** [units.find(path_id)->second.f = ...] on a unit that exists. *)
Definition modify (path_id : Z) (f : CompileUnit → CompileUnit) (g : graph) : graph :=
  set_units (alter f path_id) g.

(** ** Operations *)

(** [ensure_resolved]; [deps] is the answer of [resolve(path_id)]. *)
Definition add_dependent (path_id : Z) (g : graph) (dep_id : Z) : graph :=
  modify dep_id (set_dependents (λ l, l ++ [path_id])) (touch dep_id g).

Definition ensure_resolved (deps : list Z) (path_id : Z) (g0 : graph) : graph :=
  let g := touch path_id g0 in
  match units g !! path_id with
  | Some unit =>
    if resolved unit then g
    else
      let g1 := modify path_id (λ u, set_dependencies (λ _, deps) (set_resolved true u)) g in
      foldl (add_dependent path_id) g1 deps
  | None => g
  end.

Definition acquire (path_id : Z) (g : graph) : graph :=
  modify path_id (set_refcount (λ r, u32 (r + 1))) (touch path_id g).

(** [release] dereferences [units.find(path_id)] and asserts a positive count. *)
Definition release (path_id : Z) (g : graph) : option graph :=
  match units g !! path_id with
  | None => None
  | Some unit =>
    if decide (0 < refcount unit) then
      let g1 := modify path_id (set_refcount (λ r, r - 1)) g in
      if bool_decide (refcount unit - 1 = 0) && compiling unit && negb (zero_check_pending unit)
      then
        if closed g then Some g1
        else
          let g2 := modify path_id (set_zero_check true) g1 in
          Some (mkGraph (units g2) (rounds g2) (next_round g2) (cancelled g2) (next_source g2)
                  (closed g2) (zero_tasks g2 ++ [path_id]))
      else Some g1
    else None
  end.

(** [unit.source->cancel(); unit.source = make_unique<...>()]. *)
Definition cancel_round (path_id : Z) (g : graph) : graph :=
  match units g !! path_id with
  | None => g
  | Some unit =>
    let g1 := modify path_id (set_source (next_source g)) g in
    mkGraph (units g1) (rounds g1) (next_round g1) ({[source unit]} ∪ cancelled g1)
      (S (next_source g1)) (closed g1) (zero_tasks g1)
  end.

(** The part of [zero_interest_check] after its [sleep(0)]; it dereferences
    [units.find(path_id)]. *)
Definition zero_interest_check (path_id : Z) (g : graph) : option graph :=
  match units g !! path_id with
  | None => None
  | Some unit =>
    let g1 := modify path_id (set_zero_check false) g in
    Some (if bool_decide (refcount unit = 0) && compiling unit then cancel_round path_id g1 else g1)
  end.

(** [update]: the [current == path_id] branch, which forgets the unit's edges. *)
Definition erase_dependent (path_id : Z) (g : graph) (dep_id : Z) : graph :=
  modify dep_id (set_dependents (filter (λ x, x ≠ path_id))) g.

Definition forget_edges (path_id : Z) (g : graph) : graph :=
  match units g !! path_id with
  | None => g
  | Some unit =>
    let g1 := modify path_id (set_resolved false) g in
    let g2 := foldl (erase_dependent path_id) g1 (dependencies unit) in
    modify path_id (set_dependencies (λ _, [])) g2
  end.

(** One iteration of the loop of [update]: the state is the graph and the
    vector [dirtied]. *)
Definition update_visit (path_id : Z) (s : graph * list Z) (current : Z)
  : visit_result (graph * list Z) Z :=
  let '(g, dirtied) := s in
  match units g !! current with
  | None => VPush s []
  | Some _ =>
    let g1 := if decide (current = path_id) then forget_edges path_id g else g in
    let g2 := cancel_round current g1 in
    let g3 := modify current (λ u, bump_generation (set_dirty true u)) g2 in
    match units g3 !! current with
    | None => VPush s []
    | Some unit => VPush (g3, dirtied ++ [current]) (dependents unit)
    end
  end.

(** Out-degrees along reverse and forward edges, for the iteration bounds. *)
Definition dependents_of (g : graph) (x : Z) : list Z :=
  match units g !! x with Some u => dependents u | None => [] end.
Definition dependencies_of (g : graph) (x : Z) : list Z :=
  match units g !! x with Some u => dependencies u | None => [] end.

Definition update (path_id : Z) (g : graph) : option (graph * list Z) :=
  let fuel := S (wl_weight (dom (units g)) (λ x, length (dependents_of g x)) [path_id] ∅) in
  match worklist (update_visit path_id) fuel [path_id] ∅ (g, []) with
  | Some (WDone _ s) => Some s
  | _ => None
  end.

Definition is_compiling (g : graph) (path_id : Z) : bool :=
  match units g !! path_id with Some u => compiling u | None => false end.

(** [has_wait_cycle]: [VStop] is [return true]. *)
Definition wait_visit (g : graph) (waiter : Z) (_ : unit) (current : Z) : visit_result unit Z :=
  match units g !! current with
  | None => VPush tt []
  | Some unit =>
    if decide (waiter ∈ dependencies unit) then VStop tt
    else VPush tt (filter (λ d, is_compiling g d = true) (dependencies unit))
  end.

Definition has_wait_cycle (g : graph) (target waiter : Z) : option bool :=
  let fuel := S (wl_weight (dom (units g)) (λ x, length (dependencies_of g x)) [target] ∅) in
  match worklist (wait_visit g waiter) fuel [target] ∅ tt with
  | Some (WStopped _) => Some true
  | Some (WDone _ _) => Some false
  | None => None
  end.

(** [cancel_all] walks a hash map; [order] is the order of the walk. *)
Definition cancel_all (order : list Z) (g : graph) : graph :=
  foldl (λ g p, cancel_round p g) g order.

Definition has_unit (g : graph) (path_id : Z) : bool := bool_decide (is_Some (units g !! path_id)).

Definition is_dirty (g : graph) (path_id : Z) : bool :=
  match units g !! path_id with Some u => dirty u | None => false end.

Definition refcount_of (g : graph) (path_id : Z) : Z :=
  match units g !! path_id with Some u => refcount u | None => 0 end.

Definition round_done (g : graph) (u : CompileUnit) : bool :=
  match round u with
  | None => true
  | Some r => match rounds g !! r with Some rd => completion rd | None => true end
  end.

Definition idle (g : graph) : bool :=
  forallb (λ e, negb (compiling e.2) && bool_decide (refcount e.2 = 0) && round_done g e.2)
    (map_to_list (units g)).

Definition consistent (g : graph) : bool :=
  forallb (λ e, negb (compiling e.2) ||
                match round e.2 with
                | None => false
                | Some r => match rounds g !! r with Some rd => negb (completion rd) | None => false end
                end)
    (map_to_list (units g)).

(** ** Lookups after an operation *)

Lemma modify_lookup k f g x :
  units (modify k f g) !! x = if decide (k = x) then f <$> units g !! x else units g !! x.
Proof.
  unfold modify, set_units. simpl. rewrite lookup_alter. case_decide; [by subst|done].
Qed.

Lemma touch_lookup k g x :
  units (touch k g) !! x =
    if decide (k = x) then Some (default (new_unit (next_source g)) (units g !! x))
    else units g !! x.
Proof.
  unfold touch. destruct (units g !! k) eqn:E.
  - case_decide; [by subst; rewrite E|done].
  - simpl. rewrite lookup_insert. case_decide; [by subst; rewrite E|done].
Qed.

Lemma dependents_of_modify k f g x :
  (∀ u, dependents (f u) = dependents u) → dependents_of (modify k f g) x = dependents_of g x.
Proof.
  intros Hf. unfold dependents_of. rewrite modify_lookup.
  case_decide; [|done]. destruct (units g !! x); simpl; [apply Hf|done].
Qed.

Lemma dependencies_of_modify k f g x :
  (∀ u, dependencies (f u) = dependencies u) →
  dependencies_of (modify k f g) x = dependencies_of g x.
Proof.
  intros Hf. unfold dependencies_of. rewrite modify_lookup.
  case_decide; [|done]. destruct (units g !! x); simpl; [apply Hf|done].
Qed.

Lemma dependents_of_touch k g x : dependents_of (touch k g) x = dependents_of g x.
Proof.
  unfold dependents_of. rewrite touch_lookup. case_decide; [|done]. by destruct (units g !! x).
Qed.

Lemma dependencies_of_touch k g x : dependencies_of (touch k g) x = dependencies_of g x.
Proof.
  unfold dependencies_of. rewrite touch_lookup. case_decide; [|done]. by destruct (units g !! x).
Qed.

Lemma cancel_round_lookup k g x :
  units (cancel_round k g) !! x =
    if decide (k = x) then set_source (next_source g) <$> units g !! x else units g !! x.
Proof.
  unfold cancel_round. destruct (units g !! k) eqn:E.
  - simpl. rewrite lookup_alter. case_decide; [by subst|done].
  - case_decide; [by subst; rewrite E|done].
Qed.

(** ** The edge invariant *)

(** Forward and backward edges mirror each other, and an unresolved unit has no
    forward edge left. *)
Record edges_ok (g : graph) : Prop := {
  edges_sym : ∀ u d, d ∈ dependencies_of g u ↔ u ∈ dependents_of g d;
  edges_unresolved : ∀ x u, units g !! x = Some u → resolved u = false → dependencies u = [];
}.

Lemma edges_ok_empty : edges_ok empty_graph.
Proof.
  split; [|intros x u; simpl; by rewrite lookup_empty].
  intros u d. unfold dependencies_of, dependents_of. simpl. rewrite !lookup_empty. set_solver.
Qed.

(** Operations that leave edges and the [resolved] flag alone keep the invariant. *)
Lemma edges_ok_frame g g' :
  edges_ok g →
  (∀ x, dependencies_of g' x = dependencies_of g x) →
  (∀ x, dependents_of g' x = dependents_of g x) →
  (∀ x u, units g' !! x = Some u → resolved u = false → dependencies_of g x = []) →
  edges_ok g'.
Proof.
  intros [Hs Hu] H1 H2 H3. split.
  - intros u d. rewrite H1, H2. apply Hs.
  - intros x u Hx Hr. pose proof (H3 x u Hx Hr) as Hd. rewrite <- H1 in Hd.
    unfold dependencies_of in Hd. by rewrite Hx in Hd.
Qed.

Lemma edges_unresolved_of g x u :
  edges_ok g → units g !! x = Some u → resolved u = false → dependencies_of g x = [].
Proof.
  intros Hok Hx Hr. unfold dependencies_of. rewrite Hx. by eapply edges_unresolved.
Qed.

Lemma edges_ok_touch k g : edges_ok g → edges_ok (touch k g).
Proof.
  intros Hok. eapply edges_ok_frame; [done|apply dependencies_of_touch|apply dependents_of_touch|].
  intros x u. rewrite touch_lookup. case_decide as E.
  - intros [= <-] Hr. subst. destruct (units g !! x) as [u|] eqn:Ex; simpl in *.
    + by eapply edges_unresolved_of.
    + unfold dependencies_of. by rewrite Ex.
  - by apply edges_unresolved_of.
Qed.

Lemma edges_ok_modify k f g :
  (∀ u, dependents (f u) = dependents u ∧ dependencies (f u) = dependencies u ∧
        resolved (f u) = resolved u) →
  edges_ok g → edges_ok (modify k f g).
Proof.
  intros Hf Hok. eapply edges_ok_frame; [done| | |].
  - intros x. apply dependencies_of_modify. apply Hf.
  - intros x. apply dependents_of_modify. apply Hf.
  - intros x u. rewrite modify_lookup. case_decide; [|by apply edges_unresolved_of].
    intros (u' & Hx & ->)%fmap_Some Hr. destruct (Hf u') as (_ & _ & E).
    eapply edges_unresolved_of; [done|done|congruence].
Qed.

Lemma edges_ok_acquire p g : edges_ok g → edges_ok (acquire p g).
Proof. intros. by apply edges_ok_modify, edges_ok_touch. Qed.

(** Changing fields other than [units] is irrelevant. *)
Lemma edges_ok_units g g' : units g' = units g → edges_ok g → edges_ok g'.
Proof.
  intros E Hok. eapply edges_ok_frame; [done| | |];
    unfold dependencies_of, dependents_of; rewrite E; [done|done|].
  intros x u Hx Hr. rewrite Hx. by eapply edges_unresolved.
Qed.

Lemma edges_ok_release p g g' : edges_ok g → release p g = Some g' → edges_ok g'.
Proof.
  unfold release. intros Hok. destruct (units g !! p); [|done].
  case_decide; [|done]. repeat case_match; intros [= <-].
  - by apply edges_ok_modify.
  - eapply (edges_ok_units (modify p _ (modify p _ g))); [reflexivity|].
    by do 2 (apply edges_ok_modify; [done|]).
  - by apply edges_ok_modify.
Qed.

Lemma edges_ok_cancel_round p g : edges_ok g → edges_ok (cancel_round p g).
Proof.
  unfold cancel_round. intros Hok. destruct (units g !! p); [|done].
  eapply (edges_ok_units (modify p _ g)); [reflexivity|]. by apply edges_ok_modify.
Qed.

Lemma edges_ok_zero_check p g g' : zero_interest_check p g = Some g' → edges_ok g → edges_ok g'.
Proof.
  unfold zero_interest_check. intros Hz Hok. destruct (units g !! p); [|done]. injection Hz as <-.
  case_match; [apply edges_ok_cancel_round|]; by apply edges_ok_modify.
Qed.

#[export] Hint Resolve edges_ok_empty edges_ok_touch edges_ok_acquire edges_ok_release
  edges_ok_cancel_round edges_ok_zero_check : clice.

(** *** ensure_resolved *)

Lemma dependents_of_add p g d x :
  dependents_of (add_dependent p g d) x =
    dependents_of g x ++ (if decide (d = x) then [p] else []).
Proof.
  unfold add_dependent. unfold dependents_of at 1. rewrite modify_lookup.
  rewrite touch_lookup. unfold dependents_of. case_decide; [|by rewrite app_nil_r].
  simpl. by destruct (units g !! x).
Qed.

Lemma dependencies_of_add p g d x : dependencies_of (add_dependent p g d) x = dependencies_of g x.
Proof.
  unfold add_dependent. rewrite dependencies_of_modify by done. apply dependencies_of_touch.
Qed.

Lemma add_dependent_resolved p g d x u :
  units (add_dependent p g d) !! x = Some u → resolved u = false →
  units g !! x = None ∨ ∃ u', units g !! x = Some u' ∧ resolved u' = false.
Proof.
  unfold add_dependent. rewrite modify_lookup, touch_lookup.
  case_decide; [|by eauto]. destruct (units g !! x); simpl; [|by left].
  intros [= <-]. simpl. eauto.
Qed.

Lemma add_dependents_spec p deps g :
  let g' := foldl (add_dependent p) g deps in
  (∀ x, dependencies_of g' x = dependencies_of g x) ∧
  (∀ x y, y ∈ dependents_of g' x ↔ y ∈ dependents_of g x ∨ (y = p ∧ x ∈ deps)) ∧
  (∀ x u, units g' !! x = Some u → resolved u = false →
     units g !! x = None ∨ ∃ u', units g !! x = Some u' ∧ resolved u' = false).
Proof.
  revert g. induction deps as [|d deps IH]; intros g; simpl.
  { split_and!; [done|set_solver|by eauto]. }
  destruct (IH (add_dependent p g d)) as (H1 & H2 & H3). split_and!.
  - intros x. by rewrite H1, dependencies_of_add.
  - intros x y. rewrite H2, dependents_of_add. case_decide; set_solver.
  - intros x u Hx Hr. destruct (H3 x u Hx Hr) as [Hn|(u' & Hx' & Hr')];
      [|by eapply add_dependent_resolved].
    left. revert Hn. unfold add_dependent. rewrite modify_lookup, touch_lookup.
    by case_decide.
Qed.

Lemma ensure_resolved_edges_ok deps p g : edges_ok g → edges_ok (ensure_resolved deps p g).
Proof.
  intros Hok. unfold ensure_resolved. apply (edges_ok_touch p) in Hok.
  set (g1 := touch p g) in *. destruct (units g1 !! p) as [unit|] eqn:Ep; [|done].
  destruct (resolved unit) eqn:Er; [done|].
  set (g2 := modify p _ g1).
  destruct (add_dependents_spec p deps g2) as (H1 & H2 & H3).
  assert (∀ x, dependencies_of g2 x = if decide (p = x) then deps else dependencies_of g1 x) as Hd.
  { intros x. unfold dependencies_of. unfold g2. rewrite modify_lookup. case_decide; [|done].
    subst. by rewrite Ep. }
  pose proof (edges_unresolved_of _ _ _ Hok Ep Er) as Hnil.
  split.
  - intros u d. rewrite H1, H2, Hd. unfold g2.
    rewrite dependents_of_modify, <- (edges_sym _ Hok) by done.
    case_decide as E; [subst u; rewrite Hnil; set_solver|naive_solver].
  - intros x u Hx Hr. destruct (H3 x u Hx Hr) as [Hn|(u' & Hx' & Hr')].
    + assert (dependencies_of (foldl (add_dependent p) g2 deps) x = []) as E.
      { rewrite H1. unfold dependencies_of. by rewrite Hn. }
      unfold dependencies_of in E. by rewrite Hx in E.
    + assert (dependencies_of (foldl (add_dependent p) g2 deps) x = []) as E.
      { rewrite H1. unfold g2 in Hx'. rewrite modify_lookup in Hx'. rewrite Hd.
        case_decide; [subst; rewrite Ep in Hx'; by simplify_eq/=|].
        by eapply edges_unresolved_of. }
      unfold dependencies_of in E. by rewrite Hx in E.
Qed.

#[export] Hint Resolve ensure_resolved_edges_ok : clice.

(** ** has_wait_cycle *)

(** A dependency that is being compiled: the edges the search follows. *)
Definition wait_edge (g : graph) (a b : Z) : Prop :=
  b ∈ dependencies_of g a ∧ is_compiling g b = true.

(** Waiting on [target] reaches [waiter] through compiling units. *)
Definition wait_path (g : graph) (target waiter : Z) : Prop :=
  ∃ x, rtc (wait_edge g) target x ∧ waiter ∈ dependencies_of g x.

Lemma wait_visit_spec g w s n :
  match wait_visit g w s n with
  | VStop _ => w ∈ dependencies_of g n
  | VPush _ l => (w ∉ dependencies_of g n) ∧ (∀ x, x ∈ l ↔ wait_edge g n x) ∧
                 (length l ≤ length (dependencies_of g n))%nat
  end.
Proof.
  unfold wait_visit, wait_edge, dependencies_of.
  destruct (units g !! n) as [u|]; [|split_and!; [set_solver|set_solver|done]].
  case_decide; [done|]. split_and!; [done| |apply length_filter].
  intros x. rewrite list_elem_of_filter. naive_solver.
Qed.

Lemma wait_path_visited g w target :
  wait_path g target w ↔ ∃ x, reach_from (wait_edge g) [target] x ∧ w ∈ dependencies_of g x.
Proof.
  unfold wait_path, reach_from. split.
  - intros (x & Hx & Hw). exists x. split; [|done]. exists target. split; [set_solver|done].
  - intros (x & (q & ->%list_elem_of_singleton & Hx) & Hw). eauto.
Qed.

(** The search returns and its answer is exact. *)
Lemma has_wait_cycle_decides (g : graph) (target waiter : Z) :
  ∃ b, has_wait_cycle g target waiter = Some b ∧ (b = true ↔ wait_path g target waiter).
Proof.
  unfold has_wait_cycle.
  set (deg := λ x, length (dependencies_of g x)). set (D := dom (units g)).
  destruct (worklist_run (wait_visit g waiter) D deg
    (λ queue visited _, reach_inv (wait_edge g) [target] queue visited ∧
       ∀ v, v ∈ visited → (waiter ∉ dependencies_of g v))
    (λ _, wait_path g target waiter))
    with (fuel := S (wl_weight D deg [target] ∅)) (queue := [target]) (visited := (∅ : gset Z))
         (s := tt) as (r & Hr & Hpost).
  - intros n rest visited s [Hreach Hno] Hn. split; [by eapply reach_inv_skip|done].
  - intros n rest visited s s' pushed [Hreach Hno] Hn Hv.
    pose proof (wait_visit_spec g waiter s n) as Hs. rewrite Hv in Hs.
    destruct Hs as (Hw & Hpush & Hlen). split_and!; [|set_solver|done|].
    + apply reach_inv_push; [done|intros x; apply Hpush|]. intros x Hx. left. by apply Hpush.
    + intros HnD. apply not_elem_of_dom in HnD. unfold dependencies_of in Hlen.
      rewrite HnD in Hlen. by apply nil_length_inv, Nat.le_0_r.
  - intros n rest visited s s' [Hreach Hno] Hn Hv.
    pose proof (wait_visit_spec g waiter s n) as Hs. rewrite Hv in Hs.
    apply wait_path_visited. exists n. split; [|done]. apply Hreach. set_solver.
  - split; [apply reach_inv_init|set_solver].
  - lia.
  - fold deg D. rewrite Hr. destruct r as [s|visited s]; [by exists true|].
    destruct Hpost as [Hreach Hno]. exists false. split; [done|]. split; [done|].
    rewrite wait_path_visited. intros (x & Hx & Hw).
    apply (reach_inv_final _ _ _ Hreach) in Hx. by apply Hno in Hx.
Qed.

(** C36. [has_wait_cycle] always terminates and decides exactly whether the
    waited-for unit's dependency chain, followed through units being compiled,
    leads back to the waiting unit. *)
Theorem has_wait_cycle_correct (g : graph) (target waiter : Z) :
  (has_wait_cycle g target waiter = Some true ↔ wait_path g target waiter) ∧
  (has_wait_cycle g target waiter = Some false ↔ ¬ wait_path g target waiter).
Proof.
  destruct (has_wait_cycle_decides g target waiter) as ([] & -> & Hiff); naive_solver.
Qed.

(** ** update *)

Lemma erase_dependents_lookup p deps g x :
  units (foldl (erase_dependent p) g deps) !! x =
    (λ u, if decide (x ∈ deps) then set_dependents (filter (λ y, y ≠ p)) u else u) <$> units g !! x.
Proof.
  revert g. induction deps as [|d deps IH]; intros g; cbn [foldl].
  { by destruct (units g !! x). }
  rewrite IH. unfold erase_dependent. rewrite modify_lookup.
  destruct (units g !! x) as [u|]; [|by destruct (decide (d = x))]. simpl.
  destruct (decide (d = x)); simpl; repeat case_decide; simpl; try done; try set_solver. f_equal. unfold set_dependents. simpl.
  by rewrite list_filter_filter_l by done.
Qed.

(** [g'] differs from [g] in its units only. *)
Definition same_rest (g g' : graph) : Prop := g' = set_units (λ _, units g') g.

Lemma same_rest_refl g : same_rest g g.
Proof. by destruct g. Qed.

Lemma same_rest_modify k f g g' : same_rest g g' → same_rest g (modify k f g').
Proof. unfold same_rest. intros ->. done. Qed.

Lemma same_rest_erase p deps g g' :
  same_rest g g' → same_rest g (foldl (erase_dependent p) g' deps).
Proof.
  intros. apply foldl_invariant; [done|]. intros. by apply same_rest_modify.
Qed.

Lemma same_rest_forget p g : same_rest g (forget_edges p g).
Proof.
  unfold forget_edges. destruct (units g !! p); [|apply same_rest_refl].
  by apply same_rest_modify, same_rest_erase, same_rest_modify, same_rest_refl.
Qed.

(** What [forget_edges] does to one unit. *)
Definition forgotten (p x : Z) (u : CompileUnit) : CompileUnit :=
  set_dependents (filter (λ y, y ≠ p))
    (if decide (x = p) then set_dependencies (λ _, []) (set_resolved false u) else u).

Lemma forget_edges_lookup p g x :
  edges_ok g → is_Some (units g !! p) →
  units (forget_edges p g) !! x = forgotten p x <$> units g !! x.
Proof.
  intros Hok [unit Hp]. unfold forget_edges. rewrite Hp.
  rewrite modify_lookup, erase_dependents_lookup, modify_lookup.
  destruct (units g !! x) as [u|] eqn:Ex; [|by repeat case_decide]. simpl.
  assert (x ∉ dependencies unit → filter (λ y, y ≠ p) (dependents u) = dependents u) as Hid.
  { intros Hx. apply filter_all. intros y Hy ->. apply Hx.
    assert (p ∈ dependents_of g x) as Hd by (unfold dependents_of; by rewrite Ex).
    apply (edges_sym _ Hok) in Hd. unfold dependencies_of in Hd. by rewrite Hp in Hd. }
  unfold forgotten. destruct (decide (p = x)) as [->|]; [rewrite Ex in Hp; simplify_eq|];
    repeat case_decide; simpl; try done; unfold set_dependents; simpl;
    rewrite ?Hid by done; first [by destruct u|by destruct unit].
Qed.

(** The unit [x] after the loop has visited [visited]: [src] is its current
    cancellation source. *)
Definition updated (p : Z) (visited : gset Z) (x : Z) (src : nat) (u : CompileUnit) : CompileUnit :=
  mkUnit
    (if decide (x = p ∧ p ∈ visited) then [] else dependencies u)
    (if decide (p ∈ visited) then filter (λ y, y ≠ p) (dependents u) else dependents u)
    (if decide (x = p ∧ p ∈ visited) then false else resolved u)
    (if decide (x ∈ visited) then true else dirty u)
    (compiling u) (refcount u) (zero_check_pending u)
    (if decide (x ∈ visited) then u64 (generation u + 1) else generation u)
    src (round u).

(** How the graph relates to the one [update] started from. *)
Record update_rel (p : Z) (visited : gset Z) (g0 g : graph) (dirtied : list Z) : Prop := {
  ur_units : ∀ x, match units g0 !! x with
                  | None => units g !! x = None
                  | Some u0 => ∃ src, units g !! x = Some (updated p visited x src u0) ∧
                      (if decide (x ∈ visited)
                       then source u0 ∈ cancelled g ∧ (next_source g0 ≤ src)%nat
                       else src = source u0)
                  end;
  ur_dirtied : NoDup dirtied ∧ ∀ x, x ∈ dirtied ↔ x ∈ visited ∧ is_Some (units g0 !! x);
  ur_cancelled : ∀ s, s ∈ cancelled g ↔
      s ∈ cancelled g0 ∨ ∃ x u0, x ∈ dirtied ∧ units g0 !! x = Some u0 ∧ s = source u0;
  ur_source : (next_source g0 ≤ next_source g)%nat;
  ur_rest : rounds g = rounds g0 ∧ next_round g = next_round g0 ∧ closed g = closed g0 ∧
            zero_tasks g = zero_tasks g0;
}.

(** The whole effect of one visit, on a unit that exists. *)
Lemma update_visit_lookup p g dirtied n u s' pushed :
  edges_ok g ∨ n ≠ p → units g !! n = Some u →
  update_visit p (g, dirtied) n = VPush s' pushed →
  let g' := s'.1 in
  s'.2 = dirtied ++ [n] ∧ pushed = dependents_of g' n ∧
  (∀ x, units g' !! x =
     (λ u, (if decide (x = n) then
              λ v, set_source (next_source g) (bump_generation (set_dirty true v))
            else id)
           (if decide (n = p) then forgotten p x u else u)) <$> units g !! x) ∧
  cancelled g' = {[source u]} ∪ cancelled g ∧ next_source g' = S (next_source g) ∧
  rounds g' = rounds g ∧ next_round g' = next_round g ∧ closed g' = closed g ∧
  zero_tasks g' = zero_tasks g.
Proof.
  intros Hok Hn. unfold update_visit. rewrite Hn.
  set (g1 := if decide (n = p) then forget_edges p g else g).
  assert (same_rest g g1) as Hrest.
  { unfold g1. case_decide; [apply same_rest_forget|apply same_rest_refl]. }
  assert (∀ x, units g1 !! x = (λ u, if decide (n = p) then forgotten p x u else u) <$> units g !! x)
    as Hg1.
  { intros x. unfold g1. case_decide as E.
    - subst p. destruct Hok as [Hok|?]; [|done]. apply forget_edges_lookup; [done|by eexists].
    - destruct (units g !! x); done. }
  assert (∃ u1, units g1 !! n = Some u1 ∧ source u1 = source u) as (u1 & Hu1 & Hsrc).
  { rewrite Hg1, Hn. simpl. eexists. split; [done|]. case_decide as E; [|done].
    subst. unfold forgotten. rewrite decide_True by done. done. }
  unfold same_rest in Hrest. rewrite Hrest in *. simpl in *. clear Hrest.
  unfold cancel_round. simpl. rewrite Hu1. simpl.
  rewrite lookup_alter_eq, lookup_alter_eq, Hu1. simpl. intros [= <- <-]. simpl.
  split_and!; try done.
  - unfold dependents_of. simpl. by rewrite lookup_alter_eq, lookup_alter_eq, Hu1.
  - intros x. destruct (decide (n = x)) as [<-|E].
    + rewrite !lookup_alter_eq, Hg1. destruct (units g !! n); simpl; [|done].
      by rewrite (decide_True (P := n = n)) by done.
    + rewrite !lookup_alter_ne, Hg1 by done. destruct (units g !! x); simpl; [|done].
      by rewrite (decide_False (P := x = n)) by done.
  - by rewrite Hsrc.
Qed.

Section Update.
Context (g0 : graph) (Hok : edges_ok g0) (p : Z).

Abbreviation up_edge := (λ a b, b ∈ dependents_of g0 a).

Lemma updated_absent visited n x src u :
  units g0 !! n = None → units g0 !! x = Some u → n ∉ visited →
  updated p ({[n]} ∪ visited) x src u = updated p visited x src u.
Proof.
  intros Hn Hx Hnv. unfold updated.
  assert (x ∈ {[n]} ∪ visited ↔ x ∈ visited) as E1.
  { assert (x ≠ n) by congruence. set_solver. }
  assert (x = p ∧ p ∈ {[n]} ∪ visited ↔ x = p ∧ p ∈ visited) as E2.
  { split; [|set_solver]. intros [-> Hp]. split; [done|]. by apply E1. }
  rewrite !(decide_ext _ _ _ _ E1), !(decide_ext _ _ _ _ E2). f_equal.
  destruct (decide (p ∈ visited)); [by rewrite decide_True by set_solver|].
  case_decide; [|done]. apply filter_all. intros y Hy ->.
  assert (n = p) as -> by set_solver.
  assert (p ∈ dependents_of g0 x) as Hd by (unfold dependents_of; by rewrite Hx).
  apply (edges_sym _ Hok) in Hd. unfold dependencies_of in Hd. rewrite Hn in Hd. set_solver.
Qed.

(** Where the loop stands: before its first pop, or past the visit of [p]. *)
Definition update_inv (queue : list Z) (visited : gset Z) (s : graph * list Z) : Prop :=
  reach_inv up_edge [p] queue visited ∧
  update_rel p visited g0 s.1 s.2 ∧
  ((visited = ∅ ∧ s.1 = g0 ∧ queue = [p]) ∨ p ∈ visited).

Lemma update_rel_init : update_rel p ∅ g0 g0 [].
Proof.
  split; [| |set_solver|done|done].
  - intros x. destruct (units g0 !! x) as [u|]; [|done]. exists (source u). split.
    + unfold updated. rewrite !decide_False by set_solver. by destruct u.
    + by rewrite decide_False by set_solver.
  - split; [constructor|set_solver].
Qed.

Lemma update_step_absent visited n g d :
  update_rel p visited g0 g d → n ∉ visited → units g0 !! n = None →
  update_rel p ({[n]} ∪ visited) g0 g d.
Proof.
  intros [Hu [Hnd Hd] Hc Hs Hr] Hnv Hn. split; [|split; [done|]|done|done|done].
  - intros x. specialize (Hu x). destruct (units g0 !! x) as [u0|] eqn:Ex; [|done].
    destruct Hu as (src & Hg & Hsrc). exists src.
    rewrite (updated_absent visited n x src u0 Hn Ex Hnv). split; [done|].
    assert (x ∈ {[n]} ∪ visited ↔ x ∈ visited) as E.
    { assert (x ≠ n) by congruence. set_solver. }
    by rewrite (decide_ext _ _ _ _ E).
  - intros x. rewrite Hd. split; [set_solver|]. intros [Hx Hs']. split; [|done].
    assert (x ≠ n); [|set_solver]. intros ->. rewrite Hn in Hs'. by destruct Hs'.
Qed.

Lemma updated_visit_first x u :
  let v := forgotten p x u in
  updated p {[p]} x (source u) u =
    (if decide (x = p) then bump_generation (set_dirty true v) else v).
Proof.
  unfold updated, forgotten.
  destruct (decide (x = p)) as [->|Hx]; simpl.
  - rewrite !decide_True by set_solver. done.
  - rewrite !(decide_False (P := _ ∧ _)), (decide_True (P := p ∈ _)),
      !(decide_False (P := x ∈ _)) by set_solver. by destruct u.
Qed.

Lemma updated_visit_next visited n x src u :
  p ∈ visited → n ∉ visited →
  updated p ({[n]} ∪ visited) x src u =
    (if decide (x = n) then bump_generation (set_dirty true (updated p visited x src u))
     else updated p visited x src u).
Proof.
  intros Hp Hn. unfold updated.
  assert (x = p ∧ p ∈ {[n]} ∪ visited ↔ x = p ∧ p ∈ visited) as E2 by set_solver.
  rewrite !(decide_ext _ _ _ _ E2).
  rewrite (decide_True (P := p ∈ {[n]} ∪ visited)), (decide_True (P := p ∈ visited))
    by set_solver.
  destruct (decide (x = n)) as [->|Hx].
  - rewrite !(decide_True (P := n ∈ {[n]} ∪ visited)), !(decide_False (P := n ∈ visited))
      by set_solver. done.
  - assert (x ∈ {[n]} ∪ visited ↔ x ∈ visited) as E1 by set_solver.
    by rewrite !(decide_ext _ _ _ _ E1).
Qed.

Lemma set_source_updated visited x s1 s2 u :
  set_source s1 (updated p visited x s2 u) = updated p visited x s1 u.
Proof. done. Qed.

(** A visit turns the unit of [x] into what [updated] says. *)
Lemma visit_unit visited n x src ns u :
  (visited = ∅ ∧ n = p ∧ src = source u) ∨ (p ∈ visited ∧ n ∉ visited) →
  (if decide (x = n) then λ v, set_source ns (bump_generation (set_dirty true v)) else id)
    (if decide (n = p) then forgotten p x (updated p visited x src u)
     else updated p visited x src u) =
  updated p ({[n]} ∪ visited) x (if decide (x = n) then ns else src) u.
Proof.
  intros [(-> & -> & ->)|[Hp Hn]].
  - assert (updated p ∅ x (source u) u = u) as ->.
    { unfold updated. rewrite !decide_False by set_solver. by destruct u. }
    rewrite (decide_True (P := p = p)), (right_id_L ∅ (∪)) by done.
    pose proof (updated_visit_first x u) as E. simpl in E. case_decide.
    + rewrite <- (set_source_updated _ _ ns (source u)), E. done.
    + by rewrite E.
  - rewrite (decide_False (P := n = p)) by set_solver.
    rewrite updated_visit_next by done. by case_decide.
Qed.

Lemma update_step_present visited n u0 g d s' pushed :
  update_rel p visited g0 g d → units g0 !! n = Some u0 →
  (visited = ∅ ∧ g = g0 ∧ n = p) ∨ (p ∈ visited ∧ n ∉ visited) →
  update_visit p (g, d) n = VPush s' pushed →
  update_rel p ({[n]} ∪ visited) g0 s'.1 s'.2 ∧
  pushed = filter (λ y, y ≠ p) (dependents_of g0 n).
Proof.
  intros [Hu [Hnd Hd] Hc Hs Hr] Hn Hwhere Hv.
  assert (n ∉ visited) as Hnv by (destruct Hwhere as [(-> & _)|[]]; set_solver).
  assert (edges_ok g ∨ n ≠ p) as Hok' by (destruct Hwhere as [(_ & -> & _)|[]]; [auto|set_solver]).
  pose proof (Hu n) as Hun. rewrite Hn in Hun. destruct Hun as (src & Hgn & Hsrc).
  rewrite decide_False in Hsrc by done. subst src.
  destruct (update_visit_lookup p g d n _ s' pushed Hok' Hgn Hv)
    as (-> & -> & Hlk & Hcan & Hns & Hr1 & Hr2 & Hr3 & Hr4).
  assert (∀ x, match units g0 !! x with
               | None => units s'.1 !! x = None
               | Some u1 => ∃ src, units s'.1 !! x = Some (updated p ({[n]} ∪ visited) x
                     (if decide (x = n) then next_source g else src) u1) ∧
                   (if decide (x ∈ visited) then source u1 ∈ cancelled g ∧ (next_source g0 ≤ src)%nat
                    else src = source u1)
               end) as Hall.
  { intros x. specialize (Hu x). rewrite Hlk.
    destruct (units g0 !! x) as [u1|]; [|by rewrite Hu].
    destruct Hu as (s1 & Hgx & Hs1). exists s1. split; [|done]. rewrite Hgx. simpl. f_equal.
    apply visit_unit. destruct Hwhere as [(-> & -> & ->)|]; [|by right].
    left. by rewrite decide_False in Hs1 by set_solver. }
  split.
  - split; simpl.
    + intros x. specialize (Hall x). destruct (units g0 !! x) as [u1|] eqn:Ex; [|done].
      destruct Hall as (s1 & Hgx & Hs1). eexists. split; [exact Hgx|].
      rewrite Hcan. destruct (decide (x = n)) as [->|Hxn].
      * rewrite decide_True by set_solver. simplify_eq. split; [simpl; set_solver|done].
      * assert (x ∈ {[n]} ∪ visited ↔ x ∈ visited) as E by set_solver.
        rewrite (decide_ext _ _ _ _ E). case_decide; [|done]. split; [set_solver|by apply Hs1].
    + split.
      * apply NoDup_app. split_and!; [done| |apply NoDup_singleton].
        intros x Hx ->%list_elem_of_singleton. apply Hd in Hx. by destruct Hx.
      * intros x. rewrite elem_of_app, list_elem_of_singleton, Hd.
        destruct (decide (x = n)) as [->|]; [|set_solver].
        rewrite Hn. split; [intros _; split; [set_solver|by eexists]|by right].
    + intros t. rewrite Hcan, elem_of_union, elem_of_singleton, Hc.
      setoid_rewrite elem_of_app. setoid_rewrite list_elem_of_singleton. simpl. split.
      * intros [->|[?|(x & ux & ? & ? & ?)]]; [|by left|].
        -- right. exists n, u0. auto.
        -- right. exists x, ux. auto.
      * intros [?|(x & ux & [?| ->] & ? & ?)]; [by right; left| |].
        -- right. right. exists x, ux. auto.
        -- left. simplify_eq. done.
    + rewrite Hns. lia.
    + destruct Hr as (? & ? & ? & ?). by rewrite Hr1, Hr2, Hr3, Hr4.
  - specialize (Hall n). rewrite Hn in Hall. destruct Hall as (s1 & Hgx & _).
    unfold dependents_of. rewrite Hgx, Hn. simpl.
    rewrite decide_True; [done|]. destruct Hwhere as [(-> & _ & ->)|[]]; set_solver.
Qed.

Lemma update_visit_absent visited n g d :
  update_rel p visited g0 g d → units g0 !! n = None →
  update_visit p (g, d) n = VPush (g, d) [].
Proof.
  intros [Hu _ _ _ _] Hn. specialize (Hu n). rewrite Hn in Hu.
  unfold update_visit. by rewrite Hu.
Qed.

Lemma update_visit_never_stops s n s' : update_visit p s n ≠ VStop s'.
Proof. unfold update_visit. destruct s. by repeat case_match. Qed.

(** The loop runs to completion, and visits what dependents reach. *)
Lemma update_run :
  ∃ g d visited, update p g0 = Some (g, d) ∧ update_rel p visited g0 g d ∧
    (∀ x, x ∈ visited ↔ rtc up_edge p x).
Proof.
  unfold update.
  set (deg := λ x, length (dependents_of g0 x)). set (D := dom (units g0)).
  destruct (worklist_run (update_visit p) D deg update_inv (λ _, False))
    with (fuel := S (wl_weight D deg [p] ∅)) (queue := [p]) (visited := (∅ : gset Z))
         (s := (g0, @nil Z)) as (r & Hr & Hpost).
  - intros n rest visited s (H1 & H2 & H3) Hn. split_and!; [by eapply reach_inv_skip|done|].
    destruct H3 as [(-> & _)|?]; [set_solver|by right].
  - intros n rest visited [g d] s' pushed (H1 & H2 & H3) Hnv Hv. cbn [fst snd] in H2, H3.
    assert (p ∈ {[n]} ∪ visited) as Hpv.
    { destruct H3 as [(_ & _ & [= -> ->])|]; set_solver. }
    destruct (units g0 !! n) as [u0|] eqn:En.
    + destruct (update_step_present visited n u0 g d s' pushed) as [Hrel ->]; [done|done| |done|].
      { destruct H3 as [(-> & -> & [= -> ->])|]; [by left|by right]. }
      split_and!; [split_and!; [|done|by right]|apply length_filter|].
      * apply reach_inv_push; [done| |].
        -- intros x Hx. by apply list_elem_of_filter in Hx as [_ ?].
        -- intros x Hx. destruct (decide (x = p)) as [->|]; [by right|].
           left. by apply list_elem_of_filter.
      * intros HD. apply not_elem_of_dom in HD. congruence.
    + rewrite (update_visit_absent visited) in Hv by done. simplify_eq/=.
      split_and!; [split_and!; [|by apply update_step_absent|by right]|simpl; lia|done].
      apply (reach_inv_push _ _ _ _ _ []); [done|set_solver|].
      intros x Hx. unfold dependents_of in Hx. rewrite En in Hx. set_solver.
  - intros n rest visited s s' _ _ Hv. by apply update_visit_never_stops in Hv.
  - split_and!; [apply reach_inv_init|apply update_rel_init|by left].
  - lia.
  - fold deg D. rewrite Hr. destruct r as [?|visited [g d]]; [destruct Hpost|].
    destruct Hpost as (H1 & H2 & _). exists g, d, visited. split_and!; [done|done|].
    intros x. rewrite (reach_inv_final _ _ _ H1). unfold reach_from. split.
    + intros (q & ->%list_elem_of_singleton & ?). done.
    + intros. exists p. split; [set_solver|done].
Qed.

Lemma update_rel_edges visited g d : update_rel p visited g0 g d → p ∈ visited → edges_ok g.
Proof.
  intros [Hu _ _ _ _] Hp.
  assert (∀ x, dependencies_of g x = if decide (x = p) then [] else dependencies_of g0 x) as H1.
  { intros x. specialize (Hu x). unfold dependencies_of.
    destruct (units g0 !! x); [|rewrite Hu; by case_decide].
    destruct Hu as (src & -> & _). simpl. repeat case_decide; naive_solver. }
  assert (∀ x, dependents_of g x = filter (λ y, y ≠ p) (dependents_of g0 x)) as H2.
  { intros x. specialize (Hu x). unfold dependents_of.
    destruct (units g0 !! x); [|by rewrite Hu].
    destruct Hu as (src & -> & _). simpl. by rewrite decide_True. }
  split.
  - intros u x. rewrite H1, H2, list_elem_of_filter, <- (edges_sym _ Hok).
    case_decide; set_solver.
  - intros x u Hx Hr. specialize (Hu x).
    destruct (units g0 !! x) as [u0|] eqn:Ex; [|congruence].
    destruct Hu as (src & Hx' & _). rewrite Hx in Hx'. simplify_eq. revert Hr. simpl.
    case_decide; [done|]. by apply (edges_unresolved _ Hok x).
Qed.
End Update.

(** C37. [update] always terminates.  It reports, without repetition, exactly the
    known units that [path_id] reaches along dependent edges; each of them
    becomes dirty, its generation advances and its running round is cancelled
    (a fresh source replaces the cancelled one) while interest and compiling
    state are untouched; every other unit only loses [path_id] as a dependent;
    [path_id] forgets its dependencies, and the edge invariant is kept. *)
Theorem update_correct (g : graph) (p : Z) :
  edges_ok g →
  ∃ g' dirtied, update p g = Some (g', dirtied) ∧ NoDup dirtied ∧
    (∀ x, x ∈ dirtied ↔
       is_Some (units g !! x) ∧ rtc (λ a b, b ∈ dependents_of g a) p x) ∧
    (∀ x u, x ∈ dirtied → units g !! x = Some u →
       ∃ u', units g' !! x = Some u' ∧ dirty u' = true ∧
         generation u' = u64 (generation u + 1) ∧ refcount u' = refcount u ∧
         compiling u' = compiling u ∧ round u' = round u ∧
         source u ∈ cancelled g' ∧ (next_source g ≤ source u')%nat) ∧
    (∀ x u, (x ∉ dirtied) → units g !! x = Some u →
       units g' !! x = Some (set_dependents (filter (λ y, y ≠ p)) u)) ∧
    dependencies_of g' p = [] ∧ rounds g' = rounds g ∧ edges_ok g'.
Proof.
  intros Hok. destruct (update_run g Hok p) as (g' & d & visited & Hup & Hrel & Hvis).
  assert (p ∈ visited) as Hp by (apply Hvis; reflexivity).
  pose proof (update_rel_edges g Hok p visited g' d Hrel Hp) as Hok'.
  destruct Hrel as [Hu [Hnd Hd] Hc Hs Hr]. exists g', d. split_and!; try done.
  - intros x. rewrite Hd, Hvis. naive_solver.
  - intros x u Hx Hxu. apply Hd in Hx as [Hx _]. specialize (Hu x). rewrite Hxu in Hu.
    destruct Hu as (src & Hg & Hsrc). rewrite decide_True in Hsrc by done.
    eexists. split; [exact Hg|]. simpl. rewrite !(decide_True (P := x ∈ visited)) by done.
    naive_solver.
  - intros x u Hx Hxu. assert (x ∉ visited) as Hxv.
    { intros Hxv. apply Hx, Hd. split; [done|by eexists]. }
    specialize (Hu x). rewrite Hxu in Hu. destruct Hu as (src & Hg & Hsrc).
    rewrite decide_False in Hsrc by done. subst src. rewrite Hg. f_equal. unfold updated.
    rewrite !(decide_False (P := _ ∧ _)) by naive_solver.
    rewrite (decide_True (P := p ∈ visited)), !(decide_False (P := x ∈ visited)) by done.
    done.
  - specialize (Hu p). unfold dependencies_of. destruct (units g !! p); [|by rewrite Hu].
    destruct Hu as (src & -> & _). simpl. by rewrite decide_True.
  - apply Hr.
Qed.

(** Unit 1 imports unit 2. *)
Definition sample_units : graph := ensure_resolved [2] 1 empty_graph.

Lemma update_correct_witness :
  ∃ g' dirtied, update 2 sample_units = Some (g', dirtied) ∧ NoDup dirtied ∧
    (∀ x, x ∈ dirtied ↔
       is_Some (units sample_units !! x) ∧ rtc (λ a b, b ∈ dependents_of sample_units a) 2 x) ∧
    (∀ x u, x ∈ dirtied → units sample_units !! x = Some u →
       ∃ u', units g' !! x = Some u' ∧ dirty u' = true ∧
         generation u' = u64 (generation u + 1) ∧ refcount u' = refcount u ∧
         compiling u' = compiling u ∧ round u' = round u ∧
         source u ∈ cancelled g' ∧ (next_source sample_units ≤ source u')%nat) ∧
    (∀ x u, (x ∉ dirtied) → units sample_units !! x = Some u →
       units g' !! x = Some (set_dependents (filter (λ y, y ≠ 2)) u)) ∧
    dependencies_of g' 2 = [] ∧ rounds g' = rounds sample_units ∧ edges_ok g'.
Proof. apply update_correct. apply ensure_resolved_edges_ok, edges_ok_empty. Defined.
