(* ===== verification/CompileTasks.v ===== *)
(** * The coroutines of the compilation graph
      (src/server/compiler/compile_graph.cpp)

    The coroutines [unit_body], [await_unit], [zero_interest_check], [compile],
    [compile_deps] and [shutdown] as a state machine.  A configuration holds the
    graph, one frame per running [unit_body] (keyed by its [Round]) and one
    frame per request.  Every segment of a coroutine between two suspension
    points is one atomic transition; the environment (the kota event loop, the
    compiler workers, the editor) chooses which enabled transition runs next,
    what [resolve] answers, and whether a dispatched compilation succeeds.

    The real event loop runs a spawned [unit_body] up to its first suspension
    inside [spawn_unit], before [await_unit] goes on; here that segment is the
    separate transition [LBodyStart], so the executions of the program are among
    those of the model, and what holds in every reachable configuration of the
    model holds of the program.

    Interest counts are 32-bit and generations 64-bit: a transition that would
    pass [2^32 - 1] simultaneous references or [2^64 - 1] updates of one unit is
    not offered. *)
From S2P Require Import Prelude Worklist CompileGraph.
From stdpp Require Import relations.
Local Open Scope Z_scope.

(** ** Frames *)

(** Program points of [await_unit]: the loop head, after the spawn, suspended
    on [round->completion.wait()], returned. *)
Inductive wait_pc := WHead | WCheck | WSusp (r : nat) | WRes (ok : bool).

Global Instance wait_pc_eq_dec : EqDecision wait_pc.
Proof. solve_decision. Defined.

(** Program points of [unit_body]: spawned, inside [when_all(waits)], inside
    [dispatch]. *)
Inductive body_pc := BStart | BWait | BDispatch.

Global Instance body_pc_eq_dec : EqDecision body_pc.
Proof. solve_decision. Defined.

(** The frame of [unit_body], with its [UnitGuard] ([b_acquired]) and the
    [await_unit] frames it awaits. *)
Record body := mkBody {
  b_path : Z;
  b_token : nat;
  b_pc : body_pc;
  b_gen : Z;
  b_acquired : list Z;
  b_waits : list (Z * wait_pc);
}.

(** The frame of [compile] or [compile_deps], with its [RefGuard]. *)
Record request := mkRequest {
  r_held : list Z;
  r_waits : list (Z * wait_pc);
}.

Record config := mkConfig {
  gr : graph;
  bodies : gmap nat body;
  reqs : gmap nat request;
}.

Definition init : config := mkConfig empty_graph ∅ ∅.

(** [Err tt]: the transition is not enabled.  [Fault]: an [assert] fails. *)
Abbreviation result A := (Res unit A).
Local Open Scope cpp_scope.

Definition guard_b (b : bool) : result unit := if b then Ok tt else Err tt.
Definition need {A} (o : option A) : result A := match o with Some a => Ok a | None => Err tt end.

Lemma bind_need {A B} (o : option A) (k : A → result B) b :
  Res_bind (need o) k = Ok b ↔ ∃ a, o = Some a ∧ k a = Ok b.
Proof. destruct o; simpl; naive_solver. Qed.

Lemma bind_read {A B} (o : option A) (k : A → result B) b :
  Res_bind (read o) k = Ok b ↔ ∃ a, o = Some a ∧ k a = Ok b.
Proof. destruct o; simpl; naive_solver. Qed.

Lemma bind_guard {B} (t : bool) (k : unit → result B) b :
  Res_bind (guard_b t) k = Ok b ↔ t = true ∧ k tt = Ok b.
Proof. destruct t; simpl; naive_solver. Qed.

(** ** Coroutine segments *)

Definition set_rounds (f : gmap nat Round → gmap nat Round) (g : graph) : graph :=
  mkGraph (units g) (f (rounds g)) (next_round g) (cancelled g) (next_source g) (closed g)
    (zero_tasks g).

(** [spawn_unit]: [unit.compiling = true; unit.round = make_shared<Round>()],
    then either the task is spawned or, when the task group is closed, the
    flag is rolled back and the round completed. *)
Definition spawn_unit (path_id : Z) (g : graph) (bs : gmap nat body)
  : result (graph * gmap nat body * bool) :=
  let? unit := read (units g !! path_id) in
  if compiling unit then Fault
  else
    let r := next_round g in
    let g1 := modify path_id (λ u, set_round (Some r) (set_compiling true u)) g in
    let g2 := mkGraph (units g1) (<[r := mkRound false Stale]> (rounds g1)) (S r) (cancelled g1)
                (next_source g1) (closed g1) (zero_tasks g1) in
    if closed g then
      let g3 := modify path_id (set_compiling false) g2 in
      Ok (set_rounds (<[r := mkRound true Stale]>) g3, bs, false)
    else Ok (g2, <[r := mkBody path_id (source unit) BStart 0 [] []]> bs, true).

(** One segment of [await_unit(path_id, waiter)]. *)
Definition await_step (waiter : option Z) (path_id : Z) (pc : wait_pc)
    (g : graph) (bs : gmap nat body) : result (graph * gmap nat body * wait_pc) :=
  match pc with
  | WHead =>
    let? unit := read (units g !! path_id) in
    if negb (dirty unit) then Ok (g, bs, WRes true)
    else if compiling unit then Ok (g, bs, WCheck)
    else
      let? res := spawn_unit path_id g bs in
      let '(g', bs', spawned) := res in
      Ok (g', bs', if spawned : bool then WCheck else WRes false)
  | WCheck =>
    let? unit := read (units g !! path_id) in
    let? r := read (round unit) in
    let? rd := read (rounds g !! r) in
    match waiter with
    | Some w =>
      if completion rd then Ok (g, bs, WSusp r)
      else match has_wait_cycle g path_id w with
           | Some true => Ok (g, bs, WRes false)
           | Some false => Ok (g, bs, WSusp r)
           | None => Stuck
           end
    | None => Ok (g, bs, WSusp r)
    end
  | WSusp r =>
    let? rd := read (rounds g !! r) in
    let? _ := guard_b (completion rd) in
    Ok (g, bs, match outcome rd with Success => WRes true | Failed => WRes false | Stale => WHead end)
  | WRes _ => Err tt
  end.

(** Releasing the references of a [RefGuard] or a [UnitGuard]. *)
Fixpoint release_all (ids : list Z) (g : graph) : option graph :=
  match ids with
  | [] => Some g
  | id :: ids => match release id g with Some g' => release_all ids g' | None => None end
  end.

Definition acquire_all (ids : list Z) (g : graph) : graph := foldl (λ g id, acquire id g) g ids.

(** [~UnitGuard]: publish the outcome, clear [compiling], release the edge
    references, complete the round; the frame is gone. *)
Definition finish (r : nat) (b : body) (o : Outcome) (c : config) : result config :=
  let g := gr c in
  let? unit := read (units g !! b_path b) in
  if negb (compiling unit && bool_decide (round unit = Some r)) then Fault
  else
    let g1 := set_rounds (alter (λ rd, mkRound (completion rd) o) r) g in
    let g2 := modify (b_path b) (set_compiling false) g1 in
    let? g3 := read (release_all (b_acquired b) g2) in
    let g4 := set_rounds (alter (λ rd, mkRound true (outcome rd)) r) g3 in
    Ok (mkConfig g4 (delete r (bodies c)) (reqs c)).

(** [unit_body] from its start to its first suspension; [deps] is what
    [resolve] answers if it is asked. *)
Definition body_start (r : nat) (deps : list Z) (c : config) : result config :=
  let? b := need (bodies c !! r) in
  let? _ := guard_b (bool_decide (b_pc b = BStart)) in
  let p := b_path b in
  let g := ensure_resolved deps p (gr c) in
  let? unit := read (units g !! p) in
  let ds := dependencies unit in
  if decide (p ∈ ds) then finish r b Failed (mkConfig g (bodies c) (reqs c))
  else
    let b' := mkBody p (b_token b) (match ds with [] => BDispatch | _ => BWait end)
                (generation unit) ds ((λ d, (d, WHead)) <$> ds) in
    Ok (mkConfig (acquire_all ds g) (<[r := b']> (bodies c)) (reqs c)).

Definition results (ws : list (Z * wait_pc)) : option (list bool) :=
  mapM (λ w, match w.2 with WRes ok => Some ok | _ => None end) ws.

(** [unit_body] when [when_all] is done. *)
Definition body_deps_done (r : nat) (c : config) : result config :=
  let? b := need (bodies c !! r) in
  let? _ := guard_b (bool_decide (b_pc b = BWait)) in
  let? oks := need (results (b_waits b)) in
  if forallb id oks then
    Ok (mkConfig (gr c)
          (<[r := mkBody (b_path b) (b_token b) BDispatch (b_gen b) (b_acquired b) []]> (bodies c))
          (reqs c))
  else finish r b Failed c.

(** [unit_body] when [dispatch] returns [ok]. *)
Definition body_dispatch_done (r : nat) (ok : bool) (c : config) : result config :=
  let? b := need (bodies c !! r) in
  let? _ := guard_b (bool_decide (b_pc b = BDispatch)) in
  if negb ok then finish r b Failed c
  else
    let? fresh := read (units (gr c) !! b_path b) in
    if decide (generation fresh ≠ b_gen b) then finish r b Stale c
    else finish r b Success
           (mkConfig (modify (b_path b) (set_dirty false) (gr c)) (bodies c) (reqs c)).

(** A suspended [unit_body] whose token is cancelled, or whose task group is,
    is destroyed: only its guard runs. *)
Definition body_cancelled (r : nat) (c : config) : result config :=
  let? b := need (bodies c !! r) in
  let? _ := guard_b (bool_decide (b_pc b ≠ BStart)) in
  let? _ := guard_b (closed (gr c) || bool_decide (b_token b ∈ cancelled (gr c))) in
  finish r b Stale c.

(** Transitions. *)
Inductive label :=
| LCompile (id : nat) (p : Z)
| LCompileDeps (id : nat) (p : Z) (deps : list Z)
| LReqWait (id k : nat)
| LReqDone (id : nat)
| LReqCancel (id : nat)
| LBodyStart (r : nat) (deps : list Z)
| LBodyWait (r k : nat)
| LDepsDone (r : nat)
| LDispatchDone (r : nat) (ok : bool)
| LBodyCancel (r : nat)
| LZeroCheck
| LUpdate (p : Z)
| LCancelAll (order : list Z)
| LShutdown.

Definition new_request (id : nat) (held : list Z) (g : graph) (c : config) : result config :=
  let? _ := guard_b (bool_decide (reqs c !! id = None)) in
  Ok (mkConfig (acquire_all held g) (bodies c)
        (<[id := mkRequest held ((λ d, (d, WHead)) <$> held)]> (reqs c))).

Definition end_request (id : nat) (q : request) (c : config) : result config :=
  let? g := read (release_all (r_held q) (gr c)) in
  Ok (mkConfig g (bodies c) (delete id (reqs c))).

Definition exec (l : label) (c : config) : result config :=
  match l with
  | LCompile id p => new_request id [p] (gr c) c
  | LCompileDeps id p deps =>
    let g := ensure_resolved deps p (gr c) in
    let? unit := read (units g !! p) in
    match dependencies unit with
    | [] => Ok (mkConfig g (bodies c) (reqs c))
    | ds => new_request id ds g c
    end
  | LReqWait id k =>
    let? q := need (reqs c !! id) in
    let? w := need (r_waits q !! k) in
    let? res := await_step None w.1 w.2 (gr c) (bodies c) in
    let '(g, bs, pc) := res in
    Ok (mkConfig g bs (<[id := mkRequest (r_held q) (<[k := (w.1, pc)]> (r_waits q))]> (reqs c)))
  | LReqDone id =>
    let? q := need (reqs c !! id) in
    let? _ := need (results (r_waits q)) in
    end_request id q c
  | LReqCancel id =>
    let? q := need (reqs c !! id) in
    end_request id q c
  | LBodyStart r deps => body_start r deps c
  | LBodyWait r k =>
    let? b := need (bodies c !! r) in
    let? w := need (b_waits b !! k) in
    let? res := await_step (Some (b_path b)) w.1 w.2 (gr c) (bodies c) in
    let '(g, bs, pc) := res in
    Ok (mkConfig g
          (<[r := mkBody (b_path b) (b_token b) (b_pc b) (b_gen b) (b_acquired b)
                    (<[k := (w.1, pc)]> (b_waits b))]> bs)
          (reqs c))
  | LDepsDone r => body_deps_done r c
  | LDispatchDone r ok => body_dispatch_done r ok c
  | LBodyCancel r => body_cancelled r c
  | LZeroCheck =>
    match zero_tasks (gr c) with
    | [] => Err tt
    | p :: rest =>
      let g := gr c in
      let g1 := mkGraph (units g) (rounds g) (next_round g) (cancelled g) (next_source g)
                  (closed g) rest in
      let? g2 := if closed g then Ok g1 else read (zero_interest_check p g1) in
      Ok (mkConfig g2 (bodies c) (reqs c))
    end
  | LUpdate p =>
    match update p (gr c) with
    | Some (g, _) => Ok (mkConfig g (bodies c) (reqs c))
    | None => Stuck
    end
  | LCancelAll order =>
    let? _ := guard_b (bool_decide (order ≡ₚ elements (dom (units (gr c))))) in
    Ok (mkConfig (cancel_all order (gr c)) (bodies c) (reqs c))
  | LShutdown =>
    let g := gr c in
    Ok (mkConfig (mkGraph (units g) (rounds g) (next_round g) (cancelled g) (next_source g)
                    true (zero_tasks g)) (bodies c) (reqs c))
  end.

(** ** Runs

    The counters of a unit are machine integers: a run is considered as long as no
    reference count reaches 2^32 and no generation 2^64.  This is a condition on the
    runs, not a test of the program. *)

(** References fit their 32-bit counters after [n] more of them. *)
Definition refs_fit (n : nat) (g : graph) : bool :=
  forallb (λ e, bool_decide (refcount e.2 + Z.of_nat n < two32)) (map_to_list (units g)).

(** Generations fit 64 bits after one more update. *)
Definition gens_fit (g : graph) : bool :=
  forallb (λ e, bool_decide (generation e.2 + 1 < two64)) (map_to_list (units g)).

(** The counters can take what the transition adds to them. *)
Definition fits (l : label) (c : config) : bool :=
  match l with
  | LCompile _ _ => refs_fit 1 (gr c)
  | LCompileDeps _ p deps =>
    let g := ensure_resolved deps p (gr c) in refs_fit (length (dependencies_of g p)) g
  | LBodyStart r deps =>
    match bodies c !! r with
    | Some b => let g := ensure_resolved deps (b_path b) (gr c) in refs_fit (length (dependencies_of g (b_path b))) g
    | None => true
    end
  | LUpdate _ => gens_fit (gr c)
  | _ => true
  end.

Definition step (c c' : config) : Prop := ∃ l, fits l c = true ∧ exec l c = Ok c'.

Definition reachable (c : config) : Prop := rtc step init c.

(** A run along a list of labels. *)
Fixpoint run (ls : list label) (c : config) : result config :=
  match ls with
  | [] => Ok c
  | l :: ls => if fits l c then let? c' := exec l c in run ls c' else Err tt
  end.
