(* ===== verification/CompileInvariant.v ===== *)
(** * Invariants of the compilation graph's coroutines

    The inductive invariant of the transition system of CompileTasks.v, in two
    parts: the structural invariant [inv] (edges, rounds, frames, cleanliness
    and the absence of wait cycles) and the interest invariant of
    CompileInterest.v.  This file defines [inv] and proves that every transition
    preserves it. *)
From S2P Require Import Prelude Worklist CompileGraph CompileTasks.
From stdpp Require Import relations.
Local Open Scope Z_scope.

(** A unit that is known and up to date. *)
Definition clean (g : graph) (x : Z) : Prop :=
  ∃ u, units g !! x = Some u ∧ dirty u = false.

(** A frame of [await_unit] on [w.1] at [w.2]: an unfinished round it waits for
    is the round of a running body of that very unit. *)
Definition wait_ok (g : graph) (bs : gmap nat body) (w : Z * wait_pc) : Prop :=
  ∃ u, units g !! w.1 = Some u ∧
    match w.2 with
    | WCheck => is_Some (round u)
    | WSusp r => ∃ rd, rounds g !! r = Some rd ∧
        (completion rd = false → ∃ b, bs !! r = Some b ∧ b_path b = w.1)
    | _ => True
    end.

(** The wait on [d] has returned true, or will because the round it looks at
    succeeded. *)
Definition succ_seen (g : graph) (d : Z) (pc : wait_pc) : Prop :=
  match pc with
  | WHead => False
  | WCheck => ∃ u r, units g !! d = Some u ∧ round u = Some r ∧
                     rounds g !! r = Some (mkRound true Success)
  | WSusp r => rounds g !! r = Some (mkRound true Success)
  | WRes ok => ok = true
  end.

(** What the frame has learnt about its dependencies. *)
Definition deps_clean (g : graph) (b : body) : Prop :=
  match b_pc b with
  | BStart => True
  | BWait => ∀ d pc, (d, pc) ∈ b_waits b → succ_seen g d pc → clean g d
  | BDispatch => ∀ d, d ∈ b_acquired b → clean g d
  end.

(** A frame past its start: unless an update advanced the unit's generation
    (and cancelled the frame), its copy of the dependencies is current. *)
Definition started (g : graph) (b : body) (u : CompileUnit) : Prop :=
  (b_path b ∉ b_acquired b) ∧ b_gen b ≤ generation u ∧
  (b_gen b ≠ generation u → b_token b ∈ cancelled g) ∧
  (b_gen b = generation u →
     resolved u = true ∧ b_acquired b = dependencies u ∧ deps_clean g b).

Record body_ok (g : graph) (bs : gmap nat body) (r : nat) (b : body) (u : CompileUnit) : Prop := {
  bo_unit : units g !! b_path b = Some u;
  bo_compiling : compiling u = true;
  bo_round : round u = Some r;
  bo_open : rounds g !! r = Some (mkRound false Stale);
  bo_token : b_token b = source u ∨ b_token b ∈ cancelled g;
  bo_waits : Forall (wait_ok g bs) (b_waits b);
  bo_pc : match b_pc b with
          | BStart => b_acquired b = [] ∧ b_waits b = []
          | BWait => (b_waits b).*1 = b_acquired b ∧ b_waits b ≠ [] ∧ started g b u
          | BDispatch => b_waits b = [] ∧ started g b u
          end;
}.

Record unit_ok (g : graph) (bs : gmap nat body) (x : Z) (u : CompileUnit) : Prop := {
  uo_body : compiling u = true → ∃ r b, round u = Some r ∧ bs !! r = Some b ∧ b_path b = x;
  uo_idle : compiling u = false → round_done g u = true;
  uo_round : ∀ r, round u = Some r → is_Some (rounds g !! r);
  uo_dirty : compiling u = true → dirty u = true;
  uo_clean : dirty u = false → resolved u = true ∧ ∀ d, d ∈ dependencies u → clean g d;
  uo_gen : 0 ≤ generation u;
}.

(** [a]'s running, up-to-date body is suspended on an unfinished round of [b]. *)
Definition waits_on (g : graph) (bs : gmap nat body) (a b : Z) : Prop :=
  ∃ r bd u r' rd, bs !! r = Some bd ∧ b_path bd = a ∧ units g !! a = Some u ∧
    b_gen bd = generation u ∧ b_pc bd = BWait ∧ (b, WSusp r') ∈ b_waits bd ∧
    rounds g !! r' = Some rd ∧ completion rd = false.

Record inv (c : config) : Prop := {
  inv_edges : edges_ok (gr c);
  inv_rounds : ∀ r, is_Some (rounds (gr c) !! r) → (r < next_round (gr c))%nat;
  inv_units : ∀ x u, units (gr c) !! x = Some u → unit_ok (gr c) (bodies c) x u;
  inv_bodies : ∀ r b, bodies c !! r = Some b → ∃ u, body_ok (gr c) (bodies c) r b u;
  inv_reqs : ∀ id q, reqs c !! id = Some q →
      Forall (wait_ok (gr c) (bodies c)) (r_waits q) ∧ (r_waits q).*1 = r_held q;
  inv_acyclic : ∀ a, ¬ tc (waits_on (gr c) (bodies c)) a a;
}.

Lemma inv_init : inv init.
Proof.
  split; simpl.
  - apply edges_ok_empty.
  - intros r [? Hr]. by rewrite lookup_empty in Hr.
  - intros x u Hx. by rewrite lookup_empty in Hx.
  - intros r b Hr. by rewrite lookup_empty in Hr.
  - intros r b Hr. by rewrite lookup_empty in Hr.
  - intros a Ha.
    assert (∀ x y, tc (waits_on empty_graph ∅) x y → False) as Hno; [|by eapply Hno].
    induction 1 as [x y H|x y z H]; destruct H as (? & ? & ? & ? & ? & Hb & _);
      by rewrite lookup_empty in Hb.
Qed.

(** Two bodies of the same unit are the same frame. *)
Lemma body_unique c r1 r2 b1 b2 :
  inv c → bodies c !! r1 = Some b1 → bodies c !! r2 = Some b2 → b_path b1 = b_path b2 → r1 = r2.
Proof.
  intros Hinv H1 H2 E. destruct (inv_bodies _ Hinv _ _ H1) as [u1 B1].
  destruct (inv_bodies _ Hinv _ _ H2) as [u2 B2].
  pose proof (bo_unit _ _ _ _ _ B1) as U1. pose proof (bo_unit _ _ _ _ _ B2) as U2.
  rewrite E in U1. rewrite U1 in U2. simplify_eq.
  pose proof (bo_round _ _ _ _ _ B1). pose proof (bo_round _ _ _ _ _ B2). congruence.
Qed.

(** ** Frame conditions *)

(** How any transition may change the graph and the set of frames, as far as the
    frames it does not touch are concerned. *)
Record evolves (g : graph) (bs : gmap nat body) (g' : graph) (bs' : gmap nat body) : Prop := {
  ev_units : ∀ x u, units g !! x = Some u →
      ∃ u', units g' !! x = Some u' ∧ (is_Some (round u) → is_Some (round u'));
  ev_rounds : ∀ r rd, rounds g !! r = Some rd →
      ∃ rd', rounds g' !! r = Some rd' ∧ (completion rd = true → rd' = rd);
  ev_bodies : ∀ r b rd', bs !! r = Some b → rounds g' !! r = Some rd' → completion rd' = false →
      ∃ b', bs' !! r = Some b' ∧ b_path b' = b_path b;
}.

Lemma wait_ok_evolves g bs g' bs' w :
  evolves g bs g' bs' → wait_ok g bs w → wait_ok g' bs' w.
Proof.
  intros [Hu Hr Hb] (u & Hx & Hpc). destruct (Hu _ _ Hx) as (u' & Hx' & Hround).
  exists u'. split; [done|]. destruct w as [d pc]. simpl in *. destruct pc as [| |r|ok]; auto.
  destruct Hpc as (rd & Hrd & Hbody). destruct (Hr _ _ Hrd) as (rd' & Hrd' & Hsame).
  exists rd'. split; [done|]. intros Hc.
  destruct (completion rd) eqn:Ec; [rewrite Hsame in Hc by done; congruence|].
  destruct (Hbody eq_refl) as (b & Hbr & <-). by eapply Hb.
Qed.

(** The conditions under which an untouched frame stays well formed. *)
Lemma body_ok_frame g bs g' bs' r b u u' :
  body_ok g bs r b u → evolves g bs g' bs' →
  units g' !! b_path b = Some u' →
  compiling u' = true → round u' = Some r → rounds g' !! r = Some (mkRound false Stale) →
  cancelled g ⊆ cancelled g' →
  (source u' = source u ∨ source u ∈ cancelled g') →
  (generation u' = generation u ∧
     (resolved u = true → resolved u' = true ∧ dependencies u' = dependencies u) ∧
     (b_gen b = generation u → b_acquired b = dependencies u →
      ∀ d, d ∈ b_acquired b → clean g d → clean g' d)
   ∨ generation u < generation u' ∧ b_token b ∈ cancelled g') →
  (∀ d pc, (d, pc) ∈ b_waits b → succ_seen g' d pc → succ_seen g d pc ∨ clean g' d) →
  body_ok g' bs' r b u'.
Proof.
  intros [Hu Hc Hr Hopen Htok Hw Hpc] Hev Hu' Hc' Hr' Hopen' Hcan Hsrc Hgen Hsucc.
  split; try done.
  - destruct Htok as [->|]; [|right; set_solver]. destruct Hsrc as [->|]; [by left|by right].
  - eapply Forall_impl; [done|]. intros w. by apply wait_ok_evolves.
  - assert (started g b u → b_pc b ≠ BStart → (b_pc b = BWait → (b_waits b).*1 = b_acquired b) →
            started g' b u') as Hst.
    { intros (Hself & Hle & Hstale & Hfresh) Hpc' Hfst. split_and!; [done| | |].
      - destruct Hgen as [(-> & _)|[? _]]; lia.
      - intros Hne. destruct Hgen as [(E & _)|[_ ?]]; [|done]. apply Hcan, Hstale. congruence.
      - intros Heq. destruct Hgen as [(E & Hres & Hcl)|[? _]]; [|lia].
        destruct Hfresh as (Hres0 & Hacq & Hdc); [congruence|].
        destruct (Hres Hres0) as [Hres1 Hdep1]. split_and!; [done|congruence|].
        specialize (Hcl ltac:(congruence) Hacq).
        unfold deps_clean in *. destruct (b_pc b); [done| |].
        + intros d pc Hin. pose proof (Hdc d pc Hin) as Hd.
          assert (d ∈ b_acquired b) as Hda.
          { rewrite <- Hfst by done. apply list_elem_of_fmap. by exists (d, pc). }
          intros HS. destruct (Hsucc d pc Hin HS) as [?|?]; auto.
        + intros d Hd. by apply Hcl, Hdc. }
    destruct (b_pc b); [exact Hpc| |].
    + destruct Hpc as (? & ? & ?). split_and!; [done|done|by apply Hst].
    + destruct Hpc as (? & ?). split; [done|by apply Hst].
Qed.

(** Wait edges never appear by themselves. *)
Lemma waits_on_acyclic g bs g' bs' :
  (∀ a b, waits_on g' bs' a b → waits_on g bs a b) →
  (∀ a, ¬ tc (waits_on g bs) a a) → ∀ a, ¬ tc (waits_on g' bs') a a.
Proof.
  intros Hsub Hac a Ha. apply (Hac a). by apply (tc_congruence (λ x, x) (waits_on g bs) a a) in Ha.
Qed.

(** A wait edge of a frame present before, with the same waits, was there. *)
Lemma waits_on_back c g' r bd u' a b r' rd :
  inv c → bodies c !! r = Some bd → b_path bd = a → b_pc bd = BWait →
  units g' !! a = Some u' → b_gen bd = generation u' → (b, WSusp r') ∈ b_waits bd →
  rounds g' !! r' = Some rd → completion rd = false →
  (∀ u, units (gr c) !! a = Some u → generation u ≤ generation u') →
  (∀ rd0, rounds (gr c) !! r' = Some rd0 → completion rd0 = true → completion rd = true) →
  waits_on (gr c) (bodies c) a b.
Proof.
  intros Hinv Hr Ha Hpc Hu' Hgen Hin Hrd Hcomp Hmono Hrounds.
  destruct (inv_bodies _ Hinv _ _ Hr) as [u B]. pose proof (bo_unit _ _ _ _ _ B) as Hu.
  rewrite Ha in Hu. pose proof (bo_pc _ _ _ _ _ B) as Hst. rewrite Hpc in Hst.
  destruct Hst as (_ & _ & (_ & Hle & _ & _)).
  pose proof (Hmono u Hu). assert (b_gen bd = generation u) by lia.
  pose proof (bo_waits _ _ _ _ _ B) as Hw. rewrite Forall_forall in Hw.
  destruct (Hw _ Hin) as (ub & Hub & rd0 & Hrd0 & _). simpl in *.
  exists r, bd, u, r', rd0. split_and!; try done.
  destruct (completion rd0) eqn:E; [|done]. specialize (Hrounds _ Hrd0 E). congruence.
Qed.

(** ** Quiet changes of the graph

    Changes that touch neither rounds nor frames: interest counts, edges of
    unresolved units, cancellation sources, new blank units. *)
Record quiet (g g' : graph) : Prop := {
  q_units : ∀ x u, units g !! x = Some u → ∃ u', units g' !! x = Some u' ∧
      compiling u' = compiling u ∧ round u' = round u ∧ dirty u' = dirty u ∧
      generation u' = generation u ∧
      (resolved u = true → resolved u' = true ∧ dependencies u' = dependencies u) ∧
      (source u' = source u ∨ source u ∈ cancelled g');
  q_new : ∀ x u', units g' !! x = Some u' → units g !! x = None →
      compiling u' = false ∧ round u' = None ∧ dirty u' = true ∧ generation u' = 0;
  q_rounds : rounds g' = rounds g ∧ next_round g' = next_round g;
  q_cancelled : cancelled g ⊆ cancelled g';
}.

Lemma quiet_refl g : quiet g g.
Proof. split; [|congruence|done|done]. intros x u Hx. exists u. naive_solver. Qed.

Lemma quiet_trans g1 g2 g3 : quiet g1 g2 → quiet g2 g3 → quiet g1 g3.
Proof.
  intros [A1 A2 [A3 A3'] A4] [B1 B2 [B3 B3'] B4].
  split; [| |split; congruence|by etrans].
  - intros x u Hx. destruct (A1 _ _ Hx) as (u2 & Hx2 & E1 & E2 & E3 & E4 & E5 & E6).
    destruct (B1 _ _ Hx2) as (u3 & Hx3 & F1 & F2 & F3 & F4 & F5 & F6).
    exists u3. split_and!; try congruence.
    + intros Hr. destruct (E5 Hr) as [Hr2 Hd2]. destruct (F5 Hr2) as [Hr3 Hd3].
      split; congruence.
    + destruct E6 as [E6|E6]; [|right; set_solver].
      destruct F6 as [F6|F6]; [left; congruence|right; congruence].
  - intros x u3 Hx3 Hx1. destruct (units g2 !! x) as [u2|] eqn:Hx2; [|by eapply B2].
    destruct (A2 _ _ Hx2 Hx1) as (E1 & E2 & E3 & E4).
    destruct (B1 _ _ Hx2) as (u3' & Hx3' & F1 & F2 & F3 & F4 & F5 & F6).
    simplify_eq. split_and!; congruence.
Qed.

Lemma quiet_clean g g' x : quiet g g' → clean g x → clean g' x.
Proof.
  intros Hq (u & Hu & Hd). destruct (q_units _ _ Hq _ _ Hu) as (u' & Hu' & _ & _ & E & _).
  exists u'. split; congruence.
Qed.

Lemma quiet_succ_seen g g' d pc : quiet g g' → succ_seen g' d pc → succ_seen g d pc.
Proof.
  intros Hq. destruct (q_rounds _ _ Hq) as [Hr _]. destruct pc as [| |r|ok]; simpl; try done.
  - intros (u' & r & Hu' & Hround & Hrd). destruct (units g !! d) as [u|] eqn:Hu.
    + destruct (q_units _ _ Hq _ _ Hu) as (u2 & Hu2 & _ & E & _).
      exists u, r. split_and!; [done|congruence|congruence].
    + destruct (q_new _ _ Hq _ _ Hu' Hu) as (_ & E & _). congruence.
  - congruence.
Qed.

Lemma quiet_evolves g g' bs : quiet g g' → evolves g bs g' bs.
Proof.
  intros Hq. destruct (q_rounds _ _ Hq) as [Hr _]. split.
  - intros x u Hx. destruct (q_units _ _ Hq _ _ Hx) as (u' & Hu' & _ & E & _).
    exists u'. rewrite E. done.
  - intros r rd Hrd. exists rd. rewrite Hr. done.
  - eauto.
Qed.

(** Transport of a wait edge backwards, for frames that were there before. *)
Lemma waits_on_quiet c g' a b :
  inv c → quiet (gr c) g' → waits_on g' (bodies c) a b → waits_on (gr c) (bodies c) a b.
Proof.
  intros Hinv Hq (r & bd & u' & r' & rd & Hr & Ha & Hu' & Hgen & Hpc & Hin & Hrd & Hc).
  destruct (q_rounds _ _ Hq) as [Hrs _].
  eapply (waits_on_back c g' r bd u'); try done.
  - intros u Hu. destruct (q_units _ _ Hq _ _ Hu) as (u2 & Hu2 & _ & _ & _ & E & _).
    simplify_eq. lia.
  - intros rd0 Hrd0. rewrite Hrs in Hrd. congruence.
Qed.

Lemma inv_quiet c g' :
  inv c → quiet (gr c) g' → edges_ok g' → inv (mkConfig g' (bodies c) (reqs c)).
Proof.
  intros Hinv Hq He. destruct (q_rounds _ _ Hq) as [Hrs Hnr].
  pose proof (quiet_evolves _ _ (bodies c) Hq) as Hev.
  split; simpl.
  - done.
  - rewrite Hrs, Hnr. apply (inv_rounds _ Hinv).
  - intros x u' Hx. destruct (units (gr c) !! x) as [u|] eqn:Eu.
    + destruct (inv_units _ Hinv _ _ Eu) as [H1 H2 H3 H4 H5 H6].
      destruct (q_units _ _ Hq _ _ Eu) as (u2 & Hu2 & E1 & E2 & E3 & E4 & E5 & E6).
      simplify_eq. split; rewrite ?E1, ?E2, ?E3, ?E4; auto.
      * intros Hc. specialize (H2 Hc). unfold round_done in *. by rewrite E2, Hrs.
      * by rewrite Hrs.
      * intros Hd. destruct (H5 Hd) as [Hr Hcl]. destruct (E5 Hr) as [Hr' ->].
        split; [done|]. intros d Hdd. by apply (quiet_clean (gr c)); [|apply Hcl].
    + destruct (q_new _ _ Hq _ _ Hx Eu) as (E1 & E2 & E3 & E4).
      split; rewrite ?E1, ?E2, ?E3, ?E4; try done. intros _. unfold round_done. by rewrite E2.
  - intros r b Hr. destruct (inv_bodies _ Hinv _ _ Hr) as [u B].
    destruct (q_units _ _ Hq _ _ (bo_unit _ _ _ _ _ B))
      as (u' & Hu' & E1 & E2 & E3 & E4 & E5 & E6).
    exists u'. eapply body_ok_frame; try done.
    + rewrite E1. apply B.
    + rewrite E2. apply B.
    + rewrite Hrs. apply B.
    + apply (q_cancelled _ _ Hq).
    + left. split_and!; [done|done|]. intros _ _ d _. by apply quiet_clean.
    + intros d pc _ Hs. left. by eapply quiet_succ_seen.
  - intros id q Hid. destruct (inv_reqs _ Hinv _ _ Hid) as [Hw Hf]. split; [|done].
    eapply Forall_impl; [done|]. intros w. by apply wait_ok_evolves.
  - apply (waits_on_acyclic (gr c) (bodies c)); [|apply Hinv].
    intros a b. by apply waits_on_quiet.
Qed.

(** *** Which operations are quiet *)

Lemma quiet_modify k f g :
  (∀ u, compiling (f u) = compiling u ∧ round (f u) = round u ∧ dirty (f u) = dirty u ∧
        generation (f u) = generation u ∧ source (f u) = source u) →
  (∀ u, units g !! k = Some u → resolved u = true →
        resolved (f u) = true ∧ dependencies (f u) = dependencies u) →
  quiet g (modify k f g).
Proof.
  intros Hf Hres. split; [| |done|done].
  - intros x u Hx. rewrite modify_lookup, Hx. case_decide as E.
    + subst x. exists (f u). destruct (Hf u) as (E1 & E2 & E3 & E4 & E5). rewrite E5.
      split_and!; try done; [by apply Hres|by left].
    + exists u. naive_solver.
  - intros x u'. rewrite modify_lookup. intros Hx Hn. rewrite Hn in Hx.
    by destruct (decide (k = x)).
Qed.

Lemma quiet_touch k g : quiet g (touch k g).
Proof.
  unfold touch. destruct (units g !! k) eqn:Ek; [apply quiet_refl|].
  split; simpl; [| |done|done].
  - intros x u Hx. exists u. rewrite lookup_insert_ne by congruence. naive_solver.
  - intros x u'. rewrite lookup_insert. case_decide; [intros [= <-] _|congruence].
    done.
Qed.

Lemma quiet_acquire p g : quiet g (acquire p g).
Proof.
  eapply quiet_trans; [apply (quiet_touch p)|]. by apply quiet_modify.
Qed.

Lemma quiet_acquire_all ids g : quiet g (acquire_all ids g).
Proof.
  unfold acquire_all. apply (foldl_invariant (quiet g)); [apply quiet_refl|].
  intros g1 p _ Hq. eapply quiet_trans; [done|apply quiet_acquire].
Qed.

(** Only the fields [units] (quietly), [closed] and [zero_tasks] differ. *)
Lemma quiet_rest (g g' : graph) :
  units g' = units g → rounds g' = rounds g → next_round g' = next_round g →
  cancelled g' = cancelled g → quiet g g'.
Proof.
  intros E1 E2 E3 E4. split; rewrite ?E1, ?E2, ?E3, ?E4; [|congruence|done|done].
  intros x u Hx. exists u. naive_solver.
Qed.

Lemma quiet_release p g g' : release p g = Some g' → quiet g g'.
Proof.
  unfold release. destruct (units g !! p); [|done]. case_decide; [|done].
  repeat case_match; intros [= <-]; [by apply quiet_modify| |by apply quiet_modify].
  apply (quiet_trans _ (modify p (set_refcount (λ r, r - 1)) g)); [by apply quiet_modify|].
  set (g1 := modify p (set_refcount (λ r, r - 1)) g).
  apply (quiet_trans _ (modify p (set_zero_check true) g1)); [by apply quiet_modify|].
  by apply quiet_rest.
Qed.

Lemma quiet_release_all ids g g' : release_all ids g = Some g' → quiet g g'.
Proof.
  revert g. induction ids as [|p ids IH]; intros g; simpl; [intros [= <-]; apply quiet_refl|].
  destruct (release p g) as [g1|] eqn:E; [|done]. intros Hr.
  eapply quiet_trans; [by eapply quiet_release|by apply IH].
Qed.

Lemma edges_ok_acquire_all ids g : edges_ok g → edges_ok (acquire_all ids g).
Proof.
  intros. unfold acquire_all. apply foldl_invariant; [done|]. intros. by apply edges_ok_acquire.
Qed.

Lemma edges_ok_release_all ids g g' : edges_ok g → release_all ids g = Some g' → edges_ok g'.
Proof.
  revert g. induction ids as [|p ids IH]; intros g Hok; simpl; [by intros [= <-]|].
  destruct (release p g) as [g1|] eqn:E; [|done]. apply IH. by eapply edges_ok_release.
Qed.

Lemma quiet_add_dependent p d g : quiet g (add_dependent p g d).
Proof. eapply quiet_trans; [apply (quiet_touch d)|]. by apply quiet_modify. Qed.

Lemma quiet_ensure_resolved deps p g : quiet g (ensure_resolved deps p g).
Proof.
  unfold ensure_resolved. eapply quiet_trans; [apply (quiet_touch p)|].
  destruct (units (touch p g) !! p) as [unit|] eqn:E; [|apply quiet_refl].
  destruct (resolved unit) eqn:Er; [apply quiet_refl|].
  apply (foldl_invariant (quiet (touch p g))).
  - apply quiet_modify; [done|]. intros u Hu. rewrite E in Hu. simplify_eq. congruence.
  - intros g1 d _ Hq. eapply quiet_trans; [done|apply quiet_add_dependent].
Qed.

Lemma quiet_cancel_round p g : quiet g (cancel_round p g).
Proof.
  split; unfold cancel_round; destruct (units g !! p) as [up|] eqn:Ep; simpl;
    [| | | |done|done|set_solver|done].
  - intros x u Hx. rewrite lookup_alter. case_decide as E.
    + subst x. rewrite Hx. simplify_eq. simpl. eexists. split; [done|]. simpl.
      split_and!; try done. right. set_solver.
    + exists u. naive_solver.
  - intros x u Hx. exists u. naive_solver.
  - intros x u'. rewrite lookup_alter. case_decide; [subst; intros Hx Hn; by rewrite Hn in Hx|].
    congruence.
  - congruence.
Qed.

Lemma quiet_zero_check p g g' : zero_interest_check p g = Some g' → quiet g g'.
Proof.
  unfold zero_interest_check. destruct (units g !! p); [|done]. intros [= <-].
  case_match; [eapply quiet_trans; [|apply quiet_cancel_round]|]; by apply quiet_modify.
Qed.

Lemma quiet_cancel_all order g : quiet g (cancel_all order g).
Proof.
  unfold cancel_all. apply (foldl_invariant (quiet g)); [apply quiet_refl|].
  intros g1 p _ Hq. eapply quiet_trans; [done|apply quiet_cancel_round].
Qed.

Lemma edges_ok_cancel_all order g : edges_ok g → edges_ok (cancel_all order g).
Proof.
  intros. unfold cancel_all. apply foldl_invariant; [done|]. intros. by apply edges_ok_cancel_round.
Qed.

#[export] Hint Resolve quiet_refl quiet_touch quiet_acquire quiet_acquire_all quiet_release
  quiet_release_all quiet_ensure_resolved quiet_cancel_round quiet_zero_check quiet_cancel_all
  edges_ok_acquire_all edges_ok_release_all edges_ok_cancel_all : clice.

(** ** Changes of frames *)

(** Replacing the frame of a round by a later state of it. *)
Lemma evolves_insert g bs r b b' :
  bs !! r = Some b → b_path b' = b_path b → evolves g bs g (<[r := b']> bs).
Proof.
  intros Hr Hp. split; [eauto|eauto|]. intros r1 b1 rd Hr1 _ _. rewrite lookup_insert.
  case_decide; [subst; simplify_eq; eauto|eauto].
Qed.

Lemma inv_body_update c r b b' u :
  inv c → bodies c !! r = Some b → b_path b' = b_path b →
  body_ok (gr c) (<[r := b']> (bodies c)) r b' u →
  (∀ a, ¬ tc (waits_on (gr c) (<[r := b']> (bodies c))) a a) →
  inv (mkConfig (gr c) (<[r := b']> (bodies c)) (reqs c)).
Proof.
  intros Hinv Hr Hp Hb' Hac.
  pose proof (evolves_insert (gr c) (bodies c) r b b' Hr Hp) as Hev.
  split; simpl; [apply Hinv|apply Hinv| | | |done].
  - intros x v Hx. destruct (inv_units _ Hinv _ _ Hx) as [H1 H2 H3 H4 H5 H6].
    split; auto. intros Hc. destruct (H1 Hc) as (r1 & b1 & E1 & E2 & E3). exists r1.
    rewrite lookup_insert. case_decide; [subst; simplify_eq; eauto|eauto].
  - intros r1 b1. rewrite lookup_insert. case_decide; [intros [= <-]; subst; by eauto|].
    intros Hr1. destruct (inv_bodies _ Hinv _ _ Hr1) as [u1 B]. exists u1.
    eapply body_ok_frame; try done; [apply B|apply B|apply B|apply B|by left|left; naive_solver|].
    intros d pc _ Hs. by left.
  - intros id q Hid. destruct (inv_reqs _ Hinv _ _ Hid) as [Hw Hf]. split; [|done].
    eapply Forall_impl; [done|]. intros w. by apply wait_ok_evolves.
Qed.

Lemma inv_req_insert c id q :
  inv c → Forall (wait_ok (gr c) (bodies c)) (r_waits q) → (r_waits q).*1 = r_held q →
  inv (mkConfig (gr c) (bodies c) (<[id := q]> (reqs c))).
Proof.
  intros [H1 H2 H3 H4 H5 H6] Hw Hf. split; try done. simpl. intros i q'.
  rewrite lookup_insert. case_decide; [by intros [= <-]|apply H5].
Qed.

Lemma inv_req_delete c id : inv c → inv (mkConfig (gr c) (bodies c) (delete id (reqs c))).
Proof.
  intros [H1 H2 H3 H4 H5 H6]. split; try done. simpl. intros i q'.
  rewrite lookup_delete. case_decide; [done|apply H5].
Qed.

(** ** Spawning a round *)

(** The graph of [spawn_unit] once the new round [next_round g] is installed. *)
Definition spawned (p : Z) (running : bool) (g : graph) : graph :=
  let r := next_round g in
  let g1 := modify p (λ u, set_round (Some r) (set_compiling running u)) g in
  mkGraph (units g1) (<[r := mkRound (negb running) Stale]> (rounds g1)) (S r) (cancelled g1)
    (next_source g1) (closed g1) (zero_tasks g1).

Lemma spawn_unit_eq p g bs u :
  units g !! p = Some u → compiling u = false →
  spawn_unit p g bs =
    Ok (if closed g then (spawned p false g, bs, false)
        else (spawned p true g, <[next_round g := mkBody p (source u) BStart 0 [] []]> bs, true)).
Proof.
  intros Hu Hc. unfold spawn_unit. rewrite Hu. simpl. rewrite Hc.
  unfold spawned, modify, set_units, set_rounds. simpl.
  destruct (closed g); [|done]. do 4 f_equal.
  - rewrite alter_alter_eq. apply alter_ext. by intros u' _.
  - by rewrite insert_insert_eq.
Qed.

Section Spawn.
Context (c : config) (Hinv : inv c) (p : Z) (u : CompileUnit).
Context (Hu : units (gr c) !! p = Some u) (Hc : compiling u = false) (Hd : dirty u = true).
Context (running : bool).

Abbreviation r := (next_round (gr c)).
Let g' := spawned p running (gr c).
Let bs' := if running then <[r := mkBody p (source u) BStart 0 [] []]> (bodies c) else bodies c.

Lemma spawn_fresh_round : rounds (gr c) !! r = None.
Proof.
  destruct (rounds (gr c) !! r) as [rd|] eqn:E; [|done].
  pose proof (inv_rounds _ Hinv r ltac:(eauto)). lia.
Qed.

Lemma spawn_fresh_body : bodies c !! r = None.
Proof.
  destruct (bodies c !! r) as [b|] eqn:E; [|done].
  destruct (inv_bodies _ Hinv _ _ E) as [v B]. pose proof (bo_open _ _ _ _ _ B) as Ho.
  by rewrite spawn_fresh_round in Ho.
Qed.

Lemma spawn_units x :
  units g' !! x = if decide (p = x) then Some (set_round (Some r) (set_compiling running u))
                  else units (gr c) !! x.
Proof.
  unfold g', spawned. simpl. rewrite lookup_alter. case_decide; [by subst; rewrite Hu|done].
Qed.

Lemma spawn_rounds r1 rd : rounds (gr c) !! r1 = Some rd → rounds g' !! r1 = Some rd.
Proof.
  intros Hr. unfold g', spawned. simpl. rewrite lookup_insert_ne; [done|].
  intros <-. by rewrite spawn_fresh_round in Hr.
Qed.

Lemma spawn_bodies r1 b : bodies c !! r1 = Some b → bs' !! r1 = Some b.
Proof.
  intros Hr. unfold bs'. destruct running; [|done]. rewrite lookup_insert_ne; [done|].
  intros <-. by rewrite spawn_fresh_body in Hr.
Qed.

Lemma spawn_evolves : evolves (gr c) (bodies c) g' bs'.
Proof.
  split.
  - intros x v Hx. rewrite spawn_units. case_decide; [|by eauto].
    eexists. split; [done|]. by eexists.
  - intros r1 rd Hr. exists rd. split; [by apply spawn_rounds|done].
  - intros r1 b rd Hr _ _. exists b. split; [by apply spawn_bodies|done].
Qed.

Lemma spawn_clean x : clean (gr c) x → clean g' x.
Proof.
  intros (v & Hv & Hcl). exists v. rewrite spawn_units. case_decide; [|done]. congruence.
Qed.

Lemma spawn_edges : edges_ok g'.
Proof.
  eapply (edges_ok_units (modify p _ (gr c))); [reflexivity|].
  apply edges_ok_modify; [done|apply Hinv].
Qed.

Lemma spawn_unit_ok x v : units g' !! x = Some v → unit_ok g' bs' x v.
Proof.
  rewrite spawn_units. case_decide as E.
  - intros [= <-]. subst x. pose proof (inv_units _ Hinv _ _ Hu) as [_ _ _ _ _ Hgen].
    split; simpl.
    + intros ->. exists r, (mkBody p (source u) BStart 0 [] []). unfold bs'.
      by rewrite lookup_insert_eq.
    + intros ->. unfold round_done, g', spawned. simpl. by rewrite lookup_insert_eq.
    + intros r1 [= <-]. unfold g', spawned. simpl. rewrite lookup_insert_eq. by eexists.
    + done.
    + congruence.
    + done.
  - intros Hx. pose proof (inv_units _ Hinv _ _ Hx) as [H1 H2 H3 H4 H5 H6]. split; try done.
    + intros Hcx. destruct (H1 Hcx) as (r1 & b & ? & ? & ?). exists r1, b.
      split_and!; [done|by apply spawn_bodies|done].
    + intros Hcx. specialize (H2 Hcx). unfold round_done in *.
      destruct (round v) as [r1|]; [|done]. destruct (H3 r1 eq_refl) as [rd Hrd].
      rewrite Hrd in H2. by rewrite (spawn_rounds _ _ Hrd).
    + intros r1 Hr1. destruct (H3 r1 Hr1) as [rd Hrd]. exists rd. by apply spawn_rounds.
    + intros Hdx. destruct (H5 Hdx) as [? Hcl]. split; [done|].
      intros d Hdd. by apply spawn_clean, Hcl.
Qed.

Lemma spawn_succ_seen d pc :
  succ_seen g' d pc → wait_ok (gr c) (bodies c) (d, pc) → succ_seen (gr c) d pc.
Proof.
  destruct pc as [| |r1|ok]; cbn [succ_seen]; try done.
  - intros (v & r1 & Hv & Hr1 & Hrd) _. rewrite spawn_units in Hv. case_decide.
    + simplify_eq/=. revert Hrd. unfold g', spawned. simpl. by rewrite lookup_insert_eq.
    + exists v, r1. split_and!; [done|done|].
      destruct (uo_round _ _ _ _ (inv_units _ Hinv _ _ Hv) r1 Hr1) as [rd Hrd0].
      rewrite (spawn_rounds _ _ Hrd0) in Hrd. congruence.
  - intros Hrd (ud & _ & rd & Hrd0 & _). rewrite (spawn_rounds _ _ Hrd0) in Hrd. congruence.
Qed.

Lemma spawn_body_ok r1 b : bs' !! r1 = Some b → ∃ v, body_ok g' bs' r1 b v.
Proof.
  intros Hb. assert (r1 = r ∧ running = true ∧ b = mkBody p (source u) BStart 0 [] [] ∨
                     bodies c !! r1 = Some b) as [(-> & Hrun & ->)|Hb1].
  { unfold bs' in Hb. destruct running; [|by right]. rewrite lookup_insert in Hb.
    case_decide; [left|by right]. by simplify_eq. }
  - eexists. split; simpl; [by rewrite spawn_units, decide_True| | |
      unfold g', spawned; simpl; rewrite lookup_insert_eq; by rewrite Hrun|by left|done|done];
      done.
  - destruct (inv_bodies _ Hinv _ _ Hb1) as [v B]. exists v.
    assert (p ≠ b_path b) as Hne.
    { intros ->. pose proof (bo_unit _ _ _ _ _ B). pose proof (bo_compiling _ _ _ _ _ B).
      congruence. }
    eapply body_ok_frame; try done; [apply spawn_evolves| | | | | | |].
    + rewrite spawn_units, decide_False by done. apply B.
    + apply B.
    + apply B.
    + apply spawn_rounds. apply B.
    + by left.
    + left. split_and!; [done|done|]. intros _ _ d _. apply spawn_clean.
    + intros d pc Hin Hs. left. pose proof (bo_waits _ _ _ _ _ B) as Hw.
      rewrite Forall_forall in Hw. by apply spawn_succ_seen, (Hw _ Hin).
Qed.

Lemma spawn_inv : inv (mkConfig g' bs' (reqs c)).
Proof.
  split; simpl.
  - apply spawn_edges.
  - unfold g', spawned. simpl. intros r1 [rd Hr1]. rewrite lookup_insert in Hr1.
    case_decide; [lia|]. pose proof (inv_rounds _ Hinv r1 ltac:(eauto)). lia.
  - apply spawn_unit_ok.
  - apply spawn_body_ok.
  - intros id q Hid. destruct (inv_reqs _ Hinv _ _ Hid) as [Hw Hf]. split; [|done].
    eapply Forall_impl; [done|]. intros w. apply wait_ok_evolves, spawn_evolves.
  - apply (waits_on_acyclic (gr c) (bodies c)); [|apply Hinv].
    intros a b (r1 & bd & v & r' & rd & Hr & Ha & Hv & Hgen & Hpc & Hin & Hrd & Hcc).
    assert (bodies c !! r1 = Some bd) as Hr0.
    { unfold bs' in Hr. destruct running; [|done]. rewrite lookup_insert in Hr.
      case_decide; [by simplify_eq|done]. }
    eapply (waits_on_back c g' r1 bd v); try done.
    + intros w Hw. rewrite spawn_units in Hv. case_decide; [|simplify_eq; lia].
      simplify_eq. simpl. lia.
    + intros rd0 Hrd0. rewrite (spawn_rounds _ _ Hrd0) in Hrd. congruence.
Qed.
End Spawn.

(** ** Finishing a round *)

(** The graph once a body of unit [p] published outcome [o] for round [r];
    [d] is the value of [dirty] it leaves. *)
Definition finished (p : Z) (r : nat) (o : Outcome) (d : bool) (g : graph) : graph :=
  set_rounds (<[r := mkRound true o]>)
    (modify p (λ u, set_compiling false (set_dirty d u)) g).

Section Finish.
Context (c : config) (Hinv : inv c) (r : nat) (b : body) (u : CompileUnit).
Context (Hr : bodies c !! r = Some b) (B : body_ok (gr c) (bodies c) r b u).
Context (o : Outcome) (d : bool).
Context (HS : o = Success → d = false).
Context (Hclean : d = false → resolved u = true ∧ ∀ x, x ∈ dependencies u → clean (gr c) x).

Let g' := finished (b_path b) r o d (gr c).
Let bs' := delete r (bodies c).

Lemma finish_units x :
  units g' !! x = if decide (b_path b = x) then Some (set_compiling false (set_dirty d u))
                  else units (gr c) !! x.
Proof.
  unfold g', finished. simpl. rewrite lookup_alter. case_decide as E; [|done].
  by rewrite (bo_unit _ _ _ _ _ B).
Qed.

Lemma finish_rounds_ne r1 : r1 ≠ r → rounds g' !! r1 = rounds (gr c) !! r1.
Proof. intros. unfold g', finished. simpl. by rewrite lookup_insert_ne. Qed.

Lemma finish_rounds_eq : rounds g' !! r = Some (mkRound true o).
Proof. unfold g', finished. simpl. by rewrite lookup_insert_eq. Qed.

Lemma finish_evolves : evolves (gr c) (bodies c) g' bs'.
Proof.
  split.
  - intros x v Hx. rewrite finish_units. case_decide as E; [|by eauto].
    eexists. split; [done|]. simpl. by rewrite (bo_round _ _ _ _ _ B).
  - intros r1 rd Hr1. destruct (decide (r1 = r)) as [->|]; [|by rewrite finish_rounds_ne; eauto].
    rewrite finish_rounds_eq. eexists. split; [done|].
    rewrite (bo_open _ _ _ _ _ B) in Hr1. by simplify_eq.
  - intros r1 b1 rd Hb1 Hrd Hc. destruct (decide (r1 = r)) as [->|].
    + rewrite finish_rounds_eq in Hrd. by simplify_eq.
    + exists b1. unfold bs'. by rewrite lookup_delete_ne.
Qed.

Lemma finish_clean x : clean (gr c) x → clean g' x.
Proof.
  intros (v & Hv & Hcl). exists v. rewrite finish_units. case_decide as E; [|done]. exfalso.
  subst x. rewrite (bo_unit _ _ _ _ _ B) in Hv. simplify_eq.
  pose proof (uo_dirty _ _ _ _ (inv_units _ Hinv _ _ (bo_unit _ _ _ _ _ B))
                (bo_compiling _ _ _ _ _ B)). congruence.
Qed.

Lemma finish_unit_ok x v : units g' !! x = Some v → unit_ok g' bs' x v.
Proof.
  rewrite finish_units. case_decide as E.
  - intros [= <-]. subst x. pose proof (inv_units _ Hinv _ _ (bo_unit _ _ _ _ _ B)) as U.
    pose proof (bo_round _ _ _ _ _ B) as Hru.
    split; cbn [compiling dirty resolved dependencies round generation set_compiling set_dirty];
      [done| | |done| |by destruct U].
    + intros _. unfold round_done. change (round (set_compiling _ _)) with (round u).
      by rewrite Hru, finish_rounds_eq.
    + rewrite Hru. intros r1 [= <-]. rewrite finish_rounds_eq. by eexists.
    + intros Hd. destruct (Hclean Hd) as [? Hcl]. split; [done|].
      intros y Hy. by apply finish_clean, Hcl.
  - intros Hx. pose proof (inv_units _ Hinv _ _ Hx) as [H1 H2 H3 H4 H5 H6].
    split; try done.
    + intros Hcx. destruct (H1 Hcx) as (r1 & b1 & E1 & E2 & E3). exists r1, b1.
      split_and!; [done| |done]. unfold bs'. rewrite lookup_delete_ne; [done|].
      intros ->. congruence.
    + intros Hcx. specialize (H2 Hcx). unfold round_done in *.
      destruct (round v) as [r1|]; [|done].
      destruct (decide (r1 = r)) as [->|]; [by rewrite finish_rounds_eq|].
      by rewrite finish_rounds_ne.
    + intros r1 Hr1. destruct (decide (r1 = r)) as [->|].
      * rewrite finish_rounds_eq. by eexists.
      * rewrite finish_rounds_ne by done. by apply H3.
    + intros Hdx. destruct (H5 Hdx) as [? Hcl]. split; [done|].
      intros y Hy. by apply finish_clean, Hcl.
Qed.

Lemma finish_succ_clean : rounds g' !! r = Some (mkRound true Success) → clean g' (b_path b).
Proof.
  rewrite finish_rounds_eq. intros HSu. assert (o = Success) as Ho by congruence.
  eexists. rewrite finish_units, decide_True by done. split; [done|]. by apply HS.
Qed.

Lemma finish_succ_seen y pc :
  succ_seen g' y pc → wait_ok (gr c) (bodies c) (y, pc) →
  succ_seen (gr c) y pc ∨ clean g' y.
Proof.
  pose proof (bo_open _ _ _ _ _ B) as Hopen.
  destruct pc as [| |r1|ok]; cbn [succ_seen]; try done; [| |by left].
  - intros (v & r1 & Hv & Hr1 & Hrd) _. rewrite finish_units in Hv. case_decide as E.
    + subst y. right. apply finish_succ_clean. simplify_eq/=.
      rewrite (bo_round _ _ _ _ _ B) in Hr1. by simplify_eq.
    + left. exists v, r1. split_and!; [done|done|].
      destruct (decide (r1 = r)) as [->|]; [exfalso|by rewrite finish_rounds_ne in Hrd].
      pose proof (inv_units _ Hinv _ _ Hv) as [U1 U2 _ _ _ _].
      destruct (compiling v) eqn:Ec.
      * destruct (U1 eq_refl) as (r2 & b2 & ? & ? & ?). apply E. congruence.
      * specialize (U2 eq_refl). unfold round_done in U2. by rewrite Hr1, Hopen in U2.
  - intros Hrd (uy & _ & rd & Hrd0 & Hbody). destruct (decide (r1 = r)) as [->|].
    + right. rewrite Hopen in Hrd0. assert (rd = mkRound false Stale) as -> by congruence.
      destruct (Hbody eq_refl) as (b2 & Hb2 & E). assert (b2 = b) as -> by congruence.
      simpl in E. rewrite <- E. by apply finish_succ_clean.
    + left. by rewrite finish_rounds_ne in Hrd.
Qed.

Lemma finish_body_ok r1 b1 : bs' !! r1 = Some b1 → ∃ v, body_ok g' bs' r1 b1 v.
Proof.
  unfold bs'. rewrite lookup_delete_Some. intros [Hne Hb1].
  destruct (inv_bodies _ Hinv _ _ Hb1) as [v B1]. exists v.
  assert (b_path b ≠ b_path b1) as Hp.
  { intros E. apply Hne. by eapply (body_unique c). }
  eapply body_ok_frame; try done; [apply finish_evolves| | | | |by left| |].
  - rewrite finish_units, decide_False by done. apply B1.
  - apply B1.
  - apply B1.
  - rewrite finish_rounds_ne by done. apply B1.
  - left. split_and!; [done|done|]. intros _ _ y _. apply finish_clean.
  - intros y pc Hin Hs. apply finish_succ_seen; [done|].
    pose proof (bo_waits _ _ _ _ _ B1) as Hw. rewrite Forall_forall in Hw. by apply (Hw _ Hin).
Qed.

Lemma finish_inv : inv (mkConfig g' bs' (reqs c)).
Proof.
  split; simpl.
  - eapply (edges_ok_units (modify (b_path b) _ (gr c))); [reflexivity|].
    apply edges_ok_modify; [done|apply Hinv].
  - intros r1 Hr1. apply (inv_rounds _ Hinv). destruct (decide (r1 = r)) as [->|].
    + rewrite (bo_open _ _ _ _ _ B). by eexists.
    + by rewrite finish_rounds_ne in Hr1.
  - apply finish_unit_ok.
  - apply finish_body_ok.
  - intros id q Hid. destruct (inv_reqs _ Hinv _ _ Hid) as [Hw Hf]. split; [|done].
    eapply Forall_impl; [done|]. intros w. apply wait_ok_evolves, finish_evolves.
  - apply (waits_on_acyclic (gr c) (bodies c)); [|apply Hinv].
    intros x y (r1 & bd & v & r' & rd & Hr1 & Ha & Hv & Hgen & Hpc & Hin & Hrd & Hcc).
    unfold bs' in Hr1. apply lookup_delete_Some in Hr1 as [Hne Hr1].
    eapply (waits_on_back c g' r1 bd v); try done.
    + intros w Hw. rewrite finish_units in Hv. case_decide as E; [|simplify_eq; lia].
      subst x. rewrite <- E, (bo_unit _ _ _ _ _ B) in Hw. simplify_eq. simpl. lia.
    + intros rd0 Hrd0 Hc0. destruct (decide (r' = r)) as [->|].
      * rewrite finish_rounds_eq in Hrd. by simplify_eq.
      * rewrite finish_rounds_ne, Hrd0 in Hrd by done. by simplify_eq.
Qed.
End Finish.

(** ** Updates *)

Section UpdateInv.
Context (c : config) (Hinv : inv c) (p : Z) (g' : graph) (dirtied : list Z) (V : gset Z).
Context (Hrel : update_rel p V (gr c) g' dirtied).
Context (HV : ∀ x, x ∈ V ↔ rtc (λ a b, b ∈ dependents_of (gr c) a) p x).
Context (Hfit : gens_fit (gr c) = true).

Lemma update_p_visited : p ∈ V.
Proof. apply HV. reflexivity. Qed.

(** A unit that is not visited has no visited dependency. *)
Lemma update_deps_unvisited x d : x ∉ V → d ∈ dependencies_of (gr c) x → d ∉ V.
Proof.
  intros Hx Hd HdV. apply Hx, HV. apply HV in HdV. eapply rtc_r; [done|].
  by apply (edges_sym _ (inv_edges _ Hinv)).
Qed.

Lemma update_unit x u :
  units (gr c) !! x = Some u →
  ∃ u', units g' !! x = Some u' ∧ compiling u' = compiling u ∧ round u' = round u ∧
    if decide (x ∈ V) then
      generation u' = generation u + 1 ∧ dirty u' = true ∧ source u ∈ cancelled g'
    else
      generation u' = generation u ∧ dirty u' = dirty u ∧ source u' = source u ∧
      resolved u' = resolved u ∧ dependencies u' = dependencies u.
Proof.
  intros Hx. pose proof (ur_units _ _ _ _ _ Hrel x) as Hu. rewrite Hx in Hu.
  destruct Hu as (src & Hg & Hsrc). eexists. split; [exact Hg|]. simpl.
  split_and!; [done|done|]. destruct (decide (x ∈ V)) as [HxV|HxV].
  - destruct Hsrc as [? _]. split_and!; [|done|done]. apply u64_small.
    pose proof (uo_gen _ _ _ _ (inv_units _ Hinv _ _ Hx)). 
    pose proof (proj1 (forallb_map (λ v, bool_decide (generation v + 1 < two64)) _) Hfit x u Hx)
      as Hf. apply bool_decide_eq_true in Hf. lia.
  - split_and!; try done; rewrite decide_False; try done; intros [-> _]; by apply HxV, update_p_visited.
Qed.

Lemma update_unit_back x u' : units g' !! x = Some u' → ∃ u, units (gr c) !! x = Some u.
Proof.
  intros Hx. pose proof (ur_units _ _ _ _ _ Hrel x) as Hu.
  destruct (units (gr c) !! x) as [u|]; [by eauto|congruence].
Qed.

Lemma update_clean x : x ∉ V → clean (gr c) x → clean g' x.
Proof.
  intros Hx (u & Hu & Hd). destruct (update_unit x u Hu) as (u' & Hu' & _ & _ & Hw).
  rewrite decide_False in Hw by done. destruct Hw as (_ & E & _). exists u'. split; congruence.
Qed.

Lemma update_rounds : rounds g' = rounds (gr c).
Proof. by destruct (ur_rest _ _ _ _ _ Hrel). Qed.

Lemma update_succ_seen d pc : succ_seen g' d pc → succ_seen (gr c) d pc.
Proof.
  destruct pc as [| |r|ok]; simpl; try done; rewrite update_rounds; [|done].
  intros (u' & r & Hu' & Hr & Hrd). destruct (update_unit_back _ _ Hu') as [u Hu].
  destruct (update_unit _ _ Hu) as (u2 & Hu2 & _ & E & _).
  exists u, r. split_and!; [done|congruence|done].
Qed.

Lemma update_evolves : evolves (gr c) (bodies c) g' (bodies c).
Proof.
  split; [|rewrite update_rounds; eauto|eauto].
  intros x u Hx. destruct (update_unit x u Hx) as (u' & Hu' & _ & E & _).
  exists u'. by rewrite E.
Qed.

Lemma update_cancelled : cancelled (gr c) ⊆ cancelled g'.
Proof. intros s Hs. apply (ur_cancelled _ _ _ _ _ Hrel). by left. Qed.

Lemma update_unit_ok x u' : units g' !! x = Some u' → unit_ok g' (bodies c) x u'.
Proof.
  intros Hx'. destruct (update_unit_back x u' Hx') as [u Hx].
  destruct (inv_units _ Hinv _ _ Hx) as [H1 H2 H3 H4 H5 H6].
  destruct (update_unit x u Hx) as (u2 & Hu2 & E1 & E2 & Hw). simplify_eq.
  split; rewrite ?E1, ?E2, ?update_rounds; auto.
  - intros Hc. specialize (H2 Hc). unfold round_done in *. by rewrite E2, update_rounds.
  - intros Hc. specialize (H4 Hc). destruct (decide (x ∈ V)); destruct Hw as (_ & Hw & _); congruence.
  - intros Hd. destruct (decide (x ∈ V)) as [HxV|HxV].
    { destruct Hw as (_ & Hw & _). congruence. }
    destruct Hw as (_ & E3 & _ & E4 & E5). rewrite E3 in Hd. destruct (H5 Hd) as [Hr Hcl].
    rewrite E4, E5. split; [done|]. intros d Hdd. apply update_clean; [|by apply Hcl].
    apply (update_deps_unvisited x); [done|]. unfold dependencies_of. by rewrite Hx.
  - destruct (decide (x ∈ V)); destruct Hw as (-> & _); lia.
Qed.

Lemma update_body_ok r b : bodies c !! r = Some b → ∃ u, body_ok g' (bodies c) r b u.
Proof.
  intros Hr. destruct (inv_bodies _ Hinv _ _ Hr) as [u B].
  pose proof (bo_unit _ _ _ _ _ B) as Hu.
  destruct (update_unit _ _ Hu) as (u' & Hu' & E1 & E2 & Hw). exists u'.
  eapply body_ok_frame; try done; [apply update_evolves| | | |apply update_cancelled| | |].
  - rewrite E1. apply B.
  - rewrite E2. apply B.
  - rewrite update_rounds. apply B.
  - destruct (decide (b_path b ∈ V)); [right|left]; apply Hw.
  - destruct (decide (b_path b ∈ V)) as [HpV|HpV].
    + right. destruct Hw as (E3 & _ & Hcan). split; [lia|].
      destruct (bo_token _ _ _ _ _ B) as [->|]; [done|by apply update_cancelled].
    + left. destruct Hw as (E3 & _ & _ & E4 & E5). split_and!; [done|by rewrite E4, E5|].
      intros _ Hacq d Hd. apply update_clean. apply (update_deps_unvisited (b_path b)); [done|].
      unfold dependencies_of. by rewrite Hu, <- Hacq.
  - intros d pc _ Hs. left. by apply update_succ_seen.
Qed.

Lemma update_inv_preserved : inv (mkConfig g' (bodies c) (reqs c)).
Proof.
  split; simpl.
  - eapply update_rel_edges; [apply Hinv|done|apply update_p_visited].
  - destruct (ur_rest _ _ _ _ _ Hrel) as (-> & -> & _). apply Hinv.
  - apply update_unit_ok.
  - apply update_body_ok.
  - intros id q Hid. destruct (inv_reqs _ Hinv _ _ Hid) as [Hw Hf]. split; [|done].
    eapply Forall_impl; [done|]. intros w. apply wait_ok_evolves, update_evolves.
  - apply (waits_on_acyclic (gr c) (bodies c)); [|apply Hinv].
    intros x y (r1 & bd & v & r' & rd & Hr1 & Ha & Hv & Hgen & Hpc & Hin & Hrd & Hcc).
    eapply (waits_on_back c g' r1 bd v); try done.
    + intros w Hw. destruct (update_unit _ _ Hw) as (w' & Hw' & _ & _ & Hcase).
      assert (w' = v) as -> by congruence.
      destruct (decide (x ∈ V)); destruct Hcase as (-> & _); lia.
    + rewrite update_rounds in Hrd. congruence.
Qed.
End UpdateInv.

(** ** await_unit *)

(** An up-to-date wait edge is an edge that [has_wait_cycle] follows. *)
Lemma waits_on_wait_edge c a b :
  inv c → waits_on (gr c) (bodies c) a b → wait_edge (gr c) a b.
Proof.
  intros Hinv (r & bd & u & r' & rd & Hr & Ha & Hu & Hgen & Hpc & Hin & Hrd & Hc).
  destruct (inv_bodies _ Hinv _ _ Hr) as [u1 B]. subst a.
  pose proof (bo_unit _ _ _ _ _ B) as Hu1. assert (u1 = u) as -> by congruence.
  pose proof (bo_pc _ _ _ _ _ B) as Hst. rewrite Hpc in Hst.
  destruct Hst as (Hfst & _ & (_ & _ & _ & Hfresh)). destruct (Hfresh Hgen) as (_ & Hacq & _).
  split.
  - unfold dependencies_of. rewrite Hu, <- Hacq, <- Hfst. apply list_elem_of_fmap.
    by exists (b, WSusp r').
  - pose proof (bo_waits _ _ _ _ _ B) as Hw. rewrite Forall_forall in Hw.
    destruct (Hw _ Hin) as (ub & Hub & rd0 & Hrd0 & Hbody). simpl in *.
    assert (rd0 = rd) as -> by congruence. destruct (Hbody Hc) as (b2 & Hb2 & <-).
    destruct (inv_bodies _ Hinv _ _ Hb2) as [u2 B2]. unfold is_compiling.
    rewrite (bo_unit _ _ _ _ _ B2). apply B2.
Qed.

(** What one segment of [await_unit(d, waiter)] does. *)
Record await_post (c : config) (waiter : option Z) (d : Z) (pc : wait_pc)
    (g' : graph) (bs' : gmap nat body) (pc' : wait_pc) : Prop := {
  ap_inv : inv (mkConfig g' bs' (reqs c));
  ap_bodies : ∀ r b, bodies c !! r = Some b → bs' !! r = Some b;
  ap_wait : wait_ok g' bs' (d, pc');
  ap_clean : succ_seen g' d pc' → clean g' d ∨ succ_seen (gr c) d pc;
  ap_same : pc ≠ WHead → g' = gr c ∧ bs' = bodies c;
  ap_susp : ∀ r, pc' = WSusp r → pc = WCheck ∧
      ∀ rd w, rounds (gr c) !! r = Some rd → completion rd = false → waiter = Some w →
        ¬ wait_path (gr c) d w;
}.

Lemma await_head c waiter d g' bs' pc' :
  inv c → await_step waiter d WHead (gr c) (bodies c) = Ok (g', bs', pc') →
  await_post c waiter d WHead g' bs' pc'.
Proof.
  intros Hinv. simpl. destruct (units (gr c) !! d) as [u|] eqn:Hu; [|done]. simpl.
  pose proof (inv_units _ Hinv _ _ Hu) as U.
  destruct (dirty u) eqn:Hd; simpl; [destruct (compiling u) eqn:Hc|].
  - intros [= <- <- <-]. destruct (uo_body _ _ _ _ U Hc) as (r & b & Hr & Hb & Hp).
    split; try done; [by destruct c|exists u; split; [done|by eexists]|].
    intros (u1 & r1 & Hu1 & Hr1 & Hrd). right. exfalso.
    destruct (inv_bodies _ Hinv _ _ Hb) as [u2 B]. pose proof (bo_open _ _ _ _ _ B). congruence.
  - rewrite (spawn_unit_eq _ _ _ u) by done. simpl.
    pose proof (λ run, spawn_inv c Hinv d u Hu Hc Hd run) as Hspawn.
    pose proof (λ run, spawn_bodies c Hinv d u run) as Hbs.
    destruct (closed (gr c)); intros [= <- <- <-].
    + split; [apply (Hspawn false)|done| |done|done|done]. eexists. split; [|done].
      rewrite (spawn_units c d u Hu false). by rewrite decide_True.
    + split; [apply (Hspawn true)|apply (Hbs true)| | |done|done].
      * eexists. split; [rewrite (spawn_units c d u Hu true); by rewrite decide_True|by eexists].
      * intros (u1 & r1 & Hu1 & Hr1 & Hrd). rewrite (spawn_units c d u Hu true) in Hu1.
        rewrite decide_True in Hu1 by done. simplify_eq/=. by rewrite lookup_insert_eq in Hrd.
  - intros [= <- <- <-]. split; try done; [by destruct c|by exists u|]. left. by exists u.
Qed.

Lemma await_rest c waiter d pc g' bs' pc' :
  inv c → pc ≠ WHead → await_step waiter d pc (gr c) (bodies c) = Ok (g', bs', pc') →
  wait_ok (gr c) (bodies c) (d, pc) → await_post c waiter d pc g' bs' pc'.
Proof.
  intros Hinv Hpc Hstep (u & Hu & Hw). simpl in Hu, Hw. pose proof (inv_units _ Hinv _ _ Hu) as U.
  assert (inv (mkConfig (gr c) (bodies c) (reqs c))) as Hinv' by (by destruct c).
  destruct pc as [| |r|ok]; [done| | |done].
  - simpl in Hstep. rewrite Hu in Hstep. simpl in Hstep.
    destruct (round u) as [r|] eqn:Er; [|done]. simpl in Hstep.
    destruct (rounds (gr c) !! r) as [rd|] eqn:Hrd; [|done]. simpl in Hstep.
    assert (wait_ok (gr c) (bodies c) (d, WSusp r)) as Hsusp.
    { exists u. split; [done|]. exists rd. split; [done|]. intros Hopen.
      destruct (compiling u) eqn:Hc.
      - destruct (uo_body _ _ _ _ U Hc) as (r1 & b & ? & ? & ?). exists b. split; simpl; congruence.
      - pose proof (uo_idle _ _ _ _ U Hc) as Hdone. unfold round_done in Hdone.
        rewrite Er, Hrd in Hdone. congruence. }
    assert (succ_seen (gr c) d (WSusp r) → succ_seen (gr c) d WCheck) as Hseen.
    { intros Hs. exists u, r. done. }
    destruct waiter as [w|].
    + destruct (completion rd) eqn:Hcomp.
      * simplify_eq. split; [done|done|done|by auto|done|].
        intros r1 [= <-]. split; [done|]. intros. congruence.
      * destruct (has_wait_cycle_decides (gr c) d w) as (bb & Hb & Hiff). rewrite Hb in Hstep.
        destruct bb; simplify_eq.
        { split; [done|done|by exists u|done|done|done]. }
        split; [done|done|done|by auto|done|].
        intros r1 [= <-]. split; [done|]. intros rd1 w1 _ _ [= <-] Hpath.
        apply Hiff in Hpath. done.
    + simplify_eq. split; [done|done|done|by auto|done|]. intros r1 [= <-]. split; [done|].
      congruence.
  - destruct Hw as (rd & Hrd & _). simpl in Hstep. rewrite Hrd in Hstep. simpl in Hstep.
    destruct (completion rd) eqn:Hcomp; [|done]. simpl in Hstep. simplify_eq.
    destruct rd as [cc oo]. simpl in *. subst cc.
    split; try done.
    + by destruct oo; exists u.
    + destruct oo; simpl; try done. by right.
    + intros r1. by destruct oo.
Qed.

Lemma await_step_post c waiter d pc g' bs' pc' :
  inv c → await_step waiter d pc (gr c) (bodies c) = Ok (g', bs', pc') →
  wait_ok (gr c) (bodies c) (d, pc) → await_post c waiter d pc g' bs' pc'.
Proof.
  intros Hinv Hs Hw. destruct (decide (pc = WHead)) as [->|]; [by apply await_head|].
  by apply await_rest.
Qed.

(** ** Transitions of frames *)

Lemma modify_same k f g u : units g !! k = Some u → f u = u → modify k f g = g.
Proof.
  intros Hk Hf. unfold modify, set_units. destruct g. simpl in *. f_equal.
  apply map_eq. intros x. rewrite lookup_alter. case_decide; [|done].
  subst. rewrite Hk. simpl. by rewrite Hf.
Qed.

Lemma quiet_set_rounds f g g' : quiet g g' → quiet (set_rounds f g) (set_rounds f g').
Proof.
  intros [H1 H2 [H3 H3'] H4]. split; [apply H1|apply H2|split; simpl; congruence|apply H4].
Qed.

(** The destructor of [UnitGuard], for a frame that leaves [dirty] at [d]. *)
Lemma finish_eq c r b u o d c' :
  inv c → bodies c !! r = Some b → body_ok (gr c) (bodies c) r b u →
  finish r b o (mkConfig (modify (b_path b) (set_dirty d) (gr c)) (bodies c) (reqs c)) = Ok c' →
  ∃ g', c' = mkConfig g' (delete r (bodies c)) (reqs c) ∧
        quiet (finished (b_path b) r o d (gr c)) g' ∧ edges_ok g'.
Proof.
  intros Hinv Hr B. unfold finish. simpl. rewrite lookup_alter_eq, (bo_unit _ _ _ _ _ B). simpl.
  rewrite (bo_compiling _ _ _ _ _ B), (bo_round _ _ _ _ _ B).
  rewrite bool_decide_eq_true_2 by done. simpl.
  set (g2 := modify (b_path b) (set_compiling false) _).
  destruct (release_all (b_acquired b) g2) as [g3|] eqn:Hrel; [|done]. simpl. intros [= <-].
  eexists. split; [done|].
  assert (set_rounds (alter (λ rd, mkRound true (outcome rd)) r) g2 =
          finished (b_path b) r o d (gr c)) as <-.
  { unfold g2, finished, modify, set_units, set_rounds. simpl. f_equal.
    - rewrite alter_alter_eq. apply alter_ext. by intros v _.
    - rewrite alter_alter_eq. apply map_eq. intros r1. rewrite lookup_alter, lookup_insert.
      case_decide; [|done]. subst. by rewrite (bo_open _ _ _ _ _ B). }
  split; [by apply quiet_set_rounds, (quiet_release_all (b_acquired b))|].
  eapply (edges_ok_units g3); [done|]. eapply edges_ok_release_all; [|done].
  eapply (edges_ok_units (modify (b_path b) _ (modify (b_path b) _ (gr c)))); [reflexivity|].
  do 2 (apply edges_ok_modify; [done|]). apply Hinv.
Qed.

Lemma finish_preserves c r b u o d c' :
  inv c → bodies c !! r = Some b → body_ok (gr c) (bodies c) r b u →
  (o = Success → d = false) →
  (d = false → resolved u = true ∧ ∀ x, x ∈ dependencies u → clean (gr c) x) →
  finish r b o (mkConfig (modify (b_path b) (set_dirty d) (gr c)) (bodies c) (reqs c)) = Ok c' →
  inv c'.
Proof.
  intros Hinv Hr B HS Hcl Hf. destruct (finish_eq _ _ _ _ _ _ _ Hinv Hr B Hf) as (g' & -> & Hq & He).
  pose proof (finish_inv c Hinv r b u Hr B o d HS Hcl) as Hfin.
  by apply (inv_quiet _ g' Hfin).
Qed.

(** A body that ends without success leaves the unit dirty. *)
Lemma finish_plain c r b o c' :
  inv c → bodies c !! r = Some b → o ≠ Success → finish r b o c = Ok c' → inv c'.
Proof.
  intros Hinv Hr Ho Hf. destruct (inv_bodies _ Hinv _ _ Hr) as [u B].
  assert (dirty u = true) as Hd.
  { eapply uo_dirty; [apply Hinv, B|apply B]. }
  eapply (finish_preserves c r b u o true); try done.
  rewrite (modify_same (b_path b) _ _ u); [|apply B|by destruct u; simpl in *; subst].
  by destruct c.
Qed.

Lemma results_elem ws oks d pc :
  results ws = Some oks → (d, pc) ∈ ws → ∃ ok, pc = WRes ok ∧ ok ∈ oks.
Proof.
  unfold results. rewrite mapM_Some. intros Hf Hin.
  apply list_elem_of_lookup in Hin as [i Hi].
  destruct (Forall2_lookup_l _ _ _ _ _ Hf Hi) as (ok & Hok & HP). simpl in HP.
  exists ok. split; [|by eapply list_elem_of_lookup_2]. destruct pc; naive_solver.
Qed.

Lemma ensure_resolved_resolved deps p g u :
  edges_ok g → units (ensure_resolved deps p g) !! p = Some u → resolved u = true.
Proof.
  intros Hok. unfold ensure_resolved. destruct (units (touch p g) !! p) as [v|] eqn:E; [|congruence].
  destruct (resolved v) eqn:Er; [congruence|]. set (g1 := modify p _ _). intros Hu.
  destruct (resolved u) eqn:Eu; [done|]. exfalso.
  destruct (add_dependents_spec p deps g1) as (_ & _ & H3).
  destruct (H3 p u Hu Eu) as [Hn|(u' & Hu' & Hr')]; unfold g1 in *;
    rewrite modify_lookup, decide_True, E in * by done; simpl in *; simplify_eq/=.
Qed.

Lemma ensure_resolved_exists deps p g : is_Some (units (ensure_resolved deps p g) !! p).
Proof.
  unfold ensure_resolved. destruct (units (touch p g) !! p) as [u|] eqn:Hu;
    [|rewrite touch_lookup, decide_True in Hu by done; done].
  destruct (resolved u); [by exists u|].
  apply (foldl_invariant (λ g, is_Some (units g !! p))).
  - rewrite modify_lookup, decide_True, Hu by done. done.
  - intros g' d _ [v Hv]. destruct (q_units _ _ (quiet_add_dependent p d g') _ _ Hv) as (v' & ? & _).
    by exists v'.
Qed.

Lemma edges_dep_exists g x u d :
  edges_ok g → units g !! x = Some u → d ∈ dependencies u → is_Some (units g !! d).
Proof.
  intros Hok Hx Hd. assert (d ∈ dependencies_of g x) as H by (unfold dependencies_of; by rewrite Hx).
  apply (edges_sym _ Hok) in H. unfold dependents_of in H.
  destruct (units g !! d); [by eexists|set_solver].
Qed.

Lemma quiet_exists g g' x : quiet g g' → is_Some (units g !! x) → is_Some (units g' !! x).
Proof.
  intros Hq [u Hu]. destruct (q_units _ _ Hq _ _ Hu) as (u' & -> & _). by eexists.
Qed.

Lemma acquire_all_exists ids g x : x ∈ ids → is_Some (units (acquire_all ids g) !! x).
Proof.
  revert g. induction ids as [|i ids IH]; intros g Hx; [set_solver|].
  destruct (decide (x = i)) as [->|]; [|apply IH; set_solver].
  eapply quiet_exists; [apply (quiet_acquire_all ids)|].
  unfold acquire. rewrite modify_lookup, touch_lookup. repeat (rewrite decide_True by done).
  rewrite fmap_is_Some. by eexists.
Qed.

Lemma wait_ok_heads g bs ds :
  (∀ d, d ∈ ds → is_Some (units g !! d)) → Forall (wait_ok g bs) ((λ d, (d, WHead)) <$> ds).
Proof.
  intros Hds. rewrite Forall_fmap, Forall_forall. intros d Hd.
  destruct (Hds d Hd) as [u Hu]. exists u. done.
Qed.

Lemma fst_heads (ds : list Z) : ((λ d, (d, WHead)) <$> ds).*1 = ds.
Proof. rewrite <- list_fmap_compose. apply list_fmap_id. Qed.

(** Replacing a frame by one that is not suspended adds no wait edge. *)
Lemma waits_on_insert_quiet c r b b' :
  inv c → bodies c !! r = Some b →
  (∀ y r', (y, WSusp r') ∈ b_waits b' → b_pc b' = BWait →
     b_pc b = BWait ∧ (y, WSusp r') ∈ b_waits b ∧ b_gen b' = b_gen b ∧ b_path b' = b_path b) →
  ∀ a, ¬ tc (waits_on (gr c) (<[r := b']> (bodies c))) a a.
Proof.
  intros Hinv Hr Hsub. apply (waits_on_acyclic (gr c) (bodies c)); [|apply Hinv].
  intros x y (r1 & bd & u & r' & rd & Hr1 & Ha & Hu & Hgen & Hpc & Hin & Hrd & Hc).
  rewrite lookup_insert in Hr1. case_decide as E.
  - simplify_eq. destruct (Hsub y r' Hin Hpc) as (H1 & H2 & H3 & H4).
    exists r1, b, u, r', rd. split_and!; try done; congruence.
  - exists r1, bd, u, r', rd. done.
Qed.

Lemma inv_body_start c r deps c' : inv c → body_start r deps c = Ok c' → inv c'.
Proof.
  intros Hinv H. unfold body_start in H. apply bind_need in H as (b & Hr & H).
  apply bind_guard in H as [Epc%bool_decide_eq_true H].
  set (g := ensure_resolved deps (b_path b) (gr c)) in H.
  assert (edges_ok g) as Heg by (apply ensure_resolved_edges_ok, Hinv).
  pose proof (inv_quiet c g Hinv (quiet_ensure_resolved _ _ _) Heg) as Hinv1.
  apply bind_read in H as (u & Eu & H).
  case_decide as Eself; [by apply (finish_plain (mkConfig g (bodies c) (reqs c)) r b Failed c')|].
  simplify_eq.
  set (ds := dependencies u) in *. set (g2 := acquire_all ds g) in *.
  pose proof (quiet_acquire_all ds g) as Hq2. fold g2 in Hq2.
  pose proof (inv_quiet _ g2 Hinv1 Hq2 (edges_ok_acquire_all _ _ Heg)) as Hinv2.
  destruct (inv_bodies _ Hinv2 r b Hr) as [u2 B2]. cbn [gr bodies reqs] in *.
  destruct (q_units _ _ Hq2 _ _ Eu) as (u3 & Hu3 & E1 & E2 & E3 & E4 & E5 & _).
  pose proof (bo_unit _ _ _ _ _ B2) as Hu2. assert (u3 = u2) as -> by congruence.
  destruct (E5 (ensure_resolved_resolved _ _ _ _ (inv_edges _ Hinv) Eu)) as [Er Ed].
  set (b' := mkBody _ _ _ _ _ _).
  apply (inv_body_update (mkConfig g2 (bodies c) (reqs c)) r b b' u2); [done|done|done| |].
  - destruct B2 as [B21 B22 B23 B24 B25 _ _]. split; simpl; try done.
    + apply wait_ok_heads. intros d Hd. by apply acquire_all_exists.
    + assert (started g2 b' u2) as Hst.
      { unfold b'. split_and!; simpl; [done|lia|congruence|]. intros _. split_and!; [done|by rewrite Ed|].
        unfold deps_clean. simpl. destruct ds as [|d0 ds']; [set_solver|].
        intros d pc Hin. apply list_elem_of_fmap in Hin as (d' & [= -> ->] & _). done. }
      destruct ds as [|d0 ds'] eqn:Eds; simpl; [done|].
      split_and!; [f_equal; apply fst_heads|done|done].
  - apply (waits_on_insert_quiet (mkConfig g2 (bodies c) (reqs c)) r b b'); [done|done|].
    simpl. intros y r' Hin. by apply list_elem_of_fmap in Hin as (? & ? & _).
Qed.

Lemma inv_deps_done c r c' : inv c → body_deps_done r c = Ok c' → inv c'.
Proof.
  intros Hinv H. unfold body_deps_done in H. apply bind_need in H as (b & Hr & H).
  apply bind_guard in H as [Epc%bool_decide_eq_true H].
  apply Res_bind_Ok in H as (oks & Hoks & H). unfold need in Hoks.
  destruct (results (b_waits b)) as [oks0|] eqn:Er; [|done]. simplify_eq.
  destruct (forallb id oks) eqn:Eall; [|by apply (finish_plain c r b Failed)].
  simplify_eq. destruct (inv_bodies _ Hinv _ _ Hr) as [u B].
  set (b' := mkBody _ _ _ _ _ _). apply (inv_body_update c r b b' u); [done|done|done| |].
  - destruct B as [B1 B2 B3 B4 B5 _ B7]. rewrite Epc in B7. destruct B7 as (Hfst & _ & Hst).
    split; simpl; try done. split; [done|].
    destruct Hst as (S1 & S2 & S3 & S4). split_and!; simpl; [done|done|done|].
    intros Hgen. destruct (S4 Hgen) as (R1 & R2 & R3). split_and!; [done|done|].
    unfold deps_clean in *. rewrite Epc in R3. simpl. intros d Hd.
    rewrite <- Hfst in Hd. apply list_elem_of_fmap in Hd as ([d' pc] & -> & Hin). simpl.
    destruct (results_elem _ _ _ _ Er Hin) as (ok & -> & Hok).
    apply (R3 d' (WRes ok) Hin). simpl. rewrite forallb_forall in Eall.
    by apply (Eall ok), list_elem_of_In.
  - apply (waits_on_insert_quiet c r b b'); [done|done|]. simpl. intros y r' Hin. set_solver.
Qed.

Lemma inv_dispatch_done c r ok c' : inv c → body_dispatch_done r ok c = Ok c' → inv c'.
Proof.
  intros Hinv H. unfold body_dispatch_done in H. apply bind_need in H as (b & Hr & H).
  apply bind_guard in H as [Epc%bool_decide_eq_true H].
  destruct ok; simpl in H; [|by apply (finish_plain c r b Failed)].
  apply Res_bind_Ok in H as (u & Hu & H). unfold read in Hu.
  destruct (inv_bodies _ Hinv _ _ Hr) as [u0 B]. rewrite (bo_unit _ _ _ _ _ B) in Hu.
  simplify_eq. case_decide as Egen; [by apply (finish_plain c r b Stale)|].
  pose proof (bo_pc _ _ _ _ _ B) as Hst. rewrite Epc in Hst.
  destruct Hst as (_ & _ & _ & _ & Hfresh). destruct (Hfresh (eq_sym Egen)) as (Hres & Hacq & Hcl).
  eapply (finish_preserves c r b u Success false); try done.
  intros _. split; [done|]. unfold deps_clean in Hcl. rewrite Epc, Hacq in Hcl. done.
Qed.

Lemma inv_body_cancelled c r c' : inv c → body_cancelled r c = Ok c' → inv c'.
Proof.
  intros Hinv H. unfold body_cancelled in H. apply bind_need in H as (b & Hr & H).
  apply Res_bind_Ok in H as ([] & _ & H). apply Res_bind_Ok in H as ([] & _ & H).
  by apply (finish_plain c r b Stale).
Qed.

(** The wait edge a suspension adds closes no cycle. *)
Lemma acyclic_suspend c r b b' d r0 rd :
  inv c → bodies c !! r = Some b → b_pc b = BWait → b_path b' = b_path b → b_gen b' = b_gen b →
  d ∈ b_acquired b → rounds (gr c) !! r0 = Some rd →
  (completion rd = false → ¬ wait_path (gr c) d (b_path b)) →
  (∀ y r', (y, WSusp r') ∈ b_waits b' → (y, WSusp r') ∈ b_waits b ∨ (y = d ∧ r' = r0)) →
  ∀ a, ¬ tc (waits_on (gr c) (<[r := b']> (bodies c))) a a.
Proof.
  intros Hinv Hr Hpc Hp Hg Hd Hrd Hno Hsub a Ha.
  set (R := waits_on (gr c) (bodies c)).
  assert (∀ x y, waits_on (gr c) (<[r := b']> (bodies c)) x y →
            R x y ∨ (x = b_path b ∧ y = d ∧ completion rd = false)) as Hstep.
  { intros x y (r1 & bd & u & r' & rd1 & Hr1 & Hx & Hu & Hgen & Hpc1 & Hin & Hrd1 & Hc1).
    rewrite lookup_insert in Hr1. case_decide as E.
    - assert (bd = b') as -> by congruence. subst r1.
      destruct (Hsub y r' Hin) as [Hin'|[-> ->]].
      + left. exists r, b, u, r', rd1. split_and!; try done; congruence.
      + right. split_and!; [congruence|done|congruence].
    - left. exists r1, bd, u, r', rd1. done. }
  destruct (completion rd) eqn:Ec.
  - apply (inv_acyclic _ Hinv a).
    apply (tc_congruence (λ x, x) R a a) in Ha; [done|]. intros x y Hxy.
    destruct (Hstep x y Hxy) as [?|(_ & _ & ?)]; done.
  - assert (tc (λ x y, R x y ∨ (x = b_path b ∧ y = d)) a a) as Ha'.
    { eapply (tc_congruence (λ x, x)); [|done]. intros x y Hxy.
      destruct (Hstep x y Hxy) as [?|(? & ? & _)]; auto. }
    destruct (tc_add_edge R _ _ _ Ha') as [Hc|Hpath]; [by apply (inv_acyclic _ Hinv a)|].
    apply (Hno eq_refl). apply rtc_inv_r in Hpath as [Heq|(x & Hx & Hxp)].
    + exfalso. destruct (inv_bodies _ Hinv _ _ Hr) as [u B].
      pose proof (bo_pc _ _ _ _ _ B) as Hst. rewrite Hpc in Hst.
      destruct Hst as (_ & _ & Hself & _). subst d. done.
    + exists x. split.
      * eapply (rtc_congruence (λ x, x)); [|done]. intros ? ?. by apply waits_on_wait_edge.
      * by apply (waits_on_wait_edge c) in Hxp as [? _].
Qed.

Lemma fst_insert (ws : list (Z * wait_pc)) k d pc pc' :
  ws !! k = Some (d, pc) → (<[k := (d, pc')]> ws).*1 = ws.*1.
Proof.
  intros Hk. rewrite list_fmap_insert. apply list_insert_id. rewrite list_lookup_fmap, Hk. done.
Qed.

Lemma elem_of_insert (ws : list (Z * wait_pc)) k w x : x ∈ <[k := w]> ws → x = w ∨ x ∈ ws.
Proof.
  intros Hx. apply list_elem_of_lookup in Hx as [i Hi].
  apply list_lookup_insert_Some in Hi as [(_ & -> & _)|[_ Hi]]; [by left|right].
  by eapply list_elem_of_lookup_2.
Qed.

Lemma inv_body_wait c r k c' : inv c → exec (LBodyWait r k) c = Ok c' → inv c'.
Proof.
  intros Hinv H. simpl in H. apply bind_need in H as (b & Hr & H).
  apply Res_bind_Ok in H as ([d pc] & Hk & H). unfold need in Hk.
  destruct (b_waits b !! k) as [w0|] eqn:Hw; [|done]. simplify_eq.
  apply Res_bind_Ok in H as ([[g1 bs1] pc'] & Hawait & H). simplify_eq/=.
  destruct (inv_bodies _ Hinv _ _ Hr) as [u B].
  assert ((d, pc) ∈ b_waits b) as Hin by (by eapply list_elem_of_lookup_2).
  pose proof (bo_waits _ _ _ _ _ B) as Hall. rewrite Forall_forall in Hall.
  destruct (await_step_post _ _ _ _ _ _ _ Hinv Hawait (Hall _ Hin)) as [A1 A2 A3 A4 A5 A6].
  assert (b_pc b = BWait) as Epc.
  { pose proof (bo_pc _ _ _ _ _ B) as Hpc. destruct (b_pc b); [|done|];
      destruct Hpc as [E1 E2]; rewrite ?E1, ?E2 in Hin; set_solver. }
  pose proof (bo_pc _ _ _ _ _ B) as Hst0. rewrite Epc in Hst0. destruct Hst0 as (Hfst0 & _ & Hst0).
  destruct (inv_bodies _ A1 r b (A2 _ _ Hr)) as [u1 B1]. cbn [gr bodies reqs] in *.
  set (b' := mkBody _ _ _ _ _ _).
  apply (inv_body_update (mkConfig g1 bs1 (reqs c)) r b b' u1); [done|by apply A2|done| |].
  - destruct B1 as [B11 B12 B13 B14 B15 B16 B17]. rewrite Epc in B17.
    destruct B17 as (Hfst & Hne & S1 & S2 & S3 & S4).
    pose proof (evolves_insert g1 bs1 r b b' (A2 _ _ Hr) eq_refl) as Hev.
    split; simpl; try done.
    + rewrite Forall_forall. intros w Hw'. apply (wait_ok_evolves g1 bs1); [done|].
      apply elem_of_insert in Hw' as [->|Hw']; [done|]. rewrite Forall_forall in B16. by apply B16.
    + rewrite Epc. split_and!.
      * by rewrite (fst_insert _ _ _ pc).
      * intros E. apply (f_equal length) in E. rewrite length_insert in E. simpl in E.
        by apply nil_length_inv in E.
      * split_and!; simpl; [done|done|done|]. intros Hgen.
        destruct (S4 Hgen) as (R1 & R2 & R3). split_and!; [done|done|].
        unfold deps_clean in *. rewrite Epc in R3. simpl. rewrite Epc.
        intros y pcy Hiny Hs. apply elem_of_insert in Hiny as [[= -> ->]|Hiny]; [|by eapply R3].
        destruct (A4 Hs) as [?|Hseen]; [done|]. destruct (decide (pc = WHead)) as [->|Hnh]; [done|].
        destruct (A5 Hnh) as [-> ->]. by apply (R3 d pc).
  - assert (d ∈ b_acquired b) as Hd.
    { rewrite <- Hfst0. apply list_elem_of_fmap. by exists (d, pc). }
    destruct pc' as [| |r0|ok]; [apply (waits_on_insert_quiet (mkConfig g1 bs1 (reqs c)) r b b')..| |
      apply (waits_on_insert_quiet (mkConfig g1 bs1 (reqs c)) r b b')];
      try done; try (by apply A2);
      try (simpl; intros y r' Hiny _; apply elem_of_insert in Hiny as [?|Hiny]; done).
    destruct (A6 r0 eq_refl) as [-> Hnocycle]. destruct (A5 ltac:(done)) as [-> ->].
    destruct A3 as (ud & Hud & rd & Hrd & _). simpl in Hrd.
    apply (acyclic_suspend c r b b' d r0 rd); try done.
    + intros Hc. by apply (Hnocycle rd).
    + simpl. intros y r' Hiny. apply elem_of_insert in Hiny as [[= -> ->]|Hiny]; [by right|by left].
Qed.

Lemma inv_req_wait c id k c' : inv c → exec (LReqWait id k) c = Ok c' → inv c'.
Proof.
  intros Hinv H. simpl in H. apply bind_need in H as (q & Hr & H).
  apply Res_bind_Ok in H as ([d pc] & Hk & H). unfold need in Hk.
  destruct (r_waits q !! k) as [w0|] eqn:Hw; [|done]. simplify_eq.
  apply Res_bind_Ok in H as ([[g1 bs1] pc'] & Hawait & H). simplify_eq/=.
  destruct (inv_reqs _ Hinv _ _ Hr) as [Hall Hfst]. rewrite Forall_forall in Hall.
  assert ((d, pc) ∈ r_waits q) as Hin by (by eapply list_elem_of_lookup_2).
  destruct (await_step_post _ _ _ _ _ _ _ Hinv Hawait (Hall _ Hin)) as [A1 A2 A3 A4 A5 A6].
  apply (inv_req_insert (mkConfig g1 bs1 (reqs c))); [done| |]; simpl.
  - destruct (inv_reqs _ A1 _ _ Hr) as [Hall1 _]. rewrite Forall_forall in *.
    intros w Hw'. apply elem_of_insert in Hw' as [->|Hw']; [done|by apply Hall1].
  - by rewrite (fst_insert _ _ _ pc).
Qed.

Lemma inv_new_request c id held g c' :
  inv (mkConfig g (bodies c) (reqs c)) → edges_ok g → new_request id held g c = Ok c' → inv c'.
Proof.
  intros Hinv He H. unfold new_request in H. apply Res_bind_Ok in H as ([] & _ & H). simplify_eq.
  pose proof (inv_quiet _ _ Hinv (quiet_acquire_all held g) (edges_ok_acquire_all held g He)) as Hi.
  apply (inv_req_insert (mkConfig (acquire_all held g) (bodies c) (reqs c))); [done| |]; simpl.
  - apply wait_ok_heads. intros. by apply acquire_all_exists.
  - apply fst_heads.
Qed.

Lemma inv_end_request c id q c' : inv c → end_request id q c = Ok c' → inv c'.
Proof.
  intros Hinv H. unfold end_request in H. apply bind_read in H as (g & Hrel & H).
  simplify_eq. apply (inv_req_delete (mkConfig g (bodies c) (reqs c))).
  apply inv_quiet; [done|by eapply quiet_release_all|]. eapply edges_ok_release_all; [apply Hinv|done].
Qed.

(** Every transition preserves the invariant. *)
Lemma inv_exec c l c' : inv c → fits l c = true → exec l c = Ok c' → inv c'.
Proof.
  intros Hinv Hfit. pose proof (inv_edges _ Hinv) as He. destruct l.
  - apply inv_new_request; [by destruct c|done].
  - simpl. intros H. apply Res_bind_Ok in H as (u & _ & H).
    pose proof (inv_quiet c _ Hinv (quiet_ensure_resolved deps p (gr c))
                  (ensure_resolved_edges_ok deps p _ He)) as Hi.
    destruct (dependencies u); [by simplify_eq|].
    eapply inv_new_request; [exact Hi|by apply ensure_resolved_edges_ok|exact H].
  - by apply inv_req_wait.
  - simpl. intros H. apply Res_bind_Ok in H as (q & _ & H). apply Res_bind_Ok in H as (? & _ & H).
    by eapply inv_end_request.
  - simpl. intros H. apply Res_bind_Ok in H as (q & _ & H). by eapply inv_end_request.
  - by apply inv_body_start.
  - by apply inv_body_wait.
  - by apply inv_deps_done.
  - by apply inv_dispatch_done.
  - by apply inv_body_cancelled.
  - simpl. destruct (zero_tasks (gr c)) as [|p rest]; [done|].
    set (g1 := mkGraph _ _ _ _ _ _ rest).
    assert (quiet (gr c) g1 ∧ edges_ok g1) as [Hq1 He1].
    { split; [by apply quiet_rest|by apply (edges_ok_units (gr c))]. }
    destruct (closed (gr c)); simpl; [intros [= <-]; by apply inv_quiet|].
    intros H. apply bind_read in H as (g2 & Hz & H). simplify_eq. apply inv_quiet; [done| |].
    + eapply quiet_trans; [exact Hq1|by eapply quiet_zero_check].
    + by eapply edges_ok_zero_check.
  - simpl. intros H.
    destruct (update_run (gr c) He p) as (g' & dd & V & Hup & Hrel & HV).
    rewrite Hup in H. simplify_eq. by eapply update_inv_preserved.
  - simpl. intros H. apply Res_bind_Ok in H as ([] & _ & H). simplify_eq.
    apply inv_quiet; [done|apply quiet_cancel_all|by apply edges_ok_cancel_all].
  - simpl. intros [= <-]. apply inv_quiet; [done|by apply quiet_rest|by apply (edges_ok_units (gr c))].
Qed.

Lemma reachable_inv c : reachable c → inv c.
Proof.
  intros Hr. unfold reachable in Hr.
  assert (∀ c0, inv c0 → rtc step c0 c → inv c) as Hgen; [|by apply (Hgen init inv_init)].
  clear Hr. intros c0 H0 Hr. induction Hr as [|x y z (l & Hf & Hl) _ IH]; [done|].
  apply IH. by eapply inv_exec.
Qed.

#[export] Hint Resolve inv_init reachable_inv : clice.
