(* ===== verification/CompileInterest.v ===== *)
(** * Interest counts of the compilation graph

    The interest invariant of the transition system of CompileTasks.v: the
    32-bit [refcount] of a unit is the exact number of references held by live
    frames ([UnitGuard::acquired] of the bodies and [RefGuard::held] of the
    requests), and a running round nobody is interested in is already
    cancelled, or has a [zero_interest_check] scheduled, unless the graph is
    shutting down. *)
From S2P Require Import Prelude Worklist CompileGraph CompileTasks CompileInvariant.
From stdpp Require Import relations.
Local Open Scope Z_scope.

(** References held on [x] by live frames. *)
Definition holders (c : config) (x : Z) : nat :=
  (msum (λ b, occ x (b_acquired b)) (bodies c) + msum (λ q, occ x (r_held q)) (reqs c))%nat.

Definition pending_of (g : graph) (x : Z) : bool :=
  match units g !! x with Some u => zero_check_pending u | None => false end.

(** Every body of [x] has been told to stop. *)
Definition doomed (g : graph) (bs : gmap nat body) (x : Z) : Prop :=
  ∀ r b, bs !! r = Some b → b_path b = x → b_token b ∈ cancelled g.

Record zero_ok (g : graph) (bs : gmap nat body) : Prop := {
  zo_pending : ∀ x, pending_of g x = true → closed g = true ∨ x ∈ zero_tasks g;
  zo_zero : ∀ x, is_compiling g x = true → refcount_of g x = 0 →
      closed g = true ∨ pending_of g x = true ∨ doomed g bs x;
}.

Record interest (c : config) : Prop := {
  in_count : ∀ x, refcount_of (gr c) x = Z.of_nat (holders c x);
  in_zero : zero_ok (gr c) (bodies c);
}.

(** ** The three fields the invariant reads *)

Record same_view (g g' : graph) : Prop := {
  sv_compiling : ∀ x, is_compiling g' x = is_compiling g x;
  sv_refcount : ∀ x, refcount_of g' x = refcount_of g x;
  sv_pending : ∀ x, pending_of g' x = pending_of g x;
  sv_closed : closed g' = closed g;
  sv_tasks : zero_tasks g' = zero_tasks g;
  sv_cancelled : cancelled g ⊆ cancelled g';
}.

Lemma same_view_refl g : same_view g g.
Proof. done. Qed.

Lemma same_view_trans g1 g2 g3 : same_view g1 g2 → same_view g2 g3 → same_view g1 g3.
Proof. intros [] []. split; try congruence. by etrans. Qed.

(** A change that keeps the three fields of every unit. *)
Lemma same_view_units g g' :
  (∀ x, match units g !! x, units g' !! x with
        | Some u, Some u' => compiling u' = compiling u ∧ refcount u' = refcount u ∧
                             zero_check_pending u' = zero_check_pending u
        | None, Some u' => compiling u' = false ∧ refcount u' = 0 ∧ zero_check_pending u' = false
        | None, None => True
        | Some _, None => False
        end) →
  closed g' = closed g → zero_tasks g' = zero_tasks g → cancelled g ⊆ cancelled g' →
  same_view g g'.
Proof.
  intros Hu ???. unfold is_compiling, refcount_of, pending_of.
  split; try done; intros x; specialize (Hu x);
    unfold is_compiling, refcount_of, pending_of;
    destruct (units g !! x), (units g' !! x); naive_solver.
Qed.

Lemma same_view_modify k f g :
  (∀ u, compiling (f u) = compiling u ∧ refcount (f u) = refcount u ∧
        zero_check_pending (f u) = zero_check_pending u) →
  same_view g (modify k f g).
Proof.
  intros Hf. apply same_view_units; try done. intros x. rewrite modify_lookup.
  case_decide; destruct (units g !! x); simpl; naive_solver.
Qed.

Lemma same_view_touch k g : same_view g (touch k g).
Proof.
  apply same_view_units.
  - intros x. rewrite touch_lookup. case_decide; destruct (units g !! x); naive_solver.
  - unfold touch. by destruct (units g !! k).
  - unfold touch. by destruct (units g !! k).
  - unfold touch. by destruct (units g !! k).
Qed.

Lemma same_view_foldl {B} (f : graph → B → graph) l g :
  (∀ g b, same_view g (f g b)) → same_view g (foldl f g l).
Proof.
  intros Hf. apply (foldl_invariant (same_view g)); [done|].
  intros g' b _ Hg'. eapply same_view_trans; [exact Hg'|apply Hf].
Qed.

Lemma same_view_ensure_resolved deps p g : same_view g (ensure_resolved deps p g).
Proof.
  unfold ensure_resolved. eapply same_view_trans; [apply (same_view_touch p)|].
  destruct (units (touch p g) !! p) as [u|]; [|done]. destruct (resolved u); [done|].
  eapply same_view_trans; [apply (same_view_modify p)|apply same_view_foldl]; [done|].
  intros g1 d. eapply same_view_trans; [apply (same_view_touch d)|by apply same_view_modify].
Qed.

Lemma same_view_cancel_round p g : same_view g (cancel_round p g).
Proof.
  apply same_view_units.
  - intros x. rewrite cancel_round_lookup. case_decide; destruct (units g !! x); naive_solver.
  - unfold cancel_round. by destruct (units g !! p).
  - unfold cancel_round. by destruct (units g !! p).
  - unfold cancel_round. destruct (units g !! p); [simpl; set_solver|done].
Qed.

Lemma same_view_cancel_all order g : same_view g (cancel_all order g).
Proof. apply same_view_foldl. intros. apply same_view_cancel_round. Qed.

Lemma same_view_update p V g g' d : update_rel p V g g' d → same_view g g'.
Proof.
  intros [Hu _ Hc _ (_ & _ & H1 & H2)]. apply same_view_units; try done.
  - intros x. specialize (Hu x). destruct (units g !! x); [|by rewrite Hu].
    destruct Hu as (src & -> & _). done.
  - intros s Hs. apply Hc. by left.
Qed.

(** ** Frame rule for [zero_ok] *)

Lemma zero_ok_frame g bs g' bs' :
  zero_ok g bs →
  (∀ x, pending_of g' x = pending_of g x) →
  (∀ x, is_compiling g' x = true → refcount_of g' x = 0 →
        is_compiling g x = true ∧ refcount_of g x = 0 ∧
        ∀ r b', bs' !! r = Some b' → b_path b' = x →
          ∃ b, bs !! r = Some b ∧ b_path b = x ∧ b_token b' = b_token b) →
  closed g' = closed g → zero_tasks g' = zero_tasks g → cancelled g ⊆ cancelled g' →
  zero_ok g' bs'.
Proof.
  intros [Hp Hz] Hpend Hzero Hcl Ht Hc. split.
  - intros x. rewrite Hpend, Hcl, Ht. apply Hp.
  - intros x Hx Hr. destruct (Hzero x Hx Hr) as (Hx0 & Hr0 & Hb).
    rewrite Hcl, Hpend. destruct (Hz x Hx0 Hr0) as [?|[?|Hd]]; [auto..|].
    right; right. intros r b' Hr' Hpath. destruct (Hb r b' Hr' Hpath) as (b & Hbr & Hbp & ->).
    by apply Hc, (Hd r).
Qed.

Lemma zero_ok_view g bs g' : same_view g g' → zero_ok g bs → zero_ok g' bs.
Proof.
  intros [V1 V2 V3 V4 V5 V6] Hz. eapply zero_ok_frame; try done.
  intros x. rewrite V1, V2. naive_solver.
Qed.

(** Replacing a frame by one of the same unit and token. *)
Lemma zero_ok_bodies g bs bs' :
  zero_ok g bs →
  (∀ r b', bs' !! r = Some b' → ∃ b, bs !! r = Some b ∧ b_path b' = b_path b ∧
                                    b_token b' = b_token b) →
  zero_ok g bs'.
Proof.
  intros Hz Hb. eapply zero_ok_frame; try done. intros x H1 H2. split_and!; try done.
  intros r b' Hr <-. destruct (Hb r b' Hr) as (b & ? & ? & ?). exists b. done.
Qed.

(** ** Acquiring and releasing references *)

Lemma refcount_modify k f h g x :
  (∀ u, refcount (f u) = h (refcount u)) →
  refcount_of (modify k f g) x =
    if decide (k = x) then match units g !! x with Some _ => h (refcount_of g x) | None => 0 end
    else refcount_of g x.
Proof.
  intros Hf. unfold refcount_of. rewrite modify_lookup.
  case_decide; [|done]. by destruct (units g !! x); simpl.
Qed.

Lemma refcount_acquire p g x :
  refcount_of (acquire p g) x =
    if decide (p = x) then u32 (refcount_of g x + 1) else refcount_of g x.
Proof.
  unfold acquire. rewrite (refcount_modify _ _ (λ r, u32 (r + 1))) by done.
  rewrite touch_lookup, (sv_refcount _ _ (same_view_touch p g)). case_decide; [|done]. done.
Qed.

Lemma acquire_rest p g :
  (∀ x, is_compiling (acquire p g) x = is_compiling g x) ∧
  (∀ x, pending_of (acquire p g) x = pending_of g x) ∧
  closed (acquire p g) = closed g ∧ zero_tasks (acquire p g) = zero_tasks g ∧
  cancelled (acquire p g) = cancelled g.
Proof.
  pose proof (same_view_touch p g) as [V1 V2 V3 V4 V5 V6]. unfold acquire. split_and!.
  - intros x. rewrite <- V1. unfold is_compiling. rewrite modify_lookup.
    case_decide; [|done]. by destruct (units (touch p g) !! x).
  - intros x. rewrite <- V3. unfold pending_of. rewrite modify_lookup.
    case_decide; [|done]. by destruct (units (touch p g) !! x).
  - done.
  - done.
  - simpl. unfold touch. by destruct (units g !! p).
Qed.

(** Counts that fit do not wrap. *)
Lemma acquire_all_spec ids g n :
  (∀ x, 0 ≤ refcount_of g x < two32 - Z.of_nat n) → (length ids ≤ n)%nat →
  (∀ x, refcount_of (acquire_all ids g) x = refcount_of g x + Z.of_nat (occ x ids)) ∧
  (∀ x, is_compiling (acquire_all ids g) x = is_compiling g x) ∧
  (∀ x, pending_of (acquire_all ids g) x = pending_of g x) ∧
  closed (acquire_all ids g) = closed g ∧ zero_tasks (acquire_all ids g) = zero_tasks g ∧
  cancelled (acquire_all ids g) = cancelled g.
Proof.
  revert g n. induction ids as [|p ids IH]; intros g n Hfit Hn; simpl in *.
  { split_and!; try done. intros x. unfold occ. simpl. lia. }
  assert (∀ x, refcount_of (acquire p g) x =
            refcount_of g x + (if decide (p = x) then 1 else 0)) as Hp.
  { intros x. rewrite refcount_acquire. case_decide; [|lia]. apply u32_small.
    specialize (Hfit x). lia. }
  destruct (acquire_rest p g) as (A1 & A2 & A3 & A4 & A5).
  destruct (IH (acquire p g) (pred n)) as (H1 & H2 & H3 & H4 & H5 & H6); [|lia|].
  { intros x. rewrite Hp. specialize (Hfit x). case_decide; lia. }
  split_and!; try congruence.
  - intros x. rewrite H1, Hp, occ_cons. case_decide; lia.
Qed.

Lemma refs_fit_spec n g :
  refs_fit n g = true → ∀ x, is_Some (units g !! x) → refcount_of g x + Z.of_nat n < two32.
Proof.
  unfold refs_fit. intros Hfit x [u Hx].
  pose proof (proj1 (forallb_map (λ u, bool_decide (refcount u + Z.of_nat n < two32)) (units g)) Hfit
                x u Hx) as H.
  apply bool_decide_eq_true in H. unfold refcount_of. by rewrite Hx.
Qed.

(** A reference that is held can be released, and [zero_ok] is kept. *)
Lemma release_spec p g bs :
  0 < refcount_of g p → zero_ok g bs →
  ∃ g', release p g = Some g' ∧ zero_ok g' bs ∧
    (∀ x, refcount_of g' x = refcount_of g x - (if decide (p = x) then 1 else 0)).
Proof.
  intros Hpos Hz. unfold release. destruct (units g !! p) as [u|] eqn:Hu;
    [|unfold refcount_of in Hpos; rewrite Hu in Hpos; lia].
  assert (refcount_of g p = refcount u) as Hru by (unfold refcount_of; by rewrite Hu).
  rewrite decide_True by lia. set (g1 := modify p (set_refcount (λ r, r - 1)) g).
  assert (∀ x, refcount_of g1 x = refcount_of g x - (if decide (p = x) then 1 else 0)) as Hr1.
  { intros x. unfold g1. rewrite (refcount_modify _ _ (λ r, r - 1)) by done.
    case_decide; [|lia]. subst x. by rewrite Hu. }
  assert (∀ x, is_compiling g1 x = is_compiling g x ∧ pending_of g1 x = pending_of g x) as Hk.
  { intros x. unfold g1, is_compiling, pending_of. rewrite modify_lookup.
    case_decide; [|done]. by destruct (units g !! x). }
  assert (is_compiling g p = compiling u ∧ pending_of g p = zero_check_pending u) as [Hcu Hpu].
  { unfold is_compiling, pending_of. by rewrite Hu. }
  assert ((refcount u - 1 = 0 → compiling u = true → closed g = true ∨ pending_of g p = true) →
          zero_ok g1 bs) as Hplain.
  { intros Hnz. destruct Hz as [Hp Hzero]. split.
    - intros x. destruct (Hk x) as [_ ->]. apply Hp.
    - intros x. destruct (Hk x) as [-> ->]. rewrite Hr1. case_decide as E.
      + subst x. rewrite Hcu, Hru. intros Hc H0. destruct (Hnz H0 Hc); auto.
      + rewrite Z.sub_0_r. apply Hzero. }
  rewrite <- Hpu. destruct (bool_decide (refcount u - 1 = 0) && compiling u) eqn:Ez; simpl.
  2: { exists g1. split_and!; [done|apply Hplain|done]. intros H0 Hc.
       rewrite bool_decide_eq_true_2, Hc in Ez by done. done. }
  destruct (pending_of g p) eqn:Epend; simpl.
  { exists g1. split_and!; [done|apply Hplain; auto|done]. }
  destruct (closed g) eqn:Ecl.
  { exists g1. split_and!; [done|apply Hplain; auto|done]. }
  eexists. split; [done|]. split.
  - split.
    + intros x. unfold pending_of, g1. simpl. destruct (decide (p = x)) as [<-|E].
      * right. apply elem_of_app. right. by apply list_elem_of_singleton.
      * rewrite !lookup_alter_ne by done. intros Hx.
        destruct (zo_pending _ _ Hz x Hx) as [?|?]; [congruence|right]. apply elem_of_app. by left.
    + intros x. unfold is_compiling, refcount_of, pending_of, g1. simpl.
      destruct (decide (p = x)) as [<-|E].
      * rewrite !lookup_alter_eq, Hu. simpl. auto.
      * rewrite !lookup_alter_ne by done. intros Hx Hr.
        destruct (zo_zero _ _ Hz x Hx Hr) as [?|[?|?]]; [congruence|auto..].
  - intros x. rewrite <- Hr1. unfold refcount_of, g1. simpl.
    destruct (decide (p = x)) as [<-|E]; [by rewrite !lookup_alter_eq, Hu|].
    by rewrite !lookup_alter_ne.
Qed.

Lemma release_all_spec ids g bs :
  (∀ x, Z.of_nat (occ x ids) ≤ refcount_of g x) → zero_ok g bs →
  ∃ g', release_all ids g = Some g' ∧ zero_ok g' bs ∧
    (∀ x, refcount_of g' x = refcount_of g x - Z.of_nat (occ x ids)).
Proof.
  revert g. induction ids as [|p ids IH]; intros g Hocc Hz; simpl.
  { exists g. split_and!; try done. intros x. unfold occ. simpl. lia. }
  destruct (release_spec p g bs) as (g1 & -> & Hz1 & Hr1); [|done|].
  { specialize (Hocc p). rewrite occ_cons, decide_True in Hocc by done. lia. }
  destruct (IH g1) as (g2 & -> & Hz2 & Hr2); [|done|].
  { intros x. specialize (Hocc x). rewrite occ_cons in Hocc. rewrite Hr1. case_decide; lia. }
  exists g2. split_and!; try done. intros x. rewrite Hr2, Hr1, occ_cons. case_decide; lia.
Qed.

(** ** Counting holders *)

Lemma holders_body c r b x :
  bodies c !! r = Some b → (occ x (b_acquired b) ≤ holders c x)%nat.
Proof.
  intros Hr. unfold holders.
  pose proof (msum_lookup_le (λ b, occ x (b_acquired b)) _ _ _ Hr). simpl in *. lia.
Qed.

Lemma holders_req c id q x : reqs c !! id = Some q → (occ x (r_held q) ≤ holders c x)%nat.
Proof.
  intros Hr. unfold holders.
  pose proof (msum_lookup_le (λ q, occ x (r_held q)) _ _ _ Hr). simpl in *. lia.
Qed.

Lemma holders_body_delete c r b g x :
  bodies c !! r = Some b →
  (holders (mkConfig g (delete r (bodies c)) (reqs c)) x + occ x (b_acquired b) = holders c x)%nat.
Proof.
  intros Hr. unfold holders. simpl.
  rewrite (msum_delete (λ b, occ x (b_acquired b)) (bodies c) r b) by done. lia.
Qed.

Lemma holders_body_insert c r b b' g x :
  bodies c !! r = Some b →
  (holders (mkConfig g (<[r := b']> (bodies c)) (reqs c)) x + occ x (b_acquired b) =
   occ x (b_acquired b') + holders c x)%nat.
Proof.
  intros Hr. unfold holders. simpl.
  pose proof (msum_update (λ b, occ x (b_acquired b)) (bodies c) r b b' Hr). simpl in *. lia.
Qed.

Lemma holders_req_delete c id q g x :
  reqs c !! id = Some q →
  (holders (mkConfig g (bodies c) (delete id (reqs c))) x + occ x (r_held q) = holders c x)%nat.
Proof.
  intros Hr. unfold holders. simpl.
  rewrite (msum_delete (λ q, occ x (r_held q)) (reqs c) id q) by done. lia.
Qed.

Lemma holders_req_insert c id q q' g bs x :
  reqs c !! id = Some q →
  (holders (mkConfig g bs (<[id := q']> (reqs c))) x + occ x (r_held q) =
   occ x (r_held q') + holders (mkConfig g bs (reqs c)) x)%nat.
Proof.
  intros Hr. unfold holders. simpl.
  pose proof (msum_update (λ q, occ x (r_held q)) (reqs c) id q q' Hr). simpl in *. lia.
Qed.

(** ** Transitions neither fail nor lose a reference *)

(** [o] is not an assertion failure nor an unfinished loop, and its result, if
    any, satisfies [P]. *)
Definition safe {A} (P : A → Prop) (o : result A) : Prop :=
  match o with Ok a => P a | Err _ => True | Fault => False | Stuck => False end.

Lemma safe_bind {A B} (P : A → Prop) (Q : B → Prop) o (k : A → result B) :
  safe P o → (∀ a, o = Ok a → P a → safe Q (k a)) → safe Q (Res_bind o k).
Proof. destruct o; simpl; auto. Qed.

Lemma safe_need {A B} (Q : B → Prop) (o : option A) (k : A → result B) :
  (∀ a, o = Some a → safe Q (k a)) → safe Q (Res_bind (need o) k).
Proof. destruct o; simpl; auto. Qed.

Lemma safe_guard {B} (Q : B → Prop) (t : bool) (k : unit → result B) :
  (t = true → safe Q (k tt)) → safe Q (Res_bind (guard_b t) k).
Proof. destruct t; simpl; auto. Qed.

Lemma interest_view c g' :
  interest c → same_view (gr c) g' → interest (mkConfig g' (bodies c) (reqs c)).
Proof.
  intros [Hc Hz] V. split; simpl.
  - intros x. rewrite (sv_refcount _ _ V). apply Hc.
  - by eapply zero_ok_view.
Qed.

Lemma fit_all c n :
  interest c → refs_fit n (gr c) = true →
  n = 1%nat ∨ (∃ x, is_Some (units (gr c) !! x)) →
  ∀ x, 0 ≤ refcount_of (gr c) x < two32 - Z.of_nat n.
Proof.
  intros [Hc _] Hfit Hn x. pose proof (refs_fit_spec _ _ Hfit) as Hf. split; [rewrite Hc; lia|].
  destruct (units (gr c) !! x) eqn:Hx.
  - specialize (Hf x ltac:(by eexists)). lia.
  - unfold refcount_of. rewrite Hx. destruct Hn as [->|[y Hy]]; [done|].
    specialize (Hf y Hy). pose proof (Hc y). lia.
Qed.

(** Acquiring references for a frame. *)
Lemma zero_ok_acquire_all c ids :
  interest c → refs_fit (length ids) (gr c) = true →
  length ids = 1%nat ∨ (∃ x, is_Some (units (gr c) !! x)) →
  zero_ok (acquire_all ids (gr c)) (bodies c) ∧
  ∀ x, refcount_of (acquire_all ids (gr c)) x = Z.of_nat (holders c x) + Z.of_nat (occ x ids).
Proof.
  intros Hi Hfit Hn. pose proof (fit_all c _ Hi Hfit Hn) as Hf.
  destruct (acquire_all_spec ids (gr c) _ Hf (le_n _)) as (H1 & H2 & H3 & H4 & H5 & H6).
  split; [|intros x; rewrite H1, (in_count _ Hi); done].
  eapply zero_ok_frame; [apply Hi|done| |done|done|by rewrite H6].
  intros x. rewrite H2, H1. intros Hc Hr. specialize (Hf x). split_and!; [done|lia|eauto].
Qed.

Lemma safe_new_request c id held :
  interest c → refs_fit (length held) (gr c) = true →
  length held = 1%nat ∨ (∃ x, is_Some (units (gr c) !! x)) →
  safe interest (new_request id held (gr c) c).
Proof.
  intros Hi Hfit Hn. unfold new_request. apply safe_guard. intros Hid%bool_decide_eq_true. destruct (zero_ok_acquire_all c held Hi Hfit Hn) as [Hz Hr].
  split; simpl; [|done]. intros x. rewrite Hr. unfold holders. simpl.
  rewrite (msum_insert (λ q, occ x (r_held q))) by done. simpl. lia.
Qed.

Lemma safe_end_request c id q :
  interest c → reqs c !! id = Some q → safe interest (end_request id q c).
Proof.
  intros Hi Hq. unfold end_request.
  destruct (release_all_spec (r_held q) (gr c) (bodies c)) as (g' & -> & Hz & Hr); [|apply Hi|].
  { intros x. rewrite (in_count _ Hi). pose proof (holders_req c id q x Hq). lia. }
  split; simpl; [|done]. intros x. rewrite Hr, (in_count _ Hi).
  pose proof (holders_req_delete c id q g' x Hq). lia.
Qed.

(** [~UnitGuard] never fails. *)
Lemma safe_finish c r b u o :
  interest c → bodies c !! r = Some b → units (gr c) !! b_path b = Some u →
  compiling u = true → round u = Some r → safe interest (finish r b o c).
Proof.
  intros Hi Hr Hu Hc Hround. unfold finish. rewrite Hu. simpl.
  rewrite Hc, Hround, bool_decide_eq_true_2 by done. simpl.
  set (g1 := set_rounds _ (gr c)). set (g2 := modify _ _ g1).
  assert (∀ x, refcount_of g2 x = refcount_of (gr c) x) as Hr2.
  { intros x. unfold g2. rewrite (refcount_modify _ _ (λ r, r)) by done.
    case_decide; [|done]. change (units g1) with (units (gr c)).
    unfold refcount_of. simpl. by destruct (units (gr c) !! x). }
  assert (zero_ok g2 (delete r (bodies c))) as Hz2.
  { eapply zero_ok_frame; [apply Hi| | |done|done|done].
    - intros x. unfold g2, pending_of. rewrite modify_lookup. case_decide; [|done].
      simpl. by destruct (units (gr c) !! x).
    - intros x Hx Hrx. rewrite Hr2 in Hrx. split_and!; [|done|].
      + revert Hx. unfold g2, is_compiling. rewrite modify_lookup. case_decide; [|done].
        simpl. by destruct (units (gr c) !! x).
      + intros r1 b1. rewrite lookup_delete. case_decide; [done|]. eauto. }
  destruct (release_all_spec (b_acquired b) g2 (delete r (bodies c))) as (g3 & -> & Hz3 & Hr3);
    simpl; [|done|].
  { intros x. rewrite Hr2, (in_count _ Hi). pose proof (holders_body c r b x Hr). lia. }
  set (g4 := set_rounds _ _).
  assert (same_view g3 g4) as V by (apply same_view_units; [intros x; simpl; by destruct (units g3 !! x)|done..]).
  split; cbn [gr bodies]; [|by eapply zero_ok_view].
  intros x. rewrite (sv_refcount _ _ V), Hr3, Hr2, (in_count _ Hi).
  pose proof (holders_body_delete c r b g4 x Hr). lia.
Qed.

Lemma safe_finish_body c r b o :
  inv c → interest c → bodies c !! r = Some b → safe interest (finish r b o c).
Proof.
  intros Hinv Hi Hr. destruct (inv_bodies _ Hinv _ _ Hr) as [u B].
  eapply safe_finish; try done; apply B.
Qed.

(** Replacing a frame by one with the same unit, token and references. *)
Lemma interest_body_update c r b b' :
  interest c → bodies c !! r = Some b → b_path b' = b_path b → b_token b' = b_token b →
  b_acquired b' = b_acquired b → interest (mkConfig (gr c) (<[r := b']> (bodies c)) (reqs c)).
Proof.
  intros Hi Hr Hp Ht Ha. split; simpl.
  - intros x. rewrite (in_count _ Hi).
    pose proof (holders_body_insert c r b b' (gr c) x Hr) as H. rewrite Ha in H. lia.
  - eapply zero_ok_bodies; [apply Hi|]. intros r1 b1. rewrite lookup_insert.
    case_decide; [intros [= <-]; subst; by exists b|eauto].
Qed.

(** ** Every transition *)

(** One segment of [await_unit] for a frame that holds a reference on [d]. *)
Lemma safe_await c waiter d pc :
  inv c → interest c → 0 < refcount_of (gr c) d → wait_ok (gr c) (bodies c) (d, pc) →
  safe (λ res, let '(g', bs', _) := res in interest (mkConfig g' bs' (reqs c)))
    (await_step waiter d pc (gr c) (bodies c)).
Proof.
  intros Hinv Hi Hpos (u & Hu & Hw). simpl in Hu, Hw.
  assert (interest (mkConfig (gr c) (bodies c) (reqs c))) as Hi' by (by destruct c).
  pose proof (inv_units _ Hinv _ _ Hu) as U. destruct pc as [| |r|ok]; simpl; [| | |done].
  - rewrite Hu. simpl. destruct (dirty u); simpl; [|done]. destruct (compiling u) eqn:Hc; [done|].
    rewrite (spawn_unit_eq _ _ _ u) by done.
    assert (refcount_of (gr c) d = refcount u) as Hru by (unfold refcount_of; by rewrite Hu).
    assert (∀ run x, refcount_of (spawned d run (gr c)) x = refcount_of (gr c) x ∧
              pending_of (spawned d run (gr c)) x = pending_of (gr c) x ∧
              (x ≠ d → is_compiling (spawned d run (gr c)) x = is_compiling (gr c) x)) as Hs.
    { intros run x. unfold spawned, refcount_of, pending_of, is_compiling. simpl.
      destruct (decide (d = x)) as [<-|]; [rewrite lookup_alter_eq, Hu; done|].
      by rewrite lookup_alter_ne. }
    assert (∀ run bs', (∀ r b', bs' !! r = Some b' → b_path b' ≠ d → bodies c !! r = Some b') →
              zero_ok (spawned d run (gr c)) bs') as Hz.
    { intros run bs' Hbs. eapply zero_ok_frame; [apply Hi|apply Hs| |done|done|done].
      intros x. destruct (Hs run x) as (-> & _ & E). intros Hx Hr.
      destruct (decide (x = d)) as [->|Hne]; [lia|]. rewrite E in Hx by done.
      split_and!; [done|done|]. intros r b' Hrb <-. eauto. }
    destruct (closed (gr c)); simpl; (split; simpl; [|apply Hz; eauto]).
    + intros x. rewrite (proj1 (Hs false x)). apply Hi.
    + intros x. rewrite (proj1 (Hs true x)), (in_count _ Hi). unfold holders. simpl.
      rewrite (msum_insert (λ b, occ x (b_acquired b))); [done|]. by eapply spawn_fresh_body.
    + intros r b'. rewrite lookup_insert. case_decide; [|done]. by intros [= <-].
  - rewrite Hu. simpl. destruct Hw as [r Hr]. rewrite Hr. simpl.
    destruct (uo_round _ _ _ _ U r Hr) as [rd ->]. simpl.
    destruct waiter as [w|]; [|done]. destruct (completion rd); [done|].
    destruct (has_wait_cycle_decides (gr c) d w) as (res & -> & _). by destruct res.
  - destruct Hw as (rd & -> & _). simpl. by destruct (completion rd).
Qed.

Lemma safe_body_start c r deps :
  inv c → interest c → fits (LBodyStart r deps) c = true → safe interest (body_start r deps c).
Proof.
  intros Hinv Hi Hfit. unfold body_start. apply safe_need. intros b Hr. apply safe_guard. intros Hpc.
  apply bool_decide_eq_true in Hpc. set (g := ensure_resolved deps (b_path b) (gr c)).
  pose proof (interest_view c g Hi (same_view_ensure_resolved _ _ _)) as Hi1.
  pose proof (inv_quiet c g Hinv (quiet_ensure_resolved _ _ _)
                (ensure_resolved_edges_ok _ _ _ (inv_edges _ Hinv))) as Hinv1.
  destruct (inv_bodies _ Hinv1 r b Hr) as [u B]. pose proof (bo_unit _ _ _ _ _ B) as Hu.
  simpl in Hu. rewrite Hu. simpl.
  case_decide; [by apply (safe_finish_body (mkConfig g (bodies c) (reqs c)))|].
  simpl in Hfit. rewrite Hr in Hfit. fold g in Hfit. unfold dependencies_of in Hfit. rewrite Hu in Hfit.
  set (ds := dependencies u) in *.
  destruct (zero_ok_acquire_all (mkConfig g (bodies c) (reqs c)) ds Hi1 Hfit) as [Hz Hrc];
    [right; by exists (b_path b), u|].
  pose proof (bo_pc _ _ _ _ _ B) as Hb. rewrite Hpc in Hb. destruct Hb as [Hacq _]. simpl in *.
  split; simpl.
  - intros x. rewrite Hrc. set (b' := mkBody _ _ _ _ _ _).
    pose proof (holders_body_insert c r b b' (acquire_all ds g) x Hr) as Hh.
    rewrite Hacq in Hh. assert (occ x (@nil Z) = 0%nat) as E0 by done. rewrite E0 in Hh.
    unfold holders in *. simpl in *. lia.
  - eapply zero_ok_bodies; [exact Hz|]. intros r1 b1. rewrite lookup_insert.
    case_decide; [intros [= <-]; subst; by exists b|eauto].
Qed.

Lemma safe_deps_done c r : inv c → interest c → safe interest (body_deps_done r c).
Proof.
  intros Hinv Hi. unfold body_deps_done. apply safe_need. intros b Hr. apply safe_guard. intros _.
  apply safe_need. intros oks _. destruct (forallb id oks); [|by apply safe_finish_body].
  by apply (interest_body_update c r b).
Qed.

Lemma safe_dispatch_done c r ok : inv c → interest c → safe interest (body_dispatch_done r ok c).
Proof.
  intros Hinv Hi. unfold body_dispatch_done. apply safe_need. intros b Hr. apply safe_guard.
  intros _. destruct ok; simpl; [|by apply safe_finish_body].
  destruct (inv_bodies _ Hinv _ _ Hr) as [u B]. rewrite (bo_unit _ _ _ _ _ B). simpl.
  case_decide; [by apply safe_finish_body|].
  eapply (safe_finish (mkConfig (modify (b_path b) (set_dirty false) (gr c)) (bodies c) (reqs c)));
    [|done| | |].
  - apply interest_view; [done|]. by apply same_view_modify.
  - simpl. rewrite lookup_alter_eq, (bo_unit _ _ _ _ _ B). done.
  - apply B.
  - apply B.
Qed.

Lemma safe_body_cancelled c r : inv c → interest c → safe interest (body_cancelled r c).
Proof.
  intros Hinv Hi. unfold body_cancelled. apply safe_need. intros b Hr. do 2 (apply safe_guard; intros _).
  by apply safe_finish_body.
Qed.

(** A held reference is counted. *)
Lemma body_holds c r b d :
  interest c → bodies c !! r = Some b → d ∈ b_acquired b → 0 < refcount_of (gr c) d.
Proof.
  intros Hi Hr Hd. rewrite (in_count _ Hi). pose proof (holders_body c r b d Hr).
  pose proof (occ_pos d _ Hd). lia.
Qed.

Lemma req_holds c id q d :
  interest c → reqs c !! id = Some q → d ∈ r_held q → 0 < refcount_of (gr c) d.
Proof.
  intros Hi Hr Hd. rewrite (in_count _ Hi). pose proof (holders_req c id q d Hr).
  pose proof (occ_pos d _ Hd). lia.
Qed.

(** The deferred check: the round dies if nobody came back for it. *)
Lemma interest_zero_check c p rest g' :
  inv c → interest c → zero_tasks (gr c) = p :: rest → closed (gr c) = false →
  zero_interest_check p
    (mkGraph (units (gr c)) (rounds (gr c)) (next_round (gr c)) (cancelled (gr c))
       (next_source (gr c)) (closed (gr c)) rest) = Some g' →
  interest (mkConfig g' (bodies c) (reqs c)).
Proof.
  intros Hinv Hi Ht Hcl. set (g1 := mkGraph _ _ _ _ _ _ rest).
  destruct Hi as [Hc [Hp Hz]].
  unfold zero_interest_check. destruct (units g1 !! p) as [u|] eqn:Hu; [|done]. intros [= <-].
  simpl in Hu. set (g2 := modify p (set_zero_check false) g1).
  assert (∀ x, refcount_of g2 x = refcount_of (gr c) x ∧
               is_compiling g2 x = is_compiling (gr c) x ∧
               pending_of g2 x = if decide (p = x) then false else pending_of (gr c) x) as H2.
  { intros x. unfold g2, refcount_of, is_compiling, pending_of. simpl.
    destruct (decide (p = x)) as [<-|]; [by rewrite lookup_alter_eq, Hu|by rewrite lookup_alter_ne]. }
  assert (∀ x, pending_of g2 x = true → closed g2 = true ∨ x ∈ zero_tasks g2) as Hp2.
  { intros x. destruct (H2 x) as (_ & _ & ->). case_decide; [done|]. intros Hx.
    destruct (Hp x Hx) as [?|Hx']; [congruence|]. rewrite Ht in Hx'.
    apply elem_of_cons in Hx' as [->|?]; [done|by right]. }
  assert (∀ x, x ≠ p → is_compiling g2 x = true → refcount_of g2 x = 0 →
            closed g2 = true ∨ pending_of g2 x = true ∨ doomed g2 (bodies c) x) as Hz2.
  { intros x Hne. destruct (H2 x) as (-> & -> & ->). rewrite decide_False by done. apply Hz. }
  destruct (bool_decide (refcount u = 0) && compiling u) eqn:E.
  - pose proof (same_view_cancel_round p g2) as [V1 V2 V3 V4 V5 V6]. split; simpl.
    + intros x. rewrite V2, (proj1 (H2 x)). apply Hc.
    + split; [intros x; rewrite V3, V4, V5; apply Hp2|].
      intros x. rewrite V1, V2, V3, V4. destruct (decide (x = p)) as [->|Hne].
      * intros _ _. right; right. intros r b Hr Hpath.
        destruct (inv_bodies _ Hinv _ _ Hr) as [ub B].
        pose proof (bo_unit _ _ _ _ _ B) as Hub. rewrite Hpath, Hu in Hub. simplify_eq.
        assert (source ub ∈ cancelled (cancel_round (b_path b) g2)) as Hsrc.
        { unfold cancel_round, g2. simpl. rewrite lookup_alter_eq, Hu. simpl. set_solver. }
        destruct (bo_token _ _ _ _ _ B) as [->|Hcan]; [exact Hsrc|by apply V6].
      * intros Hx Hr. destruct (Hz2 x Hne Hx Hr) as [?|[?|Hd]]; [auto..|].
        right; right. intros r b Hr' Hb. by apply V6, (Hd r).
  - split; simpl; [intros x; rewrite (proj1 (H2 x)); apply Hc|]. split; [done|].
    intros x Hx Hr. destruct (decide (x = p)) as [->|Hne]; [|by apply Hz2].
    destruct (H2 p) as (E1 & E2 & _). rewrite E1 in Hr. rewrite E2 in Hx.
    unfold refcount_of in Hr. unfold is_compiling in Hx. rewrite Hu in Hr, Hx.
    rewrite bool_decide_eq_true_2, Hx in E by done. done.
Qed.

Lemma safe_body_wait c r k : inv c → interest c → safe interest (exec (LBodyWait r k) c).
Proof.
  intros Hinv Hi. simpl. apply safe_need. intros b Hr. apply safe_need. intros [d pc] Hk.
  destruct (inv_bodies _ Hinv _ _ Hr) as [u B]. pose proof (bo_waits _ _ _ _ _ B) as Hw.
  rewrite Forall_forall in Hw. pose proof (list_elem_of_lookup_2 _ _ _ Hk) as Hin.
  assert (d ∈ b_acquired b) as Hd.
  { pose proof (bo_pc _ _ _ _ _ B) as Hpc. destruct (b_pc b).
    - destruct Hpc as [_ E]. rewrite E in Hin. set_solver.
    - destruct Hpc as [<- _]. apply list_elem_of_fmap. by exists (d, pc).
    - destruct Hpc as [E _]. rewrite E in Hin. set_solver. }
  pose proof (body_holds c r b d Hi Hr Hd) as Hpos.
  eapply safe_bind; [by apply safe_await, Hw|]. intros [[g' bs'] pc'] Hstep Hi'. simpl in *.
  destruct (await_step_post _ _ _ _ _ _ _ Hinv Hstep (Hw _ Hin)) as [_ Hbs _ _ _ _].
  by apply (interest_body_update (mkConfig g' bs' (reqs c)) r b); [|apply Hbs|..].
Qed.

Lemma safe_req_wait c id k : inv c → interest c → safe interest (exec (LReqWait id k) c).
Proof.
  intros Hinv Hi. simpl. apply safe_need. intros q Hq. apply safe_need. intros [d pc] Hk.
  destruct (inv_reqs _ Hinv _ _ Hq) as [Hw Hfst]. rewrite Forall_forall in Hw.
  pose proof (list_elem_of_lookup_2 _ _ _ Hk) as Hin.
  assert (d ∈ r_held q) as Hd by (rewrite <- Hfst; apply list_elem_of_fmap; by exists (d, pc)).
  pose proof (req_holds c id q d Hi Hq Hd) as Hpos.
  eapply safe_bind; [by apply safe_await, Hw|]. intros [[g' bs'] pc'] _ Hi'. simpl in *.
  split; simpl; [|apply Hi']. intros x. rewrite (in_count _ Hi'). simpl.
  match goal with |- context [<[id := ?q']> (reqs c)] =>
    pose proof (holders_req_insert c id q q' g' bs' x Hq) as Hh end.
  simpl in Hh. lia.
Qed.

(** ** Scheduled checks

    A check is scheduled for a unit, and units are never removed, so the iterator the
    check dereferences is valid. *)

Definition tasks_known (g : graph) : Prop := ∀ x, x ∈ zero_tasks g → is_Some (units g !! x).

Lemma tasks_known_units g g' :
  (∀ x, is_Some (units g !! x) → is_Some (units g' !! x)) → zero_tasks g' = zero_tasks g →
  tasks_known g → tasks_known g'.
Proof. intros Hu Hz Ht x. rewrite Hz. auto. Qed.

Lemma tasks_known_release p g g' : release p g = Some g' → tasks_known g → tasks_known g'.
Proof.
  unfold release. destruct (units g !! p) as [u|] eqn:Hu; [|done]. case_decide; [|done].
  assert (∀ f x, is_Some (units g !! x) → is_Some (units (modify p f g) !! x)) as Hm.
  { intros f x Hx. rewrite modify_lookup. case_decide; [by apply fmap_is_Some|done]. }
  destruct (_ && _ && _); [destruct (closed g)|]; intros [= <-] Ht; [by eapply tasks_known_units; [apply Hm|..]| |
    by eapply tasks_known_units; [apply Hm|..]].
  intros x. simpl. intros [Hx| ->%list_elem_of_singleton]%elem_of_app.
  - rewrite lookup_alter_is_Some, lookup_alter_is_Some. by apply Ht.
  - rewrite !lookup_alter_is_Some. by exists u.
Qed.

Lemma tasks_known_release_all ids g g' : release_all ids g = Some g' → tasks_known g → tasks_known g'.
Proof.
  revert g. induction ids as [|p ids IH]; intros g; simpl; [by intros [= <-]|].
  destruct (release p g) as [g1|] eqn:E; [|done]. eauto using tasks_known_release.
Qed.

(** A change that is quiet and schedules nothing. *)
Lemma tasks_known_quiet g g' : quiet g g' → zero_tasks g' = zero_tasks g → tasks_known g → tasks_known g'.
Proof.
  intros Hq. apply tasks_known_units. intros x [u Hu]. destruct (q_units _ _ Hq _ _ Hu) as (u' & Hu' & _). by exists u'.
Qed.

Lemma zero_tasks_acquire_all ids g : zero_tasks (acquire_all ids g) = zero_tasks g.
Proof.
  unfold acquire_all. apply (foldl_invariant (λ g', zero_tasks g' = zero_tasks g)); [done|].
  intros g' p _ <-. apply acquire_rest.
Qed.

Lemma tasks_known_acquire_all ids g : tasks_known g → tasks_known (acquire_all ids g).
Proof. apply tasks_known_quiet; [apply quiet_acquire_all|apply zero_tasks_acquire_all]. Qed.

Lemma tasks_known_resolved deps p g : tasks_known g → tasks_known (ensure_resolved deps p g).
Proof. apply tasks_known_quiet; [apply quiet_ensure_resolved|apply same_view_ensure_resolved]. Qed.

Lemma tasks_known_finish r b o c c' : finish r b o c = Ok c' → tasks_known (gr c) → tasks_known (gr c').
Proof.
  unfold finish. intros H Ht. apply bind_read in H as (u & Hu & H). destruct (negb _); [done|].
  apply bind_read in H as (g3 & Hrel & H). simplify_eq/=.
  cut (tasks_known g3); [done|]. eapply tasks_known_release_all; [exact Hrel|].
  intros x Hx. simpl. apply lookup_alter_is_Some. by apply Ht.
Qed.

Lemma tasks_known_await waiter d pc g bs g' bs' pc' :
  await_step waiter d pc g bs = Ok (g', bs', pc') → tasks_known g → tasks_known g'.
Proof.
  intros H Ht. destruct pc as [| |r|ok]; simpl in H; [| | |done].
  - apply bind_read in H as (u & Hu & H). destruct (negb (dirty u)); [by simplify_eq|].
    destruct (compiling u) eqn:Hc; [by simplify_eq|]. rewrite (spawn_unit_eq _ _ _ u) in H by done.
    destruct (closed g); simpl in H; simplify_eq/=; intros x Hx; apply lookup_alter_is_Some; by apply Ht.
  - apply bind_read in H as (u & _ & H). apply bind_read in H as (r & _ & H). apply bind_read in H as (rd & _ & H).
    destruct waiter; [|by simplify_eq]. destruct (completion rd); [by simplify_eq|].
    by destruct (has_wait_cycle _ _ _) as [[]|]; simplify_eq.
  - apply bind_read in H as (rd & _ & H). apply bind_guard in H as [_ H]. by simplify_eq.
Qed.

Lemma tasks_known_new_request id held g c c' :
  new_request id held g c = Ok c' → tasks_known g → tasks_known (gr c').
Proof. unfold new_request. intros H Ht. apply bind_guard in H as [_ H]. simplify_eq/=. by apply tasks_known_acquire_all. Qed.

Lemma tasks_known_end_request id q c c' : end_request id q c = Ok c' → tasks_known (gr c) → tasks_known (gr c').
Proof. unfold end_request. intros H. apply bind_read in H as (g & Hr & H). simplify_eq/=. by eapply tasks_known_release_all. Qed.

Lemma tasks_known_exec c l c' : inv c → exec l c = Ok c' → tasks_known (gr c) → tasks_known (gr c').
Proof.
  intros Hinv H Ht. destruct l; simpl in H.
  - by eapply tasks_known_new_request.
  - apply bind_read in H as (u & _ & H). pose proof (tasks_known_resolved deps p _ Ht) as Hg.
    destruct (dependencies u); [by simplify_eq|by eapply tasks_known_new_request].
  - apply bind_need in H as (q & _ & H). apply bind_need in H as (w & _ & H).
    apply Res_bind_Ok in H as ([[g bs] pc] & Hw & H). simplify_eq/=. by eapply tasks_known_await.
  - apply bind_need in H as (q & _ & H). apply bind_need in H as (? & _ & H). by eapply tasks_known_end_request.
  - apply bind_need in H as (q & _ & H). by eapply tasks_known_end_request.
  - unfold body_start in H. apply bind_need in H as (b & _ & H). apply bind_guard in H as [_ H].
    apply bind_read in H as (u & _ & H). pose proof (tasks_known_resolved deps (b_path b) _ Ht) as Hg.
    case_decide; [by eapply tasks_known_finish|]. simplify_eq/=. by apply tasks_known_acquire_all.
  - apply bind_need in H as (q & _ & H). apply bind_need in H as (w & _ & H).
    apply Res_bind_Ok in H as ([[g bs] pc] & Hw & H). simplify_eq/=. by eapply tasks_known_await.
  - unfold body_deps_done in H. apply bind_need in H as (b & _ & H). apply bind_guard in H as [_ H].
    apply bind_need in H as (oks & _ & H). destruct (forallb id oks); [by simplify_eq|by eapply tasks_known_finish].
  - unfold body_dispatch_done in H. apply bind_need in H as (b & _ & H). apply bind_guard in H as [_ H].
    destruct (negb ok); [by eapply tasks_known_finish|]. apply bind_read in H as (u & _ & H).
    case_decide; (eapply tasks_known_finish; [exact H|]); [done|].
    intros x Hx. simpl. apply lookup_alter_is_Some. by apply Ht.
  - unfold body_cancelled in H. apply bind_need in H as (b & _ & H). do 2 apply bind_guard in H as [_ H].
    by eapply tasks_known_finish.
  - destruct (zero_tasks (gr c)) as [|p rest] eqn:Hz; [done|].
    assert (∀ x, x ∈ rest → is_Some (units (gr c) !! x)) as Hrest by (intros x Hx; apply Ht; rewrite Hz; by right).
    destruct (closed (gr c)); simpl in H; [simplify_eq/=; exact Hrest|].
    apply bind_read in H as (g2 & Hg2 & H). simplify_eq/=.
    eapply tasks_known_quiet; [by eapply quiet_zero_check| |]; [|exact Hrest].
    revert Hg2. unfold zero_interest_check. simpl. destruct (units (gr c) !! p); [|done]. intros [= <-].
    case_match; [|done]. apply same_view_cancel_round.
  - destruct (update_run (gr c) (inv_edges _ Hinv) p) as (g' & dd & V & Hup & Hrel & _). rewrite Hup in H. simplify_eq/=.
    eapply tasks_known_units; [| |exact Ht]; [|apply (ur_rest _ _ _ _ _ Hrel)].
    intros x [u Hu]. pose proof (ur_units _ _ _ _ _ Hrel x) as Hx. rewrite Hu in Hx. destruct Hx as (src & -> & _). by eexists.
  - apply bind_guard in H as [_ H]. simplify_eq/=.
    eapply tasks_known_quiet; [apply quiet_cancel_all|apply same_view_cancel_all|done].
  - by simplify_eq/=.
Qed.

Lemma safe_exec c l : inv c → interest c → tasks_known (gr c) → fits l c = true → safe interest (exec l c).
Proof.
  intros Hinv Hi Htk Hfit. destruct l.
  - apply safe_new_request; [done|done|by left].
  - simpl. set (g := ensure_resolved deps p (gr c)).
    pose proof (interest_view c g Hi (same_view_ensure_resolved _ _ _)) as Hi1.
    destruct (units g !! p) as [u|] eqn:Hu; simpl.
    2: { pose proof (ensure_resolved_exists deps p (gr c)) as [? Hx]. fold g in Hx. congruence. }
    simpl in Hfit. fold g in Hfit. unfold dependencies_of in Hfit. rewrite Hu in Hfit.
    destruct (dependencies u); [done|].
    apply (safe_new_request (mkConfig g (bodies c) (reqs c))); [done|done|right; by exists p, u].
  - by apply safe_req_wait.
  - simpl. apply safe_need. intros q Hq. apply safe_need. intros oks _. by apply safe_end_request.
  - simpl. apply safe_need. intros q Hq. by apply safe_end_request.
  - by apply safe_body_start.
  - by apply safe_body_wait.
  - by apply safe_deps_done.
  - by apply safe_dispatch_done.
  - by apply safe_body_cancelled.
  - simpl. destruct (zero_tasks (gr c)) as [|p rest] eqn:Ht; [done|].
    destruct (closed (gr c)) eqn:Hcl; simpl.
    + destruct Hi as [Hc [Hp Hz]]. split; simpl; [done|].
      split; simpl; [by intros; left|]. by intros; left.
    + pose proof (interest_zero_check c p rest) as Hz. rewrite Hcl in Hz.
      destruct (Htk p) as [u Hu]; [rewrite Ht; by left|].
      destruct (zero_interest_check p _) as [g'|] eqn:Hg; [by apply Hz|].
      revert Hg. unfold zero_interest_check. simpl. by rewrite Hu.
  - simpl. destruct (update_run (gr c) (inv_edges _ Hinv) p) as (g' & dd & V & -> & Hrel & _). simpl.
    apply interest_view; [done|]. by eapply same_view_update.
  - simpl. apply safe_guard. intros _. apply interest_view; [done|apply same_view_cancel_all].
  - destruct Hi as [Hc [Hp Hz]]. split; simpl; [done|]. split; simpl; [by intros; left|].
    by intros; left.
Qed.

Lemma interest_init : interest init.
Proof.
  split; [done|]. split; intros x; unfold pending_of, is_compiling; simpl; by rewrite lookup_empty.
Qed.

Lemma reachable_both c : reachable c → interest c ∧ tasks_known (gr c).
Proof.
  intros Hr. assert (∀ c0, inv c0 → interest c0 → tasks_known (gr c0) → rtc step c0 c →
    interest c ∧ tasks_known (gr c)) as Hgen;
    [|apply (Hgen init); [apply inv_init|apply interest_init| |done]; intros x Hx; by apply elem_of_nil in Hx].
  clear Hr. intros c0 Hinv Hi Ht Hr. induction Hr as [|x y z (l & Hf & Hl) _ IH]; [done|].
  apply IH; [by eapply inv_exec| |by eapply tasks_known_exec].
  pose proof (safe_exec x l Hinv Hi Ht Hf) as Hs. by rewrite Hl in Hs.
Qed.

Lemma reachable_interest c : reachable c → interest c.
Proof. intros Hr. by apply reachable_both. Qed.

Lemma reachable_tasks c : reachable c → tasks_known (gr c).
Proof. intros Hr. by apply reachable_both. Qed.

#[export] Hint Resolve interest_init reachable_interest : clice.
