(* ===== verification/CompileSafety.v ===== *)
(** * Theorems about the compilation graph

    What the invariants of CompileInvariant.v and CompileInterest.v say about
    every configuration the coroutines of src/server/compiler/compile_graph.cpp
    can reach, under every interleaving of segments and every behaviour of the
    resolver, of the compiler workers and of the clients. *)
From S2P Require Import Prelude Worklist CompileGraph CompileTasks CompileInvariant CompileInterest.
From stdpp Require Import relations.
Local Open Scope Z_scope.

(** A run of labels leads to a reachable configuration. *)
Lemma run_reachable ls c c' : reachable c → run ls c = Ok c' → reachable c'.
Proof.
  revert c. induction ls as [|l ls IH]; intros c Hr H; simpl in H; [by simplify_eq|].
  destruct (fits l c) eqn:Hf; [|done]. apply Res_bind_Ok in H as (c1 & Hl & H). eapply IH; [|exact H].
  unfold reachable in *. etrans; [exact Hr|]. apply rtc_once. by exists l.
Qed.

Lemma run_init_reachable ls c : run ls init = Ok c → reachable c.
Proof. apply run_reachable. apply rtc_refl. Qed.

(** ** Sample runs *)

(** Request 0 compiles unit 1, which imports unit 2. *)
Definition sample_labels : list label :=
  [LCompile 0 1; LReqWait 0 0; LBodyStart 0 [2]; LReqWait 0 0; LBodyWait 0 0; LBodyStart 1 [];
   LBodyWait 0 0; LDispatchDone 1 true; LBodyWait 0 0; LDepsDone 0; LDispatchDone 0 true;
   LReqWait 0 0; LReqDone 0].

Definition run_to (ls : list label) : config :=
  match run ls init with Ok c => c | _ => init end.

Lemma run_to_reachable ls : is_ok (run ls init) = true → reachable (run_to ls).
Proof.
  unfold run_to. destruct (run ls init) eqn:E; try done. intros _. by eapply run_init_reachable.
Qed.

(** ** Safety *)

(** C1. No [assert] of compile_graph.cpp can fail, no [find] whose result is
    dereferenced can miss and no search can run forever: whatever transition is
    tried in a reachable configuration, it is either disabled or succeeds.
    Reachable are the configurations of runs in which no reference count reaches
    2^32 and no generation 2^64 ([fits]). *)
Theorem never_faults (c : config) (l : label) :
  reachable c → fits l c = true → exec l c ≠ Fault ∧ exec l c ≠ Stuck.
Proof.
  intros Hr Hf. pose proof (safe_exec c l (reachable_inv _ Hr) (reachable_interest _ Hr) (reachable_tasks _ Hr) Hf) as Hs.
  by destruct (exec l c).
Qed.

Lemma never_faults_witness :
  exec (LDispatchDone 1 true) (run_to (take 7 sample_labels)) ≠ Fault ∧
  exec (LDispatchDone 1 true) (run_to (take 7 sample_labels)) ≠ Stuck.
Proof. apply never_faults; [apply run_to_reachable; vm_compute; reflexivity|reflexivity]. Defined.

(** C2. Interest counts are exact: in every reachable configuration the
    [refcount] of every unit is the number of references held by live unit tasks
    and requests, so no reference is lost or released twice on any path,
    cancellation included. *)
Theorem refcount_exact (c : config) :
  reachable c → ∀ x, refcount_of (gr c) x = Z.of_nat (holders c x).
Proof. intros Hr. apply (reachable_interest _ Hr). Qed.

Lemma refcount_exact_witness :
  refcount_of (gr (run_to (take 6 sample_labels))) 2 = 1 ∧
  refcount_of (gr (run_to (take 6 sample_labels))) 2 =
    Z.of_nat (holders (run_to (take 6 sample_labels)) 2).
Proof.
  split; [vm_compute; reflexivity|]. apply refcount_exact. apply run_to_reachable.
  vm_compute. reflexivity.
Defined.

(** [consistent()] holds at every moment: a compiling unit always has an
    unfinished round. *)
Theorem always_consistent (c : config) : reachable c → consistent (gr c) = true.
Proof.
  intros Hr. pose proof (reachable_inv _ Hr) as Hinv. unfold consistent.
  apply (forallb_map (λ u, negb (compiling u) || match round u with
     | None => false
     | Some r => match rounds (gr c) !! r with Some rd => negb (completion rd) | None => false end
     end)).
  intros x u Hx. destruct (compiling u) eqn:Hc; [|done].
  destruct (uo_body _ _ _ _ (inv_units _ Hinv _ _ Hx) Hc) as (r & b & -> & Hb & _).
  destruct (inv_bodies _ Hinv _ _ Hb) as [v B]. by rewrite (bo_open _ _ _ _ _ B).
Qed.

Lemma always_consistent_witness :
  is_compiling (gr (run_to (take 6 sample_labels))) 2 = true ∧
  consistent (gr (run_to (take 6 sample_labels))) = true.
Proof.
  split; [vm_compute; reflexivity|]. apply always_consistent, run_to_reachable. vm_compute.
  reflexivity.
Defined.

(** A unit that is up to date only depends on units that are up to date,
    transitively: a stale dependency is never hidden behind a clean unit. *)
Theorem clean_deps_clean (c : config) (x y : Z) :
  reachable c → has_unit (gr c) x = true → is_dirty (gr c) x = false →
  rtc (λ a b, b ∈ dependencies_of (gr c) a) x y →
  has_unit (gr c) y = true ∧ is_dirty (gr c) y = false.
Proof.
  intros Hr Hx Hd Hpath. pose proof (reachable_inv _ Hr) as Hinv.
  assert (clean (gr c) x) as Hcl.
  { apply bool_decide_eq_true in Hx as [u Hu]. exists u. split; [done|].
    unfold is_dirty in Hd. by rewrite Hu in Hd. }
  assert (clean (gr c) y) as (u & Hu & Hdu).
  { clear Hx Hd Hr. induction Hpath as [|a b z Hab _ IH]; [done|]. apply IH.
    destruct Hcl as (u & Hu & Hdu). unfold dependencies_of in Hab. rewrite Hu in Hab.
    by apply (uo_clean _ _ _ _ (inv_units _ Hinv _ _ Hu) Hdu). }
  unfold has_unit, is_dirty. rewrite Hu, bool_decide_eq_true_2 by done. done.
Qed.

Lemma clean_deps_clean_witness :
  has_unit (gr (run_to sample_labels)) 2 = true ∧ is_dirty (gr (run_to sample_labels)) 2 = false.
Proof.
  apply (clean_deps_clean _ 1 2).
  - apply run_to_reachable. vm_compute. reflexivity.
  - vm_compute. reflexivity.
  - vm_compute. reflexivity.
  - apply rtc_once. change (dependencies_of (gr (run_to sample_labels)) 1) with [2]. set_solver.
Defined.

(** At most one task compiles a unit at any time, its unit is marked as
    compiling and dirty, and its round is the unit's current, unfinished round. *)
Theorem single_flight (c : config) (r1 r2 : nat) (b1 b2 : body) :
  reachable c → bodies c !! r1 = Some b1 → bodies c !! r2 = Some b2 → b_path b1 = b_path b2 →
  r1 = r2 ∧ ∃ u, units (gr c) !! b_path b1 = Some u ∧ compiling u = true ∧ dirty u = true ∧
    round u = Some r1 ∧ rounds (gr c) !! r1 = Some (mkRound false Stale).
Proof.
  intros Hr H1 H2 E. pose proof (reachable_inv _ Hr) as Hinv.
  split; [by eapply body_unique|]. destruct (inv_bodies _ Hinv _ _ H1) as [u B].
  exists u. pose proof (inv_units _ Hinv _ _ (bo_unit _ _ _ _ _ B)) as U.
  destruct B. split_and!; try done. by apply (uo_dirty _ _ _ _ U).
Qed.

Lemma single_flight_witness :
  (1 = 1)%nat ∧ ∃ u, units (gr (run_to (take 6 sample_labels))) !! 2 = Some u ∧
    compiling u = true ∧ dirty u = true ∧ round u = Some 1%nat ∧
    rounds (gr (run_to (take 6 sample_labels))) !! 1%nat = Some (mkRound false Stale).
Proof.
  apply (single_flight (run_to (take 6 sample_labels)) 1 1
           (mkBody 2 1 BDispatch 0 [] []) (mkBody 2 1 BDispatch 0 [] [])).
  - apply run_to_reachable. vm_compute. reflexivity.
  - vm_compute. reflexivity.
  - vm_compute. reflexivity.
  - reflexivity.
Defined.

(** C38. Dependencies first: when a task that no [update] has overtaken has
    handed its unit to the compiler, every dependency of the unit is up to
    date. *)
Theorem dispatch_after_deps (c : config) (r : nat) (b : body) (u : CompileUnit) :
  reachable c → bodies c !! r = Some b → b_pc b = BDispatch →
  units (gr c) !! b_path b = Some u → b_gen b = generation u →
  ∀ d, d ∈ dependencies u → has_unit (gr c) d = true ∧ is_dirty (gr c) d = false.
Proof.
  intros Hr Hb Hpc Hu Hgen d Hd. destruct (inv_bodies _ (reachable_inv _ Hr) _ _ Hb) as [v B].
  pose proof (bo_unit _ _ _ _ _ B) as Hv. assert (v = u) as -> by congruence.
  pose proof (bo_pc _ _ _ _ _ B) as Hst. rewrite Hpc in Hst. destruct Hst as (_ & _ & _ & _ & Hf).
  destruct (Hf Hgen) as (_ & Hacq & Hcl). unfold deps_clean in Hcl. rewrite Hpc, Hacq in Hcl.
  destruct (Hcl d Hd) as (w & Hw & Hdw). unfold has_unit, is_dirty.
  rewrite Hw, bool_decide_eq_true_2 by done. done.
Qed.

Lemma dispatch_after_deps_witness :
  has_unit (gr (run_to (take 10 sample_labels))) 2 = true ∧
  is_dirty (gr (run_to (take 10 sample_labels))) 2 = false.
Proof.
  apply (dispatch_after_deps _ 0 (mkBody 1 0 BDispatch 0 [2] [])
           (mkUnit [2] [] true true true 1 false 0 0 (Some 0%nat))).
  - apply run_to_reachable. vm_compute. reflexivity.
  - vm_compute. reflexivity.
  - reflexivity.
  - vm_compute. reflexivity.
  - reflexivity.
  - simpl. set_solver.
Defined.

(** ** Outcomes *)

(** A finished compilation publishes exactly one of three results.  A
    failure leaves the unit as it was; a success that an [update] has overtaken
    leaves it dirty and the round [Stale]; only a current success makes the unit
    clean and the round [Success].  In every case the task is gone, the unit is
    no longer compiling and the round is complete. *)
Theorem dispatch_done_outcome (c : config) (r : nat) (ok : bool) (b : body) (u : CompileUnit) :
  reachable c → bodies c !! r = Some b → b_pc b = BDispatch →
  units (gr c) !! b_path b = Some u →
  let o := if ok then if decide (generation u = b_gen b) then Success else Stale else Failed in
  ∃ c', exec (LDispatchDone r ok) c = Ok c' ∧ bodies c' = delete r (bodies c) ∧
    is_compiling (gr c') (b_path b) = false ∧
    is_dirty (gr c') (b_path b) = bool_decide (o ≠ Success) ∧
    rounds (gr c') !! r = Some (mkRound true o).
Proof.
  intros Hr Hb Hpc Hu o. pose proof (reachable_inv _ Hr) as Hinv.
  destruct (inv_bodies _ Hinv _ _ Hb) as [v B].
  pose proof (bo_unit _ _ _ _ _ B) as Hv. assert (v = u) as -> by congruence. clear Hv.
  pose proof (uo_dirty _ _ _ _ (inv_units _ Hinv _ _ Hu) (bo_compiling _ _ _ _ _ B)) as Hdirty.
  assert (exec (LDispatchDone r ok) c = finish r b o
    (mkConfig (modify (b_path b) (set_dirty (bool_decide (o ≠ Success))) (gr c))
       (bodies c) (reqs c))) as Heq.
  { simpl. unfold body_dispatch_done. rewrite Hb. simpl. rewrite Hpc. simpl. rewrite Hu. simpl.
    assert (modify (b_path b) (set_dirty true) (gr c) = gr c) as Hsame.
    { apply (modify_same _ _ _ u Hu). unfold set_dirty. destruct u. simpl in *. by subst. }
    unfold o. destruct ok; simpl; [|rewrite Hsame; by destruct c].
    destruct (decide (generation u = b_gen b)); simpl.
    - rewrite decide_False by tauto. done.
    - rewrite decide_True, Hsame by done. by destruct c. }
  assert (∃ c', exec (LDispatchDone r ok) c = Ok c') as [c' Hc'].
  { pose proof (safe_exec c (LDispatchDone r ok) Hinv (reachable_interest _ Hr) (reachable_tasks _ Hr) eq_refl) as Hs.
    rewrite Heq in Hs |- *. revert Hs. unfold finish. simpl.
    rewrite lookup_alter_eq, Hu. simpl. rewrite (bo_compiling _ _ _ _ _ B), (bo_round _ _ _ _ _ B).
    rewrite bool_decide_eq_true_2 by done. simpl. destruct (release_all _ _); simpl; [eauto|done]. }
  exists c'. split; [done|]. rewrite Heq in Hc'.
  destruct (finish_eq c r b u o _ c' Hinv Hb B Hc') as (g' & -> & Hq & _). simpl.
  split; [done|]. destruct (q_units _ _ Hq (b_path b)
    (set_dirty (bool_decide (o ≠ Success)) (set_compiling false u))) as (u' & Hu' & E1 & _ & E3 & _).
  { simpl. by rewrite lookup_alter_eq, Hu. }
  unfold is_compiling, is_dirty. rewrite Hu', E1, E3. split_and!; [done|done|].
  rewrite (proj1 (q_rounds _ _ Hq)). unfold finished. simpl. by rewrite lookup_insert_eq.
Qed.

Lemma dispatch_done_outcome_witness :
  ∃ c', exec (LDispatchDone 1 true) (run_to (take 7 sample_labels)) = Ok c' ∧
    bodies c' = delete 1%nat (bodies (run_to (take 7 sample_labels))) ∧
    is_compiling (gr c') 2 = false ∧ is_dirty (gr c') 2 = false ∧
    rounds (gr c') !! 1%nat = Some (mkRound true Success).
Proof.
  apply (dispatch_done_outcome (run_to (take 7 sample_labels)) 1 true
    (mkBody 2 1 BDispatch 0 [] []) (mkUnit [] [1] true true true 1 false 0 1 (Some 1%nat))).
  - apply run_to_reachable. vm_compute. reflexivity.
  - vm_compute. reflexivity.
  - reflexivity.
  - vm_compute. reflexivity.
Defined.

(** ** Liveness *)

(** The transitions that belong to the graph itself; the others start or cancel
    requests, edit files or shut the graph down. *)
Definition internal (l : label) : bool :=
  match l with
  | LReqWait _ _ | LReqDone _ | LBodyStart _ _ | LBodyWait _ _ | LDepsDone _ | LDispatchDone _ _
  | LBodyCancel _ => true
  | _ => false
  end.

Definition can_move (c : config) : Prop := ∃ l c', internal l = true ∧ fits l c = true ∧ exec l c = Ok c'.

(** A segment of [await_unit] that is not suspended on an open round can run. *)
Lemma await_enabled c waiter d pc :
  inv c → interest c → 0 < refcount_of (gr c) d → wait_ok (gr c) (bodies c) (d, pc) →
  (∃ res, await_step waiter d pc (gr c) (bodies c) = Ok res) ∨
  (∃ ok, pc = WRes ok) ∨
  (∃ r b, pc = WSusp r ∧ rounds (gr c) !! r = Some (mkRound false Stale) ∧
          bodies c !! r = Some b ∧ b_path b = d).
Proof.
  intros Hinv Hi Hpos Hw. pose proof (safe_await c waiter d pc Hinv Hi Hpos Hw) as Hs.
  destruct (await_step waiter d pc (gr c) (bodies c)) as [res|[]| |] eqn:E; [eauto| |done|done].
  right. destruct Hw as (u & Hu & Hw). simpl in Hu, Hw.
  destruct pc as [| |r|ok]; [| | |by left; exists ok].
  - exfalso. revert E. simpl. rewrite Hu. simpl. destruct (dirty u); simpl; [|done].
    destruct (compiling u) eqn:Hc; [done|]. rewrite (spawn_unit_eq _ _ _ u) by done.
    by destruct (closed (gr c)).
  - exfalso. revert E. simpl. rewrite Hu. simpl. destruct Hw as [r Hr]. rewrite Hr. simpl.
    destruct (uo_round _ _ _ _ (inv_units _ Hinv _ _ Hu) r Hr) as [rd ->]. simpl.
    destruct waiter as [w|]; [|done]. destruct (completion rd); [done|].
    destruct (has_wait_cycle_decides (gr c) d w) as ([] & -> & _); done.
  - right. destruct Hw as (rd & Hrd & Hbody). revert E. simpl. rewrite Hrd. simpl.
    destruct (completion rd) eqn:Hc; [done|]. intros _. destruct (Hbody eq_refl) as (b & Hb & Hp).
    exists r, b. split_and!; try done. destruct (inv_bodies _ Hinv _ _ Hb) as [v B].
    by rewrite (bo_open _ _ _ _ _ B) in Hrd |- *.
Qed.

(** Either every wait of a frame has returned, or one of them has not. *)
Lemma results_dec (ws : list (Z * wait_pc)) :
  is_Some (results ws) ∨ ∃ k w, ws !! k = Some w ∧ ∀ ok, w.2 ≠ WRes ok.
Proof.
  induction ws as [|[d pc] ws IH]; [left; by eexists|].
  destruct pc as [| |r|ok].
  1-3: right; exists 0%nat; eexists; split; [done|]; done.
  destruct IH as [[oks H]|(k & w & Hk & Hw)].
  - left. exists (ok :: oks). unfold results in *. simpl. by rewrite H.
  - right. exists (S k), w. done.
Qed.

Section Progress.
Context (c : config) (Hinv : inv c) (Hi : interest c).
Context (Hfit : ∀ r b, bodies c !! r = Some b → b_pc b = BStart →
   refs_fit (length (dependencies_of (gr c) (b_path b)))
     (ensure_resolved [] (b_path b) (gr c)) = true).

Lemma finish_enabled r b o : bodies c !! r = Some b → ∃ c', finish r b o c = Ok c'.
Proof.
  intros Hb. pose proof (safe_finish_body c r b o Hinv Hi Hb) as Hs.
  destruct (finish r b o c) as [c'|[]| |] eqn:E; [eauto| |done|done]. exfalso. revert E.
  unfold finish. destruct (units (gr c) !! b_path b) as [u|]; [|done]. simpl.
  destruct (_ && _); simpl; [|done]. by destruct (release_all _ _).
Qed.

(** An unresolved unit has no dependency yet. *)
Lemma start_dependencies r b :
  bodies c !! r = Some b → b_pc b = BStart →
  dependencies_of (ensure_resolved [] (b_path b) (gr c)) (b_path b) = dependencies_of (gr c) (b_path b).
Proof.
  intros Hb Hpc. destruct (inv_bodies _ Hinv _ _ Hb) as [v B]. pose proof (bo_unit _ _ _ _ _ B) as Hv.
  unfold dependencies_of at 1, ensure_resolved. rewrite touch_lookup, decide_True, Hv by done. simpl.
  destruct (resolved v) eqn:Er; simpl.
  - rewrite touch_lookup, decide_True, Hv by done. simpl. unfold dependencies_of. by rewrite Hv.
  - rewrite lookup_alter_eq, touch_lookup, decide_True, Hv by done. simpl.
    unfold dependencies_of. rewrite Hv. symmetry. by apply (edges_unresolved _ (inv_edges _ Hinv) (b_path b)).
Qed.

Lemma start_enabled r b : bodies c !! r = Some b → b_pc b = BStart → can_move c.
Proof.
  intros Hb Hpc. exists (LBodyStart r []).
  assert (fits (LBodyStart r []) c = true) as Hf.
  { simpl. rewrite Hb, (start_dependencies r b) by done. by apply (Hfit r b). }
  pose proof (safe_body_start c r [] Hinv Hi Hf) as Hs.
  destruct (body_start r [] c) as [c'|[]| |] eqn:E; [by exists c'| |done|done]. exfalso. revert E.
  unfold body_start. rewrite Hb. simpl. rewrite Hpc. simpl.
  destruct (units (ensure_resolved [] (b_path b) (gr c)) !! b_path b) as [u|] eqn:Hu; simpl; [|done].
  case_decide; [|done]. unfold finish. simpl. rewrite Hu. simpl.
  destruct (negb _); [done|]. by destruct (release_all _ _).
Qed.

Lemma dispatch_enabled r b : bodies c !! r = Some b → b_pc b = BDispatch → can_move c.
Proof.
  intros Hb Hpc. destruct (finish_enabled r b Failed Hb) as [c' Hc'].
  exists (LDispatchDone r false), c'. split_and!; [done|done|]. simpl. unfold body_dispatch_done.
  rewrite Hb. simpl. by rewrite Hpc.
Qed.

(** A task in [when_all] moves, or it is suspended on another running task. *)
Lemma wait_enabled r b :
  bodies c !! r = Some b → b_pc b = BWait →
  can_move c ∨ ∃ y r' b', waits_on (gr c) (bodies c) (b_path b) y ∧
                 bodies c !! r' = Some b' ∧ b_path b' = y.
Proof.
  intros Hb Hpc. destruct (inv_bodies _ Hinv _ _ Hb) as [u B].
  pose proof (bo_pc _ _ _ _ _ B) as Hst. rewrite Hpc in Hst. destruct Hst as (Hfst & _ & Hst).
  destruct (decide (b_gen b = generation u)) as [Hgen|Hgen].
  2: { left. destruct (finish_enabled r b Stale Hb) as [c' Hc']. exists (LBodyCancel r), c'.
       split_and!; [done|done|]. simpl. unfold body_cancelled. rewrite Hb. simpl. rewrite Hpc. simpl.
       rewrite (bool_decide_eq_true_2 (b_token b ∈ _)) by (by apply Hst). by rewrite orb_true_r. }
  destruct (results_dec (b_waits b)) as [[oks Hoks]|(k & [d pc] & Hk & Hw)].
  - left. exists (LDepsDone r). simpl. unfold body_deps_done. rewrite Hb. simpl.
    rewrite Hpc. simpl. rewrite Hoks. simpl. destruct (forallb id oks); [by eexists|].
    destruct (finish_enabled r b Failed Hb) as [c' Hc']. by exists c'.
  - pose proof (list_elem_of_lookup_2 _ _ _ Hk) as Hin. pose proof (bo_waits _ _ _ _ _ B) as Hall.
    rewrite Forall_forall in Hall.
    assert (d ∈ b_acquired b) as Hd by (rewrite <- Hfst; apply list_elem_of_fmap; by exists (d, pc)).
    destruct (await_enabled c (Some (b_path b)) d pc Hinv Hi (body_holds c r b d Hi Hb Hd)
                (Hall _ Hin)) as [[[[g' bs'] pc'] Hres]|[[ok ->]|(r' & b' & -> & Hrd & Hb' & Hp)]].
    + left. exists (LBodyWait r k). simpl. rewrite Hb. simpl. rewrite Hk. simpl. rewrite Hres.
      simpl. by eexists.
    + by destruct (Hw ok).
    + right. exists d, r', b'. split_and!; [|done|done].
      exists r, b, u, r', (mkRound false Stale). split_and!; try done. apply B.
Qed.

Lemma bodies_progress : bodies c ≠ ∅ → can_move c.
Proof.
  intros Hne. apply map_choose in Hne as (r & b & Hb).
  assert (∀ x, tc (waits_on (gr c) (bodies c)) (b_path b) x → x ∈ dom (units (gr c))) as Hdom.
  { intros x. induction 1 as [a z Hz|]; [|done].
    apply (waits_on_wait_edge c) in Hz as [_ Hz]; [|done]. apply elem_of_dom.
    unfold is_compiling in Hz. destruct (units (gr c) !! z); [by eexists|done]. }
  assert (sn (waits_on (gr c) (bodies c)) (b_path b)) as Hsn.
  { apply tc_finite_sn; [exact (inv_acyclic _ Hinv)|]. exists (elements (dom (units (gr c)))).
    intros x Hx. by apply elem_of_elements, Hdom. }
  clear Hdom. remember (b_path b) as x eqn:Ex. revert r b Hb Ex.
  induction Hsn as [x _ IH]; intros r b Hb ->. destruct (b_pc b) eqn:Hpc.
  - by eapply start_enabled.
  - destruct (wait_enabled r b Hb Hpc) as [?|(y & r' & b' & Hon & Hb' & Hp)]; [done|].
    by apply (IH y Hon r' b').
  - by eapply dispatch_enabled.
Qed.

Lemma reqs_progress : bodies c = ∅ → reqs c ≠ ∅ → can_move c.
Proof.
  intros Hnob Hne. apply map_choose in Hne as (id & q & Hq).
  destruct (inv_reqs _ Hinv _ _ Hq) as [Hall Hfst]. rewrite Forall_forall in Hall.
  destruct (results_dec (r_waits q)) as [[oks Hoks]|(k & [d pc] & Hk & Hw)].
  - exists (LReqDone id). pose proof (safe_end_request c id q Hi Hq) as Hs. simpl.
    rewrite Hq. simpl. rewrite Hoks. simpl. unfold end_request in *.
    destruct (release_all (r_held q) (gr c)); simpl in *; [by eexists|done].
  - pose proof (list_elem_of_lookup_2 _ _ _ Hk) as Hin.
    assert (d ∈ r_held q) as Hd by (rewrite <- Hfst; apply list_elem_of_fmap; by exists (d, pc)).
    destruct (await_enabled c None d pc Hinv Hi (req_holds c id q d Hi Hq Hd) (Hall _ Hin))
      as [[[[g' bs'] pc'] Hres]|[[ok ->]|(r' & b' & -> & Hrd & Hb' & Hp)]].
    + exists (LReqWait id k). simpl. rewrite Hq. simpl. rewrite Hk. simpl. rewrite Hres. simpl.
      by eexists.
    + by destruct (Hw ok).
    + by rewrite Hnob, lookup_empty in Hb'.
Qed.
End Progress.

(** C39. No deadlock: as long as a task or a request is alive, the graph can move
    by itself (a task starts, a wait returns, a compilation finishes), provided
    the 32-bit counters can take the references of the tasks about to start.  In
    particular a cycle of imports never blocks: it is cut by [has_wait_cycle]. *)
Theorem progress (c : config) :
  reachable c → bodies c ≠ ∅ ∨ reqs c ≠ ∅ →
  (∀ r b, bodies c !! r = Some b → b_pc b = BStart →
     refs_fit (length (dependencies_of (gr c) (b_path b)))
       (ensure_resolved [] (b_path b) (gr c)) = true) →
  ∃ l c', internal l = true ∧ fits l c = true ∧ exec l c = Ok c'.
Proof.
  intros Hr Hne Hfit. pose proof (reachable_inv _ Hr) as Hinv. pose proof (reachable_interest _ Hr).
  destruct (decide (bodies c = ∅)) as [E|E]; [|by apply bodies_progress].
  destruct Hne; [done|by apply reqs_progress].
Qed.

(** Units 1 and 2 import each other. *)
Definition cyclic_labels : list label :=
  [LCompile 0 1; LReqWait 0 0; LReqWait 0 0; LBodyStart 0 [2]; LBodyWait 0 0; LBodyWait 0 0;
   LBodyStart 1 [1]].

Lemma progress_witness :
  ∃ l c', internal l = true ∧ fits l (run_to cyclic_labels) = true ∧ exec l (run_to cyclic_labels) = Ok c'.
Proof.
  apply progress.
  - apply run_to_reachable. vm_compute. reflexivity.
  - right. vm_compute. discriminate.
  - assert (forallb (λ e, bool_decide (b_pc e.2 ≠ BStart))
              (map_to_list (bodies (run_to cyclic_labels))) = true) as H
      by (vm_compute; reflexivity).
    intros r b Hb Hpc. exfalso.
    apply (proj1 (forallb_map (λ b, bool_decide (b_pc b ≠ BStart)) _) H) in Hb.
    by apply bool_decide_eq_true in Hb.
Defined.

(** Nothing leaks: once every task and every request is gone, the graph is
    [idle()]: no unit is compiling, no interest is left, every round is done. *)
Theorem quiescent_idle (c : config) :
  reachable c → bodies c = ∅ → reqs c = ∅ → idle (gr c) = true.
Proof.
  intros Hr Hb Hq. pose proof (reachable_inv _ Hr) as Hinv.
  set (P := λ u : CompileUnit,
    negb (compiling u) && bool_decide (refcount u = 0) && round_done (gr c) u).
  apply (proj2 (forallb_map P (units (gr c)))). intros x u Hx. unfold P. pose proof (inv_units _ Hinv _ _ Hx) as U.
  destruct (compiling u) eqn:Hc.
  { destruct (uo_body _ _ _ _ U Hc) as (r & b & _ & Hbr & _). by rewrite Hb, lookup_empty in Hbr. }
  pose proof (in_count _ (reachable_interest _ Hr) x) as Hrc. unfold holders in Hrc.
  rewrite Hb, Hq, !msum_empty in Hrc. unfold refcount_of in Hrc. rewrite Hx in Hrc.
  rewrite Hrc, bool_decide_eq_true_2 by done. simpl. by apply U.
Qed.

Lemma quiescent_idle_witness : idle (gr (run_to sample_labels)) = true.
Proof.
  apply quiescent_idle.
  - apply run_to_reachable. vm_compute. reflexivity.
  - vm_compute. reflexivity.
  - vm_compute. reflexivity.
Defined.

(** No orphan rounds: while the graph is open, a running round nobody is
    interested in has been cancelled, or its deferred [zero_interest_check] is
    still scheduled; running that check cancels it unless interest returned. *)
Theorem no_orphan_round (c : config) (x : Z) :
  reachable c → closed (gr c) = false → is_compiling (gr c) x = true → holders c x = 0%nat →
  (∀ r b, bodies c !! r = Some b → b_path b = x → b_token b ∈ cancelled (gr c)) ∨
  x ∈ zero_tasks (gr c).
Proof.
  intros Hr Hcl Hx Hh. destruct (reachable_interest _ Hr) as [Hc [Hp Hz]].
  destruct (Hz x Hx) as [?|[Hpend|Hd]]; [by rewrite Hc, Hh|congruence| |by left].
  destruct (Hp x Hpend) as [?|?]; [congruence|by right].
Qed.

(** A request for unit 1 is cancelled while unit 1 compiles. *)
Definition orphan_labels : list label :=
  [LCompile 0 1; LReqWait 0 0; LBodyStart 0 []; LReqCancel 0].

Lemma no_orphan_round_witness :
  (∀ r b, bodies (run_to orphan_labels) !! r = Some b → b_path b = 1 →
     b_token b ∈ cancelled (gr (run_to orphan_labels))) ∨ 1 ∈ zero_tasks (gr (run_to orphan_labels)).
Proof.
  apply no_orphan_round.
  - apply run_to_reachable. vm_compute. reflexivity.
  - vm_compute. reflexivity.
  - vm_compute. reflexivity.
  - vm_compute. reflexivity.
Defined.

(** ** Shutdown *)

Lemma closed_release_all ids g g' : release_all ids g = Some g' → closed g' = closed g.
Proof.
  revert g. induction ids as [|p ids IH]; intros g; simpl; [by intros [= <-]|].
  destruct (release p g) as [g1|] eqn:E; [|done]. intros H. rewrite (IH g1 H).
  revert E. unfold release. destruct (units g !! p); [|done]. case_decide; [|done].
  destruct (_ && _ && _); [|by intros [= <-]]. destruct (closed g) eqn:Hc; by intros [= <-].
Qed.

Lemma finish_closed r b o c c' :
  finish r b o c = Ok c' → closed (gr c') = closed (gr c) ∧ bodies c' = delete r (bodies c).
Proof.
  unfold finish. intros H. apply bind_read in H as (u & _ & H). destruct (negb _); [done|].
  apply bind_read in H as (g3 & Hrel & H). simplify_eq/=. by rewrite (closed_release_all _ _ _ Hrel).
Qed.

(** [shutdown] drains: once the task group is closed, cancelling the live
    tasks one after the other removes them all, whatever they wait for; and no
    wait starts a new task. *)
Theorem shutdown_drains (c : config) :
  reachable c → closed (gr c) = true →
  (∀ r b, bodies c !! r = Some b → b_pc b ≠ BStart) →
  (∃ c', rtc step c c' ∧ bodies c' = ∅ ∧ closed (gr c') = true) ∧
  (∀ waiter d pc g' bs' pc',
     await_step waiter d pc (gr c) (bodies c) = Ok (g', bs', pc') → bs' = bodies c).
Proof.
  intros Hr Hcl Hst. split.
  - remember (size (bodies c)) as n eqn:En. revert c Hr Hcl Hst En.
    induction n as [|n IH]; intros c Hr Hcl Hst En.
    { exists c. split_and!; [done|by apply map_size_empty_inv|done]. }
    assert (bodies c ≠ ∅) as Hne by (intros E; rewrite E, map_size_empty in En; done).
    apply map_choose in Hne as (r & b & Hb).
    destruct (finish_enabled c (reachable_inv _ Hr) (reachable_interest _ Hr) r b Stale Hb)
      as [c1 Hc1].
    destruct (finish_closed _ _ _ _ _ Hc1) as [Hcl1 Hbs].
    assert (step c c1) as Hstep.
    { exists (LBodyCancel r). split; [done|]. simpl. unfold body_cancelled. rewrite Hb. simpl.
      rewrite bool_decide_eq_true_2 by (by eapply Hst). simpl. by rewrite Hcl. }
    destruct (IH c1) as (c' & Hrtc & Hc').
    + unfold reachable in *. by eapply rtc_r.
    + congruence.
    + intros r1 b1. rewrite Hbs, lookup_delete. case_decide; [done|]. apply Hst.
    + rewrite Hbs, map_size_delete, Hb. simpl. lia.
    + exists c'. split; [by eapply rtc_l|done].
  - intros waiter d pc g' bs' pc'. destruct pc as [| |r|ok]; simpl; [| | |done].
    + intros H. apply bind_read in H as (u & Hu & H). destruct (dirty u); simpl in H; [|by simplify_eq].
      destruct (compiling u) eqn:Hc; [by simplify_eq|].
      rewrite (spawn_unit_eq _ _ _ u), Hcl in H by done. by simplify_eq/=.
    + intros H. apply bind_read in H as (u & Hu & H). apply bind_read in H as (r & _ & H).
      apply bind_read in H as (rd & _ & H). destruct waiter; [|by simplify_eq].
      destruct (completion rd); [by simplify_eq|]. by destruct (has_wait_cycle _ _ _) as [[]|]; simplify_eq.
    + intros H. apply bind_read in H as (rd & _ & H). apply bind_guard in H as [_ H]. by simplify_eq.
Qed.

Definition shutdown_labels : list label := take 7 sample_labels ++ [LShutdown].

Lemma shutdown_drains_witness :
  (∃ c', rtc step (run_to shutdown_labels) c' ∧ bodies c' = ∅ ∧ closed (gr c') = true) ∧
  (∀ waiter d pc g' bs' pc',
     await_step waiter d pc (gr (run_to shutdown_labels)) (bodies (run_to shutdown_labels)) =
       Ok (g', bs', pc') → bs' = bodies (run_to shutdown_labels)).
Proof.
  apply shutdown_drains.
  - apply run_to_reachable. vm_compute. reflexivity.
  - vm_compute. reflexivity.
  - assert (forallb (λ e, bool_decide (b_pc e.2 ≠ BStart))
              (map_to_list (bodies (run_to shutdown_labels))) = true) as H
      by (vm_compute; reflexivity).
    intros r b Hb. apply (proj1 (forallb_map (λ b, bool_decide (b_pc b ≠ BStart)) _) H) in Hb.
    by apply bool_decide_eq_true in Hb.
Defined.

(** The edges stay symmetric whatever happens: in every reachable
    configuration [d] is a dependency of [u] exactly when [u] is a dependent of
    [d], and a unit that must be resolved again has no dependency left. *)
Theorem edges_always_symmetric (c : config) :
  reachable c →
  (∀ u d, d ∈ dependencies_of (gr c) u ↔ u ∈ dependents_of (gr c) d) ∧
  (∀ x u, units (gr c) !! x = Some u → resolved u = false → dependencies u = []).
Proof. intros Hr. by destruct (inv_edges _ (reachable_inv _ Hr)). Qed.

Lemma edges_always_symmetric_witness :
  (∀ u d, d ∈ dependencies_of (gr (run_to sample_labels)) u ↔
          u ∈ dependents_of (gr (run_to sample_labels)) d) ∧
  (∀ x u, units (gr (run_to sample_labels)) !! x = Some u → resolved u = false →
          dependencies u = []).
Proof. apply edges_always_symmetric. apply run_to_reachable. vm_compute. reflexivity. Defined.
