(* ===== verification/FuzzyMatcher.v ===== *)
(** * Fuzzy matching of identifiers (src/support/fuzzy_matcher.{h,cpp})

    [FuzzyMatcher] scores a word against a pattern with a dynamic program over
    (pattern position, word position, last action).  The model keeps every
    array of the class; reading a cell that was never written, or outside an
    array, is a [Fault].  The two lookup tables are the packed tables of the
    source; [char_signed] says whether plain [char] is signed on the target.
    Scores are 15-bit fields, the final score is a 32-bit IEEE float. *)
From S2P Require Import Prelude.
From Stdlib Require Import SpecFloat.
Local Open Scope Z_scope.
Local Open Scope cpp_scope.

(** ** Character classes *)

Inductive CharType := Empty | Lower | Upper | Punctuation.

Inductive CharRole := Unknown | Tail | Head | Separator.

Global Instance CharType_eq_dec : EqDecision CharType.
Proof. solve_decision. Defined.
Global Instance CharRole_eq_dec : EqDecision CharRole.
Proof. solve_decision. Defined.

Definition type_of_Z (z : Z) : CharType :=
  match z with 0 => Empty | 1 => Lower | 2 => Upper | _ => Punctuation end.
Definition Z_of_type (t : CharType) : Z :=
  match t with Empty => 0 | Lower => 1 | Upper => 2 | Punctuation => 3 end.
Definition role_of_Z (z : Z) : CharRole :=
  match z with 0 => Unknown | 1 => Tail | 2 => Head | _ => Separator end.

Definition CharTypes : list Z :=
  [0x00; 0x00; 0x00; 0x00;
   0x00; 0x00; 0x00; 0x00;
   0xff; 0xff; 0xff; 0xff;
   0x55; 0x55; 0xf5; 0xff;
   0xab; 0xaa; 0xaa; 0xaa;
   0xaa; 0xaa; 0xea; 0xff;
   0x57; 0x55; 0x55; 0x55;
   0x55; 0x55; 0xd5; 0x3f;
   0x55; 0x55; 0x55; 0x55; 0x55; 0x55; 0x55; 0x55;
   0x55; 0x55; 0x55; 0x55; 0x55; 0x55; 0x55; 0x55;
   0x55; 0x55; 0x55; 0x55; 0x55; 0x55; 0x55; 0x55; 0x55; 0x55; 0x55; 0x55; 0x55; 0x55; 0x55; 0x55].

Definition CharRoles : list Z :=
  [0x00; 0xaa; 0xaa; 0xff;
   0x00; 0x55; 0xaa; 0xff;
   0x00; 0x55; 0x59; 0xff;
   0x00; 0xaa; 0xaa; 0xff].

Abbreviation result A := (Res unit A).

(** [Data[I >> 2]] with a negative or too large index is out of bounds. *)
Definition packed_lookup (Data : list Z) (I : Z) : result Z :=
  let i := Z.shiftr I 2 in
  let? d := read (if decide (0 ≤ i) then Data !! Z.to_nat i else None) in
  Ok (Z.land (Z.shiftr d (Z.land I 3 * 2)) 3).

Definition char_type (char_signed : bool) (c : ascii) : result CharType :=
  let? t := packed_lookup CharTypes (char_value char_signed c) in Ok (type_of_Z t).

(** [((types << 2) | T) & 0x3f]. *)
Definition rotate (types : Z) (T : CharType) : Z :=
  Z.land (Z.lor (Z.shiftl types 2) (Z_of_type T)) 0x3f.

(** The loop of [calculate_roles], over the characters after the first. *)
Fixpoint roles_loop (char_signed : bool) (rest : bytes) (types TypeSet : Z) (roles : list CharRole)
  : result (Z * list CharRole) :=
  match rest with
  | [] =>
    let? r := packed_lookup CharRoles (rotate types Empty) in
    Ok (TypeSet, roles ++ [role_of_Z r])
  | c :: rest =>
    let? t := char_type char_signed c in
    let types' := rotate types t in
    let? r := packed_lookup CharRoles types' in
    roles_loop char_signed rest types' (Z.lor TypeSet (Z.shiftl 1 (Z_of_type t)))
      (roles ++ [role_of_Z r])
  end.

Definition calculate_roles (char_signed : bool) (text : bytes) : result (Z * list CharRole) :=
  match text with
  | [] => Ok (0, [])
  | c :: rest =>
    let? t := char_type char_signed c in
    roles_loop char_signed rest (Z_of_type t) (Z.shiftl 1 (Z_of_type t)) []
  end.

(** ** The matcher *)

Definition MaxPat : nat := 63.
Definition MaxWord : nat := 127.
Definition AwfulScore : Z := - Z.shiftl 1 13.
Definition PerfectBonus : Z := 4.

(** [S < AwfulScore / 2]. *)
Definition is_awful (S : Z) : bool := bool_decide (S < Z.quot AwfulScore 2).

(** [using Action = bool]. *)
Abbreviation Miss := false (only parsing).
Abbreviation Match := true (only parsing).

Definition lower (c : ascii) : ascii :=
  if decide (65 ≤ code c ≤ 90) then ascii_of_N (Z.to_N (code c + 32)) else c.

(** [signed int score : 15]. *)
Definition s15 (z : Z) : Z := (z + 2 ^ 14) mod 2 ^ 15 - 2 ^ 14.

Record ScoreInfo := mkScore {
  score : Z;
  Prev : bool;
}.

Definition Score (z : Z) (prev : bool) : ScoreInfo := mkScore (s15 z) prev.

Abbreviation table := (gmap (nat * nat * bool) ScoreInfo).

(** IEEE single precision. *)
Definition f32_of_Z (n : Z) : spec_float := binary_normalize 24 128 n 0 false.
Definition f32_div : spec_float → spec_float → spec_float := SFdiv 24 128.
Definition f32_mul : spec_float → spec_float → spec_float := SFmul 24 128.

Record FuzzyMatcher := mkMatcher {
  Pat : bytes;
  pat_n : nat;
  low_pat : bytes;
  pat_role : list CharRole;
  pat_type_set : Z;
  score_scale : spec_float;
  word : bytes;
  word_n : nat;
  low_word : bytes;
  word_role : list CharRole;
  word_type_set : Z;
  word_contains_pattern : bool;
  scores : table;
}.

(** [std::copy(new, array)]: the tail of the array keeps its contents. *)
Definition overwrite {A} (new array : list A) : list A := new ++ drop (length new) array.

(** The boundary cells the constructor fills. *)
Definition init_scores (n : nat) : table :=
  let t0 : table := <[(0, 0, Match)%nat := Score AwfulScore Miss]>
                      (<[(0, 0, Miss)%nat := Score 0 Miss]> ∅) in
  foldl (λ t P, foldl (λ t W,
      <[(P, W, Match) := Score AwfulScore Miss]> (<[(P, W, Miss) := Score AwfulScore Miss]> t))
    t (seq 0 P)) t0 (seq 0 (S n)).

Definition new_matcher (char_signed : bool) (pattern : bytes) : result FuzzyMatcher :=
  let n := Nat.min MaxPat (length pattern) in
  let P := take n pattern in
  let scale := if decide (n = 0%nat) then f32_of_Z 0
               else f32_div (f32_of_Z 1) (f32_of_Z (PerfectBonus * Z.of_nat n)) in
  let? roles := calculate_roles char_signed P in
  Ok (mkMatcher P n (lower <$> P) roles.2 roles.1 scale [] 0 [] [] 0 false (init_scores n)).

Definition set_word (w : bytes) (n : nat) (m : FuzzyMatcher) : FuzzyMatcher :=
  mkMatcher (Pat m) (pat_n m) (low_pat m) (pat_role m) (pat_type_set m) (score_scale m)
    w n (low_word m) (word_role m) (word_type_set m) (word_contains_pattern m) (scores m).
Definition set_low_word (w : bytes) (m : FuzzyMatcher) : FuzzyMatcher :=
  mkMatcher (Pat m) (pat_n m) (low_pat m) (pat_role m) (pat_type_set m) (score_scale m)
    (word m) (word_n m) w (word_role m) (word_type_set m) (word_contains_pattern m) (scores m).
Definition set_word_roles (ts : Z) (rs : list CharRole) (m : FuzzyMatcher) : FuzzyMatcher :=
  mkMatcher (Pat m) (pat_n m) (low_pat m) (pat_role m) (pat_type_set m) (score_scale m)
    (word m) (word_n m) (low_word m) rs ts (word_contains_pattern m) (scores m).
Definition set_contains (b : bool) (m : FuzzyMatcher) : FuzzyMatcher :=
  mkMatcher (Pat m) (pat_n m) (low_pat m) (pat_role m) (pat_type_set m) (score_scale m)
    (word m) (word_n m) (low_word m) (word_role m) (word_type_set m) b (scores m).
Definition set_scores (t : table) (m : FuzzyMatcher) : FuzzyMatcher :=
  mkMatcher (Pat m) (pat_n m) (low_pat m) (pat_role m) (pat_type_set m) (score_scale m)
    (word m) (word_n m) (low_word m) (word_role m) (word_type_set m) (word_contains_pattern m) t.

(** The subsequence check of [init]; [n] is [word_n - W]. *)
Fixpoint subsequence_loop (m : FuzzyMatcher) (n W P : nat) : result bool :=
  if decide (P = pat_n m) then Ok true
  else
    match n with
    | O => Ok false
    | S n =>
      let? w := read (low_word m !! W) in
      let? p := read (low_pat m !! P) in
      subsequence_loop m n (S W) (if decide (w = p) then S P else P)
    end.

Definition init (char_signed : bool) (m : FuzzyMatcher) (new_word : bytes)
  : result (FuzzyMatcher * bool) :=
  let n := Nat.min MaxWord (length new_word) in
  if decide (n < pat_n m)%nat then Ok (set_word (word m) n m, false)
  else
    let m1 := set_word (overwrite (take n new_word) (word m)) n m in
    if decide (pat_n m = 0%nat) then Ok (m1, true)
    else
      let m2 := set_low_word (overwrite (lower <$> take n (word m1)) (low_word m1)) m1 in
      let? contains := subsequence_loop m2 n 0 0 in
      if contains : bool then
        let? roles := calculate_roles char_signed (take n (word m2)) in
        Ok (set_word_roles roles.1 (overwrite roles.2 (word_role m2)) m2, true)
      else Ok (m2, false).

Definition allow_match (m : FuzzyMatcher) (P W : nat) (last : bool) : result bool :=
  let? p := read (low_pat m !! P) in
  let? lw := read (low_word m !! W) in
  if decide (p ≠ lw) then Ok false
  else if decide (last = Miss) then
    let? role := read (word_role m !! W) in
    let? w := read (word m !! W) in
    Ok (negb (bool_decide (role = Tail) &&
              (bool_decide (w = lw) ||
               bool_decide (Z.land (word_type_set m) (Z.shiftl 1 (Z_of_type Lower)) = 0))))
  else Ok true.

Definition skip_penalty (m : FuzzyMatcher) (W : nat) (last : bool) : result Z :=
  if decide (W = 0%nat) then Ok 3
  else
    let? role := read (word_role m !! W) in
    Ok (if decide (role = Head) then 1 else 0).

Definition match_bonus (m : FuzzyMatcher) (P W : nat) (last : bool) : result Z :=
  let? lp := read (low_pat m !! P) in
  let? lw := read (low_word m !! W) in
  let? p := read (Pat m !! P) in
  let? w := read (word m !! W) in
  let? prole := read (pat_role m !! P) in
  let? wrole := read (word_role m !! W) in
  if decide (lp ≠ lw) then Fault
  else
    let is_pat_single_case :=
      bool_decide (pat_type_set m = Z.shiftl 1 (Z_of_type Lower)) ||
      bool_decide (pat_type_set m = Z.shiftl 1 (Z_of_type Upper)) in
    let S0 := 1 in
    let S1 := if bool_decide (p = w) ||
                 (bool_decide (wrole = Head) && (is_pat_single_case || bool_decide (prole = Head)))
              then S0 + 1 else S0 in
    let S2 := if bool_decide (W = 0%nat) || bool_decide (last = Match) then S1 + 2 else S1 in
    let S3 := if bool_decide (wrole = Tail) && bool_decide (P ≠ 0%nat) && bool_decide (last = Miss)
              then S2 - 3 else S2 in
    let S4 := if bool_decide (prole = Head) && bool_decide (wrole = Tail) then S3 - 1 else S3 in
    let S5 := if bool_decide (P = 0%nat) && bool_decide (wrole = Tail) then S4 - 4 else S4 in
    if decide (S5 ≤ PerfectBonus) then Ok S5 else Fault.

(** [build_graph]: the row of the empty pattern prefix, then the others. *)
Definition first_row_step (m : FuzzyMatcher) (W : nat) (t : table) : result table :=
  let? c := read (t !! (0, W, Miss)%nat) in
  let? pen := skip_penalty m W Miss in
  Ok (<[(0, S W, Match)%nat := Score AwfulScore Miss]>
        (<[(0, S W, Miss)%nat := Score (score c - pen) Miss]> t)).

Definition cell_step (m : FuzzyMatcher) (P W : nat) (t : table) : result table :=
  let? preMatch := read (t !! (S P, W, Match)) in
  let? preMiss := read (t !! (S P, W, Miss)) in
  let? penMatch := (if decide (P < pat_n m - 1)%nat then skip_penalty m W Match else Ok 0) in
  let? penMiss := (if decide (P < pat_n m - 1)%nat then skip_penalty m W Miss else Ok 0) in
  let match_miss_score := score preMatch - penMatch in
  let miss_miss_score := score preMiss - penMiss in
  let t1 := <[(S P, S W, Miss) :=
                if decide (miss_miss_score < match_miss_score) then Score match_miss_score Match
                else Score miss_miss_score Miss]> t in
  let? pmMatch := read (t1 !! (P, W, Match)) in
  let? pmMiss := read (t1 !! (P, W, Miss)) in
  let? okMatch := allow_match m P W Match in
  let? match_match_score :=
    (if okMatch : bool then let? b := match_bonus m P W Match in Ok (score pmMatch + b)
     else Ok AwfulScore) in
  let? okMiss := allow_match m P W Miss in
  let? miss_match_score :=
    (if okMiss : bool then let? b := match_bonus m P W Miss in Ok (score pmMiss + b)
     else Ok AwfulScore) in
  Ok (<[(S P, S W, Match) :=
          if decide (miss_match_score < match_match_score) then Score match_match_score Match
          else Score miss_match_score Miss]> t1).

Definition build_graph (m : FuzzyMatcher) : result FuzzyMatcher :=
  let? t1 := for_each (seq 0 (word_n m)) (first_row_step m) (scores m) in
  let? t2 := for_each (seq 0 (pat_n m))
    (λ P t, for_each (seq P (word_n m - P)) (cell_step m P) t) t1 in
  Ok (set_scores t2 m).

(** [score_scale * min(PerfectBonus * pat_n, max(0, best))], doubled when the
    pattern is as long as the word. *)
Definition final_score (m : FuzzyMatcher) (best : Z) : spec_float :=
  let s := f32_mul (score_scale m)
             (f32_of_Z (Z.min (PerfectBonus * Z.of_nat (pat_n m)) (Z.max 0 best))) in
  if decide (word_n m = pat_n m) then f32_mul s (f32_of_Z 2) else s.

(** [match]. *)
Definition match_word (char_signed : bool) (m : FuzzyMatcher) (w : bytes)
  : result (FuzzyMatcher * option spec_float) :=
  let? r := init char_signed m w in
  let m1 := set_contains r.2 r.1 in
  if negb r.2 then Ok (m1, None)
  else if decide (pat_n m1 = 0%nat) then Ok (m1, Some (f32_of_Z 1))
  else
    let? m2 := build_graph m1 in
    let? cMiss := read (scores m2 !! (pat_n m2, word_n m2, Miss)) in
    let? cMatch := read (scores m2 !! (pat_n m2, word_n m2, Match)) in
    let best := Z.max (score cMiss) (score cMatch) in
    if is_awful best then Ok (m2, None) else Ok (m2, Some (final_score m2 best)).

(** The traceback of [dumpLast]: the actions [A], last word position first;
    [P] is the [P + 1] of the source. *)
Fixpoint trace_actions (m : FuzzyMatcher) (W P : nat) (last : bool) : result (list bool) :=
  match W with
  | O => Ok []
  | S W' =>
    let? cell := read (scores m !! (P, W, last)) in
    let? P' := (if decide (last = Match)
                then match P with O => Fault | S P' => Ok P' end else Ok P) in
    let? _ := read (scores m !! (P', W', Prev cell)) in
    let? rest := trace_actions m W' P' (Prev cell) in
    Ok (rest ++ [last])
  end.

(** The bracketed word: [prev] is [A[I - 1]] ([Miss] before the start). *)
Fixpoint bracket (prev : bool) (A : list bool) (w : bytes) : bytes :=
  match A, w with
  | a :: A, c :: w =>
    (if decide (a = Match ∧ prev = Miss) then ["["%char]
     else if decide (a = Miss ∧ prev = Match) then ["]"%char] else []) ++ c :: bracket a A w
  | _, _ => if decide (prev = Match) then ["]"%char] else []
  end.

(** The string [dumpLast] returns. *)
Definition dumpLast (m : FuzzyMatcher) : result bytes :=
  if decide (pat_n m = 0%nat) then Ok (take (word_n m) (word m))
  else if decide (word_n m = 0%nat) then Ok []
  else if negb (word_contains_pattern m) then Ok []
  else
    let? cMatch := read (scores m !! (pat_n m, word_n m, Match)) in
    let? cMiss := read (scores m !! (pat_n m, word_n m, Miss)) in
    let last := bool_decide (score cMiss < score cMatch) in
    let? A := trace_actions m (word_n m) (pat_n m) last in
    Ok (bracket Miss A (take (word_n m) (word m))).
