(* ===== verification/FuzzyAlign.v ===== *)
(** * Alignments: what the dynamic program of FuzzyMatcher.v computes

    An alignment says for every word character whether it is matched or
    skipped.  This file gives alignments their score, as the comment at the top
    of src/support/fuzzy_matcher.cpp describes it, and proves that the recurrence
    of [build_graph] computes the best one. *)
From S2P Require Import Prelude FuzzyMatcher.
Local Open Scope Z_scope.

(** ** Best values of a set of scores

    [cand X n z]: [z] is the greatest element of [X], within [n] of zero, or
    [X] is empty and [z] is within [n] of [AwfulScore]. *)
Definition cand (X : Z → Prop) (n z : Z) : Prop :=
  (X z ∧ (∀ v, X v → v ≤ z) ∧ - n ≤ z ≤ n) ∨
  ((∀ v, ¬ X v) ∧ - n ≤ z - AwfulScore ≤ n).

Lemma cand_union X Y n a b :
  cand X n a → cand Y n b → n < 4096 → cand (λ v, X v ∨ Y v) n (Z.max a b).
Proof.
  unfold cand. change AwfulScore with (-8192).
  intros [(HX & HmX & ?)|[HX ?]] [(HY & HmY & ?)|[HY ?]] Hn.
  - left. destruct (Z.max_spec a b) as [[? ->]|[? ->]]; split_and!; [by right| |lia|lia|by left| |lia|lia].
    + intros v [Hv|Hv]; [specialize (HmX v Hv)|specialize (HmY v Hv)]; lia.
    + intros v [Hv|Hv]; [specialize (HmX v Hv)|specialize (HmY v Hv)]; lia.
  - left. rewrite Z.max_l by lia. split_and!; [by left| |lia|lia].
    intros v [Hv|Hv]; [by apply HmX|by destruct (HY v)].
  - left. rewrite Z.max_r by lia. split_and!; [by right| |lia|lia].
    intros v [Hv|Hv]; [by destruct (HX v)|by apply HmY].
  - right. split; [intros v [Hv|Hv]; [by apply (HX v)|by apply (HY v)]|lia].
Qed.

Lemma cand_shift X n z d :
  cand X n z → - 4 ≤ d ≤ 4 → cand (λ v, X (v - d)) (n + 4) (z + d).
Proof.
  intros [(HX & Hm & ?)|[HX ?]] Hd.
  - left. rewrite Z.add_simpl_r. split_and!; [done| |lia|lia].
    intros v Hv. specialize (Hm _ Hv). lia.
  - right. split; [intros v; apply HX|lia].
Qed.

Lemma cand_none n : 0 ≤ n → cand (λ _, False) n AwfulScore.
Proof. intros. right. split; [tauto|lia]. Qed.

Lemma cand_ext X Y n z : (∀ v, X v ↔ Y v) → cand X n z → cand Y n z.
Proof. intros HXY. unfold cand. setoid_rewrite HXY. done. Qed.

Lemma cand_weaken X n m z : n ≤ m → cand X n z → cand X m z.
Proof. intros ? [(?&?&?)|[? ?]]; [left; split_and!; try done; lia|right; split; [done|lia]]. Qed.

(** ** Alignments *)

Section Align.
Context (pn wn : nat).
Context (allow : nat → nat → bool → bool).
Context (pen : nat → bool → Z).
Context (bonus : nat → nat → bool → Z).

(** Skipping trailing characters is free. *)
Definition miss_pen (P W : nat) (last : bool) : Z :=
  if decide (P < pn)%nat then pen W last else 0.

(** Word position, pattern position, last action, score so far. *)
Abbreviation state := (nat * nat * bool * Z)%type.

Definition act_step (st : option state) (a : bool) : option state :=
  match st with
  | None => None
  | Some (W, P, last, v) =>
    if a then
      if bool_decide (P < pn)%nat && allow P W last
      then Some (S W, S P, Match, v + bonus P W last) else None
    else Some (S W, P, Miss, v - miss_pen P W last)
  end.

Definition align (acts : list bool) : option state :=
  foldl act_step (Some (0%nat, 0%nat, Miss, 0)) acts.

(** The scores of the alignments that end in a given cell. *)
Definition reaches (W P : nat) (A : bool) (v : Z) : Prop :=
  ∃ acts, align acts = Some (W, P, A, v).

Lemma align_snoc acts a : align (acts ++ [a]) = act_step (align acts) a.
Proof. unfold align. by rewrite foldl_app. Qed.

Lemma align_shape acts W P A v :
  align acts = Some (W, P, A, v) → W = length acts ∧ (P ≤ W)%nat ∧ (A = Match → 1 ≤ P)%nat.
Proof.
  revert W P A v. induction acts as [|a acts IH] using rev_ind; intros W P A v.
  { intros [= <- <- <- <-]. done. }
  rewrite align_snoc. unfold act_step. destruct (align acts) as [[[[W0 P0] A0] v0]|]; [|done].
  destruct (IH _ _ _ _ eq_refl) as (-> & ? & ?). rewrite length_app. simpl.
  destruct a; [|intros [= <- <- <- <-]; split_and!; [lia|lia|done]].
  destruct (_ && _); [|done]. intros [= <- <- <- <-]. lia.
Qed.

Lemma reaches_beyond W P A v : (W < P)%nat → ¬ reaches W P A v.
Proof. intros Hlt [acts Ha]. apply align_shape in Ha. lia. Qed.

Lemma reaches_row0 W v : ¬ reaches W 0 Match v.
Proof. intros [acts Ha]. apply align_shape in Ha. naive_solver lia. Qed.

(** An alignment that ends with a skip. *)
Lemma reaches_miss W P v :
  reaches (S W) P Miss v ↔
  reaches W P Match (v - - miss_pen P W Match) ∨ reaches W P Miss (v - - miss_pen P W Miss).
Proof.
  split.
  - intros [acts Ha]. destruct acts as [|a acts _] using rev_ind; [done|].
    rewrite align_snoc in Ha. unfold act_step in Ha.
    destruct (align acts) as [[[[W0 P0] A0] v0]|] eqn:E; [|done].
    destruct a; [by destruct (_ && _); simplify_eq|]. simplify_eq.
    destruct A0; [left|right]; exists acts; rewrite E; do 2 f_equal; lia.
  - intros [[acts Ha]|[acts Ha]]; exists (acts ++ [Miss]); rewrite align_snoc, Ha; simpl;
      do 2 f_equal; lia.
Qed.

(** An alignment that ends with a match. *)
Lemma reaches_match W P v :
  (P < pn)%nat →
  reaches (S W) (S P) Match v ↔
  (allow P W Match = true ∧ reaches W P Match (v - bonus P W Match)) ∨
  (allow P W Miss = true ∧ reaches W P Miss (v - bonus P W Miss)).
Proof.
  intros HP. split.
  - intros [acts Ha]. destruct acts as [|a acts _] using rev_ind; [done|].
    rewrite align_snoc in Ha. unfold act_step in Ha.
    destruct (align acts) as [[[[W0 P0] A0] v0]|] eqn:E; [|done].
    destruct a; [|done].
    destruct (bool_decide (P0 < pn)%nat && allow P0 W0 A0) eqn:Hal; [|done]. simplify_eq.
    apply andb_true_iff in Hal as [_ Hal].
    destruct A0; [left|right]; (split; [done|]); exists acts; rewrite E; do 2 f_equal; lia.
  - intros [[Hal [acts Ha]]|[Hal [acts Ha]]]; exists (acts ++ [Match]); rewrite align_snoc, Ha;
      simpl; rewrite Hal, bool_decide_eq_true_2 by done; simpl; do 2 f_equal; lia.
Qed.

(** ** The recurrence *)

Definition cell_is (W P : nat) (A : bool) (z : Z) : Prop := cand (reaches W P A) (4 * Z.of_nat W) z.

Lemma cell_is_origin : cell_is 0 0 Miss 0.
Proof.
  left. split_and!; [by exists []| |lia|lia]. intros v [acts Ha].
  destruct (align_shape _ _ _ _ _ Ha) as (E & _). symmetry in E.
  apply nil_length_inv in E. subst acts. unfold align in Ha. simpl in Ha. by simplify_eq.
Qed.

Lemma cell_is_beyond W P A : (W < P)%nat → cell_is W P A AwfulScore.
Proof.
  intros. eapply cand_ext; [|apply cand_none; lia]. intros v. split; [done|].
  intros Hr. by eapply reaches_beyond.
Qed.

Lemma cell_is_row0 W : cell_is W 0 Match AwfulScore.
Proof.
  eapply cand_ext; [|apply cand_none; lia]. intros v. split; [done|].
  intros Hr. by eapply reaches_row0.
Qed.

Context (pen_range : ∀ W l, (W < wn)%nat → 0 ≤ pen W l ≤ 3).
Context (bonus_range : ∀ P W l, (P < pn)%nat → (W < wn)%nat → allow P W l = true →
                         - 4 ≤ bonus P W l ≤ 4).
Context (Hwn : (wn ≤ 127)%nat).

Lemma miss_pen_range P W l : (W < wn)%nat → - 4 ≤ - miss_pen P W l ≤ 4.
Proof.
  intros HW. unfold miss_pen. case_decide; [|lia]. pose proof (pen_range W l HW). lia.
Qed.

Lemma cell_is_miss W P zm zs :
  (W < wn)%nat → cell_is W P Match zm → cell_is W P Miss zs →
  cell_is (S W) P Miss (Z.max (zm - miss_pen P W Match) (zs - miss_pen P W Miss)).
Proof.
  intros HW Hm Hs. unfold cell_is.
  eapply cand_ext; [intros v; symmetry; apply reaches_miss|].
  replace (4 * Z.of_nat (S W)) with (4 * Z.of_nat W + 4) by lia.
  apply cand_union; [..|lia]; apply cand_shift; try done; by apply miss_pen_range.
Qed.

(** The candidate of one predecessor of a match. *)
Definition match_cand (P W : nat) (l : bool) (z : Z) : Z :=
  if allow P W l then z + bonus P W l else AwfulScore.

Lemma match_cand_ok W P l z :
  (P < pn)%nat → (W < wn)%nat → cell_is W P l z →
  cand (λ v, allow P W l = true ∧ reaches W P l (v - bonus P W l)) (4 * Z.of_nat (S W))
    (match_cand P W l z).
Proof.
  intros HP HW Hz. unfold match_cand. destruct (allow P W l) eqn:E.
  - replace (4 * Z.of_nat (S W)) with (4 * Z.of_nat W + 4) by lia.
    eapply cand_ext; [|by apply cand_shift, bonus_range; [exact Hz|..]].
    intros v. tauto.
  - eapply cand_ext; [|apply cand_none; lia]. intros v. naive_solver.
Qed.

Lemma cell_is_match W P zm zs :
  (P < pn)%nat → (W < wn)%nat → cell_is W P Match zm → cell_is W P Miss zs →
  cell_is (S W) (S P) Match (Z.max (match_cand P W Match zm) (match_cand P W Miss zs)).
Proof.
  intros HP HW Hm Hs. unfold cell_is.
  eapply cand_ext; [intros v; symmetry; by apply reaches_match|].
  apply cand_union; [by apply match_cand_ok|by apply match_cand_ok|lia].
Qed.

(** No score ever leaves its 15-bit field. *)
Lemma cell_is_fits W P A z : (W ≤ wn)%nat → cell_is W P A z → s15 z = z.
Proof.
  intros HW Hz. unfold s15. rewrite Z.mod_small; [lia|].
  destruct Hz as [(_ & _ & ?)|[_ ?]]; change AwfulScore with (-8192) in *; lia.
Qed.

(** A best score is recognised as such. *)
Lemma cell_is_awful W P A z :
  (W ≤ wn)%nat → cell_is W P A z → is_awful z = true ↔ ∀ v, ¬ reaches W P A v.
Proof.
  intros HW Hz. unfold is_awful. rewrite bool_decide_eq_true.
  change (Z.quot AwfulScore 2) with (-4096). change AwfulScore with (-8192) in *.
  destruct Hz as [(Hr & _ & ?)|[Hr ?]]; change AwfulScore with (-8192) in *.
  - split; [lia|]. intros Hno. by destruct (Hno z).
  - split; [done|lia].
Qed.
End Align.
