(* ===== verification/FuzzyTable.v ===== *)
(** * The score table of FuzzyMatcher.v

    [build_graph] fills every cell the later phases read, each with the best
    score of the alignments that end there (FuzzyAlign.v) and with a [Prev] flag
    that leads back along such an alignment. *)
From S2P Require Import Prelude FuzzyMatcher FuzzyAlign.
Local Open Scope Z_scope.

(** The values of the three heuristics where they do not fault. *)
Definition value {A} (d : A) (o : Res unit A) : A := match o with Ok a => a | _ => d end.
Definition allowb (m : FuzzyMatcher) (P W : nat) (l : bool) : bool :=
  value false (allow_match m P W l).
Definition penz (m : FuzzyMatcher) (W : nat) (l : bool) : Z := value 0 (skip_penalty m W l).
Definition bonusz (m : FuzzyMatcher) (P W : nat) (l : bool) : Z := value 0 (match_bonus m P W l).

(** The pattern arrays are full and the word arrays hold [word_n] characters. *)
Record word_ok (m : FuzzyMatcher) : Prop := {
  wo_pat : length (Pat m) = pat_n m;
  wo_low_pat : length (low_pat m) = pat_n m;
  wo_pat_role : length (pat_role m) = pat_n m;
  wo_word : (word_n m ≤ length (word m))%nat;
  wo_low_word : (word_n m ≤ length (low_word m))%nat;
  wo_word_role : (word_n m ≤ length (word_role m))%nat;
  wo_word_n : (word_n m ≤ MaxWord)%nat;
}.

Lemma lookup_lt {A} (l : list A) (n i : nat) : (n ≤ length l)%nat → (i < n)%nat → ∃ x, l !! i = Some x.
Proof. intros. apply lookup_lt_is_Some_2. lia. Qed.

Section Heuristics.
Context (m : FuzzyMatcher) (Hm : word_ok m).

Lemma skip_penalty_ok W l :
  (W < word_n m)%nat → skip_penalty m W l = Ok (penz m W l) ∧ 0 ≤ penz m W l ≤ 3.
Proof.
  intros HW. unfold penz, skip_penalty. destruct Hm.
  destruct (lookup_lt (word_role m) _ W wo_word_role0 HW) as [r ->]. simpl.
  case_decide; simpl; [by split; [|lia]|]. case_decide; simpl; (by split; [|lia]).
Qed.

Lemma allow_match_ok P W l :
  (P < pat_n m)%nat → (W < word_n m)%nat → allow_match m P W l = Ok (allowb m P W l).
Proof.
  intros HP HW. unfold allowb, allow_match. destruct Hm.
  destruct (lookup_lt (low_pat m) (pat_n m) P ltac:(lia) HP) as [p ->].
  destruct (lookup_lt (low_word m) _ W wo_low_word0 HW) as [w ->].
  destruct (lookup_lt (word_role m) _ W wo_word_role0 HW) as [r ->].
  destruct (lookup_lt (word m) _ W wo_word0 HW) as [c ->]. simpl.
  case_decide; simpl; [done|]. by case_decide.
Qed.

(** The bonus of an allowed match: at most perfect, and not a reward when the
    match would have been forbidden after a gap at the start. *)
Lemma match_bonus_ok P W l :
  (P < pat_n m)%nat → (W < word_n m)%nat → allowb m P W l = true →
  match_bonus m P W l = Ok (bonusz m P W l) ∧ - 4 ≤ bonusz m P W l ≤ 4 ∧
  (P = 0%nat → l = Match → allowb m P W Miss = false → bonusz m P W l ≤ 0).
Proof.
  intros HP HW. unfold allowb, allow_match, bonusz, match_bonus. destruct Hm.
  destruct (lookup_lt (low_pat m) (pat_n m) P ltac:(lia) HP) as [lp ->].
  destruct (lookup_lt (Pat m) (pat_n m) P ltac:(lia) HP) as [p ->].
  destruct (lookup_lt (pat_role m) (pat_n m) P ltac:(lia) HP) as [pr ->].
  destruct (lookup_lt (low_word m) _ W wo_low_word0 HW) as [lw ->].
  destruct (lookup_lt (word_role m) _ W wo_word_role0 HW) as [wr ->].
  destruct (lookup_lt (word m) _ W wo_word0 HW) as [w ->]. simpl.
  destruct (decide (lp ≠ lw)); simpl; [done|]. intros _.
  match goal with |- context [decide (?s ≤ PerfectBonus)] => set (S5 := s) end.
  assert (-4 ≤ S5 ≤ 4 ∧ (P = 0%nat → wr = Tail → S5 ≤ 0)) as [HS H0].
  { unfold S5. clear. rewrite (bool_decide_not (P = 0%nat)).
    match goal with |- context [if bool_decide (p = w) || ?b then _ else _] =>
      generalize (bool_decide (p = w) || b) end.
    generalize (bool_decide (W = 0%nat) || bool_decide (l = Match)).
    generalize (bool_decide (l = Miss)) (bool_decide (pr = Head)). intros b1 b2 b3 b4.
    destruct (bool_decide_reflect (wr = Tail)); destruct (bool_decide_reflect (P = 0%nat));
      destruct b1, b2, b3, b4; simpl;
      (split; [lia|intros; (lia || congruence)]). }
  unfold PerfectBonus. rewrite decide_True by lia. simpl. split_and!; [done|lia|lia|].
  intros HP0 _ Hal. apply H0; [done|]. apply negb_false_iff, andb_true_iff in Hal as [Hal _].
  by apply bool_decide_eq_true in Hal.
Qed.
End Heuristics.

(** ** The table *)

Definition pred_pos (P : nat) (A : bool) : nat := if A then pred P else P.

Section Table.
Context (m : FuzzyMatcher) (Hm : word_ok m) (Hpn : (0 < pat_n m)%nat).

Abbreviation R := (reaches (pat_n m) (allowb m) (penz m) (bonusz m)).
Abbreviation CI := (cell_is (pat_n m) (allowb m) (penz m) (bonusz m)).
Abbreviation STEP := (act_step (pat_n m) (allowb m) (penz m) (bonusz m)).

Record good (t : table) (P W : nat) (A : bool) (c : ScoreInfo) : Prop := {
  g_best : CI W P A (score c);
  g_row0 : P = 0%nat → Prev c = Miss;
  g_row1 : P = 1%nat → A = Match → Prev c = Miss;
  g_prev : W ≠ 0%nat → (∃ v, R W P A v) →
    ∃ c', t !! (pred_pos P A, pred W, Prev c) = Some c' ∧
      (∃ v, R (pred W) (pred_pos P A) (Prev c) v) ∧
      STEP (Some (pred W, pred_pos P A, Prev c, score c')) A = Some (W, P, A, score c);
}.

Definition tab_ok (D : nat → nat → Prop) (t : table) : Prop :=
  ∀ P W A, D P W → ∃ c, t !! (P, W, A) = Some c ∧ good t P W A c.

(** The cells the constructor wrote, which no match touches. *)
Definition boundary (n : nat) (t : table) : Prop :=
  t !! (0, 0, Miss)%nat = Some (Score 0 Miss) ∧ t !! (0, 0, Match)%nat = Some (Score AwfulScore Miss) ∧
  ∀ P W A, (W < P ≤ n)%nat → t !! (P, W, A) = Some (Score AwfulScore Miss).

Definition put (P W : nat) (cS cM : ScoreInfo) (t : table) : table :=
  <[(P, W, Match) := cM]> (<[(P, W, Miss) := cS]> t).

Lemma put_lookup P W cS cM t P1 W1 (A : bool) :
  put P W cS cM t !! (P1, W1, A) =
    if decide (P = P1 ∧ W = W1) then Some (if A then cM else cS) else t !! (P1, W1, A).
Proof.
  unfold put. rewrite !lookup_insert. destruct A; repeat case_decide; naive_solver.
Qed.

Lemma boundary_put P W cS cM t :
  (P ≤ W)%nat → W ≠ 0%nat → boundary (pat_n m) t → boundary (pat_n m) (put P W cS cM t).
Proof.
  intros HPW HW (H1 & H2 & H3). unfold boundary. rewrite !put_lookup.
  rewrite !decide_False by lia. split_and!; [done|done|].
  intros P1 W1 A H. rewrite put_lookup, decide_False by lia. by apply H3.
Qed.

Lemma good_extend D t P W cS cM P1 W1 A c :
  (∀ P W, D P W → W ≠ 0%nat → D P (pred W) ∧ D (pred P) (pred W)) → ¬ D P W →
  D P1 W1 → good t P1 W1 A c → good (put P W cS cM t) P1 W1 A c.
Proof.
  intros Hcl Hnew HD [G1 G2 G3 G4]. split; try done.
  intros HW Hv. destruct (G4 HW Hv) as (c' & Hc & ?). exists c'. split; [|done].
  rewrite put_lookup, decide_False; [done|]. intros [-> ->].
  destruct (Hcl _ _ HD HW). by destruct A.
Qed.

Lemma tab_ok_put D t P W cS cM :
  (∀ P W, D P W → W ≠ 0%nat → D P (pred W) ∧ D (pred P) (pred W)) → ¬ D P W →
  tab_ok D t → good (put P W cS cM t) P W Miss cS → good (put P W cS cM t) P W Match cM →
  tab_ok (λ p w, D p w ∨ (p = P ∧ w = W)) (put P W cS cM t).
Proof.
  intros Hcl Hnew Ht HS HM P1 W1 A [HD|[-> ->]].
  - destruct (Ht P1 W1 A HD) as (c & Hc & Hg). exists c.
    rewrite put_lookup, decide_False by (intros [-> ->]; done).
    split; [done|by eapply good_extend].
  - rewrite put_lookup, decide_True by done. destruct A; eauto.
Qed.

Lemma tab_ok_weaken D D' t : (∀ P W, D' P W → D P W) → tab_ok D t → tab_ok D' t.
Proof. intros HD Ht P W A H. apply Ht. by apply HD. Qed.

(** A boundary cell is good. *)
Lemma good_beyond t P W A : (W < P)%nat → good t P W A (Score AwfulScore Miss).
Proof.
  intros HPW. split; simpl; try done.
  - by apply cell_is_beyond.
  - intros _ [v Hv]. by apply reaches_beyond in Hv.
Qed.

(** ** Cells of the main loop *)

Definition miss_cell (P W : nat) (cM cS : ScoreInfo) : ScoreInfo :=
  let a := score cM - miss_pen (pat_n m) (penz m) (S P) W Match in
  let b := score cS - miss_pen (pat_n m) (penz m) (S P) W Miss in
  if decide (b < a) then Score a Match else Score b Miss.

Definition match_cell (P W : nat) (cM cS : ScoreInfo) : ScoreInfo :=
  let a := match_cand (allowb m) (bonusz m) P W Match (score cM) in
  let b := match_cand (allowb m) (bonusz m) P W Miss (score cS) in
  if decide (b < a) then Score a Match else Score b Miss.

Lemma cell_step_eq P W t c1 c2 c3 c4 :
  (P < pat_n m)%nat → (W < word_n m)%nat →
  t !! (S P, W, Match) = Some c1 → t !! (S P, W, Miss) = Some c2 →
  t !! (P, W, Match) = Some c3 → t !! (P, W, Miss) = Some c4 →
  cell_step m P W t = Ok (put (S P) (S W) (miss_cell P W c1 c2) (match_cell P W c3 c4) t).
Proof.
  intros HP HW H1 H2 H3 H4. unfold cell_step. rewrite H1, H2. simpl.
  assert (∀ l, (if decide (P < pat_n m - 1)%nat then skip_penalty m W l else Ok 0) =
               Ok (miss_pen (pat_n m) (penz m) (S P) W l)) as Hpen.
  { intros l. unfold miss_pen. destruct (skip_penalty_ok m Hm W l HW) as [-> _].
    repeat case_decide; try lia; done. }
  rewrite !Hpen. simpl. rewrite !lookup_insert_ne by (intros [=]; lia). rewrite H3, H4. simpl.
  rewrite !allow_match_ok by done. simpl.
  assert (∀ l (c : ScoreInfo),
    (if allowb m P W l then Res_bind (match_bonus m P W l) (λ b, Ok (score c + b)) else Ok AwfulScore)
    = Ok (match_cand (allowb m) (bonusz m) P W l (score c))) as Hb.
  { intros l c. unfold match_cand. destruct (allowb m P W l) eqn:E; [|done].
    destruct (match_bonus_ok m Hm P W l HP HW E) as [-> _]. done. }
  rewrite (Hb Match c3). simpl. rewrite (Hb Miss c4). simpl. done.
Qed.

Lemma pen_range : ∀ W l, (W < word_n m)%nat → 0 ≤ penz m W l ≤ 3.
Proof. intros. by apply skip_penalty_ok. Qed.

Lemma bonus_range : ∀ P W l, (P < pat_n m)%nat → (W < word_n m)%nat → allowb m P W l = true →
  - 4 ≤ bonusz m P W l ≤ 4.
Proof. intros P W l HP HW Hal. by apply match_bonus_ok. Qed.

Lemma fits W P A z : (W ≤ word_n m)%nat → CI W P A z → s15 z = z.
Proof. apply (cell_is_fits (pat_n m) (word_n m)). apply Hm. Qed.

(** The greater of two candidates, and where it comes from. *)
Lemma pick_score a b : score (if decide (b < a) then Score a Match else Score b Miss) = s15 (Z.max a b).
Proof. case_decide; simpl; f_equal; lia. Qed.

Lemma miss_cell_good D t P W c1 c2 cM :
  (P < pat_n m)%nat → (P ≤ W < word_n m)%nat → D (S P) W → ¬ D (S P) (S W) →
  tab_ok D t → t !! (S P, W, Match) = Some c1 → t !! (S P, W, Miss) = Some c2 →
  good (put (S P) (S W) (miss_cell P W c1 c2) cM t) (S P) (S W) Miss (miss_cell P W c1 c2).
Proof.
  intros HP HW HD Hnew Ht H1 H2.
  destruct (Ht (S P) W Match HD) as (c1' & H1' & G1). destruct (Ht (S P) W Miss HD) as (c2' & H2' & G2).
  rewrite H1 in H1'. rewrite H2 in H2'. simplify_eq.
  pose proof (g_best _ _ _ _ _ G1) as B1. pose proof (g_best _ _ _ _ _ G2) as B2.
  assert (CI (S W) (S P) Miss (Z.max (score c1' - miss_pen (pat_n m) (penz m) (S P) W Match)
             (score c2' - miss_pen (pat_n m) (penz m) (S P) W Miss))) as B.
  { eapply (cell_is_miss (pat_n m) (word_n m)); [apply pen_range|apply Hm|lia|done|done]. }
  split; try done.
  - unfold miss_cell. rewrite pick_score, (fits (S W) (S P) Miss) by (try done; lia). done.
  - intros _ Hv. simpl. unfold miss_cell in *. pose proof (fits (S W) _ _ _ ltac:(lia) B) as Hf.
    destruct B as [(Hr & _ & Hrange)|[Hno _]]; [|destruct Hv as [v Hv]; by destruct (Hno v)].
    apply reaches_miss in Hr.
    destruct B1 as [(R1 & M1 & _)|[N1 A1]], B2 as [(R2 & M2 & _)|[N2 A2]].
    all: change AwfulScore with (-8192) in *.
    all: pose proof (miss_pen_range (pat_n m) (word_n m) (penz m) pen_range (wo_word_n m Hm) (S P) W Match ltac:(lia)).
    all: pose proof (miss_pen_range (pat_n m) (word_n m) (penz m) pen_range (wo_word_n m Hm) (S P) W Miss ltac:(lia)).
    all: pose proof (wo_word_n _ Hm); unfold MaxWord in *.
    4: by destruct Hr as [Hr|Hr]; [destruct (N1 _ Hr)|destruct (N2 _ Hr)].
    all: case_decide as E; simpl;
      [exists c1'|exists c2']; rewrite put_lookup, decide_False by lia;
      try (exfalso; lia); (split; [done|]); (split; [by eexists|]).
    all: do 2 f_equal; rewrite ?Z.max_l, ?Z.max_r in Hf by lia; lia.
Qed.

(** Skipping everything is always possible, so the first pattern character
    never follows a matched one. *)
Lemma row0_reached W : ∃ v, R W 0 Miss v.
Proof.
  exists (foldl (λ a w, a - penz m w Miss) 0 (seq 0 W)), (replicate W Miss).
  induction W as [|W IH]; [done|]. rewrite replicate_S_end, align_snoc, IH.
  unfold act_step, miss_pen. rewrite decide_True by done. by rewrite seq_S, foldl_app.
Qed.

Lemma match_row1 W c3 c4 :
  (W < word_n m)%nat → CI W 0 Miss (score c4) → score c3 = AwfulScore →
  Prev (match_cell 0 W c3 c4) = Miss.
Proof.
  intros HW B4 Hrow0. unfold match_cell. destruct (decide _) as [E|]; [exfalso|done].
  pose proof (wo_word_n _ Hm) as Hn. unfold MaxWord in Hn. destruct (row0_reached W) as [v Hv].
  destruct B4 as [(_ & _ & Hs)|[Hno _]]; [|by destruct (Hno v)].
  revert E. unfold match_cand. rewrite Hrow0. change AwfulScore with (-8192).
  pose proof (λ l, match_bonus_ok m Hm 0 W l Hpn HW) as Hb.
  destruct (allowb m 0 W Match) eqn:EM, (allowb m 0 W Miss) eqn:ES; [| | |lia].
  - destruct (Hb Match EM) as (_ & ? & _), (Hb Miss ES) as (_ & ? & _). lia.
  - destruct (Hb Match EM) as (_ & _ & Hz). specialize (Hz eq_refl eq_refl eq_refl). lia.
  - destruct (Hb Miss ES) as (_ & ? & _). lia.
Qed.

Lemma match_cell_good D t P W c3 c4 cS :
  (P < pat_n m)%nat → (P ≤ W < word_n m)%nat → D P W → ¬ D (S P) (S W) →
  tab_ok D t → t !! (P, W, Match) = Some c3 → t !! (P, W, Miss) = Some c4 →
  (P = 0%nat → score c3 = AwfulScore) →
  good (put (S P) (S W) cS (match_cell P W c3 c4) t) (S P) (S W) Match (match_cell P W c3 c4).
Proof.
  intros HP HW HD Hnew Ht H3 H4 Hrow0.
  destruct (Ht P W Match HD) as (c3' & H3' & G3). destruct (Ht P W Miss HD) as (c4' & H4' & G4).
  rewrite H3 in H3'. rewrite H4 in H4'. simplify_eq.
  pose proof (g_best _ _ _ _ _ G3) as B3. pose proof (g_best _ _ _ _ _ G4) as B4.
  assert (CI (S W) (S P) Match (Z.max (match_cand (allowb m) (bonusz m) P W Match (score c3'))
             (match_cand (allowb m) (bonusz m) P W Miss (score c4')))) as B.
  { apply (cell_is_match _ (word_n m) _ _ _ pen_range bonus_range (wo_word_n m Hm)); try done; lia. }
  pose proof (match_cand_ok (pat_n m) (word_n m) (allowb m) (penz m) (bonusz m) pen_range bonus_range (wo_word_n m Hm) W P Match
    (score c3') HP ltac:(lia) B3) as C3.
  pose proof (match_cand_ok (pat_n m) (word_n m) (allowb m) (penz m) (bonusz m) pen_range bonus_range (wo_word_n m Hm) W P Miss
    (score c4') HP ltac:(lia) B4) as C4.
  pose proof (wo_word_n _ Hm) as Hn. unfold MaxWord in Hn.
  split; try done.
  - unfold match_cell. rewrite pick_score, (fits (S W) (S P) Match) by (try done; lia). done.
  - intros HP1 _. assert (P = 0%nat) as -> by lia. apply match_row1; [lia|done|by apply Hrow0].
  - intros _ Hv. simpl. unfold match_cell in *. pose proof (fits (S W) _ _ _ ltac:(lia) B) as Hf.
    destruct B as [(Hr & _ & Hrange)|[Hno _]]; [|destruct Hv as [v Hv]; by destruct (Hno v)].
    apply reaches_match in Hr; [|done].
    destruct C3 as [([L3 R3] & M3 & ?)|[N3 A3]], C4 as [([L4 R4] & M4 & ?)|[N4 A4]].
    all: change AwfulScore with (-8192) in *.
    4: by destruct Hr as [Hr|Hr]; [destruct (N3 _ Hr)|destruct (N4 _ Hr)].
    all: case_decide as E; simpl;
      [exists c3'|exists c4']; rewrite put_lookup, decide_False by lia;
      try (exfalso; lia); (split; [done|]); (split; [by eexists|]).
    all: rewrite ?L3, ?L4, (bool_decide_eq_true_2 (P < pat_n m)%nat) by done; simpl;
      do 2 f_equal; rewrite ?Z.max_l, ?Z.max_r in Hf by lia; unfold match_cand in *;
      rewrite ?L3, ?L4 in *; lia.
Qed.

(** ** The loops *)

(** The region filled after [W0] columns of row [P0 + 1]. *)
Definition filled (P0 W0 P W : nat) : Prop :=
  (W ≤ word_n m)%nat ∧ (P ≤ pat_n m)%nat ∧
  ((W < P)%nat ∨ (P ≤ P0)%nat ∨ (P = S P0 ∧ W ≤ W0)%nat).

Lemma filled_pred P0 W0 P W :
  filled P0 W0 P W → W ≠ 0%nat → filled P0 W0 P (pred W) ∧ filled P0 W0 (pred P) (pred W).
Proof. unfold filled. lia. Qed.

Definition table_inv (P0 W0 : nat) (t : table) : Prop :=
  tab_ok (filled P0 W0) t ∧ boundary (pat_n m) t ∧
  ∀ W, (W ≤ word_n m)%nat → ∃ c, t !! (0%nat, W, Match) = Some c ∧ score c = AwfulScore.

Lemma cell_step_inv P W t :
  (P < pat_n m)%nat → (P ≤ W < word_n m)%nat → table_inv P W t →
  ∃ t', cell_step m P W t = Ok t' ∧ table_inv P (S W) t'.
Proof.
  intros HP HW (Ht & Hb & H0).
  assert (filled P W (S P) W) as D1 by (unfold filled; lia).
  assert (filled P W P W) as D2 by (unfold filled; lia).
  assert (¬ filled P W (S P) (S W)) as D3 by (unfold filled; lia).
  destruct (Ht _ _ Match D1) as (c1 & H1 & _), (Ht _ _ Miss D1) as (c2 & H2 & _).
  destruct (Ht _ _ Match D2) as (c3 & H3 & _), (Ht _ _ Miss D2) as (c4 & H4 & _).
  eexists. split; [apply cell_step_eq; try done; lia|]. split_and!.
  - eapply tab_ok_weaken; [|eapply (tab_ok_put (filled P W));
      [apply filled_pred|done|done|by eapply miss_cell_good|eapply match_cell_good; try done]].
    + intros p w. unfold filled. lia.
    + intros ->. destruct (H0 W ltac:(lia)) as (c & Hc & Hs). congruence.
  - apply boundary_put; [lia|lia|done].
  - intros w Hw. rewrite put_lookup, decide_False by lia. by apply H0.
Qed.

(** The region filled after [W0] columns of the first row. *)
Definition first_filled (W0 P W : nat) : Prop :=
  (W ≤ word_n m)%nat ∧ (P ≤ pat_n m)%nat ∧ ((W < P)%nat ∨ (P = 0 ∧ W ≤ W0)%nat).

Lemma first_row_step_inv W t :
  (W < word_n m)%nat → tab_ok (first_filled W) t →
  ∃ t', first_row_step m W t = Ok t' ∧
    ∃ cS, t' = put 0 (S W) cS (Score AwfulScore Miss) t ∧ tab_ok (first_filled (S W)) t'.
Proof.
  intros HW Ht. destruct (Ht 0%nat W Miss ltac:(unfold first_filled; lia)) as (c & Hc & Hg).
  pose proof (g_best _ _ _ _ _ Hg) as B. destruct (skip_penalty_ok m Hm W Miss HW) as [Hpen Hr].
  assert (miss_pen (pat_n m) (penz m) 0 W Miss = penz m W Miss) as Hmp.
  { unfold miss_pen. by rewrite decide_True. }
  assert (CI (S W) 0 Miss (score c - penz m W Miss)) as B'.
  { unfold cell_is. replace (4 * Z.of_nat (S W)) with (4 * Z.of_nat W + 4) by lia.
    eapply cand_ext; [|apply (cand_shift _ _ _ (- penz m W Miss) B); lia].
    intros v. rewrite reaches_miss, Hmp. split; [by right|]. intros [Hx|Hx]; [|done].
    by apply reaches_row0 in Hx. }
  pose proof (fits (S W) _ _ _ HW B') as Hf.
  eexists. split; [unfold first_row_step; rewrite Hc; simpl; rewrite Hpen; simpl; done|].
  exists (Score (score c - penz m W Miss) Miss). split; [done|].
  eapply tab_ok_weaken; [|eapply (tab_ok_put (first_filled W) _ 0 (S W)); [| |exact Ht| |]].
  - intros p w. unfold first_filled. lia.
  - intros p w. unfold first_filled. lia.
  - unfold first_filled. lia.
  - split; simpl; [by rewrite Hf|done|done|]. intros _ _. exists c.
    rewrite put_lookup, decide_False by lia. split_and!; [done|apply row0_reached|].
    rewrite Hmp, Hf. done.
  - split; simpl; [|done|done|]; [by apply cell_is_row0|].
    intros _ [v Hv]. by apply reaches_row0 in Hv.
Qed.

(** [build_graph] runs to the end and fills the table. *)
Lemma build_graph_ok :
  boundary (pat_n m) (scores m) →
  ∃ t, build_graph m = Ok (set_scores t m) ∧ boundary (pat_n m) t ∧
    tab_ok (λ P W, (W ≤ word_n m)%nat ∧ (P ≤ pat_n m)%nat) t.
Proof.
  intros Hb. unfold build_graph.
  destruct (for_each_range (E := unit) (λ W t,
    tab_ok (first_filled W) t ∧ boundary (pat_n m) t ∧
    ∀ w, (w ≤ W)%nat → ∃ c, t !! (0%nat, w, Match) = Some c ∧ score c = AwfulScore)
    0 (word_n m) (first_row_step m) (scores m)) as (t1 & -> & Ht1 & Hb1 & H01).
  { destruct Hb as (B1 & B2 & B3). split_and!; [|done|].
    - intros P W A (HW & HP & [Hlt|[-> Hw]]).
      + exists (Score AwfulScore Miss). split; [apply B3; lia|by apply good_beyond].
      + assert (W = 0%nat) as -> by lia. destruct A.
        * exists (Score AwfulScore Miss). split; [done|]. split; simpl; try done.
          by apply cell_is_row0.
        * exists (Score 0 Miss). split; [done|]. split; simpl; try done. apply cell_is_origin.
    - intros w Hw. assert (w = 0%nat) as -> by lia. by eexists. }
  { intros W t HW (Ht & Hbt & H0). destruct (first_row_step_inv W t ltac:(lia) Ht)
      as (t' & Hstep & cS & -> & Ht'). eexists. split; [done|]. split_and!; [done| |].
    - apply boundary_put; [lia|lia|done].
    - intros w Hw. rewrite put_lookup. case_decide; [by eexists|]. apply H0. lia. }
  cbn [Res_bind].
  destruct (for_each_range (E := unit) (λ P t, table_inv P 0 t) 0 (pat_n m)
    (λ P t, for_each (seq P (word_n m - P)) (cell_step m P) t) t1) as (t2 & -> & Ht2 & Hb2 & _).
  { split_and!; [|done|done]. eapply tab_ok_weaken; [|exact Ht1].
    intros p w. unfold filled, first_filled. lia. }
  { intros P t HP (Ht & Hbt & H0).
    destruct (for_each_range (E := unit) (λ W t, table_inv P W t) P (word_n m - P) (cell_step m P) t)
      as (t' & -> & Ht' & Hbt' & H0').
    - split_and!; [|done|done]. eapply tab_ok_weaken; [|exact Ht]. intros p w; unfold filled; lia.
    - intros W t' HW HI. apply cell_step_inv; [lia|lia|done].
    - eexists. split; [done|]. split_and!; [|done|done].
      eapply tab_ok_weaken; [|exact Ht']. intros p w; unfold filled; lia. }
  cbn [Res_bind]. eexists. split; [done|]. split; [done|]. eapply tab_ok_weaken; [|exact Ht2].
  intros p w; unfold filled; lia.
Qed.
End Table.
