(* ===== verification/FuzzyTheorems.v ===== *)
(** * Theorems about the fuzzy matcher

    Segmentation: the packed tables of src/support/fuzzy_matcher.cpp compute the
    documented classification of characters and roles.  Matching: [match] never
    reads outside its arrays nor a cell of an earlier match, and returns the
    normalised score of a best alignment, or nothing when there is none. *)
From S2P Require Import Prelude FuzzyMatcher FuzzyAlign FuzzyTable.
From Stdlib Require Import SpecFloat.
Local Open Scope Z_scope.

(** ** Segmentation *)

(** The classes of fuzzy_matcher.h: digits and bytes over 127 are lowercase,
    control characters are empty. *)
Definition classify (c : ascii) : CharType :=
  let n := code c in
  if bool_decide (n < 32) || bool_decide (n = 127) then Empty
  else if bool_decide (48 ≤ n ≤ 57) || bool_decide (97 ≤ n ≤ 122) || bool_decide (128 ≤ n) then Lower
  else if bool_decide (65 ≤ n ≤ 90) then Upper
  else Punctuation.

(** A letter starts a segment at the start, after punctuation, when the case
    changes to upper, and at the last capital of a run followed by lowercase. *)
Definition role_spec (prev cur next : CharType) : CharRole :=
  match cur with
  | Empty => Unknown
  | Punctuation => Separator
  | Lower => match prev with Lower | Upper => Tail | _ => Head end
  | Upper => match prev, next with Upper, Lower => Head | Upper, _ => Tail | _, _ => Head end
  end.

(** On targets with signed [char] only ASCII text is looked up in bounds. *)
Definition bytes_ok (char_signed : bool) (text : bytes) : Prop :=
  Forall (λ c, char_signed = false ∨ code c < 128) text.

Definition type_at (text : bytes) (i : nat) : CharType :=
  match text !! i with Some c => classify c | None => Empty end.

Fixpoint spec_roles (prev : CharType) (text : bytes) : list CharRole :=
  match text with
  | [] => []
  | c :: rest => role_spec prev (classify c) (type_at rest 0) :: spec_roles (classify c) rest
  end.

Definition type_set (text : bytes) : Z :=
  foldr (λ c s, Z.lor (Z.shiftl 1 (Z_of_type (classify c))) s) 0 text.

Lemma char_type_unsigned c : char_type false c = Ok (classify c).
Proof. destruct c as [[] [] [] [] [] [] [] []]; vm_compute; reflexivity. Qed.

Lemma char_type_ok s c : s = false ∨ code c < 128 → char_type s c = Ok (classify c).
Proof.
  intros Hc. rewrite <- char_type_unsigned. unfold char_type, char_value. destruct s; [|done].
  destruct Hc as [?|Hc]; [done|]. rewrite bool_decide_eq_false_2 by lia. done.
Qed.

(** The window [(before, prev, cur)] of types. *)
Definition window (a b c : CharType) : Z := 16 * Z_of_type a + 4 * Z_of_type b + Z_of_type c.

Lemma rotate_window a b c t : rotate (window a b c) t = window b c t.
Proof. by destruct a, b, c, t. Qed.

Lemma role_lookup a b c :
  ∃ r, packed_lookup CharRoles (window a b c) = Ok r ∧ role_of_Z r = role_spec a b c.
Proof. destruct a, b, c; eexists; split; reflexivity. Qed.

Lemma roles_loop_ok s rest a b c ts roles :
  bytes_ok s rest →
  roles_loop s rest (window a b c) ts roles =
    Ok (Z.lor ts (type_set rest), roles ++ role_spec b c (type_at rest 0) :: spec_roles c rest).
Proof.
  intros Hok. revert a b c ts roles. induction rest as [|x rest IH]; intros a b c ts roles.
  - simpl. rewrite rotate_window. destruct (role_lookup b c Empty) as (r & -> & Hr). simpl.
    by rewrite Hr, Z.lor_0_r.
  - inv Hok. simpl. rewrite char_type_ok by done. simpl. rewrite rotate_window.
    destruct (role_lookup b c (classify x)) as (r & -> & Hr). simpl.
    rewrite IH by done. rewrite Hr, <- app_assoc. simpl. by rewrite Z.lor_assoc.
Qed.

Lemma calculate_roles_ok s text :
  bytes_ok s text → calculate_roles s text = Ok (type_set text, spec_roles Empty text).
Proof.
  destruct text as [|c rest]; intros Hok; [done|]. inv Hok. simpl. rewrite char_type_ok by done. simpl.
  change (Z_of_type (classify c)) with (window Empty Empty (classify c)) at 1.
  by rewrite roles_loop_ok.
Qed.

Lemma spec_roles_length prev text : length (spec_roles prev text) = length text.
Proof. revert prev. induction text as [|c text IH]; intros; simpl; [done|]. by rewrite IH. Qed.

Lemma spec_roles_lookup prev text i c :
  text !! i = Some c →
  spec_roles prev text !! i =
    Some (role_spec (match i with O => prev | S j => type_at text j end) (classify c)
            (type_at text (S i))).
Proof.
  revert prev i. induction text as [|x text IH]; intros prev i Hi; [done|].
  destruct i as [|i]; simpl in *; [by simplify_eq|]. rewrite (IH _ _ Hi). by destruct i.
Qed.

Lemma type_set_spec text t :
  Z.testbit (type_set text) (Z_of_type t) = true ↔ ∃ c, c ∈ text ∧ classify c = t.
Proof.
  induction text as [|x text IH]; simpl.
  - rewrite Z.bits_0. split; [done|]. intros (c & Hc & _). by apply not_elem_of_nil in Hc.
  - rewrite Z.lor_spec, orb_true_iff, IH. setoid_rewrite elem_of_cons.
    assert (Z.testbit (Z.shiftl 1 (Z_of_type (classify x))) (Z_of_type t) = true ↔ classify x = t)
      as -> by (destruct (classify x), t; by vm_compute).
    naive_solver.
Qed.

(** The bit-packed tables and the sliding window of [calculate_roles]
    compute the documented segmentation: every character gets the role its class
    and its neighbours' classes determine, and the returned set has the bit of
    a class exactly when the text has a character of that class. *)
Theorem calculate_roles_correct (char_signed : bool) (text : bytes) :
  bytes_ok char_signed text →
  ∃ set roles, calculate_roles char_signed text = Ok (set, roles) ∧
    length roles = length text ∧
    (∀ i c, text !! i = Some c →
       roles !! i = Some (role_spec (match i with O => Empty | S j => type_at text j end)
                            (classify c) (type_at text (S i)))) ∧
    (∀ t, Z.testbit set (Z_of_type t) = true ↔ ∃ c, c ∈ text ∧ classify c = t).
Proof.
  intros Hok. exists (type_set text), (spec_roles Empty text).
  split; [by apply calculate_roles_ok|]. split; [apply spec_roles_length|].
  split; [intros; by apply spec_roles_lookup|]. apply type_set_spec.
Qed.

Lemma calculate_roles_correct_witness :
  ∃ set roles, calculate_roles true (str "XMLHttp_x") = Ok (set, roles) ∧
    length roles = length (str "XMLHttp_x") ∧
    (∀ i c, str "XMLHttp_x" !! i = Some c →
       roles !! i = Some (role_spec (match i with O => Empty | S j => type_at (str "XMLHttp_x") j end)
                            (classify c) (type_at (str "XMLHttp_x") (S i)))) ∧
    (∀ t, Z.testbit set (Z_of_type t) = true ↔ ∃ c, c ∈ str "XMLHttp_x" ∧ classify c = t).
Proof.
  apply calculate_roles_correct. unfold bytes_ok.
  repeat (apply Forall_cons; split; [right; vm_compute; reflexivity|]). apply Forall_nil; exact I.
Defined.

Lemma char_type_negative c : 128 ≤ code c → char_type true c = Fault.
Proof.
  intros Hc. unfold char_type, char_value, packed_lookup. rewrite bool_decide_eq_true_2 by done. simpl.
  rewrite decide_False; [done|]. pose proof (code_range c).
  rewrite Z.shiftr_div_pow2 by lia. change (2 ^ 2) with 4.
  intros Hge. pose proof (Z.mul_div_le (code c - 256) 4). lia.
Qed.

Lemma roles_loop_fault rest a b c ts roles :
  Exists (λ x, 128 ≤ code x) rest → roles_loop true rest (window a b c) ts roles = Fault.
Proof.
  intros Hex. revert a b c ts roles. induction rest as [|x rest IH]; intros a b c ts roles; [by apply Exists_nil in Hex|].
  cbn [roles_loop]. destruct (decide (128 ≤ code x)) as [Hx|Hx].
  - by rewrite char_type_negative.
  - apply Exists_cons in Hex as [?|Hex]; [done|]. rewrite char_type_ok by (right; lia). cbn [Res_bind].
    rewrite rotate_window. destruct (role_lookup b c (classify x)) as (r & -> & _). cbn [Res_bind].
    by apply IH.
Qed.

(** A byte over 127 is looked up at a negative index on every target where
    plain [char] is signed: the access is outside the table, although the header
    documents such bytes as lowercase. *)
Theorem signed_char_out_of_bounds (text : bytes) :
  Exists (λ c, 128 ≤ code c) text → calculate_roles true text = Fault.
Proof.
  destruct text as [|c text]; intros Hex; [by apply Exists_nil in Hex|]. unfold calculate_roles.
  destruct (decide (128 ≤ code c)) as [Hc|Hc]; [by rewrite char_type_negative|].
  apply Exists_cons in Hex as [?|Hex]; [done|]. rewrite char_type_ok by (right; lia). cbn [Res_bind].
  change (Z_of_type (classify c)) with (window Empty Empty (classify c)) at 1. by apply roles_loop_fault.
Qed.

Lemma signed_char_out_of_bounds_witness : calculate_roles true (str "caf" ++ [ascii_of_N 195; ascii_of_N 169]) = Fault.
Proof. apply signed_char_out_of_bounds. do 3 right. left. vm_compute. discriminate. Defined.

(** ** The reference: best alignment of a pattern and a word *)

(** The matcher data that depends on the pattern and the word alone. *)
Definition prepared (pattern w : bytes) : FuzzyMatcher :=
  let P := take MaxPat pattern in
  let T := take MaxWord w in
  let n := length P in
  mkMatcher P n (lower <$> P) (spec_roles Empty P) (type_set P)
    (if decide (n = 0%nat) then f32_of_Z 0
     else f32_div (f32_of_Z 1) (f32_of_Z (PerfectBonus * Z.of_nat n)))
    T (length T) (lower <$> T) (spec_roles Empty T) (type_set T) true ∅.

(** The score of an alignment, if it is one: every pattern character is matched
    and every match is allowed. *)
Definition alignment_score (pattern w : bytes) (acts : list bool) : option Z :=
  let m := prepared pattern w in
  match align (pat_n m) (allowb m) (penz m) (bonusz m) acts with
  | Some (W, P, _, v) => if decide (W = word_n m ∧ P = pat_n m) then Some v else None
  | None => None
  end.

(** [v] is the best score of an alignment. *)
Definition best_alignment (pattern w : bytes) (acts : list bool) (v : Z) : Prop :=
  alignment_score pattern w acts = Some v ∧
  ∀ acts' v', alignment_score pattern w acts' = Some v' → v' ≤ v.

(** ** Matcher invariant *)

(** What the constructor establishes and every match keeps. *)
Record matcher_ok (pattern : bytes) (m : FuzzyMatcher) : Prop := {
  mo_Pat : Pat m = Pat (prepared pattern []);
  mo_n : pat_n m = pat_n (prepared pattern []);
  mo_low : low_pat m = low_pat (prepared pattern []);
  mo_role : pat_role m = pat_role (prepared pattern []);
  mo_set : pat_type_set m = pat_type_set (prepared pattern []);
  mo_scale : score_scale m = score_scale (prepared pattern []);
  mo_boundary : boundary (pat_n m) (scores m);
}.

Lemma init_scores_boundary n : boundary n (init_scores n).
Proof.
  unfold init_scores. set (t0 := <[_ := _]> _).
  assert (∀ k t P0, boundary P0 t → (P0 ≤ k)%nat →
            boundary k (foldl (λ t P, foldl (λ t W,
              <[(P, W, Match) := Score AwfulScore Miss]> (<[(P, W, Miss) := Score AwfulScore Miss]> t))
              t (seq 0 P)) t (seq (S P0) (k - P0)))) as Hgen.
  { intros k t P0. remember (k - P0)%nat as d eqn:Ed. revert t P0 Ed.
    induction d as [|d IH]; intros t P0 Ed Hb Hk; simpl.
    { by replace k with P0 by lia. }
    apply IH; [lia| |lia]. destruct Hb as (B1 & B2 & B3).
    set (F := λ (t : table) (W : nat), <[(S P0, W, Match) := Score AwfulScore Miss]>
                (<[(S P0, W, Miss) := Score AwfulScore Miss]> t)).
    change (boundary (S P0) (foldl F t (seq 0 (S P0)))).
    assert (∀ ws t P W A, foldl F t ws !! (P, W, A) =
              if decide (P = S P0 ∧ W ∈ ws) then Some (Score AwfulScore Miss) else t !! (P, W, A)) as HF.
    { clear. induction ws as [|w ws IHw]; intros t P W A; simpl.
      - rewrite decide_False; [done|]. intros [_ ?]. by apply (not_elem_of_nil W).
      - rewrite IHw. unfold F. rewrite !lookup_insert.
        destruct (decide (P = S P0 ∧ W ∈ ws)) as [H|H];
          [rewrite (decide_True (P := P = S P0 ∧ W ∈ w :: ws))
             by (split; [apply H|apply elem_of_cons; right; apply H]); done|].
        destruct (decide (P = S P0 ∧ W ∈ w :: ws)) as [[-> [->|?]%elem_of_cons]|H2];
          [by destruct A; repeat case_decide|naive_solver|].
        rewrite elem_of_cons in H2. destruct A; repeat case_decide; naive_solver. }
    split_and!; [by rewrite HF, decide_False by lia|by rewrite HF, decide_False by lia|].
    intros P W A HPW. rewrite HF. case_decide as E; [done|]. apply B3.
    rewrite elem_of_seq in E. lia. }
  assert (boundary 0 t0) as H0.
  { unfold t0. split_and!; [by rewrite lookup_insert_ne, lookup_insert_eq by done|
      by rewrite lookup_insert_eq|lia]. }
  pose proof (Hgen n t0 0%nat H0 ltac:(lia)) as H. rewrite Nat.sub_0_r in H. exact H.
Qed.

Lemma bytes_ok_take s n text : bytes_ok s text → bytes_ok s (take n text).
Proof. apply Forall_take. Qed.

Lemma new_matcher_ok s pattern :
  bytes_ok s pattern → ∃ m, new_matcher s pattern = Ok m ∧ matcher_ok pattern m.
Proof.
  intros Hok. unfold new_matcher.
  assert (Nat.min MaxPat (length pattern) = length (take MaxPat pattern)) as En
    by (by rewrite length_take).
  assert (take (Nat.min MaxPat (length pattern)) pattern = take MaxPat pattern) as Et.
  { destruct (Nat.min_spec MaxPat (length pattern)) as [[_ ->]|[H ->]]; [done|].
    rewrite !take_ge by lia. done. }
  rewrite Et, calculate_roles_ok by (by apply bytes_ok_take).
  cbn [Res_bind fst snd]. rewrite En. eexists. split; [done|]. split; try done. apply init_scores_boundary.
Qed.

(** ** The word phase *)

(** What [init] leaves in the arrays when it succeeds. *)
Record loaded (pattern w : bytes) (m : FuzzyMatcher) : Prop := {
  ld_ok : matcher_ok pattern m;
  ld_n : word_n m = length (take MaxWord w);
  ld_word : take (word_n m) (word m) = take MaxWord w;
  ld_low : take (word_n m) (low_word m) = lower <$> take MaxWord w;
  ld_role : take (word_n m) (word_role m) = spec_roles Empty (take MaxWord w);
  ld_set : word_type_set m = type_set (take MaxWord w);
}.

Lemma take_overwrite {A} (new array : list A) : take (length new) (overwrite new array) = new.
Proof. unfold overwrite. by rewrite take_app_length. Qed.

Lemma take_lookup_lt {A} (l l' : list A) n i :
  take n l = l' → (i < n)%nat → l !! i = l' !! i.
Proof. intros <- Hi. by rewrite lookup_take_lt. Qed.

Lemma take_length_le {A} (l l' : list A) n : take n l = l' → length l' = n → (n ≤ length l)%nat.
Proof. intros <-. rewrite length_take. lia. Qed.

Section Loaded.
Context (pattern w : bytes) (m : FuzzyMatcher) (Hl : loaded pattern w m).
Abbreviation M := (prepared pattern w).

Lemma loaded_n : word_n m = word_n M ∧ pat_n m = pat_n M.
Proof. split; [apply Hl|apply (ld_ok _ _ _ Hl)]. Qed.

Lemma loaded_word_ok : word_ok m.
Proof.
  destruct Hl as [[H1 H2 H3 H4 H5 H6 H7] Hn Hw Hlw Hr Hs]. split.
  - by rewrite H1, H2.
  - rewrite H3, H2. simpl. by rewrite length_fmap.
  - rewrite H4, H2. simpl. by rewrite spec_roles_length.
  - eapply take_length_le; [exact Hw|done].
  - eapply take_length_le; [exact Hlw|]. by rewrite length_fmap.
  - eapply take_length_le; [exact Hr|]. by rewrite spec_roles_length.
  - rewrite Hn, length_take. lia.
Qed.

(** Inside the word, the heuristics do not depend on earlier matches. *)
Lemma loaded_lookup W :
  (W < word_n m)%nat →
  word m !! W = word M !! W ∧ low_word m !! W = low_word M !! W ∧ word_role m !! W = word_role M !! W.
Proof. intros HW. destruct Hl. split_and!; by eapply take_lookup_lt. Qed.

Lemma loaded_heuristics P W l :
  (W < word_n m)%nat →
  allowb m P W l = allowb M P W l ∧ penz m W l = penz M W l ∧ bonusz m P W l = bonusz M P W l.
Proof.
  intros HW. destruct (loaded_lookup W HW) as (E1 & E2 & E3).
  destruct Hl as [[H1 H2 H3 H4 H5 H6 H7] Hn Hw Hlw Hr Hs].
  unfold allowb, penz, bonusz, allow_match, skip_penalty, match_bonus.
  rewrite E1, E2, E3, H1, H3, H4, H5, Hs. done.
Qed.
End Loaded.

(** Alignments only look at positions inside the word. *)
Lemma align_ext pn wn allow1 pen1 bonus1 allow2 pen2 bonus2 acts :
  (∀ P W l, (W < wn)%nat → allow1 P W l = allow2 P W l ∧ pen1 W l = pen2 W l ∧
                          bonus1 P W l = bonus2 P W l) →
  (length acts ≤ wn)%nat →
  align pn allow1 pen1 bonus1 acts = align pn allow2 pen2 bonus2 acts.
Proof.
  intros Hext. induction acts as [|a acts IH] using rev_ind; [done|].
  rewrite length_app. simpl. intros Hlen. rewrite !align_snoc, <- IH by lia.
  destruct (align pn allow1 pen1 bonus1 acts) as [[[[W P] A] v]|] eqn:E; [|done].
  apply align_shape in E as (-> & _). destruct (Hext P (length acts) A ltac:(lia)) as (E1 & E2 & E3).
  unfold act_step, miss_pen. rewrite E1, E2, E3. done.
Qed.

(** ** The subsequence check *)

(** How much of the pattern the greedy scan has consumed after [W] characters. *)
Fixpoint greedy (lp lw : bytes) (W : nat) : nat :=
  match W with
  | O => 0
  | S W =>
    match lw !! W, lp !! greedy lp lw W with
    | Some w, Some p => if decide (w = p) then S (greedy lp lw W) else greedy lp lw W
    | _, _ => greedy lp lw W
    end
  end.

Lemma greedy_mono lp lw W : (greedy lp lw W ≤ greedy lp lw (S W))%nat.
Proof. simpl. repeat case_match; try case_decide; lia. Qed.

Lemma greedy_bound lp lw W : (greedy lp lw W ≤ W)%nat.
Proof. induction W as [|W IH]; simpl; [lia|]. repeat case_match; lia. Qed.

Lemma greedy_le lp lw W : (greedy lp lw W ≤ length lp)%nat.
Proof.
  induction W as [|W IH]; simpl; [lia|]. destruct (lw !! W); [|done].
  destruct (lp !! greedy lp lw W) eqn:E; [|done]. apply lookup_lt_Some in E. case_decide; lia.
Qed.

Lemma greedy_full lp lw W k : greedy lp lw W = length lp → greedy lp lw (k + W) = length lp.
Proof.
  intros HW. induction k as [|k IH]; [done|]. pose proof (greedy_mono lp lw (k + W)).
  pose proof (greedy_le lp lw (S (k + W))). simpl in *. lia.
Qed.

Lemma subsequence_loop_ok m n W :
  length (low_pat m) = pat_n m → (n + W ≤ length (low_word m))%nat →
  subsequence_loop m n W (greedy (low_pat m) (low_word m) W) =
    Ok (bool_decide (greedy (low_pat m) (low_word m) (n + W) = pat_n m)).
Proof.
  intros Hp. revert W. induction n as [|n IH]; intros W HW; simpl.
  - case_decide; [by rewrite bool_decide_eq_true_2|by rewrite bool_decide_eq_false_2].
  - case_decide as E.
    { rewrite <- Hp in E. pose proof (greedy_full _ _ W (S n) E) as Hf. simpl in Hf.
      rewrite Hf. by rewrite bool_decide_eq_true_2. }
    destruct (lookup_lt (low_word m) _ W HW ltac:(lia)) as [x Hx]. rewrite Hx. simpl.
    pose proof (greedy_le (low_pat m) (low_word m) W) as Hle.
    destruct (lookup_lt (low_pat m) _ (greedy (low_pat m) (low_word m) W) (le_n _) ltac:(lia))
      as [y Hy]. rewrite Hy. simpl.
    assert (greedy (low_pat m) (low_word m) (S W) =
      if decide (x = y) then S (greedy (low_pat m) (low_word m) W)
      else greedy (low_pat m) (low_word m) W) as Hg by (simpl; by rewrite Hx, Hy).
    rewrite <- Hg, (IH (S W)) by lia. by rewrite Nat.add_succ_r.
Qed.

(** No alignment is ahead of the greedy scan. *)
Lemma reaches_greedy m W P A v :
  reaches (pat_n m) (allowb m) (penz m) (bonusz m) W P A v →
  (P ≤ greedy (low_pat m) (low_word m) W)%nat.
Proof.
  intros [acts Ha]. revert W P A v Ha. induction acts as [|a acts IH] using rev_ind; intros W P A v Ha.
  { unfold align in Ha. simpl in Ha. simplify_eq. lia. }
  rewrite align_snoc in Ha. unfold act_step in Ha.
  destruct (align _ _ _ _ acts) as [[[[W0 P0] A0] v0]|] eqn:E; [|done].
  specialize (IH _ _ _ _ eq_refl). pose proof (greedy_mono (low_pat m) (low_word m) W0).
  destruct a; [|simplify_eq; lia].
  destruct (bool_decide (P0 < pat_n m)%nat && allowb m P0 W0 A0) eqn:Hal; [|done]. simplify_eq.
  apply andb_true_iff in Hal as [_ Hal].
  destruct (decide (P0 < greedy (low_pat m) (low_word m) W0)%nat) as [?|Hge]; [lia|].
  assert (P0 = greedy (low_pat m) (low_word m) W0) as HP0 by lia.
  assert (∃ c, low_pat m !! P0 = Some c ∧ low_word m !! W0 = Some c) as (c & Hc1 & Hc2).
  { unfold allowb, allow_match in Hal. destruct (low_pat m !! P0) as [c|]; [|done].
    destruct (low_word m !! W0) as [c'|]; [|done]. simpl in Hal.
    destruct (decide (c ≠ c')) as [|Hcc]; [done|]. apply dec_stable in Hcc. subst. by exists c'. }
  simpl. rewrite Hc2, <- HP0, Hc1, decide_True by done. lia.
Qed.

(** ** [match] *)

Lemma alignment_score_Some p w acts v :
  let m := prepared p w in
  alignment_score p w acts = Some v ↔
  ∃ A, align (pat_n m) (allowb m) (penz m) (bonusz m) acts = Some (word_n m, pat_n m, A, v).
Proof.
  intros m. unfold alignment_score. fold m.
  destruct (align _ _ _ _ acts) as [[[[W P] A] x]|]; [|naive_solver].
  case_decide as E; [destruct E as [-> ->]|]; naive_solver.
Qed.

Lemma no_alignment p w acts :
  let m := prepared p w in
  (greedy (low_pat m) (low_word m) (word_n m) < pat_n m)%nat → alignment_score p w acts = None.
Proof.
  intros m Hg. destruct (alignment_score p w acts) as [v|] eqn:E; [|done].
  apply alignment_score_Some in E as [A HA].
  pose proof (reaches_greedy m _ _ _ _ (ex_intro _ acts HA)) as Hle.
  destruct (Nat.lt_irrefl _ (Nat.lt_le_trans _ _ _ Hg Hle)).
Qed.

(** [m] keeps the pattern of [matcher_ok] under changes of the word arrays. *)
Lemma matcher_ok_words p m m' :
  matcher_ok p m →
  Pat m' = Pat m → pat_n m' = pat_n m → low_pat m' = low_pat m → pat_role m' = pat_role m →
  pat_type_set m' = pat_type_set m → score_scale m' = score_scale m →
  boundary (pat_n m) (scores m') → matcher_ok p m'.
Proof. intros []. split; congruence. Qed.

Lemma init_ok s p m w :
  bytes_ok s w → matcher_ok p m →
  ∃ m' b, init s m w = Ok (m', b) ∧ matcher_ok p m' ∧ word_n m' = length (take MaxWord w) ∧
    match b with
    | false => ∀ acts, alignment_score p w acts = None
    | true => take (word_n m') (word m') = take MaxWord w ∧
              (pat_n m' = 0%nat ∨ loaded p w m')
    end.
Proof.
  intros Hok Hm. unfold init.
  assert (Nat.min MaxWord (length w) = length (take MaxWord w)) as En by (by rewrite length_take).
  rewrite En. case_decide as E1.
  { eexists _, false. split; [done|]. split_and!; [by eapply matcher_ok_words; [exact Hm|..|apply Hm]|done|].
    intros acts. apply no_alignment. cbn [prepared low_pat low_word word_n pat_n].
    assert (pat_n m = length (take MaxPat p)) as Ep by apply Hm.
    pose proof (greedy_bound (lower <$> take MaxPat p) (lower <$> take MaxWord w)
      (length (take MaxWord w))). lia. }
  assert (take (length (take MaxWord w)) w = take MaxWord w) as Etake.
  { rewrite length_take. destruct (Nat.min_spec MaxWord (length w)) as [[_ ->]|[H ->]]; [done|].
    rewrite !take_ge by lia. done. }
  set (T := take MaxWord w) in *. rewrite Etake. case_decide as E2.
  { eexists _, true. split; [done|]. split; [by eapply matcher_ok_words; [exact Hm|..|apply Hm]|].
    split; [done|]. split; [|by left]. simpl. apply take_overwrite. }
  cbn [word set_word set_low_word]. rewrite take_overwrite.
  set (m2 := set_low_word _ _).
  assert (length (low_pat m2) = pat_n m2) as Hlp.
  { simpl. rewrite (mo_low _ _ Hm), (mo_n _ _ Hm). simpl. by rewrite length_fmap. }
  assert (take (length T) (low_word m2) = lower <$> T) as Hlw.
  { simpl. rewrite <- (length_fmap lower T) at 1. apply take_overwrite. }
  assert (matcher_ok p m2) as Hm2 by (by eapply matcher_ok_words; [exact Hm|..|apply Hm]).
  pose proof (subsequence_loop_ok m2 (length T) 0 Hlp) as Hsub. rewrite Nat.add_0_r in Hsub.
  simpl greedy in Hsub at 1. rewrite Hsub; clear Hsub.
  2: { eapply take_length_le; [exact Hlw|]. by rewrite length_fmap. }
  assert (∀ W, (W ≤ length T)%nat →
    greedy (low_pat m2) (low_word m2) W = greedy (lower <$> take MaxPat p) (lower <$> T) W) as Hgr.
  { assert (low_pat m2 = lower <$> take MaxPat p) as -> by apply Hm.
    induction W as [|W IH]; intros HW; cbn [greedy]; [done|].
    rewrite (take_lookup_lt _ _ _ W Hlw) by lia. by rewrite IH by lia. }
  cbn [Res_bind]. case_bool_decide as Es.
  - assert (take (length T) (word m2) = T) as Hw2 by apply take_overwrite.
    cbn [Res_bind]. rewrite calculate_roles_ok by (by apply bytes_ok_take).
    cbn [Res_bind fst snd]. eexists _, true. split; [done|].
    assert (matcher_ok p (set_word_roles (type_set T) (overwrite (spec_roles Empty T) (word_role m2)) m2))
      as Hm3 by (by eapply matcher_ok_words; [exact Hm2|..|apply Hm2]).
    split_and!; [done|done|done|]. right. split; try done.
    simpl. rewrite <- (spec_roles_length Empty T) at 1. apply take_overwrite.
  - eexists _, false. split; [done|]. split_and!; [done|done|]. intros acts. apply no_alignment.
    cbn [prepared low_pat low_word word_n pat_n]. fold T. rewrite <- Hgr by lia. pose proof (greedy_le (low_pat m2) (low_word m2) (length T)) as Hle.
    rewrite Hlp in Hle. assert (pat_n m2 = length (take MaxPat p)) as <- by apply Hm. lia.
Qed.

(** After a successful match phase, the table is good for the loaded word. *)
Record matched (p w : bytes) (m : FuzzyMatcher) : Prop := {
  md_loaded : loaded p w m;
  md_table : tab_ok m (λ P W, (W ≤ word_n m)%nat ∧ (P ≤ pat_n m)%nat) (scores m);
}.

Lemma tab_ok_scores m t t' D :
  tab_ok (set_scores t' m) D t ↔ tab_ok m D t.
Proof.
  assert (∀ t0 P W A c, good (set_scores t' m) t0 P W A c ↔ good m t0 P W A c) as Hg
    by (intros; split; intros [G1 G2 G3 G4]; split; assumption).
  unfold tab_ok. setoid_rewrite Hg. done.
Qed.

Lemma loaded_contains p w m b : loaded p w m → loaded p w (set_contains b m).
Proof. intros [[] ?????]. by split. Qed.

Lemma build_graph_matched p w m :
  loaded p w m → (0 < pat_n m)%nat → ∃ m', build_graph m = Ok m' ∧ matched p w m' ∧
    word_contains_pattern m' = word_contains_pattern m.
Proof.
  intros Hl Hpn. destruct (build_graph_ok m (loaded_word_ok _ _ _ Hl) Hpn) as (t & -> & Hb & Ht);
    [apply (ld_ok _ _ _ Hl)|].
  eexists. split; [done|]. split; [|done]. split.
  - destruct Hl as [[] ?????]. by split.
  - by apply tab_ok_scores.
Qed.

(** The alignments of the loaded matcher are those of the pattern and word. *)
Lemma loaded_reaches p w m W P A v :
  loaded p w m → (W ≤ word_n m)%nat →
  reaches (pat_n m) (allowb m) (penz m) (bonusz m) W P A v ↔
  reaches (pat_n (prepared p w)) (allowb (prepared p w)) (penz (prepared p w))
    (bonusz (prepared p w)) W P A v.
Proof.
  intros Hl HW. destruct (loaded_n p w m Hl) as [En Ep]. rewrite <- Ep.
  assert (∀ acts, (length acts ≤ word_n m)%nat →
    align (pat_n m) (allowb m) (penz m) (bonusz m) acts =
    align (pat_n m) (allowb (prepared p w)) (penz (prepared p w)) (bonusz (prepared p w)) acts) as Hext.
  { intros acts Hlen. apply (align_ext _ (word_n m)); [|done]. intros. by apply loaded_heuristics. }
  split; intros [acts Ha]; exists acts; pose proof (align_shape _ _ _ _ _ _ _ _ _ Ha) as (-> & _);
    [rewrite <- Hext by done|rewrite Hext by done]; done.
Qed.

(** The two final cells hold the best alignment. *)
Lemma matched_best p w m :
  matched p w m →
  ∃ cMiss cMatch, scores m !! (pat_n m, word_n m, Miss) = Some cMiss ∧
    scores m !! (pat_n m, word_n m, Match) = Some cMatch ∧
    cand (λ v, ∃ acts, alignment_score p w acts = Some v) 512 (Z.max (score cMiss) (score cMatch)).
Proof.
  intros [Hl Ht]. destruct (loaded_n p w m Hl) as [En Ep].
  destruct (Ht (pat_n m) (word_n m) Miss ltac:(done)) as (cS & HS & GS).
  destruct (Ht (pat_n m) (word_n m) Match ltac:(done)) as (cM & HM & GM).
  exists cS, cM. split_and!; [done|done|].
  pose proof (wo_word_n _ (loaded_word_ok _ _ _ Hl)) as Hn. unfold MaxWord in Hn.
  eapply cand_ext; [|apply cand_union; [apply (cand_weaken _ (4 * Z.of_nat (word_n m)) 512); [lia|]..|lia];
    [apply (g_best _ _ _ _ _ _ GS)|apply (g_best _ _ _ _ _ _ GM)]].
  intros v. simpl. rewrite !(loaded_reaches p w m) by done. setoid_rewrite alignment_score_Some.
  unfold reaches. rewrite <- En, <- Ep. split.
  - intros [[acts Ha]|[acts Ha]]; eauto.
  - intros (acts & [] & Ha); [right|left]; eauto.
Qed.

(** ** The traceback *)

(** From a reachable cell, the [Prev] flags spell an alignment with its score. *)
Lemma trace_actions_best p w m W P A c :
  matched p w m → (W ≤ word_n m)%nat → (P ≤ pat_n m)%nat →
  scores m !! (P, W, A) = Some c →
  (∃ v, reaches (pat_n m) (allowb m) (penz m) (bonusz m) W P A v) →
  ∃ acts, trace_actions m W P A = Ok acts ∧
    align (pat_n m) (allowb m) (penz m) (bonusz m) acts = Some (W, P, A, score c).
Proof.
  intros [Hl Ht]. revert P A c. induction W as [|W IH]; intros P A c HW HP Hc [v Hv].
  - exists []. split; [done|]. destruct (Ht P 0%nat A ltac:(done)) as (c' & Hc' & G).
    assert (c' = c) as -> by congruence. destruct (g_best _ _ _ _ _ _ G) as [((acts & Ha) & _)|[Hno _]];
      [|by destruct (Hno v)].
    destruct (align_shape _ _ _ _ _ _ _ _ _ Ha) as (E & _). symmetry in E.
    apply nil_length_inv in E. by subst acts.
  - destruct (Ht P (S W) A ltac:(done)) as (c' & Hc' & G). assert (c' = c) as -> by congruence.
    destruct (g_prev _ _ _ _ _ _ G ltac:(done) (ex_intro _ v Hv)) as (c1 & Hc1 & Hr1 & Hstep).
    simpl in Hc1, Hr1, Hstep.
    assert (pred_pos P A ≤ pat_n m)%nat as HP1 by (unfold pred_pos; destruct A; lia).
    destruct (IH (pred_pos P A) (Prev c) c1 ltac:(lia) HP1 Hc1 Hr1) as (acts & Hacts & Hal).
    exists (acts ++ [A]). split; [|by rewrite align_snoc, Hal].
    cbn [trace_actions]. rewrite Hc. cbn [read Res_bind].
    assert ((if decide (A = Match) then match P with O => Fault | S P' => Ok P' end else Ok P) =
            Ok (E := unit) (pred_pos P A)) as ->.
    { destruct A; [|done]. simpl. destruct P as [|P]; [|done]. by apply reaches_row0 in Hv. }
    cbn [Res_bind]. rewrite Hc1. cbn [read Res_bind]. by rewrite Hacts.
Qed.

(** The traceback stays inside the table even when no alignment exists. *)
Lemma trace_actions_safe p w m W P A :
  matched p w m → (W ≤ word_n m)%nat → (P ≤ pat_n m)%nat → (A = Match → 1 ≤ P)%nat →
  ∃ acts, trace_actions m W P A = Ok acts.
Proof.
  intros [Hl Ht]. revert P A. induction W as [|W IH]; intros P A HW HP HA; [by exists []|].
  destruct (Ht P (S W) A ltac:(done)) as (c & Hc & [_ G0 G1 _]).
  assert (pred_pos P A ≤ pat_n m)%nat as HP1 by (unfold pred_pos; destruct A; lia).
  destruct (Ht (pred_pos P A) W (Prev c) ltac:(simpl; lia)) as (c1 & Hc1 & _).
  destruct (IH (pred_pos P A) (Prev c)) as [acts Hacts]; [lia|done| |].
  { intros HPrev. destruct A; simpl in *; specialize (G1 : P = 1%nat → _).
    - destruct P as [|[|P]]; [lia| |simpl; lia]. rewrite G1 in HPrev by done. done.
    - destruct P; [rewrite G0 in HPrev by done; done|lia]. }
  cbn [trace_actions]. rewrite Hc. cbn [read Res_bind].
  assert ((if decide (A = Match) then match P with O => Fault | S P' => Ok P' end else Ok P) =
          Ok (E := unit) (pred_pos P A)) as ->.
  { destruct A; [|done]. destruct P; [lia|done]. }
  cbn [Res_bind]. rewrite Hc1. cbn [read Res_bind]. rewrite Hacts. by eexists.
Qed.

(** ** Correctness of [match] *)

(** A matcher after the constructor and any number of matches. *)
Definition matcher_after (char_signed : bool) (pattern : bytes) (history : list bytes)
  : Res unit FuzzyMatcher :=
  Res_bind (new_matcher char_signed pattern)
    (for_each history (λ w m, Res_bind (match_word char_signed m w) (λ r, Ok r.1))).

Definition outcome_ok (p w : bytes) (r : option spec_float) : Prop :=
  match r with
  | None => ∀ acts, alignment_score p w acts = None
  | Some x => ∃ acts v, best_alignment p w acts v ∧
                x = if decide (p = []) then f32_of_Z 1 else final_score (prepared p w) v
  end.

(** What a match leaves behind for [dumpLast]. *)
Definition dump_ok (p w : bytes) (m : FuzzyMatcher) (r : option spec_float) : Prop :=
  ∃ d, dumpLast m = Ok d ∧
    (is_Some r → if decide (p = []) then d = take MaxWord w
                 else ∃ acts v, best_alignment p w acts v ∧ d = bracket Miss acts (take MaxWord w)).

Lemma empty_pattern_alignment w : best_alignment [] w (replicate (length (take MaxWord w)) Miss) 0.
Proof.
  set (m := prepared [] w).
  assert (∀ acts W P A v, align 0 (allowb m) (penz m) (bonusz m) acts = Some (W, P, A, v) → v = 0) as H0.
  { induction acts as [|a acts IH] using rev_ind; intros W P A v.
    - unfold align. simpl. intros [=]. done.
    - rewrite align_snoc. unfold act_step.
      destruct (align _ _ _ _ acts) as [[[[W0 P0] A0] v0]|]; [|done].
      specialize (IH _ _ _ _ eq_refl). subst v0. destruct a.
      + rewrite bool_decide_eq_false_2 by lia. done.
      + unfold miss_pen. rewrite decide_False by lia. intros [= <- <- <- <-]. done. }
  split.
  - apply alignment_score_Some. exists Miss. fold m. change (pat_n m) with 0%nat.
    change (word_n m) with (length (take MaxWord w)).
    induction (length (take MaxWord w)) as [|n IH]; [done|].
    rewrite replicate_S_end, align_snoc, IH. unfold act_step, miss_pen.
    rewrite decide_False by lia. done.
  - intros acts v' [A HA]%alignment_score_Some. apply H0 in HA. lia.
Qed.

Lemma matched_dump p w m r :
  matched p w m → word_contains_pattern m = true → (0 < pat_n m)%nat →
  (is_Some r → ∃ acts, is_Some (alignment_score p w acts)) → dump_ok p w m r.
Proof.
  intros Hm Hc Hpn Hr. destruct (matched_best p w m Hm) as (cS & cM & HS & HM & Hbest).
  pose proof (md_loaded _ _ _ Hm) as Hl. destruct (loaded_n p w m Hl) as [En Ep].
  unfold dump_ok, dumpLast. rewrite decide_False by lia. rewrite Hc, HM, HS. cbn [negb read Res_bind].
  assert (word_n m ≠ 0%nat ∨ (word_n m = 0%nat ∧ ∀ acts, alignment_score p w acts = None)) as [Hw|[Hw Hno]].
  { destruct (decide (word_n m = 0%nat)) as [E|]; [right|by left]. split; [done|].
    intros acts. destruct (alignment_score p w acts) as [v|] eqn:Ea; [|done].
    apply alignment_score_Some in Ea as [A HA]. apply align_shape in HA. lia. }
  2: { rewrite decide_True by done. eexists. split; [done|]. intros Hs.
       destruct (Hr Hs) as [acts [v Hv]]. by rewrite Hno in Hv. }
  rewrite decide_False by done. rewrite (ld_word _ _ _ Hl).
  set (last := bool_decide (score cS < score cM)).
  destruct (trace_actions_safe p w m (word_n m) (pat_n m) last Hm) as [acts Hacts]; [done|done|lia|].
  rewrite Hacts. cbn [Res_bind]. eexists. split; [done|]. intros Hs.
  destruct (Hr Hs) as [acts0 [v0 Hv0]].
  destruct Hbest as [(Hex & Hmax & Hrange)|[Hno _]]; [|exfalso; by eapply Hno; eexists].
  destruct (md_table _ _ _ Hm (pat_n m) (word_n m) Miss ltac:(done)) as (cS' & HS' & GS).
  destruct (md_table _ _ _ Hm (pat_n m) (word_n m) Match ltac:(done)) as (cM' & HM' & GM).
  assert (cS' = cS) as -> by congruence. assert (cM' = cM) as -> by congruence.
  pose proof (wo_word_n _ (loaded_word_ok _ _ _ Hl)) as Hn. unfold MaxWord in Hn.
  assert (∃ c, scores m !! (pat_n m, word_n m, last) = Some c ∧
    score c = Z.max (score cS) (score cM) ∧
    ∃ v, reaches (pat_n m) (allowb m) (penz m) (bonusz m) (word_n m) (pat_n m) last v)
    as (c & Hcl & Hsc & Hreach).
  { destruct (g_best _ _ _ _ _ _ GS) as [(RS & _ & ?)|[NS ?]], (g_best _ _ _ _ _ _ GM) as [(RM & _ & ?)|[NM ?]];
      change AwfulScore with (-8192) in *; unfold last; case_bool_decide; eexists;
      (split; [done|]); (split; [lia|]); try (by eexists); exfalso; lia. }
  destruct (trace_actions_best p w m _ _ _ c Hm (le_n _) (le_n _) Hcl Hreach) as (acts' & Ha' & Hal).
  assert (acts' = acts) as -> by congruence.
  assert (alignment_score p w acts = Some (score c)) as Has.
  { apply alignment_score_Some. exists last. rewrite <- En, <- Ep.
    pose proof (align_shape _ _ _ _ _ _ _ _ _ Hal) as (Hlen & _).
    rewrite <- Hal. symmetry. apply (align_ext _ (word_n m)); [|lia]. intros. by apply loaded_heuristics. }
  rewrite decide_False by (intros ->; rewrite Ep in Hpn; simpl in Hpn; lia).
  exists acts, (score c). split; [|done]. split; [done|]. intros acts' v' Hv'.
  rewrite Hsc. apply Hmax. by exists acts'.
Qed.

Lemma pat_n_zero p m : matcher_ok p m → pat_n m = 0%nat ↔ p = [].
Proof. intros Hm. rewrite (mo_n _ _ Hm). by destruct p. Qed.

Lemma final_score_loaded p w m v : loaded p w m → final_score m v = final_score (prepared p w) v.
Proof.
  intros Hl. destruct (loaded_n p w m Hl) as [En Ep]. unfold final_score. rewrite En, Ep.
  by rewrite (mo_scale _ _ (ld_ok _ _ _ Hl)).
Qed.

(** One match, from any state the matcher can be in. *)
Lemma match_word_ok s p m w :
  bytes_ok s w → matcher_ok p m →
  ∃ m' r, match_word s m w = Ok (m', r) ∧ matcher_ok p m' ∧ outcome_ok p w r ∧ dump_ok p w m' r.
Proof.
  intros Hok Hm. unfold match_word.
  destruct (init_ok s p m w Hok Hm) as (m1 & b & -> & Hm1 & Hn1 & Hb). cbn [Res_bind fst snd].
  destruct b; cbn [negb].
  2: { eexists _, None. split; [done|]. split; [by eapply matcher_ok_words; [exact Hm1|..|apply Hm1]|].
       split; [done|]. unfold dump_ok, dumpLast. simpl.
       destruct (decide _); [by eexists; split; [|intros []]|].
       destruct (decide _); by eexists; split; [|intros []]. }
  destruct Hb as [Hw Hb]. change (pat_n (set_contains true m1)) with (pat_n m1). case_decide as E0.
  { pose proof (proj1 (pat_n_zero _ _ Hm1) E0) as ->. eexists _, (Some _). split; [done|].
    split; [by eapply matcher_ok_words; [exact Hm1|..|apply Hm1]|]. split.
    - eexists _, 0. split; [apply empty_pattern_alignment|done].
    - unfold dump_ok, dumpLast. change (pat_n (set_contains true m1)) with (pat_n m1).
      rewrite decide_True by done. eexists. split; [done|]. intros _. simpl. exact Hw. }
  destruct Hb as [?|Hl]; [done|]. apply (loaded_contains _ _ _ true) in Hl.
  destruct (build_graph_matched p w _ Hl ltac:(simpl; lia)) as (m2 & -> & Hm2 & Hc). cbn [Res_bind].
  destruct (matched_best p w m2 Hm2) as (cS & cM & -> & -> & Hbest). cbn [read Res_bind].
  pose proof (md_loaded _ _ _ Hm2) as Hl2. destruct (loaded_n p w m2 Hl2) as [En2 Ep2].
  assert (0 < pat_n m2)%nat as Hpn by (rewrite Ep2, <- (proj2 (loaded_n p w _ Hl)); simpl; lia).
  assert (p ≠ []) as Hp by (intros ->; by rewrite Ep2 in Hpn; simpl in Hpn; lia).
  change (is_awful (Z.max (score cS) (score cM))) with
    (bool_decide (Z.max (score cS) (score cM) < -4096)).
  case_bool_decide as Ea.
  - eexists _, None. split; [done|]. split; [apply (ld_ok _ _ _ Hl2)|]. split.
    + intros acts. destruct Hbest as [(_ & _ & ?)|[Hno _]]; [lia|].
      destruct (alignment_score p w acts) as [v|] eqn:Ev; [|done]. destruct (Hno v). by exists acts.
    + apply matched_dump; [done|by rewrite Hc|done|intros []; done].
  - destruct Hbest as [((acts & Ha) & Hmax & _)|[_ ?]]; [|change AwfulScore with (-8192) in *; lia].
    eexists _, (Some _). split; [done|]. split; [apply (ld_ok _ _ _ Hl2)|]. split.
    + exists acts, (Z.max (score cS) (score cM)). split.
      * split; [done|]. intros acts' v' Hv'. apply Hmax. by exists acts'.
      * rewrite decide_False by done. by apply final_score_loaded.
    + apply matched_dump; [done|by rewrite Hc|done|]. intros _. exists acts. by rewrite Ha.
Qed.

Lemma matcher_after_ok s p ws :
  bytes_ok s p → Forall (bytes_ok s) ws → ∃ m, matcher_after s p ws = Ok m ∧ matcher_ok p m.
Proof.
  intros Hp Hws. unfold matcher_after. destruct (new_matcher_ok s p Hp) as (m0 & -> & Hm0).
  cbn [Res_bind]. apply (for_each_prefix (λ _, matcher_ok p)); [done|].
  intros pre w post m -> Hm. apply Forall_app in Hws as [_ [Hw _]%Forall_cons].
  destruct (match_word_ok s p m w Hw Hm) as (m' & r & -> & Hm' & _). by exists m'.
Qed.

Lemma new_matcher_fault p : Exists (λ c, 128 ≤ code c) (take MaxPat p) → new_matcher true p = Fault.
Proof.
  intros Hex. unfold new_matcher.
  assert (take (Nat.min MaxPat (length p)) p = take MaxPat p) as ->.
  { destruct (Nat.min_spec MaxPat (length p)) as [[_ ->]|[H ->]]; [done|]. by rewrite !take_ge by lia. }
  by rewrite signed_char_out_of_bounds.
Qed.

(** C29. Provided plain [char] is unsigned or the pattern, the word and all words matched before
    are ASCII: whatever was matched before, [match] neither reads outside its arrays
    nor a stale cell, no score leaves its 15-bit field, and the result is exactly
    what the header promises: nothing if and only if no alignment of pattern and
    word is allowed, otherwise the normalised score of a best alignment.  The condition
    is needed: where plain [char] is signed, a pattern with a byte over 127 among its first
    63 makes the constructor read in front of its table of character types. *)
Theorem match_returns_best_alignment (char_signed : bool) (p w : bytes) (history : list bytes) :
  (bytes_ok char_signed p → bytes_ok char_signed w → Forall (bytes_ok char_signed) history →
   ∃ m m' r, matcher_after char_signed p history = Ok m ∧ match_word char_signed m w = Ok (m', r) ∧
     match r with
     | None => ∀ acts, alignment_score p w acts = None
     | Some x => ∃ acts v, best_alignment p w acts v ∧
                   x = if decide (p = []) then f32_of_Z 1 else final_score (prepared p w) v
     end) ∧
  (char_signed = true → Exists (λ c, 128 ≤ code c) (take MaxPat p) →
   matcher_after char_signed p history = Fault).
Proof.
  split.
  - intros Hp Hw Hh. destruct (matcher_after_ok _ _ _ Hp Hh) as (m & Hm & Hok).
    destruct (match_word_ok _ _ _ _ Hw Hok) as (m' & r & Hr & _ & Ho & _). by exists m, m', r.
  - intros -> Hex. unfold matcher_after. by rewrite new_matcher_fault.
Qed.

(** On x86 with an ASCII pattern, and on AArch64 with a word in UTF-8. *)
Lemma match_returns_best_alignment_witness :
  (∃ m m' r, matcher_after true (str "u_p") [str "other"] = Ok m ∧
    match_word true m (str "unique_ptr") = Ok (m', r) ∧
    match r with
    | None => ∀ acts, alignment_score (str "u_p") (str "unique_ptr") acts = None
    | Some x => ∃ acts v, best_alignment (str "u_p") (str "unique_ptr") acts v ∧
                  x = if decide (str "u_p" = []) then f32_of_Z 1
                      else final_score (prepared (str "u_p") (str "unique_ptr")) v
    end) ∧
  (∃ m m' r, matcher_after false [ascii_of_N 195; ascii_of_N 169] [] = Ok m ∧
    match_word false m (str "caf" ++ [ascii_of_N 195; ascii_of_N 169]) = Ok (m', r) ∧
    match r with
    | None => ∀ acts, alignment_score [ascii_of_N 195; ascii_of_N 169] (str "caf" ++ [ascii_of_N 195; ascii_of_N 169]) acts = None
    | Some x => ∃ acts v, best_alignment [ascii_of_N 195; ascii_of_N 169] (str "caf" ++ [ascii_of_N 195; ascii_of_N 169]) acts v ∧
                  x = if decide ([ascii_of_N 195; ascii_of_N 169] = []) then f32_of_Z 1
                      else final_score (prepared [ascii_of_N 195; ascii_of_N 169] (str "caf" ++ [ascii_of_N 195; ascii_of_N 169])) v
    end) ∧
  matcher_after true [ascii_of_N 195; ascii_of_N 169] [] = Fault.
Proof.
  split; [|split].
  - apply (match_returns_best_alignment true (str "u_p") (str "unique_ptr") [str "other"]);
      repeat (apply Forall_cons; split; [try (right; vm_compute; reflexivity)|]); try (apply Forall_nil; exact I).
  - apply (match_returns_best_alignment false [ascii_of_N 195; ascii_of_N 169] _ []);
      repeat (apply Forall_cons; split; [left; reflexivity|]); apply Forall_nil; exact I.
  - apply (match_returns_best_alignment true [ascii_of_N 195; ascii_of_N 169] [] []); [reflexivity|].
    left. vm_compute. discriminate.
Defined.

(** [dumpLast] never reads outside the score table, also when every match is
    forbidden; after a successful match the characters it brackets are the
    matched characters of a best alignment. *)
Theorem dump_last_shows_best_alignment
    (char_signed : bool) (p w : bytes) (history : list bytes) :
  bytes_ok char_signed p → bytes_ok char_signed w → Forall (bytes_ok char_signed) history →
  ∃ m m' r d, matcher_after char_signed p history = Ok m ∧
    match_word char_signed m w = Ok (m', r) ∧ dumpLast m' = Ok d ∧
    (is_Some r → if decide (p = []) then d = take MaxWord w
                 else ∃ acts v, best_alignment p w acts v ∧ d = bracket Miss acts (take MaxWord w)).
Proof.
  intros Hp Hw Hh. destruct (matcher_after_ok _ _ _ Hp Hh) as (m & Hm & Hok).
  destruct (match_word_ok _ _ _ _ Hw Hok) as (m' & r & Hr & _ & _ & d & Hd & Hs).
  by exists m, m', r, d.
Qed.

Lemma dump_last_shows_best_alignment_witness :
  ∃ m m' r d, matcher_after true (str "up") [] = Ok m ∧
    match_word true m (str "unique_ptr") = Ok (m', r) ∧ dumpLast m' = Ok d ∧
    (is_Some r → if decide (str "up" = []) then d = take MaxWord (str "unique_ptr")
                 else ∃ acts v, best_alignment (str "up") (str "unique_ptr") acts v ∧
                        d = bracket Miss acts (take MaxWord (str "unique_ptr"))).
Proof.
  apply dump_last_shows_best_alignment;
    repeat (apply Forall_cons; split; [right; vm_compute; reflexivity|]); apply Forall_nil; exact I.
Defined.

(** ** The normalised score *)

Definition f32_le (x y : spec_float) : bool := SFleb x y.

(** The score of clamped value [k] for a pattern of [n] characters. *)
Definition scaled (n k : nat) : spec_float :=
  f32_mul (f32_div (f32_of_Z 1) (f32_of_Z (PerfectBonus * Z.of_nat n))) (f32_of_Z (Z.of_nat k)).

Definition score_checked (n k : nat) : bool :=
  f32_le (f32_of_Z 0) (scaled n k) && f32_le (scaled n k) (f32_of_Z 1) &&
  f32_le (f32_of_Z 0) (f32_mul (scaled n k) (f32_of_Z 2)) &&
  f32_le (f32_mul (scaled n k) (f32_of_Z 2)) (f32_of_Z 2).

Lemma score_checked_all :
  forallb (λ n, forallb (score_checked n) (seq 0 (S (4 * n)))) (seq 1 MaxPat) = true.
Proof. vm_compute. reflexivity. Qed.

Lemma score_checked_true n k : (1 ≤ n ≤ MaxPat)%nat → (k ≤ 4 * n)%nat → score_checked n k = true.
Proof.
  intros Hn Hk. pose proof score_checked_all as H. rewrite forallb_forall in H.
  specialize (H n ltac:(apply in_seq; lia)). rewrite forallb_forall in H.
  apply H, in_seq. lia.
Qed.

(** Scores are normalised: for every pattern length, word and best value,
    the float returned lies in [0, 1], or in [0, 2] when the pattern is as long
    as the word. *)
Theorem final_score_range (p w : bytes) (best : Z) :
  p ≠ [] →
  let m := prepared p w in
  f32_le (f32_of_Z 0) (final_score m best) = true ∧
  f32_le (final_score m best) (f32_of_Z (if decide (word_n m = pat_n m) then 2 else 1)) = true.
Proof.
  intros Hp m. set (n := pat_n m).
  assert (1 ≤ n < 1 + MaxPat)%nat as Hn.
  { change n with (length (take MaxPat p)). rewrite length_take. unfold MaxPat.
    assert (length p ≠ 0)%nat by (by intros ?%nil_length_inv). lia. }
  set (k := Z.to_nat (Z.min (PerfectBonus * Z.of_nat n) (Z.max 0 best))).
  assert (Z.of_nat k = Z.min (PerfectBonus * Z.of_nat n) (Z.max 0 best)) as Hk.
  { unfold k, PerfectBonus. lia. }
  pose proof (score_checked_true n k ltac:(lia) ltac:(unfold PerfectBonus in Hk; lia)) as H.
  unfold score_checked in H. rewrite !andb_true_iff in H. destruct H as (((H1 & H2) & H3) & H4).
  unfold final_score. fold n. rewrite <- Hk.
  assert (score_scale m = f32_div (f32_of_Z 1) (f32_of_Z (PerfectBonus * Z.of_nat n))) as ->.
  { unfold m, prepared, score_scale. rewrite decide_False; [done|]. change (n ≠ 0%nat). lia. }
  change (f32_mul (f32_div _ _) (f32_of_Z (Z.of_nat k))) with (scaled n k).
  case_decide; split; assumption.
Qed.

Lemma final_score_range_witness :
  f32_le (f32_of_Z 0) (final_score (prepared (str "abs") (str "Abs")) 11) = true ∧
  f32_le (final_score (prepared (str "abs") (str "Abs")) 11) (f32_of_Z 2) = true.
Proof. apply (final_score_range (str "abs") (str "Abs") 11). discriminate. Defined.
