(* ===== verification/Glob.v ===== *)
(** * Glob patterns (src/support/glob_pattern.{h,cpp})

    [GlobPattern::create] splits a pattern into a literal prefix and, after brace
    expansion, a list of [SubGlobPattern]s, each with its path segments and its
    compiled character classes; [match] runs a backtracking matcher over them.

    Positions are natural numbers; reading a string at or past its end is a
    [Fault] ([StringRef::operator[]] asserts, raw pointers are undefined).  A
    [std::bitset<256>] is an integer bit mask; setting a bit outside it throws,
    which is a [Fault] too.  [char_signed] says whether plain [char] is signed. *)
From S2P Require Import Prelude.
Local Open Scope Z_scope.
Local Open Scope cpp_scope.

(** The error messages. *)
Inductive glob_error :=
| StrayEscapeInExpansion
| RangeOutOfOrder (c_begin c_end : ascii)
| UnmatchedBracketStray
| UnmatchedBracket
| NestedBraces
| EmptyBraces
| StrayEscape
| IncompleteBraces
| TooManyExpansions
| MultipleSlash
| MultipleStar.

Global Instance glob_error_eq_dec : EqDecision glob_error.
Proof. solve_decision. Defined.

Abbreviation result A := (Res glob_error A).

Definition at_ (s : bytes) (i : nat) : result ascii := read (s !! i).

(** [++c] on a [char]. *)
Definition char_succ (c : ascii) : ascii := ascii_of_N (Z.to_N ((code c + 1) mod 256)).

(** ** Character classes *)

Abbreviation GlobCharSet := Z.

(** [bv.set(c, true)]: the [char] is converted to [size_t]. *)
Definition set_char (char_signed : bool) (bv : GlobCharSet) (c : ascii) : result GlobCharSet :=
  if decide (0 ≤ char_value char_signed c) then Ok (Z.setbit bv (char_value char_signed c))
  else Fault.

(** [for(char c = c_begin; c <= c_end; ++c)].  A [char] takes 256 values, so a
    loop that survives 257 rounds never ends. *)
Fixpoint range_loop (char_signed : bool) (fuel : nat) (c c_end : ascii) (bv : GlobCharSet)
  : result GlobCharSet :=
  match fuel with
  | O => Stuck
  | S fuel =>
    if decide (char_value char_signed c ≤ char_value char_signed c_end) then
      let? bv' := (if decide (c = "/"%char) then Ok bv else set_char char_signed bv c) in
      range_loop char_signed fuel (char_succ c) c_end bv'
    else Ok bv
  end.

(** The loop of [expand]; [i] grows in every round. *)
Fixpoint expand_loop (char_signed : bool) (fuel : nat) (s : bytes) (i : nat) (bv : GlobCharSet)
  : result GlobCharSet :=
  match fuel with
  | O => Stuck
  | S fuel =>
    let e := length s in
    if decide (e ≤ i)%nat then Ok bv
    else
      let? c := at_ s i in
      if decide (c = "\"%char) then
        let i := S i in
        if decide (i = e) then Err StrayEscapeInExpansion
        else
          let? d := at_ s i in
          let? bv' := (if decide (d ≠ "/"%char) then set_char char_signed bv d else Ok bv) in
          expand_loop char_signed fuel s (S i) bv'
      else if decide (c = "-"%char) then
        if decide (i = 0%nat ∨ S i = e) then
          let? bv' := set_char char_signed bv "-"%char in
          expand_loop char_signed fuel s (S i) bv'
        else
          let? c_begin := at_ s (i - 1) in
          let? c_end0 := at_ s (i + 1) in
          let i := S i in
          let? r := (if decide (c_end0 = "\"%char) then
                       let? d := at_ s (S i) in
                       (** [if(s[i] == e)] compares the character with the length *)
                       if decide (char_value char_signed d = Z.of_nat e)
                       then Err StrayEscapeInExpansion else Ok (S i, d)
                     else Ok (i, c_end0)) in
          let '(i, c_end) := r in
          if decide (char_value char_signed c_end < char_value char_signed c_begin)
          then Err (RangeOutOfOrder c_begin c_end)
          else
            let? bv' := range_loop char_signed 257 c_begin c_end bv in
            expand_loop char_signed fuel s (S i) bv'
      else
        let? bv' := (if decide (c ≠ "/"%char) then set_char char_signed bv c else Ok bv) in
        expand_loop char_signed fuel s (S i) bv'
  end.

Definition expand (char_signed : bool) (s : bytes) : result GlobCharSet :=
  expand_loop char_signed (S (length s)) s 0 0.

(** ** Brace expansion *)

Record BraceExpansion := mkBrace {
  be_start : nat;
  be_length : nat;
  terms : list bytes;
}.

(** [s.substr(from, n)]. *)
Definition substr (s : bytes) (from n : nat) : bytes := take n (drop from s).

(** [while(i != e && s[i] != ']')] of [parseBraceExpansions]. *)
Fixpoint skip_bracket (fuel : nat) (s : bytes) (i : nat) : result nat :=
  match fuel with
  | O => Stuck
  | S fuel =>
    if decide (i = length s) then Ok i
    else
      let? c := at_ s i in
      if decide (c = "]"%char) then Ok i
      else skip_bracket fuel s (if decide (c = "\"%char) then S (S i) else S i)
  end.

(** The scanning loop.  [current] is [current_be], the expansion being read
    (the last of the vector), [done] the finished ones, last first. *)
Fixpoint brace_loop (fuel : nat) (s : bytes) (i : nat) (done : list BraceExpansion)
    (current : option (nat * list bytes)) (term_begin : nat) : result (list BraceExpansion) :=
  match fuel with
  | O => Stuck
  | S fuel =>
    let e := length s in
    if decide (i = e) then
      match current with Some _ => Err IncompleteBraces | None => Ok (rev done) end
    else
      let? c := at_ s i in
      if decide (c = "["%char) then
        let i := S i in
        let? d := at_ s i in
        let i := if decide (d = "]"%char) then S i else i in
        let? i := skip_bracket (S (length s)) s i in
        if decide (i = e) then Err UnmatchedBracket
        else brace_loop fuel s (S i) done current term_begin
      else if decide (c = "{"%char) then
        match current with
        | Some _ => Err NestedBraces
        | None => brace_loop fuel s (S i) done (Some (i, [])) (S i)
        end
      else if decide (c = ","%char) then
        match current with
        | None => brace_loop fuel s (S i) done current term_begin
        | Some (start, ts) =>
          brace_loop fuel s (S i) done
            (Some (start, ts ++ [substr s term_begin (i - term_begin)])) (S i)
        end
      else if decide (c = "}"%char) then
        match current with
        | None => brace_loop fuel s (S i) done current term_begin
        | Some (start, ts) =>
          if decide (ts = [] ∧ i - term_begin = 0)%nat then Err EmptyBraces
          else
            brace_loop fuel s (S i)
              (mkBrace start (i - start + 1) (ts ++ [substr s term_begin (i - term_begin)]) :: done)
              None term_begin
        end
      else if decide (c = "\"%char) then
        let i := S i in
        if decide (i = e) then Err StrayEscape
        else brace_loop fuel s (S i) done current term_begin
      else brace_loop fuel s (S i) done current term_begin
  end.

(** The product of the numbers of terms, saturating at the top of [size_t]. *)
Fixpoint count_subpatterns (num : Z) (bes : list BraceExpansion) : Z :=
  match bes with
  | [] => num
  | be :: bes =>
    let n := Z.of_nat (length (terms be)) in
    if decide ((two64 - 1) / n < num) then two64 - 1 else count_subpatterns (num * n) bes
  end.

(** [std::string::replace(start, length, term)]. *)
Definition replace (s : bytes) (start len : nat) (term : bytes) : bytes :=
  take start s ++ term ++ drop (start + len) s.

(** One round of the final loop, for [term: be.terms] and [orig: subpatterns]. *)
Definition substitute (subpatterns : list bytes) (be : BraceExpansion) : list bytes :=
  concat ((λ term, (λ orig, replace orig (be_start be) (be_length be) term) <$> subpatterns) <$> terms be).

Definition parseBraceExpansions (s : bytes) (max_subpattern_num : Z) : result (list bytes) :=
  if decide (max_subpattern_num = 0 ∨ "{"%char ∉ s) then Ok [s]
  else
    let? bes := brace_loop (S (length s)) s 0 [] None 0 in
    if decide (max_subpattern_num < count_subpatterns 1 bes) then Err TooManyExpansions
    else Ok (foldl substitute [s] (rev bes)).

(** ** SubGlobPattern::create *)

Record Bracket := mkBracket {
  next_offset : nat;
  br_bytes : GlobCharSet;
}.

Record GlobSegment := mkSegment {
  seg_start : nat;
  seg_end : nat;
}.

Record SubGlobPattern := mkSub {
  brackets : list Bracket;
  glob_segments : list GlobSegment;
  pat : bytes;
}.

(** [while(j != e && s[j] != ']')] of [create], which checks for a stray escape. *)
Fixpoint scan_bracket (fuel : nat) (s : bytes) (j : nat) : result nat :=
  match fuel with
  | O => Stuck
  | S fuel =>
    let e := length s in
    if decide (j = e) then Ok j
    else
      let? c := at_ s j in
      if decide (c = "]"%char) then Ok j
      else if decide (c = "\"%char) then
        if decide (S j = e) then Err UnmatchedBracketStray else scan_bracket fuel s (S (S j))
      else scan_bracket fuel s (S j)
  end.

(** [bv->flip()]. *)
Definition flip_set (bv : GlobCharSet) : GlobCharSet := Z.lxor bv (2 ^ 256 - 1).

(** The main loop; [current] is the start of the open segment, if any, and the
    lists are accumulated last first. *)
Fixpoint create_loop (char_signed : bool) (fuel : nat) (s : bytes) (i : nat)
    (current : option nat) (segs : list GlobSegment) (brs : list Bracket)
  : result (list GlobSegment * list Bracket) :=
  match fuel with
  | O => Stuck
  | S fuel =>
    let e := length s in
    if decide (e ≤ i)%nat then
      Ok (rev (match current with Some st => mkSegment st e :: segs | None => segs end), rev brs)
    else
      let st := match current with Some st => st | None => i end in
      let? c := at_ s i in
      if decide (c = "["%char) then
        let i := S i in
        let? d := at_ s i in
        let? j := scan_bracket (S (length s)) s (if decide (d = "]"%char) then S i else i) in
        if decide (j = e) then Err UnmatchedBracket
        else
          let chars := substr s i (j - i) in
          let invert := bool_decide (d = "^"%char) || bool_decide (d = "!"%char) in
          let? bv := expand char_signed (if invert then drop 1 chars else chars) in
          create_loop char_signed fuel s (S j) (Some st) segs
            (mkBracket (S j) (if invert then flip_set bv else bv) :: brs)
      else if decide (c = "\"%char) then
        if decide (S i = e) then Err StrayEscape
        else create_loop char_signed fuel s (S (S i)) (Some st) segs brs
      else if decide (c = "/"%char) then
        if decide (i - st = 1)%nat then Err MultipleSlash
        else create_loop char_signed fuel s (S i) None (mkSegment st i :: segs) brs
      else if decide (c = "*"%char) then
        if decide (i + 1 < e - 1)%nat then
          let? c1 := at_ s (i + 1) in
          let? c2 := (if decide (c1 = "*"%char) then at_ s (i + 2) else Ok "a"%char) in
          if decide (c1 = "*"%char ∧ c2 = "*"%char) then Err MultipleStar
          else create_loop char_signed fuel s (S i) (Some st) segs brs
        else create_loop char_signed fuel s (S i) (Some st) segs brs
      else create_loop char_signed fuel s (S i) (Some st) segs brs
  end.

Definition sub_create (char_signed : bool) (s : bytes) : result SubGlobPattern :=
  let? r := create_loop char_signed (S (length s)) s 0 (Some 0%nat) [] [] in
  Ok (mkSub r.2 r.1 s).

(** ** GlobPattern::create *)

Record GlobPattern := mkGlob {
  prefix : bytes;
  prefix_at_seg_end : bool;
  sub_globs : list SubGlobPattern;
}.

(** [find_first_of("?*[{\\")]. *)
Definition is_meta (c : ascii) : bool :=
  bool_decide (c ∈ [ "?"%char; "*"%char; "["%char; "{"%char; "\"%char ]).

Fixpoint find_meta (s : bytes) : option nat :=
  match s with
  | [] => None
  | c :: s => if is_meta c then Some 0%nat else S <$> find_meta s
  end.

(** The loop over the prefix: [last_slash] is assigned in every round. *)
Fixpoint prefix_check (s : bytes) (i last_slash : nat) : result unit :=
  match s with
  | [] => Ok tt
  | c :: s =>
    if decide (c = "/"%char ∧ i - last_slash = 1)%nat then Err MultipleSlash
    else prefix_check s (S i) i
  end.

Fixpoint create_all (char_signed : bool) (sub_pats : list bytes) : result (list SubGlobPattern) :=
  match sub_pats with
  | [] => Ok []
  | sp :: sub_pats =>
    let? g := sub_create char_signed sp in
    let? gs := create_all char_signed sub_pats in
    Ok (g :: gs)
  end.

Definition create (char_signed : bool) (s : bytes) (max_subpattern_num : Z) : result GlobPattern :=
  match find_meta s with
  | None =>
    let? _ := prefix_check s 0 0 in
    Ok (mkGlob s false [])
  | Some prefix_size =>
    let at_end := bool_decide (prefix_size ≠ 0%nat) && bool_decide (s !! (prefix_size - 1)%nat = Some "/"%char) in
    let n := if at_end then (prefix_size - 1)%nat else prefix_size in
    let pre := take n s in
    let? _ := prefix_check pre 0 0 in
    let rest := drop (if at_end then S n else n) s in
    let? sub_pats := parseBraceExpansions rest max_subpattern_num in
    let? subs := create_all char_signed sub_pats in
    Ok (mkGlob pre at_end subs)
  end.

(** [isTrivialMatchAll] of the header. *)
Definition isTrivialMatchAll (g : GlobPattern) : bool :=
  match prefix g with
  | _ :: _ => false
  | [] =>
    match sub_globs g with
    | [p] => bool_decide (pat p = str "*")
    | [p; _] => bool_decide (pat p = str "**")
    | _ => false
    end
  end.

(** ** Matching *)

(** The local variables of [SubGlobPattern::match]; the backtrace stack has its
    back first. *)
Record BacktraceStat := mkStat {
  st_b : nat;
  st_seg : nat;
  st_wild : bool;
  st_p : nat;
  st_s : nat;
  st_seg_end : nat;
  st_seg_start : nat;
}.

Record match_state := mkState {
  m_b : nat;
  m_seg : nat;
  m_wild : bool;
  m_p : nat;
  m_s : nat;
  m_seg_end : nat;
  m_seg_start : nat;
  m_stack : list BacktraceStat;
}.

Definition save_stat (m : match_state) : match_state :=
  mkState (m_b m) (m_seg m) (m_wild m) (m_p m) (m_s m) (m_seg_end m) (m_seg_start m)
    (mkStat (m_b m) (m_seg m) (m_wild m) (m_p m) (m_s m) (m_seg_end m) (m_seg_start m) :: m_stack m).

Definition with_p (p : nat) (m : match_state) : match_state :=
  mkState (m_b m) (m_seg m) (m_wild m) p (m_s m) (m_seg_end m) (m_seg_start m) (m_stack m).
Definition with_s (s : nat) (m : match_state) : match_state :=
  mkState (m_b m) (m_seg m) (m_wild m) (m_p m) s (m_seg_end m) (m_seg_start m) (m_stack m).
Definition with_b (b : nat) (m : match_state) : match_state :=
  mkState b (m_seg m) (m_wild m) (m_p m) (m_s m) (m_seg_end m) (m_seg_start m) (m_stack m).
Definition with_wild (w : bool) (m : match_state) : match_state :=
  mkState (m_b m) (m_seg m) w (m_p m) (m_s m) (m_seg_end m) (m_seg_start m) (m_stack m).

(** [current_glob_seg = k] with its bounds; [p] too when [move] is set. *)
Definition goto_seg (g : SubGlobPattern) (k : nat) (move : bool) (m : match_state)
  : result match_state :=
  let? sg := read (glob_segments g !! k) in
  Ok (mkState (m_b m) k (m_wild m) (if move then seg_start sg else m_p m) (m_s m) (seg_end sg)
        (seg_start sg) (m_stack m)).

Fixpoint skip_while (f : ascii → bool) (l : bytes) : nat :=
  match l with
  | [] => 0
  | c :: l => if f c then S (skip_while f l) else 0
  end.

(** [while(s != s_end && f( *s)) ++s]; past the end [s] never meets [s_end]. *)
Definition advance (f : ascii → bool) (str : bytes) (s : nat) : result nat :=
  if decide (length str < s)%nat then Fault else Ok (s + skip_while f (drop s str))%nat.

Definition is_slash (c : ascii) : bool := bool_decide (c = "/"%char).
Definition is_star (c : ascii) : bool := bool_decide (c = "*"%char).

(** One round of the loop either returns, goes on, or backtracks. *)
Inductive round := RReturn (b : bool) | RNext (m : match_state) | RBack (m : match_state).

(** [while(p != p_end && ( *p == '*' || *p == '/'))] after [**]. *)
Fixpoint eat_stars (fuel : nat) (g : SubGlobPattern) (m : match_state) : result round :=
  match fuel with
  | O => Stuck
  | S fuel =>
    if decide (m_p m = length (pat g)) then Ok (RNext m)
    else
      let? c := at_ (pat g) (m_p m) in
      if is_star c then eat_stars fuel g (with_p (S (m_p m)) m)
      else if is_slash c then
        if decide (m_seg m + 1 = length (glob_segments g))%nat then Ok (RReturn true)
        else
          let? m' := goto_seg g (m_seg m + 1) false m in
          eat_stars fuel g (with_p (S (m_p m)) m')
      else Ok (RNext m)
  end.

(** [p == seg_start && !(s == s_start || *(s - 1) == '/')]. *)
Definition start_mismatch (str : bytes) (m : match_state) : bool :=
  bool_decide (m_p m = m_seg_start m) &&
  negb (bool_decide (m_s m = 0%nat) || bool_decide (str !! (m_s m - 1)%nat = Some "/"%char)).

(** The [switch] on [*p], for [p != seg_end] and [s != s_end]. *)
Definition match_char (g : SubGlobPattern) (str : bytes) (m : match_state) : result round :=
  let seg_num := length (glob_segments g) in
  let p := m_p m in
  let? c := at_ (pat g) p in
  if decide (c = "*"%char) then
    if decide (S p ≠ length (pat g) ∧ pat g !! S p = Some "*"%char) then
      let m := with_wild true (with_p (p + 2) m) in
      let? r := eat_stars (S (length (pat g))) g m in
      match r with
      | RNext m =>
        if decide (m_p m = m_seg_end m) then
          if decide (m_seg m + 1 = seg_num)%nat then Ok (RReturn true)
          else
            let? s' := advance is_slash str (m_s m) in
            let? m' := goto_seg g (m_seg m + 1) true (with_s s' m) in
            Ok (RNext (save_stat m'))
        else Ok (RNext (save_stat m))
      | _ => Ok r
      end
    else
      let m := with_wild false (with_p (S p) m) in
      if decide (m_p m = m_seg_end m) then
        let? s' := advance (λ c, negb (is_slash c)) str (m_s m) in
        if decide (s' = length str) then Ok (RNext (with_s s' m))
        else
          let s' := if decide (S s' ≠ length str) then S s' else s' in
          if decide (m_seg m + 1 = seg_num)%nat then Ok (RReturn true)
          else
            let? m' := goto_seg g (m_seg m + 1) true (with_s s' m) in
            Ok (RNext (save_stat m'))
      else Ok (RNext (save_stat m))
  else if decide (c = "?"%char) then
    let? d := at_ str (m_s m) in
    if decide (S p ≠ m_seg_end m ∧ pat g !! S p = Some "*"%char) then
      let offset := if decide (d = "\"%char) then 2%nat else 1%nat in
      Ok (RNext (with_p (p + 2) (save_stat (with_s (m_s m + offset) m))))
    else if decide (d ≠ "/"%char) then
      Ok (RNext (with_s (if decide (d = "\"%char) then m_s m + 2 else m_s m + 1)%nat (with_p (S p) m)))
    else Ok (RBack m)
  else if decide (c = "["%char) then
    match brackets g !! m_b m with
    | Some br =>
      let? d := at_ str (m_s m) in
      if Z.testbit (br_bytes br) (code d) then
        if start_mismatch str m then Ok (RBack m)
        else Ok (RNext (with_s (S (m_s m)) (with_b (S (m_b m)) (with_p (next_offset br) m))))
      else Ok (RBack m)
    | None => Ok (RBack m)
    end
  else if decide (c = "\"%char) then
    if decide (S p ≠ m_seg_end m) then
      let? c1 := at_ (pat g) (S p) in
      let? d := at_ str (m_s m) in
      if decide (c1 = d) then
        if start_mismatch str m then Ok (RBack m)
        else Ok (RNext (with_s (S (m_s m)) (with_p (p + 2) m)))
      else Ok (RBack m)
    else Ok (RBack m)
  else
    let? d := at_ str (m_s m) in
    if decide (c = d) then
      if start_mismatch str m then Ok (RBack m)
      else Ok (RNext (with_s (S (m_s m)) (with_p (S p) m)))
    else Ok (RBack m).

(** [p] is at a segment end. *)
Definition match_seg_end (g : SubGlobPattern) (str : bytes) (m : match_state) : result round :=
  let seg_num := length (glob_segments g) in
  if decide (m_seg_end m ≠ length (pat g)) then
    if m_wild m then
      let? s1 := advance (λ c, negb (is_slash c)) str (m_s m) in
      let s2 := if decide (str !! s1 = Some "/"%char) then S s1 else s1 in
      if decide (seg_num ≤ m_seg m + 1)%nat then Ok (RReturn (bool_decide (s2 = length str)))
      else
        let? m' := goto_seg g (m_seg m + 1) true (with_s s2 m) in
        Ok (RNext m')
    else
      let? c := at_ (pat g) (m_seg_end m) in
      let? d := at_ str (m_s m) in
      if decide (c ≠ d) then Ok (RReturn false)
      else
        let? s' := advance is_slash str (m_s m) in
        let? m' := goto_seg g (m_seg m + 1) true (with_s s' m) in
        Ok (RNext m')
  else Ok (RBack m).

(** The end of a round that found a mismatch. *)
Definition backtrack (str : bytes) (m : match_state) : result round :=
  match m_stack m with
  | [] => Ok (RReturn false)
  | st :: stack =>
    let s := S (st_s st) in
    let st' := mkStat (st_b st) (st_seg st) (st_wild st) (st_p st) s (st_seg_end st) (st_seg_start st) in
    let m' stack := mkState (st_b st) (st_seg st) (st_wild st) (st_p st) s (st_seg_end st)
                      (st_seg_start st) stack in
    if st_wild st then Ok (RNext (m' (st' :: stack)))
    else if decide (s = length str) then Ok (RNext (m' stack))
    else
      let? d := at_ str s in
      if is_slash d then Ok (RNext (m' stack)) else Ok (RNext (m' (st' :: stack)))
  end.

(** [getPat().find_first_not_of( "*/" , p)] is [npos]. *)
Definition only_stars (g : SubGlobPattern) (p : nat) : bool :=
  forallb (λ c, is_star c || is_slash c) (drop p (pat g)).

Definition match_round (g : SubGlobPattern) (str : bytes) (m : match_state) : result round :=
  if decide (length (glob_segments g) ≤ m_seg m)%nat then
    Ok (RReturn (bool_decide (m_s m = length str)))
  else if decide (m_s m = length str) then Ok (RReturn (only_stars g (m_p m)))
  else
    let? r := (if decide (m_p m ≠ m_seg_end m) then match_char g str m else match_seg_end g str m) in
    match r with
    | RBack m' => backtrack str m'
    | _ => Ok r
    end.

Fixpoint match_loop (fuel : nat) (g : SubGlobPattern) (str : bytes) (m : match_state) : result bool :=
  match fuel with
  | O => Stuck
  | S fuel =>
    let? r := match_round g str m in
    match r with
    | RReturn b => Ok b
    | RNext m' | RBack m' => match_loop fuel g str m'
    end
  end.

(** [SubGlobPattern::match]. *)
Definition sub_match (fuel : nat) (g : SubGlobPattern) (str : bytes) : result bool :=
  let? sg := read (glob_segments g !! 0%nat) in
  match_loop fuel g str (mkState 0 0 false 0 0 (seg_end sg) 0 []).

Fixpoint match_any (fuel : nat) (gs : list SubGlobPattern) (str : bytes) : result bool :=
  match gs with
  | [] => Ok false
  | g :: gs =>
    let? b := sub_match fuel g str in
    if b : bool then Ok true else match_any fuel gs str
  end.

(** [GlobPattern::match]. *)
Definition glob_match (fuel : nat) (g : GlobPattern) (str : bytes) : result bool :=
  if decide (prefix g `prefix_of` str) then
    let rest := drop (length (prefix g)) str in
    if decide (rest = [] ∧ sub_globs g = []) then Ok true
    else
      match rest with
      | c :: rest' =>
        if prefix_at_seg_end g then
          if decide (c ≠ "/"%char) then Ok false else match_any fuel (sub_globs g) rest'
        else match_any fuel (sub_globs g) rest
      | [] => match_any fuel (sub_globs g) rest
      end
  else Ok false.
