(* ===== verification/GlobBraces.v ===== *)
(** * Glob patterns: brace expansion, segments, character classes

    Theorems about the compile-time half of src/support/glob_pattern.cpp. *)
From S2P Require Import Prelude Glob.
Local Open Scope nat_scope.

(** ** Brace expansion *)

(** [t1,t2,...,tn]. *)
Fixpoint join (ts : list bytes) : bytes :=
  match ts with
  | [] => []
  | [t] => t
  | t :: ts => t ++ ","%char :: join ts
  end.

(** The expansions are read from left to right, do not overlap, and the text of
    each is its terms between braces. *)
Fixpoint braces_wf (s : bytes) (from : nat) (bes : list BraceExpansion) : Prop :=
  match bes with
  | [] => True
  | be :: bes =>
    from ≤ be_start be ∧ be_start be + be_length be ≤ length s ∧ terms be ≠ [] ∧
    substr s (be_start be) (be_length be) = "{"%char :: join (terms be) ++ ["}"%char] ∧
    braces_wf s (be_start be + be_length be) bes
  end.

(** All choices of one term per brace, the leftmost brace varying slowest. *)
Fixpoint choices (bes : list BraceExpansion) : list (list bytes) :=
  match bes with
  | [] => [[]]
  | be :: bes => concat ((λ t, (cons t) <$> choices bes) <$> terms be)
  end.

(** [s] from position [from] on, with each brace replaced by the chosen term. *)
Fixpoint fill (s : bytes) (from : nat) (bes : list BraceExpansion) (ts : list bytes) : bytes :=
  match bes, ts with
  | be :: bes, t :: ts =>
    substr s from (be_start be - from) ++ t ++ fill s (be_start be + be_length be) bes ts
  | _, _ => drop from s
  end.

Lemma replace_app s X start len term :
  start + len ≤ length s →
  replace (take (start + len) s ++ X) start len term = take start s ++ term ++ X.
Proof.
  intros Hlen. unfold replace. f_equal; [|f_equal].
  - rewrite take_app_le by (rewrite length_take; lia). by rewrite take_take, Nat.min_l by lia.
  - rewrite drop_app_ge by (rewrite length_take; lia).
    rewrite length_take, Nat.min_l, Nat.sub_diag by lia. done.
Qed.

Lemma substitute_choices s from bes :
  from ≤ length s → braces_wf s from bes →
  foldr (λ be acc, substitute acc be) [s] bes =
    (λ ts, take from s ++ fill s from bes ts) <$> choices bes.
Proof.
  revert from. induction bes as [|be bes IH]; intros from Hfrom Hwf; simpl.
  { by rewrite take_drop. }
  destruct Hwf as (H1 & H2 & _ & _ & Hwf). rewrite (IH _ H2 Hwf). unfold substitute.
  induction (terms be) as [|t ts IHt]; [done|].
  rewrite !fmap_cons. cbn [concat]. rewrite fmap_app, IHt. f_equal.
  rewrite <- !list_fmap_compose. apply list_fmap_ext. intros i c _. simpl.
  rewrite replace_app by done. rewrite !app_assoc. do 2 f_equal.
  unfold substr. rewrite <- (take_drop from (take (be_start be) s)) at 1.
  rewrite take_take, Nat.min_l by lia. f_equal. by rewrite skipn_firstn_comm.
Qed.

(** The scan.  [open_ok]: the brace under construction. *)
Definition open_ok (s : bytes) (start term_begin : nat) (ts : list bytes) : Prop :=
  start < term_begin ∧
  substr s start (term_begin - start) = "{"%char :: concat ((λ t, t ++ [","%char]) <$> ts).

Lemma substr_app s a b c : a ≤ b ≤ c → substr s a (c - a) = substr s a (b - a) ++ substr s b (c - b).
Proof.
  intros H. unfold substr. replace (c - a) with ((b - a) + (c - b)) by lia.
  rewrite <- take_take_drop. f_equal. rewrite drop_drop. do 2 f_equal. lia.
Qed.

Lemma substr_one s i c : s !! i = Some c → substr s i 1 = [c].
Proof. intros Hi. unfold substr. by rewrite (drop_S s c i Hi). Qed.

Lemma join_concat ts t :
  concat ((λ t, t ++ [","%char]) <$> ts) ++ t = join (ts ++ [t]).
Proof.
  induction ts as [|u ts IH]; [done|]. rewrite fmap_cons. cbn [concat].
  rewrite <- !app_assoc, IH. simpl.
  by destruct (ts ++ [t]) eqn:E; [destruct ts|].
Qed.

Fixpoint braces_end (from : nat) (bes : list BraceExpansion) : nat :=
  match bes with
  | [] => from
  | be :: bes => braces_end (be_start be + be_length be) bes
  end.

Lemma braces_wf_snoc s from bes be :
  braces_wf s from bes → braces_end from bes ≤ be_start be →
  be_start be + be_length be ≤ length s → terms be ≠ [] →
  substr s (be_start be) (be_length be) = "{"%char :: join (terms be) ++ ["}"%char] →
  braces_wf s from (bes ++ [be]) ∧ braces_end from (bes ++ [be]) = be_start be + be_length be.
Proof.
  revert from. induction bes as [|b bes IH]; intros from Hwf Hend H1 H2 H3; simpl in *; [done|].
  destruct Hwf as (? & ? & ? & ? & Hwf). destruct (IH _ Hwf Hend H1 H2 H3) as [? ?]. done.
Qed.

Lemma skip_bracket_bound fuel s i j :
  skip_bracket fuel s i = Ok j → i ≤ j ∧ (i ≤ length s → j ≤ length s).
Proof.
  revert i. induction fuel as [|fuel IH]; intros i; simpl; [done|].
  case_decide; [intros [= <-]; lia|]. unfold at_. destruct (s !! i) as [c|] eqn:E; [|done]. simpl.
  apply lookup_lt_Some in E. case_decide; [intros [= <-]; lia|].
  intros Hr. pose proof (IH _ Hr) as [H1 H2]. case_decide; [|lia].
  split; [lia|]. intros _. destruct (decide (S (S i) ≤ length s)) as [|Hgt]; [lia|].
  exfalso. destruct fuel as [|fuel]; [done|]. simpl in Hr. rewrite decide_False in Hr by lia.
  unfold at_ in Hr. by rewrite lookup_ge_None_2 in Hr by lia.
Qed.

Lemma brace_loop_wf fuel s i fin current tb bes :
  brace_loop fuel s i fin current tb = Ok bes →
  i ≤ length s → braces_wf s 0 (rev fin) → braces_end 0 (rev fin) ≤ i →
  match current with
  | None => True
  | Some (start, ts) => braces_end 0 (rev fin) ≤ start ∧ tb ≤ i ∧ open_ok s start tb ts
  end →
  braces_wf s 0 bes.
Proof.
  revert i fin current tb. induction fuel as [|fuel IH]; intros i fin current tb; cbn [brace_loop]; [done|].
  case_decide as Ei; [by destruct current; intros [= <-]|].
  unfold at_ at 1. destruct (s !! i) as [c|] eqn:Hi; [|done]. cbn [Res_bind read].
  pose proof (lookup_lt_Some _ _ _ Hi) as Hlt. intros H Hle Hwf Hend Hcur.
  assert (∀ k tb', i < k ≤ length s → tb' = tb →
            brace_loop fuel s k fin current tb' = Ok bes → braces_wf s 0 bes) as Hskip.
  { intros k tb' Hk -> Hk'. eapply IH; [exact Hk'|lia|done|lia|].
    destruct current as [[start ts]|]; [|done]. destruct Hcur as (? & ? & ?). split_and!; [lia|lia|done]. }
  case_decide as E1.
  { unfold at_ in H. destruct (s !! S i) as [d|] eqn:Hd; [|done]. cbn [Res_bind read] in H.
    apply lookup_lt_Some in Hd. apply Res_bind_Ok in H as (j & Hj & H).
    apply skip_bracket_bound in Hj as [Hj1 Hj2]. case_decide; [done|].
    apply (Hskip (S j) tb); [|done|done]. case_decide; lia. }
  case_decide as E2.
  { destruct current as [|]; [done|]. eapply IH; [exact H|lia|done|lia|].
    split_and!; [lia|lia|]. split; [lia|]. replace (S i - i) with 1 by lia. subst c.
    by rewrite (substr_one s i _ Hi). }
  case_decide as E3.
  { destruct current as [[start ts]|]; [|by apply (Hskip (S i) tb); [lia|..]].
    destruct Hcur as (Hc1 & Hc2 & Hst & Hsub). eapply IH; [exact H|lia|done|lia|].
    split_and!; [lia|lia|]. split; [lia|]. subst c.
    rewrite (substr_app s start tb (S i)), Hsub by lia. simpl. f_equal.
    rewrite (substr_app s tb i (S i)) by lia. replace (S i - i) with 1 by lia.
    rewrite (substr_one s i _ Hi), fmap_app, concat_app. simpl. by rewrite app_nil_r. }
  case_decide as E4.
  { destruct current as [[start ts]|]; [|by apply (Hskip (S i) tb); [lia|..]].
    destruct Hcur as (Hc1 & Hc2 & Hst & Hsub). case_decide; [done|].
    destruct (braces_wf_snoc s 0 (rev fin)
      (mkBrace start (i - start + 1) (ts ++ [substr s tb (i - tb)]))) as [Hwf' Hend']; simpl;
      [done|done|lia|by destruct ts| |].
    { subst c. replace (i - start + 1) with (S i - start) by lia.
      rewrite (substr_app s start tb (S i)), Hsub by lia. simpl. f_equal.
      rewrite (substr_app s tb i (S i)) by lia. replace (S i - i) with 1 by lia.
      rewrite (substr_one s i _ Hi), app_assoc, join_concat. done. }
    eapply IH; [exact H|lia|exact Hwf'| |done]. simpl. rewrite Hend'. simpl. lia. }
  case_decide as E5.
  { case_decide; [done|]. apply (Hskip (S (S i)) tb); [lia|done|done]. }
  by apply (Hskip (S i) tb); [lia|..].
Qed.

Lemma choices_length bes :
  Z.of_nat (length (choices bes)) =
    foldr (λ be acc, Z.of_nat (length (terms be)) * acc)%Z 1%Z bes.
Proof.
  induction bes as [|be bes IH]; simpl; [done|]. rewrite <- IH. clear.
  induction (terms be) as [|t ts IHt]; [done|]. rewrite fmap_cons. cbn [concat length].
  rewrite length_app, length_fmap. lia.
Qed.

Lemma count_subpatterns_ok s from num bes max :
  braces_wf s from bes → (0 < num)%Z → (max < two64 - 1)%Z → (count_subpatterns num bes ≤ max)%Z →
  (num * foldr (λ be acc, Z.of_nat (length (terms be)) * acc) 1 bes ≤ max)%Z.
Proof.
  revert from num. induction bes as [|be bes IH]; intros from num Hwf Hn Hmax; simpl; [lia|].
  destruct Hwf as (_ & _ & Hne & _ & Hwf). case_decide; [lia|]. intros Hc.
  rewrite Z.mul_assoc. apply (IH _ _ Hwf); [|done|done].
  destruct (terms be); [done|]. simpl length. lia.
Qed.

(** Brace expansion is the Cartesian product: when it succeeds, the pattern
    decomposes into literal text and braces [{t1,...,tn}], the sub-patterns are
    exactly the texts obtained by choosing one term per brace, in lexicographic
    order of the choices, and there are at most [max_subpattern_num] of them. *)
Theorem brace_expansion_product (s : bytes) (max : Z) (subs : list bytes) :
  (0 < max < two64 - 1)%Z → parseBraceExpansions s max = Ok subs →
  ∃ bes, braces_wf s 0 bes ∧ subs = fill s 0 bes <$> choices bes ∧
         (Z.of_nat (length subs) ≤ max)%Z.
Proof.
  intros Hmax. unfold parseBraceExpansions. case_decide as Eb.
  { intros [= <-]. exists []. simpl. split_and!; [done|done|lia]. }
  intros H. apply Res_bind_Ok in H as (bes & Hbes & H). case_decide as Ec; [done|]. simplify_eq.
  apply brace_loop_wf in Hbes as Hwf; [|lia|done|simpl; lia|done].
  exists bes. split; [done|].
  assert (foldl substitute [s] (rev bes) = fill s 0 bes <$> choices bes) as ->.
  { rewrite foldl_rev. exact (substitute_choices s 0 bes ltac:(lia) Hwf). }
  split; [done|]. rewrite length_fmap, choices_length.
  pose proof (count_subpatterns_ok s 0 1 bes max Hwf ltac:(lia) ltac:(lia) ltac:(lia)). lia.
Qed.

Lemma brace_expansion_product_witness :
  ∃ bes, braces_wf (str "a{b,c}.{x,y}") 0 bes ∧
    [str "ab.x"; str "ab.y"; str "ac.x"; str "ac.y"] =
      fill (str "a{b,c}.{x,y}") 0 bes <$> choices bes ∧
    (Z.of_nat (length [str "ab.x"; str "ab.y"; str "ac.x"; str "ac.y"]) ≤ 100)%Z.
Proof.
  apply brace_expansion_product; [done|]. vm_compute. reflexivity.
Defined.

(** ** Termination of the scan *)

Lemma skip_bracket_total fuel s i : length s - i < fuel → skip_bracket fuel s i ≠ Stuck.
Proof.
  revert i. induction fuel as [|fuel IH]; intros i Hf; [lia|]. cbn [skip_bracket].
  case_decide; [done|]. unfold at_. destruct (s !! i) as [c|] eqn:E; [|done].
  apply lookup_lt_Some in E. cbn [read Res_bind]. case_decide; [done|]. apply IH. case_decide; lia.
Qed.

Lemma brace_loop_total fuel s i fin current tb :
  length s - i < fuel → brace_loop fuel s i fin current tb ≠ Stuck.
Proof.
  revert i fin current tb. induction fuel as [|fuel IH]; intros i fin current tb Hf; [lia|].
  cbn [brace_loop]. case_decide; [by destruct current|].
  unfold at_ at 1. destruct (s !! i) as [c|] eqn:Hi; [|done]. cbn [Res_bind read].
  apply lookup_lt_Some in Hi.
  case_decide.
  { unfold at_. destruct (s !! S i) as [d|] eqn:Hd; [|done]. cbn [Res_bind read].
    set (i0 := if decide (d = "]"%char) then S (S i) else S i).
    assert (i < i0) by (unfold i0; case_decide; lia).
    pose proof (skip_bracket_total (S (length s)) s i0 ltac:(lia)) as Ht.
    destruct (skip_bracket (S (length s)) s i0) as [j| | |] eqn:Hj; cbn [Res_bind]; try done.
    apply skip_bracket_bound in Hj as [? _]. case_decide; [done|]. apply IH. lia. }
  repeat (case_decide; [first [by destruct current; try done; apply IH; lia
    | by destruct current as [[]|]; try case_decide; try done; apply IH; lia
    | by case_decide; try done; apply IH; lia]|]).
  apply IH. lia.
Qed.

(** Brace parsing always terminates, on every input and for every limit. *)
Theorem brace_parsing_terminates (s : bytes) (max : Z) : parseBraceExpansions s max ≠ Stuck.
Proof.
  unfold parseBraceExpansions. case_decide; [done|].
  pose proof (brace_loop_total (S (length s)) s 0 [] None 0 ltac:(lia)) as Ht.
  destruct (brace_loop _ _ _ _ _ _); cbn [Res_bind]; try done. by case_decide.
Qed.

(** ** Segments and character classes of a sub-pattern *)

(** The segments tile the pattern, with one ['/'] after each but the last. *)
Fixpoint segments_ok (s : bytes) (from : nat) (segs : list GlobSegment) : Prop :=
  match segs with
  | [] => from = length s
  | sg :: rest =>
    seg_start sg = from ∧ from ≤ seg_end sg ∧
    ((seg_end sg = length s ∧ rest = []) ∨
     (s !! seg_end sg = Some "/"%char ∧ segments_ok s (S (seg_end sg)) rest))
  end.

Definition bracket_ok (s : bytes) (br : Bracket) : Prop :=
  1 ≤ next_offset br ∧ s !! (next_offset br - 1) = Some "]"%char.

(** The closed segments reach up to [to]. *)
Fixpoint tiles (s : bytes) (from : nat) (segs : list GlobSegment) (to : nat) : Prop :=
  match segs with
  | [] => from = to
  | sg :: rest =>
    seg_start sg = from ∧ from ≤ seg_end sg ∧ s !! seg_end sg = Some "/"%char ∧
    tiles s (S (seg_end sg)) rest to
  end.

Lemma tiles_snoc s from segs sg :
  tiles s from segs (seg_start sg) → seg_start sg ≤ seg_end sg → s !! seg_end sg = Some "/"%char →
  tiles s from (segs ++ [sg]) (S (seg_end sg)).
Proof.
  revert from. induction segs as [|x segs IH]; intros from Ht H1 H2; simpl in *; [by subst|].
  destruct Ht as (? & ? & ? & Ht). split_and!; try done. by apply IH.
Qed.

Lemma tiles_last s from segs st :
  tiles s from segs st → st ≤ length s → segments_ok s from (segs ++ [mkSegment st (length s)]).
Proof.
  revert from. induction segs as [|x segs IH]; intros from Ht Hst; simpl in *.
  { subst. split_and!; [done|done|by left]. }
  destruct Ht as (? & ? & ? & Ht). split_and!; try done. right. split; [done|by apply IH].
Qed.

Lemma tiles_closed s from segs : tiles s from segs (length s) → segments_ok s from segs.
Proof.
  revert from. induction segs as [|x segs IH]; intros from Ht; simpl in *; [done|].
  destruct Ht as (? & ? & ? & Ht). split_and!; try done. right. split; [done|by apply IH].
Qed.

Lemma scan_bracket_spec fuel s j k :
  scan_bracket fuel s j = Ok k → k ≠ length s → j ≤ k ∧ s !! k = Some "]"%char.
Proof.
  revert j. induction fuel as [|fuel IH]; intros j; cbn [scan_bracket]; [done|].
  case_decide; [by intros [= <-]|]. unfold at_. destruct (s !! j) as [c|] eqn:E; [|done].
  cbn [read Res_bind]. case_decide; [intros [= <-]; subst; done|].
  case_decide; [case_decide; [done|]|]; intros Hs Hk; destruct (IH _ Hs Hk); split; try done; lia.
Qed.

Lemma create_loop_ok cs fuel s i current segs brs segs' brs' :
  create_loop cs fuel s i current segs brs = Ok (segs', brs') →
  i ≤ length s → Forall (bracket_ok s) brs →
  match current with
  | Some st => st ≤ i ∧ tiles s 0 (rev segs) st
  | None => tiles s 0 (rev segs) i
  end →
  segments_ok s 0 segs' ∧ Forall (bracket_ok s) brs'.
Proof.
  revert i current segs brs. induction fuel as [|fuel IH]; intros i current segs brs;
    cbn [create_loop]; [done|].
  case_decide as Ei.
  { intros [= <- <-] Hi Hbr Hcur. split; [|by apply Forall_rev]. destruct current as [st|].
    - destruct Hcur as [? ?]. simpl. apply tiles_last; [done|lia].
    - apply tiles_closed. by replace (length s) with i by lia. }
  set (st := match current with Some st => st | None => i end).
  unfold at_ at 1. destruct (s !! i) as [c|] eqn:Hc; [|done]. cbn [Res_bind read].
  intros H Hi Hbr Hcur.
  assert (st ≤ i ∧ tiles s 0 (rev segs) st) as [Hst Htl] by (unfold st; destruct current; [done|by split]).
  assert (∀ k brs1, i < k ≤ length s → Forall (bracket_ok s) brs1 →
    create_loop cs fuel s k (Some st) segs brs1 = Ok (segs', brs') →
    segments_ok s 0 segs' ∧ Forall (bracket_ok s) brs') as Hgo.
  { intros k brs1 Hk Hb Hr. eapply IH; [exact Hr|lia|done|]. split; [lia|done]. }
  case_decide.
  { unfold at_ in H. destruct (s !! S i) as [d|] eqn:Hd; [|done]. cbn [Res_bind read] in H.
    apply Res_bind_Ok in H as (j & Hj & H). case_decide as Ej; [done|].
    apply scan_bracket_spec in Hj as [Hj1 Hj2]; [|done].
    apply Res_bind_Ok in H as (bv & _ & H). pose proof (lookup_lt_Some _ _ _ Hj2).
    eapply Hgo; [|..|exact H]; [case_decide; lia|]. constructor; [|done].
    split; simpl; [lia|]. by rewrite Nat.sub_0_r. }
  case_decide.
  { case_decide; [done|]. eapply Hgo; [|exact Hbr|exact H]. lia. }
  case_decide as Es.
  { case_decide; [done|]. eapply IH; [exact H|lia|done|]. simpl. subst c.
    apply (tiles_snoc s 0 (rev segs) (mkSegment st i)); done. }
  case_decide.
  { case_decide; [|by eapply Hgo; [|exact Hbr|exact H]; lia].
    apply Res_bind_Ok in H as (c1 & _ & H). apply Res_bind_Ok in H as (c2 & _ & H).
    case_decide; [done|]. by eapply Hgo; [|exact Hbr|exact H]; lia. }
  by eapply Hgo; [|exact Hbr|exact H]; lia.
Qed.

(** The segments of a compiled sub-pattern tile the pattern: the first starts
    at 0, each ends at a ['/'] or at the end of the pattern, the next starts right
    after that ['/']; and every compiled character class points just past a
    closing bracket of the pattern. *)
Theorem sub_create_segments (char_signed : bool) (s : bytes) (g : SubGlobPattern) :
  sub_create char_signed s = Ok g →
  pat g = s ∧ glob_segments g ≠ [] ∧ segments_ok s 0 (glob_segments g) ∧
  Forall (bracket_ok s) (brackets g).
Proof.
  unfold sub_create. intros H. apply Res_bind_Ok in H as ([segs brs] & Hl & [= <-]). simpl.
  destruct (create_loop_ok _ _ _ _ _ _ _ _ _ Hl) as [H1 H2]; [lia|done|simpl; lia|].
  split_and!; try done. intros ->. simpl in H1. symmetry in H1. apply nil_length_inv in H1. subst s.
  by simpl in Hl.
Qed.

Lemma sub_create_segments_witness :
  ∃ g, sub_create true (str "ab/[c-e]*/x") = Ok g ∧
    pat g = str "ab/[c-e]*/x" ∧ glob_segments g ≠ [] ∧
    segments_ok (str "ab/[c-e]*/x") 0 (glob_segments g) ∧
    Forall (bracket_ok (str "ab/[c-e]*/x")) (brackets g).
Proof.
  eexists. split; [vm_compute; reflexivity|].
  apply (sub_create_segments true). vm_compute. reflexivity.
Defined.
