(* ===== verification/GlobMatch.v ===== *)
(** * Glob patterns: matching

    Theorems about [expand], [GlobPattern::create] and [GlobPattern::match] of
    src/support/glob_pattern.cpp: what a character range denotes, which literal
    patterns are accepted and what they match, and the equivalence of the
    backtracking matcher with the declarative meaning of [*] and [?] inside one
    path segment. *)
From S2P Require Import Prelude Glob.
Local Open Scope nat_scope.

(** ** Character ranges *)

Lemma code_char n : (0 ≤ n < 256)%Z → code (ascii_of_N (Z.to_N n)) = n.
Proof. intros Hn. unfold code. rewrite N_ascii_embedding by lia. lia. Qed.

Lemma code_inj a b : code a = code b → a = b.
Proof.
  unfold code. intros H. rewrite <- (ascii_N_embedding a), <- (ascii_N_embedding b). f_equal. lia.
Qed.

Lemma char_value_ascii cs c : (code c < 128)%Z → char_value cs c = code c.
Proof. intros Hc. unfold char_value. rewrite bool_decide_eq_false_2 by lia. by rewrite andb_false_r. Qed.

Lemma range_loop_spec cs fuel c c_end bv :
  (code c_end < 127)%Z → (code c ≤ code c_end + 1)%Z →
  (code c_end + 1 - code c < Z.of_nat fuel)%Z → (0 ≤ bv)%Z →
  ∃ bv', range_loop cs fuel c c_end bv = Ok bv' ∧ (0 ≤ bv')%Z ∧
    ∀ d, Z.testbit bv' (code d) = true ↔
         Z.testbit bv (code d) = true ∨ (code c ≤ code d ≤ code c_end)%Z ∧ d ≠ "/"%char.
Proof.
  intros Hend. revert c bv. induction fuel as [|fuel IH]; intros c bv Hc Hf Hbv; [lia|].
  cbn [range_loop]. pose proof (code_range c). pose proof (code_range c_end).
  rewrite !char_value_ascii by lia. case_decide as E.
  2: { exists bv. split_and!; [done|done|]. intros d. split; [by left|]. intros [?|[? _]]; [done|lia]. }
  assert (code (char_succ c) = code c + 1)%Z as Hs.
  { unfold char_succ. rewrite code_char by (apply Z.mod_pos_bound; lia). apply Z.mod_small. lia. }
  set (o := if decide (c = "/"%char) then Ok bv else set_char cs bv c).
  assert (∃ bv1, o = Ok bv1 ∧ (0 ≤ bv1)%Z ∧ ∀ d, Z.testbit bv1 (code d) = true ↔
            Z.testbit bv (code d) = true ∨ d = c ∧ d ≠ "/"%char) as (bv1 & -> & Hbv1 & Hb1).
  { unfold o. case_decide as Ec; [exists bv; split_and!; try done; naive_solver|].
    unfold set_char. rewrite char_value_ascii, decide_True by lia. eexists. split_and!; [done| |].
    - apply Z.lor_nonneg. split; [done|]. apply Z.shiftl_nonneg. lia.
    - intros d. rewrite Z.setbit_eqb by lia. rewrite orb_true_iff, Z.eqb_eq.
      split; [intros [Hd|Hd]|intros [Hd|[-> _]]]; auto.
      right. symmetry in Hd. apply code_inj in Hd. by subst. }
  cbn [Res_bind]. destruct (IH (char_succ c) bv1) as (bv' & -> & Hbv' & Hb'); [lia|lia|done|].
  exists bv'. split_and!; [done|done|]. intros d. rewrite Hb', Hb1, Hs. split.
  - intros [[?|[-> ?]]|[? ?]]; [by left|right; split; [lia|done]|right; split; [lia|done]].
  - intros [?|[? ?]]; [by left; left|]. destruct (decide (d = c)) as [->|Hne]; [by left; right|].
    right. split; [|done]. assert (code d ≠ code c) by (intros Hx; by apply Hne, code_inj). lia.
Qed.

(** A range [a-b] between ASCII characters below DEL denotes exactly the
    characters from [a] to [b], the path separator excluded, whatever the
    signedness of [char]; in particular the loop over the range terminates. *)
Theorem expand_range (char_signed : bool) (a b : ascii) :
  (code a ≤ code b < 127)%Z → a ≠ "\"%char → a ≠ "-"%char → b ≠ "\"%char →
  ∃ bv, expand char_signed [a; "-"%char; b] = Ok bv ∧
    ∀ c, Z.testbit bv (code c) = true ↔ (code a ≤ code c ≤ code b)%Z ∧ c ≠ "/"%char.
Proof.
  intros Hab Ha Ha2 Hb. unfold expand. pose proof (code_range a).
  set (o := if decide (a ≠ "/"%char) then set_char char_signed 0 a else Ok 0%Z).
  assert (∃ bv0, o = Ok bv0 ∧ (0 ≤ bv0)%Z ∧
            ∀ d, Z.testbit bv0 (code d) = true ↔ d = a ∧ d ≠ "/"%char) as (bv0 & Ho & H0 & Hb0).
  { unfold o. case_decide as E.
    - unfold set_char. rewrite char_value_ascii, decide_True by lia. eexists. split_and!; [done| |].
      + apply Z.shiftl_nonneg. lia.
      + intros d. rewrite Z.setbit_eqb by lia. rewrite Z.bits_0, orb_false_r, Z.eqb_eq.
        split; [intros Hd; symmetry in Hd; apply code_inj in Hd; by subst|by intros [-> _]].
    - exists 0%Z. split_and!; [done|done|]. intros d. rewrite Z.bits_0. split; [done|].
      intros [-> Hd]. by destruct E. }
  destruct (range_loop_spec char_signed 257 a b bv0) as (bv & Hr & _ & Hbv); [lia|lia|lia|done|].
  exists bv. split.
  - cbn [length expand_loop]. rewrite decide_False by lia. unfold at_ at 1. simpl lookup.
    cbn [read Res_bind]. rewrite !decide_False by done. fold o. rewrite Ho. cbn [Res_bind].
    rewrite decide_False by lia. unfold at_ at 1. simpl lookup. cbn [read Res_bind].
    rewrite (decide_False (P := "-"%char = "\"%char)), decide_True by done.
    rewrite decide_False by lia. unfold at_. simpl lookup. cbn [read Res_bind].
    rewrite decide_False by done. cbn [Res_bind]. rewrite !char_value_ascii by lia.
    rewrite decide_False by lia. rewrite Hr. cbn [Res_bind]. rewrite decide_True by lia. done.
  - intros c. rewrite Hbv, Hb0. split; [|by right]. intros [[-> ?]|?]; [split; [lia|done]|done].
Qed.

Lemma expand_range_witness :
  ∃ bv, expand true [ "a"%char; "-"%char; "f"%char ] = Ok bv ∧
    ∀ c, Z.testbit bv (code c) = true ↔ (code "a" ≤ code c ≤ code "f")%Z ∧ c ≠ "/"%char.
Proof.
  apply expand_range; [vm_compute; split; [discriminate|reflexivity]|discriminate..].
Defined.

(** A range up to the greatest [char] never ends where [char] is unsigned, and
    throws where it is signed: the loop variable wraps around. *)
Theorem expand_range_wraps :
  expand false [ "a"%char; "-"%char; ascii_of_N 255 ] = Stuck ∧
  expand true [ "a"%char; "-"%char; ascii_of_N 127 ] = Fault.
Proof. split; vm_compute; reflexivity. Qed.

(** ** Literal patterns *)

Lemma find_meta_None s : find_meta s = None ↔ Forall (λ c, is_meta c = false) s.
Proof.
  induction s as [|c s IH]; simpl; [by split|]. destruct (is_meta c) eqn:E.
  - split; [done|]. intros Hf. inv Hf. congruence.
  - rewrite fmap_None, IH. split; [by constructor|]. intros Hf. by inv Hf.
Qed.

Lemma prefix_check_from s i :
  1 ≤ i → prefix_check s i (i - 1) = if decide ("/"%char ∈ s) then Err MultipleSlash else Ok tt.
Proof.
  revert i. induction s as [|c s IH]; intros i Hi; simpl; [done|].
  destruct (decide (c = "/"%char)) as [->|Hc].
  - rewrite !decide_True; [done|apply list_elem_of_here|]. split; [done|lia].
  - rewrite (decide_False (P := _ ∧ _)) by tauto. replace i with (S i - 1) at 2 by lia.
    rewrite IH by lia. destruct (decide ("/"%char ∈ s)) as [Hs|Hs];
      [rewrite decide_True by (by apply list_elem_of_further)
      |rewrite decide_False by (intros [?|?]%elem_of_cons; done)]; done.
Qed.

Lemma prefix_check_spec s :
  prefix_check s 0 0 = if decide ("/"%char ∈ drop 1 s) then Err MultipleSlash else Ok tt.
Proof.
  destruct s as [|c s]; simpl; [done|].
  rewrite decide_False by (intros [_ ?]; lia). rewrite drop_0. by apply (prefix_check_from s 1).
Qed.

(** The multiple-slash check of [create] is wrong: a pattern without
    metacharacters is rejected as soon as it has a ['/'] anywhere but at its very
    first position (e.g. [src/main.cpp]); otherwise it is accepted. *)
Theorem literal_pattern_accepted (char_signed : bool) (s : bytes) (max : Z) :
  find_meta s = None →
  create char_signed s max =
    if decide ("/"%char ∈ drop 1 s) then Err MultipleSlash else Ok (mkGlob s false []).
Proof. intros Hm. unfold create. rewrite Hm, prefix_check_spec. by case_decide. Qed.

Lemma literal_pattern_accepted_witness :
  create true (str "src/main.cpp") 100 = Err MultipleSlash.
Proof.
  apply (literal_pattern_accepted true (str "src/main.cpp") 100). vm_compute. reflexivity.
Defined.

(** An accepted pattern without metacharacters matches exactly itself. *)
Theorem literal_pattern_matches_itself
    (char_signed : bool) (s target : bytes) (max : Z) (g : GlobPattern) (fuel : nat) :
  find_meta s = None → create char_signed s max = Ok g →
  glob_match fuel g target = Ok (bool_decide (target = s)).
Proof.
  intros Hm. unfold create. rewrite Hm. intros H. apply Res_bind_Ok in H as ([] & _ & H). simplify_eq.
  unfold glob_match. simpl. case_decide as Ep.
  - destruct Ep as [k ->]. rewrite drop_app_length. destruct k as [|c k].
    + rewrite app_nil_r, decide_True by done. by rewrite bool_decide_eq_true_2.
    + rewrite decide_False by (by intros [? _]). rewrite bool_decide_eq_false_2; [done|].
      intros E. apply (f_equal length) in E. rewrite length_app in E. simpl in E. lia.
  - rewrite bool_decide_eq_false_2; [done|]. by intros ->.
Qed.

Lemma literal_pattern_matches_itself_witness :
  glob_match 1 (mkGlob (str "test.txt") false []) (str "test/test.txt") =
    Ok (bool_decide (str "test/test.txt" = str "test.txt")).
Proof.
  apply (literal_pattern_matches_itself true (str "test.txt") (str "test/test.txt") 100).
  - vm_compute. reflexivity.
  - vm_compute. reflexivity.
Defined.

(** ** Defects of segment handling *)

(** A one-character path segment is taken for a double slash: every
    sub-pattern that starts with [*/] is rejected, while a real double slash is
    accepted. *)
Theorem one_char_segment_rejected (char_signed : bool) (rest : bytes) :
  sub_create char_signed ("*"%char :: "/"%char :: rest) = Err MultipleSlash ∧
  is_ok (sub_create char_signed (str "**//x")) = true.
Proof.
  split; [|by destruct char_signed].
  unfold sub_create. cbn [length create_loop].
  rewrite decide_False by lia. unfold at_ at 1. simpl lookup. cbn [read Res_bind].
  rewrite (decide_False (P := "*"%char = "["%char)), (decide_False (P := "*"%char = "\"%char)),
    (decide_False (P := "*"%char = "/"%char)), (decide_True (P := "*"%char = "*"%char)) by done.
  unfold at_. simpl lookup. cbn [read Res_bind].
  rewrite (decide_False (P := "/"%char = "*"%char)) by done. cbn [Res_bind].
  rewrite (decide_False (P := "/"%char = "*"%char ∧ _)) by (by intros [? _]).
  case_decide; cbn [read Res_bind]; done.
Qed.

(** A pattern that ends in ['/'] makes the matcher read past the segment
    table: with pattern [f?x/], the string [fax/] is an out-of-bounds access. *)
Theorem trailing_slash_out_of_bounds :
  ∃ g, create true (str "f?x/") 100 = Ok g ∧ glob_match 100 g (str "fax/") = Fault.
Proof. eexists. split; vm_compute; reflexivity. Qed.

(** A final [*] crosses path separators, although it is documented to stay in
    one segment: [foo*] matches [foobar/baz]; and it matches the empty string. *)
Theorem final_star_crosses_segments :
  ∃ g, create true (str "foo*") 100 = Ok g ∧ glob_match 100 g (str "foobar/baz") = Ok true ∧
       glob_match 100 g (str "foo") = Ok true.
Proof. eexists. split_and!; vm_compute; reflexivity. Qed.

(** ** Wildcards inside one segment *)

(** The declarative meaning: [*] stands for any string, [?] for one character. *)
Fixpoint wmatch (p s : bytes) : bool :=
  match p with
  | [] => match s with [] => true | _ => false end
  | c :: p =>
    if decide (c = "*"%char) then
      (fix star (s : bytes) : bool :=
         wmatch p s || match s with [] => false | _ :: s => star s end) s
    else
      match s with
      | [] => false
      | d :: s => (bool_decide (c = "?"%char) || bool_decide (c = d)) && wmatch p s
      end
  end.

(** A token other than [*] against a character. *)
Definition tok (c d : ascii) : bool := bool_decide (c = "?"%char) || bool_decide (c = d).

Lemma wmatch_star p s :
  wmatch ("*"%char :: p) s = true ↔ ∃ k, k ≤ length s ∧ wmatch p (drop k s) = true.
Proof.
  cbn [wmatch]. rewrite decide_True by done. induction s as [|d s IH].
  - rewrite orb_false_r. split; [intros H; by exists 0|]. intros (k & Hk & H).
    simpl in Hk. by replace k with 0 in H by lia.
  - rewrite orb_true_iff, IH. split.
    + intros [H|(k & Hk & H)]; [exists 0; split; [lia|done]|exists (S k); simpl; split; [lia|done]].
    + intros ([|k] & Hk & H); [by left|right]. exists k. simpl in Hk. split; [lia|done].
Qed.

Lemma wmatch_tok c p d s : c ≠ "*"%char → wmatch (c :: p) (d :: s) = tok c d && wmatch p s.
Proof. intros Hc. cbn [wmatch]. by rewrite decide_False. Qed.

Lemma wmatch_nil_tok c p : c ≠ "*"%char → wmatch (c :: p) [] = false.
Proof. intros Hc. cbn [wmatch]. by rewrite decide_False. Qed.

Lemma wmatch_nil_r p : Forall (λ c, c ≠ "/"%char) p →
  wmatch p [] = forallb (λ c, is_star c || is_slash c) p.
Proof.
  induction 1 as [|c p Hc _ IH]; [done|]. simpl. unfold is_star, is_slash.
  rewrite (bool_decide_eq_false_2 (c = "/"%char)), orb_false_r by done. case_decide as E.
  - rewrite IH, bool_decide_eq_true_2 by done. by rewrite orb_false_r.
  - by rewrite bool_decide_eq_false_2.
Qed.

Section Wild.
Context (P S0 : bytes).
Abbreviation M := (length P).
Abbreviation N := (length S0).

(** The fragment: no separators, classes, escapes, no [**] and no [?*]. *)
Record simple : Prop := {
  sm_chars : Forall (λ c, c ≠ "/"%char ∧ c ≠ "["%char ∧ c ≠ "\"%char) P;
  sm_star : ∀ i c, P !! i = Some c → c = "*"%char ∨ c = "?"%char → P !! S i ≠ Some "*"%char;
  sm_str : Forall (λ c, c ≠ "/"%char ∧ c ≠ "\"%char) S0;
}.

Context (Hs : simple).

Abbreviation mw p s := (wmatch (drop p P) (drop s S0)).

Lemma no_slash p : Forall (λ c, c ≠ "/"%char) (drop p P).
Proof. apply Forall_drop. eapply Forall_impl; [apply Hs|]. by intros c (? & _). Qed.

Lemma pat_char p c : P !! p = Some c → c ≠ "/"%char ∧ c ≠ "["%char ∧ c ≠ "\"%char.
Proof. intros Hp. by eapply (Forall_lookup_1 _ _ _ _ (sm_chars Hs)). Qed.

Lemma str_char s d : S0 !! s = Some d → d ≠ "/"%char ∧ d ≠ "\"%char.
Proof. intros Hd. by eapply (Forall_lookup_1 _ _ _ _ (sm_str Hs)). Qed.

(** Tokens [q .. q+n) match the characters [t .. t+n). *)
Definition run_ok (q t n : nat) : Prop :=
  t + n ≤ N ∧
  ∀ k, k < n → ∃ c d, P !! (q + k) = Some c ∧ S0 !! (t + k) = Some d ∧ c ≠ "*"%char ∧ tok c d = true.

Lemma run_ok_mw q t n : run_ok q t n → mw q t = mw (q + n) (t + n).
Proof.
  revert q t. induction n as [|n IH]; intros q t [Hb Hr]; [by rewrite !Nat.add_0_r|].
  destruct (Hr 0 ltac:(lia)) as (c & d & Hc & Hd & Hne & Ht). rewrite Nat.add_0_r in Hc, Hd.
  rewrite (drop_S P c q Hc), (drop_S S0 d t Hd), wmatch_tok, Ht by done. cbn [andb].
  rewrite IH; [do 2 f_equal; lia|]. split; [lia|]. intros k Hk.
  destruct (Hr (S k) ltac:(lia)) as (c' & d' & ? & ? & ?). exists c', d'.
  replace (S q + k) with (q + S k) by lia.
  replace (S t + k) with (t + S k) by lia. done.
Qed.

(** A later start consumes the same tokens further to the right. *)
Lemma run_ok_later q t n t' :
  run_ok q t n → t ≤ t' → t' ≤ N → mw q t' = true → t' + n ≤ N ∧ mw (q + n) (t' + n) = true.
Proof.
  intros [Hb Hr] Ht HN H0.
  assert (∀ k, k ≤ n → t' + k ≤ N ∧ mw (q + k) (t' + k) = true) as Hgen; [|by apply Hgen].
  { intros k. induction k as [|k IH]; intros Hk; [by rewrite !Nat.add_0_r|].
    destruct (IH ltac:(lia)) as [Hle Hm].
    destruct (Hr k ltac:(lia)) as (c & d & Hc & _ & Hne & _).
    rewrite (drop_S P c (q + k) Hc) in Hm. destruct (drop (t' + k) S0) as [|e rest] eqn:Ed.
    { by rewrite wmatch_nil_tok in Hm. }
    assert (S0 !! (t' + k) = Some e) as He.
    { rewrite <- (Nat.add_0_r (t' + k)), <- lookup_drop, Ed. done. }
    pose proof (lookup_lt_Some _ _ _ He). split; [lia|].
    rewrite wmatch_tok in Hm by done. apply andb_true_iff in Hm as [_ Hm].
    rewrite (drop_S S0 e _ He) in Ed. injection Ed as <-.
    by rewrite !Nat.add_succ_r. }
Qed.

(** ** The invariant of the loop *)

Definition G : SubGlobPattern := mkSub [] [mkSegment 0 M] P.

Definition state_at (p s : nat) (stack : list BacktraceStat) : match_state :=
  mkState 0 0 false p s M 0 stack.

Definition stat_at (q t : nat) : BacktraceStat := mkStat 0 0 false q t M 0.

(** [ans] is the answer still to be computed. *)
Definition pending (ans : bool) (p s : nat) (stack : list BacktraceStat) : Prop :=
  p ≤ M ∧ s ≤ N ∧
  match stack with
  | [] => ans = mw p s ∧ (p = 0 → s = 0)
  | st :: _ => ∃ q t, st = stat_at q t ∧ 1 ≤ q ≤ p ∧ q < M ∧ P !! q ≠ Some "*"%char ∧
      s = t + (p - q) ∧ run_ok q t (p - q) ∧
      (ans = true ↔ ∃ t', t ≤ t' ∧ t' ≤ N ∧ mw q t' = true)
  end.

Lemma bool_iff (a b : bool) : (a = true ↔ b = true) → a = b.
Proof. destruct a, b; naive_solver. Qed.

(** The string is exhausted: the rest of the pattern decides. *)
Lemma pending_end ans p stack : pending ans p N stack → ans = only_stars G p.
Proof.
  intros (Hp & _ & Hst). unfold only_stars. simpl pat. rewrite <- wmatch_nil_r by apply no_slash.
  destruct stack as [|st stack].
  - destruct Hst as [-> _]. by rewrite drop_all.
  - destruct Hst as (q & t & -> & Hq & Hqm & _ & HN & Hrun & Hans). apply bool_iff. rewrite Hans.
    split.
    + intros (t' & Ht & HtN & Hm). destruct (run_ok_later _ _ _ _ Hrun Ht HtN Hm) as [Hle Hm'].
      replace (q + (p - q)) with p in Hm' by lia. replace (t' + (p - q)) with N in Hm' by lia.
      by rewrite drop_all in Hm'.
    + intros Hm. exists t. split_and!; [lia|lia|]. rewrite (run_ok_mw _ _ _ Hrun).
      replace (q + (p - q)) with p by lia. rewrite <- HN. by rewrite drop_all.
Qed.

(** A token was consumed. *)
Lemma pending_step ans p s stack c d :
  pending ans p s stack → P !! p = Some c → S0 !! s = Some d → c ≠ "*"%char → tok c d = true →
  pending ans (S p) (S s) stack.
Proof.
  intros (Hp & Hs' & Hst) Hc Hd Hne Ht. pose proof (lookup_lt_Some _ _ _ Hc).
  pose proof (lookup_lt_Some _ _ _ Hd). split_and!; [lia|lia|]. destruct stack as [|st stack].
  - destruct Hst as [-> Hz]. split; [|lia].
    by rewrite (drop_S P c p Hc), (drop_S S0 d s Hd), wmatch_tok, Ht.
  - destruct Hst as (q & t & -> & Hq & Hqm & Hq0 & Hst & [Hb Hr] & Hans).
    exists q, t. split_and!; try done; try lia. split; [lia|]. intros k Hk.
    destruct (decide (k = p - q)) as [->|]; [|apply Hr; lia].
    exists c, d. replace (q + (p - q)) with p by lia. by rewrite <- Hst.
Qed.

(** A star that is not at the end. *)
Lemma pending_push ans p s stack :
  pending ans p s stack → P !! p = Some "*"%char → S p < M →
  pending ans (S p) s (stat_at (S p) s :: stack).
Proof.
  intros (Hp & Hs' & Hst) Hc HM. split_and!; [lia|lia|]. exists (S p), s.
  split_and!; try done; try lia.
  - apply (sm_star Hs p "*"%char); [done|by left].
  - rewrite Nat.sub_diag. split; [lia|]. intros k Hk. lia.
  - assert (mw p s = true ↔ ∃ t', s ≤ t' ∧ t' ≤ N ∧ mw (S p) t' = true) as Hstar.
    { rewrite (drop_S P _ p Hc), wmatch_star, length_drop. split.
      - intros (k & Hk & Hm). exists (s + k). rewrite drop_drop in Hm. split_and!; [lia|lia|done].
      - intros (t' & H1 & H2 & Hm). exists (t' - s). split; [lia|]. rewrite drop_drop.
        by replace (s + (t' - s)) with t' by lia. }
    destruct stack as [|st stack]; [destruct Hst as [-> _]; exact Hstar|].
    destruct Hst as (q & t & -> & Hq & Hqm & _ & HN & Hrun & Hans). rewrite Hans, <- Hstar. split.
    + intros (t' & Ht & HtN & Hm). destruct (run_ok_later _ _ _ _ Hrun Ht HtN Hm) as [Hle Hm'].
      replace (q + (p - q)) with p in Hm' by lia. apply Hstar.
      rewrite (drop_S P _ p Hc), wmatch_star, length_drop in Hm'. destruct Hm' as (k & Hk & Hm').
      rewrite drop_drop in Hm'. exists (t' + (p - q) + k). split_and!; [lia|lia|done].
    + intros Hm. exists t. split_and!; [lia|lia|]. rewrite (run_ok_mw _ _ _ Hrun).
      replace (q + (p - q)) with p by lia. by rewrite <- HN.
Qed.

(** A final star swallows the rest. *)
Lemma pending_final_star ans p s stack :
  pending ans p s stack → P !! p = Some "*"%char → S p = M → ans = true.
Proof.
  intros (Hp & Hs' & Hst) Hc HM.
  assert (mw p s = true) as Hm.
  { rewrite (drop_S P _ p Hc), wmatch_star. exists (length (drop s S0)). split; [done|].
    rewrite drop_ge by lia. by rewrite drop_all. }
  destruct stack as [|st stack]; [by destruct Hst as [-> _]|].
  destruct Hst as (q & t & -> & Hq & Hqm & _ & HN & Hrun & Hans). apply Hans. exists t.
  split_and!; [lia|lia|]. rewrite (run_ok_mw _ _ _ Hrun).
  replace (q + (p - q)) with p by lia. by rewrite <- HN.
Qed.

(** A mismatch: the last star takes one more character. *)
Lemma pending_mismatch ans p s stack :
  pending ans p s stack → s < N → mw p s = false →
  match stack with
  | [] => ans = false
  | st :: rest => ∃ q t, st = stat_at q t ∧
      (S t < N → pending ans q (S t) (stat_at q (S t) :: rest)) ∧
      (S t = N → ans = only_stars G q) ∧ t < N
  end.
Proof.
  intros (Hp & Hs' & Hst) HsN Hm. destruct stack as [|st stack]; [by destruct Hst as [-> _]|].
  destruct Hst as (q & t & -> & Hq & Hqm & Hq0 & HN & Hrun & Hans). exists q, t.
  assert (mw q t = false) as Hqt.
  { rewrite (run_ok_mw _ _ _ Hrun). replace (q + (p - q)) with p by lia. by rewrite <- HN. }
  assert (ans = true ↔ ∃ t', S t ≤ t' ∧ t' ≤ N ∧ mw q t' = true) as Hans'.
  { rewrite Hans. split; intros (t' & H1 & H2 & H3); exists t'; split_and!; try done; [|lia].
    destruct (decide (t' = t)) as [->|]; [congruence|lia]. }
  split_and!; [done| | |lia].
  - intros Ht. split_and!; [lia|lia|]. exists q, (S t). rewrite Nat.sub_diag.
    split_and!; try done; try lia. split; [lia|]. intros k Hk. lia.
  - intros Ht. unfold only_stars. simpl pat. rewrite <- wmatch_nil_r by apply no_slash.
    apply bool_iff. rewrite Hans'. split.
    + intros (t' & H1 & H2 & H3). assert (t' = N) as -> by lia. by rewrite drop_all in H3.
    + intros H3. exists N. split_and!; [lia|lia|]. by rewrite drop_all.
Qed.
(** ** Termination and correctness of the loop *)

(** Stars passed, characters given to the last star, tokens matched since. *)
Definition weight (p : nat) (stack : list BacktraceStat) : nat :=
  let q := match stack with [] => 0 | st :: _ => st_p st end in
  let t := match stack with [] => 0 | st :: _ => st_s st end in
  (M - q) * (S N * S M) + (N - t) * S M + (M - p) + 1.

(** Pushing a state for the star just passed uses up a later position. *)
Lemma weight_push p s stack :
  p < M → S p ≠ M →
  match stack with [] => 0 | st :: _ => st_p st end ≤ p →
  match stack with [] => 0 | st :: _ => st_s st end ≤ s →
  weight (S p) (stat_at (S p) s :: stack) < weight p stack.
Proof.
  intros Hp Hp' Hq Ht. unfold weight. cbn [st_p st_s stat_at].
  set (q0 := match stack with [] => 0 | st :: _ => st_p st end) in *.
  set (t0 := match stack with [] => 0 | st :: _ => st_s st end) in *.
  assert ((N - s) * S M ≤ (N - t0) * S M) by (apply Nat.mul_le_mono_r; lia).
  assert ((M - S p) * (S N * S M) ≤ (M - q0) * (S N * S M)) by (apply Nat.mul_le_mono_r; lia).
  lia.
Qed.

Lemma loop_end fuel ans p stack :
  0 < fuel → ans = only_stars G p → match_loop fuel G S0 (state_at p N stack) = Ok ans.
Proof.
  intros Hf ->. destruct fuel as [|fuel]; [lia|]. cbn [match_loop]. unfold match_round. simpl.
  by rewrite decide_True.
Qed.

Lemma advance_all s : s ≤ N → advance (λ c, negb (is_slash c)) S0 s = Ok N.
Proof.
  intros Hle. unfold advance. rewrite decide_False by lia. f_equal.
  assert (∀ l, Forall (λ c, c ≠ "/"%char ∧ c ≠ "\"%char) l →
            skip_while (λ c, negb (is_slash c)) l = length l) as Hall.
  { induction 1 as [|c l [Hc _] _ IH]; [done|]. simpl. unfold is_slash at 1.
    rewrite bool_decide_eq_false_2 by done. simpl. by rewrite IH. }
  rewrite Hall by (apply Forall_drop, Hs). rewrite length_drop. lia.
Qed.

(** One round of backtracking. *)
Lemma backtrack_round ans p s stack :
  pending ans p s stack → s < N → mw p s = false →
  (backtrack S0 (state_at p s stack) = Ok (RReturn ans)) ∨
  (∃ q rest, backtrack S0 (state_at p s stack) = Ok (RNext (state_at q N rest)) ∧
             ans = only_stars G q) ∨
  (∃ q t stack', backtrack S0 (state_at p s stack) = Ok (RNext (state_at q t stack')) ∧
     pending ans q t stack' ∧ weight q stack' < weight p stack).
Proof.
  intros Hp HsN Hm. pose proof (pending_mismatch _ _ _ _ Hp HsN Hm) as H.
  destruct stack as [|st rest]; [left; by subst|]. destruct H as (q & t & -> & Hgo & Hend & HtN).
  right. unfold backtrack. simpl. case_decide as E.
  - left. exists q, rest. rewrite E. split; [done|by apply Hend].
  - right. exists q, (S t), (stat_at q (S t) :: rest).
    destruct (lookup_lt_is_Some_2 S0 (S t) ltac:(lia)) as [d Hd]. unfold at_. rewrite Hd. simpl.
    destruct (str_char _ _ Hd) as [Hd1 _]. unfold is_slash. rewrite bool_decide_eq_false_2 by done.
    split; [done|]. split; [apply Hgo; lia|].
    destruct Hp as (Hp1 & _ & q' & t' & [= <- <-] & Hq & Hqm & _). unfold weight. simpl.
    assert ((N - t) * S M = (N - S t) * S M + S M) as -> by (replace (N - t) with (S (N - S t)) by lia; lia).
    lia.
Qed.

(** One round, from a position inside the string. *)
Lemma match_round_ok ans p s stack :
  pending ans p s stack → s < N →
  (match_round G S0 (state_at p s stack) = Ok (RReturn ans)) ∨
  (∃ q rest, match_round G S0 (state_at p s stack) = Ok (RNext (state_at q N rest)) ∧
             ans = only_stars G q) ∨
  (∃ q t stack', match_round G S0 (state_at p s stack) = Ok (RNext (state_at q t stack')) ∧
     pending ans q t stack' ∧ weight q stack' < weight p stack).
Proof.
  intros Hp HsN. pose proof Hp as (HpM & _ & Hst).
  unfold match_round. cbn [length glob_segments G state_at m_seg m_s m_p m_seg_end].
  rewrite decide_False by lia. rewrite decide_False by lia.
  destruct (decide (p ≠ M)) as [HpN|HpN].
  2: { apply dec_stable in HpN. subst p. unfold match_seg_end. simpl.
       rewrite (decide_False (P := M ≠ M)) by tauto. cbn [Res_bind].
       apply backtrack_round; [done|done|]. rewrite drop_all.
       destruct (drop s S0) eqn:E; [|done]. apply (f_equal length) in E.
       rewrite length_drop in E. simpl in E. lia. }
  destruct (lookup_lt_is_Some_2 P p ltac:(lia)) as [c Hc].
  destruct (lookup_lt_is_Some_2 S0 s ltac:(lia)) as [d Hd].
  destruct (pat_char _ _ Hc) as (Hc1 & Hc2 & Hc3). destruct (str_char _ _ Hd) as [Hd1 Hd2].
  unfold match_char, at_. cbn [pat G m_p state_at]. rewrite Hc. cbn [read Res_bind].
  assert (∀ st', pending ans (S p) (S s) st' → st' = stack → weight (S p) st' < weight p stack) as Hw.
  { intros st' _ ->. unfold weight. lia. }
  destruct (decide (c = "*"%char)) as [->|Hstar].
  - rewrite decide_False by (intros [_ ?]; by eapply (sm_star Hs p); [exact Hc|left|]).
    cbn [m_p m_seg_end with_wild with_p m_s m_seg state_at].
    destruct (decide (S p = M)) as [Ep|Ep].
    + rewrite advance_all by lia. cbn [Res_bind]. rewrite decide_True by done.
      right; left. exists M, stack. split; [by rewrite <- Ep|].
      rewrite (pending_final_star _ _ _ _ Hp Hc Ep). unfold only_stars. simpl pat.
      by rewrite drop_all.
    + right; right. exists (S p), s, (stat_at (S p) s :: stack). split; [done|].
      split; [apply pending_push; [done|done|lia]|].
      assert (match stack with [] => 0 | st :: _ => st_p st end ≤ p ∧
              match stack with [] => 0 | st :: _ => st_s st end ≤ s) as [Hq Ht].
      { destruct stack as [|st stack]; [lia|]. destruct Hst as (q & t & -> & ?). simpl. lia. }
      apply weight_push; [lia|done|done|done].
  - destruct (decide (c = "?"%char)) as [->|Hq].
    + cbn [m_s state_at]. rewrite Hd. cbn [read Res_bind].
      rewrite decide_False by (intros [_ ?]; by eapply (sm_star Hs p); [exact Hc|right|]).
      rewrite decide_True by done. rewrite decide_False by done.
      right; right. exists (S p), (S s), stack. cbn [Res_bind]. rewrite Nat.add_1_r. split; [done|].
      assert (pending ans (S p) (S s) stack) as Hp' by (by eapply pending_step).
      split; [done|by apply Hw].
    + rewrite (decide_False (P := c = "["%char)), (decide_False (P := c = "\"%char)) by done.
      cbn [m_s state_at]. rewrite Hd. cbn [read Res_bind]. destruct (decide (c = d)) as [->|Hcd].
      * assert (start_mismatch S0 (state_at p s stack) = false) as ->.
        { unfold start_mismatch. simpl. destruct (decide (p = 0)) as [->|Hp0].
          - assert (s = 0) as ->; [|done]. destruct stack; [by apply Hst|].
            destruct Hst as (q & t & _ & ? & _). lia.
          - by rewrite (bool_decide_eq_false_2 (p = 0)). }
        right; right. exists (S p), (S s), stack. cbn [Res_bind]. split; [done|].
        assert (pending ans (S p) (S s) stack) as Hp'.
        { eapply pending_step; try done. unfold tok. rewrite (bool_decide_eq_true_2 (d = d)) by done.
          by rewrite orb_true_r. }
        split; [done|by apply Hw].
      * cbn [Res_bind]. apply backtrack_round; [done|done|].
        rewrite (drop_S P c p Hc), (drop_S S0 d s Hd), wmatch_tok by done.
        unfold tok. rewrite !bool_decide_eq_false_2 by done. done.
Qed.

Lemma match_loop_ok fuel ans p s stack :
  pending ans p s stack → weight p stack < fuel →
  match_loop fuel G S0 (state_at p s stack) = Ok ans.
Proof.
  revert p s stack. induction fuel as [|fuel IH]; intros p s stack Hp Hf; [lia|].
  assert (1 ≤ weight p stack) as Hw1 by apply Nat.le_add_l. assert (0 < fuel) as Hf0 by lia.
  destruct (decide (s = N)) as [->|HsN]; [apply loop_end; [lia|by eapply pending_end]|].
  assert (s < N) as Hlt by (destruct Hp as (_ & ? & _); lia).
  destruct (match_round_ok ans p s stack Hp Hlt)
    as [E|[(q & rest & E & Hq)|(q & t & st' & E & Hp' & Hw)]];
    cbn [match_loop]; rewrite E; cbn [Res_bind].
  - done.
  - by apply loop_end.
  - apply IH; [done|lia].
Qed.

Lemma simple_match fuel :
  (M + 1) * (S N * S M) + 2 ≤ fuel → sub_match fuel G S0 = Ok (wmatch P S0).
Proof.
  intros Hf. unfold sub_match. simpl. apply (match_loop_ok fuel (wmatch P S0) 0 0 []).
  - split_and!; [lia|lia|done|done].
  - unfold weight. simpl Nat.sub. rewrite !Nat.sub_0_r. nia.
Qed.
End Wild.

(** ** Whole patterns *)

Lemma find_meta_Some s n :
  find_meta s = Some n → n < length s ∧ Forall (λ c, is_meta c = false) (take n s).
Proof.
  revert n. induction s as [|c s IH]; intros n; simpl; [done|].
  destruct (is_meta c) eqn:E; [intros [= <-]; split; [lia|done]|].
  intros (k & Hk & ->)%fmap_Some. destruct (IH k Hk). split; [lia|]. simpl. by constructor.
Qed.

Lemma is_meta_false c : is_meta c = false → c ≠ "*"%char ∧ c ≠ "?"%char.
Proof. unfold is_meta. intros H%bool_decide_eq_false. split; intros ->; apply H; set_solver. Qed.

Lemma wmatch_literal pre rest s :
  Forall (λ c, is_meta c = false) pre →
  wmatch (pre ++ rest) s = bool_decide (pre `prefix_of` s) && wmatch rest (drop (length pre) s).
Proof.
  intros Hpre. revert s. induction Hpre as [|c pre Hc _ IH]; intros s.
  { simpl. by rewrite drop_0. }
  destruct (is_meta_false c Hc) as [Hc1 Hc2]. rewrite <- app_comm_cons. destruct s as [|d s].
  - rewrite wmatch_nil_tok, bool_decide_eq_false_2 by (done || apply prefix_nil_not). done.
  - rewrite wmatch_tok, IH by done. unfold tok. rewrite (bool_decide_eq_false_2 (c = "?"%char)) by done.
    simpl drop. simpl orb. rewrite andb_assoc. f_equal. destruct (decide (c = d)) as [->|Hcd].
    + rewrite (bool_decide_eq_true_2 (d = d)) by done. simpl. apply bool_decide_ext.
      split; [apply prefix_cons|apply prefix_cons_inv_2].
    + rewrite (bool_decide_eq_false_2 (c = d)) by done. simpl. symmetry. apply bool_decide_eq_false_2.
      by intros ?%prefix_cons_inv_1.
Qed.

Lemma create_loop_simple cs fuel s i :
  Forall (λ c, c ≠ "/"%char ∧ c ≠ "["%char ∧ c ≠ "\"%char) s →
  (∀ i, s !! i = Some "*"%char → s !! S i ≠ Some "*"%char) →
  i ≤ length s → length s - i < fuel →
  create_loop cs fuel s i (Some 0) [] [] = Ok ([mkSegment 0 (length s)], []).
Proof.
  intros Hch Hst. revert i. induction fuel as [|fuel IH]; intros i Hi Hf; [lia|].
  cbn [create_loop]. case_decide; [done|].
  destruct (lookup_lt_is_Some_2 s i ltac:(lia)) as [c Hc].
  destruct (Forall_lookup_1 _ _ _ _ Hch Hc) as (H1 & H2 & H3).
  unfold at_. rewrite Hc. cbn [read Res_bind].
  rewrite (decide_False (P := c = "["%char)), (decide_False (P := c = "\"%char)),
    (decide_False (P := c = "/"%char)) by done.
  case_decide as Es; [|apply IH; lia]. subst c. case_decide; [|apply IH; lia].
  destruct (lookup_lt_is_Some_2 s (i + 1) ltac:(lia)) as [c1 Hc1]. rewrite Hc1. cbn [read Res_bind].
  assert (c1 ≠ "*"%char) as Hc1s.
  { intros ->. apply (Hst i Hc). by rewrite <- Nat.add_1_r. }
  rewrite (decide_False (P := c1 = "*"%char)) by done. cbn [Res_bind].
  rewrite decide_False by tauto. apply IH; lia.
Qed.

(** What [create] makes of such a pattern, from its first wildcard on. *)
Lemma create_wildcard (char_signed : bool) (s target : bytes) (max : Z) (n : nat) :
  simple s target → "{"%char ∉ s → "/"%char ∉ s → find_meta s = Some n →
  create char_signed s max =
    Ok (mkGlob (take n s) false [mkSub [] [mkSegment 0 (length (drop n s))] (drop n s)]) ∧
  simple (drop n s) target.
Proof.
  intros Hs Hbrace Hslash Em. assert (simple (drop n s) target) as Hs'.
  { destruct Hs as [C1 C2 C3]. split; [by apply Forall_drop| |done].
    intros i c. rewrite !lookup_drop, Nat.add_succ_r. apply C2. }
  split; [|done]. unfold create. rewrite Em.
  rewrite (bool_decide_eq_false_2 (s !! (n - 1) = Some "/"%char))
    by (intros Hx; apply Hslash; by eapply list_elem_of_lookup_2).
  rewrite andb_false_r, prefix_check_spec, decide_False.
  2: { intros Hx. apply Hslash. apply list_elem_of_lookup in Hx as [i Hi].
       rewrite lookup_drop in Hi. apply lookup_take_Some in Hi as [Hi _].
       by eapply list_elem_of_lookup_2. }
  cbn [Res_bind]. unfold parseBraceExpansions. rewrite decide_True.
  2: { right. intros [i Hi]%list_elem_of_lookup. rewrite lookup_drop in Hi. apply Hbrace.
       by eapply list_elem_of_lookup_2. }
  cbn [Res_bind create_all]. unfold sub_create.
  rewrite create_loop_simple; [done|apply Hs'| |lia|lia].
  intros i Hi. apply (sm_star _ _ Hs' i "*"%char); [done|by left].
Qed.

(** Wildcards mean what they should inside a path segment: for a pattern of
    literals, [*] and [?] (no separator, class, escape or brace, no [**] or
    [?*]) and a string without separators, [create] succeeds and [match]
    terminates, within a bound polynomial in both lengths, with the answer of the
    declarative semantics: [*] is any string, also the empty one, [?] one
    character. *)
Theorem wildcard_pattern_correct (char_signed : bool) (s target : bytes) (max : Z) :
  simple s target → "{"%char ∉ s →
  ∃ g, create char_signed s max = Ok g ∧
    ∀ fuel, (length s + 1) * (S (length target) * S (length s)) + 2 ≤ fuel →
      glob_match fuel g target = Ok (wmatch s target).
Proof.
  intros Hs Hbrace. assert ("/"%char ∉ s) as Hslash.
  { intros [i Hi]%list_elem_of_lookup. by destruct (pat_char s target Hs _ _ Hi). }
  unfold create. destruct (find_meta s) as [n|] eqn:Em.
  - destruct (find_meta_Some s n Em) as [Hn Hpre].
    destruct (create_wildcard char_signed s target max n Hs Hbrace Hslash Em) as [Hcr Hs'].
    unfold create in Hcr. rewrite Em in Hcr. rewrite Hcr.
    eexists. split; [done|]. intros fuel Hf.
    pose proof (wmatch_literal (take n s) (drop n s) target Hpre) as Hw. rewrite take_drop in Hw.
    rewrite Hw. unfold glob_match. cbn [prefix sub_globs prefix_at_seg_end].
    case_decide as Ep; [|by rewrite bool_decide_eq_false_2].
    rewrite bool_decide_eq_true_2 by done. cbn [andb].
    rewrite (decide_False (P := drop (length (take n s)) target = [] ∧ _)) by (by intros [_ ?]).
    set (rest := drop (length (take n s)) target).
    assert (sub_match fuel (mkSub [] [mkSegment 0 (length (drop n s))] (drop n s)) rest =
            Ok (wmatch (drop n s) rest)) as Hsub.
    { apply (simple_match (drop n s) rest).
      - destruct Hs' as [C1 C2 C3]. split; [done|done|]. by apply Forall_drop.
      - etrans; [|exact Hf]. apply Nat.add_le_mono_r. unfold rest. rewrite !length_drop.
        apply Nat.mul_le_mono; [lia|]. apply Nat.mul_le_mono; lia. }
    assert (match_any fuel [mkSub [] [mkSegment 0 (length (drop n s))] (drop n s)] rest =
            Ok (wmatch (drop n s) rest)) as Hany.
    { cbn [match_any]. rewrite Hsub. cbn [Res_bind]. by destruct (wmatch (drop n s) rest). }
    clearbody rest. by destruct rest.
  - pose proof (proj1 (find_meta_None s) Em) as Hlit.
    rewrite prefix_check_spec, decide_False.
    2: { intros [i Hi]%list_elem_of_lookup. rewrite lookup_drop in Hi. apply Hslash.
         by eapply list_elem_of_lookup_2. }
    cbn [Res_bind]. eexists. split; [done|]. intros fuel _.
    pose proof (wmatch_literal s [] target Hlit) as Hw. rewrite app_nil_r in Hw. rewrite Hw.
    unfold glob_match. simpl. case_decide as Ep; [|by rewrite bool_decide_eq_false_2].
    rewrite bool_decide_eq_true_2 by done. simpl. by destruct (drop (length s) target).
Qed.

Lemma wildcard_pattern_correct_witness :
  ∃ g, create true (str "lib*.s?") 100 = Ok g ∧
    ∀ fuel, (length (str "lib*.s?") + 1) * (S (length (str "libclang.so")) * S (length (str "lib*.s?"))) + 2
              ≤ fuel →
      glob_match fuel g (str "libclang.so") = Ok (wmatch (str "lib*.s?") (str "libclang.so")).
Proof.
  apply wildcard_pattern_correct.
  - split.
    + apply Forall_forall. intros c Hc. vm_compute in Hc.
      repeat (apply elem_of_cons in Hc as [->|Hc]; [split_and!; discriminate|]). by apply not_elem_of_nil in Hc.
    + intros i c Hi Hc. do 7 (destruct i as [|i]; [injection Hi as <-; first [discriminate|by destruct Hc]|]). done.
    + apply Forall_forall. intros c Hc. vm_compute in Hc.
      repeat (apply elem_of_cons in Hc as [->|Hc]; [split_and!; discriminate|]). by apply not_elem_of_nil in Hc.
  - intros Hc. vm_compute in Hc.
    repeat (apply elem_of_cons in Hc as [Hc|Hc]; [discriminate|]). by apply not_elem_of_nil in Hc.
Defined.

(** The pattern [**] matches every path. *)
Theorem double_star_matches_all (char_signed : bool) (target : bytes) (fuel : nat) :
  ∃ g, create char_signed (str "**") 100 = Ok g ∧ glob_match (S fuel) g target = Ok true.
Proof.
  eexists. split; [by destruct char_signed|]. destruct target as [|c target]; reflexivity.
Qed.
