(* ===== verification/CacheStore.v ===== *)
(** * The blob store (src/support/cache_store.{h,cpp}, src/support/filesystem.h)

    [CacheStore] keeps, per namespace, the committed blobs with their sizes and
    last-accessed stamps, publishes blobs by atomic rename, evicts the least
    recently used ones over budget, and checkpoints the stamps in a manifest.

    The operating system, LLVM's path and file functions and the JSON codec are
    not part of the repository: they are the fields of the class [Platform],
    over an abstract world [W].  Every call may change the world in any way, so
    what is proved without further laws holds for every behaviour of the file
    system, including other processes acting between two calls. *)
From stdpp Require Import pretty sorting.
From S2P Require Import Prelude.
Local Open Scope Z_scope.

(** ** Errors and file status *)

Inductive errc :=
| invalid_argument
| no_such_file_or_directory
| other_error (n : Z).

Global Instance errc_eq_dec : EqDecision errc.
Proof. solve_decision. Defined.

Inductive file_type := regular_file | directory_file | other_file.

Global Instance file_type_eq_dec : EqDecision file_type.
Proof. solve_decision. Defined.

(** [llvm::sys::fs::file_status]: the modification time is in milliseconds. *)
Record file_status := FileStatus { st_type : file_type; st_size : Z; st_mtime : Z }.

(** What [kill(pid, 0)] reports. *)
Inductive kill_result := KillOk | KillEPERM | KillOther.

(** ** Data of the store *)

Inductive CachePolicy := LRU | Persistent | Scratch.

Global Instance CachePolicy_eq_dec : EqDecision CachePolicy.
Proof. solve_decision. Defined.

Record CacheNamespace := mkCacheNamespace {
  ns_name : bytes;
  ns_extension : bytes;
  ns_policy : CachePolicy;
  ns_max_bytes : Z;
}.

Record PendingEntry := mkPendingEntry {
  p_ns : bytes;
  p_key : bytes;
  p_tmp_path : bytes;
}.

Record ManifestEntry := mkManifestEntry { m_ns : bytes; m_key : bytes; m_atime : Z }.

Record Entry := mkEntry { e_size : Z; e_atime : Z }.

Record Namespace := mkNamespace {
  config : CacheNamespace;
  dir : bytes;
  entries : gmap bytes Entry;
  total_size : Z;
}.

Record State := mkState {
  base : bytes;
  tmp_dir : bytes;
  self_pid : Z;
  namespaces : gmap bytes Namespace;
  manifest_atimes : gmap bytes Z;
  next_tmp_id : Z;
  changes_since_checkpoint : Z;
  dirty : bool;
  last_stamp : Z;
}.

Definition default_state : State := mkState [] [] 0 ∅ ∅ 0 0 false 0.

Definition set_namespaces (f : gmap bytes Namespace → gmap bytes Namespace) (s : State) : State :=
  mkState (base s) (tmp_dir s) (self_pid s) (f (namespaces s)) (manifest_atimes s)
    (next_tmp_id s) (changes_since_checkpoint s) (dirty s) (last_stamp s).
Definition set_dirty (d : bool) (s : State) : State :=
  mkState (base s) (tmp_dir s) (self_pid s) (namespaces s) (manifest_atimes s)
    (next_tmp_id s) (changes_since_checkpoint s) d (last_stamp s).
Definition set_changes (c : Z) (s : State) : State :=
  mkState (base s) (tmp_dir s) (self_pid s) (namespaces s) (manifest_atimes s)
    (next_tmp_id s) c (dirty s) (last_stamp s).
Definition set_last_stamp (t : Z) (s : State) : State :=
  mkState (base s) (tmp_dir s) (self_pid s) (namespaces s) (manifest_atimes s)
    (next_tmp_id s) (changes_since_checkpoint s) (dirty s) t.
Definition set_next_tmp_id (i : Z) (s : State) : State :=
  mkState (base s) (tmp_dir s) (self_pid s) (namespaces s) (manifest_atimes s)
    i (changes_since_checkpoint s) (dirty s) (last_stamp s).

Definition set_ns (name : bytes) (ns : Namespace) : State → State :=
  set_namespaces <[name := ns]>.

(** [checkpoint_interval]. *)
Definition checkpoint_interval : Z := 16.

Definition max_i64 : Z := 9223372036854775807.

(** ** The platform *)

Class Platform (W : Type) := {
  os_getpid : W → Z * W;
  os_now_ms : W → Z * W;
  os_kill : Z → W → kill_result * W;
  os_status : bytes → W → (errc + file_status) * W;
  os_lstatus : bytes → W → (errc + file_status) * W;
  os_create_directories : bytes → W → option errc * W;
  os_remove : bytes → W → option errc * W;
  os_rename : bytes → bytes → W → option errc * W;
  os_open_existing : bytes → W → (errc + Z) * W;
  os_fsync : Z → W → option errc * W;
  os_close : Z → W → unit * W;
  os_read : bytes → W → (errc + bytes) * W;
  os_write : bytes → bytes → W → option errc * W;
  (** the entries a [directory_iterator] visits, and the error that ended it *)
  os_list : bytes → W → (list bytes * option errc) * W;

  path_append : bytes → bytes → bytes;
  path_filename : bytes → bytes;
  (** [StringRef::getAsInteger(10, uint32_t&)]: [None] on failure *)
  get_as_integer : bytes → option Z;
  to_json : list ManifestEntry → option bytes;
  from_json : bytes → option (list ManifestEntry);
  (** the iteration order of an [llvm::StringMap] *)
  strmap_iter : ∀ {V}, gmap bytes V → list (bytes * V);
  strmap_iter_perm : ∀ {V} (m : gmap bytes V), strmap_iter m ≡ₚ map_to_list m;
}.

(** ** The monad: the store and the world, with errors and faults *)

Record Sys (W : Type) := mkSys { store : State; world : W }.
Arguments mkSys {W} store world.
Arguments store {W} s.
Arguments world {W} s.

Definition M (W A : Type) : Type := Sys W → Res errc A * Sys W.

Section Monad.
Context {W : Type}.

Definition ret {A} (a : A) : M W A := λ s, (Ok a, s).
Definition bind {A B} (m : M W A) (k : A → M W B) : M W B := λ s,
  match m s with
  | (Ok a, s') => k a s'
  | (Err e, s') => (Err e, s')
  | (Fault, s') => (Fault, s')
  | (Stuck, s') => (Stuck, s')
  end.
(** [return std::unexpected(e)]. *)
Definition unexpected {A} (e : errc) : M W A := λ s, (Err e, s).
Definition fault {A} : M W A := λ s, (Fault, s).
Definition call {A} (f : W → A * W) : M W A := λ s,
  let '(a, w) := f (world s) in (Ok a, mkSys (store s) w).
Definition get : M W State := λ s, (Ok (store s), s).
Definition modify (f : State → State) : M W unit := λ s, (Ok (), mkSys (f (store s)) (world s)).
End Monad.

Notation "'let!' x ':=' m 'in' k" := (bind m (λ x, k))
  (at level 10, x pattern, m at level 100, k at level 200) : cpp_scope.
Notation "'do!' m 'in' k" := (bind m (λ _, k))
  (at level 10, m at level 100, k at level 200) : cpp_scope.
Local Open Scope cpp_scope.

Section Store.
Context {W : Type} `{Platform W}.
(** Whether the build disables [assert]. *)
Context (ndebug : bool).

Definition cpp_assert (b : bool) : M W unit := if b || ndebug then ret () else fault.

(** [for(x: l) body(x)]. *)
Fixpoint each {A} (l : list A) (body : A → M W unit) : M W unit :=
  match l with
  | [] => ret ()
  | a :: l => do! body a in each l body
  end.

Definition join (a b : bytes) : bytes := path_append a b.

Definition decimal (n : Z) : bytes := str (pretty n).

(** ** Wrappers of filesystem.h *)

Definition fs_read (p : bytes) : M W (errc + bytes) := call (os_read p).
Definition fs_write (p content : bytes) : M W (option errc) := call (os_write p content).
Definition fs_rename (a b : bytes) : M W (option errc) := call (os_rename a b).

(** A loop over directory children that returns the first error. *)
Definition first_error (body : bytes → M W (option errc)) : list bytes → M W (option errc) :=
  fix loop l :=
    match l with
    | [] => ret None
    | p :: l =>
      let! r := body p in
      match r with
      | Some e => ret (Some e)
      | None => loop l
      end
    end.

Definition missing_is_fine (e : errc) : option errc :=
  if decide (e = no_such_file_or_directory) then None else Some e.

(** [remove_all] recurses down the directory tree; [fuel] bounds its depth. *)
Fixpoint remove_all (fuel : nat) (target : bytes) : M W (option errc) :=
  match fuel with
  | O => λ s, (Stuck, s)
  | S fuel =>
    let! target_status := call (os_lstatus target) in
    match target_status with
    | inl e => ret (missing_is_fine e)
    | inr st =>
      if decide (st_type st = directory_file) then
        let! listing := call (os_list target) in
        let! r := first_error (λ child,
          let! status := call (os_lstatus child) in
          match status with
          | inl e => ret (Some e)
          | inr cst =>
            if decide (st_type cst = directory_file) then remove_all fuel child
            else call (os_remove child)
          end) listing.1 in
        match r, listing.2 with
        | Some e, _ => ret (Some e)
        | None, Some e => ret (missing_is_fine e)
        | None, None => call (os_remove target)
        end
      else call (os_remove target)
    end
  end.

(** The depth of directory trees under the store root that [remove_all] is run
    with. *)
Context (depth : nat).

(** ** Helpers of cache_store.cpp *)

Definition is_pid_alive (pid : Z) : M W bool :=
  let! r := call (os_kill pid) in
  ret (match r with KillOk => true | KillEPERM => true | KillOther => false end).

Definition sync_file (p : bytes) : M W (option errc) :=
  let! file := call (os_open_existing p) in
  match file with
  | inl e => ret (Some e)
  | inr fd =>
    let! ec := call (os_fsync fd) in
    do! call (os_close fd) in
    ret ec
  end.

Definition same_content (tmp_path final_path : bytes) : M W bool :=
  let! tmp_status := call (os_status tmp_path) in
  match tmp_status with
  | inl _ => ret false
  | inr tmp_status =>
    let! final_status := call (os_status final_path) in
    match final_status with
    | inl _ => ret false
    | inr final_status =>
      if bool_decide (st_type final_status ≠ regular_file)
         || bool_decide (st_size tmp_status ≠ st_size final_status)
      then ret false
      else
        let! tmp_buf := fs_read tmp_path in
        let! final_buf := fs_read final_path in
        ret (match tmp_buf, final_buf with
             | inr a, inr b => bool_decide (a = b)
             | _, _ => false
             end)
    end
  end.

Definition sweep_dead_pid_dirs (d : bytes) (self : Z) : M W unit :=
  let! listing := call (os_list d) in
  each listing.1 (λ p,
    match get_as_integer (path_filename p) with
    | None => ret ()
    | Some pid =>
      if decide (pid = self) then ret ()
      else
        let! alive := is_pid_alive pid in
        if alive : bool then ret () else do! remove_all depth p in ret ()
    end).

(** ** Methods of [State] *)

(** [std::int64_t] addition: overflow is undefined. *)
Definition next_stamp : M W Z :=
  let! now := call os_now_ms in
  let! s := get in
  if decide (last_stamp s + 1 ≤ max_i64) then
    let stamp := Z.max now (last_stamp s + 1) in
    do! modify (set_last_stamp stamp) in
    ret stamp
  else fault.

Definition blob_path (ns : Namespace) (key : bytes) : bytes :=
  join (dir ns) (key ++ ns_extension (config ns)).

Definition find_namespace (name : bytes) : M W (option Namespace) :=
  let! s := get in ret (namespaces s !! name).

(** [StringRef::consume_back]: the name without the extension. *)
Definition consume_back (ext name : bytes) : option bytes :=
  let n := (length name - length ext)%nat in
  if decide ((length ext ≤ length name)%nat ∧ drop n name = ext) then Some (take n name) else None.

(** The key of a directory entry, when its name carries the extension. *)
Definition blob_key (ext name : bytes) : option bytes :=
  if decide (ext = []) then Some name else consume_back ext name.

(** The candidates of an eviction, oldest first. *)
Definition older (a b : bytes * Entry) : Prop := e_atime a.2 ≤ e_atime b.2.

Global Instance older_dec a b : Decision (older a b).
Proof. unfold older. apply _. Defined.

Definition candidates (keep_key : bytes) (m : gmap bytes Entry) : list (bytes * Entry) :=
  merge_sort older (filter (λ e, e.1 ≠ keep_key) (strmap_iter m)).

(** The loop of [evict_locked] on the namespace it gets by reference: the callers
    store the result back. *)
Fixpoint evict_loop (cands : list (bytes * Entry)) (ns : Namespace) : M W Namespace :=
  match cands with
  | [] => ret ns
  | (key, candidate) :: cands =>
    if decide (total_size ns ≤ ns_max_bytes (config ns)) then ret ns
    else
      let! removed := call (os_remove (blob_path ns key)) in
      match removed with
      | Some _ => evict_loop cands ns
      | None =>
        do! modify (set_dirty true) in
        evict_loop cands
          (mkNamespace (config ns) (dir ns) (delete key (entries ns))
             (u64 (total_size ns - e_size candidate)))
      end
  end.

Definition evict_locked (ns : Namespace) (keep_key : bytes) : M W Namespace :=
  if bool_decide (ns_policy (config ns) ≠ LRU) || bool_decide (ns_max_bytes (config ns) = 0)
     || bool_decide (total_size ns ≤ ns_max_bytes (config ns))
  then ret ns
  else evict_loop (candidates keep_key (entries ns)) ns.

(** The manifest written by a checkpoint. *)
Definition manifest_data (s : State) : list ManifestEntry :=
  concat ((λ e : bytes * Namespace,
    if decide (ns_policy (config e.2) = Scratch) then []
    else (λ x : bytes * Entry, mkManifestEntry e.1 x.1 (e_atime x.2)) <$> strmap_iter (entries e.2))
    <$> strmap_iter (namespaces s)).

Definition checkpoint_locked : M W unit :=
  let! s := get in
  if negb (dirty s) then ret ()
  else
    match to_json (manifest_data s) with
    | None => ret ()
    | Some json =>
      let manifest_path := join (base s) (str "manifest.json") in
      let tmp_path := join (tmp_dir s) (str "manifest.json") in
      let! w := fs_write tmp_path json in
      match w with
      | Some _ => ret ()
      | None =>
        let! r := fs_rename tmp_path manifest_path in
        match r with
        | Some _ => ret ()
        | None => do! modify (set_dirty false) in modify (set_changes 0)
        end
      end
    end.

(** ** Public operations *)

Definition load_manifest (data : list ManifestEntry) (s : State) : State :=
  foldl (λ s e,
    mkState (base s) (tmp_dir s) (self_pid s) (namespaces s)
      (<[m_ns e ++ str "/" ++ m_key e := m_atime e]> (manifest_atimes s))
      (next_tmp_id s) (changes_since_checkpoint s) (dirty s)
      (Z.max (last_stamp s) (m_atime e))) s data.

Definition open (root : bytes) (version : Z) : M W State :=
  do! cpp_assert (bool_decide (root ≠ [])) in
  let! pid := call os_getpid in
  let self := u32 pid in
  let parent := join root (str "cache") in
  let version_dir := str "v" ++ decimal version in
  let base := join parent version_dir in
  let! r := call (os_create_directories base) in
  match r with
  | Some ec => unexpected ec
  | None =>
    let! listing := call (os_list parent) in
    do! each listing.1 (λ p,
      if decide (path_filename p = version_dir) then ret ()
      else
        let! st := call (os_status p) in
        match st with
        | inr (FileStatus directory_file _ _) => do! remove_all depth p in ret ()
        | _ => do! call (os_remove p) in ret ()
        end) in
    let fresh := mkState base [] self ∅ ∅ 0 0 false 0 in
    let! content := fs_read (join base (str "manifest.json")) in
    let state :=
      match content with
      | inl _ => fresh
      | inr content =>
        match from_json content with
        | Some data => load_manifest data fresh
        | None => fresh
        end
      end in
    let tmp_parent := join base (str "tmp") in
    do! sweep_dead_pid_dirs tmp_parent self in
    let tmp := join tmp_parent (decimal self) in
    do! remove_all depth tmp in
    let! r2 := call (os_create_directories tmp) in
    match r2 with
    | Some ec2 => unexpected ec2
    | None =>
      ret (mkState base tmp self ∅ (manifest_atimes state) 0 0 false (last_stamp state))
    end
  end.

(** One step of the directory scan of [register_namespace]. *)
Definition adopt (manifest : gmap bytes Z) (p : bytes) (ns : Namespace) : M W Namespace :=
  let ext := ns_extension (config ns) in
  match blob_key ext (path_filename p) with
  | None => ret ns
  | Some filename =>
    let! status := call (os_status p) in
    match status with
    | inl _ => ret ns
    | inr status =>
      if decide (st_type status ≠ regular_file) then ret ns
      else
        let atime :=
          default (st_mtime status) (manifest !! (ns_name (config ns) ++ str "/" ++ filename)) in
        ret (mkNamespace (config ns) (dir ns)
               (<[filename := mkEntry (st_size status) atime]> (entries ns))
               (u64 (total_size ns + st_size status)))
    end
  end.

Fixpoint scan (manifest : gmap bytes Z) (ps : list bytes) (ns : Namespace) : M W Namespace :=
  match ps with
  | [] => ret ns
  | p :: ps => let! ns := adopt manifest p ns in scan manifest ps ns
  end.

Definition register_namespace (ns : CacheNamespace) : M W unit :=
  let! s := get in
  let ns_dir := join (base s) (ns_name ns) in
  do! call (os_create_directories ns_dir) in
  match namespaces s !! ns_name ns with
  | Some _ => cpp_assert false
  | None =>
    if decide (ns_policy ns = Scratch) then
      do! modify (set_ns (ns_name ns) (mkNamespace ns [] ∅ 0)) in
      do! sweep_dead_pid_dirs ns_dir (self_pid s) in
      let d := join ns_dir (decimal (self_pid s)) in
      do! modify (set_ns (ns_name ns) (mkNamespace ns d ∅ 0)) in
      do! remove_all depth d in
      do! call (os_create_directories d) in
      ret ()
    else
      do! modify (set_ns (ns_name ns) (mkNamespace ns ns_dir ∅ 0)) in
      let! listing := call (os_list ns_dir) in
      let! adopted := scan (manifest_atimes s) listing.1 (mkNamespace ns ns_dir ∅ 0) in
      let! kept := evict_locked adopted [] in
      modify (set_ns (ns_name ns) kept)
  end.

Definition lookup (ns key : bytes) : M W (option bytes) :=
  let! found := find_namespace ns in
  match found with
  | None => ret None
  | Some ns_state =>
    match entries ns_state !! key with
    | None => ret None
    | Some entry =>
      let! stamp := next_stamp in
      do! modify (set_ns ns (mkNamespace (config ns_state) (dir ns_state)
                    (<[key := mkEntry (e_size entry) stamp]> (entries ns_state))
                    (total_size ns_state))) in
      do! modify (set_dirty true) in
      ret (Some (blob_path ns_state key))
    end
  end.

Definition begin_store (ns key : bytes) : M W PendingEntry :=
  let! found := find_namespace ns in
  do! cpp_assert (bool_decide (is_Some found)) in
  match found with
  | None => ret (mkPendingEntry [] [] [])
  | Some ns_state =>
    let! s := get in
    do! modify (set_next_tmp_id (u64 (next_tmp_id s + 1))) in
    let tmp_name := decimal (next_tmp_id s) ++ ns_extension (config ns_state) in
    ret (mkPendingEntry ns key (join (tmp_dir s) tmp_name))
  end.

Definition maybe_checkpoint : M W unit :=
  let! s := get in
  if decide (checkpoint_interval ≤ changes_since_checkpoint s) then checkpoint_locked else ret ().

(** [commit] up to the second critical section: the status of the temporary file,
    the policy check and the flush. *)
Definition commit_prepare (pending : PendingEntry) : M W file_status :=
  if decide (p_tmp_path pending = []) then unexpected invalid_argument
  else
    let! status := call (os_status (p_tmp_path pending)) in
    match status with
    | inl ec => unexpected ec
    | inr status =>
      let! found := find_namespace (p_ns pending) in
      match found with
      | None => unexpected invalid_argument
      | Some ns_state =>
        if decide (ns_policy (config ns_state) ≠ Scratch) then
          let! r := sync_file (p_tmp_path pending) in
          match r with
          | Some ec => do! call (os_remove (p_tmp_path pending)) in unexpected ec
          | None => ret status
          end
        else ret status
      end
    end.

(** The rename of [commit] with its collision handling: the status of the file
    now published, or the error returned. *)
Definition publish (ns : bytes) (ns_state : Namespace) (pending : PendingEntry)
    (final_path : bytes) (status : file_status) : M W file_status :=
  let! result := fs_rename (p_tmp_path pending) final_path in
  match result with
  | None => ret status
  | Some error =>
    let! same := same_content (p_tmp_path pending) final_path in
    if same : bool then
      do! call (os_remove (p_tmp_path pending)) in
      let! st := call (os_status final_path) in
      match st with
      | inl _ => unexpected error
      | inr st => ret st
      end
    else
      do! call (os_remove final_path) in
      let! retry := fs_rename (p_tmp_path pending) final_path in
      match retry with
      | None => ret status
      | Some retry_error =>
        do! call (os_remove (p_tmp_path pending)) in
        match entries ns_state !! p_key pending with
        | None => unexpected retry_error
        | Some entry =>
          let! st := call (os_status final_path) in
          match st with
          | inr _ => unexpected retry_error
          | inl _ =>
            do! modify (set_ns ns (mkNamespace (config ns_state) (dir ns_state)
                          (delete (p_key pending) (entries ns_state))
                          (u64 (total_size ns_state - e_size entry)))) in
            do! modify (set_dirty true) in
            unexpected retry_error
          end
        end
      end
  end.

(** The second critical section of [commit]. *)
Definition commit_publish (pending : PendingEntry) (status0 : file_status) : M W bytes :=
  let! found := find_namespace (p_ns pending) in
  match found with
  | None => unexpected invalid_argument
  | Some ns_state =>
    let final_path := blob_path ns_state (p_key pending) in
    let! status := publish (p_ns pending) ns_state pending final_path status0 in
    let old_size := from_option e_size 0 (entries ns_state !! p_key pending) in
    let! stamp := next_stamp in
    let updated := mkNamespace (config ns_state) (dir ns_state)
      (<[p_key pending := mkEntry (st_size status) stamp]> (entries ns_state))
      (u64 (total_size ns_state + (st_size status - old_size))) in
    let! kept := (if decide (ns_policy (config ns_state) = LRU)
                  then evict_locked updated (p_key pending) else ret updated) in
    do! modify (set_ns (p_ns pending) kept) in
    do! (if decide (ns_policy (config ns_state) ≠ Scratch)
         then do! modify (set_dirty true) in
              modify (λ s, set_changes (u32 (changes_since_checkpoint s + 1)) s)
         else ret ()) in
    ret final_path
  end.

Definition commit (pending : PendingEntry) : M W bytes :=
  let! status := commit_prepare pending in
  let! final_path := commit_publish pending status in
  do! maybe_checkpoint in
  ret final_path.

Definition abort (pending : PendingEntry) : M W unit :=
  if decide (p_tmp_path pending = []) then ret ()
  else do! call (os_remove (p_tmp_path pending)) in ret ().

(** The critical section of [invalidate]: whether it got to the end. *)
Definition invalidate_locked (ns key : bytes) : M W bool :=
  let! found := find_namespace ns in
  match found with
  | None => ret false
  | Some ns_state =>
    match entries ns_state !! key with
    | None => ret false
    | Some entry =>
      do! call (os_remove (blob_path ns_state key)) in
      do! modify (set_ns ns (mkNamespace (config ns_state) (dir ns_state)
                    (delete key (entries ns_state))
                    (u64 (total_size ns_state - e_size entry)))) in
      do! (if decide (ns_policy (config ns_state) ≠ Scratch)
           then do! modify (set_dirty true) in
                modify (λ s, set_changes (u32 (changes_since_checkpoint s + 1)) s)
           else ret ()) in
      ret true
    end
  end.

Definition invalidate (ns key : bytes) : M W unit :=
  let! changed := invalidate_locked ns key in
  if changed : bool then maybe_checkpoint else ret ().

(** The keys handed to the callback of [for_each_key]. *)
Definition snapshot_keys (ns : bytes) : M W (list bytes) :=
  let! found := find_namespace ns in
  match found with
  | None => ret []
  | Some ns_state => ret (strmap_iter (entries ns_state)).*1
  end.

Definition for_each_key (ns : bytes) (fn : bytes → M W unit) : M W unit :=
  let! keys := snapshot_keys ns in each keys fn.

Definition base_dir : M W bytes := let! s := get in ret (base s).

Definition checkpoint : M W unit := checkpoint_locked.

Definition shutdown : M W unit :=
  do! checkpoint_locked in
  let! s := get in
  do! remove_all depth (tmp_dir s) in
  each (strmap_iter (namespaces s)) (λ e,
    if decide (ns_policy (config e.2) = Scratch)
    then do! remove_all depth (dir e.2) in ret ()
    else ret ()).

End Store.
