(* ===== verification/CacheInvariant.v ===== *)
(** * Accounting in the blob store

    A small program logic for the monad of [CacheStore], the operations as
    atomic steps at the granularity of the store's mutex, and the invariants of
    every interleaving of them: the accounted size of a namespace is the sum of
    the sizes of its entries, and temporary paths are never handed out twice. *)
From stdpp Require Import pretty sorting.
From S2P Require Import Prelude CacheStore.
Local Open Scope Z_scope.
Local Open Scope cpp_scope.

(** ** Triples: [Q] on normal return, [E] on every other exit *)

Section Triples.
Context {W : Type}.

Definition triple {A} (P : Sys W → Prop) (m : M W A) (Q : A → Sys W → Prop) (E : Sys W → Prop) :=
  ∀ s, P s → match m s with (Ok a, s') => Q a s' | (_, s') => E s' end.

Lemma triple_ret {A} (P : Sys W → Prop) (a : A) Q E : (∀ s, P s → Q a s) → triple P (ret a) Q E.
Proof. intros HQ s Hs. by apply HQ. Qed.

Lemma triple_bind {A B} P (R : A → Sys W → Prop) (m : M W A) (k : A → M W B) Q E :
  triple P m R E → (∀ a, triple (R a) (k a) Q E) → triple P (bind m k) Q E.
Proof.
  intros Hm Hk s Hs. specialize (Hm s Hs). unfold bind.
  destruct (m s) as [[a|e| |] s']; [|done..]. by apply Hk.
Qed.

Lemma triple_weaken {A} P P' (m : M W A) (Q Q' : A → Sys W → Prop) (E E' : Sys W → Prop) :
  triple P m Q E → (∀ s, P' s → P s) → (∀ a s, Q a s → Q' a s) → (∀ s, E s → E' s) →
  triple P' m Q' E'.
Proof.
  intros Hm HP HQ HE s Hs. specialize (Hm s (HP s Hs)). destruct (m s) as [[a|e| |] s']; auto.
Qed.

Lemma triple_unexpected {A} (P : Sys W → Prop) e (Q : A → Sys W → Prop) (E : Sys W → Prop) :
  (∀ s, P s → E s) → triple P (unexpected e) Q E.
Proof. intros HE s Hs. by apply HE. Qed.

Lemma triple_fault {A} (P : Sys W → Prop) (Q : A → Sys W → Prop) (E : Sys W → Prop) :
  (∀ s, P s → E s) → triple P fault Q E.
Proof. intros HE s Hs. by apply HE. Qed.

Lemma triple_call {A} P (f : W → A * W) (Q : A → Sys W → Prop) E :
  (∀ s a w, P s → f (world s) = (a, w) → Q a (mkSys (store s) w)) → triple P (call f) Q E.
Proof. intros HQ s Hs. unfold call. destruct (f (world s)) as [a w] eqn:Hf. by apply HQ. Qed.

Lemma triple_get P (Q : State → Sys W → Prop) E :
  (∀ s, P s → Q (store s) s) → triple P get Q E.
Proof. intros HQ s Hs. by apply HQ. Qed.

Lemma triple_modify P f (Q : unit → Sys W → Prop) E :
  (∀ s, P s → Q () (mkSys (f (store s)) (world s))) → triple P (modify f) Q E.
Proof. intros HQ s Hs. by apply HQ. Qed.

Lemma triple_pure {A} (φ : Prop) P (m : M W A) Q E :
  (φ → triple P m Q E) → triple (λ s, φ ∧ P s) m Q E.
Proof. intros Hm s [Hφ Hs]. by apply Hm. Qed.

Lemma triple_each {A} (P : Sys W → Prop) (l : list A) (body : A → M W unit) (E : Sys W → Prop) :
  (∀ a, a ∈ l → triple P (body a) (λ _, P) E) → triple P (each l body) (λ _, P) E.
Proof.
  induction l as [|a l IH]; intros Hbody; simpl; [by apply triple_ret|].
  eapply triple_bind; [apply Hbody; set_solver|]. intros []. apply IH. set_solver.
Qed.

(** An invariant of the store alone, whatever the world does; the state a [get]
    returns satisfies it too. *)
Definition keeps {A} (I : State → Prop) (m : M W A) (φ : A → Prop) : Prop :=
  triple (λ s, I (store s)) m (λ a s, φ a ∧ I (store s)) (λ s, I (store s)).

Lemma keeps_ret {A} I (a : A) (φ : A → Prop) : φ a → keeps I (ret a) φ.
Proof. intros. by apply triple_ret. Qed.

Lemma keeps_bind {A B} I (m : M W A) (k : A → M W B) φ ψ :
  keeps I m φ → (∀ a, φ a → keeps I (k a) ψ) → keeps I (bind m k) ψ.
Proof. intros Hm Hk. eapply triple_bind; [done|]. intros a. apply triple_pure, Hk. Qed.

Lemma keeps_weaken {A} I (m : M W A) (φ ψ : A → Prop) :
  keeps I m φ → (∀ a, φ a → ψ a) → keeps I m ψ.
Proof. intros Hm Hφ. eapply triple_weaken; [done|done| |done]. intros a s [? ?]; auto. Qed.

Lemma keeps_call {A} I (f : W → A * W) (φ : A → Prop) :
  (∀ w, φ (f w).1) → keeps I (call f) φ.
Proof. intros Hφ. apply triple_call. intros s a w Hs Hf. specialize (Hφ (world s)).
  rewrite Hf in Hφ. done. Qed.

Lemma keeps_get I : keeps I get I.
Proof. by apply triple_get. Qed.

Lemma keeps_modify I f : (∀ s, I s → I (f s)) → keeps I (modify f) (λ _, True).
Proof. intros Hf. apply triple_modify. intros s Hs. split; [done|]. by apply Hf. Qed.

Lemma keeps_each {A} I (l : list A) (body : A → M W unit) :
  (∀ a, a ∈ l → keeps I (body a) (λ _, True)) → keeps I (each l body) (λ _, True).
Proof.
  intros Hbody.
  assert (triple (λ s, I (store s)) (each l body) (λ _ s, I (store s)) (λ s, I (store s))) as Hl.
  { apply (triple_each (λ s, I (store s))). intros a Ha s Hs. specialize (Hbody a Ha s Hs).
    destruct (body a s) as [[?|?| |] ?]; naive_solver. }
  intros s Hs. specialize (Hl s Hs). destruct (each l body s) as [[?|?| |] ?]; naive_solver.
Qed.

Lemma keeps_unexpected {A} I e (φ : A → Prop) : keeps I (unexpected e) φ.
Proof. by apply triple_unexpected. Qed.

Lemma keeps_fault {A} I (φ : A → Prop) : keeps I (fault : M W A) φ.
Proof. by apply triple_fault. Qed.

Lemma keeps_run {A} I (m : M W A) φ s : keeps I m φ → I (store s) → I (store (m s).2).
Proof. intros Hm Hs. specialize (Hm s Hs). by destruct (m s) as [[a|e| |] s']; naive_solver. Qed.
End Triples.

#[export] Hint Resolve keeps_unexpected keeps_fault keeps_get : clice.

(** Walk through a computation whose calls do not matter for the invariant. *)
Ltac keeps_step :=
  first
    [ apply keeps_unexpected | apply keeps_fault | apply keeps_ret
    | eapply keeps_bind; [| intros ? ?]
    | apply keeps_get
    | apply (keeps_call _ _ (λ _, True)); done ].
Ltac keeps_cases :=
  repeat first
    [ progress simpl | keeps_step
    | match goal with |- keeps _ (match ?x with _ => _ end) _ => destruct x end ].

(** ** Sums of sizes *)

Definition blob_sum (m : gmap bytes Entry) : Z := map_fold (λ _ e acc, e_size e + acc) 0 m.

Lemma blob_sum_insert m k e : m !! k = None → blob_sum (<[k := e]> m) = e_size e + blob_sum m.
Proof. intros Hk. unfold blob_sum. rewrite map_fold_insert_L; [done|intros; lia|done]. Qed.

Lemma blob_sum_delete m k e : m !! k = Some e → blob_sum (delete k m) = blob_sum m - e_size e.
Proof.
  intros Hk. unfold blob_sum at 2. rewrite (map_fold_delete_L _ _ k e m); [|intros; lia|done].
  fold (blob_sum (delete k m)). lia.
Qed.

Lemma blob_sum_update m k e :
  blob_sum (<[k := e]> m) = blob_sum m + (e_size e - from_option e_size 0 (m !! k)).
Proof.
  destruct (m !! k) as [e'|] eqn:Hk; simpl.
  - rewrite <- insert_delete_eq, blob_sum_insert by apply lookup_delete_eq.
    rewrite (blob_sum_delete m k e') by done. lia.
  - rewrite blob_sum_insert by done. lia.
Qed.

Lemma u64_add_l a b : u64 (u64 a + b) = u64 (a + b).
Proof. unfold u64. by rewrite Zplus_mod_idemp_l. Qed.

Lemma u64_sub_l a b : u64 (u64 a - b) = u64 (a - b).
Proof. unfold u64. by rewrite Zminus_mod_idemp_l. Qed.

(** ** The accounting invariant *)

Definition ns_ok (ns : Namespace) : Prop := total_size ns = u64 (blob_sum (entries ns)).

(** An extension, as documented, includes its dot; it names no directory. *)
Definition ext_ok (ext : bytes) : Prop :=
  ("/"%char ∉ ext) ∧ match ext with [] => True | c :: _ => c = "."%char end.

Definition ns_inv (name : bytes) (ns : Namespace) : Prop :=
  ns_ok ns ∧ ns_name (config ns) = name ∧ ext_ok (ns_extension (config ns)).

Lemma ns_inv_update name ns ns' :
  ns_inv name ns → ns_ok ns' → config ns' = config ns → ns_inv name ns'.
Proof. unfold ns_inv. intros (_ & Hn & He) Hok ->. done. Qed.

Section Accounting.
Context {W : Type} `{Platform W}.
Context (ndebug : bool) (depth : nat).
(** The temporary paths handed out so far, oldest first. *)
Context (issued : list bytes).

(** The invariant: the namespaces are well-formed, and the issued paths are those
    of the counter values so far. *)
Definition acct (s : State) : Prop :=
  map_Forall ns_inv (namespaces s) ∧
  next_tmp_id s = u64 (Z.of_nat (length issued)) ∧
  (∀ i p, issued !! i = Some p →
     ∃ ext, ext_ok ext ∧ p = join (tmp_dir s) (decimal (u64 (Z.of_nat i)) ++ ext)).

Lemma acct_set_ns name ns s : acct s → ns_inv name ns → acct (set_ns name ns s).
Proof. intros [Hs Htmp] Hns. split; [|done]. by apply map_Forall_insert_2. Qed.

Lemma candidates_spec keep m :
  NoDup (candidates keep m).*1 ∧
  (∀ k e, (k, e) ∈ candidates keep m ↔ m !! k = Some e ∧ k ≠ keep) ∧
  StronglySorted older (candidates keep m).
Proof.
  unfold candidates.
  set (l := filter _ _).
  assert (∀ k e, (k, e) ∈ l ↔ m !! k = Some e ∧ k ≠ keep) as Hl.
  { intros k e. unfold l. rewrite list_elem_of_filter, strmap_iter_perm, elem_of_map_to_list.
    simpl. naive_solver. }
  split_and!.
  - rewrite merge_sort_Permutation. unfold l.
    assert (NoDup (strmap_iter m).*1) as Hnd.
    { rewrite strmap_iter_perm. apply NoDup_fst_map_to_list. }
    clear Hl l. induction (strmap_iter m) as [|x l IH]; [done|].
    rewrite fmap_cons in Hnd. apply NoDup_cons in Hnd as [Hx Hnd]. rewrite filter_cons.
    case_decide; [|by apply IH]. rewrite fmap_cons. apply NoDup_cons. split; [|by apply IH].
    rewrite list_elem_of_fmap in *. intros (y & Hy & Hin). apply Hx. exists y.
    split; [done|]. by apply list_elem_of_filter in Hin as [_ ?].
  - intros k e. by rewrite merge_sort_Permutation.
  - apply StronglySorted_merge_sort; [intros a b c; unfold older; lia | intros a b; unfold older; lia].
Qed.

(** What [evict_loop] assumes of the candidates still to visit. *)
Definition cands_in (cands : list (bytes * Entry)) (m : gmap bytes Entry) : Prop :=
  NoDup cands.*1 ∧ ∀ k e, (k, e) ∈ cands → m !! k = Some e.

Lemma cands_in_delete k e cands m :
  cands_in ((k, e) :: cands) m → cands_in cands m ∧ cands_in cands (delete k m) ∧ m !! k = Some e.
Proof.
  intros [Hnd Hin]. rewrite fmap_cons in Hnd. apply NoDup_cons in Hnd as [Hk Hnd].
  split_and!; [split; [done|] | split; [done|] | apply Hin; set_solver].
  - intros k' e' ?. apply Hin. set_solver.
  - intros k' e' Hk'. rewrite lookup_delete_ne; [apply Hin; set_solver|].
    intros <-. apply Hk. apply list_elem_of_fmap. by exists (k, e').
Qed.

Lemma cands_in_candidates keep m : cands_in (candidates keep m) m.
Proof.
  destruct (candidates_spec keep m) as (Hnd & Hin & _). split; [done|]. intros. by apply Hin.
Qed.

Lemma evict_loop_keeps cands ns :
  cands_in cands (entries ns) → ns_ok ns →
  keeps acct (evict_loop cands ns) (λ ns', ns_ok ns' ∧ config ns' = config ns).
Proof.
  revert ns. induction cands as [|[k e] cands IH]; intros ns Hin Hns; simpl; [by apply keeps_ret|].
  apply cands_in_delete in Hin as (Hin & Hdel & Hk).
  case_decide; [by apply keeps_ret|].
  eapply keeps_bind; [by apply (keeps_call _ _ (λ _, True))|]. intros [err|] _; [by apply IH|].
  eapply keeps_bind; [by apply keeps_modify|]. intros [] _.
  eapply keeps_weaken; [apply IH; [done|]|done].
  unfold ns_ok in *; simpl. by rewrite Hns, u64_sub_l, (blob_sum_delete _ k e).
Qed.

Lemma evict_locked_keeps ns keep :
  ns_ok ns → keeps acct (evict_locked ns keep) (λ ns', ns_ok ns' ∧ config ns' = config ns).
Proof.
  intros Hns. unfold evict_locked. case_match; [by apply keeps_ret|].
  apply evict_loop_keeps; [apply cands_in_candidates|done].
Qed.

(** Operations on the file system alone keep every invariant of the store. *)
Lemma call_keeps {A} I (f : W → A * W) : keeps I (call f) (λ _, True).
Proof. by apply keeps_call. Qed.

Lemma first_error_keeps I body l :
  (∀ p, keeps I (body p) (λ _, True)) → keeps I (first_error (W := W) body l) (λ _, True).
Proof.
  intros Hbody. induction l as [|p l IH]; simpl; [by apply keeps_ret|].
  eapply keeps_bind; [apply Hbody|]. intros [e|] _; [by apply keeps_ret|done].
Qed.

Lemma remove_all_keeps I fuel p : keeps I (remove_all fuel p) (λ _, True).
Proof.
  revert p. induction fuel as [|fuel IH]; intros p; simpl; [by intros s Hs|].
  eapply keeps_bind; [apply call_keeps|]. intros [e|st] _; [by apply keeps_ret|].
  case_decide; [|apply call_keeps].
  eapply keeps_bind; [apply call_keeps|]. intros listing _.
  eapply keeps_bind.
  - apply first_error_keeps. intros child.
    eapply keeps_bind; [apply call_keeps|]. intros [e|cst] _; [by apply keeps_ret|].
    case_decide; [apply IH|apply call_keeps].
  - intros r _. repeat case_match; first [by apply keeps_ret | apply call_keeps].
Qed.

Lemma sync_file_keeps I p : keeps I (sync_file p) (λ _, True).
Proof.
  unfold sync_file. eapply keeps_bind; [apply call_keeps|]. intros [e|fd] _; [by apply keeps_ret|].
  repeat (eapply keeps_bind; [apply call_keeps|]; intros ? _). by apply keeps_ret.
Qed.

Lemma same_content_keeps I a b : keeps I (same_content a b) (λ _, True).
Proof.
  unfold same_content, fs_read.
  eapply keeps_bind; [apply call_keeps|]. intros [e|st] _; [by apply keeps_ret|].
  eapply keeps_bind; [apply call_keeps|]. intros [e|fst] _; [by apply keeps_ret|].
  case_match; [by apply keeps_ret|].
  repeat (eapply keeps_bind; [apply call_keeps|]; intros ? _). by apply keeps_ret.
Qed.

Lemma sweep_keeps I d self : keeps I (sweep_dead_pid_dirs depth d self) (λ _, True).
Proof.
  unfold sweep_dead_pid_dirs, is_pid_alive.
  eapply keeps_bind; [apply call_keeps|]. intros listing _. apply keeps_each. intros p _.
  case_match; [|by apply keeps_ret]. case_decide; [by apply keeps_ret|].
  eapply keeps_bind.
  { eapply keeps_bind; [apply call_keeps|]. intros r _. by apply (keeps_ret _ _ (λ _, True)). }
  intros [] _; [by apply keeps_ret|].
  eapply keeps_bind; [apply remove_all_keeps|]. intros r _. by apply keeps_ret.
Qed.

Lemma next_stamp_keeps : keeps (W := W) acct next_stamp (λ _, True).
Proof.
  unfold next_stamp. eapply keeps_bind; [apply call_keeps|]. intros now _.
  eapply keeps_bind; [apply keeps_get|]. intros s Hs. case_decide; [|apply keeps_fault].
  eapply keeps_bind; [by apply keeps_modify|]. intros [] _. by apply keeps_ret.
Qed.

(** A checkpoint touches the flags [dirty] and [changes_since_checkpoint] only. *)
Definition ignores_flags (I : State → Prop) : Prop :=
  (∀ s d, I s → I (set_dirty d s)) ∧ (∀ s c, I s → I (set_changes c s)).

Lemma checkpoint_locked_keeps I :
  ignores_flags I → keeps (W := W) I checkpoint_locked (λ _, True).
Proof.
  intros [Hd Hc].
  unfold checkpoint_locked, fs_write, fs_rename. eapply keeps_bind; [apply keeps_get|].
  intros s Hs. case_match; [by apply keeps_ret|]. case_match; [|by apply keeps_ret].
  eapply keeps_bind; [apply call_keeps|]. intros [e|] _; [by apply keeps_ret|].
  eapply keeps_bind; [apply call_keeps|]. intros [e|] _; [by apply keeps_ret|].
  eapply keeps_bind; [by apply keeps_modify; eauto|]. intros [] _. apply keeps_modify. eauto.
Qed.

Lemma maybe_checkpoint_keeps I :
  ignores_flags I → keeps (W := W) I maybe_checkpoint (λ _, True).
Proof.
  intros Hi. unfold maybe_checkpoint. eapply keeps_bind; [apply keeps_get|]. intros s Hs.
  case_decide; [by apply checkpoint_locked_keeps|by apply keeps_ret].
Qed.

Lemma find_namespace_keeps name :
  keeps (W := W) acct (find_namespace name)
    (λ o, ∀ ns, o = Some ns → ns_inv name ns).
Proof.
  unfold find_namespace. eapply keeps_bind; [apply keeps_get|]. intros s Hs. apply keeps_ret.
  intros ns Hns. destruct Hs as [Hs _]. by apply Hs in Hns.
Qed.

Lemma set_ns_keeps name ns :
  ns_inv name ns → keeps (W := W) acct (modify (set_ns name ns)) (λ _, True).
Proof. intros Hns. apply keeps_modify. intros s Hs. by apply acct_set_ns. Qed.

Lemma count_change_keeps policy :
  keeps (W := W) acct
    (if decide (policy ≠ Scratch)
     then do! modify (set_dirty true) in
          modify (λ s, set_changes (u32 (changes_since_checkpoint s + 1)) s)
     else ret ()) (λ _, True).
Proof.
  case_decide; [|by apply keeps_ret].
  eapply keeps_bind; [by apply keeps_modify|]. intros [] _. by apply keeps_modify.
Qed.

Lemma lookup_keeps ns key : keeps (W := W) acct (lookup ns key) (λ _, True).
Proof.
  unfold lookup. eapply keeps_bind; [apply find_namespace_keeps|].
  intros [n|] Hn; [|by apply keeps_ret]. pose proof (Hn n eq_refl) as Hinv. pose proof Hinv as (Hok & _).
  case_match eqn:Hk; [|by apply keeps_ret].
  eapply keeps_bind; [apply next_stamp_keeps|]. intros stamp _.
  eapply keeps_bind; [apply set_ns_keeps; eapply ns_inv_update; [done| |done]|].
  { unfold ns_ok in *; simpl. rewrite Hok. f_equal. rewrite blob_sum_update, Hk. simpl. lia. }
  intros [] _. eapply keeps_bind; [by apply keeps_modify|]. intros [] _. by apply keeps_ret.
Qed.

Lemma delete_inv name n key e :
  ns_inv name n → entries n !! key = Some e →
  ns_inv name
    (mkNamespace (config n) (dir n) (delete key (entries n)) (u64 (total_size n - e_size e))).
Proof.
  intros Hn Hk. eapply ns_inv_update; [done| |done]. destruct Hn as (Hok & _).
  unfold ns_ok in *; simpl. by rewrite Hok, u64_sub_l, (blob_sum_delete _ key e).
Qed.

Lemma publish_keeps ns n pending path st :
  ns_inv ns n → keeps (W := W) acct (publish ns n pending path st) (λ _, True).
Proof.
  intros Hinv. unfold publish, fs_rename.
  eapply keeps_bind; [apply call_keeps|]. intros [err|] _; [|by apply keeps_ret].
  eapply keeps_bind; [apply same_content_keeps|]. intros [|] _.
  - do 2 (eapply keeps_bind; [apply call_keeps|]; intros ? _).
    case_match; [apply keeps_unexpected|by apply keeps_ret].
  - do 2 (eapply keeps_bind; [apply call_keeps|]; intros ? _).
    case_match; [|by apply keeps_ret].
    eapply keeps_bind; [apply call_keeps|]; intros ? _.
    case_match eqn:Hk; [|apply keeps_unexpected].
    eapply keeps_bind; [apply call_keeps|]; intros ? _.
    case_match; [|apply keeps_unexpected].
    eapply keeps_bind; [by apply set_ns_keeps, delete_inv|]. intros [] _.
    eapply keeps_bind; [by apply keeps_modify|]. intros [] _. apply keeps_unexpected.
Qed.

Lemma commit_publish_keeps pending st :
  keeps (W := W) acct (commit_publish pending st) (λ _, True).
Proof.
  unfold commit_publish. eapply keeps_bind; [apply find_namespace_keeps|].
  intros [n|] Hn; [|apply keeps_unexpected]. pose proof (Hn n eq_refl) as Hinv. pose proof Hinv as (Hok & _).
  eapply keeps_bind; [by apply publish_keeps|]. intros status _.
  eapply keeps_bind; [apply next_stamp_keeps|]. intros stamp _.
  set (updated := mkNamespace _ _ _ _).
  assert (ns_ok updated) as Hup.
  { unfold ns_ok in *; simpl. by rewrite Hok, u64_add_l, blob_sum_update. }
  eapply (keeps_bind _ _ _ (λ ns', ns_ok ns' ∧ config ns' = config n)).
  { case_decide; [by apply (evict_locked_keeps updated)|by apply keeps_ret]. }
  intros kept [Hkept Hcfg].
  eapply keeps_bind; [by eapply set_ns_keeps, ns_inv_update|]. intros [] _.
  eapply keeps_bind; [apply count_change_keeps|]. intros [] _. by apply keeps_ret.
Qed.

Lemma commit_prepare_keeps I pending : keeps (W := W) I (commit_prepare pending) (λ _, True).
Proof.
  unfold commit_prepare, find_namespace. case_decide; [apply keeps_unexpected|].
  eapply keeps_bind; [apply call_keeps|]; intros [e|st] _; [apply keeps_unexpected|].
  eapply keeps_bind;
    [eapply keeps_bind; [apply keeps_get|]; intros s _; by apply (keeps_ret _ _ (λ _, True))|].
  intros o _.
  case_match; [|apply keeps_unexpected].
  case_decide; [|by apply keeps_ret].
  eapply keeps_bind; [apply sync_file_keeps|]. intros [e|] _; [|by apply keeps_ret].
  eapply keeps_bind; [apply call_keeps|]; intros ? _. apply keeps_unexpected.
Qed.

Lemma invalidate_locked_keeps ns key :
  keeps (W := W) acct (invalidate_locked ns key) (λ _, True).
Proof.
  unfold invalidate_locked. eapply keeps_bind; [apply find_namespace_keeps|].
  intros [n|] Hn; [|by apply keeps_ret]. pose proof (Hn n eq_refl) as Hinv. pose proof Hinv as (Hok & _).
  case_match eqn:Hk; [|by apply keeps_ret].
  eapply keeps_bind; [apply call_keeps|]; intros ? _.
  eapply keeps_bind; [by apply set_ns_keeps, delete_inv|]. intros [] _.
  eapply keeps_bind; [apply count_change_keeps|]. intros [] _. by apply keeps_ret.
Qed.

Lemma shutdown_keeps : keeps (W := W) acct (shutdown depth) (λ _, True).
Proof.
  unfold shutdown. eapply keeps_bind; [by apply checkpoint_locked_keeps|]. intros [] _.
  eapply keeps_bind; [apply keeps_get|]. intros s Hs.
  eapply keeps_bind; [apply remove_all_keeps|]. intros r _. apply keeps_each. intros e _.
  case_decide; [|by apply keeps_ret].
  eapply keeps_bind; [apply remove_all_keeps|]. intros r' _. by apply keeps_ret.
Qed.

Lemma blob_key_name ext name k : blob_key ext name = Some k → name = k ++ ext.
Proof.
  unfold blob_key, consume_back. case_decide; [intros; simplify_eq; by rewrite app_nil_r|].
  case_decide as Hd; [|done]. destruct Hd as [_ Hd]. intros [= <-].
  rewrite <- Hd at 2. by rewrite take_drop.
Qed.

(** A directory scan visits no name twice. *)
Definition listing_distinct : Prop := ∀ d w, NoDup (path_filename <$> (os_list d w).1.1).

Lemma adopt_keeps manifest p ns :
  ns_ok ns →
  (∀ k, blob_key (ns_extension (config ns)) (path_filename p) = Some k → entries ns !! k = None) →
  keeps acct (adopt manifest p ns) (λ ns', ns_ok ns' ∧ config ns' = config ns ∧ dir ns' = dir ns ∧
    ∀ k, is_Some (entries ns' !! k) → is_Some (entries ns !! k) ∨
      blob_key (ns_extension (config ns)) (path_filename p) = Some k).
Proof.
  intros Hok Hfresh. unfold adopt.
  destruct (blob_key _ _) as [k|]; [|apply keeps_ret; naive_solver].
  specialize (Hfresh k eq_refl).
  eapply keeps_bind; [apply call_keeps|]. intros [e|st] _; [apply keeps_ret; naive_solver|].
  case_decide; [apply keeps_ret; naive_solver|]. apply keeps_ret. split_and!; try done.
  - unfold ns_ok in *; simpl. rewrite Hok, u64_add_l, blob_sum_insert by done. f_equal; simpl; lia.
  - simpl. intros k' Hk'. destruct (decide (k = k')) as [->|]; [by right|].
    rewrite lookup_insert_ne in Hk' by done. by left.
Qed.

Lemma scan_keeps manifest ps ns :
  NoDup (path_filename <$> ps) → ns_ok ns →
  (∀ p k, p ∈ ps → blob_key (ns_extension (config ns)) (path_filename p) = Some k →
     entries ns !! k = None) →
  keeps acct (scan manifest ps ns) (λ ns', ns_ok ns' ∧ config ns' = config ns ∧ dir ns' = dir ns).
Proof.
  revert ns. induction ps as [|p ps IH]; intros ns Hnd Hok Hfresh; simpl; [by apply keeps_ret|].
  rewrite fmap_cons in Hnd. apply NoDup_cons in Hnd as [Hp Hnd].
  eapply keeps_bind; [apply adopt_keeps; [done|]|].
  { intros k. apply (Hfresh p). set_solver. }
  intros ns' (Hok' & Hcfg & Hdir & Hdom).
  eapply keeps_weaken; [apply IH; [done|done|]|intros a (? & ? & ?); split_and!; [done|congruence|congruence]].
  intros q k Hq Hk. rewrite Hcfg in Hk. apply eq_None_not_Some. intros Hin.
  apply Hdom in Hin as [Hin|Hpk].
  - apply eq_None_not_Some in Hin; [done|]. apply (Hfresh q); [set_solver|done].
  - apply Hp. apply blob_key_name in Hk, Hpk. apply list_elem_of_fmap. exists q.
    split; [congruence|done].
Qed.

Lemma register_keeps ns :
  listing_distinct → ext_ok (ns_extension ns) → keeps acct (register_namespace ndebug depth ns) (λ _, True).
Proof.
  intros Hdist Hext. unfold register_namespace, cpp_assert. eapply keeps_bind; [apply keeps_get|].
  intros s Hs. eapply keeps_bind; [apply call_keeps|]. intros _ _.
  case_match; [case_match; [by apply keeps_ret|apply keeps_fault]|].
  case_decide.
  - eapply keeps_bind; [by apply set_ns_keeps|]. intros _ _.
    eapply keeps_bind; [apply sweep_keeps|]. intros _ _.
    eapply keeps_bind; [by apply set_ns_keeps|]. intros _ _.
    eapply keeps_bind; [apply remove_all_keeps|]. intros _ _.
    eapply keeps_bind; [apply call_keeps|]. intros _ _. by apply keeps_ret.
  - eapply keeps_bind; [by apply set_ns_keeps|]. intros _ _.
    eapply keeps_bind; [apply (keeps_call _ _ (λ l, NoDup (path_filename <$> l.1))); apply Hdist|].
    intros listing Hl.
    eapply keeps_bind; [by apply scan_keeps|]. intros adopted (Hok & Hcfg & _).
    eapply keeps_bind; [by apply evict_locked_keeps|]. intros kept [Hkept Hcfg'].
    apply set_ns_keeps. unfold ns_inv. by rewrite Hcfg', Hcfg.
Qed.

(** ** Runs of the store

    The atomic steps are the critical sections of the mutex, so that a run
    interleaves the pieces of concurrent [commit] and [invalidate] calls in any
    order; between two steps the world may change arbitrarily.  [issued] are
    the temporary paths handed out so far, oldest first. *)
Inductive op :=
| ORegister (ns : CacheNamespace)
| OLookup (ns key : bytes)
| OCommitPrepare (pending : PendingEntry)
| OCommitPublish (pending : PendingEntry) (status : file_status)
| OMaybeCheckpoint
| OAbort (pending : PendingEntry)
| OInvalidate (ns key : bytes)
| OCheckpoint
| OShutdown.

Definition discard {A} (m : M W A) : M W unit := do! m in ret ().

Definition run_op (o : op) : M W unit :=
  match o with
  | ORegister ns => register_namespace ndebug depth ns
  | OLookup ns key => discard (lookup ns key)
  | OCommitPrepare pending => discard (commit_prepare pending)
  | OCommitPublish pending status => discard (commit_publish pending status)
  | OMaybeCheckpoint => maybe_checkpoint
  | OAbort pending => abort pending
  | OInvalidate ns key => discard (invalidate_locked ns key)
  | OCheckpoint => checkpoint
  | OShutdown => shutdown depth
  end.

Definition op_ok (o : op) : Prop :=
  match o with ORegister ns => ext_ok (ns_extension ns) | _ => True end.

Lemma discard_keeps {A} I (m : M W A) : keeps I m (λ _, True) → keeps I (discard m) (λ _, True).
Proof. intros Hm. eapply keeps_bind; [done|]. intros ? _. by apply keeps_ret. Qed.

Lemma run_op_keeps o : listing_distinct → op_ok o → keeps acct (run_op o) (λ _, True).
Proof.
  intros Hd Ho. destruct o; simpl.
  - by apply register_keeps.
  - apply discard_keeps, lookup_keeps.
  - apply discard_keeps, commit_prepare_keeps.
  - apply discard_keeps, commit_publish_keeps.
  - by apply maybe_checkpoint_keeps.
  - unfold abort. case_decide; [by apply keeps_ret|]. apply (discard_keeps _ _ (call_keeps _ _)).
  - apply discard_keeps, invalidate_locked_keeps.
  - by apply checkpoint_locked_keeps.
  - apply shutdown_keeps.
Qed.

Lemma bind_Ok {A B} (m : M W A) (k : A → M W B) s b s' :
  bind m k s = (Ok b, s') ↔ ∃ a s1, m s = (Ok a, s1) ∧ k a s1 = (Ok b, s').
Proof.
  unfold bind. split.
  - destruct (m s) as [[a|e| |] s1]; intros; simplify_eq. by exists a, s1.
  - by intros (a & s1 & -> & ?).
Qed.

(** A freshly opened store: nothing registered, nothing handed out. *)
Lemma open_fresh root version s0 st s :
  open ndebug depth root version s0 = (Ok st, s) → namespaces st = ∅ ∧ next_tmp_id st = 0.
Proof.
  unfold open. intros Hopen.
  apply bind_Ok in Hopen as (? & ? & _ & Hopen). apply bind_Ok in Hopen as (? & ? & _ & Hopen).
  apply bind_Ok in Hopen as (r & ? & _ & Hopen). destruct r; [done|].
  do 5 apply bind_Ok in Hopen as (? & ? & _ & Hopen).
  apply bind_Ok in Hopen as (r & ? & _ & Hopen). destruct r; [done|]. inv Hopen. done.
Qed.

End Accounting.

Section Runs.
Context {W : Type} `{Platform W}.
Context (ndebug : bool) (depth : nat).

Inductive reach : list bytes → Sys W → Prop :=
| reach_open s0 root version st s :
    open ndebug depth root version s0 = (Ok st, s) → reach [] (mkSys st (world s))
| reach_env issued s w : reach issued s → reach issued (mkSys (store s) w)
| reach_op issued s o : reach issued s → op_ok o → reach issued (run_op ndebug depth o s).2
| reach_begin issued s ns key p s' :
    reach issued s → begin_store ndebug ns key s = (Ok p, s') →
    is_Some (namespaces (store s) !! ns) → reach (issued ++ [p_tmp_path p]) s'
| reach_begin_unregistered issued s ns key p s' :
    reach issued s → begin_store ndebug ns key s = (Ok p, s') →
    namespaces (store s) !! ns = None → reach issued s'.

(** What a successful [begin_store] did. *)
Lemma begin_store_Ok ns key s p s' :
  begin_store ndebug ns key s = (Ok p, s') →
  (namespaces (store s) !! ns = None ∧ p_tmp_path p = [] ∧ s' = s) ∨
  ∃ n, namespaces (store s) !! ns = Some n ∧
    p = mkPendingEntry ns key (join (tmp_dir (store s))
          (decimal (next_tmp_id (store s)) ++ ns_extension (config n))) ∧
    s' = mkSys (set_next_tmp_id (u64 (next_tmp_id (store s) + 1)) (store s)) (world s).
Proof.
  unfold begin_store, find_namespace. intros Hb. apply bind_Ok in Hb as (found & s1 & Hf & Hb).
  inv Hf. apply bind_Ok in Hb as ([] & s2 & Ha & Hb).
  assert (s2 = s1) as -> by (unfold cpp_assert in Ha; destruct (_ || ndebug); by inv Ha).
  destruct (namespaces (store s1) !! ns) as [n|] eqn:Hn; inv Hb; [right|by left].
  by exists n.
Qed.

Lemma reach_acct issued s : listing_distinct → reach issued s → acct issued (store s).
Proof.
  intros Hd. induction 1 as [s0 root version st s Hopen|issued s w _ IH|issued s o _ IH Ho
    |issued s ns key p s' _ IH Hb Hne|issued s ns key p s' _ IH Hb He]; simpl.
  - apply open_fresh in Hopen as [Hns Hid]. unfold acct. rewrite Hns, Hid. by split_and!.
  - done.
  - by apply (keeps_run _ _ _ _ (run_op_keeps ndebug depth issued o Hd Ho)).
  - apply begin_store_Ok in Hb as [(Hn & _)|(n & Hn & -> & ->)];
      [by rewrite Hn in Hne; destruct Hne|].
    destruct IH as (Hns & Hid & Hiss). split_and!; simpl; [done| |].
    + rewrite length_app, Hid, u64_add_l. f_equal; simpl; lia.
    + intros i q Hq. apply lookup_app_Some in Hq as [Hq|[Hle Hq]]; [by eapply Hiss|].
      apply list_lookup_singleton_Some in Hq as [Hi <-]. exists (ns_extension (config n)).
      split; [by apply Hns in Hn as (_ & _ & ?)|]. simpl. rewrite Hid. do 4 f_equal. lia.
  - apply begin_store_Ok in Hb as [(_ & _ & ->)|(n & Hn & _)]; [done|congruence].
Qed.
End Runs.
