(* ===== verification/CachePlatform.v ===== *)
(** * What the blob store relies on of the platform, and an in-memory platform

    [PlatformLaws] states the documented behaviour of the file operations on
    files that only this process touches.  [MemFs] is a platform that satisfies
    it: a map from paths to contents, a set of directories, a clock and a set of
    paths that can be neither removed nor replaced, the way an open file on
    Windows is. *)
From stdpp Require Import pretty sorting.
From S2P Require Import Prelude CacheStore.
Local Open Scope Z_scope.

(** ** Laws *)

Inductive node := File (content : bytes) | Other.

Definition good_name (f : bytes) : Prop := f ≠ [] ∧ "/"%char ∉ f.
Definition good_dir (d : bytes) : Prop := d ≠ [] ∧ last d ≠ Some "/"%char.

Class PlatformLaws (W : Type) `{Platform W} := {
  node_at : W → bytes → option node;

  append_law d f : good_dir d → good_name f → path_append d f = d ++ "/"%char :: f;

  status_law p w :
    (∀ q, node_at (os_status p w).2 q = node_at w q) ∧
    match node_at w p, (os_status p w).1 with
    | None, r => ∃ e, r = inl e
    | _, inl _ => True
    | Some (File c), inr st => st_type st = regular_file ∧ st_size st = Z.of_nat (length c)
    | Some Other, inr st => st_type st ≠ regular_file
    end;
  read_law p w :
    (∀ q, node_at (os_read p w).2 q = node_at w q) ∧
    (∀ c, (os_read p w).1 = inr c → node_at w p = Some (File c));
  list_law d w :
    (∀ q, node_at (os_list d w).2 q = node_at w q) ∧
    NoDup (path_filename <$> (os_list d w).1.1) ∧
    (good_dir d → ∀ p, p ∈ (os_list d w).1.1 →
       good_name (path_filename p) ∧ p = path_append d (path_filename p));
  open_law p w q : node_at (os_open_existing p w).2 q = node_at w q;
  fsync_law fd w q : node_at (os_fsync fd w).2 q = node_at w q;
  close_law fd w q : node_at (os_close fd w).2 q = node_at w q;
  now_law w q : node_at (os_now_ms w).2 q = node_at w q;
  lstatus_law p w q : node_at (os_lstatus p w).2 q = node_at w q;
  kill_law pid w q : node_at (os_kill pid w).2 q = node_at w q;

  (** a successful removal leaves nothing there; a failed one changes nothing *)
  remove_law p w :
    match (os_remove p w).1 with
    | None => node_at (os_remove p w).2 p = None ∧
              ∀ q, q ≠ p → node_at (os_remove p w).2 q = node_at w q
    | Some _ => ∀ q, node_at (os_remove p w).2 q = node_at w q
    end;
  (** a file is renamed atomically or not at all *)
  rename_law a b w c :
    node_at w a = Some (File c) →
    match (os_rename a b w).1 with
    | None => node_at (os_rename a b w).2 b = Some (File c) ∧
              ∀ q, q ≠ a → q ≠ b → node_at (os_rename a b w).2 q = node_at w q
    | Some _ => ∀ q, node_at (os_rename a b w).2 q = node_at w q
    end;
  rename_source_law a b w c :
    node_at w a = Some (File c) → a ≠ b → (os_rename a b w).1 = None →
    node_at (os_rename a b w).2 a = None;
  rename_missing_law a b w :
    node_at w a = None →
    is_Some (os_rename a b w).1 ∧ ∀ q, node_at (os_rename a b w).2 q = node_at w q;
  write_law p c w :
    (∀ q, q ≠ p → node_at (os_write p c w).2 q = node_at w q) ∧
    ((os_write p c w).1 = None → node_at (os_write p c w).2 p = Some (File c));
  create_directories_law d w q c :
    node_at w q = Some (File c) → node_at (os_create_directories d w).2 q = Some (File c);
}.

(** ** An in-memory platform *)

Record MemFs := mkMemFs {
  mem_files : gmap bytes bytes;
  mem_dirs : gset bytes;
  mem_locked : gset bytes;
  mem_clock : Z;
}.

(** The directory and the last component of a path. *)
Fixpoint split_path (p : bytes) : option (bytes * bytes) :=
  match p with
  | [] => None
  | c :: p =>
    match split_path p with
    | Some (d, f) => Some (c :: d, f)
    | None => if decide (c = "/"%char) then Some ([], p) else None
    end
  end.

Definition mem_filename (p : bytes) : bytes :=
  match split_path p with Some (_, f) => f | None => p end.

Definition mem_parent (p : bytes) : bytes :=
  match split_path p with Some (d, _) => d | None => [] end.

(** Every directory above and including [d]. *)
Fixpoint ancestors (fuel : nat) (d : bytes) : list bytes :=
  match fuel with
  | O => []
  | S fuel => match d with [] => [] | _ => d :: ancestors fuel (mem_parent d) end
  end.

Definition mem_node (w : MemFs) (p : bytes) : option node :=
  match mem_files w !! p with
  | Some c => Some (File c)
  | None => if decide (p ∈ mem_dirs w) then Some Other else None
  end.

Definition mem_status (p : bytes) (w : MemFs) : (errc + file_status) * MemFs :=
  (match mem_node w p with
   | None => inl no_such_file_or_directory
   | Some (File c) => inr (FileStatus regular_file (Z.of_nat (length c)) 0)
   | Some Other => inr (FileStatus directory_file 0 0)
   end, w).

Definition is_child (d p : bytes) : bool :=
  match split_path p with
  | Some (d', f) => bool_decide (d' = d) && bool_decide (f ≠ [])
  | None => false
  end.

Definition mem_children (d : bytes) (w : MemFs) : list bytes :=
  filter (λ p, is_child d p = true) (elements (dom (mem_files w) ∪ mem_dirs w)).

Definition mem_remove (p : bytes) (w : MemFs) : option errc * MemFs :=
  if decide (p ∈ mem_locked w) then (Some (other_error 1), w)
  else if decide (p ∈ mem_dirs w ∧ mem_children p w ≠ []) then (Some (other_error 2), w)
  else (None, mkMemFs (delete p (mem_files w)) (mem_dirs w ∖ {[p]}) (mem_locked w) (mem_clock w)).

Definition mem_rename (a b : bytes) (w : MemFs) : option errc * MemFs :=
  match mem_files w !! a with
  | None => (Some no_such_file_or_directory, w)
  | Some c =>
    if decide (b ∈ mem_locked w ∨ b ∈ mem_dirs w) then (Some (other_error 1), w)
    else (None, mkMemFs (<[b := c]> (delete a (mem_files w))) (mem_dirs w ∖ {[a]}) (mem_locked w)
                  (mem_clock w))
  end.

Definition digit_value (c : ascii) : option Z :=
  if decide (48 ≤ code c ≤ 57) then Some (code c - 48) else None.

Fixpoint parse_digits (acc : Z) (s : bytes) : option Z :=
  match s with
  | [] => Some acc
  | c :: s =>
    match digit_value c with
    | Some d => if decide (10 * acc + d < two32) then parse_digits (10 * acc + d) s else None
    | None => None
    end
  end.

(** A codec for manifests: the binary digits of the number that encodes it. *)
Global Instance ManifestEntry_eq_dec : EqDecision ManifestEntry.
Proof. solve_decision. Defined.

Global Instance ManifestEntry_countable : Countable ManifestEntry.
Proof.
  refine (inj_countable' (λ e, (m_ns e, m_key e, m_atime e))
            (λ t, mkManifestEntry t.1.1 t.1.2 t.2) _).
  by intros [].
Defined.

Fixpoint pos_digits (p : positive) : bytes :=
  match p with
  | xH => ["1"%char]
  | xO p => "0"%char :: pos_digits p
  | xI p => "1"%char :: pos_digits p
  end.

Fixpoint digits_pos (s : bytes) : positive :=
  match s with
  | [] => xH
  | [_] => xH
  | c :: s => if decide (c = "1"%char) then xI (digits_pos s) else xO (digits_pos s)
  end.

Global Instance MemPlatform : Platform MemFs := {
  os_getpid w := (42, w);
  os_now_ms w := (mem_clock w, mkMemFs (mem_files w) (mem_dirs w) (mem_locked w) (mem_clock w + 1));
  os_kill pid w := (KillOther, w);
  os_status := mem_status;
  os_lstatus := mem_status;
  os_create_directories d w :=
    (None, mkMemFs (mem_files w) (mem_dirs w ∪ list_to_set (ancestors (length d) d))
             (mem_locked w) (mem_clock w));
  os_remove := mem_remove;
  os_rename := mem_rename;
  os_open_existing p w :=
    (match mem_files w !! p with Some _ => inr 3 | None => inl no_such_file_or_directory end, w);
  os_fsync fd w := (None, w);
  os_close fd w := ((), w);
  os_read p w :=
    (match mem_files w !! p with Some c => inr c | None => inl no_such_file_or_directory end, w);
  os_write p c w :=
    if decide (p ∈ mem_dirs w) then (Some (other_error 3), w)
    else (None, mkMemFs (<[p := c]> (mem_files w)) (mem_dirs w) (mem_locked w) (mem_clock w));
  os_list d w := ((mem_children d w, None), w);
  path_append d f := d ++ "/"%char :: f;
  path_filename := mem_filename;
  get_as_integer s := match s with [] => None | _ => parse_digits 0 s end;
  to_json l := Some (pos_digits (encode l));
  from_json s := decode (digits_pos s);
  strmap_iter V m := map_to_list m;
  strmap_iter_perm V m := Permutation_refl (map_to_list m);
}.

Lemma split_path_None p : split_path p = None ↔ "/"%char ∉ p.
Proof.
  induction p as [|c p IH]; simpl; [set_solver|].
  destruct (split_path p) as [[d f]|]; [|case_decide; set_solver].
  split; [done|]. intros Hc. destruct IH as [_ IH]. discriminate IH. set_solver.
Qed.

Lemma split_path_Some p d f : split_path p = Some (d, f) ↔ p = d ++ "/"%char :: f ∧ "/"%char ∉ f.
Proof.
  revert d f. induction p as [|c p IH]; intros d f; simpl.
  { split; [done|]. intros [Hp _]. by destruct d. }
  destruct (split_path p) as [[d' f']|] eqn:Hp.
  - destruct (proj1 (IH _ _) eq_refl) as [-> Hf']. split.
    + intros [= <- <-]. done.
    + intros [Heq Hf]. destruct d as [|c' d]; simplify_eq/=; [set_solver|].
      assert (Some (d', f') = Some (d, f)) by (by apply IH). by simplify_eq.
  - apply split_path_None in Hp. case_decide as Hc.
    + split; [by intros [= <- <-]; subst|]. intros [Heq Hf].
      destruct d as [|c' d]; simplify_eq/=; [done|]. set_solver.
    + split; [done|]. intros [Heq Hf]. destruct d as [|c' d]; simplify_eq/=. set_solver.
Qed.

Lemma pos_digits_roundtrip p : digits_pos (pos_digits p) = p.
Proof.
  induction p as [p IH|p IH|]; simpl; [..|done]; rewrite IH; by destruct (pos_digits p) eqn:E;
    [destruct p|].
Qed.

(** The codec reads back what it wrote. *)
Lemma mem_json_roundtrip (l : list ManifestEntry) :
  ∃ j, to_json (W := MemFs) l = Some j ∧ from_json (W := MemFs) j = Some l.
Proof. eexists. split; [done|]. simpl. by rewrite pos_digits_roundtrip, decode_encode. Qed.

Lemma mem_children_spec d w p :
  p ∈ mem_children d w → ∃ f, p = d ++ "/"%char :: f ∧ mem_filename p = f ∧ good_name f.
Proof.
  unfold mem_children, is_child, mem_filename. rewrite list_elem_of_filter. intros [Hp _].
  destruct (split_path p) as [[d' f]|] eqn:Hs; [|done].
  apply andb_true_iff in Hp as [Hd Hf]. apply bool_decide_eq_true in Hd as ->.
  apply bool_decide_eq_true in Hf. apply split_path_Some in Hs as [-> Hs].
  exists f. split_and!; [done|done|]. by split.
Qed.

Lemma mem_children_distinct d w : NoDup (mem_filename <$> mem_children d w).
Proof.
  apply NoDup_fmap_2_strong; [|apply NoDup_filter, NoDup_elements].
  intros p q Hp Hq Heq. apply mem_children_spec in Hp as (f & -> & Hf & _).
  apply mem_children_spec in Hq as (g & -> & Hg & _). congruence.
Qed.

Lemma mem_node_insert files dirs locked clock locked' clock' b c q :
  q ≠ b → mem_node (mkMemFs (<[b := c]> files) dirs locked clock) q =
          mem_node (mkMemFs files dirs locked' clock') q.
Proof. intros Hq. unfold mem_node; simpl. by rewrite lookup_insert_ne. Qed.

Lemma mem_remove_law p w :
  match (mem_remove p w).1 with
  | None => mem_node (mem_remove p w).2 p = None ∧
            ∀ q, q ≠ p → mem_node (mem_remove p w).2 q = mem_node w q
  | Some _ => ∀ q, mem_node (mem_remove p w).2 q = mem_node w q
  end.
Proof.
  unfold mem_remove. repeat case_decide; simpl; [done|done|]. unfold mem_node; simpl. split.
  - rewrite lookup_delete_eq, decide_False by set_solver. done.
  - intros q Hq. rewrite lookup_delete_ne by done. case_match; [done|].
    destruct (decide (q ∈ mem_dirs w)); [rewrite decide_True by set_solver|
      rewrite decide_False by set_solver]; done.
Qed.

Lemma mem_rename_law a b w c :
  mem_node w a = Some (File c) →
  match (mem_rename a b w).1 with
  | None => mem_node (mem_rename a b w).2 b = Some (File c) ∧
            ∀ q, q ≠ a → q ≠ b → mem_node (mem_rename a b w).2 q = mem_node w q
  | Some _ => ∀ q, mem_node (mem_rename a b w).2 q = mem_node w q
  end.
Proof.
  unfold mem_node, mem_rename. intros Ha.
  destruct (mem_files w !! a) as [c'|]; [|by case_decide]. injection Ha as ->.
  case_decide; simpl; [done|]. rewrite lookup_insert_eq. split; [done|].
  intros q Hqa Hqb. rewrite lookup_insert_ne, lookup_delete_ne by done.
  destruct (mem_files w !! q); [done|]. repeat case_decide; set_solver.
Qed.

Lemma mem_rename_source_law a b w c :
  mem_node w a = Some (File c) → a ≠ b → (mem_rename a b w).1 = None →
  mem_node (mem_rename a b w).2 a = None.
Proof.
  unfold mem_node, mem_rename. intros Ha Hab. destruct (mem_files w !! a) as [c'|]; [|by case_decide].
  case_decide; simpl; [done|]. intros _. rewrite lookup_insert_ne, lookup_delete_eq by done.
  rewrite decide_False; [done|set_solver].
Qed.

Global Program Instance MemLaws : PlatformLaws MemFs := { node_at := mem_node }.
Next Obligation. done. Qed.
Next Obligation.
  intros p w. simpl. split; [done|]. destruct (mem_node w p) as [[c|]|]; simpl; eauto.
Qed.
Next Obligation.
  intros p w. simpl. split; [done|]. intros c. unfold mem_node. case_match; naive_solver.
Qed.
Next Obligation.
  intros d w. simpl. split_and!; [done|apply mem_children_distinct|].
  intros _ p Hp. apply mem_children_spec in Hp as (f & -> & Hf & Hg). by rewrite Hf.
Qed.
Next Obligation. done. Qed.
Next Obligation. done. Qed.
Next Obligation. done. Qed.
Next Obligation. done. Qed.
Next Obligation. done. Qed.
Next Obligation. done. Qed.
Next Obligation. intros p w. apply mem_remove_law. Qed.
Next Obligation. intros a b w c. apply mem_rename_law. Qed.
Next Obligation. intros a b w c. apply mem_rename_source_law. Qed.
Next Obligation.
  intros a b w. simpl. unfold mem_node, mem_rename. case_match; [done|]. simpl. eauto.
Qed.
Next Obligation.
  intros p c w. simpl. case_decide as Hd; simpl; [done|]. split.
  - intros q Hq. by rewrite (mem_node_insert _ _ _ _ (mem_locked w) (mem_clock w)) by done; destruct w.
  - intros _. unfold mem_node; simpl. by rewrite lookup_insert_eq.
Qed.
Next Obligation.
  intros d w q c. simpl. unfold mem_node; simpl. case_match; [done|]. by repeat case_decide.
Qed.
