(* ===== verification/CacheTheorems.v ===== *)
(** * Theorems of the blob store for every behaviour of the file system

    Accounting and temporary paths over all runs, least-recently-used eviction,
    and that a committed blob is found again. *)
From stdpp Require Import pretty sorting.
From S2P Require Import Prelude CacheStore CacheInvariant CachePlatform.
Local Open Scope Z_scope.
Local Open Scope cpp_scope.

(** ** Temporary names *)

Definition is_digit (c : ascii) : Prop := 48 ≤ code c ≤ 57.

Lemma pretty_N_go_digits x s :
  Forall is_digit (str s) → Forall is_digit (str (pretty_N_go x s)).
Proof.
  revert s. induction (N.lt_wf_0 x) as [x _ IH]; intros s Hs.
  destruct (decide (x = 0)%N) as [->|]; [by rewrite pretty_N_go_0|].
  rewrite pretty_N_go_step by lia. apply IH; [apply N.div_lt; lia|].
  constructor; [|done]. unfold is_digit, pretty_N_char. by repeat case_match.
Qed.

Lemma decimal_digits n : 0 ≤ n → Forall is_digit (decimal n).
Proof.
  intros Hn. unfold decimal, pretty, pretty_Z. destruct n as [|n|n]; [|..|lia].
  - by repeat constructor.
  - unfold pretty, pretty_positive, pretty, pretty_N. case_decide; [done|].
    by apply pretty_N_go_digits.
Qed.

Lemma decimal_inj n m : decimal n = decimal m → n = m.
Proof.
  unfold decimal, str. intros Heq. apply (inj pretty).
  rewrite <- (String.string_of_list_ascii_of_string (pretty n)), Heq.
  apply String.string_of_list_ascii_of_string.
Qed.

Lemma digits_prefix (a b x y : bytes) :
  Forall is_digit a → Forall is_digit b →
  match x with [] => True | c :: _ => c = "."%char end →
  match y with [] => True | c :: _ => c = "."%char end →
  a ++ x = b ++ y → a = b.
Proof.
  assert (¬ is_digit ".") as Hdot by (unfold is_digit; vm_compute; intuition congruence).
  revert b. induction a as [|c a IH]; intros b Ha Hb Hx Hy Heq; simpl in *.
  - destruct b as [|c b]; [done|]. subst x. simpl in Hx. subst c. by inv Hb.
  - destruct b as [|c' b]; simpl in *.
    + subst y. simpl in Hy. subst c. by inv Ha.
    + inv Ha. inv Hb. simplify_eq. f_equal. by apply IH.
Qed.

Lemma decimal_slash n : 0 ≤ n → "/"%char ∉ decimal n.
Proof.
  intros Hn Hin. pose proof (decimal_digits n Hn) as Hd. rewrite Forall_forall in Hd.
  specialize (Hd _ Hin). unfold is_digit in Hd. vm_compute in Hd. intuition congruence.
Qed.

Lemma pretty_N_go_nonempty x s : str s ≠ [] → str (pretty_N_go x s) ≠ [].
Proof.
  revert s. induction (N.lt_wf_0 x) as [x _ IH]; intros s Hs.
  destruct (decide (x = 0)%N) as [->|]; [by rewrite pretty_N_go_0|].
  rewrite pretty_N_go_step by lia. apply IH; [apply N.div_lt; lia|done].
Qed.

Lemma decimal_nonempty n : 0 ≤ n → decimal n ≠ [].
Proof.
  intros Hn. unfold decimal, pretty, pretty_Z. destruct n as [|n|n]; [done|..|lia].
  unfold pretty, pretty_positive, pretty, pretty_N. case_decide; [done|].
  rewrite pretty_N_go_step by lia. by apply pretty_N_go_nonempty.
Qed.

(** Appending different plain names to a directory gives different paths. *)
Definition append_injective {W} `{Platform W} : Prop :=
  ∀ d a b, good_name a → good_name b → path_append d a = path_append d b → a = b.

Lemma mem_listing_distinct : listing_distinct (W := MemFs).
Proof. intros d w. apply mem_children_distinct. Qed.

Lemma mem_append_injective : append_injective (W := MemFs).
Proof. intros d a b _ _. simpl. by intros [= ?]%(inj (app d)). Qed.

(** ** A concrete run

    Two namespaces, one of them with a budget of three bytes. *)
Definition write_file (p c : bytes) (w : MemFs) : MemFs :=
  mkMemFs (<[p := c]> (mem_files w)) (mem_dirs w) (mem_locked w) (mem_clock w).

Definition fresh_mem : Sys MemFs := mkSys default_state (mkMemFs ∅ ∅ ∅ 1000).

Definition demo_pch : CacheNamespace := mkCacheNamespace (str "pch") (str ".pch") LRU 3.

Definition demo0 : Sys MemFs :=
  let '(r, s) := open false 8 (str "r") 1 fresh_mem in
  mkSys (match r with Ok st => st | _ => default_state end) (world s).
Definition demo1 : Sys MemFs := (run_op false 8 (ORegister demo_pch) demo0).2.
Definition demo2 : Sys MemFs := (begin_store false (str "pch") (str "k1") demo1).2.
Definition demo3 : Sys MemFs :=
  mkSys (store demo2) (write_file (str "r/cache/v1/tmp/42/0.pch") (str "ab") (world demo2)).
Definition demo_pending : PendingEntry :=
  mkPendingEntry (str "pch") (str "k1") (str "r/cache/v1/tmp/42/0.pch").
Definition demo4 : Sys MemFs :=
  (run_op false 8 (OCommitPublish demo_pending (FileStatus regular_file 2 0)) demo3).2.

Lemma demo3_reach : reach false 8 [str "r/cache/v1/tmp/42/0.pch"] demo3.
Proof.
  apply (reach_env false 8 _ demo2).
  apply (reach_begin false 8 [] demo1 (str "pch") (str "k1") demo_pending);
    [|vm_compute; reflexivity|vm_compute; eauto].
  apply (reach_op false 8 _ demo0); [|split; [vm_compute; set_solver|done]].
  apply (reach_open false 8 fresh_mem (str "r") 1 (store demo0) (mkSys default_state (world demo0))).
  vm_compute. reflexivity.
Qed.

Lemma demo_reach : reach false 8 [str "r/cache/v1/tmp/42/0.pch"] demo4.
Proof. apply (reach_op false 8 _ demo3); [apply demo3_reach|done]. Qed.

(** ** Accounting and temporary paths *)

(** In every state any interleaving of the store's operations can reach,
    whatever the file system answers and other processes do to it, the accounted
    size of each namespace is the sum of the sizes of its entries modulo 2^64 (the
    subtraction [status.getSize() - entry.size] may wrap), and each namespace is
    stored under its own name. *)
Theorem accounting_exact {W} `{Platform W} ndebug depth issued (s : Sys W) name ns :
  listing_distinct → reach ndebug depth issued s → namespaces (store s) !! name = Some ns →
  total_size ns = u64 (blob_sum (entries ns)) ∧ ns_name (config ns) = name.
Proof.
  intros Hd Hr Hns. destruct (reach_acct _ _ _ _ Hd Hr) as [Hall _].
  by apply Hall in Hns as (? & ? & _).
Qed.

Lemma accounting_exact_witness :
  match namespaces (store demo4) !! str "pch" with
  | Some ns => total_size ns = u64 (blob_sum (entries ns)) ∧ ns_name (config ns) = str "pch"
  | None => False
  end.
Proof.
  destruct (namespaces (store demo4) !! str "pch") as [ns|] eqn:Hns.
  - apply (accounting_exact false 8 _ _ _ ns mem_listing_distinct demo_reach Hns).
  - vm_compute in Hns. discriminate.
Defined.

(** [begin_store] never hands out a temporary path twice: in every run with
    fewer than 2^64 of them the issued paths are pairwise different, even when
    commits, aborts and other operations are interleaved. *)
Theorem tmp_paths_unique {W} `{Platform W} ndebug depth issued (s : Sys W) :
  listing_distinct → append_injective → reach ndebug depth issued s →
  Z.of_nat (length issued) < two64 → NoDup issued.
Proof.
  intros Hd Hinj Hr Hlen. destruct (reach_acct _ _ _ _ Hd Hr) as (_ & _ & Hiss).
  apply NoDup_alt. intros i j p Hi Hj.
  pose proof (lookup_lt_Some _ _ _ Hi). pose proof (lookup_lt_Some _ _ _ Hj).
  destruct (Hiss i p Hi) as (x & [Hx1 Hx2] & Hpx). destruct (Hiss j p Hj) as (y & [Hy1 Hy2] & Hpy).
  rewrite u64_small in Hpx, Hpy by lia.
  assert (∀ n ext, 0 ≤ n → "/"%char ∉ ext → good_name (decimal n ++ ext)) as Hgood.
  { intros n ext Hn Hext. split.
    - intros [Hnil _]%app_eq_nil. by apply (decimal_nonempty n).
    - rewrite elem_of_app. intros [?|?]; [by apply (decimal_slash n)|done]. }
  rewrite Hpx in Hpy. apply Hinj in Hpy; [|apply Hgood; [lia|done]..].
  apply digits_prefix in Hpy; [|apply decimal_digits; lia..|done|done].
  apply decimal_inj in Hpy. lia.
Qed.

Lemma tmp_paths_unique_witness : NoDup [str "r/cache/v1/tmp/42/0.pch"].
Proof.
  apply (tmp_paths_unique false 8 _ demo4 mem_listing_distinct mem_append_injective demo_reach).
  vm_compute. reflexivity.
Defined.

(** ** Eviction *)

Section Eviction.
Context {W : Type} `{Platform W}.

(** The removals of files one after the other, with what the system answered to each. *)
Inductive removals (path : bytes → bytes) : W → list (bytes * option errc) → W → Prop :=
| removals_nil w : removals path w [] w
| removals_cons w key answer w' trace w'' :
    os_remove (path key) w = (answer, w') → removals path w' trace w'' →
    removals path w ((key, answer) :: trace) w''.

(** In this run the system refused to remove the blob of [key], or removed it. *)
Definition refused (trace : list (bytes * option errc)) (key : bytes) : Prop := ∃ err, (key, Some err) ∈ trace.
Definition removed (trace : list (bytes * option errc)) (key : bytes) : Prop := (key, None) ∈ trace.
Global Instance removed_dec trace key : Decision (removed trace key).
Proof. unfold removed. apply _. Defined.

(** What an eviction over the candidates [cands] did to [ns]. *)
Record evicted (trace : list (bytes * option errc)) (cands : list (bytes * Entry)) (ns ns' : Namespace) : Prop := {
  ev_config : config ns' = config ns;
  ev_dir : dir ns' = dir ns;
  ev_tried k r : (k, r) ∈ trace → k ∈ cands.*1;
  (** exactly the entries whose blobs were removed are gone *)
  ev_frame k : entries ns' !! k = if decide (removed trace k) then None else entries ns !! k;
  (** an entry survives an evicted younger one only if its removal failed *)
  ev_order k e k' e' :
    (k, e) ∈ cands → removed trace k →
    (k', e') ∈ cands → ¬ removed trace k' → e_atime e' < e_atime e → refused trace k';
  (** the budget holds at the end unless what is left could not be removed *)
  ev_budget :
    total_size ns' ≤ ns_max_bytes (config ns) ∨
    ∀ k e, (k, e) ∈ cands → ¬ removed trace k → refused trace k;
  (** nothing is evicted beyond need: without the last eviction it does not fit *)
  ev_minimal :
    ns' = ns ∨ ∃ k e, (k, e) ∈ cands ∧ removed trace k ∧
                      ns_max_bytes (config ns) < u64 (total_size ns' + e_size e);
}.

Lemma not_removed_nil k : ¬ removed [] k.
Proof. apply not_elem_of_nil. Qed.

Lemma removed_cons k' r trace k : removed ((k', r) :: trace) k ↔ (k' = k ∧ r = None) ∨ removed trace k.
Proof. unfold removed. rewrite elem_of_cons. naive_solver. Qed.

Lemma evicted_stop cands ns : cands = [] ∨ total_size ns ≤ ns_max_bytes (config ns) → evicted [] cands ns ns.
Proof.
  intros Hle. split; try done.
  - by intros k r Hk%not_elem_of_nil.
  - by intros k e k' e' _ Hk%not_removed_nil.
  - destruct Hle as [-> |?]; [right; by intros k e Hk%not_elem_of_nil|by left].
  - by left.
Qed.

Lemma evicted_refused k e cands ns ns' err trace :
  k ∉ cands.*1 → evicted trace cands ns ns' → evicted ((k, Some err) :: trace) ((k, e) :: cands) ns ns'.
Proof.
  intros Hk [Hc Hd Htr Hfr Hord Hbud Hmin].
  assert (∀ x, removed ((k, Some err) :: trace) x ↔ removed trace x) as Hrem
    by (intros x; rewrite removed_cons; naive_solver).
  assert (¬ removed trace k) as Hnk by (intros Hr; by apply Hk, (Htr k None)).
  assert (refused ((k, Some err) :: trace) k) as Href by (exists err; left).
  assert (∀ x, refused trace x → refused ((k, Some err) :: trace) x) as Hmore by (intros x [er ?]; exists er; by right).
  split; try done.
  - intros x r [[= -> ->]|Hx]%elem_of_cons; [left|right; by apply (Htr x r)].
  - intros x. rewrite Hfr. by rewrite (decide_ext _ _ _ _ (Hrem x)).
  - intros k1 e1 k2 e2 Hk1 HN%Hrem Hk2 HS Hlt. rewrite Hrem in HS.
    apply elem_of_cons in Hk1 as [[= -> ->]|Hk1]; [done|].
    apply elem_of_cons in Hk2 as [[= -> ->]|Hk2]; [done|]. apply Hmore. by apply (Hord k1 e1 k2 e2).
  - destruct Hbud as [?|Hbud]; [by left|right]. intros k' e' Hk' HS. rewrite Hrem in HS.
    apply elem_of_cons in Hk' as [[= -> ->]|Hk']; [done|]. apply Hmore. by apply (Hbud k' e').
  - destruct Hmin as [?|(k' & e' & ? & ? & ?)]; [by left|right]. exists k', e'. rewrite Hrem. set_solver.
Qed.

Lemma evicted_removed k e cands ns ns' trace :
  k ∉ cands.*1 → StronglySorted older ((k, e) :: cands) →
  ns_ok ns → ns_max_bytes (config ns) < total_size ns →
  evicted trace cands (mkNamespace (config ns) (dir ns) (delete k (entries ns))
                   (u64 (total_size ns - e_size e))) ns' →
  evicted ((k, None) :: trace) ((k, e) :: cands) ns ns'.
Proof.
  intros Hk Hsort Hok Hover [Hc Hd Htr Hfr Hord Hbud Hmin]. simpl in *.
  assert (removed ((k, None) :: trace) k) as Hgone by left.
  assert (∀ x, x ≠ k → removed ((k, None) :: trace) x ↔ removed trace x) as Hrem
    by (intros x Hx; rewrite removed_cons; naive_solver).
  assert (∀ x er, (x, er) ∈ cands → x ≠ k) as Hne.
  { intros x er Hx ->. apply Hk, list_elem_of_fmap. by exists (k, er). }
  assert (∀ x, refused trace x → refused ((k, None) :: trace) x) as Hmore by (intros x [er ?]; exists er; by right).
  apply StronglySorted_inv in Hsort as [_ Hold]. rewrite Forall_forall in Hold.
  split; try done.
  - intros x r [[= -> ->]|Hx]%elem_of_cons; [left|right; by apply (Htr x r)].
  - intros x. rewrite Hfr. destruct (decide (x = k)) as [->|Hx].
    + rewrite (decide_True (P := removed (_ :: _) k)) by done. rewrite lookup_delete_eq. by case_decide.
    + rewrite lookup_delete_ne by done. by rewrite (decide_ext _ _ _ _ (Hrem x Hx)).
  - intros k1 e1 k2 e2 Hk1 HN Hk2 HS Hlt.
    apply elem_of_cons in Hk2 as [[= -> ->]|Hk2]; [done|].
    rewrite (Hrem k2) in HS by (by eapply Hne). apply Hmore.
    apply elem_of_cons in Hk1 as [[= -> ->]|Hk1].
    + specialize (Hold _ Hk2). unfold older in Hold. simpl in Hold. lia.
    + rewrite (Hrem k1) in HN by (by eapply Hne). by apply (Hord k1 e1 k2 e2).
  - destruct Hbud as [?|Hbud]; [by left|right]. intros k' e' Hk' HS.
    apply elem_of_cons in Hk' as [[= -> ->]|Hk']; [done|].
    rewrite (Hrem k') in HS by (by eapply Hne). apply Hmore. by apply (Hbud k' e').
  - right. destruct Hmin as [->|(k' & e' & Hk' & Hr & ?)].
    + exists k, e. split_and!; [left|done|]. simpl. rewrite u64_add_l.
      replace (_ - _ + _) with (total_size ns) by lia. rewrite u64_small; [done|].
      rewrite Hok. apply u64_range.
    + exists k', e'. split_and!; [by right| |done]. rewrite Hrem; [done|by eapply Hne].
Qed.

Lemma evict_loop_evicts cands ns s :
  cands_in cands (entries ns) → StronglySorted older cands → ns_ok ns →
  ∃ ns' s' trace, evict_loop cands ns s = (Ok ns', s') ∧ evicted trace cands ns ns' ∧
            removals (blob_path ns) (world s) trace (world s') ∧
            namespaces (store s') = namespaces (store s) ∧
            last_stamp (store s') = last_stamp (store s).
Proof.
  revert ns s. induction cands as [|[k e] cands IH]; intros ns s Hin Hsort Hok; cbn [evict_loop].
  { exists ns, s, []. split_and!; [done|apply evicted_stop; by left|constructor|done|done]. }
  case_decide as Hle.
  { exists ns, s, []. split_and!; [done|apply evicted_stop; by right|constructor|done|done]. }
  pose proof (cands_in_delete _ _ _ _ Hin) as (Hin1 & Hin2 & Hk).
  pose proof (StronglySorted_inv Hsort) as [Hsort' _].
  assert (k ∉ cands.*1) as Hkc by (destruct Hin as [Hnd _]; rewrite fmap_cons in Hnd; by apply NoDup_cons in Hnd as [? _]).
  unfold bind at 1, call.
  destruct (os_remove (blob_path ns k) (world s)) as [[err|] w] eqn:Hrm.
  - destruct (IH ns (mkSys (store s) w) Hin1 Hsort' Hok) as (ns' & s' & trace & Hrun & Hev & Hrems & ? & ?).
    exists ns', s', ((k, Some err) :: trace). split_and!; [done|by apply evicted_refused| |done|done].
    by eapply removals_cons.
  - unfold bind, modify. simpl.
    destruct (IH (mkNamespace (config ns) (dir ns) (delete k (entries ns))
                    (u64 (total_size ns - e_size e))) (mkSys (set_dirty true (store s)) w))
      as (ns' & s' & trace & Hrun & Hev & Hrems & ? & ?); [done|done| |].
    { unfold ns_ok in *; simpl. by rewrite Hok, u64_sub_l, (blob_sum_delete _ k e). }
    exists ns', s', ((k, None) :: trace). split_and!; [done| |by eapply removals_cons|done|done].
    apply evicted_removed; try done. lia.
Qed.

Lemma evict_locked_evicts ns keep s :
  ns_ok ns →
  ∃ ns' s' trace, evict_locked ns keep s = (Ok ns', s') ∧
    (ns' = ns ∨ evicted trace (candidates keep (entries ns)) ns ns') ∧
    namespaces (store s') = namespaces (store s) ∧ last_stamp (store s') = last_stamp (store s).
Proof.
  intros Hok. unfold evict_locked. case_match; [exists ns, s, []; by split_and!; [|left|..]|].
  destruct (candidates_spec keep (entries ns)) as (_ & _ & Hsort).
  destruct (evict_loop_evicts _ ns s (cands_in_candidates keep _) Hsort Hok)
    as (ns' & s' & trace & ? & ? & _ & ? & ?).
  exists ns', s', trace. split_and!; [done|by right|done|done].
Qed.

(** By the documented behaviour of the file system the removed blobs, and only they,
    are gone from the disk afterwards. *)
Lemma removals_gone `{!PlatformLaws W} path w trace w' :
  removals path w trace w' →
  (∀ k, removed trace k → node_at w' (path k) = None) ∧
  (∀ q, (∀ k, removed trace k → q ≠ path k) → node_at w' q = node_at w q) ∧
  (∀ q, node_at w q = None → node_at w' q = None).
Proof.
  induction 1 as [w|w key answer w1 trace w2 Hrm _ (IH1 & IH2 & IH3)]; [by split_and!; [intros k Hk%not_removed_nil|..]|].
  pose proof (remove_law (path key) w) as Hlaw. rewrite Hrm in Hlaw. cbn [fst snd] in Hlaw. destruct answer as [err|].
  - split_and!.
    + intros k [[_ [=]]|Hk]%removed_cons. by apply IH1.
    + intros q Hq. rewrite IH2, Hlaw; [done|]. intros k Hk. apply Hq. apply removed_cons. by right.
    + intros q Hq. apply IH3. by rewrite Hlaw.
  - destruct Hlaw as [Hgone Hsame]. split_and!.
    + intros k [[<- _]|Hk]%removed_cons; [by apply IH3|by apply IH1].
    + intros q Hq. rewrite IH2; [apply Hsame, Hq; apply removed_cons; by left|].
      intros k Hk. apply Hq. apply removed_cons. by right.
    + intros q Hq. apply IH3. destruct (decide (q = path key)) as [->|]; [done|]. by rewrite Hsame.
Qed.
End Eviction.

(** C35. Provided the accounted size of the namespace is the sum of its entries' sizes (as in
    every reachable state): eviction never errs; it calls the system to remove blobs one
    after the other ([trace]: the keys with the answers), an entry is
    dropped exactly when the removal of its blob succeeded in this run, and never that of the protected
    key; oldest-accessed blobs go first (an older blob survives a younger evicted one only
    where the system refused, in this run, to remove it); the eviction ends within the budget unless
    the removal of every other remaining blob was refused in this run, evicts nothing beyond need (without
    the eviction of one of the blobs the rest does not fit), and does nothing at all to a namespace that is not
    LRU, has no budget or is within it.  Where the file system keeps its documented behaviour,
    the files of the evicted blobs are gone afterwards and every other file is as before. *)
Theorem eviction_is_lru {W} `{Platform W} (ns : Namespace) (keep : bytes) (s : Sys W) :
  ns_ok ns →
  ∃ ns' s' trace, evict_locked ns keep s = (Ok ns', s') ∧
    removals (blob_path ns) (world s) trace (world s') ∧
    (∀ k r, (k, r) ∈ trace → k ≠ keep ∧ is_Some (entries ns !! k)) ∧
    (∀ k, entries ns' !! k = if decide (removed trace k) then None else entries ns !! k) ∧
    (∀ k e k' e', entries ns !! k = Some e → entries ns' !! k = None →
       k' ≠ keep → entries ns' !! k' = Some e' → e_atime e' < e_atime e → refused trace k') ∧
    (ns_policy (config ns) = LRU → ns_max_bytes (config ns) ≠ 0 →
       total_size ns' ≤ ns_max_bytes (config ns) ∨
       ∀ k, k ≠ keep → is_Some (entries ns' !! k) → refused trace k) ∧
    (ns' = ns ∨ ∃ k e, entries ns !! k = Some e ∧ entries ns' !! k = None ∧
       ns_max_bytes (config ns) < u64 (total_size ns' + e_size e)) ∧
    (ns_policy (config ns) ≠ LRU ∨ ns_max_bytes (config ns) = 0 ∨
       total_size ns ≤ ns_max_bytes (config ns) → ns' = ns ∧ s' = s) ∧
    (∀ `{!PlatformLaws W},
       (∀ k, removed trace k → node_at (world s') (blob_path ns k) = None) ∧
       (∀ q, (∀ k, removed trace k → q ≠ blob_path ns k) → node_at (world s') q = node_at (world s) q)).
Proof.
  intros Hok. unfold evict_locked. destruct (_ || _) eqn:Hg.
  { exists ns, s, []. rewrite !orb_true_iff, !bool_decide_eq_true in Hg.
    split_and!; [done|apply removals_nil|by intros k r Hk%not_elem_of_nil|done|congruence|naive_solver|by left|done|].
    intros L. split; [by intros k Hk%not_removed_nil|done]. }
  rewrite !orb_false_iff, !bool_decide_eq_false in Hg. destruct Hg as [[Hp Hm] Hover].
  destruct (candidates_spec keep (entries ns)) as (_ & Hin & Hsort).
  destruct (evict_loop_evicts _ ns s (cands_in_candidates keep _) Hsort Hok)
    as (ns' & s' & trace & Hrun & [_ _ Htr Hfr Hord Hbud Hmin] & Hrems & _).
  assert (∀ k, entries ns' !! k = None → is_Some (entries ns !! k) → removed trace k) as Hgone.
  { intros k HN HS. rewrite Hfr in HN. case_decide; [done|]. rewrite HN in HS. by destruct HS. }
  assert (∀ k e, entries ns' !! k = Some e → entries ns !! k = Some e ∧ ¬ removed trace k) as Hleft.
  { intros k e HS. rewrite Hfr in HS. by case_decide. }
  assert (∀ k r, (k, r) ∈ trace → k ≠ keep ∧ is_Some (entries ns !! k)) as Htried.
  { intros k r ([k1 e1] & -> & [Hk1 Hne]%Hin)%Htr%list_elem_of_fmap. cbn. rewrite Hk1. done. }
  exists ns', s', trace. split_and!; [done|done|exact Htried|exact Hfr| | | |naive_solver|].
  - intros k e k' e' Hk HN Hk' HS Hlt. destruct (Hleft _ _ HS) as [HS' HR'].
    pose proof (Hgone k HN ltac:(by rewrite Hk)) as HR. destruct (Htried _ _ HR) as [Hne _].
    apply (Hord k e k' e'); [by apply Hin|done|by apply Hin|done|done].
  - intros _ _. destruct Hbud as [?|Hbud]; [by left|right]. intros k Hk [e HS].
    destruct (Hleft _ _ HS) as [HS' HR]. apply (Hbud k e); [|done]. by apply Hin.
  - destruct Hmin as [?|(k & e & [Hk _]%Hin & HR & ?)]; [by left|right]. exists k, e. split_and!; [done| |done].
    rewrite Hfr. by rewrite decide_True.
  - intros L. destruct (removals_gone _ _ _ _ Hrems) as (? & ? & _). done.
Qed.

(** Four blobs, six bytes in all, in a namespace with a budget of three; the oldest is locked. *)
Definition demo_full : Namespace :=
  mkNamespace demo_pch (str "r/cache/v1/pch")
    (<[str "k1" := mkEntry 2 7]> (<[str "k2" := mkEntry 2 5]> (<[str "k3" := mkEntry 1 9]> (<[str "k4" := mkEntry 1 2]> ∅)))) 6.

Definition demo_locked : Sys MemFs :=
  mkSys (store demo4)
    (mkMemFs (<[str "r/cache/v1/pch/k2.pch" := str "xy"]> (mem_files (world demo4))) (mem_dirs (world demo4))
       {[str "r/cache/v1/pch/k4.pch"]} 1000).

Lemma eviction_is_lru_witness :
  ∃ ns' s' trace, evict_locked demo_full (str "k3") demo_locked = (Ok ns', s') ∧
    total_size ns' = 2 ∧ entries ns' !! str "k2" = None ∧ is_Some (entries ns' !! str "k4") ∧
    refused trace (str "k4") ∧ removed trace (str "k2") ∧
    node_at (world s') (str "r/cache/v1/pch/k2.pch") = None.
Proof.
  destruct (eviction_is_lru demo_full (str "k3") demo_locked)
    as (ns' & s' & trace & Hrun & _ & _ & Hfr & Hord & _ & _ & _ & Hlaws); [vm_compute; reflexivity|].
  assert (match evict_locked demo_full (str "k3") demo_locked with
          | (Ok n, _) => (total_size n =? 2) && bool_decide (entries n !! str "k2" = None) &&
                         (default 0 (e_atime <$> entries n !! str "k4") =? 2)
          | _ => false
          end = true) as Hc by (vm_compute; reflexivity).
  rewrite Hrun in Hc. apply andb_true_iff in Hc as [[Ht Hk2]%andb_true_iff Hk4].
  apply bool_decide_eq_true in Hk2. apply Z.eqb_eq in Ht, Hk4.
  destruct (entries ns' !! str "k4") as [e4|] eqn:H4; cbn in Hk4; [|discriminate Hk4].
  assert (removed trace (str "k2")) as Hrm.
  { pose proof (Hfr (str "k2")) as Hx. rewrite Hk2 in Hx. case_decide; [done|]. vm_compute in Hx. discriminate Hx. }
  exists ns', s', trace. split; [exact Hrun|]. split; [exact Ht|]. split; [exact Hk2|].
  split; [by eexists|]. split; [|split; [exact Hrm|]].
  - apply (Hord (str "k2") (mkEntry 2 5) (str "k4") e4); [reflexivity|exact Hk2|discriminate|exact H4|].
    rewrite Hk4. vm_compute. reflexivity.
  - exact (proj1 (Hlaws _) (str "k2") Hrm).
Defined.

(** ** A committed blob is found again *)

Section Commit.
Context {W : Type} `{Platform W}.

Lemma keeps_Ok {A} I (m : M W A) φ s a s' :
  keeps I m φ → I (store s) → m s = (Ok a, s') → φ a ∧ I (store s').
Proof. intros Hm Hs Heq. specialize (Hm s Hs). by rewrite Heq in Hm. Qed.

Lemma publish_Ok ns n pending path st s st' s' :
  publish ns n pending path st s = (Ok st', s') → store s' = store s.
Proof.
  pose (I := λ x, x = store s).
  assert (triple (λ s, I (store s)) (publish ns n pending path st)
            (λ _ s, I (store s)) (λ _, True)) as Ht.
  { assert (∀ A (f : W → A * W), triple (λ s, I (store s)) (call f)
              (λ _ s, I (store s)) (λ _, True)) as Hcall by (intros; by apply triple_call).
    unfold publish, fs_rename.
    eapply triple_bind; [apply Hcall|]. intros [err|]; [|by apply triple_ret].
    eapply (triple_bind _ (λ _ s, I (store s))).
    { eapply triple_weaken; [apply (same_content_keeps I)|done|by intros ? ? [_ ?]|done]. }
    intros []; repeat (eapply triple_bind; [apply Hcall|]; intros ?);
      repeat case_match; try by apply triple_ret.
    all: try by apply triple_unexpected.
    all: repeat (eapply triple_bind; [apply Hcall|]; intros ?).
    all: repeat case_match; try by apply triple_unexpected.
    all: intros s0 _; done. }
  intros Hp. specialize (Ht s eq_refl). by rewrite Hp in Ht.
Qed.

Lemma next_stamp_Ok s t s' :
  next_stamp (W := W) s = (Ok t, s') →
  store s' = set_last_stamp t (store s) ∧ last_stamp (store s) < t.
Proof.
  unfold next_stamp. intros Hn. apply bind_Ok in Hn as (now & s1 & Hc & Hn).
  unfold call in Hc. destruct (os_now_ms (world s)) as [now' w]. inv Hc.
  apply bind_Ok in Hn as (st & s2 & Hg & Hn). inv Hg. case_decide; [|done]. inv Hn. simpl.
  split; [done|lia].
Qed.

Lemma commit_publish_Ok pending st s p s' :
  map_Forall ns_inv (namespaces (store s)) →
  commit_publish pending st s = (Ok p, s') →
  ∃ n e, namespaces (store s') !! p_ns pending = Some n ∧
    entries n !! p_key pending = Some e ∧ p = blob_path n (p_key pending) ∧
    e_atime e = last_stamp (store s') ∧ last_stamp (store s) < e_atime e.
Proof.
  intros Hinv Hrun. unfold commit_publish, find_namespace in Hrun.
  apply bind_Ok in Hrun as (found & s1 & Hf & Hrun). inv Hf.
  destruct (namespaces (store s1) !! p_ns pending) as [n|] eqn:Hn; [|done].
  pose proof (Hinv _ _ Hn) as (Hok & _).
  apply bind_Ok in Hrun as (status & s2 & Hp & Hrun). apply publish_Ok in Hp.
  apply bind_Ok in Hrun as (stamp & s3 & Ht & Hrun). apply next_stamp_Ok in Ht as [Hs3 Hlt].
  apply bind_Ok in Hrun as (kept & s4 & Hk & Hrun). rewrite Hp in Hlt.
  set (updated := mkNamespace _ _ _ _) in Hk.
  assert (ns_ok updated) as Hup.
  { unfold ns_ok in *; simpl. by rewrite Hok, u64_add_l, blob_sum_update. }
  assert (entries kept !! p_key pending = Some (mkEntry (st_size status) stamp) ∧
          config kept = config n ∧ dir kept = dir n ∧ last_stamp (store s4) = stamp)
    as (He & Hc & Hd & Hs4).
  { destruct (decide (ns_policy (config n) = LRU)).
    - destruct (evict_locked_evicts updated (p_key pending) s3 Hup)
        as (ns' & s5 & trace & Heq & Hev & _ & Hl). rewrite Heq in Hk. inv Hk.
      rewrite Hl, Hs3. destruct Hev as [->|[Hc Hd Htr Hfr _ _ _]].
      + split_and!; [apply lookup_insert_eq|done..].
      + rewrite Hfr, decide_False; [split_and!; [apply lookup_insert_eq|done..]|].
        intros ([k1 e1] & -> & [_ Hk]%candidates_spec)%Htr%list_elem_of_fmap. done.
    - inv Hk. rewrite Hs3. split_and!; [apply lookup_insert_eq|done..]. }
  apply bind_Ok in Hrun as ([] & s5 & Hset & Hrun). inv Hset.
  apply bind_Ok in Hrun as ([] & s6 & Hcnt & Hrun). inv Hrun.
  assert (namespaces (store s') = <[p_ns pending := kept]> (namespaces (store s4)) ∧
          last_stamp (store s') = last_stamp (store s4)) as [Hns6 Hl6].
  { case_decide; [|by inv Hcnt]. apply bind_Ok in Hcnt as ([] & s7 & Hm & Hcnt). inv Hm. by inv Hcnt. }
  exists kept, (mkEntry (st_size status) (last_stamp (store s4))).
  rewrite Hns6, Hl6, lookup_insert_eq. split_and!; [done|done| |done|done].
  unfold blob_path. by rewrite Hc, Hd.
Qed.

Lemma lookup_hit ns key s n e :
  namespaces (store s) !! ns = Some n → entries n !! key = Some e →
  last_stamp (store s) < max_i64 →
  ∃ s', lookup (W := W) ns key s = (Ok (Some (blob_path n key)), s').
Proof.
  intros Hn He Hlt. unfold lookup, find_namespace, bind at 1 2, get. simpl. rewrite Hn; simpl.
  rewrite He. unfold next_stamp, bind, call, get, modify, ret.
  destruct (os_now_ms (world s)) as [now w]. simpl. rewrite decide_True by lia. eauto.
Qed.
End Commit.

(** When [commit] returns a path, the blob has an entry at that path whose
    access time is the newest stamp, later than every stamp issued before, and
    looking the key up returns that path: neither the eviction the commit
    triggers nor the checkpoint takes the blob away. *)
Theorem committed_blob_is_found {W} `{Platform W} ndebug depth issued (s : Sys W) pending p s' :
  listing_distinct → reach ndebug depth issued s → commit pending s = (Ok p, s') →
  ∃ ns e, namespaces (store s') !! p_ns pending = Some ns ∧
    entries ns !! p_key pending = Some e ∧ p = blob_path ns (p_key pending) ∧
    e_atime e = last_stamp (store s') ∧ last_stamp (store s) < e_atime e ∧
    (last_stamp (store s') < max_i64 →
     ∃ s'', lookup (p_ns pending) (p_key pending) s' = (Ok (Some p), s'')).
Proof.
  intros Hd Hr Hrun. destruct (reach_acct _ _ _ _ Hd Hr) as [Hinv _].
  apply bind_Ok in Hrun as (st & s1 & Hprep & Hrun).
  destruct (keeps_Ok (λ x, x = store s) _ _ _ _ _ (commit_prepare_keeps _ pending) eq_refl Hprep)
    as [_ Hs1].
  apply bind_Ok in Hrun as (p' & s2 & Hpub & Hrun).
  apply commit_publish_Ok in Hpub as (n & e & Hn & He & -> & Ha & Hlt); [|by rewrite Hs1].
  apply bind_Ok in Hrun as ([] & s3 & Hck & Hrun). inv Hrun.
  pose (I := λ x, namespaces x = namespaces (store s2) ∧ last_stamp x = last_stamp (store s2)).
  assert (ignores_flags I) as HI by done.
  assert (I (store s2)) as HI2 by done.
  destruct (keeps_Ok I _ _ _ _ _ (maybe_checkpoint_keeps I HI) HI2 Hck) as [_ [Hns3 Hl3]].
  rewrite Hns3, Hl3. rewrite Hs1 in Hlt. exists n, e. split_and!; try done. intros Hmax.
  eapply lookup_hit; [by rewrite Hns3|done|by rewrite Hl3].
Qed.

Lemma committed_blob_is_found_witness :
  (commit demo_pending demo3).1 = Ok (str "r/cache/v1/pch/k1.pch") ∧
  ∃ ns e, namespaces (store (commit demo_pending demo3).2) !! p_ns demo_pending = Some ns ∧
    entries ns !! p_key demo_pending = Some e.
Proof.
  assert ((commit demo_pending demo3).1 = Ok (str "r/cache/v1/pch/k1.pch")) as Hp
    by (vm_compute; reflexivity).
  split; [exact Hp|].
  destruct (commit demo_pending demo3) as [r s'] eqn:Hrun. simpl in Hp. subst r.
  destruct (committed_blob_is_found false 8 _ demo3 demo_pending _ s' mem_listing_distinct
              demo3_reach Hrun)
    as (ns & e & Hns & He & _).
  exists ns, e. split; [exact Hns|exact He].
Defined.
