(* ===== verification/CacheDisk.v ===== *)
(** * The blob store against a lawful file system

    With the documented behaviour of the file operations ([PlatformLaws]) and
    nobody else touching the store's directories, every entry of the store has
    its blob on disk with the recorded size, and [commit] publishes exactly the
    bytes of the temporary file. *)
From stdpp Require Import pretty sorting.
From S2P Require Import Prelude CacheStore CacheInvariant CachePlatform CacheTheorems.
Local Open Scope Z_scope.
Local Open Scope cpp_scope.

#[local] Arguments str : simpl never.

Section Disk.
Context {W : Type} `{PlatformLaws W}.

(** ** Paths *)

Lemma append_inj d f d' f' :
  good_dir d → good_dir d' → good_name f → good_name f' →
  path_append d f = path_append d' f' → d = d' ∧ f = f'.
Proof.
  intros Hd Hd' Hf Hf'. rewrite !append_law by done. intros Heq.
  destruct Hf as [_ Hf], Hf' as [_ Hf'].
  pose proof (proj2 (split_path_Some _ d f) (conj eq_refl Hf)) as H1. rewrite Heq in H1.
  pose proof (proj2 (split_path_Some _ d' f') (conj eq_refl Hf')) as H2. by simplify_eq.
Qed.

Lemma append_good d f : good_dir d → good_name f → good_dir (path_append d f).
Proof.
  intros Hd Hf. rewrite append_law by done. split; [by destruct d|].
  destruct Hf as [Hne Hsl]. destruct f as [|c f] using rev_ind; [done|].
  rewrite app_comm_cons, app_assoc, last_snoc. intros [= ->]. set_solver.
Qed.

Lemma append_longer d f : good_dir d → good_name f → (length d < length (path_append d f))%nat.
Proof. intros Hd Hf. rewrite append_law by done. rewrite length_app. simpl. lia. Qed.

Lemma good_decimal n : 0 ≤ n → good_name (decimal n).
Proof. intros. split; [by apply decimal_nonempty|by apply decimal_slash]. Qed.

Lemma good_app f ext : good_name f → "/"%char ∉ ext → good_name (f ++ ext).
Proof. intros [Hf Hs] He. split; [by destruct f|]. rewrite elem_of_app. tauto. Qed.

Lemma good_str_tmp : good_name (str "tmp").
Proof. split; [done|]. vm_compute. set_solver. Qed.

Lemma good_str_manifest : good_name (str "manifest.json").
Proof. split; [done|]. vm_compute. set_solver. Qed.

(** ** Layout *)

(** The directory of a namespace: a Scratch namespace has one of its own per process. *)
Definition ns_dir (s : State) (name : bytes) (policy : CachePolicy) : bytes :=
  if decide (policy = Scratch) then path_append (path_append (base s) name) (decimal (self_pid s))
  else path_append (base s) name.

Definition ns_layout (s : State) (name : bytes) (n : Namespace) : Prop :=
  good_name name ∧ dir n = ns_dir s name (ns_policy (config n)) ∧
  (ns_policy (config n) = Scratch → name ≠ str "tmp") ∧ ("/"%char ∉ ns_extension (config n)) ∧
  ∀ k, is_Some (entries n !! k) → good_name (k ++ ns_extension (config n)).

Definition layout (s : State) : Prop :=
  good_dir (base s) ∧ 0 ≤ self_pid s ∧
  tmp_dir s = path_append (path_append (base s) (str "tmp")) (decimal (self_pid s)) ∧
  map_Forall (ns_layout s) (namespaces s).

(** A path directly inside this instance's temporary directory. *)
Definition is_tmp (s : State) (p : bytes) : Prop :=
  ∃ f, good_name f ∧ p = path_append (tmp_dir s) f.

(** Where blobs of namespaces may live. *)
Inductive blob_place (s : State) : bytes → Prop :=
| shared_place name f :
    good_name name → good_name f → blob_place s (path_append (path_append (base s) name) f)
| own_place name f :
    good_name name → name ≠ str "tmp" → good_name f →
    blob_place s (path_append (path_append (path_append (base s) name) (decimal (self_pid s))) f).

(** No blob of any namespace can live at [p]. *)
Definition not_blob (s : State) (p : bytes) : Prop := ∀ q, blob_place s q → q ≠ p.

Lemma ns_dir_good s name policy : layout s → good_name name → good_dir (ns_dir s name policy).
Proof.
  intros (Hb & Hp & _) Hn. unfold ns_dir. case_decide; auto using append_good, good_decimal.
Qed.

Lemma blob_placed s name n k :
  ns_layout s name n → good_name (k ++ ns_extension (config n)) → blob_place s (blob_path n k).
Proof.
  intros (Hn & Hd & Ht & _) Hk. unfold blob_path, join. rewrite Hd. unfold ns_dir in *.
  case_decide; constructor; auto.
Qed.

Lemma blob_place_same s s' q :
  base s' = base s → self_pid s' = self_pid s → blob_place s q → blob_place s' q.
Proof. intros Hb Hp []; rewrite <- Hb, <- ?Hp; by constructor. Qed.

Lemma tmp_dir_good s : layout s → good_dir (tmp_dir s).
Proof.
  intros (Hb & Hp & -> & _). apply append_good; [apply append_good|]; auto using good_str_tmp.
  by apply good_decimal.
Qed.

Lemma append_not_self d f g : good_dir d → good_name f → good_name g → path_append (path_append d f) g ≠ d.
Proof.
  intros Hd Hf Hg Heq. pose proof (append_longer d f Hd Hf).
  pose proof (append_longer _ g (append_good d f Hd Hf) Hg). rewrite Heq in *. lia.
Qed.

Lemma append_not_dir d f : good_dir d → good_name f → path_append d f ≠ d.
Proof. intros Hd Hf Heq. pose proof (append_longer d f Hd Hf). rewrite Heq in *. lia. Qed.

Lemma tmp_not_blob s p : layout s → is_tmp s p → not_blob s p.
Proof.
  intros Hl (g & Hg & ->). pose proof (tmp_dir_good s Hl) as Ht.
  destruct Hl as (Hb & Hp & Htmp & _). pose proof good_str_tmp. pose proof (good_decimal _ Hp).
  intros q [name f Hn Hf|name f Hn Hnt Hf] Heq;
    (apply append_inj in Heq as [Heq _]; auto using append_good); rewrite Htmp in Heq;
    apply append_inj in Heq as [Heq _]; auto using append_good.
  - symmetry in Heq. by apply append_not_dir in Heq.
  - by apply append_inj in Heq as [_ ?].
Qed.

Lemma manifest_not_blob s : layout s → not_blob s (path_append (base s) (str "manifest.json")).
Proof.
  intros (Hb & Hp & _). pose proof good_str_manifest. pose proof (good_decimal _ Hp).
  intros q [name f Hn Hf|name f Hn Hnt Hf] Heq;
    (apply append_inj in Heq as [Heq _]; auto using append_good).
  - by apply append_not_dir in Heq.
  - by apply append_not_self in Heq.
Qed.

Lemma blob_path_inj s name n k name' n' k' :
  layout s → ns_layout s name n → ns_layout s name' n' →
  good_name (k ++ ns_extension (config n)) → good_name (k' ++ ns_extension (config n')) →
  blob_path n k = blob_path n' k' → name = name' ∧ k ++ ns_extension (config n) = k' ++ ns_extension (config n').
Proof.
  intros Hl (Hn & Hd & _) (Hn' & Hd' & _) Hk Hk'. unfold blob_path, join. rewrite Hd, Hd'.
  intros Heq. apply append_inj in Heq as [Heq ?]; auto using ns_dir_good.
  split; [|done]. destruct Hl as (Hb & Hp & _). pose proof (good_decimal _ Hp).
  unfold ns_dir in Heq. repeat case_decide.
  - apply append_inj in Heq as [Heq _]; auto using append_good. by apply append_inj in Heq as [_ ?].
  - apply append_inj in Heq as [Heq _]; auto using append_good. by apply append_not_dir in Heq.
  - symmetry in Heq. apply append_inj in Heq as [Heq _]; auto using append_good.
    by apply append_not_dir in Heq.
  - by apply append_inj in Heq as [_ ?].
Qed.

(** ** Blobs on disk *)

Definition ns_disk (n : Namespace) (w : W) : Prop :=
  ∀ k e, entries n !! k = Some e →
    ∃ c, node_at w (blob_path n k) = Some (File c) ∧ e_size e = Z.of_nat (length c).

Definition disk (s : State) (w : W) : Prop := map_Forall (λ _ n, ns_disk n w) (namespaces s).

(** The store is consistent with the disk. *)
Definition D (x : Sys W) : Prop := layout (store x) ∧ disk (store x) (world x).

(** The same while the operation at hand works on its own version [n] of the
    namespace [name]. *)
Definition focus (name : bytes) (n : Namespace) (x : Sys W) : Prop :=
  layout (store x) ∧ ns_layout (store x) name n ∧
  map_Forall (λ name' n', name' ≠ name → ns_disk n' (world x)) (namespaces (store x)) ∧
  ns_disk n (world x).

Lemma focus_intro name n x : D x → namespaces (store x) !! name = Some n → focus name n x.
Proof.
  intros [Hl Hd] Hn. split_and!; [done| | |].
  - destruct Hl as (_ & _ & _ & Hl). by apply Hl.
  - intros name' n' Hn' _. by apply Hd in Hn'.
  - by apply Hd in Hn.
Qed.

Lemma focus_new name n x :
  D x → ns_layout (store x) name n → entries n = ∅ → focus name n x.
Proof.
  intros [Hl Hd] Hn He. split_and!; [done|done| |].
  - intros name' n' Hn' _. by apply Hd in Hn'.
  - intros k e. by rewrite He, lookup_empty.
Qed.

Lemma focus_set name n x : focus name n x → D (mkSys (set_ns name n (store x)) (world x)).
Proof.
  intros (Hl & Hn & Hrest & Hd). split.
  - destruct Hl as (? & ? & ? & Hl). split_and!; [done|done|done|]. by apply map_Forall_insert_2.
  - intros name' n'. simpl. rewrite lookup_insert. case_decide; [by intros; simplify_eq|].
    intros Hn'. apply (Hrest name' n' Hn'). congruence.
Qed.

(** [focus] only looks at blob paths. *)
Lemma focus_frame name n st w w' :
  focus name n (mkSys st w) →
  (∀ q, blob_place st q → node_at w' q = node_at w q) →
  focus name n (mkSys st w').
Proof.
  intros (Hl & Hn & Hrest & Hd) Hw.
  assert (∀ name' n', ns_layout st name' n' → ns_disk n' w → ns_disk n' w') as Hmono.
  { intros name' n' Hlay Hd' k e Hk. destruct (Hd' k e Hk) as (c & Hc & ?).
    exists c. split; [|done]. rewrite <- Hc. apply Hw. eapply blob_placed; [done|]. apply Hlay. eauto. }
  split_and!; [done|done| |by eapply Hmono].
  intros name' n' Hn' Hne. destruct Hl as (_ & _ & _ & Hl). simpl in *.
  eapply Hmono; [by apply Hl|]. by apply (Hrest name' n').
Qed.

Lemma D_frame st w w' :
  D (mkSys st w) →
  (∀ q, blob_place st q → node_at w' q = node_at w q) →
  D (mkSys st w').
Proof.
  intros [Hl Hd] Hw. split; [done|]. intros name n Hn k e Hk. simpl in *.
  destruct (Hd name n Hn k e Hk) as (c & Hc & ?). exists c. split; [|done]. rewrite <- Hc.
  destruct Hl as (_ & _ & _ & Hl). apply Hw. eapply blob_placed; [by apply Hl|].
  apply (Hl name n Hn). eauto.
Qed.

(** ** Calls that only look *)

Definition readonly {A} (f : W → A * W) : Prop := ∀ w q, node_at (f w).2 q = node_at w q.

Definition view_inv (P : Sys W → Prop) : Prop :=
  ∀ st w w', (∀ q, node_at w' q = node_at w q) → P (mkSys st w) → P (mkSys st w').

Lemma view_inv_focus name n : view_inv (focus name n).
Proof. intros st w w' Hw Hf. eapply focus_frame; [done|]. intros. apply Hw. Qed.

Lemma view_inv_D : view_inv D.
Proof. intros st w w' Hw HD. eapply D_frame; [done|]. intros. apply Hw. Qed.

Lemma triple_readonly {A} (f : W → A * W) P E :
  readonly f → view_inv P → triple P (call f) (λ _, P) E.
Proof.
  intros Hf HP. apply triple_call. intros [st w] a w' Hs Hw. simpl in *.
  eapply HP; [|done]. intros q. rewrite <- (Hf w q), Hw. done.
Qed.

Lemma readonly_status p : readonly (os_status p).
Proof. intros w q. apply status_law. Qed.
Lemma readonly_read p : readonly (os_read p).
Proof. intros w q. apply read_law. Qed.
Lemma readonly_list d : readonly (os_list d).
Proof. intros w q. apply list_law. Qed.

(** ** Removing a blob *)

Definition without (key : bytes) (total : Z) (n : Namespace) : Namespace :=
  mkNamespace (config n) (dir n) (delete key (entries n)) total.

Lemma focus_less name n x key total : focus name n x → focus name (without key total n) x.
Proof.
  intros (Hl & (Hg & Hd & Ht & He & Hk) & Hrest & Hdisk). split_and!; [done| |done|].
  - split_and!; [done|done|done|done|]. simpl. intros k Hin. apply Hk.
    rewrite lookup_delete in Hin. case_decide; [by destruct Hin|done].
  - intros k e. simpl. rewrite lookup_delete_Some. intros [_ Hke]. by apply Hdisk.
Qed.

(** Whatever happens to one blob path, the other blobs are as they were. *)
Lemma focus_lose name n st w w' key total :
  focus name n (mkSys st w) → good_name (key ++ ns_extension (config n)) →
  (∀ q, q ≠ blob_path n key → node_at w' q = node_at w q) →
  focus name (without key total n) (mkSys st w').
Proof.
  intros (Hl & Hn & Hrest & Hdisk) Hg Hw.
  assert (focus name (without key total n) (mkSys st w)) as (_ & Hn' & _ & _).
  { by apply focus_less. }
  split_and!; [done|done| |].
  - intros name' n' Hin Hne k e Hk. simpl in *. destruct (Hrest name' n' Hin Hne k e Hk) as (c & Hc & ?).
    exists c. split; [|done]. rewrite <- Hc. apply Hw. intros Heq.
    pose proof Hl as (_ & _ & _ & Hall). pose proof (Hall _ _ Hin) as Hlay.
    apply (blob_path_inj st name' n' k name n key) in Heq as [? _]; try done.
    apply Hlay. eauto.
  - intros k e. simpl. rewrite lookup_delete_Some. intros [Hkk Hk].
    destruct (Hdisk k e Hk) as (c & Hc & ?). exists c. split; [|done]. rewrite <- Hc.
    apply Hw. intros Heq. apply (blob_path_inj st name n k name n key) in Heq as [_ Heq]; try done.
    + by apply (inj (.++ _)) in Heq.
    + apply Hn. eauto.
Qed.

(** ** Eviction *)

Definition pinned (p : bytes) (pin : option bytes) (w : W) : Prop :=
  match pin with Some c => node_at w p = Some (File c) | None => True end.

Lemma evict_loop_disk name keep pin cands n E :
  cands_in cands (entries n) → keep ∉ cands.*1 →
  (is_Some pin → good_name (keep ++ ns_extension (config n))) →
  triple (λ x, focus name n x ∧ pinned (blob_path n keep) pin (world x)) (evict_loop cands n)
    (λ n' x, focus name n' x ∧ pinned (blob_path n' keep) pin (world x) ∧
             config n' = config n ∧ dir n' = dir n) E.
Proof.
  revert n. induction cands as [|[k e] cands IH]; intros n Hin Hkeep Hpin; cbn [evict_loop].
  { apply triple_ret. naive_solver. }
  case_decide; [apply triple_ret; naive_solver|].
  rewrite fmap_cons, not_elem_of_cons in Hkeep. simpl in Hkeep. destruct Hkeep as [Hkk Hkeep].
  apply cands_in_delete in Hin as (Hin & Hdel & Hk).
  intros [st w] [Hf Hp]. unfold bind at 1, call. simpl in *.
  pose proof (remove_law (blob_path n k) w) as Hrm.
  destruct (os_remove (blob_path n k) w) as [[err|] w']; simpl in *.
  - apply (IH n); [done|done|done|]. split; [by eapply view_inv_focus|].
    destruct pin; simpl in *; [by rewrite Hrm|done].
  - destruct Hrm as [_ Hrm]. unfold bind, modify. simpl.
    apply (IH (without k (u64 (total_size n - e_size e)) n)); [done|done|done|].
    assert (good_name (k ++ ns_extension (config n))) as Hgk by (apply Hf; eauto).
    split; [by apply (focus_lose name n st w)|].
    destruct pin as [c|]; simpl in *; [|done]. change (blob_path (without _ _ n) keep) with (blob_path n keep).
    rewrite Hrm; [done|]. intros Heq. destruct Hf as (Hl & Hn & _).
    apply (blob_path_inj st name n keep name n k) in Heq as [_ Heq]; eauto.
    by apply (inj (.++ _)) in Heq.
Qed.

Lemma evict_locked_disk name keep pin n E :
  (is_Some pin → good_name (keep ++ ns_extension (config n))) →
  triple (λ x, focus name n x ∧ pinned (blob_path n keep) pin (world x)) (evict_locked n keep)
    (λ n' x, focus name n' x ∧ pinned (blob_path n' keep) pin (world x) ∧
             config n' = config n ∧ dir n' = dir n) E.
Proof.
  intros Hpin. unfold evict_locked. case_match; [apply triple_ret; naive_solver|].
  apply evict_loop_disk; [apply cands_in_candidates| |done].
  rewrite list_elem_of_fmap. intros ([k e] & -> & [_ Hk]%candidates_spec). done.
Qed.

(** ** Publishing *)

(** [same_content] only looks, and says yes only for equal files. *)
Lemma same_content_spec a b st w :
  ∃ r w', same_content a b (mkSys st w) = (Ok r, mkSys st w') ∧
    (∀ q, node_at w' q = node_at w q) ∧
    (r = true → ∃ c, node_at w a = Some (File c) ∧ node_at w b = Some (File c)).
Proof.
  unfold same_content, fs_read, bind, call, ret. simpl.
  destruct (status_law a w) as [H1 _]. destruct (os_status a w) as [[e|sa] w1]; simpl in *;
    [by exists false, w1|].
  destruct (status_law b w1) as [H2 _].
  destruct (os_status b w1) as [[e2|sb] w2]; simpl in *.
  { exists false, w2. split_and!; [done| |done]. intros q. by rewrite H2, H1. }
  destruct (_ || _); simpl.
  { exists false, w2. split_and!; [done| |done]. intros q. by rewrite H2, H1. }
  destruct (read_law a w2) as [H3 R3]. destruct (os_read a w2) as [ra w3]; simpl in *.
  destruct (read_law b w3) as [H4 R4]. destruct (os_read b w3) as [rb w4]; simpl in *.
  eexists _, w4. split_and!; [done|intros q; by rewrite H4, H3, H2, H1|].
  destruct ra as [|ca]; [done|]. destruct rb as [|cb]; [done|]. intros Heq.
  apply bool_decide_eq_true in Heq as ->. exists cb.
  specialize (R3 cb eq_refl). specialize (R4 cb eq_refl).
  by rewrite <- (H1 a), <- (H2 a), R3, <- (H1 b), <- (H2 b), <- (H3 b), R4.
Qed.

(** After [rename tmp final]: the file is there, and other blobs are untouched. *)
Lemma focus_renamed name n st w key total tmp c :
  focus name n (mkSys st w) → good_name (key ++ ns_extension (config n)) → is_tmp st tmp →
  node_at w tmp = Some (File c) →
  let '(r, w') := os_rename tmp (blob_path n key) w in
  match r with
  | None => focus name (without key total n) (mkSys st w') ∧
            node_at w' (blob_path n key) = Some (File c)
  | Some _ => ∀ q, node_at w' q = node_at w q
  end.
Proof.
  intros Hf Hg Ht Hc. pose proof (rename_law tmp (blob_path n key) w c Hc) as Hr.
  destruct (os_rename tmp (blob_path n key) w) as [[err|] w']; simpl in *; [done|].
  destruct Hr as [Hb Hr]. split; [|done].
  pose proof Hf as (Hl & _). pose proof (tmp_not_blob st tmp Hl Ht) as Hnb. simpl in *.
  (* the world as it was except for the temporary file *)
  assert (∀ q, q ≠ tmp → q ≠ blob_path n key → node_at w' q = node_at w q) as Hq by done.
  destruct Hf as (_ & Hn & Hrest & Hdisk).
  assert (∀ name' n' k, ns_layout st name' n' → good_name (k ++ ns_extension (config n')) →
            blob_path n' k ≠ tmp) as Hne.
  { intros name' n' k Hlay Hk. apply Hnb. by eapply blob_placed. }
  split_and!; [done| | |].
  - apply (focus_less name n (mkSys st w)). by split_and!.
  - intros name' n' Hin Hnn k e Hk. simpl in *. destruct (Hrest name' n' Hin Hnn k e Hk) as (c' & Hc' & ?).
    exists c'. split; [|done]. rewrite <- Hc'. pose proof Hl as (_ & _ & _ & Hall).
    pose proof (Hall _ _ Hin) as Hlay. assert (good_name (k ++ ns_extension (config n'))) by (apply Hlay; eauto).
    apply Hq; [by eapply Hne|]. intros Heq.
    by apply (blob_path_inj st name' n' k name n key) in Heq as [? _].
  - intros k e. simpl. rewrite lookup_delete_Some. intros [Hkk Hk].
    destruct (Hdisk k e Hk) as (c' & Hc' & ?). exists c'. split; [|done]. rewrite <- Hc'.
    assert (good_name (k ++ ns_extension (config n))) by (apply Hn; eauto).
    apply Hq; [by eapply Hne|]. intros Heq.
    apply (blob_path_inj st name n k name n key) in Heq as [_ Heq]; try done.
    by apply (inj (.++ _)) in Heq.
Qed.

(** Removing a temporary file changes no blob. *)
Lemma focus_drop_tmp name n st w tmp :
  focus name n (mkSys st w) → is_tmp st tmp → focus name n (mkSys st (os_remove tmp w).2).
Proof.
  intros Hf Ht. pose proof Hf as (Hl & _). pose proof (tmp_not_blob st tmp Hl Ht) as Hnb.
  apply (focus_frame _ _ _ w); [done|]. intros q Hq.
  pose proof (remove_law tmp w) as Hr. specialize (Hnb q Hq).
  destruct (os_remove tmp w) as [[err|] w']; simpl in *; [done|]. by apply Hr.
Qed.

Lemma blob_not_tmp name n st key tmp :
  layout st → ns_layout st name n → good_name (key ++ ns_extension (config n)) → is_tmp st tmp →
  blob_path n key ≠ tmp.
Proof.
  intros Hl Hn Hg Ht. apply (tmp_not_blob st tmp Hl Ht). by eapply blob_placed.
Qed.

Lemma remove_other p q w : q ≠ p → node_at (os_remove p w).2 q = node_at w q.
Proof.
  intros Hq. pose proof (remove_law p w) as Hr. destruct (os_remove p w) as [[]]; simpl in *; [done|].
  by apply Hr.
Qed.

(** After a failed publication the old entry goes exactly when its blob is gone. *)
Lemma focus_retry_failed name n st w key :
  focus name n (mkSys st w) → good_name (key ++ ns_extension (config n)) →
  let '(_, w1) := os_remove (blob_path n key) w in
  ∀ w2, (∀ q, blob_place st q → node_at w2 q = node_at w1 q) →
  (entries n !! key = None ∨ (∃ r, (os_status (blob_path n key) w2).1 = inr r) →
     focus name n (mkSys st w2)) ∧
  ∀ total, focus name (without key total n) (mkSys st w2).
Proof.
  intros Hf Hg. pose proof (remove_law (blob_path n key) w) as Hr.
  pose proof (λ q, remove_other (blob_path n key) q w) as Ho.
  destruct (os_remove (blob_path n key) w) as [r w1]. simpl in *. intros w2 Hw2.
  assert (∀ total, focus name (without key total n) (mkSys st w2)) as Hless.
  { intros total. apply (focus_frame _ _ _ w1); [|done]. by apply (focus_lose name n st w). }
  split; [|done]. intros Hcase. destruct r as [err|].
  { apply (focus_frame _ _ _ w1); [|done]. by apply (view_inv_focus name n st w w1). }
  destruct Hcase as [Hnone|[r Hr2]].
  - assert (without key (total_size n) n = n) as Heq; [|by rewrite <- Heq; apply Hless].
    unfold without. rewrite delete_id by done. by destruct n.
  - exfalso. destruct (status_law (blob_path n key) w2) as [_ Hst]. rewrite Hr2 in Hst.
    assert (node_at w2 (blob_path n key) = None) as HN.
    { destruct Hf as (_ & Hn & _). rewrite Hw2 by (by eapply blob_placed). by destruct Hr. }
    rewrite HN in Hst. by destruct Hst.
Qed.

Lemma focus_D name n x : focus name n x → namespaces (store x) !! name = Some n → D x.
Proof.
  intros (Hl & Hn & Hrest & Hdisk) Hin. split; [done|]. intros name' n' Hin'.
  destruct (decide (name' = name)) as [->|Hne]; [by simplify_eq|]. by apply (Hrest name' n').
Qed.

Lemma publish_disk name n st w pending status c :
  focus name n (mkSys st w) → namespaces st !! name = Some n →
  good_name (p_key pending ++ ns_extension (config n)) → is_tmp st (p_tmp_path pending) →
  node_at w (p_tmp_path pending) = Some (File c) → st_size status = Z.of_nat (length c) →
  match publish name n pending (blob_path n (p_key pending)) status (mkSys st w) with
  | (Ok status', x) =>
    store x = st ∧ st_size status' = Z.of_nat (length c) ∧
    (∀ total, focus name (without (p_key pending) total n) x) ∧
    node_at (world x) (blob_path n (p_key pending)) = Some (File c)
  | (_, x) => D x
  end.
Proof.
  intros Hf Hin Hg Ht Hc Hsz.
  set (tmp := p_tmp_path pending) in *. set (key := p_key pending) in *.
  assert (blob_path n key ≠ tmp) as Hnt by (destruct Hf as (? & ? & _); by apply (blob_not_tmp name n st)).
  unfold publish, fs_rename, bind, call, ret, unexpected. fold tmp key. simpl.
  pose proof (λ total, focus_renamed name n st w key total tmp c Hf Hg Ht Hc) as Hren.
  destruct (os_rename tmp (blob_path n key) w) as [[err|] w1]; simpl.
  2: { split_and!; [done|done|intros; by apply Hren|by apply (Hren 0)]. }
  specialize (Hren 0). apply (view_inv_focus _ _ _ _ w1 Hren) in Hf.
  rewrite <- Hren in Hc. clear Hren.
  destruct (same_content_spec tmp (blob_path n key) st w1) as (same & w2 & -> & Hv & Hsame).
  destruct same; simpl.
  - destruct (Hsame eq_refl) as (c' & Hc1 & Hc2). assert (c' = c) as -> by congruence. clear Hsame.
    apply (view_inv_focus _ _ _ _ w2 Hv) in Hf. rewrite <- Hv in Hc2.
    apply (focus_drop_tmp name n st w2 tmp) in Hf; [|done].
    rewrite <- (remove_other tmp) in Hc2 by done.
    destruct (os_remove tmp w2) as [r w3]. simpl in *.
    destruct (status_law (blob_path n key) w3) as [Hv3 Hst].
    apply (view_inv_focus _ _ _ _ _ Hv3) in Hf. rewrite Hc2 in Hst. rewrite <- Hv3 in Hc2.
    destruct (os_status (blob_path n key) w3) as [[e|st'] w4]; simpl in *.
    + by apply (focus_D name n).
    + destruct Hst as [_ Hst]. split_and!; [done|done|intros; by apply focus_less|done].
  - apply (view_inv_focus _ _ _ _ w2 Hv) in Hf. rewrite <- Hv in Hc.
    pose proof (focus_retry_failed name n st w2 key Hf Hg) as Hfail.
    pose proof (λ total, focus_lose name n st w2 (os_remove (blob_path n key) w2).2 key total Hf Hg
      (λ q, remove_other _ q w2)) as Hlose.
    rewrite <- (remove_other (blob_path n key)) in Hc by done.
    destruct (os_remove (blob_path n key) w2) as [r w3]. simpl in *.
    pose proof (λ total, focus_renamed name (without key total n) st w3 key total tmp c
      (Hlose total) Hg Ht Hc) as Hren.
    change (∀ total, let '(r, w') := os_rename tmp (blob_path n key) w3 in
      match r with
      | Some _ => ∀ q, node_at w' q = node_at w3 q
      | None => focus name (without key total (without key total n)) (mkSys st w') ∧
                node_at w' (blob_path n key) = Some (File c)
      end) in Hren.
    destruct (os_rename tmp (blob_path n key) w3) as [[err'|] w4]; simpl.
    2: { split_and!; [done|done| |by apply (Hren 0)]. intros total.
         destruct (Hren total) as [Hf' _]. unfold without in *; simpl in *.
         by rewrite delete_delete_eq in Hf'. }
    specialize (Hren 0). pose proof Hf as (Hl & _).
    pose proof (tmp_not_blob st tmp Hl Ht) as Hnb.
    pose proof (λ q, remove_other tmp q w4) as Hdrop.
    destruct (os_remove tmp w4) as [r5 w5]; simpl in *.
    destruct (Hfail w5) as [Hkeep Hgone].
    { intros q Hq. rewrite Hdrop by (by apply Hnb). apply Hren. }
    destruct (entries n !! key) as [e|] eqn:Hk; simpl.
    2: { apply (focus_D name n); [|done]. apply Hkeep. by left. }
    destruct (status_law (blob_path n key) w5) as [Hv5 _].
    destruct (os_status (blob_path n key) w5) as [[e'|st'] w6]; simpl in *.
    + unfold modify. simpl. eapply (view_inv_D _ w5 w6); [done|].
      by apply (focus_set name (without key (u64 (total_size n - e_size e)) n) (mkSys st w5)).
    + apply (view_inv_D _ w5 w6); [done|]. apply (focus_D name n); [|done]. apply Hkeep. eauto.
Qed.

(** ** Operations

    [wpd m Q x]: run from [x], [m] returns with [Q], or an error with the store
    consistent with the disk; nothing is said after undefined behaviour. *)
Definition wpd {A} (m : M W A) (Q : A → Sys W → Prop) (x : Sys W) : Prop :=
  match m x with
  | (Ok a, x') => Q a x'
  | (Err _, x') => D x'
  | _ => True
  end.

Lemma wpd_bind {A B} (m : M W A) (k : A → M W B) Q x :
  wpd m (λ a x', wpd (k a) Q x') x → wpd (bind m k) Q x.
Proof. unfold wpd, bind. by destruct (m x) as [[a|e| |] x']. Qed.

Lemma wpd_mono {A} (m : M W A) (Q Q' : A → Sys W → Prop) x :
  wpd m Q x → (∀ a x', Q a x' → Q' a x') → wpd m Q' x.
Proof. unfold wpd. destruct (m x) as [[a|e| |] x']; auto. Qed.

Lemma wpd_triple {A} P (m : M W A) Q x : triple P m Q D → P x → wpd m Q x.
Proof. intros Ht HP. specialize (Ht x HP). unfold wpd. by destruct (m x) as [[a|e| |] x']. Qed.

Lemma wpd_call {A} (f : W → A * W) Q st w :
  Q (f w).1 (mkSys st (f w).2) → wpd (call f) Q (mkSys st w).
Proof. unfold wpd, call. simpl. by destruct (f w). Qed.

(** A call that only looks leaves every observation of the disk in place. *)
Lemma wpd_look {A} (f : W → A * W) (P : Sys W → Prop) Q x :
  readonly f → view_inv P → P x → (∀ a x', P x' → store x' = store x → Q a x') → wpd (call f) Q x.
Proof.
  intros Hf HP Hx HQ. destruct x as [st w]. apply wpd_call, HQ; [|done].
  apply (HP st w); [apply Hf|done].
Qed.

Lemma sync_file_disk p (P : Sys W → Prop) (Q : option errc → Sys W → Prop) x :
  view_inv P → P x → (∀ r x', P x' → store x' = store x → Q r x') → wpd (sync_file p) Q x.
Proof.
  intros HP Hx HQ. unfold sync_file. apply wpd_bind.
  apply (wpd_look _ P); [intros w q; apply open_law|done|done|].
  intros [e|fd] x1 H1 E1; [by apply HQ|]. apply wpd_bind.
  apply (wpd_look _ P); [intros w q; apply fsync_law|done|done|]. intros r x2 H2 E2.
  apply wpd_bind. apply (wpd_look _ P); [intros w q; apply close_law|done|done|].
  intros [] x3 H3 E3. apply HQ; [done|congruence].
Qed.

Lemma D_drop_tmp st w tmp :
  D (mkSys st w) → is_tmp st tmp → D (mkSys st (os_remove tmp w).2).
Proof.
  intros HD Ht. pose proof HD as [Hl _]. pose proof (tmp_not_blob st tmp Hl Ht) as Hnb.
  apply (D_frame _ w); [done|]. intros q Hq. apply remove_other. by apply Hnb.
Qed.

Lemma commit_prepare_disk pending st w :
  D (mkSys st w) → is_tmp st (p_tmp_path pending) →
  node_at w (p_tmp_path pending) ≠ Some Other →
  wpd (commit_prepare pending)
    (λ status x, store x = st ∧ D x ∧ ∃ c, node_at w (p_tmp_path pending) = Some (File c) ∧
       node_at (world x) (p_tmp_path pending) = Some (File c) ∧
       st_size status = Z.of_nat (length c)) (mkSys st w).
Proof.
  intros HD Ht Hno. unfold commit_prepare. case_decide; [by unfold wpd|].
  apply wpd_bind, wpd_call.
  destruct (status_law (p_tmp_path pending) w) as [Hv Hst].
  apply (view_inv_D st w _ Hv) in HD.
  destruct (os_status (p_tmp_path pending) w) as [[e|status] w1]; simpl in *; [by unfold wpd|].
  destruct (node_at w (p_tmp_path pending)) as [[c|]|] eqn:Hc; [|done|by destruct Hst].
  rewrite <- Hv in Hc. destruct Hst as [_ Hst].
  unfold find_namespace. apply wpd_bind, wpd_bind. unfold wpd at 1; simpl. unfold wpd at 1; simpl.
  destruct (namespaces st !! p_ns pending) as [n|]; [|by unfold wpd].
  case_decide; [|by unfold wpd; simpl; eauto 10].
  apply wpd_bind.
  apply (sync_file_disk _ (λ x, D x ∧ node_at (world x) (p_tmp_path pending) = Some (File c))).
  - intros st' w' w'' Hw [HD' Hc']. split; [by apply (view_inv_D st' w')|]. simpl. by rewrite Hw.
  - done.
  - intros [e|] [st' w'] [HD' Hc'] Heq; simpl in *; subst st'.
    + apply wpd_bind, wpd_call. by apply D_drop_tmp.
    + unfold wpd; simpl. eauto 10.
Qed.

Lemma next_stamp_disk (P : Sys W → Prop) (Q : Z → Sys W → Prop) x :
  view_inv P → (∀ st w t, P (mkSys st w) → P (mkSys (set_last_stamp t st) w)) → P x →
  (∀ t x', P x' → store x' = set_last_stamp t (store x) → Q t x') →
  wpd next_stamp Q x.
Proof.
  intros HP Hstamp Hx HQ. unfold next_stamp. apply wpd_bind.
  apply (wpd_look _ P); [intros w q; apply now_law|done|done|]. intros now [st w] H1 E1.
  apply wpd_bind. unfold wpd at 1; simpl. case_decide; [|by unfold wpd].
  unfold wpd; simpl. apply HQ; [by apply Hstamp|]. simpl in *. by rewrite E1.
Qed.

(** Setting flags changes nothing [D] looks at. *)
Lemma D_same_namespaces st st' w :
  base st' = base st → tmp_dir st' = tmp_dir st → self_pid st' = self_pid st →
  namespaces st' = namespaces st → D (mkSys st w) → D (mkSys st' w).
Proof.
  intros Hb Ht Hp Hn. unfold D, layout, disk, ns_layout, ns_dir; simpl. by rewrite Hb, Ht, Hp, Hn.
Qed.

(** A checkpoint writes and renames outside the blobs. *)
Lemma checkpoint_locked_disk x (Q : unit → Sys W → Prop) (P : W → Prop) :
  D x → P (world x) →
  (∀ w w', P w → (∀ q, blob_place (store x) q → node_at w' q = node_at w q) → P w') →
  (∀ x', D x' → P (world x') → Q () x') → wpd checkpoint_locked Q x.
Proof.
  intros HD HP Hframe HQ. destruct x as [st w]. unfold checkpoint_locked.
  apply wpd_bind. unfold wpd at 1; simpl. destruct (dirty st); simpl; [|by apply HQ].
  destruct (to_json _) as [json|]; [|by apply HQ].
  pose proof HD as [Hl _]. simpl in Hl.
  set (tmp := join (tmp_dir st) (str "manifest.json")).
  set (final := join (base st) (str "manifest.json")).
  assert (not_blob st tmp) as Htmp.
  { apply tmp_not_blob; [done|]. exists (str "manifest.json"). auto using good_str_manifest. }
  assert (not_blob st final) as Hfinal by (by apply manifest_not_blob).
  apply wpd_bind, wpd_call. destruct (write_law tmp json w) as [Hw Hok].
  assert (∀ q, blob_place st q → node_at (os_write tmp json w).2 q = node_at w q) as Hw'.
  { intros q Hq. apply Hw. by apply Htmp. }
  pose proof (D_frame st w _ HD Hw') as HD1. pose proof (Hframe _ _ HP Hw') as HP1.
  destruct (os_write tmp json w) as [[e|] w1]; simpl in *; [by apply HQ|].
  apply wpd_bind, wpd_call. pose proof (rename_law tmp final w1 json (Hok eq_refl)) as Hr.
  assert (∀ q, blob_place st q → node_at (os_rename tmp final w1).2 q = node_at w1 q) as Hr'.
  { intros q Hq. destruct (os_rename tmp final w1) as [[e|] w2]; simpl in *; [done|].
    destruct Hr as [_ Hr]. apply Hr; [by apply Htmp|by apply Hfinal]. }
  pose proof (D_frame st w1 _ HD1 Hr') as HD2. pose proof (Hframe _ _ HP1 Hr') as HP2.
  destruct (os_rename tmp final w1) as [[e|] w2]; simpl in *; by apply HQ.
Qed.

Lemma focus_stamp name n st w t :
  focus name n (mkSys st w) → focus name n (mkSys (set_last_stamp t st) w).
Proof. done. Qed.

Lemma evict_loop_base cands n b :
  keeps (W := W) (λ s, (base s, self_pid s) = b) (evict_loop cands n) (λ _, True).
Proof.
  revert n. induction cands as [|[k e] cands IH]; intros n; cbn [evict_loop]; [by apply keeps_ret|].
  case_decide; [by apply keeps_ret|].
  eapply keeps_bind; [apply call_keeps|]. intros [err|] _; [by apply IH|].
  eapply keeps_bind; [by apply keeps_modify|]. intros [] _. by apply IH.
Qed.

Lemma evict_locked_base n keep b :
  keeps (W := W) (λ s, (base s, self_pid s) = b) (evict_locked n keep) (λ _, True).
Proof.
  unfold evict_locked. destruct (_ || _); [by apply keeps_ret|apply evict_loop_base].
Qed.

(** The entry [commit] writes for the file it just published. *)
Lemma focus_publish name n x key c size t total :
  focus name (without key total n) x → good_name (key ++ ns_extension (config n)) →
  node_at (world x) (blob_path n key) = Some (File c) → size = Z.of_nat (length c) →
  focus name (mkNamespace (config n) (dir n) (<[key := mkEntry size t]> (entries n)) total) x.
Proof.
  intros (Hl & (Hg & Hd & Ht & He & Hk) & Hrest & Hdisk) Hgood Hc ->. split_and!; [done| |done|].
  - split_and!; [done|done|done|done|]. simpl. intros k Hin.
    destruct (decide (key = k)) as [->|Hne]; [done|]. rewrite lookup_insert_ne in Hin by done.
    apply Hk. simpl. by rewrite lookup_delete_ne.
  - intros k e. simpl. destruct (decide (key = k)) as [->|Hne].
    + rewrite lookup_insert_eq. intros [= <-]. by exists c.
    + rewrite lookup_insert_ne by done. intros Hin. apply (Hdisk k e). simpl.
      by rewrite lookup_delete_ne.
Qed.

Lemma commit_publish_disk pending status st w c :
  D (mkSys st w) → good_name (p_key pending) → is_tmp st (p_tmp_path pending) →
  node_at w (p_tmp_path pending) = Some (File c) → st_size status = Z.of_nat (length c) →
  wpd (commit_publish pending status)
    (λ p x, D x ∧ (base (store x), self_pid (store x)) = (base st, self_pid st) ∧
       node_at (world x) p = Some (File c) ∧ blob_place st p)
    (mkSys st w).
Proof.
  intros HD Hkey Ht Hc Hsz. unfold commit_publish, find_namespace.
  apply wpd_bind, wpd_bind. unfold wpd at 1; simpl. unfold wpd at 1; simpl.
  destruct (namespaces st !! p_ns pending) as [n|] eqn:Hn; [|by unfold wpd].
  pose proof (focus_intro _ _ (mkSys st w) HD Hn) as Hf.
  pose proof Hf as (Hl & Hlay & _). pose proof Hlay as (_ & _ & _ & Hext & _).
  assert (good_name (p_key pending ++ ns_extension (config n))) as Hg by (by apply good_app).
  apply wpd_bind. pose proof (publish_disk _ _ _ _ pending status c Hf Hn Hg Ht Hc Hsz) as Hpub.
  unfold wpd at 1. destruct (publish _ _ _ _ _ _) as [[status'|e| |] x1]; try done.
  destruct Hpub as (Hst & Hsz' & Hless & Hnode). apply wpd_bind.
  set (total := u64 _). specialize (Hless total).
  apply (next_stamp_disk (λ x, focus (p_ns pending) (without (p_key pending) total n) x ∧
           (base (store x), self_pid (store x)) = (base st, self_pid st) ∧
           node_at (world x) (blob_path n (p_key pending)) = Some (File c))).
  { intros st' w' w'' Hw (? & ? & ?). split_and!; [by eapply view_inv_focus|done|].
    simpl. by rewrite Hw. }
  { intros st' w' t (? & ? & ?). split_and!; [by apply focus_stamp|done|done]. }
  { split_and!; [done|by rewrite Hst|done]. }
  intros t x2 (Hf2 & Hb2 & Hn2) _. apply wpd_bind.
  pose proof (focus_publish _ n x2 _ c (st_size status') t total Hf2 Hg Hn2 Hsz') as Hf3.
  set (updated := mkNamespace _ _ _ _) in *.
  eapply (wpd_mono _ (λ n' x, (focus (p_ns pending) n' x ∧
    node_at (world x) (blob_path n (p_key pending)) = Some (File c)) ∧
    (base (store x), self_pid (store x)) = (base st, self_pid st))).
  { destruct (decide (ns_policy (config n) = LRU)); [|by unfold wpd].
    pose proof (evict_locked_disk (p_ns pending) (p_key pending) (Some c) updated D
                  (λ _, Hg) x2 (conj Hf3 Hn2)) as Hev.
    pose proof (evict_locked_base updated (p_key pending) (base st, self_pid st) x2 Hb2) as Hbase.
    unfold wpd. destruct (evict_locked _ _ _) as [[n'|err| |] x3]; try done.
    destruct Hev as (Hf4 & Hp4 & Hcfg & Hd4). split; [|by destruct Hbase].
    split; [done|]. simpl in Hp4. unfold blob_path, join in *. by rewrite Hcfg, Hd4 in Hp4. }
  intros n' x3 [[Hf4 Hn4] Hb4]. apply wpd_bind. unfold wpd at 1; simpl.
  pose proof (focus_set _ _ _ Hf4) as HD4. apply wpd_bind.
  assert (blob_place st (blob_path n (p_key pending))) as Hshape by (by eapply blob_placed).
  case_decide; unfold wpd; simpl; split_and!; try done.
Qed.

Lemma commit_disk pending st w :
  D (mkSys st w) → good_name (p_key pending) → is_tmp st (p_tmp_path pending) →
  node_at w (p_tmp_path pending) ≠ Some Other →
  wpd (commit pending)
    (λ p x, D x ∧ ∃ c, node_at w (p_tmp_path pending) = Some (File c) ∧
                       node_at (world x) p = Some (File c)) (mkSys st w).
Proof.
  intros HD Hkey Ht Hno. unfold commit. apply wpd_bind.
  eapply wpd_mono; [by apply commit_prepare_disk|].
  intros status [st' w1] (Hst & HD1 & c & Hc & Hc1 & Hsz). simpl in *. subst st'.
  apply wpd_bind. eapply wpd_mono; [by apply (commit_publish_disk _ _ _ _ c)|].
  intros p x2 (HD2 & [= Hb Hpid] & Hp & Hshape). apply wpd_bind.
  unfold maybe_checkpoint. apply wpd_bind. unfold wpd at 1; simpl.
  case_decide; [|by unfold wpd; simpl; eauto].
  apply (checkpoint_locked_disk _ _ (λ w', node_at w' p = Some (File c))); [done|done| |].
  - intros w' w'' Hw' Hsame. rewrite Hsame; [done|]. by apply (blob_place_same st).
  - intros x3 HD3 Hp3. unfold wpd; simpl. eauto.
Qed.

Lemma lookup_disk ns key x :
  D x →
  wpd (lookup ns key)
    (λ r x', D x' ∧ ∀ p, r = Some p →
       ∃ n e c, namespaces (store x') !! ns = Some n ∧ entries n !! key = Some e ∧
         node_at (world x') p = Some (File c) ∧ e_size e = Z.of_nat (length c)) x.
Proof.
  intros HD. destruct x as [st w]. unfold lookup, find_namespace.
  apply wpd_bind, wpd_bind. unfold wpd at 1; simpl. unfold wpd at 1; simpl.
  destruct (namespaces st !! ns) as [n|] eqn:Hn; [|by unfold wpd].
  destruct (entries n !! key) as [e|] eqn:He; [|by unfold wpd].
  apply wpd_bind. pose proof (focus_intro _ _ (mkSys st w) HD Hn) as Hf.
  apply (next_stamp_disk (focus ns n)); [apply view_inv_focus|intros; by apply focus_stamp|done|].
  intros t [st' w'] Hf' _. apply wpd_bind. unfold wpd at 1; simpl. unfold wpd; simpl.
  pose proof Hf' as (_ & (_ & _ & _ & _ & Hkeys) & _ & Hdisk).
  destruct (Hdisk key e He) as (c & Hc & Hsz). split.
  - apply (D_same_namespaces (set_ns ns (mkNamespace (config n) (dir n)
             (<[key := mkEntry (e_size e) t]> (entries n)) (total_size n)) st')); try done.
    apply (focus_set ns _ (mkSys st' w')). apply (focus_publish ns n _ key c); try done.
    + by apply focus_less.
    + apply Hkeys. eauto.
  - intros p [= <-]. rewrite lookup_insert_eq. eexists _, _, c. split_and!; [done| |done|].
    + simpl. by rewrite lookup_insert_eq.
    + done.
Qed.

Lemma invalidate_disk ns key x : D x → wpd (invalidate ns key) (λ _, D) x.
Proof.
  intros HD. destruct x as [st w]. unfold invalidate. apply wpd_bind.
  apply (wpd_mono _ (λ _, D)).
  2: { intros [|] x' HD'; [|done]. unfold maybe_checkpoint. apply wpd_bind. unfold wpd at 1; simpl.
       case_decide; [|done]. by apply (checkpoint_locked_disk _ _ (λ _, True)). }
  unfold invalidate_locked, find_namespace.
  apply wpd_bind, wpd_bind. unfold wpd at 1; simpl. unfold wpd at 1; simpl.
  destruct (namespaces st !! ns) as [n|] eqn:Hn; [|done].
  destruct (entries n !! key) as [e|] eqn:He; [|done].
  pose proof (focus_intro _ _ (mkSys st w) HD Hn) as Hf.
  apply wpd_bind, wpd_call. apply wpd_bind. unfold wpd at 1; simpl.
  assert (D (mkSys (set_ns ns (without key (u64 (total_size n - e_size e)) n) st)
               (os_remove (blob_path n key) w).2)) as HD'.
  { apply (focus_set ns _ (mkSys st _)). apply (focus_lose ns n st w); [done| |].
    - apply Hf. eauto.
    - intros q. apply remove_other. }
  apply wpd_bind. case_decide; unfold wpd; simpl; exact HD'.
Qed.

(** A directory scan adopts files that are there, under their own names. *)
Lemma adopt_disk manifest name p n x :
  focus name n x → good_name (path_filename p) → p = path_append (dir n) (path_filename p) →
  wpd (adopt manifest p n)
    (λ n' x', focus name n' x' ∧ dir n' = dir n ∧ store x' = store x) x.
Proof.
  intros Hf Hg Hp. destruct x as [st w]. unfold adopt.
  destruct (blob_key _ _) as [k|] eqn:Hk; [|by unfold wpd].
  apply blob_key_name in Hk.
  apply wpd_bind, wpd_call. destruct (status_law p w) as [Hv Hst].
  apply (view_inv_focus _ _ _ _ _ Hv) in Hf.
  destruct (os_status p w) as [[e|status] w1]; simpl in *; [by unfold wpd|].
  case_decide as Hreg; [by unfold wpd|].
  destruct (node_at w p) as [[c|]|] eqn:Hc; [|done|by destruct Hst].
  unfold wpd; simpl. split_and!; [|done|done]. destruct Hst as [_ Hst].
  apply (focus_publish name n _ k c); [by apply focus_less|by rewrite <- Hk| |done].
  simpl. rewrite Hv, <- Hc. unfold blob_path, join. by rewrite <- Hk, <- Hp.
Qed.

Lemma scan_disk manifest name ps n x :
  focus name n x →
  (∀ p, p ∈ ps → good_name (path_filename p) ∧ p = path_append (dir n) (path_filename p)) →
  wpd (scan manifest ps n) (λ n' x', focus name n' x') x.
Proof.
  revert n x. induction ps as [|p ps IH]; intros n x Hf Hps; cbn [scan]; [by unfold wpd|].
  apply wpd_bind. destruct (Hps p) as [Hg Hp]; [set_solver|].
  eapply wpd_mono; [by apply (adopt_disk _ name)|]. intros n' x' (Hf' & Hd & _).
  apply IH; [done|]. rewrite Hd. intros q Hq. apply Hps. set_solver.
Qed.

(** ** Removing directories *)

(** The path [d] or one inside it. *)
Definition under (d q : bytes) : Prop := q = d ∨ ∃ r, q = d ++ "/"%char :: r.

Lemma under_append d f q : good_dir d → good_name f → under (path_append d f) q → under d q.
Proof.
  intros Hd Hf. rewrite append_law by done. intros [->|(r & ->)]; right; [by exists f|].
  exists (f ++ "/"%char :: r). by rewrite <- app_assoc.
Qed.

Lemma slash_split (a b a' b' : bytes) :
  "/"%char ∉ a → "/"%char ∉ a' → a ++ "/"%char :: b = a' ++ "/"%char :: b' → a = a'.
Proof.
  revert a'. induction a as [|c a IH]; intros [|c' a'] Ha Ha' Heq; simplify_eq/=; [done|set_solver..|].
  f_equal. apply IH; set_solver.
Qed.

(** Blobs of a namespace are not inside the directory of another. *)
Lemma blob_elsewhere s name name' n k :
  layout s → good_name name → ns_layout s name' n → good_name (k ++ ns_extension (config n)) →
  name ≠ name' → ¬ under (path_append (base s) name) (blob_path n k).
Proof.
  intros Hl Hn Hlay Hk Hne Hu. pose proof Hl as (Hb & Hp & _). pose proof Hlay as (Hn' & Hd & _).
  pose proof (good_decimal _ Hp) as Hdec.
  assert (∃ r, blob_path n k = base s ++ "/"%char :: name' ++ "/"%char :: r) as [r Hr].
  { unfold blob_path, join. rewrite Hd. rewrite append_law by auto using ns_dir_good.
    unfold ns_dir. case_decide; rewrite !append_law by auto using append_good.
    - exists (decimal (self_pid s) ++ "/"%char :: k ++ ns_extension (config n)).
      repeat (rewrite <- app_assoc; simpl). done.
    - exists (k ++ ns_extension (config n)). by rewrite <- app_assoc. }
  rewrite append_law in Hu by done. destruct Hu as [Heq|(r' & Heq)]; rewrite Hr in Heq.
  - apply (inj (base s ++.)) in Heq. injection Heq as Heq. destruct Hn as [_ Hn]. apply Hn.
    rewrite <- Heq. set_solver.
  - rewrite <- app_assoc in Heq. apply (inj (base s ++.)) in Heq. simpl in Heq. injection Heq as Heq.
    apply Hne. symmetry. eapply slash_split; [apply Hn'|apply Hn|exact Heq].
Qed.

(** [m] changes nothing outside [d] and raises nothing. *)
Definition spares {A} (d : bytes) (m : M W A) : Prop :=
  ∀ x, store (m x).2 = store x ∧ (∀ q, ¬ under d q → node_at (world (m x).2) q = node_at (world x) q) ∧
    match (m x).1 with Err _ => False | _ => True end.

Lemma spares_bind {A B} d (m : M W A) (k : A → M W B) :
  spares d m → (∀ a, spares d (k a)) → spares d (bind m k).
Proof.
  intros Hm Hk x. specialize (Hm x). unfold bind. destruct (m x) as [[a|e| |] x']; try done.
  destruct Hm as (H1 & H2 & _). destruct (Hk a x') as (H3 & H4 & H5). cbn [snd] in *.
  split_and!; [congruence| |done]. intros q Hq. by rewrite H4, H2.
Qed.

Lemma spares_ret {A} d (a : A) : spares d (ret a).
Proof. done. Qed.

Lemma spares_look {A} d (f : W → A * W) : readonly f → spares d (call f).
Proof.
  intros Hf [st w]. specialize (Hf w). unfold call. cbn [world store] in *. destruct (f w). split_and!; [done| |done].
  intros q _. apply Hf.
Qed.

Lemma spares_remove d p : under d p → spares d (call (os_remove p)).
Proof.
  intros Hp [st w]. pose proof (λ q, remove_other p q w) as Hr. unfold call. cbn [world store] in *.
  destruct (os_remove p w). split_and!; [done| |done]. intros q Hq. apply Hr. by intros ->.
Qed.

Lemma spares_first_error d body l :
  (∀ p, p ∈ l → spares d (body p)) → spares d (first_error (W := W) body l).
Proof.
  induction l as [|p l IH]; intros Hb; simpl; [apply spares_ret|].
  apply spares_bind; [apply Hb; set_solver|]. intros [e|]; [apply spares_ret|]. apply IH. set_solver.
Qed.

Lemma spares_each {A} d (l : list A) (body : A → M W unit) :
  (∀ a, a ∈ l → spares d (body a)) → spares d (each l body).
Proof.
  induction l as [|a l IH]; intros Hb; simpl; [apply spares_ret|].
  apply spares_bind; [apply Hb; set_solver|]. intros []. apply IH. set_solver.
Qed.

(** The names a listing yields do not depend on what is done afterwards, so the loop over
    them can be treated with what is known of them. *)
Lemma spares_listing {A} d e (k : list bytes * option errc → M W A) :
  good_dir e →
  (∀ r, (∀ p, p ∈ r.1 → ∃ f, good_name f ∧ p = path_append e f) → spares d (k r)) →
  spares d (bind (call (os_list e)) k).
Proof.
  intros He Hk [st w]. destruct (list_law e w) as (Hv & _ & Hp). unfold bind, call. cbn [world store].
  destruct (os_list e w) as [r w']. cbn [fst snd] in *.
  destruct (Hk r) with (x := mkSys st w') as (H1 & H2 & H3).
  { intros p Hin. exists (path_filename p). by apply Hp. }
  cbn [store world] in *. split_and!; [done| |done]. intros q Hq. by rewrite H2, Hv.
Qed.

(** An operation confined to [d], by what it leaves alone. *)
Lemma wpd_spares {A} d (m : M W A) (Q : A → Sys W → Prop) st w :
  spares d m →
  (∀ a w', (∀ q, ¬ under d q → node_at w' q = node_at w q) → Q a (mkSys st w')) → wpd m Q (mkSys st w).
Proof.
  intros Hm HQ. destruct (Hm (mkSys st w)) as (Hs & Hw & Hr). unfold wpd.
  destruct (m (mkSys st w)) as [[a|e| |] [st' w']]; cbn [fst snd store world] in *; try done. subst st'. by apply HQ.
Qed.

Lemma spares_remove_all d fuel p : good_dir p → (∀ q, under p q → under d q) → spares d (remove_all fuel p).
Proof.
  revert p. induction fuel as [|fuel IH]; intros p Hp Hsub; [done|]. cbn [remove_all].
  apply spares_bind; [apply spares_look; intros w q; apply lstatus_law|].
  intros [e|st]; [apply spares_ret|].
  assert (spares d (call (os_remove p))) as Hrm by (apply spares_remove, Hsub; by left).
  case_decide; [|done]. apply spares_listing; [done|]. intros listing Hl.
  apply spares_bind; [|intros []; [apply spares_ret|]; case_match; [apply spares_ret|done]].
  apply spares_first_error. intros child (f & Hf & ->)%Hl.
  assert (∀ q, under (path_append p f) q → under d q) as Hsub' by (intros q Hq; by apply Hsub, (under_append p f)).
  apply spares_bind; [apply spares_look; intros w q; apply lstatus_law|].
  intros [e|cst]; [apply spares_ret|]. case_decide; [apply IH; [by apply append_good|done]|].
  apply spares_remove, Hsub'. by left.
Qed.

Lemma spares_sweep depth d self : good_dir d → spares d (sweep_dead_pid_dirs depth d self).
Proof.
  intros Hd. unfold sweep_dead_pid_dirs. apply spares_listing; [done|]. intros listing Hl.
  apply spares_each. intros p (f & Hf & ->)%Hl. case_match; [|apply spares_ret].
  case_decide; [apply spares_ret|]. apply spares_bind.
  { apply spares_bind; [apply spares_look; intros w q; apply kill_law|]. intros. apply spares_ret. }
  intros []; [apply spares_ret|]. apply spares_bind; [|intros; apply spares_ret].
  apply spares_remove_all; [by apply append_good|]. intros q. by apply under_append.
Qed.

Lemma D_spared name n st w w' :
  good_name name → entries n = ∅ → namespaces st !! name = Some n →
  (∀ q, ¬ under (path_append (base st) name) q → node_at w' q = node_at w q) →
  D (mkSys st w) → D (mkSys st w').
Proof.
  intros Hname He Hn Hw [Hl Hd]. split; [done|]. intros name' n' Hn' k e Hk. cbn [store world] in *.
  destruct (decide (name = name')) as [<-|Hne].
  { rewrite Hn in Hn'. injection Hn' as <-. by rewrite He, lookup_empty in Hk. }
  destruct (Hd name' n' Hn' k e Hk) as (c & Hc & ?). exists c. split; [|done]. cbn [world] in *. rewrite Hw; [done|].
  pose proof Hl as (_ & _ & _ & Hall). eapply (blob_elsewhere st); try done; [by apply Hall|].
  apply (Hall name' n' Hn'). eauto.
Qed.

(** ** Registering *)

Lemma D_created d st w : D (mkSys st w) → D (mkSys st (os_create_directories d w).2).
Proof.
  intros [Hl Hd]. split; [done|]. intros name n Hn k e Hk.
  destruct (Hd name n Hn k e Hk) as (c & Hc & ?). exists c. split; [|done].
  by apply create_directories_law.
Qed.

Lemma register_scratch_disk depth ns st w :
  D (mkSys st w) → ns_policy ns = Scratch → good_name (ns_name ns) → ns_name ns ≠ str "tmp" →
  "/"%char ∉ ns_extension ns → namespaces st !! ns_name ns = None →
  let d := join (base st) (ns_name ns) in
  wpd (do! modify (set_ns (ns_name ns) (mkNamespace ns [] ∅ 0)) in
       do! sweep_dead_pid_dirs depth d (self_pid st) in
       do! modify (set_ns (ns_name ns) (mkNamespace ns (join d (decimal (self_pid st))) ∅ 0)) in
       do! remove_all depth (join d (decimal (self_pid st))) in
       do! call (os_create_directories (join d (decimal (self_pid st)))) in ret ())
    (λ _, D) (mkSys st w).
Proof.
  intros HD Hpol Hname Htmp Hext Hnone d. pose proof HD as [(Hb & Hp & _) _]. cbn [store] in Hb, Hp.
  assert (good_dir d) as Hd by (by apply append_good).
  set (n := mkNamespace ns (join d (decimal (self_pid st))) ∅ 0).
  assert (ns_layout st (ns_name ns) n) as Hlay.
  { split_and!; try done; [|intros k [e Hk]; done]. unfold ns_dir, n; cbn [config dir]. by rewrite Hpol, decide_True. }
  assert (∀ w', (∀ q, ¬ under d q → node_at w' q = node_at w q) →
    D (mkSys (set_ns (ns_name ns) n st) w')) as HDn.
  { intros w' Hw. apply (D_spared (ns_name ns) n _ w); [done|done|by apply lookup_insert_eq|done|].
    by apply (focus_set _ _ (mkSys st w)), focus_new. }
  set (st1 := set_ns (ns_name ns) (mkNamespace ns [] ∅ 0) st).
  assert (set_ns (ns_name ns) n st1 = set_ns (ns_name ns) n st) as Hst.
  { unfold st1, set_ns, set_namespaces; cbn. by rewrite insert_insert_eq. }
  apply wpd_bind. unfold wpd at 1, modify. cbn [store world]. fold st1. apply wpd_bind.
  apply (wpd_spares d); [by apply spares_sweep|]. intros _ w1 Hw1.
  apply wpd_bind. unfold wpd at 1, modify. cbn [store world]. fold n. rewrite Hst. apply wpd_bind.
  apply (wpd_spares d).
  { apply spares_remove_all; [by apply append_good, good_decimal|].
    intros q. by apply under_append, good_decimal. }
  intros _ w2 Hw2. apply wpd_bind, wpd_call. unfold wpd; cbn. apply D_created, HDn.
  intros q Hq. by rewrite Hw2, Hw1.
Qed.

Lemma register_disk ndebug depth ns x :
  D x → (ns_policy ns = Scratch → ns_name ns ≠ str "tmp") → good_name (ns_name ns) →
  "/"%char ∉ ns_extension ns → wpd (register_namespace ndebug depth ns) (λ _, D) x.
Proof.
  intros HD Htmp Hname Hext. destruct x as [st w]. unfold register_namespace.
  apply wpd_bind. unfold wpd at 1; simpl. apply wpd_bind, wpd_call.
  set (d := join (base st) (ns_name ns)).
  pose proof (D_created d st w HD) as HD1.
  generalize dependent (os_create_directories d w).2. intros w1 HD1.
  destruct (namespaces st !! ns_name ns) as [n0|] eqn:Hn.
  { unfold cpp_assert. destruct (false || ndebug); by unfold wpd. }
  case_decide as Hpol; [by apply register_scratch_disk; auto|].
  set (n0 := mkNamespace ns d ∅ 0).
  assert (ns_layout st (ns_name ns) n0) as Hlay.
  { split_and!; try done; [|by intros k [e Hk]]. unfold ns_dir. by rewrite decide_False. }
  pose proof (focus_new _ n0 (mkSys st w1) HD1 Hlay eq_refl) as Hf.
  pose proof (focus_set _ _ _ Hf) as HD2. simpl in HD2.
  apply wpd_bind. unfold wpd at 1; simpl.
  pose proof (focus_intro (ns_name ns) n0 _ HD2 (lookup_insert_eq _ _ _)) as Hf2.
  apply wpd_bind, wpd_call. destruct (list_law d w1) as (Hv & _ & Hpaths).
  apply (view_inv_focus _ _ _ _ _ Hv) in Hf2.
  apply wpd_bind. eapply wpd_mono.
  { apply scan_disk; [done|]. apply Hpaths. apply append_good; [|done]. by destruct HD as [[? _] _]. }
  intros n' x' Hf'. apply wpd_bind.
  eapply wpd_mono.
  { eapply (wpd_triple _ _ _ _ (evict_locked_disk (ns_name ns) [] None n' D _)).
    split; [done|done]. Unshelve. by intros [? ?]. }
  intros n'' x'' (Hf'' & _). unfold wpd; simpl. by apply focus_set.
Qed.

(** ** Sequential runs

    One instance that has the store's directories to itself, from [open] up to its
    [shutdown], with namespaces of the three policies; their names are not paths and no
    Scratch namespace is called tmp (its directory would be that of the temporary
    files).  The client writes its blobs to the temporary paths it was given. *)
Context (ndebug : bool) (depth : nat).

(** An operation came to its end: normally or with an error code. *)
Definition ended {A} (r : Res errc A * Sys W) (x : Sys W) : Prop :=
  r.2 = x ∧ match r.1 with Ok _ | Err _ => True | _ => False end.

Inductive dreach : Sys W → Prop :=
| dr_open root version x0 st x :
    good_dir root → 0 ≤ version → open ndebug depth root version x0 = (Ok st, x) →
    dreach (mkSys st (world x))
| dr_register ns x x' :
    dreach x → (ns_policy ns = Scratch → ns_name ns ≠ str "tmp") → good_name (ns_name ns) →
    "/"%char ∉ ns_extension ns →
    ended (register_namespace ndebug depth ns x) x' → dreach x'
| dr_lookup ns key x x' : dreach x → ended (lookup ns key x) x' → dreach x'
| dr_begin ns key x x' : dreach x → ended (begin_store ndebug ns key x) x' → dreach x'
| dr_write p c x :
    dreach x → is_tmp (store x) p → dreach (mkSys (store x) (os_write p c (world x)).2)
| dr_commit pending x x' :
    dreach x → good_name (p_key pending) → is_tmp (store x) (p_tmp_path pending) →
    node_at (world x) (p_tmp_path pending) ≠ Some Other →
    ended (commit pending x) x' → dreach x'
| dr_abort pending x x' :
    dreach x → is_tmp (store x) (p_tmp_path pending) → ended (abort pending x) x' → dreach x'
| dr_invalidate ns key x x' : dreach x → ended (invalidate ns key x) x' → dreach x'
| dr_checkpoint x x' : dreach x → ended (checkpoint x) x' → dreach x'.

Lemma ended_D {A} (m : M W A) (Q : A → Sys W → Prop) x x' :
  wpd m Q x → (∀ a y, Q a y → D y) → ended (m x) x' → D x'.
Proof.
  unfold wpd, ended. destruct (m x) as [[a|e| |] y]; simpl; intros HQ HD [<- ?]; by eauto.
Qed.

Lemma open_D root version x0 st x :
  good_dir root → 0 ≤ version → open ndebug depth root version x0 = (Ok st, x) →
  D (mkSys st (world x)).
Proof.
  intros Hroot Hver Hopen.
  assert (namespaces st = ∅) as Hns by (by eapply open_fresh).
  assert (layout st) as Hl; [|split; [done|]; unfold disk; simpl; by rewrite Hns].
  unfold open in Hopen.
  apply bind_Ok in Hopen as (? & ? & _ & Hopen). apply bind_Ok in Hopen as (pid & ? & _ & Hopen).
  apply bind_Ok in Hopen as (r & ? & _ & Hopen). destruct r; [done|].
  do 5 apply bind_Ok in Hopen as (? & ? & _ & Hopen).
  apply bind_Ok in Hopen as (r & ? & _ & Hopen). destruct r; [done|]. inv Hopen.
  split_and!; simpl; [|apply u32_range|done|done].
  assert (good_name (str "cache")) as Hc by (split; [done|vm_compute; set_solver]).
  assert (good_name (str "v")) as Hv by (split; [done|vm_compute; set_solver]).
  apply append_good; [by apply append_good|]. apply (good_app (str "v")); [done|].
  by apply decimal_slash.
Qed.

Lemma dreach_D x : dreach x → D x.
Proof.
  induction 1 as [root version x0 st x Hr Hv Hopen|ns x x' _ IH Hp Hn He Hend|ns key x x' _ IH Hend
    |ns key x x' _ IH Hend|p c x _ IH Ht|pending x x' _ IH Hk Ht Ho Hend|pending x x' _ IH Ht Hend
    |ns key x x' _ IH Hend|x x' _ IH Hend].
  - by eapply open_D.
  - eapply ended_D; [by apply register_disk|done|done].
  - eapply ended_D; [by apply lookup_disk|naive_solver|done].
  - destruct Hend as [<- Hend]. destruct (begin_store ndebug ns key x) as [[p|e| |] y] eqn:Hb;
      simpl in *; [|by unfold begin_store, find_namespace, cpp_assert, bind, get, ret in Hb;
                    repeat case_match; simplify_eq|done|done].
    apply begin_store_Ok in Hb as [(_ & _ & ->)|(n & _ & _ & ->)]; [done|].
    destruct x as [st w]. by apply (D_same_namespaces st).
  - destruct x as [st w]. simpl in *. pose proof (tmp_not_blob st p (proj1 IH) Ht) as Hnb.
    apply (D_frame st w); [done|]. intros q Hq. apply write_law. by apply Hnb.
  - destruct x as [st w]. eapply ended_D; [by apply commit_disk|naive_solver|done].
  - destruct x as [st w]. destruct Hend as [<- _]. unfold abort. case_decide; [done|].
    unfold bind, call, ret. simpl. pose proof (D_drop_tmp st w _ IH Ht) as HD.
    by destruct (os_remove _ w).
  - eapply ended_D; [by apply invalidate_disk|done|done].
  - eapply ended_D; [by apply (checkpoint_locked_disk x (λ _, D) (λ _, True))|done|done].
Qed.
End Disk.

(** ** Absence of undefined behaviour

    [commit] always comes to an end, normally or with an error code, unless the
    logical clock is exhausted. *)
Section NoFault.
Context {W : Type} `{Platform W}.

Definition safe {A} (I : State → Prop) (m : M W A) (J : State → Prop) : Prop :=
  ∀ s, I (store s) →
    match m s with (Ok _, s') => J (store s') | (Err _, _) => True | _ => False end.

Lemma safe_seq {A B} I J K (m : M W A) (k : A → M W B) :
  safe I m J → (∀ a, safe J (k a) K) → safe I (bind m k) K.
Proof.
  intros Hm Hk s Hs. specialize (Hm s Hs). unfold bind.
  destruct (m s) as [[a|e| |] s']; [|done..]. by apply Hk.
Qed.

Lemma safe_ret {A} (I J : State → Prop) (a : A) : (∀ s, I s → J s) → safe I (ret a) J.
Proof. intros HIJ s Hs. by apply HIJ. Qed.

Lemma safe_call {A} I (f : W → A * W) : safe I (call f) I.
Proof. intros s Hs. unfold call. by destruct (f (world s)). Qed.

Lemma safe_state (I : State → Prop) : safe I get I.
Proof. by intros s Hs. Qed.

Lemma safe_modify (f : State → State) : safe (λ _, True) (modify f) (λ _, True).
Proof. by intros s Hs. Qed.

Lemma safe_unexpected {A} I e J : safe I (unexpected e : M W A) J.
Proof. by intros s Hs. Qed.

Lemma safe_find I name : safe I (find_namespace name) I.
Proof. eapply safe_seq; [apply safe_state|]. intros s. by apply safe_ret. Qed.

Lemma safe_sync_file I p : safe I (sync_file p) I.
Proof.
  eapply safe_seq; [apply safe_call|]. intros [e|fd]; [by apply safe_ret|].
  repeat (eapply safe_seq; [apply safe_call|]; intros ?). by apply safe_ret.
Qed.

Lemma safe_same_content I a b : safe I (same_content a b) I.
Proof.
  eapply safe_seq; [apply safe_call|]. intros [e|st]; [by apply safe_ret|].
  eapply safe_seq; [apply safe_call|]. intros [e|fst]; [by apply safe_ret|].
  destruct (_ || _); [by apply safe_ret|].
  repeat (eapply safe_seq; [apply safe_call|]; intros ?). by apply safe_ret.
Qed.

Lemma safe_prepare I pending : safe I (commit_prepare pending) I.
Proof.
  unfold commit_prepare. case_decide; [apply safe_unexpected|].
  eapply safe_seq; [apply safe_call|]. intros [e|st]; [apply safe_unexpected|].
  eapply safe_seq; [apply safe_find|]. intros [n|]; [|apply safe_unexpected].
  case_decide; [|by apply safe_ret].
  eapply safe_seq; [apply safe_sync_file|]. intros [e|]; [|by apply safe_ret].
  eapply safe_seq; [apply safe_call|]. intros ?. apply safe_unexpected.
Qed.

Lemma safe_publish I name n pending p st : safe I (publish name n pending p st) I.
Proof.
  eapply safe_seq; [apply safe_call|]. intros [err|]; [|by apply safe_ret].
  eapply safe_seq; [apply safe_same_content|]. intros [|].
  - do 2 (eapply safe_seq; [apply safe_call|]; intros ?).
    case_match; [apply safe_unexpected|by apply safe_ret].
  - do 2 (eapply safe_seq; [apply safe_call|]; intros ?). case_match; [|by apply safe_ret].
    eapply safe_seq; [apply safe_call|]; intros ?. case_match; [|apply safe_unexpected].
    eapply safe_seq; [apply safe_call|]; intros ?. case_match; [|apply safe_unexpected].
    by intros s Hs.
Qed.

Lemma safe_next_stamp : safe (λ s, last_stamp s < max_i64) next_stamp (λ _, True).
Proof.
  intros s Hs. unfold next_stamp, bind, call, get. destruct (os_now_ms (world s)) as [now w].
  simpl. by rewrite decide_True by lia.
Qed.

Lemma safe_evict_locked n keep : safe (λ _, True) (evict_locked n keep) (λ _, True).
Proof.
  unfold evict_locked. destruct (_ || _); [by apply safe_ret|].
  generalize (candidates keep (entries n)) as cands. intros cands. revert n.
  induction cands as [|[k e] cands IH]; intros n; cbn [evict_loop]; [by apply safe_ret|].
  case_decide; [by apply safe_ret|].
  eapply safe_seq; [apply safe_call|]. intros [err|]; [apply IH|].
  eapply safe_seq; [apply safe_modify|]. intros []. apply IH.
Qed.

Lemma safe_checkpoint : safe (λ _, True) checkpoint_locked (λ _, True).
Proof.
  unfold checkpoint_locked, fs_write, fs_rename.
  eapply safe_seq; [apply safe_state|]. intros s. destruct (negb (dirty s)); [by apply safe_ret|].
  destruct (to_json _); [|by apply safe_ret].
  eapply safe_seq; [apply safe_call|]. intros [e|]; [by apply safe_ret|].
  eapply safe_seq; [apply safe_call|]. intros [e|]; [by apply safe_ret|].
  eapply safe_seq; [apply safe_modify|]. intros []. apply safe_modify.
Qed.

Lemma safe_commit pending : safe (λ s, last_stamp s < max_i64) (commit pending) (λ _, True).
Proof.
  eapply safe_seq; [apply safe_prepare|]. intros status.
  eapply (safe_seq _ (λ _, True)).
  - eapply safe_seq; [apply safe_find|]. intros [n|]; [|apply safe_unexpected].
    eapply safe_seq; [apply safe_publish|]. intros status'.
    eapply safe_seq; [apply safe_next_stamp|]. intros stamp.
    eapply (safe_seq _ (λ _, True)).
    { case_decide; [apply safe_evict_locked|by apply safe_ret]. }
    intros kept. eapply safe_seq; [apply safe_modify|]. intros [].
    eapply (safe_seq _ (λ _, True)); [|intros []; by apply safe_ret].
    case_decide; [|by apply safe_ret].
    eapply safe_seq; [apply safe_modify|]. intros []. apply safe_modify.
  - intros p. eapply (safe_seq _ (λ _, True)); [|intros []; by apply safe_ret].
    eapply safe_seq; [apply safe_state|]. intros s. case_decide; [apply safe_checkpoint|by apply safe_ret].
Qed.
End NoFault.

(** ** A concrete run of a lawful file system *)

Lemma demo0_dreach : dreach false 8 demo0.
Proof.
  apply (dr_open false 8 (str "r") 1 fresh_mem (store demo0) (mkSys default_state (world demo0))).
  - by split.
  - done.
  - vm_compute. reflexivity.
Qed.

Lemma demo3_dreach : dreach false 8 demo3.
Proof.
  assert (dreach false 8 demo2) as H2.
  { apply (dr_begin false 8 (str "pch") (str "k1") demo1); [|vm_compute; done].
    apply (dr_register false 8 demo_pch demo0);
      [apply demo0_dreach|done|split; [done|vm_compute; set_solver]|vm_compute; set_solver|].
    vm_compute. done. }
  replace demo3 with (mkSys (store demo2)
    (os_write (str "r/cache/v1/tmp/42/0.pch") (str "ab") (world demo2)).2)
    by (vm_compute; reflexivity).
  apply (dr_write false 8); [exact H2|].
  exists (str "0.pch"). split; [split; [done|vm_compute; set_solver]|vm_compute; reflexivity].
Qed.

Lemma demo_pending_tmp : is_tmp (store demo3) (p_tmp_path demo_pending).
Proof.
  exists (str "0.pch"). split; [split; [done|vm_compute; set_solver]|vm_compute; reflexivity].
Qed.

Lemma demo_key_good : good_name (p_key demo_pending).
Proof. split; [discriminate|vm_compute; set_solver]. Qed.

Lemma demo_pending_file : node_at (world demo3) (p_tmp_path demo_pending) ≠ Some Other.
Proof. vm_compute. discriminate. Qed.

(** No dangling blobs: whatever sequence of operations ran before, failed
    renames and refused removals included, a path that [lookup] returns is a file
    on disk, of the size recorded for its entry. *)
Theorem lookup_never_dangles {W} `{PlatformLaws W} ndebug depth (x : Sys W) ns key p x' :
  dreach ndebug depth x → lookup ns key x = (Ok (Some p), x') →
  ∃ n e c, namespaces (store x') !! ns = Some n ∧ entries n !! key = Some e ∧
    node_at (world x') p = Some (File c) ∧ e_size e = Z.of_nat (length c).
Proof.
  intros Hr Hl. pose proof (lookup_disk ns key x (dreach_D _ _ _ Hr)) as Hd. unfold wpd in Hd.
  rewrite Hl in Hd. by apply (proj2 Hd p).
Qed.

Lemma lookup_never_dangles_witness :
  (lookup (str "pch") (str "k1") (commit demo_pending demo3).2).1 =
    Ok (Some (str "r/cache/v1/pch/k1.pch")) ∧
  ∃ n e c, namespaces (store (lookup (str "pch") (str "k1") (commit demo_pending demo3).2).2)
             !! str "pch" = Some n ∧ entries n !! str "k1" = Some e ∧
    node_at (world (lookup (str "pch") (str "k1") (commit demo_pending demo3).2).2)
      (str "r/cache/v1/pch/k1.pch") = Some (File c) ∧ e_size e = Z.of_nat (length c).
Proof.
  split; [vm_compute; reflexivity|].
  apply (lookup_never_dangles false 8 (commit demo_pending demo3).2).
  - apply (dr_commit false 8 demo_pending demo3); [apply demo3_dreach| | | |].
    + apply demo_key_good.
    + apply demo_pending_tmp.
    + apply demo_pending_file.
    + split; [reflexivity|]. vm_compute. exact I.
  - vm_compute. reflexivity.
Defined.

(** C28. [commit] publishes the right bytes.  After any sequence of operations of one
    instance that has the store to itself (namespaces of all three policies, Scratch ones
    in their per-process directories included; names without separators; no [shutdown]
    yet), on a file system that behaves as [PlatformLaws] says: for a pending blob with a
    key that is a plain file name and a temporary path of this instance that is no
    directory, when [commit] returns a path, that file holds exactly what the client had
    written to the temporary file, also when the rename collided with an existing blob and
    also after the eviction and the checkpoint that [commit] triggers; when it returns an
    error, every entry of the store still has its blob; nothing else can happen before the
    logical clock is at the end of its 64-bit range. *)
Theorem commit_publishes_bytes {W} `{PlatformLaws W} ndebug depth (x : Sys W) pending :
  dreach ndebug depth x → good_name (p_key pending) → is_tmp (store x) (p_tmp_path pending) →
  node_at (world x) (p_tmp_path pending) ≠ Some Other →
  match commit pending x with
  | (Ok p, x') => ∃ c, node_at (world x) (p_tmp_path pending) = Some (File c) ∧
                       node_at (world x') p = Some (File c)
  | (Err _, x') => disk (store x') (world x')
  | _ => max_i64 ≤ last_stamp (store x)
  end.
Proof.
  intros Hr Hk Ht Ho. destruct x as [st w].
  pose proof (commit_disk pending st w (dreach_D _ _ _ Hr) Hk Ht Ho) as Hc. unfold wpd in Hc.
  pose proof (safe_commit pending (mkSys st w)) as Hs. simpl in *.
  destruct (commit pending _) as [[p|e| |] x']; [by destruct Hc|by destruct Hc|lia|lia].
Qed.

(** A server's store: an LRU namespace with a blob, and a Scratch one with a blob on its way. *)
Definition demo_header : CacheNamespace := mkCacheNamespace (str "header_context") (str ".h") Scratch 0.
Definition demo5 : Sys MemFs := (register_namespace false 8 demo_header (commit demo_pending demo3).2).2.
Definition demo6 : Sys MemFs := (begin_store false (str "header_context") (str "k2") demo5).2.
Definition demo_scratch : PendingEntry :=
  mkPendingEntry (str "header_context") (str "k2") (str "r/cache/v1/tmp/42/1.h").
Definition demo7 : Sys MemFs :=
  mkSys (store demo6) (os_write (p_tmp_path demo_scratch) (str "xyz") (world demo6)).2.

Lemma demo_scratch_tmp : is_tmp (store demo6) (p_tmp_path demo_scratch).
Proof. exists (str "1.h"). split; [split; [discriminate|vm_compute; set_solver]|vm_compute; reflexivity]. Qed.

Lemma demo_header_good :
  good_name (ns_name demo_header) ∧ ("/"%char ∉ ns_extension demo_header) ∧ good_name (p_key demo_scratch).
Proof. vm_compute. split_and!; try done; set_solver. Qed.

Lemma demo7_dreach : dreach false 8 demo7.
Proof.
  apply (dr_write false 8); [|apply demo_scratch_tmp].
  assert (dreach false 8 (commit demo_pending demo3).2) as H4.
  { apply (dr_commit false 8 demo_pending demo3);
      [apply demo3_dreach|apply demo_key_good|apply demo_pending_tmp|apply demo_pending_file|].
    split; [reflexivity|vm_compute; exact I]. }
  apply (dr_begin false 8 (str "header_context") (str "k2") demo5);
    [|split; [unfold demo6; reflexivity|vm_compute; exact I]].
  apply (dr_register false 8 demo_header (commit demo_pending demo3).2).
  - exact H4.
  - intros _. vm_compute. discriminate.
  - apply demo_header_good.
  - apply demo_header_good.
  - split; [unfold demo5; reflexivity|vm_compute; exact I].
Qed.

Lemma commit_publishes_bytes_witness :
  ∃ c, node_at (world demo7) (p_tmp_path demo_scratch) = Some (File c) ∧
       node_at (world (commit demo_scratch demo7).2) (str "r/cache/v1/header_context/42/k2.h") = Some (File c).
Proof.
  destruct demo_header_good as (_ & _ & Hk).
  assert (is_tmp (store demo7) (p_tmp_path demo_scratch)) as Ht by exact demo_scratch_tmp.
  assert (node_at (world demo7) (p_tmp_path demo_scratch) ≠ Some Other) as Ho by (vm_compute; discriminate).
  pose proof (commit_publishes_bytes false 8 demo7 demo_scratch demo7_dreach Hk Ht Ho) as Hc.
  assert ((commit demo_scratch demo7).1 = Ok (str "r/cache/v1/header_context/42/k2.h")) as Hp
    by (vm_compute; reflexivity).
  destruct (commit demo_scratch demo7) as [r x']. cbn [fst] in Hp. subst r. exact Hc.
Defined.
