(* ===== verification/CacheFrame.v ===== *)
(** * What a commit leaves alone

    On a file system that behaves as documented, a commit to a namespace without
    eviction changes one blob and one temporary file: the others, and the entries of
    the other keys, stay as they are, whichever way it ends. *)
From stdpp Require Import pretty.
From S2P Require Import Prelude CacheStore CacheInvariant CachePlatform CacheTheorems CacheDisk.
Local Open Scope Z_scope.
Local Open Scope cpp_scope.

#[local] Arguments str : simpl never.

Section commits.
Context {W : Type} `{PlatformLaws W}.

(** ** Invariants of the whole system *)

(** [m] keeps [P] on every exit and returns only values with [φ]. *)
Definition steady {A} (P : Sys W → Prop) (m : M W A) (φ : A → Prop) : Prop :=
  triple P m (λ a x, φ a ∧ P x) P.

Lemma steady_ret {A} P (a : A) (φ : A → Prop) : φ a → steady P (ret a) φ.
Proof. intros. by apply triple_ret. Qed.

Lemma steady_bind {A B} P (m : M W A) (k : A → M W B) φ ψ :
  steady P m φ → (∀ a, φ a → steady P (k a) ψ) → steady P (bind m k) ψ.
Proof. intros Hm Hk. eapply triple_bind; [done|]. intros a. apply triple_pure, Hk. Qed.

Lemma steady_unexpected {A} P e (φ : A → Prop) : steady P (unexpected e) φ.
Proof. by apply triple_unexpected. Qed.

Lemma steady_fault {A} P (φ : A → Prop) : steady P (fault : M W A) φ.
Proof. by apply triple_fault. Qed.

Lemma steady_call {A} P (f : W → A * W) :
  (∀ st w, P (mkSys st w) → P (mkSys st (f w).2)) → steady P (call f) (λ _, True).
Proof.
  intros Hf. apply triple_call. intros [st w] a w' Hs Hw. split; [done|].
  specialize (Hf st w Hs). simpl in *. by rewrite Hw in Hf.
Qed.

Lemma steady_look {A} P (f : W → A * W) :
  readonly f → view_inv P → steady P (call f) (λ _, True).
Proof. intros Hf HP. apply steady_call. intros st w Hs. apply (HP st w); [|done]. intros q. apply Hf. Qed.

Lemma steady_modify P f :
  (∀ st w, P (mkSys st w) → P (mkSys (f st) w)) → steady P (modify f) (λ _, True).
Proof. intros Hf. apply triple_modify. intros [st w] Hs. split; [done|]. by apply Hf. Qed.

Lemma steady_run {A} P (m : M W A) φ x : steady P m φ → P x → P (m x).2.
Proof. intros Hm Hx. specialize (Hm x Hx). by destruct (m x) as [[a|e| |] x']; naive_solver. Qed.

(** ** One key and one temporary file *)

Definition manifest : bytes := str "manifest.json".

Section about.
Context (ns : bytes) (x0 : Sys W) (n0 : Namespace).
Context (Hl : layout (store x0)) (Hns : ns_layout (store x0) ns n0).
Context (Hpolicy : ns_policy (config n0) = Persistent).

Definition blob (k : bytes) : bytes := blob_path n0 k.
Definition key_ok (k : bytes) : Prop := good_name (k ++ ns_extension (config n0)).
Definition tmp (f : bytes) : bytes := path_append (tmp_dir (store x0)) f.

(** [x] differs from [x0] at most in the blob and the entry of [key], in the temporary
    file [f] with content [c], and in what the store keeps besides. *)
Record about (key f c : bytes) (x : Sys W) : Prop := {
  ab_dirs : base (store x) = base (store x0) ∧ tmp_dir (store x) = tmp_dir (store x0) ∧
    self_pid (store x) = self_pid (store x0);
  ab_entries : ∃ n, namespaces (store x) !! ns = Some n ∧ config n = config n0 ∧ dir n = dir n0 ∧
    ∀ k, k ≠ key → entries n !! k = entries n0 !! k;
  ab_blobs : ∀ k, key_ok k → k ≠ key → node_at (world x) (blob k) = node_at (world x0) (blob k);
  ab_tmps : ∀ g, good_name g → g ≠ f → g ≠ manifest →
    node_at (world x) (tmp g) = node_at (world x0) (tmp g);
  ab_blob : node_at (world x) (blob key) = node_at (world x0) (blob key) ∨
    node_at (world x) (blob key) = None ∨ node_at (world x) (blob key) = Some (File c);
  ab_tmp : node_at (world x) (tmp f) = Some (File c) ∨ node_at (world x) (tmp f) = None;
}.

Context (key f c : bytes) (Hkey : key_ok key) (Hf : good_name f) (Hmf : f ≠ manifest).

Lemma blob_inj k k' : key_ok k → key_ok k' → blob k = blob k' → k = k'.
Proof.
  intros Hk Hk' Heq. apply (blob_path_inj (store x0) ns n0 k ns n0 k') in Heq as [_ Heq]; try done.
  by apply (inj (.++ _)) in Heq.
Qed.

Lemma tmp_inj g g' : good_name g → good_name g' → tmp g = tmp g' → g = g'.
Proof.
  intros Hg Hg' Heq. by apply append_inj in Heq as [_ ?]; try done; apply tmp_dir_good.
Qed.

Lemma blob_not_tmp' k g : key_ok k → good_name g → blob k ≠ tmp g.
Proof. intros Hk Hg. eapply (blob_not_tmp ns n0 (store x0)); try done. by exists g. Qed.

Lemma manifest_elsewhere :
  (∀ k, key_ok k → blob k ≠ path_append (base (store x0)) manifest) ∧
  (∀ g, good_name g → tmp g ≠ path_append (base (store x0)) manifest).
Proof.
  split.
  - intros k Hk. apply manifest_not_blob; [done|]. by eapply blob_placed.
  - intros g Hg Heq. pose proof Hl as (Hb & Hp & Htmp & _).
    apply append_inj in Heq as [Heq _]; try done; [|by apply tmp_dir_good|apply good_str_manifest].
    pose proof (append_longer (base (store x0)) (str "tmp") Hb good_str_tmp).
    pose proof (append_longer (path_append (base (store x0)) (str "tmp")) (decimal (self_pid (store x0)))
      (append_good _ _ Hb good_str_tmp) (good_decimal _ Hp)). rewrite <- Htmp, Heq in *. lia.
Qed.

(** A change of the world that touches only the blob, the temporary file and the
    manifest. *)
Lemma about_touch st w w' :
  about key f c (mkSys st w) →
  (∀ q, q ≠ tmp f → q ≠ blob key → q ≠ tmp manifest → q ≠ path_append (base (store x0)) manifest →
     node_at w' q = node_at w q) →
  (node_at w' (blob key) = node_at w (blob key) ∨ node_at w' (blob key) = None ∨
   node_at w' (blob key) = Some (File c)) →
  (node_at w' (tmp f) = node_at w (tmp f) ∨ node_at w' (tmp f) = None) →
  about key f c (mkSys st w').
Proof.
  intros [Hd He Hb Ht Hblob Htmp] Hw Hfinal Htmp'. destruct manifest_elsewhere as [Hm1 Hm2].
  split; [done|done| | | |]; cbn [world] in *.
  - intros k Hk Hne. rewrite Hw; [by apply Hb|..]; auto using blob_not_tmp', good_str_manifest.
    by intros ?%blob_inj.
  - intros g Hg Hne Hgm. rewrite Hw; [by apply Ht|..].
    + by intros ?%tmp_inj.
    + intros Heq. by apply (blob_not_tmp' key g).
    + intros ?%tmp_inj; [done|done|apply good_str_manifest].
    + by apply Hm2.
  - destruct Hfinal as [->|]; [done|tauto].
  - destruct Htmp' as [->|]; [done|tauto].
Qed.

Lemma about_view : view_inv (about key f c).
Proof. intros st w w' Hw Ha. eapply about_touch; [exact Ha|..]; intros; rewrite ?Hw; auto. Qed.

Lemma about_remove p st w :
  p = tmp f ∨ p = blob key → about key f c (mkSys st w) →
  about key f c (mkSys st (os_remove p w).2).
Proof.
  intros Hp Ha. pose proof (remove_law p w) as Hrm.
  destruct (os_remove p w) as [[err|] w'] eqn:Hr; cbn [fst snd] in *; [by apply (about_view st w)|].
  destruct Hrm as [Hnone Hrm]. eapply about_touch; [exact Ha|..].
  - intros q ? ? _ _. apply Hrm. by destruct Hp as [->| ->].
  - destruct Hp as [->| ->]; [|auto]. left. apply Hrm. by apply blob_not_tmp'.
  - destruct Hp as [->| ->]; [auto|]. left. apply Hrm. intros Heq. by apply (blob_not_tmp' key f).
Qed.

Lemma about_rename st w :
  about key f c (mkSys st w) → about key f c (mkSys st (os_rename (tmp f) (blob key) w).2).
Proof.
  intros Ha. pose proof (blob_not_tmp' key f Hkey Hf) as Hne.
  destruct (ab_tmp _ _ _ _ Ha) as [Hc|Hnone]; cbn [world] in *.
  - pose proof (rename_law (tmp f) (blob key) w c Hc) as Hr.
    pose proof (rename_source_law (tmp f) (blob key) w c Hc (not_eq_sym Hne)) as Hs.
    destruct (os_rename (tmp f) (blob key) w) as [[err|] w']; cbn [fst snd] in *;
      [by apply (about_view st w)|].
    destruct Hr as [Hb Hr]. eapply about_touch; [exact Ha|..]; auto.
  - destruct (rename_missing_law (tmp f) (blob key) w Hnone) as [_ Hv].
    by apply (about_view st w).
Qed.

Lemma about_manifest_write json st w :
  about key f c (mkSys st w) → about key f c (mkSys st (os_write (tmp manifest) json w).2).
Proof.
  intros Ha. destruct (write_law (tmp manifest) json w) as [Hw _].
  eapply about_touch; [exact Ha|..].
  - intros q _ _ Hq _. by apply Hw.
  - left. apply Hw. apply blob_not_tmp'; [done|apply good_str_manifest].
  - left. apply Hw. intros Heq%tmp_inj; [done|done|apply good_str_manifest].
Qed.

Lemma about_manifest_rename json st w :
  node_at w (tmp manifest) = Some (File json) → about key f c (mkSys st w) →
  about key f c (mkSys st (os_rename (tmp manifest) (path_append (base (store x0)) manifest) w).2).
Proof.
  intros Hj Ha. destruct manifest_elsewhere as [Hm1 Hm2].
  pose proof (rename_law (tmp manifest) (path_append (base (store x0)) manifest) w json Hj) as Hr.
  destruct (os_rename _ _ w) as [[err|] w']; cbn [fst snd] in *; [by apply (about_view st w)|].
  destruct Hr as [_ Hr]. eapply about_touch; [exact Ha|..].
  - intros q _ _ Hq1 Hq2. by apply Hr.
  - left. apply Hr; [|by apply Hm1]. apply blob_not_tmp'; [done|apply good_str_manifest].
  - left. apply Hr; [|by apply Hm2]. intros Heq%tmp_inj; [done|done|apply good_str_manifest].
Qed.

(** What the store keeps besides the namespaces and the directories does not matter. *)
Lemma about_state st st' w :
  base st' = base st → tmp_dir st' = tmp_dir st → self_pid st' = self_pid st →
  namespaces st' = namespaces st → about key f c (mkSys st w) → about key f c (mkSys st' w).
Proof.
  intros Hb Ht Hp Hn [Hd He ? ? ? ?]. split; try done; cbn [store] in *; rewrite ?Hb, ?Ht, ?Hp, ?Hn; done.
Qed.

(** The namespace as the operation reads it. *)
Definition like (n : Namespace) : Prop :=
  config n = config n0 ∧ dir n = dir n0 ∧ ∀ k, k ≠ key → entries n !! k = entries n0 !! k.

Lemma about_set_ns n st w :
  like n → about key f c (mkSys st w) → about key f c (mkSys (set_ns ns n st) w).
Proof.
  intros (Hc & Hdir & He) [Hd _ ? ? ? ?]. split; try done. exists n. cbn. by rewrite lookup_insert_eq.
Qed.

(** ** The steps of a commit *)

Definition P : Sys W → Prop := about key f c.

Lemma find_steady : steady P (find_namespace ns) (λ found, ∃ n, found = Some n ∧ like n).
Proof.
  intros [st w] Ha. cbn. split; [|done]. destruct (ab_entries _ _ _ _ Ha) as (n & Hn & ? & ? & ?).
  exists n. split; [done|]. by split_and!.
Qed.

Lemma sync_file_steady p : steady P (sync_file p) (λ _, True).
Proof.
  unfold sync_file. eapply steady_bind; [apply steady_look; [intros w q; apply open_law|apply about_view]|].
  intros [e|fd] _; [by apply steady_ret|].
  eapply steady_bind; [apply steady_look; [intros w q; apply fsync_law|apply about_view]|]. intros r _.
  eapply steady_bind; [apply steady_look; [intros w q; apply close_law|apply about_view]|]. intros _ _.
  by apply steady_ret.
Qed.

Lemma same_content_steady a b : steady P (same_content a b) (λ _, True).
Proof.
  intros [st w] Ha. destruct (same_content_spec a b st w) as (r & w' & -> & Hv & _).
  split; [done|]. by apply (about_view st w).
Qed.

Lemma remove_steady p : p = tmp f ∨ p = blob key → steady P (call (os_remove p)) (λ _, True).
Proof. intros Hp. apply steady_call. intros st w. by apply about_remove. Qed.

Lemma status_steady p : steady P (call (os_status p)) (λ _, True).
Proof. apply steady_look; [apply readonly_status|apply about_view]. Qed.

Lemma next_stamp_steady : steady P next_stamp (λ _, True).
Proof.
  unfold next_stamp. eapply steady_bind; [apply steady_look; [intros w q; apply now_law|apply about_view]|].
  intros now _. eapply (steady_bind _ _ _ (λ _, True)); [by intros x Hx|]. intros s _.
  case_decide; [|apply steady_fault].
  eapply steady_bind; [apply steady_modify; intros st w; by apply about_state|]. intros _ _.
  by apply steady_ret.
Qed.

Lemma checkpoint_steady : steady P checkpoint_locked (λ _, True).
Proof.
  intros [st w] Ha. destruct (ab_dirs _ _ _ _ Ha) as (Hb & Ht & _). cbn [store] in Hb, Ht.
  unfold checkpoint_locked, bind, get, ret, fs_write, fs_rename, call, CacheStore.modify. cbn.
  destruct (dirty st); cbn; [|done]. destruct (to_json _) as [json|]; cbn; [|done].
  unfold join. rewrite Ht, Hb. fold manifest.
  change (path_append (tmp_dir (store x0)) manifest) with (tmp manifest).
  pose proof (about_manifest_write json st w Ha) as Ha1.
  destruct (write_law (tmp manifest) json w) as [_ Hj].
  destruct (os_write (tmp manifest) json w) as [[e|] w1]; cbn in *; [done|].
  pose proof (about_manifest_rename json st w1 (Hj eq_refl) Ha1) as Ha2.
  destruct (os_rename (tmp manifest) (path_append (base (store x0)) manifest) w1) as [[e|] w2]; cbn in *;
    [done|]. split; [done|]. by eapply about_state; [..|exact Ha2].
Qed.

Lemma commit_prepare_steady pending :
  p_ns pending = ns → p_tmp_path pending = tmp f → steady P (commit_prepare pending) (λ _, True).
Proof.
  intros Hpn Hpt. unfold commit_prepare. rewrite Hpt, Hpn. case_decide; [apply steady_unexpected|].
  eapply steady_bind; [apply status_steady|]. intros [e|status] _; [apply steady_unexpected|].
  eapply steady_bind; [apply find_steady|]. intros found (n & -> & Hn).
  case_decide; [|by apply steady_ret].
  eapply steady_bind; [apply sync_file_steady|]. intros [e|] _; [|by apply steady_ret].
  eapply steady_bind; [apply remove_steady; by left|]. intros _ _. apply steady_unexpected.
Qed.

Lemma publish_steady n pending status :
  p_key pending = key → p_tmp_path pending = tmp f → like n →
  steady P (publish ns n pending (blob key) status) (λ _, True).
Proof.
  intros Hpk Hpt Hn. unfold publish. rewrite Hpt, Hpk.
  eapply steady_bind; [apply steady_call; intros st w; apply about_rename|].
  intros [err|] _; [|by apply steady_ret].
  eapply steady_bind; [apply same_content_steady|]. intros [|] _.
  - eapply steady_bind; [apply remove_steady; by left|]. intros _ _.
    eapply steady_bind; [apply status_steady|]. intros [e|st'] _; [apply steady_unexpected|].
    by apply steady_ret.
  - eapply steady_bind; [apply remove_steady; by right|]. intros _ _.
    eapply steady_bind; [apply steady_call; intros st w; apply about_rename|].
    intros [err'|] _; [|by apply steady_ret].
    eapply steady_bind; [apply remove_steady; by left|]. intros _ _.
    destruct (entries n !! key) as [e|]; [|apply steady_unexpected].
    eapply steady_bind; [apply status_steady|]. intros [e'|st'] _; [|apply steady_unexpected].
    eapply steady_bind; [apply steady_modify; intros st w; apply about_set_ns|].
    { destruct Hn as (? & ? & Hn). split_and!; [done..|]. intros k Hk. cbn.
      by rewrite lookup_delete_ne; [apply Hn|]. }
    intros _ _. eapply steady_bind; [apply steady_modify; intros st w; by apply about_state|].
    intros _ _. apply steady_unexpected.
Qed.

Lemma commit_steady pending :
  p_ns pending = ns → p_key pending = key → p_tmp_path pending = tmp f →
  steady P (commit pending) (λ _, True).
Proof.
  intros Hpn Hpk Hpt. unfold commit. eapply steady_bind; [by apply commit_prepare_steady|].
  intros status _. eapply (steady_bind _ _ _ (λ _, True)).
  - unfold commit_publish. rewrite Hpn, Hpk. eapply steady_bind; [apply find_steady|].
    intros found (n & -> & Hn). pose proof Hn as (Hcfg & Hdir & Hent).
    replace (blob_path n key) with (blob key) by (unfold blob, blob_path; by rewrite Hcfg, Hdir).
    eapply steady_bind; [by apply publish_steady|]. intros status' _.
    eapply steady_bind; [apply next_stamp_steady|]. intros stamp _.
    rewrite decide_False by (rewrite Hcfg, Hpolicy; done).
    match goal with |- steady _ (bind (ret ?a) ?k) _ => change (steady P (k a) (λ _, True)) end.
    cbv beta. eapply steady_bind; [apply steady_modify; intros st w; apply about_set_ns|].
    { split_and!; [done..|]. intros k Hk. cbn. by rewrite lookup_insert_ne; [apply Hent|]. }
    intros _ _. eapply (steady_bind _ _ _ (λ _, True)); [|intros _ _; by apply steady_ret].
    case_decide; [|by apply steady_ret].
    eapply steady_bind; [apply steady_modify; intros st w; by apply about_state|]. intros _ _.
    apply steady_modify. intros st w. by apply about_state.
  - intros p _. eapply (steady_bind _ _ _ (λ _, True)); [|intros _ _; by apply steady_ret].
    unfold maybe_checkpoint. eapply (steady_bind _ _ _ (λ _, True)); [by intros x Hx|]. intros s _.
    case_decide; [apply checkpoint_steady|by apply steady_ret].
Qed.
End about.
End commits.

(** ** A commit as a step on the blobs *)

Section effect.
Context {W : Type} `{PlatformLaws W}.
Context (ns : bytes) (n0 : Namespace) (st0 : State).
Context (Hl : layout st0) (Hns : ns_layout st0 ns n0).
Context (Hpolicy : ns_policy (config n0) = Persistent).

(** The store is consistent, and the namespace is the one of [n0]. *)
Record registered (x : Sys W) : Prop := {
  rg_disk : D x;
  rg_dirs : base (store x) = base st0 ∧ tmp_dir (store x) = tmp_dir st0 ∧
    self_pid (store x) = self_pid st0;
  rg_ns : ∃ n, namespaces (store x) !! ns = Some n ∧ config n = config n0 ∧ dir n = dir n0;
}.

Definition shelved (k c : bytes) (x : Sys W) : Prop :=
  node_at (world x) (blob_path n0 k) = Some (File c).

(** The name of the temporary file number [i]. *)
Definition tmp_name (i : Z) : bytes := decimal i ++ ns_extension (config n0).
Definition tmp_file (i : Z) : bytes := path_append (tmp_dir st0) (tmp_name i).

(** A blob that waits to be committed. *)
Definition staged (x : Sys W) (p : PendingEntry) (i : Z) (data : bytes) : Prop :=
  p_ns p = ns ∧ 0 ≤ i ∧ good_name (p_key p) ∧ p_tmp_path p = tmp_file i ∧
  node_at (world x) (tmp_file i) = Some (File data).

Lemma tmp_name_good i : 0 ≤ i → good_name (tmp_name i).
Proof. intros Hi. apply good_app; [by apply good_decimal|apply Hns]. Qed.

Lemma tmp_name_not_manifest i : 0 ≤ i → tmp_name i ≠ manifest.
Proof.
  intros Hi Heq. pose proof (decimal_digits i Hi) as Hd. pose proof (decimal_nonempty i Hi) as Hne.
  unfold tmp_name in Heq. destruct (decimal i) as [|d l]; [done|].
  apply Forall_cons in Hd as [Hd _]. vm_compute in Heq. injection Heq as -> _.
  unfold is_digit in Hd. vm_compute in Hd. intuition congruence.
Qed.

Lemma tmp_name_inj i j : 0 ≤ i → 0 ≤ j → tmp_file i = tmp_file j → i = j.
Proof.
  intros Hi Hj Heq. apply append_inj in Heq as [_ Heq]; try (by apply tmp_dir_good);
    try (by apply tmp_name_good). unfold tmp_name in Heq.
  apply (inj (.++ _)) in Heq. by apply decimal_inj.
Qed.

Lemma commit_path p x path x' :
  commit p x = (Ok path, x') →
  ∃ n, namespaces (store x) !! p_ns p = Some n ∧ path = blob_path n (p_key p).
Proof.
  intros Hrun. apply bind_Ok in Hrun as (status & x1 & Hprep & Hrun).
  pose proof (commit_prepare_keeps (λ s, s = store x) p x eq_refl) as Hk. rewrite Hprep in Hk.
  destruct Hk as [_ Hk]. apply bind_Ok in Hrun as (final & x2 & Hpub & Hrun).
  apply bind_Ok in Hrun as ([] & x3 & _ & Hrun). injection Hrun as <- _.
  apply bind_Ok in Hpub as (found & x4 & Hfind & Hpub).
  apply bind_Ok in Hfind as (s & x5 & Hget & Hfind). injection Hget as <- <-. injection Hfind as <- <-.
  rewrite Hk in Hpub. destruct (namespaces (store x) !! p_ns p) as [n|]; [|done].
  exists n. split; [done|]. apply bind_Ok in Hpub as (? & ? & _ & Hpub).
  apply bind_Ok in Hpub as (? & ? & _ & Hpub). apply bind_Ok in Hpub as (? & ? & _ & Hpub).
  apply bind_Ok in Hpub as (? & ? & _ & Hpub). apply bind_Ok in Hpub as (? & ? & _ & Hpub).
  by injection Hpub as <- _.
Qed.

Lemma commit_effect x p i data :
  registered x → staged x p i data →
  let x' := (commit p x).2 in
  (∀ k c, good_name (k ++ ns_extension (config n0)) →
     shelved k c x' → shelved k c x ∨ k = p_key p ∧ c = data) ∧
  (∀ k c, good_name (k ++ ns_extension (config n0)) → k ≠ p_key p →
     shelved k c x → shelved k c x') ∧
  (∀ q j d, 0 ≤ j → j ≠ i → staged x q j d → staged x' q j d) ∧
  match (commit p x).1 with
  | Ok _ => registered x' ∧ shelved (p_key p) data x'
  | Err _ => registered x'
  | _ => True
  end.
Proof.
  intros [HD (Hb & Ht & Hpid) (n & Hn & Hcfg & Hdir)] (Hpn & Hi & Hkey & Hpt & Hdata).
  assert (ns_layout (store x) ns n) as Hlay by (by apply HD).
  assert (ns_policy (config n) = Persistent) as Hpol by (by rewrite Hcfg).
  assert (∀ k, blob_path n k = blob_path n0 k) as Hblob by (intros k; unfold blob_path; by rewrite Hcfg, Hdir).
  assert (key_ok n (p_key p)) as Hkok by (unfold key_ok; apply good_app; [done|apply Hlay]).
  assert (p_tmp_path p = tmp x (tmp_name i)) as Hpt' by (by unfold tmp; rewrite Hpt, Ht).
  pose proof (tmp_name_good i Hi) as Hgood. pose proof (tmp_name_not_manifest i Hi) as Hman.
  assert (about ns x n (p_key p) (tmp_name i) data x) as Hself.
  { split; try done; [by exists n|by left|]. left. by rewrite <- Hpt', Hpt. }
  pose proof (steady_run _ _ _ _ (commit_steady ns x n (proj1 HD) Hlay Hpol (p_key p) (tmp_name i) data
    Hkok Hgood Hman p Hpn eq_refl Hpt') Hself) as Hab.
  pose proof Hab as [_ _ Hbs Hts Hbl _].
  assert (node_at (world x) (p_tmp_path p) = Some (File data)) as Hnode by (by rewrite Hpt).
  destruct x as [st w]. cbn [store world] in *.
  assert (is_tmp st (p_tmp_path p)) as Histmp by (exists (tmp_name i); done).
  pose proof (commit_disk p st w HD Hkey Histmp) as Hcd. rewrite Hnode in Hcd. specialize (Hcd ltac:(done)).
  unfold key_ok, blob in *. rewrite Hcfg in *. unfold shelved.
  split_and!.
  - intros k c Hk Hc. destruct (decide (k = p_key p)) as [->|Hne].
    + rewrite Hblob in Hbl. destruct Hbl as [Heq|[Heq|Heq]]; rewrite Heq in Hc; [by left|done|].
      right. by injection Hc as ->.
    + left. rewrite <- Hc, <- !Hblob. symmetry. by apply Hbs.
  - intros k c Hk Hne Hc. rewrite <- Hc, <- !Hblob. by apply Hbs.
  - intros q j d Hj Hne (? & ? & ? & ? & Hd). split_and!; try done. rewrite <- Hd.
    unfold tmp_file. rewrite <- Ht. apply Hts; [by apply tmp_name_good| |by apply tmp_name_not_manifest].
    intros Heq. apply Hne, tmp_name_inj; try done. unfold tmp_file. by rewrite Heq.
  - assert (∀ x', D x' → about ns (mkSys st w) n (p_key p) (tmp_name i) data x' → registered x') as Hreg.
    { intros x' HD' [(?&?&?) (n' & ? & ? & ? & _) _ _ _ _]. cbn [store] in *.
      split; [done|split_and!; congruence|]. exists n'. split_and!; congruence. }
    unfold wpd in Hcd.
    destruct (commit p (mkSys st w)) as [[path|e| |] x'] eqn:Hrun; cbn [fst snd] in *; [| |done|done].
    + destruct Hcd as (HD' & c & Hc & Hpath). split; [by apply Hreg|].
      destruct (commit_path _ _ _ _ Hrun) as (n' & Hn' & ->). cbn [store] in Hn'. rewrite Hpn, Hn in Hn'.
      injection Hn' as <-. rewrite Hblob in Hpath. congruence.
    + by apply Hreg.
Qed.
End effect.

(** ** Undefined behaviour

    A commit has no other undefined behaviour than the overflow of the logical clock. *)
Section clock.
Context {W : Type} `{Platform W}.

Definition clocked {A} (m : M W A) : Prop :=
  ∀ x, match m x with
       | (Fault, x') => max_i64 ≤ last_stamp (store x')
       | (Stuck, _) => False
       | _ => True
       end.

Lemma clocked_bind {A B} (m : M W A) (k : A → M W B) :
  clocked m → (∀ a, clocked (k a)) → clocked (bind m k).
Proof.
  intros Hm Hk x. specialize (Hm x). unfold bind. destruct (m x) as [[a|e| |] x']; try done. apply Hk.
Qed.

Lemma clocked_ret {A} (a : A) : clocked (ret a).
Proof. done. Qed.
Lemma clocked_call {A} (f : W → A * W) : clocked (call f).
Proof. intros x. unfold call. by destruct (f (world x)). Qed.
Lemma clocked_get : clocked (get : M W State).
Proof. done. Qed.
Lemma clocked_modify f : clocked (CacheStore.modify f : M W unit).
Proof. done. Qed.
Lemma clocked_unexpected {A} e : clocked (unexpected e : M W A).
Proof. done. Qed.

Lemma clocked_next_stamp : clocked (next_stamp : M W Z).
Proof.
  intros x. unfold next_stamp, bind, call, get. destruct (os_now_ms (world x)) as [now w]. cbn.
  case_decide; cbn; [done|]. lia.
Qed.

Ltac clocked_walk :=
  repeat first
    [ apply clocked_next_stamp
    | apply clocked_bind; [|intros ?]
    | apply clocked_ret | apply clocked_call | apply clocked_get | apply clocked_modify
    | apply clocked_unexpected
    | progress unfold find_namespace, sync_file, same_content, fs_read, fs_write, fs_rename,
        maybe_checkpoint, checkpoint_locked
    | match goal with |- clocked (match ?a with _ => _ end) => destruct a end ].

Lemma clocked_evict n keep : clocked (evict_locked n keep).
Proof.
  unfold evict_locked. destruct (_ || _); [apply clocked_ret|].
  generalize (candidates keep (entries n)) as cands. intros cands. revert n.
  induction cands as [|[k e] cands IH]; intros n; cbn [evict_loop]; [apply clocked_ret|].
  case_decide; [apply clocked_ret|]. apply clocked_bind; [apply clocked_call|]. intros [err|]; [apply IH|].
  apply clocked_bind; [apply clocked_modify|]. intros _. apply IH.
Qed.

Lemma clocked_commit pending : clocked (commit pending).
Proof.
  unfold commit, commit_prepare, commit_publish, publish.
  repeat (clocked_walk; try apply clocked_evict).
Qed.
End clock.
