(* ===== verification/WorkerAffinity.v ===== *)
(** * Document affinity of stateful workers (src/server/worker/worker_pool.{h,cpp})

    Each open document is pinned to one stateful worker.  [owner] maps documents
    to workers, every worker counts the documents it owns, and [owner_lru] with
    [owner_lru_index] keep the documents in order of use.  An iterator into the
    [std::list] names a document, so the index is the set of documents that have
    one, and erasing through it removes that document from the list. *)
From S2P Require Import Prelude.
Local Open Scope Z_scope.
Local Open Scope cpp_scope.

Record StatefulWorker := mkStateful {
  sf_alive : bool;
  owned_documents : Z;
}.

Record Affinity := mkAffinity {
  stateful_workers : list StatefulWorker;
  owner : gmap Z nat;
  owner_lru : list Z;
  owner_lru_index : gset Z;
}.

Abbreviation result A := (Res unit A).

Definition size_t (z : Z) : Z := u64 z.

Definition set_owned (f : Z → Z) (w : StatefulWorker) : StatefulWorker :=
  mkStateful (sf_alive w) (size_t (f (owned_documents w))).

(** [stateful_workers[i].owned_documents] changed by [f]. *)
Definition adjust_owned (i : nat) (f : Z → Z) (ws : list StatefulWorker)
  : result (list StatefulWorker) :=
  let? w := read (ws !! i) in Ok (<[i := set_owned f w]> ws).

(** [owner_lru.erase(it)] when the document has an iterator. *)
Definition erase_lru (path_id : Z) (a : Affinity) : list Z :=
  if decide (path_id ∈ owner_lru_index a) then filter (λ p, p ≠ path_id) (owner_lru a)
  else owner_lru a.

(** The loop of [pick_least_loaded] from index [i] on. *)
Fixpoint least_loaded (ws : list StatefulWorker) (i best : nat) (best_w : StatefulWorker) : nat :=
  match ws with
  | [] => best
  | w :: ws =>
    if sf_alive w &&
       (negb (sf_alive best_w) || bool_decide (owned_documents w < owned_documents best_w))
    then least_loaded ws (S i) i w
    else least_loaded ws (S i) best best_w
  end.

(** With no worker at all the result 0 is out of range and its use faults. *)
Definition pick_least_loaded (a : Affinity) : nat :=
  match stateful_workers a with
  | [] => 0
  | w :: ws => least_loaded ws 1 0 w
  end.

Definition assign_worker (path_id : Z) (a : Affinity) : result (Affinity * nat) :=
  match owner a !! path_id with
  | Some i =>
    Ok (mkAffinity (stateful_workers a) (owner a) (path_id :: erase_lru path_id a)
          ({[path_id]} ∪ owner_lru_index a), i)
  | None =>
    let selected := pick_least_loaded a in
    let? ws := adjust_owned selected (λ n, n + 1) (stateful_workers a) in
    Ok (mkAffinity ws (<[path_id := selected]> (owner a)) (path_id :: owner_lru a)
          ({[path_id]} ∪ owner_lru_index a), selected)
  end.

Definition remove_owner (path_id : Z) (a : Affinity) : result Affinity :=
  match owner a !! path_id with
  | None => Ok a
  | Some i =>
    let? ws := adjust_owned i (λ n, n - 1) (stateful_workers a) in
    Ok (mkAffinity ws (delete path_id (owner a)) (erase_lru path_id a)
          (owner_lru_index a ∖ {[path_id]}))
  end.

(** The documents a worker owns, in the order the map is iterated. *)
Definition owned_by (worker_index : nat) (a : Affinity) : list Z :=
  (filter (λ e, e.2 = worker_index) (map_to_list (owner a))).*1.

Definition clear_owner (worker_index : nat) (a : Affinity) : result Affinity :=
  for_each (owned_by worker_index a) remove_owner a.

(** The outcome of [send_stateful] up to the transport: the worker the request
    goes to, or the reason it is refused. *)
Inductive route := NoWorkers | WorkerDown | SentTo (i : nat).

Definition send_stateful (path_id : Z) (a : Affinity) : result (Affinity * route) :=
  match stateful_workers a with
  | [] => Ok (a, NoWorkers)
  | _ =>
    let? r := assign_worker path_id a in
    let? w := read (stateful_workers r.1 !! r.2) in
    Ok (r.1, if sf_alive w then SentTo r.2 else WorkerDown)
  end.

(** The worker a notification goes to, if any. *)
Definition notify_stateful (path_id : Z) (a : Affinity) : result (option nat) :=
  match owner a !! path_id with
  | None => Ok None
  | Some i =>
    let? w := read (stateful_workers a !! i) in
    Ok (if sf_alive w then Some i else None)
  end.

(** [process_crash] of a stateful worker: the documents reported lost. *)
Definition crash_stateful (index : nat) (a : Affinity) : result (Affinity * list Z) :=
  let? w := read (stateful_workers a !! index) in
  let a1 := mkAffinity (<[index := mkStateful false (owned_documents w)]> (stateful_workers a))
              (owner a) (owner_lru a) (owner_lru_index a) in
  let lost_documents := owned_by index a1 in
  let? a2 := clear_owner index a1 in
  Ok (a2, lost_documents).

(** [respawn_worker] of a stateful worker whose process could be started. *)
Definition respawn_stateful (index : nat) (a : Affinity) : result Affinity :=
  let? _ := read (stateful_workers a !! index) in
  Ok (mkAffinity (<[index := mkStateful true 0]> (stateful_workers a))
        (owner a) (owner_lru a) (owner_lru_index a)).

(** [monitor_worker] once a stateful worker's process has ended: the crash is
    processed and, when the slot may restart and its process can be started
    ([respawned]), the slot is filled again in the same turn of the loop. *)
Definition monitor_stateful (index : nat) (respawned : bool) (a : Affinity)
  : result (Affinity * list Z) :=
  let? r := crash_stateful index a in
  if respawned then let? a2 := respawn_stateful index r.1 in Ok (a2, r.2) else Ok r.

(** Starting a stateful worker. *)
Definition spawn_stateful (a : Affinity) : Affinity :=
  mkAffinity (stateful_workers a ++ [mkStateful true 0]) (owner a) (owner_lru a)
    (owner_lru_index a).

Definition empty_affinity : Affinity := mkAffinity [] ∅ [] ∅.

(** ** Runs and their invariant *)

Inductive aff_step : Affinity → Affinity → Prop :=
| st_spawn a : aff_step a (spawn_stateful a)
| st_send p a a' r :
    (** the number of open documents stays within [size_t] *)
    Z.of_nat (size (owner a)) + 1 < two64 →
    send_stateful p a = Ok (a', r) → aff_step a a'
| st_remove p a a' : remove_owner p a = Ok a' → aff_step a a'
| st_exit i respawned a a' lost : monitor_stateful i respawned a = Ok (a', lost) → aff_step a a'.

Definition aff_reachable (a : Affinity) : Prop := rtc aff_step empty_affinity a.

(** How many documents are pinned to worker [i]. *)
Definition load (i : nat) (m : gmap Z nat) : nat := size (filter (λ e, e.2 = i) m).

Record aff_ok (a : Affinity) : Prop := {
  ok_owner p i : owner a !! p = Some i → (i < length (stateful_workers a))%nat;
  ok_load i w : stateful_workers a !! i = Some w → owned_documents w = Z.of_nat (load i (owner a));
  ok_lru_nodup : NoDup (owner_lru a);
  ok_lru p : p ∈ owner_lru a ↔ is_Some (owner a !! p);
  ok_index p : p ∈ owner_lru_index a ↔ is_Some (owner a !! p);
}.

Lemma load_insert i j p m :
  m !! p = None → load i (<[p := j]> m) = ((if decide (j = i) then 1 else 0) + load i m)%nat.
Proof.
  intros Hp. unfold load. case_decide as Hj.
  - rewrite map_filter_insert_True by done. rewrite map_size_insert_None; [done|].
    by rewrite map_lookup_filter_None; left.
  - rewrite map_filter_insert_False by done. by rewrite delete_id.
Qed.

Lemma load_delete i j p m :
  m !! p = Some j → load i m = ((if decide (j = i) then 1 else 0) + load i (delete p m))%nat.
Proof.
  intros Hp. rewrite <- (insert_delete_id m p j Hp) at 1. apply load_insert, lookup_delete_eq.
Qed.

Lemma load_le_size i m : (load i m ≤ size m)%nat.
Proof. apply map_subseteq_size, map_filter_subseteq. Qed.

Lemma erase_lru_spec p q a : aff_ok a → q ∈ erase_lru p a ↔ q ∈ owner_lru a ∧ q ≠ p.
Proof.
  intros Hok. unfold erase_lru. case_decide as Hp.
  - rewrite list_elem_of_filter. naive_solver.
  - rewrite (ok_index _ Hok), <- (ok_lru _ Hok) in Hp.
    split; [|by intros []]. intros Hq. split; [done|]. by intros ->.
Qed.

Lemma erase_lru_nodup p a : aff_ok a → NoDup (erase_lru p a).
Proof.
  intros Hok. unfold erase_lru. case_decide; [apply NoDup_filter|]; apply ok_lru_nodup; done.
Qed.

Lemma adjust_owned_spec i f ws ws' :
  adjust_owned i f ws = Ok ws' →
  (i < length ws)%nat ∧ length ws' = length ws ∧
  ∀ j, ws' !! j = (if decide (j = i) then set_owned f else id) <$> ws !! j.
Proof.
  unfold adjust_owned. destruct (ws !! i) as [w|] eqn:Hw; [|done]. simpl. intros [= <-].
  split_and!; [by eapply lookup_lt_Some|by rewrite length_insert|]. intros j. case_decide as Hj.
  - subst. rewrite list_lookup_insert_eq by (by eapply lookup_lt_Some). by rewrite Hw.
  - rewrite list_lookup_insert_ne by done. by destruct (ws !! j).
Qed.

Lemma adjust_owned_total i f ws :
  (i < length ws)%nat → ∃ ws', adjust_owned i f ws = Ok ws'.
Proof. intros [w Hw]%lookup_lt_is_Some. unfold adjust_owned. rewrite Hw. simpl. eauto. Qed.

Lemma empty_affinity_ok : aff_ok empty_affinity.
Proof.
  split; simpl; [done|done|apply NoDup_nil_2| |]; intros p; rewrite lookup_empty;
    (split; [set_solver|by intros []]).
Qed.

Lemma spawn_ok a : aff_ok a → aff_ok (spawn_stateful a).
Proof.
  intros Hok. pose proof Hok as [Ho Hl Hnd Hlru Hidx]. split; simpl; try done.
  - intros p i Hp. rewrite length_app. simpl. specialize (Ho p i Hp). lia.
  - intros i w Hw. apply lookup_app_Some in Hw as [Hw|[Hle Hw]]; [by apply Hl|].
    apply list_lookup_singleton_Some in Hw as [Hi <-]. simpl.
    assert (filter (λ e, e.2 = i) (owner a) = ∅) as Hnone.
    { apply map_empty. intros p. apply map_lookup_filter_None. right. intros j Hp. simpl.
      intros ->. apply Ho in Hp. lia. }
    unfold load. by rewrite Hnone, map_size_empty.
Qed.

Lemma assign_ok p a a' i :
  aff_ok a → Z.of_nat (size (owner a)) + 1 < two64 → assign_worker p a = Ok (a', i) → aff_ok a'.
Proof.
  intros Hok Hsize. pose proof Hok as [Ho Hl Hnd Hlru Hidx]. unfold assign_worker.
  destruct (owner a !! p) as [j|] eqn:Hp.
  - intros [= <- <-]. split; simpl; try done.
    + apply NoDup_cons. split; [rewrite erase_lru_spec by done; naive_solver|by apply erase_lru_nodup].
    + intros q. rewrite elem_of_cons, erase_lru_spec, Hlru by done.
      destruct (decide (q = p)) as [->|]; [rewrite Hp|]; naive_solver.
    + intros q. rewrite elem_of_union, elem_of_singleton, Hidx.
      destruct (decide (q = p)) as [->|]; [rewrite Hp|]; naive_solver.
  - destruct (adjust_owned _ _ _) as [ws|e| |] eqn:Hadj; simpl; [|done..]. intros [= <- <-].
    apply adjust_owned_spec in Hadj as (Hlt & Hlen & Hws). split; simpl.
    + intros q j. rewrite lookup_insert. case_decide; [|rewrite Hlen; apply Ho].
      intros [= <-]. by rewrite Hlen.
    + intros j w. rewrite Hws, load_insert by done. pose proof (load_le_size j (owner a)).
      destruct (stateful_workers a !! j) as [w0|] eqn:Hw0; [|by case_decide].
      specialize (Hl j w0 Hw0). rewrite (decide_ext (pick_least_loaded a = j) (j = pick_least_loaded a)) by done.
      case_decide; simpl; intros [= <-]; simpl; rewrite Hl; [|done].
      unfold size_t. rewrite u64_small by lia. lia.
    + apply NoDup_cons. split; [|done]. rewrite Hlru, Hp. by intros [].
    + intros q. rewrite elem_of_cons, Hlru, lookup_insert.
      case_decide as Hq; [|naive_solver]. split; [by eauto|by left].
    + intros q. rewrite elem_of_union, elem_of_singleton, Hidx, lookup_insert.
      case_decide as Hq; [|naive_solver]. split; [by eauto|by left].
Qed.

Lemma remove_ok p a : aff_ok a → Z.of_nat (size (owner a)) < two64 →
  ∃ a', remove_owner p a = Ok a' ∧ aff_ok a' ∧ owner a' = delete p (owner a) ∧
        sf_alive <$> stateful_workers a' = sf_alive <$> stateful_workers a.
Proof.
  intros Hok Hsize. pose proof Hok as [Ho Hl Hnd Hlru Hidx]. unfold remove_owner.
  destruct (owner a !! p) as [i|] eqn:Hp.
  2: { exists a. split_and!; [done|done| |done]. by rewrite delete_id. }
  destruct (adjust_owned_total i (λ n, n - 1) (stateful_workers a) (Ho p i Hp)) as [ws Hadj].
  rewrite Hadj. simpl. eexists. split; [done|]. apply adjust_owned_spec in Hadj as (Hlt & Hlen & Hws).
  split_and!; [|done|].
  - split; simpl.
    + intros q j. rewrite lookup_delete_Some, Hlen. intros [_ Hq]. by eapply Ho.
    + intros j w. rewrite Hws. pose proof (load_le_size j (owner a)).
      pose proof (load_delete j i p (owner a) Hp) as Hload.
      destruct (stateful_workers a !! j) as [w0|] eqn:Hw0; [|by case_decide].
      specialize (Hl j w0 Hw0).
      destruct (decide (j = i)) as [->|Hji]; simpl; intros [= <-]; simpl; rewrite Hl, Hload.
      * rewrite decide_True by done. unfold size_t. rewrite u64_small by lia. lia.
      * rewrite decide_False by done. lia.
    + by apply erase_lru_nodup.
    + intros q. rewrite erase_lru_spec, Hlru, lookup_delete by done. case_decide; [|naive_solver].
      subst. split; [by intros [_ ?]|by intros []].
    + intros q. rewrite elem_of_difference, elem_of_singleton, Hidx, lookup_delete.
      case_decide; [|naive_solver]. subst. split; [by intros [_ ?]|by intros []].
  - simpl. apply list_eq. intros j. rewrite !list_lookup_fmap, Hws.
    destruct (decide (j = i)); by destruct (stateful_workers a !! j).
Qed.

Lemma elem_of_owned_by i a p : p ∈ owned_by i a ↔ owner a !! p = Some i.
Proof.
  unfold owned_by. rewrite list_elem_of_fmap. split.
  - intros ([q j] & -> & Hin). apply list_elem_of_filter in Hin as [Hj Hin]. simpl in *. subst.
    by apply elem_of_map_to_list in Hin.
  - intros Hp. exists (p, i). split; [done|]. apply list_elem_of_filter. split; [done|].
    by apply elem_of_map_to_list.
Qed.

(** Clearing a worker drops exactly its documents. *)
Lemma clear_ok i a :
  aff_ok a → Z.of_nat (size (owner a)) < two64 →
  ∃ a', clear_owner i a = Ok a' ∧ aff_ok a' ∧
        (∀ p, owner a' !! p = if decide (owner a !! p = Some i) then None else owner a !! p) ∧
        sf_alive <$> stateful_workers a' = sf_alive <$> stateful_workers a.
Proof.
  intros Hok Hsize. unfold clear_owner.
  destruct (for_each_prefix (E := unit) (λ done_ a',
    aff_ok a' ∧ (∀ p, owner a' !! p = if decide (p ∈ done_) then None else owner a !! p) ∧
    owner a' ⊆ owner a ∧
    sf_alive <$> stateful_workers a' = sf_alive <$> stateful_workers a)
    (owned_by i a) remove_owner a) as (a' & Hrun & Hok' & Hown & _ & Hal).
  - split_and!; [done| |done|done]. intros p. rewrite decide_False; [done|set_solver].
  - intros pre p post a' _ (Hok' & Hown & Hsub & Hal).
    pose proof (map_subseteq_size _ _ Hsub).
    destruct (remove_ok p a' Hok') as (a'' & Hrm & Hok'' & Ho'' & Hal''); [lia|].
    exists a''. split; [done|]. split_and!; [done| | |congruence].
    + intros q. rewrite Ho'', lookup_delete. case_decide as Hq.
      * subst. rewrite decide_True; [done|set_solver].
      * rewrite Hown. destruct (decide (q ∈ pre)); [rewrite decide_True by set_solver|
          rewrite decide_False by set_solver]; done.
    + rewrite Ho''. etrans; [apply delete_subseteq|done].
  - exists a'. split_and!; [done|done| |done]. intros p. rewrite Hown.
    destruct (decide (owner a !! p = Some i)) as [Hp|Hp].
    + rewrite decide_True; [done|]. by apply elem_of_owned_by.
    + rewrite decide_False; [done|]. by rewrite elem_of_owned_by.
Qed.

Lemma crash_ok i a w :
  aff_ok a → Z.of_nat (size (owner a)) < two64 → stateful_workers a !! i = Some w →
  ∃ a', crash_stateful i a = Ok (a', owned_by i a) ∧ aff_ok a' ∧
        (∀ p, owner a' !! p = if decide (owner a !! p = Some i) then None else owner a !! p) ∧
        ∃ w', stateful_workers a' !! i = Some w' ∧ sf_alive w' = false ∧ owned_documents w' = 0.
Proof.
  intros Hok Hsize Hw. unfold crash_stateful. rewrite Hw. simpl.
  set (a1 := mkAffinity _ _ _ _).
  assert (aff_ok a1) as Hok1.
  { destruct Hok as [Ho Hl Hnd Hlru Hidx]. split; simpl; try done.
    - intros p j Hp. rewrite length_insert. by eapply Ho.
    - intros j w' Hj. apply list_lookup_insert_Some in Hj as [(<- & <- & _)|[_ Hj]]; [|by apply Hl].
      by apply (Hl i w). }
  destruct (clear_ok i a1 Hok1 Hsize) as (a' & Hclear & Hok' & Hown & Hal).
  change (owned_by i a1) with (owned_by i a). rewrite Hclear. simpl. exists a'.
  split_and!; [done|done|done|].
  assert (sf_alive <$> stateful_workers a' !! i = Some false) as Hi.
  { rewrite <- list_lookup_fmap, Hal, list_lookup_fmap. simpl.
    by rewrite list_lookup_insert_eq by (by eapply lookup_lt_Some). }
  destruct (stateful_workers a' !! i) as [w'|] eqn:Hw'; simplify_eq/=. exists w'.
  split_and!; [done|done|]. rewrite (ok_load _ Hok' i w' Hw').
  assert (filter (λ e, e.2 = i) (owner a') = ∅) as Hnone.
  { apply map_empty. intros p. apply map_lookup_filter_None. right. intros j. simpl.
    rewrite Hown. case_decide; [done|]. congruence. }
  unfold load. by rewrite Hnone, map_size_empty.
Qed.

Lemma respawn_ok i a a' :
  aff_ok a →
  (∀ w, stateful_workers a !! i = Some w → sf_alive w = false ∧ owned_documents w = 0) →
  respawn_stateful i a = Ok a' → aff_ok a' ∧ owner a' = owner a.
Proof.
  intros [Ho Hl Hnd Hlru Hidx] Hdead. unfold respawn_stateful.
  destruct (stateful_workers a !! i) as [w|] eqn:Hw; simpl; [|done]. intros [= <-].
  split; [|done]. split; simpl; try done.
  - intros p j Hp. rewrite length_insert. by eapply Ho.
  - intros j w' Hj. apply list_lookup_insert_Some in Hj as [(<- & <- & _)|[_ Hj]]; [|by apply Hl].
    simpl. rewrite <- (Hl _ _ Hw). symmetry. by apply Hdead.
Qed.

Lemma monitor_ok i respawned a w :
  aff_ok a → Z.of_nat (size (owner a)) < two64 → stateful_workers a !! i = Some w →
  ∃ a', monitor_stateful i respawned a = Ok (a', owned_by i a) ∧ aff_ok a' ∧
        ∀ p, owner a' !! p = if decide (owner a !! p = Some i) then None else owner a !! p.
Proof.
  intros Hok Hsize Hw.
  destruct (crash_ok i a w Hok Hsize Hw) as (a1 & Hc & Hok1 & Hown & w1 & Hw1 & Hd & H0).
  unfold monitor_stateful. rewrite Hc. destruct respawned; simpl; [|by exists a1].
  assert (is_Some (match respawn_stateful i a1 with Ok a2 => Some a2 | _ => None end))
    as [a2 Ha2] by (unfold respawn_stateful; rewrite Hw1; simpl; eauto).
  destruct (respawn_stateful i a1) as [a2'| | |] eqn:Hr; simplify_eq/=.
  destruct (respawn_ok i a1 a2 Hok1) as [Hok2 Ho2]; [|done|].
  - intros v Hv. rewrite Hw1 in Hv. by simplify_eq.
  - exists a2. split_and!; [done|done|]. intros p. by rewrite Ho2.
Qed.

(** ** Choosing the least loaded worker *)

(** [w] is at least as good a choice as [v]. *)
Definition preferable (w v : StatefulWorker) : Prop :=
  sf_alive v = true → sf_alive w = true ∧ owned_documents w ≤ owned_documents v.

Lemma least_loaded_best pre ws best bw :
  (pre ++ ws) !! best = Some bw → (∀ v, v ∈ pre → preferable bw v) →
  ∃ w, (pre ++ ws) !! least_loaded ws (length pre) best bw = Some w ∧
       ∀ v, v ∈ pre ++ ws → preferable w v.
Proof.
  revert pre best bw. induction ws as [|w ws IH]; intros pre best bw Hb Hpre; cbn [least_loaded].
  { exists bw. split; [done|]. rewrite app_nil_r. done. }
  replace (pre ++ w :: ws) with ((pre ++ [w]) ++ ws) in * by (by rewrite <- app_assoc).
  replace (S (length pre)) with (length (pre ++ [w])) by (rewrite length_app; simpl; lia).
  destruct (_ && _) eqn:Hc.
  - apply andb_true_iff in Hc as [Hal Hc]. apply IH.
    + rewrite lookup_app_l by (rewrite length_app; simpl; lia).
      rewrite lookup_app_r by done. by rewrite Nat.sub_diag.
    + intros v Hv. apply elem_of_app in Hv as [Hv|Hv%list_elem_of_singleton]; [|by subst].
      intros Hval. destruct (Hpre v Hv Hval) as [Hbal Hle]. split; [done|].
      rewrite Hbal in Hc. simpl in Hc. apply bool_decide_eq_true in Hc. lia.
  - apply IH; [done|]. intros v Hv.
    apply elem_of_app in Hv as [Hv|Hv%list_elem_of_singleton]; [by apply Hpre|subst v].
    intros Hval. rewrite Hval in Hc. simpl in Hc. apply orb_false_iff in Hc as [Hb1 Hb2].
    apply negb_false_iff in Hb1. apply bool_decide_eq_false in Hb2. split; [done|lia].
Qed.

Lemma pick_least_loaded_best a :
  stateful_workers a ≠ [] →
  ∃ w, stateful_workers a !! pick_least_loaded a = Some w ∧
       ∀ v, v ∈ stateful_workers a → preferable w v.
Proof.
  intros Hne. unfold pick_least_loaded. destruct (stateful_workers a) as [|w ws]; [done|].
  apply (least_loaded_best [w] ws 0 w); [done|]. intros v Hv%list_elem_of_singleton. by subst.
Qed.

Lemma aff_step_ok a a' :
  aff_step a a' → aff_ok a → Z.of_nat (size (owner a)) < two64 →
  aff_ok a' ∧ Z.of_nat (size (owner a')) < two64.
Proof.
  intros Hstep Hok Hsize.
  destruct Hstep as [a|p a a' r Hfit Hsend|p a a' Hrm|i respawned a a' lost Hc].
  - split; [by apply spawn_ok|done].
  - unfold send_stateful in Hsend.
    destruct (stateful_workers a); [by simplify_eq|].
    destruct (assign_worker p a) as [[a1 i]|e| |] eqn:Has; simpl in Hsend; [|done..].
    destruct (stateful_workers a1 !! i); simpl in Hsend; [|done]. simplify_eq.
    split; [by eapply assign_ok|]. unfold assign_worker in Has.
    destruct (owner a !! p) eqn:Hp; [by simplify_eq/=|].
    destruct (adjust_owned _ _ _); simplify_eq/=. rewrite map_size_insert_None by done. lia.
  - destruct (remove_ok p a Hok Hsize) as (a1 & Hrm' & Hok1 & Ho1 & _).
    assert (a1 = a') as -> by congruence. split; [exact Hok1|]. rewrite Ho1. pose proof (map_subseteq_size _ _ (delete_subseteq (owner a) p)). lia.
  - destruct (stateful_workers a !! i) as [w|] eqn:Hw.
    2: { unfold monitor_stateful, crash_stateful in Hc. by rewrite Hw in Hc. }
    destruct (monitor_ok i respawned a w Hok Hsize Hw) as (a1 & Hc' & Hok1 & Ho1).
    assert (a1 = a') as -> by congruence. split; [exact Hok1|].
    assert (owner a' ⊆ owner a) as Hsub.
    { apply map_subseteq_spec. intros p j. rewrite Ho1. by case_decide. }
    pose proof (map_subseteq_size _ _ Hsub). lia.
Qed.

Lemma aff_reachable_ok a :
  aff_reachable a → aff_ok a ∧ Z.of_nat (size (owner a)) < two64.
Proof.
  unfold aff_reachable. generalize empty_affinity_ok.
  assert (Z.of_nat (size (owner empty_affinity)) < two64) as Hz by done.
  revert Hz. generalize empty_affinity. intros b Hz Hok Hr. revert Hok Hz.
  induction Hr as [|b1 b2 b3 Hstep _ IH]; intros Hok Hz; [done|].
  destruct (aff_step_ok b1 b2 Hstep Hok Hz) as [Hok2 Hz2]. by apply IH.
Qed.

(** ** A sample run *)

Definition sample_affinity : Affinity :=
  mkAffinity [mkStateful true 1; mkStateful true 0] {[7 := 0%nat]} [7] {[7]}.

Lemma sample_affinity_reachable : aff_reachable sample_affinity.
Proof.
  eapply rtc_l; [apply st_spawn|]. eapply rtc_l; [apply st_spawn|].
  apply rtc_once. apply (st_send 7 _ _ (SentTo 0)); vm_compute; reflexivity.
Qed.

(** C34. Document ownership is exact in every run of opening, evicting, crashing
    and respawning: each worker's counter is the number of documents pinned to
    it, no document is pinned to a worker that does not exist, the LRU list holds
    each pinned document exactly once and the index knows exactly those; and when
    a worker crashes, the documents reported lost are exactly its own, and none
    stays pinned to it. *)
Theorem ownership_exact (a : Affinity) (i : nat) (w : StatefulWorker) (respawned : bool) :
  aff_reachable a → stateful_workers a !! i = Some w →
  owned_documents w = Z.of_nat (load i (owner a)) ∧
  (∀ p j, owner a !! p = Some j → (j < length (stateful_workers a))%nat) ∧
  NoDup (owner_lru a) ∧
  (∀ p, p ∈ owner_lru a ↔ is_Some (owner a !! p)) ∧
  (∀ p, p ∈ owner_lru_index a ↔ is_Some (owner a !! p)) ∧
  ∃ a' lost, monitor_stateful i respawned a = Ok (a', lost) ∧
    (∀ p, p ∈ lost ↔ owner a !! p = Some i) ∧
    (∀ p j, owner a' !! p = Some j ↔ owner a !! p = Some j ∧ j ≠ i).
Proof.
  intros Hr Hw. destruct (aff_reachable_ok a Hr) as [Hok Hsize].
  destruct (monitor_ok i respawned a w Hok Hsize Hw) as (a' & Hc & _ & Hown).
  destruct Hok as [Ho Hl Hnd Hlru Hidx].
  split_and!; try done; [by apply Hl|]. exists a', (owned_by i a). split_and!; [done| |].
  - intros p. apply elem_of_owned_by.
  - intros p j. rewrite Hown. case_decide; naive_solver.
Qed.

Lemma ownership_exact_witness :
  owned_documents (mkStateful true 1) = Z.of_nat (load 0 (owner sample_affinity)) ∧
  ∃ a' lost, monitor_stateful 0 true sample_affinity = Ok (a', lost) ∧ 7 ∈ lost.
Proof.
  destruct (ownership_exact sample_affinity 0 (mkStateful true 1) true sample_affinity_reachable)
    as (Hl & _ & _ & _ & _ & a' & lost & Hc & Hlost & _); [reflexivity|].
  split; [exact Hl|]. exists a', lost. split; [exact Hc|]. apply Hlost. reflexivity.
Defined.

(** Routing: a request for a pinned document goes to its worker (or is refused
    because that worker is down), a request for a new one pins it to an alive
    worker with the fewest documents whenever any worker is alive; the document
    becomes the most recently used, every other pin is untouched, and the routine
    never reads out of range. *)
Theorem routing_policy (a : Affinity) (p : Z) :
  aff_reachable a → stateful_workers a ≠ [] →
  ∃ a' i w, send_stateful p a = Ok (a', if sf_alive w then SentTo i else WorkerDown) ∧
    stateful_workers a !! i = Some w ∧
    owner a' = <[p := i]> (owner a) ∧ head (owner_lru a') = Some p ∧
    match owner a !! p with
    | Some j => i = j
    | None => ∀ v, v ∈ stateful_workers a → sf_alive v = true →
                   sf_alive w = true ∧ owned_documents w ≤ owned_documents v
    end.
Proof.
  intros Hr Hne. destruct (aff_reachable_ok a Hr) as [[Ho Hl Hnd Hlru Hidx] _].
  unfold send_stateful, assign_worker.
  destruct (pick_least_loaded_best a Hne) as (w & Hw & Hbest).
  destruct (stateful_workers a) as [|w0 ws0] eqn:Hws; [done|]. rewrite <- Hws in *. clear Hne.
  destruct (owner a !! p) as [j|] eqn:Hp; simpl.
  - destruct (lookup_lt_is_Some_2 (stateful_workers a) j (Ho p j Hp)) as [v Hv].
    rewrite Hv. simpl. eexists _, j, v. split_and!; [done|done| |done|done]. simpl.
    by rewrite insert_id.
  - destruct (adjust_owned_total (pick_least_loaded a) (λ n, n + 1) (stateful_workers a)) as [ws Hadj].
    { by eapply lookup_lt_Some. }
    rewrite Hadj. simpl. apply adjust_owned_spec in Hadj as (_ & _ & Hwsl).
    rewrite Hwsl, Hw, decide_True by done. simpl.
    eexists _, (pick_least_loaded a), w. split_and!; [done|done|done|done|]. intros v Hv Hal.
    by apply Hbest.
Qed.

Lemma routing_policy_witness :
  ∃ a' i w, send_stateful 9 sample_affinity = Ok (a', if sf_alive w then SentTo i else WorkerDown) ∧
    stateful_workers sample_affinity !! i = Some w.
Proof.
  destruct (routing_policy sample_affinity 9 sample_affinity_reachable)
    as (a' & i & w & Hs & Hw & _); [discriminate|].
  exists a', i, w. split; [exact Hs|exact Hw].
Defined.
