(* ===== verification/WorkerPool.v ===== *)
(** * The stateless worker pool (src/server/worker/worker_pool.{h,cpp})

    The scheduler of stateless workers as a state machine: worker slots with
    their counters, the two queues of waiting requests, the concurrency limit of
    low-priority work, dynamic scaling, and the coroutines of the requests.

    A request is a coroutine that suspends in two places, on [pending.ready] and
    on [peer->send_request]; a [Frame] is one suspended there, and the queues hold
    the ids of frames as the code's queues hold pointers to [PendingStateless].
    Setting [ready] makes the coroutine runnable; it runs in a later turn of the
    event loop, so other events may come between.  Workers' processes, replies of
    the transport and the memory figures of the system are inputs of the steps. *)
From Corelib Require Import SpecFloat.
From S2P Require Import Prelude WorkerAffinity.
Local Open Scope Z_scope.
Local Open Scope cpp_scope.

Inductive Priority := High | Low.

Global Instance Priority_eq_dec : EqDecision Priority.
Proof. solve_decision. Defined.

Record WorkerProcess := mkWorker {
  alive : bool;
  busy : bool;
  low_priority : bool;
  restart_count : Z;
  retiring : bool;
  (** [peer != nullptr] *)
  peer : bool;
}.

(** A worker whose process was just started, after [restarts] restarts. *)
Definition fresh_worker (restarts : Z) : WorkerProcess :=
  mkWorker true false false restarts false true.

(** [stateless_workers] with the three counters kept beside it. *)
Record Slots := mkSlots {
  stateless_workers : list WorkerProcess;
  stateless_busy_count : Z;
  low_busy_count : Z;
  alive_stateless_count : Z;
}.

Record Limits := mkLimits {
  low_limit : Z;
  max_low_limit : Z;
  w_max : Z;
  backoff_cooldown : Z;
}.

(** Where a request's coroutine is suspended.  [Queued] and [Woken] are the wait
    of [acquire_stateless_slot], before and after [ready.set()]; [Woken None] is
    [assigned_worker == SIZE_MAX].  [Sent] is the wait for the worker's reply,
    with the generation its [StatelessSlot] captured and its preemption source. *)
Inductive Await :=
| Queued
| Woken (assigned : option (nat * Z))
| Sent (worker_index : nat) (gen : Z) (preempt_src : option nat).

(** The token in [request_options]: none, the caller's, or a preemption source's. *)
Inductive Token := NoToken | CallerToken | SourceToken (src : nat).

Record Frame := mkFrame {
  priority : Priority;
  exclude : option nat;
  token : Token;
  (** attempts left after the current one *)
  attempts : nat;
  await : Await;
}.

Inductive RequestOutcome :=
| Value
| NoStatelessWorkers
| AllWorkersDown
| MemoryPressure
| RetriesExhausted
| Destroyed.

Record Preemption := mkPreemption {
  (** [slot_cancel_sources], with [None] for a null pointer *)
  slot_cancel_sources : list (option nat);
  cancelled : gset nat;
  next_source : nat;
}.

Record PoolOptions := mkOptions {
  max_restarts : Z;
  stateless_count : Z;
  stateful_count : Z;
  min_stateless : Z;
  max_stateless : Z;
}.

Record Pool := mkPool {
  slots : Slots;
  high_queue : list nat;
  low_queue : list nat;
  frames : gmap nat Frame;
  limits : Limits;
  preemption : Preemption;
  saturated_cycles : Z;
  idle_cycles : Z;
  shutting_down : bool;
  options : PoolOptions;
  (** how each finished request ended *)
  outcomes : gmap nat RequestOutcome;
}.

Abbreviation presult A := (Res unit A).

Definition with_slots (s : Slots) (p : Pool) : Pool :=
  mkPool s (high_queue p) (low_queue p) (frames p) (limits p) (preemption p)
    (saturated_cycles p) (idle_cycles p) (shutting_down p) (options p) (outcomes p).
Definition with_waiting (hq lq : list nat) (fr : gmap nat Frame) (p : Pool) : Pool :=
  mkPool (slots p) hq lq fr (limits p) (preemption p)
    (saturated_cycles p) (idle_cycles p) (shutting_down p) (options p) (outcomes p).
Definition with_limits (l : Limits) (p : Pool) : Pool :=
  mkPool (slots p) (high_queue p) (low_queue p) (frames p) l (preemption p)
    (saturated_cycles p) (idle_cycles p) (shutting_down p) (options p) (outcomes p).
Definition with_preemption (c : Preemption) (p : Pool) : Pool :=
  mkPool (slots p) (high_queue p) (low_queue p) (frames p) (limits p) c
    (saturated_cycles p) (idle_cycles p) (shutting_down p) (options p) (outcomes p).
Definition with_cycles (sat idle : Z) (p : Pool) : Pool :=
  mkPool (slots p) (high_queue p) (low_queue p) (frames p) (limits p) (preemption p)
    sat idle (shutting_down p) (options p) (outcomes p).
Definition with_outcome (r : nat) (o : RequestOutcome) (p : Pool) : Pool :=
  mkPool (slots p) (high_queue p) (low_queue p) (frames p) (limits p) (preemption p)
    (saturated_cycles p) (idle_cycles p) (shutting_down p) (options p) (<[r := o]> (outcomes p)).
Definition with_frames (fr : gmap nat Frame) (p : Pool) : Pool :=
  with_waiting (high_queue p) (low_queue p) fr p.

Abbreviation workers p := (stateless_workers (slots p)).

(** ** Slots *)

Definition idle_worker (w : WorkerProcess) : bool := alive w && negb (busy w) && negb (retiring w).

Definition retiring_idle (w : WorkerProcess) : bool := retiring w && alive w && negb (busy w).

Definition count {A} (f : A → bool) (l : list A) : Z := Z.of_nat (length (filter (λ x, f x = true) l)).

(** [pick_idle_stateless]: falling off the loop is [llvm_unreachable]. *)
Fixpoint pick_idle_from (excluded : option nat) (i : nat) (ws : list WorkerProcess) : presult nat :=
  match ws with
  | [] => Fault
  | w :: ws =>
    if bool_decide (Some i ≠ excluded) && idle_worker w then Ok i
    else pick_idle_from excluded (S i) ws
  end.

Definition pick_idle_stateless (excluded : option nat) (s : Slots) : presult nat :=
  pick_idle_from excluded 0 (stateless_workers s).

(** The slot [idx] is handed to a request. *)
Definition occupy (idx : nat) (is_low : bool) (s : Slots) : presult Slots :=
  let? w := read (stateless_workers s !! idx) in
  Ok (mkSlots
        (<[idx := mkWorker (alive w) true is_low (restart_count w) (retiring w) (peer w)]>
           (stateless_workers s))
        (size_t (stateless_busy_count s + 1))
        (if is_low then size_t (low_busy_count s + 1) else low_busy_count s)
        (alive_stateless_count s)).

(** The busy mark of a slot is taken back, with its counters. *)
Definition vacate (idx : nat) (s : Slots) : presult Slots :=
  let? w := read (stateless_workers s !! idx) in
  if busy w then
    Ok (mkSlots
          (<[idx := mkWorker (alive w) false false (restart_count w) (retiring w) (peer w)]>
             (stateless_workers s))
          (size_t (stateless_busy_count s - 1))
          (if low_priority w then size_t (low_busy_count s - 1) else low_busy_count s)
          (alive_stateless_count s))
  else Ok s.

(** ** Waiting requests *)

(** [can_proceed], whose idle count is a [size_t]. *)
Definition idle_seen (excluded : option nat) (s : Slots) : Z :=
  let idle := size_t (alive_stateless_count s - stateless_busy_count s) in
  let idle :=
    match excluded with
    | Some e =>
      match stateless_workers s !! e with
      | Some w => if alive w && negb (busy w) then size_t (idle - 1) else idle
      | None => idle
      end
    | None => idle
    end in
  foldl (λ idle w, if retiring_idle w then size_t (idle - 1) else idle) idle (stateless_workers s).

Definition can_proceed (pr : Priority) (excluded : option nat) (p : Pool) : bool :=
  if bool_decide (idle_seen excluded (slots p) = 0) then false
  else match pr with
       | High => true
       | Low => bool_decide (low_busy_count (slots p) < low_limit (limits p))
       end.

(** [next->ready.set()] with what [next] was given. *)
Definition wake (r : nat) (assigned : option (nat * Z)) (fr : gmap nat Frame)
  : presult (gmap nat Frame) :=
  let? f := read (fr !! r) in
  Ok (<[r := mkFrame (priority f) (exclude f) (token f) (attempts f) (Woken assigned)]> fr).

(** The lambda [dispatch] of [try_dispatch_pending]. *)
Fixpoint dispatch (limit : Z) (is_low : bool) (queue : list nat)
    (idle : Z) (s : Slots) (fr : gmap nat Frame)
  : presult (list nat * Z * Slots * gmap nat Frame) :=
  match queue with
  | [] => Ok ([], idle, s, fr)
  | next :: rest =>
    if bool_decide (0 < idle) && (negb is_low || bool_decide (low_busy_count s < limit)) then
      let? idx := pick_idle_stateless None s in
      let? s1 := occupy idx is_low s in
      let? w := read (stateless_workers s1 !! idx) in
      let? fr1 := wake next (Some (idx, restart_count w)) fr in
      dispatch limit is_low rest (size_t (idle - 1)) s1 fr1
    else Ok (queue, idle, s, fr)
  end.

Definition try_dispatch_pending (p : Pool) : presult Pool :=
  let s := slots p in
  let idle := size_t (size_t (alive_stateless_count s - stateless_busy_count s) -
                      count retiring_idle (stateless_workers s)) in
  let limit := low_limit (limits p) in
  let? (hq, idle, s, fr) := dispatch limit false (high_queue p) idle s (frames p) in
  let? (lq, _, s, fr) := dispatch limit true (low_queue p) idle s fr in
  Ok (with_slots s (with_waiting hq lq fr p)).

Definition fail_pending_requests (p : Pool) : presult Pool :=
  let drain queue fr := for_each queue (λ next, wake next None) fr in
  let? fr := drain (high_queue p) (frames p) in
  let? fr := drain (low_queue p) fr in
  Ok (with_waiting [] [] fr p).

Definition release_stateless_slot (idx : nat) (p : Pool) : presult Pool :=
  match workers p !! idx with
  | None => Ok p
  | Some w =>
    if busy w then
      let c := preemption p in
      let p := with_preemption (mkPreemption (<[idx := None]> (slot_cancel_sources c))
                                  (cancelled c) (next_source c)) p in
      let? s := vacate idx (slots p) in
      try_dispatch_pending (with_slots s p)
    else Ok p
  end.

(** [~StatelessSlot], and the second case of [~PendingStateless]: the slot is
    released only if it has not been crash-replaced. *)
Definition release_if_current (idx : nat) (gen : Z) (p : Pool) : presult Pool :=
  let? w := read (workers p !! idx) in
  if bool_decide (restart_count w = gen) then release_stateless_slot idx p else Ok p.

(** ** Requests *)

Inductive Acquired := PoolDead | Suspended | Acquired_slot (idx : nat).

(** One turn of the loop of [acquire_stateless_slot]. *)
Definition acquire_stateless_slot (pr : Priority) (excluded : option nat) (p : Pool)
  : presult (Pool * Acquired) :=
  if bool_decide (alive_stateless_count (slots p) = 0) then Ok (p, PoolDead)
  else if can_proceed pr excluded p then
    let? idx := pick_idle_stateless None (slots p) in
    let? s := occupy idx (bool_decide (pr = Low)) (slots p) in
    Ok (with_slots s p, Acquired_slot idx)
  else Ok (p, Suspended).

(** The coroutine suspends on [pending.ready], queued by its priority. *)
Definition enqueue (r : nat) (f : Frame) (p : Pool) : Pool :=
  match priority f with
  | High => with_waiting (high_queue p ++ [r]) (low_queue p) (<[r := f]> (frames p)) p
  | Low => with_waiting (high_queue p) (low_queue p ++ [r]) (<[r := f]> (frames p)) p
  end.

(** The body of [send_stateless] once its [StatelessSlot] exists and the worker is
    alive, up to the suspension in [send_request]: a low-priority request installs
    a fresh preemption source. *)
Definition send_request (r : nat) (f : Frame) (idx : nat) (w : WorkerProcess) (p : Pool)
  : presult Pool :=
  if negb (peer w) then Fault
  else
    match priority f with
    | High =>
      Ok (with_frames (<[r := mkFrame High (exclude f) (token f) (attempts f)
                                (Sent idx (restart_count w) None)]> (frames p)) p)
    | Low =>
      let c := preemption p in
      let src := next_source c in
      let tok := match token f with NoToken => SourceToken src | t => t end in
      Ok (with_preemption
            (mkPreemption (<[idx := Some src]> (slot_cancel_sources c)) (cancelled c) (S src))
            (with_frames (<[r := mkFrame Low (exclude f) tok (attempts f)
                                   (Sent idx (restart_count w) (Some src))]> (frames p)) p))
    end.

(** The loop of [send_stateless] with [todo] attempts to go; no frame of [r] is
    stored while its coroutine runs. *)
Fixpoint attempt (todo : nat) (r : nat) (f : Frame) (p : Pool) : presult Pool :=
  match todo with
  | O => Ok (with_outcome r RetriesExhausted p)
  | S todo' =>
    let f := mkFrame (priority f) (exclude f) (token f) todo' Queued in
    let? (p1, a) := acquire_stateless_slot (priority f) (exclude f) p in
    match a with
    | PoolDead => Ok (with_outcome r AllWorkersDown p1)
    | Suspended => Ok (enqueue r f p1)
    | Acquired_slot idx =>
      let? w := read (workers p1 !! idx) in
      if alive w then send_request r f idx w p1
      else let? p2 := release_if_current idx (restart_count w) p1 in attempt todo' r f p2
    end
  end.

Definition send_stateless (r : nat) (pr : Priority) (caller_token : bool) (p : Pool) : presult Pool :=
  match workers p with
  | [] => Ok (with_outcome r NoStatelessWorkers p)
  | _ => attempt 2 r (mkFrame pr None (if caller_token then CallerToken else NoToken) 0 Queued) p
  end.

(** The coroutine continues after [co_await pending.ready.wait()]. *)
Definition resume (r : nat) (p : Pool) : presult Pool :=
  match frames p !! r with
  | Some f =>
    match await f with
    | Woken assigned =>
      let p := with_frames (delete r (frames p)) p in
      match assigned with
      | None => Ok (with_outcome r AllWorkersDown p)
      | Some (idx, gen) =>
        let? w := read (workers p !! idx) in
        if bool_decide (restart_count w = gen) then
          if alive w then send_request r f idx w p
          else let? p2 := release_if_current idx (restart_count w) p in attempt (attempts f) r f p2
        else attempt (S (attempts f)) r f p
      end
    | _ => Ok p
    end
  | None => Ok p
  end.

(** The coroutine continues after [co_await send_request]; the slot's destructor
    runs at the end of the loop body, before the next attempt. *)
Definition reply (r : nat) (has_value : bool) (p : Pool) : presult Pool :=
  match frames p !! r with
  | Some f =>
    match await f with
    | Sent idx gen src =>
      let p := with_frames (delete r (frames p)) p in
      let preempted :=
        match src with Some c => bool_decide (c ∈ cancelled (preemption p)) | None => false end in
      if has_value then release_if_current idx gen (with_outcome r Value p)
      else if preempted then release_if_current idx gen (with_outcome r MemoryPressure p)
      else
        let? p1 := release_if_current idx gen p in
        attempt (attempts f) r
          (mkFrame (priority f) (Some idx) (token f) (attempts f) (await f)) p1
    | _ => Ok p
    end
  | None => Ok p
  end.

(** A request's coroutine is destroyed where it is suspended: the destructors of
    [PendingStateless] and [StatelessSlot] run. *)
Definition destroy (r : nat) (p : Pool) : presult Pool :=
  match frames p !! r with
  | Some f =>
    let p := with_outcome r Destroyed (with_frames (delete r (frames p)) p) in
    match await f with
    | Queued =>
      match priority f with
      | High => Ok (with_waiting (filter (λ x, x ≠ r) (high_queue p)) (low_queue p) (frames p) p)
      | Low => Ok (with_waiting (high_queue p) (filter (λ x, x ≠ r) (low_queue p)) (frames p) p)
      end
    | Woken None => Ok p
    | Woken (Some (idx, gen)) => release_if_current idx gen p
    | Sent idx gen _ => release_if_current idx gen p
    end
  | None => Ok p
  end.

(** ** Limits of low-priority work *)

(** One worker is kept for high-priority requests when there are several. *)
Definition low_ceiling (s : Slots) : Z :=
  if bool_decide (1 < alive_stateless_count s) then size_t (alive_stateless_count s - 1)
  else alive_stateless_count s.

(** [max_low_limit] recomputed after a worker is lost, and [low_limit] capped. *)
Definition shrink_limits (p : Pool) : Pool :=
  let l := limits p in
  let ceiling := low_ceiling (slots p) in
  with_limits (mkLimits (if bool_decide (ceiling < low_limit l) then ceiling else low_limit l)
                 ceiling (w_max l) (backoff_cooldown l)) p.

(** [w_max] remembers the limit a reduction starts from. *)
Definition remember_limit (l : Limits) : Z :=
  if bool_decide (w_max l = 0) || bool_decide (w_max l < low_limit l) then low_limit l else w_max l.

Definition apply_crash_backoff (p : Pool) : Pool :=
  let l := limits p in
  let new_limit := Z.max 1 (size_t (low_limit l * 3) / 4) in
  with_limits
    (if bool_decide (new_limit < low_limit l)
     then mkLimits new_limit (max_low_limit l) (remember_limit l) 3
     else mkLimits (low_limit l) (max_low_limit l) (w_max l) 3) p.

(** ** Crash, respawn, retirement *)

Record WorkerCrashInfo := mkCrashInfo {
  crash_worker_index : nat;
  exit_code : Z;
  exit_signal : Z;
  crash_restart_count : Z;
  will_restart : bool;
}.

(** The process of slot [idx] is gone: no longer alive, counted or busy. *)
Definition lose_worker (idx : nat) (s : Slots) : presult Slots :=
  let? w := read (stateless_workers s !! idx) in
  vacate idx
    (mkSlots
       (<[idx := mkWorker false (busy w) (low_priority w) (restart_count w) (retiring w) (peer w)]>
          (stateless_workers s))
       (stateless_busy_count s) (low_busy_count s) (size_t (alive_stateless_count s - 1))).

(** [process_crash] of a stateless worker, with what [on_crash] is told. *)
Definition process_crash (idx : nat) (status term_signal : Z) (p : Pool)
  : presult (Pool * WorkerCrashInfo) :=
  let? w := read (workers p !! idx) in
  let info := mkCrashInfo idx status term_signal (restart_count w)
                (bool_decide (restart_count w < max_restarts (options p))) in
  let? s := lose_worker idx (slots p) in
  let p := apply_crash_backoff (with_slots s p) in
  let p := if will_restart info then p else shrink_limits p in
  let? p :=
    if bool_decide (alive_stateless_count (slots p) = 0) && negb (will_restart info)
    then fail_pending_requests p else try_dispatch_pending p in
  Ok (p, info).

(** [peer->close()] and the move to [retired_peers]. *)
Definition drop_peer (idx : nat) (s : Slots) : presult Slots :=
  let? w := read (stateless_workers s !! idx) in
  Ok (mkSlots
        (<[idx := mkWorker (alive w) (busy w) (low_priority w) (restart_count w) (retiring w) false]>
           (stateless_workers s))
        (stateless_busy_count s) (low_busy_count s) (alive_stateless_count s)).

(** [respawn_worker]; [spawned] says whether the new process could be started. *)
Definition respawn_worker (idx : nat) (spawned : bool) (p : Pool) : presult (Pool * bool) :=
  let? w := read (workers p !! idx) in
  let old_restart_count := u32 (restart_count w + 1) in
  let? s := drop_peer idx (slots p) in
  if spawned then
    let s := mkSlots (<[idx := fresh_worker old_restart_count]> (stateless_workers s))
               (stateless_busy_count s) (low_busy_count s) (size_t (alive_stateless_count s + 1)) in
    let? p := try_dispatch_pending (with_slots s p) in
    Ok (p, true)
  else Ok (with_slots s p, false).

(** [monitor_worker] of a stateless worker once its process has ended; [None] is
    a failed [proc.wait()]. *)
Definition monitor_worker (idx : nat) (ended : option (Z * Z)) (spawned : bool) (p : Pool)
  : presult Pool :=
  if shutting_down p then Ok p
  else
    let? w := read (workers p !! idx) in
    if retiring w then
      let? s := lose_worker idx (slots p) in
      let? s := drop_peer idx s in
      Ok (shrink_limits (with_slots s p))
    else
      let (status, term_signal) := match ended with Some e => e | None => (0, 9) end in
      let? (p, info) := process_crash idx status term_signal p in
      if will_restart info then
        let? (p, ok) := respawn_worker idx spawned p in
        if ok then Ok p
        else
          let p := shrink_limits p in
          if bool_decide (alive_stateless_count (slots p) = 0) then fail_pending_requests p
          else Ok p
      else Ok p.

(** ** Scaling *)

(** [spawn_worker(..., stateful = false, ...)]. *)
Definition spawn_worker (spawned : bool) (s : Slots) : option Slots :=
  if spawned then
    Some (mkSlots (stateless_workers s ++ [fresh_worker 0]) (stateless_busy_count s)
            (low_busy_count s) (size_t (alive_stateless_count s + 1)))
  else None.

Definition scale_up_worker (spawned : bool) (p : Pool) : presult (Pool * bool) :=
  if shutting_down p then Ok (p, false)
  else if bool_decide (max_stateless (options p) ≤ alive_stateless_count (slots p))
  then Ok (p, false)
  else
    match spawn_worker spawned (slots p) with
    | None => Ok (p, false)
    | Some s =>
      let c := preemption p in
      let p := with_preemption (mkPreemption (slot_cancel_sources c ++ [None]) (cancelled c)
                                  (next_source c)) (with_slots s p) in
      let ceiling := low_ceiling s in
      let p := with_limits (mkLimits ceiling ceiling 0 (backoff_cooldown (limits p))) p in
      let? p := try_dispatch_pending p in
      Ok (p, true)
    end.

(** The highest idle slot, as the downward loop finds it. *)
Fixpoint last_idle (i : nat) (ws : list WorkerProcess) : option nat :=
  match ws with
  | [] => None
  | w :: ws =>
    match last_idle (S i) ws with
    | Some j => Some j
    | None => if idle_worker w then Some i else None
    end
  end.

Definition retire_idle_worker (p : Pool) : presult Pool :=
  if shutting_down p then Ok p
  else
    let s := slots p in
    let pending_retires := count (λ w, retiring w && alive w) (stateless_workers s) in
    if bool_decide (size_t (alive_stateless_count s - pending_retires) ≤ min_stateless (options p))
    then Ok p
    else
      match last_idle 0 (stateless_workers s) with
      | None => Ok p
      | Some target =>
        let? w := read (stateless_workers s !! target) in
        if negb (peer w) then Fault
        else
          Ok (with_slots
                (mkSlots (<[target := mkWorker (alive w) (busy w) (low_priority w)
                                        (restart_count w) true (peer w)]> (stateless_workers s))
                   (stateless_busy_count s) (low_busy_count s) (alive_stateless_count s)) p)
      end.

(** What [kota::sys::memory()] reports, and the available share as a double. *)
Record Memory := mkMemory { total : Z; constrained : Z; available : Z }.

Definition double (z : Z) : spec_float := binary_normalize 53 1024 z 0 false.

(** The literal [n / 100] of the source, correctly rounded. *)
Definition percent (n : Z) : spec_float := SFdiv 53 1024 (double n) (double 100).

Definition effective_total (m : Memory) : Z :=
  if bool_decide (0 < constrained m) && bool_decide (constrained m < total m)
  then constrained m else total m.

Definition ratio (m : Memory) : spec_float :=
  SFdiv 53 1024 (double (available m)) (double (effective_total m)).

Definition scale_up_ticks : Z := 5.
Definition scale_down_ticks : Z := 10.

Definition saturated (p : Pool) : bool :=
  let s := slots p in
  let has_queued := negb (bool_decide (high_queue p = [])) || negb (bool_decide (low_queue p = [])) in
  (bool_decide (stateless_busy_count s = alive_stateless_count s) && has_queued) ||
  (bool_decide (low_limit (limits p) ≤ low_busy_count s) && negb (bool_decide (low_queue p = []))).

(** The two counters of consecutive ticks. *)
Definition count_cycles (p : Pool) : Pool :=
  let has_queued := negb (bool_decide (high_queue p = [])) || negb (bool_decide (low_queue p = [])) in
  if saturated p then with_cycles (u32 (saturated_cycles p + 1)) 0 p
  else if bool_decide (stateless_busy_count (slots p) = 0) && negb has_queued
  then with_cycles 0 (u32 (idle_cycles p + 1)) p
  else with_cycles 0 0 p.

(** Growth after [scale_up_ticks] saturated ticks, if memory allows. *)
Definition grow_if_saturated (mem : Memory) (spawned : bool) (p : Pool) : presult Pool :=
  if bool_decide (scale_up_ticks ≤ saturated_cycles p) then
    let r := if bool_decide (0 < effective_total mem) then ratio mem else double 1 in
    if SFltb (percent 30) r then
      let? (p, up) := scale_up_worker spawned p in
      Ok (if up then with_cycles 0 (idle_cycles p) p else p)
    else Ok p
  else Ok p.

Definition check_scaling (mem : Memory) (spawned : bool) (p : Pool) : presult Pool :=
  if shutting_down p then Ok p
  else
    let? p := grow_if_saturated mem spawned (count_cycles p) in
    if bool_decide (scale_down_ticks ≤ idle_cycles p) then
      let? p := retire_idle_worker p in
      Ok (with_cycles (saturated_cycles p) 0 p)
    else Ok p.

(** [cancel_low_priority_requests]: [n] is how many have been cancelled so far. *)
Fixpoint cancel_from (limit : Z) (i : nat) (ws : list WorkerProcess) (sources : list (option nat))
    (n : Z) (acc : gset nat) : gset nat :=
  match ws with
  | [] => acc
  | w :: ws =>
    if bool_decide (n < limit) then
      match sources !! i with
      | Some (Some src) =>
        if alive w && busy w && low_priority w
        then cancel_from limit (S i) ws sources (n + 1) ({[src]} ∪ acc)
        else cancel_from limit (S i) ws sources n acc
      | _ => cancel_from limit (S i) ws sources n acc
      end
    else acc
  end.

Definition cancel_low_priority_requests (limit : Z) (p : Pool) : Pool :=
  let c := preemption p in
  with_preemption
    (mkPreemption (slot_cancel_sources c)
       (cancel_from limit 0 (workers p) (slot_cancel_sources c) 0 (cancelled c))
       (next_source c)) p.

(** The reduction and recovery of [low_limit] in [monitor_memory]. *)
Definition reduce_limit (l : Limits) : Limits :=
  if bool_decide (0 < backoff_cooldown l)
  then mkLimits (low_limit l) (max_low_limit l) (w_max l) (u32 (backoff_cooldown l - 1))
  else mkLimits (size_t (low_limit l - 1)) (max_low_limit l) (remember_limit l) (backoff_cooldown l).

Definition recover_limit (l : Limits) : Limits :=
  if bool_decide (0 < w_max l) && bool_decide (low_limit l < w_max l) then
    let gap := size_t (w_max l - low_limit l) in
    let increment := Z.max 1 (gap / 2) in
    mkLimits (Z.min (size_t (low_limit l + increment)) (max_low_limit l)) (max_low_limit l) (w_max l) 0
  else
    let limit := size_t (low_limit l + 1) in
    mkLimits limit (max_low_limit l) (if bool_decide (max_low_limit l ≤ limit) then 0 else w_max l) 0.

(** The inner loop of [monitor_memory]: the limit follows the memory. *)
Definition adjust_low_limit (mem : Memory) (p : Pool) : presult Pool :=
  if SFltb (ratio mem) (percent 20) && bool_decide (1 < low_limit (limits p))
  then Ok (with_limits (reduce_limit (limits p)) p)
  else if SFltb (percent 40) (ratio mem) &&
          bool_decide (low_limit (limits p) < max_low_limit (limits p))
  then try_dispatch_pending (with_limits (recover_limit (limits p)) p)
  else Ok p.

(** One turn of [monitor_memory] after its sleep; [mem'] is what the second query
    of [check_scaling] reports. *)
Definition monitor_memory (mem mem' : Memory) (spawned : bool) (p : Pool) : presult Pool :=
  if shutting_down p then Ok p
  else if bool_decide (total mem = 0) then Ok p
  else
    let severe := SFltb (ratio mem) (percent 10) in
    let p :=
      if severe && bool_decide (0 < low_busy_count (slots p))
      then cancel_low_priority_requests (low_busy_count (slots p)) p else p in
    let? p := adjust_low_limit mem p in
    let? p := check_scaling mem' spawned p in
    if severe && bool_decide (min_stateless (options p) < alive_stateless_count (slots p))
    then retire_idle_worker p else Ok p.

(** ** Start and stop *)

Definition empty_slots : Slots := mkSlots [] 0 0 0.

Fixpoint spawn_stateless_workers (n : nat) (i : nat) (spawned : nat → bool) (s : Slots)
  : Slots * bool :=
  match n with
  | O => (s, true)
  | S n =>
    match spawn_worker (spawned i) s with
    | None => (s, false)
    | Some s => spawn_stateless_workers n (S i) spawned s
    end
  end.

Fixpoint spawn_stateful_workers (n : nat) (i : nat) (spawned : nat → bool) (a : Affinity)
  : Affinity * bool :=
  match n with
  | O => (a, true)
  | S n =>
    if spawned i then spawn_stateful_workers n (S i) spawned (spawn_stateful a) else (a, false)
  end.

Definition resolve_options (parallelism : Z) (o : PoolOptions) : PoolOptions :=
  let max := if bool_decide (max_stateless o = 0) then parallelism else max_stateless o in
  let min := if bool_decide (min_stateless o = 0) then 1 else min_stateless o in
  mkOptions (max_restarts o) (stateless_count o) (stateful_count o)
    (Z.min min (stateless_count o)) (Z.max max (stateless_count o)).

Definition new_pool (o : PoolOptions) : Pool :=
  mkPool empty_slots [] [] ∅ (mkLimits 0 0 0 0) (mkPreemption [] ∅ 0) 0 0 false o ∅.

(** [start] on a fresh pool; [spawned] and [spawned_stateful] say which processes
    could be started. *)
Definition start (o : PoolOptions) (parallelism : Z) (spawned spawned_stateful : nat → bool)
  : Pool * Affinity * bool :=
  let p := new_pool o in
  let (s, ok) := spawn_stateless_workers (Z.to_nat (stateless_count o)) 0 spawned (slots p) in
  let p := with_slots s p in
  if negb ok then (p, empty_affinity, false)
  else
    let (a, ok) := spawn_stateful_workers (Z.to_nat (stateful_count o)) 0 spawned_stateful
                     empty_affinity in
    if negb ok then (p, a, false)
    else
      let ceiling := low_ceiling s in
      (mkPool s [] [] ∅ (mkLimits ceiling ceiling 0 0)
         (mkPreemption (replicate (length (stateless_workers s)) None) ∅ 0) 0 0 false
         (resolve_options parallelism o) ∅, a, true).

(** [stop] up to the wait for the monitors. *)
Definition stop (p : Pool) : presult Pool :=
  fail_pending_requests
    (mkPool (slots p) (high_queue p) (low_queue p) (frames p) (limits p) (preemption p)
       (saturated_cycles p) (idle_cycles p) true (options p) (outcomes p)).

(** ** Events

    What can happen next: a request starts, a woken request runs on, a reply
    arrives, a request is destroyed, a live worker's process ends, the memory
    monitor ticks, the pool is stopped. *)
Inductive Event :=
| ESend (r : nat) (pr : Priority) (caller_token : bool)
| EResume (r : nat)
| EReply (r : nat) (has_value : bool)
| EDestroy (r : nat)
| EExit (idx : nat) (ended : option (Z * Z)) (spawned : bool)
| ETick (mem mem' : Memory) (spawned : bool)
| EStop.

Definition handle (e : Event) (p : Pool) : presult Pool :=
  match e with
  | ESend r pr tok => send_stateless r pr tok p
  | EResume r => resume r p
  | EReply r ok => reply r ok p
  | EDestroy r => destroy r p
  | EExit idx ended spawned => monitor_worker idx ended spawned p
  | ETick mem mem' spawned => monitor_memory mem mem' spawned p
  | EStop => stop p
  end.

(** An event that can occur: a request has a fresh id, a process that ends was
    alive, and the number of slots stays within [size_t]. *)
Definition enabled (e : Event) (p : Pool) : bool :=
  match e with
  | ESend r _ _ => bool_decide (frames p !! r = None ∧ outcomes p !! r = None)
  | EExit idx _ _ => match workers p !! idx with Some w => alive w | None => false end
  | ETick _ _ _ => bool_decide (Z.of_nat (length (workers p)) + 1 < two64)
  | _ => true
  end.
