(* ===== verification/WorkerInvariant.v ===== *)
(** * Invariant of the stateless worker pool

    The counters count the workers, a busy slot has exactly one request holding
    its current generation, the queues hold exactly the suspended requests of
    their priority, and the limits fit the number of workers.  Every step keeps
    this, and the bookkeeping steps never fail. *)
From S2P Require Import Prelude WorkerAffinity WorkerPool.
From stdpp Require Import options.
Local Open Scope Z_scope.
Local Open Scope cpp_scope.

(** ** Counting *)

Definition b2z (b : bool) : Z := if b then 1 else 0.

Lemma count_nil {A} (f : A → bool) : count f [] = 0.
Proof. done. Qed.

Lemma count_cons {A} (f : A → bool) x l : count f (x :: l) = b2z (f x) + count f l.
Proof.
  unfold count. rewrite filter_cons. unfold b2z. case_decide as Hf; simpl.
  - rewrite Hf. lia.
  - destruct (f x); [done|]. lia.
Qed.

Lemma count_app {A} (f : A → bool) l k : count f (l ++ k) = count f l + count f k.
Proof. unfold count. rewrite filter_app, length_app. lia. Qed.

Lemma count_nonneg {A} (f : A → bool) l : 0 ≤ count f l.
Proof. unfold count. lia. Qed.

Lemma count_le_length {A} (f : A → bool) l : count f l ≤ Z.of_nat (length l).
Proof. unfold count. pose proof (length_filter (λ x, f x = true) l). lia. Qed.

Lemma count_insert {A} (f : A → bool) l i x y :
  l !! i = Some y → count f (<[i := x]> l) = count f l - b2z (f y) + b2z (f x).
Proof.
  revert i. induction l as [|a l IH]; intros [|i] Hi; simplify_eq/=; rewrite !count_cons; [lia|].
  rewrite (IH i Hi). lia.
Qed.

Lemma count_pos {A} (f : A → bool) l i x : l !! i = Some x → f x = true → 0 < count f l.
Proof.
  revert i. induction l as [|a l IH]; intros [|i] Hi Hf; simplify_eq/=; rewrite count_cons.
  - rewrite Hf. simpl. pose proof (count_nonneg f l). lia.
  - pose proof (IH i Hi Hf). destruct (f a); simpl; lia.
Qed.

Lemma count_zero {A} (f : A → bool) l i x : count f l = 0 → l !! i = Some x → f x = false.
Proof.
  intros Hz Hi. destruct (f x) eqn:Hf; [|done]. pose proof (count_pos f l i x Hi Hf). lia.
Qed.

Lemma count_ext {A} (f g : A → bool) l :
  (∀ i x, l !! i = Some x → f x = g x) → count f l = count g l.
Proof.
  induction l as [|a l IH]; intros Hfg; [done|]. rewrite !count_cons, (Hfg 0%nat a eq_refl), IH; [done|].
  intros i x Hx. by apply (Hfg (S i)).
Qed.

(** ** Well-formed slots *)

Record worker_ok (max : Z) (w : WorkerProcess) : Prop := {
  ok_busy_alive : busy w = true → alive w = true;
  ok_low_busy : low_priority w = true → busy w = true;
  ok_retiring_free : retiring w = true → busy w = false;
  ok_alive_peer : alive w = true → peer w = true;
  ok_restarts : 0 ≤ restart_count w ≤ max;
}.

Record slots_ok (max : Z) (s : Slots) : Prop := {
  ok_workers : ∀ i w, stateless_workers s !! i = Some w → worker_ok max w;
  ok_size : Z.of_nat (length (stateless_workers s)) < two64;
  ok_alive : alive_stateless_count s = count alive (stateless_workers s);
  ok_busy : stateless_busy_count s = count busy (stateless_workers s);
  ok_low : low_busy_count s = count low_priority (stateless_workers s);
}.

Abbreviation idle_count s := (count idle_worker (stateless_workers s)).

(** Alive workers are busy, idle, or idle and retiring. *)
Lemma count_alive_split max ws :
  (∀ i w, ws !! i = Some w → worker_ok max w) →
  count alive ws = count busy ws + count retiring_idle ws + count idle_worker ws.
Proof.
  induction ws as [|w ws IH]; intros Hok; [done|]. rewrite !count_cons, IH.
  2: { intros i v Hv. by apply (Hok (S i) v). }
  destruct (Hok O w eq_refl) as [H1 _ H3 _ _]. unfold retiring_idle, idle_worker.
  destruct (alive w), (busy w), (retiring w); simpl in *; try lia; naive_solver.
Qed.

Lemma slots_ok_idle max s :
  slots_ok max s →
  alive_stateless_count s =
    stateless_busy_count s + count retiring_idle (stateless_workers s) + idle_count s.
Proof. intros [Hw _ -> -> _]. by eapply count_alive_split. Qed.

Lemma slots_ok_bounds max s :
  slots_ok max s →
  0 ≤ alive_stateless_count s < two64 ∧ 0 ≤ stateless_busy_count s < two64 ∧
  0 ≤ low_busy_count s < two64 ∧ 0 ≤ idle_count s < two64.
Proof.
  intros [_ Hs -> -> ->].
  pose proof (count_nonneg alive (stateless_workers s)).
  pose proof (count_nonneg busy (stateless_workers s)).
  pose proof (count_nonneg low_priority (stateless_workers s)).
  pose proof (count_nonneg idle_worker (stateless_workers s)).
  pose proof (count_le_length alive (stateless_workers s)).
  pose proof (count_le_length busy (stateless_workers s)).
  pose proof (count_le_length low_priority (stateless_workers s)).
  pose proof (count_le_length idle_worker (stateless_workers s)).
  lia.
Qed.

Lemma worker_in_bounds max s i w (f : WorkerProcess → bool) :
  slots_ok max s → stateless_workers s !! i = Some w → f w = true →
  0 < count f (stateless_workers s) ≤ Z.of_nat (length (stateless_workers s)).
Proof.
  intros Hok Hw Hf. split; [by eapply count_pos|apply count_le_length].
Qed.

(** Replacing one slot's worker: the three counters follow. *)
Lemma slots_ok_insert max ws bc lc ac i w w' :
  slots_ok max (mkSlots ws bc lc ac) → ws !! i = Some w → worker_ok max w' →
  slots_ok max (mkSlots (<[i := w']> ws)
                  (bc - b2z (busy w) + b2z (busy w'))
                  (lc - b2z (low_priority w) + b2z (low_priority w'))
                  (ac - b2z (alive w) + b2z (alive w'))).
Proof.
  intros [Hw Hs Ha Hb Hl] Hi Hw'. split; simpl in *.
  - intros j v Hj. apply list_lookup_insert_Some in Hj as [(<- & <- & _)|[_ Hj]]; [done|by eapply Hw].
  - by rewrite length_insert.
  - rewrite (count_insert _ _ _ _ _ Hi). lia.
  - rewrite (count_insert _ _ _ _ _ Hi). lia.
  - rewrite (count_insert _ _ _ _ _ Hi). lia.
Qed.

Lemma pick_idle_from_spec i ws :
  0 < count idle_worker ws →
  ∃ j w, pick_idle_from None i ws = Ok (i + j)%nat ∧ ws !! j = Some w ∧ idle_worker w = true.
Proof.
  revert i. induction ws as [|w ws IH]; intros i; [rewrite count_nil; lia|].
  rewrite count_cons. intros Hpos. cbn [pick_idle_from].
  rewrite bool_decide_true by done. simpl. destruct (idle_worker w) eqn:Hw.
  - exists 0%nat, w. split_and!; [f_equal; lia|done|done].
  - destruct (IH (S i) Hpos) as (j & v & Hp & Hv & Hi). exists (S j), v.
    split_and!; [|done|done]. rewrite Hp. f_equal. lia.
Qed.

Lemma pick_idle_spec s :
  0 < idle_count s →
  ∃ i w, pick_idle_stateless None s = Ok i ∧ stateless_workers s !! i = Some w ∧
         idle_worker w = true.
Proof.
  intros Hpos. destruct (pick_idle_from_spec 0 _ Hpos) as (j & w & Hp & Hw & Hi).
  exists j, w. by split_and!.
Qed.

(** A worker marked busy for a request. *)
Definition occupied (is_low : bool) (w : WorkerProcess) : WorkerProcess :=
  mkWorker (alive w) true is_low (restart_count w) (retiring w) (peer w).

Lemma idle_worker_true w :
  idle_worker w = true → alive w = true ∧ busy w = false ∧ retiring w = false.
Proof. unfold idle_worker. destruct (alive w), (busy w), (retiring w); done. Qed.

Lemma occupy_ok max s i w is_low :
  slots_ok max s → stateless_workers s !! i = Some w → idle_worker w = true →
  ∃ s', occupy i is_low s = Ok s' ∧ slots_ok max s' ∧
    stateless_workers s' = <[i := occupied is_low w]> (stateless_workers s) ∧
    idle_count s' = idle_count s - 1 ∧
    low_busy_count s' = low_busy_count s + b2z is_low ∧
    stateless_busy_count s' = stateless_busy_count s + 1 ∧
    alive_stateless_count s' = alive_stateless_count s.
Proof.
  intros Hok Hw Hidle. pose proof (idle_worker_true w Hidle) as (Hal & Hbu & Hre).
  pose proof Hok as [Hwk Hsize Ha Hb Hl]. pose proof (Hwk i w Hw) as [_ K2 _ K4 K5].
  assert (low_priority w = false) as Hlo.
  { destruct (low_priority w); [|done]. naive_solver. }
  unfold occupy. rewrite Hw. simpl. fold (occupied is_low w).
  pose proof (slots_ok_idle max s Hok) as Hsp. pose proof (slots_ok_bounds max s Hok).
  pose proof (worker_in_bounds max s i w _ Hok Hw Hidle).
  pose proof (count_nonneg retiring_idle (stateless_workers s)).
  assert (count low_priority (stateless_workers s) < two64 - 1) as Hlb.
  { pose proof (count_insert low_priority _ i (occupied true w) w Hw) as Hci.
    pose proof (count_le_length low_priority (<[i := occupied true w]> (stateless_workers s))) as Hle.
    rewrite length_insert in Hle. rewrite Hlo in Hci. simpl in Hci. lia. }
  assert (worker_ok max (occupied is_low w)) as Hok'.
  { split; simpl; try done. by rewrite Hre. }
  destruct s as [ws bc lc ac]. simpl in *.
  pose proof (slots_ok_insert max ws bc lc ac i w _ Hok Hw Hok') as Hnew. simpl in Hnew.
  rewrite Hbu, Hlo, Hal in Hnew. simpl in Hnew.
  unfold size_t. rewrite (u64_small (bc + 1)) by lia.
  assert ((if is_low then u64 (lc + 1) else lc) = lc + b2z is_low) as ->.
  { destruct is_low; simpl; [|lia]. rewrite u64_small by lia. lia. }
  replace (bc - 0 + 1) with (bc + 1) in Hnew by lia.
  replace (lc - 0 + b2z is_low) with (lc + b2z is_low) in Hnew by lia.
  replace (ac - 1 + 1) with ac in Hnew by lia.
  eexists. split_and!; [done|done|done| |done|done|done]. simpl.
  rewrite (count_insert _ _ _ _ _ Hw), Hidle. unfold idle_worker. simpl.
  rewrite andb_false_r. simpl. lia.
Qed.

Definition vacated (w : WorkerProcess) : WorkerProcess :=
  mkWorker (alive w) false false (restart_count w) (retiring w) (peer w).

Lemma vacate_ok max s i w :
  slots_ok max s → stateless_workers s !! i = Some w → busy w = true →
  ∃ s', vacate i s = Ok s' ∧ slots_ok max s' ∧
    stateless_workers s' = <[i := vacated w]> (stateless_workers s) ∧
    alive_stateless_count s' = alive_stateless_count s.
Proof.
  intros Hok Hw Hbu. pose proof Hok as [Hwk Hsize Ha Hb Hl].
  pose proof (Hwk i w Hw) as [K1 K2 K3 K4 K5]. pose proof (slots_ok_bounds max s Hok).
  pose proof (worker_in_bounds max s i w _ Hok Hw Hbu).
  unfold vacate. rewrite Hw. simpl. rewrite Hbu. fold (vacated w).
  assert (worker_ok max (vacated w)) as Hok' by (split; simpl; done).
  assert (low_priority w = true → 0 < low_busy_count s) as Hlow.
  { intros Hlo. rewrite Hl. by eapply count_pos. }
  destruct s as [ws bc lc ac]. simpl in *.
  pose proof (slots_ok_insert max ws bc lc ac i w _ Hok Hw Hok') as Hnew. simpl in Hnew.
  rewrite Hbu in Hnew. simpl in Hnew. replace (ac - b2z (alive w) + b2z (alive w)) with ac in Hnew by lia.
  unfold size_t. rewrite (u64_small (bc - 1)) by lia.
  assert ((if low_priority w then u64 (lc - 1) else lc) = lc - b2z (low_priority w)) as ->.
  { destruct (low_priority w); simpl; [|lia]. rewrite u64_small by (naive_solver lia). lia. }
  replace (bc - 1 + 0) with (bc - 1) in Hnew by lia.
  replace (lc - b2z (low_priority w) + 0) with (lc - b2z (low_priority w)) in Hnew by lia.
  eexists. by split_and!.
Qed.

(** ** Who holds a slot *)

(** The slot and generation a suspended request will release. *)
Definition holds (f : Frame) : option (nat * Z) :=
  match await f with
  | Queued => None
  | Woken a => a
  | Sent i g _ => Some (i, g)
  end.

Record own_ok (ws : list WorkerProcess) (fr : gmap nat Frame) : Prop := {
  ok_held : ∀ r f i g, fr !! r = Some f → holds f = Some (i, g) →
    ∃ w, ws !! i = Some w ∧ g ≤ restart_count w ∧
         (restart_count w = g → alive w = true →
          busy w = true ∧ low_priority w = bool_decide (priority f = Low));
  ok_one_holder : ∀ r r' f f' h, fr !! r = Some f → fr !! r' = Some f' →
    holds f = Some h → holds f' = Some h → r = r';
  ok_holder : ∀ i w, ws !! i = Some w → busy w = true →
    ∃ r f, fr !! r = Some f ∧ holds f = Some (i, restart_count w);
}.

(** A slot becomes busy on behalf of a request that held nothing. *)
Lemma own_ok_occupy ws fr i w r f is_low :
  own_ok ws fr → ws !! i = Some w → alive w = true → busy w = false →
  (∀ f0, fr !! r = Some f0 → holds f0 = None) →
  holds f = Some (i, restart_count w) → is_low = bool_decide (priority f = Low) →
  own_ok (<[i := occupied is_low w]> ws) (<[r := f]> fr).
Proof.
  intros [Hh H1 Hb] Hw Hal Hbu Hr Hf ->.
  assert (∀ r' f', fr !! r' = Some f' → holds f' = Some (i, restart_count w) → False) as Hnone.
  { intros r' f' Hf' Hhold. destruct (Hh r' f' i _ Hf' Hhold) as (v & Hv & _ & Hbusy).
    simplify_eq. destruct (Hbusy eq_refl Hal). congruence. }
  split.
  - intros r' f' j g Hl Hhold. apply lookup_insert_Some in Hl as [[<- <-]|[Hne Hl]].
    + rewrite Hf in Hhold. simplify_eq. eexists.
      rewrite list_lookup_insert_eq by (by eapply lookup_lt_Some). by split_and!.
    + destruct (Hh r' f' j g Hl Hhold) as (v & Hv & Hle & Hbusy).
      destruct (decide (j = i)) as [->|Hji].
      * simplify_eq. eexists. rewrite list_lookup_insert_eq by (by eapply lookup_lt_Some).
        split_and!; [done|done|]. simpl. intros <-. by destruct (Hnone r' f').
      * exists v. rewrite list_lookup_insert_ne by done. by split_and!.
  - intros r1 r2 f1 f2 h Hl1 Hl2 Hh1 Hh2.
    apply lookup_insert_Some in Hl1 as [[<- <-]|[Hne1 Hl1]];
      apply lookup_insert_Some in Hl2 as [[<- <-]|[Hne2 Hl2]]; [done| | |by eapply H1].
    + rewrite Hf in Hh1. simplify_eq. by destruct (Hnone r2 f2).
    + rewrite Hf in Hh2. simplify_eq. by destruct (Hnone r1 f1).
  - intros j v Hj Hbj. apply list_lookup_insert_Some in Hj as [(<- & <- & _)|[Hne Hj]].
    + exists r, f. by rewrite lookup_insert_eq.
    + destruct (Hb j v Hj Hbj) as (r' & f' & Hf' & Hhold). exists r', f'.
      rewrite lookup_insert_ne; [done|]. intros <-. by rewrite (Hr _ Hf') in Hhold.
Qed.

(** A request goes away; if its slot is still its own, the slot is free again. *)
Lemma own_ok_vacate ws fr i w r f :
  own_ok ws fr → ws !! i = Some w → fr !! r = Some f → holds f = Some (i, restart_count w) →
  own_ok (<[i := vacated w]> ws) (delete r fr).
Proof.
  intros [Hh H1 Hb] Hw Hr Hf. split.
  - intros r' f' j g Hl Hhold. apply lookup_delete_Some in Hl as [Hne Hl].
    destruct (Hh r' f' j g Hl Hhold) as (v & Hv & Hle & Hbusy).
    destruct (decide (j = i)) as [->|Hji].
    + simplify_eq. eexists. rewrite list_lookup_insert_eq by (by eapply lookup_lt_Some).
      split_and!; [done|done|]. simpl. intros <-. destruct Hne. by eapply H1.
    + exists v. rewrite list_lookup_insert_ne by done. by split_and!.
  - intros r1 r2 f1 f2 h [_ Hl1]%lookup_delete_Some [_ Hl2]%lookup_delete_Some. by eapply H1.
  - intros j v Hj Hbj. apply list_lookup_insert_Some in Hj as [(<- & <- & _)|[Hne Hj]]; [done|].
    destruct (Hb j v Hj Hbj) as (r' & f' & Hf' & Hhold). exists r', f'.
    rewrite lookup_delete_ne; [done|]. intros <-. rewrite Hr in Hf'. simplify_eq.
Qed.

(** A request goes away that holds nothing current. *)
Lemma own_ok_delete ws fr r :
  own_ok ws fr →
  (∀ f i w, fr !! r = Some f → ws !! i = Some w → busy w = true →
            holds f ≠ Some (i, restart_count w)) →
  own_ok ws (delete r fr).
Proof.
  intros [Hh H1 Hb] Hr. split.
  - intros r' f' j g [_ Hl]%lookup_delete_Some. by eapply Hh.
  - intros r1 r2 f1 f2 h [_ Hl1]%lookup_delete_Some [_ Hl2]%lookup_delete_Some. by eapply H1.
  - intros j v Hj Hbj. destruct (Hb j v Hj Hbj) as (r' & f' & Hf' & Hhold). exists r', f'.
    rewrite lookup_delete_ne; [done|]. intros <-. by eapply Hr.
Qed.

(** A request that holds nothing before and after: its frame may be anything. *)
Lemma own_ok_insert ws fr r f :
  own_ok ws fr → (∀ f0, fr !! r = Some f0 → holds f0 = None) → holds f = None →
  own_ok ws (<[r := f]> fr).
Proof.
  intros [Hh H1 Hb] Hr Hf. split.
  - intros r' f' j g [[<- <-]|[_ Hl]]%lookup_insert_Some; [congruence|]. by apply (Hh r').
  - intros r1 r2 f1 f2 h [[<- <-]|[_ Hl1]]%lookup_insert_Some
      [[<- <-]|[_ Hl2]]%lookup_insert_Some; try congruence. by apply H1.
  - intros j v Hj Hbj. destruct (Hb j v Hj Hbj) as (r' & f' & Hf' & Hhold). exists r', f'.
    rewrite lookup_insert_ne; [done|]. intros <-. by rewrite (Hr _ Hf') in Hhold.
Qed.

(** A slot's worker changes without being busy afterwards, in a way that makes no
    held generation current. *)
Lemma own_ok_worker ws fr i w w' :
  own_ok ws fr → ws !! i = Some w → busy w' = false →
  restart_count w ≤ restart_count w' →
  (restart_count w' = restart_count w → alive w' = true → alive w = true ∧ busy w = false) →
  own_ok (<[i := w']> ws) fr.
Proof.
  intros [Hh H1 Hb] Hw Hbu Hre Hsame. split; [|done|].
  - intros r f j g Hl Hhold. destruct (Hh r f j g Hl Hhold) as (v & Hv & Hle & Hbusy).
    destruct (decide (j = i)) as [->|Hji].
    + simplify_eq. eexists. rewrite list_lookup_insert_eq by (by eapply lookup_lt_Some).
      split_and!; [done|lia|]. intros Hg Hal'.
      destruct (Hsame ltac:(lia) Hal') as [Hal Hnb].
      destruct (Hbusy ltac:(lia) Hal). congruence.
    + exists v. rewrite list_lookup_insert_ne by done. by split_and!.
  - intros j v Hj Hbj. apply list_lookup_insert_Some in Hj as [(<- & <- & _)|[Hne Hj]]; [congruence|].
    by apply Hb.
Qed.

Lemma own_ok_app ws fr n :
  own_ok ws fr → own_ok (ws ++ [fresh_worker n]) fr.
Proof.
  intros [Hh H1 Hb]. split; [|done|].
  - intros r f j g Hl Hhold. destruct (Hh r f j g Hl Hhold) as (v & Hv & Hle & Hbusy).
    exists v. split_and!; [by apply lookup_app_l_Some|done|done].
  - intros j v Hj Hbj. apply lookup_app_Some in Hj as [Hj|[_ Hj]]; [by apply Hb|].
    apply list_lookup_singleton_Some in Hj as [_ <-]. done.
Qed.

(** ** Queues *)

Record queue_ok (pr : Priority) (q : list nat) (fr : gmap nat Frame) : Prop := {
  ok_queue_nodup : NoDup q;
  ok_queue : ∀ r, r ∈ q ↔ ∃ f, fr !! r = Some f ∧ await f = Queued ∧ priority f = pr;
}.

(** Changes to a frame that is not queued here, neither before nor after. *)
Lemma queue_ok_insert pr q fr r f :
  queue_ok pr q fr → r ∉ q → (await f ≠ Queued ∨ priority f ≠ pr) → queue_ok pr q (<[r := f]> fr).
Proof.
  intros [Hnd Hq] Hr Hf. split; [done|]. intros x. rewrite Hq.
  destruct (decide (x = r)) as [->|Hne].
  - rewrite lookup_insert_eq. split.
    + intros Hx. exfalso. by apply Hr, Hq.
    + intros (f' & [= <-] & ? & ?). naive_solver.
  - by rewrite lookup_insert_ne by done.
Qed.

Lemma queue_ok_delete pr q fr r :
  queue_ok pr q fr → r ∉ q → queue_ok pr q (delete r fr).
Proof.
  intros [Hnd Hq] Hr. split; [done|]. intros x. rewrite Hq.
  destruct (decide (x = r)) as [->|Hne].
  - rewrite lookup_delete_eq. split.
    + intros Hx. exfalso. by apply Hr, Hq.
    + by intros (f' & ? & ?).
  - by rewrite lookup_delete_ne by done.
Qed.

Lemma queue_ok_pop pr r q fr f :
  queue_ok pr (r :: q) fr → await f ≠ Queued → queue_ok pr q (<[r := f]> fr).
Proof.
  intros [Hnd Hq] Hf. apply NoDup_cons in Hnd as [Hr Hnd]. split; [done|]. intros x.
  destruct (decide (x = r)) as [->|Hne].
  - rewrite lookup_insert_eq. split; [done|]. intros (f' & [= <-] & ? & ?). done.
  - rewrite lookup_insert_ne by done. rewrite <- Hq. set_solver.
Qed.

Lemma queue_ok_push pr r q fr f :
  queue_ok pr q fr → fr !! r = None → await f = Queued → priority f = pr →
  queue_ok pr (q ++ [r]) (<[r := f]> fr).
Proof.
  intros [Hnd Hq] Hr Hf Hp.
  assert (r ∉ q) as Hrq by (intros (f' & Hf' & _)%Hq; congruence). split.
  - apply NoDup_app. split_and!; [done|set_solver|apply NoDup_singleton].
  - intros x. destruct (decide (x = r)) as [->|Hne].
    + rewrite lookup_insert_eq. split; [naive_solver|]. intros _. set_solver.
    + rewrite lookup_insert_ne by done. rewrite <- Hq. set_solver.
Qed.

Lemma queue_ok_erase pr q fr r :
  queue_ok pr q fr → queue_ok pr (filter (λ x, x ≠ r) q) (delete r fr).
Proof.
  intros [Hnd Hq]. split; [by apply NoDup_filter|]. intros x.
  rewrite list_elem_of_filter. destruct (decide (x = r)) as [->|Hne].
  - rewrite lookup_delete_eq. split; [by intros [? _]|by intros (? & ? & _)].
  - rewrite lookup_delete_ne by done. rewrite <- Hq. naive_solver.
Qed.

Lemma not_queued pr q fr r f :
  queue_ok pr q fr → fr !! r = Some f → (await f ≠ Queued ∨ priority f ≠ pr) → r ∉ q.
Proof. intros [_ Hq] Hr Hf (f' & Hf' & ? & ?)%Hq. simplify_eq. naive_solver. Qed.

Lemma not_queued_fresh pr q fr r : queue_ok pr q fr → fr !! r = None → r ∉ q.
Proof. intros [_ Hq] Hr (f' & Hf' & _)%Hq. congruence. Qed.

(** ** The scheduler's invariant *)

Record sched_ok (max : Z) (s : Slots) (hq lq : list nat) (fr : gmap nat Frame) : Prop := {
  ok_slots : slots_ok max s;
  ok_own : own_ok (stateless_workers s) fr;
  ok_hq : queue_ok High hq fr;
  ok_lq : queue_ok Low lq fr;
}.

(** What dispatching leaves of a worker as it was. *)
Definition traits (w : WorkerProcess) : bool * Z * bool * bool :=
  (alive w, restart_count w, retiring w, peer w).

Definition same_traits (s s' : Slots) : Prop :=
  traits <$> stateless_workers s' = traits <$> stateless_workers s.

Lemma same_traits_lookup s s' i w :
  same_traits s s' → stateless_workers s !! i = Some w →
  ∃ w', stateless_workers s' !! i = Some w' ∧ traits w' = traits w.
Proof.
  intros Hs Hw. assert ((traits <$> stateless_workers s') !! i = Some (traits w)) as Hl.
  { rewrite Hs, list_lookup_fmap, Hw. done. }
  rewrite list_lookup_fmap in Hl. apply fmap_Some in Hl as (w' & Hw' & Heq). by exists w'.
Qed.

Lemma same_traits_length s s' :
  same_traits s s' → length (stateless_workers s') = length (stateless_workers s).
Proof. intros Hs%(f_equal length). by rewrite !length_fmap in Hs. Qed.

Definition woken (f : Frame) (a : option (nat * Z)) : Frame :=
  mkFrame (priority f) (exclude f) (token f) (attempts f) (Woken a).

Definition prio (is_low : bool) : Priority := if is_low then Low else High.

(** One round of a dispatch loop: the front request gets an idle worker. *)
Lemma dispatch_one max limit is_low next rest idle s fr other :
  slots_ok max s → own_ok (stateless_workers s) fr →
  queue_ok (prio is_low) (next :: rest) fr → queue_ok (prio (negb is_low)) other fr →
  idle = idle_count s → 0 < idle → (is_low = true → low_busy_count s < limit) →
  ∃ i w f s',
    dispatch limit is_low (next :: rest) idle s fr =
      dispatch limit is_low rest (idle - 1) s' (<[next := woken f (Some (i, restart_count w))]> fr) ∧
    stateless_workers s !! i = Some w ∧ idle_worker w = true ∧ fr !! next = Some f ∧
    slots_ok max s' ∧ stateless_workers s' = <[i := occupied is_low w]> (stateless_workers s) ∧
    own_ok (stateless_workers s') (<[next := woken f (Some (i, restart_count w))]> fr) ∧
    queue_ok (prio is_low) rest (<[next := woken f (Some (i, restart_count w))]> fr) ∧
    queue_ok (prio (negb is_low)) other (<[next := woken f (Some (i, restart_count w))]> fr) ∧
    idle - 1 = idle_count s' ∧ alive_stateless_count s' = alive_stateless_count s.
Proof.
  intros Hs Hown Hq Ho -> Hidle Hlimit.
  destruct (pick_idle_spec s Hidle) as (i & w & Hpick & Hw & Hiw).
  destruct (occupy_ok max s i w is_low Hs Hw Hiw) as (s' & Hoc & Hs' & Hws' & Hid' & _ & _ & Hal').
  destruct (proj1 (ok_queue _ _ _ Hq next) ltac:(set_solver)) as (f & Hf & Haw & Hpr).
  pose proof (idle_worker_true w Hiw) as (Hal & Hbu & _).
  assert (stateless_workers s' !! i = Some (occupied is_low w)) as Hi'.
  { rewrite Hws', list_lookup_insert_eq; [done|]. by eapply lookup_lt_Some. }
  pose proof (slots_ok_bounds max s Hs).
  exists i, w, f, s'. split_and!; try done; try lia.
  - cbn [dispatch]. rewrite bool_decide_true by lia.
    assert (negb is_low || bool_decide (low_busy_count s < limit) = true) as ->.
    { destruct is_low; [|done]. simpl. apply bool_decide_true. by apply Hlimit. }
    simpl. rewrite Hpick. simpl. rewrite Hoc. simpl. rewrite Hi'. simpl.
    unfold wake. rewrite Hf. simpl. unfold size_t. rewrite u64_small by lia. done.
  - rewrite Hws'. apply own_ok_occupy; try done.
    + intros f0 Hf0. simplify_eq. unfold holds. by rewrite Haw.
    + simpl. rewrite Hpr. by destruct is_low.
  - by apply queue_ok_pop.
  - apply queue_ok_insert; [done| |by left].
    eapply not_queued; [done|done|]. right. rewrite Hpr. by destruct is_low.
Qed.

(** A waiting request was woken with a live worker and its generation. *)
Definition served (s : Slots) (fr fr' : gmap nat Frame) (r : nat) : Prop :=
  ∃ f i w, fr !! r = Some f ∧ stateless_workers s !! i = Some w ∧ alive w = true ∧
           fr' !! r = Some (woken f (Some (i, restart_count w))).

Lemma served_traits s s' fr fr' r : same_traits s s' → served s fr fr' r → served s' fr fr' r.
Proof.
  intros Ht (f & i & w & Hf & Hw & Hal & Hf').
  destruct (same_traits_lookup _ _ _ _ Ht Hw) as (w' & Hw' & Htr).
  unfold traits in Htr. injection Htr as Ha Hr _ _. exists f, i, w'.
  split_and!; [done|done|congruence|congruence].
Qed.

(** A dispatch loop hands idle workers to a prefix of its queue and stops when the
    queue, the idle workers or the low-priority allowance is used up. *)
Record dispatched (limit : Z) (is_low : bool) (q q' : list nat) (s s' : Slots)
    (fr fr' : gmap nat Frame) : Prop := {
  dp_traits : same_traits s s';
  dp_alive : alive_stateless_count s' = alive_stateless_count s;
  dp_prefix : ∃ popped, q = popped ++ q' ∧
    (∀ r, r ∈ popped → served s fr fr' r) ∧
    (∀ r, r ∉ popped → fr' !! r = fr !! r);
  dp_stop : q' = [] ∨ idle_count s' = 0 ∨ (is_low = true ∧ limit ≤ low_busy_count s');
}.

Lemma traits_occupied is_low w : traits (occupied is_low w) = traits w.
Proof. done. Qed.

Lemma same_traits_insert s s' i w w' :
  stateless_workers s !! i = Some w → traits w' = traits w →
  stateless_workers s' = <[i := w']> (stateless_workers s) → same_traits s s'.
Proof.
  intros Hw Ht Hs. unfold same_traits. rewrite Hs, list_fmap_insert, Ht.
  apply list_insert_id. by rewrite list_lookup_fmap, Hw.
Qed.

Lemma dispatch_ok max limit is_low q idle s fr other :
  slots_ok max s → own_ok (stateless_workers s) fr →
  queue_ok (prio is_low) q fr → queue_ok (prio (negb is_low)) other fr →
  idle = idle_count s →
  ∃ q' idle' s' fr', dispatch limit is_low q idle s fr = Ok (q', idle', s', fr') ∧
    slots_ok max s' ∧ own_ok (stateless_workers s') fr' ∧
    queue_ok (prio is_low) q' fr' ∧ queue_ok (prio (negb is_low)) other fr' ∧
    idle' = idle_count s' ∧ dispatched limit is_low q q' s s' fr fr'.
Proof.
  revert idle s fr. induction q as [|next rest IH]; intros idle s fr Hs Hown Hq Ho Hid.
  { exists [], idle, s, fr. split_and!; try done. split; [done|done| |by left].
    exists []. split_and!; [done|set_solver|done]. }
  destruct (bool_decide (0 < idle) && (negb is_low || bool_decide (low_busy_count s < limit))) eqn:Hc.
  - apply andb_true_iff in Hc as [Hpos%bool_decide_eq_true Hlim].
    assert (is_low = true → low_busy_count s < limit) as Hlimit.
    { intros ->. simpl in Hlim. by apply bool_decide_eq_true in Hlim. }
    destruct (dispatch_one max limit is_low next rest idle s fr other Hs Hown Hq Ho Hid Hpos Hlimit)
      as (i & w & f & s1 & -> & Hw & Hiw & Hf & Hs1 & Hws1 & Hown1 & Hq1 & Ho1 & Hid1 & Hal1).
    destruct (IH _ _ _ Hs1 Hown1 Hq1 Ho1 Hid1)
      as (q' & idle' & s' & fr' & Hd & Hs' & Hown' & Hq' & Ho' & Hid' & [Ht Ha (popped & -> & Hin & Hout) Hst]).
    assert (same_traits s s1) as Ht1.
    { eapply same_traits_insert; [exact Hw|apply (traits_occupied is_low)|done]. }
    exists q', idle', s', fr'. split_and!; try done. split; [|congruence| |done].
    + etrans; [exact Ht|exact Ht1].
    + apply ok_queue_nodup in Hq. apply NoDup_cons in Hq as [Hnext _].
      exists (next :: popped). split_and!; [done| |].
      * intros r [->|Hr]%elem_of_cons.
        -- exists f, i, w. split_and!; [done|done|by apply idle_worker_true|].
           rewrite Hout by set_solver. by rewrite lookup_insert_eq.
        -- apply (served_traits s1 s); [by symmetry|].
           destruct (Hin r Hr) as (f' & j & v & Hf' & Hv & Hal & Hfr'). exists f', j, v.
           split_and!; [|done|done|done].
           assert (next ≠ r) as Hne by (intros <-; apply Hnext; set_solver).
           by rewrite lookup_insert_ne in Hf' by done.
      * intros r Hr. rewrite Hout by set_solver. rewrite lookup_insert_ne; [done|]. set_solver.
  - exists (next :: rest), idle, s, fr. split_and!; try done.
    + cbn [dispatch]. by rewrite Hc.
    + split; [done|done| |].
      * exists []. split_and!; [done|set_solver|done].
      * right. apply andb_false_iff in Hc as [Hc%bool_decide_eq_false|Hc].
        -- left. pose proof (slots_ok_bounds max s Hs). lia.
        -- right. apply orb_false_iff in Hc as [Hl%negb_false_iff Hc%bool_decide_eq_false].
           split; [done|lia].
Qed.

(** ** The pool's invariant *)

Abbreviation psched p :=
  (sched_ok (max_restarts (options p)) (slots p) (high_queue p) (low_queue p) (frames p)).

Record side_ok (p : Pool) : Prop := {
  ok_options : 0 ≤ max_restarts (options p) < two32;
  ok_sources : length (slot_cancel_sources (preemption p)) = length (workers p);
  ok_ceiling : max_low_limit (limits p) = low_ceiling (slots p);
  ok_limit : 0 ≤ low_limit (limits p) ≤ max_low_limit (limits p);
  ok_limit_pos : 0 < max_low_limit (limits p) → 0 < low_limit (limits p);
  ok_w_max : 0 ≤ w_max (limits p) < two64;
}.

(** No wakeup is lost: a request that excludes no worker is queued only while the
    workers, or the low-priority slots, are used up. *)
Definition starved (pr : Priority) (p : Pool) : Prop :=
  idle_count (slots p) = 0 ∨ (pr = Low ∧ low_limit (limits p) ≤ low_busy_count (slots p)).

Definition lively (p : Pool) : Prop :=
  ∀ r f, r ∈ high_queue p ++ low_queue p → frames p !! r = Some f → exclude f = None →
         starved (priority f) p.

Record pool_ok (p : Pool) : Prop := {
  ok_sched : psched p;
  ok_side : side_ok p;
  ok_lively : lively p;
}.

(** What handing out and releasing slots leaves unchanged. *)
Record evolves (p p' : Pool) : Prop := {
  ev_traits : same_traits (slots p) (slots p');
  ev_alive : alive_stateless_count (slots p') = alive_stateless_count (slots p);
  ev_limits : limits p' = limits p;
  ev_options : options p' = options p;
  ev_down : shutting_down p' = shutting_down p;
  ev_cycles : saturated_cycles p' = saturated_cycles p ∧ idle_cycles p' = idle_cycles p;
  ev_sources : length (slot_cancel_sources (preemption p')) =
               length (slot_cancel_sources (preemption p));
  ev_lively : lively p → lively p';
}.

Lemma side_ok_evolves p p' : side_ok p → evolves p p' → side_ok p'.
Proof.
  intros [H1 H2 H3 H4 H5 H6] [Ht Ha Hl Ho _ _ Hs _]. split; rewrite ?Hl, ?Ho; try done.
  - by rewrite Hs, H2, (same_traits_length _ _ Ht).
  - rewrite H3. unfold low_ceiling. by rewrite Ha.
Qed.

Lemma foldl_retiring ws x :
  0 ≤ x < two64 →
  foldl (λ idle w, if retiring_idle w then size_t (idle - 1) else idle) x ws =
    u64 (x - count retiring_idle ws).
Proof.
  revert x. induction ws as [|w ws IH]; intros x Hx; simpl.
  { rewrite count_nil, Z.sub_0_r. by rewrite u64_small. }
  rewrite count_cons. destruct (retiring_idle w); simpl.
  - rewrite IH by apply u64_range. unfold size_t, u64.
    rewrite Zminus_mod_idemp_l. f_equal; lia.
  - rewrite IH by done. f_equal; lia.
Qed.

(** The idle count [can_proceed] computes, before it is a [size_t]. *)
Definition counted_out (excluded : option nat) (s : Slots) : bool :=
  match excluded ≫= λ e, stateless_workers s !! e with
  | Some w => alive w && negb (busy w)
  | None => false
  end.

Lemma idle_seen_eq max excluded s :
  slots_ok max s → idle_seen excluded s = u64 (idle_count s - b2z (counted_out excluded s)).
Proof.
  intros Hok. pose proof (slots_ok_idle max s Hok) as Hsp. pose proof (slots_ok_bounds max s Hok).
  pose proof (count_nonneg retiring_idle (stateless_workers s)).
  unfold idle_seen, counted_out.
  set (x := alive_stateless_count s - stateless_busy_count s).
  assert (size_t x = x) as Hx by (apply u64_small; lia). rewrite Hx.
  assert (∀ (b : bool), foldl (λ idle w, if retiring_idle w then size_t (idle - 1) else idle)
             (if b then size_t (x - 1) else x) (stateless_workers s) =
           u64 (idle_count s - b2z b)) as Hgen.
  { intros b. rewrite foldl_retiring.
    2: { destruct b; [apply u64_range|lia]. }
    destruct b; simpl; unfold size_t, u64; [rewrite Zminus_mod_idemp_l|]; f_equal; lia. }
  destruct excluded as [e|]; simpl; [|apply (Hgen false)].
  destruct (stateless_workers s !! e) as [w|] eqn:Hw; simpl; [|apply (Hgen false)].
  apply (Hgen (alive w && negb (busy w))).
Qed.

(** The excluded worker is idle but being retired. *)
Definition clashes (excluded : option nat) (s : Slots) : Prop :=
  ∃ e w, excluded = Some e ∧ stateless_workers s !! e = Some w ∧ retiring_idle w = true.

(** When it returns true, there is an idle worker to pick, unless the excluded one
    is subtracted a second time as a retiring one. *)
Lemma can_proceed_idle max pr excluded p :
  slots_ok max (slots p) → can_proceed pr excluded p = true →
  0 < idle_count (slots p) ∨ clashes excluded (slots p).
Proof.
  intros Hok. unfold can_proceed. case_bool_decide as Hz; [done|]. intros _.
  rewrite (idle_seen_eq max) in Hz by done.
  pose proof (count_nonneg idle_worker (workers p)) as Hnn.
  destruct (decide (0 < idle_count (slots p))) as [?|Hzero]; [by left|].
  assert (idle_count (slots p) = 0) as H0 by lia. rewrite H0 in Hz.
  unfold counted_out in Hz. destruct excluded as [e|]; simpl in Hz; [|by rewrite u64_small in Hz].
  destruct (workers p !! e) as [w|] eqn:Hw; simpl in Hz; [|by rewrite u64_small in Hz].
  destruct (alive w && negb (busy w)) eqn:Hab; simpl in Hz; [|by rewrite u64_small in Hz].
  right. exists e, w. split_and!; [done|done|].
  pose proof (count_zero _ _ _ _ H0 Hw) as Hni. unfold idle_worker in Hni. unfold retiring_idle.
  destruct (alive w), (busy w), (retiring w); done.
Qed.

(** The queues and frames dispatching leaves, by the contract of [try_dispatch_pending]. *)
Record dispatch_contract (p : Pool) (s' : Slots) (hq' lq' : list nat) (fr' : gmap nat Frame)
  : Prop := {
  dc_served : ∃ ph pl, high_queue p = ph ++ hq' ∧ low_queue p = pl ++ lq' ∧
    (∀ r, r ∈ ph ++ pl → served (slots p) (frames p) fr' r) ∧
    (∀ r, r ∉ ph ++ pl → fr' !! r = frames p !! r);
  dc_high_first : hq' ≠ [] → idle_count s' = 0 ∧ lq' = low_queue p;
  dc_low_stop : lq' ≠ [] → idle_count s' = 0 ∨ low_limit (limits p) ≤ low_busy_count s';
}.

Lemma idle_for_dispatch max s :
  slots_ok max s →
  size_t (size_t (alive_stateless_count s - stateless_busy_count s) -
          count retiring_idle (stateless_workers s)) = idle_count s.
Proof.
  intros Hok. pose proof (slots_ok_idle max s Hok). pose proof (slots_ok_bounds max s Hok).
  pose proof (count_nonneg retiring_idle (stateless_workers s)).
  unfold size_t. rewrite (u64_small (_ - stateless_busy_count s)) by lia.
  rewrite u64_small by lia. lia.
Qed.

Lemma queues_disjoint hq lq fr r : queue_ok High hq fr → queue_ok Low lq fr → r ∈ hq → r ∉ lq.
Proof.
  intros [_ Hh] Hl (f & Hf & _ & Hp)%Hh. eapply not_queued; [done|done|]. right. by rewrite Hp.
Qed.

Lemma try_dispatch_ok p :
  psched p →
  ∃ s' hq' lq' fr',
    try_dispatch_pending p = Ok (with_slots s' (with_waiting hq' lq' fr' p)) ∧
    sched_ok (max_restarts (options p)) s' hq' lq' fr' ∧
    same_traits (slots p) s' ∧
    alive_stateless_count s' = alive_stateless_count (slots p) ∧
    dispatch_contract p s' hq' lq' fr'.
Proof.
  intros [Hs Hown Hhq Hlq]. unfold try_dispatch_pending.
  rewrite (idle_for_dispatch (max_restarts (options p))) by done.
  destruct (dispatch_ok _ (low_limit (limits p)) false (high_queue p) _ _ _ (low_queue p)
              Hs Hown Hhq Hlq eq_refl)
    as (hq' & i1 & s1 & fr1 & Hd1 & Hs1 & Hown1 & Hhq1 & Hlq1 & Hi1 & [Ht1 Ha1 (pop1 & Hp1 & Hin1 & Hout1) Hst1]).
  destruct (dispatch_ok _ (low_limit (limits p)) true (low_queue p) _ _ _ hq'
              Hs1 Hown1 Hlq1 Hhq1 Hi1)
    as (lq' & i2 & s2 & fr2 & Hd2 & Hs2 & Hown2 & Hlq2 & Hhq2 & Hi2 & [Ht2 Ha2 (pop2 & Hp2 & Hin2 & Hout2) Hst2]).
  rewrite Hd1. simpl. rewrite Hd2. simpl. exists s2, hq', lq', fr2.
  assert (∀ r, r ∈ high_queue p → r ∉ low_queue p) as Hdisj by (intros r; by eapply queues_disjoint).
  split_and!; [done|done| |congruence|].
  { unfold same_traits in *. congruence. }
  split.
  - exists pop1, pop2. split_and!; [done|done| |].
    + intros r [Hr|Hr]%elem_of_app.
      * destruct (Hin1 r Hr) as (f & i & w & Hf & Hw & Hal & Hfr). exists f, i, w.
        split_and!; [done|done|done|]. rewrite Hout2; [done|]. intros Hr2.
        apply (Hdisj r); [rewrite Hp1|rewrite Hp2]; set_solver.
      * apply (served_traits s1); [by symmetry|].
        destruct (Hin2 r Hr) as (f & i & w & Hf & Hw & Hal & Hfr). exists f, i, w.
        split_and!; [|done|done|done]. rewrite <- Hout1; [done|]. intros Hr1.
        apply (Hdisj r); [rewrite Hp1|rewrite Hp2]; set_solver.
    + intros r [Hh Hl]%not_elem_of_app. by rewrite Hout2, Hout1.
  - intros Hne. destruct Hst1 as [?|[H0|[? _]]]; [done| |done].
    rewrite Hi1, H0 in Hd2. destruct (low_queue p); simpl in Hd2; by simplify_eq.
  - intros Hne. destruct Hst2 as [?|[H0|[_ H0]]]; [done|by left|by right].
Qed.

Lemma evolves_refl p p' :
  slots p' = slots p → limits p' = limits p → options p' = options p →
  shutting_down p' = shutting_down p → saturated_cycles p' = saturated_cycles p →
  idle_cycles p' = idle_cycles p →
  length (slot_cancel_sources (preemption p')) = length (slot_cancel_sources (preemption p)) →
  (lively p → lively p') → evolves p p'.
Proof. intros Hs Hl Ho Hd Hsat Hid Hsrc Hli. split; rewrite ?Hs; try done. Qed.

Lemma lively_frames p p' :
  slots p' = slots p → limits p' = limits p →
  (∀ r f', r ∈ high_queue p' ++ low_queue p' → frames p' !! r = Some f' →
           r ∈ high_queue p ++ low_queue p ∧ frames p !! r = Some f') →
  lively p → lively p'.
Proof.
  intros Hs Hl Hq Hli r f Hr Hf Hex. destruct (Hq r f Hr Hf) as [Hr' Hf'].
  unfold starved. rewrite Hs, Hl. by apply (Hli r f).
Qed.

Lemma lively_drained p : high_queue p = [] → low_queue p = [] → lively p.
Proof. intros Hh Hl r f. rewrite Hh, Hl. set_solver. Qed.

Lemma evolves_trans p1 p2 p3 : evolves p1 p2 → evolves p2 p3 → evolves p1 p3.
Proof.
  intros [T1 A1 L1 O1 D1 [C1 C1'] S1 V1] [T2 A2 L2 O2 D2 [C2 C2'] S2 V2].
  split; unfold same_traits in *; try congruence; [split; congruence|auto].
Qed.

Lemma dispatch_evolves p :
  psched p →
  ∃ p', try_dispatch_pending p = Ok p' ∧ psched p' ∧ evolves p p' ∧
        (∀ r, frames p !! r = None → frames p' !! r = None) ∧ lively p'.
Proof.
  intros Hok. destruct (try_dispatch_ok p Hok)
    as (s' & hq' & lq' & fr' & Hd & Hok' & Ht & Ha & [(ph & pl & Hph & Hpl & _ & Hothers) Hh Hl]).
  assert (lively (with_slots s' (with_waiting hq' lq' fr' p))) as Hli.
  { intros r f Hr Hf _. unfold starved. simpl in *. destruct Hok' as [_ _ [_ Hhq] [_ Hlq]].
    apply elem_of_app in Hr as [Hr|Hr].
    - left. apply Hh. intros ->. by apply not_elem_of_nil in Hr.
    - pose proof Hr as (f' & Hf' & _ & Hp)%Hlq. simplify_eq. rewrite Hp.
      destruct Hl as [?|?]; [intros ->; by apply not_elem_of_nil in Hr|by left|by right]. }
  eexists. split_and!; [done|done|by split| |done]. intros r Hr. simpl.
  rewrite Hothers; [done|]. destruct Hok as [_ _ Hhq Hlq].
  apply (not_queued_fresh _ _ _ _ Hhq) in Hr as Hnh. apply (not_queued_fresh _ _ _ _ Hlq) in Hr as Hnl.
  rewrite Hph in Hnh. rewrite Hpl in Hnl. rewrite not_elem_of_app in Hnh, Hnl |- *. tauto.
Qed.

(** ** Waking everyone *)

Lemma drain_ok ws pr pr' q other fr :
  pr ≠ pr' → own_ok ws fr → queue_ok pr q fr → queue_ok pr' other fr →
  ∃ fr', for_each q (λ next, wake (next) None) fr = (Ok fr' : presult _) ∧
    own_ok ws fr' ∧ queue_ok pr [] fr' ∧ queue_ok pr' other fr' ∧
    (∀ r, r ∈ q → ∃ f, fr !! r = Some f ∧ fr' !! r = Some (woken f None)) ∧
    (∀ r, r ∉ q → fr' !! r = fr !! r).
Proof.
  intros Hpr. revert fr. induction q as [|r q IH]; intros fr Hown Hq Ho; simpl.
  { exists fr. split_and!; try done. set_solver. }
  destruct (proj1 (ok_queue _ _ _ Hq r) ltac:(set_solver)) as (f & Hf & Haw & Hp).
  unfold wake at 1. rewrite Hf. simpl. fold (woken f None).
  destruct (IH (<[r := woken f None]> fr)) as (fr' & Hfr' & Hown' & Hq' & Ho' & Hin & Hout).
  - apply own_ok_insert; [done| |done]. intros f0 Hf0. simplify_eq. unfold holds. by rewrite Haw.
  - by apply queue_ok_pop.
  - apply queue_ok_insert; [done| |by left]. eapply not_queued; [done|done|]. right. congruence.
  - apply ok_queue_nodup in Hq. apply NoDup_cons in Hq as [Hr _].
    exists fr'. split_and!; try done.
    + intros x [->|Hx]%elem_of_cons.
      * exists f. split; [done|]. rewrite Hout by done. by rewrite lookup_insert_eq.
      * destruct (Hin x Hx) as (f' & Hf' & Hw). exists f'. split; [|done].
        assert (r ≠ x) as Hne by (by intros <-). by rewrite lookup_insert_ne in Hf' by done.
    + intros x [Hne Hx]%not_elem_of_cons. rewrite Hout by done. by rewrite lookup_insert_ne.
Qed.

Lemma fail_pending_ok p :
  psched p →
  ∃ p', fail_pending_requests p = Ok p' ∧ psched p' ∧ evolves p p' ∧
    high_queue p' = [] ∧ low_queue p' = [] ∧ slots p' = slots p ∧ outcomes p' = outcomes p ∧
    (∀ r, r ∈ high_queue p ∨ r ∈ low_queue p →
          ∃ f, frames p !! r = Some f ∧ frames p' !! r = Some (woken f None)) ∧
    (∀ r, r ∉ high_queue p → r ∉ low_queue p → frames p' !! r = frames p !! r).
Proof.
  intros [Hs Hown Hhq Hlq]. unfold fail_pending_requests.
  assert (∀ r, r ∈ high_queue p → r ∉ low_queue p) as Hdisj by (intros r; by eapply queues_disjoint).
  destruct (drain_ok _ High Low _ _ _ ltac:(done) Hown Hhq Hlq)
    as (fr1 & Hd1 & Hown1 & Hhq1 & Hlq1 & Hin1 & Hout1).
  destruct (drain_ok _ Low High _ _ _ ltac:(done) Hown1 Hlq1 Hhq1)
    as (fr2 & Hd2 & Hown2 & Hlq2 & Hhq2 & Hin2 & Hout2).
  simpl. rewrite Hd1. simpl. rewrite Hd2. simpl. eexists.
  split; [done|]. split; [done|]. split; [apply evolves_refl; try done; intros _; by apply lively_drained|]. simpl.
  split_and!; [done|done|done|done| |].
  - intros r [Hr|Hr].
    + destruct (Hin1 r Hr) as (f & Hf & Hfr). exists f. split; [done|]. by rewrite Hout2 by auto.
    + destruct (Hin2 r Hr) as (f & Hf & Hfr). exists f. split; [|done].
      rewrite <- Hout1; [done|]. intros Hr'. by apply (Hdisj r).
  - intros r Hh Hl. by rewrite Hout2, Hout1 by done.
Qed.

(** ** Releasing *)

(** A request's coroutine is taken off the waiting structures to run or to end. *)
Lemma psched_drop p r f :
  psched p → frames p !! r = Some f → await f ≠ Queued →
  (∀ i w, workers p !! i = Some w → busy w = true → holds f ≠ Some (i, restart_count w)) →
  sched_ok (max_restarts (options p)) (slots p) (high_queue p) (low_queue p) (delete r (frames p)).
Proof.
  intros [Hs Hown Hhq Hlq] Hf Haw Hno. split; [done| | |].
  - apply own_ok_delete; [done|]. intros f' i w Hf'. simplify_eq. apply Hno.
  - apply queue_ok_delete; [done|]. eapply not_queued; [done|done|by left].
  - apply queue_ok_delete; [done|]. eapply not_queued; [done|done|by left].
Qed.

Lemma release_ok p p1 r f i g :
  psched p → frames p !! r = Some f → holds f = Some (i, g) →
  slots p1 = slots p → high_queue p1 = high_queue p → low_queue p1 = low_queue p →
  options p1 = options p → frames p1 = delete r (frames p) →
  ∃ p2, release_if_current i g p1 = Ok p2 ∧ psched p2 ∧ evolves p1 p2 ∧ frames p2 !! r = None.
Proof.
  intros Hok Hf Hh Es Ehq Elq Eo Ef.
  assert (await f ≠ Queued) as Haw by (intros Hq; unfold holds in Hh; by rewrite Hq in Hh).
  pose proof Hok as [Hs Hown Hhq Hlq].
  destruct (ok_held _ _ Hown r f i g Hf Hh) as (w & Hw & Hle & _).
  assert (frames p1 !! r = None) as Hnone by (by rewrite Ef, lookup_delete_eq).
  assert ((∀ j v, workers p !! j = Some v → busy v = true → holds f ≠ Some (j, restart_count v)) →
          psched p1) as Hdrop.
  { intros Hno. rewrite Es, Ehq, Elq, Eo, Ef. by eapply psched_drop. }
  unfold release_if_current. rewrite Es, Hw. simpl.
  case_bool_decide as Hg.
  2: { exists p1. split_and!; [done| |by apply evolves_refl|done]. apply Hdrop.
       intros j v Hj _ Heq. rewrite Hh in Heq. simplify_eq. }
  subst g. unfold release_stateless_slot. rewrite Es, Hw. destruct (busy w) eqn:Hbw.
  2: { exists p1. split_and!; [done| |by apply evolves_refl|done]. apply Hdrop.
       intros j v Hj Hbv Heq. rewrite Hh in Heq. injection Heq as -> _. congruence. }
  destruct (vacate_ok _ _ i w Hs Hw Hbw) as (s' & Hv & Hs' & Hws' & Hal').
  simpl. rewrite Es, Hv. simpl.
  match goal with |- context [try_dispatch_pending ?q] => set (p' := q) end.
  destruct (dispatch_evolves p') as (p2 & Hd & Hok2 & Hev & Hfr & Hli2).
  { subst p'. simpl. rewrite Ehq, Elq, Eo, Ef. split; [done| | |].
    - rewrite Hws'. by eapply own_ok_vacate.
    - apply queue_ok_delete; [done|]. eapply not_queued; [done|done|by left].
    - apply queue_ok_delete; [done|]. eapply not_queued; [done|done|by left]. }
  exists p2. split_and!; [done|done| |by apply Hfr].
  destruct Hev as [Et Ea El Eop Ed Ec Esr _]. subst p'. split; simpl in *; try done.
  - etrans; [exact Et|]. eapply same_traits_insert; [by rewrite Es| |by rewrite Es]. done.
  - by rewrite Ea, Es.
  - by rewrite Esr, length_insert.
Qed.
