(* ===== verification/WorkerRequests.v ===== *)
(** * Requests to the stateless pool keep its invariant

    [send_stateless], the continuations after its two suspension points and the
    destruction of a suspended request. *)
From S2P Require Import Prelude WorkerAffinity WorkerPool WorkerInvariant.
From stdpp Require Import options.
Local Open Scope Z_scope.
Local Open Scope cpp_scope.

(** ** Acquiring *)

Inductive acquire_result (pr : Priority) (excluded : option nat) (p : Pool)
  : presult (Pool * Acquired) → Prop :=
| ar_dead : alive_stateless_count (slots p) = 0 → acquire_result pr excluded p (Ok (p, PoolDead))
| ar_wait : can_proceed pr excluded p = false → acquire_result pr excluded p (Ok (p, Suspended))
| ar_slot i w s' :
    workers p !! i = Some w → idle_worker w = true →
    slots_ok (max_restarts (options p)) s' →
    stateless_workers s' = <[i := occupied (bool_decide (pr = Low)) w]> (workers p) →
    alive_stateless_count s' = alive_stateless_count (slots p) →
    acquire_result pr excluded p (Ok (with_slots s' p, Acquired_slot i))
| ar_fault : clashes excluded (slots p) → acquire_result pr excluded p Fault.

Lemma pick_idle_none s : idle_count s = 0 → pick_idle_stateless None s = Fault.
Proof.
  unfold pick_idle_stateless. generalize 0%nat. induction (stateless_workers s) as [|w ws IH];
    intros i Hz; [done|]. rewrite count_cons in Hz. pose proof (count_nonneg idle_worker ws).
  cbn [pick_idle_from]. destruct (idle_worker w); simpl in Hz; [lia|].
  rewrite andb_false_r. apply IH. lia.
Qed.

Lemma acquire_ok pr excluded p :
  slots_ok (max_restarts (options p)) (slots p) →
  acquire_result pr excluded p (acquire_stateless_slot pr excluded p).
Proof.
  intros Hs. unfold acquire_stateless_slot.
  destruct (decide (alive_stateless_count (slots p) = 0)) as [Hz|Hz].
  { rewrite bool_decide_true by done. by apply ar_dead. }
  rewrite bool_decide_false by done.
  destruct (can_proceed pr excluded p) eqn:Hc; [|by apply ar_wait].
  pose proof (count_nonneg idle_worker (workers p)).
  destruct (decide (idle_count (slots p) = 0)) as [Hi|Hi].
  - rewrite pick_idle_none by done. apply ar_fault.
    destruct (can_proceed_idle _ _ _ _ Hs Hc) as [Hpos|Hcl]; [lia|done].
  - destruct (pick_idle_spec (slots p) ltac:(lia)) as (i & w & Hp & Hw & Hid).
    rewrite Hp. simpl.
    destruct (occupy_ok _ _ i w (bool_decide (pr = Low)) Hs Hw Hid)
      as (s' & Hoc & Hs' & Hws & _ & _ & _ & Hal).
    rewrite Hoc. simpl. by eapply ar_slot.
Qed.

(** ** Sending *)

Lemma send_request_spec r f i w p :
  peer w = true → r ∉ high_queue p ++ low_queue p →
  ∃ f' p', send_request r f i w p = Ok p' ∧
    frames p' = <[r := f']> (frames p) ∧ holds f' = Some (i, restart_count w) ∧
    priority f' = priority f ∧ exclude f' = exclude f ∧ await f' ≠ Queued ∧
    slots p' = slots p ∧ high_queue p' = high_queue p ∧ low_queue p' = low_queue p ∧
    evolves p p'.
Proof.
  intros Hpe Hnq. unfold send_request. rewrite Hpe. simpl.
  assert (∀ f' x fx, x ∈ high_queue p ++ low_queue p → <[r := f']> (frames p) !! x = Some fx →
            x ∈ high_queue p ++ low_queue p ∧ frames p !! x = Some fx) as Hfr.
  { intros f' x fx Hx. rewrite lookup_insert_ne; [done|]. by intros <-. }
  destruct (priority f) eqn:Hpr; (eexists _, _; split; [done|]); simpl;
    (split_and!; try done); apply evolves_refl; simpl; try done.
  - by apply lively_frames; try apply Hfr.
  - by rewrite length_insert.
  - by apply lively_frames; try apply Hfr.
Qed.

(** A request that holds a slot goes on holding it. *)
Lemma own_ok_keep ws fr r f f' :
  own_ok ws fr → fr !! r = Some f → holds f' = holds f → priority f' = priority f →
  own_ok ws (<[r := f']> fr).
Proof.
  intros [Hh H1 Hb] Hr Hho Hp. split.
  - intros r' f0 j g [[<- <-]|[_ Hl]]%lookup_insert_Some Hhold; [|by apply (Hh r')].
    rewrite Hp. apply (Hh r); [done|congruence].
  - intros r1 r2 f1 f2 h [[<- <-]|[Hn1 Hl1]]%lookup_insert_Some
      [[<- <-]|[Hn2 Hl2]]%lookup_insert_Some Hh1 Hh2; [done| | |by eapply H1].
    + by apply (H1 r r2 f f2 h); [..|congruence|].
    + by apply (H1 r1 r f1 f h); [..|congruence].
  - intros j v Hj Hbj. destruct (Hb j v Hj Hbj) as (r' & f0 & Hf0 & Hhold).
    destruct (decide (r' = r)) as [->|Hne].
    + exists r, f'. rewrite lookup_insert_eq. split; [done|]. congruence.
    + exists r', f0. by rewrite lookup_insert_ne.
Qed.

Lemma psched_fresh_insert p s' r f i w is_low :
  psched p → frames p !! r = None → workers p !! i = Some w → idle_worker w = true →
  slots_ok (max_restarts (options p)) s' →
  stateless_workers s' = <[i := occupied is_low w]> (workers p) →
  holds f = Some (i, restart_count w) → is_low = bool_decide (priority f = Low) →
  await f ≠ Queued →
  sched_ok (max_restarts (options p)) s' (high_queue p) (low_queue p) (<[r := f]> (frames p)).
Proof.
  intros [Hs Hown Hhq Hlq] Hr Hw Hid Hs' Hws Hh Hlow Haw.
  pose proof (idle_worker_true w Hid) as (Hal & Hbu & _). split; [done| | |].
  - rewrite Hws. apply own_ok_occupy; try done. intros f0 Hf0. congruence.
  - apply queue_ok_insert; [done| |by left]. by eapply not_queued_fresh.
  - apply queue_ok_insert; [done| |by left]. by eapply not_queued_fresh.
Qed.

Lemma can_proceed_starved max pr p :
  slots_ok max (slots p) → can_proceed pr None p = false → starved pr p.
Proof.
  intros Hs. unfold can_proceed. rewrite (idle_seen_eq max) by done. simpl.
  pose proof (slots_ok_bounds max _ Hs). rewrite Z.sub_0_r, u64_small by lia.
  case_bool_decide as Hz; [by left|]. destruct pr; [done|].
  intros Hlow%bool_decide_eq_false. right. split; [done|lia].
Qed.

Lemma enqueue_lively max r f p :
  slots_ok max (slots p) → frames p !! r = None → can_proceed (priority f) (exclude f) p = false →
  lively p → lively (enqueue r f p).
Proof.
  intros Hs Hr Hcan Hli x fx Hx Hfx Hex.
  assert (starved (priority fx) p) as Hst.
  { destruct (decide (x = r)) as [->|Hne].
    - assert (fx = f) as -> by (unfold enqueue in Hfx; destruct (priority f); simpl in Hfx;
        rewrite lookup_insert_eq in Hfx; congruence).
      rewrite Hex in Hcan. by eapply can_proceed_starved.
    - apply (Hli x fx); [| |done]; unfold enqueue in *; destruct (priority f); simpl in *;
        rewrite ?lookup_insert_ne in Hfx by done; try done;
        rewrite ?elem_of_app, ?list_elem_of_singleton in *; tauto. }
  unfold starved in *. unfold enqueue. by destruct (priority f).
Qed.

Lemma enqueue_ok r f p :
  psched p → frames p !! r = None → await f = Queued →
  can_proceed (priority f) (exclude f) p = false →
  psched (enqueue r f p) ∧ evolves p (enqueue r f p).
Proof.
  intros [Hs Hown Hhq Hlq] Hr Haw Hcan.
  assert (lively p → lively (enqueue r f p)) as Hli by (by eapply enqueue_lively).
  unfold enqueue in *.
  assert (own_ok (workers p) (<[r := f]> (frames p))) as Hown'.
  { apply own_ok_insert; [done|intros; congruence|]. unfold holds. by rewrite Haw. }
  destruct (priority f) eqn:Hp; (split; [|by apply evolves_refl]); split; simpl; try done.
  - by apply queue_ok_push.
  - apply queue_ok_insert; [done|by eapply not_queued_fresh|]. right. congruence.
  - apply queue_ok_insert; [done|by eapply not_queued_fresh|]. right. congruence.
  - by apply queue_ok_push.
Qed.

(** Nobody is kept waiting by a request that takes an idle worker: those queued
    exclude a worker, or wait for a low-priority slot. *)
Lemma acquire_lively max p i w s' b :
  slots_ok max (slots p) → workers p !! i = Some w → idle_worker w = true →
  slots_ok max s' → stateless_workers s' = <[i := occupied b w]> (workers p) →
  lively p → lively (with_slots s' p).
Proof.
  intros Hs Hw Hid Hs' Hws Hli r f Hr Hf Hex. pose proof (count_pos _ _ _ _ Hw Hid) as Hpos.
  destruct (Hli r f Hr Hf Hex) as [Hz|[Hlow Hlim]]; [lia|]. right. split; [done|]. simpl.
  rewrite (ok_low _ _ Hs), (ok_low _ _ Hs') in *. rewrite Hws, (count_insert _ _ _ _ _ Hw).
  pose proof (idle_worker_true w Hid) as (_ & Hbu & _).
  pose proof (ok_workers _ _ Hs i w Hw) as [_ K2 _ _ _].
  destruct (low_priority w); simpl; [by rewrite K2 in Hbu|]. destruct b; simpl; lia.
Qed.

(** The retry loop either goes on from a good state to a good state, or meets an
    excluded worker that is being retired. *)
Lemma attempt_ok n r f p :
  psched p → frames p !! r = None →
  (attempt n r f p = Fault ∧ clashes (exclude f) (slots p)) ∨
  ∃ p', attempt n r f p = Ok p' ∧ psched p' ∧ evolves p p'.
Proof.
  intros Hok Hr. destruct n as [|n]; cbn [attempt].
  { right. eexists. split_and!; [done|done|by apply evolves_refl]. }
  cbn [priority exclude token].
  set (f1 := mkFrame _ _ _ _ _).
  destruct (acquire_ok (priority f) (exclude f) p (ok_slots _ _ _ _ _ Hok))
    as [Hz|Hcan|i w s' Hw Hid Hs' Hws Hal|Hcl]; simpl.
  - right. eexists. split_and!; [done|done|by apply evolves_refl].
  - right. destruct (enqueue_ok r f1 p Hok Hr eq_refl Hcan) as [Hok' Hev]. by eexists.
  - pose proof (idle_worker_true w Hid) as (Hwa & Hwb & Hwr).
    assert (stateless_workers s' !! i = Some (occupied (bool_decide (priority f = Low)) w)) as Hi'.
    { rewrite Hws, list_lookup_insert_eq; [done|]. by eapply lookup_lt_Some. }
    rewrite Hi'. simpl. rewrite Hwa.
    pose proof (ok_workers _ _ (ok_slots _ _ _ _ _ Hok) i w Hw) as [_ _ _ Hpe _].
    destruct (send_request_spec r f1 i (occupied (bool_decide (priority f = Low)) w) (with_slots s' p))
      as (f' & p' & -> & Hfr & Hh & Hp & _ & Haw & Hsl & Hhq & Hlq & Hev).
    { simpl. auto. }
    { rewrite elem_of_app. intros [Hq|Hq]; revert Hq; eapply not_queued_fresh; try apply Hok; done. }
    right. exists p'. split; [done|]. split.
    + rewrite Hfr, Hsl, Hhq, Hlq, (ev_options _ _ Hev). simpl.
      eapply psched_fresh_insert; [done|done|done|done|done|done|done| |done]. by rewrite Hp.
    + eapply evolves_trans; [|exact Hev]. split; simpl; try done.
      * eapply same_traits_insert; [done| |done]. done.
      * eapply (acquire_lively (max_restarts (options p))); [apply Hok|done..].
  - by left.
Qed.

Lemma clashes_evolves ex p p' : evolves p p' → psched p' →
  clashes ex (slots p') → ∃ e w, ex = Some e ∧ workers p !! e = Some w ∧
    retiring w = true ∧ alive w = true.
Proof.
  intros Hev Hok (e & w & -> & Hw & Hr). unfold retiring_idle in Hr.
  assert (same_traits (slots p') (slots p)) as Ht by (symmetry; apply Hev).
  destruct (same_traits_lookup _ _ _ _ Ht Hw) as (v & Hv & Htr).
  exists e, v. unfold traits in Htr. simplify_eq.
  destruct (retiring w), (alive w); naive_solver.
Qed.

(** ** The events of a request *)

(** Some request excludes, or will exclude if its reply is an error, a worker that
    is alive and being retired. *)
Definition exclusion_clash (p : Pool) : Prop :=
  ∃ r f e w, frames p !! r = Some f ∧ workers p !! e = Some w ∧
    retiring w = true ∧ alive w = true ∧
    (exclude f = Some e ∨ ∃ g src, await f = Sent e g src).

Definition good_or_clash (p : Pool) (o : presult Pool) : Prop :=
  (o = Fault ∧ exclusion_clash p) ∨ ∃ p', o = Ok p' ∧ pool_ok p'.

Lemma pool_ok_evolves p1 p2 : side_ok p1 → lively p1 → psched p2 → evolves p1 p2 → pool_ok p2.
Proof.
  intros Hside Hli Hok Hev. split; [done| |by apply (ev_lively _ _ Hev)].
  by eapply side_ok_evolves.
Qed.

Lemma lively_delete p r : lively p → lively (with_frames (delete r (frames p)) p).
Proof.
  apply lively_frames; [done|done|]. simpl. intros x f Hx [_ Hf]%lookup_delete_Some. done.
Qed.

Lemma lively_outcome p r o : lively p → lively (with_outcome r o p).
Proof. by apply lively_frames. Qed.

Lemma side_ok_frames p fr : side_ok p → side_ok (with_frames fr p).
Proof. intros [H1 H2 H3 H4 H5 H6]. by split. Qed.

Lemma side_ok_outcome p r o : side_ok p → side_ok (with_outcome r o p).
Proof. intros [H1 H2 H3 H4 H5 H6]. by split. Qed.

Lemma send_stateless_ok r pr tok p :
  pool_ok p → frames p !! r = None → ∃ p', send_stateless r pr tok p = Ok p' ∧ pool_ok p'.
Proof.
  intros [Hok Hside Hli] Hr. unfold send_stateless. destruct (workers p) as [|w0 ws0].
  { eexists. split; [done|]. split; [exact Hok|by apply side_ok_outcome|by apply lively_outcome]. }
  match goal with |- context [attempt 2 r ?f0 p] => set (f := f0) end.
  destruct (attempt_ok 2 r f p Hok Hr) as [(_ & e & w & [=] & _)|(p' & -> & Hok' & Hev)].
  exists p'. split; [done|]. by eapply pool_ok_evolves.
Qed.

#[local] Arguments attempt : simpl never.

(** A retry after the slot of the previous attempt was given back. *)
Lemma attempt_after n r f f0 p p1 p2 :
  pool_ok p → frames p !! r = Some f0 → slots p1 = slots p → side_ok p1 → lively p1 →
  psched p2 → evolves p1 p2 → frames p2 !! r = None →
  (∀ e, exclude f = Some e → exclude f0 = Some e ∨ ∃ g src, await f0 = Sent e g src) →
  good_or_clash p (attempt n r f p2).
Proof.
  intros Hp Hf0 Hsl Hside Hli Hok2 Hev Hr Hex.
  destruct (attempt_ok n r f p2 Hok2 Hr) as [[-> Hcl]|(p' & -> & Hok' & Hev')].
  - left. split; [done|]. destruct (clashes_evolves _ _ _ Hev Hok2 Hcl) as (e & w & He & Hw & Hre & Hal).
    exists r, f0, e, w. rewrite Hsl in Hw. split_and!; try done. by apply Hex.
  - right. exists p'. split; [done|]. eapply pool_ok_evolves; [exact Hside|done|done|].
    by eapply evolves_trans.
Qed.

Lemma resume_send_ok p r f i w :
  pool_ok p → frames p !! r = Some f → holds f = Some (i, restart_count w) →
  await f ≠ Queued → workers p !! i = Some w → alive w = true →
  ∃ p', send_request r f i w (with_frames (delete r (frames p)) p) = Ok p' ∧ pool_ok p'.
Proof.
  intros [Hok Hside Hli] Hf Hh Hq Hw Hal. pose proof Hok as [Hs Hown Hhq Hlq].
  pose proof (ok_workers _ _ Hs i w Hw) as [_ _ _ Hpe _].
  destruct (send_request_spec r f i w (with_frames (delete r (frames p)) p) (Hpe Hal))
    as (f' & p' & Hsend & Hfr & Hh' & Hp & _ & Haw & Hsl & Ehq & Elq & Hev).
  { simpl. rewrite elem_of_app. intros [Hx|Hx]; revert Hx; eapply not_queued; try done; by left. }
  exists p'. split; [done|].
  eapply pool_ok_evolves; [by apply side_ok_frames|by apply lively_delete| |exact Hev].
  rewrite Hfr, Hsl, Ehq, Elq, (ev_options _ _ Hev). simpl. rewrite insert_delete_eq.
  split; [done| | |].
  - eapply own_ok_keep; [done|done|congruence|done].
  - apply queue_ok_insert; [done| |by left]. eapply not_queued; [done|done|by left].
  - apply queue_ok_insert; [done| |by left]. eapply not_queued; [done|done|by left].
Qed.

Lemma resume_ok p r : pool_ok p → good_or_clash p (resume r p).
Proof.
  intros Hp. pose proof Hp as [Hok Hside Hli]. unfold resume.
  destruct (frames p !! r) as [f|] eqn:Hf; [|right; by exists p].
  destruct (await f) as [|[[i g]|]|] eqn:Haw; [right; by exists p| | |right; by exists p].
  2: { right. eexists. split; [done|].
       split; [|by apply side_ok_outcome, side_ok_frames|by apply lively_outcome, lively_delete].
       apply (psched_drop p r f); [done|done|congruence|]. intros i w _ _. unfold holds. by rewrite Haw. }
  assert (holds f = Some (i, g)) as Hh by (unfold holds; by rewrite Haw).
  destruct (ok_held _ _ (ok_own _ _ _ _ _ Hok) r f i g Hf Hh) as (w & Hw & _ & _).
  simpl. rewrite Hw. simpl. destruct (decide (restart_count w = g)) as [<-|Hg].
  - rewrite bool_decide_true by done. destruct (alive w) eqn:Hal.
    + right. eapply resume_send_ok; try done. congruence.
    + destruct (release_ok p (with_frames (delete r (frames p)) p) r f i (restart_count w))
        as (p2 & -> & Hok2 & Hev & Hr2); try done.
      simpl. apply (attempt_after _ r f f p (with_frames (delete r (frames p)) p)); try done; [| |by left].
      * by apply side_ok_frames.
      * by apply lively_delete.
  - rewrite bool_decide_false by done.
    apply (attempt_after (S (attempts f)) r f f p (with_frames (delete r (frames p)) p)); try done.
    + by apply side_ok_frames.
    + by apply lively_delete.
    + apply (psched_drop p r f); [done|done|congruence|]. intros j v Hj _ Heq. rewrite Hh in Heq.
      injection Heq as -> Hr. congruence.
    + simpl. apply lookup_delete_eq.
    + by left.
Qed.

Lemma reply_ok p r ok : pool_ok p → good_or_clash p (reply r ok p).
Proof.
  intros Hp. pose proof Hp as [Hok Hside Hli]. unfold reply.
  destruct (frames p !! r) as [f|] eqn:Hf; [|right; by exists p].
  destruct (await f) as [| |i g src] eqn:Haw; [right; by exists p|right; by exists p|].
  assert (holds f = Some (i, g)) as Hh by (unfold holds; by rewrite Haw).
  assert (∀ o, good_or_clash p (release_if_current i g
            (with_outcome r o (with_frames (delete r (frames p)) p)))) as Hend.
  { intros o. right.
    destruct (release_ok p (with_outcome r o (with_frames (delete r (frames p)) p)) r f i g)
      as (p2 & -> & Hok2 & Hev & Hr2); try done.
    exists p2. split; [done|]. eapply pool_ok_evolves; [| |done|exact Hev].
    - by apply side_ok_outcome, side_ok_frames.
    - by apply lively_outcome, lively_delete. }
  destruct ok; [apply Hend|].
  match goal with |- context [if ?b then _ else _] => destruct b end; [apply Hend|].
  destruct (release_ok p (with_frames (delete r (frames p)) p) r f i g)
    as (p2 & -> & Hok2 & Hev & Hr2); try done.
  simpl. apply (attempt_after _ r _ f p (with_frames (delete r (frames p)) p)); try done;
    [by apply side_ok_frames|by apply lively_delete|].
  intros e [= <-]. right. by exists g, src.
Qed.

Lemma destroy_ok p r : pool_ok p → ∃ p', destroy r p = Ok p' ∧ pool_ok p'.
Proof.
  intros [Hok Hside Hli]. unfold destroy. destruct (frames p !! r) as [f|] eqn:Hf; [|by exists p].
  set (p1 := with_outcome r Destroyed (with_frames (delete r (frames p)) p)).
  assert (side_ok p1) as Hside1 by (by apply side_ok_outcome, side_ok_frames).
  assert (lively p1) as Hli1 by (by apply lively_outcome, lively_delete).
  assert (∀ i g, holds f = Some (i, g) →
            ∃ p', release_if_current i g p1 = Ok p' ∧ pool_ok p') as Hrel.
  { intros i g Hh. destruct (release_ok p p1 r f i g) as (p2 & -> & Hok2 & Hev & _); try done.
    exists p2. split; [done|]. by eapply pool_ok_evolves. }
  destruct (await f) as [|[[i g]|]|i g src] eqn:Haw.
  - pose proof Hok as [Hs Hown Hhq Hlq].
    assert (own_ok (workers p) (delete r (frames p))) as Hown'.
    { apply own_ok_delete; [done|]. intros f' i w Hf' _ _. simplify_eq. unfold holds. by rewrite Haw. }
    destruct (priority f) eqn:Hp; (eexists; split; [done|]); (split; [|by destruct Hside1; split|]);
      try (by revert Hli1; apply lively_frames; [done|done|]; simpl; intros x fx;
           rewrite !elem_of_app, !list_elem_of_filter; tauto);
      split; simpl; try done; try by apply queue_ok_erase.
    all: apply queue_ok_delete; [done|]; eapply not_queued; [done|done|right; congruence].
  - apply Hrel. unfold holds. by rewrite Haw.
  - exists p1. split; [done|]. split; [|done|done].
    apply (psched_drop p r f); [done|done|congruence|]. intros i w _ _. unfold holds. by rewrite Haw.
  - apply Hrel. unfold holds. by rewrite Haw.
Qed.
