(* ===== verification/WorkerScaling.v ===== *)
(** * Crashes, scaling and limits keep the pool's invariant

    [monitor_worker], [monitor_memory] with the scaling it triggers, [start] and
    [stop]; then every event of the pool. *)
From S2P Require Import Prelude WorkerAffinity WorkerPool WorkerInvariant WorkerRequests.
From stdpp Require Import options.
Local Open Scope Z_scope.
Local Open Scope cpp_scope.

(** ** Losing and refilling a slot *)

Definition lost (w : WorkerProcess) : WorkerProcess :=
  mkWorker false false false (restart_count w) (retiring w) (peer w).

Lemma lose_worker_ok max s i w :
  slots_ok max s → stateless_workers s !! i = Some w → alive w = true →
  ∃ s', lose_worker i s = Ok s' ∧ slots_ok max s' ∧
    stateless_workers s' = <[i := lost w]> (stateless_workers s) ∧
    alive_stateless_count s' = alive_stateless_count s - 1.
Proof.
  intros Hok Hw Hal. pose proof Hok as [Hwk Hsize Ha Hb Hl].
  pose proof (Hwk i w Hw) as [K1 K2 K3 K4 K5]. pose proof (slots_ok_bounds max s Hok).
  pose proof (worker_in_bounds max s i w _ Hok Hw Hal).
  assert (busy w = true → 0 < stateless_busy_count s) as Hbp.
  { intros Hbw. rewrite Hb. by eapply count_pos. }
  assert (low_priority w = true → 0 < low_busy_count s) as Hlp.
  { intros Hlw. rewrite Hl. by eapply count_pos. }
  assert (worker_ok max (lost w)) as Hok' by (split; simpl; done).
  unfold lose_worker. rewrite Hw. simpl. unfold vacate. simpl.
  rewrite list_lookup_insert_eq by (by eapply lookup_lt_Some). simpl.
  destruct s as [ws bc lc ac]. simpl in *.
  pose proof (slots_ok_insert max ws bc lc ac i w _ Hok Hw Hok') as Hnew. simpl in Hnew.
  rewrite Hal in Hnew. simpl in Hnew. rewrite !Z.add_0_r in Hnew.
  unfold size_t. rewrite (u64_small (ac - 1)) by lia.
  destruct (busy w) eqn:Hbw; simpl.
  - rewrite list_insert_insert_eq. fold (lost w). rewrite (u64_small (bc - 1)) by (naive_solver lia).
    assert ((if low_priority w then u64 (lc - 1) else lc) = lc - b2z (low_priority w)) as ->.
    { destruct (low_priority w); simpl; [|lia]. rewrite u64_small by (naive_solver lia). lia. }
    eexists. by split_and!.
  - assert (low_priority w = false) as Hlw by (destruct (low_priority w); naive_solver).
    rewrite Hlw in Hnew |- *. simpl in Hnew. rewrite !Z.sub_0_r in Hnew.
    assert (mkWorker false false false (restart_count w) (retiring w) (peer w) = lost w) as -> by done.
    eexists. by split_and!.
Qed.

Lemma drop_peer_ok max s i w :
  slots_ok max s → stateless_workers s !! i = Some w → alive w = false →
  ∃ w' s', drop_peer i s = Ok s' ∧ slots_ok max s' ∧ alive w' = false ∧ busy w' = false ∧
    restart_count w' = restart_count w ∧
    stateless_workers s' = <[i := w']> (stateless_workers s) ∧
    alive_stateless_count s' = alive_stateless_count s.
Proof.
  intros Hok Hw Hal. pose proof (ok_workers _ _ Hok i w Hw) as [K1 K2 K3 K4 K5].
  assert (busy w = false) as Hbw by (destruct (busy w); naive_solver).
  unfold drop_peer. rewrite Hw. simpl.
  set (w' := mkWorker (alive w) (busy w) (low_priority w) (restart_count w) (retiring w) false).
  assert (worker_ok max w') as Hok' by (split; simpl; try done; congruence).
  destruct s as [ws bc lc ac]. simpl in *.
  pose proof (slots_ok_insert max ws bc lc ac i w w' Hok Hw Hok') as Hnew. simpl in Hnew.
  replace (bc - b2z (busy w) + b2z (busy w)) with bc in Hnew by lia.
  replace (lc - b2z (low_priority w) + b2z (low_priority w)) with lc in Hnew by lia.
  replace (ac - b2z (alive w) + b2z (alive w)) with ac in Hnew by lia.
  exists w'. eexists. by split_and!.
Qed.

Lemma sched_ok_worker max s s' hq lq fr i w w' :
  sched_ok max s hq lq fr → stateless_workers s !! i = Some w → slots_ok max s' →
  stateless_workers s' = <[i := w']> (stateless_workers s) → busy w' = false →
  restart_count w ≤ restart_count w' →
  (restart_count w' = restart_count w → alive w' = true → alive w = true ∧ busy w = false) →
  sched_ok max s' hq lq fr.
Proof.
  intros [Hs Hown Hhq Hlq] Hw Hs' Hws Hb Hr Hsame. split; try done.
  rewrite Hws. by eapply own_ok_worker.
Qed.

(** Losing an idle or dead worker, or the mark of one, makes nobody wait longer
    than before. *)
Lemma lively_worker max p s' i w w' :
  slots_ok max (slots p) → slots_ok max s' → workers p !! i = Some w →
  stateless_workers s' = <[i := w']> (workers p) →
  busy w = false → busy w' = false → (idle_worker w' = true → idle_worker w = true) →
  lively p → lively (with_slots s' p).
Proof.
  intros Hs Hs' Hw Hws Hb Hb' Hid Hli r f Hr Hf Hex.
  pose proof (ok_workers _ _ Hs i w Hw) as [_ K2 _ _ _].
  assert (worker_ok max w') as [_ K2' _ _ _].
  { apply (ok_workers _ _ Hs' i). rewrite Hws, list_lookup_insert_eq; [done|]. by eapply lookup_lt_Some. }
  destruct (Hli r f Hr Hf Hex) as [Hz|[Hlow Hlim]].
  - left. simpl. rewrite Hws, (count_insert _ _ _ _ _ Hw). pose proof (count_zero _ _ _ _ Hz Hw) as Hi.
    rewrite Hi in *. destruct (idle_worker w'); simpl; [naive_solver|lia].
  - right. split; [done|]. simpl. rewrite (ok_low _ _ Hs), (ok_low _ _ Hs') in *.
    rewrite Hws, (count_insert _ _ _ _ _ Hw).
    destruct (low_priority w); simpl; [by rewrite K2 in Hb|]. destruct (low_priority w'); simpl; lia.
Qed.

(** ** Limits *)

Lemma low_ceiling_eq max s :
  slots_ok max s →
  low_ceiling s = (if bool_decide (1 < alive_stateless_count s) then alive_stateless_count s - 1
                   else alive_stateless_count s) ∧ 0 ≤ low_ceiling s < two64 ∧
  (0 < alive_stateless_count s → 0 < low_ceiling s).
Proof.
  intros Hok. pose proof (slots_ok_bounds max s Hok). unfold low_ceiling.
  case_bool_decide; [|lia]. unfold size_t. rewrite u64_small by lia. lia.
Qed.

(** The part of the invariant that survives while a crash is processed: the ceiling
    does not follow the worker count yet. *)
Record side_weak (p : Pool) : Prop := {
  wk_options : 0 ≤ max_restarts (options p) < two32;
  wk_sources : length (slot_cancel_sources (preemption p)) = length (workers p);
  wk_limit : 0 < low_limit (limits p) ≤ max_low_limit (limits p);
  wk_max : max_low_limit (limits p) < two64;
  wk_w_max : 0 ≤ w_max (limits p) < two64;
}.

Lemma side_weak_evolves p p' : side_weak p → evolves p p' → side_weak p'.
Proof.
  intros [H1 H2 H3 H4 H5] [Ht Ha Hl Ho _ _ Hs _]. split; rewrite ?Hl, ?Ho; try done.
  by rewrite Hs, H2, (same_traits_length _ _ Ht).
Qed.

Lemma shrink_ok p : psched p → side_weak p → side_ok (shrink_limits p).
Proof.
  intros Hok [H1 H2 H3 H4 H5].
  destruct (low_ceiling_eq _ _ (ok_slots _ _ _ _ _ Hok)) as (_ & Hc & _).
  split; simpl; try done; case_bool_decide; lia.
Qed.

Lemma shrink_lively p : lively p → lively (shrink_limits p).
Proof.
  intros Hli r f Hr Hf Hex. destruct (Hli r f Hr Hf Hex) as [Hz|[Hlow Hlim]]; [by left|].
  right. split; [done|]. simpl. case_bool_decide; lia.
Qed.

Lemma side_ok_weak p :
  psched p → side_ok p → 0 < alive_stateless_count (slots p) → side_weak p.
Proof.
  intros Hok [H1 H2 H3 H4 H5 H6] Hpos.
  destruct (low_ceiling_eq _ _ (ok_slots _ _ _ _ _ Hok)) as (_ & Hc & Hc').
  split; try done; rewrite ?H3; [|lia]. rewrite H3 in *. naive_solver lia.
Qed.

Lemma weak_ok p :
  side_weak p → max_low_limit (limits p) = low_ceiling (slots p) → side_ok p.
Proof. intros [H1 H2 H3 H4 H5] Hc. split; try done; lia. Qed.

Lemma remember_limit_range l :
  0 ≤ low_limit l < two64 → 0 ≤ w_max l < two64 → 0 ≤ remember_limit l < two64.
Proof. intros. unfold remember_limit. by destruct (_ || _). Qed.

Lemma backoff_weak p : side_weak p → side_weak (apply_crash_backoff p).
Proof.
  intros [H1 H2 H3 H4 H5]. unfold apply_crash_backoff.
  case_bool_decide as Hlt; split; simpl; try done; [|apply remember_limit_range; lia]. lia.
Qed.

(** ** Crashes *)

Lemma process_crash_ok i status sig w p :
  pool_ok p → workers p !! i = Some w → alive w = true →
  ∃ p' info w', process_crash i status sig p = Ok (p', info) ∧ psched p' ∧ lively p' ∧
    will_restart info = bool_decide (restart_count w < max_restarts (options p)) ∧
    options p' = options p ∧ shutting_down p' = shutting_down p ∧
    alive_stateless_count (slots p') = alive_stateless_count (slots p) - 1 ∧
    workers p' !! i = Some w' ∧ alive w' = false ∧ restart_count w' = restart_count w ∧
    (if will_restart info
     then side_weak p' ∧ max_low_limit (limits p') = max_low_limit (limits p)
     else side_ok p').
Proof.
  intros [Hok Hside _] Hw Hal. pose proof Hok as [Hs Hown Hhq Hlq].
  pose proof (worker_in_bounds _ _ i w _ Hs Hw Hal) as [Hpos _].
  rewrite <- (ok_alive _ _ Hs) in Hpos. pose proof (side_ok_weak p Hok Hside Hpos) as Hweak.
  destruct (lose_worker_ok _ _ i w Hs Hw Hal) as (s' & Hlose & Hs' & Hws' & Hal').
  unfold process_crash. rewrite Hw. simpl. rewrite Hlose. simpl.
  set (wr := bool_decide (restart_count w < max_restarts (options p))).
  set (p1 := apply_crash_backoff (with_slots s' p)).
  assert (psched p1) as Hok1.
  { subst p1. simpl. apply (sched_ok_worker _ (slots p) s' _ _ _ i w (lost w)); try done. }
  assert (side_weak p1) as Hweak1.
  { subst p1. apply backoff_weak. destruct Hweak as [H1 H2 H3 H4 H5].
    split; try done. simpl. by rewrite Hws', length_insert. }
  set (p2 := if wr then p1 else shrink_limits p1).
  assert (psched p2) as Hok2 by (subst p2; by destruct wr).
  assert (slots p2 = s' ∧ options p2 = options p ∧ shutting_down p2 = shutting_down p)
    as (Hsl2 & Ho2 & Hsd2) by (subst p2; by destruct wr).
  assert (if wr then side_weak p2 ∧ max_low_limit (limits p2) = max_low_limit (limits p)
          else side_ok p2) as Hside2.
  { subst p2. destruct wr; [|by apply shrink_ok]. split; [done|]. subst p1. simpl.
    by case_bool_decide. }
  assert (∃ p3, (if bool_decide (alive_stateless_count (slots p2) = 0) && negb wr
                 then fail_pending_requests p2 else try_dispatch_pending p2) = Ok p3 ∧
                psched p3 ∧ evolves p2 p3 ∧ lively p3) as (p3 & -> & Hok3 & Hev & Hli3).
  { destruct (_ && _).
    - destruct (fail_pending_ok p2 Hok2) as (p3 & -> & Hok3 & Hev & Hh & Hl & _). exists p3.
      split_and!; [done|done|done|by apply lively_drained].
    - destruct (dispatch_evolves p2 Hok2) as (p3 & -> & Hok3 & Hev & _ & Hli). by exists p3. }
  simpl. assert (workers p2 !! i = Some (lost w)) as Hlost.
  { rewrite Hsl2, Hws', list_lookup_insert_eq; [done|]. by eapply lookup_lt_Some. }
  destruct (same_traits_lookup _ _ _ _ (ev_traits _ _ Hev) Hlost) as (w' & Hw' & Htr).
  unfold traits in Htr. simplify_eq/=.
  eexists p3, _, w'. split; [done|]. simpl. fold wr.
  split_and!; [done|done|done| | | |done|done|done|].
  - by rewrite (ev_options _ _ Hev).
  - by rewrite (ev_down _ _ Hev).
  - by rewrite (ev_alive _ _ Hev), Hsl2.
  - destruct wr; [|by eapply side_ok_evolves].
    destruct Hside2 as [Hwk Hml]. split; [by eapply side_weak_evolves|]. by rewrite (ev_limits _ _ Hev).
Qed.

Lemma respawn_worker_ok i spawned w p :
  psched p → side_weak p → lively p → workers p !! i = Some w → alive w = false →
  restart_count w < max_restarts (options p) →
  ∃ p', respawn_worker i spawned p = Ok (p', spawned) ∧ psched p' ∧ side_weak p' ∧ lively p' ∧
    options p' = options p ∧ limits p' = limits p ∧
    alive_stateless_count (slots p') =
      alive_stateless_count (slots p) + (if spawned then 1 else 0).
Proof.
  intros Hok Hweak Hli Hw Hal Hlt. pose proof Hok as [Hs Hown Hhq Hlq].
  pose proof Hweak as [H1 H2 H3 H4 H5]. pose proof (ok_workers _ _ Hs i w Hw) as [Kb _ _ _ Hre].
  destruct (drop_peer_ok _ _ i w Hs Hw Hal) as (w1 & s1 & Hd & Hs1 & Hal1 & Hb1 & Hr1 & Hws1 & Hac1).
  unfold respawn_worker. rewrite Hw. simpl. rewrite Hd. simpl. destruct spawned; simpl.
  2: { eexists. split; [done|]. split_and!;
         [|by split; simpl; rewrite ?Hws1, ?length_insert| |done|done|].
       - by apply (sched_ok_worker _ (slots p) s1 _ _ _ i w w1); try done; [lia|congruence].
       - revert Hli. apply (lively_worker _ p s1 i w w1 Hs Hs1 Hw Hws1); [|done|].
         + destruct (busy w); [|done]. by rewrite Kb in Hal.
         + unfold idle_worker. by rewrite Hal1.
       - simpl. lia. }
  rewrite u32_small by lia.
  assert (stateless_workers s1 !! i = Some w1) as Hw1.
  { rewrite Hws1, list_lookup_insert_eq; [done|]. by eapply lookup_lt_Some. }
  assert (worker_ok (max_restarts (options p)) (fresh_worker (restart_count w + 1))) as Hfresh.
  { split; simpl; try done. lia. }
  assert (count alive (stateless_workers s1) < Z.of_nat (length (stateless_workers s1))) as Hroom.
  { pose proof (count_insert alive _ i (fresh_worker 0) w1 Hw1) as Hci.
    pose proof (count_le_length alive (<[i := fresh_worker 0]> (stateless_workers s1))) as Hle.
    rewrite length_insert in Hle. rewrite Hal1 in Hci. simpl in Hci. lia. }
  pose proof (ok_size _ _ Hs1) as Hsz. pose proof (ok_alive _ _ Hs1) as Ha1.
  pose proof (count_nonneg alive (stateless_workers s1)) as Hnn.
  set (s2 := mkSlots _ _ _ _).
  assert (slots_ok (max_restarts (options p)) s2 ∧
          alive_stateless_count s2 = alive_stateless_count (slots p) + 1) as [Hs2 Hac2].
  { pose proof (ok_workers _ _ Hs1 i w1 Hw1) as [K1 K2 _ _ _].
    assert (low_priority w1 = false) as Hl1 by (destruct (low_priority w1); naive_solver).
    subst s2. destruct s1 as [ws bc lc ac]. simpl in *.
    pose proof (slots_ok_insert _ ws bc lc ac i w1 _ Hs1 Hw1 Hfresh) as Hnew. simpl in Hnew.
    rewrite Hal1, Hb1, Hl1 in Hnew. simpl in Hnew. rewrite !Z.sub_0_r, !Z.add_0_r in Hnew.
    unfold size_t. rewrite u64_small by lia. split; [done|lia]. }
  assert (psched (with_slots s2 p)) as Hok2.
  { simpl. apply (sched_ok_worker _ (slots p) s2 _ _ _ i w (fresh_worker (restart_count w + 1)));
      simpl; try done; [|lia|lia]. by rewrite Hws1, list_insert_insert_eq. }
  destruct (dispatch_evolves _ Hok2) as (p' & -> & Hok' & Hev & _ & Hli'). simpl.
  exists p'. split_and!; [done|done| |done| | |].
  - eapply side_weak_evolves; [|exact Hev]. split; try done. simpl.
    by rewrite Hws1, !length_insert.
  - by rewrite (ev_options _ _ Hev).
  - by rewrite (ev_limits _ _ Hev).
  - by rewrite (ev_alive _ _ Hev).
Qed.

Lemma monitor_worker_ok i ended spawned w p :
  pool_ok p → workers p !! i = Some w → alive w = true →
  ∃ p', monitor_worker i ended spawned p = Ok p' ∧ pool_ok p'.
Proof.
  intros Hp Hw Hal. unfold monitor_worker. destruct (shutting_down p); [by exists p|].
  rewrite Hw. simpl. pose proof Hp as [Hok Hside Hli]. pose proof Hok as [Hs _ _ _].
  destruct (retiring w) eqn:Hre.
  - destruct (lose_worker_ok _ _ i w Hs Hw Hal) as (s1 & -> & Hs1 & Hws1 & Hal1). simpl.
    assert (stateless_workers s1 !! i = Some (lost w)) as Hw1.
    { rewrite Hws1, list_lookup_insert_eq; [done|]. by eapply lookup_lt_Some. }
    destruct (drop_peer_ok _ _ i _ Hs1 Hw1 eq_refl)
      as (w2 & s2 & -> & Hs2 & Hal2 & Hb2 & Hr2 & Hws2 & Hac2). simpl.
    assert (psched (with_slots s2 p)) as Hok2.
    { simpl. apply (sched_ok_worker _ (slots p) s2 _ _ _ i w w2); try done.
      - by rewrite Hws2, Hws1, list_insert_insert_eq.
      - simpl in Hr2. lia.
      - congruence. }
    eexists. split; [done|]. split; [done| |].
    + apply shrink_ok; [done|]. destruct (side_ok_weak p Hok Hside) as [H1 H2 H3 H4 H5].
      { rewrite (ok_alive _ _ Hs). by eapply count_pos. }
      split; try done. simpl. by rewrite Hws2, Hws1, !length_insert.
    + apply shrink_lively. revert Hli. eapply (lively_worker _ p s2 i w w2); try done.
      * by rewrite Hws2, Hws1, list_insert_insert_eq.
      * by apply (ok_workers _ _ Hs i w Hw).
      * unfold idle_worker. by rewrite Hal2.
  - destruct (match ended with Some e => e | None => (0, 9) end) as [status sig].
    destruct (process_crash_ok i status sig w p Hp Hw Hal)
      as (p1 & info & w1 & -> & Hok1 & Hli1 & Hwr & Ho1 & _ & Hac1 & Hw1 & Hal1 & Hr1 & Hrest). simpl.
    destruct (will_restart info); [|exists p1; split; [done|by split]].
    destruct Hrest as [Hweak Hml]. symmetry in Hwr. apply bool_decide_eq_true in Hwr.
    destruct (respawn_worker_ok i spawned w1 p1 Hok1 Hweak Hli1 Hw1 Hal1)
      as (p2 & -> & Hok2 & Hweak2 & Hli2 & Ho2 & Hl2 & Hac2); [by rewrite Ho1, Hr1|]. simpl.
    destruct spawned; simpl.
    + exists p2. split; [done|]. split; [done| |done]. apply weak_ok; [done|].
      rewrite Hl2, Hml, (ok_ceiling _ Hside). unfold low_ceiling.
      replace (alive_stateless_count (slots p2)) with (alive_stateless_count (slots p)) by lia. done.
    + pose proof (shrink_ok p2 Hok2 Hweak2) as Hside2.
      pose proof (shrink_lively p2 Hli2) as Hli3.
      case_bool_decide; [|eexists; split; [done|by split]].
      destruct (fail_pending_ok (shrink_limits p2)) as (p3 & -> & Hok3 & Hev & _); [done|].
      exists p3. split; [done|]. by eapply pool_ok_evolves.
Qed.

(** ** Scaling *)

Lemma spawn_worker_ok max s :
  slots_ok max s → 0 ≤ max → Z.of_nat (length (stateless_workers s)) + 1 < two64 →
  ∃ s', spawn_worker true s = Some s' ∧ slots_ok max s' ∧
    stateless_workers s' = stateless_workers s ++ [fresh_worker 0] ∧
    alive_stateless_count s' = alive_stateless_count s + 1.
Proof.
  intros [Hw Hsz Ha Hb Hl] Hmax Hroom. eexists. split; [done|]. simpl.
  pose proof (count_le_length alive (stateless_workers s)).
  pose proof (count_nonneg alive (stateless_workers s)).
  unfold size_t. rewrite u64_small by lia. split_and!; [|done|done]. split; simpl.
  - intros i w [Hi|[_ Hi]]%lookup_app_Some; [by eapply Hw|].
    apply list_lookup_singleton_Some in Hi as [_ <-]. split; simpl; done || lia.
  - rewrite length_app. simpl. lia.
  - rewrite count_app, count_cons. simpl. rewrite count_nil. lia.
  - rewrite count_app, count_cons. simpl. rewrite count_nil. lia.
  - rewrite count_app, count_cons. simpl. rewrite count_nil. lia.
Qed.

Lemma scale_up_ok spawned p :
  pool_ok p → Z.of_nat (length (workers p)) + 1 < two64 →
  ∃ p' up, scale_up_worker spawned p = Ok (p', up) ∧ pool_ok p' ∧ options p' = options p.
Proof.
  intros Hp Hroom. unfold scale_up_worker.
  destruct (shutting_down p); [by exists p, false|].
  case_bool_decide; [by exists p, false|].
  destruct spawned; [|by exists p, false]. pose proof Hp as [Hok Hside Hli].
  pose proof Hok as [Hs Hown Hhq Hlq].
  destruct (spawn_worker_ok _ _ Hs (proj1 (ok_options _ Hside)) Hroom) as (s' & -> & Hs' & Hws & Hal).
  match goal with |- context [try_dispatch_pending ?q] => set (p1 := q) end.
  assert (psched p1) as Hok1.
  { subst p1. simpl. split; try done. simpl. rewrite Hws. by apply own_ok_app. }
  destruct (dispatch_evolves p1 Hok1) as (p2 & -> & Hok2 & Hev & _ & Hli2). simpl.
  exists p2, true. split; [done|]. split; [|by rewrite (ev_options _ _ Hev)].
  split; [done| |done]. eapply side_ok_evolves; [|exact Hev].
  destruct (low_ceiling_eq _ _ Hs') as (_ & Hc & Hc'). pose proof (slots_ok_bounds _ _ Hs) as Hbd.
  destruct Hside as [H1 H2 H3 H4 H5 H6]. subst p1. split; simpl; try done; [|lia].
  by rewrite Hws, !length_app, H2.
Qed.

Lemma last_idle_spec i ws j :
  last_idle i ws = Some j →
  ∃ k w, j = (i + k)%nat ∧ ws !! k = Some w ∧ idle_worker w = true.
Proof.
  revert i. induction ws as [|w ws IH]; intros i; [done|]. cbn [last_idle].
  destruct (last_idle (S i) ws) as [j'|] eqn:Hl.
  - intros [= ->]. destruct (IH (S i) Hl) as (k & v & -> & Hv & Hi).
    exists (S k), v. split_and!; [lia|done|done].
  - destruct (idle_worker w) eqn:Hi; [|done]. intros [= <-]. exists 0%nat, w.
    split_and!; [lia|done|done].
Qed.

(** Retiring marks at most one worker, which was idle, and leaves the counters. *)
Lemma retire_ok p :
  pool_ok p → ∃ p', retire_idle_worker p = Ok p' ∧ pool_ok p' ∧ options p' = options p.
Proof.
  intros Hp. unfold retire_idle_worker. destruct (shutting_down p); [by exists p|].
  case_bool_decide; [by exists p|].
  destruct (last_idle 0 (workers p)) as [t|] eqn:Hl; [|by exists p].
  destruct (last_idle_spec _ _ _ Hl) as (k & w & -> & Hw & Hid). simpl. rewrite Hw. simpl.
  pose proof (idle_worker_true w Hid) as (Hal & Hbu & Hre). pose proof Hp as [Hok Hside Hli].
  pose proof Hok as [Hs _ _ _]. pose proof (ok_workers _ _ Hs k w Hw) as [K1 K2 K3 K4 K5].
  rewrite (K4 Hal). simpl. eexists. split; [done|]. split; [|done].
  set (w' := mkWorker (alive w) (busy w) (low_priority w) (restart_count w) true true).
  assert (worker_ok (max_restarts (options p)) w') as Hok' by (split; simpl; done).
  set (s' := mkSlots _ _ _ _).
  assert (slots_ok (max_restarts (options p)) s') as Hs'.
  { subst s'. destruct (slots p) as [ws bc lc ac] eqn:Es. simpl in *.
    pose proof (slots_ok_insert _ ws bc lc ac k w w' Hs Hw Hok') as Hnew. simpl in Hnew.
    replace (bc - b2z (busy w) + b2z (busy w)) with bc in Hnew by lia.
    replace (lc - b2z (low_priority w) + b2z (low_priority w)) with lc in Hnew by lia.
    replace (ac - b2z (alive w) + b2z (alive w)) with ac in Hnew by lia. done. }
  split.
  - simpl. by apply (sched_ok_worker _ (slots p) s' _ _ _ k w w').
  - destruct Hside as [H1 H2 H3 H4 H5 H6]. split; simpl; try done. by rewrite length_insert.
  - revert Hli. by apply (lively_worker (max_restarts (options p)) p s' k w w').
Qed.

Lemma pool_ok_cycles a b p : pool_ok p → pool_ok (with_cycles a b p).
Proof. intros [Hok [H1 H2 H3 H4 H5 H6] Hli]. split; [exact Hok|by split|exact Hli]. Qed.

Lemma count_cycles_ok p :
  pool_ok p →
  pool_ok (count_cycles p) ∧ options (count_cycles p) = options p ∧
  workers (count_cycles p) = workers p.
Proof.
  intros Hp. unfold count_cycles. destruct (saturated p); [|destruct (_ && _)];
    (split_and!; [by apply pool_ok_cycles|done|done]).
Qed.

Lemma grow_ok mem spawned p :
  pool_ok p → Z.of_nat (length (workers p)) + 1 < two64 →
  ∃ p', grow_if_saturated mem spawned p = Ok p' ∧ pool_ok p' ∧ options p' = options p.
Proof.
  intros Hp Hroom. unfold grow_if_saturated. case_bool_decide; [|by exists p]. cbv zeta.
  destruct (SpecFloat.SFltb _ _); [|by exists p].
  destruct (scale_up_ok spawned p Hp Hroom) as (p2 & up & -> & Hp2 & Ho2). simpl.
  eexists. split; [done|]. destruct up; [|done]. split; [by apply pool_ok_cycles|done].
Qed.

Lemma check_scaling_ok mem spawned p :
  pool_ok p → Z.of_nat (length (workers p)) + 1 < two64 →
  ∃ p', check_scaling mem spawned p = Ok p' ∧ pool_ok p' ∧ options p' = options p.
Proof.
  intros Hp Hroom. unfold check_scaling. destruct (shutting_down p); [by exists p|].
  destruct (count_cycles_ok p Hp) as (Hp1 & Ho1 & Hw1).
  destruct (grow_ok mem spawned (count_cycles p)) as (p2 & -> & Hp2 & Ho2); [done|congruence|].
  simpl. case_bool_decide; [|exists p2; split_and!; [done|done|congruence]].
  destruct (retire_ok p2 Hp2) as (p3 & -> & Hp3 & Ho3). simpl. eexists. split; [done|].
  split; [by apply pool_ok_cycles|]. simpl. congruence.
Qed.

(** ** The memory monitor *)

Lemma cancel_ok limit p : pool_ok p → pool_ok (cancel_low_priority_requests limit p).
Proof. intros [Hok [H1 H2 H3 H4 H5 H6] Hli]. split; [exact Hok|by split|exact Hli]. Qed.

Lemma reduce_limit_ok p :
  pool_ok p → 1 < low_limit (limits p) → pool_ok (with_limits (reduce_limit (limits p)) p).
Proof.
  intros [Hok Hside Hli] Hlt.
  destruct (low_ceiling_eq _ _ (ok_slots _ _ _ _ _ Hok)) as (_ & Hc & _).
  destruct Hside as [H1 H2 H3 H4 H5 H6].
  assert (low_limit (reduce_limit (limits p)) ≤ low_limit (limits p)) as Hle.
  { unfold reduce_limit. case_bool_decide; simpl; [lia|]. unfold size_t. rewrite u64_small by lia. lia. }
  split; [exact Hok| |].
  2: { intros r f Hr Hf Hex. destruct (Hli r f Hr Hf Hex) as [Hz|[Hlow Hlim]]; [by left|].
       right. split; [done|]. simpl. lia. }
  split; try done; unfold reduce_limit; case_bool_decide; simpl; try done;
    unfold size_t; rewrite ?u64_small by lia; try lia.
  apply remember_limit_range; lia.
Qed.

Lemma recover_limit_ok p :
  pool_ok p → low_limit (limits p) < max_low_limit (limits p) →
  side_ok (with_limits (recover_limit (limits p)) p).
Proof.
  intros [Hok Hside _] Hlt.
  destruct (low_ceiling_eq _ _ (ok_slots _ _ _ _ _ Hok)) as (_ & Hc & _).
  destruct Hside as [H1 H2 H3 H4 H5 H6]. unfold recover_limit.
  destruct (bool_decide (0 < w_max (limits p)) && bool_decide (low_limit (limits p) < w_max (limits p))) eqn:Hb.
  - apply andb_true_iff in Hb as [_ Hgap%bool_decide_eq_true].
    set (gap := size_t (w_max (limits p) - low_limit (limits p))).
    assert (gap = w_max (limits p) - low_limit (limits p)) as Hg.
    { subst gap. unfold size_t. apply u64_small. lia. }
    pose proof (Z.div_lt gap 2 ltac:(lia) ltac:(lia)). pose proof (Z.div_pos gap 2 ltac:(lia) ltac:(lia)).
    split; try done; simpl; unfold size_t; rewrite ?u64_small by lia; lia.
  - assert (size_t (low_limit (limits p) + 1) = low_limit (limits p) + 1) as Hn.
    { unfold size_t. apply u64_small. lia. }
    split; try done; simpl; rewrite ?Hn; [lia|lia|].
    clear Hb. case_bool_decide; [|done]. unfold two64. lia.
Qed.

Lemma adjust_low_limit_ok mem p :
  pool_ok p →
  ∃ p', adjust_low_limit mem p = Ok p' ∧ pool_ok p' ∧ options p' = options p ∧
        length (workers p') = length (workers p).
Proof.
  intros Hp. unfold adjust_low_limit.
  destruct (_ && bool_decide (1 < low_limit (limits p))) eqn:Hc.
  - apply andb_true_iff in Hc as [_ Hc%bool_decide_eq_true]. eexists. split; [done|].
    split_and!; [by apply reduce_limit_ok|done|done].
  - destruct (_ && bool_decide (low_limit (limits p) < max_low_limit (limits p))) eqn:Hc2; [|by exists p].
    apply andb_true_iff in Hc2 as [_ Hc2%bool_decide_eq_true].
    pose proof (recover_limit_ok p Hp Hc2) as Hside. destruct Hp as [Hok _ _].
    destruct (dispatch_evolves (with_limits (recover_limit (limits p)) p) Hok)
      as (p2 & -> & Hok2 & Hev & _ & Hli). exists p2.
    split_and!; [done| |by rewrite (ev_options _ _ Hev)|].
    { split; [done|by eapply side_ok_evolves|done]. }
    by rewrite (same_traits_length _ _ (ev_traits _ _ Hev)).
Qed.

Lemma monitor_memory_ok mem mem' spawned p :
  pool_ok p → Z.of_nat (length (workers p)) + 1 < two64 →
  ∃ p', monitor_memory mem mem' spawned p = Ok p' ∧ pool_ok p'.
Proof.
  intros Hp Hroom. unfold monitor_memory. destruct (shutting_down p); [by exists p|].
  case_bool_decide; [by exists p|]. cbv zeta.
  match goal with |- context [adjust_low_limit mem ?q] => set (p1 := q) end.
  assert (pool_ok p1 ∧ options p1 = options p ∧ workers p1 = workers p) as (Hp1 & Ho1 & Hw1).
  { subst p1. destruct (_ && _); [|done]. split; [by apply cancel_ok|done]. }
  clearbody p1. destruct (adjust_low_limit_ok mem p1 Hp1) as (p2 & -> & Hp2 & Ho2 & Hlen2). simpl.
  destruct (check_scaling_ok mem' spawned p2) as (p3 & -> & Hp3 & Ho3);
    [done|congruence|]. simpl.
  destruct (_ && _); [|by exists p3].
  destruct (retire_ok p3 Hp3) as (p4 & -> & Hp4 & _). by exists p4.
Qed.

(** ** Start and stop *)

Lemma spawn_stateless_ok n i spawned s max :
  slots_ok max s → 0 ≤ max → Z.of_nat (length (stateless_workers s)) + Z.of_nat n < two64 →
  (∀ j w, stateless_workers s !! j = Some w → busy w = false) →
  slots_ok max (spawn_stateless_workers n i spawned s).1 ∧
  (∀ j w, stateless_workers (spawn_stateless_workers n i spawned s).1 !! j = Some w → busy w = false).
Proof.
  revert i s. induction n as [|n IH]; intros i s Hs Hmax Hroom Hb; [done|]. cbn [spawn_stateless_workers].
  destruct (spawned i); [|done].
  destruct (spawn_worker_ok max s Hs Hmax ltac:(lia)) as (s' & -> & Hs' & Hws & _).
  apply IH; [done|done| |].
  - rewrite Hws, length_app. simpl. lia.
  - intros j w. rewrite Hws. intros [Hj|[_ Hj]]%lookup_app_Some; [by eapply Hb|].
    by apply list_lookup_singleton_Some in Hj as [_ <-].
Qed.

(** The options the pool can be started with: they are unsigned 32-bit numbers. *)
Definition options_fit (o : PoolOptions) : Prop :=
  0 ≤ max_restarts o < two32 ∧ 0 ≤ stateless_count o < two32.

Lemma start_ok o par sp sf p a :
  options_fit o → start o par sp sf = (p, a, true) →
  pool_ok p ∧ frames p = ∅ ∧ outcomes p = ∅.
Proof.
  intros [Hmax Hn]. unfold start.
  destruct (spawn_stateless_ok (Z.to_nat (stateless_count o)) 0 sp empty_slots (max_restarts o))
    as [Hs Hb]; try done; [lia| |].
  { simpl. unfold two64, two32 in *. lia. }
  simpl. destruct (spawn_stateless_workers _ 0 sp empty_slots) as [s [|]]; simpl in *; [|done].
  destruct (spawn_stateful_workers _ 0 sf empty_affinity) as [a' [|]]; simpl; [|done].
  intros [= <- <-]. split_and!; simpl; [|done|done].
  destruct (low_ceiling_eq _ _ Hs) as (_ & Hc & _). split; [| |by apply lively_drained].
  - split; simpl; [done| | |].
    + split; [by intros ???? Hr|by intros ????? Hr|]. intros i w Hw Hbw.
      by rewrite (Hb i w Hw) in Hbw.
    + split; [apply NoDup_nil_2|]. intros r. split; [set_solver|by intros (? & ? & _)].
    + split; [apply NoDup_nil_2|]. intros r. split; [set_solver|by intros (? & ? & _)].
  - split; simpl; try done; [by rewrite length_replicate|lia].
Qed.

Lemma stop_ok p :
  pool_ok p →
  ∃ p', stop p = Ok p' ∧ pool_ok p' ∧ high_queue p' = [] ∧ low_queue p' = [] ∧
        shutting_down p' = true ∧ slots p' = slots p ∧
        (∀ r, r ∈ high_queue p ∨ r ∈ low_queue p →
              ∃ f, frames p !! r = Some f ∧ frames p' !! r = Some (woken f None)).
Proof.
  intros [Hok Hside Hli]. unfold stop.
  match goal with |- context [fail_pending_requests ?q] => set (p1 := q) end.
  destruct (fail_pending_ok p1) as (p2 & -> & Hok2 & Hev & Hh & Hl & Hsl & _ & Hin & _); [exact Hok|].
  exists p2. split; [done|]. split.
  - apply (pool_ok_evolves p1); [|exact Hli|done|exact Hev]. destruct Hside as [H1 H2 H3 H4 H5 H6]. by split.
  - split_and!; [done|done|by rewrite (ev_down _ _ Hev)|done|done].
Qed.

(** ** Every event *)

Lemma handle_ok e p :
  pool_ok p → enabled e p = true →
  good_or_clash p (handle e p).
Proof.
  intros Hp Hen. destruct e as [r pr tok|r|r ok|r|i ended spawned|mem mem' spawned|]; simpl in *.
  - apply bool_decide_eq_true in Hen as [Hr _]. right. by apply send_stateless_ok.
  - by apply resume_ok.
  - by apply reply_ok.
  - right. by apply destroy_ok.
  - destruct (workers p !! i) as [w|] eqn:Hw; [|done]. right. by eapply monitor_worker_ok.
  - apply bool_decide_eq_true in Hen. right. by apply monitor_memory_ok.
  - right. destruct (stop_ok p Hp) as (p' & -> & Hp' & _). by exists p'.
Qed.
