(* ===== verification/WorkerTheorems.v ===== *)
(** * What the stateless worker pool guarantees

    Runs of the pool from a successful [start], and the properties of every state
    they reach. *)
From S2P Require Import Prelude WorkerAffinity WorkerPool WorkerInvariant WorkerRequests WorkerScaling.
From stdpp Require Import options.
Local Open Scope Z_scope.
Local Open Scope cpp_scope.

Inductive pool_reachable : Pool → Prop :=
| pr_start o parallelism spawned spawned_stateful p a :
    options_fit o → start o parallelism spawned spawned_stateful = (p, a, true) → pool_reachable p
| pr_event e p p' :
    pool_reachable p → enabled e p = true → handle e p = Ok p' → pool_reachable p'.

Lemma pool_reachable_ok p : pool_reachable p → pool_ok p.
Proof.
  induction 1 as [o par sp sf p a Hfit Hst|e p p' _ IH Hen Hh].
  - by destruct (start_ok _ _ _ _ _ _ Hfit Hst) as [Hok _].
  - destruct (handle_ok e p IH Hen) as [[Hf _]|(p1 & Hp1 & Hok)]; congruence.
Qed.

(** ** Sample runs *)

(** A sequence of enabled events; [None] when one is not enabled or does not return. *)
Fixpoint run (es : list Event) (p : Pool) : option Pool :=
  match es with
  | [] => Some p
  | e :: es => if enabled e p then match handle e p with Ok p => run es p | _ => None end else None
  end.

Lemma pool_run_reachable es p p' : pool_reachable p → run es p = Some p' → pool_reachable p'.
Proof.
  revert p. induction es as [|e es IH]; intros p Hp Hrun; simplify_eq/=; [done|].
  destruct (enabled e p) eqn:Hen; [|done]. destruct (handle e p) as [p1| | |] eqn:Hh; try done.
  eapply IH; [|exact Hrun]. by eapply pr_event.
Qed.

Lemma run_app es es' p : run (es ++ es') p = run es p ≫= run es'.
Proof.
  revert p. induction es as [|e es IH]; intros p; simpl; [done|].
  destruct (enabled e p); [|done]. destruct (handle e p); [apply IH|done..].
Qed.

Definition sample_options (n min : Z) : PoolOptions := mkOptions 2 n 0 min 4.

Definition sample_pool (n min : Z) : Pool :=
  (start (sample_options n min) 4 (λ _, true) (λ _, true)).1.1.

Lemma sample_reachable es n min p :
  0 ≤ n < two32 → run es (sample_pool n min) = Some p → pool_reachable p.
Proof.
  intros Hn Hrun. eapply pool_run_reachable; [|exact Hrun].
  destruct (start (sample_options n min) 4 (λ _, true) (λ _, true)) as [[p0 a] ok] eqn:Hst.
  unfold sample_pool. rewrite Hst. simpl.
  assert (ok = true) as ->.
  { unfold start in Hst. simpl in Hst.
    assert (∀ k i s, (spawn_stateless_workers k i (λ _, true) s).2 = true) as Hall.
    { induction k as [|k IH]; intros i s; simpl; [done|apply IH]. }
    specialize (Hall (Z.to_nat n) 0%nat empty_slots).
    destruct (spawn_stateless_workers _ _ _ _) as [s ok']. simpl in Hall. subst ok'.
    simpl in Hst. by simplify_eq. }
  eapply pr_start; [|exact Hst]. split; simpl; [unfold two32; lia|done].
Qed.

(** 4 GB of memory with 2 GB, or 0.2 GB, available. *)
Definition half_free : Memory := mkMemory 4000000000 0 2000000000.
Definition nearly_full : Memory := mkMemory 4000000000 0 200000000.

(** Two workers, a high-priority request on the first, a low-priority one queued
    behind another. *)
Definition sample_run : list Event := [ESend 1 High false; ESend 2 Low false; ESend 3 Low false].

(** ** Invariants *)

(** In every state a run of the pool reaches - requests sent, woken, answered
    and cancelled, workers crashing, respawning, retiring and being added - the
    counters are exact: [alive_stateless_count], [stateless_busy_count] and
    [low_busy_count] are the numbers of alive, busy and low-priority busy workers;
    a busy worker is alive, has a peer and is not being retired; and no slot has
    restarted more often than allowed. *)
Theorem counters_exact (p : Pool) :
  pool_reachable p →
  alive_stateless_count (slots p) = count alive (workers p) ∧
  stateless_busy_count (slots p) = count busy (workers p) ∧
  low_busy_count (slots p) = count (λ w, busy w && low_priority w) (workers p) ∧
  ∀ i w, workers p !! i = Some w →
    (busy w = true → alive w = true ∧ peer w = true ∧ retiring w = false) ∧
    0 ≤ restart_count w ≤ max_restarts (options p).
Proof.
  intros Hr. destruct (pool_reachable_ok p Hr) as [[[Hw _ Ha Hb Hl] _ _ _] _ _].
  split_and!; [done|done| |].
  - rewrite Hl. apply count_ext. intros i w Hi. pose proof (ok_low_busy _ _ (Hw i w Hi)) as Hlb.
    destruct (low_priority w); [by rewrite Hlb|by rewrite andb_false_r].
  - intros i w Hi. destruct (Hw i w Hi) as [K1 K2 K3 K4 K5]. split; [|done]. intros Hbu.
    split_and!; [by apply K1|by apply K4, K1|]. destruct (retiring w); [|done]. by rewrite K3 in Hbu.
Qed.

Lemma counters_exact_witness :
  ∃ p, run sample_run (sample_pool 2 1) = Some p ∧
       stateless_busy_count (slots p) = count busy (workers p) ∧ stateless_busy_count (slots p) = 2.
Proof.
  destruct (run sample_run (sample_pool 2 1)) as [p|] eqn:Hrun; [|by vm_compute in Hrun].
  exists p. split; [reflexivity|].
  destruct (counters_exact p) as (_ & Hb & _).
  - eapply (sample_reachable _ 2 1); [by split|exact Hrun].
  - split; [exact Hb|]. vm_compute in Hrun. injection Hrun as <-. reflexivity.
Defined.

(** C31. A worker slot is never shared: in every reachable state a busy worker is
    held by exactly one request at the worker's current generation, waiting to
    start on it or waiting for its reply, with the priority the slot is marked
    with; and a request that holds a live worker's current generation finds it
    still marked busy, so a slot is not handed out again before it is released. *)
Theorem slot_exclusive (p : Pool) (i : nat) (w : WorkerProcess) :
  pool_reachable p → workers p !! i = Some w →
  (busy w = true →
   ∃ r f, frames p !! r = Some f ∧ holds f = Some (i, restart_count w) ∧
     low_priority w = bool_decide (priority f = Low) ∧
     ∀ r' f', frames p !! r' = Some f' → holds f' = Some (i, restart_count w) → r' = r) ∧
  (∀ r f g, frames p !! r = Some f → holds f = Some (i, g) → alive w = true →
     g ≤ restart_count w ∧ (g = restart_count w → busy w = true)).
Proof.
  intros Hr Hw. destruct (pool_reachable_ok p Hr) as [[Hs [Hh H1 Hb] _ _] _ _]. split.
  - intros Hbu. destruct (Hb i w Hw Hbu) as (r & f & Hf & Hho). exists r, f.
    destruct (Hh r f i _ Hf Hho) as (v & Hv & _ & Hbusy). rewrite Hw in Hv. injection Hv as <-.
    destruct (Hbusy eq_refl) as [_ Hlow]; [by apply (ok_busy_alive _ _ (ok_workers _ _ Hs i w Hw))|].
    split_and!; [done|done|done|]. intros r' f' Hf' Hho'. by eapply H1.
  - intros r f g Hf Hho Hal. destruct (Hh r f i g Hf Hho) as (v & Hv & Hle & Hbusy).
    rewrite Hw in Hv. injection Hv as <-. split; [done|]. intros ->. by apply Hbusy.
Qed.

Lemma slot_exclusive_witness :
  ∃ p w, run sample_run (sample_pool 2 1) = Some p ∧ workers p !! 0%nat = Some w ∧
    ∃ r f, frames p !! r = Some f ∧ holds f = Some (0%nat, restart_count w).
Proof.
  destruct (run sample_run (sample_pool 2 1)) as [p|] eqn:Hrun; [|by vm_compute in Hrun].
  assert (pool_reachable p) as Hr by (eapply (sample_reachable _ 2 1); [by split|exact Hrun]).
  vm_compute in Hrun. injection Hrun as Hp.
  assert (workers p !! 0%nat = Some (mkWorker true true false 0 false true)) as Hw
    by (subst p; reflexivity).
  exists p, (mkWorker true true false 0 false true).
  split; [by subst p|]. split; [exact Hw|].
  destruct (slot_exclusive p 0 _ Hr Hw) as [Hbusy _].
  destruct (Hbusy eq_refl) as (r & f & Hf & Hh & _). by exists r, f.
Defined.

(** The concurrency limit of low-priority work fits the pool at every moment:
    its ceiling is one less than the number of alive workers (all of them when
    there is at most one), the limit never exceeds the ceiling, whatever mixture of
    crash backoff, memory pressure, recovery and scaling produced it, and it never
    reaches zero while a worker is alive. *)
Theorem low_limit_bounds (p : Pool) :
  pool_reachable p →
  max_low_limit (limits p) =
    (if bool_decide (1 < count alive (workers p)) then count alive (workers p) - 1
     else count alive (workers p)) ∧
  low_limit (limits p) ≤ max_low_limit (limits p) ∧
  (0 < count alive (workers p) → 1 ≤ low_limit (limits p)).
Proof.
  intros Hr. destruct (pool_reachable_ok p Hr) as [[Hs _ _ _] [_ _ H3 H4 H5 _] _].
  destruct (low_ceiling_eq _ _ Hs) as (Hc & _ & Hc'). rewrite (ok_alive _ _ Hs) in *.
  split_and!; [congruence|lia|]. intros Hpos. rewrite H3 in H5. specialize (H5 (Hc' Hpos)). lia.
Qed.

Lemma low_limit_bounds_witness :
  ∃ p, run (ETick nearly_full half_free true :: sample_run) (sample_pool 3 1) = Some p ∧
       low_limit (limits p) ≤ max_low_limit (limits p).
Proof.
  destruct (run (ETick nearly_full half_free true :: sample_run) (sample_pool 3 1)) as [p|] eqn:Hrun;
    [|by vm_compute in Hrun].
  exists p. split; [reflexivity|]. apply (low_limit_bounds p).
  eapply (sample_reachable _ 3 1); [by split|exact Hrun].
Defined.

(** C32. No wakeup is lost: a request that has not failed on a worker yet stays in a
    queue only while there is no idle worker for it, or, for a low-priority one,
    while the low-priority limit is used up; so whenever a slot, a respawned or a
    new worker or a raised limit makes room, it has been handed on in the same step. *)
Theorem no_lost_wakeup (p : Pool) (r : nat) (f : Frame) :
  pool_reachable p → frames p !! r = Some f → await f = Queued → exclude f = None →
  count idle_worker (workers p) = 0 ∨
  (priority f = Low ∧ low_limit (limits p) ≤ count (λ w, busy w && low_priority w) (workers p)).
Proof.
  intros Hr Hf Haw Hex. destruct (pool_reachable_ok p Hr) as [[Hs _ [_ Hhq] [_ Hlq]] _ Hli].
  destruct (Hli r f) as [Hz|[Hlow Hlim]]; [|done|done|by left|].
  - apply elem_of_app. rewrite Hhq, Hlq. destruct (priority f) eqn:Hp; [left|right]; by exists f.
  - right. split; [done|]. etrans; [exact Hlim|]. rewrite (ok_low _ _ Hs).
    erewrite count_ext; [done|]. intros i w Hi. pose proof (ok_low_busy _ _ (ok_workers _ _ Hs i w Hi)) as Hlb.
    simpl. destruct (low_priority w); [by rewrite Hlb|by rewrite andb_false_r].
Qed.

Lemma no_lost_wakeup_witness :
  ∃ p f, run sample_run (sample_pool 2 1) = Some p ∧ frames p !! 3%nat = Some f ∧
    (count idle_worker (workers p) = 0 ∨
     (priority f = Low ∧ low_limit (limits p) ≤ count (λ w, busy w && low_priority w) (workers p))).
Proof.
  destruct (run sample_run (sample_pool 2 1)) as [p|] eqn:Hrun; [|by vm_compute in Hrun].
  assert (pool_reachable p) as Hr by (eapply (sample_reachable _ 2 1); [by split|exact Hrun]).
  vm_compute in Hrun. injection Hrun as Hp.
  assert (frames p !! 3%nat = Some (mkFrame Low None NoToken 1 Queued)) as Hf by (subst p; reflexivity).
  exists p, (mkFrame Low None NoToken 1 Queued). split; [by subst p|]. split; [exact Hf|].
  apply (no_lost_wakeup p 3 _ Hr Hf); reflexivity.
Defined.

(** ** Steps *)

(** No step of the pool runs into undefined behaviour: from a reachable state
    every event that can occur is handled to completion - no worker is picked when
    none is idle, no index is out of range, no peer is missing - except when a
    request excludes a worker that is being retired at the same time. *)
Theorem pool_makes_progress (p : Pool) (e : Event) :
  pool_reachable p → enabled e p = true → ~ exclusion_clash p →
  ∃ p', handle e p = Ok p' ∧ pool_reachable p'.
Proof.
  intros Hr Hen Hno. destruct (handle_ok e p (pool_reachable_ok p Hr) Hen) as [[_ Hcl]|(p' & Hp' & _)].
  - done.
  - exists p'. split; [done|]. by eapply pr_event.
Qed.

Lemma pool_makes_progress_witness :
  ∃ p p', run sample_run (sample_pool 2 1) = Some p ∧
          handle (EExit 0 None true) p = Ok p' ∧ pool_reachable p'.
Proof.
  destruct (run sample_run (sample_pool 2 1)) as [p|] eqn:Hrun; [|by vm_compute in Hrun].
  assert (pool_reachable p) as Hr by (eapply (sample_reachable _ 2 1); [by split|exact Hrun]).
  exists p.
  destruct (pool_makes_progress p (EExit 0 None true) Hr) as (p' & Hh & Hr').
  - vm_compute in Hrun. injection Hrun as <-. reflexivity.
  - vm_compute in Hrun. injection Hrun as <-. intros (r & f & e & w & _ & Hw & Hre & _).
    destruct e as [|[|e]]; vm_compute in Hw; [| |discriminate]; injection Hw as <-; discriminate.
  - exists p'. split; [reflexivity|]. split; [exact Hh|exact Hr'].
Defined.

(** [try_dispatch_pending] serves in order: from each queue it removes a prefix
    and wakes exactly those requests, each with an idle worker and its generation;
    it leaves a high-priority request waiting only when no worker is idle, and
    serves no low-priority request then; it leaves a low-priority one waiting only
    when no worker is idle or the limit is used up; every other request is untouched. *)
Theorem dispatch_policy (p : Pool) :
  pool_reachable p →
  ∃ p' served_high served_low, try_dispatch_pending p = Ok p' ∧
    high_queue p = served_high ++ high_queue p' ∧ low_queue p = served_low ++ low_queue p' ∧
    (∀ r, r ∈ served_high ++ served_low →
       ∃ f i w, frames p !! r = Some f ∧ workers p' !! i = Some w ∧ alive w = true ∧ busy w = true ∧
                frames p' !! r = Some (woken f (Some (i, restart_count w)))) ∧
    (∀ r, r ∉ served_high ++ served_low → frames p' !! r = frames p !! r) ∧
    (high_queue p' ≠ [] → count idle_worker (workers p') = 0 ∧ served_low = []) ∧
    (low_queue p' ≠ [] → count idle_worker (workers p') = 0 ∨
                         low_limit (limits p) ≤ low_busy_count (slots p')).
Proof.
  intros Hr. destruct (pool_reachable_ok p Hr) as [Hok _ _].
  destruct (try_dispatch_ok p Hok)
    as (s' & hq' & lq' & fr' & Hd & [Hs' [Hh _ _] _ _] & Ht & _ & [(ph & pl & Hph & Hpl & Hin & Hout) Hhf Hls]).
  exists (with_slots s' (with_waiting hq' lq' fr' p)), ph, pl. simpl.
  split_and!; [done|done|done| |done| |done].
  - intros r Hr'. destruct (served_traits _ s' _ _ _ Ht (Hin r Hr')) as (f & i & w & Hf & Hw & Hal & Hf').
    exists f, i, w. split_and!; [done|done|done| |done].
    destruct (Hh r _ i (restart_count w) Hf' eq_refl) as (v & Hv & _ & Hbusy).
    rewrite Hw in Hv. injection Hv as <-. by apply Hbusy.
  - intros Hne. destruct (Hhf Hne) as [Hz Hlq]. split; [done|].
    rewrite Hlq in Hpl. apply (f_equal length) in Hpl. rewrite length_app in Hpl.
    apply nil_length_inv. lia.
Qed.

Lemma dispatch_policy_witness :
  ∃ p p', run sample_run (sample_pool 2 1) = Some p ∧ try_dispatch_pending p = Ok p' ∧
          low_queue p' = [3%nat].
Proof.
  destruct (run sample_run (sample_pool 2 1)) as [p|] eqn:Hrun; [|by vm_compute in Hrun].
  exists p. destruct (dispatch_policy p) as (p' & sh & sl & Hd & Hh & Hl & _).
  - eapply (sample_reachable _ 2 1); [by split|exact Hrun].
  - exists p'. split; [reflexivity|]. split; [exact Hd|].
    vm_compute in Hrun. injection Hrun as <-. vm_compute in Hd. injection Hd as <-. reflexivity.
Defined.

(** ** After the stop *)

(** Request [r] is not in a queue, and an operation leaves it as it is. *)
Definition out_of_queues (r : nat) (p : Pool) : Prop := r ∉ high_queue p ∧ r ∉ low_queue p.

Definition leaves (r : nat) (p p' : Pool) : Prop :=
  out_of_queues r p → out_of_queues r p' ∧ frames p' !! r = frames p !! r ∧ outcomes p' !! r = outcomes p !! r ∧
    shutting_down p' = shutting_down p.

Lemma leaves_refl r p : leaves r p p.
Proof. done. Qed.

Lemma leaves_trans r p1 p2 p3 : leaves r p1 p2 → leaves r p2 p3 → leaves r p1 p3.
Proof.
  intros H1 H2 Hr. destruct (H1 Hr) as (Hr2 & ? & ? & ?). destruct (H2 Hr2) as (? & ? & ? & ?).
  split; [done|]. split_and!; congruence.
Qed.

Lemma wake_leaves r x a fr fr' : wake x a fr = Ok fr' → x ≠ r → fr' !! r = fr !! r.
Proof.
  unfold wake. destruct (fr !! x); [|done]. simpl. intros [= <-] Hne. by rewrite lookup_insert_ne.
Qed.

Lemma dispatch_leaves r limit is_low q idle s fr q' idle' s' fr' :
  dispatch limit is_low q idle s fr = Ok (q', idle', s', fr') → r ∉ q → r ∉ q' ∧ fr' !! r = fr !! r.
Proof.
  revert idle s fr. induction q as [|next q IH]; intros idle s fr Hd Hr; cbn [dispatch] in Hd; [by simplify_eq|].
  apply not_elem_of_cons in Hr as [Hne Hr]. destruct (bool_decide _ && _).
  - destruct (pick_idle_stateless None s) as [idx| | |]; [|done..]. cbn [Res_bind] in Hd.
    destruct (occupy idx is_low s) as [s1| | |]; [|done..]. cbn [Res_bind] in Hd.
    destruct (stateless_workers s1 !! idx) as [w|]; [|done]. cbn [read Res_bind] in Hd.
    destruct (wake next _ fr) as [fr1| | |] eqn:Hw; [|done..]. cbn [Res_bind] in Hd.
    destruct (IH _ _ _ Hd Hr) as [? ->]. split; [done|]. by eapply wake_leaves.
  - simplify_eq. split; [|done]. by apply not_elem_of_cons.
Qed.

Lemma try_dispatch_leaves r p p' : try_dispatch_pending p = Ok p' → leaves r p p'.
Proof.
  unfold try_dispatch_pending. intros Hd [Hh Hl].
  destruct (dispatch _ false _ _ _ _) as [[[[hq idle] s] fr]| | |] eqn:E1; [|done..]. cbn [Res_bind] in Hd.
  destruct (dispatch _ true _ _ _ _) as [[[[lq idle2] s2] fr2]| | |] eqn:E2; [|done..]. cbn [Res_bind] in Hd.
  destruct (dispatch_leaves r _ _ _ _ _ _ _ _ _ _ E1 Hh) as [? Hf1].
  destruct (dispatch_leaves r _ _ _ _ _ _ _ _ _ _ E2 Hl) as [? Hf2].
  injection Hd as <-. split_and!; try done. cbn. congruence.
Qed.

Lemma drain_leaves r q fr fr' : for_each q (λ next, wake next None) fr = Ok (E := unit) fr' → r ∉ q → fr' !! r = fr !! r.
Proof.
  revert fr. induction q as [|next q IH]; intros fr Hd Hr; cbn [for_each] in Hd; [by simplify_eq|].
  apply not_elem_of_cons in Hr as [Hne Hr]. destruct (wake next None fr) as [fr1| | |] eqn:Hw; [|done..].
  cbn [Res_bind] in Hd. rewrite (IH _ Hd Hr). by eapply wake_leaves.
Qed.

Lemma fail_pending_leaves r p p' : fail_pending_requests p = Ok p' → leaves r p p'.
Proof.
  unfold fail_pending_requests. intros Hd [Hh Hl].
  destruct (for_each (high_queue p) _ _) as [fr| | |] eqn:E1; [|done..]. cbn [Res_bind] in Hd.
  destruct (for_each (low_queue p) _ _) as [fr2| | |] eqn:E2; [|done..]. cbn [Res_bind] in Hd.
  injection Hd as <-. split; [split; apply not_elem_of_nil|]. split; [cbn|done].
  rewrite (drain_leaves r _ _ _ E2 Hl). by eapply drain_leaves.
Qed.

Lemma release_leaves r i g p p' : release_if_current i g p = Ok p' → leaves r p p'.
Proof.
  unfold release_if_current, release_stateless_slot. destruct (workers p !! i) as [w|]; [|done]. cbn [read Res_bind].
  case_bool_decide; [|by intros [= <-]]. destruct (busy w); [|by intros [= <-]].
  destruct (vacate i _) as [s| | |]; [|done..]. cbn [Res_bind]. intros Hd. by apply (try_dispatch_leaves r) in Hd.
Qed.

Lemma send_request_leaves r x f i w p p' : send_request x f i w p = Ok p' → x ≠ r → leaves r p p'.
Proof.
  unfold send_request. destruct (negb (peer w)); [done|].
  destruct (priority f); intros [= <-] Hne Hr; (split_and!; [exact Hr|cbn; by rewrite lookup_insert_ne|done..]).
Qed.

Lemma enqueue_leaves r x f p : x ≠ r → leaves r p (enqueue x f p).
Proof.
  intros Hne [Hh Hl]. unfold enqueue, out_of_queues. destruct (priority f); cbn;
    rewrite ?not_elem_of_app, ?list_elem_of_singleton, lookup_insert_ne by done; naive_solver.
Qed.

Lemma attempt_leaves r n x f p p' : attempt n x f p = Ok p' → x ≠ r → leaves r p p'.
Proof.
  revert f p. induction n as [|n IH]; intros f p Ha Hne; cbn [attempt] in Ha.
  { injection Ha as <-. intros Hr. split_and!; [exact Hr|done| |done]. cbn. by rewrite lookup_insert_ne. }
  destruct (acquire_stateless_slot _ _ _) as [[p1 a]| | |] eqn:Eq; [|done..]. cbn [Res_bind] in Ha.
  assert (leaves r p p1) as Hp1.
  { unfold acquire_stateless_slot in Eq. case_bool_decide; [by simplify_eq|].
    destruct (can_proceed _ _ _); [|by simplify_eq].
    destruct (pick_idle_stateless _ _); [|done..]. cbn [Res_bind] in Eq.
    destruct (occupy _ _ _); [|done..]. cbn [Res_bind] in Eq. by simplify_eq. }
  eapply leaves_trans; [exact Hp1|]. destruct a as [| |idx].
  - injection Ha as <-. intros Hr. split_and!; [exact Hr|done| |done]. cbn. by rewrite lookup_insert_ne.
  - injection Ha as <-. by apply enqueue_leaves.
  - destruct (workers p1 !! idx) as [w|]; [|done]. cbn [read Res_bind] in Ha. destruct (alive w).
    + by eapply send_request_leaves.
    + destruct (release_if_current _ _ _) as [p2| | |] eqn:Er; [|done..]. cbn [Res_bind] in Ha.
      eapply leaves_trans; [by eapply release_leaves|by eapply IH].
Qed.

Lemma forget_leaves r x p : x ≠ r → leaves r p (with_frames (delete x (frames p)) p).
Proof. intros Hne Hr. split_and!; [exact Hr|cbn; by rewrite lookup_delete_ne|done..]. Qed.

Lemma outcome_leaves r x o p : x ≠ r → leaves r p (with_outcome x o p).
Proof. intros Hne Hr. split_and!; [exact Hr|done|cbn; by rewrite lookup_insert_ne|done]. Qed.

Lemma resume_leaves r x p p' : resume x p = Ok p' → x ≠ r → leaves r p p'.
Proof.
  unfold resume. destruct (frames p !! x) as [f|]; [|by intros [= <-]].
  destruct (await f) as [|[[i g]|]|]; try (by intros [= <-]); intros Hr Hne;
    (eapply leaves_trans; [by apply (forget_leaves r x)|]).
  - destruct (workers _ !! i) as [w|]; [|done]. cbn [read Res_bind] in Hr. case_bool_decide; [|by eapply attempt_leaves].
    destruct (alive w); [by eapply send_request_leaves|].
    destruct (release_if_current _ _ _) as [p2| | |] eqn:Er; [|done..]. cbn [Res_bind] in Hr.
    eapply leaves_trans; [by eapply release_leaves|by eapply attempt_leaves].
  - injection Hr as <-. by apply outcome_leaves.
Qed.

Lemma reply_leaves r x ok p p' : reply x ok p = Ok p' → x ≠ r → leaves r p p'.
Proof.
  unfold reply. destruct (frames p !! x) as [f|]; [|by intros [= <-]].
  destruct (await f) as [| |i g src]; try (by intros [= <-]). intros Hr Hne.
  eapply leaves_trans; [by apply (forget_leaves r x)|].
  assert (∀ o, release_if_current i g (with_outcome x o (with_frames (delete x (frames p)) p)) = Ok p' →
    leaves r (with_frames (delete x (frames p)) p) p') as Hend.
  { intros o Ho. eapply leaves_trans; [by apply (outcome_leaves r x o)|by eapply release_leaves]. }
  destruct ok; [by eapply Hend|]. destruct (match src with Some _ => _ | None => _ end); [by eapply Hend|].
  destruct (release_if_current _ _ _) as [p2| | |] eqn:Er; [|done..]. cbn [Res_bind] in Hr.
  eapply leaves_trans; [by eapply release_leaves|by eapply attempt_leaves].
Qed.

Lemma destroy_leaves r x p p' : destroy x p = Ok p' → x ≠ r → leaves r p p'.
Proof.
  unfold destroy. destruct (frames p !! x) as [f|]; [|by intros [= <-]]. intros Hd Hne.
  eapply leaves_trans; [by apply (forget_leaves r x)|]. eapply leaves_trans; [by apply (outcome_leaves r x Destroyed)|].
  destruct (await f) as [|[[i g]|]|i g src]; [|by eapply release_leaves|by simplify_eq|by eapply release_leaves].
  destruct (priority f); injection Hd as <-; intros [Hh Hl]; (split; [split|done]); cbn; try done;
    rewrite list_elem_of_filter; naive_solver.
Qed.

(** After the stop no worker is replaced and the monitor does nothing: the only events
    that concern a request are its own. *)
Lemma stopped_leaves r e p p' :
  shutting_down p = true → handle e p = Ok p' →
  (∀ pr tok, e ≠ ESend r pr tok) → e ≠ EResume r → (∀ ok, e ≠ EReply r ok) → e ≠ EDestroy r → leaves r p p'.
Proof.
  intros Hd He Hs Hre Hrp Hde. destruct e as [x pr tok|x|x ok|x|i ended spawned|mem mem' spawned|]; cbn in He.
  - assert (x ≠ r) by (intros ->; by eapply Hs). unfold send_stateless in He.
    destruct (workers p); [injection He as <-; by apply outcome_leaves|by eapply attempt_leaves].
  - eapply resume_leaves; [done|congruence].
  - eapply reply_leaves; [done|]. intros ->. by eapply Hrp.
  - eapply destroy_leaves; [done|congruence].
  - unfold monitor_worker in He. rewrite Hd in He. by simplify_eq.
  - unfold monitor_memory in He. rewrite Hd in He. by simplify_eq.
  - unfold stop in He. intros Hr. destruct (fail_pending_leaves r _ _ He Hr) as (? & ? & ? & Hsd).
    split_and!; try done. cbn in Hsd. congruence.
Qed.

(** What becomes of a request that was queued at the stop. *)
Definition ending (r : nat) (p : Pool) : Prop :=
  shutting_down p = true ∧ out_of_queues r p ∧
  ((∃ f, frames p !! r = Some f ∧ await f = Woken None) ∨
   (frames p !! r = None ∧ outcomes p !! r = Some AllWorkersDown)).

Lemma ending_step r e p p' :
  ending r p → enabled e p = true → handle e p = Ok p' → e ≠ EDestroy r → ending r p'.
Proof.
  intros (Hd & Hq & Hcase) Hen He Hde.
  assert (leaves r p p' → ending r p') as Hkeep.
  { intros Hl. destruct (Hl Hq) as (? & Hf & Ho & Hs). split_and!; [congruence|done..|]. by rewrite Hf, Ho. }
  assert (e = EResume r ∨ e ≠ EResume r) as [->|Hre]
    by (destruct e as [|x| | | | |]; try (by right); destruct (decide (x = r)) as [->|]; [by left|right; congruence]).
  { cbn in He. unfold resume in He. destruct Hcase as [(f & Hf & Haw)|[Hf Ho]]; rewrite Hf in He.
    - rewrite Haw in He. injection He as <-. split_and!; [done|exact Hq|]. right. cbn.
      by rewrite lookup_delete_eq, lookup_insert_eq.
    - injection He as <-. by apply Hkeep. }
  assert ((∃ ok, e = EReply r ok) ∨ ∀ ok, e ≠ EReply r ok) as [[ok ->]|Hrp].
  { destruct e as [| |x ok| | | |]; try (by right). destruct (decide (x = r)) as [->|]; [left; by exists ok|right; congruence]. }
  { cbn in He. unfold reply in He. apply Hkeep. destruct Hcase as [(f & Hf & Haw)|[Hf Ho]]; rewrite Hf in He.
    - rewrite Haw in He. by injection He as <-.
    - by injection He as <-. }
  apply Hkeep. eapply stopped_leaves; [done|done| |done|done|done].
  intros pr tok ->. cbn in Hen. apply bool_decide_eq_true in Hen as [Hf Ho].
  destruct Hcase as [(f & Hf' & _)|[_ Ho']]; congruence.
Qed.

Lemma ending_run r es p p' :
  ending r p → EDestroy r ∉ es → run es p = Some p' → ending r p'.
Proof.
  revert p. induction es as [|e es IH]; intros p Hp Hes Hrun; simplify_eq/=; [done|].
  apply not_elem_of_cons in Hes as [Hne Hes].
  destruct (enabled e p) eqn:Hen; [|done]. destruct (handle e p) as [p1| | |] eqn:Hh; try done.
  eapply IH; [|done|exact Hrun]. eapply ending_step; [exact Hp|done|done|congruence].
Qed.

(** C33. The requests that wait when the pool is stopped end with an error: [stop] empties both
    queues, and whatever happens after it, a request that was queued then, unless it
    is destroyed, is never given a worker, never queued again and never left suspended: at any later moment it has
    ended with the error that all workers are down, or it is awake and ends so as soon as it
    runs on.  Nothing is said of requests that had a worker at the stop and retry after it: such a
    retry can be queued with nobody left to wake it. *)
Theorem stop_ends_waiters (p : Pool) (r : nat) (f : Frame) :
  pool_reachable p → frames p !! r = Some f → await f = Queued →
  ∃ p', stop p = Ok p' ∧ high_queue p' = [] ∧ low_queue p' = [] ∧ shutting_down p' = true ∧
    ∀ es q, run es p' = Some q → EDestroy r ∉ es →
      (outcomes q !! r = Some AllWorkersDown ∧ frames q !! r = None) ∨
      ∃ q', resume r q = Ok q' ∧ outcomes q' !! r = Some AllWorkersDown ∧ frames q' !! r = None.
Proof.
  intros Hr Hf Haw. pose proof (pool_reachable_ok p Hr) as Hp.
  pose proof Hp as [[_ _ [_ Hhq] [_ Hlq]] _ _].
  destruct (stop_ok p Hp) as (p' & Hst & _ & Hh & Hl & Hd & _ & Hin).
  exists p'. split_and!; [done|done|done|done|]. intros es q Hrun Hes.
  destruct (Hin r) as (f' & _ & Hw).
  { rewrite Hhq, Hlq. destruct (priority f) eqn:Hpr; [left|right]; by exists f. }
  destruct (ending_run r es p' q) as (_ & _ & [(g & Hg & Hgw)|[Hg Ho]]); [|done|done| |by left].
  - split; [done|]. split; [unfold out_of_queues; rewrite Hh, Hl; split; apply not_elem_of_nil|].
    left. by exists (woken f' None).
  - right. unfold resume. rewrite Hg, Hgw. eexists. split; [done|]. cbn.
    by rewrite lookup_insert_eq, lookup_delete_eq.
Qed.

(** Request 3 waits; after the stop the reply of request 1 comes in first. *)
Lemma stop_ends_waiters_witness :
  ∃ p p' q, run sample_run (sample_pool 2 1) = Some p ∧ stop p = Ok p' ∧ run [EReply 1 true; EStop] p' = Some q ∧
    ((outcomes q !! 3%nat = Some AllWorkersDown ∧ frames q !! 3%nat = None) ∨
     ∃ q', resume 3 q = Ok q' ∧ outcomes q' !! 3%nat = Some AllWorkersDown ∧ frames q' !! 3%nat = None).
Proof.
  destruct (run sample_run (sample_pool 2 1)) as [p|] eqn:Hrun; [|by vm_compute in Hrun].
  assert (pool_reachable p) as Hr by (eapply (sample_reachable _ 2 1); [by split|exact Hrun]).
  exists p.
  destruct (stop_ends_waiters p 3 (mkFrame Low None NoToken 1 Queued) Hr)
    as (p' & Hst & _ & _ & _ & Hall).
  - vm_compute in Hrun. injection Hrun as <-. reflexivity.
  - reflexivity.
  - exists p'. destruct (run [EReply 1 true; EStop] p') as [q|] eqn:Hq.
    + exists q. split; [reflexivity|]. split; [exact Hst|]. split; [reflexivity|].
      apply (Hall _ _ Hq). rewrite !not_elem_of_cons. split; [discriminate|]. split; [discriminate|].
      apply not_elem_of_nil.
    + exfalso. vm_compute in Hrun. injection Hrun as <-. vm_compute in Hst. injection Hst as <-. by vm_compute in Hq.
Defined.

(** The retry of a request that had a worker at the stop: the only worker is excluded,
    so the request is queued, and neither the end of the worker's process nor
    the monitor wakes it. *)
Theorem stop_strands_retry (n : nat) :
  ∃ p, run ([ESend 1 High false; EStop; EReply 1 false] ++ replicate n (ETick half_free half_free true) ++ [EExit 0 None true])
         (sample_pool 1 1) = Some p ∧
    shutting_down p = true ∧ high_queue p = [1%nat] ∧ outcomes p !! 1%nat = None.
Proof.
  destruct (run [ESend 1 High false; EStop; EReply 1 false] (sample_pool 1 1)) as [p|] eqn:Hrun;
    [|by vm_compute in Hrun].
  exists p. rewrite run_app, Hrun. simpl. split.
  - assert (run [ETick half_free half_free true] p = Some p ∧ run [EExit 0 None true] p = Some p) as [Htick Hexit].
    { vm_compute in Hrun. injection Hrun as <-. by vm_compute. }
    induction n as [|n IH]; [done|]. change (replicate (S n) ?e ++ ?l) with ([e] ++ (replicate n e ++ l)).
    by rewrite run_app, Htick.
  - vm_compute in Hrun. injection Hrun as <-. by vm_compute.
Qed.

(** ** Where the exclusion of a failed worker does not do what it is meant to *)

(** The retry of a failed request can go to the very worker it just failed on:
    with two idle workers, the request that fails on worker 0 is sent to worker 0
    again, because the worker is picked without the exclusion. *)
Theorem retry_hits_failed_worker :
  ∃ p f, run [ESend 1 High false; EReply 1 false] (sample_pool 2 1) = Some p ∧
    count alive (workers p) = 2 ∧ count busy (workers p) = 1 ∧
    frames p !! 1%nat = Some f ∧ exclude f = Some 0%nat ∧ await f = Sent 0 0 None.
Proof. eexists _, _. split_and!; vm_compute; reflexivity. Qed.

(** A request that failed on the only worker waits although the worker is idle,
    and no further tick of the monitor, however many there are, wakes it. *)
Theorem excluded_worker_strands_request (n : nat) :
  ∃ p, run ([ESend 1 High false; EReply 1 false] ++ replicate n (ETick half_free half_free true))
         (sample_pool 1 1) = Some p ∧
    high_queue p = [1%nat] ∧ count idle_worker (workers p) = 1 ∧ count busy (workers p) = 0.
Proof.
  destruct (run [ESend 1 High false; EReply 1 false] (sample_pool 1 1)) as [p|] eqn:Hrun;
    [|by vm_compute in Hrun].
  exists p. rewrite run_app, Hrun. simpl. split.
  - assert (run [ETick half_free half_free true] p = Some p) as Htick.
    { vm_compute in Hrun. injection Hrun as <-. by vm_compute. }
    induction n as [|n IH]; [done|]. change (replicate (S n) ?e) with ([e] ++ replicate n e).
    by rewrite run_app, Htick.
  - vm_compute in Hrun. injection Hrun as <-. by vm_compute.
Qed.

(** The events that lead there: request 2 fails on worker 1 and waits; worker 1 is
    retired; request 2 is given worker 0, which crashes and restarts before the
    request runs on; request 3 takes it. *)
Definition clash_run : list Event :=
  [ESend 1 High false; ESend 2 High false; EReply 2 false; ETick nearly_full half_free true;
   EReply 1 true; EExit 0 None true; ESend 3 High false].

(** A worker that is both excluded and retiring is subtracted from the idle
    count twice: the [size_t] wraps, the request proceeds without an idle worker and
    runs into [llvm_unreachable]. *)
Theorem excluded_retiring_worker_faults :
  ∃ p, run clash_run (sample_pool 2 1) = Some p ∧ pool_reachable p ∧
    idle_seen (Some 1%nat) (slots p) = two64 - 1 ∧ count idle_worker (workers p) = 0 ∧
    enabled (EResume 2) p = true ∧ handle (EResume 2) p = Fault.
Proof.
  destruct (run clash_run (sample_pool 2 1)) as [p|] eqn:Hrun; [|by vm_compute in Hrun].
  exists p. split; [done|]. split; [eapply (sample_reachable _ 2 1); [split; [lia|reflexivity]|exact Hrun]|].
  vm_compute in Hrun. injection Hrun as <-. split_and!; by vm_compute.
Qed.
