(* ===== verification/Text.v ===== *)
(** * Text: the string operations the renderers and parsers of comments use

    [llvm::StringRef] views as byte lists: the ASCII character classes, trimming,
    prefixes, searching, splitting, with the facts on them. *)
From S2P Require Import Prelude.
From stdpp Require Import options.
Local Open Scope Z_scope.

(** ** Character classes, independent of the locale *)

Definition between (lo hi : Z) (c : ascii) : bool :=
  bool_decide (lo ≤ code c) && bool_decide (code c ≤ hi).

Definition isDigit (c : ascii) : bool := between 48 57 c.
Definition isAlpha (c : ascii) : bool := between 65 90 c || between 97 122 c.
Definition isAlnum (c : ascii) : bool := isAlpha c || isDigit c.
Definition isHexDigit (c : ascii) : bool := isDigit c || between 65 70 c || between 97 102 c.
(** Tab, line feed, vertical tab, form feed, carriage return and space. *)
Definition isSpace (c : ascii) : bool := between 9 13 c || bool_decide (code c = 32).

Definition toLower (c : ascii) : ascii :=
  if between 65 90 c then ascii_of_N (Z.to_N (code c + 32)) else c.

Definition newline : ascii := "010"%char.
Definition blank : ascii := " "%char.
Definition backslash : ascii := "\"%char.
Definition backtick : ascii := "`"%char.

(** ** Prefixes, trimming *)

Fixpoint drop_while (f : ascii → bool) (s : bytes) : bytes :=
  match s with
  | [] => []
  | c :: s' => if f c then drop_while f s' else s
  end.

Fixpoint take_while (f : ascii → bool) (s : bytes) : bytes :=
  match s with
  | [] => []
  | c :: s' => if f c then c :: take_while f s' else []
  end.

Definition starts_with (prefix s : bytes) : bool := bool_decide (take (length prefix) s = prefix).
Definition ends_with (suffix s : bytes) : bool :=
  bool_decide (drop (length s - length suffix) s = suffix).

Definition ltrim (s : bytes) : bytes := drop_while isSpace s.
Definition rtrim (s : bytes) : bytes := reverse (drop_while isSpace (reverse s)).
Definition trim (s : bytes) : bytes := rtrim (ltrim s).

(** ** Searching and splitting *)

(** The first position whose character satisfies [f]; [None] is [npos]. *)
Fixpoint find_if (f : ascii → bool) (s : bytes) : option nat :=
  match s with
  | [] => None
  | c :: s => if f c then Some 0%nat else S <$> find_if f s
  end.

Definition one_of (set : bytes) (c : ascii) : bool := bool_decide (c ∈ set).

Definition find_first_of (set s : bytes) : option nat := find_if (one_of set) s.
Definition find_first_not_of (set s : bytes) : option nat := find_if (λ c, negb (one_of set c)) s.

(** [split(lines, "\n")]: the pieces between the separators, empty ones included. *)
Fixpoint split_on (sep : ascii) (s : bytes) : list bytes :=
  match s with
  | [] => [[]]
  | c :: s =>
    match split_on sep s with
    | [] => [[]]
    | piece :: pieces => if decide (c = sep) then [] :: piece :: pieces else (c :: piece) :: pieces
    end
  end.

(** [std::format("{:016x}", n)] of a 64-bit number. *)
Definition hex_digit (d : Z) : ascii :=
  ascii_of_N (Z.to_N (if decide (d < 10) then 48 + d else 87 + d)).

Fixpoint hex_digits (count : nat) (n : Z) : bytes :=
  match count with
  | O => []
  | S count => hex_digits count (n `div` 16) ++ [hex_digit (n `mod` 16)]
  end.

Definition hex16 (n : Z) : bytes := hex_digits 16 n.

(** [llvm::SplitString(s, words)] at white space, empty pieces left out. *)
Fixpoint words (s : bytes) : list bytes :=
  match s with
  | [] => []
  | c :: s' =>
    if isSpace c then words s'
    else
      match s' with
      | [] => [[c]]
      | d :: _ =>
        if isSpace d then [c] :: words s'
        else match words s' with
             | [] => [[c]]
             | w :: ws => (c :: w) :: ws
             end
      end
  end.

(** [llvm::join(words, " ")]. *)
Fixpoint join_words (ws : list bytes) : bytes :=
  match ws with
  | [] => []
  | [w] => w
  | w :: ws => w ++ blank :: join_words ws
  end.

(** ** Facts *)

Lemma head_drop_while f s c : head (drop_while f s) = Some c → f c = false.
Proof.
  induction s as [|d s IH]; simpl; [done|]. destruct (f d) eqn:Hd; [done|]. simpl. by intros [= <-].
Qed.

Lemma drop_while_suffix f s : ∃ k, s = k ++ drop_while f s ∧ Forall (λ c, f c = true) k.
Proof.
  induction s as [|d s IH]; simpl; [by exists []|]. destruct (f d) eqn:Hd; [|by exists []].
  destruct IH as (k & Hk & Hall). exists (d :: k). split; [simpl; by f_equal|by constructor].
Qed.

Lemma drop_while_all f s : Forall (λ c, f c = true) s → drop_while f s = [].
Proof. induction 1 as [|c s Hc _ IH]; simpl; [done|]. by rewrite Hc. Qed.

Lemma drop_while_noop f s : (∀ c, head s = Some c → f c = false) → drop_while f s = s.
Proof. destruct s as [|c s]; simpl; [done|]. intros Hc. by rewrite (Hc c eq_refl). Qed.

Lemma rtrim_prefix s : ∃ k, s = rtrim s ++ k ∧ Forall (λ c, isSpace c = true) k.
Proof.
  destruct (drop_while_suffix isSpace (reverse s)) as (k & Hk & Hall).
  exists (reverse k). unfold rtrim. split; [|by apply Forall_reverse].
  rewrite <- reverse_app, <- Hk. by rewrite reverse_involutive.
Qed.

Lemma rtrim_last s c : last (rtrim s) = Some c → isSpace c = false.
Proof.
  unfold rtrim. rewrite last_reverse. apply head_drop_while.
Qed.

Lemma rtrim_app_char s c : isSpace c = false → rtrim (s ++ [c]) = s ++ [c].
Proof.
  intros Hc. unfold rtrim. rewrite reverse_snoc. simpl. rewrite Hc.
  by rewrite reverse_cons, reverse_involutive.
Qed.

(** A trimmed text has no white space at either end. *)
Definition no_outer_space (s : bytes) : Prop :=
  (∀ c, head s = Some c → isSpace c = false) ∧ (∀ c, last s = Some c → isSpace c = false).

Lemma trim_no_outer_space s : no_outer_space (trim s).
Proof.
  unfold trim. split; [|apply rtrim_last]. intros c Hc.
  destruct (rtrim_prefix (ltrim s)) as (k & Hk & _).
  apply (head_drop_while isSpace s). change (head (ltrim s) = Some c). rewrite Hk.
  destruct (rtrim (ltrim s)); [done|exact Hc].
Qed.

Lemma find_if_Some f s i :
  find_if f s = Some i →
  ∃ pre c post, s = pre ++ c :: post ∧ length pre = i ∧ f c = true ∧ Forall (λ d, f d = false) pre.
Proof.
  revert i. induction s as [|d s IH]; intros i; simpl; [done|]. destruct (f d) eqn:Hd.
  - intros [= <-]. by exists [], d, s.
  - destruct (find_if f s) as [j|] eqn:Hj; [|done]. intros [= <-].
    destruct (IH j eq_refl) as (pre & c & post & -> & <- & Hc & Hall).
    exists (d :: pre), c, post. split_and!; [done|done|done|by constructor].
Qed.

Lemma find_if_None f s : find_if f s = None → Forall (λ d, f d = false) s.
Proof.
  induction s as [|d s IH]; simpl; [constructor|]. destruct (f d) eqn:Hd; [done|].
  destruct (find_if f s); [done|]. constructor; [done|by apply IH].
Qed.

Lemma starts_with_cons c s : starts_with [c] s = true ↔ head s = Some c.
Proof.
  unfold starts_with. rewrite bool_decide_eq_true. simpl. destruct s as [|d s]; simpl; [done|].
  split; [by intros [= ->]|by intros [= ->]].
Qed.

Lemma newline_space : isSpace newline = true.
Proof. done. Qed.

(** ** Words *)

Definition word (w : bytes) : Prop := w ≠ [] ∧ Forall (λ c, isSpace c = false) w.

Lemma words_ok s :
  Forall word (words s) ∧
  (∀ c s', s = c :: s' → isSpace c = false → ∃ w ws, words s = (c :: w) :: ws).
Proof.
  induction s as [|c s [IHw IHh]]; [done|]. split.
  - cbn [words]. destruct (isSpace c) eqn:Hc; [done|]. destruct s as [|d s']; [|].
    { constructor; [|done]. split; [done|by constructor]. }
    destruct (isSpace d) eqn:Hd.
    { constructor; [|exact IHw]. split; [done|by constructor]. }
    destruct (IHh d s' eq_refl Hd) as (w & ws & Hw). rewrite Hw in *.
    apply Forall_cons in IHw as [[_ Hw1] Hws]. constructor; [|exact Hws].
    split; [done|by constructor].
  - intros c' s' [= <- <-] Hc. cbn [words]. rewrite Hc. destruct s as [|d s']; [by eexists [], []|].
    destruct (isSpace d) eqn:Hd; [by eexists [], _|].
    destruct (IHh d s' eq_refl Hd) as (w & ws & ->). by eexists _, _.
Qed.

Lemma words_word s : Forall word (words s).
Proof. apply words_ok. Qed.
