(* ===== verification/Markup.v ===== *)
(** * Markup (src/support/markup.{h,cpp})

    The model of formatted text that hover and completion build: paragraphs of
    plain text and inline code, headings, code blocks, bullet lists and rulers,
    rendered to Markdown or to plain text.

    The two assertions of the file (the text before an escaped character does not
    start with white space; a text to indent does not end with a newline) are
    [Fault]s.  Texts are shorter than 2^32 bytes: the code indexes them with
    [unsigned]. *)
From S2P Require Import Prelude Text.
From stdpp Require Import options.
Local Open Scope Z_scope.
Local Open Scope cpp_scope.

Abbreviation mresult A := (Res unit A).

(** ** Escaping *)

Definition is_tag_name (c : ascii) : bool :=
  isAlnum c || bool_decide (c = "-"%char) || bool_decide (c = "_"%char) || bool_decide (c = ":"%char).

(** The loop over the attributes of a possible tag. *)
Fixpoint tag_attributes (s : bytes) : bool :=
  match s with
  | [] => true
  | c :: s' =>
    if isAlnum c || isSpace c then tag_attributes s'
    else if bool_decide (c = ">"%char) || starts_with (str "/>") s then true
    else bool_decide (c = "="%char)
  end.

Definition looks_like_tag (contents : bytes) : bool :=
  match contents with
  | [] => false
  | c :: _ =>
    if bool_decide (c = "!"%char) || bool_decide (c = "?"%char) || bool_decide (c = "/"%char) then true
    else if negb (isAlpha c) then false
    else tag_attributes (drop_while isSpace (drop_while is_tag_name contents))
  end.

Definition ruler_length (c : ascii) (before after : bytes) (starts_line : bool) : Z :=
  if negb starts_line || negb (bool_decide (before = [])) then 0
  else
    let rest := rtrim after in
    if forallb (λ d, bool_decide (c = d)) rest then u32 (1 + Z.of_nat (length rest)) else 0.

Definition is_bullet (before after : bytes) (starts_line : bool) : bool :=
  starts_line && bool_decide (before = []) && (bool_decide (after = []) || starts_with (str " ") after).

Definition space_surrounds (before after : bytes) : bool :=
  match head after with None => true | Some a => isSpace a end &&
  match last before with None => true | Some b => isSpace b end.

Definition word_surrounds (before after : bytes) : bool :=
  match head after with None => false | Some a => isAlnum a end &&
  match last before with None => false | Some b => isAlnum b end.

(** [content] starts an HTML entity reference that ends at a semicolon. *)
Definition is_entity (after : bytes) : bool :=
  match find_first_of (str ";") after with
  | None => false
  | Some end_ =>
    let content := take end_ after in
    match content with
    | "#"%char :: digits =>
      match digits with
      | c :: hex =>
        if bool_decide (c = "x"%char) || bool_decide (c = "X"%char) then forallb isHexDigit hex
        else forallb isDigit digits
      | [] => true
      end
    | _ => forallb isAlpha content
    end
  end.

(** The cases of the [switch] in [needs_leading_escape]. *)
Definition escape_case (c : ascii) (before after : bytes) (starts_line : bool) : bool :=
  let line_start := starts_line && bool_decide (before = []) in
  if bool_decide (c = backslash) || bool_decide (c = backtick) then true
  else if bool_decide (c = "~"%char) then line_start && starts_with (str "~~") after
  else if bool_decide (c = "#"%char) then
    line_start &&
    let rest := drop_while (λ d, bool_decide (d = c)) after in
    bool_decide (rest = []) || starts_with (str " ") rest
  else if bool_decide (c = "]"%char) then
    starts_with (str ":") after || starts_with (str "(") after
  else if bool_decide (c = "="%char) then bool_decide (0 < ruler_length c before after starts_line)
  else if bool_decide (c = "_"%char) then
    bool_decide (3 ≤ ruler_length c before after starts_line) ||
    negb (space_surrounds before after || word_surrounds before after)
  else if bool_decide (c = "-"%char) then
    bool_decide (0 < ruler_length c before after starts_line) || is_bullet before after starts_line
  else if bool_decide (c = "+"%char) then is_bullet before after starts_line
  else if bool_decide (c = "*"%char) then
    is_bullet before after starts_line ||
    bool_decide (3 ≤ ruler_length c before after starts_line) || negb (space_surrounds before after)
  else if bool_decide (c = "<"%char) then looks_like_tag after
  else if bool_decide (c = ">"%char) then line_start
  else if bool_decide (c = "&"%char) then is_entity after
  else if bool_decide (c = "."%char) || bool_decide (c = ")"%char) then
    starts_line && negb (bool_decide (before = [])) && forallb isDigit before &&
    starts_with (str " ") after
  else false.

Definition needs_leading_escape (c : ascii) (before after : bytes) (starts_line : bool)
  : mresult bool :=
  if bool_decide (take_while isSpace before = []) then Ok (escape_case c before after starts_line)
  else Fault.

(** The loop of [render_text]: [before] has been rendered. *)
Fixpoint escape_from (before rest : bytes) (starts_line : bool) : mresult bytes :=
  match rest with
  | [] => Ok []
  | c :: after =>
    let? escape := needs_leading_escape c before after starts_line in
    let? result := escape_from (before ++ [c]) after starts_line in
    Ok ((if escape : bool then [backslash] else []) ++ c :: result)
  end.

Definition render_text (input : bytes) (starts_line : bool) : mresult bytes :=
  escape_from [] input starts_line.

(** ** Code *)

(** The loop that doubles backticks; each round consumes a character or ends. *)
Fixpoint double_backticks (fuel : nat) (input : bytes) : mresult bytes :=
  match fuel with
  | O => Stuck
  | S fuel =>
    match input with
    | [] => Ok []
    | _ =>
      match find_first_of [backtick] input with
      | None => Ok input
      | Some next =>
        let? result := double_backticks fuel (drop (S next) input) in
        Ok (take next input ++ backtick :: backtick :: result)
      end
    end
  end.

Definition render_inline_block (input : bytes) : mresult bytes :=
  let? result := double_backticks (S (length input)) input in
  let padded := [backtick; blank] ++ result ++ [blank; backtick] in
  if starts_with [backtick] result || ends_with [backtick] result then Ok padded
  else if starts_with [blank] result && ends_with [blank] result then Ok padded
  else Ok ([backtick] ++ result ++ [backtick]).

(** [max_backticks] and [backticks] after the loop of [get_marker_for_code_block]. *)
Fixpoint count_backticks (input : bytes) (max_backticks backticks : Z) : Z * Z :=
  match input with
  | [] => (max_backticks, backticks)
  | c :: input =>
    if bool_decide (c = backtick) then count_backticks input max_backticks (u32 (backticks + 1))
    else count_backticks input (Z.max max_backticks backticks) 0
  end.

Definition get_marker_for_code_block (input : bytes) : bytes :=
  let (max_backticks, backticks) := count_backticks input 0 0 in
  replicate (Z.to_nat (Z.max 3 (u32 (Z.max backticks max_backticks + 1)))) backtick.

Definition canonicalize_spaces (input : bytes) : bytes := join_words (words input).

(** ** Paragraphs *)

Inductive Kind := PlainText | InlineCode.

Record Chunk := mkChunk {
  kind : Kind;
  preserve : bool;
  contents : bytes;
  space_before : bool;
  space_after : bool;
}.

Abbreviation Paragraph := (list Chunk).

Definition append_space (p : Paragraph) : Paragraph :=
  match reverse p with
  | [] => p
  | c :: front =>
    reverse front ++ [mkChunk (kind c) (preserve c) (contents c) (space_before c) true]
  end.

Definition outer_space (c : option ascii) : bool :=
  match c with Some c => isSpace c | None => false end.

(** [text.front()] and [text.back()] are read only when a word was found. *)
Definition append_text (text : bytes) (p : Paragraph) : Paragraph :=
  match canonicalize_spaces text with
  | [] => p
  | norm => p ++ [mkChunk PlainText false norm (outer_space (head text)) (outer_space (last text))]
  end.

Definition append_code (code : bytes) (preserve : bool) (p : Paragraph) : Paragraph :=
  let adjacent_code :=
    match last p with Some c => match kind c with InlineCode => true | PlainText => false end
                 | None => false end in
  match canonicalize_spaces code with
  | [] => p
  | norm => p ++ [mkChunk InlineCode preserve norm adjacent_code false]
  end.

Fixpoint render_chunks (p : Paragraph) (needs_space has_chunks : bool) : mresult bytes :=
  match p with
  | [] => Ok []
  | c :: p =>
    let? text := match kind c with
                 | PlainText => render_text (contents c) (negb has_chunks)
                 | InlineCode => render_inline_block (contents c)
                 end in
    let? rest := render_chunks p (space_after c) true in
    Ok ((if space_before c || needs_space then [blank] else []) ++ text ++ rest)
  end.

Definition paragraph_markdown (p : Paragraph) : mresult bytes :=
  let? text := render_chunks p false false in
  Ok (text ++ [blank; blank; newline]).

(** [choose_marker] over the options ["`"], ["'"] and the double quote. *)
Definition markers : list bytes := [[backtick]; ["'"%char]; ["034"%char]].

Definition choose_marker (options : list bytes) (text : bytes) : bytes :=
  match filter (λ option, find_first_of option text = None) options with
  | option :: _ => option
  | [] => default [] (head options)
  end.

Fixpoint plain_chunks (p : Paragraph) (needs_space : bool) : bytes :=
  match p with
  | [] => []
  | c :: p =>
    let marker := match kind c with
                  | InlineCode => if preserve c then choose_marker markers (contents c) else []
                  | PlainText => []
                  end in
    (if space_before c || needs_space then [blank] else []) ++
    marker ++ contents c ++ marker ++ plain_chunks p (space_after c)
  end.

Definition paragraph_plain (p : Paragraph) : bytes := plain_chunks p false ++ [newline].

(** ** Blocks and documents *)

(** [BulletList] holds documents, a [Document] a list of blocks. *)
Inductive Block :=
| ParagraphBlock (p : Paragraph)
| Heading (level : nat) (p : Paragraph)
| Ruler
| CodeBlock (code language : bytes)
| BulletList (items : list (list Block)).

Abbreviation Document := (list Block).

Definition is_ruler (b : Block) : bool := match b with Ruler => true | _ => false end.

Definition indent_lines (input : bytes) : mresult bytes :=
  if ends_with [newline] input then Fault
  else Ok (flat_map (λ c, if bool_decide (c = newline) then [c; blank; blank] else [c]) input).

(** The children of a document as [render_blocks] sees them: whether each is a
    ruler, and what it renders to. *)
Abbreviation rendered := (bool * mresult bytes)%type.

Fixpoint drop_rulers (children : list rendered) : list rendered :=
  match children with
  | (true, _) :: children => drop_rulers children
  | _ => children
  end.

Fixpoint concat_blocks (children : list rendered) (last_block_was_ruler : bool) : mresult bytes :=
  match children with
  | [] => Ok []
  | (ruler, text) :: children =>
    if ruler && last_block_was_ruler then concat_blocks children last_block_was_ruler
    else
      let? text := text in
      let? rest := concat_blocks children ruler in
      Ok (text ++ rest)
  end.

(** At most two consecutive newlines: [adjusted] is what was kept so far. *)
Definition push_adjusted (adjusted : bytes) (c : ascii) : bytes :=
  if bool_decide (c = newline) && ends_with [newline; newline] adjusted then adjusted
  else adjusted ++ [c].

Definition render_blocks (children : list rendered) : mresult bytes :=
  let children := reverse (drop_rulers (reverse (drop_rulers children))) in
  let? text := concat_blocks children true in
  Ok (foldl push_adjusted [] (trim text)).

(** The items of a bullet list, rendered and indented. *)
Fixpoint bullet_lines (items : list (mresult bytes)) : mresult bytes :=
  match items with
  | [] => Ok []
  | item :: items =>
    let? text := item in
    let? lines := indent_lines text in
    let? rest := bullet_lines items in
    Ok (str "- " ++ lines ++ [newline] ++ rest)
  end.

Fixpoint render_markdown (b : Block) : mresult bytes :=
  match b with
  | ParagraphBlock p => paragraph_markdown p
  | Heading level p =>
    let? text := paragraph_markdown p in Ok (replicate level "#"%char ++ [blank] ++ text)
  | Ruler => Ok ([newline] ++ str "---" ++ [newline])
  | CodeBlock code language =>
    let marker := get_marker_for_code_block code in
    Ok (marker ++ language ++ [newline] ++ code ++ [newline] ++ marker ++ [newline])
  | BulletList items =>
    let? text := bullet_lines
      (map (λ d, render_blocks (map (λ c, (is_ruler c, render_markdown c)) d)) items) in
    Ok (text ++ [newline])
  end.

Fixpoint render_plain_text (b : Block) : mresult bytes :=
  match b with
  | ParagraphBlock p => Ok (paragraph_plain p)
  | Heading _ p => Ok (paragraph_plain p)
  | Ruler => Ok [newline]
  | CodeBlock code _ => Ok ([newline] ++ code ++ [newline; newline])
  | BulletList items =>
    bullet_lines (map (λ d, render_blocks (map (λ c, (is_ruler c, render_plain_text c)) d)) items)
  end.

Definition as_markdown (d : Document) : mresult bytes :=
  render_blocks (map (λ c, (is_ruler c, render_markdown c)) d).

Definition as_plain_text (d : Document) : mresult bytes :=
  render_blocks (map (λ c, (is_ruler c, render_plain_text c)) d).

Definition block_as_markdown (b : Block) : mresult bytes :=
  let? result := render_markdown b in Ok (trim result).

Definition block_as_plain_text (b : Block) : mresult bytes :=
  let? result := render_plain_text b in Ok (trim result).

(** [clone] of each kind of block, and the copy assignment of a document. *)
Fixpoint clone (b : Block) : Block :=
  match b with
  | ParagraphBlock p => ParagraphBlock p
  | Heading level p => Heading level p
  | Ruler => Ruler
  | CodeBlock code language => CodeBlock code language
  | BulletList items => BulletList (map (map clone) items)
  end.

Definition assign (other : Document) : Document := map clone other.

(** Building: the new block is the last one, and its position stands for the
    reference the C++ function returns. *)
Definition append (other d : Document) : Document := d ++ other.
Definition add_paragraph (d : Document) : Document * nat := (d ++ [ParagraphBlock []], length d).
Definition add_ruler (d : Document) : Document := d ++ [Ruler].
Definition add_code_block (code language : bytes) (d : Document) : Document :=
  d ++ [CodeBlock code language].
Definition add_heading (level : nat) (d : Document) : mresult (Document * nat) :=
  if bool_decide (level = 0%nat) then Fault else Ok (d ++ [Heading level []], length d).
Definition add_bullet_list (d : Document) : Document * nat := (d ++ [BulletList []], length d).
Definition add_item (items : list Document) : list Document * nat := (items ++ [[]], length items).

(** An edit of the paragraph at position [i], through such a reference. *)
Definition edit_paragraph (i : nat) (f : Paragraph → Paragraph) (d : Document) : Document :=
  match d !! i with
  | Some (ParagraphBlock p) => <[i := ParagraphBlock (f p)]> d
  | Some (Heading level p) => <[i := Heading level (f p)]> d
  | _ => d
  end.
