(* ===== verification/MarkupTheorems.v ===== *)
(** * What rendering markup guarantees

    Escaping is undone by Markdown's own rule and keeps a line of text from being
    read as another construct; a fence is longer than any run of backticks inside;
    documents render without violating an assertion, to trimmed text without
    runs of blank lines. *)
From S2P Require Import Prelude Text Markup.
Local Open Scope Z_scope.
Local Open Scope cpp_scope.

(** ** Markdown's backslash escapes *)

(** ASCII punctuation, the characters a backslash escapes in Markdown. *)
Definition is_punct (c : ascii) : bool :=
  between 33 47 c || between 58 64 c || between 91 96 c || between 123 126 c.

Fixpoint unescape (s : bytes) : bytes :=
  match s with
  | [] => []
  | c :: s' =>
    if bool_decide (c = backslash) then
      match s' with
      | d :: s'' => if is_punct d then d :: unescape s'' else c :: unescape s'
      | [] => [c]
      end
    else c :: unescape s'
  end.

Lemma escape_case_punct c before after b : escape_case c before after b = true → is_punct c = true.
Proof.
  unfold escape_case. repeat case_bool_decide; subst; try done; simpl.
Qed.

Lemma escape_case_backslash before after b : escape_case backslash before after b = true.
Proof. done. Qed.

(** Nothing before the text, or text that does not start with white space. *)
Definition clean_start (before rest : bytes) : Prop :=
  match before with
  | [] => outer_space (head rest) = false
  | c :: _ => isSpace c = false
  end.

Lemma clean_start_ok before c rest b :
  clean_start before (c :: rest) →
  needs_leading_escape c before rest b = Ok (escape_case c before rest b) ∧
  clean_start (before ++ [c]) rest.
Proof.
  intros Hcl. unfold needs_leading_escape. destruct before as [|d before]; simpl in *; [done|].
  by rewrite Hcl.
Qed.

Lemma escape_from_total before rest b :
  clean_start before rest →
  ∃ t, escape_from before rest b = Ok t ∧ unescape t = rest ∧ (length rest ≤ length t)%nat.
Proof.
  revert before. induction rest as [|c rest IH]; intros before Hcl; simpl; [by exists []|].
  destruct (clean_start_ok before c rest b Hcl) as [-> Hcl']. simpl.
  destruct (IH _ Hcl') as (t & -> & Hun & Hlen). simpl. eexists. split; [done|].
  destruct (escape_case c before rest b) eqn:He; simpl.
  - rewrite (escape_case_punct _ _ _ _ He). split; [by f_equal|lia].
  - rewrite bool_decide_false; [split; [by f_equal|lia]|]. intros ->.
    by rewrite escape_case_backslash in He.
Qed.

(** ** A prefix without backslashes is the text itself *)

Lemma escape_from_prefix before rest b t k :
  clean_start before rest → escape_from before rest b = Ok t →
  (∀ i, (i < k)%nat → t !! i ≠ Some backslash) →
  take k t = take k rest ∧
  (∀ i c, (i < k)%nat → rest !! i = Some c →
          escape_case c (before ++ take i rest) (drop (S i) rest) b = false).
Proof.
  revert before t k. induction rest as [|c rest IH]; intros before t k Hcl; simpl.
  { intros [= <-] _. by split; [rewrite !take_nil|]. }
  destruct (clean_start_ok before c rest b Hcl) as [-> Hcl']. simpl.
  destruct (escape_from (before ++ [c]) rest b) as [t'| | |] eqn:Ht; simpl; try done.
  intros [= <-] Hno. destruct k as [|k]; [by split; [|lia]|].
  destruct (escape_case c before rest b) eqn:He.
  { by destruct (Hno 0%nat ltac:(lia)). }
  destruct (IH (before ++ [c]) t' k Hcl' Ht) as [Htk Hesc].
  { intros i Hi. apply (Hno (S i)). lia. }
  split; [simpl; by rewrite Htk|]. intros [|i] c' Hi Hc'; simpl in *.
  - rewrite app_nil_r. by simplify_eq.
  - replace (before ++ c :: take i rest) with ((before ++ [c]) ++ take i rest)
      by (by rewrite <- app_assoc). apply Hesc; [lia|done].
Qed.

Lemma escape_from_same before rest b t :
  clean_start before rest → escape_from before rest b = Ok t →
  (∀ i, t !! i ≠ Some backslash) → t = rest.
Proof.
  intros Hcl Ht Hno. destruct (escape_from_prefix before rest b t (length t) Hcl Ht) as [Htk _]; [auto|].
  destruct (escape_from_total before rest b Hcl) as (t' & Ht' & _ & Hlen).
  rewrite Ht in Ht'. injection Ht' as <-. rewrite firstn_all in Htk. rewrite Htk.
  by rewrite firstn_all2.
Qed.

(** Escaping round-trips: for a text that does not start with white space,
    [render_text] returns, and removing Markdown's backslash escapes from what it
    returns gives back the text. *)
Theorem render_text_roundtrip (input : bytes) (starts_line : bool) :
  outer_space (head input) = false →
  ∃ t, render_text input starts_line = Ok t ∧ unescape t = input.
Proof.
  intros Hs. destruct (escape_from_total [] input starts_line Hs) as (t & Ht & Hun & _). by exists t.
Qed.

Lemma render_text_roundtrip_witness :
  ∃ t, render_text (str "1. *x* \_y <b>") true = Ok t ∧ unescape t = str "1. *x* \_y <b>".
Proof. apply (render_text_roundtrip (str "1. *x* \_y <b>") true). reflexivity. Defined.

(** ** What the start of a line can be read as

    The constructs of Markdown that depend on how a line starts. *)

Definition followed_by_space (rest : bytes) : bool := match rest with [] => true | c :: _ => bool_decide (c = blank) end.

Definition atx_heading (line : bytes) : bool :=
  let marks := take_while (λ c, bool_decide (c = "#"%char)) line in
  bool_decide (0 < length marks)%nat && followed_by_space (drop (length marks) line).

Definition bullet_item (line : bytes) : bool :=
  match line with
  | c :: rest => one_of (str "-+*") c && followed_by_space rest
  | [] => false
  end.

(** A number, a dot or parenthesis, and text after a space. *)
Definition ordered_item (line : bytes) : bool :=
  let digits := take_while isDigit line in
  match digits, drop (length digits) line with
  | _ :: _, c :: d :: _ => one_of (str ".)") c && bool_decide (d = blank)
  | _, _ => false
  end.

Definition quote (line : bytes) : bool := bool_decide (head line = Some ">"%char).

Definition code_fence (line : bytes) : bool :=
  starts_with (replicate 3 backtick) line || starts_with (str "~~~") line.

(** A line of one repeated character, trailing space aside. *)
Definition line_of (c : ascii) (least : nat) (line : bytes) : bool :=
  bool_decide (least ≤ length (rtrim line))%nat && forallb (λ d, bool_decide (d = c)) (rtrim line).

Definition thematic_break (line : bytes) : bool :=
  line_of "-"%char 3 line || line_of "_"%char 3 line || line_of "*"%char 3 line.

Definition setext_underline (line : bytes) : bool :=
  line_of "="%char 1 line || line_of "-"%char 1 line.

Definition block_construct (line : bytes) : bool :=
  atx_heading line || bullet_item line || ordered_item line || quote line || code_fence line ||
  thematic_break line || setext_underline line.

(** A character without a backslash before it was found not to need one. *)
Lemma plain_prefix input t pre c post :
  outer_space (head input) = false → render_text input true = Ok t →
  t = pre ++ c :: post → Forall (λ d, d ≠ backslash) (pre ++ [c]) →
  ∃ post', input = pre ++ c :: post' ∧ escape_case c pre post' true = false.
Proof.
  intros Hs Ht -> Hno.
  destruct (escape_from_prefix [] input true (pre ++ c :: post) (S (length pre)) Hs Ht) as [Htk Hesc].
  { intros i Hi. replace (pre ++ c :: post) with ((pre ++ [c]) ++ post) by (by rewrite <- app_assoc).
    rewrite lookup_app_l by (rewrite length_app; simpl; lia). intros Hl.
    rewrite Forall_lookup in Hno. by apply (Hno i _ Hl). }
  replace (pre ++ c :: post) with ((pre ++ [c]) ++ post) in Htk by (by rewrite <- app_assoc).
  rewrite take_app_length' in Htk by (rewrite length_app; simpl; lia).
  exists (drop (S (length pre)) input).
  assert (input = pre ++ c :: drop (S (length pre)) input) as Hin.
  { rewrite <- (firstn_skipn (S (length pre)) input) at 1. rewrite <- Htk. by rewrite <- app_assoc. }
  split; [done|]. specialize (Hesc (length pre) c ltac:(lia)).
  assert (take (length pre) input = pre) as Hpre.
  { rewrite Hin. by rewrite take_app_length. }
  rewrite Hpre in Hesc. apply Hesc. rewrite Hin.
  by rewrite lookup_app_r, Nat.sub_diag.
Qed.

Lemma plain_all input t :
  outer_space (head input) = false → render_text input true = Ok t →
  Forall (λ d, d ≠ backslash) t → t = input.
Proof.
  intros Hs Ht Hno. apply (escape_from_same [] input true); [done|done|].
  intros i Hi. rewrite Forall_lookup in Hno. by apply (Hno i _ Hi).
Qed.

Section LineStart.
Context (input t : bytes).
Context (Hs : outer_space (head input) = false) (Ht : render_text input true = Ok t).
Context (Hlen : Z.of_nat (length input) < two32).

Lemma not_quote : quote t = false.
Proof.
  unfold quote. case_bool_decide as Hh; [|done]. destruct t as [|c post]; simplify_eq/=.
  destruct (plain_prefix input _ [] _ post Hs Ht eq_refl) as (post' & _ & He); [by repeat constructor|].
  done.
Qed.

Lemma not_bullet : bullet_item t = false.
Proof.
  unfold bullet_item. destruct t as [|c post]; [done|]. apply not_true_iff_false.
  intros [Hc Hf]%andb_true_iff. unfold one_of in Hc. apply bool_decide_eq_true in Hc.
  assert (c ≠ backslash) as Hcb by (intros ->; revert Hc; by vm_compute; set_solver).
  assert (∃ post', input = c :: post' ∧ followed_by_space post' = true ∧
                   escape_case c [] post' true = false) as (post' & Hin & Hf' & He).
  { destruct (plain_prefix input _ [] c post Hs Ht eq_refl) as (post' & Hin & He); [by repeat constructor|].
    exists post'. split_and!; [done| |done]. destruct post as [|d post]; simpl in Hf.
    - assert ([c] = input) as Heq by (apply plain_all; [done|done|by repeat constructor]).
      rewrite Hin in Heq. by simplify_eq/=.
    - apply bool_decide_eq_true in Hf as ->.
      destruct (plain_prefix input _ [c] blank post Hs Ht eq_refl) as (post2 & Hin2 & _).
      { by repeat constructor. }
      rewrite Hin in Hin2. by simplify_eq/=. }
  assert (is_bullet [] post' true = true) as Hb.
  { unfold is_bullet. simpl. destruct post' as [|d post']; [done|]. simpl in Hf'.
    apply bool_decide_eq_true in Hf' as ->. done. }
  revert He. unfold escape_case. rewrite Hb.
  assert (c = "-"%char ∨ c = "+"%char ∨ c = "*"%char) as [->|[->| ->]].
  { revert Hc. vm_compute. set_solver. }
  all: simpl; rewrite ?orb_true_r; done.
Qed.

(** A run of one character at the start, and where it ends. *)
Lemma take_while_split f (l : bytes) :
  ∃ rest, l = take_while f l ++ rest ∧ Forall (λ c, f c = true) (take_while f l) ∧
          (∀ c, head rest = Some c → f c = false).
Proof.
  induction l as [|c l (rest & Hl & Hall & Hh)]; simpl; [by exists []|].
  destruct (f c) eqn:Hc.
  - exists rest. split_and!; [simpl; f_equal; exact Hl|by constructor|done].
  - exists (c :: l). split_and!; [done|done|]. by intros d [= <-].
Qed.

Lemma followed_split rest : followed_by_space rest = true → rest = [] ∨ ∃ post, rest = blank :: post.
Proof. destruct rest as [|c post]; simpl; [by left|]. intros ->%bool_decide_eq_true. eauto. Qed.

Lemma drop_while_run c (k : nat) rest :
  (∀ d, head rest = Some d → d ≠ c) →
  drop_while (λ d, bool_decide (d = c)) (replicate k c ++ rest) = rest.
Proof.
  intros Hr. induction k as [|k IH]; simpl.
  - apply drop_while_noop. intros d Hd. apply bool_decide_eq_false. by apply Hr.
  - by rewrite bool_decide_true.
Qed.

Lemma all_replicate c (l : bytes) : Forall (λ d, bool_decide (d = c) = true) l → l = replicate (length l) c.
Proof. induction 1 as [|d l Hd _ IH]; simpl; [done|]. apply bool_decide_eq_true in Hd as ->. by f_equal. Qed.

Lemma replicate_plain (k : nat) c : c ≠ backslash → Forall (λ d, d ≠ backslash) (replicate k c).
Proof. intros Hc. by apply Forall_replicate. Qed.

Lemma not_atx : atx_heading t = false.
Proof.
  apply not_true_iff_false. unfold atx_heading. intros [Hpos%bool_decide_eq_true Hf]%andb_true_iff.
  destruct (take_while_split (λ c, bool_decide (c = "#"%char)) t) as (rest & Hsp & Hall & _).
  set (marks := take_while _ t) in *. apply all_replicate in Hall.
  rewrite Hsp, drop_app_length in Hf.
  destruct (length marks) as [|k] eqn:Ek; [lia|]. simpl in Hall. rewrite Hall in Hsp.
  destruct (plain_prefix input t [] "#"%char (replicate k "#"%char ++ rest) Hs Ht Hsp)
    as (post & Hin & He); [by repeat constructor|].
  assert (∃ rest', post = replicate k "#"%char ++ rest' ∧ followed_by_space rest' = true) as (rest' & -> & Hf').
  { apply followed_split in Hf as [->|[post2 ->]].
    - exists []. split; [|done].
      assert (t = input) as Heq.
      { apply plain_all; [done|done|]. rewrite Hsp, app_nil_r.
        by apply (replicate_plain (S k)). }
      rewrite Hin, Hsp in Heq. by injection Heq as <-.
    - destruct (plain_prefix input t ("#"%char :: replicate k "#"%char) blank post2 Hs Ht Hsp)
        as (post3 & Hin3 & _).
      { apply Forall_app. split; [by apply (replicate_plain (S k))|by repeat constructor]. }
      rewrite Hin in Hin3. injection Hin3 as ->. exists (blank :: post3). done. }
  revert He. unfold escape_case. simpl. rewrite drop_while_run.
  - apply followed_split in Hf' as [->|[post2 ->]]; [done|].
    rewrite orb_true_r || idtac. by vm_compute.
  - intros d Hd. apply followed_split in Hf' as [->|[post2 ->]]; simplify_eq/=. done.
Qed.

Lemma digit_plain c : isDigit c = true → c ≠ backslash.
Proof. by intros Hc ->. Qed.

Lemma not_ordered : ordered_item t = false.
Proof.
  apply not_true_iff_false. unfold ordered_item. cbv zeta.
  destruct (take_while_split isDigit t) as (rest & Hsp & Hall & _).
  set (digits := take_while isDigit t) in *. clearbody digits.
  destruct digits as [|d0 digits']; [done|]. set (digits := d0 :: digits') in *.
  rewrite Hsp, drop_app_length. destruct rest as [|c [|d post]]; try done.
  intros [Hc Hd]%andb_true_iff. apply bool_decide_eq_true in Hd as ->.
  unfold one_of in Hc. apply bool_decide_eq_true in Hc.
  assert (c = "."%char ∨ c = ")"%char) as Hc'.
  { revert Hc. vm_compute. set_solver. }
  assert (c ≠ backslash) as Hcb by (by destruct Hc' as [->| ->]).
  assert (Forall (λ x, x ≠ backslash) digits) as Hdig.
  { eapply Forall_impl; [exact Hall|]. intros x. apply digit_plain. }
  destruct (plain_prefix input t digits c (blank :: post) Hs Ht Hsp) as (post' & Hin & He).
  { apply Forall_app. split; [done|by repeat constructor]. }
  destruct (plain_prefix input t (digits ++ [c]) blank post Hs Ht) as (post2 & Hin2 & _).
  { by rewrite Hsp, <- app_assoc. }
  { rewrite !Forall_app. split_and!; [done|by repeat constructor|by repeat constructor]. }
  rewrite <- app_assoc in Hin2. change ([c] ++ blank :: post2) with (c :: blank :: post2) in Hin2.
  assert (post' = blank :: post2) as ->.
  { rewrite Hin in Hin2. apply app_inv_head in Hin2. by injection Hin2. }
  assert (forallb isDigit digits = true) as Hfa.
  { apply forallb_forall. intros x Hx. rewrite Forall_forall in Hall. apply Hall. by apply list_elem_of_In. }
  revert He. unfold escape_case. rewrite Hfa. destruct Hc' as [->| ->]; by vm_compute.
Qed.

Lemma not_fence : code_fence t = false.
Proof.
  apply not_true_iff_false. unfold code_fence, starts_with.
  intros [Hf|Hf]%orb_true_iff; apply bool_decide_eq_true in Hf; simpl in Hf;
    (destruct t as [|c1 [|c2 [|c3 post]]]; simplify_eq/=).
  - destruct (plain_prefix input _ [] backtick (backtick :: backtick :: post) Hs Ht eq_refl)
      as (post' & _ & He); [by repeat constructor|done].
  - destruct (plain_prefix input _ [] "~"%char (str "~~" ++ post) Hs Ht eq_refl)
      as (post' & Hin & He); [by repeat constructor|].
    destruct (plain_prefix input _ (str "~~") "~"%char post Hs Ht eq_refl)
      as (post2 & Hin2 & _); [by repeat constructor|].
    rewrite Hin in Hin2. injection Hin2 as ->. revert He. by vm_compute.
Qed.

(** A line of one character that is not a space is its own escape test. *)
Lemma line_of_ruler c least :
  c ≠ backslash → isSpace c = false → (0 < least)%nat → line_of c least t = true →
  ∃ post, input = c :: post ∧ Z.of_nat least ≤ ruler_length c [] post true ∧
          escape_case c [] post true = false.
Proof.
  intros Hcb Hsp Hpos. unfold line_of. intros [Hle%bool_decide_eq_true Hall]%andb_true_iff.
  destruct (rtrim_prefix t) as (sp & Htr & Hspace).
  assert (rtrim t = replicate (length (rtrim t)) c) as Hrep.
  { apply all_replicate, Forall_forall. intros d Hd. rewrite forallb_forall in Hall.
    apply Hall. by apply list_elem_of_In. }
  assert (Forall (λ d, d ≠ backslash) sp) as Hspb.
  { eapply Forall_impl; [exact Hspace|]. by intros d Hd ->. }
  destruct (length (rtrim t)) as [|k] eqn:Ek; [lia|]. rewrite Hrep in Htr. simpl in Htr.
  assert (t = input) as Heq.
  { apply plain_all; [done|done|]. rewrite Htr. constructor; [done|].
    apply Forall_app. split; [by apply replicate_plain|done]. }
  destruct (plain_prefix input t [] c (replicate k c ++ sp) Hs Ht Htr) as (post & Hin & He);
    [by repeat constructor|].
  exists post. split_and!; [done| |done]. rewrite <- Heq, Htr in Hin. injection Hin as <-.
  unfold ruler_length. simpl.
  assert (rtrim (replicate k c ++ sp) = replicate k c) as ->.
  { unfold rtrim. rewrite reverse_app.
    assert (drop_while isSpace (reverse sp ++ reverse (replicate k c)) = reverse (replicate k c)) as ->;
      [|by rewrite reverse_involutive].
    apply Forall_reverse in Hspace. clear -Hspace Hsp. induction Hspace as [|d l Hd _ IH]; simpl.
    - rewrite reverse_replicate. apply drop_while_noop. destruct k; simpl; [done|]. by intros ? [= <-].
    - by rewrite Hd. }
  assert (forallb (λ d, bool_decide (c = d)) (replicate k c) = true) as ->.
  { apply forallb_forall. intros d Hd%list_elem_of_In%elem_of_replicate_inv. by apply bool_decide_true. }
  rewrite length_replicate, u32_small; [lia|]. rewrite <- Heq, Htr in Hlen.
  simpl in Hlen. rewrite length_app, length_replicate in Hlen. lia.
Qed.

Lemma not_ruled c least :
  (c = "-"%char ∧ (0 < least)%nat) ∨ (c = "="%char ∧ (0 < least)%nat) ∨
  ((c = "_"%char ∨ c = "*"%char) ∧ (3 ≤ least)%nat) →
  line_of c least t = false.
Proof.
  intros Hc. apply not_true_iff_false. intros Hl.
  destruct (line_of_ruler c least) as (post & _ & Hr & He); [| | |done|].
  1-3: by destruct Hc as [[-> ?]|[[-> ?]|[[->| ->] ?]]]; first [done|lia].
  revert He. unfold escape_case.
  assert (bool_decide (0 < ruler_length c [] post true) = true) as Hr1 by (apply bool_decide_true; lia).
  assert ((3 ≤ least)%nat → bool_decide (3 ≤ ruler_length c [] post true) = true) as Hr3.
  { intros Hle. apply bool_decide_true. lia. }
  destruct Hc as [[-> ?]|[[-> ?]|[[->| ->] ?]]]; rewrite ?Hr1, ?Hr3 by done;
    cbn -[ruler_length is_bullet space_surrounds word_surrounds]; rewrite ?orb_true_r; done.
Qed.
End LineStart.

(** Escaped text stays text: rendered at the start of a line, no text that
    does not start with white space is read by Markdown as a heading, a bullet or
    numbered item, a quote, a code fence, a thematic break or a heading's
    underline. *)
Theorem rendered_text_is_no_block (input t : bytes) :
  outer_space (head input) = false → Z.of_nat (length input) < two32 →
  render_text input true = Ok t → block_construct t = false.
Proof.
  intros Hs Hlen Ht. unfold block_construct, thematic_break, setext_underline.
  rewrite (not_atx input t), (not_bullet input t), (not_ordered input t), (not_quote input t),
    (not_fence input t) by done. simpl.
  rewrite !(not_ruled input t) by (try done; naive_solver lia). done.
Qed.

Lemma rendered_text_is_no_block_witness :
  ∃ t, render_text (str "1. - # x") true = Ok t ∧ block_construct t = false.
Proof.
  eexists. split; [vm_compute; reflexivity|].
  apply (rendered_text_is_no_block (str "1. - # x")); vm_compute; reflexivity.
Defined.

(** Two constructs are missed: a number with nothing after it, which Markdown reads
    as an empty list item, and a thematic break with spaces inside; and the start of
    a numbered item can be split over two chunks of text. *)
Lemma numbered_item_alone_not_escaped : render_text (str "1.") true = Ok (str "1.").
Proof. reflexivity. Qed.

Lemma spaced_break_not_escaped : render_text (str "_ _ _") true = Ok (str "_ _ _").
Proof. reflexivity. Qed.

Lemma split_item_not_escaped :
  paragraph_markdown (append_text (str ". x") (append_text (str "1") [])) =
    Ok (str "1. x  " ++ [newline]).
Proof. reflexivity. Qed.

(** ** Fences *)

(** The largest run of backticks seen so far is never less than a run that ends
    here, nor than one that starts here. *)
Lemma count_backticks_le input mx bt mx' bt' :
  0 ≤ mx < two32 → 0 ≤ bt → bt + Z.of_nat (length input) < two32 →
  count_backticks input mx bt = (mx', bt') →
  0 ≤ bt' ≤ bt + Z.of_nat (length input) ∧
  mx ≤ mx' ≤ Z.max mx (bt + Z.of_nat (length input)) ∧
  (∀ n post, input = replicate n backtick ++ post → bt + Z.of_nat n ≤ Z.max mx' bt') ∧
  (∀ n pre post, input = pre ++ replicate n backtick ++ post → Z.of_nat n ≤ Z.max mx' bt').
Proof.
  revert mx bt. induction input as [|c input IH]; intros mx bt Hmx Hbt Hlen; simpl.
  { intros [= <- <-]. split_and!; try lia.
    - intros [|n] post; simpl; [lia|done].
    - intros [|n] pre post; simpl; [lia|]. by destruct pre. }
  cbn [length] in Hlen. case_bool_decide as Hc.
  - subst c. rewrite u32_small by lia. intros Hcb.
    destruct (IH mx (bt + 1) Hmx ltac:(lia) ltac:(lia) Hcb) as (Hb' & Hm' & Hrun & Hany).
    split_and!; [lia|lia|lia|lia| |].
    + intros [|n] post Heq; simpl in Heq; [specialize (Hrun 0%nat input eq_refl); lia|].
      injection Heq as Heq. specialize (Hrun n post Heq). lia.
    + intros n [|d pre] post Heq; simpl in Heq.
      * destruct n as [|n]; [lia|]. simpl in Heq. injection Heq as Heq.
        specialize (Hrun n post Heq). lia.
      * injection Heq as _ Heq. by apply (Hany n pre post).
  - intros Hcb.
    destruct (IH (Z.max mx bt) 0 ltac:(lia) ltac:(lia) ltac:(lia) Hcb) as (Hb' & Hm' & Hrun & Hany).
    split_and!; [lia|lia|lia|lia| |].
    + intros [|n] post Heq; [lia|]. simpl in Heq. congruence.
    + intros n [|d pre] post Heq; simpl in Heq.
      * destruct n as [|n]; [lia|]. simpl in Heq. congruence.
      * injection Heq as _ Heq. by apply (Hany n pre post).
Qed.

(** The fence of a code block cannot be closed from inside: it is at least three
    backticks long and longer than every run of backticks in the code. *)
Theorem fence_is_longer (code : bytes) :
  Z.of_nat (length code) < two32 - 1 →
  ∃ n, get_marker_for_code_block code = replicate n backtick ∧ (3 ≤ n)%nat ∧
    ∀ pre m post, code = pre ++ replicate m backtick ++ post → (m < n)%nat.
Proof.
  intros Hlen. unfold get_marker_for_code_block.
  destruct (count_backticks code 0 0) as [mx bt] eqn:Hcb.
  destruct (count_backticks_le code 0 0 mx bt) as (Hb & Hm & _ & Hany); [done|done|lia|done|].
  rewrite u32_small by lia. eexists. split; [done|]. split; [lia|].
  intros pre m post Heq. pose proof (Hany m pre post Heq). lia.
Qed.

Lemma fence_is_longer_witness :
  ∃ n, get_marker_for_code_block (str "a ```` b") = replicate n backtick ∧ (4 < n)%nat.
Proof.
  destruct (fence_is_longer (str "a ```` b")) as (n & Hm & _ & Hlong); [vm_compute; reflexivity|].
  exists n. split; [exact Hm|]. apply (Hlong (str "a ") 4%nat (str " b")). reflexivity.
Defined.

(** ** Inline code *)

(** Doubling every backtick, the way the loop over [find] does it. *)
Definition doubled (input : bytes) : bytes :=
  flat_map (λ c, if bool_decide (c = backtick) then [backtick; backtick] else [c]) input.

Lemma doubled_plain s : Forall (λ c, one_of [backtick] c = false) s → doubled s = s.
Proof.
  induction 1 as [|c s Hc _ IH]; simpl; [done|]. unfold one_of in Hc. apply bool_decide_eq_false in Hc.
  rewrite bool_decide_false by (intros ->; apply Hc; set_solver). simpl. by f_equal.
Qed.

Lemma doubled_app s s' : doubled (s ++ s') = doubled s ++ doubled s'.
Proof. apply flat_map_app. Qed.

Lemma double_backticks_ok fuel input :
  (length input < fuel)%nat → double_backticks fuel input = Ok (doubled input).
Proof.
  revert input. induction fuel as [|fuel IH]; intros input Hlen; [lia|]. cbn [double_backticks].
  destruct input as [|c0 input0] eqn:Ei; [done|]. rewrite <- Ei in *. clear Ei.
  destruct (find_first_of [backtick] input) as [next|] eqn:Hf.
  - apply find_if_Some in Hf as (pre & c & post & -> & <- & Hc & Hpre).
    unfold one_of in Hc. apply bool_decide_eq_true, list_elem_of_singleton in Hc as ->.
    replace (drop (S (length pre)) (pre ++ backtick :: post)) with post.
    2: { replace (pre ++ backtick :: post) with ((pre ++ [backtick]) ++ post) by (by rewrite <- app_assoc).
         rewrite drop_app_length'; [done|]. rewrite length_app. simpl. lia. }
    rewrite length_app in Hlen. simpl in Hlen. rewrite IH by lia. simpl.
    rewrite take_app_length. f_equal. rewrite doubled_app, (doubled_plain pre) by done. done.
  - apply find_if_None in Hf. by rewrite doubled_plain.
Qed.

(** Inline code is rendered as a code span around the code with every backtick
    doubled; the span is padded with a space on both sides exactly when it would
    otherwise touch a backtick or lose the spaces it starts and ends with. *)
Theorem inline_code_rendering (input : bytes) :
  render_inline_block input =
    Ok (if (starts_with [backtick] (doubled input) || ends_with [backtick] (doubled input)) ||
           (starts_with [blank] (doubled input) && ends_with [blank] (doubled input))
        then [backtick; blank] ++ doubled input ++ [blank; backtick]
        else [backtick] ++ doubled input ++ [backtick]).
Proof.
  unfold render_inline_block. rewrite double_backticks_ok by lia. cbn [Res_bind].
  destruct (_ || _) eqn:Hb; simpl; [done|]. by destruct (_ && _).
Qed.

(** ** Documents *)

(** What the appending operations put into a chunk: words joined by single spaces. *)
Definition chunk_ok (c : Chunk) : Prop := contents c ≠ [] ∧ outer_space (head (contents c)) = false.

Inductive block_ok : Block → Prop :=
| ok_paragraph p : Forall chunk_ok p → block_ok (ParagraphBlock p)
| ok_heading level p : Forall chunk_ok p → block_ok (Heading level p)
| ok_ruler : block_ok Ruler
| ok_code code language : block_ok (CodeBlock code language)
| ok_list items : (∀ d b, d ∈ items → b ∈ d → block_ok b) → block_ok (BulletList items).

Abbreviation doc_ok d := (Forall block_ok d).

Lemma join_words_head ws c : Forall word ws → head (join_words ws) = Some c → isSpace c = false.
Proof.
  intros Hw. destruct ws as [|w ws]; [done|]. apply Forall_cons in Hw as [[Hne Hns] _].
  destruct w as [|d w]; [done|]. apply Forall_cons in Hns as [Hd _].
  destruct ws; simpl; by intros [= <-].
Qed.

Lemma canonical_chunk s : canonicalize_spaces s ≠ [] → outer_space (head (canonicalize_spaces s)) = false.
Proof.
  intros _. unfold canonicalize_spaces. destruct (head (join_words (words s))) as [c|] eqn:Hh; [|done].
  simpl. eapply join_words_head; [apply words_word|exact Hh].
Qed.

Lemma append_text_ok text p : Forall chunk_ok p → Forall chunk_ok (append_text text p).
Proof.
  intros Hp. unfold append_text. pose proof (canonical_chunk text) as Hc.
  destruct (canonicalize_spaces text); [done|]. apply Forall_app. split; [done|].
  constructor; [|done]. split; [done|]. by apply Hc.
Qed.

Lemma append_code_ok code pre p : Forall chunk_ok p → Forall chunk_ok (append_code code pre p).
Proof.
  intros Hp. unfold append_code. pose proof (canonical_chunk code) as Hc.
  destruct (canonicalize_spaces code); [done|]. apply Forall_app. split; [done|].
  constructor; [|done]. split; [done|]. by apply Hc.
Qed.

Lemma append_space_ok p : Forall chunk_ok p → Forall chunk_ok (append_space p).
Proof.
  intros Hp. unfold append_space. destruct (reverse p) as [|c front] eqn:Hr; [done|].
  apply Forall_reverse in Hp. rewrite Hr in Hp. apply Forall_cons in Hp as [Hc Hf].
  apply Forall_app. split; [by apply Forall_reverse|]. constructor; [exact Hc|done].
Qed.

Lemma edit_paragraph_ok i f d :
  (∀ p, Forall chunk_ok p → Forall chunk_ok (f p)) → doc_ok d → doc_ok (edit_paragraph i f d).
Proof.
  intros Hf Hd. unfold edit_paragraph. destruct (d !! i) as [b|] eqn:Hb; [|done].
  pose proof (Forall_lookup_1 _ _ _ _ Hd Hb) as Hok.
  destruct b; try done; apply Forall_insert; try done; inversion Hok; subst; constructor; by apply Hf.
Qed.

(** Every document put together with the operations of the interface. *)
Inductive built : Document → Prop :=
| b_empty : built []
| b_append d other : built d → built other → built (append other d)
| b_paragraph d : built d → built (add_paragraph d).1
| b_heading d level d' i : built d → add_heading level d = Ok (d', i) → built d'
| b_ruler d : built d → built (add_ruler d)
| b_code d code language : built d → built (add_code_block code language d)
| b_list d items : built d → (∀ item, item ∈ items → built item) → built (d ++ [BulletList items])
| b_text d i text : built d → built (edit_paragraph i (append_text text) d)
| b_inline d i code preserve : built d → built (edit_paragraph i (append_code code preserve) d)
| b_space d i : built d → built (edit_paragraph i append_space d).

Lemma built_ok d : built d → doc_ok d.
Proof.
  induction 1 as [|d other _ IHd _ IHo|d _ IH|d level d' i _ IH Hh|d _ IH|d code language _ IH
                  |d items _ IH _ IHi|d i text _ IH|d i code pre _ IH|d i _ IH].
  - done.
  - apply Forall_app. by split.
  - apply Forall_app. split; [done|]. constructor; [|done]. by constructor.
  - unfold add_heading in Hh. case_bool_decide; simplify_eq. apply Forall_app. split; [done|].
    constructor; [|done]. by constructor.
  - apply Forall_app. split; [done|]. by repeat constructor.
  - apply Forall_app. split; [done|]. by repeat constructor.
  - apply Forall_app. split; [done|]. constructor; [|done]. constructor. intros item b Hitem Hb.
    specialize (IHi item Hitem). rewrite Forall_forall in IHi. by apply IHi.
  - apply edit_paragraph_ok; [|done]. intros p. apply append_text_ok.
  - apply edit_paragraph_ok; [|done]. intros p. apply append_code_ok.
  - apply edit_paragraph_ok; [|done]. intros p. apply append_space_ok.
Qed.

(** *** Rendering blocks *)

(** Never three newlines in a row. *)
Definition no_blank_run (s : bytes) : Prop :=
  ∀ pre post, s ≠ pre ++ [newline; newline; newline] ++ post.

Definition tidy (s : bytes) : Prop := no_outer_space s ∧ no_blank_run s.

Lemma ends_with_app suffix s : ends_with suffix (s ++ suffix) = true.
Proof.
  unfold ends_with. apply bool_decide_true. rewrite length_app.
  replace (length s + length suffix - length suffix)%nat with (length s) by lia.
  apply drop_app_length.
Qed.

Lemma push_no_run s c : no_blank_run s → no_blank_run (push_adjusted s c).
Proof.
  intros Hs. unfold push_adjusted.
  destruct (bool_decide (c = newline) && ends_with [newline; newline] s) eqn:Hc; [done|].
  intros pre post Heq. destruct post as [|d post _] using rev_ind.
  - rewrite app_nil_r in Heq.
    change (pre ++ [newline; newline; newline]) with (pre ++ [newline; newline] ++ [newline]) in Heq.
    rewrite app_assoc in Heq. apply app_inj_tail in Heq as [-> ->].
    by rewrite ends_with_app in Hc.
  - rewrite !app_assoc in Heq. apply app_inj_tail in Heq as [-> _].
    rewrite <- app_assoc in Hs. by apply (Hs pre post).
Qed.

Lemma foldl_push_no_run s a : no_blank_run a → no_blank_run (foldl push_adjusted a s).
Proof. revert a. induction s as [|c s IH]; intros a Ha; simpl; [done|]. by apply IH, push_no_run. Qed.

Lemma foldl_push_head s c a : foldl push_adjusted (c :: a) s = c :: tail (foldl push_adjusted (c :: a) s).
Proof.
  revert a. induction s as [|d s IH]; intros a; simpl; [done|].
  unfold push_adjusted at 2 4. destruct (_ && _); [apply IH|]. simpl. apply IH.
Qed.

Lemma adjusted_tidy s : no_outer_space s → tidy (foldl push_adjusted [] s).
Proof.
  intros [Hh Hl]. split; [|apply foldl_push_no_run; by intros [|? [|? [|? ?]]] ?].
  destruct s as [|c s _] using rev_ind; [done|]. rewrite last_snoc in Hl.
  specialize (Hl c eq_refl). split.
  - intros d Hd. apply Hh. destruct s as [|e s]; simpl in *.
    + unfold push_adjusted in Hd. simpl in Hd. rewrite andb_false_r in Hd. exact Hd.
    + unfold push_adjusted in Hd at 2. simpl in Hd. rewrite andb_false_r in Hd. simpl in Hd.
      by rewrite foldl_push_head in Hd.
  - intros d Hd. rewrite foldl_app in Hd. simpl in Hd. unfold push_adjusted in Hd at 1.
    rewrite bool_decide_false in Hd by (intros ->; done). simpl in Hd.
    rewrite last_snoc in Hd. by injection Hd as <-.
Qed.

Lemma indent_tidy s : tidy s → ∃ t, indent_lines s = Ok t.
Proof.
  intros [[_ Hl] _]. unfold indent_lines. destruct (ends_with [newline] s) eqn:He; [|eauto].
  unfold ends_with in He. apply bool_decide_eq_true in He.
  assert (last s = Some newline) as Hn.
  { rewrite <- (firstn_skipn (length s - length [newline]) s). rewrite He. apply last_snoc. }
  by specialize (Hl _ Hn).
Qed.

Lemma bullet_lines_ok items :
  (∀ item, item ∈ items → ∃ t, item = Ok t ∧ tidy t) → ∃ t, bullet_lines items = Ok t.
Proof.
  induction items as [|item items IH]; intros Hi; simpl; [eauto|].
  destruct (Hi item ltac:(set_solver)) as (t & -> & Ht). simpl.
  destruct (indent_tidy t Ht) as [l ->]. simpl.
  destruct IH as [r ->]; [intros i Hin; apply Hi; set_solver|]. simpl. eauto.
Qed.

Lemma drop_rulers_incl children e : e ∈ drop_rulers children → e ∈ children.
Proof.
  induction children as [|[[|] x] children IH]; simpl; [done| |done]. intros He%IH. set_solver.
Qed.

Lemma render_blocks_ok children :
  (∀ e, e ∈ children → ∃ t, e.2 = Ok t) → ∃ t, render_blocks children = Ok t ∧ tidy t.
Proof.
  intros Hc. unfold render_blocks.
  set (cs := reverse (drop_rulers (reverse (drop_rulers children)))).
  assert (∀ e, e ∈ cs → ∃ t, e.2 = Ok t) as Hcs.
  { intros e He. subst cs. rewrite elem_of_reverse in He. apply drop_rulers_incl in He.
    rewrite elem_of_reverse in He. by apply Hc, drop_rulers_incl. }
  clearbody cs. assert (∀ b, ∃ t, concat_blocks cs b = Ok t) as Hcat.
  { induction cs as [|[r x] cs IH]; intros b; simpl; [eauto|].
    assert (∀ b, ∃ t, concat_blocks cs b = Ok t) as IH' by (apply IH; intros e He; apply Hcs; set_solver).
    destruct (r && b); [apply IH'|]. destruct (Hcs (r, x) ltac:(set_solver)) as [t Ht]. simpl in Ht.
    rewrite Ht. simpl. destruct (IH' r) as [t' ->]. simpl. eauto. }
  destruct (Hcat true) as [t ->]. simpl. eexists. split; [done|].
  apply adjusted_tidy, trim_no_outer_space.
Qed.

Lemma chunks_ok p ns hc : Forall chunk_ok p → ∃ t, render_chunks p ns hc = Ok t.
Proof.
  intros Hp. revert ns hc. induction Hp as [|c p [_ Hc] _ IH]; intros ns hc; simpl; [eauto|].
  destruct (IH (space_after c) true) as [r Hr].
  destruct (kind c).
  - destruct (escape_from_total [] (contents c) (negb hc) Hc) as (t & Ht & _).
    unfold render_text. rewrite Ht. simpl. rewrite Hr. simpl. eauto.
  - unfold render_inline_block. rewrite double_backticks_ok by lia. simpl.
    destruct (_ || _); [|destruct (_ && _)]; simpl; rewrite Hr; simpl; eauto.
Qed.

Lemma render_ok (render : Block → mresult bytes) b :
  block_ok b → (render = render_markdown ∨ render = render_plain_text) → ∃ t, render b = Ok t.
Proof.
  intros Hb Hr. induction Hb as [p Hp|level p Hp| |code language|items _ IH].
  - destruct Hr as [-> | ->]; simpl; [|eauto]. unfold paragraph_markdown.
    destruct (chunks_ok p false false Hp) as [t ->]. simpl. eauto.
  - destruct Hr as [-> | ->]; simpl; [|eauto]. unfold paragraph_markdown.
    destruct (chunks_ok p false false Hp) as [t ->]. simpl. eauto.
  - destruct Hr as [-> | ->]; simpl; eauto.
  - destruct Hr as [-> | ->]; simpl; eauto.
  - destruct (bullet_lines_ok (map (λ d, render_blocks (map (λ c, (is_ruler c, render c)) d)) items))
      as [t Ht].
    { intros item Hin. apply list_elem_of_In, in_map_iff in Hin as (d & <- & Hd%list_elem_of_In).
      apply render_blocks_ok. intros e He.
      apply list_elem_of_In, in_map_iff in He as (c & <- & Hc%list_elem_of_In). by apply (IH d c). }
    destruct Hr as [-> | ->]; simpl; rewrite Ht; simpl; eauto.
Qed.

(** C40. Rendering is total and tidy: a document put together with the operations of
    the interface renders, to Markdown and to plain text, without violating an
    assertion of the renderer; the result has no white space at either end and
    never more than two newlines in a row. *)
Theorem documents_render_tidily (d : Document) :
  built d →
  ∃ md pt, as_markdown d = Ok md ∧ as_plain_text d = Ok pt ∧
    (∀ s, s = md ∨ s = pt → no_outer_space s ∧ no_blank_run s).
Proof.
  intros Hd%built_ok.
  assert (∀ render, render = render_markdown ∨ render = render_plain_text →
            ∃ t, render_blocks (map (λ c, (is_ruler c, render c)) d) = Ok t ∧ tidy t) as Hall.
  { intros render Hr. apply render_blocks_ok. intros e He.
    apply list_elem_of_In, in_map_iff in He as (c & <- & Hc%list_elem_of_In).
    rewrite Forall_forall in Hd. simpl. apply (render_ok render c); [by apply Hd|done]. }
  destruct (Hall render_markdown) as (md & Hmd & Htm); [by left|].
  destruct (Hall render_plain_text) as (pt & Hpt & Htp); [by right|].
  exists md, pt. split_and!; [done|done|]. by intros s [-> | ->].
Qed.

(** A copy of a document is the document, headings with their level included. *)
Lemma clone_ok b : block_ok b → clone b = b.
Proof.
  induction 1 as [p Hp|level p Hp| |code language|items _ IH]; simpl; try done. f_equal.
  rewrite <- (map_id items) at 2. apply map_ext_in. intros d Hd%list_elem_of_In.
  rewrite <- (map_id d) at 2. apply map_ext_in. intros b Hb%list_elem_of_In. by apply (IH d).
Qed.

Lemma assign_copies d : doc_ok d → assign d = d.
Proof.
  intros Hd. unfold assign. rewrite <- (map_id d) at 2. apply map_ext_in. intros b Hb%list_elem_of_In.
  rewrite Forall_forall in Hd. by apply clone_ok, Hd.
Qed.

Definition sample_document : Document :=
  edit_paragraph 1 (append_code (str "x`y") true)
    (edit_paragraph 1 (append_text (str " # a  b "))
       (add_paragraph (add_ruler [])).1) ++ [BulletList [[Ruler]]].

Lemma documents_render_tidily_witness :
  ∃ md pt, as_markdown sample_document = Ok md ∧ as_plain_text sample_document = Ok pt ∧
           no_outer_space md.
Proof.
  destruct (documents_render_tidily sample_document) as (md & pt & Hm & Hp & Ht).
  - apply b_list.
    + apply b_inline, b_text, b_paragraph, b_ruler, b_empty.
    + intros item Hin%list_elem_of_singleton. subst. apply (b_ruler []), b_empty.
  - exists md, pt. split; [exact Hm|]. split; [exact Hp|]. apply (Ht md). by left.
Defined.
