(* ===== verification/Doxygen.v ===== *)
(** * Doxygen comments (src/support/doxygen.{h,cpp})

    [strip_doxygen_info] goes over the lines of a comment and sorts out the block
    commands, the parameter and return documentation; the other lines are the rest
    of the comment, with the inline commands for bold, italic and code rewritten.
    An iterator into the lines is the list of the lines from it on. *)
From S2P Require Import Prelude Text.
From stdpp Require Import options.
Local Open Scope cpp_scope.

Abbreviation dresult A := (Res unit A).

Inductive ParamDirection := Unspecified | In | Out | InOut.

Global Instance ParamDirection_eq_dec : EqDecision ParamDirection.
Proof. solve_decision. Defined.

Record ParamCommandCommentContent := mkParam {
  param_content : bytes;
  direction : ParamDirection;
}.

Record DoxygenInfo := mkInfo {
  block_command_comments : gmap bytes (list bytes);
  param_command_comments : gmap bytes ParamCommandCommentContent;
  doc_for_return : option bytes;
}.

Definition empty_info : DoxygenInfo := mkInfo ∅ ∅ None.

Definition add_block_command_comment (tag content : bytes) (di : DoxygenInfo) : DoxygenInfo :=
  mkInfo (<[tag := get_or [] (block_command_comments di) tag ++ [content]]> (block_command_comments di))
    (param_command_comments di) (doc_for_return di).

Definition merge_param (content : bytes) (dir : ParamDirection) (p : ParamCommandCommentContent)
  : ParamCommandCommentContent :=
  mkParam (param_content p ++ newline :: content)
    (if bool_decide (direction p = Unspecified) && bool_decide (dir ≠ Unspecified)
     then dir else direction p).

Definition add_param_command_comment (name content : bytes) (dir : ParamDirection) (di : DoxygenInfo)
  : DoxygenInfo :=
  mkInfo (block_command_comments di)
    (<[name := match param_command_comments di !! name with
               | None => mkParam content dir
               | Some p => merge_param content dir p
               end]> (param_command_comments di))
    (doc_for_return di).

Definition add_return_info (ret_info : bytes) (cover : bool) (di : DoxygenInfo) : DoxygenInfo :=
  match doc_for_return di, cover with
  | Some _, false => di
  | _, _ => mkInfo (block_command_comments di) (param_command_comments di) (Some ret_info)
  end.

Definition find_param_info (name : bytes) (di : DoxygenInfo) : option ParamCommandCommentContent :=
  param_command_comments di !! name.

(** In the order the map is iterated. *)
Definition get_block_command_comments (di : DoxygenInfo) : list (bytes * list bytes) :=
  map_to_list (block_command_comments di).

Definition get_return_info (di : DoxygenInfo) : option bytes := doc_for_return di.

(** ** Lines *)

(** The set " \t\v\f\r". *)
Definition spaces : bytes := [" "; "009"; "011"; "012"; "013"]%char.

Definition commands : bytes := ["\"; "@"]%char.

(** What an inline command makes of its word. *)
Definition inline_command (opt : ascii) (word : bytes) : bytes :=
  if bool_decide (opt = "b"%char) then str "**" ++ word ++ str "**"
  else if bool_decide (opt = "e"%char) then str "*" ++ word ++ str "*"
  else if bool_decide (opt = "c"%char) then str "`" ++ word ++ str "`"
  else ["\"%char; opt; " "%char] ++ word.

(** The loop of [process_non_command_line]. *)
Fixpoint inline_loop (fuel : nat) (line : bytes) : dresult bytes :=
  match fuel with
  | O => Stuck
  | S fuel =>
    match line with
    | [] => Ok []
    | _ =>
      match find_first_of commands line with
      | None => Ok line
      | Some pos =>
        let front := take pos line in
        let line := drop pos line in
        if bool_decide (length line ≤ 4)%nat then Ok (front ++ line)
        else
          let? opt := read (line !! 1%nat) in
          let? third := read (line !! 2%nat) in
          if negb (isSpace third) then
            let? rest := inline_loop fuel (drop 2 line) in
            Ok (front ++ take 2 line ++ rest)
          else
            match find_first_not_of spaces (drop 2 line) with
            | None => Ok (front ++ line)
            | Some word_left =>
              let rest := drop (word_left + 2) line in
              let word_end := default (length rest) (find_first_of spaces rest) in
              let word := take word_end rest in
              let line := drop word_end rest in
              match word with
              | [] => Ok (front ++ line)
              | _ =>
                let? result := inline_loop fuel line in
                Ok (front ++ inline_command opt word ++ result)
              end
            end
      end
    end
  end.

(** Each round but the last consumes at least two characters. *)
Definition process_non_command_line (line : bytes) : dresult bytes :=
  let? result := inline_loop (S (length line)) line in
  Ok (result ++ [newline]).

Definition is_command (line : bytes) : bool :=
  match trim line with
  | c :: _ => bool_decide (c = "@"%char) || bool_decide (c = "\"%char)
  | [] => false
  end.

(** [consume_command_block] after the first increment: [lines] follow the command. *)
Fixpoint consume_command_block (lines : list bytes) : dresult (bytes * list bytes) :=
  match lines with
  | [] => Ok ([], [])
  | line :: rest =>
    if bool_decide (trim line = []) then Ok ([], rest)
    else if is_command line then Ok ([], lines)
    else
      let? text := process_non_command_line line in
      let? (block, lines) := consume_command_block rest in
      Ok (text ++ block, lines)
  end.

Definition equals_insensitive (a b : bytes) : bool := bool_decide (toLower <$> a = toLower <$> b).

Definition parse_direction (s : bytes) : ParamDirection :=
  if equals_insensitive s (str "in") then In
  else if equals_insensitive s (str "out") then Out
  else if equals_insensitive s (str "in,out") then InOut
  else Unspecified.

(** The command word and what follows it on the line. *)
Definition split_command (trimmed : bytes) : bytes * bytes :=
  match find_first_of (spaces ++ ["["%char]) trimmed with
  | None => (drop 1 trimmed, [])
  | Some command_end => (drop 1 (take command_end trimmed), drop command_end trimmed)
  end.

(** The first line of a block, if something follows the command on it. *)
Definition first_line (rest_of_line : bytes) : bytes :=
  match rest_of_line with [] => [] | _ => rest_of_line ++ [newline] end.

(** The name of a parameter and what follows it, after the direction. *)
Definition split_name (rest_of_line : bytes) : bytes * bytes :=
  match find_first_of spaces rest_of_line with
  | None => (rest_of_line, [])
  | Some name_end => (take name_end rest_of_line, drop name_end rest_of_line)
  end.

(** The direction of a parameter, if the bracket is closed. *)
Definition split_direction (rest_of_line : bytes) : option (ParamDirection * bytes) :=
  if starts_with (str "[") rest_of_line then
    match find_first_of (str "]") rest_of_line with
    | Some close_bracket =>
      Some (parse_direction (drop 1 (take close_bracket rest_of_line)),
            drop (S close_bracket) rest_of_line)
    | None => None
    end
  else Some (Unspecified, rest_of_line).

(** A [@param] line and its block: the lines left, the information, the rest. *)
Definition process_param (line rest_of_line : bytes) (lines : list bytes) (di : DoxygenInfo)
  : dresult (list bytes * DoxygenInfo * bytes) :=
  match rest_of_line with
  | [] => Ok (lines, di, [])
  | _ =>
    match split_direction rest_of_line with
    | None => let? text := process_non_command_line line in Ok (lines, di, text)
    | Some (dir, rest_of_line) =>
      match drop_while (one_of spaces) rest_of_line with
      | [] => Ok (lines, di, [])
      | rest_of_line =>
        let (param_name, rest_of_line) := split_name rest_of_line in
        let? (block, lines) := consume_command_block lines in
        Ok (lines,
            add_param_command_comment param_name (first_line rest_of_line ++ block) dir di, [])
      end
    end
  end.

(** [process_paragragh]: the current line and those after it. *)
Definition process_paragragh (line : bytes) (lines : list bytes) (di : DoxygenInfo)
  : dresult (list bytes * DoxygenInfo * bytes) :=
  if is_command line then
    let (command, rest_of_line) := split_command (trim line) in
    if equals_insensitive command (str "param") then process_param line rest_of_line lines di
    else
      let? (block, lines) := consume_command_block lines in
      let content := first_line rest_of_line ++ block in
      if equals_insensitive command (str "return")
      then Ok (lines, add_return_info content true di, [])
      else Ok (lines, add_block_command_comment command content di, [])
  else
    let? text := process_non_command_line line in
    Ok (lines, di, text).

Fixpoint strip_loop (fuel : nat) (lines : list bytes) (di : DoxygenInfo)
  : dresult (DoxygenInfo * bytes) :=
  match lines with
  | [] => Ok (di, [])
  | line :: lines =>
    match fuel with
    | O => Stuck
    | S fuel =>
      let? (lines, di, text) := process_paragragh line lines di in
      let? (di, rest) := strip_loop fuel lines di in
      Ok (di, text ++ rest)
    end
  end.

(** Each round consumes a line. *)
Definition strip_doxygen_info (raw_comment : bytes) : dresult (DoxygenInfo * bytes) :=
  let lines := split_on newline raw_comment in
  strip_loop (length lines) lines empty_info.

(** ** Totality *)

Lemma drop_shorter {A} (n : nat) (l : list A) : (length (drop n l) ≤ length l)%nat.
Proof. rewrite length_drop. lia. Qed.

Lemma inline_loop_total fuel line :
  (length line < fuel)%nat → ∃ t, inline_loop fuel line = Ok t.
Proof.
  revert line. induction fuel as [|fuel IH]; intros line Hlen; [lia|]. cbn [inline_loop].
  destruct line as [|c0 line0] eqn:El; [eauto|]. rewrite <- El in *. clear El.
  destruct (find_first_of commands line) as [pos|]; [|eauto].
  pose proof (drop_shorter pos line) as Hsh. set (tl := drop pos line) in *. clearbody tl.
  case_bool_decide as H4; [eauto|].
  destruct tl as [|c1 [|c2 [|c3 tl]]]; simpl in H4; try lia. simpl.
  destruct (negb (isSpace c3)).
  { destruct (IH (c3 :: tl)) as [t ->]; [simpl in *; lia|]. simpl. eauto. }
  destruct (find_first_not_of spaces (c3 :: tl)) as [wl|]; [|eauto].
  replace (wl + 2)%nat with (S (S wl)) by lia. simpl.
  set (rest := drop wl (c3 :: tl)). set (we := default _ _).
  destruct (take we rest); [eauto|].
  destruct (IH (drop we rest)) as [t' ->]; [|simpl; eauto].
  pose proof (drop_shorter we rest). pose proof (drop_shorter wl (c3 :: tl)). simpl in *.
  fold rest in H0. lia.
Qed.

Lemma non_command_line_total line : ∃ t, process_non_command_line line = Ok t.
Proof.
  unfold process_non_command_line. destruct (inline_loop_total (S (length line)) line) as [t ->];
    [lia|]. simpl. eauto.
Qed.

Lemma consume_total lines :
  ∃ block lines', consume_command_block lines = Ok (block, lines') ∧ (length lines' ≤ length lines)%nat.
Proof.
  induction lines as [|line rest (block & lines' & IH & Hle)]; simpl; [by eexists _, _|].
  case_bool_decide; [eexists _, _; split; [done|lia]|].
  destruct (is_command line); [eexists _, _; split; [done|simpl; lia]|].
  destruct (non_command_line_total line) as [t ->]. simpl. rewrite IH. simpl.
  eexists _, _. split; [done|lia].
Qed.

Lemma paragraph_total line lines di :
  ∃ lines' di' t, process_paragragh line lines di = Ok (lines', di', t) ∧
                  (length lines' ≤ length lines)%nat.
Proof.
  unfold process_paragragh. destruct (is_command line).
  2: { destruct (non_command_line_total line) as [t ->]. simpl. eexists _, _, _; split; [reflexivity|lia]. }
  destruct (split_command (trim line)) as [command rol].
  destruct (consume_total lines) as (block & lines' & Hc & Hle).
  destruct (equals_insensitive command (str "param")).
  - unfold process_param. destruct rol as [|c rol]; [eexists _, _, _; split; [reflexivity|lia]|].
    destruct (split_direction (c :: rol)) as [[dir rol']|].
    2: { destruct (non_command_line_total line) as [t ->]. simpl. eexists _, _, _; split; [reflexivity|lia]. }
    destruct (drop_while (one_of spaces) rol') as [|c' rol''] eqn:Hd; [eexists _, _, _; split; [reflexivity|lia]|].
    destruct (split_name (c' :: rol'')) as [name rol3]. rewrite Hc. simpl. eexists _, _, _; split; [reflexivity|lia].
  - rewrite Hc. cbn [Res_bind]. destruct (equals_insensitive command (str "return"));
      (eexists _, _, _; split; [reflexivity|lia]).
Qed.

Lemma strip_loop_total fuel lines di :
  (length lines ≤ fuel)%nat → ∃ di' t, strip_loop fuel lines di = Ok (di', t).
Proof.
  revert lines di. induction fuel as [|fuel IH]; intros lines di Hlen;
    (destruct lines as [|line lines]; [by eexists _, _|]); simpl in Hlen; [lia|]. cbn [strip_loop].
  destruct (paragraph_total line lines di) as (lines' & di' & t & -> & Hle). simpl.
  destruct (IH lines' di') as (di2 & t2 & ->); [lia|]. simpl. by eexists _, _.
Qed.

(** ** Parameters *)

(** One piece of documentation of a parameter. *)
Abbreviation ParamDoc := (bytes * bytes * ParamDirection)%type.

Definition record_params (docs : list ParamDoc) (di : DoxygenInfo) : DoxygenInfo :=
  foldl (λ di d, add_param_command_comment d.1.1 d.1.2 d.2 di) di docs.

(** Texts one after the other, a newline between. *)
Fixpoint paragraphs (texts : list bytes) : bytes :=
  match texts with
  | [] => []
  | [t] => t
  | t :: texts => t ++ newline :: paragraphs texts
  end.

(** The first direction that says something. *)
Definition first_direction (dirs : list ParamDirection) : ParamDirection :=
  default Unspecified (head (filter (λ d, d ≠ Unspecified) dirs)).

Lemma paragraphs_snoc texts t :
  texts ≠ [] → paragraphs (texts ++ [t]) = paragraphs texts ++ newline :: t.
Proof.
  induction texts as [|a texts IH]; [done|]. intros _. destruct texts as [|b texts]; [done|].
  change (a ++ newline :: paragraphs ((b :: texts) ++ [t]) =
          (a ++ newline :: paragraphs (b :: texts)) ++ newline :: t).
  rewrite IH by done. by rewrite <- app_assoc.
Qed.

Lemma first_direction_snoc dirs d :
  first_direction (dirs ++ [d]) =
    (if bool_decide (first_direction dirs = Unspecified) && bool_decide (d ≠ Unspecified)
     then d else first_direction dirs).
Proof.
  unfold first_direction. rewrite filter_app.
  destruct (filter (λ d, d ≠ Unspecified) dirs) as [|e ds] eqn:Hf; simpl.
  - rewrite filter_cons, filter_nil. destruct d; by vm_compute.
  - assert (e ≠ Unspecified) as He.
    { assert (e ∈ filter (λ d, d ≠ Unspecified) dirs) as Hin by (rewrite Hf; set_solver).
      by apply list_elem_of_filter in Hin as [? _]. }
    by rewrite bool_decide_false.
Qed.

(** The documentation of a parameter is merged as doxygen does: after any
    sequence of [add_param_command_comment] calls, the entry of a name is present
    exactly when it was documented, its content is all its pieces in order, one per
    line break, and its direction is the first one that was given. *)
Theorem param_docs_merge (docs : list ParamDoc) (name : bytes) :
  let mine := filter (λ d, d.1.1 = name) docs in
  find_param_info name (record_params docs empty_info) =
    (if bool_decide (mine = []) then None
     else Some (mkParam (paragraphs ((λ d, d.1.2) <$> mine)) (first_direction (snd <$> mine)))).
Proof.
  cbv zeta. induction docs as [|d docs IH] using rev_ind; [done|].
  unfold record_params in *. rewrite foldl_app. simpl. unfold find_param_info in *. simpl.
  rewrite filter_app, filter_cons, filter_nil.
  destruct (decide (d.1.1 = name)) as [Hn|Hn].
  - rewrite Hn, lookup_insert_eq, IH. set (mine := filter _ docs).
    rewrite (bool_decide_false (mine ++ [d] = [])) by (by destruct mine).
    destruct (decide (mine = [])) as [->|Hne].
    { simpl. unfold first_direction. by destruct d as [[? ?] []]. }
    rewrite bool_decide_false by done. rewrite !fmap_app. simpl.
    rewrite paragraphs_snoc, first_direction_snoc by (by destruct mine). done.
  - rewrite lookup_insert_ne, IH by done. by rewrite app_nil_r.
Qed.

(** ** Comments without commands *)

Lemma split_on_join sep s : ∃ p ps, split_on sep s = p :: ps ∧
  s ++ [sep] = concat ((λ l, l ++ [sep]) <$> (p :: ps)).
Proof.
  induction s as [|c s (p & ps & Hs & Hj)]; simpl; [by exists [], []|].
  rewrite Hs. destruct (decide (c = sep)) as [->|Hc].
  - exists [], (p :: ps). split; [done|]. simpl in *. by rewrite Hj.
  - exists (c :: p), ps. split; [done|]. simpl in *. by rewrite Hj.
Qed.

Lemma split_on_elem sep s l c : l ∈ split_on sep s → c ∈ l → c ∈ s.
Proof.
  revert l. induction s as [|d s IH]; intros l; simpl.
  { intros ->%list_elem_of_singleton. done. }
  destruct (split_on_join sep s) as (p & ps & Hs & _). rewrite Hs in *.
  destruct (decide (d = sep)) as [->|Hd].
  - intros [->|Hl]%elem_of_cons Hc; [set_solver|]. apply list_elem_of_further. by apply (IH l).
  - intros [->|Hl]%elem_of_cons Hc.
    + apply elem_of_cons in Hc as [->|Hc]; [set_solver|].
      apply list_elem_of_further. apply (IH p); [set_solver|done].
    + apply list_elem_of_further. apply (IH l); [set_solver|done].
Qed.

Definition plain_line (l : bytes) : Prop := ∀ c, c ∈ l → c ∉ commands.

Lemma trim_elem l c : c ∈ trim l → c ∈ l.
Proof.
  intros Hc. destruct (rtrim_prefix (ltrim l)) as (k & Hk & _).
  destruct (drop_while_suffix isSpace l) as (k' & Hk' & _).
  assert (c ∈ ltrim l) as Hc' by (rewrite Hk; set_solver). unfold ltrim in Hc'. rewrite Hk'. set_solver.
Qed.

Lemma plain_no_command l : plain_line l → is_command l = false.
Proof.
  intros Hp. unfold is_command. destruct (trim l) as [|c tl] eqn:Ht; [done|].
  assert (c ∉ commands) as Hc by (apply Hp, trim_elem; rewrite Ht; set_solver).
  unfold commands in Hc. rewrite !bool_decide_false; [done| |]; intros ->; apply Hc; set_solver.
Qed.

Lemma plain_inline l : plain_line l → process_non_command_line l = Ok (l ++ [newline]).
Proof.
  intros Hp. unfold process_non_command_line. cbn [inline_loop]. destruct l as [|c0 l0] eqn:El; [done|].
  rewrite <- El in *. assert (find_first_of commands l = None) as ->; [|done].
  destruct (find_first_of commands l) as [i|] eqn:Hf; [|done].
  apply find_if_Some in Hf as (pre & c & post & Heq & _ & Hc & _). unfold one_of in Hc.
  apply bool_decide_eq_true in Hc. destruct (Hp c); [rewrite Heq; set_solver|done].
Qed.

(** Stripping always ends with a result, within one round per line; and a comment
    without a backslash or an at sign comes through unchanged, but for a final line
    break, with no documentation recorded. *)
Theorem strip_total_and_transparent (raw_comment : bytes) :
  (∃ di rest, strip_doxygen_info raw_comment = Ok (di, rest)) ∧
  ((∀ c, c ∈ raw_comment → c ∉ commands) →
   strip_doxygen_info raw_comment = Ok (empty_info, raw_comment ++ [newline])).
Proof.
  split; [by apply strip_loop_total|]. intros Hp. unfold strip_doxygen_info.
  destruct (split_on_join newline raw_comment) as (p & ps & Hs & Hj). rewrite Hj, <- Hs.
  assert (∀ l, l ∈ split_on newline raw_comment → plain_line l) as Hpl.
  { intros l Hl c Hc. apply Hp. by eapply split_on_elem. }
  clear -Hpl. generalize (le_n (length (split_on newline raw_comment))).
  generalize (length (split_on newline raw_comment)) at 2 3. revert Hpl.
  generalize (split_on newline raw_comment). intros lines.
  induction lines as [|l lines IH]; intros Hpl fuel Hle; [by destruct fuel|].
  destruct fuel as [|fuel]; simpl in Hle; [lia|]. cbn [strip_loop]. unfold process_paragragh.
  rewrite plain_no_command, plain_inline by (apply Hpl; set_solver). cbn [Res_bind].
  rewrite IH; [done| |lia]. intros l' Hl'. apply Hpl. set_solver.
Qed.

(** The shortest inline command, four characters at the end of a line, is not
    recognised, although the test is meant for what is shorter than it. *)
Lemma shortest_inline_command_ignored :
  process_non_command_line (str "@b x") = Ok (str "@b x" ++ [newline]).
Proof. reflexivity. Qed.

Lemma strip_total_and_transparent_witness :
  strip_doxygen_info (str "plain text") = Ok (empty_info, str "plain text" ++ [newline]).
Proof.
  apply (strip_total_and_transparent (str "plain text")). intros c Hc.
  apply list_elem_of_In in Hc. simpl in Hc.
  repeat (destruct Hc as [<-|Hc]; [vm_compute; set_solver|]). destruct Hc.
Defined.
