(* ===== verification/IndexData.v ===== *)
(** * Index data (src/index/tu_index.{h,cpp}, src/semantic/relation_kind.h)

    The records every level of the index shares: source ranges, symbol
    occurrences, relations and symbols; the per-file index [FileIndex] with its
    two lookups, the bytes its content hash is taken of, and the sorting a
    finished index goes through.  The theorem here is that a lookup by offset,
    a binary search followed by a short scan, reports exactly the occurrences
    around the offset.

    A [DenseMap] is a [gmap]; the order in which code walks over one depends on
    its buckets, so a walk takes the order as an argument of type [Order], any
    arrangement of the entries.  The keys [DenseMap] reserves for itself are not
    treated.  [Relation::padding] is zero in every relation, no code writes it; it
    only appears in the bytes that are hashed. *)
From stdpp Require Export sorting.
From Stdlib Require Import ZifyBool.
From S2P Require Export Prelude.
Local Open Scope Z_scope.

(** ** Walks over hash maps *)

Record Order := mkOrder {
  walk : ∀ (K : Type) (EqK : EqDecision K) (CK : Countable K) (V : Type),
    gmap K V → list (K * V);
  walk_perm : ∀ K EqK CK V (m : gmap K V), walk K EqK CK V m ≡ₚ map_to_list m;
}.

(** [for(auto& [key, value]: map)] *)
Definition entries (ord : Order) `{Countable K} {V} (m : gmap K V) : list (K * V) :=
  walk ord K _ _ V m.

Program Definition bucket_order : Order := mkOrder (λ K EqK CK V m, map_to_list m) _.
Next Obligation. done. Qed.

Program Definition reverse_order : Order := mkOrder (λ K EqK CK V m, reverse (map_to_list m)) _.
Next Obligation. intros. apply reverse_Permutation. Qed.

Section walks.
Context (ord : Order) `{Countable K} {V : Type}.
Implicit Types m : gmap K V.

Lemma entries_perm m : entries ord m ≡ₚ map_to_list m.
Proof. apply walk_perm. Qed.

Lemma elem_of_entries m k v : (k, v) ∈ entries ord m ↔ m !! k = Some v.
Proof. by rewrite entries_perm, elem_of_map_to_list. Qed.

Lemma NoDup_entries_fst m : NoDup (entries ord m).*1.
Proof. rewrite entries_perm. apply NoDup_fst_map_to_list. Qed.

Lemma entries_nil m : entries ord m = [] ↔ m = ∅.
Proof.
  split.
  - intros E. pose proof (entries_perm m) as Hp. rewrite E in Hp.
    apply map_to_list_empty_iff. by apply Permutation_nil.
  - intros ->. apply Permutation_nil. by rewrite entries_perm, map_to_list_empty.
Qed.

Lemma list_to_map_entries m : list_to_map (entries ord m) = m.
Proof.
  rewrite (list_to_map_proper _ (map_to_list m));
    [apply list_to_map_to_list|apply NoDup_entries_fst|apply entries_perm].
Qed.
End walks.

(** [container.try_emplace(key, value)] keeps the first value of a key. *)
Definition try_emplace `{Countable K} {V} (m : gmap K V) (k : K) (v : V) : gmap K V :=
  match m !! k with Some _ => m | None => <[k := v]> m end.

(** Loading the entries a walk wrote gives back the map. *)
Lemma try_emplace_all `{Countable K} {V} (l : list (K * V)) (m : gmap K V) :
  NoDup l.*1 → (∀ k v, (k, v) ∈ l → m !! k = None) →
  foldl (λ m e, try_emplace m e.1 e.2) m l = list_to_map l ∪ m.
Proof.
  revert m. induction l as [|[k v] l IH]; intros m Hnd Hfresh; simpl.
  { by rewrite (left_id_L ∅ (∪)). }
  apply NoDup_cons in Hnd as [Hk Hnd].
  assert (m !! k = None) as Hmk by (eapply Hfresh; left).
  unfold try_emplace at 2. rewrite Hmk, IH; [|done|].
  - by rewrite <- insert_union_l, insert_union_r by (by apply not_elem_of_list_to_map_1).
  - intros k' v' Hin. rewrite lookup_insert_ne; [eapply Hfresh; by right|].
    intros <-. apply Hk, list_elem_of_fmap. by exists (k, v').
Qed.

Lemma try_emplace_entries `{Countable K} {V} ord (m : gmap K V) :
  foldl (λ m e, try_emplace m e.1 e.2) ∅ (entries ord m) = m.
Proof.
  rewrite try_emplace_all;
    [by rewrite (right_id_L ∅ (∪)), list_to_map_entries|apply NoDup_entries_fst|].
  intros. apply lookup_empty.
Qed.

Lemma get_or_update `{Countable K} {V} (d v : V) (m : gmap K V) k k' :
  get_or d (<[k := v]> m) k' = if decide (k = k') then v else get_or d m k'.
Proof.
  unfold get_or. case_decide; [subst; by rewrite lookup_insert_eq|by rewrite lookup_insert_ne].
Qed.

Lemma get_or_empty `{Countable K} {V} (d : V) (k : K) : get_or d (∅ : gmap K V) k = d.
Proof. done. Qed.

(** ** Visitors: [llvm::function_ref<bool(const T&)>]

    A callback sees an element, may change its own state, and says whether to go
    on. *)

Abbreviation Visitor A S := (A → S → S * bool).

Fixpoint visit {A S} (callback : Visitor A S) (l : list A) (s : S) : S :=
  match l with
  | [] => s
  | a :: l =>
    let '(s, go_on) := callback a s in
    if go_on then visit callback l s else s
  end.

(** The visitor that collects what it is shown. *)
Definition collect {A} : Visitor A (list A) := λ a seen, (seen ++ [a], true).

Lemma visit_collect_app {A} (l seen : list A) : visit collect l seen = seen ++ l.
Proof.
  revert seen. induction l as [|a l IH]; intros seen; simpl; [by rewrite app_nil_r|].
  by rewrite IH, <- app_assoc.
Qed.

Fixpoint prefix_while {A} (p : A → bool) (l : list A) : list A :=
  match l with
  | [] => []
  | a :: l => if p a then a :: prefix_while p l else []
  end.

(** ** Ranges, occurrences, relations, symbols *)

(** [LocalSourceRange]; both ends are 32-bit offsets. *)
Record Range := mkRange { range_begin : Z; range_end : Z }.

Definition contains (r : Range) (offset : Z) : bool :=
  (range_begin r <=? offset) && (offset <=? range_end r).

Inductive RelationKind :=
| Invalid | Declaration | Definition_ | Reference | WeakReference | Read | Write
| Interface | Implementation | TypeDefinition | Base | Derived | Constructor
| Destructor | Caller | Callee.

Definition kind_value (k : RelationKind) : Z :=
  match k with
  | Invalid => 0 | Declaration => 1 | Definition_ => 2 | Reference => 3
  | WeakReference => 4 | Read => 5 | Write => 6 | Interface => 7
  | Implementation => 8 | TypeDefinition => 9 | Base => 10 | Derived => 11
  | Constructor => 12 | Destructor => 13 | Caller => 14 | Callee => 15
  end.

Definition is_one_of (k : RelationKind) (kinds : list RelationKind) : bool :=
  existsb (λ k', kind_value k =? kind_value k') kinds.

Definition isDeclOrDef k := is_one_of k [Declaration; Definition_].
Definition isReference k := is_one_of k [Reference; WeakReference].
Definition isBetweenSymbol k :=
  is_one_of k [Interface; Implementation; TypeDefinition; Base; Derived; Constructor; Destructor].
Definition isCall k := is_one_of k [Caller; Callee].

(** [operator&] compares the values: a kind is one relation, not a set. *)
Definition kind_and (l r : RelationKind) : bool := kind_value l =? kind_value r.

Record Occurrence := mkOccurrence { o_range : Range; o_target : Z }.

Record Relation := mkRelation {
  r_kind : RelationKind; r_range : Range; r_target_symbol : Z }.

(** [enum class SymbolScope : std::uint8_t]; a cast from a byte may also give a
    value without a name. *)
Inductive SymbolScope := External | TULocal | FileLocal | UnnamedScope (value : Z).

Definition scope_value (s : SymbolScope) : Z :=
  match s with External => 0 | TULocal => 1 | FileLocal => 2 | UnnamedScope z => z end.

Definition scope_cast (z : Z) : SymbolScope :=
  if z =? 0 then External else if z =? 1 then TULocal
  else if z =? 2 then FileLocal else UnnamedScope z.

(** Values of the type: a named one is not written as its number. *)
Definition scope_ok (s : SymbolScope) : Prop :=
  match s with UnnamedScope z => z ≠ 0 ∧ z ≠ 1 ∧ z ≠ 2 | _ => True end.

(** [roaring::Roaring], a set of 32-bit numbers. *)
Abbreviation Bitmap := (gset Z).

Record Symbol := mkSymbol {
  name : bytes; symbol_kind : Z; scope : SymbolScope; reference_files : Bitmap }.

(** [SymbolKind::Invalid], the kind of a default [Symbol]. *)
Definition invalid_kind : Z := 31.

(** [Symbol()] *)
Definition new_symbol : Symbol := mkSymbol [] invalid_kind External ∅.

Abbreviation SymbolTable := (gmap Z Symbol).

Record FileIndex := mkFileIndex {
  f_relations : gmap Z (list Relation);
  f_occurrences : list Occurrence }.

Definition empty_file_index : FileIndex := mkFileIndex ∅ [].

Global Instance Range_eq_dec : EqDecision Range.
Proof. solve_decision. Defined.
Global Instance RelationKind_eq_dec : EqDecision RelationKind.
Proof. solve_decision. Defined.
Global Instance Occurrence_eq_dec : EqDecision Occurrence.
Proof. solve_decision. Defined.
Global Instance Relation_eq_dec : EqDecision Relation.
Proof. solve_decision. Defined.
Global Instance SymbolScope_eq_dec : EqDecision SymbolScope.
Proof. solve_decision. Defined.
Global Instance Symbol_eq_dec : EqDecision Symbol.
Proof. solve_decision. Defined.

Definition kinds : list RelationKind :=
  [Invalid; Declaration; Definition_; Reference; WeakReference; Read; Write;
   Interface; Implementation; TypeDefinition; Base; Derived; Constructor;
   Destructor; Caller; Callee].

Lemma kinds_kind_value k : kinds !! Z.to_nat (kind_value k) = Some k.
Proof. by destruct k. Qed.

Global Instance Range_countable : Countable Range :=
  inj_countable' (λ r, (range_begin r, range_end r)) (λ p, mkRange p.1 p.2)
    ltac:(by intros []).
Global Instance RelationKind_countable : Countable RelationKind :=
  inj_countable (λ k, Z.to_nat (kind_value k)) (λ n, kinds !! n) kinds_kind_value.
Global Instance Occurrence_countable : Countable Occurrence :=
  inj_countable' (λ o, (o_range o, o_target o)) (λ p, mkOccurrence p.1 p.2)
    ltac:(by intros []).
Global Instance Relation_countable : Countable Relation :=
  inj_countable' (λ r, (r_kind r, r_range r, r_target_symbol r))
    (λ p, mkRelation p.1.1 p.1.2 p.2) ltac:(by intros []).

Lemma kind_value_inj k k' : kind_value k = kind_value k' → k = k'.
Proof.
  intros E. pose proof (kinds_kind_value k) as H. rewrite E, kinds_kind_value in H. congruence.
Qed.

Lemma kind_and_spec k k' : kind_and k k' = bool_decide (k = k').
Proof.
  unfold kind_and. case_bool_decide as E; [by subst; apply Z.eqb_refl|].
  apply Z.eqb_neq. intros ?. by apply E, kind_value_inj.
Qed.

Lemma scope_cast_value s : scope_ok s → scope_cast (scope_value s) = s.
Proof.
  destruct s as [| | |z]; simpl; try done. intros (? & ? & ?).
  unfold scope_cast. repeat (case_match; [lia|]). done.
Qed.

(** [bit_cast] between a range and a symbol hash: the first field is the low
    word. *)
Definition range_bits (r : Range) : Z := range_begin r + range_end r * two32.
Definition bits_range (z : Z) : Range := mkRange (z mod two32) (z / two32).

Definition set_definition_range (r : Relation) (range : Range) : Relation :=
  mkRelation (r_kind r) (r_range r) (range_bits range).
Definition definition_range (r : Relation) : Range := bits_range (r_target_symbol r).

Lemma definition_range_set r range :
  0 ≤ range_begin range < two32 → 0 ≤ range_end range < two32 →
  definition_range (set_definition_range r range) = range ∧
  0 ≤ r_target_symbol (set_definition_range r range) < two64.
Proof.
  intros Hb He. unfold definition_range, bits_range; simpl. unfold range_bits.
  unfold two32, two64 in *. split; [|lia]. destruct range as [b e]; simpl in *. f_equal.
  - rewrite Z_mod_plus_full. by apply Z.mod_small.
  - rewrite Z.div_add, Z.div_small by lia. done.
Qed.

(** ** Sorting by a tuple of integers *)

(** [std::tuple(...) < std::tuple(...)], as its non-strict version. *)
Fixpoint lex_le (a b : list Z) : bool :=
  match a, b with
  | [], _ => true
  | _ :: _, [] => false
  | x :: a, y :: b => (x <? y) || ((x =? y) && lex_le a b)
  end.

Lemma lex_le_refl a : lex_le a a.
Proof.
  induction a as [|x a IH]; simpl; [done|]. rewrite Z.ltb_irrefl, Z.eqb_refl. done.
Qed.

Lemma lex_le_total a b : lex_le a b ∨ lex_le b a.
Proof.
  revert b. induction a as [|x a IH]; intros [|y b]; simpl; try by (left + right).
  destruct (Z.ltb_spec x y), (Z.ltb_spec y x), (Z.eqb_spec x y), (Z.eqb_spec y x);
    simpl; try lia; try by (left + right). apply IH.
Qed.

Lemma lex_le_trans a b c : lex_le a b → lex_le b c → lex_le a c.
Proof.
  revert b c. induction a as [|x a IH]; intros [|y b] [|z c]; simpl; try done.
  destruct (Z.ltb_spec x y), (Z.ltb_spec y z), (Z.ltb_spec x z), (Z.eqb_spec x y),
    (Z.eqb_spec y z), (Z.eqb_spec x z); simpl; try lia; try done. apply IH.
Qed.

Lemma lex_le_antisym a b : lex_le a b → lex_le b a → a = b.
Proof.
  revert b. induction a as [|x a IH]; intros [|y b]; simpl; try done.
  destruct (Z.ltb_spec x y), (Z.ltb_spec y x), (Z.eqb_spec x y), (Z.eqb_spec y x);
    simpl; try lia; try done. intros. subst. f_equal. by apply IH.
Qed.

(** [std::ranges::sort] with a comparator on keys. *)
Section sort_by.
Context {A : Type} (key : A → list Z).

Definition key_le (x y : A) : Prop := lex_le (key x) (key y).

Global Instance key_le_dec x y : Decision (key_le x y).
Proof. unfold key_le. apply _. Defined.

Global Instance key_le_total : Total key_le.
Proof. intros x y. apply lex_le_total. Qed.

Global Instance key_le_trans : Transitive key_le.
Proof. intros x y z. apply lex_le_trans. Qed.

Definition sort_by (l : list A) : list A := merge_sort key_le l.

Lemma sort_by_perm l : sort_by l ≡ₚ l.
Proof. apply merge_sort_Permutation. Qed.

Lemma sort_by_sorted l : StronglySorted key_le (sort_by l).
Proof. apply StronglySorted_merge_sort; apply _. Qed.

Lemma elem_of_sort_by l x : x ∈ sort_by l ↔ x ∈ l.
Proof. by rewrite sort_by_perm. Qed.

(** Where keys identify elements, the result only depends on the elements. *)
Lemma sort_by_unique `{!Inj (=) (=) key} l l' : l ≡ₚ l' → sort_by l = sort_by l'.
Proof.
  intros Hp. apply (StronglySorted_unique_strong key_le); [|apply sort_by_sorted..|].
  - intros x y _ _ Hxy Hyx. by apply (inj key), lex_le_antisym.
  - by rewrite !sort_by_perm.
Qed.
End sort_by.

Definition occurrence_key (o : Occurrence) : list Z :=
  [range_begin (o_range o); range_end (o_range o); o_target o].

Definition relation_key (r : Relation) : list Z :=
  [kind_value (r_kind r); range_begin (r_range r); range_end (r_range r); r_target_symbol r].

Global Instance occurrence_key_inj : Inj (=) (=) occurrence_key.
Proof. intros [[b e] t] [[b' e'] t']; unfold occurrence_key; simpl. by intros [= -> -> ->]. Qed.

Global Instance relation_key_inj : Inj (=) (=) relation_key.
Proof.
  intros [k [b e] t] [k' [b' e'] t']; unfold relation_key; simpl.
  intros [= Hk -> -> ->]. by apply kind_value_inj in Hk as ->.
Qed.

(** [std::ranges::unique] followed by [erase]: of equal neighbours the first
    stays. *)
Fixpoint unique `{EqDecision A} (l : list A) : list A :=
  match l with
  | x :: (y :: _) as l' => if decide (x = y) then unique l' else x :: unique l'
  | _ => l
  end.

Lemma unique_cons `{EqDecision A} (x y : A) l :
  unique (x :: y :: l) = if decide (x = y) then unique (y :: l) else x :: unique (y :: l).
Proof. done. Qed.

Lemma elem_of_unique `{EqDecision A} (x : A) l : x ∈ unique l ↔ x ∈ l.
Proof.
  induction l as [|y [|z l] IH]; try done. rewrite unique_cons.
  case_decide as E; [subst; rewrite IH; set_solver|]. rewrite !elem_of_cons, IH. set_solver.
Qed.

Lemma unique_sorted {A} `{EqDecision A} (key : A → list Z) `{!Inj (=) (=) key} l :
  StronglySorted (key_le key) l → StronglySorted (key_le key) (unique l) ∧ NoDup (unique l).
Proof.
  induction l as [|x [|y l] IH]; intros Hs.
  { by split; constructor. }
  { split; [done|apply NoDup_singleton]. }
  apply StronglySorted_cons in Hs as [Hx Hs]. destruct (IH Hs) as [IH1 IH2].
  rewrite unique_cons. case_decide as E; [done|]. split.
  - apply StronglySorted_cons. split; [|done]. apply Forall_forall. intros z Hz.
    rewrite elem_of_unique in Hz. rewrite Forall_forall in Hx. by apply Hx.
  - apply NoDup_cons. split; [|done]. intros Hin. rewrite elem_of_unique in Hin.
    apply E, (inj key), lex_le_antisym; [by inversion Hx|].
    apply elem_of_cons in Hin as [->|Hin]; [apply lex_le_refl|].
    apply StronglySorted_cons in Hs as [Hy _].
    rewrite Forall_forall in Hy. by apply Hy.
Qed.

(** [Builder::build]: the tables of every file are sorted and freed of
    duplicates. *)
Definition finish_relations (l : list Relation) : list Relation :=
  unique (sort_by relation_key l).
Definition finish_occurrences (l : list Occurrence) : list Occurrence :=
  unique (sort_by occurrence_key l).
Definition finish_file (index : FileIndex) : FileIndex :=
  mkFileIndex (finish_relations <$> f_relations index) (finish_occurrences (f_occurrences index)).

(** ** [std::ranges::lower_bound] with a projection

    The halving search of the library, on a vector that need not be partitioned:
    [before a] is [projection(a) < value]. *)
Fixpoint lower_bound_from {A} (fuel : nat) (before : A → bool) (l : list A)
    (first len : nat) : nat :=
  match fuel with
  | O => first
  | S fuel =>
    if decide (len = O) then first else
    let half := Nat.div2 len in
    match l !! (first + half)%nat with
    | Some a =>
      if before a then lower_bound_from fuel before l (S (first + half)) (len - half - 1)
      else lower_bound_from fuel before l first half
    | None => first
    end
  end.

Definition lower_bound {A} (before : A → bool) (l : list A) : nat :=
  lower_bound_from (length l) before l 0 (length l).

(** [FileIndex::lookup(offset, callback)] *)
Fixpoint file_scan {S} (offset : Z) (callback : Visitor Occurrence S)
    (it : list Occurrence) (s : S) : S :=
  match it with
  | [] => s
  | o :: it =>
    if contains (o_range o) offset then
      let '(s, go_on) := callback o s in
      if go_on then file_scan offset callback it s else s
    else s
  end.

Definition ends_before (offset : Z) (o : Occurrence) : bool := range_end (o_range o) <? offset.

Definition file_lookup_offset {S} (index : FileIndex) (offset : Z)
    (callback : Visitor Occurrence S) (s : S) : S :=
  let occurrences := f_occurrences index in
  file_scan offset callback (drop (lower_bound (ends_before offset) occurrences) occurrences) s.

(** [FileIndex::lookup(symbol, kind, callback)] *)
Fixpoint scan_kind {S} (kind : RelationKind) (callback : Visitor Relation S)
    (l : list Relation) (s : S) : S :=
  match l with
  | [] => s
  | r :: l =>
    if kind_and (r_kind r) kind then
      let '(s, go_on) := callback r s in
      if go_on then scan_kind kind callback l s else s
    else scan_kind kind callback l s
  end.

Definition file_lookup_symbol {S} (index : FileIndex) (symbol : Z) (kind : RelationKind)
    (callback : Visitor Relation S) (s : S) : S :=
  match f_relations index !! symbol with
  | None => s
  | Some l => scan_kind kind callback l s
  end.

(** ** The content hash

    [hash] feeds the memory of the two tables to SHA-256: sixteen bytes per
    occurrence, eight per symbol and twenty-four per relation, with nothing in
    between. *)
Fixpoint le_bytes (n : nat) (z : Z) : bytes :=
  match n with
  | O => []
  | S n => ascii_of_N (Z.to_N (z mod 256)) :: le_bytes n (z / 256)
  end.

Definition range_bytes (r : Range) : bytes := le_bytes 4 (range_begin r) ++ le_bytes 4 (range_end r).
Definition occurrence_bytes (o : Occurrence) : bytes :=
  range_bytes (o_range o) ++ le_bytes 8 (o_target o).
Definition relation_bytes (r : Relation) : bytes :=
  le_bytes 4 (kind_value (r_kind r)) ++ le_bytes 4 0 ++ range_bytes (r_range r) ++
  le_bytes 8 (r_target_symbol r).

Definition hash_input (ord : Order) (index : FileIndex) : bytes :=
  concat (occurrence_bytes <$> f_occurrences index) ++
  concat ((λ e : Z * list Relation, le_bytes 8 e.1 ++ concat (relation_bytes <$> e.2))
            <$> entries ord (f_relations index)).

Definition hash (sha256 : bytes → bytes) (ord : Order) (index : FileIndex) : bytes :=
  sha256 (hash_input ord index).

(** ** Facts on the searches *)

Section lower_bound.
Context {A : Type} (before : A → bool) (l : list A).

(** The elements [before] holds of come first. *)
Definition partitioned : Prop :=
  ∀ i j x y, (i ≤ j)%nat → l !! i = Some x → l !! j = Some y → before y → before x.

Lemma lower_bound_from_spec fuel first len :
  partitioned → (len ≤ fuel)%nat → (first + len ≤ length l)%nat →
  (∀ i x, (i < first)%nat → l !! i = Some x → before x) →
  (∀ i x, (first + len ≤ i)%nat → l !! i = Some x → ¬ before x) →
  let k := lower_bound_from fuel before l first len in
  (k ≤ length l)%nat ∧ (∀ i x, (i < k)%nat → l !! i = Some x → before x) ∧
  (∀ i x, (k ≤ i)%nat → l !! i = Some x → ¬ before x).
Proof.
  intros Hpart. revert first len.
  induction fuel as [|fuel IH]; intros first len Hfuel Hlen Hlo Hhi; simpl.
  { replace len with 0%nat in * by lia. rewrite Nat.add_0_r in *. done. }
  case_decide as Hz; [subst; rewrite Nat.add_0_r in *; done|].
  pose proof (Nat.div2_decr len (len - 1) ltac:(lia)) as Hd.
  assert (Nat.div2 len < len)%nat as Hhalf by (apply Nat.lt_div2; lia).
  set (half := Nat.div2 len) in *.
  destruct (lookup_lt_is_Some_2 l (first + half) ltac:(lia)) as [a Ha]. rewrite Ha.
  destruct (before a) eqn:Eb; apply IH; try lia; try done.
  - intros i x Hi Hx. apply (Hpart i (first + half)%nat x a); [lia|done|done|by rewrite Eb].
  - intros i x Hi Hx. apply (Hhi i); [lia|done].
  - intros i x Hi Hx Hb. assert (before a) as Ha'; [|by rewrite Eb in Ha'].
    by apply (Hpart (first + half)%nat i a x).
Qed.

Lemma lower_bound_spec :
  partitioned →
  (lower_bound before l ≤ length l)%nat ∧
  (∀ x, x ∈ take (lower_bound before l) l → before x) ∧
  (∀ x, x ∈ drop (lower_bound before l) l → ¬ before x).
Proof.
  intros Hpart.
  destruct (lower_bound_from_spec (length l) 0 (length l) Hpart) as (Hk & Hlo & Hhi);
    [lia|lia|lia| |].
  { intros i x Hi Hx. apply lookup_lt_Some in Hx. lia. }
  unfold lower_bound in *. split_and!; [done| |].
  - intros x [i Hi]%list_elem_of_lookup.
    apply lookup_take_Some in Hi as [Hi ?]. by eapply Hlo.
  - intros x [i Hi]%list_elem_of_lookup. rewrite lookup_drop in Hi.
    eapply Hhi; [|done]. lia.
Qed.
End lower_bound.

Lemma file_scan_visit {S} offset (callback : Visitor Occurrence S) it s :
  file_scan offset callback it s =
  visit callback (prefix_while (λ o, contains (o_range o) offset) it) s.
Proof.
  revert s. induction it as [|o it IH]; intros s; simpl; [done|].
  case_match; simpl; [|done]. destruct (callback o s) as [s' []]; [apply IH|done].
Qed.

Lemma scan_kind_visit {S} kind (callback : Visitor Relation S) l s :
  scan_kind kind callback l s = visit callback (filter (λ r, r_kind r = kind) l) s.
Proof.
  revert s. induction l as [|r l IH]; intros s; [done|]. cbn [scan_kind].
  rewrite kind_and_spec, filter_cons. case_bool_decide; [rewrite decide_True by done|];
    [|rewrite decide_False by done; apply IH].
  cbn [visit]. destruct (callback r s) as [s' []]; [apply IH|done].
Qed.

Lemma filter_none {A} (P : A → Prop) `{∀ x, Decision (P x)} (l : list A) :
  (∀ x, x ∈ l → ¬ P x) → filter P l = [].
Proof.
  induction l as [|a l IH]; intros Hl; [done|].
  rewrite filter_cons_False by (apply Hl; set_solver). apply IH. set_solver.
Qed.

Lemma prefix_while_filter {A} (p : A → bool) (l : list A) :
  (∀ i j x y, (i ≤ j)%nat → l !! i = Some x → l !! j = Some y → p y → p x) →
  prefix_while p l = filter (λ x, p x) l.
Proof.
  induction l as [|a l IH]; intros Hp; [done|]. rewrite filter_cons. cbn [prefix_while].
  destruct (p a) eqn:Ea; simpl.
  - f_equal. apply IH. intros i j x y Hij Hx Hy. by apply (Hp (S i) (S j)); [lia|..].
  - symmetry. apply filter_none. intros x [i Hi]%list_elem_of_lookup Hx.
    assert (p a) as Hc; [|by rewrite Ea in Hc]. by apply (Hp 0%nat (S i) a x); [lia|..].
Qed.

(** Tables whose ranges do not nest: later ones begin and end no earlier.  The
    ranges of tokens have this shape, and so have the tables built from them. *)
Definition ranges_in_order (l : list Occurrence) : Prop :=
  ∀ i j x y, (i ≤ j)%nat → l !! i = Some x → l !! j = Some y →
    range_begin (o_range x) ≤ range_begin (o_range y) ∧
    range_end (o_range x) ≤ range_end (o_range y).

Definition around (offset : Z) (l : list Occurrence) : list Occurrence :=
  filter (λ o, contains (o_range o) offset) l.

Definition token_ranges (l : list Occurrence) : Prop :=
  ∀ x y, x ∈ l → y ∈ l →
    range_begin (o_range x) ≤ range_end (o_range x) ∧
    (o_range x = o_range y ∨ range_end (o_range x) ≤ range_begin (o_range y) ∨
     range_end (o_range y) ≤ range_begin (o_range x)).

Lemma StronglySorted_lookup {A} (R : relation A) l i j x y :
  StronglySorted R l → (i < j)%nat → l !! i = Some x → l !! j = Some y → R x y.
Proof.
  intros Hs. revert i j. induction Hs as [|a l Hs IH Ha]; intros i j Hij Hi Hj; [done|].
  destruct i as [|i], j as [|j]; try lia; simpl in *; simplify_eq.
  - rewrite Forall_forall in Ha. apply Ha. by eapply list_elem_of_lookup_2.
  - apply (IH i j); [lia|done|done].
Qed.

Lemma occurrence_le_begin x y :
  key_le occurrence_key x y →
  range_begin (o_range x) < range_begin (o_range y) ∨
  (range_begin (o_range x) = range_begin (o_range y) ∧
   range_end (o_range x) ≤ range_end (o_range y)).
Proof.
  unfold key_le, occurrence_key; simpl. intros H.
  apply Is_true_true, orb_true_iff in H as [H|H]; [lia|].
  apply andb_true_iff in H as [H1 H2]. apply orb_true_iff in H2 as [H2|H2]; [lia|].
  apply andb_true_iff in H2 as [H2 _]. lia.
Qed.

(** A sorted table of token ranges is in order. *)
Lemma tokens_in_order l :
  StronglySorted (key_le occurrence_key) l → token_ranges l → ranges_in_order l.
Proof.
  intros Hs Htok i j x y Hij Hx Hy.
  assert (i = j ∨ i < j)%nat as [->|Hlt] by lia; [simplify_eq; lia|].
  pose proof (StronglySorted_lookup _ _ _ _ _ _ Hs Hlt Hx Hy) as Hle.
  apply list_elem_of_lookup_2 in Hx, Hy.
  apply occurrence_le_begin in Hle.
  destruct (Htok x y Hx Hy) as [? [E|?]]; destruct (Htok y x Hy Hx) as [? _]; [rewrite E|]; lia.
Qed.

(** The search and the scan together report the ranges around the offset. *)
Lemma search_around l offset :
  ranges_in_order l →
  prefix_while (λ o, contains (o_range o) offset)
    (drop (lower_bound (ends_before offset) l) l) = around offset l.
Proof.
  intros Hord. set (p := λ o, contains (o_range o) offset).
  destruct (lower_bound_spec (ends_before offset) l) as (Hk & Hlo & Hhi).
  { intros i j x y Hij Hx Hy. destruct (Hord i j x y Hij Hx Hy). unfold ends_before.
    rewrite !Is_true_true. lia. }
  set (k := lower_bound _ l) in *. unfold around.
  rewrite <- (take_drop k l) at 2. rewrite filter_app, (filter_none _ (take k l)).
  - rewrite app_nil_l. apply prefix_while_filter. intros i j x y Hij Hx Hy.
    pose proof (Hhi x ltac:(by eapply list_elem_of_lookup_2)) as Hex.
    rewrite lookup_drop in Hx, Hy.
    destruct (Hord (k + i)%nat (k + j)%nat x y ltac:(lia) Hx Hy).
    unfold p, contains, ends_before in *. rewrite ?Is_true_true in *. lia.
  - intros x Hx Hc. apply Hlo in Hx.
    unfold contains, ends_before in *. rewrite ?Is_true_true in *. lia.
Qed.
