(* ===== verification/MergedIndex.v ===== *)
(** * The merged index of one file (src/index/merged_index.{h,cpp})

    A shard collects the indices a file was given by the translation units that
    compile or include it.  Equal indices share a _canonical id_; occurrences and
    relations carry the set of ids they belong to, contexts refer to ids, and an
    id without references is listed in [removed].  A shard is either in memory
    ([impl]) or a FlatBuffers image ([buffer]) that is queried in place and
    loaded before it is changed.

    SHA-256, the bitmap format of the roaring library, the FlatBuffers encoding
    and [kota::ipc::lsp::build_line_starts] are not part of the repository; they
    enter through the classes [Roaring], [FlatBuffer] and [IndexLibs]. *)
From S2P Require Import IndexData.
Local Open Scope Z_scope.
Local Open Scope cpp_scope.

(** ** Libraries *)

(** [Bitmap::write(data, false)] into a buffer of the right size, and
    [Bitmap::read(data, false)]. *)
Class Roaring := {
  bitmap_write : Bitmap → bytes;
  read_bitmap : bytes → Bitmap;
}.

(** Bitmaps hold 32-bit numbers; the format round-trips, and has a header. *)
Class RoaringLaws `{Roaring} : Prop := {
  read_bitmap_write : ∀ b : Bitmap,
    (∀ x, x ∈ b → 0 ≤ x < two32) → read_bitmap (bitmap_write b) = b;
  bitmap_write_nonempty : ∀ b : Bitmap, bitmap_write b ≠ [];
}.

(** [builder.Finish(table)] and [GetRoot<T>(data)]; [None] stands for data that is
    not the image of a table of this type, which the code never checks. *)
Class FlatBuffer (T : Type) := {
  finish : T → bytes;
  get_root : bytes → option T;
}.

Class FlatBufferLaws (T : Type) `{FlatBuffer T} : Prop :=
  get_root_finish : ∀ t, get_root (finish t) = Some t.

Class IndexLibs := {
  sha256 : bytes → bytes;
  build_line_starts : bytes → list Z;
}.

(** ** Data *)

Record IncludeLocation := mkIncludeLocation {
  location_path_id : Z; location_line : Z; location_include : Z }.

Record IncludeContext := mkIncludeContext { include_id : Z; include_canonical_id : Z }.

Record HeaderContext := mkHeaderContext {
  header_version : Z; includes : list IncludeContext }.

Record CompilationContext := mkCompilationContext {
  compilation_version : Z; canonical_id : Z; build_at : Z;
  include_locations : list IncludeLocation }.

Record Impl := mkImpl {
  content : bytes;
  line_starts : list Z;
  header_contexts : gmap Z HeaderContext;
  compilation_contexts : gmap Z CompilationContext;
  canonical_cache : gmap bytes Z;
  max_canonical_id : Z;
  canonical_ref_counts : list Z;
  removed : Bitmap;
  occurrences : gmap Occurrence Bitmap;
  relations : gmap Z (gmap Relation Bitmap);
  symbols : SymbolTable;
  occurrences_cache : list Occurrence;
}.

Global Instance IncludeLocation_eq_dec : EqDecision IncludeLocation.
Proof. solve_decision. Defined.
Global Instance IncludeContext_eq_dec : EqDecision IncludeContext.
Proof. solve_decision. Defined.
Global Instance HeaderContext_eq_dec : EqDecision HeaderContext.
Proof. solve_decision. Defined.
Global Instance CompilationContext_eq_dec : EqDecision CompilationContext.
Proof. solve_decision. Defined.
Global Instance Impl_eq_dec : EqDecision Impl.
Proof. solve_decision. Defined.

Definition empty_impl : Impl := mkImpl [] [] ∅ ∅ ∅ 0 [] ∅ ∅ ∅ ∅ [].

Record MergedIndex := mkMergedIndex { buffer : option bytes; impl : option Impl }.

(** [MergedIndex()] and [MergedIndex(data)] *)
Definition empty_index : MergedIndex := mkMergedIndex None None.
Definition from_data (data : bytes) : MergedIndex := mkMergedIndex (Some data) None.

(** [load(path)]; the argument is what reading the file gave. *)
Definition load (file : option bytes) : MergedIndex :=
  match file with None => empty_index | Some data => from_data data end.

Definition need_rewrite (self : MergedIndex) : bool := bool_decide (is_Some (impl self)).

(** The tables of schema.fbs that the code writes and reads.  Structs are copied
    as they are; a field the code compares with null is an [option]. *)
Record CacheEntry := mkCacheEntry { ce_sha256 : bytes; ce_canonical_id : Z }.
Record HeaderContextEntry := mkHeaderContextEntry {
  he_path_id : Z; he_version : Z; he_includes : list IncludeContext }.
Record CompilationContextEntry := mkCompilationContextEntry {
  co_path_id : Z; co_version : Z; co_canonical_id : Z; co_build_at : Z;
  co_include_locations : list IncludeLocation }.
Record OccurrenceEntry := mkOccurrenceEntry { oe_occurrence : Occurrence; oe_context : bytes }.
Record RelationEntry := mkRelationEntry { re_relation : Relation; re_context : bytes }.
Record SymbolRelationsEntry := mkSymbolRelationsEntry {
  sr_symbol : Z; sr_relations : list RelationEntry }.
Record FbSymbol := mkFbSymbol {
  fs_name : option bytes; fs_kind : Z; fs_refs : bytes; fs_scope : Z }.
Record SymbolEntry := mkSymbolEntry { se_symbol_id : Z; se_symbol : option FbSymbol }.
Record FbMergedIndex := mkFbMergedIndex {
  fb_max_canonical_id : Z;
  fb_canonical_cache : list CacheEntry;
  fb_header_contexts : list HeaderContextEntry;
  fb_compilation_contexts : list CompilationContextEntry;
  fb_occurrences : list OccurrenceEntry;
  fb_relations : list SymbolRelationsEntry;
  fb_removed : option bytes;
  fb_content : option bytes;
  fb_line_starts : option (list Z);
  fb_symbols : option (list SymbolEntry);
}.

(** ** Operations in memory *)

(** [canonical_ref_counts[id]], out of range in no assertion: undefined. *)
Definition ref_count {E} (counts : list Z) (id : Z) : Res E Z :=
  if decide (0 ≤ id) then read (counts !! Z.to_nat id) else Fault.

(** [canonical_ref_counts[id] += 1] *)
Definition increment {E} (counts : list Z) (id : Z) : Res E (list Z) :=
  let? n := ref_count counts id in
  Ok (<[Z.to_nat id := u32 (n + 1)]> counts).

Definition add_to `{Countable K} (m : gmap K Bitmap) (k : K) (id : Z) : gmap K Bitmap :=
  <[k := {[id]} ∪ get_or ∅ m k]> m.

Definition add_occurrences (m : gmap Occurrence Bitmap) (id : Z) (l : list Occurrence) :=
  foldl (λ m o, add_to m o id) m l.

Definition add_relations (m : gmap Z (gmap Relation Bitmap)) (id : Z)
    (l : list (Z * list Relation)) : gmap Z (gmap Relation Bitmap) :=
  foldl (λ m e, <[e.1 := foldl (λ target r, add_to target r id) (get_or ∅ m e.1) e.2]> m) m l.

(** [compilation_contexts[path_id]] with the fields of the new build. *)
Definition add_compilation (path_id build_at : Z) (locations : list IncludeLocation)
    (id : Z) (m : gmap Z CompilationContext) : gmap Z CompilationContext :=
  let version := default 0 (compilation_version <$> m !! path_id) in
  <[path_id := mkCompilationContext version id (u64 build_at) locations]> m.

(** [header_contexts[path_id].includes.emplace_back(include_id, canonical_id)] *)
Definition add_header (path_id include_id id : Z) (m : gmap Z HeaderContext) :
    gmap Z HeaderContext :=
  let context := get_or (mkHeaderContext 0 []) m path_id in
  <[path_id := mkHeaderContext (header_version context)
                 (includes context ++ [mkIncludeContext include_id id])]> m.

(** What [add_context] does with the id. *)
Inductive NewContext :=
| NewCompilation (path_id build_at : Z) (locations : list IncludeLocation)
| NewHeader (path_id include_id : Z).

Definition add_context (c : NewContext) (id : Z) (self : Impl) : Impl :=
  let (text, lines, hs, cs, cache, max, counts, gone, occs, rels, syms, sorted) := self in
  match c with
  | NewCompilation p b l =>
    mkImpl text lines hs (add_compilation p b l id cs) cache max counts gone occs rels syms sorted
  | NewHeader p i =>
    mkImpl text lines (add_header p i id hs) cs cache max counts gone occs rels syms sorted
  end.

(** [Impl::merge] *)
Definition impl_merge {E} `{IndexLibs} (ord : Order) (index : FileIndex) (c : NewContext)
    (self : Impl) : Res E Impl :=
  let hash_key := hash sha256 ord index in
  match canonical_cache self !! hash_key with
  | Some id =>
    let (text, lines, hs, cs, cache, max, counts, gone, occs, rels, syms, sorted) :=
      add_context c id self in
    let? counts := increment counts id in
    Ok (mkImpl text lines hs cs cache max counts (gone ∖ {[id]}) occs rels syms sorted)
  | None =>
    let id := max_canonical_id self in
    let (text, lines, hs, cs, cache, max, counts, gone, occs, rels, syms, sorted) :=
      add_context c id self in
    Ok (mkImpl text lines hs cs (<[hash_key := id]> cache) (u32 (max + 1)) (counts ++ [1]) gone
          (add_occurrences occs id (f_occurrences index))
          (add_relations rels id (entries ord (f_relations index))) syms sorted)
  end.

Definition set_text `{IndexLibs} (text : bytes) (self : Impl) : Impl :=
  let (_, _, hs, cs, cache, max, counts, gone, occs, rels, syms, sorted) := self in
  mkImpl text (build_line_starts text) hs cs cache max counts gone occs rels syms sorted.

Definition set_cache (sorted : list Occurrence) (self : Impl) : Impl :=
  let (text, lines, hs, cs, cache, max, counts, gone, occs, rels, syms, _) := self in
  mkImpl text lines hs cs cache max counts gone occs rels syms sorted.

(** One reference dropped: [ref_counts -= 1], and the id is removed at zero. *)
Definition drop_ref {E} (id : Z) (st : list Z * Bitmap) : Res E (list Z * Bitmap) :=
  let '(counts, gone) := st in
  let? n := ref_count counts id in
  let n := u32 (n - 1) in
  Ok (<[Z.to_nat id := n]> counts, if n =? 0 then {[id]} ∪ gone else gone).

(** The ids a context refers to. *)
Definition header_ids (c : HeaderContext) : list Z := include_canonical_id <$> includes c.

Definition impl_remove {E} (path_id : Z) (self : Impl) : Res E Impl :=
  let (text, lines, hs, cs, cache, max, counts, gone, occs, rels, syms, _) := self in
  let? st := match hs !! path_id with
             | Some c => for_each (header_ids c) drop_ref (counts, gone)
             | None => Ok (counts, gone)
             end in
  let? st := match cs !! path_id with
             | Some c => drop_ref (canonical_id c) st
             | None => Ok st
             end in
  Ok (mkImpl text lines (delete path_id hs) (delete path_id cs) cache max st.1 st.2
        occs rels syms []).

(** [merge_symbols]: the first name of a symbol stays. *)
Definition impl_merge_symbols (ord : Order) (table : SymbolTable) (self : Impl) : Impl :=
  let (text, lines, hs, cs, cache, max, counts, gone, occs, rels, syms, sorted) := self in
  let syms := foldl (λ m e, try_emplace m e.1
                       (mkSymbol (name e.2) (symbol_kind e.2) (scope e.2) ∅))
                syms (entries ord table) in
  mkImpl text lines hs cs cache max counts gone occs rels syms sorted.

(** The sorted table, built by the first lookup after a change. *)
Definition sorted_occurrences (ord : Order) (self : Impl) : list Occurrence :=
  sort_by occurrence_key (entries ord (occurrences self)).*1.

Definition fill_cache (ord : Order) (self : Impl) : Impl :=
  if decide (occurrences_cache self = []) then set_cache (sorted_occurrences ord self) self
  else self.

(** Every id of the bitmap is removed. *)
Definition all_removed (self : Impl) (bitmap : Bitmap) : bool :=
  negb (bool_decide (removed self = ∅)) && bool_decide (bitmap ∖ removed self = ∅).

Definition hidden (self : Impl) (o : Occurrence) : bool :=
  match occurrences self !! o with Some bitmap => all_removed self bitmap | None => false end.

Fixpoint impl_scan {S} (self : Impl) (offset : Z) (callback : Visitor Occurrence S)
    (it : list Occurrence) (s : S) : S :=
  match it with
  | [] => s
  | o :: it =>
    if contains (o_range o) offset then
      if hidden self o then impl_scan self offset callback it s else
      let '(s, go_on) := callback o s in
      if go_on then impl_scan self offset callback it s else s
    else s
  end.

Fixpoint impl_scan_relations {S} (self : Impl) (kind : RelationKind)
    (callback : Visitor Relation S) (l : list (Relation * Bitmap)) (s : S) : S :=
  match l with
  | [] => s
  | (r, bitmap) :: l =>
    if kind_and (r_kind r) kind then
      if all_removed self bitmap then impl_scan_relations self kind callback l s else
      let '(s, go_on) := callback r s in
      if go_on then impl_scan_relations self kind callback l s else s
    else impl_scan_relations self kind callback l s
  end.

(** ** Images *)

Section images.
Context `{Roaring}.

Definition symbol_entry (e : Z * Symbol) : SymbolEntry :=
  mkSymbolEntry e.1 (Some (mkFbSymbol (Some (name e.2)) (symbol_kind e.2)
                             (bitmap_write (reference_files e.2)) (scope_value (scope e.2)))).

Definition occurrence_entry (e : Occurrence * Bitmap) : OccurrenceEntry :=
  mkOccurrenceEntry e.1 (bitmap_write e.2).
Definition relation_entry (e : Relation * Bitmap) : RelationEntry :=
  mkRelationEntry e.1 (bitmap_write e.2).
Definition symbol_relations_entry (ord : Order) (e : Z * gmap Relation Bitmap) :=
  mkSymbolRelationsEntry e.1 (relation_entry <$> entries ord e.2).
Definition cache_entry (e : bytes * Z) : CacheEntry := mkCacheEntry e.1 e.2.
Definition header_entry (e : Z * HeaderContext) : HeaderContextEntry :=
  mkHeaderContextEntry e.1 (header_version e.2) (includes e.2).
Definition compilation_entry (e : Z * CompilationContext) : CompilationContextEntry :=
  mkCompilationContextEntry e.1 (compilation_version e.2) (canonical_id e.2) (build_at e.2)
    (include_locations e.2).

(** The table [serialize] builds. *)
Definition write_root (ord : Order) (self : Impl) : FbMergedIndex :=
  mkFbMergedIndex (max_canonical_id self)
    (cache_entry <$> entries ord (canonical_cache self))
    (header_entry <$> entries ord (header_contexts self))
    (compilation_entry <$> entries ord (compilation_contexts self))
    (sort_by (λ e, occurrence_key (oe_occurrence e))
       (occurrence_entry <$> entries ord (occurrences self)))
    (sort_by (λ e, [sr_symbol e])
       (symbol_relations_entry ord <$> entries ord (relations self)))
    (Some (if decide (removed self = ∅) then [] else bitmap_write (removed self)))
    (Some (content self)) (Some (line_starts self))
    (Some (symbol_entry <$> entries ord (symbols self))).

Definition serialize `{FlatBuffer FbMergedIndex} (ord : Order) (self : MergedIndex) : bytes :=
  match buffer self, impl self with
  | Some data, _ => data
  | None, Some index => finish (write_root ord index)
  | None, None => []
  end.

(** The parts of [load_in_memory], in its order. *)
Definition load_cache (l : list CacheEntry) : gmap bytes Z :=
  foldl (λ m e, try_emplace m (ce_sha256 e) (ce_canonical_id e)) ∅ l.

Definition load_headers {E} (l : list HeaderContextEntry) (counts : list Z) :
    Res E (list Z * gmap Z HeaderContext) :=
  for_each l (λ e st,
    let '(counts, m) := st in
    let? counts := for_each (he_includes e)
                     (λ i counts, increment counts (include_canonical_id i)) counts in
    Ok (counts, try_emplace m (he_path_id e) (mkHeaderContext (he_version e) (he_includes e))))
    (counts, ∅).

Definition load_compilations (l : list CompilationContextEntry) : gmap Z CompilationContext :=
  foldl (λ m e, try_emplace m (co_path_id e)
           (mkCompilationContext (co_version e) (co_canonical_id e) (co_build_at e)
              (co_include_locations e))) ∅ l.

Definition count_compilations {E} (l : list CompilationContextEntry) (counts : list Z) :
    Res E (list Z) :=
  for_each l (λ e counts, increment counts (co_canonical_id e)) counts.

Definition load_removed (o : option bytes) : Bitmap :=
  match o with
  | Some data => if decide (data = []) then ∅ else read_bitmap data
  | None => ∅
  end.

Definition load_occurrences (l : list OccurrenceEntry) : gmap Occurrence Bitmap :=
  foldl (λ m e, try_emplace m (oe_occurrence e) (read_bitmap (oe_context e))) ∅ l.

Definition load_symbol_relations (m : gmap Relation Bitmap) (l : list RelationEntry) :=
  foldl (λ m e, try_emplace m (re_relation e) (read_bitmap (re_context e))) m l.

Definition load_relations (l : list SymbolRelationsEntry) : gmap Z (gmap Relation Bitmap) :=
  foldl (λ m e, <[sr_symbol e :=
                    load_symbol_relations (get_or ∅ m (sr_symbol e)) (sr_relations e)]> m) ∅ l.

Definition load_lines `{IndexLibs} (o : option (list Z)) (text : bytes) : list Z :=
  let lines := default [] o in
  if decide (lines = []) then
    if decide (text = []) then [] else build_line_starts text
  else lines.

Definition load_symbol (symbol : Symbol) (o : option FbSymbol) : Symbol :=
  match o with
  | None => symbol
  | Some s => mkSymbol (default (name symbol) (fs_name s)) (fs_kind s)
                (scope_cast (fs_scope s)) (read_bitmap (fs_refs s))
  end.

Definition load_symbols (o : option (list SymbolEntry)) : SymbolTable :=
  foldl (λ m e, <[se_symbol_id e :=
                    load_symbol (get_or new_symbol m (se_symbol_id e)) (se_symbol e)]> m)
    ∅ (default [] o).

Definition load_root {E} `{IndexLibs} (root : FbMergedIndex) : Res E Impl :=
  let max := fb_max_canonical_id root in
  let? st := load_headers (fb_header_contexts root) (replicate (Z.to_nat max) 0) in
  let (counts, headers) := st : list Z * _ in
  let compilations := load_compilations (fb_compilation_contexts root) in
  let? counts := count_compilations (fb_compilation_contexts root) counts in
  let text := default [] (fb_content root) in
  Ok (mkImpl text (load_lines (fb_line_starts root) text) headers compilations
        (load_cache (fb_canonical_cache root)) max counts (load_removed (fb_removed root))
        (load_occurrences (fb_occurrences root)) (load_relations (fb_relations root))
        (load_symbols (fb_symbols root)) []).
End images.

(** ** The operations of a shard *)

Section shard.
Context {E : Type} `{Roaring} `{IndexLibs} `{FlatBuffer FbMergedIndex}.
Implicit Types self : MergedIndex.

Definition load_in_memory self : Res E MergedIndex :=
  match impl self with
  | Some _ => Ok self
  | None =>
    match buffer self with
    | None => Ok (mkMergedIndex None (Some empty_impl))
    | Some data =>
      let? root := read (get_root data) in
      let? index := load_root root in
      Ok (mkMergedIndex None (Some index))
    end
  end.

(** The body of an operation that changes the shard. *)
Definition modify (f : Impl → Res E Impl) self : Res E MergedIndex :=
  let? self := load_in_memory self in
  let? index := read (impl self) in
  let? index := f index in
  Ok (mkMergedIndex (buffer self) (Some index)).

Definition merge_compilation (ord : Order) (path_id build_at : Z)
    (locations : list IncludeLocation) (index : FileIndex) (text : bytes) :
    MergedIndex → Res E MergedIndex :=
  modify (λ this,
    let? this := impl_merge ord index (NewCompilation path_id build_at locations)
                   (set_text text this) in
    Ok (set_cache [] this)).

Definition merge_header (ord : Order) (path_id include_id : Z) (index : FileIndex)
    (text : bytes) : MergedIndex → Res E MergedIndex :=
  modify (λ this,
    let this := if decide (content this = [] ∧ text ≠ []) then set_text text this else this in
    let? this := impl_merge ord index (NewHeader path_id include_id) this in
    Ok (set_cache [] this)).

Definition remove (path_id : Z) : MergedIndex → Res E MergedIndex :=
  modify (impl_remove path_id).

Definition merge_symbols (ord : Order) (table : SymbolTable) : MergedIndex → Res E MergedIndex :=
  modify (λ this, Ok (impl_merge_symbols ord table this)).

(** [lookup(offset, callback)]; in memory it also fills the sorted table. *)
Definition lookup_offset {S} (ord : Order) self (offset : Z)
    (callback : Visitor Occurrence S) (s : S) : Res E (MergedIndex * S) :=
  match impl self with
  | Some index =>
    let index := fill_cache ord index in
    let l := occurrences_cache index in
    Ok (mkMergedIndex (buffer self) (Some index),
        impl_scan index offset callback (drop (lower_bound (ends_before offset) l) l) s)
  | None =>
    match buffer self with
    | Some data =>
      let? root := read (get_root data) in
      let l := oe_occurrence <$> fb_occurrences root in
      Ok (self, file_scan offset callback (drop (lower_bound (ends_before offset) l) l) s)
    | None => Ok (self, s)
    end
  end.

(** [lookup(symbol, kind, callback)] *)
Definition lookup_symbol {S} (ord : Order) self (symbol : Z) (kind : RelationKind)
    (callback : Visitor Relation S) (s : S) : Res E S :=
  match impl self with
  | Some index =>
    match relations index !! symbol with
    | None => Ok s
    | Some m => Ok (impl_scan_relations index kind callback (entries ord m) s)
    end
  | None =>
    match buffer self with
    | Some data =>
      let? root := read (get_root data) in
      let l := fb_relations root in
      match l !! lower_bound (λ e, sr_symbol e <? symbol) l with
      | None => Ok s
      | Some e =>
        if sr_symbol e =? symbol then
          Ok (scan_kind kind callback (re_relation <$> sr_relations e) s)
        else Ok s
      end
    | None => Ok s
    end
  end.

(** The include locations and the build time that [need_update] looks at: those
    of the first compilation context. *)
Definition first_compilation (ord : Order) self :
    Res E (option (list IncludeLocation * Z)) :=
  match impl self with
  | Some index =>
    Ok match entries ord (compilation_contexts index) with
       | [] => None
       | (_, c) :: _ => Some (include_locations c, build_at c)
       end
  | None =>
    match buffer self with
    | Some data =>
      let? root := read (get_root data) in
      Ok match fb_compilation_contexts root with
         | [] => None
         | c :: _ => Some (co_include_locations c, co_build_at c)
         end
    | None => Ok None
    end
  end.

(** [fs::status]: the time of the last change in milliseconds, or an error.  The
    comparison with [build_at] is between unsigned numbers. *)
Fixpoint stale_dependency (modified : bytes → option Z) (path_mapping : list bytes)
    (build_at : Z) (deps : gset Z) (l : list IncludeLocation) : Res E bool :=
  match l with
  | [] => Ok false
  | location :: l =>
    let id := location_path_id location in
    if decide (id ∈ deps) then stale_dependency modified path_mapping build_at deps l else
    let? path := if decide (0 ≤ id) then read (path_mapping !! Z.to_nat id) else Fault in
    match modified path with
    | None => Ok true
    | Some time =>
      if build_at <? u64 time then Ok true
      else stale_dependency modified path_mapping build_at ({[id]} ∪ deps) l
    end
  end.

Definition need_update (ord : Order) (modified : bytes → option Z) (path_mapping : list bytes)
    self : Res E bool :=
  let? first := first_compilation ord self in
  match first with
  | None => Ok true
  | Some (locations, build_at) =>
    stale_dependency modified path_mapping build_at ∅ locations
  end.

(** [find_symbol]: the out-parameters keep their values where nothing is
    assigned. *)
Definition find_symbol self (hash : Z) (out : bytes * Z) : Res E (option (bytes * Z)) :=
  match impl self with
  | Some index => Ok ((λ s, (name s, symbol_kind s)) <$> symbols index !! hash)
  | None =>
    match buffer self with
    | Some data =>
      let? root := read (get_root data) in
      Ok match list_find (λ e, se_symbol_id e = hash) (default [] (fb_symbols root)) with
         | None => None
         | Some (_, e) =>
           Some match se_symbol e with
                | None => out
                | Some s => (default out.1 (fs_name s), fs_kind s)
                end
         end
    | None => Ok None
    end
  end.

Definition get_content self : Res E bytes :=
  match impl self with
  | Some index => Ok (content index)
  | None =>
    match buffer self with
    | Some data => let? root := read (get_root data) in Ok (default [] (fb_content root))
    | None => Ok []
    end
  end.

Definition get_line_starts self : Res E (list Z) :=
  match impl self with
  | Some index => Ok (line_starts index)
  | None =>
    match buffer self with
    | Some data => let? root := read (get_root data) in Ok (default [] (fb_line_starts root))
    | None => Ok []
    end
  end.

(** [operator==] compares the loaded indices field by field, the sorted table
    included. *)
Definition same_index (l r : MergedIndex) : Res E bool :=
  let? l := load_in_memory l in
  let? r := load_in_memory r in
  let? l := read (impl l) in
  let? r := read (impl r) in
  Ok (bool_decide (l = r)).
End shard.
