(* ===== verification/MergedInvariant.v ===== *)
(** * Invariant of a shard

    The invariant relates the tables of [Impl] to the list [G] of the file indices
    that were given a canonical id, the id being the position in [G], and the
    reference counts to the references the contexts hold.  Every operation
    preserves it and none has undefined behaviour. *)
From S2P Require Import IndexData MergedIndex.
Local Open Scope Z_scope.
Local Open Scope cpp_scope.

(** ** Contents *)

(** Two indices with the same entries. *)
Definition equal_content (f g : FileIndex) : Prop :=
  (∀ o, o ∈ f_occurrences f ↔ o ∈ f_occurrences g) ∧
  (∀ s r, r ∈ get_or [] (f_relations f) s ↔ r ∈ get_or [] (f_relations g) s).

Global Instance equal_content_equiv : Equivalence equal_content.
Proof.
  split.
  - intros f. by split.
  - intros f g [Ho Hr]. split; intros; [by rewrite Ho|by rewrite Hr].
  - intros f g h [Ho Hr] [Ho' Hr']. split; intros; [by rewrite Ho|by rewrite Hr].
Qed.

(** The index with a canonical id. *)
Definition canonical (G : list FileIndex) (id : Z) : option FileIndex :=
  if decide (0 ≤ id) then G !! Z.to_nat id else None.

Lemma canonical_range G id f : canonical G id = Some f → 0 ≤ id < Z.of_nat (length G).
Proof.
  unfold canonical. case_decide; [|done]. intros ?%lookup_lt_Some. lia.
Qed.

Lemma canonical_snoc G f id :
  canonical (G ++ [f]) id =
  if decide (id = Z.of_nat (length G)) then Some f else canonical G id.
Proof.
  unfold canonical. case_decide as Hid; case_decide as E; try done; [| |lia].
  - subst. rewrite lookup_app_r, Nat2Z.id by lia. by rewrite Nat.sub_diag.
  - destruct (decide (Z.to_nat id < length G)%nat).
    + by rewrite lookup_app_l.
    + rewrite !lookup_ge_None_2; [done|lia|rewrite length_app; simpl; lia].
Qed.

(** ** References *)

Definition header_refs (id : Z) (c : HeaderContext) : nat := occ id (header_ids c).
Definition compilation_refs (id : Z) (c : CompilationContext) : nat :=
  if decide (canonical_id c = id) then 1%nat else 0%nat.

(** The references to an id the contexts of a shard hold. *)
Definition refs (self : Impl) (id : Z) : nat :=
  (msum (header_refs id) (header_contexts self) +
   msum (compilation_refs id) (compilation_contexts self))%nat.

Definition one_at (id x : Z) : nat := if decide (x = id) then 1%nat else 0%nat.

(** Counts against references [R]: no id in use is removed or undercounted; [n]
    bounds the merges so far. *)
Record counts_ok (n : nat) (R : Z → nat) (counts : list Z) (gone : Bitmap) : Prop := {
  ok_known : ∀ id, (0 < R id)%nat → 0 ≤ id < Z.of_nat (length counts);
  ok_count : ∀ i c, counts !! i = Some c → Z.of_nat (R (Z.of_nat i)) ≤ c ≤ Z.of_nat n;
  ok_removed : ∀ id, id ∈ gone → 0 ≤ id < Z.of_nat (length counts) ∧ R id = 0%nat;
}.

(** The exact form: counts are the references, and exactly the ids without any
    are removed. *)
Definition tight (R : Z → nat) (counts : list Z) (gone : Bitmap) : Prop :=
  ∀ i c, counts !! i = Some c →
    c = Z.of_nat (R (Z.of_nat i)) ∧ (c = 0 ↔ Z.of_nat i ∈ gone).

Lemma counts_ok_le n n' R counts gone :
  (n ≤ n')%nat → counts_ok n R counts gone → counts_ok n' R counts gone.
Proof. intros ? [? Hc ?]. split; try done. intros i c Hi. specialize (Hc i c Hi). lia. Qed.

Lemma ref_count_ok {E} counts id :
  0 ≤ id < Z.of_nat (length counts) →
  ∃ c, counts !! Z.to_nat id = Some c ∧ ref_count (E := E) counts id = Ok c.
Proof.
  intros Hid. destruct (lookup_lt_is_Some_2 counts (Z.to_nat id)) as [c Hc]; [lia|].
  exists c. split; [done|]. unfold ref_count. rewrite decide_True by lia. by rewrite Hc.
Qed.

(** A list of counts with one of them changed. *)
Lemma lookup_update (counts : list Z) id v i c :
  0 ≤ id < Z.of_nat (length counts) →
  <[Z.to_nat id := v]> counts !! i = Some c →
  (Z.of_nat i = id ∧ c = v) ∨ (Z.of_nat i ≠ id ∧ counts !! i = Some c).
Proof.
  intros Hid Hi. apply list_lookup_insert_Some in Hi as [(? & ? & _)|[? ?]]; [left|right];
    (split; [lia|done]).
Qed.

Section counting.
Context {E : Type} (n : nat) (R R' : Z → nat) (counts : list Z) (gone : Bitmap).
Hypothesis Hok : counts_ok n R counts gone.

Lemma increment_ok id :
  0 ≤ id < Z.of_nat (length counts) → Z.of_nat n + 1 < two32 →
  (∀ x, (R' x ≤ R x + one_at id x)%nat) →
  ∃ counts', increment (E := E) counts id = Ok counts' ∧ length counts' = length counts ∧
    counts_ok (S n) R' counts' (gone ∖ {[id]}) ∧
    (tight R counts gone → (∀ x, R' x = R x + one_at id x)%nat →
     tight R' counts' (gone ∖ {[id]})).
Proof using Hok.
  intros Hid Hn HR. destruct Hok as [Hk Hc Hr].
  destruct (ref_count_ok (E := E) counts id Hid) as (c & Hcid & Hrc).
  pose proof (Hc _ _ Hcid) as Hcb. rewrite Z2Nat.id in Hcb by lia.
  unfold increment. rewrite Hrc. simpl. eexists. split; [done|].
  rewrite u32_small by lia. rewrite length_insert. split; [done|]. unfold one_at in *.
  split; [split; rewrite ?length_insert|].
  - intros x Hx. specialize (HR x). case_decide; [by subst|]. apply Hk. lia.
  - intros i c' Hi. specialize (HR (Z.of_nat i)).
    apply lookup_update in Hi as [[Ei ->]|[Ei Hi]]; [| |done].
    + rewrite Ei in *. rewrite decide_True in HR by done. lia.
    + rewrite decide_False in HR by done. specialize (Hc i c' Hi). lia.
  - intros x [Hx Hne]%elem_of_difference. destruct (Hr x Hx). split; [done|].
    specialize (HR x). rewrite decide_False in HR by set_solver. lia.
  - intros Ht HR' i c' Hi. specialize (HR' (Z.of_nat i)).
    apply lookup_update in Hi as [[Ei ->]|[Ei Hi]]; [| |done].
    + destruct (Ht _ _ Hcid) as [Ec _]. rewrite Z2Nat.id in Ec by lia. rewrite Ei in *.
      rewrite decide_True in HR' by done. split; [lia|]. split; [lia|set_solver].
    + destruct (Ht i c' Hi) as [Ec Eg]. rewrite decide_False in HR' by done.
      split; [lia|]. rewrite Eg. set_solver.
Qed.

Lemma snoc_ok :
  let id := Z.of_nat (length counts) in
  Z.of_nat n + 1 < two32 → (∀ x, (R' x ≤ R x + one_at id x)%nat) →
  counts_ok (S n) R' (counts ++ [1]) gone ∧
  (tight R counts gone → (∀ x, R' x = R x + one_at id x)%nat → tight R' (counts ++ [1]) gone).
Proof using Hok.
  intros id Hn HR. destruct Hok as [Hk Hc Hr]. unfold one_at in *.
  assert (R id = 0%nat) as Hid.
  { destruct (decide (R id = 0%nat)) as [|Hne]; [done|].
    specialize (Hk id ltac:(lia)). unfold id in Hk. lia. }
  assert (∀ i c, (counts ++ [1]) !! i = Some c →
    (Z.of_nat i = id ∧ c = 1) ∨ (Z.of_nat i ≠ id ∧ counts !! i = Some c)) as Hlk.
  { intros i c Hi. apply lookup_snoc_Some in Hi as [[? ?]|[-> <-]]; [right|left];
      (split; [unfold id; lia|done]). }
  split; [split; rewrite ?length_app; simpl|].
  - intros x Hx. specialize (HR x). case_decide; [unfold id in *; lia|].
    specialize (Hk x ltac:(lia)). lia.
  - intros i c Hi. specialize (HR (Z.of_nat i)). destruct (Hlk i c Hi) as [[Ei ->]|[Ei Hi']].
    + rewrite decide_True in HR by done. rewrite Ei in *. lia.
    + rewrite decide_False in HR by done. specialize (Hc i c Hi'). lia.
  - intros x Hx. destruct (Hr x Hx) as [Hlt H0]. split; [lia|]. specialize (HR x).
    rewrite decide_False in HR by (unfold id; lia). lia.
  - intros Ht HR' i c Hi. specialize (HR' (Z.of_nat i)).
    destruct (Hlk i c Hi) as [[Ei ->]|[Ei Hi']].
    + rewrite decide_True in HR' by done. rewrite Ei in *. split; [lia|].
      split; [lia|]. intros Hg%Hr. unfold id in Hg. lia.
    + destruct (Ht i c Hi') as [Ec Eg]. rewrite decide_False in HR' by done.
      split; [lia|done].
Qed.

Lemma drop_ref_ok id :
  Z.of_nat n < two32 → (0 < R id)%nat → (∀ x, R x = R' x + one_at id x)%nat →
  ∃ counts' gone', drop_ref (E := E) id (counts, gone) = Ok (counts', gone') ∧
    length counts' = length counts ∧ counts_ok n R' counts' gone' ∧
    (tight R counts gone → tight R' counts' gone').
Proof using Hok.
  intros Hn Hpos HR. destruct Hok as [Hk Hc Hr]. pose proof (Hk id Hpos) as Hid.
  destruct (ref_count_ok (E := E) counts id Hid) as (c & Hcid & Hrc).
  pose proof (Hc _ _ Hcid) as Hcb. rewrite Z2Nat.id in Hcb by lia.
  assert (id ∉ gone) as Hng by (intros [_ ?]%Hr; lia).
  unfold drop_ref. rewrite Hrc. simpl. rewrite u32_small by lia. do 2 eexists. split; [done|].
  rewrite length_insert. split; [done|]. unfold one_at in *.
  assert (R' id + 1 = R id)%nat as Hrid by (specialize (HR id); rewrite decide_True in HR by done; lia).
  assert (∀ x, x ≠ id → R' x = R x) as Hrx
    by (intros x Hx; specialize (HR x); rewrite decide_False in HR by done; lia).
  set (gone' := if c - 1 =? 0 then {[id]} ∪ gone else gone).
  assert (∀ x, x ∈ gone' ↔ x ∈ gone ∨ (x = id ∧ c = 1)) as Hg'.
  { intros x. unfold gone'. destruct (Z.eqb_spec (c - 1) 0); split; [set_solver by lia..]. }
  clearbody gone'. split; [split; rewrite ?length_insert|].
  - intros x Hx. apply Hk. specialize (HR x). lia.
  - intros i c' Hi. apply lookup_update in Hi as [[-> ->]|[Ei Hi]]; [lia| |done].
    rewrite Hrx by done. by apply Hc.
  - intros x [Hx|[-> ->]]%Hg'; [|split; [done|lia]].
    destruct (Hr x Hx). split; [done|]. rewrite Hrx; [done|]. by intros ->.
  - intros Ht i c' Hi. apply lookup_update in Hi as [[Ei ->]|[Ei Hi]]; [| |done].
    + destruct (Ht _ _ Hcid) as [Ec _]. rewrite Z2Nat.id in Ec by lia. rewrite Ei.
      split; [lia|]. rewrite Hg'. split; [intros; right; split; [done|lia]|].
      intros [?|[_ ?]]; [done|lia].
    + destruct (Ht i c' Hi) as [Ec Eg]. rewrite Hrx by done. split; [done|].
      rewrite Hg', Eg. naive_solver.
Qed.
End counting.

Lemma drop_refs_ok {E} n l (R R' : Z → nat) counts gone :
  counts_ok n R counts gone → Z.of_nat n < two32 → (∀ x, R x = R' x + occ x l)%nat →
  ∃ counts' gone', for_each l (drop_ref (E := E)) (counts, gone) = Ok (counts', gone') ∧
    length counts' = length counts ∧ counts_ok n R' counts' gone' ∧
    (tight R counts gone → tight R' counts' gone').
Proof.
  intros Hok Hn. revert R counts gone Hok.
  induction l as [|id l IH]; intros R counts gone Hok HR.
  - exists counts, gone. assert (∀ x, R x = R' x) as HE by (intros x; rewrite HR; change (occ x []) with 0%nat; lia).
    split; [done|]. split; [done|]. split.
    + destruct Hok as [Hk Hc Hr]. split.
      * intros x. rewrite <- HE. apply Hk.
      * intros i c. rewrite <- HE. apply Hc.
      * intros x. rewrite <- HE. apply Hr.
    + intros Ht i c Hi. rewrite <- HE. by apply Ht.
  - destruct (drop_ref_ok (E := E) n R (λ x, R' x + occ x l)%nat counts gone Hok id)
      as (counts1 & gone1 & Hd & Hl1 & Hok1 & Ht1); [done| | |].
    + rewrite HR, occ_cons, decide_True by done. lia.
    + intros x. rewrite HR, occ_cons. unfold one_at.
      destruct (decide (id = x)), (decide (x = id)); subst; try done; lia.
    + cbn [for_each]. rewrite Hd. cbn [Res_bind].
      destruct (IH (λ x, R' x + occ x l)%nat counts1 gone1 Hok1 ltac:(done))
        as (counts2 & gone2 & Hf & Hl2 & Hok2 & Ht2).
      exists counts2, gone2. rewrite Hl2. split_and!; auto.
Qed.

(** ** Tables of bitmaps *)

Lemma get_or_add_to `{Countable K} (m : gmap K Bitmap) k k' id :
  get_or ∅ (add_to m k id) k' =
  if decide (k = k') then {[id]} ∪ get_or ∅ m k else get_or ∅ m k'.
Proof. apply get_or_update. Qed.

Definition no_empty `{Countable K} (m : gmap K Bitmap) : Prop :=
  ∀ k b, m !! k = Some b → b ≠ ∅.

Lemma add_to_no_empty `{Countable K} (m : gmap K Bitmap) k id :
  no_empty m → no_empty (add_to m k id).
Proof.
  intros Hm k' b. unfold add_to. rewrite lookup_insert_Some.
  intros [[<- <-]|[_ Hb]]; [set_solver|by eapply Hm].
Qed.

Lemma add_all_spec `{Countable K} (l : list K) (m : gmap K Bitmap) id k x :
  x ∈ get_or ∅ (foldl (λ m k, add_to m k id) m l) k ↔ x ∈ get_or ∅ m k ∨ (x = id ∧ k ∈ l).
Proof.
  revert m. induction l as [|a l IH]; intros m; simpl; [set_solver|].
  rewrite IH, get_or_add_to. case_decide; set_solver.
Qed.

Lemma add_all_no_empty `{Countable K} (l : list K) (m : gmap K Bitmap) id :
  no_empty m → no_empty (foldl (λ m k, add_to m k id) m l).
Proof. intros Hm. apply (foldl_invariant no_empty); [done|]. intros. by apply add_to_no_empty. Qed.

Definition relation_ids (m : gmap Z (gmap Relation Bitmap)) (s : Z) (r : Relation) : Bitmap :=
  get_or ∅ (get_or ∅ m s) r.

Lemma add_relations_spec l m id s r x :
  x ∈ relation_ids (add_relations m id l) s r ↔
  x ∈ relation_ids m s r ∨ (x = id ∧ ∃ rs, (s, rs) ∈ l ∧ r ∈ rs).
Proof.
  unfold add_relations, relation_ids. revert m.
  induction l as [|[s' rs'] l IH]; intros m; simpl; [set_solver|].
  rewrite IH, get_or_update. case_decide as Hs; [|set_solver].
  subst s'. rewrite add_all_spec. set_solver.
Qed.

Definition no_empty_relations (m : gmap Z (gmap Relation Bitmap)) : Prop :=
  ∀ s t, m !! s = Some t → no_empty t.

Lemma add_relations_no_empty l m id :
  no_empty_relations m → no_empty_relations (add_relations m id l).
Proof.
  intros Hm. apply (foldl_invariant no_empty_relations); [done|]. clear m Hm. intros m [s rs] _ Hm s' t'; simpl.
  rewrite lookup_insert_Some. intros [[<- <-]|[_ Ht]]; [|by eapply Hm].
  apply add_all_no_empty. unfold get_or. destruct (m !! s) eqn:E; simpl; [by eapply Hm|].
  intros k b. by rewrite lookup_empty.
Qed.

(** ** The invariant *)

Section invariant.
Context `{Roaring} `{!RoaringLaws} `{IndexLibs}.

(** The tables say which of the indices [G] an entry belongs to. *)
Record tables_ok (G : list FileIndex) (self : Impl) : Prop := {
  ok_max : max_canonical_id self = Z.of_nat (length G);
  ok_counts_length : length (canonical_ref_counts self) = length G;
  ok_cache : ∀ h id, canonical_cache self !! h = Some id →
    ∃ ord f, canonical G id = Some f ∧ hash sha256 ord f = h;
  ok_occurrences : ∀ o id, id ∈ get_or ∅ (occurrences self) o ↔
    ∃ f, canonical G id = Some f ∧ o ∈ f_occurrences f;
  ok_relations : ∀ s r id, id ∈ relation_ids (relations self) s r ↔
    ∃ f, canonical G id = Some f ∧ r ∈ get_or [] (f_relations f) s;
  ok_no_empty : no_empty (occurrences self) ∧ no_empty_relations (relations self);
  ok_lines : line_starts self = build_line_starts (content self) ∨
    (content self = [] ∧ line_starts self = []);
  ok_symbols : ∀ s sym, symbols self !! s = Some sym →
    scope_ok (scope sym) ∧ reference_files sym = ∅;
}.

Lemma empty_tables_ok : tables_ok [] empty_impl.
Proof.
  assert (∀ id, canonical [] id = None) as Hnil by (intros id; unfold canonical; by case_decide).
  split; simpl; [done|done|intros ? ?; by rewrite lookup_empty| | | |by right|].
  - intros o id. rewrite get_or_empty, Hnil. set_solver.
  - intros s r id. unfold relation_ids. rewrite !get_or_empty, Hnil. set_solver.
  - split; intros ? ?; by rewrite lookup_empty.
  - intros s sym. by rewrite lookup_empty.
Qed.

(** The sorted table is empty or up to date. *)
Definition sorted_ok (self : Impl) : Prop :=
  occurrences_cache self = [] ∨
  occurrences_cache self = sort_by occurrence_key (map_to_list (occurrences self)).*1.

Record shard_ok (n : nat) (G : list FileIndex) (self : Impl) : Prop := {
  ok_tables : tables_ok G self;
  ok_counts : counts_ok n (refs self) (canonical_ref_counts self) (removed self);
  ok_sorted : sorted_ok self;
}.

Definition exact (self : Impl) : Prop :=
  tight (refs self) (canonical_ref_counts self) (removed self).

Lemma empty_shard_ok : shard_ok 0 [] empty_impl ∧ exact empty_impl.
Proof.
  split; [split; [apply empty_tables_ok| |by left]|by intros i c].
  split; simpl; [|done|set_solver]. intros id Hid.
  by assert (refs empty_impl id = 0%nat) as Hr by done; lia.
Qed.

(** *** Steps that leave the tables alone *)

Lemma set_text_ok n G text self :
  shard_ok n G self → shard_ok n G (set_text text self).
Proof. destruct self. intros [[] ? ?]. split; [split|..]; simpl in *; auto. Qed.

Lemma set_cache_ok n G l self :
  tables_ok G self → counts_ok n (refs self) (canonical_ref_counts self) (removed self) →
  (l = [] ∨ l = sort_by occurrence_key (map_to_list (occurrences self)).*1) →
  shard_ok n G (set_cache l self).
Proof. destruct self. intros [] ? ?. split; [split|..]; simpl in *; auto. Qed.

Lemma fill_cache_ok n G ord self : shard_ok n G self → shard_ok n G (fill_cache ord self).
Proof.
  intros Hok. unfold fill_cache. case_decide; [|done]. destruct Hok.
  apply set_cache_ok; try done. right. apply (sort_by_unique _). by rewrite entries_perm.
Qed.

Lemma merge_symbols_ok n G ord table self :
  (∀ s sym, table !! s = Some sym → scope_ok (scope sym)) →
  shard_ok n G self → shard_ok n G (impl_merge_symbols ord table self).
Proof.
  intros Htab [[] ? ?]. destruct self; simpl in *. split; [split|..]; simpl in *; auto.
  apply (foldl_invariant (λ m : SymbolTable, ∀ s sym, m !! s = Some sym →
           scope_ok (scope sym) ∧ reference_files sym = ∅)); [done|].
  intros m [s0 sym0] Hin Hm s sym. unfold try_emplace; simpl. case_match; [by apply Hm|].
  rewrite lookup_insert_Some. intros [[<- <-]|[_ ?]]; [|by apply (Hm s)]. simpl.
  split; [|done]. apply (Htab s0). by apply (elem_of_entries ord).
Qed.

(** *** Merging *)

Lemma refs_add_header p i id self x :
  refs (add_context (NewHeader p i) id self) x = (refs self x + one_at id x)%nat.
Proof.
  destruct self as [text lines hs cs ?? ? ? ? ? ? ?]. unfold refs; simpl. unfold add_header.
  assert (∀ c, header_refs x (mkHeaderContext (header_version c)
    (includes c ++ [mkIncludeContext i id])) = (header_refs x c + one_at id x)%nat) as Hsnoc.
  { intros c. unfold header_refs, header_ids, occ; simpl.
    rewrite fmap_app, filter_app, length_app; simpl. rewrite filter_cons, filter_nil.
    unfold one_at. destruct (decide (id = x)), (decide (x = id)); subst; done. }
  unfold get_or. destruct (hs !! p) as [c|] eqn:Ep; simpl.
  - pose proof (msum_update (header_refs x) hs p c
      (mkHeaderContext (header_version c) (includes c ++ [mkIncludeContext i id])) Ep) as Hm.
    rewrite Hsnoc in Hm. lia.
  - rewrite msum_insert by done.
    pose proof (Hsnoc (mkHeaderContext 0 [])) as Hs. simpl in Hs. rewrite Hs.
    change (header_refs x (mkHeaderContext 0 [])) with 0%nat. lia.
Qed.

(** The reference a new compilation context replaces. *)
Definition replaced (p x : Z) (self : Impl) : nat :=
  default 0%nat (compilation_refs x <$> compilation_contexts self !! p).

Lemma refs_add_compilation p b l id self x :
  (refs (add_context (NewCompilation p b l) id self) x + replaced p x self =
   refs self x + one_at id x)%nat.
Proof.
  destruct self as [text lines hs cs ?? ? ? ? ? ? ?]. unfold refs, replaced; simpl.
  unfold add_compilation. set (c' := mkCompilationContext _ _ _ _).
  assert (compilation_refs x c' = one_at id x) as Hc'.
  { unfold compilation_refs, one_at; simpl.
    destruct (decide (id = x)), (decide (x = id)); subst; done. }
  destruct (cs !! p) as [c|] eqn:Ep; simpl.
  - pose proof (msum_update (compilation_refs x) cs p c c' Ep) as Hm. lia.
  - rewrite msum_insert by done. lia.
Qed.

(** The context is new: it replaces no compilation context. *)
Definition fresh_context (c : NewContext) (self : Impl) : Prop :=
  match c with
  | NewCompilation p _ _ => compilation_contexts self !! p = None
  | NewHeader _ _ => True
  end.

Lemma refs_add_context c id self :
  (∀ x, (refs (add_context c id self) x ≤ refs self x + one_at id x)%nat) ∧
  (fresh_context c self →
   ∀ x, refs (add_context c id self) x = (refs self x + one_at id x)%nat).
Proof.
  destruct c as [p b l|p i]; simpl; [|split; intros; by rewrite refs_add_header].
  split; [intros x|intros Hp x]; pose proof (refs_add_compilation p b l id self x) as Hr;
    unfold replaced in Hr; [lia|]. rewrite Hp in Hr. simpl in Hr. lia.
Qed.

(** Equal hashes mean equal contents, for the indices of [l]. *)
Definition distinguishes (l : list FileIndex) : Prop :=
  ∀ f g ord ord', f ∈ l → g ∈ l →
    hash sha256 ord f = hash sha256 ord' g → equal_content f g.

Lemma canonical_elem G id f : canonical G id = Some f → f ∈ G.
Proof. unfold canonical. case_decide; [apply list_elem_of_lookup_2|done]. Qed.

Lemma get_or_relations f s r :
  r ∈ get_or [] (f_relations f) s ↔ ∃ rs, f_relations f !! s = Some rs ∧ r ∈ rs.
Proof.
  unfold get_or. destruct (f_relations f !! s); simpl; [|set_solver]. naive_solver.
Qed.

(** The tables after a new canonical id. *)
Lemma tables_snoc G ord index self hs cs counts gone sorted :
  let id := max_canonical_id self in
  tables_ok G self → length counts = length G → Z.of_nat (length G) + 1 < two32 →
  tables_ok (G ++ [index])
    (mkImpl (content self) (line_starts self) hs cs
       (<[hash sha256 ord index := id]> (canonical_cache self)) (u32 (max_canonical_id self + 1))
       (counts ++ [1]) gone (add_occurrences (occurrences self) id (f_occurrences index))
       (add_relations (relations self) id (entries ord (f_relations index)))
       (symbols self) sorted).
Proof.
  intros id [Hmax _ Hcache Hocc Hrel [Hne Hner] Hlines Hsyms] Hlen Hlt.
  assert (id = Z.of_nat (length G)) as Hid by done.
  assert (∀ x g, canonical G x = Some g → canonical (G ++ [index]) x = Some g) as Hold.
  { intros x g Hx. rewrite canonical_snoc. apply canonical_range in Hx as ?.
    rewrite decide_False by lia. done. }
  assert (∀ P : FileIndex → Prop, ∀ x, (∃ g, canonical (G ++ [index]) x = Some g ∧ P g) ↔
    (∃ g, canonical G x = Some g ∧ P g) ∨ (x = id ∧ P index)) as Hex.
  { intros P x. rewrite canonical_snoc, <- Hid. case_decide as Ex; [subst x|naive_solver].
    split; [naive_solver|]. intros [(g & Hg & _)|?]; [|naive_solver].
    apply canonical_range in Hg. lia. }
  split; simpl; [| | | | | |done|done].
  - rewrite length_app, Hmax, u32_small; simpl; lia.
  - rewrite !length_app; simpl; lia.
  - intros h x. rewrite lookup_insert_Some. intros [[<- <-]|[_ Hx]].
    + exists ord, index. split; [by rewrite canonical_snoc, decide_True|done].
    + destruct (Hcache h x Hx) as (o & g & ? & ?). exists o, g. eauto.
  - intros o x. unfold add_occurrences. by rewrite add_all_spec, Hocc, Hex.
  - intros s r x. rewrite add_relations_spec, Hrel, Hex, get_or_relations.
    by setoid_rewrite elem_of_entries.
  - split; [by apply add_all_no_empty|by apply add_relations_no_empty].
Qed.

(** [Impl::merge]: the context gets an id whose index has the content merged. *)
Lemma impl_merge_ok {E} n G ord index c self :
  shard_ok n G self → Z.of_nat n + 1 < two32 → (length G ≤ n)%nat →
  distinguishes (index :: G) →
  ∃ self' id f, impl_merge (E := E) ord index c self = Ok self' ∧
    let G' := if decide (canonical_cache self !! hash sha256 ord index = None)
              then G ++ [index] else G in
    shard_ok (S n) G' (set_cache [] self') ∧
    canonical G' id = Some f ∧ equal_content f index ∧
    header_contexts self' = header_contexts (add_context c id self) ∧
    compilation_contexts self' = compilation_contexts (add_context c id self) ∧
    (exact self → fresh_context c self → exact (set_cache [] self')).
Proof.
  intros [Ht Hc _] Hn HG Hdist. unfold impl_merge.
  destruct (canonical_cache self !! hash sha256 ord index) as [id|] eqn:Ecache.
  - destruct (ok_cache _ _ Ht _ _ Ecache) as (ord' & f & Hf & Hh).
    destruct (refs_add_context c id self) as [Hle Heq].
    destruct (increment_ok (E := E) n (refs self) (refs (add_context c id self))
      (canonical_ref_counts self) (removed self) Hc id) as (counts & Hinc & Hlen & Hok & Htight).
    { apply canonical_range in Hf. by rewrite (ok_counts_length _ _ Ht). }
    { done. }
    { done. }
    exists (let (text, lines, hs, cs, cache, max, _, gone, occs, rels, syms, sorted) :=
              add_context c id self in
            mkImpl text lines hs cs cache max counts (gone ∖ {[id]}) occs rels syms sorted), id, f.
    rewrite decide_False by done.
    assert (equal_content f index) as Hsame.
    { apply (Hdist f index ord' ord); [right; by eapply canonical_elem|left|done]. }
    destruct Ht as [Hmax Hcl Hca Hocc Hrel Hne Hli Hsy].
    destruct c, self; simpl in *; rewrite Hinc; simpl;
      (split; [done|]; split; [split; [split; simpl; try done; by rewrite Hlen|done|by left]|];
       split_and!; try done; intros Hex Hfr; by apply Htight; [|apply Heq]).
  - set (id := max_canonical_id self).
    destruct (refs_add_context c id self) as [Hle Heq].
    assert (id = Z.of_nat (length (canonical_ref_counts self))) as Hid.
    { unfold id. by rewrite (ok_max _ _ Ht), (ok_counts_length _ _ Ht). }
    destruct (snoc_ok n (refs self) (refs (add_context c id self))
      (canonical_ref_counts self) (removed self) Hc Hn) as [Hok Htight].
    { by rewrite <- Hid. }
    exists (let (text, lines, hs, cs, cache, max, counts, gone, occs, rels, syms, sorted) :=
              add_context c id self in
            mkImpl text lines hs cs (<[hash sha256 ord index := id]> cache) (u32 (max + 1))
              (counts ++ [1]) gone (add_occurrences occs id (f_occurrences index))
              (add_relations rels id (entries ord (f_relations index))) syms sorted), id, index.
    rewrite decide_True by done.
    assert (canonical (G ++ [index]) id = Some index) as Hcan.
    { rewrite canonical_snoc, decide_True; [done|]. apply (ok_max _ _ Ht). }
    pose proof (λ hs cs, tables_snoc G ord index self hs cs (canonical_ref_counts self)
      (removed self) [] Ht (ok_counts_length _ _ Ht) ltac:(lia)) as Htab.
    rewrite <- Hid in Htight.
    destruct c, self; simpl in *; unfold id in *;
      (split; [done|]; split; [split; [apply Htab|done|by left]|];
       split_and!; try done; intros Hex Hfr; apply Htight; [done|by apply Heq]).
Qed.

(** *** Removing *)

Lemma drop_compilation_ok {E} n (Rh : Z → nat) (cs : gmap Z CompilationContext) p counts gone :
  let R1 x := (Rh x + msum (compilation_refs x) cs)%nat in
  let R2 x := (Rh x + msum (compilation_refs x) (delete p cs))%nat in
  counts_ok n R1 counts gone → Z.of_nat n < two32 →
  ∃ counts' gone',
    match cs !! p with
    | Some c => drop_ref (canonical_id c) (counts, gone)
    | None => Ok (E := E) (counts, gone)
    end = Ok (counts', gone') ∧ length counts' = length counts ∧
    counts_ok n R2 counts' gone' ∧ (tight R1 counts gone → tight R2 counts' gone').
Proof.
  intros R1 R2 Hc Hn. destruct (cs !! p) as [c|] eqn:Ep.
  - assert (∀ x, R1 x = (R2 x + one_at (canonical_id c) x)%nat) as HR.
    { intros x. unfold R1, R2. rewrite (msum_delete _ cs p c Ep).
      unfold compilation_refs at 1, one_at.
      destruct (decide (canonical_id c = x)), (decide (x = canonical_id c)); subst; done || lia. }
    apply (drop_ref_ok (E := E) n R1 R2); [done|done| |done].
    rewrite HR. unfold one_at. rewrite decide_True by done. lia.
  - exists counts, gone. assert (R2 = R1) as -> by (unfold R1, R2; by rewrite delete_id).
    done.
Qed.

Lemma impl_remove_ok {E} n G p self :
  shard_ok n G self → Z.of_nat n < two32 →
  ∃ self', impl_remove (E := E) p self = Ok self' ∧ shard_ok n G self' ∧
    header_contexts self' = delete p (header_contexts self) ∧
    compilation_contexts self' = delete p (compilation_contexts self) ∧
    (exact self → exact self').
Proof.
  intros [Ht Hc _] Hn.
  destruct self as [text lines hs cs cache max counts gone occs rels syms sorted]; simpl in *.
  set (ids := default [] (header_ids <$> hs !! p)).
  set (R1 := λ x, (msum (header_refs x) (delete p hs) + msum (compilation_refs x) cs)%nat).
  destruct (drop_refs_ok (E := E) n ids _ R1 _ _ Hc Hn) as (counts1 & gone1 & Hd1 & Hl1 & Hc1 & Ht1).
  { intros x. unfold refs, R1, ids; simpl. destruct (hs !! p) as [c|] eqn:Ep; simpl.
    - rewrite (msum_delete _ hs p c Ep). unfold header_refs at 1. lia.
    - rewrite delete_id by done. change (occ x []) with 0%nat. lia. }
  destruct (drop_compilation_ok (E := E) n (λ x, msum (header_refs x) (delete p hs)) cs p
    counts1 gone1 Hc1 Hn) as (counts2 & gone2 & Hd2 & Hl2 & Hc2 & Ht2).
  exists (mkImpl text lines (delete p hs) (delete p cs) cache max counts2 gone2 occs rels syms []).
  split.
  { assert (match hs !! p with
            | Some c => for_each (header_ids c) drop_ref (counts, gone)
            | None => Ok (E := E) (counts, gone)
            end = Ok (counts1, gone1)) as Hd by (rewrite <- Hd1; unfold ids; by destruct (hs !! p)).
    unfold impl_remove. rewrite Hd. cbn [Res_bind]. by rewrite Hd2. }
  split_and!; try done; [|by intros Hx; apply Ht2, Ht1].
  destruct Ht. split; [split; simpl in *; auto; lia|done|by left].
Qed.
End invariant.
