(* ===== verification/MergedImage.v ===== *)
(** * Serialising and loading a shard

    [load_in_memory] reads back what [serialize] wrote: every table is restored,
    the reference counts are counted again from the contexts, and the sorted table
    is dropped. *)
From S2P Require Import IndexData MergedIndex MergedInvariant.
Local Open Scope Z_scope.
Local Open Scope cpp_scope.

(** ** Maps from lists of entries *)

Section load_map.
Context `{Countable K} {V T : Type} (f : K * V → T) (m : gmap K V) (l : list (K * V)).
Hypothesis Hl : l ≡ₚ map_to_list m.

Lemma perm_entries_map : list_to_map l = m ∧ NoDup l.*1.
Proof using Hl.
  assert (NoDup l.*1) as Hnd by (rewrite Hl; apply NoDup_fst_map_to_list).
  split; [|done]. rewrite (list_to_map_proper _ (map_to_list m)); [|done|done].
  apply list_to_map_to_list.
Qed.

(** Tables read with [try_emplace]. *)
Lemma load_emplaced (k : T → K) (v : T → V) :
  (∀ a b, m !! a = Some b → k (f (a, b)) = a ∧ v (f (a, b)) = b) →
  foldl (λ m e, try_emplace m (k e) (v e)) ∅ (f <$> l) = m.
Proof using Hl.
  intros Hf. destruct perm_entries_map as [Hm Hnd].
  assert (∀ m0 : gmap K V, foldl (λ m e, try_emplace m (k e) (v e)) m0 (f <$> l) =
    foldl (λ m e, try_emplace m e.1 e.2) m0 l) as ->.
  { assert (∀ a b, (a, b) ∈ l → k (f (a, b)) = a ∧ v (f (a, b)) = b) as Hl'.
    { intros a b Hin. apply Hf. rewrite Hl in Hin. by apply elem_of_map_to_list. }
    clear Hm Hnd Hl Hf. induction l as [|[a b] l' IH]; intros m0; simpl; [done|].
    destruct (Hl' a b) as [-> ->]; [left|]. apply IH. intros. apply Hl'. by right. }
  rewrite try_emplace_all by (try done; intros; apply lookup_empty).
  by rewrite (right_id_L ∅ (∪)).
Qed.

(** Tables read through [operator[]]. *)
Lemma load_updated (d : V) (k : T → K) (v : V → T → V) :
  (∀ a b, m !! a = Some b → k (f (a, b)) = a ∧ v d (f (a, b)) = b) →
  foldl (λ m e, <[k e := v (get_or d m (k e)) e]> m) ∅ (f <$> l) = m.
Proof using Hl.
  intros Hf. destruct perm_entries_map as [Hm Hnd].
  assert (∀ a b, (a, b) ∈ l → k (f (a, b)) = a ∧ v d (f (a, b)) = b) as Hl'.
  { intros a b Hin. apply Hf. rewrite Hl in Hin. by apply elem_of_map_to_list. }
  assert (∀ m0 : gmap K V, (∀ a, a ∈ l.*1 → m0 !! a = None) →
    foldl (λ m e, <[k e := v (get_or d m (k e)) e]> m) m0 (f <$> l) = list_to_map l ∪ m0) as Hgen.
  { clear Hm Hl Hf. induction l as [|[a b] l' IH]; intros m0 Hfresh; simpl.
    { by rewrite (left_id_L ∅ (∪)). }
    destruct (Hl' a b) as [-> Hv]; [left|]. apply NoDup_cons in Hnd as [Ha Hnd].
    unfold get_or. rewrite (Hfresh a) by left. simpl. rewrite Hv, IH; [|done| |].
    - by rewrite <- insert_union_l, insert_union_r by (by apply not_elem_of_list_to_map_1).
    - intros. apply Hl'. by right.
    - intros a' Ha'. rewrite lookup_insert_ne; [apply Hfresh; by right|]. intros <-. done. }
  rewrite Hgen by (intros; apply lookup_empty). by rewrite (right_id_L ∅ (∪)).
Qed.
End load_map.

(** A sorted table of entries is the table of a permutation. *)
Lemma sort_by_fmap {A B} (key : B → list Z) (f : A → B) (l : list A) :
  ∃ l', sort_by key (f <$> l) = f <$> l' ∧ l' ≡ₚ l.
Proof.
  destruct (Permutation_map_inv f l (sort_by_perm key (f <$> l))) as (l' & E & Hp).
  by exists l'.
Qed.

(** ** Counting again *)

(** Counts as a function of the id. *)
Definition tabulate (N : nat) (R : Z → nat) : list Z :=
  (λ i, Z.of_nat (R (Z.of_nat i))) <$> seq 0 N.

Lemma lookup_tabulate N R i c :
  tabulate N R !! i = Some c ↔ (i < N)%nat ∧ c = Z.of_nat (R (Z.of_nat i)).
Proof.
  unfold tabulate. rewrite list_lookup_fmap_Some. setoid_rewrite lookup_seq. simpl. split.
  - intros (j & -> & -> & ?). done.
  - intros [? ->]. eauto.
Qed.

Lemma length_tabulate N R : length (tabulate N R) = N.
Proof. unfold tabulate. by rewrite length_fmap, length_seq. Qed.

Lemma tabulate_ext N R R' :
  (∀ x, 0 ≤ x < Z.of_nat N → R x = R' x) → tabulate N R = tabulate N R'.
Proof.
  intros HR. apply list_fmap_ext. intros i j Hi. apply lookup_seq in Hi as [-> ?]. rewrite HR; [done|lia].
Qed.

Lemma tabulate_zero N : tabulate N (λ _, 0%nat) = replicate N 0.
Proof.
  unfold tabulate. generalize 0%nat at 2. induction N as [|N IH]; intros k; simpl; [done|].
  by rewrite IH.
Qed.

Lemma for_each_fmap {E A B S} (f : A → B) (l : list A) (body : B → S → Res E S) s :
  for_each (f <$> l) body s = for_each l (λ a, body (f a)) s.
Proof.
  revert s. induction l as [|a l IH]; intros s; simpl; [done|].
  destruct (body (f a) s); simpl; [apply IH|done..].
Qed.

Lemma increment_tabulate {E} N R id :
  0 ≤ id < Z.of_nat N → Z.of_nat (R id) + 1 < two32 →
  increment (E := E) (tabulate N R) id = Ok (tabulate N (λ x, R x + one_at id x)%nat).
Proof.
  intros Hid HR. unfold increment.
  destruct (ref_count_ok (E := E) (tabulate N R) id) as (c & Hc & ->);
    [by rewrite length_tabulate|].
  apply lookup_tabulate in Hc as [_ ->]. rewrite Z2Nat.id by lia. simpl.
  rewrite u32_small by lia. f_equal. apply list_eq_same_length with (n := N);
    [by rewrite length_tabulate|by rewrite length_insert, length_tabulate|].
  intros i x y Hi Hx Hy. apply lookup_tabulate in Hy as [_ ->]. unfold one_at.
  apply lookup_update in Hx as [[-> ->]|[Ei Hx]]; [| |by rewrite length_tabulate].
  - rewrite decide_True by done. lia.
  - apply lookup_tabulate in Hx as [_ ->]. rewrite decide_False by done. lia.
Qed.

Lemma increments_tabulate {E} N R ids :
  (∀ id, id ∈ ids → 0 ≤ id < Z.of_nat N) →
  (∀ id, id ∈ ids → Z.of_nat (R id + occ id ids) < two32) →
  for_each ids (λ id counts, increment (E := E) counts id) (tabulate N R) =
  Ok (tabulate N (λ x, R x + occ x ids)%nat).
Proof.
  revert R. induction ids as [|id ids IH]; intros R Hid Hmax.
  { simpl. f_equal. apply tabulate_ext. intros x _. change (occ x []) with 0%nat. lia. }
  assert (∀ x, R x + one_at id x + occ x ids = R x + occ x (id :: ids))%nat as Hsum.
  { intros x. rewrite occ_cons. unfold one_at.
    destruct (decide (id = x)), (decide (x = id)); subst; done || lia. }
  cbn [for_each]. rewrite increment_tabulate; [|apply Hid; left|].
  - cbn [Res_bind]. rewrite IH.
    + f_equal. apply tabulate_ext. intros x _. apply Hsum.
    + intros. apply Hid. by right.
    + intros x Hx. rewrite Hsum. apply Hmax. by right.
  - specialize (Hmax id ltac:(left)). rewrite <- Hsum in Hmax. unfold one_at in Hmax.
    rewrite decide_True in Hmax by done. lia.
Qed.

(** The sum over a map is the sum over its entries, in any order. *)
Lemma msum_entries `{Countable K} {V} (f : V → nat) (m : gmap K V) ord :
  msum f m = sum_list_with (λ e, f e.2) (entries ord m).
Proof.
  assert (∀ l l' : list (K * V), l ≡ₚ l' →
    sum_list_with (λ e, f e.2) l = sum_list_with (λ e, f e.2) l') as Hperm
    by (induction 1; simpl; lia).
  rewrite (Hperm _ _ (entries_perm ord m)). unfold msum. rewrite map_fold_foldr.
  induction (map_to_list m) as [|[k v] l IH]; simpl; [done|]. by rewrite IH.
Qed.

(** ** The round trip *)

Definition header_sum (x : Z) (l : list (Z * HeaderContext)) : nat :=
  sum_list_with (λ e, header_refs x e.2) l.
Definition compilation_sum (x : Z) (l : list (Z * CompilationContext)) : nat :=
  sum_list_with (λ e, compilation_refs x e.2) l.

Lemma header_sum_pos x l p c :
  (p, c) ∈ l → x ∈ header_ids c → (0 < header_sum x l)%nat.
Proof.
  unfold header_sum. induction l as [|[p' c'] l IH]; [set_solver|]. simpl.
  intros [[= -> ->]|Hin]%elem_of_cons Hx; [|specialize (IH Hin Hx); lia].
  pose proof (occ_pos x (header_ids c') Hx). unfold header_refs. lia.
Qed.

Lemma load_headers_tabulate {E} `{Roaring} N R l m0 :
  (∀ x, (0 < header_sum x l)%nat → 0 ≤ x < Z.of_nat N) →
  (∀ x, Z.of_nat (R x + header_sum x l) < two32) →
  for_each (header_entry <$> l) (λ e st,
      let '(counts, m) := st in
      let? counts := for_each (he_includes e)
                       (λ i counts, increment (E := E) counts (include_canonical_id i)) counts in
      Ok (counts, try_emplace m (he_path_id e) (mkHeaderContext (he_version e) (he_includes e))))
    (tabulate N R, m0) =
  Ok (tabulate N (λ x, R x + header_sum x l)%nat,
      foldl (λ m e, try_emplace m (he_path_id e) (mkHeaderContext (he_version e) (he_includes e)))
        m0 (header_entry <$> l)).
Proof.
  revert R m0. induction l as [|[p c] l IH]; intros R m0 Hrange Hmax.
  { simpl. do 2 f_equal. apply tabulate_ext. intros x _. unfold header_sum; simpl. lia. }
  assert (∀ x, header_sum x ((p, c) :: l) = (occ x (header_ids c) + header_sum x l)%nat) as Hsum
    by done.
  cbn [for_each fmap list_fmap]. cbn [header_entry he_includes he_path_id he_version fst snd].
  rewrite <- (for_each_fmap include_canonical_id (includes c)
                (λ id counts, increment (E := E) counts id)).
  change (include_canonical_id <$> includes c) with (header_ids c).
  rewrite increments_tabulate.
  - cbn [Res_bind]. rewrite IH.
    + do 2 f_equal. apply tabulate_ext. intros x _. rewrite Hsum. lia.
    + intros x Hx. apply Hrange. rewrite Hsum. lia.
    + intros x. specialize (Hmax x). rewrite Hsum in Hmax. lia.
  - intros id Hid. apply Hrange. eapply header_sum_pos; [left|done].
  - intros id Hid. specialize (Hmax id). rewrite Hsum in Hmax. lia.
Qed.

Lemma count_compilations_tabulate {E} `{Roaring} N R l :
  (∀ x, (0 < compilation_sum x l)%nat → 0 ≤ x < Z.of_nat N) →
  (∀ x, Z.of_nat (R x + compilation_sum x l) < two32) →
  count_compilations (E := E) (compilation_entry <$> l) (tabulate N R) =
  Ok (tabulate N (λ x, R x + compilation_sum x l)%nat).
Proof.
  intros Hrange Hmax. unfold count_compilations. rewrite for_each_fmap.
  set (ids := (λ e : Z * CompilationContext, canonical_id e.2) <$> l).
  assert (∀ x, occ x ids = compilation_sum x l) as Hocc.
  { intros x. unfold ids, compilation_sum. induction l as [|[p c] l IH]; [done|].
    cbn [fmap list_fmap]. rewrite occ_cons. simpl.
    unfold compilation_refs at 1. simpl. rewrite IH; [done| |].
    - intros y Hy. apply Hrange. unfold compilation_sum in *; simpl. lia.
    - intros y. specialize (Hmax y). unfold compilation_sum in *; simpl in Hmax. lia. }
  rewrite <- (for_each_fmap (λ e : Z * CompilationContext, canonical_id e.2) l
                (λ id counts, increment (E := E) counts id)).
  rewrite increments_tabulate.
  - f_equal. apply tabulate_ext. intros x _. by rewrite Hocc.
  - intros id Hid. apply Hrange. rewrite <- Hocc. by apply occ_pos.
  - intros id _. by rewrite Hocc.
Qed.

Section round_trip.
Context {E : Type} `{Roaring} `{!RoaringLaws} `{IndexLibs}.

(** What loading restores. *)
Definition reloaded (self : Impl) : Impl :=
  let (text, lines, hs, cs, cache, max, counts, gone, occs, rels, syms, _) := self in
  mkImpl text lines hs cs cache max (tabulate (Z.to_nat max) (refs self)) gone occs rels syms [].

Lemma bitmaps_bounded n G self :
  shard_ok n G self → Z.of_nat n < two32 → (length G ≤ n)%nat →
  (∀ o b, occurrences self !! o = Some b → read_bitmap (bitmap_write b) = b) ∧
  (∀ s t r b, relations self !! s = Some t → t !! r = Some b →
     read_bitmap (bitmap_write b) = b) ∧
  load_removed (Some (if decide (removed self = ∅) then [] else bitmap_write (removed self)))
    = removed self.
Proof.
  intros [Ht Hc _] Hn HG. split_and!.
  - intros o b Hb. apply read_bitmap_write. intros x Hx.
    destruct (proj1 (ok_occurrences _ _ Ht o x)) as (f & Hf%canonical_range & _);
      [unfold get_or; by rewrite Hb|lia].
  - intros s t r b Hs Hr. apply read_bitmap_write. intros x Hx.
    destruct (proj1 (ok_relations _ _ Ht s r x)) as (f & Hf%canonical_range & _); [|lia].
    unfold relation_ids, get_or. rewrite Hs; simpl. by rewrite Hr.
  - unfold load_removed. destruct (decide (removed self = ∅)) as [Ez|Ez]; [by rewrite Ez|].
    rewrite decide_False by apply bitmap_write_nonempty.
    apply read_bitmap_write. intros x Hx. destruct (ok_removed _ _ _ _ Hc x Hx) as [Hl _].
    rewrite (ok_counts_length _ _ Ht) in Hl. lia.
Qed.

Lemma load_tables n G ord self :
  shard_ok n G self → Z.of_nat n < two32 → (length G ≤ n)%nat →
  let root := write_root ord self in
  load_cache (fb_canonical_cache root) = canonical_cache self ∧
  load_compilations (fb_compilation_contexts root) = compilation_contexts self ∧
  load_occurrences (fb_occurrences root) = occurrences self ∧
  load_relations (fb_relations root) = relations self ∧
  load_symbols (fb_symbols root) = symbols self ∧
  load_lines (fb_line_starts root) (content self) = line_starts self.
Proof.
  intros Hok Hn HG root. destruct (bitmaps_bounded n G self Hok Hn HG) as (Ho & Hr & _).
  destruct Hok as [Ht _ _]. split_and!; simpl.
  - apply (load_emplaced cache_entry); [apply entries_perm|done].
  - apply (load_emplaced compilation_entry); [apply entries_perm|by intros a [] _].
  - destruct (sort_by_fmap (λ e, occurrence_key (oe_occurrence e)) occurrence_entry
      (entries ord (occurrences self))) as (l & -> & Hl).
    apply (load_emplaced occurrence_entry); [by rewrite Hl, entries_perm|].
    intros a b Hab. split; [done|]. by eapply Ho.
  - destruct (sort_by_fmap (λ e, [sr_symbol e]) (symbol_relations_entry ord)
      (entries ord (relations self))) as (l & -> & Hl).
    apply (load_updated (symbol_relations_entry ord) (relations self) l
      ltac:(by rewrite Hl, entries_perm) ∅ sr_symbol
      (λ t e, load_symbol_relations t (sr_relations e))).
    intros s t Hs. split; [done|].
    apply (load_emplaced relation_entry); [apply entries_perm|].
    intros r b Hb. split; [done|]. by eapply Hr.
  - apply (load_updated symbol_entry (symbols self) _ (entries_perm ord _) new_symbol
      se_symbol_id (λ s e, load_symbol s (se_symbol e))).
    intros s sym Hs. split; [done|]. destruct (ok_symbols _ _ Ht s sym Hs) as [Hsc Href].
    destruct sym; simpl in *. rewrite scope_cast_value by done. subst.
    by rewrite read_bitmap_write by set_solver.
  - unfold load_lines; simpl. destruct (ok_lines _ _ Ht) as [E1|[E1 E2]].
    + case_decide as E2; [|done]. case_decide as E3; [by rewrite E2|]. by rewrite <- E1.
    + rewrite E1, E2. done.
Qed.

Lemma load_write_root n G ord self :
  shard_ok n G self → Z.of_nat n < two32 → (length G ≤ n)%nat →
  load_root (E := E) (write_root ord self) = Ok (reloaded self).
Proof.
  intros Hok Hn HG.
  destruct (load_tables n G ord self Hok Hn HG) as (Hca & Hco & Hoc & Hre & Hsy & Hli).
  destruct (bitmaps_bounded n G self Hok Hn HG) as (_ & _ & Hrm). destruct Hok as [Ht Hc _].
  set (hs := entries ord (header_contexts self)).
  set (cs := entries ord (compilation_contexts self)).
  assert (∀ x, refs self x = (header_sum x hs + compilation_sum x cs)%nat) as Hrefs
    by (intros x; unfold refs; by rewrite !(msum_entries _ _ ord)).
  assert (∀ x, (0 < refs self x)%nat → 0 ≤ x < max_canonical_id self) as Hk.
  { intros x Hx. destruct (ok_known _ _ _ _ Hc x Hx) as [? Hl].
    rewrite (ok_counts_length _ _ Ht) in Hl. rewrite (ok_max _ _ Ht). done. }
  assert (∀ x, Z.of_nat (refs self x) < two32) as Hmax.
  { intros x. destruct (decide (refs self x = 0)%nat) as [->|Hne]; [done|].
    pose proof (ok_known _ _ _ _ Hc x ltac:(lia)) as Hx.
    destruct (lookup_lt_is_Some_2 (canonical_ref_counts self) (Z.to_nat x)) as [c Hcx]; [lia|].
    pose proof (ok_count _ _ _ _ Hc _ _ Hcx) as Hb. rewrite Z2Nat.id in Hb by lia. lia. }
  set (N := Z.to_nat (max_canonical_id self)).
  assert (∀ x, (0 < refs self x)%nat → 0 ≤ x < Z.of_nat N) as HkN
    by (intros x Hx; specialize (Hk x Hx); unfold N; lia).
  unfold load_root, load_headers. cbn [write_root fb_max_canonical_id fb_header_contexts].
  fold N. rewrite <- tabulate_zero, load_headers_tabulate; cycle 1.
  { intros x Hx. apply HkN. rewrite Hrefs. fold hs. fold hs in Hx. lia. }
  { intros x. specialize (Hmax x). rewrite Hrefs in Hmax. fold hs. lia. }
  cbn [Res_bind fb_compilation_contexts]. cbv beta iota zeta.
  change (fb_compilation_contexts (write_root ord self)) with (compilation_entry <$> cs) at 1.
  rewrite count_compilations_tabulate; cycle 1.
  { intros x Hx. apply HkN. rewrite Hrefs. lia. }
  { intros x. specialize (Hmax x). rewrite Hrefs in Hmax. fold hs. lia. }
  cbn [Res_bind]. rewrite Hca, Hco, Hoc, Hre, Hsy.
  cbn [write_root fb_removed fb_content fb_line_starts default] in *. rewrite Hrm.
  cbv beta iota. unfold id. rewrite Hli. f_equal. destruct self; simpl in *. f_equal.
  - apply (load_emplaced header_entry); [apply entries_perm|by intros a [] _].
  - apply tabulate_ext. intros x _. fold hs cs. by rewrite Hrefs.
Qed.
End round_trip.
