(* ===== verification/MergedSimulation.v ===== *)
(** * A shard simulates its contexts

    The abstract state of a shard is the set of contexts it has, each with the
    index it was merged with.  Every operation, saving and loading included,
    succeeds and takes related states to related states; a bitmap has an id that
    is not removed when some context has the entry, and only then as long as no
    compilation context is merged over an old one. *)
From S2P Require Import IndexData MergedIndex MergedInvariant MergedImage.
Local Open Scope Z_scope.
Local Open Scope cpp_scope.

(** ** Contexts as the abstract state *)

Record Contexts := mkContexts {
  live_headers : gmap Z (list FileIndex);
  live_compilations : gmap Z FileIndex;
}.

Definition no_contexts : Contexts := mkContexts ∅ ∅.

(** Some context has an index with the property. *)
Definition live (P : FileIndex → Prop) (spec : Contexts) : Prop :=
  (∃ p fs f, live_headers spec !! p = Some fs ∧ f ∈ fs ∧ P f) ∨
  (∃ p f, live_compilations spec !! p = Some f ∧ P f).

Inductive ShardOp :=
| OpCompilation (ord : Order) (path_id build_at : Z) (locations : list IncludeLocation)
    (index : FileIndex) (text : bytes)
| OpHeader (ord : Order) (path_id include_id : Z) (index : FileIndex) (text : bytes)
| OpRemove (path_id : Z)
| OpSymbols (ord : Order) (table : SymbolTable)
| OpLookup (ord : Order) (offset : Z)
| OpReopen (ord : Order).

Definition spec_step (op : ShardOp) (spec : Contexts) : Contexts :=
  match op with
  | OpCompilation _ p _ _ f _ => mkContexts (live_headers spec) (<[p := f]> (live_compilations spec))
  | OpHeader _ p _ f _ =>
    mkContexts (<[p := get_or [] (live_headers spec) p ++ [f]]> (live_headers spec))
      (live_compilations spec)
  | OpRemove p => mkContexts (delete p (live_headers spec)) (delete p (live_compilations spec))
  | OpSymbols _ _ | OpLookup _ _ | OpReopen _ => spec
  end.

(** The index an operation brings. *)
Definition brings (op : ShardOp) : list FileIndex :=
  match op with OpCompilation _ _ _ _ f _ | OpHeader _ _ _ f _ => [f] | _ => [] end.

Definition symbols_named (op : ShardOp) : Prop :=
  match op with
  | OpSymbols _ table => ∀ s sym, table !! s = Some sym → scope_ok (scope sym)
  | _ => True
  end.

(** No compilation context is merged over an old one. *)
Definition replaces_nothing (op : ShardOp) (spec : Contexts) : Prop :=
  match op with OpCompilation _ p _ _ _ _ => live_compilations spec !! p = None | _ => True end.

Fixpoint spec_run (ops : list ShardOp) (spec : Contexts) : Contexts :=
  match ops with [] => spec | op :: ops => spec_run ops (spec_step op spec) end.

Fixpoint disciplined (ops : list ShardOp) (spec : Contexts) : Prop :=
  match ops with
  | [] => True
  | op :: ops => replaces_nothing op spec ∧ disciplined ops (spec_step op spec)
  end.

Definition all_indices (ops : list ShardOp) : list FileIndex := concat (brings <$> ops).

Section runs.
Context {E : Type} `{Roaring} `{!RoaringLaws} `{IndexLibs} `{FlatBuffer FbMergedIndex}
  `{!FlatBufferLaws FbMergedIndex}.

Definition shard_step (op : ShardOp) (st : MergedIndex) : Res E MergedIndex :=
  match op with
  | OpCompilation ord p b l f text => merge_compilation ord p b l f text st
  | OpHeader ord p i f text => merge_header ord p i f text st
  | OpRemove p => remove p st
  | OpSymbols ord table => merge_symbols ord table st
  | OpLookup ord offset => let? r := lookup_offset ord st offset collect [] in Ok r.1
  | OpReopen ord =>
    (* [Indexer::save] writes the shards that changed, [load] reads them back *)
    if need_rewrite st then Ok (load (Some (serialize ord st))) else Ok st
  end.

Fixpoint shard_run (ops : list ShardOp) (st : MergedIndex) : Res E MergedIndex :=
  match ops with
  | [] => Ok st
  | op :: ops => let? st := shard_step op st in shard_run ops st
  end.

(** The tables a shard stands for, in memory or as an image. *)
Inductive denotes : MergedIndex → Impl → Prop :=
| in_memory i : denotes (mkMergedIndex None (Some i)) i
| in_image ord i : denotes (from_data (finish (write_root ord i))) i
| in_nothing : denotes empty_index empty_impl.

Definition id_matches (G : list FileIndex) (id : Z) (f : FileIndex) : Prop :=
  ∃ g, canonical G id = Some g ∧ equal_content g f.

Record contexts_match (G : list FileIndex) (i : Impl) (spec : Contexts) : Prop := {
  match_headers : ∀ p, option_Forall2 (λ c fs, Forall2 (id_matches G) (header_ids c) fs)
    (header_contexts i !! p) (live_headers spec !! p);
  match_compilations : ∀ p, option_Forall2 (λ c f, id_matches G (canonical_id c) f)
    (compilation_contexts i !! p) (live_compilations spec !! p);
}.

(** *** References and live contexts *)

Lemma header_refs_pos i p c x :
  header_contexts i !! p = Some c → x ∈ header_ids c → (0 < refs i x)%nat.
Proof.
  intros Hp Hx. unfold refs. pose proof (msum_lookup_le (header_refs x) _ _ _ Hp) as Hle.
  pose proof (occ_pos x _ Hx). unfold header_refs in Hle at 1. lia.
Qed.

Lemma compilation_refs_pos i p c :
  compilation_contexts i !! p = Some c → (0 < refs i (canonical_id c))%nat.
Proof.
  intros Hp. unfold refs.
  pose proof (msum_lookup_le (compilation_refs (canonical_id c)) _ _ _ Hp) as Hle.
  unfold compilation_refs in Hle at 1. rewrite decide_True in Hle by done. lia.
Qed.

Lemma msum_pos `{Countable K} {V} (f : V → nat) (m : gmap K V) :
  (0 < msum f m)%nat → ∃ k v, m !! k = Some v ∧ (0 < f v)%nat.
Proof.
  induction m as [|k v m Hk IH] using map_ind; [rewrite msum_empty; lia|].
  rewrite msum_insert by done. intros Hp. destruct (decide (0 < f v)%nat).
  - exists k, v. by rewrite lookup_insert_eq.
  - destruct IH as (k' & v' & Hk' & Hv'); [lia|]. exists k', v'.
    rewrite lookup_insert_ne; [done|]. congruence.
Qed.

Lemma occ_elem (x : Z) l : (0 < occ x l)%nat → x ∈ l.
Proof.
  unfold occ. destruct (filter (λ y, y = x) l) as [|y k] eqn:Ef; simpl; [lia|]. intros _.
  assert (y ∈ filter (λ y, y = x) l) as Hy by (rewrite Ef; left).
  apply list_elem_of_filter in Hy as [-> ?]. done.
Qed.

Lemma refs_live G i spec x :
  contexts_match G i spec → (0 < refs i x)%nat →
  ∃ g, canonical G x = Some g ∧ live (equal_content g) spec.
Proof.
  intros [Hh Hc] Hx. unfold refs in Hx.
  destruct (decide (0 < msum (header_refs x) (header_contexts i))%nat) as [Hp|Hp].
  - apply msum_pos in Hp as (p & c & Hp & Hocc%occ_elem). specialize (Hh p).
    rewrite Hp in Hh. inversion Hh as [? fs Hall Hl Hr|]; subst.
    apply list_elem_of_lookup in Hocc as [j Hj].
    destruct (Forall2_lookup_l _ _ _ _ _ Hall Hj) as (f & Hf & g & Hg & Hsame).
    exists g. split; [done|]. left. exists p, fs, f. split_and!; [done| |done].
    by eapply list_elem_of_lookup_2.
  - destruct (msum_pos (compilation_refs x) (compilation_contexts i)) as (p & c & Hp' & Hpos);
      [lia|]. specialize (Hc p). rewrite Hp' in Hc.
    inversion Hc as [? f (g & Hg & Hsame) Hl Hr|]; subst. unfold compilation_refs in Hpos.
    case_decide; [subst|lia]. exists g. split; [done|]. right. by exists p, f.
Qed.

Lemma live_refs G i spec (P : FileIndex → Prop) :
  contexts_match G i spec → (∀ f g, equal_content f g → P f ↔ P g) → live P spec →
  ∃ x g, (0 < refs i x)%nat ∧ canonical G x = Some g ∧ P g.
Proof.
  intros [Hh Hc] HP [(p & fs & f & Hp & Hf & HPf)|(p & f & Hp & HPf)].
  - specialize (Hh p). rewrite Hp in Hh. inversion Hh as [c ? Hall Hl Hr|]; subst.
    apply list_elem_of_lookup in Hf as [j Hj].
    destruct (Forall2_lookup_r _ _ _ _ _ Hall Hj) as (x & Hx & g & Hg & Hsame).
    exists x, g. split_and!; [|done|by apply (HP _ _ Hsame)].
    eapply header_refs_pos; [done|by eapply list_elem_of_lookup_2].
  - specialize (Hc p). rewrite Hp in Hc.
    inversion Hc as [c ? (g & Hg & Hsame) Hl Hr|]; subst.
    exists (canonical_id c), g. split_and!; [|done|by apply (HP _ _ Hsame)].
    by eapply compilation_refs_pos.
Qed.

(** *** Filtering removed ids *)

(** The bitmap of the indices with a property. *)
Definition bitmap_of (G : list FileIndex) (P : FileIndex → Prop) (b : Bitmap) : Prop :=
  ∀ x, x ∈ b ↔ ∃ g, canonical G x = Some g ∧ P g.

Lemma live_not_removed n G i spec P b :
  shard_ok n G i → contexts_match G i spec → (∀ f g, equal_content f g → P f ↔ P g) →
  bitmap_of G P b → live P spec → all_removed i b = false.
Proof.
  intros Hok Hm HP Hb Hlive.
  destruct (live_refs G i spec P Hm HP Hlive) as (x & g & Hx & Hg & HPg).
  unfold all_removed. apply andb_false_iff. right. apply bool_decide_eq_false_2. intros Hz.
  assert (x ∈ b) as Hxb by (apply Hb; eauto).
  assert (x ∉ removed i) as Hnr by (intros [_ ?]%(ok_removed _ _ _ _ (ok_counts _ _ _ Hok)); lia).
  set_solver.
Qed.

Lemma not_removed_live n G i spec P b :
  shard_ok n G i → exact i → contexts_match G i spec → (∀ f g, equal_content f g → P f ↔ P g) →
  bitmap_of G P b → b ≠ ∅ → all_removed i b = false → live P spec.
Proof.
  intros Hok Hex Hm HP Hb Hne Hr.
  assert (∃ x, x ∈ b ∧ x ∉ removed i) as (x & Hx & Hnr).
  { unfold all_removed in Hr. apply andb_false_iff in Hr as [Hr|Hr].
    - apply negb_false_iff, bool_decide_eq_true in Hr.
      destruct (set_choose_L b Hne) as [x Hx]. exists x. set_solver.
    - apply bool_decide_eq_false in Hr.
      destruct (set_choose_L _ Hr) as [x Hx]. exists x. set_solver. }
  apply Hb in Hx as (g & Hg & HPg). pose proof (canonical_range _ _ _ Hg) as Hrange.
  rewrite <- (ok_counts_length _ _ (ok_tables _ _ _ Hok)) in Hrange.
  destruct (lookup_lt_is_Some_2 (canonical_ref_counts i) (Z.to_nat x)) as [c Hc]; [lia|].
  destruct (Hex _ _ Hc) as [Ec Er]. rewrite Z2Nat.id in Ec, Er by lia.
  destruct (refs_live G i spec x Hm) as (g' & Hg' & Hl); [destruct (decide (c = 0)); [tauto|lia]|]. simplify_eq.
  destruct Hl as [(p & fs & f & ? & ? & Hs)|(p & f & ? & Hs)]; [left|right];
    [exists p, fs, f|exists p, f]; split_and!; try done; by apply (HP _ _ Hs).
Qed.

(** *** Simulation *)

Definition sim (n : nat) (t : Prop) (G : list FileIndex) (st : MergedIndex) (spec : Contexts) :
    Prop :=
  ∃ i, denotes st i ∧ shard_ok n G i ∧ (length G ≤ n)%nat ∧ contexts_match G i spec ∧
    (t → exact i).

Lemma empty_sim : sim 0 True [] empty_index no_contexts.
Proof.
  exists empty_impl. destruct empty_shard_ok as [Hok Hex].
  split_and!; [constructor|done|done| |done].
  split; intros p; simpl; rewrite !lookup_empty; constructor.
Qed.

Lemma reloaded_ok n G i :
  shard_ok n G i → shard_ok n G (reloaded i) ∧ (exact i → exact (reloaded i)) ∧
  refs (reloaded i) = refs i.
Proof.
  intros [Ht Hc Hs]. assert (refs (reloaded i) = refs i) as Hrefs by (by destruct i).
  assert (∀ j c, canonical_ref_counts (reloaded i) !! j = Some c →
    (j < length G)%nat ∧ c = Z.of_nat (refs i (Z.of_nat j))) as Hlk.
  { intros j c Hj. pose proof (ok_max _ _ Ht) as Hmax. destruct i; simpl in *.
    apply lookup_tabulate in Hj as [? ->]. split; [lia|done]. }
  assert (length (canonical_ref_counts (reloaded i)) = length G) as Hlen.
  { pose proof (ok_max _ _ Ht). destruct i; simpl in *. rewrite length_tabulate. lia. }
  assert (removed (reloaded i) = removed i) as Hrm by (by destruct i).
  pose proof (ok_counts_length _ _ Ht) as Hcl.
  split_and!; [|intros Hex|done].
  - split; [destruct Ht, i; split; simpl in *; try done|split|left; by destruct i].
    + intros x Hx. rewrite Hlen, <- Hcl. apply (ok_known _ _ _ _ Hc). by rewrite Hrefs in Hx.
    + intros j c Hj. destruct (Hlk j c Hj) as [Hlt ->]. rewrite Hrefs.
      destruct (lookup_lt_is_Some_2 (canonical_ref_counts i) j) as [c' Hc']; [lia|].
      pose proof (ok_count _ _ _ _ Hc _ _ Hc'). lia.
    + intros x. rewrite Hrm, Hlen, Hrefs, <- Hcl. apply (ok_removed _ _ _ _ Hc).
  - intros j c Hj. rewrite Hrefs, Hrm. destruct (Hlk j c Hj) as [Hlt ->]. split; [done|].
    destruct (lookup_lt_is_Some_2 (canonical_ref_counts i) j) as [c' Hc']; [lia|].
    destruct (Hex _ _ Hc') as [-> Hiff]. done.
Qed.

(** Loading gives the tables the shard stands for. *)
Lemma load_in_memory_ok n G st i :
  denotes st i → shard_ok n G i → Z.of_nat n < two32 → (length G ≤ n)%nat →
  ∃ i', load_in_memory (E := E) st = Ok (mkMergedIndex None (Some i')) ∧ shard_ok n G i' ∧
    (exact i → exact i') ∧ header_contexts i' = header_contexts i ∧
    compilation_contexts i' = compilation_contexts i.
Proof.
  intros Hd Hok Hn HG. destruct Hd as [i|ord i|].
  - exists i. done.
  - exists (reloaded i). unfold load_in_memory; simpl. rewrite get_root_finish. simpl.
    rewrite (load_write_root n G) by done. destruct (reloaded_ok n G i Hok) as (? & ? & _).
    split_and!; try done; by destruct i.
  - exists empty_impl. done.
Qed.

Lemma modify_ok n G st i f :
  denotes st i → shard_ok n G i → Z.of_nat n < two32 → (length G ≤ n)%nat →
  ∃ i', shard_ok n G i' ∧ (exact i → exact i') ∧ header_contexts i' = header_contexts i ∧
    compilation_contexts i' = compilation_contexts i ∧
    ∀ i2, f i' = Ok i2 → modify (E := E) f st = Ok (mkMergedIndex None (Some i2)).
Proof.
  intros Hd Hok Hn HG.
  destruct (load_in_memory_ok n G st i Hd Hok Hn HG) as (i' & Hl & ? & ? & ? & ?).
  exists i'. split_and!; try done. intros i2 Hf. unfold modify. rewrite Hl. simpl.
  by rewrite Hf.
Qed.

Lemma contexts_match_eq G i i' spec :
  header_contexts i' = header_contexts i → compilation_contexts i' = compilation_contexts i →
  contexts_match G i spec → contexts_match G i' spec.
Proof. intros Hh Hc [Hmh Hmc]. split; intros p; rewrite ?Hh, ?Hc; done. Qed.

Lemma id_matches_snoc G f id g : id_matches G id g → id_matches (G ++ [f]) id g.
Proof.
  intros (h & Hh & Hs). exists h. split; [|done]. rewrite canonical_snoc.
  apply canonical_range in Hh as ?. rewrite decide_False by lia. done.
Qed.

Lemma contexts_match_snoc G f i spec :
  contexts_match G i spec → contexts_match (G ++ [f]) i spec.
Proof.
  intros [Hh Hc]. split; intros p; [specialize (Hh p)|specialize (Hc p)].
  - destruct Hh as [c fs Hall|]; constructor. eapply Forall2_impl; [done|].
    intros. by apply id_matches_snoc.
  - destruct Hc as [c g Hg|]; constructor. by apply id_matches_snoc.
Qed.

(** What a merge does to the abstract state. *)
Definition spec_add (c : NewContext) (f : FileIndex) (spec : Contexts) : Contexts :=
  match c with
  | NewCompilation p _ _ => mkContexts (live_headers spec) (<[p := f]> (live_compilations spec))
  | NewHeader p _ =>
    mkContexts (<[p := get_or [] (live_headers spec) p ++ [f]]> (live_headers spec))
      (live_compilations spec)
  end.

Lemma contexts_match_add G c id f i i' spec :
  contexts_match G i spec → id_matches G id f →
  header_contexts i' = header_contexts (add_context c id i) →
  compilation_contexts i' = compilation_contexts (add_context c id i) →
  contexts_match G i' (spec_add c f spec).
Proof.
  intros [Hh Hc] Hid Eh Ec. split; intros p; rewrite ?Eh, ?Ec; clear Eh Ec.
  - specialize (Hh p). destruct c as [q b l|q j], i; simpl in *; [done|].
    unfold add_header. destruct (decide (q = p)) as [->|Hne];
      [rewrite !lookup_insert_eq; constructor|by rewrite !lookup_insert_ne].
    unfold get_or, header_ids. simpl. rewrite fmap_app.
    apply Forall2_app; [|by repeat constructor].
    inversion Hh as [c fs Hall E1 E2|E1 E2]; simpl; [done|constructor].
  - specialize (Hc p). destruct c as [q b l|q j], i; simpl in *; [|done].
    unfold add_compilation. destruct (decide (q = p)) as [->|Hne];
      [rewrite !lookup_insert_eq; by constructor|by rewrite !lookup_insert_ne].
Qed.

Lemma contexts_match_remove G i i' p spec :
  contexts_match G i spec → header_contexts i' = delete p (header_contexts i) →
  compilation_contexts i' = delete p (compilation_contexts i) →
  contexts_match G i' (spec_step (OpRemove p) spec).
Proof.
  intros [Hh Hc] Eh Ec. split; intros q; rewrite ?Eh, ?Ec; simpl;
    (destruct (decide (p = q)) as [->|Hne];
     [rewrite !lookup_delete_eq; constructor|by rewrite !lookup_delete_ne]).
Qed.

(** What merging does to the text before it merges. *)
Definition text_only (prep : Impl → Impl) : Prop :=
  ∀ i, prep i = i ∨ ∃ text, prep i = set_text text i.

Lemma text_only_ok prep n G i :
  text_only prep → shard_ok n G i →
  shard_ok n G (prep i) ∧ (exact i → exact (prep i)) ∧
  header_contexts (prep i) = header_contexts i ∧
  compilation_contexts (prep i) = compilation_contexts i.
Proof.
  intros Hp Hok. destruct (Hp i) as [->|[text ->]]; [done|].
  split; [by apply set_text_ok|]. by destruct i.
Qed.

Lemma fresh_context_spec G i c spec :
  contexts_match G i spec →
  fresh_context c i ↔
  match c with NewCompilation p _ _ => live_compilations spec !! p = None | _ => True end.
Proof.
  intros [_ Hc]. destruct c as [p b l|p j]; simpl; [|done]. specialize (Hc p).
  by destruct Hc.
Qed.

Lemma merge_sim n t G st spec ord f c prep :
  sim n t G st spec → Z.of_nat n + 1 < two32 → distinguishes (f :: G) → text_only prep →
  ∃ st' G',
    modify (E := E) (λ this,
      let? this := impl_merge ord f c (prep this) in Ok (set_cache [] this)) st = Ok st' ∧
    sim (S n) (t ∧ match c with
                   | NewCompilation p _ _ => live_compilations spec !! p = None
                   | _ => True
                   end) G' st' (spec_add c f spec) ∧
    (G' = G ∨ G' = G ++ [f]).
Proof.
  intros (i & Hd & Hok & HG & Hm & Hex) Hn Hdist Hprep.
  destruct (modify_ok n G st i (λ this,
    let? this := impl_merge ord f c (prep this) in Ok (set_cache [] this)) Hd Hok ltac:(lia) HG)
    as (i1 & Hok1 & Hex1 & Eh1 & Ec1 & Hmod).
  destruct (text_only_ok prep n G i1 Hprep Hok1) as (Hok2 & Hex2 & Eh2 & Ec2).
  assert (contexts_match G (prep i1) spec) as Hm2
    by (apply (contexts_match_eq G i); congruence).
  destruct (impl_merge_ok (E := E) n G ord f c (prep i1) Hok2 Hn HG Hdist)
    as (i2 & id & g & Hmerge & Hrest).
  set (G' := if decide _ then G ++ [f] else G) in Hrest.
  destruct Hrest as (Hok' & Hg & Hsame & Eh & Ec & Hex').
  exists (mkMergedIndex None (Some (set_cache [] i2))), G'.
  split; [apply Hmod; by rewrite Hmerge|].
  assert (contexts_match G' (prep i1) spec ∧ (length G' ≤ S n)%nat ∧ (G' = G ∨ G' = G ++ [f]))
    as (HmG & Hlen & HG').
  { unfold G'. case_decide; [|split_and!; [done|lia|by left]].
    split_and!; [by apply contexts_match_snoc|rewrite length_app; simpl; lia|by right]. }
  split; [|done]. exists (set_cache [] i2). split_and!; [constructor|done|done| |].
  - apply (contexts_match_add G' c id f (prep i1)); [done|by exists g|by destruct i2..].
  - intros [Ht Hf]. apply Hex'; [auto|]. by apply (fresh_context_spec G (prep i1) c spec).
Qed.

Definition shard_disciplined (t : Prop) (op : ShardOp) (spec : Contexts) : Prop :=
  t ∧ replaces_nothing op spec.

Lemma lookup_state n G st i ord offset :
  denotes st i → shard_ok n G i →
  ∃ st' i' l, lookup_offset (E := E) ord st offset collect [] = Ok (st', l) ∧
    denotes st' i' ∧ shard_ok n G i' ∧ (exact i → exact i') ∧
    header_contexts i' = header_contexts i ∧ compilation_contexts i' = compilation_contexts i.
Proof.
  intros Hd Hok. destruct Hd as [i|ord' i|]; unfold lookup_offset; simpl.
  - eexists _, (fill_cache ord i), _. split; [done|]. split; [constructor|].
    split; [by apply fill_cache_ok|].
    unfold fill_cache. case_decide; [by destruct i|done].
  - rewrite get_root_finish. simpl. eexists _, i, _. split; [done|]. by split; [constructor|].
  - eexists _, empty_impl, _. split; [done|]. by split; [constructor|].
Qed.

Lemma shard_ok_S n G i : shard_ok n G i → shard_ok (S n) G i.
Proof. intros [? ? ?]. split; try done. eapply counts_ok_le; [|done]. lia. Qed.

(** A step that changes no context. *)
Lemma keep_sim n t G st' spec i i' :
  shard_ok n G i' → (length G ≤ n)%nat → contexts_match G i spec → denotes st' i' →
  (t → exact i') → header_contexts i' = header_contexts i →
  compilation_contexts i' = compilation_contexts i → sim (S n) (t ∧ True) G st' spec.
Proof.
  intros Hok HG Hm Hd Hex Eh Ec. exists i'.
  split_and!; [done|by apply shard_ok_S|lia|by apply (contexts_match_eq G i)|by intros [Ht _]; auto].
Qed.

Lemma remove_sim n t G st spec p :
  sim n t G st spec → Z.of_nat n + 1 < two32 →
  ∃ st', remove (E := E) p st = Ok st' ∧ sim (S n) (t ∧ True) G st' (spec_step (OpRemove p) spec).
Proof.
  intros (i & Hd & Hok & HG & Hm & Hex) Hn.
  destruct (modify_ok n G st i (impl_remove p) Hd Hok ltac:(lia) HG)
    as (i1 & Hok1 & Hex1 & Eh1 & Ec1 & Hmod).
  destruct (impl_remove_ok (E := E) n G p i1 Hok1 ltac:(lia))
    as (i2 & Hr & Hok2 & Eh2 & Ec2 & Hex2).
  exists (mkMergedIndex None (Some i2)). split; [by apply Hmod|].
  exists i2. split_and!; [constructor|by apply shard_ok_S|lia| |].
  - apply (contexts_match_remove G i i2); congruence.
  - intros [Ht _]. auto.
Qed.

Lemma step_sim n t G st spec op :
  sim n t G st spec → Z.of_nat n + 1 < two32 → distinguishes (brings op ++ G) →
  symbols_named op →
  ∃ st' G', shard_step op st = Ok st' ∧
    sim (S n) (shard_disciplined t op spec) G' st' (spec_step op spec) ∧
    (∀ g, g ∈ G' → g ∈ brings op ++ G).
Proof.
  intros Hsim Hn Hdist Hnamed. unfold shard_disciplined.
  destruct op as [ord p b l f text|ord p j f text|p|ord table|ord offset|ord]; simpl in *.
  - destruct (merge_sim n t G st spec ord f (NewCompilation p b l) (set_text text))
      as (st' & G' & Hm & Hs & HG'); [done..|by intros i; right; eexists|].
    exists st', G'. split_and!; [done|done|]. destruct HG' as [->| ->]; set_solver.
  - destruct (merge_sim n t G st spec ord f (NewHeader p j)
      (λ this, if decide (content this = [] ∧ text ≠ []) then set_text text this else this))
      as (st' & G' & Hm & Hs & HG'); [done..| |].
    { intros i. case_decide; [right; by eexists|by left]. }
    exists st', G'. split_and!; [done|done|]. destruct HG' as [->| ->]; set_solver.
  - destruct (remove_sim n t G st spec p Hsim Hn) as (st' & Hr & Hs). by exists st', G.
  - destruct Hsim as (i & Hd & Hok & HG & Hm & Hex).
    destruct (modify_ok n G st i (λ this, Ok (impl_merge_symbols ord table this)) Hd Hok
      ltac:(lia) HG) as (i1 & Hok1 & Hex1 & Eh1 & Ec1 & Hmod).
    eexists _, G. split_and!; [by apply Hmod| |done].
    apply (keep_sim n t G _ spec i (impl_merge_symbols ord table i1));
      [by apply merge_symbols_ok|done|done|constructor| |by destruct i1..].
    intros Ht. destruct i1. by apply Hex1, Hex.
  - destruct Hsim as (i & Hd & Hok & HG & Hm & Hex).
    destruct (lookup_state n G st i ord offset Hd Hok)
      as (st' & i' & l & -> & Hd' & Hok' & Hex' & Eh & Ec).
    exists st', G. split_and!; [done| |done]. apply (keep_sim n t G st' spec i i'); auto.
  - destruct Hsim as (i & Hd & Hok & HG & Hm & Hex).
    exists (if need_rewrite st then load (Some (serialize ord st)) else st), G.
    split_and!; [by destruct (need_rewrite st)| |done].
    apply (keep_sim n t G _ spec i i); try done. destruct Hd; simpl; constructor.
Qed.

Lemma sim_impl n (t t' : Prop) G st spec : (t' → t) → sim n t G st spec → sim n t' G st spec.
Proof. intros Ht (i & ? & ? & ? & ? & ?). exists i. split_and!; auto. Qed.

Lemma run_sim ops n t G st spec :
  sim n t G st spec → Z.of_nat (n + length ops) < two32 →
  distinguishes (all_indices ops ++ G) → Forall symbols_named ops →
  ∃ st' G', shard_run ops st = Ok st' ∧
    sim (n + length ops) (t ∧ disciplined ops spec) G' st' (spec_run ops spec) ∧
    (∀ g, g ∈ G' → g ∈ all_indices ops ++ G).
Proof.
  revert n t G st spec. induction ops as [|op ops IH]; intros n t G st spec Hs Hn Hd Hnm.
  { exists st, G. rewrite Nat.add_0_r. split_and!; [done| |done].
    by apply (sim_impl _ t); [intros []|]. }
  apply Forall_cons in Hnm as [Hop Hnm]. simpl in Hn.
  assert (∀ g, g ∈ brings op ++ G → g ∈ all_indices (op :: ops) ++ G) as Hsub.
  { intros g. unfold all_indices. simpl. rewrite !elem_of_app. tauto. }
  destruct (step_sim n t G st spec op Hs) as (st1 & G1 & Hst & Hs1 & HG1);
    [lia| |done|].
  { intros f g o o' Hf Hg. apply Hd; by apply Hsub. }
  destruct (IH (S n) (shard_disciplined t op spec) G1 st1 (spec_step op spec) Hs1)
    as (st2 & G2 & Hrun & Hs2 & HG2); [lia| |done|].
  { intros f g o o' Hf Hg. apply Hd; [clear Hg|clear Hf];
      unfold all_indices in *; simpl; rewrite !elem_of_app in *;
      match goal with H : _ ∨ _ |- _ => destruct H as [?|H%HG1] end; rewrite ?elem_of_app in *; tauto. }
  exists st2, G2. cbn [shard_run]. rewrite Hst. cbn [Res_bind]. split_and!; [done| |].
  - cbn [length]. rewrite <- Nat.add_succ_comm. eapply sim_impl; [|done].
    unfold shard_disciplined. simpl. tauto.
  - intros g Hg%HG2. unfold all_indices. simpl. rewrite !elem_of_app in *.
    destruct Hg as [?|Hg%HG1]; rewrite ?elem_of_app in *; tauto.
Qed.

(** *** Lookups by offset *)

Definition table (i : Impl) : list Occurrence :=
  sort_by occurrence_key (map_to_list (occurrences i)).*1.

Lemma elem_of_table i o : o ∈ table i ↔ is_Some (occurrences i !! o).
Proof.
  unfold table. rewrite elem_of_sort_by, list_elem_of_fmap. split.
  - intros ([o' b] & -> & Hin%elem_of_map_to_list). by exists b.
  - intros [b Hb]. exists (o, b). split; [done|]. by apply elem_of_map_to_list.
Qed.

Definition all_occurrences (G : list FileIndex) : list Occurrence :=
  concat (f_occurrences <$> G).

Lemma table_merged n G i o :
  shard_ok n G i → o ∈ table i → ∃ f, f ∈ G ∧ o ∈ f_occurrences f.
Proof.
  intros [Ht _ _] [b Hb]%elem_of_table.
  destruct (set_choose_L b (proj1 (ok_no_empty _ _ Ht) _ _ Hb)) as [x Hx].
  destruct (proj1 (ok_occurrences _ _ Ht o x)) as (f & Hf & Ho);
    [unfold get_or; by rewrite Hb|].
  exists f. split; [by eapply canonical_elem|done].
Qed.

Lemma table_in_order n G i :
  shard_ok n G i → token_ranges (all_occurrences G) → ranges_in_order (table i).
Proof.
  intros Hok Htok. apply tokens_in_order; [apply sort_by_sorted|].
  assert (∀ o, o ∈ table i → o ∈ all_occurrences G) as Hall.
  { intros o Ho. destruct (table_merged n G i o Hok Ho) as (f & Hf & Hof).
    apply elem_of_concat. exists (f_occurrences f). split; [|done]. by apply list_elem_of_fmap_2. }
  intros x y Hx Hy. apply Htok; by apply Hall.
Qed.

Lemma impl_scan_visit {S} i offset (callback : Visitor Occurrence S) it s :
  impl_scan i offset callback it s =
  visit callback (filter (λ o, hidden i o = false)
                    (prefix_while (λ o, contains (o_range o) offset) it)) s.
Proof.
  revert s. induction it as [|o it IH]; intros s; [done|]. cbn [impl_scan prefix_while].
  destruct (contains (o_range o) offset); [|done]. rewrite filter_cons.
  destruct (hidden i o) eqn:Eh; [rewrite decide_False by done; apply IH|].
  rewrite decide_True by done. cbn [visit]. destruct (callback o s) as [s' []]; [apply IH|done].
Qed.

Lemma StronglySorted_filter {A} (R : relation A) (P : A → Prop) `{∀ x, Decision (P x)} l :
  StronglySorted R l → StronglySorted R (filter P l).
Proof.
  induction 1 as [|a l Hs IH Ha]; [constructor|]. rewrite filter_cons. case_decide; [|done].
  constructor; [done|]. apply Forall_forall. intros x [_ Hx]%list_elem_of_filter.
  rewrite Forall_forall in Ha. by apply Ha.
Qed.

Lemma StronglySorted_fmap {A B} (R : relation B) (f : A → B) l :
  StronglySorted (λ x y, R (f x) (f y)) l → StronglySorted R (f <$> l).
Proof.
  induction 1 as [|a l Hs IH Ha]; [constructor|]. simpl. constructor; [done|].
  by apply Forall_fmap.
Qed.

(** The table of an image is the table in memory. *)
Lemma image_table ord i : oe_occurrence <$> fb_occurrences (write_root ord i) = table i.
Proof.
  apply (StronglySorted_unique_strong (key_le occurrence_key)).
  - intros x y _ _ Hxy Hyx. by apply (inj occurrence_key), lex_le_antisym.
  - apply StronglySorted_fmap. apply (sort_by_sorted (λ e, occurrence_key (oe_occurrence e))).
  - apply sort_by_sorted.
  - simpl. rewrite sort_by_perm. unfold table. rewrite sort_by_perm, <- list_fmap_compose.
    by rewrite entries_perm.
Qed.

(** What the search and the scan of a sorted table come across. *)
Definition found (offset : Z) (l : list Occurrence) : list Occurrence :=
  prefix_while (λ o, contains (o_range o) offset) (drop (lower_bound (ends_before offset) l) l).

Lemma elem_of_found offset l o : o ∈ found offset l → o ∈ around offset l.
Proof.
  unfold found. intros Ho. apply list_elem_of_filter.
  assert (∀ k, o ∈ prefix_while (λ o, contains (o_range o) offset) k → contains (o_range o) offset ∧ o ∈ k) as Hk.
  { induction k as [|x k IH]; cbn [prefix_while]; [by intros ?%elem_of_nil|].
    destruct (contains (o_range x) offset) eqn:Ec; [|by intros ?%elem_of_nil].
    intros [-> |?]%elem_of_cons; [split; [by rewrite Ec|by left]|destruct IH; [done|split; [done|by right]]]. }
  destruct (Hk _ Ho) as [Hc Hin]. split; [done|]. rewrite <- (take_drop (lower_bound (ends_before offset) l) l).
  apply elem_of_app. by right.
Qed.

Lemma found_sorted (R : relation Occurrence) offset l : StronglySorted R l → StronglySorted R (found offset l).
Proof.
  intros Hs. unfold found. assert (StronglySorted R (drop (lower_bound (ends_before offset) l) l)) as Hd.
  { rewrite <- (take_drop (lower_bound (ends_before offset) l) l) in Hs. by apply StronglySorted_app in Hs as (_ & _ & ?). }
  clear Hs. induction Hd as [|x k Hk IH Hx]; cbn [prefix_while]; [constructor|].
  destruct (contains _ _); [|constructor]. constructor; [done|]. rewrite Forall_forall in *. intros y Hy. apply Hx.
  clear -Hy. induction k as [|z k IH]; cbn [prefix_while] in Hy; [done|].
  destruct (contains _ _); [|by apply elem_of_nil in Hy]. apply elem_of_cons in Hy as [-> |?]; [by left|right; by apply IH].
Qed.

(** What a lookup by offset shows: what it finds in the table, in memory without what is
    removed. *)
Lemma lookup_offset_finds {S} n G st i ord offset (callback : Visitor Occurrence S) s :
  denotes st i → shard_ok n G i →
  ∃ st', lookup_offset (E := E) ord st offset callback s =
    Ok (st', visit callback
               (if need_rewrite st then filter (λ o, hidden i o = false) (found offset (table i))
                else found offset (table i)) s).
Proof.
  intros Hd Hok. unfold found. destruct Hd as [i|ord' i|]; unfold lookup_offset; simpl.
  - eexists. do 2 f_equal. rewrite impl_scan_visit.
    assert (occurrences_cache (fill_cache ord i) = table i) as ->.
    { unfold fill_cache. destruct (decide (occurrences_cache i = [])) as [Ez|Ez].
      - destruct i; simpl. unfold table, sorted_occurrences; simpl. apply (sort_by_unique _).
        by rewrite entries_perm.
      - by destruct (ok_sorted _ _ _ Hok). }
    assert (∀ o, hidden (fill_cache ord i) o = hidden i o) as Hh.
    { intros o. unfold fill_cache. case_decide; [by destruct i|done]. }
    f_equal. apply list_filter_iff. intros o. by rewrite Hh.
  - rewrite get_root_finish. simpl. eexists. do 2 f_equal.
    pose proof (image_table ord' i) as Himg. simpl in Himg. by rewrite Himg, file_scan_visit.
  - by eexists.
Qed.

(** With token ranges it finds the table around the offset. *)
Lemma lookup_offset_shows {S} n G st i ord offset (callback : Visitor Occurrence S) s :
  denotes st i → shard_ok n G i → token_ranges (all_occurrences G) →
  ∃ st', lookup_offset (E := E) ord st offset callback s =
    Ok (st', visit callback
               (if need_rewrite st then filter (λ o, hidden i o = false) (around offset (table i))
                else around offset (table i)) s).
Proof.
  intros Hd Hok Htok. destruct (lookup_offset_finds n G st i ord offset callback s Hd Hok) as [st' ->].
  exists st'. unfold found. by rewrite search_around by (by eapply table_in_order).
Qed.
End runs.
