(* ===== verification/IndexLibraries.v ===== *)
(** * Concrete libraries for the index

    Instances of the classes of [MergedIndex] that satisfy their laws: bitmaps and
    tables are written as the digits of a number that identifies them, and the
    hash keeps its input.  They show that the assumptions made on the libraries can
    be met, and let examples be evaluated. *)
From S2P Require Import IndexData MergedIndex.
Local Open Scope Z_scope.

(** ** Numbers as bytes *)

Fixpoint digits (p : positive) : bytes :=
  match p with
  | xH => []
  | xO p => "0"%char :: digits p
  | xI p => "1"%char :: digits p
  end.

Fixpoint of_digits (l : bytes) : positive :=
  match l with
  | [] => xH
  | c :: l => if decide (c = "0"%char) then xO (of_digits l) else xI (of_digits l)
  end.

Lemma of_digits_digits p : of_digits (digits p) = p.
Proof. induction p; simpl; by f_equal. Qed.

Definition image `{Countable T} (t : T) : bytes := "#"%char :: digits (encode t).
Definition of_image `{Countable T} (l : bytes) : option T :=
  match l with
  | c :: l => if decide (c = "#"%char) then decode (of_digits l) else None
  | [] => None
  end.

Lemma of_image_image `{Countable T} (t : T) : of_image (image t) = Some t.
Proof. unfold of_image, image. by rewrite decide_True, of_digits_digits, decode_encode. Qed.

(** ** Tables *)

Global Instance IncludeLocation_countable : Countable IncludeLocation :=
  inj_countable' (λ l, (location_path_id l, location_line l, location_include l))
    (λ t, mkIncludeLocation t.1.1 t.1.2 t.2) ltac:(by intros []).
Global Instance IncludeContext_countable : Countable IncludeContext :=
  inj_countable' (λ c, (include_id c, include_canonical_id c))
    (λ t, mkIncludeContext t.1 t.2) ltac:(by intros []).
Global Instance CacheEntry_eq_dec : EqDecision CacheEntry.
Proof. solve_decision. Defined.
Global Instance CacheEntry_countable : Countable CacheEntry :=
  inj_countable' (λ e, (ce_sha256 e, ce_canonical_id e)) (λ t, mkCacheEntry t.1 t.2)
    ltac:(by intros []).
Global Instance HeaderContextEntry_eq_dec : EqDecision HeaderContextEntry.
Proof. solve_decision. Defined.
Global Instance HeaderContextEntry_countable : Countable HeaderContextEntry :=
  inj_countable' (λ e, (he_path_id e, he_version e, he_includes e))
    (λ t, mkHeaderContextEntry t.1.1 t.1.2 t.2) ltac:(by intros []).
Global Instance CompilationContextEntry_eq_dec : EqDecision CompilationContextEntry.
Proof. solve_decision. Defined.
Global Instance CompilationContextEntry_countable : Countable CompilationContextEntry :=
  inj_countable' (λ e, (co_path_id e, co_version e, co_canonical_id e, co_build_at e,
                        co_include_locations e))
    (λ t, mkCompilationContextEntry t.1.1.1.1 t.1.1.1.2 t.1.1.2 t.1.2 t.2) ltac:(by intros []).
Global Instance OccurrenceEntry_eq_dec : EqDecision OccurrenceEntry.
Proof. solve_decision. Defined.
Global Instance OccurrenceEntry_countable : Countable OccurrenceEntry :=
  inj_countable' (λ e, (oe_occurrence e, oe_context e)) (λ t, mkOccurrenceEntry t.1 t.2)
    ltac:(by intros []).
Global Instance RelationEntry_eq_dec : EqDecision RelationEntry.
Proof. solve_decision. Defined.
Global Instance RelationEntry_countable : Countable RelationEntry :=
  inj_countable' (λ e, (re_relation e, re_context e)) (λ t, mkRelationEntry t.1 t.2)
    ltac:(by intros []).
Global Instance SymbolRelationsEntry_eq_dec : EqDecision SymbolRelationsEntry.
Proof. solve_decision. Defined.
Global Instance SymbolRelationsEntry_countable : Countable SymbolRelationsEntry :=
  inj_countable' (λ e, (sr_symbol e, sr_relations e)) (λ t, mkSymbolRelationsEntry t.1 t.2)
    ltac:(by intros []).
Global Instance FbSymbol_eq_dec : EqDecision FbSymbol.
Proof. solve_decision. Defined.
Global Instance FbSymbol_countable : Countable FbSymbol :=
  inj_countable' (λ e, (fs_name e, fs_kind e, fs_refs e, fs_scope e))
    (λ t, mkFbSymbol t.1.1.1 t.1.1.2 t.1.2 t.2) ltac:(by intros []).
Global Instance SymbolEntry_eq_dec : EqDecision SymbolEntry.
Proof. solve_decision. Defined.
Global Instance SymbolEntry_countable : Countable SymbolEntry :=
  inj_countable' (λ e, (se_symbol_id e, se_symbol e)) (λ t, mkSymbolEntry t.1 t.2)
    ltac:(by intros []).
Global Instance FbMergedIndex_eq_dec : EqDecision FbMergedIndex.
Proof. solve_decision. Defined.
Global Instance FbMergedIndex_countable : Countable FbMergedIndex :=
  inj_countable' (λ e, ((fb_max_canonical_id e, fb_canonical_cache e, fb_header_contexts e,
                         fb_compilation_contexts e, fb_occurrences e),
                        (fb_relations e, fb_removed e, fb_content e, fb_line_starts e,
                         fb_symbols e)))
    (λ t, let '((a, b, c, d, e), (f, g, h, i, j)) := t in mkFbMergedIndex a b c d e f g h i j)
    ltac:(by intros []).

(** ** Instances *)

#[export] Instance demo_roaring : Roaring :=
  {| bitmap_write := image; read_bitmap l := default ∅ (of_image l) |}.

#[export] Instance demo_roaring_laws : RoaringLaws.
Proof.
  split; [intros b _|done]. change (default ∅ (of_image (image b)) = b). by rewrite of_image_image.
Qed.

#[export] Instance demo_flatbuffer `{Countable T} : FlatBuffer T :=
  {| finish := image; get_root := of_image |}.

#[export] Instance demo_flatbuffer_laws `{Countable T} : FlatBufferLaws T.
Proof. intros t. apply of_image_image. Qed.

#[export] Instance demo_libs : IndexLibs :=
  {| sha256 input := input;
     build_line_starts text :=
       0 :: ((λ p : nat * ascii, Z.of_nat p.1 + 1)
               <$> filter (λ p : nat * ascii, p.2 = "010"%char) (imap pair text)) |}.
