(* ===== verification/MergedTheorems.v ===== *)
(** * What a shard promises

    In any sequence of merges, removals, lookups, saves and loads a shard has no
    undefined behaviour, and its lookups report every entry of every context it
    has; in memory they report nothing else as long as no compilation context is
    merged over an old one.  Saving and loading gives the same shard back.  The
    last lemmas show the cases in which entries of no context are reported. *)
From S2P Require Import IndexData MergedIndex MergedInvariant MergedImage MergedSimulation IndexLibraries.
Local Open Scope Z_scope.
Local Open Scope cpp_scope.

Section queries.
Context {E : Type} `{Roaring} `{!RoaringLaws} `{IndexLibs} `{FlatBuffer FbMergedIndex}
  `{!FlatBufferLaws FbMergedIndex}.

(** ** Lookups by symbol *)

Lemma impl_scan_relations_visit {S} i kind (callback : Visitor Relation S) l s :
  impl_scan_relations i kind callback l s =
  visit callback (filter (λ e : Relation * Bitmap,
                    r_kind e.1 = kind ∧ all_removed i e.2 = false) l).*1 s.
Proof.
  revert s. induction l as [|[r b] l IH]; intros s; [done|]. cbn [impl_scan_relations].
  rewrite kind_and_spec, filter_cons. simpl. case_bool_decide as Ek; simpl.
  - destruct (all_removed i b) eqn:Er.
    + rewrite decide_False by (intros [_ ?]; done). apply IH.
    + rewrite decide_True by done. cbn [fmap list_fmap visit fst].
      destruct (callback r s) as [s' []]; [apply IH|done].
  - rewrite decide_False by tauto. apply IH.
Qed.

Lemma NoDup_filter_fst {A B} (P : A * B → Prop) `{∀ x, Decision (P x)} (l : list (A * B)) :
  NoDup l.*1 → NoDup (filter P l).*1.
Proof.
  induction l as [|[a b] l IH]; intros Hnd; [constructor|].
  cbn [fmap list_fmap fst] in Hnd. apply NoDup_cons in Hnd as [Ha Hnd]. rewrite filter_cons.
  case_decide; [|by apply IH]. cbn [fmap list_fmap fst].
  apply NoDup_cons. split; [|by apply IH]. rewrite list_elem_of_fmap.
  intros ([a' b'] & -> & [_ Hin]%list_elem_of_filter). apply Ha, list_elem_of_fmap. by exists (a', b').
Qed.

(** A search by key in a table sorted by unique keys. *)
Lemma lower_bound_key {A} (key : A → Z) (l : list A) k :
  StronglySorted (key_le (λ a, [key a])) l → NoDup (key <$> l) →
  ∀ e, e ∈ l ∧ key e = k ↔
    l !! lower_bound (λ a, key a <? k) l = Some e ∧ key e = k.
Proof.
  intros Hs Hnd e.
  assert (∀ i j x y, (i < j)%nat → l !! i = Some x → l !! j = Some y → key x ≤ key y) as Hle.
  { intros i j x y Hij Hx Hy. pose proof (StronglySorted_lookup _ _ _ _ _ _ Hs Hij Hx Hy) as Hk.
    unfold key_le in Hk; simpl in Hk. rewrite Is_true_true in Hk. lia. }
  destruct (lower_bound_spec (λ a, key a <? k) l) as (Hlen & Hlo & Hhi).
  { intros i j x y Hij Hx Hy. rewrite !Is_true_true.
    assert (i = j ∨ i < j)%nat as [->|Hlt] by lia; [simplify_eq; lia|].
    specialize (Hle i j x y Hlt Hx Hy). lia. }
  set (n := lower_bound _ l) in *. split; [|intros [He Hk]; split; [|done]; by eapply list_elem_of_lookup_2].
  intros [[j Hj]%list_elem_of_lookup Hk]. split; [|done].
  assert (n ≤ j)%nat as Hnj.
  { destruct (decide (n ≤ j)%nat); [done|]. exfalso.
    assert (key e <? k) as Hlt; [|rewrite Is_true_true in Hlt; lia].
    apply (Hlo e). apply (list_elem_of_lookup_2 _ j). rewrite lookup_take_lt; [done|lia]. }
  destruct (decide (n = j)) as [->|Hne]; [done|].
  destruct (lookup_lt_is_Some_2 l n) as [e0 He0]; [apply lookup_lt_Some in Hj; lia|].
  assert (key e0 = k) as Hk0.
  { specialize (Hle n j e0 e ltac:(lia) He0 Hj).
    assert (¬ (key e0 <? k)) as Hge; [|rewrite Is_true_true in Hge; lia].
    apply (Hhi e0). apply (list_elem_of_lookup_2 _ 0). by rewrite lookup_drop, Nat.add_0_r. }
  exfalso. apply Hne. apply (NoDup_lookup (key <$> l) n j k Hnd);
    rewrite list_lookup_fmap; [by rewrite He0; simpl; f_equal|by rewrite Hj; simpl; f_equal].
Qed.

Definition shown_relation (st : MergedIndex) (i : Impl) (s : Z) (r : Relation) : Prop :=
  ∃ t b, relations i !! s = Some t ∧ t !! r = Some b ∧
    (need_rewrite st → all_removed i b = false).

Lemma lookup_symbol_shows {S} n G st i ord s kind (callback : Visitor Relation S) x :
  denotes st i → shard_ok n G i →
  ∃ l, lookup_symbol (E := E) ord st s kind callback x = Ok (visit callback l x) ∧ NoDup l ∧
    ∀ r, r ∈ l ↔ r_kind r = kind ∧ shown_relation st i s r.
Proof.
  intros Hd Hok. destruct Hd as [i|ord' i|]; unfold lookup_symbol, shown_relation; simpl.
  - destruct (relations i !! s) as [t|] eqn:Es; [|exists []; split_and!; [done|constructor|set_solver]].
    eexists. rewrite impl_scan_relations_visit. split; [done|]. split.
    + apply NoDup_filter_fst, NoDup_entries_fst.
    + intros r. rewrite list_elem_of_fmap. split.
      * intros ([r' b] & -> & [[Hk Hr] Hin%elem_of_entries]%list_elem_of_filter). eauto 8.
      * intros (Hk & t' & b & [= <-] & Hb & Hr). exists (r, b). split; [done|].
        apply list_elem_of_filter. split; [split; [done|by apply Hr]|by apply elem_of_entries].
  - rewrite get_root_finish. simpl.
    set (l := sort_by (λ e, [sr_symbol e]) (symbol_relations_entry ord' <$> entries ord' (relations i))).
    assert (NoDup (sr_symbol <$> l)) as Hnd.
    { unfold l. rewrite sort_by_perm, <- list_fmap_compose. apply (NoDup_entries_fst ord'). }
    pose proof (lower_bound_key sr_symbol l s (sort_by_sorted _ _) Hnd) as Hlb.
    assert (∀ e, e ∈ l ↔ ∃ s' t, e = symbol_relations_entry ord' (s', t) ∧ relations i !! s' = Some t)
      as Hl.
    { intros e. unfold l. rewrite elem_of_sort_by, list_elem_of_fmap. split.
      - intros ([s' t] & -> & Hin%elem_of_entries). eauto.
      - intros (s' & t & -> & Ht). exists (s', t). split; [done|]. by apply elem_of_entries. }
    destruct (relations i !! s) as [t|] eqn:Es.
    + destruct (proj1 (Hlb (symbol_relations_entry ord' (s, t)))) as [-> _];
        [split; [apply Hl; eauto|done]|].
      simpl. rewrite Z.eqb_refl, scan_kind_visit. eexists. split; [done|].
      rewrite <- list_fmap_compose.
      change (re_relation ∘ relation_entry) with (fst (A := Relation) (B := Bitmap)). split.
      * apply NoDup_filter, NoDup_entries_fst.
      * intros r. rewrite list_elem_of_filter, list_elem_of_fmap. split.
        -- intros (Hk & [r' b] & -> & Hin%elem_of_entries). split; [done|]. by exists t, b.
        -- intros (Hk & t' & b & [= <-] & Hb & _). split; [done|]. exists (r, b).
           split; [done|]. by apply elem_of_entries.
    + exists []. split_and!; [|constructor|set_solver].
      destruct (l !! _) as [e|] eqn:El; [|done]. destruct (Z.eqb_spec (sr_symbol e) s); [|done].
      destruct (proj2 (Hlb e)) as [(s' & t & -> & Ht)%Hl _]; [done|]. simpl in *. congruence.
  - exists []. split_and!; [done|constructor|set_solver].
Qed.

(** ** Theorems *)

Definition has_occurrence (o : Occurrence) (f : FileIndex) : Prop := o ∈ f_occurrences f.
Definition has_relation (s : Z) (r : Relation) (f : FileIndex) : Prop :=
  r ∈ get_or [] (f_relations f) s.

Lemma has_occurrence_same o f g : equal_content f g → has_occurrence o f ↔ has_occurrence o g.
Proof. intros [Ho _]. apply Ho. Qed.

Lemma has_relation_same s r f g : equal_content f g → has_relation s r f ↔ has_relation s r g.
Proof. intros [_ Hr]. apply Hr. Qed.

Lemma occurrence_bitmap n G i o b :
  shard_ok n G i → occurrences i !! o = Some b → bitmap_of G (has_occurrence o) b ∧ b ≠ ∅.
Proof.
  intros [Ht _ _] Hb. split; [|by apply (proj1 (ok_no_empty _ _ Ht) o)].
  intros x. pose proof (ok_occurrences _ _ Ht o x) as Hx. unfold get_or in Hx.
  by rewrite Hb in Hx.
Qed.

Lemma relation_bitmap n G i s t r b :
  shard_ok n G i → relations i !! s = Some t → t !! r = Some b →
  bitmap_of G (has_relation s r) b ∧ b ≠ ∅.
Proof.
  intros [Ht _ _] Hs Hb. split; [|by apply (proj2 (ok_no_empty _ _ Ht) s t Hs r)].
  intros x. pose proof (ok_relations _ _ Ht s r x) as Hx. unfold relation_ids, get_or in Hx.
  rewrite Hs in Hx. simpl in Hx. by rewrite Hb in Hx.
Qed.

Lemma live_occurrence_shown n G i spec o :
  shard_ok n G i → contexts_match G i spec → live (has_occurrence o) spec →
  o ∈ table i ∧ hidden i o = false.
Proof.
  intros Hok Hm Hl.
  destruct (live_refs G i _ _ Hm (has_occurrence_same o) Hl) as (x & g & _ & Hg & Hog).
  assert (x ∈ get_or ∅ (occurrences i) o) as Hx
    by (apply (ok_occurrences _ _ (ok_tables _ _ _ Hok)); eauto).
  unfold get_or in Hx. destruct (occurrences i !! o) as [b|] eqn:Eb; [|set_solver].
  split; [apply elem_of_table; by rewrite Eb|]. unfold hidden. rewrite Eb.
  eapply live_not_removed; [done|done|apply has_occurrence_same| |done].
  by eapply occurrence_bitmap.
Qed.

Lemma live_relation_shown n G i spec s r :
  shard_ok n G i → contexts_match G i spec → live (has_relation s r) spec →
  ∃ t b, relations i !! s = Some t ∧ t !! r = Some b ∧ all_removed i b = false.
Proof.
  intros Hok Hm Hl.
  destruct (live_refs G i _ _ Hm (has_relation_same s r) Hl) as (x & g & _ & Hg & Hrg).
  assert (x ∈ relation_ids (relations i) s r) as Hx
    by (apply (ok_relations _ _ (ok_tables _ _ _ Hok)); eauto).
  unfold relation_ids, get_or in Hx.
  destruct (relations i !! s) as [t|] eqn:Es; simpl in Hx; [|rewrite lookup_empty in Hx; set_solver].
  destruct (t !! r) as [b|] eqn:Eb; simpl in Hx; [|set_solver].
  exists t, b. split_and!; [done|done|].
  eapply live_not_removed; [done|done|apply has_relation_same| |done].
  by eapply relation_bitmap.
Qed.

(** Reaching a state by a run. *)
Lemma run_from_empty ops :
  Z.of_nat (length ops) < two32 → distinguishes (all_indices ops) → Forall symbols_named ops →
  ∃ st G i, shard_run (E := E) ops empty_index = Ok st ∧ denotes st i ∧
    shard_ok (length ops) G i ∧ (length G ≤ length ops)%nat ∧
    contexts_match G i (spec_run ops no_contexts) ∧
    (disciplined ops no_contexts → exact i) ∧ (∀ g, g ∈ G → g ∈ all_indices ops).
Proof.
  intros Hn Hdist Hnamed.
  destruct (run_sim (E := E) ops 0 True [] empty_index no_contexts empty_sim)
    as (st & G & Hrun & (i & Hd & Hok & HG & Hm & Hex) & HGin);
    [done|by rewrite app_nil_r|done|].
  rewrite app_nil_r in HGin. exists st, G, i. split_and!; auto.
Qed.

(** C10. Whatever sequence of fewer than 2^32 merges, removals, lookups, saves and loads a
    shard goes through, when the hash tells the merged indices apart and the merged symbols
    have names, it has no undefined behaviour, and a lookup by offset reports, in order, only
    occurrences around the offset that were merged; in memory, if no compilation context was
    merged over an old one, it reports only those of the contexts it has.  If moreover the
    ranges of all occurrences ever merged are ranges of tokens (two of them are equal or do
    not overlap, also when they come from different versions of the text), it reports every
    occurrence around the offset that some context of the shard has.
    [stale_range_hides_occurrence] shows that it can miss one otherwise. *)
Theorem shard_occurrences ops :
  Z.of_nat (length ops) < two32 → distinguishes (all_indices ops) → Forall symbols_named ops →
  ∃ st, shard_run (E := E) ops empty_index = Ok st ∧
  ∀ ord offset, ∃ st' l, lookup_offset (E := E) ord st offset collect [] = Ok (st', l) ∧
    StronglySorted (key_le occurrence_key) l ∧
    (∀ o, o ∈ l → contains (o_range o) offset ∧
       ∃ f, f ∈ all_indices ops ∧ has_occurrence o f) ∧
    (disciplined ops no_contexts → need_rewrite st →
       ∀ o, o ∈ l → live (has_occurrence o) (spec_run ops no_contexts)) ∧
    (token_ranges (all_occurrences (all_indices ops)) →
       ∀ o, contains (o_range o) offset → live (has_occurrence o) (spec_run ops no_contexts) → o ∈ l).
Proof.
  intros Hn Hdist Hnamed.
  destruct (run_from_empty ops Hn Hdist Hnamed) as (st & G & i & Hrun & Hd & Hok & _ & Hm & Hex & HG).
  exists st. split; [done|]. intros ord offset.
  destruct (lookup_offset_finds (E := E) _ G st i ord offset collect [] Hd Hok) as (st' & Hlk).
  exists st'. eexists. split; [done|]. rewrite visit_collect_app, app_nil_l. split_and!.
  - case_match; [apply StronglySorted_filter|]; apply found_sorted, sort_by_sorted.
  - intros o Ho. assert (o ∈ around offset (table i)) as [Hc Ht]%list_elem_of_filter
      by (apply elem_of_found; by case_match; [apply list_elem_of_filter in Ho as [_ ?]|]).
    split; [done|]. destruct (table_merged _ G i o Hok Ht) as (f & Hf%HG & Hof). by exists f.
  - intros Hdisc Hmem o Ho. apply Is_true_true in Hmem. rewrite Hmem in Ho.
    apply list_elem_of_filter in Ho as [Hh [_ Ht]%elem_of_found%list_elem_of_filter].
    apply elem_of_table in Ht as [b Hb]. unfold hidden in Hh. rewrite Hb in Hh.
    destruct (occurrence_bitmap _ G i o b Hok Hb).
    by apply (not_removed_live _ G i _ _ b Hok (Hex Hdisc) Hm (has_occurrence_same o)).
  - intros Htok o Hc Hl. destruct (live_occurrence_shown _ G i _ o Hok Hm Hl).
    assert (token_ranges (all_occurrences G)) as HtokG.
    { assert (∀ o, o ∈ all_occurrences G → o ∈ all_occurrences (all_indices ops)) as Hsub.
      { intros o' (l & (f & -> & Hf%HG)%list_elem_of_fmap & Ho)%elem_of_concat.
        apply elem_of_concat. exists (f_occurrences f). split; [|done]. by apply list_elem_of_fmap_2. }
      intros x y Hx Hy. apply Htok; by apply Hsub. }
    unfold found. rewrite search_around by (by eapply table_in_order).
    case_match; repeat (apply list_elem_of_filter; split); done.
Qed.

(** The same for lookups by symbol: no undefined behaviour, every relation of
    the kind that some context has is reported once, nothing is that was not
    merged, and in memory, if no compilation context was merged over an old one,
    exactly the relations of the contexts are. *)
Theorem shard_relations ops :
  Z.of_nat (length ops) < two32 → distinguishes (all_indices ops) →
  Forall symbols_named ops →
  ∃ st, shard_run (E := E) ops empty_index = Ok st ∧
  ∀ ord s kind, ∃ l, lookup_symbol (E := E) ord st s kind collect [] = Ok l ∧ NoDup l ∧
    (∀ r, r_kind r = kind → live (has_relation s r) (spec_run ops no_contexts) → r ∈ l) ∧
    (∀ r, r ∈ l → r_kind r = kind ∧ ∃ f, f ∈ all_indices ops ∧ has_relation s r f) ∧
    (disciplined ops no_contexts → need_rewrite st →
       ∀ r, r ∈ l → live (has_relation s r) (spec_run ops no_contexts)).
Proof.
  intros Hn Hdist Hnamed.
  destruct (run_from_empty ops Hn Hdist Hnamed) as (st & G & i & Hrun & Hd & Hok & _ & Hm & Hex & HG).
  exists st. split; [done|]. intros ord s kind.
  destruct (lookup_symbol_shows _ G st i ord s kind collect [] Hd Hok)
    as (l & -> & Hnd & Hl).
  exists l. rewrite visit_collect_app, app_nil_l. split_and!; [done|done|..].
  - intros r Hk Hlive. apply Hl. split; [done|].
    destruct (live_relation_shown _ G i _ s r Hok Hm Hlive) as (t & b & ? & ? & ?).
    by exists t, b.
  - intros r (Hk & t & b & Ht & Hb & _)%Hl. split; [done|].
    destruct (relation_bitmap _ G i s t r b Hok Ht Hb) as [Hbm Hne].
    destruct (set_choose_L b Hne) as [x (f & Hf & Hr)%Hbm].
    exists f. split; [|done]. apply HG. by eapply canonical_elem.
  - intros Hdisc Hmem r (Hk & t & b & Ht & Hb & Hr)%Hl.
    destruct (relation_bitmap _ G i s t r b Hok Ht Hb).
    by apply (not_removed_live _ G i _ _ b Hok (Hex Hdisc) Hm (has_relation_same s r)); [..|apply Hr].
Qed.

(** ** Saving and loading *)

(** With exact counts nothing but the sorted table changes. *)
Lemma reloaded_exact n G i : shard_ok n G i → exact i → reloaded i = set_cache [] i.
Proof.
  intros [Ht _ _] Hex. unfold exact in Hex.
  pose proof (ok_max _ _ Ht) as Hmax. pose proof (ok_counts_length _ _ Ht) as Hlen.
  destruct i as [text lines hs cs cache max counts gone occs rels syms sorted]; simpl in *.
  f_equal. apply (list_eq_same_length _ _ (length G)); [done|rewrite length_tabulate; lia|].
  intros j x y _ Hx Hy. apply lookup_tabulate in Hx as [_ ->].
  by destruct (Hex _ _ Hy) as [-> _].
Qed.

Lemma find_symbol_entries (l : list (Z * Symbol)) (h : Z) (out : bytes * Z) :
  NoDup l.*1 →
  match list_find (λ e, se_symbol_id e = h) (symbol_entry <$> l) with
  | None => None
  | Some (_, e) => Some match se_symbol e with
                        | None => out
                        | Some s => (default out.1 (fs_name s), fs_kind s)
                        end
  end = (λ s, (name s, symbol_kind s)) <$> (list_to_map l : gmap Z Symbol) !! h.
Proof.
  induction l as [|[k s] l IH]; intros Hnd; [done|].
  apply NoDup_cons in Hnd as [_ Hnd]. rewrite list_to_map_cons.
  cbn [fmap list_fmap list_find]. cbn [symbol_entry se_symbol_id fst]. destruct (decide (k = h)) as [->|Hne].
  - by rewrite lookup_insert_eq.
  - rewrite lookup_insert_ne by done. rewrite <- IH by done.
    by destruct (list_find _ (symbol_entry <$> l)) as [[j e]|].
Qed.

(** C11. Saving a shard and opening the file gives the same shard: queries on the
    image for the text, the line table, symbols and the staleness data answer as in
    memory, and loading it restores every table; if no compilation context was
    merged over an old one the reference counts are restored too, so that only the
    cached table is lost. *)
Theorem shard_roundtrip ops ord st :
  Z.of_nat (length ops) < two32 → distinguishes (all_indices ops) →
  Forall symbols_named ops → shard_run (E := E) ops empty_index = Ok st → need_rewrite st →
  ∃ i, impl st = Some i ∧
    let image := load (Some (serialize ord st)) in
    load_in_memory (E := E) image = Ok (mkMergedIndex None (Some (reloaded i))) ∧
    (disciplined ops no_contexts → reloaded i = set_cache [] i) ∧
    get_content (E := E) image = get_content st ∧
    get_line_starts (E := E) image = get_line_starts st ∧
    first_compilation (E := E) ord image = first_compilation ord st ∧
    ∀ h out, find_symbol (E := E) image h out = find_symbol st h out.
Proof.
  intros Hn Hdist Hnamed Hrun Hmem.
  destruct (run_from_empty ops Hn Hdist Hnamed) as (st' & G & i & Hrun' & Hd & Hok & HG & _ & Hex & _).
  rewrite Hrun in Hrun'. simplify_eq. destruct Hd as [i|ord' i|]; [|done|done].
  exists i. split; [done|].
  change (load (Some (serialize ord (mkMergedIndex None (Some i)))))
    with (from_data (finish (write_root ord i))). cbv zeta.
  unfold load_in_memory, get_content, get_line_starts, first_compilation, find_symbol, from_data.
  cbn [impl buffer]. setoid_rewrite get_root_finish. cbn [read Res_bind]. split_and!; try done.
  - by rewrite (load_write_root (length ops) G).
  - intros Hdisc. by apply (reloaded_exact (length ops) G), Hex.
  - simpl. by destruct (entries ord (compilation_contexts i)) as [|[p c] l].
  - intros h out. f_equal. simpl. rewrite (find_symbol_entries _ h out) by apply NoDup_entries_fst.
    by rewrite list_to_map_entries.
Qed.

(** ** Staleness *)

(** A dependency is missing or changed after the build. *)
Definition stale (modified : bytes → option Z) (mapping : list bytes) (built : Z)
    (l : IncludeLocation) : Prop :=
  ∃ path, mapping !! Z.to_nat (location_path_id l) = Some path ∧
    match modified path with None => True | Some time => built < u64 time end.

Lemma stale_dependency_correct modified mapping built deps l :
  (∀ loc, loc ∈ l → 0 ≤ location_path_id loc < Z.of_nat (length mapping)) →
  ∃ b, stale_dependency (E := E) modified mapping built deps l = Ok b ∧
    (b = true ↔
     ∃ loc, loc ∈ l ∧ (location_path_id loc ∉ deps) ∧ stale modified mapping built loc).
Proof.
  revert deps. induction l as [|loc l IH]; intros deps Hr; simpl.
  { exists false. split; [done|]. set_solver. }
  assert (∀ loc, loc ∈ l → 0 ≤ location_path_id loc < Z.of_nat (length mapping)) as Hr'
    by (intros; apply Hr; by right).
  case_decide as Hin.
  { destruct (IH deps Hr') as (b & -> & Hb). exists b. split; [done|]. rewrite Hb.
    set_solver. }
  pose proof (Hr loc ltac:(left)) as Hloc. rewrite decide_True by lia.
  destruct (lookup_lt_is_Some_2 mapping (Z.to_nat (location_path_id loc))) as [path Hp]; [lia|].
  rewrite Hp. simpl.
  assert (stale modified mapping built loc ↔
    match modified path with None => True | Some time => built < u64 time end) as Hst.
  { unfold stale. rewrite Hp. naive_solver. }
  destruct (modified path) as [time|] eqn:Em.
  - destruct (Z.ltb_spec built (u64 time)) as [Hlt|Hge].
    + exists true. split; [done|]. split; [|done]. intros _. exists loc. split; [left|].
      split; [done|by apply Hst].
    + destruct (IH ({[location_path_id loc]} ∪ deps) Hr') as (b & -> & Hb). exists b.
      split; [done|]. rewrite Hb. split.
      * intros (loc' & ? & ? & ?). exists loc'. set_solver.
      * intros (loc' & [->|Hl]%elem_of_cons & Hnd & Hs); [apply Hst in Hs; lia|].
        destruct (decide (location_path_id loc' = location_path_id loc)) as [Ee|Ene].
        -- exfalso. destruct Hs as (path' & Hp' & Hs). rewrite Ee in Hp'. simplify_eq.
           rewrite Em in Hs. lia.
        -- exists loc'. set_solver.
  - exists true. split; [done|]. split; [|done]. intros _. exists loc. split; [left|].
    split; [done|by apply Hst].
Qed.

(** For a shard with one compilation context, in memory or on disk,
    [need_update] answers exactly whether some file of its include locations is
    missing or was changed after the build, provided the locations are paths of the
    project; without a compilation context it answers yes. *)
Theorem need_update_correct st i modified mapping ord p c :
  denotes st i →
  (compilation_contexts i = ∅ → need_update (E := E) ord modified mapping st = Ok true) ∧
  (compilation_contexts i = {[p := c]} →
   (∀ loc, loc ∈ include_locations c →
      0 ≤ location_path_id loc < Z.of_nat (length mapping)) →
   ∃ b, need_update (E := E) ord modified mapping st = Ok b ∧
     (b = true ↔ ∃ loc, loc ∈ include_locations c ∧ stale modified mapping (build_at c) loc)).
Proof.
  intros Hd.
  assert (∃ ord', first_compilation (E := E) ord st =
    Ok match entries ord' (compilation_contexts i) with
       | [] => None
       | (_, c) :: _ => Some (include_locations c, build_at c)
       end) as [ord' Hfirst].
  { destruct Hd as [i|ord' i|]; unfold first_compilation; simpl; [by exists ord| |].
    - exists ord'. rewrite get_root_finish. simpl.
      by destruct (entries ord' (compilation_contexts i)) as [|[? ?] ?].
    - exists ord. by rewrite (proj2 (entries_nil ord ∅) eq_refl). }
  unfold need_update. rewrite Hfirst. split.
  - intros ->. by rewrite (proj2 (entries_nil ord' ∅) eq_refl).
  - intros -> Hr. assert (entries ord' ({[p := c]} : gmap Z CompilationContext) = [(p, c)]) as ->.
    { apply Permutation_singleton_r. by rewrite entries_perm, map_to_list_singleton. }
    simpl. destruct (stale_dependency_correct modified mapping (build_at c) ∅ _ Hr) as (b & -> & Hb).
    exists b. split; [done|]. rewrite Hb. set_solver.
Qed.
End queries.

(** ** Examples *)

Definition text_example : bytes := str "int f() { return g(); }".

Definition occurrence_at (b e target : Z) : Occurrence := mkOccurrence (mkRange b e) target.

(** An index with one occurrence, of a symbol defined there. *)
Definition defines (b e target : Z) : FileIndex :=
  mkFileIndex {[target := [mkRelation Definition_ (mkRange b e) 0]]} [occurrence_at b e target].

Definition ops_example : list ShardOp :=
  [OpCompilation bucket_order 0 5 [mkIncludeLocation 1 1 0] (defines 4 5 7) text_example;
   OpHeader bucket_order 3 0 (defines 17 18 9) text_example;
   OpLookup bucket_order 4;
   OpReopen bucket_order;
   OpRemove 3].

Lemma defines_distinguished (b e t b' e' t' : Z) :
  0 ≤ b < 256 → 0 ≤ b' < 256 → b ≠ b' →
  distinguishes [defines b e t; defines b' e' t'].
Proof.
  intros Hb Hb' Hne f g ord ord' Hf Hg Hh.
  assert (∀ x y, 0 ≤ x < 256 → 0 ≤ y < 256 →
    ascii_of_N (Z.to_N (x mod 256)) = ascii_of_N (Z.to_N (y mod 256)) → x = y) as Hinj.
  { intros x y Hx Hy Hc. apply (f_equal N_of_ascii) in Hc.
    rewrite !Z.mod_small, !N_ascii_embedding in Hc by lia. lia. }
  apply (f_equal head) in Hh.
  apply elem_of_cons in Hf as [->|Hf%list_elem_of_singleton];
    apply elem_of_cons in Hg as [->|Hg%list_elem_of_singleton]; subst; try reflexivity;
    cbn in Hh; injection Hh as Hh; exfalso; apply Hne; [|symmetry]; by apply Hinj.
Qed.

Lemma ops_example_tokens : token_ranges (all_occurrences (all_indices ops_example)).
Proof.
  intros x y Hx Hy. simpl in Hx, Hy.
  repeat (apply elem_of_cons in Hx as [->|Hx]); [..|by apply not_elem_of_nil in Hx];
    (repeat (apply elem_of_cons in Hy as [->|Hy]); [..|by apply not_elem_of_nil in Hy]);
    simpl; (split; [lia|]); auto; right; lia.
Qed.

Lemma shard_occurrences_witness :
  ∃ st st' l, shard_run (E := unit) ops_example empty_index = Ok st ∧
    lookup_offset (E := unit) reverse_order st 5 collect [] = Ok (st', l) ∧
    occurrence_at 4 5 7 ∈ l ∧ occurrence_at 17 18 9 ∉ l.
Proof.
  destruct (shard_occurrences (E := unit) ops_example) as (st & Hrun & Hl).
  - done.
  - apply (defines_distinguished 4 5 7 17 18 9); lia.
  - repeat constructor.
  - destruct (Hl reverse_order 5) as (st' & l & Hlk & _ & Hout & _ & Hin).
    exists st, st', l. split_and!; [done|done| |].
    + apply Hin; [|done|].
      { apply ops_example_tokens. }
      right. exists 0, (defines 4 5 7). split; [reflexivity|]. left.
    + intros [Hc _]%Hout. done.
Defined.

Lemma shard_relations_witness :
  ∃ st l, shard_run (E := unit) ops_example empty_index = Ok st ∧
    lookup_symbol (E := unit) bucket_order st 7 Definition_ collect [] = Ok l ∧
    mkRelation Definition_ (mkRange 4 5) 0 ∈ l.
Proof.
  destruct (shard_relations (E := unit) ops_example) as (st & Hrun & Hl).
  - done.
  - apply (defines_distinguished 4 5 7 17 18 9); lia.
  - repeat constructor.
  - destruct (Hl bucket_order 7 Definition_) as (l & Hlk & _ & Hin & _).
    exists st, l. split_and!; [done|done|]. apply Hin; [done|].
    right. exists 0, (defines 4 5 7). split; [reflexivity|]. vm_compute. left.
Defined.

Definition ops_small : list ShardOp :=
  [OpCompilation bucket_order 0 5 [mkIncludeLocation 1 1 0] (defines 4 5 7) text_example;
   OpHeader bucket_order 3 0 (defines 17 18 9) text_example].

Definition shard_example : MergedIndex :=
  match shard_run (E := unit) ops_small empty_index with Ok st => st | _ => empty_index end.

Lemma shard_roundtrip_witness :
  ∃ i, impl shard_example = Some i ∧ reloaded i = set_cache [] i ∧
    get_content (E := unit) (load (Some (serialize bucket_order shard_example))) = Ok text_example.
Proof.
  destruct (shard_roundtrip (E := unit) ops_small bucket_order shard_example)
    as (i & Hi & _ & Hex & Hc & _).
  - done.
  - apply (defines_distinguished 4 5 7 17 18 9); lia.
  - repeat constructor.
  - vm_compute. reflexivity.
  - vm_compute. exact I.
  - exists i. split; [exact Hi|]. split; [apply Hex; repeat split|].
    etransitivity; [exact Hc|]. vm_compute. reflexivity.
Defined.

Definition context_example : CompilationContext :=
  mkCompilationContext 0 0 5 [mkIncludeLocation 1 1 0].

Definition built_shard : Impl :=
  mkImpl text_example [0] ∅ {[0 := context_example]} ∅ 1 [1] ∅ ∅ ∅ ∅ [].

Lemma need_update_correct_witness :
  need_update (E := unit) bucket_order (λ _, Some 9) [str "a.cpp"; str "a.h"]
    (mkMergedIndex None (Some built_shard)) = Ok true.
Proof.
  destruct (need_update_correct (E := unit) (mkMergedIndex None (Some built_shard)) built_shard
    (λ _, Some 9) [str "a.cpp"; str "a.h"] bucket_order 0 context_example
    (in_memory built_shard)) as [_ Hone].
  destruct (Hone eq_refl) as (b & -> & Hiff).
  { intros loc ->%list_elem_of_singleton. simpl. lia. }
  f_equal. apply Hiff. exists (mkIncludeLocation 1 1 0). split; [left|].
  exists (str "a.h"). split; [reflexivity|]. vm_compute. reflexivity.
Defined.

(** ** Where entries of no context are reported *)

(** What a lookup at an offset reports after some operations. *)
Definition reports (ops : list ShardOp) (offset : Z) : Res unit (list Occurrence) :=
  let? st := shard_run ops empty_index in
  let? r := lookup_offset bucket_order st offset collect [] in Ok r.2.

(** A second compilation of the same file keeps the first one's entries: its id
    loses its context but not its count. *)
Lemma recompiled_entries_survive :
  reports [OpCompilation bucket_order 0 5 [] (defines 4 5 7) text_example;
           OpCompilation bucket_order 0 6 [] (defines 8 9 7) text_example] 4 =
  Ok [occurrence_at 4 5 7].
Proof. vm_compute. reflexivity. Qed.

(** A range of an old version of the text inside a range of the new one hides it: the search
    runs over both, and assumes that ranges end in the order in which they begin. *)
Lemma stale_range_hides_occurrence :
  reports [OpHeader bucket_order 3 0 (defines 3 5 7) text_example; OpRemove 3;
           OpHeader bucket_order 3 0 (defines 0 10 9) text_example] 7 = Ok [] ∧
  reports [OpHeader bucket_order 3 0 (defines 0 10 9) text_example] 7 = Ok [occurrence_at 0 10 9].
Proof. vm_compute. split; reflexivity. Qed.

(** In memory the entries of a removed context are not reported. *)
Lemma removed_entries_hidden :
  reports [OpHeader bucket_order 3 0 (defines 4 5 7) text_example; OpRemove 3] 4 = Ok [].
Proof. vm_compute. reflexivity. Qed.

(** On disk they are: the image is searched without regard to [removed]. *)
Lemma removed_entries_return n G i ord ord' offset :
  shard_ok n G i → token_ranges (all_occurrences G) →
  ∃ st', lookup_offset (E := unit) ord' (load (Some (serialize ord (mkMergedIndex None (Some i)))))
           offset collect [] = Ok (st', around offset (table i)).
Proof.
  intros Hok Htok.
  destruct (lookup_offset_shows (E := unit) n G _ i ord' offset collect []
              (in_image ord i) Hok Htok) as [st' Hl].
  exists st'. by rewrite visit_collect_app, app_nil_l in Hl.
Qed.

(** A lookup in between makes equal shards compare different. *)
Lemma lookup_spoils_equality :
  (let? st := shard_run (E := unit) ops_small empty_index in
   let? st' := shard_step (OpLookup bucket_order 4) st in
   let? same := same_index st st in
   let? after := same_index st st' in Ok (same, after)) = Ok (true, false).
Proof. vm_compute. reflexivity. Qed.

(** [need_update] never looks at the compiled file itself: without includes it
    answers no whatever became of the file. *)
Lemma own_file_never_stale modified mapping ord p build_at i :
  compilation_contexts i = {[p := mkCompilationContext 0 0 build_at []]} →
  need_update (E := unit) ord modified mapping (mkMergedIndex None (Some i)) = Ok false.
Proof.
  intros Hc. destruct (need_update (E := unit) ord modified mapping
    (mkMergedIndex None (Some i))) as [b|e| |] eqn:En; unfold need_update, first_compilation in En;
    simpl in En; rewrite Hc in En;
    (assert (entries ord ({[p := mkCompilationContext 0 0 build_at []]} : gmap Z CompilationContext) =
      [(p, mkCompilationContext 0 0 build_at [])]) as Ee
      by (apply Permutation_singleton_r; by rewrite entries_perm, map_to_list_singleton));
    rewrite Ee in En; simpl in En; by simplify_eq.
Qed.

(** A range around another one is missed: the search assumes that ranges end in
    the order in which they begin. *)
Lemma enclosing_range_missed :
  let outer := occurrence_at 0 100 1 in
  let index := mkFileIndex ∅ [outer; occurrence_at 10 12 2] in
  contains (o_range outer) 50 = true ∧ file_lookup_offset index 50 collect [] = [].
Proof. split; reflexivity. Qed.

(** The hashed bytes are not framed: an index with two occurrences and one with a
    relation can feed the same bytes to SHA-256. *)
Lemma hash_input_unframed :
  ∃ f g, ¬ equal_content f g ∧ ∀ ord, hash_input ord f = hash_input ord g.
Proof.
  exists (mkFileIndex ∅ [occurrence_at 5 6 2; occurrence_at 1 2 3]),
    (mkFileIndex {[range_bits (mkRange 5 6) := [mkRelation Definition_ (mkRange 1 2) 3]]} []).
  split.
  - intros [Ho _]. specialize (Ho (occurrence_at 5 6 2)). simpl in Ho. set_solver.
  - intros ord. unfold hash_input; simpl. rewrite (proj2 (entries_nil ord ∅) eq_refl).
    assert (entries ord ({[range_bits (mkRange 5 6) := [mkRelation Definition_ (mkRange 1 2) 3]]} :
      gmap Z (list Relation)) = [(range_bits (mkRange 5 6), [mkRelation Definition_ (mkRange 1 2) 3])])
      as ->.
    { apply Permutation_singleton_r. by rewrite entries_perm, map_to_list_singleton. }
    vm_compute. reflexivity.
Qed.

(** ** Runs in parts, and the table of local symbols

    Lookups by symbol id answer from the table in memory and on an image, and no
    operation drops a symbol. *)

(** ** Runs *)

Lemma all_indices_app a b : all_indices (a ++ b) = all_indices a ++ all_indices b.
Proof. unfold all_indices. by rewrite fmap_app, concat_app. Qed.

Lemma spec_run_app a b spec : spec_run (a ++ b) spec = spec_run b (spec_run a spec).
Proof. revert spec. induction a as [|op a IH]; intros spec; [done|]. apply IH. Qed.

Lemma shard_run_app {E} `{Roaring} `{IndexLibs} `{FlatBuffer FbMergedIndex} a b st :
  shard_run (E := E) (a ++ b) st = let? st := shard_run a st in shard_run b st.
Proof.
  revert st. induction a as [|op a IH]; intros st; [done|]. cbn [shard_run app].
  destruct (shard_step op st); cbn [Res_bind]; [apply IH|done..].
Qed.

(** ** Symbols *)

Section symbols.
Context {E : Type} `{Roaring} `{!RoaringLaws} `{IndexLibs} `{FlatBuffer FbMergedIndex}
  `{!FlatBufferLaws FbMergedIndex}.

Definition info_of (s : Symbol) : bytes * Z := (name s, symbol_kind s).

Lemma find_symbol_shows st i h out :
  denotes st i → find_symbol (E := E) st h out = Ok (info_of <$> symbols i !! h).
Proof.
  intros [j|ord j|]; unfold find_symbol, from_data; cbn [impl buffer].
  - done.
  - rewrite get_root_finish. cbn [read Res_bind write_root fb_symbols default]. f_equal. unfold id.
    rewrite (find_symbol_entries _ h out) by apply NoDup_entries_fst.
    by rewrite list_to_map_entries.
  - done.
Qed.

(** Symbols a shard knows are never forgotten. *)
Definition grows (a b : SymbolTable) : Prop := ∀ s sym, a !! s = Some sym → b !! s = Some sym.

Lemma load_keeps_symbols n G st i :
  denotes st i → shard_ok n G i → Z.of_nat n < two32 → (length G ≤ n)%nat →
  ∃ i', load_in_memory (E := E) st = Ok (mkMergedIndex None (Some i')) ∧ symbols i' = symbols i.
Proof.
  intros Hd Hok Hn HG. destruct Hd as [j|ord j|]; [by exists j| |by exists empty_impl].
  exists (reloaded j). unfold load_in_memory; cbn [impl buffer from_data].
  rewrite get_root_finish. cbn [read Res_bind]. rewrite (load_write_root n G) by done.
  split; [done|]. by destruct j.
Qed.

Lemma modify_symbols n G st i f st' :
  denotes st i → shard_ok n G i → Z.of_nat n < two32 → (length G ≤ n)%nat →
  modify (E := E) f st = Ok st' →
  ∃ i1 i2, symbols i1 = symbols i ∧ f i1 = Ok i2 ∧ denotes st' i2.
Proof.
  intros Hd Hok Hn HG Hm. destruct (load_keeps_symbols n G st i Hd Hok Hn HG) as (i1 & Hl & Hs).
  unfold modify in Hm. rewrite Hl in Hm. cbn [Res_bind read impl buffer] in Hm.
  destruct (f i1) as [i2| | |] eqn:Ef; try done. cbn [Res_bind] in Hm. injection Hm as <-.
  exists i1, i2. split_and!; [done|done|constructor].
Qed.

Lemma impl_merge_symbols_eq ord f c i i' :
  impl_merge (E := E) ord f c i = Ok i' → symbols i' = symbols i.
Proof.
  intros Hm. unfold impl_merge in Hm.
  assert (∀ id, symbols (add_context c id i) = symbols i) as Hs by (intros id; by destruct i, c).
  destruct (canonical_cache i !! _) as [id|]; [specialize (Hs id)|specialize (Hs (max_canonical_id i))];
    (destruct (add_context c _ i) as [a1 a2 a3 a4 a5 a6 a7 a8 a9 a10 a11 a12]).
  - destruct (increment a7 id); cbn [Res_bind] in Hm; try done. by injection Hm as <-.
  - by injection Hm as <-.
Qed.

Lemma emplaced_symbols (l : list (Z * Symbol)) m :
  grows m (foldl (λ m e, try_emplace m e.1 (mkSymbol (name e.2) (symbol_kind e.2) (scope e.2) ∅)) m l) ∧
  ∀ s, s ∈ l.*1 → is_Some (foldl (λ m e, try_emplace m e.1
    (mkSymbol (name e.2) (symbol_kind e.2) (scope e.2) ∅)) m l !! s).
Proof.
  revert m. induction l as [|[k v] l IH]; intros m; simpl; [split; [by intros ? ?|set_solver]|].
  set (m1 := try_emplace m k _). destruct (IH m1) as [Hg Hin].
  assert (grows m m1 ∧ is_Some (m1 !! k)) as [Hgm Hk].
  { unfold m1, try_emplace. destruct (m !! k) eqn:Ek; [split; [by intros ? ?|by rewrite Ek]|].
    split; [|by rewrite lookup_insert_eq]. intros s sym Hs. rewrite lookup_insert_ne; [done|congruence]. }
  split; [intros s sym Hs; by apply Hg, Hgm|]. intros s [->|Hs]%elem_of_cons; [|by apply Hin].
  destruct Hk as [v' Hv']. exists v'. by apply Hg.
Qed.

Lemma step_symbols n G st i op st' :
  denotes st i → shard_ok n G i → Z.of_nat n < two32 → (length G ≤ n)%nat →
  shard_step (E := E) op st = Ok st' →
  ∃ i', denotes st' i' ∧ grows (symbols i) (symbols i') ∧
    match op with
    | OpSymbols _ table => ∀ s, is_Some (table !! s) → is_Some (symbols i' !! s)
    | _ => True
    end.
Proof.
  intros Hd Hok Hn HG Hst.
  destruct op as [ord p b l f text|ord p j f text|p|ord table|ord offset|ord]; cbn [shard_step] in Hst.
  - destruct (modify_symbols n G _ _ _ _ Hd Hok Hn HG Hst) as (i1 & i2 & Hs & Hf & Hd2).
    exists i2. split_and!; [done| |done]. rewrite <- Hs.
    destruct (impl_merge ord f _ (set_text text i1)) as [i3| | |] eqn:Em; try done.
    apply impl_merge_symbols_eq in Em. cbn [Res_bind] in Hf. injection Hf as <-.
    intros s sym Hx. destruct i3, i1; cbn in *. by rewrite Em.
  - destruct (modify_symbols n G _ _ _ _ Hd Hok Hn HG Hst) as (i1 & i2 & Hs & Hf & Hd2).
    exists i2. split_and!; [done| |done]. rewrite <- Hs.
    cbv zeta in Hf. set (i0 := if decide _ then _ else _) in Hf.
    assert (symbols i0 = symbols i1) as Hi0 by (unfold i0; case_decide; [by destruct i1|done]).
    destruct (impl_merge ord f _ i0) as [i3| | |] eqn:Em; try done.
    apply impl_merge_symbols_eq in Em. cbn [Res_bind] in Hf. injection Hf as <-.
    intros s sym Hx. rewrite <- Hi0 in Hx. destruct i3; cbn in *. by rewrite Em.
  - destruct (modify_symbols n G _ _ _ _ Hd Hok Hn HG Hst) as (i1 & i2 & Hs & Hf & Hd2).
    exists i2. split_and!; [done| |done]. rewrite <- Hs. destruct i1; unfold impl_remove in Hf.
    repeat match type of Hf with Res_bind ?x _ = _ => destruct x eqn:?; try done; cbn [Res_bind] in Hf end.
    injection Hf as <-. by intros s sym.
  - destruct (modify_symbols n G _ _ _ _ Hd Hok Hn HG Hst) as (i1 & i2 & Hs & Hf & Hd2).
    exists i2. rewrite <- Hs. injection Hf as <-.
    destruct (emplaced_symbols (entries ord table) (symbols i1)) as [Hg Hin].
    split_and!; [done|by destruct i1|]. intros s [sym Hsym]. destruct i1; cbn in *. apply Hin.
    apply list_elem_of_fmap. exists (s, sym). split; [done|]. by apply elem_of_entries.
  - destruct (lookup_offset ord st offset collect []) as [[st1 l]| | |] eqn:El; try done.
    cbn [Res_bind fst] in Hst. injection Hst as ->. unfold lookup_offset in El.
    destruct Hd as [j|ord' j|]; cbn [impl buffer from_data empty_index] in El.
    + injection El as <- _. exists (fill_cache ord j). split_and!; [constructor| |done].
      unfold fill_cache. case_decide; [destruct j|]; by intros s sym.
    + rewrite get_root_finish in El. cbn [read Res_bind] in El. injection El as <- _.
      exists j. split_and!; [constructor|by intros s sym|done].
    + injection El as <- _. exists empty_impl. split_and!; [constructor|by intros s sym|done].
  - exists i. split_and!; [|by intros s sym|done].
    destruct Hd; cbn in Hst; injection Hst as <-; constructor.
Qed.

(** Along a run. *)
Lemma run_symbols ops1 ops2 st1 st2 :
  Z.of_nat (length (ops1 ++ ops2)) < two32 → distinguishes (all_indices (ops1 ++ ops2)) →
  Forall symbols_named (ops1 ++ ops2) →
  shard_run (E := E) ops1 empty_index = Ok st1 → shard_run (E := E) ops2 st1 = Ok st2 →
  ∀ h x out, find_symbol (E := E) st1 h out = Ok (Some x) → find_symbol (E := E) st2 h out = Ok (Some x).
Proof.
  revert ops1 st1. induction ops2 as [|op ops2 IH]; intros ops1 st1 Hn Hd Hnm Hr1 Hr2 h x out Hx.
  { injection Hr2 as ->. done. }
  cbn [shard_run] in Hr2. destruct (shard_step op st1) as [st| | |] eqn:Est; try done.
  cbn [Res_bind] in Hr2.
  assert (ops1 ++ op :: ops2 = (ops1 ++ [op]) ++ ops2) as Happ by (by rewrite <- app_assoc).
  rewrite Happ in Hn, Hd, Hnm. apply (IH (ops1 ++ [op]) st); try done.
  { rewrite shard_run_app, Hr1. cbn [Res_bind shard_run]. by rewrite Est. }
  rewrite <- Happ in Hn, Hd, Hnm. rewrite length_app in Hn. rewrite all_indices_app in Hd.
  apply Forall_app in Hnm as [Hnm _].
  destruct (run_from_empty (E := E) ops1) as (st1' & G & i & Hrun & Hden & Hok & HG & _); [lia| |done|].
  { intros f g o o' Hf Hg. apply Hd; apply elem_of_app; by left. }
  rewrite Hr1 in Hrun. injection Hrun as <-.
  destruct (step_symbols (length ops1) G st1 i op st Hden Hok ltac:(lia) HG Est)
    as (i' & Hden' & Hg & _).
  rewrite (find_symbol_shows _ _ _ _ Hden) in Hx. rewrite (find_symbol_shows _ _ _ _ Hden').
  injection Hx as Hx. apply fmap_Some in Hx as (sym & Hsym & ->). by rewrite (Hg _ _ Hsym).
Qed.

(** A symbol that was merged can be looked up from then on. *)
Lemma merged_symbol_known pre ord table post st s out :
  Z.of_nat (length (pre ++ OpSymbols ord table :: post)) < two32 →
  distinguishes (all_indices (pre ++ OpSymbols ord table :: post)) →
  Forall symbols_named (pre ++ OpSymbols ord table :: post) →
  shard_run (E := E) (pre ++ OpSymbols ord table :: post) empty_index = Ok st →
  is_Some (table !! s) → ∃ x, find_symbol (E := E) st s out = Ok (Some x).
Proof.
  intros Hn Hd Hnm Hrun Hs.
  assert (pre ++ OpSymbols ord table :: post = (pre ++ [OpSymbols ord table]) ++ post) as Happ
    by (by rewrite <- app_assoc).
  pose proof Hrun as Hrun'. rewrite Happ, shard_run_app in Hrun'.
  destruct (shard_run (pre ++ [OpSymbols ord table]) empty_index) as [st1| | |] eqn:Er1; try done.
  cbn [Res_bind] in Hrun'. pose proof Er1 as Er2. rewrite shard_run_app in Er2.
  destruct (run_from_empty (E := E) pre) as (st0 & G & i & Hr0 & Hden & Hok & HG & _).
  { rewrite length_app in Hn. lia. }
  { rewrite all_indices_app in Hd. intros f g o o' Hf Hg. apply Hd; apply elem_of_app; by left. }
  { by apply Forall_app in Hnm as [? _]. }
  rewrite Hr0 in Er2. cbn [Res_bind shard_run] in Er2.
  destruct (shard_step (OpSymbols ord table) st0) as [st2| | |] eqn:Est; try done.
  cbn [Res_bind] in Er2. injection Er2 as ->.
  destruct (step_symbols (length pre) G st0 i _ st1 Hden Hok ltac:(rewrite length_app in Hn; lia) HG Est)
    as (i' & Hden' & _ & Hin).
  destruct (Hin s Hs) as [sym Hsym]. exists (info_of sym). rewrite Happ in Hn, Hd, Hnm.
  eapply (run_symbols (pre ++ [OpSymbols ord table]) post st1); try done.
  rewrite (find_symbol_shows _ _ _ _ Hden'). by rewrite Hsym.
Qed.
End symbols.
