(* ===== verification/IncludeGraph.v ===== *)
(** * Include graph of a translation unit (src/index/include_graph.{h,cpp})

    [IncludeGraph::from] walks over the files of a compiled unit and records, for
    each inclusion, a location: the included file, the line of the directive and
    the location it hangs from.  What clang knows about the unit is a record of
    functions; the walk up an include chain is bounded by the number of files. *)
From S2P Require Import IndexData MergedIndex.
Local Open Scope Z_scope.
Local Open Scope cpp_scope.

(** [clang::FileID] and [clang::SourceLocation] as numbers; an invalid location is
    [None]. *)
Record CompilationUnit := mkCompilationUnit {
  all_files : list Z;                    (* every FileID of the source manager *)
  files : list Z;                        (* [unit.files()] *)
  include_location : Z → option Z;       (* where a file was included *)
  presumed_line : Z → Z;
  presumed_include : Z → option Z;       (* where the file of a location was included *)
  file_id : Z → Z;                       (* the file of a location *)
  file_path : Z → bytes;
  interested_file : Z;
}.

Record IncludeGraph := mkIncludeGraph {
  g_paths : list bytes;
  g_locations : list IncludeLocation;
  g_file_table : gmap Z Z;
}.

Definition empty_include_graph : IncludeGraph := mkIncludeGraph [] [] ∅.

(** [std::uint32_t(-1)] *)
Definition no_location : Z := 4294967295.

Definition set_include (i : Z) (include : Z) (l : list IncludeLocation) : list IncludeLocation :=
  alter (λ loc, mkIncludeLocation (location_path_id loc) (location_line loc) include) (Z.to_nat i) l.

(** [path_table.try_emplace(path, paths.size())] and the push that goes with it. *)
Definition table_path (path : bytes) (paths : list bytes) (table : gmap bytes Z) :
    list bytes * gmap bytes Z * Z :=
  match table !! path with
  | Some id => (paths, table, id)
  | None =>
    let id := u32 (Z.of_nat (length paths)) in
    (paths ++ [path], <[path := id]> table, id)
  end.

Abbreviation ChainState := (IncludeGraph * gmap bytes Z)%type.

Section graph.
Context {E : Type} (unit : CompilationUnit).

Fixpoint addIncludeChain (fuel : nat) (fid : Z) (st : ChainState) : Res E (ChainState * Z) :=
  match fuel with
  | O => Stuck
  | S fuel =>
    match include_location unit fid with
    | None => Ok (st, no_location)
    | Some include_loc =>
      match g_file_table st.1 !! fid with
      | Some index => Ok (st, index)
      | None =>
        let index := u32 (Z.of_nat (length (g_locations st.1))) in
        let '(paths, table, path_id) := table_path (file_path unit fid) (g_paths st.1) st.2 in
        let location := mkIncludeLocation path_id (presumed_line unit include_loc) no_location in
        let graph := mkIncludeGraph paths (g_locations st.1 ++ [location])
                       (<[fid := index]> (g_file_table st.1)) in
        let? r := match presumed_include unit include_loc with
                  | Some up => addIncludeChain fuel (file_id unit up) (graph, table)
                  | None => Ok ((graph, table), no_location)
                  end in
        let graph := r.1.1 in
        Ok ((mkIncludeGraph (g_paths graph) (set_include index r.2 (g_locations graph))
               (g_file_table graph), r.1.2), index)
      end
    end
  end.

Definition add_file (fid : Z) (st : ChainState) : Res E ChainState :=
  let? r := addIncludeChain (S (length (all_files unit))) fid st in
  let graph := r.1.1 in
  Ok (mkIncludeGraph (g_paths graph) (g_locations graph) (<[fid := r.2]> (g_file_table graph)),
      r.1.2).

Definition graph_from : Res E IncludeGraph :=
  let? st := for_each (files unit) add_file (empty_include_graph, ∅) in
  let graph := st.1 in
  Ok (mkIncludeGraph (g_paths graph ++ [file_path unit (interested_file unit)])
        (g_locations graph) (g_file_table graph)).

(** [IncludeGraph::include_location_id] and [path_id]. *)
Definition include_location_id (graph : IncludeGraph) (fid : Z) : Res E Z :=
  read (g_file_table graph !! fid).

Definition graph_path_id (graph : IncludeGraph) (fid : Z) : Res E Z :=
  let? include := include_location_id graph fid in
  if include =? no_location then Ok (u32 (Z.of_nat (length (g_paths graph)) - 1))
  else
    let? location := read (g_locations graph !! Z.to_nat include) in
    Ok (location_path_id location).

(** ** Invariant of the walk *)

(** What clang guarantees: files hang from files of the unit. *)
Record unit_ok : Prop := {
  ok_files : ∀ fid, fid ∈ files unit → fid ∈ all_files unit;
  ok_closed : ∀ fid loc up, include_location unit fid = Some loc →
    presumed_include unit loc = Some up → file_id unit up ∈ all_files unit;
  ok_few : Z.of_nat (length (all_files unit)) < no_location;
}.

Definition located (g : IncludeGraph) (fid i : Z) : Prop :=
  ∃ loc l, include_location unit fid = Some loc ∧ 0 ≤ i ∧
    g_locations g !! Z.to_nat i = Some l ∧
    g_paths g !! Z.to_nat (location_path_id l) = Some (file_path unit fid) ∧
    location_line l = presumed_line unit loc.

Definition location_ok (g : IncludeGraph) (l : IncludeLocation) : Prop :=
  0 ≤ location_path_id l < Z.of_nat (length (g_paths g)) ∧
  (location_include l = no_location ∨
   0 ≤ location_include l < Z.of_nat (length (g_locations g))).

Record graph_ok (st : ChainState) : Prop := {
  ok_table : ∀ fid i, g_file_table st.1 !! fid = Some i →
    (i = no_location ∧ include_location unit fid = None) ∨ located st.1 fid i;
  ok_locations : Forall (location_ok st.1) (g_locations st.1);
  ok_dom : ∀ fid, is_Some (g_file_table st.1 !! fid) → fid ∈ all_files unit;
  ok_few_locations : (length (g_locations st.1) ≤ size (dom (g_file_table st.1)))%nat;
  ok_few_paths : (length (g_paths st.1) ≤ length (g_locations st.1))%nat;
  ok_path_table : ∀ path id, st.2 !! path = Some id →
    0 ≤ id ∧ g_paths st.1 !! Z.to_nat id = Some path;
}.

Lemma empty_include_graph_ok : graph_ok (empty_include_graph, ∅).
Proof.
  split; simpl; try done; try (intros ? ?; by rewrite lookup_empty).
  - intros fid [? Hx]. by rewrite lookup_empty in Hx.
Qed.

Definition extends (st st' : ChainState) : Prop :=
  g_paths st.1 `prefix_of` g_paths st'.1 ∧
  (∃ l, g_locations st'.1 = g_locations st.1 ++ l) ∧
  g_file_table st.1 ⊆ g_file_table st'.1.

Lemma extends_refl st : extends st st.
Proof. split_and!; [done|by exists []; rewrite app_nil_r|done]. Qed.

Lemma extends_trans st1 st2 st3 : extends st1 st2 → extends st2 st3 → extends st1 st3.
Proof.
  intros (Hp & [l Hl] & Ht) (Hp' & [l' Hl'] & Ht'). split_and!; [by etrans| |by etrans].
  exists (l ++ l'). by rewrite Hl', Hl, <- app_assoc.
Qed.

Lemma table_path_spec path paths table paths' table' id :
  table_path path paths table = (paths', table', id) →
  Z.of_nat (length paths) < no_location →
  (∀ p i, table !! p = Some i → 0 ≤ i ∧ paths !! Z.to_nat i = Some p) →
  paths `prefix_of` paths' ∧ (length paths' ≤ S (length paths))%nat ∧
  0 ≤ id ∧ paths' !! Z.to_nat id = Some path ∧
  (∀ p i, table' !! p = Some i → 0 ≤ i ∧ paths' !! Z.to_nat i = Some p).
Proof.
  intros Ht Hn Hinv. unfold table_path in Ht. destruct (table !! path) as [i|] eqn:Ei; simplify_eq.
  { destruct (Hinv _ _ Ei). split_and!; try done. lia. }
  unfold no_location in Hn.
  rewrite u32_small by (unfold two32; lia). split_and!; [by eexists|rewrite length_app; simpl; lia|lia| |].
  - rewrite Nat2Z.id, lookup_app_r, Nat.sub_diag by lia. done.
  - intros p i. rewrite lookup_insert_Some. intros [[<- <-]|[_ Hi]].
    + split; [lia|]. rewrite Nat2Z.id, lookup_app_r, Nat.sub_diag by lia. done.
    + destruct (Hinv _ _ Hi). split; [done|]. by apply lookup_app_l_Some.
Qed.

Lemma located_extends st st' fid i : extends st st' → located st.1 fid i → located st'.1 fid i.
Proof.
  intros (Hp & [l Hl] & _) (loc & lo & Hloc & Hi & Hlo & Hpath & Hline).
  exists loc, lo. split_and!; [done|done| | |done].
  - rewrite Hl. by apply lookup_app_l_Some.
  - by eapply prefix_lookup_Some.
Qed.

Lemma dom_le st : graph_ok st → (size (dom (g_file_table st.1)) ≤ length (all_files unit))%nat.
Proof.
  intros Hok. etrans; [|apply (size_list_to_set_le (all_files unit))]. apply subseteq_size.
  intros fid Hf%elem_of_dom. apply elem_of_list_to_set. by apply (ok_dom _ Hok).
Qed.

Lemma locations_few st :
  unit_ok → graph_ok st → Z.of_nat (length (g_locations st.1)) < no_location.
Proof.
  intros Hu Hok. pose proof (ok_few Hu). pose proof (ok_few_locations _ Hok).
  pose proof (dom_le st Hok). lia.
Qed.

(** The state once the location of a new file is pushed. *)
Lemma push_location_ok st fid include_loc paths table path_id :
  unit_ok → graph_ok st → fid ∈ all_files unit →
  include_location unit fid = Some include_loc → g_file_table st.1 !! fid = None →
  table_path (file_path unit fid) (g_paths st.1) st.2 = (paths, table, path_id) →
  let index := u32 (Z.of_nat (length (g_locations st.1))) in
  let location := mkIncludeLocation path_id (presumed_line unit include_loc) no_location in
  let st' := (mkIncludeGraph paths (g_locations st.1 ++ [location])
                (<[fid := index]> (g_file_table st.1)), table) in
  graph_ok st' ∧ extends st st' ∧ located st'.1 fid index ∧
  index = Z.of_nat (length (g_locations st.1)) ∧
  size (dom (g_file_table st'.1)) = S (size (dom (g_file_table st.1))).
Proof.
  intros Hu Hok Hall Hinc Hnone Htp index location st'.
  pose proof (locations_few st Hu Hok) as Hfew.
  assert (index = Z.of_nat (length (g_locations st.1))) as Hindex.
  { unfold index. apply u32_small. unfold no_location, two32 in *. lia. }
  destruct (table_path_spec _ _ _ _ _ _ Htp) as (Hpre & Hlen & Hid & Hpath & Htab).
  { pose proof (ok_few_paths _ Hok). lia. }
  { apply (ok_path_table _ Hok). }
  assert (extends st st') as Hext.
  { split_and!; [done|by eexists|]. simpl. by apply insert_subseteq. }
  assert (located st'.1 fid index) as Hloc.
  { exists include_loc, location. rewrite Hindex. split_and!; [done|lia| |done|done].
    simpl. by rewrite Nat2Z.id, lookup_app_r, Nat.sub_diag by lia. }
  assert (size (dom (g_file_table st'.1)) = S (size (dom (g_file_table st.1)))) as Hsize.
  { simpl. rewrite dom_insert_L, size_union, size_singleton; [done|].
    apply disjoint_singleton_l. by apply not_elem_of_dom. }
  split_and!; try done. pose proof (lookup_lt_Some _ _ _ Hpath) as Hlt.
  split; [| | | | |by intros p i Hp; apply Htab].
  - intros f i. cbn [st' fst g_file_table]. rewrite lookup_insert_Some.
    intros [[<- <-]|[_ Hf]]; [by right|].
    destruct (ok_table _ Hok f i Hf) as [?|Hl]; [by left|right; by apply (located_extends st st')].
  - cbn [st' fst g_locations]. apply Forall_app. split.
    + eapply Forall_impl; [apply (ok_locations _ Hok)|]. intros l [Hp Hi].
      apply prefix_length in Hpre. unfold location_ok; simpl. rewrite length_app; simpl.
      split; [lia|]. destruct Hi as [?|?]; [by left|right; lia].
    + apply Forall_singleton. split; [simpl; lia|by left].
  - intros f. cbn [st' fst g_file_table]. intros [i Hi].
    apply lookup_insert_Some in Hi as [[<- _]|[_ ?]]; [done|]. apply (ok_dom _ Hok). by eexists.
  - rewrite Hsize. cbn [st' fst g_locations]. rewrite length_app; simpl.
    pose proof (ok_few_locations _ Hok). lia.
  - cbn [st' fst g_locations g_paths]. rewrite length_app; simpl.
    pose proof (ok_few_paths _ Hok). lia.
Qed.

(** Setting the [include] of a location keeps the invariant. *)
Lemma set_include_ok st index include :
  graph_ok st →
  (include = no_location ∨ 0 ≤ include < Z.of_nat (length (g_locations st.1))) →
  let st' := (mkIncludeGraph (g_paths st.1) (set_include index include (g_locations st.1))
                (g_file_table st.1), st.2) in
  graph_ok st' ∧ (∀ fid i, located st.1 fid i → located st'.1 fid i).
Proof.
  intros Hok Hinc st'.
  assert (∀ fid i, located st.1 fid i → located st'.1 fid i) as Hl.
  { intros fid i (loc & l & Hloc & Hi & Hlk & Hp & Hline). simpl. unfold set_include.
    destruct (decide (Z.to_nat index = Z.to_nat i)) as [He|Hne].
    - eexists loc, _. split_and!; [done|done| | |]; simpl.
      + rewrite He, list_lookup_alter_eq, Hlk. reflexivity.
      + done.
      + done.
    - exists loc, l. split_and!; try done. simpl. by rewrite list_lookup_alter_ne. }
  split; [|done]. split.
  - intros fid i Hf. destruct (ok_table _ Hok fid i Hf); [by left|right; by apply Hl].
  - cbn [st' fst g_locations]. apply Forall_forall. intros l [j Hj]%list_elem_of_lookup.
    pose proof (ok_locations _ Hok) as Hall. rewrite Forall_forall in Hall.
    unfold location_ok; cbn [st' fst g_locations g_paths]. unfold set_include in *.
    rewrite length_alter. destruct (decide (Z.to_nat index = j)) as [<-|Hne].
    + rewrite list_lookup_alter_eq in Hj.
      destruct (g_locations st.1 !! Z.to_nat index) as [l0|] eqn:El; simplify_eq/=.
      destruct (Hall l0) as [? _]; [by eapply list_elem_of_lookup_2|]. by split.
    + rewrite list_lookup_alter_ne in Hj by done. apply Hall. by eapply list_elem_of_lookup_2.
  - apply (ok_dom _ Hok).
  - cbn [st' fst g_locations]. unfold set_include. rewrite length_alter. apply (ok_few_locations _ Hok).
  - cbn [st' fst g_locations]. unfold set_include. rewrite length_alter. apply (ok_few_paths _ Hok).
  - apply (ok_path_table _ Hok).
Qed.

Definition chain_result (st : ChainState) (fid i : Z) : Prop :=
  (i = no_location ∧ include_location unit fid = None) ∨ located st.1 fid i.

Lemma chain_result_range st fid i :
  chain_result st fid i → i = no_location ∨ 0 ≤ i < Z.of_nat (length (g_locations st.1)).
Proof.
  intros [[-> _]|(loc & l & _ & Hi & Hl & _)]; [by left|right].
  apply lookup_lt_Some in Hl. lia.
Qed.

Lemma set_include_extends st st' l :
  extends st st' → (length (g_locations st.1) < length (g_locations st'.1))%nat →
  extends st (mkIncludeGraph (g_paths st'.1)
                (set_include (Z.of_nat (length (g_locations st.1))) l (g_locations st'.1))
                (g_file_table st'.1), st'.2).
Proof.
  intros (Hp & [k Hk] & Ht) Hlt. split_and!; [done| |done]. simpl. unfold set_include.
  rewrite Hk, Nat2Z.id. rewrite Hk, length_app in Hlt.
  destruct k as [|lo k]; [simpl in Hlt; lia|]. rewrite alter_app_r_alt, Nat.sub_diag by done.
  by eexists.
Qed.

Lemma addIncludeChain_ok fuel fid st :
  unit_ok → graph_ok st → fid ∈ all_files unit →
  (length (all_files unit) < fuel + size (dom (g_file_table st.1)))%nat →
  ∃ st' i, addIncludeChain fuel fid st = Ok (st', i) ∧ graph_ok st' ∧ extends st st' ∧
    chain_result st' fid i.
Proof.
  intros Hu. revert fid st. induction fuel as [|fuel IH]; intros fid st Hok Hall Hfuel.
  { pose proof (dom_le st Hok). lia. }
  cbn [addIncludeChain]. destruct (include_location unit fid) as [loc|] eqn:Einc;
    [|exists st, no_location; split_and!; [done|done|apply extends_refl|by left]].
  destruct (g_file_table st.1 !! fid) as [i|] eqn:Ef.
  { exists st, i. split_and!; [done|done|apply extends_refl|by apply (ok_table _ Hok)]. }
  destruct (table_path (file_path unit fid) (g_paths st.1) st.2) as [[paths table] path_id] eqn:Etp.
  destruct (push_location_ok st fid loc paths table path_id Hu Hok Hall Einc Ef Etp)
    as (Hok1 & Hext1 & Hloc1 & Hindex & Hsize).
  set (index := u32 _) in *. set (st1 := (mkIncludeGraph _ _ _, table)) in *.
  assert (∃ st2 inc, match presumed_include unit loc with
      | Some up => addIncludeChain fuel (file_id unit up) st1
      | None => Ok (st1, no_location)
      end = Ok (st2, inc) ∧ graph_ok st2 ∧ extends st1 st2 ∧
      (inc = no_location ∨ 0 ≤ inc < Z.of_nat (length (g_locations st2.1))))
    as (st2 & inc & Hr & Hok2 & Hext2 & Hinc).
  { destruct (presumed_include unit loc) as [up|] eqn:Eup.
    - destruct (IH (file_id unit up) st1 Hok1) as (st2 & inc & Hr & Hok2 & Hext2 & Hres);
        [by eapply (ok_closed Hu)|rewrite Hsize; lia|].
      exists st2, inc. split_and!; try done. by eapply chain_result_range.
    - exists st1, no_location. split_and!; [done|done|apply extends_refl|by left]. }
  change (mkIncludeGraph paths _ _, table) with st1. rewrite Hr. cbn [Res_bind fst snd].
  destruct (set_include_ok st2 index inc Hok2 Hinc) as [Hok3 Hl3].
  eexists _, index. split; [done|]. split; [done|]. split.
  - rewrite Hindex. apply set_include_extends; [by eapply extends_trans|].
    destruct Hext2 as (_ & [l ->] & _). cbn [st1 fst g_locations]. rewrite !length_app; simpl. lia.
  - right. apply Hl3. by eapply located_extends.
Qed.

Lemma chain_result_extends st st' fid i :
  extends st st' → chain_result st fid i → chain_result st' fid i.
Proof. intros He [?|?]; [by left|right]. by eapply located_extends. Qed.

(** The files handled so far have their result in the table. *)
Definition handled (pre : list Z) (st : ChainState) : Prop :=
  graph_ok st ∧
  ∀ fid, fid ∈ pre → ∃ i, g_file_table st.1 !! fid = Some i ∧ chain_result st fid i.

Lemma add_file_ok pre fid st :
  unit_ok → fid ∈ all_files unit → handled pre st →
  ∃ st', add_file fid st = Ok st' ∧ handled (pre ++ [fid]) st'.
Proof.
  intros Hu Hall [Hok Hpre].
  destruct (addIncludeChain_ok (S (length (all_files unit))) fid st Hu Hok Hall)
    as ([g' table'] & i & Hr & Hok' & Hext & Hres); [lia|].
  unfold add_file. rewrite Hr. cbn [Res_bind fst snd]. eexists. split; [done|].
  set (st2 := (mkIncludeGraph _ _ (<[fid := i]> _), table')).
  assert (∀ f j, chain_result (g', table') f j → chain_result st2 f j) as Hc by done.
  assert (∀ f j, g_file_table st2.1 !! f = Some j →
    (f = fid ∧ j = i) ∨ (f ≠ fid ∧ g_file_table g' !! f = Some j)) as Hlk.
  { intros f j Hj. cbn [st2 fst g_file_table] in Hj.
    apply lookup_insert_Some in Hj as [[<- <-]|[? ?]]; auto. }
  split; [split; try apply Hok'|].
  - intros f j Hf. destruct (Hlk f j Hf) as [[-> ->]|[_ Hj]]; apply Hc; [done|].
    by apply (ok_table _ Hok').
  - intros f [j Hj]. destruct (Hlk f j Hj) as [[-> _]|[_ ?]]; [done|].
    apply (ok_dom _ Hok'). by eexists.
  - etrans; [apply (ok_few_locations _ Hok')|]. apply subseteq_size.
    cbn [st2 fst g_file_table]. rewrite dom_insert_L. set_solver.
  - intros f Hf. destruct (decide (f = fid)) as [->|Hne].
    { exists i. split; [apply lookup_insert_eq|by apply Hc]. }
    destruct (Hpre f) as (j & Hj & Hcj); [set_solver|]. exists j. split.
    + cbn [st2 fst g_file_table]. rewrite lookup_insert_ne by done.
      destruct Hext as (_ & _ & Ht). by eapply lookup_weaken.
    + apply Hc. by eapply chain_result_extends.
Qed.

(** The path a file goes by: its own if it was included, else the main file's. *)
Definition path_of_file (fid : Z) : bytes :=
  match include_location unit fid with
  | Some _ => file_path unit fid
  | None => file_path unit (interested_file unit)
  end.

Lemma handled_path_id st fid :
  unit_ok → handled [fid] st →
  let g := mkIncludeGraph (g_paths st.1 ++ [file_path unit (interested_file unit)])
             (g_locations st.1) (g_file_table st.1) in
  ∃ id, graph_path_id g fid = Ok id ∧ 0 ≤ id < Z.of_nat (length (g_paths g)) ∧
    g_paths g !! Z.to_nat id = Some (path_of_file fid).
Proof.
  intros Hu [Hok Hf] g. destruct (Hf fid) as (i & Hi & Hres); [left|].
  pose proof (locations_few st Hu Hok) as Hfew. pose proof (ok_few_paths _ Hok) as Hfewp.
  unfold graph_path_id, include_location_id, path_of_file; cbn [g g_file_table g_paths g_locations].
  rewrite Hi, length_app. cbn [read Res_bind length].
  destruct Hres as [[-> Hnone]|(loc & l & Hinc & Hi0 & Hl & Hp & _)].
  - rewrite Z.eqb_refl. eexists. split; [done|]. rewrite Hnone.
    unfold no_location in Hfew. rewrite u32_small by (unfold two32; lia).
    split; [lia|]. rewrite lookup_app_r by lia. by replace (_ - _)%nat with 0%nat by lia.
  - pose proof (lookup_lt_Some _ _ _ Hl) as Hlt.
    destruct (Z.eqb_spec i no_location); [lia|]. rewrite Hl. cbn [read Res_bind].
    eexists. split; [done|]. rewrite Hinc.
    pose proof (ok_locations _ Hok) as Hall. rewrite Forall_forall in Hall.
    destruct (Hall l) as [? _]; [by eapply list_elem_of_lookup_2|].
    split; [lia|]. by apply lookup_app_l_Some.
Qed.

(** [from] ends in a graph whose locations are in order and whose files have ids. *)
Lemma graph_from_ok :
  unit_ok → ∃ g, graph_from = Ok g ∧ Forall (location_ok g) (g_locations g) ∧
  ∀ fid, fid ∈ files unit → ∃ id, graph_path_id g fid = Ok id ∧
    0 ≤ id < Z.of_nat (length (g_paths g)) ∧ g_paths g !! Z.to_nat id = Some (path_of_file fid).
Proof.
  intros Hu. unfold graph_from.
  destruct (for_each_prefix (E := E) handled (files unit) add_file (empty_include_graph, ∅))
    as (st & Hrun & Hok & Hfiles).
  - split; [apply empty_include_graph_ok|set_solver].
  - intros pre fid post st Hfs Hpre. apply add_file_ok; [done| |done].
    apply (ok_files Hu). rewrite Hfs. set_solver.
  - rewrite Hrun. cbn [Res_bind]. eexists. split; [done|]. split.
    + eapply Forall_impl; [apply (ok_locations _ Hok)|]. intros l [Hp Hi]. unfold location_ok; simpl.
      rewrite length_app; simpl. split; [lia|done].
    + intros fid Hfid. apply handled_path_id; [done|]. split; [done|].
      intros f ->%list_elem_of_singleton. by apply Hfiles.
Qed.
Lemma include_graph_total :
  unit_ok → ∃ g, graph_from = Ok g ∧
  ∀ fid, fid ∈ files unit → ∃ id, graph_path_id g fid = Ok id.
Proof.
  intros Hu. destruct (graph_from_ok Hu) as (g & Hg & _ & Hids). exists g. split; [done|].
  intros fid Hf. destruct (Hids fid Hf) as (id & ? & _). by exists id.
Qed.

(** C14. [IncludeGraph::from] ends, and in the graph it builds every location names
    an existing path and hangs from an existing location; every file of the unit has
    a path id, which names the file's own path if the file was included and the main
    file's path if it was not. *)
Theorem include_graph_correct :
  unit_ok → ∃ g, graph_from = Ok g ∧ Forall (location_ok g) (g_locations g) ∧
  ∀ fid, fid ∈ files unit → ∃ id, graph_path_id g fid = Ok id ∧
    0 ≤ id < Z.of_nat (length (g_paths g)) ∧ g_paths g !! Z.to_nat id = Some (path_of_file fid).
Proof. apply graph_from_ok. Qed.
End graph.

(** ** Examples *)

(** main.cpp (0) includes a.h (1), a.h includes b.h (2), b.h includes c.h (3); the
    location of an inclusion is ten times the includer. *)
Definition chain_unit : CompilationUnit :=
  mkCompilationUnit [0; 1; 2; 3] [3; 0; 1; 2]
    (λ fid, match fid with 1 => Some 0 | 2 => Some 10 | 3 => Some 20 | _ => None end)
    (λ _, 1)
    (λ loc, match loc with 10 => Some 0 | 20 => Some 10 | _ => None end)
    (λ loc, loc / 10)
    (λ fid, str "f" ++ [ascii_of_N (Z.to_N (48 + fid))]) 0.

Lemma chain_unit_ok : unit_ok chain_unit.
Proof.
  split; simpl; [set_solver| |done].
  intros fid loc up Hinc Hup. repeat case_match; simplify_eq;
    (apply (list_elem_of_lookup_2 _ 0) + apply (list_elem_of_lookup_2 _ 1)); reflexivity.
Qed.

Lemma include_graph_correct_witness :
  ∃ g id, graph_from (E := unit) chain_unit = Ok g ∧ graph_path_id (E := unit) g 2 = Ok id ∧
    g_paths g !! Z.to_nat id = Some (str "f2").
Proof.
  destruct (include_graph_correct (E := unit) chain_unit chain_unit_ok) as (g & Hg & _ & Hids).
  destruct (Hids 2) as (id & Hid & _ & Hp); [by apply (list_elem_of_lookup_2 _ 3)|].
  exists g, id. split_and!; [exact Hg|exact Hid|exact Hp].
Defined.

(** A location hangs from the location of its includer's includer: that of c.h, at
    index 0, from that of a.h, at index 1, and not from that of b.h. *)
Lemma include_skips_a_level :
  (let? g := graph_from (E := unit) chain_unit in
   let? a := include_location_id g 1 in
   let? c := include_location_id g 3 in
   let? l := read (g_locations g !! Z.to_nat c) in
   Ok (a, location_include l)) = Ok (1, 1).
Proof. vm_compute. reflexivity. Qed.
