(* ===== verification/TUIndex.v ===== *)
(** * Index of a translation unit (src/index/tu_index.{h,cpp})

    The visitor over the syntax tree reports occurrences and relations to
    [Builder]; here they are a list of events that carry what clang says about
    declarations and locations.  [build] collects them per file, sorts the tables
    and records which files mention a symbol.  The result travels to the server as
    a FlatBuffers image. *)
From S2P Require Import IndexData MergedIndex IncludeGraph.
Local Open Scope Z_scope.
Local Open Scope cpp_scope.

Record TUIndex := mkTUIndex {
  built_at : Z;
  graph : IncludeGraph;
  tu_symbols : SymbolTable;
  file_indices : gmap Z FileIndex;
  path_file_indices : gmap Z FileIndex;
  main_file_index : FileIndex;
}.

(** ** What the visitor reports *)

(** [clang::Linkage] *)
Inductive Linkage := NoLinkage | Internal | UniqueExternal | VisibleNone | ModuleLinkage
| ExternalLinkage.

Definition classify_scope (linkage : Linkage) : SymbolScope :=
  match linkage with
  | NoLinkage => FileLocal
  | Internal | ModuleLinkage => TULocal
  | _ => External
  end.

(** A declaration: its symbol id, and its own range where that is valid. *)
Record Decl := mkDecl {
  decl_symbol : Z; display_name : bytes; decl_kind : Z; linkage : Linkage;
  decl_range : option (Z * Range) }.

(** A location in a file with the range of its token, or in a macro. *)
Inductive Location :=
| InFile (fid : Z) (range : Range)
| InMacro (spelling : Z) (range : Range) (expansion : Z).

Inductive Event :=
| DeclOccurrence (decl : Decl) (location : Location)
| MacroOccurrence (symbol : Z) (kind : RelationKind) (location : Location)
| RelationFound (decl : Decl) (kind : RelationKind) (target fid : Z) (range : Range).

(** ** Builder *)

Definition update_file (fid : Z) (f : FileIndex → FileIndex) (tu : TUIndex) : TUIndex :=
  mkTUIndex (built_at tu) (graph tu) (tu_symbols tu)
    (<[fid := f (get_or empty_file_index (file_indices tu) fid)]> (file_indices tu))
    (path_file_indices tu) (main_file_index tu).

Definition set_symbols (symbols : SymbolTable) (tu : TUIndex) : TUIndex :=
  mkTUIndex (built_at tu) (graph tu) symbols (file_indices tu) (path_file_indices tu)
    (main_file_index tu).

Definition push_occurrence (o : Occurrence) (f : FileIndex) : FileIndex :=
  mkFileIndex (f_relations f) (f_occurrences f ++ [o]).

Definition push_relation (symbol : Z) (r : Relation) (f : FileIndex) : FileIndex :=
  mkFileIndex (<[symbol := get_or [] (f_relations f) symbol ++ [r]]> (f_relations f))
    (f_occurrences f).

(** Where an occurrence is recorded: at the spelling, if it is in the file of the
    expansion. *)
Definition occurrence_place (location : Location) : option (Z * Range) :=
  match location with
  | InFile fid range => Some (fid, range)
  | InMacro spelling range expansion => if spelling =? expansion then Some (spelling, range) else None
  end.

Definition handleDeclOccurrence (decl : Decl) (location : Location) (tu : TUIndex) : TUIndex :=
  match occurrence_place location with
  | None => tu
  | Some (fid, range) =>
    let symbol := mkSymbol (display_name decl) (decl_kind decl) (classify_scope (linkage decl)) ∅ in
    update_file fid (push_occurrence (mkOccurrence range (decl_symbol decl)))
      (set_symbols (try_emplace (tu_symbols tu) (decl_symbol decl) symbol) tu)
  end.

Definition handleMacroOccurrence (symbol : Z) (kind : RelationKind) (location : Location)
    (tu : TUIndex) : TUIndex :=
  match location with
  | InMacro _ _ _ => tu
  | InFile fid range =>
    update_file fid (λ f, push_relation symbol (mkRelation kind range 0)
                            (push_occurrence (mkOccurrence range symbol) f)) tu
  end.

(** [LocalSourceRange()] *)
Definition no_range : Range := mkRange no_location no_location.

(** The relation recorded for a declaration; [assert(fid == fid2)] and
    [std::unreachable] are undefined behaviour. *)
Definition make_relation {E} (decl : Decl) (kind : RelationKind) (target fid : Z)
    (range : Range) : Res E Relation :=
  if isDeclOrDef kind then
    let relation := mkRelation kind range 0 in
    match decl_range decl with
    | None => Ok relation
    | Some (fid2, definition) =>
      if fid =? fid2 then Ok (set_definition_range relation definition) else Fault
    end
  else if isReference kind then Ok (mkRelation kind range 0)
  else if isBetweenSymbol kind then Ok (mkRelation kind no_range target)
  else if isCall kind then Ok (mkRelation kind range target)
  else Fault.

Definition handleRelation {E} (decl : Decl) (kind : RelationKind) (target fid : Z)
    (range : Range) (tu : TUIndex) : Res E TUIndex :=
  let? relation := make_relation decl kind target fid range in
  Ok (update_file fid (push_relation (decl_symbol decl) relation) tu).

Definition handle {E} (event : Event) (tu : TUIndex) : Res E TUIndex :=
  match event with
  | DeclOccurrence decl location => Ok (handleDeclOccurrence decl location tu)
  | MacroOccurrence symbol kind location => Ok (handleMacroOccurrence symbol kind location tu)
  | RelationFound decl kind target fid range => handleRelation decl kind target fid range tu
  end.

(** [symbols[symbol_id].reference_files.add(path_id)] *)
Definition add_reference (symbol path_id : Z) (table : SymbolTable) : SymbolTable :=
  let s := get_or new_symbol table symbol in
  <[symbol := mkSymbol (name s) (symbol_kind s) (scope s) ({[path_id]} ∪ reference_files s)]> table.

(** The references of one file; [graph.path_id(fid)] asserts that the file is
    known. *)
Definition reference_file {E} (ord : Order) (g : IncludeGraph) (e : Z * FileIndex)
    (table : SymbolTable) : Res E SymbolTable :=
  for_each (entries ord (f_relations e.2)) (λ r table,
    let? path_id := graph_path_id g e.1 in
    Ok (add_reference r.1 path_id table)) table.

Definition build {E} (ord : Order) (unit : CompilationUnit) (build_time : Z)
    (events : list Event) : Res E TUIndex :=
  let? g := graph_from unit in
  let? tu := for_each events handle (mkTUIndex build_time g ∅ ∅ ∅ empty_file_index) in
  let? table := for_each (entries ord (file_indices tu)) (reference_file ord g) (tu_symbols tu) in
  let finished := finish_file <$> file_indices tu in
  Ok (mkTUIndex (built_at tu) g table (delete (interested_file unit) finished) ∅
        (get_or empty_file_index finished (interested_file unit))).

(** ** Images *)

Record TUFileRelationsEntry := mkTUFileRelationsEntry {
  tr_symbol : Z; tr_relations : option (list Relation) }.
Record TUFileIndexEntry := mkTUFileIndexEntry {
  tf_file_id : Z; tf_occurrences : option (list Occurrence);
  tf_relations : option (list TUFileRelationsEntry) }.
Record FbTUIndex := mkFbTUIndex {
  ft_built_at : Z; ft_paths : list bytes; ft_locations : list IncludeLocation;
  ft_symbols : list SymbolEntry; ft_file_indices : option (list TUFileIndexEntry);
  ft_main_file_index : option TUFileIndexEntry }.

Definition serialize_file_index (ord : Order) (fid : Z) (index : FileIndex) : TUFileIndexEntry :=
  mkTUFileIndexEntry fid (Some (f_occurrences index))
    (Some ((λ e : Z * list Relation, mkTUFileRelationsEntry e.1 (Some e.2))
             <$> entries ord (f_relations index))).

Definition deserialize_file_index (entry : TUFileIndexEntry) : FileIndex :=
  mkFileIndex
    (foldl (λ m e, <[tr_symbol e := get_or [] m (tr_symbol e) ++ default [] (tr_relations e)]> m) ∅
       (default [] (tf_relations entry)))
    (default [] (tf_occurrences entry)).

(** [std::chrono::milliseconds(uint64)]: a 64-bit signed count. *)
Definition i64 (z : Z) : Z := if u64 z <? two64 / 2 then u64 z else u64 z - two64.

Section images.
Context {E : Type} `{Roaring} `{FlatBuffer FbTUIndex}.

Definition tu_serialize (ord : Order) (tu : TUIndex) : Res E bytes :=
  let? files := for_each (entries ord (file_indices tu)) (λ e l,
    let? pid := graph_path_id (graph tu) e.1 in
    Ok (l ++ [serialize_file_index ord pid e.2])) [] in
  let main := serialize_file_index ord (u32 (Z.of_nat (length (g_paths (graph tu))) - 1))
                (main_file_index tu) in
  Ok (finish (mkFbTUIndex (u64 (built_at tu)) (g_paths (graph tu)) (g_locations (graph tu))
    (symbol_entry <$> entries ord (tu_symbols tu)) (Some files) (Some main))).

Definition from_symbol (table : SymbolTable) (entry : SymbolEntry) : Res E SymbolTable :=
  let? s := read (se_symbol entry) in
  let? n := read (fs_name s) in
  Ok (<[se_symbol_id entry := mkSymbol n (fs_kind s) (scope_cast (fs_scope s))
                                (read_bitmap (fs_refs s))]> table).

Definition tu_from (data : bytes) : Res E TUIndex :=
  let? root := read (get_root data) in
  let? table := for_each (ft_symbols root) (λ e m, from_symbol m e) ∅ in
  let files := foldl (λ m e, <[tf_file_id e := deserialize_file_index e]> m) ∅
                 (default [] (ft_file_indices root)) in
  let main := match ft_main_file_index root with
              | Some e => deserialize_file_index e
              | None => empty_file_index
              end in
  Ok (mkTUIndex (i64 (ft_built_at root)) (mkIncludeGraph (ft_paths root) (ft_locations root) ∅)
        table ∅ files main).
End images.
