(* ===== verification/TUTheorems.v ===== *)
(** * Building and shipping the index of a translation unit

    The index holds exactly the reported occurrences and relations, sorted and
    without duplicates, and the references of a symbol are the files that mention
    it.  The image a worker sends gives the server the same index, except that of
    several files with one path only one arrives. *)
From S2P Require Import IndexData MergedIndex MergedImage IncludeGraph TUIndex IndexLibraries.
Local Open Scope Z_scope.
Local Open Scope cpp_scope.

(** ** What events record *)

(** The occurrence of a declaration is that of its spelling; one in a macro counts when the
    spelling and the expansion are in one file. *)
Definition occurs (ev : Event) (fid : Z) (o : Occurrence) : Prop :=
  match ev with
  | DeclOccurrence d (InFile f range) => f = fid ∧ o = mkOccurrence range (decl_symbol d)
  | DeclOccurrence d (InMacro spelling range expansion) =>
    spelling = fid ∧ expansion = fid ∧ o = mkOccurrence range (decl_symbol d)
  | MacroOccurrence s _ (InFile f range) => f = fid ∧ o = mkOccurrence range s
  | _ => False
  end.

(** The relation a report is to leave, kind by kind: a declaration or definition has the range
    of its name and, if it has one, its whole range in place of a target; a reference has a
    range only; a relation between symbols a target only; a call both. *)
Inductive recorded (d : Decl) (target fid : Z) (range : Range) : RelationKind → Relation → Prop :=
| recorded_name kind :
    kind ∈ [Declaration; Definition_] → decl_range d = None →
    recorded d target fid range kind (mkRelation kind range 0)
| recorded_range kind whole :
    kind ∈ [Declaration; Definition_] → decl_range d = Some (fid, whole) →
    recorded d target fid range kind (mkRelation kind range (range_bits whole))
| recorded_reference kind :
    kind ∈ [Reference; WeakReference] →
    recorded d target fid range kind (mkRelation kind range 0)
| recorded_symbol kind :
    kind ∈ [Interface; Implementation; TypeDefinition; Base; Derived; Constructor; Destructor] →
    recorded d target fid range kind (mkRelation kind no_range target)
| recorded_call kind :
    kind ∈ [Caller; Callee] →
    recorded d target fid range kind (mkRelation kind range target).

Definition relates (ev : Event) (fid s : Z) (r : Relation) : Prop :=
  match ev with
  | MacroOccurrence s' kind (InFile f range) => f = fid ∧ s' = s ∧ r = mkRelation kind range 0
  | RelationFound d kind target f range =>
    f = fid ∧ decl_symbol d = s ∧ recorded d target f range kind r
  | _ => False
  end.

(** The kinds [SemanticVisitor] passes to [handleRelation]; [Invalid], [Read] and [Write] are
    not among them. *)
Definition visited_kinds : list RelationKind :=
  [Declaration; Definition_; Reference; WeakReference; Interface; Implementation; TypeDefinition;
   Base; Derived; Constructor; Destructor; Caller; Callee].

(** Reports of the visitor: of these kinds, about files of the unit. *)
Definition visited (u : CompilationUnit) (ev : Event) : Prop :=
  match ev with
  | RelationFound d kind target fid range => kind ∈ visited_kinds ∧ fid ∈ files u
  | MacroOccurrence _ _ (InFile fid _) => fid ∈ files u
  | _ => True
  end.

(** A declaration or definition begins in the file its name is in. *)
Definition in_own_file (ev : Event) : Prop :=
  match ev with
  | RelationFound d kind _ fid _ =>
    kind = Declaration ∨ kind = Definition_ →
    ∀ fid2 whole, decl_range d = Some (fid2, whole) → fid2 = fid
  | _ => True
  end.

Definition event_ok (u : CompilationUnit) (ev : Event) : Prop := visited u ev ∧ in_own_file ev.

Lemma make_relation_recorded {E} d kind target fid range r :
  make_relation (E := E) d kind target fid range = Ok r ↔ recorded d target fid range kind r.
Proof.
  unfold make_relation. split.
  - destruct kind; cbn; try done;
      try (intros [= <-]; constructor; set_solver); (destruct (decl_range d) as [[fid2 whole]|] eqn:Ed;
        [destruct (Z.eqb_spec fid fid2) as [<-|]; [|done]; intros [= <-]; apply recorded_range; [set_solver|done]
        |intros [= <-]; apply recorded_name; [set_solver|done]]).
  - intros []; set_unfold; repeat match goal with H : _ ∨ _ |- _ => destruct H end; subst; try done; cbn;
      rewrite ?H0, ?Z.eqb_refl; try done; by match goal with H : decl_range _ = _ |- _ => rewrite H, ?Z.eqb_refl end.
Qed.

Lemma make_relation_ok {E} u d kind target fid range :
  event_ok u (RelationFound d kind target fid range) →
  ∃ r, make_relation (E := E) d kind target fid range = Ok r.
Proof.
  intros [[Hk _] Hown]. simpl in Hown. unfold make_relation. unfold visited_kinds in Hk.
  destruct (decl_range d) as [[fid2 whole]|].
  - assert (isDeclOrDef kind → fid2 = fid) as He.
    { intros Hd. eapply Hown; [|done]. destruct kind; cbn in Hd; try done; first [by left|by right]. }
    destruct (isDeclOrDef kind) eqn:Ed; [rewrite (He I), Z.eqb_refl; by eexists|].
    destruct kind; try done; cbn; try (by eexists); exfalso; set_solver.
  - destruct kind; cbn; try (by eexists); exfalso; set_solver.
Qed.

(** A declaration in another file trips the assertion. *)
Lemma make_relation_misplaced {E} d kind target fid range :
  ¬ in_own_file (RelationFound d kind target fid range) →
  make_relation (E := E) d kind target fid range = Fault.
Proof.
  intros Hn. unfold make_relation. simpl in Hn. destruct (decl_range d) as [[fid2 whole]|].
  - destruct (decide (kind = Declaration ∨ kind = Definition_)) as [Hk|Hk]; [|tauto].
    destruct (decide (fid2 = fid)) as [|Hne]; [exfalso; naive_solver|].
    destruct (Z.eqb_spec fid fid2); [done|]. by destruct Hk as [-> | ->].
  - exfalso. apply Hn. by intros _ ? ? ?.
Qed.

Definition file_at (tu : TUIndex) (fid : Z) : FileIndex :=
  get_or empty_file_index (file_indices tu) fid.

Definition relations_at (f : FileIndex) (s : Z) : list Relation := get_or [] (f_relations f) s.

#[local] Arguments file_at : simpl never.
#[local] Arguments relations_at : simpl never.
#[local] Arguments update_file : simpl never.

Lemma file_at_update fid f tu fid' :
  file_at (update_file fid f tu) fid' =
  if decide (fid = fid') then f (file_at tu fid) else file_at tu fid'.
Proof. apply get_or_update. Qed.

Lemma file_at_set_symbols table tu fid : file_at (set_symbols table tu) fid = file_at tu fid.
Proof. done. Qed.

Lemma relations_at_push s r f s' :
  relations_at (push_relation s r f) s' =
  if decide (s = s') then relations_at f s ++ [r] else relations_at f s'.
Proof. apply get_or_update. Qed.

Lemma relations_at_occurrence o f s : relations_at (push_occurrence o f) s = relations_at f s.
Proof. done. Qed.

(** ** The events seen so far *)

Record collected (u : CompilationUnit) (g : IncludeGraph) (t : Z) (pre : list Event)
    (tu : TUIndex) : Prop := {
  col_rest : built_at tu = t ∧ graph tu = g;
  col_occurrences : ∀ fid o, o ∈ f_occurrences (file_at tu fid) ↔ ∃ ev, ev ∈ pre ∧ occurs ev fid o;
  col_relations : ∀ fid s r, r ∈ relations_at (file_at tu fid) s ↔
    ∃ ev, ev ∈ pre ∧ relates ev fid s r;
  col_nonempty : ∀ fid s, f_relations (file_at tu fid) !! s ≠ Some [];
  col_symbols : ∀ s sym, tu_symbols tu !! s = Some sym → reference_files sym = ∅ ∧ scope_ok (scope sym);
  col_files : ∀ fid s r, r ∈ relations_at (file_at tu fid) s → fid ∈ files u;
}.

Lemma elem_of_snoc_ex {A} (P : A → Prop) (l : list A) (a : A) :
  (∃ x, x ∈ l ++ [a] ∧ P x) ↔ (∃ x, x ∈ l ∧ P x) ∨ P a.
Proof. set_solver. Qed.

Lemma push_relation_nonempty s r f :
  (∀ s, f_relations f !! s ≠ Some []) → ∀ s', f_relations (push_relation s r f) !! s' ≠ Some [].
Proof.
  intros Hf s'. simpl. rewrite lookup_insert_Some. intros [[_ Hx]|[_ Hx]]; [|by apply (Hf s')].
  by destruct (get_or [] (f_relations f) s).
Qed.

(** An event that records nothing. *)
Lemma collected_skip u g t pre ev tu :
  collected u g t pre tu → (∀ fid o, ¬ occurs ev fid o) → (∀ fid s r, ¬ relates ev fid s r) →
  collected u g t (pre ++ [ev]) tu.
Proof.
  intros [Hrest Hocc Hrel Hne Hsym Hfiles] Ho Hr.
  split; try done; intros; rewrite elem_of_snoc_ex, ?Hocc, ?Hrel; naive_solver.
Qed.

Lemma occurs_place d loc fid o :
  occurs (DeclOccurrence d loc) fid o ↔
  ∃ range, occurrence_place loc = Some (fid, range) ∧ o = mkOccurrence range (decl_symbol d).
Proof.
  destruct loc as [f range|spelling range expansion]; simpl; [naive_solver|].
  destruct (Z.eqb_spec spelling expansion); naive_solver.
Qed.

Lemma decl_collected u g t pre d loc tu :
  collected u g t pre tu →
  collected u g t (pre ++ [DeclOccurrence d loc]) (handleDeclOccurrence d loc tu).
Proof.
  intros Hcol. pose proof Hcol as [Hrest Hocc Hrel Hne Hsym Hfiles].
  unfold handleDeclOccurrence.
  destruct (occurrence_place loc) as [[fid range]|] eqn:Ep.
  - split; cbn; try done.
    + intros fid' o. rewrite elem_of_snoc_ex, file_at_update, !file_at_set_symbols, occurs_place, Ep.
      destruct (decide (fid = fid')) as [->|]; cbn; rewrite ?elem_of_app, Hocc;
        [rewrite list_elem_of_singleton|]; naive_solver.
    + intros fid' s r. rewrite elem_of_snoc_ex, file_at_update, !file_at_set_symbols; cbn.
      destruct (decide (fid = fid')) as [->|]; rewrite ?relations_at_occurrence, Hrel; naive_solver.
    + intros fid' s. rewrite file_at_update, !file_at_set_symbols. destruct (decide (fid = fid')); cbn; apply Hne.
    + intros s sym. unfold update_file, set_symbols; cbn [tu_symbols]. unfold try_emplace.
      case_match; [apply Hsym|].
      rewrite lookup_insert_Some. intros [[_ <-]|[_ ?]]; [|by apply (Hsym s)].
      split; [done|]. by destruct (linkage d).
    + intros fid' s r. rewrite file_at_update, !file_at_set_symbols. destruct (decide (fid = fid')) as [->|]; apply Hfiles.
  - apply collected_skip; [done| |by intros ? ? ? []]. intros fid o (range & Hp & _)%occurs_place. congruence.
Qed.

Lemma macro_collected u g t pre s kind fid range tu :
  collected u g t pre tu → fid ∈ files u →
  collected u g t (pre ++ [MacroOccurrence s kind (InFile fid range)])
    (handleMacroOccurrence s kind (InFile fid range) tu).
Proof.
  intros [Hrest Hocc Hrel Hne Hsym Hfiles] Hok.
  unfold handleMacroOccurrence. split; cbn; try done.
  - intros fid' o. rewrite elem_of_snoc_ex, file_at_update; cbn.
    destruct (decide (fid = fid')) as [->|]; cbn; rewrite ?elem_of_app, Hocc;
      [rewrite list_elem_of_singleton|]; naive_solver.
  - intros fid' s' r. rewrite elem_of_snoc_ex, file_at_update; cbn.
    destruct (decide (fid = fid')) as [->|]; [rewrite relations_at_push|rewrite Hrel; naive_solver].
    rewrite !relations_at_occurrence.
    destruct (decide (s = s')) as [->|]; [rewrite elem_of_app, list_elem_of_singleton|];
      rewrite Hrel; naive_solver.
  - intros fid' s'. rewrite file_at_update. destruct (decide (fid = fid')); [|apply Hne].
    apply push_relation_nonempty. apply Hne.
  - intros fid' s' r. rewrite file_at_update. destruct (decide (fid = fid')) as [->|]; [done|apply Hfiles].
Qed.

Lemma relation_collected {E} u g t pre d kind target fid range tu :
  collected u g t pre tu → event_ok u (RelationFound d kind target fid range) →
  ∃ tu', handleRelation (E := E) d kind target fid range tu = Ok tu' ∧
    collected u g t (pre ++ [RelationFound d kind target fid range]) tu'.
Proof.
  intros [Hrest Hocc Hrel Hne Hsym Hfiles] Hok.
  destruct (make_relation_ok (E := E) _ _ _ _ _ _ Hok) as (r0 & Hr0).
  destruct Hok as [[_ Hfid] _].
  assert (∀ r, recorded d target fid range kind r ↔ r = r0) as Hr0'.
  { intros r. rewrite <- (make_relation_recorded (E := E)), Hr0. naive_solver. }
  unfold handleRelation. rewrite Hr0. eexists. split; [done|]. split; cbn; try done.
  - intros fid' o. rewrite elem_of_snoc_ex, file_at_update; cbn.
    destruct (decide (fid = fid')) as [->|]; cbn; rewrite Hocc; naive_solver.
  - intros fid' s r. rewrite elem_of_snoc_ex, file_at_update; cbn. rewrite (Hr0' r).
    destruct (decide (fid = fid')) as [->|]; [rewrite relations_at_push|rewrite Hrel; naive_solver].
    destruct (decide (decl_symbol d = s)) as [->|];
      [rewrite elem_of_app, list_elem_of_singleton|]; rewrite Hrel; naive_solver.
  - intros fid' s. rewrite file_at_update. destruct (decide (fid = fid')); [|apply Hne].
    apply push_relation_nonempty. apply Hne.
  - intros fid' s r. rewrite file_at_update. destruct (decide (fid = fid')) as [->|]; [done|apply Hfiles].
Qed.

Lemma handle_collected {E} u g t pre ev tu :
  collected u g t pre tu → event_ok u ev →
  ∃ tu', handle (E := E) ev tu = Ok tu' ∧ collected u g t (pre ++ [ev]) tu'.
Proof.
  intros Hcol Hok. destruct ev as [d loc|s kind [fid range|? ? ?]|d kind target fid range].
  - eexists. split; [done|]. by apply decl_collected.
  - eexists. split; [done|]. apply macro_collected; [done|apply Hok].
  - exists tu. split; [done|]. by apply collected_skip; [|intros ? ? []|intros ? ? ? []].
  - by apply relation_collected.
Qed.

(** ** References *)

Definition refs_of (table : SymbolTable) (s : Z) : Bitmap :=
  reference_files (get_or new_symbol table s).

Lemma refs_of_add s x table s' :
  refs_of (add_reference s x table) s' =
  if decide (s = s') then {[x]} ∪ refs_of table s else refs_of table s'.
Proof. unfold refs_of, add_reference. rewrite get_or_update. by case_decide. Qed.

Definition scopes_ok (table : SymbolTable) : Prop :=
  ∀ s sym, table !! s = Some sym → scope_ok (scope sym).

Lemma add_reference_scopes s x table : scopes_ok table → scopes_ok (add_reference s x table).
Proof.
  intros Hs s' sym. unfold add_reference. rewrite lookup_insert_Some.
  intros [[_ <-]|[_ ?]]; [|by apply (Hs s')]. simpl. unfold get_or.
  destruct (table !! s) eqn:Es; [by apply (Hs s)|done].
Qed.

Lemma reference_file_ok {E} ord g fid f table id :
  graph_path_id (E := E) g fid = Ok id ∨ f_relations f = ∅ → scopes_ok table →
  ∃ table', reference_file (E := E) ord g (fid, f) table = Ok table' ∧ scopes_ok table' ∧
    ∀ s x, x ∈ refs_of table' s ↔ x ∈ refs_of table s ∨ (x = id ∧ is_Some (f_relations f !! s)).
Proof.
  intros Hid Hsc. unfold reference_file. cbn [fst snd].
  destruct (for_each_prefix (E := E)
    (λ (pre : list (Z * list Relation)) table', scopes_ok table' ∧
       ∀ s x, x ∈ refs_of table' s ↔ x ∈ refs_of table s ∨ (x = id ∧ s ∈ pre.*1))
    (entries ord (f_relations f))
    (λ r table, let? path_id := graph_path_id g fid in Ok (add_reference r.1 path_id table)) table)
    as (table' & Hrun & Hsc' & Hrefs).
  - split; [done|]. set_solver.
  - intros pre [s rs] post table1 Hl [Hsc1 Hr1].
    destruct Hid as [Hid|Hid]; [|apply (entries_nil ord) in Hid; rewrite Hid in Hl; by destruct pre].
    rewrite Hid. cbn [Res_bind fst]. eexists. split; [done|].
    split; [by apply add_reference_scopes|]. intros s' x. rewrite refs_of_add, fmap_app.
    destruct (decide (s = s')) as [->|]; rewrite ?elem_of_union, Hr1; set_solver.
  - exists table'. split_and!; [done|done|]. intros s x. rewrite Hrefs, list_elem_of_fmap. split.
    + intros [?|(-> & [s' rs] & -> & Hin%elem_of_entries)]; [by left|right]. split; [done|]. by eexists.
    + intros [?|(-> & rs & Hrs)]; [by left|right]. split; [done|]. exists (s, rs).
      split; [done|]. by apply elem_of_entries.
Qed.

(** The index of a file in the result. *)
Definition index_of (u : CompilationUnit) (tu : TUIndex) (fid : Z) : FileIndex :=
  if decide (fid = interested_file u) then main_file_index tu else file_at tu fid.

Definition finished (f : FileIndex) : Prop :=
  StronglySorted (key_le occurrence_key) (f_occurrences f) ∧ NoDup (f_occurrences f) ∧
  ∀ s, StronglySorted (key_le relation_key) (relations_at f s) ∧ NoDup (relations_at f s).

Lemma finish_file_ok f :
  finished (finish_file f) ∧
  (∀ o, o ∈ f_occurrences (finish_file f) ↔ o ∈ f_occurrences f) ∧
  (∀ s r, r ∈ relations_at (finish_file f) s ↔ r ∈ relations_at f s).
Proof.
  assert (∀ s, relations_at (finish_file f) s = finish_relations (relations_at f s)) as Hrel.
  { intros s. unfold relations_at, get_or, finish_file; cbn [f_relations]. rewrite lookup_fmap.
    by destruct (f_relations f !! s). }
  split_and!.
  - split; [apply unique_sorted, sort_by_sorted; apply _|].
    split; [apply (unique_sorted occurrence_key), sort_by_sorted|]. intros s. rewrite Hrel.
    apply (unique_sorted relation_key), sort_by_sorted.
  - intros o. cbn [finish_file f_occurrences]. unfold finish_occurrences.
    by rewrite elem_of_unique, elem_of_sort_by.
  - intros s r. rewrite Hrel. unfold finish_relations. by rewrite elem_of_unique, elem_of_sort_by.
Qed.

Lemma collected_start u g t :
  collected u g t [] (mkTUIndex t g ∅ ∅ ∅ empty_file_index).
Proof.
  split; try done; unfold file_at, relations_at; cbn; try set_solver.
Qed.

(** Files with relations are files of the unit. *)
Lemma collected_file u g t evs tu fid f :
  collected u g t evs tu → file_indices tu !! fid = Some f → f_relations f = ∅ ∨ fid ∈ files u.
Proof.
  intros [_ _ _ Hne _ Hfiles] Hf. destruct (decide (f_relations f = ∅)) as [|Hn]; [by left|right].
  destruct (map_choose _ Hn) as (s & rs & Hs).
  assert (file_at tu fid = f) as Ef by (unfold file_at, get_or; by rewrite Hf).
  specialize (Hne fid s). rewrite Ef in Hne. destruct rs as [|r rs]; [done|].
  apply (Hfiles fid s r). rewrite Ef. unfold relations_at, get_or. rewrite Hs. left.
Qed.

Definition refers {E} (g : IncludeGraph) (l : list (Z * FileIndex)) (s x : Z) : Prop :=
  ∃ fid f, (fid, f) ∈ l ∧ is_Some (f_relations f !! s) ∧ graph_path_id (E := E) g fid = Ok x.

Lemma reference_files_ok {E} ord (g : IncludeGraph) (l : list (Z * FileIndex)) table :
  (∀ fid f, (fid, f) ∈ l → f_relations f = ∅ ∨ ∃ id, graph_path_id (E := E) g fid = Ok id) →
  scopes_ok table → (∀ s, refs_of table s = ∅) →
  ∃ table', for_each (E := E) l (reference_file ord g) table = Ok table' ∧ scopes_ok table' ∧
    ∀ s x, x ∈ refs_of table' s ↔ refers (E := E) g l s x.
Proof.
  intros Hl Hsc Hempty.
  apply (for_each_prefix (E := E) (λ pre table', scopes_ok table' ∧
    ∀ s x, x ∈ refs_of table' s ↔ refers (E := E) g pre s x)).
  - split; [done|]. intros s x. rewrite Hempty. split; [set_solver|]. intros (? & ? & ? & _). set_solver.
  - intros pre [fid f] post table1 -> [Hsc1 Hr1].
    assert (∃ id, f_relations f = ∅ ∨ graph_path_id (E := E) g fid = Ok id) as [id Hid].
    { destruct (Hl fid f) as [?|[id ?]]; [set_solver|exists 0; by left|exists id; by right]. }
    destruct (reference_file_ok (E := E) ord g fid f table1 id) as (table2 & Hrun & Hsc2 & Hr2);
      [tauto|done|].
    exists table2. split; [done|]. split; [done|]. intros s x. rewrite Hr2, Hr1.
    unfold refers. setoid_rewrite elem_of_app. setoid_rewrite list_elem_of_singleton. split.
    + intros [(fid' & f' & ? & ? & ?)|[-> Hs]]; [exists fid', f'; auto|].
      exists fid, f. split_and!; [by right|done|]. destruct Hid as [He|?]; [|done].
      rewrite He in Hs. by destruct Hs.
    + intros (fid' & f' & [?|[= -> ->]] & Hs & Hp); [left; by exists fid', f'|right].
      destruct Hid as [He|?]; [rewrite He in Hs; by destruct Hs|]. split; [congruence|done].
Qed.

Lemma build_ok {E} ord u t events :
  unit_ok u → Forall (event_ok u) events →
  ∃ tu, build (E := E) ord u t events = Ok tu ∧ built_at tu = t ∧
    graph_from (E := E) u = Ok (graph tu) ∧
    (∀ fid, finished (index_of u tu fid)) ∧
    (∀ fid o, o ∈ f_occurrences (index_of u tu fid) ↔ ∃ ev, ev ∈ events ∧ occurs ev fid o) ∧
    (∀ fid s r, r ∈ relations_at (index_of u tu fid) s ↔ ∃ ev, ev ∈ events ∧ relates ev fid s r) ∧
    (∀ s x, x ∈ refs_of (tu_symbols tu) s ↔
       ∃ fid ev r, ev ∈ events ∧ relates ev fid s r ∧ graph_path_id (E := E) (graph tu) fid = Ok x).
Proof.
  intros Hu Hevs. destruct (include_graph_total (E := E) u Hu) as (g & Hg & Hids).
  destruct (for_each_prefix (E := E) (λ pre, collected u g t pre) events handle
    (mkTUIndex t g ∅ ∅ ∅ empty_file_index)) as (tu & Hrun & Hcol).
  { apply collected_start. }
  { intros pre ev post tu -> Hcol. apply handle_collected; [done|].
    apply Forall_app in Hevs as [_ [? _]%Forall_cons]. done. }
  pose proof Hcol as [[Ht Hgr] Hocc Hrel Hne Hsym _].
  destruct (reference_files_ok (E := E) ord g (entries ord (file_indices tu)) (tu_symbols tu))
    as (table & Hrefs & _ & Htab).
  { intros fid f Hin%elem_of_entries. destruct (collected_file _ _ _ _ _ _ _ Hcol Hin) as [?|Hf];
      [by left|right; by apply Hids]. }
  { intros s sym Hs. by apply (Hsym s). }
  { intros s. unfold refs_of, get_or. destruct (tu_symbols tu !! s) eqn:Es; [by apply (Hsym s)|done]. }
  unfold build. rewrite Hg. cbn [Res_bind]. rewrite Hrun. cbn [Res_bind]. rewrite Hrefs.
  cbn [Res_bind]. eexists. split; [done|]. cbn [built_at graph tu_symbols].
  set (result := mkTUIndex _ _ _ _ _ _).
  assert (∀ fid, index_of u result fid = finish_file (file_at tu fid)) as Hidx.
  { intros fid. unfold index_of, file_at, get_or, result; cbn [main_file_index file_indices].
    case_decide as E1; [subst; unfold get_or|rewrite lookup_delete_ne by done];
      rewrite lookup_fmap; by destruct (file_indices tu !! _). }
  split_and!; [done|done|..].
  - intros fid. rewrite Hidx. apply finish_file_ok.
  - intros fid o. rewrite Hidx, <- Hocc. apply finish_file_ok.
  - intros fid s r. rewrite Hidx, <- Hrel. apply finish_file_ok.
  - intros s x. rewrite Htab. split.
    + intros (fid & f & Hin%elem_of_entries & [rs Hs] & Hp).
      assert (file_at tu fid = f) as Ef by (unfold file_at, get_or; by rewrite Hin).
      destruct rs as [|r rs]; [by specialize (Hne fid s); rewrite Ef in Hne|].
      destruct (proj1 (Hrel fid s r)) as (ev & ? & ?);
        [rewrite Ef; unfold relations_at, get_or; rewrite Hs; left|]. by exists fid, ev, r.
    + intros (fid & ev & r & Hev & Hr & Hp).
      assert (r ∈ relations_at (file_at tu fid) s) as Hin by (apply Hrel; eauto).
      unfold file_at, relations_at, get_or in Hin.
      destruct (file_indices tu !! fid) as [f|] eqn:Ef; simpl in Hin; [|set_solver].
      destruct (f_relations f !! s) as [rs|] eqn:Es; [|set_solver].
      exists fid, f. split_and!; [by apply elem_of_entries|by rewrite Es|done].
Qed.

Lemma for_each_fault {E A S} (l : list A) (body : A → S → Res E S) (bad : A) s :
  (∀ a s, (∃ s', body a s = Ok s') ∨ body a s = Fault) → (∀ s, body bad s = Fault) → bad ∈ l →
  for_each l body s = Fault.
Proof.
  intros Hb Hbad Hin. revert s. induction l as [|a l IH]; intros s; [set_solver|]. simpl.
  apply elem_of_cons in Hin as [<-|Hin]; [by rewrite Hbad|].
  destruct (Hb a s) as [[s' ->]| ->]; [|done]. simpl. by apply IH.
Qed.

Lemma handle_ok_or_fault {E} ev tu : (∃ tu', handle (E := E) ev tu = Ok tu') ∨ handle (E := E) ev tu = Fault.
Proof.
  destruct ev as [| |d kind target fid range]; simpl; [by left; eexists..|]. unfold handleRelation, make_relation.
  repeat case_match; simpl; first [by right|by left; eexists].
Qed.

(** C12. For the reports the visitor makes (of the kinds it uses, about files of the unit) on a
    unit whose include locations lie in its fewer than 2^32 - 1 files: when every declaration
    and definition begins in the file its name is in, building the index has no undefined
    behaviour, each file's tables hold exactly the occurrences and relations to be recorded
    for it, by kind of report, sorted and without duplicates, with those of the main file apart
    from the others, and the references of a symbol are exactly the paths of the files in which
    it has a relation; when some declaration or definition begins in another file than its name
    (part of it comes from an included file), the build trips the assertion. *)
Theorem build_correct {E} ord u t events :
  unit_ok u → Forall (visited u) events →
  (Forall in_own_file events →
   ∃ tu, build (E := E) ord u t events = Ok tu ∧ built_at tu = t ∧
    graph_from (E := E) u = Ok (graph tu) ∧
    (∀ fid, finished (index_of u tu fid)) ∧
    (∀ fid o, o ∈ f_occurrences (index_of u tu fid) ↔ ∃ ev, ev ∈ events ∧ occurs ev fid o) ∧
    (∀ fid s r, r ∈ relations_at (index_of u tu fid) s ↔ ∃ ev, ev ∈ events ∧ relates ev fid s r) ∧
    (∀ s x, x ∈ refs_of (tu_symbols tu) s ↔
       ∃ fid ev r, ev ∈ events ∧ relates ev fid s r ∧ graph_path_id (E := E) (graph tu) fid = Ok x)) ∧
  ((∃ ev, ev ∈ events ∧ ¬ in_own_file ev) → build (E := E) ord u t events = Fault).
Proof.
  intros Hu Hv. split.
  - intros Hown. apply build_ok; [done|]. apply Forall_forall. intros ev Hin.
    rewrite Forall_forall in Hv, Hown. split; auto.
  - intros (ev & Hin & Hn). destruct (include_graph_total (E := E) u Hu) as (g & Hg & _).
    unfold build. rewrite Hg. cbn [Res_bind].
    rewrite (for_each_fault _ handle ev); [done|apply handle_ok_or_fault| |done].
    intros tu. destruct ev as [| |d kind target fid range]; [by destruct Hn..|]. simpl. unfold handleRelation.
    by rewrite make_relation_misplaced.
Qed.

(** ** Shipping *)

(** [map[key] = value] for every entry: the last entry of a key stays. *)
Lemma foldl_insert_sound `{Countable K} {V T} (k : T → K) (v : T → V) (l : list T) (m : gmap K V) a b :
  foldl (λ m e, <[k e := v e]> m) m l !! a = Some b →
  (∃ e, e ∈ l ∧ k e = a ∧ v e = b) ∨ m !! a = Some b.
Proof.
  revert m. induction l as [|e l IH]; intros m Hl; simpl in *; [by right|].
  apply IH in Hl as [(e' & ? & ? & ?)|Hl]; [left; exists e'; set_solver|].
  apply lookup_insert_Some in Hl as [[<- <-]|[_ ?]]; [left; exists e; set_solver|by right].
Qed.

Lemma foldl_insert_complete `{Countable K} {V T} (k : T → K) (v : T → V) (l : list T)
    (m : gmap K V) e :
  e ∈ l → (∀ e', e' ∈ l → k e' = k e → v e' = v e) →
  foldl (λ m e, <[k e := v e]> m) m l !! k e = Some (v e).
Proof.
  induction l as [|x l IH] using rev_ind; intros He Hun; [set_solver|].
  rewrite foldl_app. simpl. destruct (decide (k x = k e)) as [Ex|Ex].
  - rewrite Ex, lookup_insert_eq. f_equal. apply Hun; set_solver.
  - rewrite lookup_insert_ne by done. apply IH; [set_solver|]. intros. apply Hun; set_solver.
Qed.

Lemma deserialize_serialize ord fid f :
  deserialize_file_index (serialize_file_index ord fid f) = f.
Proof.
  destruct f as [rels occs]. unfold deserialize_file_index, serialize_file_index; cbn.
  f_equal. apply (load_updated (λ e : Z * list Relation, mkTUFileRelationsEntry e.1 (Some e.2))
    rels _ (entries_perm ord rels) [] tr_symbol (λ r e, r ++ default [] (tr_relations e))).
  done.
Qed.

Lemma i64_u64 z : - (two64 / 2) ≤ z < two64 / 2 → i64 (u64 z) = z.
Proof.
  intros Hz. unfold i64. rewrite (u64_small (u64 z)) by apply u64_range.
  assert (two64 / 2 = 9223372036854775808) as -> by done.
  change (two64 / 2) with 9223372036854775808 in Hz.
  destruct (decide (0 ≤ z)) as [Hp|Hn].
  - rewrite u64_small by (unfold two64; lia). destruct (Z.ltb_spec z 9223372036854775808); lia.
  - assert (u64 z = z + two64) as ->.
    { unfold u64. rewrite <- (Z_mod_plus_full z 1 two64), Z.mul_1_l.
      apply Z.mod_small. unfold two64. lia. }
    unfold two64. destruct (Z.ltb_spec (z + 18446744073709551616) 9223372036854775808); lia.
Qed.

Section shipping.
Context {E : Type} `{Roaring} `{!RoaringLaws} `{FlatBuffer FbTUIndex} `{!FlatBufferLaws FbTUIndex}.

Definition table_ok (table : SymbolTable) : Prop :=
  ∀ s sym, table !! s = Some sym →
    scope_ok (scope sym) ∧ ∀ x, x ∈ reference_files sym → 0 ≤ x < two32.

Lemma from_symbols ord table :
  table_ok table →
  for_each (E := E) (symbol_entry <$> entries ord table) (λ e m, from_symbol m e) ∅ = Ok table.
Proof.
  intros Hok. rewrite for_each_fmap.
  destruct (for_each_prefix (E := E) (λ pre (m : SymbolTable),
      m = foldl (λ m e, <[e.1 := e.2]> m) ∅ pre) (entries ord table)
    (λ e m, from_symbol m (symbol_entry e)) ∅) as (m & -> & ->).
  - done.
  - intros pre [s sym] post m Hl ->. unfold from_symbol, symbol_entry; cbn.
    destruct (Hok s sym) as [Hsc Href].
    { apply (elem_of_entries ord). rewrite Hl. set_solver. }
    eexists. split; [done|]. rewrite foldl_app. cbn.
    rewrite scope_cast_value, read_bitmap_write by done. by destruct sym.
  - f_equal. apply map_eq. intros s. apply option_eq. intros sym.
    rewrite <- (elem_of_entries ord table). split.
    + intros [([s' sym'] & Hin & <- & <-)|Hx]%foldl_insert_sound; [done|by rewrite lookup_empty in Hx].
    + intros Hin. apply (foldl_insert_complete fst snd _ ∅ (s, sym)); [done|].
      intros [s' sym'] Hin' Hs. simpl in *. subst. apply elem_of_entries in Hin, Hin'. congruence.
Qed.

(** The path under which a file is shipped. *)
Definition shipped_as (tu : TUIndex) (fid pid : Z) : Prop :=
  graph_path_id (E := E) (graph tu) fid = Ok pid.

Definition shippable (tu : TUIndex) : Prop :=
  (- (two64 / 2) ≤ built_at tu < two64 / 2) ∧ table_ok (tu_symbols tu) ∧
  ∀ fid f, file_indices tu !! fid = Some f → ∃ pid, shipped_as tu fid pid.

Lemma serialize_files_ok ord tu l :
  (∀ fid f, (fid, f) ∈ l → ∃ pid, shipped_as tu fid pid) →
  ∃ files, for_each l (λ e files,
      let? pid := graph_path_id (E := E) (graph tu) e.1 in
      Ok (files ++ [serialize_file_index ord pid e.2])) [] = Ok files ∧
    ∀ e, e ∈ files ↔ ∃ fid f pid, (fid, f) ∈ l ∧ shipped_as tu fid pid ∧
      e = serialize_file_index ord pid f.
Proof.
  intros Hl. apply (for_each_prefix (E := E) (λ pre files, ∀ e, e ∈ files ↔ ∃ fid f pid,
    (fid, f) ∈ pre ∧ shipped_as tu fid pid ∧ e = serialize_file_index ord pid f)).
  - intros e. split; [set_solver|]. intros (? & ? & ? & ? & _). set_solver.
  - intros pre [fid f] post files -> Hf. destruct (Hl fid f) as [pid Hpid]; [set_solver|].
    cbn [fst snd]. unfold shipped_as in Hpid. rewrite Hpid. cbn [Res_bind]. eexists. split; [done|].
    intros e. rewrite elem_of_app, list_elem_of_singleton, Hf. split.
    + intros [(fid' & f' & pid' & ? & ? & ?)| ->];
        [exists fid', f', pid'|exists fid, f, pid]; split_and!; try done; set_solver.
    + intros (fid' & f' & pid' & [?|[= -> ->]%list_elem_of_singleton]%elem_of_app & Hs & ->);
        [left; by exists fid', f', pid'|right]. unfold shipped_as in Hs. congruence.
Qed.

Lemma tu_shipped ord tu :
  shippable tu →
  ∃ data tu', tu_serialize (E := E) ord tu = Ok data ∧ tu_from (E := E) data = Ok tu' ∧
    built_at tu' = built_at tu ∧ g_paths (graph tu') = g_paths (graph tu) ∧
    g_locations (graph tu') = g_locations (graph tu) ∧ tu_symbols tu' = tu_symbols tu ∧
    main_file_index tu' = main_file_index tu ∧ file_indices tu' = ∅ ∧
    (∀ pid f, path_file_indices tu' !! pid = Some f →
       ∃ fid, file_indices tu !! fid = Some f ∧ shipped_as tu fid pid) ∧
    (∀ fid f pid, file_indices tu !! fid = Some f → shipped_as tu fid pid →
       (∀ fid' f', file_indices tu !! fid' = Some f' → shipped_as tu fid' pid → fid' = fid) →
       path_file_indices tu' !! pid = Some f).
Proof.
  intros (Hb & Htab & Hfiles).
  destruct (serialize_files_ok ord tu (entries ord (file_indices tu))) as (fs & Hser & Hin).
  { intros fid f Hf%elem_of_entries. by eapply Hfiles. }
  eexists. unfold tu_serialize. rewrite Hser. cbn [Res_bind]. eexists. split; [done|].
  unfold tu_from. rewrite get_root_finish. cbn [read Res_bind ft_symbols].
  rewrite from_symbols by done. cbn [Res_bind]. split; [done|].
  cbn [built_at graph g_paths g_locations tu_symbols main_file_index file_indices path_file_indices
       ft_built_at ft_paths ft_locations ft_file_indices ft_main_file_index default id].
  split_and!; [by apply i64_u64|done|done|done|apply deserialize_serialize|done| |].
  - intros pid f [(e & (fid & f' & pid' & Hf%elem_of_entries & Hs & ->)%Hin & <- & <-)|Hx]%foldl_insert_sound;
      [|by rewrite lookup_empty in Hx].
    exists fid. by rewrite deserialize_serialize.
  - intros fid f pid Hf Hs Huniq.
    pose proof (foldl_insert_complete tf_file_id deserialize_file_index fs ∅
      (serialize_file_index ord pid f)) as Hc.
    rewrite deserialize_serialize in Hc. apply Hc.
    + apply Hin. exists fid, f, pid. split_and!; [by apply elem_of_entries|done|done].
    + intros e (fid' & f' & pid' & Hf'%elem_of_entries & Hs' & ->)%Hin. cbn. intros ->.
      rewrite deserialize_serialize. rewrite (Huniq fid' f' Hf' Hs') in Hf'. congruence.
Qed.

(** C13. The server reads from an image what the worker serialised: time, paths,
    include locations, symbols and the main file's tables, and for each path the
    tables of a file with that path, which are those of the file where no two files
    share the path. *)
Theorem tu_roundtrip ord tu :
  shippable tu →
  ∃ data tu', tu_serialize (E := E) ord tu = Ok data ∧ tu_from (E := E) data = Ok tu' ∧
    built_at tu' = built_at tu ∧ g_paths (graph tu') = g_paths (graph tu) ∧
    g_locations (graph tu') = g_locations (graph tu) ∧ tu_symbols tu' = tu_symbols tu ∧
    main_file_index tu' = main_file_index tu ∧ file_indices tu' = ∅ ∧
    (∀ pid f, path_file_indices tu' !! pid = Some f →
       ∃ fid, file_indices tu !! fid = Some f ∧ shipped_as tu fid pid) ∧
    (∀ fid f pid, file_indices tu !! fid = Some f → shipped_as tu fid pid →
       (∀ fid' f', file_indices tu !! fid' = Some f' → shipped_as tu fid' pid → fid' = fid) →
       path_file_indices tu' !! pid = Some f).
Proof. apply tu_shipped. Qed.
End shipping.

(** ** Examples *)

Global Instance TUFileRelationsEntry_eq_dec : EqDecision TUFileRelationsEntry.
Proof. solve_decision. Defined.
Global Instance TUFileRelationsEntry_countable : Countable TUFileRelationsEntry :=
  inj_countable' (λ e, (tr_symbol e, tr_relations e)) (λ t, mkTUFileRelationsEntry t.1 t.2)
    ltac:(by intros []).
Global Instance TUFileIndexEntry_eq_dec : EqDecision TUFileIndexEntry.
Proof. solve_decision. Defined.
Global Instance TUFileIndexEntry_countable : Countable TUFileIndexEntry :=
  inj_countable' (λ e, (tf_file_id e, tf_occurrences e, tf_relations e))
    (λ t, mkTUFileIndexEntry t.1.1 t.1.2 t.2) ltac:(by intros []).
Global Instance FbTUIndex_eq_dec : EqDecision FbTUIndex.
Proof. solve_decision. Defined.
Global Instance FbTUIndex_countable : Countable FbTUIndex :=
  inj_countable' (λ e, ((ft_built_at e, ft_paths e, ft_locations e),
                        (ft_symbols e, ft_file_indices e, ft_main_file_index e)))
    (λ t, let '((a, b, c), (d, e, f)) := t in mkFbTUIndex a b c d e f) ltac:(by intros []).

Definition decl_example (symbol : Z) : Decl :=
  mkDecl symbol (str "f") 18 ExternalLinkage (Some (0, mkRange 0 20)).

Definition events_example : list Event :=
  [DeclOccurrence (decl_example 7) (InFile 0 (mkRange 4 5));
   RelationFound (decl_example 7) Definition_ 0 0 (mkRange 4 5);
   DeclOccurrence (decl_example 7) (InMacro 1 (mkRange 8 9) 2);
   DeclOccurrence (decl_example 7) (InFile 0 (mkRange 4 5))].

(** A definition of the file 1 whose name is in the file 0. *)
Definition events_misplaced : list Event :=
  events_example ++
  [RelationFound (mkDecl 8 (str "g") 18 ExternalLinkage (Some (1, mkRange 0 20))) Definition_ 0 0 (mkRange 4 5)].

Lemma events_visited : Forall (visited chain_unit) events_misplaced.
Proof.
  repeat apply Forall_cons_2; simpl; try exact I; [..|apply Forall_nil_2];
    (split; [unfold visited_kinds; set_solver|right; left]).
Qed.

Lemma events_example_ok : Forall (event_ok chain_unit) events_example.
Proof.
  apply Forall_forall. intros ev Hin. split.
  - pose proof events_visited as Hv. rewrite Forall_forall in Hv. apply Hv. apply elem_of_app. by left.
  - repeat (apply elem_of_cons in Hin as [->|Hin]); [done| |done|done|by apply elem_of_nil in Hin].
    intros _ fid2 whole Hd. by injection Hd as <- _.
Qed.

Lemma build_correct_witness :
  (∃ tu, build (E := unit) bucket_order chain_unit 3 events_example = Ok tu ∧
    finished (main_file_index tu) ∧
    mkOccurrence (mkRange 4 5) 7 ∈ f_occurrences (main_file_index tu) ∧
    mkRelation Definition_ (mkRange 4 5) (20 * two32) ∈ relations_at (main_file_index tu) 7) ∧
  build (E := unit) bucket_order chain_unit 3 events_misplaced = Fault.
Proof.
  assert (Forall (visited chain_unit) events_example) as Hv
    by exact (proj1 (proj1 (Forall_app _ _ _) events_visited)).
  split.
  - destruct (build_correct (E := unit) bucket_order chain_unit 3 events_example chain_unit_ok Hv) as [Hb _].
    destruct Hb as (tu & Hb & _ & _ & Hfin & Hocc & Hrel & _).
    { repeat apply Forall_cons_2; simpl; try exact I; [|apply Forall_nil_2].
      intros _ fid2 whole [= <- _]. reflexivity. }
    exists tu. split; [exact Hb|]. split; [exact (Hfin 0)|]. split.
    + apply (Hocc 0). exists (DeclOccurrence (decl_example 7) (InFile 0 (mkRange 4 5))).
      split; [left|split; reflexivity].
    + apply (Hrel 0). exists (RelationFound (decl_example 7) Definition_ 0 0 (mkRange 4 5)).
      split; [right; left|]. split; [reflexivity|]. split; [reflexivity|].
      apply (recorded_range _ _ _ _ Definition_ (mkRange 0 20)); [right; left|reflexivity].
  - apply (build_correct (E := unit) bucket_order chain_unit 3 events_misplaced chain_unit_ok events_visited).
    eexists. split; [right; right; right; right; left|]. intros Hx.
    pose proof (Hx (or_intror eq_refl) 1 (mkRange 0 20) eq_refl). discriminate.
Defined.

Definition file_example (symbol : Z) : FileIndex :=
  mkFileIndex ∅ [mkOccurrence (mkRange 4 5) symbol].

(** Two files, included from line 1 of the main file, with their paths. *)
Definition tu_example (paths : list bytes) (path1 path2 : Z) : TUIndex :=
  mkTUIndex 3
    (mkIncludeGraph paths [mkIncludeLocation path1 1 no_location; mkIncludeLocation path2 1 no_location]
       {[1 := 0; 2 := 1]})
    {[7 := mkSymbol (str "f") 18 External {[0]}]}
    {[1 := file_example 7; 2 := file_example 8]} ∅ (file_example 9).

Lemma tu_roundtrip_witness :
  ∃ data tu', tu_serialize (E := unit) bucket_order (tu_example [str "a"; str "b"; str "m"] 0 1) = Ok data ∧
    tu_from (E := unit) data = Ok tu' ∧ path_file_indices tu' !! 1 = Some (file_example 8).
Proof.
  destruct (tu_roundtrip (E := unit) bucket_order (tu_example [str "a"; str "b"; str "m"] 0 1))
    as (data & tu' & Hs & Hf & _ & _ & _ & _ & _ & _ & _ & Hone).
  - split; [vm_compute; split; congruence|]. split.
    + intros s sym. cbn. rewrite lookup_singleton_Some. intros [_ <-]. split; [exact I|].
      intros x. cbn. intros ->%elem_of_singleton. done.
    + intros fid f. cbn. rewrite lookup_insert_Some. intros [[<- _]|[_ [<- _]%lookup_singleton_Some]];
        [exists 0|exists 1]; reflexivity.
  - exists data, tu'. split; [exact Hs|]. split; [exact Hf|]. apply (Hone 2); [reflexivity|reflexivity|].
    intros fid f. cbn. rewrite lookup_insert_Some.
    intros [[<- _]|[_ [<- _]%lookup_singleton_Some]]; [|done]. intros Hx. vm_compute in Hx. congruence.
Defined.

(** Of two inclusions of one header, with different tables, one is lost on the
    way. *)
Lemma shared_path_loses_an_index :
  (let? data := tu_serialize (E := unit) bucket_order (tu_example [str "a"; str "m"] 0 0) in
   let? tu := tu_from data in
   Ok (size (file_indices (tu_example [str "a"; str "m"] 0 0)), size (path_file_indices tu))) =
  Ok (2%nat, 1%nat).
Proof. vm_compute. reflexivity. Qed.
