(* ===== verification/ProjectIndex.v ===== *)
(** * Project-wide symbol table (src/index/project_index.{h,cpp})

    The project index interns the paths of every unit merged into it and records,
    for each symbol visible from other units, its name and the files that mention
    it.  Its path pool works like that of src/support/path_pool.h, [PathPool], with
    an assertion that paths are not empty. *)
From S2P Require Import IndexData PathPool MergedIndex MergedImage IncludeGraph TUIndex TUTheorems IndexLibraries.
Local Open Scope Z_scope.
Local Open Scope cpp_scope.

Record ProjectIndex := mkProjectIndex {
  path_pool : PathPool;
  indices : gmap Z Z;
  p_symbols : SymbolTable;
}.

Definition empty_project : ProjectIndex := mkProjectIndex empty_pool ∅ ∅.

(** [PathPool::path_id], [path] and [find] of project_index.h *)
Definition project_path_id {E} (pool : PathPool) (path : bytes) : Res E (PathPool * Z) :=
  if decide (path = []) then Fault else Ok (intern pool path).
Definition project_path {E} (pool : PathPool) (id : Z) : Res E bytes := read (resolve pool id).
Definition project_find (pool : PathPool) (path : bytes) : option Z := cache pool !! normalize path.

Section merge.
Context {E : Type}.

(** The loop that fills [file_ids_map]. *)
Definition merge_paths (l : list bytes) (pool : PathPool) : Res E (PathPool * list Z) :=
  for_each l (λ path st,
    let? r := project_path_id st.1 path in
    Ok (r.1, st.2 ++ [r.2])) (pool, []).

(** [file_ids_map[ref]], asserted to be in range *)
Definition map_file (ids : list Z) (ref : Z) : Res E Z :=
  if decide (0 ≤ ref) then read (ids !! Z.to_nat ref) else Fault.

Definition merge_references (ids : list Z) (references : Bitmap) (target : Bitmap) : Res E Bitmap :=
  for_each (elements references) (λ ref b,
    let? id := map_file ids ref in Ok ({[id]} ∪ b)) target.

Definition merge_symbol (ids : list Z) (e : Z * Symbol) (table : SymbolTable) : Res E SymbolTable :=
  if decide (scope e.2 = External) then
    let target := get_or new_symbol table e.1 in
    let target := if decide (name target = [])
                  then mkSymbol (name e.2) (symbol_kind e.2) (scope target) (reference_files target)
                  else target in
    let? references := merge_references ids (reference_files e.2) (reference_files target) in
    Ok (<[e.1 := mkSymbol (name target) (symbol_kind target) (scope target) references]> table)
  else Ok table.

Definition project_merge (ord : Order) (tu : TUIndex) (self : ProjectIndex) :
    Res E (ProjectIndex * list Z) :=
  let? st := merge_paths (g_paths (graph tu)) (path_pool self) in
  let? table := for_each (entries ord (tu_symbols tu)) (merge_symbol st.2) (p_symbols self) in
  Ok (mkProjectIndex st.1 (indices self) table, st.2).
End merge.

(** ** Images *)

Record PathEntry := mkPathEntry { pe_path : bytes; pe_id : Z }.
Record PathMapEntry := mkPathMapEntry { pm_source : Z; pm_index : Z }.
Record FbProjectIndex := mkFbProjectIndex {
  fp_paths : list PathEntry; fp_indices : list PathMapEntry; fp_symbols : list SymbolEntry }.

Section images.
Context {E : Type} `{Roaring} `{FlatBuffer FbProjectIndex}.

Definition project_serialize (ord : Order) (self : ProjectIndex) : bytes :=
  finish (mkFbProjectIndex
    (imap (λ i path, mkPathEntry path (u32 (Z.of_nat i))) (paths (path_pool self)))
    ((λ e : Z * Z, mkPathMapEntry e.1 e.2) <$> entries ord (indices self))
    (symbol_entry <$> entries ord (p_symbols self))).

(** [pool.paths[entry->id()] = k] and [pool.cache.try_emplace(k, entry->id())] *)
Definition load_path (entry : PathEntry) (pool : PathPool) : Res E PathPool :=
  let k := normalize (pe_path entry) in
  let i := Z.to_nat (pe_id entry) in
  if decide (0 ≤ pe_id entry ∧ (i < length (paths pool))%nat) then
    Ok (mkPathPool (<[i := k]> (paths pool)) (try_emplace (cache pool) k (pe_id entry)))
  else Fault.

(** A symbol whose table is missing is dereferenced all the same. *)
Definition load_project_symbol (entry : SymbolEntry) (table : SymbolTable) : Res E SymbolTable :=
  let? s := read (se_symbol entry) in
  Ok (<[se_symbol_id entry :=
          load_symbol (get_or new_symbol table (se_symbol_id entry)) (Some s)]> table).

Definition project_from (data : bytes) : Res E ProjectIndex :=
  let? root := read (get_root data) in
  let? pool := for_each (fp_paths root) load_path
                 (mkPathPool (replicate (length (fp_paths root)) []) ∅) in
  let? table := for_each (fp_symbols root) load_project_symbol ∅ in
  Ok (mkProjectIndex pool
        (foldl (λ m e, try_emplace m (pm_source e) (pm_index e)) ∅ (fp_indices root)) table).
End images.

(** ** Merging *)

(** Interned paths are normalised and the references of symbols are path ids. *)
Record project_ok (self : ProjectIndex) : Prop := {
  ok_pool : pool_ok (path_pool self);
  ok_normal : Forall (λ p, normalize p = p) (paths (path_pool self));
  ok_project_symbols : table_ok (p_symbols self);
  ok_references : ∀ s sym x, p_symbols self !! s = Some sym → x ∈ reference_files sym →
    is_Some (resolve (path_pool self) x);
}.

Lemma empty_project_ok : project_ok empty_project.
Proof.
  split; [apply empty_pool_ok|constructor|..]; simpl; [intros s sym|intros s sym x];
    by rewrite lookup_empty.
Qed.

Lemma intern_normal pool p :
  Forall (λ p, normalize p = p) (paths pool) → Forall (λ p, normalize p = p) (paths (intern pool p).1).
Proof.
  intros Hn. unfold intern. case_match; [done|]. simpl. apply Forall_app. split; [done|].
  apply Forall_singleton. apply normalize_idem.
Qed.

Lemma intern_result_range pool p :
  pool_ok pool → Z.of_nat (length (paths pool)) < two32 → 0 ≤ (intern pool p).2 < two32.
Proof.
  intros [Hl Hinv] Hlt. unfold intern. destruct (cache pool !! normalize p) as [id|] eqn:Ec; simpl.
  - apply Hinv in Ec as [? Hx]. apply lookup_lt_Some in Hx. lia.
  - apply u32_range.
Qed.

(** The ids of the paths interned so far. *)
Definition interned (pool0 : PathPool) (pre : list bytes) (st : PathPool * list Z) : Prop :=
  pool_ok st.1 ∧ Forall (λ p, normalize p = p) (paths st.1) ∧
  (length (paths st.1) ≤ length (paths pool0) + length pre)%nat ∧
  paths pool0 `prefix_of` paths st.1 ∧
  Forall2 (λ p id, 0 ≤ id < two32 ∧ resolve st.1 id = Some (normalize p)) pre st.2.

Lemma merge_paths_ok {E} l pool :
  pool_ok pool → Forall (λ p, normalize p = p) (paths pool) →
  Z.of_nat (length (paths pool) + length l) < two32 → Forall (λ p, p ≠ []) l →
  ∃ st, merge_paths (E := E) l pool = Ok st ∧ interned pool l st.
Proof.
  intros Hok Hnorm Hlt Hne.
  apply (for_each_prefix (E := E) (interned pool)).
  - split_and!; simpl; [done|done|lia|done|constructor].
  - intros pre p post [pool1 ids] -> (Hok1 & Hn1 & Hl1 & Hp1 & Hids). cbn [fst snd] in *.
    rewrite length_app in Hlt. simpl in Hlt.
    unfold project_path_id. rewrite decide_False.
    2:{ apply Forall_app in Hne as [_ [? _]%Forall_cons]. done. }
    cbn [Res_bind]. eexists. split; [done|].
    pose proof (intern_ok pool1 p Hok1 ltac:(lia)). pose proof (intern_normal pool1 p Hn1).
    pose proof (intern_length pool1 p). pose proof (intern_paths_prefix pool1 p).
    pose proof (resolve_intern pool1 p Hok1 ltac:(lia)).
    pose proof (intern_result_range pool1 p Hok1 ltac:(lia)).
    destruct (intern pool1 p) as [pool2 id]. simpl in *.
    split_and!; cbn [fst snd]; [done|done|rewrite length_app; simpl; lia|by etrans|].
    apply Forall2_app; [|apply Forall2_cons; split; [done|constructor]]. eapply Forall2_impl; [done|].
    intros q i [? ?]. split; [done|]. by eapply resolve_stable.
Qed.

Lemma merge_references_ok {E} ids references target :
  (∀ r, r ∈ references → 0 ≤ r < Z.of_nat (length ids)) →
  ∃ b, merge_references (E := E) ids references target = Ok b ∧
    ∀ x, x ∈ b ↔ x ∈ target ∨ ∃ r, r ∈ references ∧ ids !! Z.to_nat r = Some x.
Proof.
  intros Hr. unfold merge_references.
  destruct (for_each_prefix (E := E) (λ pre b, ∀ x, x ∈ b ↔
      x ∈ target ∨ ∃ r, r ∈ pre ∧ ids !! Z.to_nat r = Some x) (elements references)
    (λ ref b, let? id := map_file ids ref in Ok ({[id]} ∪ b)) target) as (b & Hb & Hx).
  - intros x. set_solver.
  - intros pre r post b Hl Hb.
    assert (0 ≤ r < Z.of_nat (length ids)) as Hin.
    { apply Hr, elem_of_elements. rewrite Hl. set_solver. }
    destruct (lookup_lt_is_Some_2 ids (Z.to_nat r)) as [id Hid]; [lia|].
    unfold map_file. rewrite decide_True by lia. rewrite Hid. cbn [read Res_bind].
    eexists. split; [done|]. intros x. rewrite elem_of_union, elem_of_singleton, Hb.
    rewrite elem_of_snoc_ex, Hid. naive_solver.
  - exists b. split; [done|]. intros x. rewrite Hx. by setoid_rewrite elem_of_elements.
Qed.

(** What merging a symbol does to its entry. *)
Record symbol_merged (ids : list Z) (old : option Symbol) (sym new : Symbol) : Prop := {
  merged_name : name new = (if decide (name (default new_symbol old) = []) then name sym
                            else name (default new_symbol old));
  merged_kind : symbol_kind new = (if decide (name (default new_symbol old) = [])
                                   then symbol_kind sym
                                   else symbol_kind (default new_symbol old));
  merged_scope : scope new = scope (default new_symbol old);
  merged_references : ∀ x, x ∈ reference_files new ↔
    x ∈ reference_files (default new_symbol old) ∨
    ∃ r, r ∈ reference_files sym ∧ ids !! Z.to_nat r = Some x;
}.

Definition refs_in_range (n : nat) (table : SymbolTable) : Prop :=
  ∀ s sym r, table !! s = Some sym → scope sym = External → r ∈ reference_files sym →
    0 ≤ r < Z.of_nat n.

(** The table after the entries [pre]. *)
Definition table_merged (ids : list Z) (table0 : SymbolTable) (pre : list (Z * Symbol))
    (table : SymbolTable) : Prop :=
  ∀ s, (∀ sym, (s, sym) ∈ pre → scope sym = External →
          ∃ new, table !! s = Some new ∧ symbol_merged ids (table0 !! s) sym new) ∧
       ((∀ sym, (s, sym) ∈ pre → scope sym ≠ External) → table !! s = table0 !! s).

Lemma merge_symbol_ok {E} ids table0 pre s sym table :
  table_merged ids table0 pre table → s ∉ pre.*1 →
  (scope sym = External → ∀ r, r ∈ reference_files sym → 0 ≤ r < Z.of_nat (length ids)) →
  ∃ table', merge_symbol (E := E) ids (s, sym) table = Ok table' ∧
    table_merged ids table0 (pre ++ [(s, sym)]) table'.
Proof.
  intros Ht Hs Hr.
  assert (table !! s = table0 !! s) as Hold.
  { apply Ht. intros sym' Hin. destruct Hs. by apply (list_elem_of_fmap_2 fst _ _ Hin). }
  unfold merge_symbol; cbn [fst snd]. case_decide as Hsc.
  - set (target := if decide _ then _ else _).
    destruct (merge_references_ok (E := E) ids (reference_files sym) (reference_files target))
      as (b & -> & Hb); [by apply Hr|]. cbn [Res_bind]. eexists. split; [done|].
    intros s'. setoid_rewrite elem_of_app. setoid_rewrite list_elem_of_singleton. split.
    + intros sym' [Hin|[= -> ->]] Hsc'.
      * rewrite lookup_insert_ne; [by apply Ht|]. intros <-. destruct Hs.
        by apply (list_elem_of_fmap_2 fst _ _ Hin).
      * eexists. rewrite lookup_insert_eq. split; [done|].
        split; [..|intros x]; cbn; rewrite ?Hb; unfold target, get_or; rewrite Hold; by case_decide.
    + intros Hno. rewrite lookup_insert_ne; [apply Ht; intros; apply Hno; by left|].
      intros <-. by apply (Hno sym); [right|].
  - exists table. split; [done|]. intros s'. setoid_rewrite elem_of_app.
    setoid_rewrite list_elem_of_singleton. split.
    + intros sym' [Hin|[= -> ->]] Hsc'; [by apply Ht|done].
    + intros Hno. apply Ht. intros; apply Hno; by left.
Qed.

Lemma merge_table_ok {E} ord ids (symbols table0 : SymbolTable) :
  refs_in_range (length ids) symbols →
  ∃ table, for_each (E := E) (entries ord symbols) (merge_symbol ids) table0 = Ok table ∧
    table_merged ids table0 (entries ord symbols) table.
Proof.
  intros Hr. apply (for_each_prefix (E := E) (table_merged ids table0)).
  - intros s. split; [set_solver|done].
  - intros pre [s sym] post table Hl Ht. apply merge_symbol_ok; [done| |].
    + pose proof (NoDup_entries_fst ord symbols) as Hnd. rewrite Hl, fmap_app in Hnd.
      apply NoDup_app in Hnd as (_ & Hd & _). intros Hin. apply (Hd s Hin). simpl. left.
    + intros Hsc r Hin. apply (Hr s sym r); [|done|done].
      apply (elem_of_entries ord). rewrite Hl. set_solver.
Qed.

(** Each entry is merged or left alone. *)
Lemma table_merged_entry ord ids (symbols table0 table : SymbolTable) s :
  table_merged ids table0 (entries ord symbols) table →
  (∃ old new, symbols !! s = Some old ∧ table !! s = Some new ∧
     symbol_merged ids (table0 !! s) old new) ∨ table !! s = table0 !! s.
Proof.
  intros Ht. destruct (Ht s) as [Hext Hkeep].
  destruct (symbols !! s) as [old|] eqn:Eo; [destruct (decide (scope old = External)) as [Hx|Hx]|].
  - left. destruct (Hext old) as (new & ? & ?); [by apply elem_of_entries|done|]. eauto 6.
  - right. apply Hkeep. intros sym' Hin%elem_of_entries. congruence.
  - right. apply Hkeep. intros sym' Hin%elem_of_entries. congruence.
Qed.

(** A property of all references is kept if the new ids have it. *)
Lemma table_merged_references ord ids (symbols table0 table : SymbolTable) (P : Z → Prop) :
  (∀ s sym x, table0 !! s = Some sym → x ∈ reference_files sym → P x) →
  Forall P ids → table_merged ids table0 (entries ord symbols) table →
  ∀ s sym x, table !! s = Some sym → x ∈ reference_files sym → P x.
Proof.
  intros Hold Hids Ht s sym x Hs Hx.
  destruct (table_merged_entry _ _ _ _ _ s Ht) as [(old & new & _ & Hnew & Hm)|Heq];
    [|rewrite Heq in Hs; by eapply Hold].
  assert (new = sym) as -> by congruence. apply (merged_references _ _ _ _ Hm) in Hx.
  destruct Hx as [Hx|(r & _ & Hr)]; [|by eapply Forall_lookup_1].
  destruct (table0 !! s) as [t|] eqn:Et; [by eapply Hold|]. simpl in Hx. set_solver.
Qed.

Lemma table_merged_ok ord ids (symbols table0 table : SymbolTable) :
  table_ok table0 → Forall (λ id, 0 ≤ id < two32) ids →
  table_merged ids table0 (entries ord symbols) table → table_ok table.
Proof.
  intros Hold Hids Ht s sym Hs. split.
  - destruct (table_merged_entry _ _ _ _ _ s Ht) as [(old & new & _ & Hnew & Hm)|Heq];
      [|rewrite Heq in Hs; by apply (Hold s)].
    assert (new = sym) as -> by congruence. rewrite (merged_scope _ _ _ _ Hm). destruct (table0 !! s) as [t|] eqn:Et; [by apply (Hold s)|done].
  - intros x Hx. eapply (table_merged_references ord ids symbols table0 table (λ x, 0 ≤ x < two32));
      [|done..]. intros s' sym' y Hs'. by apply (Hold s').
Qed.

Lemma project_merge_ok {E} ord (tu : TUIndex) self :
  project_ok self →
  Z.of_nat (length (paths (path_pool self)) + length (g_paths (graph tu))) < two32 →
  Forall (λ p, p ≠ []) (g_paths (graph tu)) →
  refs_in_range (length (g_paths (graph tu))) (tu_symbols tu) →
  ∃ self' ids, project_merge (E := E) ord tu self = Ok (self', ids) ∧
    project_ok self' ∧ indices self' = indices self ∧
    Forall2 (λ p id, project_path (E := E) (path_pool self') id = Ok (normalize p))
      (g_paths (graph tu)) ids ∧
    (∀ id p, project_path (E := E) (path_pool self) id = Ok p →
       project_path (E := E) (path_pool self') id = Ok p) ∧
    (∀ s sym, tu_symbols tu !! s = Some sym → scope sym = External →
       ∃ new, p_symbols self' !! s = Some new ∧ symbol_merged ids (p_symbols self !! s) sym new) ∧
    (∀ s, (∀ sym, tu_symbols tu !! s = Some sym → scope sym ≠ External) →
       p_symbols self' !! s = p_symbols self !! s).
Proof.
  intros [Hpool Hnorm Hsym Href] Hlt Hne Hr.
  destruct (merge_paths_ok (E := E) (g_paths (graph tu)) (path_pool self)) as
    (st & Hrun & Hok & Hn & _ & Hpre & Hids); [done..|].
  destruct (merge_table_ok (E := E) ord st.2 (tu_symbols tu) (p_symbols self))
    as (table & Htab & Hm); [by rewrite <- (Forall2_length _ _ _ Hids)|].
  unfold project_merge. rewrite Hrun. cbn [Res_bind]. rewrite Htab. cbn [Res_bind].
  do 2 eexists. split; [done|]. split_and!.
  - assert (Forall (λ id, 0 ≤ id < two32 ∧ is_Some (resolve st.1 id)) st.2) as Hall.
    { apply Forall_lookup. intros i id Hi.
      destruct (Forall2_lookup_r _ _ _ _ _ Hids Hi) as (p & _ & ? & Hp). by rewrite Hp. }
    split; [done|done|..].
    + eapply table_merged_ok; [done| |done]. by eapply Forall_impl; [done|]; intros ? [].
    + eapply (table_merged_references ord _ _ _ _ (λ x, is_Some (resolve st.1 x))); [| |done].
      * intros s sym x Hs Hx. destruct (Href s sym x Hs Hx) as [p Hp].
        exists p. by eapply resolve_stable.
      * by eapply Forall_impl; [done|]; intros ? [].
  - done.
  - eapply Forall2_impl; [done|]. intros p id [_ Hid]. unfold project_path; cbn. by rewrite Hid.
  - intros id p. unfold project_path, resolve; cbn. case_decide; [|done].
    destruct (paths (path_pool self) !! Z.to_nat id) as [q|] eqn:Eq; [|done].
    by rewrite (prefix_lookup_Some _ _ _ _ Eq Hpre).
  - intros s sym Hs. apply Hm. by apply elem_of_entries.
  - intros s Hs. apply Hm. intros sym Hin%elem_of_entries. by apply Hs.
Qed.

(** Merging a unit's index into the project has no undefined behaviour; each
    of its paths gets an id that resolves to the path with forward slashes, and
    ids handed out before keep their path.  A symbol visible from other units gets
    its name and kind from the first index that names it, and its references
    become those it had together with the files the unit found it in; the entries
    of all other symbols stay as they were. *)
Theorem project_merge_correct {E} ord (tu : TUIndex) self :
  project_ok self →
  Z.of_nat (length (paths (path_pool self)) + length (g_paths (graph tu))) < two32 →
  Forall (λ p, p ≠ []) (g_paths (graph tu)) →
  refs_in_range (length (g_paths (graph tu))) (tu_symbols tu) →
  ∃ self' ids, project_merge (E := E) ord tu self = Ok (self', ids) ∧
    project_ok self' ∧ indices self' = indices self ∧
    Forall2 (λ p id, project_path (E := E) (path_pool self') id = Ok (normalize p))
      (g_paths (graph tu)) ids ∧
    (∀ id p, project_path (E := E) (path_pool self) id = Ok p →
       project_path (E := E) (path_pool self') id = Ok p) ∧
    (∀ s sym, tu_symbols tu !! s = Some sym → scope sym = External →
       ∃ new, p_symbols self' !! s = Some new ∧ symbol_merged ids (p_symbols self !! s) sym new) ∧
    (∀ s, (∀ sym, tu_symbols tu !! s = Some sym → scope sym ≠ External) →
       p_symbols self' !! s = p_symbols self !! s).
Proof. apply project_merge_ok. Qed.

(** ** Saving and loading *)

Section save.
Context {E : Type} `{Roaring} `{!RoaringLaws} `{FlatBuffer FbProjectIndex}
  `{!FlatBufferLaws FbProjectIndex}.

(** The pool after [i] of the paths [l] were read back. *)
Definition pool_loaded (l : list bytes) (i : nat) (pool : PathPool) : Prop :=
  paths pool = take i l ++ replicate (length l - i) [] ∧
  ∀ p id, cache pool !! p = Some id ↔ 0 ≤ id < Z.of_nat i ∧ l !! Z.to_nat id = Some p.

Lemma load_path_ok l i p pool :
  NoDup l → l !! i = Some p → normalize p = p → Z.of_nat (length l) ≤ two32 →
  pool_loaded l i pool →
  ∃ pool', load_path (E := E) (mkPathEntry p (u32 (Z.of_nat i))) pool = Ok pool' ∧
    pool_loaded l (S i) pool'.
Proof.
  intros Hnd Hp Hn Hlen [Hpaths Hcache]. pose proof (lookup_lt_Some _ _ _ Hp) as Hi.
  unfold load_path; cbn [pe_id pe_path]. rewrite u32_small, Hn, Nat2Z.id by lia.
  rewrite decide_True.
  2:{ rewrite Hpaths, length_app, length_replicate, length_take. lia. }
  eexists. split; [done|]. split; cbn [paths cache].
  - rewrite Hpaths, (take_S_r _ _ _ Hp), <- app_assoc.
    replace (length l - i)%nat with (S (length l - S i)) by lia. simpl.
    rewrite insert_app_r_alt by (rewrite length_take; lia).
    by rewrite length_take, Nat.min_l, Nat.sub_diag by lia.
  - assert (cache pool !! p = None) as Hfresh.
    { apply eq_None_not_Some. intros [id [Hr Hx]%Hcache].
      assert (Z.to_nat id = i) by (eapply NoDup_lookup; done). lia. }
    unfold try_emplace. rewrite Hfresh. intros q id. rewrite lookup_insert_Some, Hcache. split.
    + intros [[<- <-]|[Hq [? ?]]]; [rewrite Nat2Z.id|]; split; [lia|done|lia|done].
    + intros [Hr Hx]. destruct (decide (p = q)) as [<-|Hq]; [left|right].
      * split; [done|]. assert (i = Z.to_nat id) by (eapply NoDup_lookup; done). lia.
      * split; [done|]. split; [|done]. destruct (decide (id = Z.of_nat i)) as [->|]; [|lia].
        rewrite Nat2Z.id in Hx. congruence.
Qed.

Lemma load_paths_ok pool :
  pool_ok pool → Forall (λ p, normalize p = p) (paths pool) →
  for_each (E := E) (imap (λ i path, mkPathEntry path (u32 (Z.of_nat i))) (paths pool)) load_path
    (mkPathPool (replicate (length (paths pool)) []) ∅) = Ok pool.
Proof.
  intros [Hlen Hinv] Hn. set (l := paths pool) in *.
  assert (NoDup l) as Hnd.
  { apply NoDup_alt. intros i j p Hi Hj.
    assert (cache pool !! p = Some (Z.of_nat i)) as Hci by (apply Hinv; rewrite Nat2Z.id; split; [lia|done]).
    assert (cache pool !! p = Some (Z.of_nat j)) as Hcj by (apply Hinv; rewrite Nat2Z.id; split; [lia|done]).
    simplify_eq. lia. }
  destruct (for_each_prefix (E := E) (λ pre, pool_loaded l (length pre))
    (imap (λ i path, mkPathEntry path (u32 (Z.of_nat i))) l) load_path
    (mkPathPool (replicate (length l) []) ∅)) as (pool' & -> & Hp & Hc).
  - split; cbn [length paths cache]; [by rewrite Nat.sub_0_r|]. intros p id. rewrite lookup_empty.
    split; [done|]. intros [? _]. lia.
  - intros pre e post pool1 Hl Hpool1.
    assert (imap (λ i path, mkPathEntry path (u32 (Z.of_nat i))) l !! length pre = Some e) as He
      by (rewrite Hl, lookup_app_r, Nat.sub_diag by lia; done).
    rewrite list_lookup_imap in He. apply fmap_Some in He as (p & Hp & ->).
    rewrite length_app, Nat.add_1_r. apply load_path_ok; try done. by eapply Forall_lookup_1 in Hn.
  - rewrite length_imap in *. destruct pool as [ps c], pool' as [ps' c']; cbn in *. subst l.
    f_equal. f_equal.
    + rewrite Hp, Nat.sub_diag, firstn_all. apply app_nil_r.
    + apply map_eq. intros q. apply option_eq. intros id. rewrite Hc, Hinv. split.
      * intros [[? _] ?]. done.
      * intros [? Hx]. split; [|done]. apply lookup_lt_Some in Hx. lia.
Qed.

Lemma load_project_symbols_ok ord table :
  table_ok table →
  for_each (E := E) (symbol_entry <$> entries ord table) load_project_symbol ∅ = Ok table.
Proof.
  intros Hok. transitivity (Ok (E := E) (foldl (λ m e, <[se_symbol_id e :=
    load_symbol (get_or new_symbol m (se_symbol_id e)) (se_symbol e)]> m) ∅
    (symbol_entry <$> entries ord table))).
  - generalize (∅ : SymbolTable). induction (entries ord table) as [|e l IH]; intros m; [done|].
    cbn. apply IH.
  - f_equal. apply (load_updated symbol_entry table _ (entries_perm ord _) new_symbol
      se_symbol_id (λ s e, load_symbol s (se_symbol e))).
    intros s sym Hs. split; [done|]. destruct (Hok s sym Hs) as [Hsc Href].
    destruct sym; simpl in *. by rewrite scope_cast_value, read_bitmap_write by done.
Qed.

(** Loading a saved project index gives back the index: the same ids for the
    same paths, the same shard table and the same symbols. *)
Theorem project_roundtrip ord self :
  project_ok self → project_from (E := E) (project_serialize ord self) = Ok self.
Proof.
  intros [Hpool Hnorm Hsym _]. unfold project_from, project_serialize.
  rewrite get_root_finish. cbn [read Res_bind fp_paths fp_symbols fp_indices].
  rewrite length_imap, load_paths_ok by done. cbn [Res_bind].
  rewrite load_project_symbols_ok by done. cbn [Res_bind].
  rewrite (load_emplaced (λ e : Z * Z, mkPathMapEntry e.1 e.2) (indices self));
    [by destruct self|apply entries_perm|done].
Qed.
End save.

(** ** Examples *)

Global Instance PathEntry_eq_dec : EqDecision PathEntry.
Proof. solve_decision. Defined.
Global Instance PathEntry_countable : Countable PathEntry :=
  inj_countable' (λ e, (pe_path e, pe_id e)) (λ t, mkPathEntry t.1 t.2) ltac:(by intros []).
Global Instance PathMapEntry_eq_dec : EqDecision PathMapEntry.
Proof. solve_decision. Defined.
Global Instance PathMapEntry_countable : Countable PathMapEntry :=
  inj_countable' (λ e, (pm_source e, pm_index e)) (λ t, mkPathMapEntry t.1 t.2) ltac:(by intros []).
Global Instance FbProjectIndex_eq_dec : EqDecision FbProjectIndex.
Proof. solve_decision. Defined.
Global Instance FbProjectIndex_countable : Countable FbProjectIndex :=
  inj_countable' (λ e, (fp_paths e, fp_indices e, fp_symbols e))
    (λ t, mkFbProjectIndex t.1.1 t.1.2 t.2) ltac:(by intros []).

(** A unit of two files with one symbol visible outside and one that is not. *)
Definition tu_example : TUIndex :=
  mkTUIndex 5 (mkIncludeGraph [str "a.h"; str "d\m.cpp"] [] ∅)
    (<[7 := mkSymbol (str "f") 18 External {[0; 1]}]>
       {[8 := mkSymbol (str "x") 25 FileLocal {[1]}]}) ∅ ∅ empty_file_index.

Lemma tu_example_ok :
  Z.of_nat (0 + length (g_paths (graph tu_example))) < two32 ∧
  Forall (λ p, p ≠ []) (g_paths (graph tu_example)) ∧
  refs_in_range (length (g_paths (graph tu_example))) (tu_symbols tu_example).
Proof.
  split_and!; [done|by repeat constructor|].
  intros s sym r. cbn. rewrite lookup_insert_Some, lookup_singleton_Some.
  intros [[_ <-]|[_ [_ <-]]]; cbn; [|done]. intros _. set_unfold. lia.
Qed.

Lemma project_merge_correct_witness :
  ∃ self ids, project_merge (E := unit) bucket_order tu_example empty_project = Ok (self, ids) ∧
    Forall2 (λ p id, project_path (E := unit) (path_pool self) id = Ok (normalize p))
      [str "a.h"; str "d\m.cpp"] ids ∧ p_symbols self !! 8 = None.
Proof.
  destruct tu_example_ok as (Hl & Hn & Hr).
  destruct (project_merge_correct (E := unit) bucket_order tu_example empty_project
    empty_project_ok Hl Hn Hr) as (self & ids & Hm & _ & _ & Hids & _ & _ & Hkeep).
  exists self, ids. split; [exact Hm|]. split; [exact Hids|].
  rewrite (Hkeep 8); [reflexivity|]. intros sym [= <-]. discriminate.
Defined.

(** A project index with one path and one symbol. *)
Definition project_example : ProjectIndex :=
  mkProjectIndex (intern empty_pool (str "a\b.h")).1 {[0 := 0]}
    {[7 := mkSymbol (str "f") 18 External {[0]}]}.

Lemma project_example_ok : project_ok project_example.
Proof.
  split.
  - apply intern_ok; [apply empty_pool_ok|done].
  - apply intern_normal. constructor.
  - intros s sym. cbn. rewrite lookup_singleton_Some. intros [_ <-]. cbn. split; [done|].
    intros x ->%elem_of_singleton. done.
  - intros s sym x. cbn. rewrite lookup_singleton_Some. intros [_ <-]. cbn.
    intros ->%elem_of_singleton. by eexists.
Qed.

Lemma project_roundtrip_witness :
  project_ok project_example ∧
  project_from (E := unit) (project_serialize bucket_order project_example) = Ok project_example.
Proof.
  split; [exact project_example_ok|].
  exact (project_roundtrip (E := unit) bucket_order project_example project_example_ok).
Defined.
