(* ===== verification/Indexer.v ===== *)
(** * Index of the workspace (src/server/compiler/indexer.{h,cpp})

    The indexer merges the indices that workers send into the project index and
    into one shard per file, and answers queries from them and from the sessions of
    open files.  A session that is not up to date does not take part, and the shard
    of an open file is not used.

    [kota::ipc::lsp::LineMap] and [URI] are not part of the repository: they enter
    through the class [Positions]. *)
From S2P Require Import IndexData PathPool MergedIndex IncludeGraph TUIndex ProjectIndex.
Local Open Scope Z_scope.
Local Open Scope cpp_scope.

(** ** State *)

Record Position := mkPosition { line : Z; character : Z }.
Record LspRange := mkLspRange { lsp_start : Position; lsp_end : Position }.
Record LspLocation := mkLspLocation { uri : bytes; lsp_range : LspRange }.

(** A [LineMap] borrows a text and its line starts. *)
Class Positions := {
  to_offset : bytes → list Z → Position → option Z;
  to_position : bytes → list Z → Z → option Position;
  to_range : bytes → list Z → Z → Z → option LspRange;
  from_file_path : bytes → option bytes;
}.

(** The fields of [Session] that queries read. *)
Record Session := mkSession {
  session_text : bytes;
  session_lines : list Z;
  ast_dirty : bool;
  file_index : option FileIndex;
  session_symbols : option SymbolTable;
}.

Record Indexer := mkIndexer {
  project_index : ProjectIndex;
  merged_indices : gmap Z MergedIndex;
  path_pool_of : PathPool;
  sessions : gmap Z Session;
}.

Definition set_project (project : ProjectIndex) (this : Indexer) : Indexer :=
  mkIndexer project (merged_indices this) (path_pool_of this) (sessions this).

Definition set_shard (id : Z) (shard : MergedIndex) (this : Indexer) : Indexer :=
  mkIndexer (project_index this) (<[id := shard]> (merged_indices this)) (path_pool_of this)
    (sessions this).

(** ** Merging *)

Section merge.
Context {E : Type} `{Roaring} `{IndexLibs} `{FlatBuffer FbMergedIndex} `{FlatBuffer FbTUIndex}.
Context (ord : Order) (read_file : bytes → option bytes).

(** The symbols of the occurrences that no other unit can see. *)
Definition collect_local_symbols (table : SymbolTable) (f : FileIndex) : SymbolTable :=
  foldl (λ result o,
    match table !! o_target o with
    | Some s => if decide (scope s = External) then result
                else try_emplace result (o_target o) s
    | None => result
    end) ∅ (f_occurrences f).

(** The first include location of a path. *)
Definition first_include (locations : list IncludeLocation) (path_id : Z) : option Z :=
  (λ r : nat * IncludeLocation, Z.of_nat r.1)
    <$> list_find (λ loc, location_path_id loc = path_id) locations.

Definition remap_locations (ids : list Z) (locations : list IncludeLocation) :
    Res E (list IncludeLocation) :=
  for_each locations (λ loc l,
    let? id := map_file ids (location_path_id loc) in
    Ok (l ++ [mkIncludeLocation id (location_line loc) (location_include loc)])) [].

Definition main_path_id (tu : TUIndex) : Z := u32 (Z.of_nat (length (g_paths (graph tu))) - 1).

(** The text of a file, empty where it cannot be read. *)
Definition file_content (this : Indexer) (id : Z) : Res E bytes :=
  let? path := project_path (path_pool (project_index this)) id in
  Ok (default [] (read_file path)).

Definition merge_file_index (tu : TUIndex) (ids : list Z) (e : Z * FileIndex) (this : Indexer) :
    Res E Indexer :=
  let? id := map_file ids e.1 in
  let shard := get_or empty_index (merged_indices this) id in
  let locals := collect_local_symbols (tu_symbols tu) e.2 in
  if e.1 =? main_path_id tu then
    let? locations := remap_locations ids (g_locations (graph tu)) in
    let? text := file_content this id in
    let? shard := merge_compilation ord id (built_at tu) locations e.2 text shard in
    let? shard := merge_symbols ord locals shard in
    Ok (set_shard id shard this)
  else
    match first_include (g_locations (graph tu)) e.1 with
    | None => Ok (set_shard id shard this)
    | Some include_id =>
      let? text := file_content this id in
      let? shard := merge_header ord id include_id e.2 text shard in
      let? shard := merge_symbols ord locals shard in
      Ok (set_shard id shard this)
    end.

(** What [merge] does with the index it reads; an index without paths is ignored. *)
Definition merge_unit (tu : TUIndex) (this : Indexer) : Res E Indexer :=
  if decide (g_paths (graph tu) = []) then Ok this else
  let? r := project_merge ord tu (project_index this) in
  let? this := for_each (entries ord (path_file_indices tu)) (merge_file_index tu r.2)
                 (set_project r.1 this) in
  merge_file_index tu r.2 (main_path_id tu, main_file_index tu) this.

Definition indexer_merge (data : bytes) (this : Indexer) : Res E Indexer :=
  let? tu := tu_from data in
  merge_unit tu this.
End merge.

(** ** Queries *)

(** A bitmap is walked in increasing order. *)
Definition bitmap_list (b : Bitmap) : list Z := sort_by (λ x, [x]) (elements b).

(** [each_session] of master_server.cpp, [None] stands for the end of the walk. *)
Definition session_ready (s : Session) : bool :=
  bool_decide (is_Some (file_index s)) && bool_decide (is_Some (session_symbols s))
  && negb (ast_dirty s).

Definition ready_sessions (ord : Order) (this : Indexer) : list (Z * Session) :=
  filter (λ e : Z * Session, session_ready e.2 = true) (entries ord (sessions this)).

(** A walk that stops at the first result. *)
Fixpoint first_result {E A B} (l : list A) (f : A → Res E (option B)) : Res E (option B) :=
  match l with
  | [] => Ok None
  | a :: l => let? r := f a in
              match r with Some b => Ok (Some b) | None => first_result l f end
  end.

Section queries.
Context {E : Type} `{Roaring} `{IndexLibs} `{FlatBuffer FbMergedIndex} `{Positions}.
Context (ord : Order).
Implicit Types this : Indexer.

Definition is_proj_path_open this (id : Z) : Res E bool :=
  let? path := project_path (path_pool (project_index this)) id in
  Ok match cache (path_pool_of this) !! path with
     | None => false
     | Some server_id => bool_decide (is_Some (sessions this !! server_id))
     end.

(** The shard of a file that is not open. *)
Definition closed_shard this (id : Z) : Res E (option MergedIndex) :=
  let? opened := is_proj_path_open this id in
  if opened : bool then Ok None else Ok (merged_indices this !! id).

(** The files the project knows to mention a symbol. *)
Definition mentioning this (hash : Z) : list Z :=
  match p_symbols (project_index this) !! hash with
  | Some s => bitmap_list (reference_files s)
  | None => []
  end.

Definition server_path this (id : Z) : Res E bytes := read (resolve (path_pool_of this) id).

(** [Indexer::need_update] *)
Definition indexer_need_update this (modified : bytes → option Z) (file_path : bytes) : Res E bool :=
  match project_find (path_pool (project_index this)) file_path with
  | None => Ok true
  | Some id =>
    match merged_indices this !! id with
    | None => Ok true
    | Some shard => need_update ord modified (paths (path_pool (project_index this))) shard
    end
  end.

(** [find_symbol_info]: sessions, then the project, then the shards in turn. *)
Definition find_symbol_info this (hash : Z) : Res E (option (bytes * Z)) :=
  let info (s : Symbol) := (name s, symbol_kind s) in
  match list_find (λ e : Z * Session, is_Some (default ∅ (session_symbols e.2) !! hash))
          (ready_sessions ord this) with
  | Some (_, (_, session)) => Ok (info <$> default ∅ (session_symbols session) !! hash)
  | None =>
    match p_symbols (project_index this) !! hash with
    | Some s => Ok (Some (info s))
    | None => first_result (entries ord (merged_indices this))
                (λ e, find_symbol e.2 hash ([], invalid_kind))
    end
  end.

Record CursorHit := mkCursorHit { hit_hash : Z; hit_range : LspRange }.

Definition no_hit : CursorHit := mkCursorHit 0 (mkLspRange (mkPosition 0 0) (mkPosition 0 0)).

(** The shard is looked up only where there is a session, by the session's text. *)
Definition resolve_cursor this (path : bytes) (position : Position) (session : option Session) :
    Res E (Indexer * CursorHit) :=
  match session with
  | None => Ok (this, no_hit)
  | Some s =>
    match to_offset (session_text s) (session_lines s) position with
    | None => Ok (this, no_hit)
    | Some offset =>
      match file_index s, ast_dirty s with
      | Some index, false =>
        Ok (this, file_lookup_offset index offset (λ o hit,
              match to_range (session_text s) (session_lines s) (range_begin (o_range o))
                      (range_end (o_range o)) with
              | Some range => (mkCursorHit (o_target o) range, false)
              | None => (hit, true)
              end) no_hit)
      | _, _ =>
        match project_find (path_pool (project_index this)) path with
        | None => Ok (this, no_hit)
        | Some id =>
          match merged_indices this !! id with
          | None => Ok (this, no_hit)
          | Some shard =>
            let? lines := get_line_starts shard in
            if decide (lines = []) then Ok (this, no_hit) else
            let? text := get_content shard in
            let? r := lookup_offset ord shard offset (λ o hit,
                        (match to_range text lines (range_begin (o_range o))
                                 (range_end (o_range o)) with
                         | Some range => mkCursorHit (o_target o) range
                         | None => hit
                         end, false)) no_hit in
            Ok (set_shard id r.1 this, r.2)
          end
        end
      end
    end
  end.

(** The walk over the shards of the closed files that mention a symbol. *)
Definition each_shard {S} this (hash : Z) (body : Z → MergedIndex → S → Res E S) (s : S) :
    Res E S :=
  for_each (mentioning this hash) (λ id s,
    let? shard := closed_shard this id in
    match shard with None => Ok s | Some shard => body id shard s end) s.

(** [foreach_session] with a visitor that never stops. *)
Definition each_session {S} this (body : Z → Session → FileIndex → S → Res E S) (s : S) :
    Res E S :=
  for_each (ready_sessions ord this) (λ e s,
    let? index := read (file_index e.2) in body e.1 e.2 index s) s.

(** The text and the line starts of a shard, where it has any. *)
Definition line_map (shard : MergedIndex) : Res E (option (bytes * list Z)) :=
  let? lines := get_line_starts shard in
  if decide (lines = []) then Ok None else
  let? text := get_content shard in
  Ok (Some (text, lines)).

Definition session_map (s : Session) : bytes * list Z := (session_text s, session_lines s).

(** A visit of the relations of a shard that needs positions. *)
Definition visit_mapped {S} (shard : MergedIndex) (hash : Z) (kind : RelationKind)
    (body : bytes * list Z → Visitor Relation S) (s : S) : Res E S :=
  let? m := line_map shard in
  match m with None => Ok s | Some m => lookup_symbol ord shard hash kind (body m) s end.

Definition relation_range (m : bytes * list Z) (r : Relation) : option LspRange :=
  to_range m.1 m.2 (range_begin (r_range r)) (range_end (r_range r)).

Definition push_location (u : bytes) (m : bytes * list Z) : Visitor Relation (list LspLocation) :=
  λ r l, (match relation_range m r with
          | Some range => l ++ [mkLspLocation u range]
          | None => l
          end, true).

(** The walks of [query_relations] *)
Definition locations_of this (hash : Z) (kind : RelationKind) : Res E (list LspLocation) :=
  let? l := each_shard this hash (λ id shard l,
    let? path := project_path (path_pool (project_index this)) id in
    match from_file_path path with
    | None => Ok l
    | Some u => visit_mapped shard hash kind (push_location u) l
    end) [] in
  each_session this (λ id s index l,
    let? path := server_path this id in
    match from_file_path path with
    | None => Ok l
    | Some u => Ok (file_lookup_symbol index hash kind (push_location u (session_map s)) l)
    end) l.

Definition query_relations this (path : bytes) (position : Position) (kind : RelationKind)
    (session : option Session) : Res E (Indexer * list LspLocation) :=
  let? r := resolve_cursor this path position session in
  if hit_hash r.2 =? 0 then Ok (r.1, []) else
  let? l := locations_of r.1 (hit_hash r.2) kind in
  Ok (r.1, l).

(** [lookup_symbol] of the indexer *)
Record SymbolInfo := mkSymbolInfo {
  info_hash : Z; info_name : bytes; info_kind : Z; info_uri : bytes; info_range : LspRange }.

Definition symbol_at this (u path : bytes) (position : Position) (session : option Session) :
    Res E (Indexer * option SymbolInfo) :=
  let? r := resolve_cursor this path position session in
  if hit_hash r.2 =? 0 then Ok (r.1, None) else
  let? info := find_symbol_info r.1 (hit_hash r.2) in
  Ok (r.1, (λ i : bytes * Z, mkSymbolInfo (hit_hash r.2) i.1 i.2 u (hit_range r.2)) <$> info).

(** The first definition that has a position. *)
Definition take_location (u : bytes) (m : bytes * list Z) : Visitor Relation (option LspLocation) :=
  λ r found, match relation_range m r with
             | Some range => (Some (mkLspLocation u range), false)
             | None => (found, true)
             end.

Definition find_definition_location this (hash : Z) : Res E (option LspLocation) :=
  let? found := first_result (ready_sessions ord this) (λ e,
    let? path := server_path this e.1 in
    match from_file_path path with
    | None => Ok None
    | Some u =>
      let? index := read (file_index e.2) in
      Ok (file_lookup_symbol index hash Definition_ (take_location u (session_map e.2)) None)
    end) in
  match found with
  | Some location => Ok (Some location)
  | None =>
    first_result (mentioning this hash) (λ id,
      let? shard := closed_shard this id in
      match shard with
      | None => Ok None
      | Some shard =>
        let? path := project_path (path_pool (project_index this)) id in
        match from_file_path path with
        | None => Ok None
        | Some u => visit_mapped shard hash Definition_ (take_location u) None
        end
      end)
  end.

(** [resolve_hierarchy_item]; the stored data is a signed number. *)
Definition resolve_hierarchy_item this (u path : bytes) (range : LspRange) (data : option Z)
    (session : option Session) : Res E (Indexer * option SymbolInfo) :=
  let? known := match data with
                | Some n =>
                  let? info := find_symbol_info this (u64 n) in
                  Ok ((λ i : bytes * Z, mkSymbolInfo (u64 n) i.1 i.2 u range) <$> info)
                | None => Ok None
                end in
  match known with
  | Some info => Ok (this, Some info)
  | None => symbol_at this u path (lsp_start range) session
  end.

Definition push_range (m : bytes * list Z) : Visitor Relation (gmap Z (list LspRange)) :=
  λ r ranges, (match relation_range m r with
               | Some range => <[r_target_symbol r :=
                                   get_or [] ranges (r_target_symbol r) ++ [range]]> ranges
               | None => ranges
               end, true).

Definition collect_grouped_relations this (hash : Z) (kind : RelationKind) :
    Res E (gmap Z (list LspRange)) :=
  let? ranges := each_shard this hash (λ _ shard, visit_mapped shard hash kind push_range) ∅ in
  each_session this (λ _ s index ranges,
    Ok (file_lookup_symbol index hash kind (push_range (session_map s)) ranges)) ranges.

Definition push_target : Visitor Relation (gset Z * list Z) :=
  λ r st, (if decide (r_target_symbol r ∈ st.1) then st
           else ({[r_target_symbol r]} ∪ st.1, st.2 ++ [r_target_symbol r]), true).

Definition collect_unique_targets this (hash : Z) (kind : RelationKind) : Res E (list Z) :=
  let? st := each_shard this hash (λ _ shard, lookup_symbol ord shard hash kind push_target)
               (∅, []) in
  let? st := each_session this (λ _ _ index st,
    Ok (file_lookup_symbol index hash kind push_target st)) st in
  Ok st.2.

Definition resolve_symbol this (hash : Z) : Res E (option SymbolInfo) :=
  let? info := find_symbol_info this hash in
  match info with
  | None => Ok None
  | Some i =>
    let? location := find_definition_location this hash in
    Ok ((λ loc, mkSymbolInfo hash i.1 i.2 (uri loc) (lsp_range loc)) <$> location)
  end.
End queries.

(** ** Answers *)

(** The values of [SymbolKind::Kind] in symbol_kind.h *)
Module Kind.
Definition Module_ := 7.
Definition Macro := 8.
Definition MacroParameter := 9.
Definition Namespace_ := 10.
Definition Class_ := 11.
Definition Struct := 12.
Definition Union := 13.
Definition Enum := 14.
Definition Type_ := 15.
Definition Field_ := 16.
Definition EnumMember := 17.
Definition Function_ := 18.
Definition Method := 19.
Definition Variable_ := 20.
Definition Parameter_ := 21.
Definition Label := 22.
Definition Concept := 23.
Definition Attribute := 24.
Definition Operator := 25.
End Kind.

(** [protocol::SymbolKind], the enumerators in use *)
Inductive LspKind := LspNamespace | LspClass | LspStruct | LspEnum | LspTypeParameter | LspField
| LspEnumMember | LspFunction | LspMethod | LspVariable | LspInterface | LspModule | LspOperator.

Definition to_lsp_symbol_kind (kind : Z) : LspKind :=
  if kind =? Kind.Namespace_ then LspNamespace
  else if kind =? Kind.Class_ then LspClass
  else if kind =? Kind.Struct then LspStruct
  else if kind =? Kind.Union then LspClass
  else if kind =? Kind.Enum then LspEnum
  else if kind =? Kind.Type_ then LspTypeParameter
  else if kind =? Kind.Field_ then LspField
  else if kind =? Kind.EnumMember then LspEnumMember
  else if kind =? Kind.Function_ then LspFunction
  else if kind =? Kind.Method then LspMethod
  else if kind =? Kind.Variable_ then LspVariable
  else if kind =? Kind.Parameter_ then LspVariable
  else if kind =? Kind.Macro then LspFunction
  else if kind =? Kind.Concept then LspInterface
  else if kind =? Kind.Module_ then LspModule
  else if kind =? Kind.Operator then LspOperator
  else LspVariable.

Definition is_indexable_kind (kind : Z) : bool :=
  bool_decide (kind ∈ [Kind.Namespace_; Kind.Class_; Kind.Struct; Kind.Union; Kind.Enum; Kind.Type_;
    Kind.Field_; Kind.EnumMember; Kind.Function_; Kind.Method; Kind.Variable_; Kind.Parameter_;
    Kind.Macro; Kind.Concept; Kind.Module_; Kind.Operator; Kind.MacroParameter; Kind.Label;
    Kind.Attribute]).

(** Items of the call and the type hierarchy have the same fields. *)
Record HierarchyItem := mkHierarchyItem {
  item_name : bytes; item_kind : LspKind; item_uri : bytes; item_range : LspRange;
  item_selection : LspRange; item_data : Z }.

Definition build_hierarchy_item (info : SymbolInfo) : HierarchyItem :=
  mkHierarchyItem (info_name info) (to_lsp_symbol_kind (info_kind info)) (info_uri info)
    (info_range info) (info_range info) (i64 (info_hash info)).

Record SymbolInformation := mkSymbolInformation {
  found_name : bytes; found_kind : LspKind; found_location : LspLocation }.

Record DefinitionText := mkDefinitionText {
  def_file : bytes; start_line : Z; end_line : Z; def_text : bytes }.

Record ReferenceWithContext := mkReferenceWithContext {
  ref_file : bytes; ref_line : Z; ref_context : bytes }.

(** [StringRef::find(c, from)] *)
Definition find_from (c : ascii) (from : nat) (s : bytes) : option nat :=
  (λ r : nat * ascii, from + r.1)%nat <$> list_find (λ x, x = c) (drop from s).

(** [slice(start, end)] *)
Definition slice (s : bytes) (start end_ : nat) : bytes := take (end_ - start) (drop start s).

(** [StringRef::lower] on ASCII *)
Definition to_lower (c : ascii) : ascii :=
  let n := N_of_ascii c in
  if (65 <=? n)%N && (n <=? 90)%N then ascii_of_N (n + 32) else c.
Definition lower_case (s : bytes) : bytes := to_lower <$> s.

(** [find(needle) != npos] *)
Fixpoint has_substring (needle s : bytes) : bool :=
  bool_decide (needle `prefix_of` s) || match s with [] => false | _ :: s => has_substring needle s end.

Definition matches_query (query name : bytes) : bool :=
  bool_decide (lower_case query = []) || has_substring (lower_case query) (lower_case name).

(** The line around an offset.  [rfind content c from] stands for
    [content.rfind(c, from)] of [llvm::StringRef]. *)
Definition extract_line (rfind : bytes → ascii → nat → option nat) (content : bytes) (offset : nat) :
    bytes :=
  if decide (content = [] ∨ (length content ≤ offset)%nat) then [] else
  let line_start :=
    if decide (0 < offset)%nat then
      match rfind content "010"%char (offset - 1)%nat with Some pos => S pos | None => 0%nat end
    else 0%nat in
  let line_end := default (length content) (find_from "010"%char offset content) in
  slice content line_start line_end.

Section answers.
Context {E : Type} `{Roaring} `{IndexLibs} `{FlatBuffer FbMergedIndex} `{Positions}.
Context (ord : Order) (rfind : bytes → ascii → nat → option nat).
Implicit Types this : Indexer.

(** The text of the first definition whose range is valid. *)
Definition take_definition (file : bytes) (m : bytes * list Z) :
    Visitor Relation (option DefinitionText) := λ r found,
  let def_range := definition_range r in
  let b := range_begin def_range in
  let e := range_end def_range in
  if decide (e ≤ b ∨ Z.of_nat (length m.1) < e) then (found, true) else
  match to_range m.1 m.2 b e with
  | None => (found, true)
  | Some range =>
    (Some (mkDefinitionText file (line (lsp_start range) + 1) (line (lsp_end range) + 1)
             (slice m.1 (Z.to_nat b) (Z.to_nat e))), false)
  end.

Definition get_definition_text this (hash : Z) : Res E (option DefinitionText) :=
  let? found := first_result (ready_sessions ord this) (λ e,
    let? path := server_path this e.1 in
    let? index := read (file_index e.2) in
    Ok (file_lookup_symbol index hash Definition_ (take_definition path (session_map e.2)) None)) in
  match found with
  | Some text => Ok (Some text)
  | None =>
    first_result (mentioning this hash) (λ id,
      let? shard := closed_shard this id in
      match shard with
      | None => Ok None
      | Some shard =>
        let? path := project_path (path_pool (project_index this)) id in
        visit_mapped ord shard hash Definition_ (take_definition path) None
      end)
  end.

Definition push_reference (file : bytes) (m : bytes * list Z) :
    Visitor Relation (list ReferenceWithContext) := λ r l,
  (match to_position m.1 m.2 (range_begin (r_range r)) with
   | None => l
   | Some pos =>
     l ++ [mkReferenceWithContext file (line pos + 1)
             (extract_line rfind m.1 (Z.to_nat (range_begin (r_range r))))]
   end, true).

Definition collect_references this (hash : Z) (kind : RelationKind) :
    Res E (list ReferenceWithContext) :=
  let? l := each_shard this hash (λ id shard l,
    let? path := project_path (path_pool (project_index this)) id in
    visit_mapped ord shard hash kind (push_reference path) l) [] in
  each_session ord this (λ id s index l,
    let? path := server_path this id in
    Ok (file_lookup_symbol index hash kind (push_reference path (session_map s)) l)) l.

(** [find_incoming_calls] and [find_outgoing_calls], with [Caller] and [Callee] *)
Definition find_calls this (hash : Z) (kind : RelationKind) :
    Res E (list (HierarchyItem * list LspRange)) :=
  let? ranges := collect_grouped_relations ord this hash kind in
  for_each (entries ord ranges) (λ e l,
    let? info := resolve_symbol ord this e.1 in
    Ok match info with None => l | Some i => l ++ [(build_hierarchy_item i, e.2)] end) [].

(** [find_supertypes] and [find_subtypes], with [Base] and [Derived] *)
Definition find_types this (hash : Z) (kind : RelationKind) : Res E (list HierarchyItem) :=
  let? targets := collect_unique_targets ord this hash kind in
  for_each targets (λ target l,
    let? info := resolve_symbol ord this target in
    Ok match info with None => l | Some i => l ++ [build_hierarchy_item i] end) [].

(** One symbol of [search_symbols]; [results] and [seen] are threaded. *)
Definition search_symbol this (query : bytes) (e : Z * Symbol)
    (st : list SymbolInformation * gset Z) : Res E (list SymbolInformation * gset Z) :=
  let s := e.2 in
  if negb (is_indexable_kind (symbol_kind s)) || bool_decide (name s = [])
     || negb (matches_query query (name s)) then Ok st else
  let? location := find_definition_location ord this e.1 in
  Ok match location with
     | None => st
     | Some loc => (st.1 ++ [mkSymbolInformation (name s) (to_lsp_symbol_kind (symbol_kind s)) loc],
                    {[e.1]} ∪ st.2)
     end.

(** The loops stop at [max_results]. *)
Definition search_table this (query : bytes) (max_results : nat) (skip_seen : bool)
    (table : list (Z * Symbol)) (st : list SymbolInformation * gset Z) :
    Res E (list SymbolInformation * gset Z) :=
  for_each table (λ e st,
    if decide (max_results ≤ length st.1)%nat then Ok st
    else if skip_seen && bool_decide (e.1 ∈ st.2) then Ok st
    else search_symbol this query e st) st.

Definition search_symbols this (query : bytes) (max_results : nat) :
    Res E (list SymbolInformation) :=
  let? st := search_table this query max_results false
               (entries ord (p_symbols (project_index this))) ([], ∅) in
  let? st := for_each (ready_sessions ord this) (λ e st,
    let? table := read (session_symbols e.2) in
    search_table this query max_results true (entries ord table) st) st in
  Ok st.1.
End answers.
