(* ===== verification/IndexerMerge.v ===== *)
(** * Merging a unit into the workspace

    The shards of the workspace are described by the operations they went through:
    a _history_ gives for each file the sequence of merges that leads from an empty
    shard to the present one, so that the theorems on shards apply.  Merging a unit
    appends the operations of its files to their histories. *)
From S2P Require Import IndexData PathPool MergedIndex MergedInvariant MergedImage MergedSimulation MergedTheorems IncludeGraph TUIndex TUTheorems ProjectIndex IndexLibraries Indexer.
Local Open Scope Z_scope.
Local Open Scope cpp_scope.

(** ** Contexts stay *)

(** Merging never removes a context. *)
Definition keeps (op : ShardOp) : Prop := match op with OpRemove _ => False | _ => True end.

Lemma header_stays P f p fs ops spec :
  Forall keeps ops → live_headers spec !! p = Some fs → f ∈ fs → P f →
  live P (spec_run ops spec).
Proof.
  revert spec fs. induction ops as [|op ops IH]; intros spec fs Hk Hp Hf HP; simpl.
  { left. by exists p, fs, f. }
  apply Forall_cons in Hk as [Hop Hk].
  destruct op as [ord q b l g text|ord q j g text|q|ord table|ord offset|ord]; simpl;
    try (by eapply IH).
  destruct (decide (q = p)) as [->|Hne].
  - eapply (IH _ (fs ++ [g])); [done| |set_solver|done]. simpl. rewrite lookup_insert_eq.
    unfold get_or. by rewrite Hp.
  - eapply IH; [done| |done..]. simpl. by rewrite lookup_insert_ne.
Qed.

Lemma merged_header_live P ops pre post ord p j f text spec :
  ops = pre ++ OpHeader ord p j f text :: post → Forall keeps post → P f →
  live P (spec_run ops spec).
Proof.
  intros -> Hk HP. rewrite spec_run_app. cbn [spec_run].
  eapply (header_stays P f p (get_or [] (live_headers (spec_run pre spec)) p ++ [f]));
    [done| |set_solver|done]. simpl. by rewrite lookup_insert_eq.
Qed.

(** Operations that leave the compilation contexts alone. *)
Definition compiles_nothing (op : ShardOp) : Prop :=
  match op with OpRemove _ | OpCompilation _ _ _ _ _ _ => False | _ => True end.

Lemma merged_compilation_live P ops pre post ord p b l f text spec :
  ops = pre ++ OpCompilation ord p b l f text :: post → Forall compiles_nothing post → P f →
  live P (spec_run ops spec).
Proof.
  intros -> Hk HP. rewrite spec_run_app. cbn [spec_run].
  assert (∀ spec, live_compilations spec !! p = Some f → live P (spec_run post spec)) as Hgen.
  { induction post as [|op post IH]; intros spec' Hp; simpl; [right; by exists p, f|].
    apply Forall_cons in Hk as [Hop Hk]. destruct op; simpl in *; try done; by apply IH. }
  apply Hgen. simpl. by rewrite lookup_insert_eq.
Qed.

Lemma for_each_app {E A S} (a b : list A) (body : A → S → Res E S) s :
  for_each (a ++ b) body s = let? s := for_each a body s in for_each b body s.
Proof.
  revert s. induction a as [|x a IH]; intros s; [done|]. cbn [for_each app].
  destruct (body x s); cbn [Res_bind]; [apply IH|done..].
Qed.

(** ** Histories *)

Definition History := Z → list ShardOp.

Definition add_ops (hist : History) (id : Z) (ops : list ShardOp) : History :=
  λ j, if decide (j = id) then hist j ++ ops else hist j.

Section workspace.
Context {E : Type} `{Roaring} `{!RoaringLaws} `{IndexLibs} `{FlatBuffer FbMergedIndex}
  `{!FlatBufferLaws FbMergedIndex} `{FlatBuffer FbTUIndex} `{!FlatBufferLaws FbTUIndex}.

Definition shard_of (this : Indexer) (id : Z) : MergedIndex :=
  get_or empty_index (merged_indices this) id.

Lemma shard_of_set id shard this j :
  shard_of (set_shard id shard this) j = if decide (id = j) then shard else shard_of this j.
Proof. apply get_or_update. Qed.

(** Every shard is the result of its history: at most [n] operations each, with
    indices of [known]. *)
Record workspace_ok (n : nat) (known : list FileIndex) (hist : History) (this : Indexer) : Prop := {
  ok_runs : ∀ id, shard_run (E := E) (hist id) empty_index = Ok (shard_of this id);
  ok_length : ∀ id, (length (hist id) ≤ n)%nat;
  ok_known_indices : ∀ id f, f ∈ all_indices (hist id) → f ∈ known;
  ok_named : ∀ id, Forall symbols_named (hist id);
  ok_project : project_ok (project_index this);
}.

Lemma empty_workspace_ok pool opened :
  workspace_ok 0 [] (λ _, []) (mkIndexer empty_project ∅ pool opened).
Proof.
  split; [|done|intros id f; set_solver|constructor|apply empty_project_ok].
  intros id. unfold shard_of. cbn [merged_indices shard_run]. by rewrite get_or_empty.
Qed.

(** The tables of a shard of the workspace. *)
Lemma workspace_shard n known hist this id :
  workspace_ok n known hist this → Z.of_nat n < two32 → distinguishes known →
  ∃ G i, denotes (shard_of this id) i ∧ shard_ok (length (hist id)) G i ∧
    contexts_match G i (spec_run (hist id) no_contexts) ∧ (∀ g, g ∈ G → g ∈ all_indices (hist id)).
Proof.
  intros [Hruns Hlen Hkn Hnm _] Hn Hd.
  destruct (run_from_empty (E := E) (hist id)) as (st & G & i & Hrun & Hden & Hok & _ & Hm & _ & HG).
  - specialize (Hlen id). lia.
  - intros f g o o' Hf%Hkn Hg%Hkn. by apply Hd.
  - done.
  - rewrite Hruns in Hrun. simplify_eq. eauto 8.
Qed.

(** Appending operations to the history of a shard. *)
Lemma workspace_step n known hist this id ops :
  workspace_ok n known hist this → Z.of_nat (n + length ops) < two32 → distinguishes known →
  (∀ f, f ∈ all_indices ops → f ∈ known) → Forall symbols_named ops →
  ∃ shard, shard_run (E := E) ops (shard_of this id) = Ok shard ∧
    workspace_ok (n + length ops) known (add_ops hist id ops) (set_shard id shard this).
Proof.
  intros [Hruns Hlen Hkn Hnm Hp] Hn Hd Hops Hnamed.
  assert (∀ f, f ∈ all_indices (hist id ++ ops) → f ∈ known) as Hknown.
  { intros f. rewrite all_indices_app, elem_of_app. intros [?|?]; [by apply (Hkn id)|by apply Hops]. }
  destruct (run_from_empty (E := E) (hist id ++ ops)) as (st & _ & _ & Hrun & _).
  - specialize (Hlen id). rewrite length_app. lia.
  - intros f g o o' Hf%Hknown Hg%Hknown. by apply Hd.
  - by apply Forall_app.
  - pose proof Hrun as Hrun2. rewrite shard_run_app, (Hruns id) in Hrun2. cbn [Res_bind] in Hrun2.
    exists st. split; [done|]. split; [..|done]; intros j.
    + rewrite shard_of_set. unfold add_ops. destruct (decide (j = id)) as [->|Hj];
        [by rewrite decide_True|by rewrite decide_False].
    + specialize (Hlen j). unfold add_ops. case_decide; rewrite ?length_app; lia.
    + unfold add_ops. case_decide; [subst; apply Hknown|apply Hkn].
    + unfold add_ops. case_decide; [subst; by apply Forall_app|done].
Qed.

(** ** The operations of a file *)

Section unit.
Context (ord : Order) (read_file : bytes → option bytes) (tu : TUIndex) (ids : list Z)
  (pool : PathPool).

Definition global_id (path_id : Z) : Z := default 0 (ids !! Z.to_nat path_id).

Definition text_of (id : Z) : bytes :=
  match resolve pool id with Some path => default [] (read_file path) | None => [] end.

Definition remapped : list IncludeLocation :=
  (λ loc, mkIncludeLocation (global_id (location_path_id loc)) (location_line loc)
            (location_include loc)) <$> g_locations (graph tu).

Definition file_ops (e : Z * FileIndex) : list ShardOp :=
  let id := global_id e.1 in
  let locals := collect_local_symbols (tu_symbols tu) e.2 in
  if e.1 =? main_path_id tu then
    [OpCompilation ord id (built_at tu) remapped e.2 (text_of id); OpSymbols ord locals]
  else
    match first_include (g_locations (graph tu)) e.1 with
    | None => []
    | Some i => [OpHeader ord id i e.2 (text_of id); OpSymbols ord locals]
    end.

(** What the paths of the unit were mapped to. *)
Definition ids_ok : Prop :=
  Forall2 (λ p id, project_path (E := E) pool id = Ok (normalize p)) (g_paths (graph tu)) ids.

Definition in_unit (path_id : Z) : Prop :=
  0 ≤ path_id < Z.of_nat (length (g_paths (graph tu))).

Lemma map_file_global path_id :
  ids_ok → in_unit path_id →
  map_file (E := E) ids path_id = Ok (global_id path_id) ∧
  ∃ path, project_path (E := E) pool (global_id path_id) = Ok path.
Proof.
  intros Hids Hp. unfold map_file, global_id. rewrite decide_True by (unfold in_unit in Hp; lia).
  destruct (lookup_lt_is_Some_2 ids (Z.to_nat path_id)) as [id Hid].
  { rewrite <- (Forall2_length _ _ _ Hids). unfold in_unit in Hp. lia. }
  rewrite Hid. split; [done|]. destruct (Forall2_lookup_r _ _ _ _ _ Hids Hid) as (p & _ & Hpath).
  by eexists.
Qed.

Lemma remap_locations_ok l :
  ids_ok → Forall (λ loc, in_unit (location_path_id loc)) l →
  remap_locations (E := E) ids l =
  Ok ((λ loc, mkIncludeLocation (global_id (location_path_id loc)) (location_line loc)
                (location_include loc)) <$> l).
Proof.
  intros Hids Hl. unfold remap_locations.
  destruct (for_each_prefix (E := E) (λ pre r, r = (λ loc, mkIncludeLocation
      (global_id (location_path_id loc)) (location_line loc) (location_include loc)) <$> pre)
    l (λ loc l, let? id := map_file ids (location_path_id loc) in
         Ok (l ++ [mkIncludeLocation id (location_line loc) (location_include loc)])) [])
    as (r & -> & ->); [done| |done].
  intros pre loc post r -> ->. apply Forall_app in Hl as [_ [Hloc _]%Forall_cons].
  destruct (map_file_global _ Hids Hloc) as [-> _]. cbn [Res_bind]. eexists. split; [done|].
  by rewrite fmap_app.
Qed.

Lemma collect_local_named f :
  scopes_ok (tu_symbols tu) → symbols_named (OpSymbols ord (collect_local_symbols (tu_symbols tu) f)).
Proof.
  intros Hsc. simpl. unfold collect_local_symbols.
  assert (∀ m, scopes_ok m → scopes_ok (foldl (λ result o,
    match tu_symbols tu !! o_target o with
    | Some s => if decide (scope s = External) then result
                else try_emplace result (o_target o) s
    | None => result
    end) m (f_occurrences f))) as Hgen; [|apply Hgen; intros s sym Hs; by rewrite lookup_empty in Hs].
  induction (f_occurrences f) as [|o l IH]; intros m Hm; [done|]. simpl. apply IH.
  destruct (tu_symbols tu !! o_target o) as [sym|] eqn:Es; [|done]. case_decide; [done|].
  unfold try_emplace. case_match; [done|]. intros s sym'. rewrite lookup_insert_Some.
  intros [[<- <-]|[_ ?]]; [by apply (Hsc _ _ Es)|by apply (Hm s)].
Qed.

Lemma file_ops_facts e :
  scopes_ok (tu_symbols tu) →
  (length (file_ops e) ≤ 2)%nat ∧ (∀ f, f ∈ all_indices (file_ops e) → f = e.2) ∧
  Forall symbols_named (file_ops e) ∧ Forall keeps (file_ops e).
Proof.
  intros Hsc. pose proof (collect_local_named e.2 Hsc) as Hnm. unfold file_ops.
  destruct (e.1 =? main_path_id tu); [|destruct (first_include _ _)]; cbn;
    split_and!; try lia; try (by repeat constructor); set_solver.
Qed.

(** [merge_file_index] runs exactly these operations on the shard of the file. *)
Lemma merge_file_index_ok n known hist this e :
  ids_ok → Forall (λ loc, in_unit (location_path_id loc)) (g_locations (graph tu)) → in_unit e.1 →
  path_pool (project_index this) = pool → scopes_ok (tu_symbols tu) →
  workspace_ok n known hist this → Z.of_nat (n + 2) < two32 → distinguishes known → e.2 ∈ known →
  ∃ this', merge_file_index (E := E) ord read_file tu ids e this = Ok this' ∧
    workspace_ok (n + 2) known (add_ops hist (global_id e.1) (file_ops e)) this' ∧
    (∃ shard, this' = set_shard (global_id e.1) shard this).
Proof.
  intros Hids Hlocs Hin Hpool Hsc Hok Hn Hd Hknown.
  destruct (file_ops_facts e Hsc) as (Hlen & Hidx & Hnm & _).
  destruct (workspace_step n known hist this (global_id e.1) (file_ops e) Hok)
    as (shard & Hrun & Hok'); [lia|done|by intros f ->%Hidx|done|].
  exists (set_shard (global_id e.1) shard this). split; [|split; [|by eexists]].
  2:{ destruct Hok' as [? Hl ? ? ?]. split; try done. intros id. specialize (Hl id). lia. }
  destruct (map_file_global e.1 Hids Hin) as [Hmap [path Hpath]].
  unfold merge_file_index, file_content. rewrite Hmap, Hpool. cbn [Res_bind].
  assert (text_of (global_id e.1) = default [] (read_file path)) as Htext.
  { unfold text_of. unfold project_path in Hpath. destruct (resolve pool (global_id e.1)); [|done].
    by injection Hpath as ->. }
  unfold file_ops in Hrun. fold (shard_of this (global_id e.1)).
  destruct (e.1 =? main_path_id tu).
  - rewrite (remap_locations_ok _ Hids Hlocs), Hpath. cbn [Res_bind].
    rewrite Htext in Hrun. cbn [shard_run shard_step] in Hrun. unfold remapped in Hrun.
    destruct (merge_compilation _ _ _ _ _ _ _); cbn [Res_bind] in *; try done.
    destruct (merge_symbols _ _ _); cbn [Res_bind] in *; try done. by injection Hrun as ->.
  - destruct (first_include _ _); [|by injection Hrun as ->].
    rewrite Hpath. cbn [Res_bind]. rewrite Htext in Hrun. cbn [shard_run shard_step] in Hrun.
    destruct (merge_header _ _ _ _ _ _); cbn [Res_bind] in *; try done.
    destruct (merge_symbols _ _ _); cbn [Res_bind] in *; try done. by injection Hrun as ->.
Qed.

(** ** The files of a unit, the main file last *)

Definition unit_files : list (Z * FileIndex) :=
  entries ord (path_file_indices tu) ++ [(main_path_id tu, main_file_index tu)].

Definition merged_history (hist : History) (l : list (Z * FileIndex)) : History :=
  foldl (λ hist e, add_ops hist (global_id e.1) (file_ops e)) hist l.

Lemma history_grows hist l id :
  scopes_ok (tu_symbols tu) →
  ∃ post, merged_history hist l id = hist id ++ post ∧ Forall keeps post.
Proof.
  intros Hsc. revert hist. induction l as [|e l IH]; intros hist; simpl.
  { exists []. by rewrite app_nil_r. }
  destruct (IH (add_ops hist (global_id e.1) (file_ops e))) as (post & -> & Hk).
  destruct (file_ops_facts e Hsc) as (_ & _ & _ & Hke). unfold add_ops. case_decide; [|by exists post].
  exists (file_ops e ++ post). rewrite <- app_assoc. split; [done|]. by apply Forall_app.
Qed.

Lemma merged_history_split hist a e b :
  scopes_ok (tu_symbols tu) →
  ∃ pre post, merged_history hist (a ++ e :: b) (global_id e.1) = pre ++ file_ops e ++ post ∧
    Forall keeps post ∧ (b = [] → post = []).
Proof.
  intros Hsc. unfold merged_history. rewrite foldl_app. cbn [foldl].
  destruct (history_grows (add_ops (merged_history hist a) (global_id e.1) (file_ops e)) b
    (global_id e.1) Hsc) as (post & Hpost & Hk).
  exists (merged_history hist a (global_id e.1)), post. split_and!.
  - etrans; [exact Hpost|]. unfold add_ops. by rewrite decide_True, app_assoc.
  - done.
  - intros ->. apply (f_equal length) in Hpost. cbn [merged_history foldl] in Hpost.
    rewrite length_app in Hpost. destruct post; [done|]. cbn [length] in Hpost. lia.
Qed.

(** The files whose index is merged: the main file, and headers with an include
    location. *)
Definition indexed (e : Z * FileIndex) : Prop :=
  e = (main_path_id tu, main_file_index tu) ∨
  path_file_indices tu !! e.1 = Some e.2 ∧ e.1 ≠ main_path_id tu ∧
  is_Some (first_include (g_locations (graph tu)) e.1).

(** The index of a merged file is the index of a context of its shard. *)
Lemma indexed_live (P : FileIndex → Prop) hist e :
  scopes_ok (tu_symbols tu) → indexed e → P e.2 →
  live P (spec_run (merged_history hist unit_files (global_id e.1)) no_contexts).
Proof.
  intros Hsc [->|(Hin & Hne & [i Hi])] HP.
  - destruct (merged_history_split hist (entries ord (path_file_indices tu))
      (main_path_id tu, main_file_index tu) [] Hsc) as (pre & post & Heq & _ & Hpost).
    unfold unit_files. rewrite Heq, (Hpost eq_refl), app_nil_r.
    unfold file_ops. cbn [fst snd]. rewrite Z.eqb_refl.
    eapply merged_compilation_live; [done|by repeat constructor|done].
  - assert (e ∈ entries ord (path_file_indices tu)) as Hel
      by (destruct e; by apply elem_of_entries).
    apply list_elem_of_split in Hel as (a & b & Hab).
    destruct (merged_history_split hist a e (b ++ [(main_path_id tu, main_file_index tu)]) Hsc)
      as (pre & post & Heq & Hk & _).
    unfold unit_files. rewrite Hab, <- app_assoc. cbn [app]. rewrite Heq.
    unfold file_ops. apply Z.eqb_neq in Hne. rewrite Hne, Hi. cbn [app].
    eapply merged_header_live; [done| |done]. constructor; [exact I|done].
Qed.
End unit.

(** ** Merging *)

(** What the indices of a unit satisfy: paths are not empty, path ids are in range,
    and scopes are those of the enumeration. *)
Record mergeable (tu : TUIndex) : Prop := {
  mg_paths : g_paths (graph tu) ≠ [] ∧ Forall (λ p, p ≠ []) (g_paths (graph tu));
  mg_locations : Forall (λ loc, in_unit tu (location_path_id loc)) (g_locations (graph tu));
  mg_files : ∀ path_id f, path_file_indices tu !! path_id = Some f → in_unit tu path_id;
  mg_references : refs_in_range (length (g_paths (graph tu))) (tu_symbols tu);
  mg_scopes : scopes_ok (tu_symbols tu);
}.

Definition unit_indices (tu : TUIndex) : list FileIndex :=
  main_file_index tu :: (map_to_list (path_file_indices tu)).*2.

Lemma main_path_in_unit tu :
  g_paths (graph tu) ≠ [] → Z.of_nat (length (g_paths (graph tu))) < two32 →
  main_path_id tu = Z.of_nat (length (g_paths (graph tu))) - 1 ∧ in_unit tu (main_path_id tu).
Proof.
  intros Hne Hlt. unfold main_path_id, in_unit.
  assert (0 < length (g_paths (graph tu)))%nat by (destruct (g_paths (graph tu)); [done|simpl; lia]).
  rewrite u32_small by lia. lia.
Qed.

Lemma merge_files_ok ord read_file tu ids pool l n known hist this :
  ids_ok tu ids pool → mergeable tu → Forall (λ e, in_unit tu e.1 ∧ e.2 ∈ known) l →
  path_pool (project_index this) = pool → workspace_ok n known hist this →
  Z.of_nat (n + 2 * length l) < two32 → distinguishes known →
  ∃ this', for_each l (merge_file_index (E := E) ord read_file tu ids) this = Ok this' ∧
    workspace_ok (n + 2 * length l) known (merged_history ord read_file tu ids pool hist l) this' ∧
    project_index this' = project_index this ∧ path_pool_of this' = path_pool_of this ∧
    sessions this' = sessions this ∧
    (∀ id, Forall (λ e, global_id ids e.1 ≠ id) l →
       merged_indices this' !! id = merged_indices this !! id).
Proof.
  intros Hids Hmg Hl Hpool Hok Hn Hd. revert n hist this Hl Hpool Hok Hn.
  induction l as [|e l IH]; intros n hist this Hl Hpool Hok Hn; cbn [for_each].
  { exists this. rewrite Nat.mul_0_r, Nat.add_0_r. done. }
  apply Forall_cons in Hl as [[Hin Hk] Hl]. cbn [length] in Hn.
  destruct (merge_file_index_ok ord read_file tu ids pool n known hist this e)
    as (this1 & -> & Hok1 & shard & ->);
    [done|apply Hmg|done|done|apply Hmg|done|lia|done|done|].
  cbn [Res_bind].
  destruct (IH (n + 2)%nat (add_ops hist (global_id ids e.1) (file_ops ord read_file tu ids pool e))
    (set_shard (global_id ids e.1) shard this) Hl Hpool Hok1) as (this2 & -> & Hok2 & Hp & Hs & Ho & Hkeep);
    [lia|].
  exists this2. split; [done|]. split.
  { destruct Hok2 as [? Hlen ? ? ?]. split; try done. intros id.
    etrans; [exact (Hlen id)|cbn [length]; lia]. }
  split_and!; [done|done|done|]. intros id [Hne Hrest]%Forall_cons. rewrite Hkeep by done.
  cbn [set_shard merged_indices]. by rewrite lookup_insert_ne.
Qed.

Lemma merge_unit_ok ord read_file tu n known hist this :
  workspace_ok n known hist this → mergeable tu → distinguishes known →
  (∀ f, f ∈ unit_indices tu → f ∈ known) →
  Z.of_nat (length (paths (path_pool (project_index this))) + length (g_paths (graph tu))) < two32 →
  Z.of_nat (n + 2 * length (unit_indices tu)) < two32 →
  ∃ this' ids, merge_unit (E := E) ord read_file tu this = Ok this' ∧
    project_merge (E := E) ord tu (project_index this) = Ok (project_index this', ids) ∧
    ids_ok tu ids (path_pool (project_index this')) ∧
    workspace_ok (n + 2 * length (unit_indices tu)) known
      (merged_history ord read_file tu ids (path_pool (project_index this')) hist (unit_files ord tu))
      this' ∧
    path_pool_of this' = path_pool_of this ∧ sessions this' = sessions this ∧
    (∀ id, Forall (λ e, global_id ids e.1 ≠ id) (unit_files ord tu) →
       merged_indices this' !! id = merged_indices this !! id).
Proof.
  intros Hok Hmg Hd Hknown Hpaths Hn. pose proof Hmg as [[Hne Hnz] Hlocs Hfiles Hrefs Hsc].
  destruct (project_merge_ok (E := E) ord tu (project_index this))
    as (project & ids & Hpm & Hpok & _ & Hids & _); [apply Hok|done..|].
  destruct (main_path_in_unit tu) as [_ Hmain]; [done|lia|].
  assert (length (unit_files ord tu) = length (unit_indices tu)) as Hlen.
  { unfold unit_files, unit_indices. rewrite length_app. cbn [length].
    rewrite length_fmap, (Permutation_length (entries_perm ord _)). lia. }
  destruct (merge_files_ok ord read_file tu ids (path_pool project) (unit_files ord tu) n known hist
    (set_project project this)) as (this' & Hrun & Hok' & Hp & Hs & Ho & Hkeep); try done.
  - apply Forall_app. split.
    + apply Forall_forall. intros [path_id f] Hin%elem_of_entries. split; [by eapply Hfiles|].
      apply Hknown. right. apply list_elem_of_fmap. exists (path_id, f).
      split; [done|]. by apply elem_of_map_to_list.
    + apply Forall_singleton. split; [done|]. apply Hknown. left.
  - destruct Hok. split; done.
  - lia.
  - exists this', ids. rewrite Hlen in Hok'. rewrite Hp. cbn [set_project project_index].
    split_and!; try done. unfold merge_unit. rewrite decide_False, Hpm by done. cbn [Res_bind fst snd].
    unfold unit_files in Hrun. rewrite for_each_app in Hrun.
    destruct (for_each (entries ord (path_file_indices tu)) _ _) as [this1| | |]; cbn [Res_bind] in *;
      try done. cbn [for_each] in Hrun.
    destruct (merge_file_index ord read_file tu ids (main_path_id tu, main_file_index tu) this1);
      cbn [Res_bind] in Hrun; try done.
Qed.
End workspace.
