(* ===== verification/IndexerQueries.v ===== *)
(** * What queries on the workspace answer

    Queries walk the shards of the closed files that mention a symbol and the
    sessions that are up to date; the lemmas describe the walks by the relations
    they see. *)
From S2P Require Import IndexData PathPool MergedIndex MergedInvariant MergedImage MergedSimulation MergedTheorems IncludeGraph TUIndex TUTheorems ProjectIndex IndexLibraries Indexer IndexerMerge.
Local Open Scope Z_scope.
Local Open Scope cpp_scope.

(** ** Walks *)

(** A visitor that never stops and appends what it finds. *)
Definition appends {A B} (callback : Visitor A (list B)) (found : A → list B) : Prop :=
  ∀ a l, callback a l = (l ++ found a, true).

Lemma visit_appends {A B} (callback : Visitor A (list B)) (found : A → list B) l s :
  appends callback found → visit callback l s = s ++ concat (found <$> l).
Proof.
  intros Hc. revert s. induction l as [|a l IH]; intros s; [by rewrite app_nil_r|].
  cbn [visit fmap list_fmap concat]. rewrite Hc, IH. by rewrite app_assoc.
Qed.

Lemma elem_of_concat_fmap {A B} (found : A → list B) (l : list A) b :
  b ∈ concat (found <$> l) ↔ ∃ a, a ∈ l ∧ b ∈ found a.
Proof.
  rewrite elem_of_concat. setoid_rewrite list_elem_of_fmap. split.
  - intros (k & (a & -> & Ha) & Hb). eauto.
  - intros (a & Ha & Hb). exists (found a). split; [|done]. eauto.
Qed.

(** A loop that appends. *)
Lemma for_each_appends {E A B} (l : list A) (body : A → list B → Res E (list B))
    (P : A → B → Prop) s :
  (∀ a s, a ∈ l → ∃ found, body a s = Ok (s ++ found) ∧ ∀ b, b ∈ found ↔ P a b) →
  ∃ found, for_each l body s = Ok (s ++ found) ∧ ∀ b, b ∈ found ↔ ∃ a, a ∈ l ∧ P a b.
Proof.
  revert s. induction l as [|a l IH]; intros s Hb; cbn [for_each].
  { exists []. rewrite app_nil_r. split; [done|]. set_solver. }
  destruct (Hb a s) as (f1 & -> & Hf1); [left|]. cbn [Res_bind].
  destruct (IH (s ++ f1)) as (f2 & -> & Hf2); [intros; apply Hb; by right|].
  exists (f1 ++ f2). rewrite app_assoc. split; [done|]. intros b.
  rewrite elem_of_app, Hf1, Hf2. set_solver.
Qed.

Lemma elem_of_bitmap_list b x : x ∈ bitmap_list b ↔ x ∈ b.
Proof. unfold bitmap_list. by rewrite elem_of_sort_by, elem_of_elements. Qed.

Section queries.
Context {E : Type} `{Roaring} `{!RoaringLaws} `{IndexLibs} `{FlatBuffer FbMergedIndex}
  `{!FlatBufferLaws FbMergedIndex} `{Positions}.
Implicit Types this : Indexer.

(** ** The relations a shard reports *)

Definition reported (shard : MergedIndex) (s : Z) (r : Relation) : Prop :=
  ∃ ord l, lookup_symbol (E := E) ord shard s (r_kind r) collect [] = Ok l ∧ r ∈ l.

(** The shards of the workspace and their tables. *)
Definition shards_ok this : Prop :=
  ∀ id shard, merged_indices this !! id = Some shard →
    ∃ n G i, denotes shard i ∧ shard_ok n G i.

Lemma workspace_shards n known hist this :
  workspace_ok (E := E) n known hist this → Z.of_nat n < two32 → distinguishes known → shards_ok this.
Proof.
  intros Hok Hn Hd id shard Hs.
  destruct (workspace_shard n known hist this id Hok Hn Hd) as (G & i & Hden & Hsh & _).
  unfold shard_of, get_or in Hden. rewrite Hs in Hden. eauto.
Qed.

Lemma lookup_reports {S} n G shard i ord s kind (callback : Visitor Relation S) x :
  denotes shard i → shard_ok n G i →
  ∃ l, lookup_symbol (E := E) ord shard s kind callback x = Ok (visit callback l x) ∧
    ∀ r, r ∈ l ↔ r_kind r = kind ∧ reported shard s r.
Proof.
  intros Hd Hok.
  destruct (lookup_symbol_shows (E := E) n G shard i ord s kind callback x Hd Hok) as (l & Hl & _ & Hin).
  exists l. split; [done|]. intros r. rewrite Hin. split.
  - intros [Hk Hsh]. split; [done|].
    destruct (lookup_symbol_shows (E := E) n G shard i ord s (r_kind r) collect [] Hd Hok) as (l' & Hl' & _ & Hin').
    exists ord, l'. rewrite visit_collect_app, app_nil_l in Hl'. split; [done|]. by apply Hin'.
  - intros [Hk (ord' & l' & Hl' & Hr)]. split; [done|].
    destruct (lookup_symbol_shows (E := E) n G shard i ord' s (r_kind r) collect [] Hd Hok) as (l'' & Hl'' & _ & Hin'').
    rewrite visit_collect_app, app_nil_l in Hl''. rewrite Hl' in Hl''. simplify_eq. by apply Hin''.
Qed.

(** Merged relations and occurrences are reported. *)
Lemma live_reported n known hist this id s r :
  workspace_ok (E := E) n known hist this → Z.of_nat n < two32 → distinguishes known →
  live (has_relation s r) (spec_run (hist id) no_contexts) → reported (shard_of this id) s r.
Proof.
  intros Hok Hn Hd Hl.
  destruct (workspace_shard n known hist this id Hok Hn Hd) as (G & i & Hden & Hsh & Hm & _).
  destruct (lookup_symbol_shows (E := E) _ G _ i bucket_order s (r_kind r) collect [] Hden Hsh)
    as (l & Hlk & _ & Hin).
  rewrite visit_collect_app, app_nil_l in Hlk. exists bucket_order, l. split; [done|].
  apply Hin. split; [done|].
  destruct (live_relation_shown _ G i _ s r Hsh Hm Hl) as (t & b & ? & ? & ?). by exists t, b.
Qed.

Lemma live_occurrence_reported n known hist this id o ord offset :
  workspace_ok (E := E) n known hist this → Z.of_nat n < two32 → distinguishes known →
  token_ranges (all_occurrences known) → contains (o_range o) offset →
  live (has_occurrence o) (spec_run (hist id) no_contexts) →
  ∃ st l, lookup_offset (E := E) ord (shard_of this id) offset collect [] = Ok (st, l) ∧ o ∈ l.
Proof.
  intros Hok Hn Hd Htok Hc Hl.
  destruct (workspace_shard n known hist this id Hok Hn Hd) as (G & i & Hden & Hsh & Hm & HG).
  assert (token_ranges (all_occurrences G)) as HtokG.
  { assert (∀ o, o ∈ all_occurrences G → o ∈ all_occurrences known) as Hsub.
    { intros o' (l & (f & -> & Hf%HG)%list_elem_of_fmap & Ho)%elem_of_concat.
      apply elem_of_concat. exists (f_occurrences f). split; [|done]. apply list_elem_of_fmap_2.
      by apply (ok_known_indices _ _ _ _ Hok id). }
    intros x y Hx Hy. apply Htok; by apply Hsub. }
  destruct (lookup_offset_shows (E := E) _ G _ i ord offset collect [] Hden Hsh HtokG) as (st & Hlk).
  rewrite visit_collect_app, app_nil_l in Hlk. eexists _, _. split; [exact Hlk|].
  destruct (live_occurrence_shown _ G i _ o Hsh Hm Hl).
  case_match; repeat (apply list_elem_of_filter; split); done.
Qed.

(** ** Locations *)

(** The queries can be answered: references are known paths, and the files of
    sessions are known to the server. *)
Record queryable this : Prop := {
  q_shards : shards_ok this;
  q_references : ∀ s sym x, p_symbols (project_index this) !! s = Some sym →
    x ∈ reference_files sym → is_Some (resolve (path_pool (project_index this)) x);
  q_sessions : ∀ id s, sessions this !! id = Some s → is_Some (resolve (path_pool_of this) id);
}.

Lemma workspace_queryable n known hist this :
  workspace_ok (E := E) n known hist this → Z.of_nat n < two32 → distinguishes known →
  (∀ id s, sessions this !! id = Some s → is_Some (resolve (path_pool_of this) id)) →
  queryable this.
Proof.
  intros Hok Hn Hd Hs. split; [by eapply workspace_shards| |done].
  apply (ok_project _ _ _ _ Hok).
Qed.

Lemma mentioning_path this s id :
  queryable this → id ∈ mentioning this s →
  ∃ path, project_path (E := E) (path_pool (project_index this)) id = Ok path.
Proof.
  intros Hq Hid. unfold mentioning in Hid.
  destruct (p_symbols (project_index this) !! s) as [sym|] eqn:Es; [|set_solver].
  apply elem_of_bitmap_list in Hid. destruct (q_references _ Hq _ _ _ Es Hid) as [path Hp].
  exists path. unfold project_path. by rewrite Hp.
Qed.

(** The file is open in the editor. *)
Definition open_file this (path : bytes) : Prop :=
  ∃ server_id, cache (path_pool_of this) !! path = Some server_id ∧
    is_Some (sessions this !! server_id).

Lemma closed_shard_ok this id path :
  project_path (E := E) (path_pool (project_index this)) id = Ok path →
  ∃ o, closed_shard (E := E) this id = Ok o ∧
    ∀ shard, o = Some shard ↔ ¬ open_file this path ∧ merged_indices this !! id = Some shard.
Proof.
  intros Hp. unfold closed_shard, is_proj_path_open. rewrite Hp. cbn [Res_bind]. unfold open_file.
  destruct (cache (path_pool_of this) !! path) as [sid|].
  - case_bool_decide as Hs; cbn [Res_bind]; eexists; (split; [done|]); intros shard; split; try done.
    + intros [Hno _]. exfalso. apply Hno. eauto.
    + intros ?. split; [|done]. intros (sid' & [= <-] & Hs'). done.
    + by intros [_ ?].
  - eexists. split; [done|]. intros shard. split; [|by intros [_ ?]].
    intros ?. split; [|done]. by intros (sid' & ? & _).
Qed.

Lemma elem_of_ready ord this id s :
  (id, s) ∈ ready_sessions ord this ↔ session_ready s = true ∧ sessions this !! id = Some s.
Proof. unfold ready_sessions. by rewrite list_elem_of_filter, elem_of_entries. Qed.

Lemma ready_index s : session_ready s = true → ∃ f, file_index s = Some f.
Proof.
  unfold session_ready. rewrite !andb_true_iff, bool_decide_eq_true. by intros [[[f Hf] _] _]; exists f.
Qed.

(** The line map of a shard that has one. *)
Definition mapped (shard : MergedIndex) (m : bytes * list Z) : Prop :=
  line_map (E := E) shard = Ok (Some m).

Lemma line_map_ok n G shard i :
  denotes shard i → shard_ok n G i → ∃ o, line_map (E := E) shard = Ok o.
Proof.
  intros Hd _. unfold line_map. destruct Hd as [j|ord j|]; unfold get_line_starts, get_content;
    cbn [impl buffer from_data empty_index].
  - cbn [Res_bind]. case_decide; by eexists.
  - rewrite get_root_finish. cbn [read Res_bind]. case_decide; by eexists.
  - by eexists.
Qed.

(** A visit of the relations of a shard with positions. *)
Lemma visit_mapped_appends {B} ord n G shard i s kind
    (body : bytes * list Z → Visitor Relation (list B)) found l :
  denotes shard i → shard_ok n G i → (∀ m, appends (body m) (found m)) →
  ∃ new, visit_mapped (E := E) ord shard s kind body l = Ok (l ++ new) ∧
    ∀ b, b ∈ new ↔ ∃ m r, mapped shard m ∧ r_kind r = kind ∧ reported shard s r ∧ b ∈ found m r.
Proof.
  intros Hd Hok Hb. unfold visit_mapped, mapped.
  destruct (line_map_ok n G shard i Hd Hok) as [[m|] Hm]; rewrite Hm; cbn [Res_bind].
  - destruct (lookup_reports n G shard i ord s kind (body m) l Hd Hok) as (rs & -> & Hrs).
    rewrite (visit_appends _ (found m)) by apply Hb. eexists. split; [done|]. intros b.
    rewrite elem_of_concat_fmap. setoid_rewrite Hrs. split.
    + intros (r & [? ?] & ?). exists m, r. done.
    + intros (m' & r & Em & ? & ? & ?). simplify_eq. by exists r.
  - exists []. rewrite app_nil_r. split; [done|]. intros b. split; [set_solver|].
    by intros (m' & r & ? & _).
Qed.

Definition location_found (u : bytes) (m : bytes * list Z) (r : Relation) : list LspLocation :=
  match relation_range m r with Some range => [mkLspLocation u range] | None => [] end.

Lemma push_location_appends u m : appends (push_location u m) (location_found u m).
Proof.
  intros r l. unfold push_location, location_found. by destruct (relation_range m r); rewrite ?app_nil_r.
Qed.

(** A location of a closed file, and of a session. *)
Definition in_shard this (s : Z) (kind : RelationKind) (id : Z) (loc : LspLocation) : Prop :=
  ∃ path shard u m r, project_path (E := E) (path_pool (project_index this)) id = Ok path ∧
    ¬ open_file this path ∧ merged_indices this !! id = Some shard ∧
    from_file_path path = Some u ∧ mapped shard m ∧
    r_kind r = kind ∧ reported shard s r ∧ loc ∈ location_found u m r.

Definition in_session this (s : Z) (kind : RelationKind) (loc : LspLocation) : Prop :=
  ∃ id session f path u r, sessions this !! id = Some session ∧ session_ready session = true ∧
    file_index session = Some f ∧ resolve (path_pool_of this) id = Some path ∧
    from_file_path path = Some u ∧ has_relation s r f ∧ r_kind r = kind ∧
    loc ∈ location_found u (session_map session) r.

Lemma file_lookup_appends {B} f s kind (callback : Visitor Relation (list B)) found l :
  appends callback found →
  ∃ new, file_lookup_symbol f s kind callback l = l ++ new ∧
    ∀ b, b ∈ new ↔ ∃ r, has_relation s r f ∧ r_kind r = kind ∧ b ∈ found r.
Proof.
  intros Hc. unfold file_lookup_symbol, has_relation, get_or.
  destruct (f_relations f !! s) as [rs|]; cbn [default].
  - rewrite scan_kind_visit, (visit_appends _ found) by done. eexists. split; [done|]. intros b.
    rewrite elem_of_concat_fmap. setoid_rewrite list_elem_of_filter. unfold id. naive_solver.
  - exists []. rewrite app_nil_r. split; [done|]. set_solver.
Qed.

Lemma locations_of_ok ord this s kind :
  queryable this →
  ∃ l, locations_of (E := E) ord this s kind = Ok l ∧
    ∀ loc, loc ∈ l ↔ (∃ id, id ∈ mentioning this s ∧ in_shard this s kind id loc) ∨
                     in_session this s kind loc.
Proof.
  intros Hq. unfold locations_of, each_shard.
  destruct (for_each_appends (mentioning this s) (λ id l,
    let? shard := closed_shard (E := E) this id in
    match shard with
    | None => Ok l
    | Some shard =>
      let? path := project_path (path_pool (project_index this)) id in
      match from_file_path path with
      | None => Ok l
      | Some u => visit_mapped ord shard s kind (push_location u) l
      end
    end) (in_shard this s kind) []) as (l1 & -> & Hl1).
  { intros id l Hid. destruct (mentioning_path _ _ _ Hq Hid) as [path Hp].
    destruct (closed_shard_ok this id path Hp) as (o & -> & Ho). cbn [Res_bind]. unfold in_shard.
    destruct o as [shard|].
    - destruct (proj1 (Ho shard) eq_refl) as [Hopen Hsh]. rewrite Hp. cbn [Res_bind].
      destruct (q_shards _ Hq id shard Hsh) as (n & G & i & Hd & Hok).
      destruct (from_file_path path) as [u|] eqn:Eu.
      + destruct (visit_mapped_appends ord n G shard i s kind (push_location u)
          (location_found u) l Hd Hok (push_location_appends u)) as (new & -> & Hnew).
        exists new. split; [done|]. intros loc. rewrite Hnew. split.
        * intros (m & r & ? & ? & ? & ?). by exists path, shard, u, m, r.
        * intros (path' & shard' & u' & m & r & Hp' & _ & Hs' & Hu' & ? & ? & ? & ?).
          simplify_eq. by exists m, r.
      + exists []. rewrite app_nil_r. split; [done|]. intros loc. split; [set_solver|].
        intros (path' & shard' & u' & m & r & Hp' & _ & _ & Hu' & _). simplify_eq.
    - exists []. rewrite app_nil_r. split; [done|]. intros loc. split; [set_solver|].
      intros (path' & shard' & u' & m & r & Hp' & Hopen & Hsh & _). rewrite Hp in Hp'. injection Hp' as <-.
      discriminate (proj2 (Ho shard') (conj Hopen Hsh)). }
  cbn [app Res_bind]. unfold each_session.
  destruct (for_each_appends (ready_sessions ord this) (λ e l,
    let? index := read (file_index e.2) in
    let? path := server_path (E := E) this e.1 in
    match from_file_path path with
    | None => Ok l
    | Some u => Ok (file_lookup_symbol index s kind (push_location u (session_map e.2)) l)
    end) (λ e loc, ∃ f path u r, file_index e.2 = Some f ∧
            resolve (path_pool_of this) e.1 = Some path ∧ from_file_path path = Some u ∧
            has_relation s r f ∧ r_kind r = kind ∧ loc ∈ location_found u (session_map e.2) r) l1)
    as (l2 & -> & Hl2).
  { intros [id session] l [Hr Hs]%elem_of_ready. destruct (ready_index _ Hr) as [f Hf].
    destruct (q_sessions _ Hq id session Hs) as [path Hp]. cbn [fst snd]. unfold server_path.
    rewrite Hf, Hp. cbn [read Res_bind]. destruct (from_file_path path) as [u|] eqn:Eu.
    - destruct (file_lookup_appends f s kind (push_location u (session_map session))
        (location_found u (session_map session)) l (push_location_appends u _)) as (new & -> & Hnew).
      exists new. split; [done|]. intros loc. rewrite Hnew. split.
      + intros (r & ? & ? & ?). by exists f, path, u, r.
      + intros (f' & path' & u' & r & ? & ? & ? & ? & ? & ?). simplify_eq. by exists r.
    - exists []. rewrite app_nil_r. split; [done|]. intros loc. split; [set_solver|].
      intros (f' & path' & u' & r & ? & ? & ? & _). simplify_eq. }
  exists (l1 ++ l2). split; [done|]. intros loc. rewrite elem_of_app, Hl1, Hl2.
  apply or_iff_compat_l. unfold in_session. split.
  - intros ([id session] & [Hr Hs]%elem_of_ready & f & path & u & r & ?).
    exists id, session, f, path, u, r. tauto.
  - intros (id & session & f & path & u & r & Hs & Hr & ?). exists (id, session).
    split; [by apply elem_of_ready|]. by exists f, path, u, r.
Qed.
End queries.

(** ** Examples *)

(** Positions on one line, and uris of all paths. *)
#[export] Instance demo_positions : Positions :=
  {| to_offset _ _ p := Some (character p);
     to_position _ _ offset := Some (mkPosition 0 offset);
     to_range _ _ b e := Some (mkLspRange (mkPosition 0 b) (mkPosition 0 e));
     from_file_path path := Some (str "file://" ++ path) |}.

(** A unit of two files: the header defines an external symbol, the main file a
    local one. *)
Definition header_small : FileIndex := defines 17 18 7.
Definition main_small : FileIndex := defines 4 5 9.
Definition tu_small : TUIndex :=
  mkTUIndex 5 (mkIncludeGraph [str "a.h"; str "m.cpp"] [mkIncludeLocation 0 1 no_location] ∅)
    (<[7 := mkSymbol (str "Fun") Kind.Function_ External {[0]}]>
       {[9 := mkSymbol (str "x") Kind.Variable_ FileLocal {[1]}]})
    ∅ {[0 := header_small]} main_small.

Definition no_files : Indexer := mkIndexer empty_project ∅ empty_pool ∅.

Definition read_example (path : bytes) : option bytes := Some text_example.

Lemma tu_small_mergeable : mergeable tu_small.
Proof.
  split.
  - split; [done|by repeat constructor].
  - apply Forall_singleton. unfold in_unit; cbn. lia.
  - intros path_id f. cbn. rewrite lookup_singleton_Some. intros [<- _]. unfold in_unit; cbn. lia.
  - intros s sym r. cbn. rewrite lookup_insert_Some, lookup_singleton_Some.
    intros [[_ <-]|[_ [_ <-]]]; cbn; [|done]. intros _ ->%elem_of_singleton. lia.
  - intros s sym. cbn. rewrite lookup_insert_Some, lookup_singleton_Some.
    by intros [[_ <-]|[_ [_ <-]]].
Qed.

Lemma tu_small_known :
  distinguishes (unit_indices tu_small) ∧
  Z.of_nat (0 + 2 * length (unit_indices tu_small)) < two32.
Proof.
  split; [|done]. change (unit_indices tu_small) with [defines 4 5 9; defines 17 18 7].
  apply (defines_distinguished 4 5 9 17 18 7); lia.
Qed.

(** The workspace after the unit was merged. *)
Definition indexer_small : Indexer :=
  match merge_unit (E := unit) bucket_order read_example tu_small no_files with
  | Ok this => this
  | _ => no_files
  end.

Lemma indexer_small_ok :
  ∃ hist, workspace_ok (E := unit) (0 + 2 * length (unit_indices tu_small)) (unit_indices tu_small)
    hist indexer_small.
Proof.
  destruct tu_small_known as [Hd Hn].
  destruct (merge_unit_ok (E := unit) bucket_order read_example tu_small 0 (unit_indices tu_small)
    (λ _, []) no_files) as (this & ids & Hm & _ & _ & Hok & _); try done.
  - destruct (empty_workspace_ok (E := unit) empty_pool ∅) as [? ? ? ? ?]. split; try done.
    intros id f Hf. set_solver.
  - apply tu_small_mergeable.
  - eexists. unfold indexer_small. rewrite Hm. exact Hok.
Qed.

Lemma indexer_small_queryable : queryable indexer_small.
Proof.
  destruct tu_small_known as [Hd Hn]. destruct indexer_small_ok as [hist Hok].
  eapply workspace_queryable; [exact Hok|exact Hn|exact Hd|].
  intros id s Hs. exfalso. assert (sessions indexer_small = ∅) as He by (vm_compute; reflexivity).
  rewrite He, lookup_empty in Hs. done.
Qed.
