(* ===== verification/IndexerTheorems.v ===== *)
(** * From the worker's index to the answer of a query

    Merging an index makes everything it says available: relations, occurrences
    and the names of local symbols in the shards, and the files of external symbols
    in the project index.  Queries return exactly what the shards of closed files
    and the sessions of open files hold.  Together with the builder and the images,
    a relation the visitor reported is found by a query on its symbol. *)
From S2P Require Import IndexData PathPool MergedIndex MergedInvariant MergedImage MergedSimulation MergedTheorems IncludeGraph TUIndex TUTheorems ProjectIndex IndexLibraries Indexer IndexerMerge IndexerQueries.
Local Open Scope Z_scope.
Local Open Scope cpp_scope.

Lemma local_symbols_collected table f o sym :
  o ∈ f_occurrences f → table !! o_target o = Some sym → scope sym ≠ External →
  is_Some (collect_local_symbols table f !! o_target o).
Proof.
  intros Ho Hs Hsc. unfold collect_local_symbols.
  set (step := λ (result : SymbolTable) (o : Occurrence), _).
  assert (∀ l m s, is_Some (m !! s) → is_Some (foldl step m l !! s)) as Hkeep.
  { induction l as [|o' l IH]; intros m s Hm; [done|]. cbn [foldl]. apply IH. unfold step.
    destruct (table !! o_target o'); [|done]. case_decide; [done|]. unfold try_emplace.
    case_match; [done|]. destruct (decide (o_target o' = s)) as [->|];
      [by rewrite lookup_insert_eq|by rewrite lookup_insert_ne]. }
  generalize (∅ : SymbolTable). revert Ho. induction (f_occurrences f) as [|o' l IH]; intros Ho m.
  { set_solver. }
  cbn [foldl]. apply elem_of_cons in Ho as [<-|Ho]; [|by apply IH].
  apply Hkeep. unfold step. rewrite Hs, decide_False by done. unfold try_emplace.
  destruct (m !! o_target o) eqn:Em; [by rewrite Em|by rewrite lookup_insert_eq].
Qed.

Section theorems.
Context {E : Type} `{Roaring} `{!RoaringLaws} `{IndexLibs} `{FlatBuffer FbMergedIndex}
  `{!FlatBufferLaws FbMergedIndex} `{FlatBuffer FbTUIndex} `{!FlatBufferLaws FbTUIndex} `{Positions}.

(** ** Merging *)

(** What the shard of a merged file answers. *)
Record answers (known : list FileIndex) (tu : TUIndex) (f : FileIndex) (shard : MergedIndex) : Prop := {
  an_relations : ∀ s r, has_relation s r f → reported (E := E) shard s r;
  an_occurrences : token_ranges (all_occurrences known) → ∀ ord offset o,
    has_occurrence o f → contains (o_range o) offset →
    ∃ st l, lookup_offset (E := E) ord shard offset collect [] = Ok (st, l) ∧ o ∈ l;
  an_symbols : ∀ o sym out, has_occurrence o f → tu_symbols tu !! o_target o = Some sym →
    scope sym ≠ External → ∃ x, find_symbol (E := E) shard (o_target o) out = Ok (Some x);
}.

Lemma indexed_answers ord read_file tu ids pool n known hist this e :
  let hist' := merged_history ord read_file tu ids pool hist (unit_files ord tu) in
  workspace_ok (E := E) n known hist' this → Z.of_nat n < two32 → distinguishes known →
  scopes_ok (tu_symbols tu) → indexed tu e →
  answers known tu e.2 (shard_of this (global_id ids e.1)).
Proof.
  intros hist' Hok Hn Hd Hsc He. split.
  - intros s r Hr. eapply live_reported; [done..|]. by apply indexed_live.
  - intros Htok o offset oc Ho Hc. eapply live_occurrence_reported; [done..|]. by apply indexed_live.
  - intros o sym out Ho Hs Hext.
    assert (∃ op a b, unit_files ord tu = a ++ e :: b ∧ file_ops ord read_file tu ids pool e =
      [op; OpSymbols ord (collect_local_symbols (tu_symbols tu) e.2)]) as (op & a & b & Hab & Hops).
    { unfold file_ops. destruct He as [->|(Hin & Hne & [i Hi])].
      - cbn [fst snd]. rewrite Z.eqb_refl. eexists _, (entries ord (path_file_indices tu)), []. done.
      - assert (e ∈ entries ord (path_file_indices tu)) as (a & b & Hab)%list_elem_of_split
          by (destruct e; by apply elem_of_entries).
        apply Z.eqb_neq in Hne. rewrite Hne, Hi.
        eexists _, a, (b ++ [(main_path_id tu, main_file_index tu)]). split; [|done].
        unfold unit_files. rewrite Hab. by rewrite <- app_assoc. }
    destruct (merged_history_split ord read_file tu ids pool hist a e b Hsc) as (pre & post & Heq & _).
    rewrite <- Hab, Hops in Heq. fold hist' in Heq. cbn [app] in Heq.
    assert (hist' (global_id ids e.1) = (pre ++ [op]) ++
      OpSymbols ord (collect_local_symbols (tu_symbols tu) e.2) :: post) as Heq'
      by (by rewrite <- app_assoc).
    destruct Hok as [Hruns Hlen Hkn Hnm _]. specialize (Hruns (global_id ids e.1)).
    specialize (Hlen (global_id ids e.1)). specialize (Hnm (global_id ids e.1)).
    specialize (Hkn (global_id ids e.1)). rewrite Heq' in Hruns, Hlen, Hnm, Hkn.
    eapply (merged_symbol_known (pre ++ [op]) ord _ post); [|  |exact Hnm|exact Hruns|
      by eapply local_symbols_collected]; [lia|].
    intros f g o1 o2 Hf Hg. apply Hd; by apply Hkn.
Qed.

(** Merging the index a worker sent has no undefined behaviour and keeps the
    workspace well formed; the project index is that of [ProjectIndex::merge], the
    shards of files outside the unit and the open files are untouched, and the
    shard of every file of the unit, headers without an include location apart,
    reports every relation and every occurrence of the file's index and knows the
    name of every local symbol that occurs in it. *)
Theorem indexer_merge_correct ord read_file data tu n known hist this :
  tu_from (E := E) data = Ok tu → workspace_ok (E := E) n known hist this → mergeable tu →
  distinguishes known → (∀ f, f ∈ unit_indices tu → f ∈ known) →
  Z.of_nat (length (paths (path_pool (project_index this))) + length (g_paths (graph tu))) < two32 →
  Z.of_nat (n + 2 * length (unit_indices tu)) < two32 →
  ∃ this' ids hist', indexer_merge (E := E) ord read_file data this = Ok this' ∧
    project_merge (E := E) ord tu (project_index this) = Ok (project_index this', ids) ∧
    workspace_ok (E := E) (n + 2 * length (unit_indices tu)) known hist' this' ∧
    sessions this' = sessions this ∧
    (∀ id, Forall (λ e, global_id ids e.1 ≠ id) (unit_files ord tu) →
       merged_indices this' !! id = merged_indices this !! id) ∧
    ∀ e, indexed tu e → answers known tu e.2 (shard_of this' (global_id ids e.1)).
Proof.
  intros Hdata Hok Hmg Hd Hkn Hp Hn.
  destruct (merge_unit_ok (E := E) ord read_file tu n known hist this)
    as (this' & ids & Hm & Hpm & _ & Hok' & _ & Hs & Hkeep); [done..|].
  exists this', ids. eexists. split; [unfold indexer_merge; by rewrite Hdata|].
  split_and!; [done|exact Hok'|done|done|]. intros e He.
  eapply indexed_answers; [exact Hok'|done|done|apply Hmg|done].
Qed.

(** ** Queries *)

(** A query at a cursor without a symbol returns nothing; otherwise it has no
    undefined behaviour and returns exactly the locations of the relations of that
    kind, of the symbol under the cursor, that the shards of the closed files known
    to mention the symbol report and that the sessions which are up to date hold. *)
Theorem query_relations_correct ord this path position kind session this1 hit :
  resolve_cursor (E := E) ord this path position session = Ok (this1, hit) → queryable this1 →
  ∃ l, query_relations (E := E) ord this path position kind session = Ok (this1, l) ∧
    (hit_hash hit = 0 → l = []) ∧
    (hit_hash hit ≠ 0 → ∀ loc, loc ∈ l ↔
       (∃ id, id ∈ mentioning this1 (hit_hash hit) ∧
              in_shard (E := E) this1 (hit_hash hit) kind id loc) ∨
       in_session this1 (hit_hash hit) kind loc).
Proof.
  intros Hr Hq. unfold query_relations. rewrite Hr. cbn [Res_bind fst snd].
  destruct (Z.eqb_spec (hit_hash hit) 0) as [Hz|Hz].
  - exists []. done.
  - destruct (locations_of_ok (E := E) ord this1 (hit_hash hit) kind Hq) as (l & -> & Hl).
    exists l. done.
Qed.

(** ** From the visitor to the answer *)

Lemma graph_path_in_unit tu fid pid :
  Forall (location_ok (graph tu)) (g_locations (graph tu)) →
  g_paths (graph tu) ≠ [] → Z.of_nat (length (g_paths (graph tu))) < two32 →
  graph_path_id (E := E) (graph tu) fid = Ok pid →
  in_unit tu pid ∧ (pid ≠ main_path_id tu → is_Some (first_include (g_locations (graph tu)) pid)).
Proof.
  intros Hlocs Hne Hlt Hp. destruct (main_path_in_unit tu Hne Hlt) as [_ Hmain].
  unfold graph_path_id in Hp. destruct (include_location_id _ _) as [inc| | |]; try done.
  cbn [Res_bind] in Hp. destruct (inc =? no_location); [by injection Hp as <-|].
  destruct (g_locations (graph tu) !! Z.to_nat inc) as [loc|] eqn:El; try done.
  cbn [read Res_bind] in Hp. injection Hp as <-. rewrite Forall_forall in Hlocs.
  assert (loc ∈ g_locations (graph tu)) as Hin by (by eapply list_elem_of_lookup_2).
  split; [by destruct (Hlocs loc Hin)|]. intros _. unfold first_include.
  destruct (list_find _ _) as [[j l]|] eqn:Ef; [by eexists|].
  by apply list_find_None in Ef; rewrite Forall_forall in Ef; destruct (Ef loc Hin).
Qed.

(** The file goes by the path alone: it is the main file, or an included file
    whose path no other indexed file of the unit has. *)
Definition own_path (u : CompilationUnit) (tu : TUIndex) (fid pid : Z) : Prop :=
  graph_path_id (E := E) (graph tu) fid = Ok pid ∧
  (fid = interested_file u ∧ pid = main_path_id tu ∨
   fid ≠ interested_file u ∧ pid ≠ main_path_id tu ∧
   ∀ fid' f', file_indices tu !! fid' = Some f' → graph_path_id (E := E) (graph tu) fid' = Ok pid →
     fid' = fid).

Lemma graph_from_paths u g : graph_from (E := E) u = Ok g → g_paths g ≠ [].
Proof.
  unfold graph_from. destruct (for_each _ _ _) as [st| | |]; try done. cbn [Res_bind].
  intros [= <-]. cbn [g_paths]. by destruct (g_paths st.1).
Qed.

(** The index the server reads of a unit. *)
Record shipped (tu tu' : TUIndex) : Prop := {
  sh_paths : g_paths (graph tu') = g_paths (graph tu);
  sh_locations : g_locations (graph tu') = g_locations (graph tu);
  sh_symbols : tu_symbols tu' = tu_symbols tu;
  sh_main : main_file_index tu' = main_file_index tu;
  sh_files : ∀ pid f, path_file_indices tu' !! pid = Some f →
    ∃ fid, file_indices tu !! fid = Some f ∧ shipped_as (E := E) tu fid pid;
  sh_own : ∀ fid f pid, file_indices tu !! fid = Some f → shipped_as (E := E) tu fid pid →
    (∀ fid' f', file_indices tu !! fid' = Some f' → shipped_as (E := E) tu fid' pid → fid' = fid) →
    path_file_indices tu' !! pid = Some f;
}.

Lemma main_path_shipped tu tu' : shipped tu tu' → main_path_id tu' = main_path_id tu.
Proof. intros Hsh. unfold main_path_id. by rewrite (sh_paths _ _ Hsh). Qed.

Lemma shipped_mergeable u tu tu' :
  unit_ok u → graph_from (E := E) u = Ok (graph tu) →
  (∀ s x, x ∈ refs_of (tu_symbols tu) s → ∃ fid, graph_path_id (E := E) (graph tu) fid = Ok x) →
  table_ok (tu_symbols tu) → Forall (λ p, p ≠ []) (g_paths (graph tu)) →
  Z.of_nat (length (g_paths (graph tu))) < two32 → shipped tu tu' → mergeable tu'.
Proof.
  intros Hu Hg Hrefs Htab Hnz Hlt [Hp Hl Hs _ Hf _].
  pose proof (graph_from_paths _ _ Hg) as Hne.
  destruct (graph_from_ok (E := E) u Hu) as (g & Hg' & Hlocs & _). rewrite Hg in Hg'. injection Hg' as <-.
  assert (∀ fid pid, graph_path_id (E := E) (graph tu) fid = Ok pid → in_unit tu' pid) as Hin.
  { intros fid pid Hpid. unfold in_unit. rewrite Hp. by eapply graph_path_in_unit. }
  split.
  - by rewrite Hp.
  - rewrite Hl. eapply Forall_impl; [exact Hlocs|]. intros loc [? _]. unfold in_unit. by rewrite Hp.
  - intros pid f (fid & _ & Hsh)%Hf. by eapply Hin.
  - rewrite Hs, Hp. intros s sym r Hsym _ Hr. destruct (Hrefs s r) as [fid Hfid].
    { unfold refs_of, get_or. by rewrite Hsym. }
    apply Hin in Hfid. unfold in_unit in Hfid. by rewrite Hp in Hfid.
  - rewrite Hs. intros s sym Hsym. by apply (Htab s).
Qed.

(** The index of a file with a path of its own is merged. *)
Lemma own_path_indexed u tu tu' fid pid s r :
  unit_ok u → graph_from (E := E) u = Ok (graph tu) → Z.of_nat (length (g_paths (graph tu))) < two32 →
  shipped tu tu' → own_path u tu fid pid → r ∈ relations_at (index_of u tu fid) s →
  ∃ f, indexed tu' (pid, f) ∧ has_relation s r f.
Proof.
  intros Hu Hg Hlt Hsh [Hpid Hown] Hr. pose proof (main_path_shipped _ _ Hsh) as Hmain.
  unfold index_of in Hr. destruct Hown as [[-> ->]|(Hne & Hnm & Huniq)].
  - rewrite decide_True in Hr by done. exists (main_file_index tu'). split; [left; by rewrite Hmain|].
    by rewrite (sh_main _ _ Hsh).
  - rewrite decide_False in Hr by done. unfold file_at, get_or in Hr.
    destruct (file_indices tu !! fid) as [f|] eqn:Ef; cbn [default] in Hr.
    2:{ unfold relations_at in Hr. cbn in Hr. rewrite get_or_empty in Hr. set_solver. }
    exists f. split; [right|done]. cbn [fst snd]. rewrite Hmain. split_and!; [|done|].
    + eapply (sh_own _ _ Hsh); [done..|]. intros fid' f' Hf'. by eapply Huniq.
    + destruct (graph_from_ok (E := E) u Hu) as (g & Hg' & Hlocs & _). rewrite Hg in Hg'.
      injection Hg' as <-. rewrite (sh_locations _ _ Hsh).
      eapply graph_path_in_unit; [done|by eapply graph_from_paths|done..].
Qed.

(** What a query finds of a relation, where the file has a path with an uri, is
    closed and has a line map, and the relation a position in it. *)
Definition findable this (p : bytes) (shard : MergedIndex) (r : Relation) (loc : LspLocation) : Prop :=
  ∃ u m range, ¬ open_file this (normalize p) ∧ from_file_path (normalize p) = Some u ∧
    mapped (E := E) shard m ∧ relation_range m r = Some range ∧ loc = mkLspLocation u range.

Lemma reported_located this s r id p loc :
  id ∈ mentioning this s →
  project_path (E := E) (path_pool (project_index this)) id = Ok (normalize p) →
  reported (E := E) (shard_of this id) s r → findable this p (shard_of this id) r loc →
  in_shard (E := E) this s (r_kind r) id loc.
Proof.
  intros Hid Hp Hr (u & m & range & Hopen & Hu & Hm & Hrange & ->).
  assert (merged_indices this !! id = Some (shard_of this id)) as Hs.
  { unfold shard_of, get_or in *. by destruct (merged_indices this !! id). }
  exists (normalize p), (shard_of this id), u, m, r. split_and!; try done.
  unfold location_found. rewrite Hrange. left.
Qed.

(** Where a path of the unit goes, and the references of its symbols. *)
Lemma global_path tu ids pool pid p :
  ids_ok (E := E) tu ids pool → g_paths (graph tu) !! Z.to_nat pid = Some p →
  ids !! Z.to_nat pid = Some (global_id ids pid) ∧
  project_path (E := E) pool (global_id ids pid) = Ok (normalize p).
Proof.
  intros Hids Hp. destruct (Forall2_lookup_l _ _ _ _ _ Hids Hp) as (id & Hid & ?).
  unfold global_id. by rewrite Hid.
Qed.

Lemma reference_mentioned ord tu ids this this' s sym pid p :
  project_ok (project_index this) → mergeable tu →
  Z.of_nat (length (paths (path_pool (project_index this))) + length (g_paths (graph tu))) < two32 →
  project_merge (E := E) ord tu (project_index this) = Ok (project_index this', ids) →
  ids_ok (E := E) tu ids (path_pool (project_index this')) →
  tu_symbols tu !! s = Some sym → scope sym = External → pid ∈ reference_files sym →
  g_paths (graph tu) !! Z.to_nat pid = Some p → global_id ids pid ∈ mentioning this' s.
Proof.
  intros Hok Hmg Hlt Hpm Hids Hsym Hext Href Hp.
  destruct (project_merge_ok (E := E) ord tu (project_index this)) as
    (proj & ids' & Hpm' & _ & _ & _ & _ & Hsyms & _); [done|done|apply Hmg|apply Hmg|].
  rewrite Hpm in Hpm'. injection Hpm' as <- <-.
  destruct (Hsyms s sym) as (new & Hnew & Hmerged); [done|done|].
  unfold mentioning. rewrite Hnew. apply elem_of_bitmap_list, (merged_references _ _ _ _ Hmerged).
  right. exists pid. split; [done|]. by eapply global_path.
Qed.

(** C9. What the visitor says is what queries answer: if the index built from the
    visitor's reports can be shipped, then the server can read its image and merge
    it, and afterwards a query for the relations of a symbol visible outside the
    unit returns the location of every such relation the visitor reported, in every
    file that goes by its path alone, is not open and for which positions and uri
    can be computed. *)
Theorem relation_reaches_query ord ord' read_file u t events n known hist this :
  unit_ok u → Forall (event_ok u) events → workspace_ok (E := E) n known hist this →
  distinguishes known →
  (∀ id s, sessions this !! id = Some s → is_Some (resolve (path_pool_of this) id)) →
  ∃ tu, build (E := E) ord u t events = Ok tu ∧
  (shippable (E := E) tu → Forall (λ p, p ≠ []) (g_paths (graph tu)) →
   Z.of_nat (length (paths (path_pool (project_index this))) + length (g_paths (graph tu))) < two32 →
   ∃ data tu', tu_serialize (E := E) ord tu = Ok data ∧ tu_from (E := E) data = Ok tu' ∧
   ((∀ f, f ∈ unit_indices tu' → f ∈ known) →
    Z.of_nat (n + 2 * length (unit_indices tu')) < two32 →
    ∃ this', indexer_merge (E := E) ord read_file data this = Ok this' ∧
    ∀ ev fid pid p s sym r, ev ∈ events → relates ev fid s r →
      tu_symbols tu !! s = Some sym → scope sym = External →
      own_path u tu fid pid → g_paths (graph tu) !! Z.to_nat pid = Some p →
      ∃ id l, project_find (path_pool (project_index this')) p = Some id ∧
        locations_of (E := E) ord' this' s (r_kind r) = Ok l ∧
        ∀ loc, findable this' p (shard_of this' id) r loc → loc ∈ l)).
Proof.
  intros Hu Hev Hok Hd Hsess.
  destruct (build_ok (E := E) ord u t events Hu Hev) as (tu & Hb & _ & Hg & _ & _ & Hrel & Hrefs).
  exists tu. split; [done|]. intros Hship Hnz Hpaths.
  destruct (tu_shipped (E := E) ord tu Hship) as
    (data & tu' & Hser & Hfrom & _ & Hp & Hl & Hs & Hm & _ & Hf & Ho).
  exists data, tu'. split_and!; [done|done|]. intros Hkn Hn.
  assert (shipped tu tu') as Hsh by (by split). rewrite <- Hp in Hpaths.
  assert (mergeable tu') as Hmg.
  { eapply shipped_mergeable; try done; [|apply Hship|rewrite <- Hp; lia].
    intros s x (fid & ev & r & _ & _ & Hx)%Hrefs. by exists fid. }
  destruct (merge_unit_ok (E := E) ord read_file tu' n known hist this)
    as (this' & ids & Hmu & Hpm & Hids & Hok' & Hpool & Hs' & _); [done..|].
  exists this'. split; [unfold indexer_merge; by rewrite Hfrom|].
  intros ev fid pid p s sym r Hin Hr Hsym Hext Hown Hpid.
  destruct (own_path_indexed u tu tu' fid pid s r) as (f & Hidx & Hhas); try done;
    [rewrite <- Hp; lia|apply Hrel; by exists ev|].
  pose proof (indexed_answers ord read_file tu' ids _ _ known hist this' (pid, f) Hok' Hn Hd
    (mg_scopes _ Hmg) Hidx) as [Han _ _]. cbn [fst snd] in Han.
  rewrite <- Hp in Hpid. destruct (global_path _ _ _ _ _ Hids Hpid) as [_ Hpath].
  assert (global_id ids pid ∈ mentioning this' s) as Hment.
  { eapply reference_mentioned; [apply Hok|done..|by rewrite Hs|done| |done].
    assert (pid ∈ refs_of (tu_symbols tu) s) as Href.
    { apply Hrefs. exists fid, ev, r. split_and!; [done|done|apply Hown]. }
    unfold refs_of, get_or in Href. by rewrite Hsym in Href. }
  destruct (locations_of_ok (E := E) ord' this' s (r_kind r)) as (l & Hl' & Hloc).
  { eapply workspace_queryable; [exact Hok'|done|done|]. by rewrite Hs', Hpool. }
  exists (global_id ids pid), l. split_and!; [|done|].
  - unfold project_path in Hpath. unfold project_find, resolve in *.
    destruct (decide (0 ≤ global_id ids pid)) as [Hge|]; [|done].
    destruct (paths _ !! _) as [q|] eqn:Eq; [|done]. injection Hpath as ->.
    by apply (ok_pool _ (ok_project _ _ _ _ Hok')).
  - intros loc Hfind. apply Hloc. left. exists (global_id ids pid). split; [done|].
    by eapply reported_located; [done|done|by apply Han|].
Qed.
End theorems.

(** ** Examples *)

Lemma Ok_inj {E A} (a b : A) : Ok (E := E) a = Ok b → a = b.
Proof. by intros [= ->]. Qed.

Definition data_small : bytes :=
  finish (mkFbTUIndex 5 (g_paths (graph tu_small)) (g_locations (graph tu_small))
    (symbol_entry <$> entries bucket_order (tu_symbols tu_small))
    (Some [serialize_file_index bucket_order 0 header_small])
    (Some (serialize_file_index bucket_order 1 main_small))).

Lemma no_files_ok known : workspace_ok (E := unit) 0 known (λ _, []) no_files.
Proof.
  destruct (empty_workspace_ok (E := unit) empty_pool ∅) as [? ? ? ? ?]. split; try done.
  intros id f Hf. set_solver.
Qed.

Lemma indexer_merge_correct_witness :
  ∃ this ids, indexer_merge (E := unit) bucket_order read_example data_small no_files = Ok this ∧
    reported (E := unit) (shard_of this (global_id ids 0)) 7 (mkRelation Definition_ (mkRange 17 18) 0).
Proof.
  destruct tu_small_known as [Hd Hn].
  destruct (indexer_merge_correct (E := unit) bucket_order read_example data_small tu_small 0
    (unit_indices tu_small) (λ _, []) no_files) as (this & ids & hist & Hm & _ & _ & _ & _ & Hans).
  - vm_compute. reflexivity.
  - apply no_files_ok.
  - exact tu_small_mergeable.
  - exact Hd.
  - intros f Hf. exact Hf.
  - reflexivity.
  - exact Hn.
  - exists this, ids. split; [exact Hm|]. destruct (Hans (0, header_small)) as [Hr _ _].
    + right. split; [reflexivity|]. split; [discriminate|]. vm_compute. eexists. reflexivity.
    + apply Hr. apply (list_elem_of_lookup_2 _ 0). reflexivity.
Defined.

(** An open file in which the cursor is on the symbol of the header. *)
Definition session_example : Session :=
  mkSession text_example [0] false (Some header_small) (Some ∅).

Lemma query_relations_correct_witness :
  ∃ l, query_relations (E := unit) bucket_order indexer_small (str "b.cpp") (mkPosition 0 17)
         Definition_ (Some session_example) = Ok (indexer_small, l) ∧
    ∀ loc, loc ∈ l ↔ (∃ id, id ∈ mentioning indexer_small 7 ∧
      in_shard (E := unit) indexer_small 7 Definition_ id loc) ∨
      in_session indexer_small 7 Definition_ loc.
Proof.
  destruct (query_relations_correct (E := unit) bucket_order indexer_small (str "b.cpp")
    (mkPosition 0 17) Definition_ (Some session_example) indexer_small
    (mkCursorHit 7 (mkLspRange (mkPosition 0 17) (mkPosition 0 18)))) as (l & Hq & _ & Hl).
  - vm_compute. reflexivity.
  - exact indexer_small_queryable.
  - exists l. split; [exact Hq|]. apply Hl. discriminate.
Defined.

(** The unit of [events_example], built, shipped and merged. *)
Definition built_example : TUIndex :=
  match build (E := unit) bucket_order chain_unit 3 events_example with
  | Ok tu => tu
  | _ => tu_small
  end.

Definition definition_example : Relation :=
  mkRelation Definition_ (mkRange 4 5) (range_bits (mkRange 0 20)).

Lemma built_example_shippable : shippable (E := unit) built_example.
Proof.
  split; [split; vm_compute; discriminate || reflexivity|]. split.
  - assert (tu_symbols built_example = {[7 := mkSymbol (str "f") 18 External {[3]}]}) as ->
      by (vm_compute; reflexivity).
    intros s sym [_ <-]%lookup_singleton_Some. split; [exact I|]. cbn.
    intros x ->%elem_of_singleton. split; [discriminate|reflexivity].
  - intros fid f Hf. exfalso. assert (file_indices built_example = ∅) as He by (vm_compute; reflexivity).
    rewrite He, lookup_empty in Hf. discriminate Hf.
Qed.

Lemma relation_reaches_query_witness :
  ∃ data this l, tu_serialize (E := unit) bucket_order built_example = Ok data ∧
    indexer_merge (E := unit) bucket_order read_example data no_files = Ok this ∧
    locations_of (E := unit) bucket_order this 7 Definition_ = Ok l ∧
    mkLspLocation (str "file://f0") (mkLspRange (mkPosition 0 4) (mkPosition 0 5)) ∈ l.
Proof.
  set (known := [main_file_index built_example]).
  destruct (relation_reaches_query (E := unit) bucket_order bucket_order read_example chain_unit 3
    events_example 0 known (λ _, []) no_files) as (tu & Hb & Hrest).
  - exact chain_unit_ok.
  - exact events_example_ok.
  - apply no_files_ok.
  - intros f g o o' ->%list_elem_of_singleton ->%list_elem_of_singleton _. reflexivity.
  - intros id s Hs. discriminate Hs.
  - assert (tu = built_example) as ->.
    { assert (build (E := unit) bucket_order chain_unit 3 events_example = Ok built_example) as Hc
        by (vm_compute; reflexivity). rewrite Hb in Hc. exact (Ok_inj _ _ Hc). }
    destruct Hrest as (data & tu' & Hser & Hfrom & Hrest).
    + exact built_example_shippable.
    + assert (g_paths (graph built_example) = [str "f3"; str "f1"; str "f2"; str "f0"]) as ->
        by (vm_compute; reflexivity). by repeat constructor.
    + vm_compute. reflexivity.
    + assert (unit_indices tu' = known) as Hidx.
      { assert ((let? data := tu_serialize (E := unit) bucket_order built_example in
                 let? tu := tu_from data in Ok (unit_indices tu)) = Ok known) as Hc
          by (vm_compute; reflexivity).
        rewrite Hser in Hc. cbn [Res_bind] in Hc. rewrite Hfrom in Hc. exact (Ok_inj _ _ Hc). }
      destruct Hrest as (this & Hm & Hall);
        [rewrite Hidx; intros f Hf; exact Hf|rewrite Hidx; reflexivity|].
      destruct (Hall (RelationFound (decl_example 7) Definition_ 0 0 (mkRange 4 5)) 0 3 (str "f0") 7
        (mkSymbol (str "f") 18 External {[3]}) definition_example) as (id & l & Hfind & Hl & Hloc).
      * right. left.
      * split; [reflexivity|]. split; [reflexivity|].
        apply (recorded_range _ _ _ _ Definition_ (mkRange 0 20)); [right; left|reflexivity].
      * vm_compute. reflexivity.
      * reflexivity.
      * split; [vm_compute; reflexivity|]. left. split; vm_compute; reflexivity.
      * vm_compute. reflexivity.
      * exists data, this, l. split; [exact Hser|]. split; [exact Hm|]. split; [exact Hl|].
        apply Hloc.
        assert ((let? data := tu_serialize (E := unit) bucket_order built_example in
          let? this := indexer_merge (E := unit) bucket_order read_example data no_files in
          let? m := line_map (shard_of this (default 0 (project_find (path_pool (project_index this))
                                                          (str "f0")))) in
          Ok (bool_decide (is_Some m), sessions this)) = Ok (true, ∅)) as Hc
          by (vm_compute; reflexivity).
        rewrite Hser in Hc. cbn [Res_bind] in Hc. rewrite Hm in Hc. cbn [Res_bind] in Hc.
        rewrite Hfind in Hc. cbn [default] in Hc. change (shard_of this (Datatypes.id id)) with (shard_of this id) in Hc.
        destruct (line_map (shard_of this id)) as [[m|]| | |] eqn:Em; try discriminate Hc.
        assert (sessions this = ∅) as Hs
          by (apply Ok_inj, (f_equal snd) in Hc; exact Hc).
        eexists _, m, _. split; [|split; [reflexivity|split; [exact Em|split; reflexivity]]].
        intros (sid & _ & Hsome). rewrite Hs, lookup_empty in Hsome.
        destruct Hsome as [x Hx]. discriminate Hx.
Defined.
