(* ===== verification/IndexerSearch.v ===== *)
(** * Definitions and symbol search

    The location of a definition and the search by name, and the line that is
    shown around a reference. *)
From S2P Require Import IndexData PathPool MergedIndex MergedInvariant MergedImage MergedSimulation MergedTheorems IncludeGraph TUIndex TUTheorems ProjectIndex IndexLibraries Indexer IndexerMerge IndexerQueries.
Local Open Scope Z_scope.
Local Open Scope cpp_scope.

(** ** Walks that stop *)

(** A visitor that stops at the first element with a result. *)
Definition stops_at {A B} (callback : Visitor A (option B)) (found : A → option B) : Prop :=
  ∀ a s, callback a s = match found a with Some b => (Some b, false) | None => (s, true) end.

Lemma visit_stops {A B} (callback : Visitor A (option B)) (found : A → option B) l :
  stops_at callback found →
  match visit callback l None with
  | Some b => ∃ a, a ∈ l ∧ found a = Some b
  | None => ∀ a, a ∈ l → found a = None
  end.
Proof.
  intros Hc. induction l as [|a l IH]; cbn [visit]; [set_solver|]. rewrite Hc.
  destruct (found a) as [b|] eqn:Ea; [exists a; split; [left|done]|].
  destruct (visit callback l None) as [b|].
  - destruct IH as (a' & Ha' & ?). exists a'. split; [by right|done].
  - intros a' [->|Ha']%elem_of_cons; [done|by apply IH].
Qed.

(** A result of a step, and what it means to have none. *)
Definition step_finds {A B} (P : A → B → Prop) (a : A) (o : option B) : Prop :=
  match o with Some b => P a b | None => ∀ b, ¬ P a b end.

Lemma first_result_ok {E A B} (l : list A) (f : A → Res E (option B)) (P : A → B → Prop) :
  (∀ a, a ∈ l → ∃ o, f a = Ok o ∧
     match o with Some b => P a b | None => ∀ b, ¬ P a b end) →
  ∃ o, first_result l f = Ok o ∧
    match o with
    | Some b => ∃ a, a ∈ l ∧ P a b
    | None => ∀ a b, a ∈ l → ¬ P a b
    end.
Proof.
  induction l as [|a l IH]; intros Hf; cbn [first_result].
  { exists None. split; [done|]. set_solver. }
  destruct (Hf a) as (o & -> & Ho); [left|]. cbn [Res_bind]. destruct o as [b|].
  - exists (Some b). split; [done|]. exists a. split; [left|done].
  - destruct IH as (o & -> & Hr); [intros; apply Hf; by right|]. exists o. split; [done|].
    destruct o as [b|]; [destruct Hr as (a' & ? & ?); exists a'; split; [by right|done]|].
    intros a' b [->|Ha']%elem_of_cons; [apply Ho|by apply Hr].
Qed.

Section definitions.
Context {E : Type} `{Roaring} `{!RoaringLaws} `{IndexLibs} `{FlatBuffer FbMergedIndex}
  `{!FlatBufferLaws FbMergedIndex} `{Positions}.
Implicit Types this : Indexer.

(** ** The location of a definition *)

Definition range_found (u : bytes) (m : bytes * list Z) (r : Relation) : option LspLocation :=
  mkLspLocation u <$> relation_range m r.

Lemma take_location_stops u m : stops_at (take_location u m) (range_found u m).
Proof. intros r s. unfold take_location, range_found. by destruct (relation_range m r). Qed.

Lemma location_found_range u m r loc :
  loc ∈ location_found u m r ↔ range_found u m r = Some loc.
Proof.
  unfold location_found, range_found. destruct (relation_range m r); simpl; [|set_solver].
  rewrite list_elem_of_singleton. naive_solver.
Qed.

Lemma visit_mapped_stops ord n G shard i s kind u :
  denotes shard i → shard_ok n G i →
  ∃ o, visit_mapped (E := E) ord shard s kind (take_location u) None = Ok o ∧
    step_finds (λ _ loc, ∃ m r, mapped (E := E) shard m ∧ r_kind r = kind ∧
      reported (E := E) shard s r ∧ loc ∈ location_found u m r) tt o.
Proof.
  intros Hd Hok. unfold visit_mapped, mapped.
  destruct (line_map_ok (E := E) n G shard i Hd Hok) as [[m|] Hm]; rewrite Hm; cbn [Res_bind].
  - destruct (lookup_reports (E := E) n G shard i ord s kind (take_location u m) None Hd Hok)
      as (rs & -> & Hrs).
    pose proof (visit_stops _ _ rs (take_location_stops u m)) as Hv. eexists. split; [done|].
    destruct (visit (take_location u m) rs None) as [loc|]; cbn.
    + destruct Hv as (r & [? ?]%Hrs & ?). exists m, r. by rewrite location_found_range.
    + intros loc (m' & r & [= <-] & Hk & Hr & Hloc%location_found_range).
      rewrite Hv in Hloc; [done|]. by apply Hrs.
  - exists None. split; [done|]. by intros loc (m' & r & ? & _).
Qed.

Lemma file_lookup_stops f s kind u m :
  step_finds (λ _ loc, ∃ r, has_relation s r f ∧ r_kind r = kind ∧ loc ∈ location_found u m r) tt
    (file_lookup_symbol f s kind (take_location u m) None).
Proof.
  unfold file_lookup_symbol, has_relation, get_or.
  destruct (f_relations f !! s) as [rs|]; cbn [default].
  - rewrite scan_kind_visit.
    pose proof (visit_stops _ _ (filter (λ r, r_kind r = kind) rs) (take_location_stops u m)) as Hv.
    destruct (visit (take_location u m) _ None) as [loc|]; cbn.
    + destruct Hv as (r & [? ?]%list_elem_of_filter & ?). exists r. by rewrite location_found_range.
    + intros loc (r & Hr & Hk & Hloc%location_found_range).
      rewrite Hv in Hloc; [done|]. by apply list_elem_of_filter.
  - cbn. intros loc (r & Hr & _). unfold id in Hr. set_solver.
Qed.

Lemma session_definition_ok ord this s :
  queryable this →
  ∃ o, first_result (ready_sessions ord this) (λ e,
      let? path := server_path (E := E) this e.1 in
      match from_file_path path with
      | None => Ok None
      | Some u =>
        let? index := read (file_index e.2) in
        Ok (file_lookup_symbol index s Definition_ (take_location u (session_map e.2)) None)
      end) = Ok o ∧
    step_finds (λ _ loc, in_session this s Definition_ loc) tt o.
Proof.
  intros Hq.
  destruct (first_result_ok (ready_sessions ord this) (λ e,
      let? path := server_path (E := E) this e.1 in
      match from_file_path path with
      | None => Ok None
      | Some u =>
        let? index := read (file_index e.2) in
        Ok (file_lookup_symbol index s Definition_ (take_location u (session_map e.2)) None)
      end) (λ e loc, ∃ f path u r, file_index e.2 = Some f ∧
            resolve (path_pool_of this) e.1 = Some path ∧ from_file_path path = Some u ∧
            has_relation s r f ∧ r_kind r = Definition_ ∧
            loc ∈ location_found u (session_map e.2) r)) as (o & Ho & Hres).
  - intros [id session] [Hr Hs]%elem_of_ready. destruct (ready_index _ Hr) as [f Hf].
    destruct (q_sessions _ Hq id session Hs) as [path Hp]. cbn [fst snd]. unfold server_path.
    rewrite Hp. cbn [read Res_bind]. destruct (from_file_path path) as [u|] eqn:Eu.
    + rewrite Hf. cbn [read Res_bind]. eexists. split; [done|].
      pose proof (file_lookup_stops f s Definition_ u (session_map session)) as Hv.
      destruct (file_lookup_symbol f s Definition_ _ None) as [loc|]; cbn in *.
      * destruct Hv as (r & ? & ? & ?). by exists f, path, u, r.
      * intros loc (f' & path' & u' & r & [= <-] & ? & ? & ? & ? & ?). simplify_eq.
        apply (Hv loc). by exists r.
    + exists None. split; [done|]. intros loc (f' & path' & u' & r & ? & ? & ? & _). simplify_eq.
  - exists o. split; [done|]. destruct o as [loc|]; cbn.
    + destruct Hres as ([id session] & [? ?]%elem_of_ready & f & path & u & r & ?).
      exists id, session, f, path, u, r. tauto.
    + intros loc (id & session & f & path & u & r & Hs & Hr & ?).
      apply (Hres (id, session) loc); [by apply elem_of_ready|]. by exists f, path, u, r.
Qed.

Lemma shard_definition_ok ord this s :
  queryable this →
  ∃ o, first_result (mentioning this s) (λ id,
      let? shard := closed_shard (E := E) this id in
      match shard with
      | None => Ok None
      | Some shard =>
        let? path := project_path (path_pool (project_index this)) id in
        match from_file_path path with
        | None => Ok None
        | Some u => visit_mapped ord shard s Definition_ (take_location u) None
        end
      end) = Ok o ∧
    step_finds (λ _ loc, ∃ id, id ∈ mentioning this s ∧ in_shard (E := E) this s Definition_ id loc)
      tt o.
Proof.
  intros Hq.
  destruct (first_result_ok (mentioning this s) (λ id,
      let? shard := closed_shard (E := E) this id in
      match shard with
      | None => Ok None
      | Some shard =>
        let? path := project_path (path_pool (project_index this)) id in
        match from_file_path path with
        | None => Ok None
        | Some u => visit_mapped ord shard s Definition_ (take_location u) None
        end
      end) (in_shard (E := E) this s Definition_)) as (o & Ho & Hres).
  - intros id Hid. destruct (mentioning_path (E := E) _ _ _ Hq Hid) as [path Hp].
    destruct (closed_shard_ok (E := E) this id path Hp) as (o & -> & Ho). cbn [Res_bind].
    destruct o as [shard|].
    + destruct (proj1 (Ho shard) eq_refl) as [Hopen Hsh]. rewrite Hp. cbn [Res_bind].
      destruct (q_shards _ Hq id shard Hsh) as (n & G & i & Hd & Hok).
      destruct (from_file_path path) as [u|] eqn:Eu.
      * destruct (visit_mapped_stops ord n G shard i s Definition_ u Hd Hok) as (o & -> & Hv).
        exists o. split; [done|]. destruct o as [loc|]; cbn in *.
        -- destruct Hv as (m & r & ? & ? & ? & ?). by exists path, shard, u, m, r.
        -- intros loc (path' & shard' & u' & m & r & Hp' & _ & Hs' & Hu' & ? & ? & ? & ?).
           rewrite Hp in Hp'. injection Hp' as <-. simplify_eq. apply (Hv loc). by exists m, r.
      * exists None. split; [done|]. intros loc (path' & shard' & u' & m & r & Hp' & _ & _ & Hu' & _).
        rewrite Hp in Hp'. injection Hp' as <-. congruence.
    + exists None. split; [done|]. intros loc (path' & shard' & u' & m & r & Hp' & Hopen & Hsh & _).
      rewrite Hp in Hp'. injection Hp' as <-. discriminate (proj2 (Ho shard') (conj Hopen Hsh)).
  - exists o. split; [done|]. destruct o as [loc|]; cbn; [done|].
    intros loc (id & Hid & Hin). by apply (Hres id loc).
Qed.

(** A definition in a session goes first; there is no answer only if no session and
    no shard of a closed file has one. *)
Lemma find_definition_ok ord this s :
  queryable this →
  ∃ o, find_definition_location (E := E) ord this s = Ok o ∧
    match o with
    | Some loc => in_session this s Definition_ loc ∨
        (∀ loc', ¬ in_session this s Definition_ loc') ∧
        ∃ id, id ∈ mentioning this s ∧ in_shard (E := E) this s Definition_ id loc
    | None => ∀ loc, ¬ in_session this s Definition_ loc ∧
        ∀ id, id ∈ mentioning this s → ¬ in_shard (E := E) this s Definition_ id loc
    end.
Proof.
  intros Hq. unfold find_definition_location.
  destruct (session_definition_ok ord this s Hq) as (o1 & -> & Hone). cbn [Res_bind].
  destruct o1 as [loc|]; cbn in Hone; [exists (Some loc); by split; [|left]|].
  destruct (shard_definition_ok ord this s Hq) as (o2 & -> & Htwo). exists o2. split; [done|].
  destruct o2 as [loc|]; cbn in *; [by right|]. intros loc. split; [apply Hone|].
  intros id Hid Hin. apply (Htwo loc). by exists id.
Qed.

(** Looking up the definition of a symbol has no undefined behaviour and
    returns the location of a definition, one of an open file's session wherever
    there is one; it returns nothing only if neither an up to date session nor the
    shard of a closed file that mentions the symbol has a definition with a
    position. *)
Theorem find_definition_correct ord this s :
  queryable this →
  ∃ o, find_definition_location (E := E) ord this s = Ok o ∧
    match o with
    | Some loc => in_session this s Definition_ loc ∨
        (∀ loc', ¬ in_session this s Definition_ loc') ∧
        ∃ id, id ∈ mentioning this s ∧ in_shard (E := E) this s Definition_ id loc
    | None => ∀ loc, ¬ in_session this s Definition_ loc ∧
        ∀ id, id ∈ mentioning this s → ¬ in_shard (E := E) this s Definition_ id loc
    end.
Proof. apply find_definition_ok. Qed.

(** ** Search *)

Definition searchable (query : bytes) (sym : Symbol) : Prop :=
  is_indexable_kind (symbol_kind sym) = true ∧ name sym ≠ [] ∧ matches_query query (name sym) = true.

Definition result_of (ord : Order) this (query : bytes) (cands : list (Z * Symbol)) (h : Z)
    (x : SymbolInformation) : Prop :=
  ∃ sym loc, (h, sym) ∈ cands ∧ searchable query sym ∧
    find_definition_location (E := E) ord this h = Ok (Some loc) ∧
    x = mkSymbolInformation (name sym) (to_lsp_symbol_kind (symbol_kind sym)) loc.

(** The results after the search_candidates [cands] were looked at, with their symbols. *)
Definition searched (ord : Order) this (query : bytes) (max_results : nat)
    (cands : list (Z * Symbol)) (st : list SymbolInformation * gset Z) : Prop :=
  ∃ hs, NoDup hs ∧ st.2 = list_to_set hs ∧ Forall2 (result_of ord this query cands) hs st.1 ∧
    (length st.1 ≤ max_results)%nat ∧
    ((length st.1 < max_results)%nat → ∀ h sym loc, (h, sym) ∈ cands → searchable query sym →
       find_definition_location (E := E) ord this h = Ok (Some loc) → h ∈ hs).

Lemma result_of_more ord this query cands cands' h x :
  (∀ e, e ∈ cands → e ∈ cands') → result_of ord this query cands h x →
  result_of ord this query cands' h x.
Proof. intros Hsub (sym & loc & ? & ?). exists sym, loc. split; [by apply Hsub|done]. Qed.

(** The step of the loops. *)
Lemma search_step_ok ord this query max_results skip_seen cands e st :
  queryable this → searched ord this query max_results cands st →
  (skip_seen = true ∨ e.1 ∉ cands.*1) →
  ∃ st', (if decide (max_results ≤ length st.1)%nat then Ok st
          else if skip_seen && bool_decide (e.1 ∈ st.2) then Ok st
          else search_symbol (E := E) ord this query e st) = Ok st' ∧
    searched ord this query max_results (cands ++ [e]) st'.
Proof.
  destruct e as [h0 s0]. cbn [fst].
  intros Hq (hs & Hnd & Hseen & Hres & Hmax & Hall) Hskip.
  assert (∀ l, Forall2 (result_of ord this query cands) hs l →
    Forall2 (result_of ord this query (cands ++ [(h0, s0)])) hs l) as Hmore.
  { intros l Hl. eapply Forall2_impl; [exact Hl|]. intros h x. apply result_of_more. set_solver. }
  case_decide as Hfull.
  { exists st. split; [done|]. exists hs. split_and!; auto. lia. }
  destruct (decide (h0 ∈ st.2)) as [Hin|Hnin].
  { destruct Hskip as [->|Hnew].
    - rewrite bool_decide_eq_true_2 by done. cbn [andb]. exists st. split; [done|]. exists hs.
      split_and!; auto. intros Hlt h sym loc [Hc|[= -> ->]%list_elem_of_singleton]%elem_of_app Hs Hloc;
        [by eapply Hall|]. rewrite Hseen in Hin. by apply elem_of_list_to_set in Hin.
    - rewrite Hseen, elem_of_list_to_set in Hin.
      destruct (proj1 (list_elem_of_lookup _ _) Hin) as [j Hj].
      destruct (Forall2_lookup_l _ _ _ _ _ Hres Hj) as (x & _ & sym & loc & Hc & _).
      destruct Hnew. by apply (list_elem_of_fmap_2 fst _ _ Hc). }
  rewrite bool_decide_eq_false_2, andb_false_r by done. unfold search_symbol. cbn [fst snd].
  destruct (decide (searchable query s0)) as [[Hk [Hn Hm]]|Hns].
  - rewrite Hk, Hm, bool_decide_eq_false_2 by done. cbn [negb orb].
    destruct (find_definition_ok ord this h0 Hq) as (o & Hdef & _). rewrite Hdef.
    cbn [Res_bind]. eexists. split; [done|]. destruct o as [loc|].
    + exists (hs ++ [h0]). cbn [fst snd]. split_and!.
      * apply NoDup_app. split; [done|]. split; [|apply NoDup_singleton].
        intros h Hh ->%list_elem_of_singleton. apply Hnin. rewrite Hseen. by apply elem_of_list_to_set.
      * rewrite Hseen. set_solver.
      * apply Forall2_app; [by apply Hmore|]. apply Forall2_cons. split; [|constructor].
        exists s0, loc. split; [set_solver|]. done.
      * rewrite length_app. cbn [length]. lia.
      * intros Hlt h sym loc' [Hc|[= -> ->]%list_elem_of_singleton]%elem_of_app Hs Hloc; [|set_solver].
        apply elem_of_app. left. eapply Hall; [|done..]. rewrite length_app in Hlt. cbn [length] in Hlt. lia.
    + exists hs. split_and!; auto.
      intros Hlt h sym loc' [Hc|[= -> ->]%list_elem_of_singleton]%elem_of_app Hs Hloc; [by eapply Hall|].
      congruence.
  - assert (negb (is_indexable_kind (symbol_kind s0)) || bool_decide (name s0 = [])
       || negb (matches_query query (name s0)) = true) as ->.
    { unfold searchable in Hns. destruct (is_indexable_kind _), (matches_query _ _); cbn; try done;
        [|by case_bool_decide]. case_bool_decide; [done|]. destruct Hns. done. }
    exists st. split; [done|]. exists hs. split_and!; auto.
    intros Hlt h sym loc' [Hc|[= -> ->]%list_elem_of_singleton]%elem_of_app Hs Hloc; [by eapply Hall|].
    done.
Qed.

Lemma search_table_ok ord this query max_results skip_seen table cands st :
  queryable this → searched ord this query max_results cands st →
  (skip_seen = true ∨ cands = [] ∧ NoDup table.*1) →
  ∃ st', search_table (E := E) ord this query max_results skip_seen table st = Ok st' ∧
    searched ord this query max_results (cands ++ table) st'.
Proof.
  intros Hq Hst Hskip. unfold search_table.
  apply (for_each_prefix (E := E) (λ pre, searched ord this query max_results (cands ++ pre))).
  - by rewrite app_nil_r.
  - intros pre e post st1 Hl Hst1. rewrite app_assoc. apply search_step_ok; [done..|].
    destruct Hskip as [?|[-> Hnd]]; [by left|right]. rewrite Hl, fmap_app in Hnd.
    apply NoDup_app in Hnd as (_ & Hd & _). intros Hin. apply (Hd e.1 Hin). left.
Qed.

(** The symbols a search looks at, in turn. *)
Definition search_candidates (ord : Order) this : list (Z * Symbol) :=
  entries ord (p_symbols (project_index this)) ++
  concat ((λ e : Z * Session, entries ord (default ∅ (session_symbols e.2))) <$>
            ready_sessions ord this).

Lemma ready_symbols s : session_ready s = true → ∃ table, session_symbols s = Some table.
Proof.
  unfold session_ready. rewrite !andb_true_iff, !bool_decide_eq_true.
  by intros [[_ [table Ht]] _]; exists table.
Qed.

(** A search by name has no undefined behaviour and returns at most the given
    number of results, each for a different symbol of the project or of an up to
    date session, which is of a kind that is listed, whose name contains the query
    without regard to case, and with the location of its definition; with fewer
    results than the limit, no such symbol is left out. *)
Theorem search_symbols_correct ord this query max_results :
  queryable this →
  ∃ l hs, search_symbols (E := E) ord this query max_results = Ok l ∧
    (length l ≤ max_results)%nat ∧ NoDup hs ∧
    Forall2 (result_of ord this query (search_candidates ord this)) hs l ∧
    ((length l < max_results)%nat → ∀ h sym loc, (h, sym) ∈ search_candidates ord this →
       searchable query sym → find_definition_location (E := E) ord this h = Ok (Some loc) → h ∈ hs).
Proof.
  intros Hq. unfold search_symbols.
  destruct (search_table_ok ord this query max_results false
    (entries ord (p_symbols (project_index this))) [] ([], ∅) Hq) as (st1 & -> & Hst1).
  { exists []. split_and!; [constructor|done|constructor|cbn; lia|set_solver]. }
  { right. split; [done|]. apply NoDup_entries_fst. }
  cbn [Res_bind app] in *.
  destruct (for_each_prefix (E := E) (λ pre, searched ord this query max_results
      (entries ord (p_symbols (project_index this)) ++
       concat ((λ e : Z * Session, entries ord (default ∅ (session_symbols e.2))) <$> pre)))
    (ready_sessions ord this) (λ e st,
      let? table := read (session_symbols e.2) in
      search_table (E := E) ord this query max_results true (entries ord table) st) st1)
    as (st2 & -> & Hst2).
  - cbn [fmap list_fmap concat]. by rewrite app_nil_r.
  - intros pre [id s] post st Hl Hst.
    assert ((id, s) ∈ ready_sessions ord this) as [Hr _]%elem_of_ready by (rewrite Hl; set_solver).
    destruct (ready_symbols s Hr) as [table Ht]. cbn [snd]. rewrite Ht. cbn [read Res_bind].
    rewrite fmap_app, concat_app, app_assoc. cbn [fmap list_fmap concat snd].
    rewrite app_nil_r, Ht. cbn [default]. by apply search_table_ok; [..|left].
  - destruct Hst2 as (hs & Hnd & _ & Hres & Hmax & Hall). exists st2.1, hs.
    split_and!; [done|done|done|exact Hres|exact Hall].
Qed.
End definitions.

(** ** The line around a reference *)

Definition newline : ascii := "010"%char.

(** [find] from an offset. *)
Lemma find_from_spec c from s :
  match find_from c from s with
  | Some p => (from ≤ p)%nat ∧ s !! p = Some c ∧ ∀ q, (from ≤ q < p)%nat → s !! q ≠ Some c
  | None => ∀ q, (from ≤ q)%nat → s !! q ≠ Some c
  end.
Proof.
  unfold find_from. destruct (list_find (λ x, x = c) (drop from s)) as [[j x]|] eqn:Ef; cbn.
  - apply list_find_Some in Ef as (Hj & -> & Hbefore). rewrite lookup_drop in Hj.
    split_and!; [lia|done|]. intros q Hq Hc. apply (Hbefore (q - from)%nat c); [|lia|done].
    rewrite lookup_drop. by replace (from + (q - from))%nat with q by lia.
  - apply list_find_None in Ef. intros q Hq Hc. rewrite Forall_lookup in Ef.
    apply (Ef (q - from)%nat c); [|done]. rewrite lookup_drop.
    by replace (from + (q - from))%nat with q by lia.
Qed.

(** A search backwards from an index, the index included. *)
Definition finds_upto (rfind : bytes → ascii → nat → option nat) : Prop :=
  ∀ s c n, match rfind s c n with
           | Some p => (p ≤ n)%nat ∧ s !! p = Some c ∧ ∀ q, (p < q ≤ n)%nat → s !! q ≠ Some c
           | None => ∀ q, (q ≤ n)%nat → s !! q ≠ Some c
           end.

(** With a search that looks at its bound too, the result is the line of the
    offset. *)
Lemma extract_line_is_line rfind content offset :
  finds_upto rfind → (offset < length content)%nat →
  ∃ start end_, extract_line rfind content offset = slice content start end_ ∧
    (start ≤ offset ≤ end_)%nat ∧ (end_ ≤ length content)%nat ∧
    (∀ q, (start ≤ q < end_)%nat → content !! q ≠ Some newline) ∧
    (start = 0%nat ∨ content !! (start - 1)%nat = Some newline) ∧
    (end_ = length content ∨ content !! end_ = Some newline).
Proof.
  intros Hr Hoff. unfold extract_line. rewrite decide_False.
  2:{ intros [->|?]; [cbn in Hoff|]; lia. }
  set (start := if decide (0 < offset)%nat then _ else _).
  set (end_ := default _ _). exists start, end_. split; [done|].
  assert ((start ≤ offset)%nat ∧ (∀ q, (start ≤ q < offset)%nat → content !! q ≠ Some newline) ∧
    (start = 0%nat ∨ content !! (start - 1)%nat = Some newline)) as (Hs1 & Hs2 & Hs3).
  { unfold start. case_decide as H0; [|split_and!; [lia|intros q ?; lia|by left]].
    pose proof (Hr content newline (offset - 1)%nat) as Hf. fold newline.
    destruct (rfind content newline (offset - 1)%nat) as [p|].
    - destruct Hf as (Hp & Hc & Hq). split_and!; [lia|intros q ?; apply Hq; lia|right].
      by replace (S p - 1)%nat with p by lia.
    - split_and!; [lia|intros q ?; apply Hf; lia|by left]. }
  assert ((offset ≤ end_ ≤ length content)%nat ∧
    (∀ q, (offset ≤ q < end_)%nat → content !! q ≠ Some newline) ∧
    (end_ = length content ∨ content !! end_ = Some newline)) as (He1 & He2 & He3).
  { unfold end_. pose proof (find_from_spec newline offset content) as Hf. fold newline.
    destruct (find_from newline offset content) as [p|]; cbn [default].
    - destruct Hf as (Hp & Hc & Hq). apply lookup_lt_Some in Hc as ?.
      split_and!; [done|unfold id; lia|done|by right].
    - split_and!; [lia|lia|intros q ?; apply Hf; lia|by left]. }
  split_and!; [lia|lia|lia| |done|done]. intros q Hq.
  destruct (decide (q < offset)%nat); [apply Hs2; lia|apply He2; lia].
Qed.

(** With one that only looks below its bound, the newline right before the offset
    is missed, and a reference at the start of a line is shown with the line above. *)
Lemma line_above_is_shown rfind :
  (∀ s c n p, rfind s c n = Some p → (p < n)%nat ∧ s !! p = Some c) →
  extract_line rfind [newline; "f"%char] 1 = [newline; "f"%char].
Proof.
  intros Hr. unfold extract_line. rewrite decide_False by (cbn; intros [?|?]; [done|lia]).
  rewrite decide_True by lia.
  destruct (rfind [newline; "f"%char] "010"%char (1 - 1)%nat) as [p|] eqn:Ef; [|done].
  apply Hr in Ef as [? _]. lia.
Qed.

(** ** Examples *)

Lemma find_definition_correct_witness :
  ∃ loc, find_definition_location (E := unit) bucket_order indexer_small 7 = Ok (Some loc) ∧
    (in_session indexer_small 7 Definition_ loc ∨
     (∀ loc', ¬ in_session indexer_small 7 Definition_ loc') ∧
     ∃ id, id ∈ mentioning indexer_small 7 ∧
       in_shard (E := unit) indexer_small 7 Definition_ id loc).
Proof.
  destruct (find_definition_correct (E := unit) bucket_order indexer_small 7 indexer_small_queryable)
    as (o & Ho & Hspec).
  assert (find_definition_location (E := unit) bucket_order indexer_small 7 =
    Ok (Some (mkLspLocation (str "file://a.h") (mkLspRange (mkPosition 0 17) (mkPosition 0 18)))))
    as Hc by (vm_compute; reflexivity).
  rewrite Hc in Ho. injection Ho as <-. eexists. split; [exact Hc|exact Hspec].
Defined.

Lemma search_symbols_correct_witness :
  ∃ l hs, search_symbols (E := unit) bucket_order indexer_small (str "FU") 10 = Ok l ∧
    Forall2 (result_of (E := unit) bucket_order indexer_small (str "FU")
      (search_candidates bucket_order indexer_small)) hs l ∧ length l = 1%nat.
Proof.
  destruct (search_symbols_correct (E := unit) bucket_order indexer_small (str "FU") 10
    indexer_small_queryable) as (l & hs & Hl & _ & _ & Hres & _).
  exists l, hs. split; [exact Hl|]. split; [exact Hres|].
  assert ((let? l := search_symbols (E := unit) bucket_order indexer_small (str "FU") 10 in
           Ok (length l)) = Ok 1%nat) as Hc by (vm_compute; reflexivity).
  rewrite Hl in Hc. injection Hc as Hc. exact Hc.
Defined.

(** The shard of an open file is never used, so that what it says about other files
    is lost while its session waits for a compilation. *)
Lemma dirty_file_is_forgotten :
  let opened dirty := mkIndexer (project_index indexer_small) (merged_indices indexer_small)
    (intern empty_pool (str "a.h")).1
    {[0 := mkSession text_example [0] dirty (Some header_small) (Some ∅)]} in
  (let? before := locations_of (E := unit) bucket_order (opened false) 7 Definition_ in
   let? after := locations_of (E := unit) bucket_order (opened true) 7 Definition_ in
   Ok (length before, length after)) = Ok (1%nat, 0%nat).
Proof. vm_compute. reflexivity. Qed.
