(* ===== verification/BackgroundIndex.v ===== *)
(** * Background indexing (src/server/compiler/indexer.{h,cpp}: the queue)

    Files wait in a queue.  [schedule] starts an idle timer and a task that, when
    the timer fires, takes the files of the queue one by one and starts a worker
    task for each file that needs an update; the index a worker sends back is merged.
    Requests of the user pause the taking of files.

    The coroutines run on one event loop and change state only between suspension
    points.  An [Event] is what makes a coroutine run up to its next suspension
    point, or a call of one of the public operations; an event that cannot happen in
    the present state changes nothing.  Timers, events, task groups and progress
    notifications are those of the [kota] library: when a suspended task continues is
    decided by the sequence of events, over which the theorems quantify.  A worker
    task starts by an event of its own; up to its first suspension point it only
    reads, so starting it at once comes to the same. *)
From S2P Require Import IndexData PathPool MergedIndex IncludeGraph TUIndex ProjectIndex Indexer.
Local Open Scope Z_scope.
Local Open Scope cpp_scope.

(** ** State *)

(** Where a worker task is suspended. *)
Inductive WorkerPhase := WorkerReady | WorkerCompiling | WorkerSent.

Record IndexTask := mkIndexTask { task_id : Z; task_number : nat; task_phase : WorkerPhase }.

(** The local variables of [run_background_indexing]. *)
Record Round := mkRound {
  total : nat;
  dispatched : nat;
  completed : nat;
  progress : bool;
  workers : list IndexTask;
}.

(** Where a task of [bg_tasks] is suspended.  [AwaitResume] tells whether the event it
    waits for has been set since. *)
Inductive Phase :=
| AwaitTimer
| AwaitProgress (total : nat)
| AwaitResume (woken : bool) (r : Round)
| AwaitWorkers (r : Round)
| AwaitSave.

Record Background := mkBackground {
  this : Indexer;
  index_queue : list Z;
  index_queue_pos : nat;
  indexing_active : bool;
  indexing_scheduled : bool;
  pause_depth : nat;
  resume_event : bool;
  tasks : list Phase;
  (** false once [stop] has cancelled the task group *)
  accepting : bool;
  (** the percentages reported to the client *)
  reports : list Z;
}.

Definition initial (this : Indexer) : Background :=
  mkBackground this [] 0 false false 0 true [] true [].

Definition set_queue (q : list Z) (s : Background) : Background :=
  mkBackground (this s) q (index_queue_pos s) (indexing_active s) (indexing_scheduled s)
    (pause_depth s) (resume_event s) (tasks s) (accepting s) (reports s).
Definition set_pos (pos : nat) (s : Background) : Background :=
  mkBackground (this s) (index_queue s) pos (indexing_active s) (indexing_scheduled s)
    (pause_depth s) (resume_event s) (tasks s) (accepting s) (reports s).
Definition set_flags (active scheduled : bool) (s : Background) : Background :=
  mkBackground (this s) (index_queue s) (index_queue_pos s) active scheduled
    (pause_depth s) (resume_event s) (tasks s) (accepting s) (reports s).
Definition set_pause (depth : nat) (event : bool) (s : Background) : Background :=
  mkBackground (this s) (index_queue s) (index_queue_pos s) (indexing_active s)
    (indexing_scheduled s) depth event (tasks s) (accepting s) (reports s).
Definition set_tasks (l : list Phase) (s : Background) : Background :=
  mkBackground (this s) (index_queue s) (index_queue_pos s) (indexing_active s)
    (indexing_scheduled s) (pause_depth s) (resume_event s) l (accepting s) (reports s).
Definition set_this (i : Indexer) (s : Background) : Background :=
  mkBackground i (index_queue s) (index_queue_pos s) (indexing_active s) (indexing_scheduled s)
    (pause_depth s) (resume_event s) (tasks s) (accepting s) (reports s).
Definition report (pct : Z) (s : Background) : Background :=
  mkBackground (this s) (index_queue s) (index_queue_pos s) (indexing_active s)
    (indexing_scheduled s) (pause_depth s) (resume_event s) (tasks s) (accepting s)
    (reports s ++ [pct]).

(** What the code reads of the rest of the server while it handles an event. *)
Record Env := mkEnv {
  enable_indexing : bool;
  has_peer : bool;
  has_compile_graph : bool;
  in_module : Z → bool;
  fill_compile_args : bytes → bool;
  modified : bytes → option Z;
  read_file : bytes → option bytes;
}.

(** The answer of [send_stateless] to a [worker::BuildParams]. *)
Inductive Reply := IpcError | BuildReply (success : bool) (tu_index_data : bytes).

(** ** Public operations *)

Definition enqueue (id : Z) (s : Background) : Background := set_queue (index_queue s ++ [id]) s.

Definition pause_indexing (s : Background) : Background :=
  let depth := S (pause_depth s) in
  set_pause depth (if decide (depth = 1%nat) then false else resume_event s) s.

(** [resume_event.set()] lets the tasks that wait for it continue. *)
Definition wake (p : Phase) : Phase :=
  match p with AwaitResume _ r => AwaitResume true r | _ => p end.

Definition resume_indexing (s : Background) : Background :=
  let depth := pred (pause_depth s) in
  if decide (depth = 0%nat) then set_pause depth true (set_tasks (wake <$> tasks s) s)
  else set_pause depth (resume_event s) s.

Definition schedule (env : Env) (s : Background) : Background :=
  if negb (enable_indexing env) || indexing_active s || indexing_scheduled s then s
  else if accepting s then
    set_tasks (tasks s ++ [AwaitTimer]) (set_flags (indexing_active s) true s)
  else s.

Definition stop (s : Background) : Background :=
  mkBackground (this s) (index_queue s) (index_queue_pos s) (indexing_active s)
    (indexing_scheduled s) (pause_depth s) (resume_event s) [] false (reports s).

Definition is_idle (s : Background) : bool :=
  negb (indexing_active s) && (length (index_queue s) <=? index_queue_pos s)%nat.

Definition pending_files (s : Background) : nat := length (index_queue s) - index_queue_pos s.

(** ** The tasks *)

Section coroutines.
Context {E : Type} `{Roaring} `{IndexLibs} `{FlatBuffer FbMergedIndex} `{FlatBuffer FbTUIndex}.
Context (ord : Order).

(** [(is_open && is_open(id)) || !need_update(file_path)]. *)
Definition skip_file (env : Env) (i : Indexer) (id : Z) (file_path : bytes) : Res E bool :=
  if decide (is_Some (sessions i !! id)) then Ok true
  else let? stale := indexer_need_update ord i (modified env) file_path in Ok (negb stale).

Definition skipped (r : Round) : Round :=
  mkRound (total r) (dispatched r) (S (completed r)) (progress r) (workers r).
Definition spawned (id : Z) (r : Round) : Round :=
  mkRound (total r) (S (dispatched r)) (completed r) (progress r)
    (workers r ++ [mkIndexTask id (S (dispatched r)) WorkerReady]).

(** The loop of [run_background_indexing] up to its next suspension point, over the
    files [rest] of the queue that are not taken yet; [waited] tells that the wait of
    this iteration is over. *)
Fixpoint take_files (env : Env) (rest : list Z) (waited : bool) (r : Round) (s : Background) :
    Res E (Background * Phase) :=
  match rest with
  | [] => Ok (s, AwaitWorkers r)
  | id :: rest =>
    if negb waited && (0 <? pause_depth s)%nat && negb (resume_event s)
    then Ok (s, AwaitResume false r)
    else
      let s := set_pos (S (index_queue_pos s)) s in
      let? file_path := server_path (this s) id in
      let? skip := skip_file env (this s) id file_path in
      take_files env rest false (if skip : bool then skipped r else spawned id r) s
  end.

(** Continue task [t] with the loop. *)
Definition enter_loop (env : Env) (t : nat) (waited : bool) (r : Round) (s : Background) :
    Res E Background :=
  let? p := take_files env (drop (index_queue_pos s) (index_queue s)) waited r s in
  Ok (set_tasks (<[t := p.2]> (tasks s)) p.1).

(** [std::stable_partition] of the files not taken yet: modules first. *)
Definition modules_first (env : Env) (pos : nat) (q : list Z) : list Z :=
  take pos q ++ filter (λ id, in_module env id = true) (drop pos q)
             ++ filter (λ id, in_module env id = false) (drop pos q).

Definition new_round (n : nat) (progress : bool) : Round := mkRound n 0 0 progress [].

(** The idle timer of task [t] fires. *)
Definition timer_fired (env : Env) (t : nat) (s : Background) : Res E Background :=
  let s := set_flags (indexing_active s) false s in
  if (length (index_queue s) <=? index_queue_pos s)%nat then Ok (set_tasks (delete t (tasks s)) s)
  else
    let s := set_flags true (indexing_scheduled s) s in
    let s := set_queue (modules_first env (index_queue_pos s) (index_queue s)) s in
    let n := (length (index_queue s) - index_queue_pos s)%nat in
    if has_peer env then Ok (set_tasks (<[t := AwaitProgress n]> (tasks s)) s)
    else enter_loop env t false (new_round n false) s.

(** [index_one] up to [send_stateless]: the worker task goes on, or ends. *)
Definition send_request (env : Env) (file_path : bytes) (w : IndexTask) : option IndexTask :=
  if fill_compile_args env file_path
  then Some (mkIndexTask (task_id w) (task_number w) WorkerSent) else None.

Definition begin_index_one (env : Env) (w : IndexTask) (s : Background) : Res E (option IndexTask) :=
  let? file_path := server_path (this s) (task_id w) in
  let? skip := skip_file env (this s) (task_id w) file_path in
  if skip : bool then Ok None
  else if has_compile_graph env && in_module env (task_id w)
  then Ok (Some (mkIndexTask (task_id w) (task_number w) WorkerCompiling))
  else Ok (send_request env file_path w).

(** The end of [index_one]. *)
Definition receive_reply (env : Env) (reply : Reply) (s : Background) : Res E Background :=
  match reply with
  | BuildReply true ((_ :: _) as data) =>
    let? i := indexer_merge ord (read_file env) data (this s) in Ok (set_this i s)
  | _ => Ok s
  end.

Definition set_workers (l : list IndexTask) (r : Round) : Round :=
  mkRound (total r) (dispatched r) (completed r) (progress r) l.

(** The round a phase carries, and the phase with another round. *)
Definition round_of (p : Phase) : option Round :=
  match p with AwaitResume _ r | AwaitWorkers r => Some r | _ => None end.
Definition with_round (r : Round) (p : Phase) : Phase :=
  match p with
  | AwaitResume woken _ => AwaitResume woken r
  | AwaitWorkers _ => AwaitWorkers r
  | _ => p
  end.

Definition percentage (done total : nat) : Z :=
  if (0 <? total)%nat then u32 (u64 (Z.of_nat done * 100) / Z.of_nat total) else 100.

(** Worker task [k] of task [t] ends: [++completed] and the progress report. *)
Definition finish_worker (t k : nat) (p : Phase) (r : Round) (s : Background) : Background :=
  let r := mkRound (total r) (dispatched r) (S (completed r)) (progress r) (delete k (workers r)) in
  let s := set_tasks (<[t := with_round r p]> (tasks s)) s in
  if progress r then report (percentage (completed r) (total r)) s else s.

(** Worker task [k] of task [t] goes on with [w], or ends. *)
Definition continue_worker (t k : nat) (p : Phase) (r : Round) (w : option IndexTask)
    (s : Background) : Background :=
  match w with
  | Some w => set_tasks (<[t := with_round (set_workers (<[k := w]> (workers r)) r) p]> (tasks s)) s
  | None => finish_worker t k p r s
  end.

(** ** Events

    [EvServer] stands for what the rest of the server does to the paths and the open
    files; only [merge] writes the index. *)

Inductive Event :=
| EvEnqueue (id : Z)
| EvPause
| EvResume
| EvSchedule
| EvStop
| EvServer (pool : PathPool) (opened : gmap Z Session)
| EvTimer (t : nat)
| EvProgress (t : nat) (accepted : bool)
| EvWake (t : nat)
| EvBegin (t k : nat)
| EvCompiled (t k : nat)
| EvReply (t k : nat) (reply : Reply)
| EvJoined (t : nat)
| EvSaved (t : nat).

(** Worker task [k] of task [t]. *)
Definition worker_at (t k : nat) (s : Background) : option (Phase * Round * IndexTask) :=
  p ← tasks s !! t; r ← round_of p; w ← workers r !! k; Some (p, r, w).

Definition step (env : Env) (ev : Event) (s : Background) : Res E Background :=
  match ev with
  | EvEnqueue id => Ok (enqueue id s)
  | EvPause => Ok (pause_indexing s)
  | EvResume => Ok (resume_indexing s)
  | EvSchedule => Ok (schedule env s)
  | EvStop => Ok (stop s)
  | EvServer pool opened =>
    Ok (set_this (mkIndexer (project_index (this s)) (merged_indices (this s)) pool opened) s)
  | EvTimer t =>
    match tasks s !! t with Some AwaitTimer => timer_fired env t s | _ => Ok s end
  | EvProgress t accepted =>
    match tasks s !! t with
    | Some (AwaitProgress n) => enter_loop env t false (new_round n accepted) s
    | _ => Ok s
    end
  | EvWake t =>
    match tasks s !! t with
    | Some (AwaitResume true r) => enter_loop env t true r s
    | _ => Ok s
    end
  | EvBegin t k =>
    match worker_at t k s with
    | Some (p, r, mkIndexTask _ _ WorkerReady as w) =>
      let? w := begin_index_one env w s in Ok (continue_worker t k p r w s)
    | _ => Ok s
    end
  | EvCompiled t k =>
    match worker_at t k s with
    | Some (p, r, mkIndexTask _ _ WorkerCompiling as w) =>
      let? file_path := server_path (this s) (task_id w) in
      Ok (continue_worker t k p r (send_request env file_path w) s)
    | _ => Ok s
    end
  | EvReply t k reply =>
    match worker_at t k s with
    | Some (p, r, mkIndexTask _ _ WorkerSent) =>
      let? s := receive_reply env reply s in Ok (finish_worker t k p r s)
    | _ => Ok s
    end
  | EvJoined t =>
    match tasks s !! t with
    | Some (AwaitWorkers r) =>
      match workers r with
      | [] => Ok (set_flags false (indexing_scheduled s) (set_tasks (<[t := AwaitSave]> (tasks s)) s))
      | _ => Ok s
      end
    | _ => Ok s
    end
  | EvSaved t =>
    match tasks s !! t with Some AwaitSave => Ok (set_tasks (delete t (tasks s)) s) | _ => Ok s end
  end.

(** A run of the event loop. *)
Definition run (evs : list (Env * Event)) (s : Background) : Res E Background :=
  for_each evs (λ e, step e.1 e.2) s.
End coroutines.
