(* ===== verification/BackgroundTheorems.v ===== *)
(** * Theorems on background indexing

    For every sequence of events: at most one round of indexing is under way and the
    flags tell which; the files are taken in the order of the queue, each once; a
    paused round takes at most the one file it was woken for; a round that is not
    paused takes every file of the queue.  A file that is queued while a round waits
    for its last workers is not taken by that round, and [schedule] does nothing
    then, so that it stays in the queue. *)
From S2P Require Import IndexData PathPool MergedIndex MergedSimulation IndexLibraries MergedTheorems.
From S2P Require Import IncludeGraph TUIndex ProjectIndex Indexer BackgroundIndex.
Local Open Scope Z_scope.
Local Open Scope cpp_scope.

(** ** The tasks that are not saving *)

Global Instance WorkerPhase_eq_dec : EqDecision WorkerPhase.
Proof. solve_decision. Defined.
Global Instance IndexTask_eq_dec : EqDecision IndexTask.
Proof. solve_decision. Defined.
Global Instance Round_eq_dec : EqDecision Round.
Proof. solve_decision. Defined.
Global Instance Phase_eq_dec : EqDecision Phase.
Proof. solve_decision. Defined.

Definition current (l : list Phase) : list Phase := filter (λ p, p ≠ AwaitSave) l.

Lemma current_app a b : current (a ++ b) = current a ++ current b.
Proof. apply filter_app. Qed.

Lemma current_wake l : current (wake <$> l) = wake <$> current l.
Proof.
  induction l as [|p l IH]; [done|]. unfold current in *. cbn [fmap list_fmap].
  rewrite !filter_cons. destruct p; simpl; rewrite ?IH; done.
Qed.

(** The list around a task. *)
Lemma task_split (l : list Phase) t p :
  l !! t = Some p →
  ∃ a b, l = a ++ p :: b ∧ delete t l = a ++ b ∧ ∀ p', <[t := p']> l = a ++ p' :: b.
Proof.
  intros Hp. exists (take t l), (drop (S t) l). split_and!.
  - by rewrite take_drop_middle.
  - apply delete_take_drop.
  - intros p'. apply insert_take_drop. by eapply lookup_lt_Some.
Qed.

Lemma current_other l t :
  l !! t = Some AwaitSave → current (delete t l) = current l.
Proof.
  intros Hp. destruct (task_split l t _ Hp) as (a & b & -> & -> & _). by rewrite !current_app.
Qed.

Lemma current_one l t p q :
  current l = [q] → l !! t = Some p → p ≠ AwaitSave →
  p = q ∧ current (delete t l) = [] ∧ ∀ p', current (<[t := p']> l) = current [p'].
Proof.
  intros Hl Hp Hne. destruct (task_split l t _ Hp) as (a & b & -> & -> & Hins).
  assert (current (p :: b) = p :: current b) as Hpb by (unfold current; by rewrite filter_cons_True).
  rewrite current_app, Hpb in Hl.
  assert (current a = [] ∧ current b = [] ∧ p = q) as (Ha & Hb & ->).
  { destruct (current a) as [|? [|? ?]]; simplify_eq/=; done. }
  split_and!; [done|by rewrite current_app, Ha, Hb|].
  intros p'. rewrite Hins. change (a ++ p' :: b) with (a ++ [p'] ++ b).
  by rewrite !current_app, Ha, Hb, app_nil_r.
Qed.

Lemma list_elem_of_delete_ne (l : list Phase) t t' p : l !! t' = Some p → t ≠ t' → p ∈ delete t l.
Proof.
  intros Hp Hne. apply list_elem_of_lookup. destruct (decide (t < t')%nat).
  - exists (pred t'). rewrite list_lookup_delete_ge by lia. by rewrite Nat.succ_pred by lia.
  - exists t'. by rewrite list_lookup_delete_lt by lia.
Qed.

(** ** The invariant *)

(** The files taken in this round are the completed ones and those of the workers. *)
Definition round_ok (s : Background) (r : Round) : Prop :=
  ∃ start, (0 < total r)%nat ∧ (start + total r ≤ length (index_queue s))%nat ∧
    index_queue_pos s = (start + completed r + length (workers r))%nat ∧
    (length (workers r) ≤ dispatched r)%nat.

Definition phase_ok (s : Background) (p : Phase) : Prop :=
  match p with
  | AwaitTimer => indexing_scheduled s = true ∧ indexing_active s = false
  | AwaitProgress n => indexing_scheduled s = false ∧ indexing_active s = true ∧ (0 < n)%nat ∧
      (index_queue_pos s + n ≤ length (index_queue s))%nat
  | AwaitResume woken r => indexing_scheduled s = false ∧ indexing_active s = true ∧ round_ok s r ∧
      (woken = false → resume_event s = false)
  | AwaitWorkers r => indexing_scheduled s = false ∧ indexing_active s = true ∧ round_ok s r
  | AwaitSave => False
  end.

Lemma phase_flags s q :
  phase_ok s q →
  (indexing_scheduled s = true ↔ AwaitTimer = q) ∧
  (indexing_active s = true ↔ ∃ p, p = q ∧ p ≠ AwaitTimer ∧ p ≠ AwaitSave).
Proof.
  destruct q; cbn; [intros [-> ->]|intros (-> & -> & _)..|done]; split; split; intros H; try done;
    try (by destruct H as (? & -> & ? & ?)); by eexists.
Qed.

Definition tasks_ok (s : Background) : Prop :=
  if accepting s then
    match current (tasks s) with
    | [] => indexing_scheduled s = false ∧ indexing_active s = false
    | [p] => phase_ok s p
    | _ => False
    end
  else tasks s = [].

Record background_ok (s : Background) : Prop := {
  bg_pos : (index_queue_pos s ≤ length (index_queue s))%nat;
  bg_event : resume_event s = bool_decide (pause_depth s = 0%nat);
  bg_tasks : tasks_ok s;
}.

Lemma initial_ok i : background_ok (initial i).
Proof. by split. Qed.

(** A task that exists and is not saving is the only one. *)
Lemma tasks_ok_task s t p :
  tasks_ok s → tasks s !! t = Some p → p ≠ AwaitSave →
  accepting s = true ∧ phase_ok s p ∧ current (delete t (tasks s)) = [] ∧
  (∀ p', current (<[t := p']> (tasks s)) = current [p']).
Proof.
  unfold tasks_ok. intros Hok Hp Hne. destruct (accepting s); [|by rewrite Hok in Hp].
  destruct (current (tasks s)) as [|q [|? ?]] eqn:Hc; [|..|done].
  - exfalso. assert (p ∈ current (tasks s)) as Hin; [|rewrite Hc in Hin; set_solver].
    apply list_elem_of_filter. split; [done|]. by eapply list_elem_of_lookup_2.
  - destruct (current_one _ _ _ _ Hc Hp Hne) as (-> & ? & ?). done.
Qed.

(** Task [t] is the only one, whatever its phase. *)
Definition sole (t : nat) (l : list Phase) : Prop := ∀ p', current (<[t := p']> l) = current [p'].

Lemma tasks_ok_replace s t p' :
  accepting s = true → sole t (tasks s) → phase_ok s p' → tasks_ok (set_tasks (<[t := p']> (tasks s)) s).
Proof.
  intros Ha Hs Hp. unfold tasks_ok. cbn. rewrite Ha, Hs. unfold current.
  rewrite filter_cons_True; [done|]. by destruct p'.
Qed.

Section runs.
Context {E : Type} `{Roaring} `{IndexLibs} `{FlatBuffer FbMergedIndex} `{FlatBuffer FbTUIndex}.
Context (ord : Order).
Implicit Types s : Background.

(** ** The loop *)

(** What the loop leaves alone. *)
Definition same_but_pos (s s' : Background) : Prop := s' = set_pos (index_queue_pos s') s.

(** The files the round took between two states. *)
Lemma take_files_ok env rest waited r s s' p :
  take_files (E := E) ord env rest waited r s = Ok (s', p) →
  drop (index_queue_pos s) (index_queue s) = rest →
  (index_queue_pos s ≤ length (index_queue s))%nat →
  resume_event s = bool_decide (pause_depth s = 0%nat) → round_ok s r →
  same_but_pos s s' ∧ (index_queue_pos s ≤ index_queue_pos s' ≤ length (index_queue s))%nat ∧
  ((0 < pause_depth s)%nat →
   (index_queue_pos s' ≤ index_queue_pos s + if waited then 1 else 0)%nat) ∧
  ∃ r', round_ok s' r' ∧
    (p = AwaitWorkers r' ∧ index_queue_pos s' = length (index_queue s) ∨
     p = AwaitResume false r' ∧ (0 < pause_depth s)%nat).
Proof.
  revert waited r s. induction rest as [|id rest IH]; intros waited r s Hrun Hrest Hpos Hev Hr;
    cbn [take_files] in Hrun; apply (f_equal length) in Hrest as Hlen; rewrite length_drop in Hlen;
    cbn [length] in Hlen.
  { injection Hrun as <- <-. split_and!; [by destruct s|lia..|]. exists r. split; [done|]. left.
    split; [done|lia]. }
  destruct (negb waited && _ && _) eqn:Hguard.
  { injection Hrun as <- <-. split_and!; [by destruct s|lia..|]. exists r. split; [done|]. right.
    apply andb_prop in Hguard as [[_ Hd]%andb_prop _]. by apply Nat.ltb_lt in Hd. }
  assert ((0 < pause_depth s)%nat → waited = true) as Hw.
  { intros Hd. destruct waited; [done|]. cbn [negb andb] in Hguard.
    rewrite (proj2 (Nat.ltb_lt 0 _) Hd), Hev, bool_decide_eq_false_2 in Hguard by lia. done. }
  set (s1 := set_pos (S (index_queue_pos s)) s) in *.
  destruct (server_path (this s1) id) as [path| | |]; cbn [Res_bind] in Hrun; try done.
  destruct (skip_file ord env (this s1) id path) as [skip| | |]; cbn [Res_bind] in Hrun; try done.
  destruct (IH false (if skip then skipped r else spawned id r) s1 Hrun) as (Hs & Hp & Hd & Hr').
  - unfold s1. cbn [set_pos index_queue index_queue_pos]. rewrite <- Nat.add_1_r, <- drop_drop, Hrest.
    done.
  - unfold s1. cbn. lia.
  - done.
  - destruct Hr as (start & ? & ? & Hpos' & ?). exists start. unfold s1, skipped, spawned.
    destruct skip; cbn; rewrite ?length_app; cbn; split_and!; try lia.
  - split; [unfold same_but_pos in *; rewrite Hs; by destruct s|].
    unfold s1 in Hp, Hd, Hr'. cbn in Hp, Hd, Hr'. split_and!; [lia..| |done].
    intros Hdepth. rewrite (Hw Hdepth). specialize (Hd Hdepth). lia.
Qed.

(** ** Every event keeps the invariant *)

Lemma enter_loop_ok env t waited r s s' :
  (index_queue_pos s ≤ length (index_queue s))%nat →
  resume_event s = bool_decide (pause_depth s = 0%nat) →
  accepting s = true → sole t (tasks s) →
  indexing_scheduled s = false → indexing_active s = true → round_ok s r →
  enter_loop (E := E) ord env t waited r s = Ok s' → background_ok s'.
Proof.
  intros Hpos Hev Hacc Hsole Hsch Hact Hr Hrun. unfold enter_loop in Hrun.
  destruct (take_files _ _ _ _ _ _) as [[s1 p']| | |] eqn:Htake; cbn [Res_bind] in Hrun; try done.
  injection Hrun as <-. cbn [fst snd].
  destruct (take_files_ok _ _ _ _ _ _ _ Htake eq_refl Hpos Hev Hr) as (Hs & Hp & _ & r' & Hro & Hr').
  unfold same_but_pos in Hs. set (n := index_queue_pos s1) in *. clearbody n. subst s1.
  split; [cbn; lia|done|]. apply (tasks_ok_replace (set_pos n s)); [done..|].
  destruct Hr' as [(-> & _)|(-> & Hd)]; cbn; split_and!; try done.
  intros _. rewrite Hev. by apply bool_decide_eq_false_2; lia.
Qed.

Lemma modules_first_perm env pos q : modules_first env pos q ≡ₚ q.
Proof.
  unfold modules_first. rewrite <- (take_drop pos q) at 4. apply Permutation_app; [done|].
  generalize (drop pos q) as l. induction l as [|id l IH]; [done|].
  rewrite !filter_cons. destruct (in_module env id); simpl; [by rewrite IH|].
  by rewrite <- Permutation_middle, IH.
Qed.

Lemma modules_first_taken env pos q : take pos (modules_first env pos q) = take pos q.
Proof.
  unfold modules_first. destruct (decide (pos ≤ length q)%nat).
  - rewrite take_app_le by (rewrite length_take; lia). rewrite take_take. f_equal. lia.
  - rewrite drop_ge by lia. cbn. rewrite app_nil_r, take_take. f_equal. lia.
Qed.

Lemma timer_fired_ok env t s s' :
  background_ok s → tasks s !! t = Some AwaitTimer → timer_fired (E := E) ord env t s = Ok s' →
  background_ok s'.
Proof.
  intros [Hpos Hev Hok] Ht Hrun.
  destruct (tasks_ok_task _ _ _ Hok Ht) as (Hacc & [Hsch Hact] & Hdel & Hsole); [done|].
  unfold timer_fired in Hrun. cbn [set_flags index_queue index_queue_pos set_queue] in Hrun.
  destruct (Nat.leb_spec (length (index_queue s)) (index_queue_pos s)) as [Hle|Hlt].
  { injection Hrun as <-. split; [done..|]. unfold tasks_ok.
    cbn [set_tasks set_flags tasks accepting indexing_scheduled indexing_active].
    by rewrite Hacc, Hdel, Hact. }
  pose proof (Permutation_length (modules_first_perm env (index_queue_pos s) (index_queue s))) as Hlen.
  destruct (has_peer env).
  - injection Hrun as <-. split; [cbn; lia|done|].
    match goal with |- tasks_ok (set_tasks _ ?x) => apply (tasks_ok_replace x) end; [done..|].
    cbn. split_and!; try done; lia.
  - eapply enter_loop_ok; [| | | | | | |exact Hrun]; try done; [cbn; lia|].
    exists (index_queue_pos s). cbn. lia.
Qed.

(** A worker belongs to the only task. *)
Lemma worker_at_ok t k s p r w :
  background_ok s → worker_at t k s = Some (p, r, w) →
  accepting s = true ∧ sole t (tasks s) ∧ phase_ok s p ∧ round_of p = Some r ∧ round_ok s r ∧
  workers r !! k = Some w ∧ ∀ r' s', round_ok s' r' → indexing_scheduled s' = indexing_scheduled s →
    indexing_active s' = indexing_active s → resume_event s' = resume_event s →
    phase_ok s' (with_round r' p).
Proof.
  intros [Hpos Hev Hok] Hw. unfold worker_at in Hw.
  destruct (tasks s !! t) as [p0|] eqn:Ht; [|done]. cbn in Hw.
  destruct (round_of p0) as [r0|] eqn:Hr; [|done]. cbn in Hw.
  destruct (workers r0 !! k) as [w0|] eqn:Hk; [|done]. injection Hw as -> -> ->.
  destruct (tasks_ok_task _ _ _ Hok Ht) as (Hacc & Hp & _ & Hsole); [by destruct p|].
  assert (round_ok s r) as Hro by (destruct p; simplify_eq/=; naive_solver).
  split_and!; try done. intros r' s' Hr' Hs Ha He.
  destruct p; simplify_eq/=; rewrite ?Hs, ?Ha, ?He; naive_solver.
Qed.

Lemma continue_worker_ok t k p r w s :
  background_ok s → (∃ w0, worker_at t k s = Some (p, r, w0)) →
  background_ok (continue_worker t k p r w s).
Proof.
  intros Hbg [w0 Hw]. pose proof Hbg as [Hpos Hev _].
  destruct (worker_at_ok _ _ _ _ _ _ Hbg Hw) as (Hacc & Hsole & Hp & Hr & Hro & Hk & Hph).
  pose proof (lookup_lt_Some _ _ _ Hk) as Hlt.
  assert (∀ r', round_ok s r' → background_ok (set_tasks (<[t := with_round r' p]> (tasks s)) s)) as Hset.
  { intros r' Hr'. split; [done..|]. apply tasks_ok_replace; [done..|]. by apply Hph. }
  destruct Hro as (start & ? & ? & ? & ?). destruct w as [w|]; cbn [continue_worker].
  - apply Hset. exists start. cbn. rewrite length_insert. split_and!; try done.
  - set (r' := mkRound (total r) (dispatched r) (S (completed r)) (progress r) (delete k (workers r))).
    assert (background_ok (set_tasks (<[t := with_round r' p]> (tasks s)) s)) as Hok.
    { apply Hset. exists start. cbn. rewrite length_delete by done. split_and!; try done; lia. }
    unfold finish_worker. fold r'. cbn [progress r']. destruct (progress r); [|done].
    destruct Hok as [? ? Hok]. split; [done|done|exact Hok].
Qed.

(** A change that keeps the flags and the phases. *)
Lemma tasks_ok_map (f : Phase → Phase) s s' :
  accepting s' = accepting s → tasks s' = f <$> tasks s →
  current (f <$> tasks s) = f <$> current (tasks s) →
  indexing_scheduled s' = indexing_scheduled s → indexing_active s' = indexing_active s →
  (∀ p, phase_ok s p → phase_ok s' (f p)) → tasks_ok s → tasks_ok s'.
Proof.
  unfold tasks_ok. intros -> -> Hc -> -> Hf Hok. destruct (accepting s); [|by rewrite Hok].
  rewrite Hc. destruct (current (tasks s)) as [|p [|? ?]]; [done| |done]. by apply Hf.
Qed.

Lemma tasks_ok_same s s' :
  accepting s' = accepting s → tasks s' = tasks s →
  indexing_scheduled s' = indexing_scheduled s → indexing_active s' = indexing_active s →
  (∀ p, phase_ok s p → phase_ok s' p) → tasks_ok s → tasks_ok s'.
Proof.
  intros ? Ht ? ? ?. apply (tasks_ok_map id); rewrite ?list_fmap_id; done.
Qed.

(** A longer queue. *)
Lemma phase_ok_enqueue id s p : phase_ok s p → phase_ok (enqueue id s) p.
Proof.
  assert (∀ r, round_ok s r → round_ok (enqueue id s) r) as Hr.
  { intros r (start & ? & ? & ? & ?). exists start. cbn. rewrite length_app. cbn. lia. }
  destruct p as [|n|woken r|r|]; cbn [phase_ok enqueue set_queue index_queue index_queue_pos];
    [done| |intros (? & ? & ? & ?); split_and!; auto|intros (? & ? & ?); split_and!; auto|done].
  rewrite length_app. intros (? & ? & ? & ?). split_and!; [done..|lia].
Qed.

Lemma bg_enqueue_ok id s : background_ok s → background_ok (enqueue id s).
Proof.
  intros [Hpos Hev Hok]. split; [cbn; rewrite length_app; lia|done|].
  by apply (tasks_ok_same s); auto using phase_ok_enqueue.
Qed.

(** The event is reset, or stays as it is. *)
Lemma phase_ok_pause depth e s p :
  (resume_event s = false → e = false) → phase_ok s p → phase_ok (set_pause depth e s) p.
Proof. destruct p; naive_solver. Qed.

Lemma pause_ok s : background_ok s → background_ok (pause_indexing s).
Proof.
  intros [Hpos Hev Hok]. unfold pause_indexing.
  split; [done|cbn [set_pause resume_event pause_depth]|].
  - rewrite (bool_decide_eq_false_2 (S _ = 0%nat)) by lia.
    destruct (decide (S (pause_depth s) = 1%nat)); [done|]. rewrite Hev. by apply bool_decide_eq_false_2; lia.
  - apply (tasks_ok_same s); try done. intros p. apply phase_ok_pause. intros Hr.
    by destruct (decide (S (pause_depth s) = 1%nat)).
Qed.

Lemma bg_resume_ok s : background_ok s → background_ok (resume_indexing s).
Proof.
  intros [Hpos Hev Hok]. unfold resume_indexing.
  destruct (decide (pred (pause_depth s) = 0%nat)) as [Hd|Hd].
  - split; [done|cbn; by rewrite Hd|]. apply (tasks_ok_map wake s); try done.
    + apply current_wake.
    + intros []; naive_solver.
  - split; [done|cbn [set_pause resume_event pause_depth]|].
    + rewrite (bool_decide_eq_false_2 (pred _ = 0%nat)) by done. rewrite Hev.
      apply bool_decide_eq_false_2. by intros Hz; rewrite Hz in Hd.
    + apply (tasks_ok_same s); auto using phase_ok_pause.
Qed.

Lemma schedule_ok env s : background_ok s → background_ok (schedule env s).
Proof.
  intros [Hpos Hev Hok]. unfold schedule. destruct (_ || _ || _) eqn:Hg; [by split|].
  destruct (accepting s) eqn:Hacc; [|by split].
  apply orb_false_iff in Hg as [[_ Hact]%orb_false_iff Hsch]. split; [done..|].
  unfold tasks_ok in *. cbn [set_tasks set_flags tasks accepting]. rewrite Hacc in *.
  rewrite current_app. destruct (current (tasks s)) as [|p [|? ?]]; [done| |done].
  exfalso. destruct p; naive_solver congruence.
Qed.

Lemma joined_ok t r s :
  background_ok s → tasks s !! t = Some (AwaitWorkers r) →
  background_ok (set_flags false (indexing_scheduled s) (set_tasks (<[t := AwaitSave]> (tasks s)) s)).
Proof.
  intros [Hpos Hev Hok] Ht.
  destruct (tasks_ok_task _ _ _ Hok Ht) as (Hacc & (Hsch & _) & _ & Hsole); [done|].
  split; [done..|]. unfold tasks_ok.
  cbn [set_tasks set_flags tasks accepting indexing_scheduled indexing_active].
  rewrite Hacc, Hsole. done.
Qed.

Lemma saved_ok t s :
  background_ok s → tasks s !! t = Some AwaitSave → background_ok (set_tasks (delete t (tasks s)) s).
Proof.
  intros [Hpos Hev Hok] Ht. split; [done..|]. unfold tasks_ok in *.
  cbn [set_tasks tasks accepting]. destruct (accepting s); [|by rewrite Hok in Ht].
  rewrite current_other by done. destruct (current (tasks s)) as [|p [|? ?]]; done.
Qed.

Lemma receive_reply_frame env reply s s' :
  receive_reply (E := E) ord env reply s = Ok s' → ∃ i, s' = set_this i s.
Proof.
  intros Hrun. assert (∃ i, s = set_this i s) as Hself by (exists (this s); by destruct s).
  destruct reply as [|[] [|c data]]; cbn [receive_reply] in Hrun; try (by injection Hrun as <-).
  destruct (indexer_merge _ _ _ _); cbn [Res_bind] in Hrun; try done. injection Hrun as <-. by eexists.
Qed.

Lemma set_this_ok i s : background_ok s → background_ok (set_this i s).
Proof. intros [? ? ?]. by split. Qed.

Lemma step_ok env ev s s' :
  background_ok s → step (E := E) ord env ev s = Ok s' → background_ok s'.
Proof.
  intros Hok Hrun. destruct ev as [id| | | | |pool opened|t|t accepted|t|t k|t k|t k reply|t|t];
    cbn [step] in Hrun.
  1-6: injection Hrun as <-; eauto using bg_enqueue_ok, pause_ok, bg_resume_ok, schedule_ok, set_this_ok.
  - destruct Hok. by split.
  - destruct (tasks s !! t) as [[]|] eqn:Ht; try (by injection Hrun as <-). by eapply timer_fired_ok.
  - destruct (tasks s !! t) as [[]|] eqn:Ht; try (by injection Hrun as <-). pose proof Hok as [? ? Hts].
    destruct (tasks_ok_task _ _ _ Hts Ht) as (? & (? & ? & ? & ?) & _ & ?); [done|].
    eapply enter_loop_ok; [..|exact Hrun]; try done. exists (index_queue_pos s). cbn. lia.
  - destruct (tasks s !! t) as [[| |[] r| |]|] eqn:Ht; try (by injection Hrun as <-).
    pose proof Hok as [? ? Hts].
    destruct (tasks_ok_task _ _ _ Hts Ht) as (? & (? & ? & ? & ?) & _ & ?); [done|].
    by eapply enter_loop_ok; [..|exact Hrun].
  - destruct (worker_at t k s) as [[[p r] [id n []]]|] eqn:Hw; try (by injection Hrun as <-).
    destruct (begin_index_one _ _ _ _); cbn [Res_bind] in Hrun; try done. injection Hrun as <-.
    apply continue_worker_ok; eauto.
  - destruct (worker_at t k s) as [[[p r] [id n []]]|] eqn:Hw; try (by injection Hrun as <-).
    destruct (server_path _ _); cbn [Res_bind] in Hrun; try done. injection Hrun as <-.
    apply continue_worker_ok; eauto.
  - destruct (worker_at t k s) as [[[p r] [id n []]]|] eqn:Hw; try (by injection Hrun as <-).
    destruct (receive_reply _ _ _ _) as [s1| | |] eqn:Hrec; cbn [Res_bind] in Hrun; try done.
    injection Hrun as <-. destruct (receive_reply_frame _ _ _ _ Hrec) as [i ->].
    apply (continue_worker_ok t k p r None); [by apply set_this_ok|]. by eexists.
  - destruct (tasks s !! t) as [[]|] eqn:Ht; try (by injection Hrun as <-).
    destruct (workers r); injection Hrun as <-; [by eapply joined_ok|done].
  - destruct (tasks s !! t) as [[]|] eqn:Ht; injection Hrun as <-; try done. by apply saved_ok.
Qed.

Lemma run_ok evs s s' :
  background_ok s → run (E := E) ord evs s = Ok s' → background_ok s'.
Proof.
  revert s. induction evs as [|[env ev] evs IH]; intros s Hok Hrun; cbn [run for_each] in Hrun.
  { by injection Hrun as <-. }
  cbn [fst snd] in Hrun. destruct (step ord env ev s) as [s1| | |] eqn:Hs; cbn [Res_bind] in Hrun;
    try done. eapply IH; [|exact Hrun]. by eapply step_ok.
Qed.

(** ** The queue *)

Definition enqueued (ev : Event) : list Z := match ev with EvEnqueue id => [id] | _ => [] end.

(** The files taken stay as they are, and the queue only gains what is enqueued. *)
Definition extends (s s' : Background) (new : list Z) : Prop :=
  index_queue s' ≡ₚ index_queue s ++ new ∧ (index_queue_pos s ≤ index_queue_pos s')%nat ∧
  take (index_queue_pos s) (index_queue s') = take (index_queue_pos s) (index_queue s).

Lemma extends_same s s' :
  index_queue s' = index_queue s → index_queue_pos s' = index_queue_pos s → extends s s' [].
Proof. intros Hq Hp. unfold extends. rewrite Hq, Hp, app_nil_r. done. Qed.

Lemma log_extends_trans s1 s2 s3 a b : extends s1 s2 a → extends s2 s3 b → extends s1 s3 (a ++ b).
Proof.
  intros (Hp & Hle & Ht) (Hp' & Hle' & Ht'). split_and!; [|lia|].
  - by rewrite Hp', Hp, app_assoc.
  - rewrite <- Ht. replace (index_queue_pos s1) with (index_queue_pos s1 `min` index_queue_pos s2)%nat
      by lia. by rewrite <- !take_take, Ht'.
Qed.

Lemma enter_loop_extends env t waited r s s' :
  (index_queue_pos s ≤ length (index_queue s))%nat →
  resume_event s = bool_decide (pause_depth s = 0%nat) → round_ok s r →
  enter_loop (E := E) ord env t waited r s = Ok s' →
  extends s s' [] ∧ ((0 < pause_depth s)%nat →
    (index_queue_pos s' ≤ index_queue_pos s + if waited then 1 else 0)%nat).
Proof.
  intros Hpos Hev Hr Hrun. unfold enter_loop in Hrun.
  destruct (take_files _ _ _ _ _ _) as [[s1 p']| | |] eqn:Htake; cbn [Res_bind] in Hrun; try done.
  injection Hrun as <-. cbn [fst snd].
  destruct (take_files_ok _ _ _ _ _ _ _ Htake eq_refl Hpos Hev Hr) as (Hs & Hp & Hd & _).
  unfold same_but_pos in Hs. set (n := index_queue_pos s1) in *. clearbody n. subst s1.
  split; [|done]. unfold extends. cbn. rewrite app_nil_r. split_and!; [done|lia|done].
Qed.

(** The events that run the loop, and the one that adds to the queue. *)
Definition touches_queue (ev : Event) : Prop :=
  match ev with EvEnqueue _ | EvTimer _ | EvProgress _ _ | EvWake _ => True | _ => False end.

Global Instance touches_queue_dec ev : Decision (touches_queue ev).
Proof. destruct ev; cbn; apply _. Defined.

Lemma continue_worker_frame t k p r w s :
  index_queue (continue_worker t k p r w s) = index_queue s ∧
  index_queue_pos (continue_worker t k p r w s) = index_queue_pos s.
Proof. destruct w; [done|]. unfold continue_worker, finish_worker. by destruct (progress _). Qed.

Lemma step_frame env ev s s' :
  ¬ touches_queue ev → step (E := E) ord env ev s = Ok s' →
  index_queue s' = index_queue s ∧ index_queue_pos s' = index_queue_pos s.
Proof.
  intros Hev Hrun. destruct ev as [id| | | | |pool opened|t|t accepted|t|t k|t k|t k reply|t|t];
    try (by destruct Hev); cbn [step] in Hrun; try (by injection Hrun as <-).
  - injection Hrun as <-. unfold resume_indexing. by case_decide.
  - injection Hrun as <-. unfold schedule. destruct (_ || _ || _); [done|]. by destruct (accepting s).
  - destruct (worker_at t k s) as [[[p r] [id n []]]|]; try (by injection Hrun as <-).
    destruct (begin_index_one _ _ _ _); cbn [Res_bind] in Hrun; try done. injection Hrun as <-.
    apply continue_worker_frame.
  - destruct (worker_at t k s) as [[[p r] [id n []]]|]; try (by injection Hrun as <-).
    destruct (server_path _ _); cbn [Res_bind] in Hrun; try done. injection Hrun as <-.
    apply continue_worker_frame.
  - destruct (worker_at t k s) as [[[p r] [id n []]]|]; try (by injection Hrun as <-).
    destruct (receive_reply _ _ _ _) as [s1| | |] eqn:Hrec; cbn [Res_bind] in Hrun; try done.
    injection Hrun as <-. destruct (receive_reply_frame _ _ _ _ Hrec) as [i ->].
    apply (continue_worker_frame t k p r None (set_this i s)).
  - destruct (tasks s !! t) as [[]|]; try (by injection Hrun as <-).
    destruct (workers r); by injection Hrun as <-.
  - destruct (tasks s !! t) as [[]|]; by injection Hrun as <-.
Qed.

(** What the loop does to the queue, by the event that runs it. *)
Lemma loop_extends env ev s s' :
  background_ok s → touches_queue ev → enqueued ev = [] → step (E := E) ord env ev s = Ok s' →
  extends s s' [] ∧ ((0 < pause_depth s)%nat → (index_queue_pos s' ≤ index_queue_pos s)%nat ∨
     (index_queue_pos s' ≤ S (index_queue_pos s))%nat ∧
     ∃ t r, ev = EvWake t ∧ tasks s !! t = Some (AwaitResume true r)).
Proof.
  intros [Hpos Hev Hts] Htouch Hnew Hrun.
  assert (extends s s []) as Hself by (by apply extends_same).
  destruct ev as [id| | | | |pool opened|t|t accepted|t|t k|t k|t k reply|t|t]; try done;
    cbn [step] in Hrun; destruct (tasks s !! t) as [p|] eqn:Ht; try (injection Hrun as <-; eauto).
  - destruct p; try (injection Hrun as <-; eauto).
    unfold timer_fired in Hrun. cbn [set_flags index_queue index_queue_pos set_queue] in Hrun.
    destruct (Nat.leb_spec (length (index_queue s)) (index_queue_pos s)) as [Hle|Hlt];
      [injection Hrun as <-; split; [by apply extends_same|by left]|].
    pose proof (modules_first_perm env (index_queue_pos s) (index_queue s)) as Hperm.
    pose proof (Permutation_length Hperm) as Hlen.
    set (s1 := set_queue _ _) in Hrun.
    assert (extends s s1 []) as Hext.
    { unfold extends, s1. cbn. rewrite app_nil_r, modules_first_taken. done. }
    destruct (has_peer env); [injection Hrun as <-; split; [exact Hext|by left]|].
    apply enter_loop_extends in Hrun as [Hext' Hd]; [|cbn; lia|done|exists (index_queue_pos s); cbn; lia].
    split; [by apply (log_extends_trans s s1 s' [] [])|]. intros Hdepth. left.
    specialize (Hd Hdepth). cbn in Hd. lia.
  - destruct p; try (injection Hrun as <-; eauto).
    destruct (tasks_ok_task _ _ _ Hts Ht) as (_ & (_ & _ & ? & ?) & _); [done|].
    apply enter_loop_extends in Hrun as [Hext' Hd]; [|done|done|exists (index_queue_pos s); cbn; lia].
    split; [done|]. intros Hdepth. left. specialize (Hd Hdepth). lia.
  - destruct p as [| |[] r| |]; try (injection Hrun as <-; eauto).
    destruct (tasks_ok_task _ _ _ Hts Ht) as (_ & (_ & _ & ? & ?) & _); [done|].
    apply enter_loop_extends in Hrun as [Hext' Hd]; [|done..].
    split; [done|]. intros Hdepth. right. specialize (Hd Hdepth). split; [lia|by exists t, r].
Qed.

Lemma step_extends env ev s s' :
  background_ok s → step (E := E) ord env ev s = Ok s' → extends s s' (enqueued ev).
Proof.
  intros Hok Hrun. destruct (decide (touches_queue ev)) as [Ht|Ht].
  - destruct (decide (enqueued ev = [])) as [Hnew|Hnew].
    + rewrite Hnew. by eapply loop_extends.
    + destruct ev; try done. cbn [step] in Hrun. injection Hrun as <-. unfold extends. cbn.
      by rewrite take_app_le by apply Hok.
  - destruct (step_frame _ _ _ _ Ht Hrun). replace (enqueued ev) with (@nil Z); [by apply extends_same|].
    by destruct ev; try destruct (Ht I).
Qed.

Lemma run_extends evs s s' :
  background_ok s → run (E := E) ord evs s = Ok s' →
  extends s s' (concat ((λ e, enqueued e.2) <$> evs)).
Proof.
  revert s. induction evs as [|[env ev] evs IH]; intros s Hok Hrun; cbn [run for_each] in Hrun.
  { injection Hrun as <-. by apply extends_same. }
  cbn [fst snd] in Hrun. destruct (step ord env ev s) as [s1| | |] eqn:Hs; cbn [Res_bind] in Hrun;
    try done. cbn [fmap list_fmap concat snd].
  eapply log_extends_trans; [by eapply step_extends|]. apply IH; [by eapply step_ok|done].
Qed.

(** ** A whole round *)

(** Every question about the files of [l] has an answer. *)
Definition answered (env : Env) (i : Indexer) (l : list Z) (skip : Z → bool) : Prop :=
  ∀ id, id ∈ l → ∃ path, server_path (E := E) i id = Ok path ∧
    skip_file (E := E) ord env i id path = Ok (skip id).

Lemma take_all env skip rest waited r s :
  answered env (this s) rest skip → pause_depth s = 0%nat →
  ∃ r' , take_files (E := E) ord env rest waited r s =
      Ok (set_pos (index_queue_pos s + length rest) s, AwaitWorkers r') ∧
    task_id <$> workers r' = (task_id <$> workers r) ++ filter (λ id, skip id = false) rest ∧
    total r' = total r.
Proof.
  revert waited r s. induction rest as [|id rest IH]; intros waited r s Hans Hd; cbn [take_files].
  { exists r. rewrite Nat.add_0_r, app_nil_r. by destruct s. }
  rewrite Hd. rewrite andb_false_r. cbn [andb].
  destruct (Hans id) as (path & Hpath & Hskip); [left|]. cbn [set_pos this].
  rewrite Hpath. cbn [Res_bind]. rewrite Hskip. cbn [Res_bind].
  destruct (IH false (if skip id then skipped r else spawned id r)
    (set_pos (S (index_queue_pos s)) s)) as (r' & -> & Hw & Ht); [|done|].
  { intros id' Hin. apply Hans. by right. }
  exists r'. cbn [set_pos index_queue_pos length]. rewrite Nat.add_succ_r, Hw, Ht. cbn [Nat.add].
  rewrite filter_cons. destruct (skip id) eqn:Hs; cbn.
  - done.
  - split_and!; [done| |done]. by rewrite fmap_app, <- app_assoc.
Qed.

(** Rounds: in every state that a sequence of events can reach, and as long as
    indexing was not stopped, at most one task is not yet saving, and the two flags
    tell its phase: [indexing_scheduled] that it waits for its timer,
    [indexing_active] that it works on a round; without such a task both are false.
    The event is set exactly when nobody pauses the indexing, and a task that waits
    for it without having been woken only does so while somebody pauses it: no
    wakeup is lost. *)
Theorem one_round_at_a_time evs i s :
  run (E := E) ord evs (initial i) = Ok s →
  (index_queue_pos s ≤ length (index_queue s))%nat ∧
  (resume_event s = true ↔ pause_depth s = 0%nat) ∧
  (∀ t t' p p', tasks s !! t = Some p → tasks s !! t' = Some p' →
     p ≠ AwaitSave → p' ≠ AwaitSave → t = t') ∧
  (accepting s = true →
   (indexing_scheduled s = true ↔ AwaitTimer ∈ tasks s) ∧
   (indexing_active s = true ↔ ∃ p, p ∈ tasks s ∧ p ≠ AwaitTimer ∧ p ≠ AwaitSave) ∧
   ∀ r, AwaitResume false r ∈ tasks s → (0 < pause_depth s)%nat).
Proof.
  intros Hrun. pose proof (run_ok _ _ _ (initial_ok i) Hrun) as [Hpos Hev Hts].
  split_and!; [done|by rewrite Hev, bool_decide_eq_true| |].
  - intros t t' p p' Ht Ht' Hp Hp'.
    destruct (tasks_ok_task _ _ _ Hts Ht Hp) as (_ & _ & Hdel & _).
    destruct (decide (t = t')) as [|Hne]; [done|].
    assert (p' ∈ current (delete t (tasks s))) as Hin; [|rewrite Hdel in Hin; set_solver].
    apply list_elem_of_filter. split; [done|]. by apply (list_elem_of_delete_ne _ _ t').
  - intros Hacc. unfold tasks_ok in Hts. rewrite Hacc in Hts.
    assert (∀ p, p ≠ AwaitSave → p ∈ tasks s ↔ p ∈ current (tasks s)) as Hcur.
    { intros p Hp. unfold current. rewrite list_elem_of_filter. tauto. }
    assert ((∃ p, p ∈ tasks s ∧ p ≠ AwaitTimer ∧ p ≠ AwaitSave) ↔
            ∃ p, p ∈ current (tasks s) ∧ p ≠ AwaitTimer ∧ p ≠ AwaitSave) as ->.
    { split; intros (p & Hin & ? & ?); exists p; (split; [by apply Hcur|done]). }
    rewrite (Hcur AwaitTimer) by done.
    assert (∀ r, AwaitResume false r ∈ tasks s → AwaitResume false r ∈ current (tasks s)) as Hres.
    { intros r. by apply Hcur. }
    destruct (current (tasks s)) as [|q [|? ?]]; [|..|done].
    + destruct Hts as [-> ->]. set_solver.
    + destruct (phase_flags s q Hts) as [Hsch Hact]. rewrite list_elem_of_singleton.
      setoid_rewrite list_elem_of_singleton. split_and!; [done|done|].
      intros r <-%Hres%list_elem_of_singleton. destruct Hts as (_ & _ & _ & He).
      specialize (He eq_refl). rewrite Hev, bool_decide_eq_false in He. lia.
Qed.

(** The queue: in every sequence of events the queue holds exactly the files that
    were enqueued, each as often as it was; files are taken in the order of the queue
    and a file once taken keeps its place, whatever happens later, so that none is
    taken twice.  While somebody pauses the indexing no file is taken, but for the
    one file of a task that had been woken before the pause. *)
Theorem files_taken_in_order evs evs' i s s' :
  run (E := E) ord evs (initial i) = Ok s → run (E := E) ord evs' s = Ok s' →
  index_queue s' ≡ₚ concat ((λ e, enqueued e.2) <$> (evs ++ evs')) ∧
  take (index_queue_pos s) (index_queue s) `prefix_of` take (index_queue_pos s') (index_queue s') ∧
  (∀ env ev, evs' = [(env, ev)] → (0 < pause_depth s)%nat →
     index_queue_pos s' = index_queue_pos s ∨
     index_queue_pos s' = S (index_queue_pos s) ∧
     ∃ t r, ev = EvWake t ∧ tasks s !! t = Some (AwaitResume true r)).
Proof.
  intros Hrun Hrun'. pose proof (run_ok _ _ _ (initial_ok i) Hrun) as Hok.
  destruct (run_extends _ _ _ (initial_ok i) Hrun) as (Hq & _ & _).
  destruct (run_extends _ _ _ Hok Hrun') as (Hq' & Hle & Ht). split_and!.
  - by rewrite Hq', Hq, fmap_app, concat_app.
  - rewrite <- Ht. exists (drop (index_queue_pos s) (take (index_queue_pos s') (index_queue s'))).
    rewrite <- (take_drop (index_queue_pos s) (take _ _)) at 1. rewrite take_take. do 2 f_equal. lia.
  - intros env ev -> Hd. cbn [run for_each fst snd] in Hrun'.
    destruct (step ord env ev s) as [s1| | |] eqn:Hs; cbn [Res_bind] in Hrun'; try done.
    injection Hrun' as ->. destruct (decide (touches_queue ev)) as [Htq|Htq].
    + destruct (decide (enqueued ev = [])) as [Hnew|Hnew].
      * destruct (loop_extends _ _ _ _ Hok Htq Hnew Hs) as [_ [?|[? ?]]]; [done|left; lia|].
        destruct (decide (index_queue_pos s' = index_queue_pos s)); [by left|right]. split; [lia|done].
      * destruct ev; try done. cbn [step] in Hs. injection Hs as <-. by left.
    + left. by eapply step_frame.
Qed.

Lemma enter_loop_all env skip t r s :
  answered env (this s) (drop (index_queue_pos s) (index_queue s)) skip → pause_depth s = 0%nat →
  (index_queue_pos s ≤ length (index_queue s))%nat → (t < length (tasks s))%nat →
  ∃ s' r', enter_loop (E := E) ord env t false r s = Ok s' ∧ index_queue s' = index_queue s ∧
    index_queue_pos s' = length (index_queue s) ∧ tasks s' !! t = Some (AwaitWorkers r') ∧
    task_id <$> workers r' =
      (task_id <$> workers r) ++ filter (λ id, skip id = false) (drop (index_queue_pos s) (index_queue s)).
Proof.
  intros Hans Hd Hpos Ht. unfold enter_loop.
  destruct (take_all env skip _ false r s Hans Hd) as (r' & -> & Hw & _). cbn [Res_bind fst snd].
  eexists _, r'. split; [done|]. cbn [set_tasks set_pos index_queue index_queue_pos tasks].
  split_and!; [done| |by apply list_lookup_insert_eq|done]. rewrite length_drop. lia.
Qed.

(** After [schedule] there is a task that waits for the timer. *)
Lemma one_timer env s :
  background_ok s → accepting s = true → indexing_active s = false → enable_indexing env = true →
  ∃ t, tasks (schedule env s) !! t = Some AwaitTimer.
Proof.
  intros [_ _ Hts] Hacc Hact Hen. unfold schedule. rewrite Hen, Hact. cbn [negb orb].
  unfold tasks_ok in Hts. rewrite Hacc in Hts. destruct (indexing_scheduled s) eqn:Hsch.
  - destruct (current (tasks s)) as [|q [|? ?]] eqn:Hc; [|..|done]; [by destruct Hts|].
    assert (q ∈ current (tasks s)) as Hin by (rewrite Hc; left).
    apply list_elem_of_filter in Hin as [_ [t Ht]%list_elem_of_lookup]. exists t.
    destruct q; cbn in Hts; naive_solver congruence.
  - rewrite Hacc. exists (length (tasks s)). cbn. by rewrite lookup_app_r, Nat.sub_diag by done.
Qed.

Lemma schedule_frame env s :
  index_queue (schedule env s) = index_queue s ∧ index_queue_pos (schedule env s) = index_queue_pos s ∧
  this (schedule env s) = this s ∧ pause_depth (schedule env s) = pause_depth s.
Proof. unfold schedule. destruct (_ || _ || _); [done|]. by destruct (accepting s). Qed.

Lemma answered_perm env i l l' skip : l ≡ₚ l' → answered env i l skip → answered env i l' skip.
Proof. intros Hl Hans id Hid. apply Hans. by rewrite Hl. Qed.

(** A round with the code's own verdicts on the files. *)
Lemma scheduled_round evs i s env skip accepted :
  run (E := E) ord evs (initial i) = Ok s → accepting s = true → indexing_active s = false →
  enable_indexing env = true → pause_depth s = 0%nat →
  (index_queue_pos s < length (index_queue s))%nat →
  answered env (this s) (drop (index_queue_pos s) (index_queue s)) skip →
  ∃ t s' r,
    run (E := E) ord ((env, EvSchedule) :: (env, EvTimer t) ::
      if has_peer env then [(env, EvProgress t accepted)] else []) s = Ok s' ∧
    index_queue_pos s' = length (index_queue s') ∧ tasks s' !! t = Some (AwaitWorkers r) ∧
    task_id <$> workers r = filter (λ id, skip id = false)
      (drop (index_queue_pos s) (modules_first env (index_queue_pos s) (index_queue s))).
Proof.
  intros Hrun Hacc Hact Hen Hd Hlt Hans.
  pose proof (run_ok _ _ _ (initial_ok i) Hrun) as Hok.
  destruct (one_timer env s Hok Hacc Hact Hen) as [t Ht].
  destruct (schedule_frame env s) as (Hq & Hp & Hi & Hd').
  set (s1 := schedule env s) in *. set (q := modules_first env (index_queue_pos s) (index_queue s)).
  pose proof (modules_first_perm env (index_queue_pos s) (index_queue s)) as Hperm. fold q in Hperm.
  pose proof (Permutation_length Hperm) as Hlen.
  assert (answered env (this s1) (drop (index_queue_pos s) q) skip) as Hans'.
  { rewrite Hi. eapply answered_perm; [|exact Hans].
    apply (Permutation_app_inv_l (take (index_queue_pos s) (index_queue s))).
    rewrite take_drop. rewrite <- (modules_first_taken env). fold q. by rewrite take_drop. }
  assert (∀ n accepted s3, index_queue s3 = q → index_queue_pos s3 = index_queue_pos s →
    this s3 = this s1 → pause_depth s3 = pause_depth s1 → (t < length (tasks s3))%nat →
    ∃ s' r, enter_loop (E := E) ord env t false (new_round n accepted) s3 = Ok s' ∧
      index_queue_pos s' = length (index_queue s') ∧ tasks s' !! t = Some (AwaitWorkers r) ∧
      task_id <$> workers r = filter (λ id, skip id = false) (drop (index_queue_pos s) q)) as Hloop.
  { intros n b s3 Hq3 Hp3 Hi3 Hd3 Ht3.
    destruct (enter_loop_all env skip t (new_round n b) s3) as (s' & r' & Hl & Hq' & Hp' & Ht' & Hw);
      rewrite ?Hq3, ?Hp3, ?Hi3, ?Hd3, ?Hd'; try done; [lia|].
    exists s', r'. rewrite Hp', Hq', Hq3. rewrite Hw, Hq3, Hp3. done. }
  apply lookup_lt_Some in Ht as Hlt1. exists t.
  unfold run. cbn [for_each fst snd step]. fold s1. cbn [Res_bind]. rewrite Ht.
  unfold timer_fired. cbn [set_flags set_queue index_queue index_queue_pos indexing_scheduled].
  rewrite (proj2 (Nat.leb_gt _ _)) by (rewrite Hq, Hp; lia). rewrite Hq, Hp. fold q.
  destruct (has_peer env); cbn [Res_bind for_each fst snd step].
  - cbn [set_tasks tasks]. rewrite list_lookup_insert_eq by done.
    edestruct (Hloop (length q - index_queue_pos s)%nat accepted) as (s' & r & Hl & ?);
      [..|exists s', r; rewrite Hl; by cbn [Res_bind]]; cbn; try done. by rewrite length_insert.
  - edestruct (Hloop (length q - index_queue_pos s)%nat false) as (s' & r & Hl & ?);
      [..|exists s', r; rewrite Hl; by cbn [Res_bind]]; by cbn.
Qed.

(** ** Files queued at the end of a round *)

(** No task will look at the queue again. *)
Definition quiet (p : Phase) : Prop :=
  match p with AwaitWorkers _ | AwaitSave => True | _ => False end.

Lemma quiet_continue t k p r w s :
  Forall quiet (tasks s) → quiet p → Forall quiet (tasks (continue_worker t k p r w s)).
Proof.
  intros Hq Hp. assert (∀ r', quiet (with_round r' p)) as Hr by (by destruct p).
  destruct w; cbn; [by apply Forall_insert|]. unfold finish_worker.
  destruct (progress _); by apply Forall_insert.
Qed.

Lemma quiet_worker t k s p r w : Forall quiet (tasks s) → worker_at t k s = Some (p, r, w) → quiet p.
Proof.
  intros Hq Hw. unfold worker_at in Hw. destruct (tasks s !! t) as [p0|] eqn:Ht; [|done].
  cbn in Hw. destruct (round_of p0) as [r0|]; [|done]. cbn in Hw. destruct (workers r0 !! k); [|done].
  injection Hw as -> -> ->. by eapply Forall_lookup_1.
Qed.

Lemma quiet_step env ev s s' :
  Forall quiet (tasks s) → ev ≠ EvSchedule → step (E := E) ord env ev s = Ok s' →
  Forall quiet (tasks s') ∧ index_queue_pos s' = index_queue_pos s.
Proof.
  intros Hq Hev Hrun.
  assert (∀ t p, tasks s !! t = Some p → quiet p) as Hat by (intros; by eapply Forall_lookup_1).
  split; [|destruct (decide (touches_queue ev)) as [Ht|Ht]; [|by eapply step_frame]].
  - destruct ev as [id| | | | |pool opened|t|t accepted|t|t k|t k|t k reply|t|t]; try done;
      cbn [step] in Hrun; try (by injection Hrun as <-).
    + injection Hrun as <-. unfold resume_indexing. case_decide; [|done]. cbn.
      apply Forall_fmap. eapply Forall_impl; [exact Hq|]. by intros [].
    + destruct (tasks s !! t) as [[]|] eqn:Ht; try (by injection Hrun as <-). destruct (Hat _ _ Ht).
    + destruct (tasks s !! t) as [[]|] eqn:Ht; try (by injection Hrun as <-). destruct (Hat _ _ Ht).
    + destruct (tasks s !! t) as [[]|] eqn:Ht; try (by injection Hrun as <-). destruct (Hat _ _ Ht).
    + destruct (worker_at t k s) as [[[p r] [id n []]]|] eqn:Hw; try (by injection Hrun as <-).
      destruct (begin_index_one _ _ _ _); cbn [Res_bind] in Hrun; try done. injection Hrun as <-.
      apply quiet_continue; [done|by eapply quiet_worker].
    + destruct (worker_at t k s) as [[[p r] [id n []]]|] eqn:Hw; try (by injection Hrun as <-).
      destruct (server_path _ _); cbn [Res_bind] in Hrun; try done. injection Hrun as <-.
      apply quiet_continue; [done|by eapply quiet_worker].
    + destruct (worker_at t k s) as [[[p r] [id n []]]|] eqn:Hw; try (by injection Hrun as <-).
      destruct (receive_reply _ _ _ _) as [s1| | |] eqn:Hrec; cbn [Res_bind] in Hrun; try done.
      injection Hrun as <-. destruct (receive_reply_frame _ _ _ _ Hrec) as [i ->].
      apply (quiet_continue t k p r None (set_this i s)); [done|by eapply quiet_worker].
    + destruct (tasks s !! t) as [[]|]; try (by injection Hrun as <-).
      destruct (workers r); injection Hrun as <-; [|done]. by apply Forall_insert.
    + destruct (tasks s !! t) as [[]|]; injection Hrun as <-; try done. by apply Forall_delete.
  - destruct ev as [id| | | | |pool opened|t|t accepted|t|t k|t k|t k reply|t|t]; try done;
      cbn [step] in Hrun; [by injection Hrun as <-|..];
      destruct (tasks s !! t) as [[| |[] ?| |]|] eqn:Htt; try (by injection Hrun as <-);
      by destruct (Hat _ _ Htt).
Qed.

Lemma quiet_run evs s s' :
  Forall quiet (tasks s) → Forall (λ e, e.2 ≠ EvSchedule) evs → run (E := E) ord evs s = Ok s' →
  index_queue_pos s' = index_queue_pos s.
Proof.
  revert s. induction evs as [|[env ev] evs IH]; intros s Hq Hevs Hrun; cbn [run for_each] in Hrun.
  { by injection Hrun as <-. }
  apply Forall_cons in Hevs as [Hev Hevs]. cbn [fst snd] in *.
  destruct (step ord env ev s) as [s1| | |] eqn:Hs; cbn [Res_bind] in Hrun; try done.
  destruct (quiet_step _ _ _ _ Hq Hev Hs) as [Hq1 Hp1]. rewrite <- Hp1. by eapply IH.
Qed.

(** A file that is enqueued while a round waits for its last workers stays in the
    queue: [schedule] does nothing then, the round does not look at the queue again,
    and the indexer does not become idle, until something else calls [schedule]. *)
Theorem queued_file_is_stranded evs evs' i s s' t r env id :
  run (E := E) ord evs (initial i) = Ok s → tasks s !! t = Some (AwaitWorkers r) →
  Forall (λ e, e.2 ≠ EvSchedule) evs' →
  run (E := E) ord evs' (schedule env (enqueue id s)) = Ok s' →
  index_queue_pos s' = index_queue_pos s ∧ (index_queue_pos s' < length (index_queue s'))%nat ∧
  is_idle s' = false.
Proof.
  intros Hrun Ht Hevs Hrun'. pose proof (run_ok _ _ _ (initial_ok i) Hrun) as Hok.
  pose proof Hok as [Hpos _ Hts].
  destruct (tasks_ok_task _ _ _ Hts Ht) as (_ & (_ & Hact & _) & Hdel & _); [done|].
  assert (schedule env (enqueue id s) = enqueue id s) as Hsame.
  { unfold schedule. cbn. by rewrite Hact, orb_true_r. }
  rewrite Hsame in Hrun'.
  assert (Forall quiet (tasks (enqueue id s))) as Hq.
  { cbn. rewrite (delete_Permutation _ _ _ Ht). constructor; [done|]. apply Forall_forall.
    intros p Hp. destruct (decide (p = AwaitSave)) as [->|Hne]; [done|].
    assert (p ∈ current (delete t (tasks s))) as Hin by (by apply list_elem_of_filter).
    rewrite Hdel in Hin. by apply elem_of_nil in Hin. }
  pose proof (quiet_run _ _ _ Hq Hevs Hrun') as Hp. cbn in Hp.
  destruct (run_extends _ _ _ (bg_enqueue_ok id s Hok) Hrun') as (Hl & _ & _).
  apply Permutation_length in Hl. cbn in Hl. rewrite !length_app in Hl. cbn [length] in Hl.
  split_and!; [done|lia|]. unfold is_idle. rewrite (proj2 (Nat.leb_gt _ _)) by lia. apply andb_false_r.
Qed.
End runs.

(** ** What a round has to do

    Said without the code's own tests: which files are due for indexing, and the list
    of those, in their order. *)

(** [k] holds the elements of [l] that satisfy [P], in their order. *)
Inductive selects {A} (P : A → Prop) : list A → list A → Prop :=
| selects_nil : selects P [] []
| selects_take x l k : P x → selects P l k → selects P (x :: l) (x :: k)
| selects_drop x l k : ¬ P x → selects P l k → selects P (x :: l) k.

Lemma selects_filter {A} (P : A → Prop) (f : A → bool) l :
  (∀ x, x ∈ l → f x = true ↔ P x) → selects P l (filter (λ x, f x = true) l).
Proof.
  induction l as [|x l IH]; intros Hf; [constructor|]. rewrite filter_cons.
  assert (selects P l (filter (λ x, f x = true) l)) as Hl by (apply IH; intros y Hy; apply Hf; by right).
  destruct (Hf x) as [H1 H2]; [left|]. destruct (f x).
  - rewrite decide_True by done. constructor; auto.
  - rewrite decide_False by done. constructor; [|done]. intros HP. by apply H2 in HP.
Qed.

Section rounds.
Context {E : Type} `{Roaring} `{!RoaringLaws} `{IndexLibs} `{FlatBuffer FbMergedIndex}
  `{!FlatBufferLaws FbMergedIndex} `{FlatBuffer FbTUIndex}.
Context (ord : Order).
Implicit Types (env : Env) (i : Indexer).

(** The shard of a file, in memory or as the image it was loaded from. *)
Definition shard_at i (path : bytes) (shard : MergedIndex) : Prop :=
  ∃ p, project_find (path_pool (project_index i)) path = Some p ∧ merged_indices i !! p = Some shard.

(** The index of a file is up to date: it was compiled, and every file that compilation
    included exists and has not been changed since. *)
Definition up_to_date env i (path : bytes) : Prop :=
  ∃ shard ix q c, shard_at i path shard ∧ denotes shard ix ∧ compilation_contexts ix = {[q := c]} ∧
    ∀ loc, loc ∈ include_locations c → 0 ≤ location_path_id loc ∧
      ∃ file time, paths (path_pool (project_index i)) !! Z.to_nat (location_path_id loc) = Some file ∧
        modified env file = Some time ∧ u64 time ≤ build_at c.

(** A file that is queued has a path, and its shard, if any, is a well-formed index
    with at most one compilation, whose include locations are paths of the project. *)
Definition answerable i (id : Z) : Prop :=
  ∃ path, resolve (path_pool_of i) id = Some path ∧
    ∀ shard, shard_at i path shard → ∃ ix, denotes shard ix ∧
      (compilation_contexts ix = ∅ ∨ ∃ q c, compilation_contexts ix = {[q := c]} ∧
         ∀ loc, loc ∈ include_locations c →
           0 ≤ location_path_id loc < Z.of_nat (length (paths (path_pool (project_index i))))).

(** Nobody has the file open, and its index is not up to date. *)
Definition due env i (id : Z) : Prop :=
  sessions i !! id = None ∧ ∃ path, resolve (path_pool_of i) id = Some path ∧ ¬ up_to_date env i path.

Lemma up_to_date_answer env i path :
  up_to_date env i path → indexer_need_update (E := E) ord i (modified env) path = Ok false.
Proof.
  intros (shard & ix & q & c & (p & Hp & Hs) & Hd & Hc & Hlocs). unfold indexer_need_update.
  rewrite Hp, Hs.
  destruct (need_update_correct (E := E) shard ix (modified env) (paths (path_pool (project_index i))) ord q c Hd)
    as [_ Hone].
  destruct (Hone Hc) as (b & -> & Hb).
  { intros loc (Hge & f & t & Hf & _)%Hlocs. apply lookup_lt_Some in Hf. lia. }
  destruct b; [|done]. exfalso. destruct Hb as [(loc & Hin & f' & Hf' & Hst) _]; [done|].
  destruct (Hlocs loc Hin) as (_ & f & t & Hf & Hm & Hle). simplify_eq. rewrite Hm in Hst. lia.
Qed.

Lemma answerable_answer env i id :
  answerable i id → ∃ path b, resolve (path_pool_of i) id = Some path ∧
    indexer_need_update (E := E) ord i (modified env) path = Ok b ∧ (b = true ↔ ¬ up_to_date env i path).
Proof.
  intros (path & Hpath & Hsh). exists path.
  assert (∃ b, indexer_need_update (E := E) ord i (modified env) path = Ok b ∧
    (b = false → up_to_date env i path)) as (b & Hb & Hup).
  { unfold indexer_need_update. destruct (project_find _ path) as [p|] eqn:Ep; [|by exists true].
    destruct (merged_indices i !! p) as [shard|] eqn:Es; [|by exists true].
    destruct (Hsh shard) as (ix & Hd & Hc); [by exists p|].
    destruct Hc as [Hc|(q & c & Hc & Hlocs)].
    - destruct (need_update_correct (E := E) shard ix (modified env) (paths (path_pool (project_index i))) ord 0
        (mkCompilationContext 0 0 0 []) Hd) as [Hnone _]. exists true. by rewrite Hnone.
    - destruct (need_update_correct (E := E) shard ix (modified env) (paths (path_pool (project_index i))) ord q c Hd)
        as [_ Hone].
      destruct (Hone Hc Hlocs) as (b & -> & Hb). exists b. split; [done|]. intros ->.
      exists shard, ix, q, c. split_and!; [by exists p|done|done|]. intros loc Hin.
      destruct (Hlocs loc Hin) as [Hge Hlt]. split; [done|].
      destruct (lookup_lt_is_Some_2 (paths (path_pool (project_index i))) (Z.to_nat (location_path_id loc)))
        as [f Hf]; [lia|]. exists f.
      assert (¬ stale (modified env) (paths (path_pool (project_index i))) (build_at c) loc) as Hns.
      { intros Hst. assert (false = true) by (apply Hb; by exists loc). done. }
      destruct (modified env f) as [t|] eqn:Em.
      + exists t. split_and!; [done|done|]. apply Z.nlt_ge. intros Hl. apply Hns. exists f.
        split; [done|]. by rewrite Em.
      + destruct Hns. exists f. split; [done|]. by rewrite Em. }
  exists b. split_and!; [done|done|]. split.
  - intros -> Hu. apply up_to_date_answer in Hu. congruence.
  - intros Hn. destruct b; [done|]. destruct Hn. by apply Hup.
Qed.

(** The code's verdict on a file. *)
Definition verdict env i (id : Z) : bool :=
  match server_path (E := E) i id with
  | Ok path => match skip_file (E := E) ord env i id path with Ok b => b | _ => false end
  | _ => false
  end.

Lemma verdict_due env i l :
  (∀ id, id ∈ l → answerable i id) →
  answered (E := E) ord env i l (verdict env i) ∧ ∀ id, id ∈ l → verdict env i id = false ↔ due env i id.
Proof.
  intros Hl. split.
  - intros id Hid. destruct (answerable_answer env i id (Hl id Hid)) as (path & b & Hp & Hb & _).
    exists path. unfold verdict, server_path. rewrite Hp. split; [done|]. cbn [read]. unfold skip_file.
    case_decide; [done|]. by rewrite Hb.
  - intros id Hid. destruct (answerable_answer env i id (Hl id Hid)) as (path & b & Hp & Hb & Hd).
    unfold verdict, server_path, due. rewrite Hp. cbn [read]. unfold skip_file.
    destruct (sessions i !! id) as [x|] eqn:Es.
    + rewrite decide_True by done. split; [done|]. by intros [? _].
    + rewrite decide_False by (intros []; done). rewrite Hb. cbn [Res_bind]. split.
      * intros Hn%negb_false_iff. split; [done|]. exists path. split; [done|]. by apply Hd.
      * intros [_ (path' & Hp' & Hu)]. simplify_eq. apply Hd in Hu as ->. done.
Qed.

End rounds.

(** ** Examples *)

Definition two_files : Indexer :=
  mkIndexer empty_project ∅ (intern (intern empty_pool (str "a.cpp")).1 (str "b.cpp")).1 ∅.

Definition env_example : Env :=
  mkEnv true true false (λ _, false) (λ _, true) (λ _, None) (λ _, None).

Definition run_example (evs : list Event) (s : Background) : Res unit Background :=
  run bucket_order ((λ ev, (env_example, ev)) <$> evs) s.

Definition state_of (r : Res unit Background) : Background :=
  match r with Ok s => s | _ => initial two_files end.

(** A round that is paused, resumed and paused again before it goes on. *)
Definition paused_events : list Event :=
  [EvEnqueue 0; EvSchedule; EvTimer 0; EvPause; EvEnqueue 1; EvProgress 0 true; EvResume; EvPause].

Definition paused_state : Background := state_of (run_example paused_events (initial two_files)).

Lemma paused_run : run_example paused_events (initial two_files) = Ok paused_state.
Proof. vm_compute. reflexivity. Qed.

Lemma one_round_at_a_time_witness :
  indexing_active paused_state = true ∧
  (resume_event paused_state = true ↔ pause_depth paused_state = 0%nat).
Proof.
  split; [vm_compute; reflexivity|].
  apply (one_round_at_a_time bucket_order _ _ _ paused_run).
Defined.

Definition woken_state : Background := state_of (run_example [EvWake 0] paused_state).

Lemma files_taken_in_order_witness :
  pause_depth paused_state = 1%nat ∧
  (index_queue_pos woken_state = index_queue_pos paused_state ∨
   index_queue_pos woken_state = S (index_queue_pos paused_state) ∧
   ∃ t r, EvWake 0 = EvWake t ∧ tasks paused_state !! t = Some (AwaitResume true r)).
Proof.
  split; [vm_compute; reflexivity|].
  assert (run_example [EvWake 0] paused_state = Ok woken_state) as Hwake
    by (vm_compute; reflexivity).
  apply (files_taken_in_order bucket_order _ _ _ _ _ paused_run Hwake) with (env := env_example);
    [reflexivity|vm_compute; lia].
Defined.

(** Five files: one never indexed, one that is open, one of a module, one whose index is
    up to date and one whose included header has changed since. *)
Definition five_paths : PathPool :=
  foldl (λ pool p, (intern pool (str p)).1) empty_pool ["a.cpp"; "b.cpp"; "m.cppm"; "c.cpp"; "d.cpp"; "h.h"; "k.h"]%string.

Definition compiled_shard (id header : Z) : MergedIndex :=
  mkMergedIndex None (Some (mkImpl text_example [0] ∅
    {[id := mkCompilationContext 0 0 5 [mkIncludeLocation header 1 0]]} ∅ 1 [1] ∅ ∅ ∅ ∅ [])).

Definition five_files : Indexer :=
  mkIndexer (mkProjectIndex five_paths ∅ ∅) (<[3 := compiled_shard 3 5]> {[4 := compiled_shard 4 6]}) five_paths
    {[1 := mkSession [] [] false None None]}.

(** File 2 belongs to a module; k.h was changed at time 9, h.h at time 4. *)
Definition env_five : Env :=
  mkEnv true true false (λ id, bool_decide (id = 2)) (λ _, true)
    (λ p, if decide (p = str "k.h") then Some 9 else Some 4) (λ _, None).

Definition run_five (evs : list Event) (s : Background) : Res unit Background :=
  run bucket_order ((λ ev, (env_five, ev)) <$> evs) s.

Definition queued_state : Background := set_queue [0; 1; 2; 3; 4] (initial five_files).

Lemma compiled_answerable id header :
  0 ≤ header < 7 → ∃ ix, denotes (compiled_shard id header) ix ∧
    (compilation_contexts ix = ∅ ∨ ∃ q c, compilation_contexts ix = {[q := c]} ∧
       ∀ loc, loc ∈ include_locations c → 0 ≤ location_path_id loc < 7).
Proof.
  intros Hh. eexists. split; [apply in_memory|]. right. eexists _, _. split; [reflexivity|].
  intros loc ->%list_elem_of_singleton. exact Hh.
Qed.

Lemma five_answerable id : id ∈ [0; 1; 2; 3; 4] → answerable five_files id.
Proof.
  intros Hid. assert (∀ shard path, shard_at five_files path shard →
    shard = compiled_shard 3 5 ∨ shard = compiled_shard 4 6) as Hsh.
  { intros shard path (p & _ & Hs). cbn [five_files merged_indices] in Hs. apply lookup_insert_Some in Hs as [[_ <-]|[_ Hs]]; [by left|].
    apply lookup_singleton_Some in Hs as [_ <-]. by right. }
  assert (∃ path, resolve five_paths id = Some path) as [path Hpath].
  { repeat (apply elem_of_cons in Hid as [->|Hid]; [eexists; vm_compute; reflexivity|]). by apply elem_of_nil in Hid. }
  exists path. split; [exact Hpath|]. intros shard [-> | ->]%Hsh; by apply compiled_answerable.
Qed.


(** Of the five files the workers get the module, the new file and the stale one. *)
Lemma five_files_taken :
  match run_five [EvSchedule; EvTimer 0; EvProgress 0 true] queued_state with
  | Ok s => match tasks s !! 0%nat with Some (AwaitWorkers r) => task_id <$> workers r | _ => [] end
  | _ => []
  end = [2; 0; 4].
Proof. vm_compute. reflexivity. Qed.

(** The total is fixed before the client has answered: a file enqueued meanwhile makes
    the progress exceed one hundred percent. *)
Lemma progress_exceeds_total :
  reports (state_of (run_example
    [EvEnqueue 0; EvSchedule; EvTimer 0; EvEnqueue 1; EvProgress 0 true; EvBegin 0 0; EvBegin 0 1;
     EvReply 0 0 IpcError; EvReply 0 0 IpcError] (initial two_files))) = [100; 200].
Proof. vm_compute. reflexivity. Qed.

(** A file that is saved while the last worker runs: after the round there is no task
    and the file is still queued. *)
Lemma stranded_example :
  let s := state_of (run_example
    [EvEnqueue 0; EvSchedule; EvTimer 0; EvProgress 0 true; EvBegin 0 0; EvEnqueue 1; EvSchedule;
     EvReply 0 0 IpcError; EvJoined 0; EvSaved 0] (initial two_files)) in
  tasks s = [] ∧ pending_files s = 1%nat ∧ is_idle s = false.
Proof. vm_compute. done. Qed.
