(* ===== verification/IndexStore.v ===== *)
(** * Saving and loading the index (src/server/compiler/indexer.cpp: [save], [load])

    [save] serialises the project index and every changed shard to temporary files
    and then commits them to the "index" namespace of the blob store, the project
    first; [load] reads them back and removes the blobs nothing refers to.  The
    operations run in the monad of the store, so that every error of the file system
    is considered. *)
From stdpp Require Import pretty.
From S2P Require Import Prelude CacheStore IndexData PathPool MergedIndex IncludeGraph TUIndex ProjectIndex Indexer.
Local Open Scope Z_scope.
Local Open Scope cpp_scope.

(** What [co_await kota::queue(f)] did: [f] ran and its result arrived, it ran but the
    wait was cancelled, or it was never run. *)
Inductive QueueResult := Ran | RanCancelled | NotRun.

(** The warnings of [save] that name a blob. *)
Inductive SaveWarning := NotWritten (key : bytes) | NotCommitted (key : bytes).

Definition index_ns : bytes := str "index".
Definition project_key : bytes := str "project".

Section index_store.
Context {W : Type} `{Platform W} `{Roaring} `{FlatBuffer FbMergedIndex} `{FlatBuffer FbProjectIndex}.
Context (ndebug : bool) (ord : Order).

(** The result of an operation as a value. *)
Definition attempt {A} (m : M W A) : M W (errc + A) := λ s,
  match m s with
  | (Ok a, s') => (Ok (inr a), s')
  | (Err e, s') => (Ok (inl e), s')
  | (Fault, s') => (Fault, s')
  | (Stuck, s') => (Stuck, s')
  end.

(** Whether the awaited operation returned a value. *)
Definition queue {A} (q : QueueResult) (m : M W A) : M W bool :=
  match q with
  | Ran => let! r := attempt m in ret (match r with inr _ => true | inl _ => false end)
  | RanCancelled => do! attempt m in ret false
  | NotRun => ret false
  end.

(** [serialize_blob]: the stream cannot be opened or a write fails, or the temporary
    file holds the data. *)
Definition serialize_blob (key data : bytes) : M W (option PendingEntry) :=
  let! pending := begin_store ndebug index_ns key in
  let! r := fs_write (p_tmp_path pending) data in
  match r with
  | Some _ => do! abort pending in ret None
  | None => ret (Some pending)
  end.

(** Phase 1: the changed shards, and the failures that are logged. *)
Fixpoint serialize_shards (l : list (Z * MergedIndex)) : M W (list PendingEntry * list SaveWarning) :=
  match l with
  | [] => ret ([], [])
  | (path_id, shard) :: l =>
    if need_rewrite shard then
      let! pending := serialize_blob (decimal path_id) (serialize ord shard) in
      let! rest := serialize_shards l in
      ret match pending with
          | Some pending => (pending :: rest.1, rest.2)
          | None => (rest.1, NotWritten (decimal path_id) :: rest.2)
          end
    else serialize_shards l
  end.

(** The commits of the shards, [i] counts the awaited operations. *)
Fixpoint commit_shards (queued : nat → QueueResult) (i : nat) (l : list PendingEntry) :
    M W (list SaveWarning) :=
  match l with
  | [] => ret []
  | pending :: l =>
    let! committed := queue (queued i) (commit pending) in
    let! rest := commit_shards queued (S i) l in
    ret (if committed : bool then rest else NotCommitted (p_key pending) :: rest)
  end.

(** Phase 2: the project first; without it the shards are dropped. *)
Definition publish_snapshot (queued : nat → QueueResult) (project_pending : PendingEntry)
    (shards : list PendingEntry) : M W (list SaveWarning) :=
  let! committed := queue (queued 0%nat) (commit project_pending) in
  if committed : bool then commit_shards queued 1 shards
  else do! each shards abort in ret [NotCommitted project_key].

Definition save (queued : nat → QueueResult) (has_store : bool) (this : Indexer) :
    M W (list SaveWarning) :=
  if negb has_store then ret []
  else
    let! project_pending :=
      serialize_blob project_key (project_serialize ord (project_index this)) in
    match project_pending with
    | None => ret [NotWritten project_key]
    | Some project_pending =>
      let! shards := serialize_shards (entries ord (merged_indices this)) in
      let! failed := publish_snapshot queued project_pending shards.1 in
      ret (shards.2 ++ failed)
    end.

(** ** Loading *)

Definition file_of {A} (r : A + bytes) : option bytes := match r with inr c => Some c | inl _ => None end.

(** The shard of a key, or the key as an orphan. *)
Definition load_key (has_project : bool) (key : bytes) (st : Indexer * list bytes) :
    M W (Indexer * list bytes) :=
  if decide (key = project_key) then ret st
  else
    match get_as_integer key with
    | Some path_id =>
      if has_project then
        let! shard_path := CacheStore.lookup index_ns key in
        match shard_path with
        | None => ret st
        | Some p => let! c := fs_read p in ret (set_shard path_id (load (file_of c)) st.1, st.2)
        end
      else ret (st.1, st.2 ++ [key])
    | None => ret (st.1, st.2 ++ [key])
    end.

Fixpoint load_keys (has_project : bool) (l : list bytes) (st : Indexer * list bytes) :
    M W (Indexer * list bytes) :=
  match l with
  | [] => ret st
  | key :: l => let! st := load_key has_project key st in load_keys has_project l st
  end.

Definition load_shards (has_project : bool) (this : Indexer) : M W Indexer :=
  let! keys := snapshot_keys index_ns in
  let! st := load_keys has_project keys (this, []) in
  do! each st.2 (invalidate index_ns) in
  ret st.1.

(** A file that cannot be parsed is undefined behaviour: it is not verified. *)
Definition parse_project (data : bytes) : M W ProjectIndex := λ s,
  match project_from (E := errc) data with
  | Ok p => (Ok p, s)
  | Err e => (Err e, s)
  | Fault => (Fault, s)
  | Stuck => (Stuck, s)
  end.

Definition load_index (has_store : bool) (this : Indexer) : M W Indexer :=
  if negb has_store then ret this
  else
    let! project_path := CacheStore.lookup index_ns project_key in
    match project_path with
    | None => load_shards false this
    | Some p =>
      let! buf := fs_read p in
      match buf with
      | inl _ => ret this
      | inr c =>
        let! project := parse_project c in
        load_shards true (set_project project this)
      end
    end.
End index_store.
