(* ===== verification/IndexStoreTheorems.v ===== *)
(** * Theorems on saving and loading the index

    On a file system that behaves as documented and whose store nobody else writes:
    a save publishes blobs of one snapshot, and no shard unless the project of the
    snapshot is published; what a load returns is read off the published blobs, so
    that an index that was saved without warnings is loaded back. *)
From stdpp Require Import pretty.
From S2P Require Import Prelude CacheStore CacheInvariant CachePlatform CacheTheorems CacheDisk CacheFrame IndexData PathPool MergedIndex IncludeGraph TUIndex ProjectIndex IndexLibraries Indexer IndexStore.
Local Open Scope Z_scope.
Local Open Scope cpp_scope.

#[local] Arguments str : simpl never.

Lemma index_ns_good : good_name index_ns.
Proof. split; [done|]. vm_compute. set_solver. Qed.

Lemma project_key_good : good_name project_key.
Proof. split; [done|]. vm_compute. set_solver. Qed.

Section save.
Context {W : Type} `{PlatformLaws W} `{Roaring} `{FlatBuffer FbMergedIndex} `{FlatBuffer FbProjectIndex}.
Context (ndebug : bool) (ord : Order).
Context (n0 : Namespace) (st0 : State).
Context (Hl : layout st0) (Hns : ns_layout st0 index_ns n0).
Context (Hpolicy : ns_policy (config n0) = Persistent).

#[local] Notation registered := (registered index_ns n0 st0).
#[local] Notation shelved := (shelved n0).
#[local] Notation staged := (staged index_ns n0 st0).
#[local] Notation tmp_file := (tmp_file n0 st0).

(** ** Phase 1 *)

(** Between [x] and [x'] only temporary files from number [next_tmp_id x] on changed. *)
Record staging (x x' : Sys W) : Prop := {
  sg_registered : registered x → registered x';
  sg_next : next_tmp_id (store x) ≤ next_tmp_id (store x');
  sg_blobs : ∀ k c, good_name (k ++ ns_extension (config n0)) → shelved k c x' ↔ shelved k c x;
  sg_staged : ∀ p i d, i < next_tmp_id (store x) → staged x p i d → staged x' p i d;
}.

Lemma staging_refl x : staging x x.
Proof. by split. Qed.

Lemma staging_trans x y z : staging x y → staging y z → staging x z.
Proof.
  intros [? ? Hb Hs] [? ? Hb' Hs']. split; [auto|lia| |].
  - intros k c Hk. by rewrite Hb', Hb.
  - intros p i d Hi ?. apply Hs'; [lia|]. by apply Hs.
Qed.

(** A change at the temporary file with the next number. *)
Lemma staging_write x st' w' :
  0 ≤ next_tmp_id (store x) →
  st' = set_next_tmp_id (next_tmp_id (store x) + 1) (store x) →
  (∀ q, q ≠ tmp_file (next_tmp_id (store x)) → node_at w' q = node_at (world x) q) →
  staging x (mkSys st' w').
Proof.
  intros Hnext -> Hw. destruct x as [st w]. cbn [store world] in *.
  set (i := next_tmp_id st) in *.
  assert (is_tmp st0 (tmp_file i)) as Htmp by (by exists (tmp_name n0 i); split; [apply (tmp_name_good index_ns n0 st0)|]).
  assert (∀ k, good_name (k ++ ns_extension (config n0)) → blob_path n0 k ≠ tmp_file i) as Hne.
  { intros k Hk. by eapply (blob_not_tmp index_ns n0 st0). }
  split; cbn [store world set_next_tmp_id next_tmp_id].
  - intros [HD (Hb & Ht & Hp) Hn]. split; [|done|done].
    apply (D_same_namespaces st); try done. apply (D_frame st w); [done|].
    intros q Hq. apply Hw. cbn [store] in *. apply (tmp_not_blob st0); [done|done|].
    by apply (blob_place_same st).
  - lia.
  - intros k c Hk. unfold CacheFrame.shelved. cbn [world]. by rewrite Hw by (by apply Hne).
  - intros p j d Hj (? & Hj0 & ? & ? & Hd). split_and!; try done. cbn [world]. rewrite Hw; [done|].
    intros Heq%(tmp_name_inj index_ns n0 st0); try done. lia.
Qed.

Lemma begin_store_run key x :
  registered x →
  ∃ n, config n = config n0 ∧ begin_store ndebug index_ns key x =
    (Ok (mkPendingEntry index_ns key (tmp_file (next_tmp_id (store x)))),
     mkSys (set_next_tmp_id (u64 (next_tmp_id (store x) + 1)) (store x)) (world x)).
Proof.
  intros [_ (_ & Ht & _) (n & Hn & Hcfg & _)]. exists n. split; [done|].
  unfold begin_store, find_namespace, bind, get, ret, cpp_assert, CacheStore.modify. cbn [fst snd].
  rewrite Hn. rewrite bool_decide_eq_true_2 by (by eexists). cbn [orb]. unfold ret.
  unfold CacheFrame.tmp_file, tmp_name, join. by rewrite Ht, Hcfg.
Qed.

(** [serialize_blob] always returns; an entry it returns has its data staged. *)
Lemma serialize_blob_ok key data x :
  registered x → good_name key → 0 ≤ next_tmp_id (store x) → next_tmp_id (store x) + 1 < two64 →
  ∃ r x', serialize_blob ndebug key data x = (Ok r, x') ∧ staging x x' ∧
    next_tmp_id (store x') = next_tmp_id (store x) + 1 ∧
    ∀ p, r = Some p → p_key p = key ∧ staged x' p (next_tmp_id (store x)) data.
Proof.
  intros Hreg Hkey Hnext Hlt. destruct (begin_store_run key x Hreg) as (n & _ & Hbegin).
  unfold serialize_blob, bind at 1. rewrite Hbegin. rewrite u64_small by lia.
  set (i := next_tmp_id (store x)) in *. set (st' := set_next_tmp_id (i + 1) (store x)).
  unfold bind, fs_write, call. cbn [p_tmp_path world store].
  destruct (write_law (tmp_file i) data (world x)) as [Hw Hdata].
  destruct (os_write (tmp_file i) data (world x)) as [[e|] w'] eqn:Hwr; cbn [fst snd] in *.
  - unfold abort. cbn [p_tmp_path].
    assert (∀ w'', (∀ q, q ≠ tmp_file i → node_at w'' q = node_at w' q) → staging x (mkSys st' w'')) as Hst.
    { intros w'' Hw''. apply (staging_write x); [done|done|]. intros q Hq. rewrite Hw'' by done. by apply Hw. }
    case_decide; cbn.
    + exists None, (mkSys st' w'). split_and!; [done|by apply Hst|done|done].
    + pose proof (λ q, remove_other (tmp_file i) q w') as Hrm.
      unfold bind, call. cbn [world store]. destruct (os_remove (tmp_file i) w') as [r w'']. cbn.
      exists None, (mkSys st' w''). split_and!; [done|by apply Hst|done|done].
  - exists (Some (mkPendingEntry index_ns key (tmp_file i))), (mkSys st' w'). split_and!; [done| |done|].
    + by apply (staging_write x).
    + intros p [= <-]. split; [done|]. split_and!; try done. by apply Hdata.
Qed.

(** Blobs that wait to be committed, with numbers from [lo] on and data allowed by
    [snap]. *)
Definition all_staged (x : Sys W) (lo : Z) (snap : bytes → bytes → Prop) (ps : list PendingEntry) : Prop :=
  Forall (λ p, ∃ i d, lo ≤ i < next_tmp_id (store x) ∧ staged x p i d ∧ snap (p_key p) d) ps ∧
  NoDup (p_tmp_path <$> ps).

Lemma all_staged_cons x lo snap p i d ps :
  0 ≤ lo → lo ≤ i < next_tmp_id (store x) → staged x p i d → snap (p_key p) d →
  all_staged x (i + 1) snap ps → all_staged x lo snap (p :: ps).
Proof.
  intros Hlo Hi Hp Hsnap [Hall Hnd]. split.
  - constructor; [by exists i, d|]. eapply Forall_impl; [exact Hall|].
    intros q (j & d' & ? & ? & ?). exists j, d'. split_and!; try done; lia.
  - rewrite fmap_cons. apply NoDup_cons. split; [|done].
    intros (q & Heq & Hq)%list_elem_of_fmap. rewrite Forall_forall in Hall.
    destruct (Hall q Hq) as (j & d' & Hj & (_ & _ & _ & Hqt & _) & _). destruct Hp as (_ & _ & _ & Hpt & _).
    rewrite Hpt, Hqt in Heq. apply (tmp_name_inj index_ns n0 st0) in Heq; try done; lia.
Qed.

(** The data of a shard. *)
Definition shard_blob (l : list (Z * MergedIndex)) (k d : bytes) : Prop :=
  ∃ id shard, (id, shard) ∈ l ∧ need_rewrite shard = true ∧ k = decimal id ∧ d = serialize ord shard.

Lemma serialize_shards_ok l x :
  registered x → Forall (λ e, 0 ≤ e.1) l → 0 ≤ next_tmp_id (store x) →
  next_tmp_id (store x) + Z.of_nat (length l) < two64 →
  ∃ ps warnings x', serialize_shards ndebug ord l x = (Ok (ps, warnings), x') ∧ staging x x' ∧
    all_staged x' (next_tmp_id (store x)) (shard_blob l) ps ∧
    p_key <$> ps `sublist_of` (λ e, decimal e.1) <$> l ∧
    (warnings = [] → ∀ k d, shard_blob l k d → ∃ p i, p ∈ ps ∧ p_key p = k ∧ staged x' p i d).
Proof.
  revert x. induction l as [|[id shard] l IH]; intros x Hreg Hids Hnext Hlt; cbn [serialize_shards].
  { exists [], [], x. split_and!; [done|apply staging_refl|split; constructor|constructor|].
    intros _ k d (? & ? & Hin & _). by apply elem_of_nil in Hin. }
  apply Forall_cons in Hids as [Hid Hids]. cbn [length fst] in *.
  assert (∀ k d, shard_blob l k d → shard_blob ((id, shard) :: l) k d) as Hmono.
  { intros k d (id' & s' & ? & ?). exists id', s'. split; [by right|done]. }
  destruct (need_rewrite shard) eqn:Hrw.
  2:{ destruct (IH x) as (ps & ws & x' & -> & Hst & [Hall Hnd] & Hsub & Hcov); try done; [lia|].
      exists ps, ws, x'. split_and!; try done; [| |].
      2:{ by apply sublist_cons. }
      - split; [|done]. eapply Forall_impl; [exact Hall|]. intros q (i & d & ? & ? & ?). exists i, d. auto.
      - intros Hw k d (id' & s' & [[= -> ->]|Hin]%elem_of_cons & Hr & ?); [congruence|].
        apply Hcov; [done|]. by exists id', s'. }
  destruct (serialize_blob_ok (decimal id) (serialize ord shard) x) as (r & x1 & Hrun & Hst1 & Hn1 & Hr);
    [done|by apply good_decimal|done|lia|].
  destruct (IH x1) as (ps & ws & x' & Hrun' & Hst2 & [Hall Hnd] & Hsub & Hcov);
    [by apply Hst1|done|lia|lia|].
  unfold bind at 1. rewrite Hrun. unfold bind at 1. rewrite Hrun'. cbn [fst snd].
  rewrite Hn1 in *.
  assert (all_staged x' (next_tmp_id (store x) + 1) (shard_blob ((id, shard) :: l)) ps) as Hall'.
  { split; [|done]. eapply Forall_impl; [exact Hall|]. intros q (i & d & ? & ? & ?). exists i, d. auto. }
  destruct r as [p|].
  - destruct (Hr p eq_refl) as [Hk Hp]. apply (sg_staged _ _ Hst2) in Hp; [|lia].
    exists (p :: ps), ws, x'. split_and!; [done|by eapply staging_trans| | |].
    + eapply all_staged_cons; [done| |exact Hp| |done].
      * pose proof (sg_next _ _ Hst2). lia.
      * exists id, shard. rewrite Hk. split_and!; [left|done..].
    + rewrite !fmap_cons, Hk. by apply sublist_skip.
    + intros Hw k d (id' & s' & [[= -> ->]|Hin]%elem_of_cons & Hr' & -> & ->).
      * exists p, (next_tmp_id (store x)). split; [left|done].
      * destruct (Hcov Hw (decimal id') (serialize ord s')) as (q & i & ? & ? & ?); [by exists id', s'|].
        exists q, i. split; [by right|done].
  - exists ps, (NotWritten (decimal id) :: ws), x'. split_and!; [done|by eapply staging_trans| |by apply sublist_cons|done].
    destruct Hall' as [Hall' ?]. split; [|done]. eapply Forall_impl; [exact Hall'|].
    intros q (i & d & ? & ? & ?). exists i, d. split_and!; try done; lia.
Qed.

(** ** Phase 2 *)

Definition key_ok (k : bytes) : Prop := good_name (k ++ ns_extension (config n0)).

(** What awaiting the commit of [p] with data [d] may change. *)
Record one_change (p : PendingEntry) (i : Z) (d : bytes) (x x' : Sys W) : Prop := {
  oc_new : ∀ k c, key_ok k → shelved k c x' → shelved k c x ∨ k = p_key p ∧ c = d;
  oc_others : ∀ k c, key_ok k → k ≠ p_key p → shelved k c x → shelved k c x';
  oc_staged : ∀ q j d', j ≠ i → staged x q j d' → staged x' q j d';
}.

Lemma queue_effect q p i d x :
  registered x → staged x p i d →
  one_change p i d x (queue q (commit p) x).2 ∧
  match (queue q (commit p) x).1 with
  | Ok b => registered (queue q (commit p) x).2 ∧ (b = true → shelved (p_key p) d (queue q (commit p) x).2)
  | Fault => max_i64 ≤ last_stamp (store (queue q (commit p) x).2)
  | _ => False
  end.
Proof.
  intros Hreg Hst. destruct (commit_effect index_ns n0 st0 Hl Hns Hpolicy x p i d Hreg Hst)
    as (Hnew & Hothers & Hstaged & Hres).
  assert (one_change p i d x (commit p x).2) as Hone.
  { split; [done|done|]. intros r j d' Hne Hr. apply Hstaged; [apply Hr|done|done]. }
  assert (one_change p i d x x) as Hsame by (split; auto). pose proof (clocked_commit p x) as Hclock.
  destruct q; cbn [queue]; [| |done]; unfold attempt, bind, ret;
    destruct (commit p x) as [[path|e| |] x'] eqn:Hrun; cbn [fst snd] in *; naive_solver.
Qed.

Definition waiting (x : Sys W) (snap : bytes → bytes → Prop) (ps : list PendingEntry) : Prop :=
  Forall (λ p, ∃ i d, staged x p i d ∧ snap (p_key p) d) ps ∧ NoDup (p_tmp_path <$> ps).

Lemma waiting_step p i d x x' snap ps :
  staged x p i d → one_change p i d x x' → waiting x snap (p :: ps) → waiting x' snap ps.
Proof.
  intros Hp Hone [[_ Hall]%Forall_cons Hnd]. rewrite fmap_cons in Hnd. apply NoDup_cons in Hnd as [Hnin Hnd].
  split; [|done]. rewrite Forall_forall in Hall |- *. intros q Hq.
  destruct (Hall q Hq) as (j & d' & Hq' & Hs). exists j, d'. split; [|done].
  eapply oc_staged; [done| |done]. intros ->. apply Hnin, list_elem_of_fmap. exists q. split; [|done].
  destruct Hp as (_ & _ & _ & -> & _), Hq' as (_ & _ & _ & -> & _). done.
Qed.

(** Blobs of [keys] may have been replaced by data that [snap] allows. *)
Record shelf_change (snap : bytes → bytes → Prop) (keys : list bytes) (x x' : Sys W) : Prop := {
  sc_new : ∀ k c, key_ok k → shelved k c x' → shelved k c x ∨ snap k c ∧ k ∈ keys;
  sc_others : ∀ k c, key_ok k → k ∉ keys → shelved k c x → shelved k c x';
}.

Lemma shelf_change_refl snap keys x : shelf_change snap keys x x.
Proof. split; auto. Qed.

Lemma shelf_change_trans snap keys x y z :
  shelf_change snap keys x y → shelf_change snap keys y z → shelf_change snap keys x z.
Proof.
  intros [Hn Ho] [Hn' Ho']. split; [|auto]. intros k c Hk Hc.
  destruct (Hn' k c Hk Hc) as [Hc'|?]; [by apply Hn|by right].
Qed.

Lemma shelf_change_mono (snap snap' : bytes → bytes → Prop) keys keys' x x' :
  (∀ k c, k ∈ keys → snap k c → snap' k c) → keys ⊆ keys' → shelf_change snap keys x x' →
  shelf_change snap' keys' x x'.
Proof.
  intros Hs Hk [Hn Ho]. split.
  - intros k c Hok Hc. destruct (Hn k c Hok Hc) as [?|[? ?]]; [by left|right]. auto.
  - intros k c Hok Hin. apply Ho; [done|]. auto.
Qed.

Lemma one_change_shelf p i d snap keys x x' :
  one_change p i d x x' → snap (p_key p) d → p_key p ∈ keys → shelf_change snap keys x x'.
Proof.
  intros [Hn Ho _] Hs Hk. split.
  - intros k c Hok Hc. destruct (Hn k c Hok Hc) as [?|[-> ->]]; auto.
  - intros k c Hok Hin. apply Ho; [done|]. by intros ->.
Qed.

Lemma staged_same x p i j d d' : staged x p i d → staged x p j d' → d' = d ∧ j = i.
Proof.
  intros (_ & Hi & _ & Hpt & Hd) (_ & Hj & _ & Hqt & Hd'). rewrite Hpt in Hqt.
  rewrite <- Hqt, Hd in Hd'. split; [by injection Hd'|].
  symmetry. by apply (tmp_name_inj index_ns n0 st0) in Hqt.
Qed.

(** Commits of several blobs. *)
Lemma commit_shards_ok queued snap ps k x r x' :
  registered x → waiting x snap ps → NoDup (p_key <$> ps) →
  commit_shards queued k ps x = (r, x') →
  shelf_change snap (p_key <$> ps) x x' ∧
  match r with
  | Ok warnings => registered x' ∧
      (warnings = [] → ∀ p i d, p ∈ ps → staged x p i d → shelved (p_key p) d x')
  | Fault => max_i64 ≤ last_stamp (store x')
  | _ => False
  end.
Proof.
  revert k x r x'. induction ps as [|p ps IH]; intros k x r x' Hreg Hwait Hnd Hrun;
    cbn [commit_shards] in Hrun.
  { injection Hrun as <- <-. split_and!; [apply shelf_change_refl|done|].
    intros _ p i d Hp. by apply elem_of_nil in Hp. }
  rewrite fmap_cons in *. apply NoDup_cons in Hnd as [Hnin Hnd].
  pose proof Hwait as [[(i & d & Hp & Hs) _]%Forall_cons Hndt].
  destruct (queue_effect (queued k) p i d x Hreg Hp) as [Hone Hres].
  pose proof (waiting_step p i d x _ snap ps Hp Hone Hwait) as Hwait1.
  pose proof (one_change_shelf _ _ _ snap (p_key p :: (p_key <$> ps)) _ _ Hone Hs ltac:(left)) as Hch.
  unfold bind in Hrun.
  destruct (queue (queued k) (commit p) x) as [[b|e| |] x1]; cbn [fst snd] in *;
    [|done|by injection Hrun as <- <-|done].
  destruct Hres as [Hreg1 Hsh].
  destruct (commit_shards queued (S k) ps x1) as [r2 x2] eqn:Hrest.
  destruct (IH (S k) x1 r2 x2 Hreg1 Hwait1 Hnd Hrest) as [Hch2 Hr].
  assert (shelf_change snap (p_key p :: (p_key <$> ps)) x x2) as Hall.
  { eapply shelf_change_trans; [exact Hch|]. eapply shelf_change_mono; [| |exact Hch2]; [done|set_solver]. }
  destruct r2 as [ws|e| |]; [|done|by injection Hrun as <- <-|done]. injection Hrun as <- <-.
  split; [done|]. destruct Hr as [Hreg2 Hcov]. split; [done|]. intros Hw q j d' Hq Hqs.
  destruct b; [|done]. apply elem_of_cons in Hq as [->|Hq].
  - destruct (staged_same _ _ _ _ _ _ Hp Hqs) as [-> _].
    apply (sc_others _ _ _ _ Hch2); [|done|by apply Hsh]. apply good_app; [apply Hp|apply Hns].
  - apply (Hcov Hw q j d' Hq). eapply oc_staged; [done| |done]. intros ->.
    rewrite fmap_cons in Hndt. apply NoDup_cons in Hndt as [Hn _]. apply Hn, list_elem_of_fmap.
    exists q. split; [|done]. destruct Hp as (_ & _ & _ & -> & _), Hqs as (_ & _ & _ & -> & _). done.
Qed.

(** ** Saving *)

(** What a save may write: the project and the changed shards as they are now. *)
Definition project_blob (this : Indexer) : bytes := project_serialize ord (project_index this).
Definition snapshot (this : Indexer) (k d : bytes) : Prop :=
  k = project_key ∧ d = project_blob this ∨ shard_blob (entries ord (merged_indices this)) k d.

Lemma abort_all ps x :
  Forall (λ p, ∃ i, 0 ≤ i ∧ p_tmp_path p = tmp_file i) ps → registered x →
  ∃ x', each ps abort x = (Ok (), x') ∧ registered x' ∧
    ∀ k c, key_ok k → shelved k c x' ↔ shelved k c x.
Proof.
  revert x. induction ps as [|p ps IH]; intros x Hps Hreg; cbn [each]; [by exists x|].
  apply Forall_cons in Hps as [(i & Hi & Hp) Hps].
  assert (∃ x1, abort p x = (Ok (), x1) ∧ registered x1 ∧ ∀ k c, key_ok k → shelved k c x1 ↔ shelved k c x)
    as (x1 & Hrun & Hreg1 & Hsh).
  { unfold abort. rewrite Hp. case_decide; [by exists x|]. unfold bind, call, ret.
    pose proof (λ q, remove_other (tmp_file i) q (world x)) as Hrm.
    destruct x as [st w]. cbn [store world] in *. destruct (os_remove (tmp_file i) w) as [r w']. cbn [snd] in *.
    assert (is_tmp st0 (tmp_file i)) as Htmp by (by exists (tmp_name n0 i); split; [apply (tmp_name_good index_ns n0 st0)|]).
    exists (mkSys st w'). split_and!; [done| |].
    - destruct Hreg as [HD (Hb & Ht & Hpid) Hn]. split; [|done|done]. apply (D_frame st w); [done|].
      intros q Hq. apply Hrm. cbn [store] in *. apply (tmp_not_blob st0); [done|done|].
      by apply (blob_place_same st).
    - intros k c Hk. unfold CacheFrame.shelved. cbn [world]. rewrite Hrm; [done|].
      by eapply (blob_not_tmp index_ns n0 st0). }
  unfold bind. rewrite Hrun. destruct (IH x1 Hps Hreg1) as (x2 & -> & Hreg2 & Hsh2).
  exists x2. split_and!; [done|done|]. intros k c Hk. by rewrite Hsh2, Hsh.
Qed.

Lemma waiting_of_staged x lo snap ps : all_staged x lo snap ps → waiting x snap ps.
Proof.
  intros [Hall Hnd]. split; [|done]. eapply Forall_impl; [exact Hall|].
  intros p (i & d & _ & ? & ?). by exists i, d.
Qed.

Lemma decimal_not_project id : 0 ≤ id → decimal id ≠ project_key.
Proof.
  intros Hid Heq. pose proof (decimal_digits id Hid) as Hd. rewrite Heq in Hd.
  apply Forall_cons in Hd as [Hd _]. unfold is_digit in Hd. vm_compute in Hd. intuition congruence.
Qed.

Lemma shard_keys_distinct (m : gmap Z MergedIndex) ps :
  p_key <$> ps `sublist_of` (λ e, decimal e.1) <$> entries ord m → NoDup (p_key <$> ps).
Proof.
  intros Hsub. eapply sublist_NoDup; [|exact Hsub].
  assert (NoDup (decimal <$> (entries ord m).*1)) as Hnd.
  { apply NoDup_fmap_2; [intros ? ?; apply decimal_inj|]. rewrite (entries_perm ord m).
    apply NoDup_fst_map_to_list. }
  by rewrite <- list_fmap_compose in Hnd.
Qed.

(** Phase 2, once everything is staged. *)
Lemma publish_all queued this x2 p i ps r x' :
  registered x2 → map_Forall (λ id _, 0 ≤ id) (merged_indices this) →
  p_key p = project_key → staged x2 p i (project_blob this) →
  waiting x2 (shard_blob (entries ord (merged_indices this))) ps →
  Forall (λ q, p_tmp_path q ≠ p_tmp_path p) ps →
  p_key <$> ps `sublist_of` (λ e, decimal e.1) <$> entries ord (merged_indices this) →
  publish_snapshot queued p ps x2 = (r, x') →
  (∀ k c, key_ok k → shelved k c x' →
     shelved k c x2 ∨ snapshot this k c ∧ shelved project_key (project_blob this) x') ∧
  (∀ k c, key_ok k → (∀ d, ¬ snapshot this k d) → shelved k c x2 → shelved k c x') ∧
  match r with
  | Ok warnings => registered x' ∧ (warnings = [] → shelved project_key (project_blob this) x' ∧
      ∀ q j d, q ∈ ps → staged x2 q j d → shelved (p_key q) d x')
  | Fault => max_i64 ≤ last_stamp (store x')
  | _ => False
  end.
Proof.
  intros Hreg Hids Hpk Hps Hwait Hfresh Hsub Hrun.
  destruct (queue_effect (queued 0%nat) p _ _ x2 Hreg Hps) as [Hone Hres].
  assert (waiting (queue (queued 0%nat) (commit p) x2).2
    (shard_blob (entries ord (merged_indices this))) ps) as Hwait3.
  { destruct Hwait as [Hall Hnd]. split; [|done]. rewrite Forall_forall in Hall, Hfresh |- *.
    intros q Hq. destruct (Hall q Hq) as (j & d & Hqs & ?). exists j, d. split; [|done].
    eapply oc_staged; [done| |done]. intros ->. apply (Hfresh q Hq).
    destruct Hps as (_ & _ & _ & -> & _), Hqs as (_ & _ & _ & -> & _). done. }
  assert (∀ k c, key_ok k → shelved k c (queue (queued 0%nat) (commit p) x2).2 →
    shelved k c x2 ∨ k = project_key ∧ c = project_blob this) as Hnew.
  { rewrite <- Hpk. apply Hone. }
  assert (∀ k c, key_ok k → (∀ d, ¬ snapshot this k d) → shelved k c x2 →
    shelved k c (queue (queued 0%nat) (commit p) x2).2) as Hold.
  { intros k c Hk Hs. apply Hone; [done|]. rewrite Hpk. intros ->. eapply Hs. by left. }
  assert (∀ k, (∀ d, ¬ snapshot this k d) → k ∉ p_key <$> ps) as Hout.
  { intros k Hs (q & -> & Hq)%list_elem_of_fmap. destruct Hwait as [Hall _]. rewrite Forall_forall in Hall.
    destruct (Hall q Hq) as (j & d & _ & Hsnap). eapply Hs. by right. }
  unfold publish_snapshot in Hrun. unfold bind in Hrun at 1.
  destruct (queue (queued 0%nat) (commit p) x2) as [[b|e| |] x3]; cbn [fst snd] in *; [|done| |done].
  2:{ injection Hrun as <- <-. split_and!; [|done|done]. intros k c Hk Hc.
      destruct (Hnew k c Hk Hc) as [?|[-> ->]]; [by left|]. right. split; [by left|done]. }
  destruct Hres as [Hreg3 Hproj]. rewrite Hpk in Hproj. destruct b.
  - specialize (Hproj eq_refl).
    destruct (commit_shards_ok _ _ _ _ _ _ _ Hreg3 Hwait3 (shard_keys_distinct _ _ Hsub) Hrun) as [Hch Hr].
    assert (shelved project_key (project_blob this) x') as Hproj'.
    { apply (sc_others _ _ _ _ Hch); [apply good_app; [apply project_key_good|apply Hns]| |done].
      intros Hin. eapply elem_of_submseteq in Hin; [|by apply sublist_submseteq, Hsub].
      apply list_elem_of_fmap in Hin as ([id shard] & Heq & Hin%elem_of_entries).
      symmetry in Heq. apply decimal_not_project in Heq; [done|]. by apply (Hids id shard). }
    split_and!.
    + intros k c Hk Hc. destruct (sc_new _ _ _ _ Hch k c Hk Hc) as [Hc3|[Hs _]].
      * destruct (Hnew k c Hk Hc3) as [?|[-> ->]]; [by left|]. right. split; [by left|done].
      * right. split; [by right|done].
    + intros k c Hk Hs Hc. apply (sc_others _ _ _ _ Hch); auto.
    + destruct r as [warnings| | |]; try done. destruct Hr as [Hreg' Hcov]. split; [done|].
      intros Hw. split; [done|]. intros q j d Hq Hqs. apply (Hcov Hw q j d Hq).
      eapply oc_staged; [done| |done]. intros ->. rewrite Forall_forall in Hfresh. apply (Hfresh q Hq).
      destruct Hps as (_ & _ & _ & -> & _), Hqs as (_ & _ & _ & -> & _). done.
  - destruct (abort_all ps x3) as (x4 & Hab & Hreg4 & Hsh); [|done|].
    { destruct Hwait3 as [Hall _]. eapply Forall_impl; [exact Hall|].
      intros q (j & d & (_ & ? & _ & ? & _) & _). by exists j. }
    unfold bind in Hrun. rewrite Hab in Hrun. injection Hrun as <- <-.
    split_and!; [|intros k c Hk Hs Hc; apply Hsh; auto|done|done].
    intros k c Hk Hc. rewrite Hsh in Hc by done.
    destruct (Hnew k c Hk Hc) as [?|[-> ->]]; [by left|]. right. split; [by left|]. by apply Hsh.
Qed.

Lemma save_ok queued this x r x' :
  registered x → map_Forall (λ id _, 0 ≤ id) (merged_indices this) →
  0 ≤ next_tmp_id (store x) → next_tmp_id (store x) + Z.of_nat (size (merged_indices this)) + 1 < two64 →
  save ndebug ord queued true this x = (r, x') →
  (∀ k c, key_ok k → shelved k c x' →
     shelved k c x ∨ snapshot this k c ∧ shelved project_key (project_blob this) x') ∧
  (∀ k c, key_ok k → (∀ d, ¬ snapshot this k d) → shelved k c x → shelved k c x') ∧
  match r with
  | Ok warnings => registered x' ∧ (warnings = [] → ∀ k d, snapshot this k d → shelved k d x')
  | Fault => max_i64 ≤ last_stamp (store x')
  | _ => False
  end.
Proof.
  intros Hreg Hids Hnext Hlt Hrun. unfold save in Hrun. cbn [negb] in Hrun. unfold bind in Hrun at 1.
  destruct (serialize_blob_ok project_key (project_blob this) x) as (rp & x1 & Hrp & Hst1 & Hn1 & Hp);
    [done|apply project_key_good|done|lia|].
  unfold project_blob in Hrp. rewrite Hrp in Hrun. destruct rp as [p|].
  2:{ injection Hrun as <- <-. split_and!; [| |by apply Hst1|done].
      - intros k c Hk Hc. left. by apply (sg_blobs _ _ Hst1).
      - intros k c Hk _ Hc. by apply (sg_blobs _ _ Hst1). }
  destruct (Hp p eq_refl) as [Hpk Hps].
  assert (length (entries ord (merged_indices this)) = size (merged_indices this)) as Hlen.
  { rewrite (Permutation_length (entries_perm ord _)). apply length_map_to_list. }
  destruct (serialize_shards_ok (entries ord (merged_indices this)) x1)
    as (ps & ws & x2 & Hrs & Hst2 & Hall & Hsub & Hcov); [by apply Hst1| |lia|lia|].
  { apply Forall_forall. intros [id shard] Hin%elem_of_entries. by apply (Hids id shard). }
  unfold bind in Hrun at 1. rewrite Hrs in Hrun. cbn [fst snd] in Hrun.
  apply (sg_staged _ _ Hst2) in Hps; [|lia]. pose proof (staging_trans _ _ _ Hst1 Hst2) as Hst.
  assert (Forall (λ q, p_tmp_path q ≠ p_tmp_path p) ps) as Hfresh.
  { apply Forall_forall. intros q Hq. destruct Hall as [Hall _]. rewrite Forall_forall in Hall.
    destruct (Hall q Hq) as (j & d & Hj & (_ & _ & _ & -> & _) & _). destruct Hps as (_ & _ & _ & -> & _).
    intros Heq%(tmp_name_inj index_ns n0 st0); try done; lia. }
  destruct (publish_snapshot queued p ps x2) as [r2 x3] eqn:Hpub.
  destruct (publish_all queued this x2 p (next_tmp_id (store x)) ps r2 x3) as (Hnew & Hold & Hr);
    [by apply Hst|done|done|done|by eapply waiting_of_staged|done|done|done|].
  assert (∀ k c, key_ok k → shelved k c x3 →
     shelved k c x ∨ snapshot this k c ∧ shelved project_key (project_blob this) x3) as Hnew'.
  { intros k c Hk Hc. destruct (Hnew k c Hk Hc) as [Hc2|?]; [left; by apply (sg_blobs _ _ Hst)|by right]. }
  assert (∀ k c, key_ok k → (∀ d, ¬ snapshot this k d) → shelved k c x → shelved k c x3) as Hold'.
  { intros k c Hk Hs Hc. apply Hold; [done|done|]. by apply (sg_blobs _ _ Hst). }
  unfold bind in Hrun. rewrite Hpub in Hrun.
  destruct r2 as [failed| | |]; [|done|by injection Hrun as <- <-|done]. injection Hrun as <- <-.
  split; [done|]. split; [done|]. destruct Hr as [Hreg3 Hcov3]. split; [done|].
  intros [-> ->]%app_eq_nil. destruct (Hcov3 eq_refl) as [Hproj Hshards].
  intros k d [[-> ->]|Hblob]; [done|].
  destruct (Hcov eq_refl k d Hblob) as (q & j & Hq & <- & Hqs). by eapply Hshards.
Qed.

(** C15. Saving into a store that is consistent with its disk, as after any run of one
    instance (its other namespaces may be LRU, Persistent or Scratch), with the namespace of
    the index registered as Persistent, file numbers that are not negative and temporary
    numbers that stay below 2^64; on a file system that behaves as [PlatformLaws] says,
    whatever errors it reports and whichever awaited commits are cancelled: a blob that is on
    disk afterwards was there before, or it is the blob of the present snapshot under its key
    and then the project of this snapshot is on disk too, so that no new shard is paired with
    an older project; other blobs of the namespace stay; [save] ends normally with the store
    consistent, unless the store's clock has reached the end of its range; and when it warned
    about nothing, the project and every changed shard are on disk. *)
Theorem save_publishes_a_snapshot queued this x r x' :
  registered x → map_Forall (λ id _, 0 ≤ id) (merged_indices this) →
  0 ≤ next_tmp_id (store x) → next_tmp_id (store x) + Z.of_nat (size (merged_indices this)) + 1 < two64 →
  save ndebug ord queued true this x = (r, x') →
  (∀ k c, key_ok k → shelved k c x' →
     shelved k c x ∨ snapshot this k c ∧ shelved project_key (project_blob this) x') ∧
  (∀ k c, key_ok k → (∀ d, ¬ snapshot this k d) → shelved k c x → shelved k c x') ∧
  match r with
  | Ok warnings => registered x' ∧ (warnings = [] → ∀ k d, snapshot this k d → shelved k d x')
  | Fault => max_i64 ≤ last_stamp (store x')
  | _ => False
  end.
Proof. apply save_ok. Qed.
End save.

(** ** Loading *)

Section shard_keys.
Context {W : Type} `{Platform W}.

(** What the loop over the keys makes of the index. *)
Definition shard_key (key : bytes) : option Z :=
  if decide (key = project_key) then None else get_as_integer key.
Definition put_shard (shelf : bytes → bytes) (this : Indexer) (key : bytes) : Indexer :=
  match shard_key key with
  | Some id => set_shard id (from_data (shelf key)) this
  | None => this
  end.

(** A shard whose key no other key stands for. *)
Lemma put_shards_lookup shelf key id l this :
  key ∈ l → shard_key key = Some id → (∀ k, k ∈ l → shard_key k = Some id → k = key) →
  merged_indices (foldl (put_shard shelf) this l) !! id = Some (from_data (shelf key)).
Proof.
  intros Hin Hid Huniq.
  assert (∀ l this, (∀ k, k ∈ l → shard_key k = Some id → k = key) →
    merged_indices this !! id = Some (from_data (shelf key)) →
    merged_indices (foldl (put_shard shelf) this l) !! id = Some (from_data (shelf key))) as Hkeep.
  { clear. induction l as [|k l IH]; intros this Hu Hm; [done|]. cbn [foldl]. apply IH; [set_solver|].
    unfold put_shard. destruct (shard_key k) as [id'|] eqn:Hk; [|done]. cbn.
    destruct (decide (id' = id)) as [->|Hne]; [|by rewrite lookup_insert_ne].
    rewrite lookup_insert_eq. by rewrite (Hu k) by (done || left). }
  apply list_elem_of_split in Hin as (a & b & ->). rewrite foldl_app. cbn [foldl]. apply Hkeep; [set_solver|].
  unfold put_shard at 1. rewrite Hid. cbn. by rewrite lookup_insert_eq.
Qed.

Lemma put_shards_frame shelf l this :
  project_index (foldl (put_shard shelf) this l) = project_index this ∧
  path_pool_of (foldl (put_shard shelf) this l) = path_pool_of this ∧
  sessions (foldl (put_shard shelf) this l) = sessions this.
Proof.
  revert this. induction l as [|k l IH]; intros this; [done|]. cbn [foldl].
  destruct (IH (put_shard shelf this k)) as (-> & -> & ->). unfold put_shard. by destruct (shard_key k).
Qed.

End shard_keys.

Section load.
Context {W : Type} `{PlatformLaws W} `{Roaring} `{FlatBuffer FbMergedIndex} `{FlatBuffer FbProjectIndex}.
Context (n0 : Namespace) (st0 : State) (Hns : ns_layout st0 index_ns n0).
(** A file that is there can be read. *)
Context (reads : ∀ p (w : W) c, node_at w p = Some (File c) → (os_read p w).1 = inr c).

#[local] Notation registered := (registered index_ns n0 st0).
#[local] Notation shelved := (shelved n0).

(** Looking up and reading changes neither the keys nor the blobs. *)
Record looked (x x' : Sys W) : Prop := {
  lk_registered : registered x → registered x';
  lk_shelf : ∀ k c, shelved k c x' ↔ shelved k c x;
  lk_keys : ∀ n, namespaces (store x) !! index_ns = Some n →
    ∃ n', namespaces (store x') !! index_ns = Some n' ∧
      ∀ k, is_Some (CacheStore.entries n' !! k) ↔ is_Some (CacheStore.entries n !! k);
}.

Lemma looked_refl x : looked x x.
Proof. split; [done|done|]. intros n Hn. by exists n. Qed.

Lemma looked_trans x y z : looked x y → looked y z → looked x z.
Proof.
  intros [Hr Hs Hk] [Hr' Hs' Hk']. split; [auto|intros; by rewrite Hs', Hs|].
  intros n Hn. destruct (Hk n Hn) as (n' & Hn' & Hi). destruct (Hk' n' Hn') as (n'' & Hn'' & Hi').
  exists n''. split; [done|]. intros k. by rewrite Hi', Hi.
Qed.

Lemma lookup_run key n x :
  registered x → namespaces (store x) !! index_ns = Some n → is_Some (CacheStore.entries n !! key) →
  ∃ x', looked x x' ∧
    (CacheStore.lookup index_ns key x = (Ok (Some (blob_path n0 key)), x') ∨
     CacheStore.lookup index_ns key x = (Fault, x') ∧ max_i64 ≤ last_stamp (store x')).
Proof.
  intros Hreg Hn [e He]. pose proof Hreg as [HD (Hb & Ht & Hp) (n1 & Hn1 & Hcfg & Hdir)].
  rewrite Hn in Hn1. injection Hn1 as <-.
  assert (blob_path n key = blob_path n0 key) as Hbp by (unfold blob_path; by rewrite Hcfg, Hdir).
  pose proof (lookup_disk index_ns key x HD) as Hdisk. unfold wpd in Hdisk.
  destruct x as [st w]. cbn [store world] in *.
  unfold CacheStore.lookup, find_namespace, next_stamp, bind, get, ret, call, CacheStore.modify in *.
  cbn [store world fst snd] in *. rewrite Hn, He in Hdisk. rewrite Hn, He.
  cbn [store world fst snd] in *. pose proof (now_law w) as Hv.
  destruct (os_now_ms w) as [now w1]. cbn [store world fst snd] in *.
  assert (looked (mkSys st w) (mkSys st w1)) as Hlook1.
  { split; [|by intros k c; unfold CacheFrame.shelved; cbn [world]; rewrite Hv|by intros n' ?; exists n'].
    intros _. split; [by apply (view_inv_D st w)|done|by exists n]. }
  destruct (decide (last_stamp st + 1 ≤ max_i64)) as [Hc|Hc].
  - eexists. split; [|left; rewrite <- Hbp; reflexivity].
    split.
    + intros _. destruct Hdisk as [HD' _]. split; [done|done|]. cbn. eexists.
      rewrite lookup_insert_eq. by split_and!.
    + intros k c. unfold CacheFrame.shelved. cbn [world]. by rewrite Hv.
    + intros n' Hn'. cbn [store] in Hn'. rewrite Hn in Hn'. injection Hn' as <-. cbn. eexists.
      rewrite lookup_insert_eq. split; [reflexivity|]. intros k. cbn.
      rewrite lookup_insert. case_decide; subst; [|done]. by rewrite He.
  - exists (mkSys st w1). split; [done|]. right. split; [reflexivity|cbn; lia].
Qed.

Lemma read_run p c x :
  node_at (world x) p = Some (File c) → registered x →
  ∃ x', looked x x' ∧ fs_read p x = (Ok (inr c), x').
Proof.
  intros Hc Hreg. pose proof (reads p (world x) c Hc) as Hr. destruct (read_law p (world x)) as [Hv _].
  destruct x as [st w]. unfold fs_read, call. cbn [store world] in *.
  destruct (os_read p w) as [r w']. cbn [fst snd] in *. subst r. exists (mkSys st w'). split; [|done].
  split; [|by intros k c'; unfold CacheFrame.shelved; cbn [world]; rewrite Hv|by intros n' ?; exists n'].
  intros [HD ? ?]. split; [by apply (view_inv_D st w)|done|done].
Qed.

Lemma load_keys_run shelf l n x this orphans :
  registered x → namespaces (store x) !! index_ns = Some n →
  Forall (λ k, is_Some (CacheStore.entries n !! k) ∧ shelved k (shelf k) x) l →
  ∃ r x', load_keys true l (this, orphans) x = (r, x') ∧
    match r with
    | Ok st => st.1 = foldl (put_shard shelf) this l
    | Fault => max_i64 ≤ last_stamp (store x')
    | _ => False
    end.
Proof.
  revert n x this orphans. induction l as [|key l IH]; intros n x this orphans Hreg Hn Hl; cbn [load_keys].
  { eexists _, x. split; [reflexivity|done]. }
  apply Forall_cons in Hl as [[Hkey Hsh] Hl].
  assert (∀ x1 st, looked x x1 → load_key true key (this, orphans) x = (Ok st, x1) →
    st.1 = put_shard shelf this key →
    ∃ r x', bind (load_key true key (this, orphans)) (load_keys true l) x = (r, x') ∧
      match r with
      | Ok st => st.1 = foldl (put_shard shelf) this (key :: l)
      | Fault => max_i64 ≤ last_stamp (store x')
      | _ => False
      end) as Hnext.
  { intros x1 [this1 orphans1] Hlk Hrun Hst. cbn [fst] in Hst. unfold bind. rewrite Hrun. cbn [foldl].
    destruct (lk_keys _ _ Hlk n Hn) as (n1 & Hn1 & Hkeys). rewrite <- Hst.
    apply (IH n1); [by apply Hlk|done|]. eapply Forall_impl; [exact Hl|].
    intros k [? ?]. split; [by apply Hkeys|by apply Hlk]. }
  unfold put_shard, shard_key in Hnext. unfold load_key in Hnext |- *.
  destruct (decide (key = project_key)) as [Heq|Hne].
  { by apply (Hnext x (this, orphans) (looked_refl x)). }
  destruct (get_as_integer key) as [id|];
    [|by apply (Hnext x (this, orphans ++ [key]) (looked_refl x))].
  destruct (lookup_run key n x Hreg Hn Hkey) as (x1 & Hlk1 & [Hrun|[Hrun Hclock]]).
  - destruct (read_run (blob_path n0 key) (shelf key) x1) as (x2 & Hlk2 & Hread);
      [by apply Hlk1|by apply Hlk1|].
    apply (Hnext x2 (set_shard id (from_data (shelf key)) this, orphans)); [by eapply looked_trans| |done].
    unfold bind. rewrite Hrun, Hread. done.
  - eexists _, x1. unfold bind. rewrite Hrun. split; [reflexivity|done].
Qed.

Lemma checkpoint_runs (x : Sys W) : ∃ x', checkpoint_locked x = (Ok (), x').
Proof.
  unfold checkpoint_locked, bind, get, ret, fs_write, fs_rename, call, CacheStore.modify. cbn.
  destruct (dirty (store x)); cbn; [|by eexists]. destruct (to_json _); cbn; [|by eexists].
  destruct (os_write _ _ _) as [[|] ?]; cbn; [by eexists|].
  destruct (os_rename _ _ _) as [[|] ?]; cbn; by eexists.
Qed.

Lemma invalidate_runs ns key (x : Sys W) : ∃ x', invalidate ns key x = (Ok (), x').
Proof.
  unfold invalidate, invalidate_locked, find_namespace, maybe_checkpoint, bind, get, ret, call,
    CacheStore.modify. cbn.
  destruct (namespaces (store x) !! ns) as [n|]; cbn; [|by eexists].
  destruct (CacheStore.entries n !! key); cbn; [|by eexists].
  destruct (os_remove _ _); cbn.
  destruct (decide (ns_policy (config n) ≠ Scratch)); cbn; case_decide; try (by eexists);
    apply checkpoint_runs.
Qed.

Lemma invalidate_all_runs ns keys (x : Sys W) : ∃ x', each keys (invalidate ns) x = (Ok (), x').
Proof.
  revert x. induction keys as [|k keys IH]; intros x; cbn [each]; [by eexists|].
  destruct (invalidate_runs ns k x) as [x1 Hx1]. unfold bind. rewrite Hx1. apply IH.
Qed.

(** What is loaded is read off the blobs. *)
Lemma load_index_run shelf n x this project :
  registered x → namespaces (store x) !! index_ns = Some n →
  is_Some (CacheStore.entries n !! project_key) →
  (∀ k, is_Some (CacheStore.entries n !! k) → shelved k (shelf k) x) →
  project_from (E := errc) (shelf project_key) = Ok project →
  ∃ r x', load_index true this x = (r, x') ∧
    match r with
    | Ok this' => ∃ l, this' = foldl (put_shard shelf) (set_project project this) l ∧
        ∀ k, k ∈ l ↔ is_Some (CacheStore.entries n !! k)
    | Fault => max_i64 ≤ last_stamp (store x')
    | _ => False
    end.
Proof.
  intros Hreg Hn Hproj Hshelf Hfrom. unfold load_index. cbn [negb].
  destruct (lookup_run project_key n x Hreg Hn Hproj) as (x1 & Hlk1 & [Hrun|[Hrun Hclock]]).
  2:{ eexists _, x1. unfold bind. rewrite Hrun. by split. }
  destruct (read_run (blob_path n0 project_key) (shelf project_key) x1) as (x2 & Hlk2 & Hread);
    [apply Hlk1; by apply Hshelf|by apply Hlk1|].
  pose proof (looked_trans _ _ _ Hlk1 Hlk2) as Hlk. destruct (lk_keys _ _ Hlk n Hn) as (n2 & Hn2 & Hkeys).
  unfold bind at 1. rewrite Hrun. unfold bind at 1. rewrite Hread. unfold bind at 1.
  unfold parse_project. rewrite Hfrom. unfold load_shards, snapshot_keys, find_namespace, bind, get, ret.
  cbn [fst snd]. rewrite Hn2. set (keys := (strmap_iter (CacheStore.entries n2)).*1).
  assert (∀ k, k ∈ keys ↔ is_Some (CacheStore.entries n !! k)) as Hin.
  { intros k. rewrite <- Hkeys. unfold keys. rewrite (strmap_iter_perm (CacheStore.entries n2)).
    rewrite list_elem_of_fmap. split.
    - intros ([k' e] & -> & Hin%elem_of_map_to_list). by exists e.
    - intros [e He]. exists (k, e). split; [done|]. by apply elem_of_map_to_list. }
  destruct (load_keys_run shelf keys n2 x2 (set_project project this) []) as (r & x3 & Hrun3 & Hr);
    [by apply Hlk|done| |].
  { apply Forall_forall. intros k Hk%Hin. split; [by apply Hkeys|]. apply Hlk. by apply Hshelf. }
  rewrite Hrun3. destruct r as [st|e| |]; [|done|by eexists _, _|done].
  destruct (invalidate_all_runs index_ns st.2 x3) as [x4 Hx4]. rewrite Hx4.
  eexists _, x4. split; [reflexivity|]. cbn [fst]. by exists keys.
Qed.
End load.

(** ** Across a restart *)

Section restart.
Context {W : Type} `{PlatformLaws W} `{Roaring} `{!RoaringLaws} `{FlatBuffer FbMergedIndex}
  `{FlatBuffer FbProjectIndex} `{!FlatBufferLaws FbProjectIndex}.
Context (ndebug : bool) (ord : Order).
Context (reads : ∀ p (w : W) c, node_at w p = Some (File c) → (os_read p w).1 = inr c).
Context (parses : ∀ id, 0 ≤ id < two32 → get_as_integer (decimal id) = Some id).

(** C16. Saving and loading.  Let a save as in C15, of a well-formed project with file
    numbers of 32 bits, warn about nothing and leave the state [x1]; let a later start, whose
    store is consistent with its disk and has the index in the same directory, find the
    blobs of the namespace as they were, with entries for the project and every shard
    ([x2]); let the clean shards have been on disk before, no other key of the namespace be
    read as one of the numbers, and files that are there be readable.  Then loading gives
    the same project index and, for every file, the shard that was in memory or on disk, as
    its serialised image; the other fields of the indexer are untouched.  The only other
    outcome is the end of the store's clock. *)
Theorem saved_index_is_loaded n0 st0 queued this x x1 n1 st1 n2 x2 fresh :
  layout st0 → ns_layout st0 index_ns n0 → ns_policy (config n0) = Persistent →
  registered index_ns n0 st0 x → map_Forall (λ id _, 0 ≤ id < two32) (merged_indices this) →
  0 ≤ next_tmp_id (store x) → next_tmp_id (store x) + Z.of_nat (size (merged_indices this)) + 1 < two64 →
  project_ok (project_index this) →
  (∀ id shard, merged_indices this !! id = Some shard → need_rewrite shard = false →
     shelved n0 (decimal id) (serialize ord shard) x) →
  save ndebug ord queued true this x = (Ok [], x1) →
  config n1 = config n0 → dir n1 = dir n0 → registered index_ns n1 st1 x2 →
  namespaces (store x2) !! index_ns = Some n2 →
  (∀ k, node_at (world x2) (blob_path n0 k) = node_at (world x1) (blob_path n0 k)) →
  is_Some (CacheStore.entries n2 !! project_key) →
  (∀ id, is_Some (merged_indices this !! id) → is_Some (CacheStore.entries n2 !! decimal id)) →
  map_Forall (λ k _, ∀ id, shard_key k = Some id → k = decimal id) (CacheStore.entries n2) →
  ∃ r x3, load_index true fresh x2 = (r, x3) ∧
    match r with
    | Ok this' => project_index this' = project_index this ∧
        path_pool_of this' = path_pool_of fresh ∧ sessions this' = sessions fresh ∧
        ∀ id shard, merged_indices this !! id = Some shard →
          merged_indices this' !! id = Some (from_data (serialize ord shard))
    | Fault => max_i64 ≤ last_stamp (store x3)
    | _ => False
    end.
Proof.
  intros Hl Hns Hpol Hreg Hids Hnext Hlt Hpok Hclean Hsave Hcfg Hdir Hreg2 Hn2 Hworld Hproj Hkeys Hcanon.
  assert (map_Forall (λ id _, 0 ≤ id) (merged_indices this)) as Hids'.
  { intros id shard Hid. by destruct (Hids id shard Hid). }
  destruct (save_ok ndebug ord n0 st0 Hl Hns Hpol queued this x (Ok []) x1 Hreg Hids' Hnext Hlt Hsave)
    as (_ & Hold & _ & Hcov). specialize (Hcov eq_refl).
  assert (∀ k, blob_path n1 k = blob_path n0 k) as Hblob by (intros k; unfold blob_path; by rewrite Hcfg, Hdir).
  assert (∀ k c, shelved n0 k c x1 → shelved n1 k c x2) as Hsh.
  { intros k c Hc. unfold shelved in *. by rewrite Hblob, Hworld. }
  assert (∀ id shard, merged_indices this !! id = Some shard →
    shelved n1 (decimal id) (serialize ord shard) x2) as Hshards.
  { intros id shard Hid. apply Hsh. destruct (need_rewrite shard) eqn:Hrw.
    - apply Hcov. right. exists id, shard. split_and!; try done. by apply elem_of_entries.
    - apply Hold; [|intros d Hd|by apply Hclean].
      + apply good_app; [apply good_decimal; by apply (Hids' id shard)|apply Hns].
      + destruct Hd as [[Heq _]|(id' & shard' & Hin%elem_of_entries & Hrw' & Heq%decimal_inj & _)];
          [by apply decimal_not_project in Heq; [|apply (Hids' id shard)]|congruence]. }
  set (shelf k := match node_at (world x2) (blob_path n1 k) with Some (File c) => c | _ => [] end).
  assert (∀ k c, shelved n1 k c x2 → shelf k = c) as Hshelf.
  { intros k c Hc. unfold shelf. unfold shelved in Hc. by rewrite Hc. }
  destruct (load_index_run n1 st1 reads shelf n2 x2 fresh (project_index this)) as (r & x3 & Hrun & Hr);
    [done|done|done| | |].
  { intros k Hk. unfold shelved, shelf. destruct Hreg2 as [[_ Hd] _ (n3 & Hn3 & Hc3 & Hd3)].
    rewrite Hn2 in Hn3. injection Hn3 as <-. destruct Hk as [e He].
    destruct (Hd _ _ Hn2 k e He) as (c & Hc & _). unfold blob_path in *. rewrite Hc3, Hd3 in Hc.
    by rewrite Hc. }
  { rewrite (Hshelf project_key (project_blob ord this)); [by apply project_roundtrip|].
    apply Hsh, Hcov. by left. }
  exists r, x3. split; [done|]. destruct r as [this'| | |]; try done.
  destruct Hr as (l & -> & Hl'). destruct (put_shards_frame shelf l (set_project (project_index this) fresh))
    as (-> & -> & ->). split_and!; [done|done|done|]. intros id shard Hid.
  rewrite (put_shards_lookup shelf (decimal id)).
  - do 2 f_equal. apply Hshelf. by apply Hshards.
  - apply Hl'. apply Hkeys. by eexists.
  - unfold shard_key. destruct (Hids id shard Hid). rewrite decide_False by (by apply decimal_not_project).
    by apply parses.
  - intros k [e He]%Hl' Hk. by apply (Hcanon k e He).
Qed.
End restart.

(** ** Examples *)

(** The parser of the in-memory platform reads decimal numbers. *)
Lemma parse_digits_pretty x s :
  (Z.of_N x < two32) →
  parse_digits 0 (str (pretty_N_go x s)) = parse_digits (Z.of_N x) (str s).
Proof.
  revert s. induction (N.lt_wf_0 x) as [x _ IH]; intros s Hx.
  destruct (decide (x = 0)%N) as [->|Hne]; [by rewrite pretty_N_go_0|].
  assert (x `div` 10 < x)%N as Hdiv by (apply N.div_lt; lia).
  rewrite pretty_N_go_step by lia. rewrite IH by lia.
  pose proof (N.mod_lt x 10 ltac:(done)) as Hmod. pose proof (N.div_mod x 10 ltac:(done)) as Heq.
  assert (digit_value (pretty_N_char (x `mod` 10)) = Some (Z.of_N (x `mod` 10))) as Hd.
  { revert Hmod. generalize (x `mod` 10)%N as d. intros d Hlt.
    assert (d = 0 ∨ d = 1 ∨ d = 2 ∨ d = 3 ∨ d = 4 ∨ d = 5 ∨ d = 6 ∨ d = 7 ∨ d = 8 ∨ d = 9)%N as Hcases by lia.
    destruct_or! Hcases; subst d; reflexivity. }
  change (str (String (pretty_N_char (x `mod` 10)) s)) with (pretty_N_char (x `mod` 10) :: str s).
  cbn [parse_digits]. rewrite Hd. rewrite decide_True by lia. f_equal. lia.
Qed.

Lemma mem_parses id : 0 ≤ id < two32 → get_as_integer (W := MemFs) (decimal id) = Some id.
Proof.
  intros [Hid Hlt]. cbn. pose proof (decimal_nonempty id Hid) as Hne.
  destruct (decimal id) as [|d l] eqn:Hd; [done|]. rewrite <- Hd. clear Hne Hd d l.
  destruct id as [|p|p]; [reflexivity| |lia]. unfold decimal, pretty, pretty_Z.
  unfold pretty, pretty_positive, pretty, pretty_N. case_decide; [done|].
  rewrite parse_digits_pretty by (cbn; lia). reflexivity.
Qed.

Lemma mem_reads p (w : MemFs) c : node_at w p = Some (File c) → (os_read p w).1 = inr c.
Proof.
  cbn. unfold mem_node. destruct (mem_files w !! p); [by intros [= ->]|]. by case_decide.
Qed.

Definition index_config : CacheNamespace := mkCacheNamespace index_ns (str ".idx") Persistent 0.

(** A store as the server opens it, with the namespace of the index and the Scratch namespace
    of the header contexts. *)
Definition open_index (w : MemFs) : Sys MemFs :=
  let '(r, s) := open false 8 (str "r") 1 (mkSys default_state w) in
  (register_namespace false 8 demo_header
    (register_namespace false 8 index_config
       (mkSys (match r with Ok st => st | _ => default_state end) (world s))).2).2.

Definition index_namespace (x : Sys MemFs) : Namespace :=
  default (mkNamespace index_config [] ∅ 0) (namespaces (store x) !! index_ns).

Definition first_run : Sys MemFs := open_index (world fresh_mem).

Definition saved_indexer : Indexer :=
  mkIndexer project_example {[0 := mkMergedIndex None (Some empty_impl)]} empty_pool ∅.

Definition after_save : Sys MemFs := (save false bucket_order (λ _, Ran) true saved_indexer first_run).2.

Definition second_run : Sys MemFs := open_index (world after_save).

Lemma index_config_good : good_name (ns_name index_config) ∧ "/"%char ∉ ns_extension index_config.
Proof. split; [apply index_ns_good|]. vm_compute. set_solver. Qed.

Lemma open_index_dreach w :
  match open false 8 (str "r") 1 (mkSys default_state w) with
  | (Ok st, s) =>
    let r1 := register_namespace false 8 index_config (mkSys st (world s)) in
    (r1.1, (register_namespace false 8 demo_header r1.2).1)
  | _ => (Fault, Fault)
  end = (Ok (), Ok ()) → dreach false 8 (open_index w).
Proof.
  unfold open_index. destruct (open false 8 (str "r") 1 (mkSys default_state w)) as [[st| | |] s] eqn:Hopen;
    try done. intros Hreg. injection Hreg as Hr1 Hr2.
  apply (dr_register false 8 demo_header
    (register_namespace false 8 index_config (mkSys st (world s))).2).
  - apply (dr_register false 8 index_config (mkSys st (world s))).
    + apply (dr_open false 8 (str "r") 1 (mkSys default_state w)); [by split|done|done].
    + discriminate.
    + apply index_config_good.
    + apply index_config_good.
    + split; [reflexivity|]. by rewrite Hr1.
  - intros _. vm_compute. discriminate.
  - apply demo_header_good.
  - apply demo_header_good.
  - split; [reflexivity|]. by rewrite Hr2.
Qed.

Lemma run_registered x :
  dreach false 8 x → namespaces (store x) !! index_ns = Some (index_namespace x) →
  layout (store x) ∧ ns_layout (store x) index_ns (index_namespace x) ∧
  registered index_ns (index_namespace x) (store x) x.
Proof.
  intros HD%dreach_D Hn. pose proof HD as [Hl _]. split; [done|]. split; [by apply Hl|].
  split; [done|done|]. by eexists.
Qed.

Lemma first_run_registered :
  layout (store first_run) ∧ ns_layout (store first_run) index_ns (index_namespace first_run) ∧
  registered index_ns (index_namespace first_run) (store first_run) first_run.
Proof.
  apply run_registered.
  - apply open_index_dreach. vm_compute. reflexivity.
  - vm_compute. reflexivity.
Qed.

Lemma second_run_registered :
  registered index_ns (index_namespace second_run) (store second_run) second_run.
Proof.
  apply run_registered.
  - apply open_index_dreach. vm_compute. reflexivity.
  - vm_compute. reflexivity.
Qed.

Lemma after_save_run :
  save false bucket_order (λ _, Ran) true saved_indexer first_run = (Ok [], after_save).
Proof.
  unfold after_save. assert ((save false bucket_order (λ _, Ran) true saved_indexer first_run).1 = Ok [])
    as Hr by (vm_compute; reflexivity).
  destruct (save _ _ _ _ _ _) as [r x]. cbn [fst snd] in *. by subst r.
Qed.

Lemma save_publishes_a_snapshot_witness :
  shelved (index_namespace first_run) project_key (project_blob bucket_order saved_indexer) after_save ∧
  shelved (index_namespace first_run) (decimal 0)
    (serialize bucket_order (mkMergedIndex None (Some empty_impl))) after_save.
Proof.
  destruct first_run_registered as (Hl & Hns & Hreg).
  destruct (save_publishes_a_snapshot false bucket_order _ _ Hl Hns ltac:(vm_compute; reflexivity)
    (λ _, Ran) saved_indexer first_run (Ok []) after_save Hreg) as (_ & _ & _ & Hcov).
  - cbn. by apply map_Forall_singleton.
  - vm_compute. congruence.
  - vm_compute. reflexivity.
  - apply after_save_run.
  - split; apply (Hcov eq_refl); [by left|]. right. exists 0, (mkMergedIndex None (Some empty_impl)).
    split_and!; try reflexivity. apply elem_of_entries. reflexivity.
Defined.

Definition canonical_key (k : bytes) : bool :=
  match shard_key (W := MemFs) k with Some id => bool_decide (k = decimal id) | None => true end.

Lemma second_run_keys :
  is_Some (CacheStore.entries (index_namespace second_run) !! project_key) ∧
  is_Some (CacheStore.entries (index_namespace second_run) !! decimal 0) ∧
  map_Forall (λ k _, ∀ id, shard_key (W := MemFs) k = Some id → k = decimal id)
    (CacheStore.entries (index_namespace second_run)).
Proof.
  split; [refine (bool_decide_unpack _ _); vm_compute; exact I|].
  split; [refine (bool_decide_unpack _ _); vm_compute; exact I|].
  assert (map_Forall (λ k _, canonical_key k = true) (CacheStore.entries (index_namespace second_run))) as Hall.
  { refine (bool_decide_unpack _ _). vm_compute. exact I. }
  intros k e Hk id Hid. specialize (Hall k e Hk). unfold canonical_key in Hall. cbv beta in Hall.
  rewrite Hid in Hall. by apply bool_decide_eq_true in Hall.
Qed.

Lemma second_run_blobs k :
  node_at (world second_run) (blob_path (index_namespace first_run) k) =
  node_at (world after_save) (blob_path (index_namespace first_run) k).
Proof.
  assert (mem_files (world second_run) = mem_files (world after_save)) as Hf.
  { refine (bool_decide_unpack _ _). vm_compute. exact I. }
  assert (mem_dirs (world second_run) = mem_dirs (world after_save)) as Hd.
  { refine (bool_decide_unpack _ _). vm_compute. exact I. }
  cbn [node_at MemLaws]. unfold mem_node. rewrite Hf, Hd. reflexivity.
Qed.

Lemma saved_index_is_loaded_witness :
  ∃ this' x3, load_index true (mkIndexer empty_project ∅ empty_pool ∅) second_run = (Ok this', x3) ∧
    project_index this' = project_example ∧
    merged_indices this' !! 0 =
      Some (from_data (serialize bucket_order (mkMergedIndex None (Some empty_impl)))).
Proof.
  destruct first_run_registered as (Hl & Hns & Hreg). destruct second_run_keys as (Hp & H0 & Hk).
  destruct (saved_index_is_loaded false bucket_order mem_reads mem_parses (index_namespace first_run)
    (store first_run) (λ _, Ran) saved_indexer first_run after_save (index_namespace second_run)
    (store second_run) (index_namespace second_run) second_run (mkIndexer empty_project ∅ empty_pool ∅))
    as (r & x3 & Hrun & Hr).
  1: exact Hl. 1: exact Hns. 1: vm_compute; reflexivity. 1: exact Hreg.
  1: apply map_Forall_singleton; vm_compute; split; congruence.
  1: vm_compute; congruence. 1: vm_compute; reflexivity. 1: apply project_example_ok.
  1: intros id shard; cbn; rewrite lookup_singleton_Some; intros [_ <-]; discriminate.
  1: apply after_save_run. 1,2: vm_compute; reflexivity. 1: apply second_run_registered.
  1: vm_compute; reflexivity. 1: apply second_run_blobs. 1: exact Hp.
  1: intros id; cbn; rewrite lookup_singleton_is_Some; intros <-; exact H0.
  1: exact Hk.
  destruct r as [this'| | |]; [|destruct Hr|exfalso|destruct Hr].
  - exists this', x3. destruct Hr as (Hpr & _ & _ & Hs). split; [exact Hrun|]. split; [exact Hpr|].
    apply Hs. reflexivity.
  - assert ((load_index true (mkIndexer empty_project ∅ empty_pool ∅) second_run).1 ≠ Fault) as Hne
      by (vm_compute; discriminate). rewrite Hrun in Hne. apply Hne. reflexivity.
Defined.

(** A shard that cannot be replaced, for instance because another program holds the
    file open: the new project is published beside the old shard. *)
Definition locked_run : Sys MemFs :=
  mkSys (store after_save)
    (mkMemFs (mem_files (world after_save)) (mem_dirs (world after_save))
       {[blob_path (index_namespace first_run) (decimal 0)]} (mem_clock (world after_save))).

Definition changed_indexer : Indexer :=
  mkIndexer empty_project
    {[0 := mkMergedIndex None (Some (mkImpl (str "x") [0] ∅ ∅ ∅ 0 [] ∅ ∅ ∅ ∅ []))]} empty_pool ∅.

Lemma new_project_old_shard :
  let '(r, x) := save false bucket_order (λ _, Ran) true changed_indexer locked_run in
  r = Ok [NotCommitted (decimal 0)] ∧
  mem_files (world x) !! blob_path (index_namespace first_run) project_key =
    Some (project_blob bucket_order changed_indexer) ∧
  mem_files (world x) !! blob_path (index_namespace first_run) (decimal 0) =
    Some (serialize bucket_order (mkMergedIndex None (Some empty_impl))).
Proof. vm_compute. split_and!; reflexivity. Qed.
