(* ===== verification/Snapshot.v ===== *)
(** * Staleness snapshots (src/server/workspace/workspace.cpp)

    A [DepsSnapshot] records the files a compilation has read, the hash of each and
    the time of recording.  [deps_changed] compares it with the disk in two layers:
    modification times first, then the hashes of the files that look newer.  Files
    are read one after the other while others may write them, so the recording takes
    the disk as it is when each file is read. *)
From S2P Require Import Prelude PathPool.
Local Open Scope Z_scope.
Local Open Scope cpp_scope.

(** What reading and [stat] report of a disk: the content of a file that can be read,
    and the time of its last modification in nanoseconds. *)
Class Disk (W : Type) := {
  file_content : W → bytes → option bytes;
  file_mtime : W → bytes → option Z;
}.

Record DepsSnapshot := mkSnapshot {
  path_ids : list Z;
  hashes : list Z;
  build_at : Z;
}.

Definition empty_snapshot : DepsSnapshot := mkSnapshot [] [] 0.

(** [system_clock::to_time_t] and [llvm::sys::toTimeT]: whole seconds. *)
Definition to_time_t (ns : Z) : Z := Z.quot ns 1000000000.

Section snapshot.
Context {W : Type} `{Disk W} (xxh3_64bits : bytes → Z).

Definition hash_file (w : W) (path : bytes) : Z :=
  match file_content w path with
  | None => 0
  | Some buf => xxh3_64bits buf
  end.

(** The loop over the dependencies: the [i]-th file is read from [reads i]. *)
Fixpoint capture_files (reads : nat → W) (i : nat) (pool : PathPool) (deps : list bytes)
    (snap : DepsSnapshot) : PathPool * DepsSnapshot :=
  match deps with
  | [] => (pool, snap)
  | file :: deps =>
    let '(pool, id) := intern pool file in
    capture_files reads (S i) pool deps
      (mkSnapshot (path_ids snap ++ [id]) (hashes snap ++ [hash_file (reads i) file])
         (build_at snap))
  end.

Definition capture_deps_snapshot (now : Z) (reads : nat → W) (pool : PathPool)
    (deps : list bytes) : PathPool * DepsSnapshot :=
  capture_files reads 0 pool deps (mkSnapshot [] [] (to_time_t now)).

(** One dependency of [deps_changed]: whether the function returns [true] here. *)
Definition dep_changed (w : W) (build_at : Z) (path : bytes) (hash : Z) : bool :=
  match file_mtime w path with
  | None => negb (bool_decide (hash = 0))
  | Some mtime =>
    if decide (to_time_t mtime ≤ build_at) then false
    else negb (bool_decide (hash_file w path = hash))
  end.

Fixpoint deps_changed_from (w : W) (pool : PathPool) (build_at : Z) (ids : list Z)
    (hs : list Z) : Res unit bool :=
  match ids with
  | [] => Ok false
  | id :: ids =>
    let? path := read (resolve pool id) in
    let? hash := read (head hs) in
    if dep_changed w build_at path hash then Ok true
    else deps_changed_from w pool build_at ids (tail hs)
  end.

Definition deps_changed (w : W) (pool : PathPool) (snap : DepsSnapshot) : Res unit bool :=
  deps_changed_from w pool (build_at snap) (path_ids snap) (hashes snap).

(** ** What a snapshot means *)

(** The files of a snapshot with their hashes. *)
Definition snapshot_of (pool : PathPool) (snap : DepsSnapshot) (files : list (bytes * Z)) : Prop :=
  Forall2 (λ f id, resolve pool id = Some f.1) files (path_ids snap) ∧
  hashes snap = files.*2.

Lemma deps_changed_from_ok w pool t files ids :
  Forall2 (λ (f : bytes * Z) id, resolve pool id = Some f.1) files ids →
  deps_changed_from w pool t ids files.*2 =
    Ok (existsb (λ f : bytes * Z, dep_changed w t f.1 f.2) files).
Proof.
  induction 1 as [|[p h] id files ids Hr _ IH]; [done|]. cbn. simpl in Hr. rewrite Hr. cbn.
  destruct (dep_changed w t p h); [done|]. exact IH.
Qed.

Lemma deps_changed_ok w pool snap files :
  snapshot_of pool snap files →
  deps_changed w pool snap = Ok (existsb (λ f : bytes * Z, dep_changed w (build_at snap) f.1 f.2) files).
Proof. intros [Hids Hh]. unfold deps_changed. rewrite Hh. by apply deps_changed_from_ok. Qed.

(** A snapshot is read the same with a pool that has grown. *)
Lemma snapshot_of_extend pool pool' snap files :
  paths pool `prefix_of` paths pool' → snapshot_of pool snap files → snapshot_of pool' snap files.
Proof.
  intros Hp [Hids Hh]. split; [|done]. eapply Forall2_impl; [exact Hids|].
  intros. by eapply resolve_stable.
Qed.

(** What the recording reads. *)
Definition read_files (reads : nat → W) (i : nat) (deps : list bytes) : list (bytes * Z) :=
  imap (λ k file, (file, hash_file (reads (i + k)%nat) file)) deps.

Lemma capture_files_ok reads i pool deps snap files :
  pool_ok pool → Z.of_nat (length (paths pool) + length deps) ≤ two32 →
  Forall (λ f, "\"%char ∉ f) deps →
  snapshot_of pool snap files →
  let '(pool', snap') := capture_files reads i pool deps snap in
  pool_ok pool' ∧ paths pool `prefix_of` paths pool' ∧ build_at snap' = build_at snap ∧
  snapshot_of pool' snap' (files ++ read_files reads i deps).
Proof.
  revert i pool snap files. induction deps as [|file deps IH]; intros i pool snap files Hok Hlen Hf Hs.
  { cbn. rewrite app_nil_r. done. }
  cbn in Hlen. apply Forall_cons in Hf as [Hfile Hf]. cbn [capture_files].
  pose proof (intern_ok pool file Hok ltac:(lia)) as Hok1.
  pose proof (resolve_intern pool file Hok ltac:(lia)) as Hr.
  pose proof (intern_length pool file) as Hl.
  pose proof (intern_paths_prefix pool file) as Hp.
  destruct (intern pool file) as [pool1 id]. cbn in Hok1, Hr, Hl, Hp.
  rewrite normalize_noop in Hr by done.
  specialize (IH (S i) pool1 (mkSnapshot (path_ids snap ++ [id])
    (hashes snap ++ [hash_file (reads i) file]) (build_at snap))
    (files ++ [(file, hash_file (reads i) file)]) Hok1 ltac:(lia) Hf).
  destruct (capture_files _ _ _ _ _) as [pool2 snap2].
  destruct IH as (H1 & H2 & H3 & H4).
  { apply (snapshot_of_extend _ _ _ _ Hp) in Hs as [Hids Hh]. split; cbn.
    - apply Forall2_app; [done|]. by repeat constructor.
    - by rewrite fmap_app, Hh. }
  split_and!; [done | by trans (paths pool1) | done |].
  rewrite <- app_assoc in H4. unfold read_files in *. cbn [imap app] in *.
  rewrite Nat.add_0_r. erewrite imap_ext; [exact H4|].
  intros k f _. cbn. by rewrite Nat.add_succ_r.
Qed.

Lemma capture_ok now reads pool deps :
  pool_ok pool → Z.of_nat (length (paths pool) + length deps) ≤ two32 →
  Forall (λ f, "\"%char ∉ f) deps →
  let '(pool', snap) := capture_deps_snapshot now reads pool deps in
  pool_ok pool' ∧ paths pool `prefix_of` paths pool' ∧ build_at snap = to_time_t now ∧
  snapshot_of pool' snap (read_files reads 0 deps).
Proof.
  intros. apply (capture_files_ok reads 0 pool deps (mkSnapshot [] [] (to_time_t now)) []); done.
Qed.

Lemma dep_changed_spec w t path hash :
  dep_changed w t path hash = true ↔
    (file_mtime w path = None ∧ hash ≠ 0) ∨
    (∃ mtime, file_mtime w path = Some mtime ∧ t < to_time_t mtime ∧ hash_file w path ≠ hash).
Proof.
  unfold dep_changed. destruct (file_mtime w path) as [m|]; [|rewrite negb_true_iff, bool_decide_eq_false; naive_solver].
  destruct (decide _).
  - split; [done|]. intros [[? ?]|(? & [= ->] & ? & ?)]; [done | lia].
  - rewrite negb_true_iff, bool_decide_eq_false. split; [|naive_solver].
    intros. right. exists m. split_and!; [done | lia | done].
Qed.

Lemma elem_of_read_files reads i deps p h :
  (p, h) ∈ read_files reads i deps ↔
    ∃ k, deps !! k = Some p ∧ h = hash_file (reads (i + k)%nat) p.
Proof.
  unfold read_files. rewrite list_elem_of_lookup. setoid_rewrite list_lookup_imap.
  split.
  - intros [k Hk]. exists k. destruct (deps !! k); naive_solver.
  - intros (k & Hk & ->). exists k. by rewrite Hk.
Qed.

(** A snapshot recorded after a compilation, and checked later with the path pool
    grown in between, reports a change exactly when a dependency that could be read
    is gone, or one was modified in a later second than the recording and its content
    hashes differently than when it was recorded; a file that was only touched is
    not reported, and the check itself never fails. *)
Theorem snapshot_detects_changes (now : Z) (reads : nat → W) (pool pool' : PathPool)
    (deps : list bytes) (snap : DepsSnapshot) (later : PathPool) (w : W) :
  pool_ok pool → Z.of_nat (length (paths pool) + length deps) ≤ two32 →
  Forall (λ f, "\"%char ∉ f) deps →
  capture_deps_snapshot now reads pool deps = (pool', snap) →
  paths pool' `prefix_of` paths later →
  ∃ changed, deps_changed w later snap = Ok changed ∧
    (changed = true ↔
     ∃ i file, deps !! i = Some file ∧
       (file_mtime w file = None ∧ hash_file (reads i) file ≠ 0 ∨
        ∃ mtime, file_mtime w file = Some mtime ∧ to_time_t now < to_time_t mtime ∧
          hash_file w file ≠ hash_file (reads i) file)).
Proof.
  intros Hok Hlen Hf Hc Hp. pose proof (capture_ok now reads pool deps Hok Hlen Hf) as Hs.
  rewrite Hc in Hs. destruct Hs as (_ & _ & Ht & Hs).
  apply (snapshot_of_extend _ _ _ _ Hp) in Hs.
  eexists. split; [by apply deps_changed_ok|]. rewrite Ht.
  rewrite existsb_exists. split.
  - intros ([p h] & Hin & Hd). apply list_elem_of_In, elem_of_read_files in Hin as (i & Hi & ->).
    exists i, p. by apply dep_changed_spec in Hd.
  - intros (i & file & Hi & Hd). exists (file, hash_file (reads i) file). split.
    + apply list_elem_of_In, elem_of_read_files. by exists i.
    + by apply dep_changed_spec.
Qed.
End snapshot.

(** ** A concrete disk: files with a content and a modification time *)

#[export] Instance FlatDisk : Disk (gmap bytes (bytes * Z)) := {
  file_content w p := fst <$> w !! p;
  file_mtime w p := snd <$> w !! p;
}.

(** A hash for examples: the bytes as byte_hash, never 0. *)
Definition byte_hash (b : bytes) : Z := foldl (λ acc c, 256 * acc + Z.of_N (N_of_ascii c)) 1 b.

Lemma snapshot_detects_changes_witness :
  let disk t c : gmap bytes (bytes * Z) := {[ str "/a.h" := (c, t) ]} in
  let '(pool, snap) := capture_deps_snapshot byte_hash 5000000000 (λ _, disk 0 (str "x"))
                         empty_pool [str "/a.h"] in
  ∃ changed, deps_changed byte_hash (disk 6000000000 (str "y")) pool snap = Ok changed ∧
    (changed = true ↔
     ∃ i file, [str "/a.h"] !! i = Some file ∧
       (file_mtime (disk 6000000000 (str "y")) file = None ∧
          hash_file byte_hash (disk 0 (str "x")) file ≠ 0 ∨
        ∃ mtime, file_mtime (disk 6000000000 (str "y")) file = Some mtime ∧
          to_time_t 5000000000 < to_time_t mtime ∧
          hash_file byte_hash (disk 6000000000 (str "y")) file ≠
            hash_file byte_hash (disk 0 (str "x")) file)).
Proof.
  cbv zeta. destruct (capture_deps_snapshot _ _ _ _ _) as [pool snap] eqn:E.
  apply (snapshot_detects_changes byte_hash 5000000000
    (λ _, ({[ str "/a.h" := (str "x", 0) ]} : gmap bytes (bytes * Z))) empty_pool pool
    [str "/a.h"] snap pool).
  - apply empty_pool_ok.
  - vm_compute. discriminate.
  - repeat constructor. apply (bool_decide_unpack _). vm_compute. exact I.
  - exact E.
  - reflexivity.
Defined.

(** A file written in the second of the recording, after it was read, is taken for
    unchanged: times are compared in whole seconds. *)
Lemma change_in_same_second_is_missed :
  let disk t c : gmap bytes (bytes * Z) := {[ str "/a.h" := (c, t) ]} in
  let '(pool, snap) := capture_deps_snapshot byte_hash 5000000000 (λ _, disk 0 (str "x"))
                         empty_pool [str "/a.h"] in
  (hash_file byte_hash (disk 5700000000 (str "y")) (str "/a.h") ∉ hashes snap) ∧
  deps_changed byte_hash (disk 5700000000 (str "y")) pool snap = Ok false.
Proof.
  cbv zeta. split; [|vm_compute; reflexivity]. apply (bool_decide_unpack _). vm_compute. exact I.
Qed.
