(* ===== verification/Documents.v ===== *)
(** * Open documents and their compilation
      (src/server/service/{session.h,master_server.cpp,lsp_client.cpp},
       src/server/compiler/compiler.cpp: [ensure_compiled], [run_compile], [forward_query])

    A [Session] is the state of an open document.  Notifications of the editor change
    sessions; requests compile a document before they query it, and share the
    compilation that is in flight.  All of it runs on one event loop: an [Event] is
    what makes a coroutine run up to its next suspension point, or a notification.
    [Err tt] says that the event cannot happen in the present state, [Fault] that the
    code uses a dead handle or a view of a text that has been replaced.

    A compilation task is started at once up to its first suspension point, as the
    comment in [ensure_compiled] says of [spawn].  What the rest of the server
    contributes enters with the events: the arguments found for a file, the outcome of
    [ensure_deps], the answer of the worker and the disk when files are read.
    The server is in its state Ready throughout: the handlers' tests for it hold. *)
From S2P Require Import Prelude PathPool Snapshot IndexData MergedIndex IncludeGraph TUIndex.
Local Open Scope Z_scope.
Local Open Scope cpp_scope.

(** ** Data *)

Record PCHRef := mkPCHRef { ref_path_id : Z; ref_key : bytes; ref_bound : Z }.

Record HeaderFileContext := mkHeaderFileContext {
  host_path_id : Z;
  preamble_path : bytes;
  preamble_hash : Z;
}.

(** [deps_cancelled]: [deps_scope.cancel()] has been called. *)
Record PendingCompile := mkPendingCompile {
  done : bool;
  succeeded : bool;
  pending_generation : Z;
  deps_done : bool;
  deps_cancelled : bool;
}.

Record CompileParams := mkCompileParams {
  cp_path : bytes;
  cp_version : Z;
  cp_text : bytes;
  cp_directory : bytes;
  cp_arguments : list bytes;
  cp_pch : bytes * Z;
  cp_pcms : gmap bytes bytes;
}.

Record CompileResult := mkCompileResult { result_deps : list bytes; tu_index_data : bytes }.

(** [compiled] is not a field of the code: the parameters of the compilation whose
    result the session has last accepted. *)
Record Session := mkSession {
  path_id : Z;
  version : Z;
  text : bytes;
  line_starts : list Z;
  generation : Z;
  ast_dirty : bool;
  compiling : option nat;
  pch_ref : option PCHRef;
  ast_deps : option DepsSnapshot;
  header_context : option HeaderFileContext;
  active_context : option Z;
  file_index : option FileIndex;
  symbols : option SymbolTable;
  compiled : option CompileParams;
}.

Definition new_session (path_id : Z) : Session :=
  mkSession path_id 0 [] [] 0 true None None None None None None None None.

(** Where [run_compile] is suspended: in [ensure_deps] or in [send_stateful]. *)
Inductive CompilePoint := InDeps | InSend.

Record CompileTask := mkCompileTask {
  task_session : nat;
  task_gen : Z;
  task_params : CompileParams;
  task_point : CompilePoint;
}.

(** What [forward_query] did in the end. *)
Inductive Answer :=
| AnswerNull
| Queried (offset : option Z) (range : option (Z * Z)).

(** Where a request is suspended: on a compilation it found in flight, or on the one
    it has launched. *)
Inductive RequestPoint := Joined (p : nat) | Launched (p : nat) | Answered (a : Answer).

(** What a request asks for, in positions of the text. *)
Record Query (Pos : Type) := mkQuery { q_position : option Pos; q_range : option (Pos * Pos) }.
Arguments mkQuery {Pos}.
Arguments q_position {Pos}.
Arguments q_range {Pos}.

(** [gen] and the line map, a view of the text at the start. *)
Record Request (Pos : Type) := mkRequest {
  req_session : nat;
  req_gen : Z;
  req_map : bytes * list Z;
  req_query : Query Pos;
  req_point : RequestPoint;
}.
Arguments mkRequest {Pos}.
Arguments req_session {Pos}.
Arguments req_gen {Pos}.
Arguments req_map {Pos}.
Arguments req_query {Pos}.
Arguments req_point {Pos}.

(** Calls into the other components, in order. *)
Inductive Effect :=
| EnqueueIndex (path_id : Z)
| ScheduleIndex
| NotifyEvict (path_id : Z)
| NotifyUpdate (path_id version : Z)
| ClearDiagnostics (path_id : Z)
| PublishDiagnostics (path_id version : Z)
| SendCompile (path_id : Z) (params : CompileParams)
| SendQuery (path_id : Z) (a : Answer).

Record Server (Pos : Type) := mkServer {
  sessions : gmap Z nat;
  objects : gmap nat Session;
  next_object : nat;
  compiles : gmap nat PendingCompile;
  next_compile : nat;
  tasks : gmap nat CompileTask;
  requests : gmap nat (Request Pos);
  pool : PathPool;
  closed : bool;
  effects : list Effect;
}.
Arguments mkServer {Pos}.
Arguments sessions {Pos}.
Arguments objects {Pos}.
Arguments next_object {Pos}.
Arguments compiles {Pos}.
Arguments next_compile {Pos}.
Arguments tasks {Pos}.
Arguments requests {Pos}.
Arguments pool {Pos}.
Arguments closed {Pos}.
Arguments effects {Pos}.

(** ** Field updates *)

Definition set_text (version : Z) (text : bytes) (lines : list Z) (s : Session) : Session :=
  mkSession (path_id s) version text lines (generation s) (ast_dirty s) (compiling s) (pch_ref s)
    (ast_deps s) (header_context s) (active_context s) (file_index s) (symbols s) (compiled s).
Definition set_generation (g : Z) (s : Session) : Session :=
  mkSession (path_id s) (version s) (text s) (line_starts s) g (ast_dirty s) (compiling s)
    (pch_ref s) (ast_deps s) (header_context s) (active_context s) (file_index s) (symbols s)
    (compiled s).
Definition set_dirty (b : bool) (s : Session) : Session :=
  mkSession (path_id s) (version s) (text s) (line_starts s) (generation s) b (compiling s)
    (pch_ref s) (ast_deps s) (header_context s) (active_context s) (file_index s) (symbols s)
    (compiled s).
Definition set_compiling (c : option nat) (s : Session) : Session :=
  mkSession (path_id s) (version s) (text s) (line_starts s) (generation s) (ast_dirty s) c
    (pch_ref s) (ast_deps s) (header_context s) (active_context s) (file_index s) (symbols s)
    (compiled s).
Definition set_pch_ref (r : option PCHRef) (s : Session) : Session :=
  mkSession (path_id s) (version s) (text s) (line_starts s) (generation s) (ast_dirty s)
    (compiling s) r (ast_deps s) (header_context s) (active_context s) (file_index s) (symbols s)
    (compiled s).
Definition set_ast_deps (d : option DepsSnapshot) (s : Session) : Session :=
  mkSession (path_id s) (version s) (text s) (line_starts s) (generation s) (ast_dirty s)
    (compiling s) (pch_ref s) d (header_context s) (active_context s) (file_index s) (symbols s)
    (compiled s).
Definition set_header_context (c : option HeaderFileContext) (s : Session) : Session :=
  mkSession (path_id s) (version s) (text s) (line_starts s) (generation s) (ast_dirty s)
    (compiling s) (pch_ref s) (ast_deps s) c (active_context s) (file_index s) (symbols s)
    (compiled s).
Definition set_active_context (c : option Z) (s : Session) : Session :=
  mkSession (path_id s) (version s) (text s) (line_starts s) (generation s) (ast_dirty s)
    (compiling s) (pch_ref s) (ast_deps s) (header_context s) c (file_index s) (symbols s)
    (compiled s).
Definition set_index (i : option FileIndex) (t : option SymbolTable) (s : Session) : Session :=
  mkSession (path_id s) (version s) (text s) (line_starts s) (generation s) (ast_dirty s)
    (compiling s) (pch_ref s) (ast_deps s) (header_context s) (active_context s) i t (compiled s).
Definition set_compiled (c : option CompileParams) (s : Session) : Session :=
  mkSession (path_id s) (version s) (text s) (line_starts s) (generation s) (ast_dirty s)
    (compiling s) (pch_ref s) (ast_deps s) (header_context s) (active_context s) (file_index s)
    (symbols s) c.

Definition finished (p : PendingCompile) : PendingCompile :=
  mkPendingCompile true (succeeded p) (pending_generation p) (deps_done p) (deps_cancelled p).
Definition success (p : PendingCompile) : PendingCompile :=
  mkPendingCompile (done p) true (pending_generation p) (deps_done p) (deps_cancelled p).
Definition settled (p : PendingCompile) : PendingCompile :=
  mkPendingCompile (done p) (succeeded p) (pending_generation p) true (deps_cancelled p).
Definition cancelled_deps (p : PendingCompile) : PendingCompile :=
  mkPendingCompile (done p) (succeeded p) (pending_generation p) (deps_done p) true.

Section server.
Context {Pos W : Type} `{Disk W} `{Roaring} `{FlatBuffer FbTUIndex}.
Context (xxh3_64bits : bytes → Z).
(** [lsp::build_line_starts] and [LineMap::to_offset] of the protocol library. *)
Context (build_line_starts : bytes → list Z) (to_offset : bytes → list Z → Pos → option Z).

Abbreviation server := (Server Pos).
Abbreviation result A := (Res unit A).

Definition set_objects (f : gmap nat Session → gmap nat Session) (st : server) : server :=
  mkServer (sessions st) (f (objects st)) (next_object st) (compiles st) (next_compile st) (tasks st)
    (requests st) (pool st) (closed st) (effects st).
Definition set_sessions (f : gmap Z nat → gmap Z nat) (st : server) : server :=
  mkServer (f (sessions st)) (objects st) (next_object st) (compiles st) (next_compile st) (tasks st)
    (requests st) (pool st) (closed st) (effects st).
Definition set_compiles (f : gmap nat PendingCompile → gmap nat PendingCompile) (st : server) :
    server :=
  mkServer (sessions st) (objects st) (next_object st) (f (compiles st)) (next_compile st) (tasks st)
    (requests st) (pool st) (closed st) (effects st).
Definition set_tasks (f : gmap nat CompileTask → gmap nat CompileTask) (st : server) : server :=
  mkServer (sessions st) (objects st) (next_object st) (compiles st) (next_compile st) (f (tasks st))
    (requests st) (pool st) (closed st) (effects st).
Definition set_requests (f : gmap nat (Request Pos) → gmap nat (Request Pos)) (st : server) :
    server :=
  mkServer (sessions st) (objects st) (next_object st) (compiles st) (next_compile st) (tasks st)
    (f (requests st)) (pool st) (closed st) (effects st).
Definition set_pool (p : PathPool) (st : server) : server :=
  mkServer (sessions st) (objects st) (next_object st) (compiles st) (next_compile st) (tasks st)
    (requests st) p (closed st) (effects st).
Definition emit (e : Effect) (st : server) : server :=
  mkServer (sessions st) (objects st) (next_object st) (compiles st) (next_compile st) (tasks st)
    (requests st) (pool st) (closed st) (effects st ++ [e]).

Definition guard_b (b : bool) : result unit := if b then Ok tt else Err tt.
Definition need {A} (o : option A) : result A := match o with Some a => Ok a | None => Err tt end.

Definition update_object (o : nat) (s : Session) : server → server := set_objects (<[o := s]>).
Definition update_compile (p : nat) (f : PendingCompile → PendingCompile) : server → server :=
  set_compiles (alter f p).

(** [++generation]; [2^64] increments of one session are out of reach. *)
Definition bump (s : Session) : result Session :=
  let? _ := guard_b (generation s + 1 <? two64) in
  Ok (set_generation (generation s + 1) s).

Definition bump_object (o : nat) (st : server) : result server :=
  let? s := read (objects st !! o) in
  let? s := bump s in
  Ok (update_object o s st).

(** ** Notifications *)

Definition open_session (id : Z) (st : server) : result (server * nat) :=
  let? st := match sessions st !! id with
             | Some o => bump_object o st
             | None => Ok st
             end in
  let o := next_object st in
  Ok (mkServer (<[id := o]> (sessions st)) (<[o := new_session id]> (objects st)) (S o)
        (compiles st) (next_compile st) (tasks st) (requests st) (pool st) (closed st) (effects st),
      o).

Definition did_open (id ver : Z) (content : bytes) (st : server) : result server :=
  let? r := open_session id st in
  let '(st, o) := r in
  let? s := read (objects st !! o) in
  let? s := bump (set_text ver content (build_line_starts content) s) in
  Ok (update_object o s st).

(** A change of the whole document, or of a range of it. *)
Inductive Change := WholeDocument (t : bytes) | Partial (first last : Pos) (t : bytes).

Definition apply_change (s : Session) (c : Change) : Session :=
  match c with
  | WholeDocument t => set_text (version s) t (build_line_starts t) s
  | Partial first last t =>
    let replaced :=
      match to_offset (text s) (line_starts s) first, to_offset (text s) (line_starts s) last with
      | Some b, Some e =>
        if b <=? e then take (Z.to_nat b) (text s) ++ t ++ drop (Z.to_nat e) (text s) else text s
      | _, _ => text s
      end in
    set_text (version s) replaced (build_line_starts replaced) s
  end.

Definition did_change (id ver : Z) (changes : list Change) (st : server) : result server :=
  match sessions st !! id with
  | None => Ok st
  | Some o =>
    let? s := read (objects st !! o) in
    let s := set_text ver (text s) (line_starts s) s in
    let s := foldl apply_change s changes in
    let? s := bump s in
    Ok (emit (NotifyUpdate id ver) (update_object o (set_dirty true s) st))
  end.

Definition close_session (id : Z) (st : server) : result server :=
  let st := emit (ClearDiagnostics id) (emit (NotifyEvict id) st) in
  let? st := match sessions st !! id with
             | Some o =>
               let? st := bump_object o st in
               Ok (set_sessions (delete id) st)
             | None => Ok st
             end in
  Ok (emit ScheduleIndex (emit (EnqueueIndex id) st)).

Definition find_session (id : Z) (st : server) : option nat := sessions st !! id.

(** [ast_dirty = true] for the open ones of some documents. *)
Definition mark_dirty (st : server) (id : Z) : server :=
  match find_session id st with
  | Some o => set_objects (alter (set_dirty true) o) st
  | None => st
  end.

Definition mark_or_enqueue (st : server) (id : Z) : server :=
  match find_session id st with
  | Some _ => mark_dirty st id
  | None => emit (EnqueueIndex id) st
  end.

(** The loop over [sessions]: [path_id] names the key of the session, not the file that
    was saved. *)
Definition reset_context (id : Z) (s : Session) : Session :=
  match header_context s with
  | Some ctx => if decide (host_path_id ctx = id) then set_dirty true (set_header_context None s) else s
  | None => s
  end.

(** [dirtied] is what [Workspace::on_file_saved] returns. *)
Definition on_file_saved (dirtied : list Z) (st : server) : server :=
  let st := foldl mark_or_enqueue st dirtied in
  let st := foldl (λ st e, set_objects (alter (reset_context e.1) e.2) st) st
              (map_to_list (sessions st)) in
  emit ScheduleIndex st.

(** [pool.on_crash]. *)
Definition on_crash (lost_documents : list Z) (st : server) : server :=
  foldl mark_dirty st lost_documents.

(** [clice/switchContext], for a context with a compile command. *)
Definition switch_context (id context : Z) (st : server) : result server :=
  match find_session id st with
  | None => Ok st
  | Some o =>
    let? s := read (objects st !! o) in
    Ok (update_object o
          (set_dirty true (set_ast_deps None (set_pch_ref None
             (set_header_context None (set_active_context (Some context) s))))) st)
  end.

(** ** Compilation tasks *)

(** What [fill_compile_args] finds: directory and arguments, and the header context the
    session holds afterwards. *)
Record Found := mkFound {
  found_args : option (bytes * list bytes);
  found_context : option HeaderFileContext;
}.

Definition finish_compile (o p : nat) (st : server) : result server :=
  let? s := read (objects st !! o) in
  let st := if decide (compiling s = Some p) then update_object o (set_compiling None s) st
            else st in
  Ok (set_tasks (delete p) (update_compile p finished st)).

(** [run_compile] up to [ensure_deps]. *)
Definition run_compile (found : Found) (o : nat) (st : server) : result server :=
  let? s := read (objects st !! o) in
  let? p := read (compiling s) in
  let? path := read (resolve (pool st) (path_id s)) in
  let st := update_object o (set_header_context (found_context found) s) st in
  match found_args found with
  | None => finish_compile o p st
  | Some (directory, arguments) =>
    let params := mkCompileParams path (version s) (text s) directory arguments ([], 0) ∅ in
    Ok (set_tasks (<[p := mkCompileTask o (generation s) params InDeps]>) st)
  end.

(** [ensure_deps] has returned; it may have set the session's [pch_ref], and has
    filled [pch] and [pcms]. *)
Definition deps_returned (p : nat) (deps_ok : bool) (ref : option PCHRef) (pch : bytes * Z)
    (pcms : gmap bytes bytes) (st : server) : result server :=
  let? t := need (tasks st !! p) in
  let? _ := guard_b (match task_point t with InDeps => true | InSend => false end) in
  let o := task_session t in
  let? s := read (objects st !! o) in
  let st := update_compile p settled (update_object o (set_pch_ref ref s) st) in
  if negb deps_ok then finish_compile o p st
  else if decide (generation s ≠ task_gen t) then finish_compile o p st
  else
    let q := task_params t in
    let params := mkCompileParams (cp_path q) (cp_version q) (cp_text q) (cp_directory q)
                    (cp_arguments q) pch pcms in
    Ok (emit (SendCompile (path_id s) params)
          (set_tasks (<[p := mkCompileTask o (task_gen t) params InSend]>) st)).

(** The image a worker sends is one it has serialised. *)
Definition received_index (data : bytes) : result (option (FileIndex * SymbolTable)) :=
  match data with
  | [] => Ok None
  | _ =>
    match tu_from (E := unit) data with
    | Ok tu => Ok (Some (main_file_index tu, tu_symbols tu))
    | _ => Err tt
    end
  end.

(** [send_stateful] has returned a result or an error. *)
Definition send_returned (p : nat) (res : option CompileResult) (now : Z) (reads : nat → W)
    (st : server) : result server :=
  let? t := need (tasks st !! p) in
  let? _ := guard_b (match task_point t with InDeps => false | InSend => true end) in
  let o := task_session t in
  let? s := read (objects st !! o) in
  if decide (generation s ≠ task_gen t) then finish_compile o p st
  else
    match res with
    | None => finish_compile o p (emit (ClearDiagnostics (path_id s)) st)
    | Some r =>
      let? _ := guard_b (Z.of_nat (length (paths (pool st)) + length (result_deps r)) <=? two32) in
      let? idx := received_index (tu_index_data r) in
      let '(pool', snap) := capture_deps_snapshot xxh3_64bits now reads (pool st) (result_deps r) in
      let s := set_ast_deps (Some snap) (set_dirty false s) in
      let s := match idx with Some (f, t) => set_index (Some f) (Some t) s | None => s end in
      let s := set_compiled (Some (task_params t)) s in
      let st := set_pool pool' (update_object o s (update_compile p success st)) in
      let? st := finish_compile o p st in
      Ok (emit ScheduleIndex (emit (PublishDiagnostics (path_id s) (version s)) st))
    end.

(** ** Requests *)

Definition is_stale (w : W) (pch_cache : gmap Z DepsSnapshot) (pool : PathPool) (s : Session) :
    result bool :=
  let? own := match ast_deps s with
              | Some d => deps_changed xxh3_64bits w pool d
              | None => Ok false
              end in
  if own : bool then Ok true
  else
    match pch_ref s with
    | Some r =>
      match pch_cache !! ref_path_id r with
      | Some d => deps_changed xxh3_64bits w pool d
      | None => Ok false
      end
    | None => Ok false
    end.

(** The end of [ensure_compiled]: register a new compilation, spawn it, and cancel the
    dependency wait of the one it replaces.  A closed task group runs nothing. *)
Definition launch (found : Found) (o : nat) (st : server) : result (server * nat) :=
  let? s := read (objects st !! o) in
  let superseded := compiling s in
  let p := next_compile st in
  let pending := mkPendingCompile false false (generation s) false false in
  let st := mkServer (sessions st) (<[o := set_compiling (Some p) s]> (objects st))
              (next_object st) (<[p := pending]> (compiles st)) (S p) (tasks st) (requests st)
              (pool st) (closed st) (effects st) in
  let? st := if closed st then Ok st else run_compile found o st in
  Ok (match superseded with Some q => update_compile q cancelled_deps st | None => st end, p).

(** [inl ok]: [ensure_compiled] returns; [inr pt]: it waits. *)
Definition loop_head (found : Found) (o : nat) (gen : Z) (st : server) :
    result (server * (bool + RequestPoint)) :=
  let? s := read (objects st !! o) in
  match compiling s with
  | Some p =>
    let? pending := read (compiles st !! p) in
    if bool_decide (pending_generation pending ≠ generation s) && negb (deps_done pending) then
      let? r := launch found o st in Ok (r.1, inr (Launched r.2))
    else Ok (st, inr (Joined p))
  | None =>
    if decide (generation s ≠ gen) then Ok (st, inl false)
    else let? r := launch found o st in Ok (r.1, inr (Launched r.2))
  end.

Definition ensure_compiled (w : W) (pch_cache : gmap Z DepsSnapshot) (found : Found) (o : nat)
    (st : server) : result (server * (bool + RequestPoint)) :=
  let? s := read (objects st !! o) in
  let gen := generation s in
  if ast_dirty s then loop_head found o gen st
  else
    let? stale := is_stale w pch_cache (pool st) s in
    if stale : bool then loop_head found o gen (update_object o (set_dirty true s) st)
    else Ok (st, inl true).

(** After [co_await pending->done.wait()]. *)
Definition ensure_compiled_resume (found : Found) (o : nat) (gen : Z) (pt : RequestPoint)
    (st : server) : result (server * (bool + RequestPoint)) :=
  let? s := read (objects st !! o) in
  match pt with
  | Joined _ => if ast_dirty s then loop_head found o gen st else Ok (st, inl true)
  | Launched _ => Ok (st, inl (negb (ast_dirty s)))
  | Answered _ => Err tt
  end.

(** Reading the line map: its text must still be that of the session. *)
Definition view (req : Request Pos) (s : Session) : result (bytes * list Z) :=
  if decide (req_map req = (text s, line_starts s)) then Ok (req_map req) else Fault.

(** [forward_query] after [ensure_compiled] has returned [ok]. *)
Definition query_answer (ok : bool) (req : Request Pos) (s : Session) : result Answer :=
  if negb ok then Ok AnswerNull
  else if decide (generation s ≠ req_gen req) then Ok AnswerNull
  else
    let ask offset :=
      match q_range (req_query req) with
      | None => Ok (Queried offset None)
      | Some (first, last) =>
        let? m := view req s in
        Ok (Queried offset
              match to_offset m.1 m.2 first, to_offset m.1 m.2 last with
              | Some b, Some e => Some (b, e)
              | _, _ => None
              end)
      end in
    match q_position (req_query req) with
    | None => ask None
    | Some pos =>
      let? m := view req s in
      match to_offset m.1 m.2 pos with
      | None => Ok AnswerNull
      | Some offset => ask (Some offset)
      end
    end.

Definition set_point (pt : RequestPoint) (r : Request Pos) : Request Pos :=
  mkRequest (req_session r) (req_gen r) (req_map r) (req_query r) pt.

(** The request goes on with what [ensure_compiled] did. *)
Definition continue (q : nat) (req : Request Pos) (r : server * (bool + RequestPoint)) :
    result server :=
  let '(st, outcome) := r in
  match outcome with
  | inr pt => Ok (set_requests (<[q := set_point pt req]>) st)
  | inl ok =>
    let? s := read (objects st !! req_session req) in
    let? a := query_answer ok req s in
    let st := set_requests (<[q := set_point (Answered a) req]>) st in
    Ok (match a with Queried _ _ => emit (SendQuery (path_id s) a) st | AnswerNull => st end)
  end.

Definition snapshot_valid (pool : PathPool) (snap : DepsSnapshot) : bool :=
  bool_decide (length (hashes snap) = length (path_ids snap)) &&
  forallb (λ id, bool_decide (is_Some (resolve pool id))) (path_ids snap).

(** A handler that calls [forward_query].  The snapshots in [pch_cache] were recorded
    with the path pool. *)
Definition request (q : nat) (id : Z) (query : Query Pos) (w : W) (pch_cache : gmap Z DepsSnapshot)
    (found : Found) (st : server) : result server :=
  let? _ := guard_b (bool_decide (requests st !! q = None)) in
  let? _ := guard_b (forallb (λ e : Z * DepsSnapshot, snapshot_valid (pool st) e.2)
                       (map_to_list pch_cache)) in
  match find_session id st with
  | None => Ok st
  | Some o =>
    let? s := read (objects st !! o) in
    let? _ := read (resolve (pool st) (path_id s)) in
    let req := mkRequest o (generation s) (text s, line_starts s) query (Answered AnswerNull) in
    let? r := ensure_compiled w pch_cache found o st in
    continue q req r
  end.

Definition awaited (pt : RequestPoint) : option nat :=
  match pt with Joined p | Launched p => Some p | Answered _ => None end.

Definition resume (q : nat) (found : Found) (st : server) : result server :=
  let? req := need (requests st !! q) in
  let? p := need (awaited (req_point req)) in
  let? c := read (compiles st !! p) in
  let? _ := guard_b (done c) in
  let? r := ensure_compiled_resume found (req_session req) (req_gen req) (req_point req) st in
  continue q req r.

(** [$/cancelRequest] unwinds a suspended request. *)
Definition cancel_request (q : nat) (st : server) : result server :=
  let? req := need (requests st !! q) in
  let? _ := need (awaited (req_point req)) in
  Ok (set_requests (delete q) st).

(** [Compiler::stop]: the tasks are unwound where they are suspended. *)
Definition stop (st : server) : result server :=
  Ok (mkServer (sessions st) (objects st) (next_object st) (compiles st) (next_compile st) ∅
        (requests st) (pool st) true (effects st)).

(** ** Events *)

Inductive Event :=
| DidOpen (path : bytes) (ver : Z) (content : bytes)
| DidChange (id ver : Z) (changes : list Change)
| DidClose (id : Z)
| DidSave (dirtied : list Z)
| Crash (lost : list Z)
| SwitchContext (id context : Z)
| Ask (q : nat) (id : Z) (query : Query Pos) (w : W) (pch_cache : gmap Z DepsSnapshot)
    (found : Found)
| Resume (q : nat) (found : Found)
| Cancel (q : nat)
| DepsReturned (p : nat) (ok : bool) (ref : option PCHRef) (pch : bytes * Z)
    (pcms : gmap bytes bytes)
| SendReturned (p : nat) (res : option CompileResult) (now : Z) (reads : nat → W)
| Stop.

(** [didOpen] interns the path it opens. *)
Definition open_path (path : bytes) (ver : Z) (content : bytes) (st : server) : result server :=
  let? _ := guard_b (Z.of_nat (length (paths (pool st))) <? two32) in
  let '(pool', id) := intern (pool st) path in
  did_open id ver content (set_pool pool' st).

Definition step (e : Event) (st : server) : result server :=
  match e with
  | DidOpen path ver content => open_path path ver content st
  | DidChange id ver changes => did_change id ver changes st
  | DidClose id => close_session id st
  | DidSave dirtied => Ok (on_file_saved dirtied st)
  | Crash lost => Ok (on_crash lost st)
  | SwitchContext id context => switch_context id context st
  | Ask q id query w pch_cache found => request q id query w pch_cache found st
  | Resume q found => resume q found st
  | Cancel q => cancel_request q st
  | DepsReturned p ok ref pch pcms => deps_returned p ok ref pch pcms st
  | SendReturned p res now reads => send_returned p res now reads st
  | Stop => stop st
  end.

Definition initial (pool : PathPool) : server := mkServer ∅ ∅ 0 ∅ 0 ∅ ∅ pool false [].

(** Events that cannot happen change nothing. *)
Fixpoint run (events : list Event) (st : server) : result server :=
  match events with
  | [] => Ok st
  | e :: events =>
    match step e st with
    | Ok st => run events st
    | Err _ => run events st
    | Fault => Fault
    | Stuck => Stuck
    end
  end.
End server.
