(* ===== verification/DocumentInvariant.v ===== *)
(** * The invariant of the open documents

    [inv] says how sessions, compilations, tasks and requests refer to each other:
    handles are live, a compilation that a session or a request waits for has a task,
    a task whose generation is that of its session compiles the session's text, and a
    replaced task is still waiting for its dependencies.  [inv_local] shows that a
    change of one session, one compilation and its task keeps it; every step of a
    coroutine is such a change. *)
From S2P Require Import Prelude PathPool Snapshot IndexData MergedIndex IncludeGraph TUIndex Documents.
Local Open Scope Z_scope.
Local Open Scope cpp_scope.

Section invariant.
Context {Pos : Type}.
Implicit Types (st : Server Pos) (s : Session) (o p q : nat).

(** What a session holds by itself. *)
Record session_ok (pool : PathPool) s : Prop := {
  so_path : is_Some (resolve pool (path_id s));
  so_deps d : ast_deps s = Some d → snapshot_valid pool d = true;
  so_clean : ast_dirty s = false →
    ∃ c, compiled s = Some c ∧ cp_text c = text s ∧ cp_version c = version s;
}.

(** A task, its compilation and its session. *)
Record task_ok p (t : CompileTask) (c : PendingCompile) s : Prop := {
  to_running : done c = false;
  to_gen : pending_generation c = task_gen t;
  to_past : task_gen t ≤ generation s;
  to_text : task_gen t = generation s →
    cp_text (task_params t) = text s ∧ cp_version (task_params t) = version s;
  to_point : deps_done c = match task_point t with InDeps => false | InSend => true end;
  to_current : compiling s = Some p ∨ (task_gen t < generation s ∧ task_point t = InDeps);
}.

Definition attended st p o : Prop := ∃ t, tasks st !! p = Some t ∧ task_session t = o.

Record request_ok st (r : Request Pos) s : Prop := {
  ro_past : req_gen r ≤ generation s;
  ro_map : req_gen r = generation s → req_map r = (text s, line_starts s);
  ro_wait p : awaited (req_point r) = Some p →
    ∃ c, compiles st !! p = Some c ∧
      (done c = true ∨ closed st = true ∨ attended st p (req_session r));
}.

Record inv st : Prop := {
  i_pool : pool_ok (pool st);
  i_sessions id o : sessions st !! id = Some o → ∃ s, objects st !! o = Some s ∧ path_id s = id;
  i_objects o s : objects st !! o = Some s → (o < next_object st)%nat ∧ session_ok (pool st) s;
  i_compiles p c : compiles st !! p = Some c → (p < next_compile st)%nat;
  i_compiling o s p : objects st !! o = Some s → compiling s = Some p →
    (∃ c, compiles st !! p = Some c ∧ done c = false ∧ pending_generation c ≤ generation s) ∧
    (closed st = true ∨ attended st p o);
  i_tasks p t : tasks st !! p = Some t →
    ∃ c s, compiles st !! p = Some c ∧ objects st !! task_session t = Some s ∧ task_ok p t c s;
  i_requests k r : requests st !! k = Some r →
    ∃ s, objects st !! req_session r = Some s ∧ request_ok st r s;
  i_closed : closed st = true → tasks st = ∅;
}.

Lemma initial_inv pool : pool_ok pool → inv (initial pool).
Proof. intros. by split. Qed.

(** ** Pools only grow *)

Lemma snapshot_valid_extend pool pool' d :
  paths pool `prefix_of` paths pool' → snapshot_valid pool d = true → snapshot_valid pool' d = true.
Proof.
  unfold snapshot_valid. rewrite !andb_true_iff, !forallb_forall. intros Hp [? Hr]. split; [done|].
  intros id Hin. specialize (Hr id Hin). rewrite bool_decide_eq_true in *.
  destruct Hr as [x Hx]. exists x. by eapply resolve_stable.
Qed.

Lemma session_ok_extend pool pool' s :
  paths pool `prefix_of` paths pool' → session_ok pool s → session_ok pool' s.
Proof.
  intros Hp [[x Hx] Hd Hc]. split; [|intros d Hs|done].
  - exists x. by eapply resolve_stable.
  - eapply snapshot_valid_extend; eauto.
Qed.

Lemma deps_changed_total {W} `{Disk W} hash w pool d :
  snapshot_valid pool d = true → ∃ b, deps_changed hash w pool d = Ok b.
Proof.
  unfold snapshot_valid, deps_changed. rewrite andb_true_iff, bool_decide_eq_true.
  intros [Hl Hr]. revert Hl Hr. generalize (hashes d). induction (path_ids d) as [|id ids IH];
    intros hs Hl Hr; cbn; [by eexists|].
  destruct hs as [|h hs]; [done|]. cbn in Hl, Hr. apply andb_true_iff in Hr as [Hid Hr].
  apply bool_decide_eq_true in Hid as [x Hx]. rewrite Hx. cbn.
  destruct (dep_changed _ _ _ _ _); [by eexists|]. apply IH; [congruence|done].
Qed.

Lemma capture_files_valid {W} `{Disk W} hash reads i pool deps d :
  pool_ok pool → Z.of_nat (length (paths pool) + length deps) ≤ two32 →
  snapshot_valid pool d = true →
  let '(pool', d') := capture_files hash reads i pool deps d in
  pool_ok pool' ∧ paths pool `prefix_of` paths pool' ∧ snapshot_valid pool' d' = true.
Proof.
  revert i pool d. induction deps as [|f deps IH]; intros i pool d Hok Hlen Hd; [done|].
  cbn in Hlen. cbn [capture_files].
  pose proof (intern_ok pool f Hok ltac:(lia)) as Hok1.
  pose proof (resolve_intern pool f Hok ltac:(lia)) as Hr.
  pose proof (intern_length pool f) as Hl.
  pose proof (intern_paths_prefix pool f) as Hp.
  destruct (intern pool f) as [pool1 id]. cbn in Hok1, Hr, Hl, Hp.
  match goal with |- context [capture_files _ _ _ _ _ ?d1] =>
    specialize (IH (S i) pool1 d1 Hok1 ltac:(lia)) end.
  destruct (capture_files _ _ _ _ _ _) as [pool2 d2]. destruct IH as (? & ? & ?).
  - apply (snapshot_valid_extend _ _ _ Hp) in Hd. unfold snapshot_valid in *. cbn.
    rewrite andb_true_iff, bool_decide_eq_true in *. destruct Hd as [Hlen' Hall].
    rewrite !length_app, forallb_app, Hall, Hlen'. cbn. by rewrite Hr.
  - split_and!; [done | by trans (paths pool1) | done].
Qed.

(** ** Changes of one session *)

(** Nothing that is compared with the generation changes unless the generation grows. *)
Record advances s s' : Prop := {
  ad_path : path_id s' = path_id s;
  ad_gen : generation s ≤ generation s';
  ad_text : generation s' = generation s →
    text s' = text s ∧ version s' = version s ∧ line_starts s' = line_starts s;
}.

Lemma advances_refl s : advances s s.
Proof. by split. Qed.

Lemma advances_trans s1 s2 s3 : advances s1 s2 → advances s2 s3 → advances s1 s3.
Proof.
  intros [P1 G1 T1] [P2 G2 T2]. split; [congruence | lia |]. intros E.
  destruct T1 as (?&?&?); [lia|]. destruct T2 as (?&?&?); [lia|]. split_and!; congruence.
Qed.

Lemma advances_bump s s' :
  path_id s' = path_id s → generation s < generation s' → advances s s'.
Proof. intros. split; [done | lia | lia]. Qed.

Lemma task_ok_advance p t c s s' :
  advances s s' → compiling s' = compiling s → task_ok p t c s → task_ok p t c s'.
Proof.
  intros [P G T] Hc [? ? ? Htext ? Hcur]. split; try done; [lia| |].
  - intros E. destruct (T ltac:(lia)) as (? & ? & _), (Htext ltac:(lia)). split; congruence.
  - rewrite Hc. destruct Hcur as [?|[? ?]]; [by left | right; split; [lia|done]].
Qed.

Lemma request_map_advance (r : Request Pos) s s' :
  advances s s' → req_gen r ≤ generation s →
  (req_gen r = generation s → req_map r = (text s, line_starts s)) →
  req_gen r ≤ generation s' ∧
  (req_gen r = generation s' → req_map r = (text s', line_starts s')).
Proof.
  intros [P G T] ? Hm. split; [lia|]. intros E. destruct (T ltac:(lia)) as (Ht & _ & Hl).
  rewrite Ht, Hl. apply Hm. lia.
Qed.

(** ** The general step *)

(** [st'] is [st] with session [o], compilation [p] and its task replaced, and a pool
    that may have grown. *)
Record local_change st st' o s' p (c' : PendingCompile) (t' : option CompileTask) : Prop := {
  lc_sessions : sessions st' = sessions st;
  lc_objects o' : objects st' !! o' = if decide (o' = o) then Some s' else objects st !! o';
  lc_compiles p' : compiles st' !! p' = if decide (p' = p) then Some c' else compiles st !! p';
  lc_tasks p' : tasks st' !! p' = if decide (p' = p) then t' else tasks st !! p';
  lc_requests : requests st' = requests st;
  lc_closed : closed st' = closed st;
  lc_next_object : next_object st' = next_object st;
  lc_next_compile : (next_compile st ≤ next_compile st' ∧ p < next_compile st')%nat;
  lc_pool : pool_ok (pool st') ∧ paths (pool st) `prefix_of` paths (pool st');
}.

(** What the new session, compilation and task must satisfy. *)
Record change_ok st o s s' p (c' : PendingCompile) (t' : option CompileTask) : Prop := {
  co_advances : advances s s';
  co_owner o' s'' : objects st !! o' = Some s'' → compiling s'' = Some p → o' = o;
  co_compiling p' : compiling s' = Some p' →
    if decide (p' = p) then
      done c' = false ∧ pending_generation c' ≤ generation s' ∧ (closed st = true ∨ is_Some t')
    else compiling s = Some p';
  co_task t : t' = Some t → task_session t = o ∧ task_ok p t c' s';
  co_replaced p' t : tasks st !! p' = Some t → p' ≠ p → compiling s = Some p' →
    compiling s' = Some p' ∨ (task_gen t < generation s' ∧ task_point t = InDeps);
  co_waiters k r : requests st !! k = Some r → awaited (req_point r) = Some p →
    done c' = true ∨ closed st = true ∨ (is_Some t' ∧ req_session r = o);
  co_closed : closed st = true → t' = None;
}.

Section local.
Context st st' o s s' p (c' : PendingCompile) (t' : option CompileTask).
Context (I : inv st) (Ho : objects st !! o = Some s) (L : local_change st st' o s' p c' t').
Context (Hs' : session_ok (pool st') s') (C : change_ok st o s s' p c' t').

Local Lemma objects_change o' :
  objects st' !! o' = if decide (o' = o) then Some s' else objects st !! o'.
Proof. apply (lc_objects _ _ _ _ _ _ _ L). Qed.
Local Lemma compiles_change p' :
  compiles st' !! p' = if decide (p' = p) then Some c' else compiles st !! p'.
Proof. apply (lc_compiles _ _ _ _ _ _ _ L). Qed.
Local Lemma tasks_change p' : tasks st' !! p' = if decide (p' = p) then t' else tasks st !! p'.
Proof. apply (lc_tasks _ _ _ _ _ _ _ L). Qed.
Local Lemma closed_change : closed st' = closed st.
Proof. apply (lc_closed _ _ _ _ _ _ _ L). Qed.
Local Lemma session_advances : advances s s'.
Proof. apply (co_advances _ _ _ _ _ _ _ C). Qed.

Local Lemma local_objects o' s0 :
  objects st' !! o' = Some s0 → (o' < next_object st')%nat ∧ session_ok (pool st') s0.
Proof.
  destruct (lc_pool _ _ _ _ _ _ _ L) as [_ Hpre].
  rewrite objects_change, (lc_next_object _ _ _ _ _ _ _ L). case_decide as Hd.
  - intros [= <-]. subst. split; [|done]. by apply (i_objects _ I) in Ho as [? _].
  - intros Hl. apply (i_objects _ I) in Hl as [? ?]. split; [done|]. by eapply session_ok_extend.
Qed.

Local Lemma local_compiling o' s0 p' :
  objects st' !! o' = Some s0 → compiling s0 = Some p' →
  (∃ c, compiles st' !! p' = Some c ∧ done c = false ∧ pending_generation c ≤ generation s0) ∧
  (closed st' = true ∨ attended st' p' o').
Proof.
  rewrite objects_change, compiles_change, closed_change. unfold attended.
  setoid_rewrite tasks_change. case_decide as Hd.
  - intros [= <-] Hc. subst o'. pose proof (co_compiling _ _ _ _ _ _ _ C _ Hc) as Hp'.
    case_decide as Hd'.
    + subst p'. destruct Hp' as (? & ? & Hcl). split; [by eexists|].
      destruct Hcl as [?|[t Ht]]; [by left|right]. exists t.
      split; [done|]. by apply (co_task _ _ _ _ _ _ _ C).
    + destruct (i_compiling _ I _ _ _ Ho Hp') as [(c & ? & ? & ?) ?].
      split; [|done]. exists c. split_and!; [done|done|].
      pose proof (ad_gen _ _ session_advances). lia.
  - intros Hl Hc. destruct (i_compiling _ I _ _ _ Hl Hc) as [? ?].
    destruct (decide (p' = p)) as [->|]; [|done].
    by destruct Hd; eapply co_owner.
Qed.

Local Lemma local_tasks p' t :
  tasks st' !! p' = Some t →
  ∃ c s0, compiles st' !! p' = Some c ∧ objects st' !! task_session t = Some s0 ∧ task_ok p' t c s0.
Proof.
  rewrite tasks_change. setoid_rewrite objects_change. setoid_rewrite compiles_change.
  case_decide as Hd.
  - intros E. destruct (co_task _ _ _ _ _ _ _ C _ E) as [? ?]. exists c', s'.
    split_and!; [done| |by subst]. by rewrite decide_True.
  - intros Ht. destruct (i_tasks _ I _ _ Ht) as (c & s0 & ? & Hs0 & Hok). exists c.
    destruct (decide (task_session t = o)) as [E|]; [|by exists s0].
    exists s'. split_and!; [done|done|]. rewrite E, Ho in Hs0. injection Hs0 as <-.
    destruct Hok as [R Gn Pa Te Po Cu]. pose proof (ad_gen _ _ session_advances).
    split; try done; [lia| |].
    + intros Eg. destruct (ad_text _ _ session_advances ltac:(lia)) as (? & ? & _), (Te ltac:(lia)).
      split; congruence.
    + destruct Cu as [Cu|[? ?]]; [by eapply co_replaced|]. right. split; [lia|done].
Qed.

Local Lemma local_waits k r p' :
  requests st !! k = Some r → awaited (req_point r) = Some p' →
  ∃ c, compiles st' !! p' = Some c ∧
    (done c = true ∨ closed st' = true ∨ attended st' p' (req_session r)).
Proof.
  intros Hk Hp'. destruct (i_requests _ I _ _ Hk) as (s0 & Hs0 & [_ _ Wa]).
  rewrite compiles_change, closed_change. unfold attended. setoid_rewrite tasks_change.
  case_decide; [|by apply Wa]. subst p'. exists c'. split; [done|].
  destruct (co_waiters _ _ _ _ _ _ _ C _ _ Hk Hp') as [?|[?|[[t Ht] ?]]];
    [by left | by right; left|].
  right; right. exists t. split; [done|]. destruct (co_task _ _ _ _ _ _ _ C _ Ht). congruence.
Qed.

Local Lemma local_requests k r :
  requests st' !! k = Some r → ∃ s0, objects st' !! req_session r = Some s0 ∧ request_ok st' r s0.
Proof.
  rewrite (lc_requests _ _ _ _ _ _ _ L), objects_change. intros Hk.
  destruct (i_requests _ I _ _ Hk) as (s0 & Hs0 & [Pa Ma _]). case_decide as Hd.
  - rewrite Hd, Ho in Hs0. injection Hs0 as <-.
    destruct (request_map_advance r s s' session_advances Pa Ma). exists s'. split; [done|].
    split; [done|done|]. intros. by eapply local_waits.
  - exists s0. split; [done|]. split; [done|done|]. intros. by eapply local_waits.
Qed.

Lemma inv_local : inv st'.
Proof.
  split; [by apply (lc_pool _ _ _ _ _ _ _ L) | | apply local_objects | | apply local_compiling |
          apply local_tasks | apply local_requests |].
  - intros id o'. rewrite (lc_sessions _ _ _ _ _ _ _ L), objects_change. intros Hid.
    destruct (i_sessions _ I _ _ Hid) as (s0 & ? & ?). case_decide; [|eauto]. subst.
    exists s'. split; [done|]. rewrite (ad_path _ _ session_advances). congruence.
  - intros p' c. rewrite compiles_change. destruct (lc_next_compile _ _ _ _ _ _ _ L).
    case_decide; [by subst|]. intros Hl%(i_compiles _ I). lia.
  - rewrite closed_change. intros Hcl. apply map_eq. intros p'.
    rewrite tasks_change, lookup_empty. case_decide.
    + by apply (co_closed _ _ _ _ _ _ _ C).
    + by rewrite (i_closed _ I Hcl).
Qed.
End local.
End invariant.
