(* ===== verification/DocumentSteps.v ===== *)
(** * Every event keeps the invariant of the open documents *)
From S2P Require Import Prelude PathPool Snapshot IndexData MergedIndex IncludeGraph TUIndex Documents DocumentInvariant.
Local Open Scope Z_scope.
Local Open Scope cpp_scope.

(** The outcome is a value with [P], or the event was not possible. *)
Definition safe {A} (r : Res unit A) (P : A → Prop) : Prop :=
  match r with Ok a => P a | Err _ => True | Fault | Stuck => False end.

Lemma safe_then {A B} (m : Res unit A) (k : A → Res unit B) (P : A → Prop) (Q : B → Prop) :
  safe m P → (∀ a, P a → safe (k a) Q) → safe (Res_bind m k) Q.
Proof. destruct m; cbn; auto. Qed.

Lemma safe_weaken {A} (r : Res unit A) (P Q : A → Prop) :
  safe r P → (∀ a, P a → Q a) → safe r Q.
Proof. destruct r; cbn; auto. Qed.

Lemma safe_guarded {A} b (k : unit → Res unit A) Q :
  (b = true → safe (k tt) Q) → safe (Res_bind (guard_b b) k) Q.
Proof. destruct b; cbn; auto. Qed.

Lemma safe_needed {A B} (o : option A) (k : A → Res unit B) Q :
  (∀ a, o = Some a → safe (k a) Q) → safe (Res_bind (need o) k) Q.
Proof. destruct o; cbn; auto. Qed.

(** The outcome is a value with [P]. *)
Definition sure {A} (r : Res unit A) (P : A → Prop) : Prop :=
  match r with Ok a => P a | Err _ | Fault | Stuck => False end.

Lemma sure_bind {A B} (m : Res unit A) (k : A → Res unit B) (P : A → Prop) (Q : B → Prop) :
  sure m P → (∀ a, P a → sure (k a) Q) → sure (Res_bind m k) Q.
Proof. destruct m; cbn; [auto|done..]. Qed.

Lemma sure_weaken {A} (r : Res unit A) (P Q : A → Prop) :
  sure r P → (∀ a, P a → Q a) → sure r Q.
Proof. destruct r; cbn; auto. Qed.

Lemma sure_safe {A} (r : Res unit A) (P : A → Prop) : sure r P → safe r P.
Proof. by destruct r. Qed.

(** Steps through the first operation of a sequence. *)
Ltac after lem := eapply safe_then; [eapply lem|].

Section steps.
Context {Pos : Type}.
Implicit Types (st : Server Pos) (s : Session) (o p q : nat).

(** ** Frames *)

Lemma inv_frame st st' :
  inv st → sessions st' = sessions st → objects st' = objects st → compiles st' = compiles st →
  tasks st' = tasks st → requests st' = requests st → closed st' = closed st →
  next_object st' = next_object st → next_compile st' = next_compile st →
  pool_ok (pool st') → paths (pool st) `prefix_of` paths (pool st') → inv st'.
Proof.
  intros I Es Eo Ec Et Er El En Em Hp Hpre. destruct I.
  split; rewrite ?Es, ?Eo, ?Ec, ?Et, ?Er, ?El, ?En, ?Em; try done.
  - intros o s Ho. destruct (i_objects o s Ho). split; [done|]. by eapply session_ok_extend.
  - unfold attended. rewrite Et. done.
  - intros k r Hk. destruct (i_requests k r Hk) as (s & Hs & [? ? Hw]). exists s. split; [done|].
    split; [done|done|]. unfold attended. by rewrite Ec, El, Et.
Qed.

Lemma inv_emit e st : inv st → inv (emit e st).
Proof. intros I. apply (inv_frame st); try done. apply (i_pool _ I). Qed.

Lemma inv_set_pool pool' st :
  inv st → pool_ok pool' → paths (pool st) `prefix_of` paths pool' → inv (set_pool pool' st).
Proof. intros I ? ?. by apply (inv_frame st). Qed.

Lemma inv_set_request st q r s :
  inv st → objects st !! req_session r = Some s → request_ok st r s →
  inv (set_requests (<[q := r]>) st).
Proof.
  intros [] Hs Hr. split; try done. intros k r0. cbn. destruct (decide (k = q)) as [->|].
  - rewrite lookup_insert_eq. intros [= <-]. exists s. split; [done|]. by destruct Hr.
  - rewrite lookup_insert_ne by done. intros Hk. destruct (i_requests k r0 Hk) as (s0 & ? & []).
    by exists s0.
Qed.

Lemma inv_delete_request st q : inv st → inv (set_requests (delete q) st).
Proof.
  intros []. split; try done. intros k r0. cbn. rewrite lookup_delete_Some. intros [_ Hk].
  destruct (i_requests k r0 Hk) as (s0 & ? & []). by exists s0.
Qed.

(** ** One session *)

Lemma inv_object st o s s' :
  inv st → objects st !! o = Some s → advances s s' → compiling s' = compiling s →
  session_ok (pool st) s' → inv (update_object o s' st).
Proof.
  intros I Ho Ha Hc Hok.
  assert (Hl : ∀ o', objects (update_object o s' st) !! o' = if decide (o' = o) then Some s' else objects st !! o').
  { intros o'. cbn. case_decide; [subst; apply lookup_insert_eq | by apply lookup_insert_ne]. }
  destruct I. split; try done; setoid_rewrite Hl.
  - intros id o' Hid. destruct (i_sessions id o' Hid) as (s0 & ? & ?). case_decide; [|eauto].
    exists s'. split; [done|]. rewrite (ad_path _ _ Ha). congruence.
  - intros o' s0. case_decide; [|apply i_objects]. intros [= <-]. subst.
    by destruct (i_objects o s Ho).
  - intros o' s0 p. case_decide as Hd; [|apply i_compiling]. intros [= <-] Hp. subst o'.
    rewrite Hc in Hp. destruct (i_compiling o s p Ho Hp) as [(c & ? & ? & ?) ?].
    split; [|done]. exists c. pose proof (ad_gen _ _ Ha). split_and!; [done|done|lia].
  - intros p t Ht. destruct (i_tasks p t Ht) as (c & s0 & ? & Hs0 & ?). exists c.
    case_decide as Hd; [|by exists s0]. exists s'. rewrite Hd, Ho in Hs0. injection Hs0 as <-.
    split_and!; [done..|]. by eapply task_ok_advance.
  - intros k r Hk. destruct (i_requests k r Hk) as (s0 & Hs0 & [Pa Ma Wa]).
    case_decide as Hd; [|by exists s0]. exists s'. rewrite Hd, Ho in Hs0. injection Hs0 as <-.
    destruct (request_map_advance r s s' Ha Pa Ma). by split.
Qed.

(** A change that marks the tree as out of date, and touches neither text nor
    compilation. *)
Lemma inv_dirty_object st o s s' :
  inv st → objects st !! o = Some s → advances s s' → compiling s' = compiling s →
  ast_dirty s' = true → (ast_deps s' = ast_deps s ∨ ast_deps s' = None) →
  inv (update_object o s' st).
Proof.
  intros I Ho Ha Hc Hd He. eapply inv_object; [done..|].
  destruct (proj2 (i_objects _ I _ _ Ho)) as [P D _]. split.
  - by rewrite (ad_path _ _ Ha).
  - intros d Hs. destruct He as [He|He]; rewrite He in Hs; [by apply D | done].
  - congruence.
Qed.

(** A change of fields no other part refers to. *)
Lemma inv_quiet_object st o s s' :
  inv st → objects st !! o = Some s → path_id s' = path_id s → generation s' = generation s →
  text s' = text s → version s' = version s → line_starts s' = line_starts s →
  compiling s' = compiling s → ast_deps s' = ast_deps s → ast_dirty s' = ast_dirty s →
  compiled s' = compiled s → inv (update_object o s' st).
Proof.
  intros I Ho E1 E2 E3 E4 E5 E6 E7 E8 E9. eapply inv_object; [done|done| |done|].
  - split; [done | lia | done].
  - destruct (proj2 (i_objects _ I _ _ Ho)) as [P D Cl].
    split; [by rewrite E1 | by rewrite E7 | by rewrite E8, E9, E3, E4].
Qed.

Lemma bump_safe s : safe (bump s) (λ s', s' = set_generation (generation s + 1) s).
Proof. unfold bump. destruct (_ <? _); done. Qed.

Lemma bump_object_safe st o :
  inv st → is_Some (objects st !! o) →
  safe (bump_object o st) (λ st', inv st' ∧ sessions st' = sessions st ∧
    requests st' = requests st ∧ pool st' = pool st).
Proof.
  intros I [s Ho]. unfold bump_object. rewrite Ho. cbn [read Res_bind].
  after bump_safe. intros s' ->. cbn. split_and!; [|done..]. eapply inv_object; [done|done| |done|].
  - apply advances_bump; [done | cbn; lia].
  - by destruct (proj2 (i_objects _ I _ _ Ho)).
Qed.

(** Setting a flag of a session in place. *)
Lemma inv_alter_object st o f :
  inv st →
  (∀ s, objects st !! o = Some s → advances s (f s) ∧ compiling (f s) = compiling s ∧
    session_ok (pool st) (f s)) →
  inv (set_objects (alter f o) st).
Proof.
  intros I Hf. destruct (objects st !! o) as [s|] eqn:Ho.
  - destruct (Hf s eq_refl) as (? & ? & ?).
    enough (set_objects (alter f o) st = update_object o (f s) st) as -> by by eapply inv_object.
    unfold update_object, set_objects. f_equal. apply map_eq. intros i.
    destruct (decide (i = o)) as [->|];
      [by rewrite lookup_alter_eq, lookup_insert_eq, Ho | by rewrite lookup_alter_ne, lookup_insert_ne].
  - enough (set_objects (alter f o) st = st) as -> by done.
    destruct st. unfold set_objects. cbn in *. f_equal. apply map_eq. intros i.
    destruct (decide (i = o)) as [->|]; [by rewrite lookup_alter_eq, Ho | by rewrite lookup_alter_ne].
Qed.

Lemma inv_alter_dirty st o f :
  inv st →
  (∀ s, path_id (f s) = path_id s ∧ generation (f s) = generation s ∧ text (f s) = text s ∧
    version (f s) = version s ∧ line_starts (f s) = line_starts s ∧
    compiling (f s) = compiling s ∧ ast_deps (f s) = ast_deps s ∧
    (ast_dirty (f s) = true ∨ f s = s)) →
  inv (set_objects (alter f o) st).
Proof.
  intros I Hf. apply inv_alter_object; [done|]. intros s Ho.
  destruct (Hf s) as (E1 & E2 & E3 & E4 & E5 & E6 & E7 & E8).
  destruct (proj2 (i_objects _ I _ _ Ho)) as [P D Cl]. split_and!.
  - split; [done | lia | done].
  - done.
  - split; [by rewrite E1 | by rewrite E7 |]. destruct E8 as [E8|E8]; [congruence | by rewrite E8].
Qed.

Lemma inv_mark_dirty st id : inv st → inv (mark_dirty st id).
Proof.
  intros I. unfold mark_dirty. destruct (find_session id st); [|done].
  apply inv_alter_dirty; [done|]. intros s. cbn. split_and!; try done. by left.
Qed.

Lemma on_crash_inv lost st : inv st → inv (on_crash lost st).
Proof.
  unfold on_crash. revert st. induction lost as [|id lost IH]; intros st I; [done|].
  cbn. by apply IH, inv_mark_dirty.
Qed.

Lemma on_file_saved_inv dirtied st : inv st → inv (on_file_saved dirtied st).
Proof.
  intros I. unfold on_file_saved. apply inv_emit.
  assert (inv (foldl mark_or_enqueue st dirtied)) as I1.
  { revert st I. induction dirtied as [|id l IH]; intros st I; [done|]. cbn. apply IH.
    unfold mark_or_enqueue. case_match; [by apply inv_mark_dirty | by apply inv_emit]. }
  revert I1. generalize (foldl mark_or_enqueue st dirtied) as st1. clear st I dirtied.
  intros st1. generalize (map_to_list (sessions st1)) as l.
  intros l. revert st1. induction l as [|[id o] l IH]; intros st1 I; [done|]. cbn. apply IH.
  apply inv_alter_dirty; [done|]. intros s. unfold reset_context.
  destruct (header_context s) as [c|]; [|by split_and!; try done; right].
  destruct (decide _); [|by split_and!; try done; right]. cbn. split_and!; try done. by left.
Qed.

Lemma switch_context_safe id context st : inv st → safe (switch_context id context st) inv.
Proof.
  intros I. unfold switch_context, find_session. destruct (sessions st !! id) as [o|] eqn:Hid; [|done].
  destruct (i_sessions _ I _ _ Hid) as (s & Ho & _). rewrite Ho. cbn [read Res_bind safe].
  eapply inv_dirty_object; [done|done| |done|done|by right]. by split.
Qed.

(** ** Opening, changing and closing *)

Lemma inv_add_session st id :
  inv st → is_Some (resolve (pool st) id) →
  inv (mkServer (<[id := next_object st]> (sessions st))
         (<[next_object st := new_session id]> (objects st)) (S (next_object st))
         (compiles st) (next_compile st) (tasks st) (requests st) (pool st) (closed st) (effects st)).
Proof.
  intros I Hid.
  assert (Hf : ∀ o s, objects st !! o = Some s → o ≠ next_object st).
  { intros o s Ho ->. apply (i_objects _ I) in Ho as [? _]. lia. }
  assert (Hold : ∀ o s, objects st !! o = Some s →
    <[next_object st := new_session id]> (objects st) !! o = Some s).
  { intros o s Ho. rewrite lookup_insert_ne; [done|]. symmetry. eauto. }
  destruct I. split; cbn; try done.
  - intros i o. destruct (decide (i = id)) as [->|].
    + rewrite lookup_insert_eq. intros [= <-]. exists (new_session id). by rewrite lookup_insert_eq.
    + rewrite lookup_insert_ne by done. intros Hi. destruct (i_sessions i o Hi) as (s & ? & ?). eauto.
  - intros o s. destruct (decide (o = next_object st)) as [->|].
    + rewrite lookup_insert_eq. intros [= <-]. split; [lia|]. by split.
    + rewrite lookup_insert_ne by done. intros Ho. destruct (i_objects o s Ho). split; [lia|done].
  - intros o s p. destruct (decide (o = next_object st)) as [->|].
    + rewrite lookup_insert_eq. intros [= <-]. done.
    + rewrite lookup_insert_ne by done. apply i_compiling.
  - intros p t Ht. destruct (i_tasks p t Ht) as (c & s & ? & ? & ?). exists c, s. eauto.
  - intros k r Hk. destruct (i_requests k r Hk) as (s & ? & []). exists s. split; [eauto|by split].
Qed.

Lemma open_session_safe id st :
  inv st → is_Some (resolve (pool st) id) →
  safe (open_session id st) (λ r, inv r.1 ∧ objects r.1 !! r.2 = Some (new_session id)).
Proof.
  intros I Hid. unfold open_session.
  eapply (safe_then _ _ (λ st', inv st' ∧ pool st' = pool st)).
  - destruct (sessions st !! id) as [o|] eqn:Hs; [|done].
    destruct (i_sessions _ I _ _ Hs) as (s & Ho & _).
    eapply safe_weaken; [apply bump_object_safe; [done | by eexists]|]. naive_solver.
  - intros st' [I' Hp]. cbn. split; [|apply lookup_insert_eq]. apply inv_add_session; [done|].
    by rewrite Hp.
Qed.

Lemma apply_changes_same bls to_off (changes : list (Change (Pos := Pos))) s :
  let s' := foldl (apply_change bls to_off) s changes in
  path_id s' = path_id s ∧ generation s' = generation s ∧ compiling s' = compiling s ∧
  ast_deps s' = ast_deps s ∧ ast_dirty s' = ast_dirty s.
Proof.
  revert s. induction changes as [|c changes IH]; intros s; [done|]. cbn.
  specialize (IH (apply_change bls to_off s c)). cbn in IH.
  destruct IH as (-> & -> & -> & -> & ->). by destruct c.
Qed.

Lemma did_open_safe bls id ver content st :
  inv st → is_Some (resolve (pool st) id) → safe (did_open bls id ver content st) inv.
Proof.
  intros I Hid. unfold did_open. after open_session_safe; [done|done|].
  intros [st' o] [I' Ho]. cbn in I', Ho. cbn [fst snd]. rewrite Ho. cbn [read Res_bind].
  after bump_safe. intros s' ->. cbn [safe].
  eapply inv_dirty_object; [done|done| |done|done|by left].
  apply advances_bump; [done | cbn; lia].
Qed.

Lemma open_path_safe bls path ver content st : inv st → safe (open_path bls path ver content st) inv.
Proof.
  intros I. unfold open_path. apply safe_guarded. intros Hlt. apply Z.ltb_lt in Hlt.
  pose proof (intern_ok (pool st) path (i_pool _ I) Hlt) as Hok.
  pose proof (resolve_intern (pool st) path (i_pool _ I) Hlt) as Hr.
  pose proof (intern_paths_prefix (pool st) path) as Hp.
  destruct (intern (pool st) path) as [pool' id]. cbn in Hok, Hr, Hp.
  apply did_open_safe; [by apply inv_set_pool | by eexists].
Qed.

Lemma did_change_safe bls to_off id ver changes st :
  inv st → safe (did_change (Pos := Pos) bls to_off id ver changes st) inv.
Proof.
  intros I. unfold did_change. destruct (sessions st !! id) as [o|] eqn:Hid; [|done].
  destruct (i_sessions _ I _ _ Hid) as (s & Ho & _). rewrite Ho. cbn [read Res_bind].
  destruct (apply_changes_same bls to_off changes (set_text ver (text s) (line_starts s) s))
    as (E1 & E2 & E3 & E4 & _). cbn in E1, E2, E3, E4.
  after bump_safe. intros s' ->. cbn [safe]. apply inv_emit.
  eapply inv_dirty_object; [done|done| | |done|left]; cbn; [|done|done].
  apply advances_bump; [done | cbn; lia].
Qed.

Lemma inv_delete_session st id : inv st → inv (set_sessions (delete id) st).
Proof.
  intros []. split; try done.
  - intros i o. cbn. rewrite lookup_delete_Some. naive_solver.
  - intros k r Hk. destruct (i_requests k r Hk) as (s & ? & []). exists s. split; [done|by split].
Qed.

Lemma close_session_safe id st : inv st → safe (close_session id st) inv.
Proof.
  intros I. unfold close_session.
  apply (inv_emit (NotifyEvict id)), (inv_emit (ClearDiagnostics id)) in I.
  eapply (safe_then _ _ inv); [|intros st' I'; cbn; by do 2 apply inv_emit].
  revert I. generalize (emit (ClearDiagnostics id) (emit (NotifyEvict id) st)). intros st' I.
  destruct (sessions st' !! id) as [o|] eqn:Hs; [|done].
  destruct (i_sessions _ I _ _ Hs) as (s & Ho & _).
  after bump_object_safe; [done | by eexists |]. intros st1 [I1 _]. cbn. by apply inv_delete_session.
Qed.

Lemma stop_safe st : inv st → safe (stop st) inv.
Proof.
  intros []. cbn. split; cbn; try done.
  - intros o s p Ho Hp. destruct (i_compiling o s p Ho Hp) as [? _]. split; [done|by left].
  - intros k r Hk. destruct (i_requests k r Hk) as (s & ? & [? ? Hw]). exists s. split; [done|].
    split; [done|done|]. intros p Hp. destruct (Hw p Hp) as (c & ? & _). exists c.
    split; [done|]. by right; left.
Qed.
End steps.
