(* ===== verification/DocumentTasks.v ===== *)
(** * The coroutines keep the invariant of the open documents *)
From S2P Require Import Prelude PathPool Snapshot IndexData MergedIndex IncludeGraph TUIndex Documents DocumentInvariant DocumentSteps.
Local Open Scope Z_scope.
Local Open Scope cpp_scope.

Section tasks.
Context {Pos : Type}.
Implicit Types (st : Server Pos) (s : Session) (o p q : nat).

(** ** Composing local changes *)

Lemma lookup_insert_decide {K A} `{Countable K} (m : gmap K A) i j x :
  <[i := x]> m !! j = if decide (j = i) then Some x else m !! j.
Proof. case_decide; [subst; apply lookup_insert_eq | by apply lookup_insert_ne]. Qed.

Lemma lookup_alter_decide {K A} `{Countable K} (m : gmap K A) f i j x :
  m !! i = Some x → alter f i m !! j = if decide (j = i) then Some (f x) else m !! j.
Proof.
  intros Hi. case_decide; [subst; by rewrite lookup_alter_eq, Hi | by apply lookup_alter_ne].
Qed.

Lemma lc_refl st o s p c :
  inv st → objects st !! o = Some s → compiles st !! p = Some c →
  local_change st st o s p c (tasks st !! p).
Proof.
  intros I Ho Hc. split; try done.
  - intros o'. case_decide; [by subst|done].
  - intros p'. case_decide; [by subst|done].
  - intros p'. case_decide; [by subst|done].
  - split; [done|]. by eapply i_compiles.
  - split; [apply (i_pool _ I) | done].
Qed.

Lemma lc_object st st1 o s1 p c1 t1 s2 :
  local_change st st1 o s1 p c1 t1 → local_change st (update_object o s2 st1) o s2 p c1 t1.
Proof.
  intros []. split; try done. intros o'. cbn. rewrite lookup_insert_decide.
  case_decide; [done|]. rewrite lc_objects. by rewrite decide_False.
Qed.

Lemma lc_compile st st1 o s1 p c1 t1 f :
  local_change st st1 o s1 p c1 t1 → local_change st (update_compile p f st1) o s1 p (f c1) t1.
Proof.
  intros []. split; try done. intros p'. cbn.
  rewrite (lookup_alter_decide _ _ _ _ c1) by (rewrite lc_compiles; by rewrite decide_True).
  case_decide; [done|]. rewrite lc_compiles. by rewrite decide_False.
Qed.

Lemma lc_set_task st st1 o s1 p c1 t1 t2 :
  local_change st st1 o s1 p c1 t1 →
  local_change st (set_tasks (<[p := t2]>) st1) o s1 p c1 (Some t2).
Proof.
  intros []. split; try done. intros p'. cbn. rewrite lookup_insert_decide.
  case_decide; [done|]. rewrite lc_tasks. by rewrite decide_False.
Qed.

Lemma lc_delete_task st st1 o s1 p c1 t1 :
  local_change st st1 o s1 p c1 t1 → local_change st (set_tasks (delete p) st1) o s1 p c1 None.
Proof.
  intros []. split; try done. intros p'. cbn. case_decide.
  - subst. apply lookup_delete_eq.
  - rewrite lookup_delete_ne by done. rewrite lc_tasks. by rewrite decide_False.
Qed.

Lemma lc_emit st st1 o s1 p c1 t1 e :
  local_change st st1 o s1 p c1 t1 → local_change st (emit e st1) o s1 p c1 t1.
Proof. by intros []. Qed.

Lemma lc_set_pool st st1 o s1 p c1 t1 pool' :
  local_change st st1 o s1 p c1 t1 → pool_ok pool' → paths (pool st1) `prefix_of` paths pool' →
  local_change st (set_pool pool' st1) o s1 p c1 t1.
Proof.
  intros [] ? ?. split; try done. split; [done|]. destruct lc_pool as [_ Hp]. cbn.
  by trans (paths (pool st1)).
Qed.

(** ** Finishing a compilation *)

Definition released p s : Session := if decide (compiling s = Some p) then set_compiling None s else s.

Lemma finish_local st st1 o s1 p c1 t1 :
  local_change st st1 o s1 p c1 t1 →
  sure (finish_compile o p st1)
    (λ st', local_change st st' o (released p s1) p (finished c1) None ∧ pool st' = pool st1).
Proof.
  intros L. unfold finish_compile. rewrite (lc_objects _ _ _ _ _ _ _ L), decide_True by done.
  cbn [read Res_bind sure]. split; [|by case_decide].
  eapply lc_delete_task, lc_compile. unfold released. case_decide; [by eapply lc_object | done].
Qed.

Lemma task_owner st o s p t :
  inv st → tasks st !! p = Some t → objects st !! o = Some s → compiling s = Some p →
  o = task_session t.
Proof.
  intros I Ht Ho Hp. destruct (i_compiling _ I _ _ _ Ho Hp) as [_ [Hc|(t' & Ht' & <-)]].
  - by rewrite (i_closed _ I Hc) in Ht.
  - by rewrite Ht in Ht'; injection Ht' as ->.
Qed.

Lemma compiling_released p s p' : compiling (released p s) = Some p' → p' ≠ p ∧ compiling s = Some p'.
Proof. unfold released. case_decide; [done|]. intros Hc. split; [congruence|done]. Qed.

Lemma released_keeps p s :
  path_id (released p s) = path_id s ∧ generation (released p s) = generation s ∧
  text (released p s) = text s ∧ version (released p s) = version s ∧
  line_starts (released p s) = line_starts s ∧ ast_deps (released p s) = ast_deps s ∧
  ast_dirty (released p s) = ast_dirty s ∧ compiled (released p s) = compiled s.
Proof. unfold released. by case_decide. Qed.

Lemma advances_released p s s1 : advances s s1 → advances s (released p s1).
Proof.
  destruct (released_keeps p s1) as (E1 & E2 & E3 & E4 & E5 & _).
  intros [? ? ?]. split; rewrite ?E1, ?E2, ?E3, ?E4, ?E5; done.
Qed.

Lemma session_ok_released p pool s : session_ok pool s → session_ok pool (released p s).
Proof.
  destruct (released_keeps p s) as (E1 & _ & E3 & E4 & _ & E6 & E7 & E8).
  intros [? ? ?]. split; rewrite ?E1, ?E3, ?E4, ?E6, ?E7, ?E8; done.
Qed.

Lemma finish_change_ok st o s s1 p t c1 :
  inv st → tasks st !! p = Some t → o = task_session t → objects st !! o = Some s →
  advances s s1 → compiling s1 = compiling s → change_ok st o s (released p s1) p (finished c1) None.
Proof.
  intros I Ht -> Ho Ha Hc. split.
  - by apply advances_released.
  - intros. by eapply task_owner.
  - intros p' Hp'. apply compiling_released in Hp' as [? ?]. rewrite decide_False by done. congruence.
  - done.
  - intros p' t' _ ? Hp'. left. unfold released. rewrite Hc, Hp', decide_False by congruence. congruence.
  - intros. by left.
  - done.
Qed.

(** A task that ends leaves a good state whatever it has changed in its session. *)
Lemma finish_safe st st1 o s s1 p t c1 t1 :
  inv st → tasks st !! p = Some t → o = task_session t → objects st !! o = Some s →
  local_change st st1 o s1 p c1 t1 → advances s s1 → compiling s1 = compiling s →
  session_ok (pool st1) s1 → safe (finish_compile o p st1) inv.
Proof.
  intros I Ht Ho' Ho L Ha Hc Hs. eapply sure_safe, sure_weaken; [by eapply finish_local|].
  intros st' [L' Hp]. eapply inv_local; [done|done|done| |by eapply finish_change_ok].
  rewrite Hp. by apply session_ok_released.
Qed.

Lemma deps_returned_safe p deps_ok ref pch pcms st :
  inv st → safe (deps_returned p deps_ok ref pch pcms st) inv.
Proof.
  intros I. unfold deps_returned. apply safe_needed. intros t Ht. apply safe_guarded. intros Hpt.
  destruct (i_tasks _ I _ _ Ht) as (c & s & Hc & Ho & Hok). rewrite Ho. cbn [read Res_bind].
  set (s1 := set_pch_ref ref s).
  set (st1 := update_compile p settled (update_object (task_session t) s1 st)).
  assert (L : local_change st st1 (task_session t) s1 p (settled c) (tasks st !! p))
    by (by eapply lc_compile, lc_object, lc_refl).
  destruct (proj2 (i_objects _ I _ _ Ho)) as [P D Cl].
  assert (Hadv : advances s s1) by done.
  assert (Hsok : session_ok (pool st1) s1) by done.
  destruct (negb deps_ok); [by eapply finish_safe|].
  destruct (decide _) as [|Hgen]; [by eapply finish_safe|]. cbn [safe]. apply inv_emit.
  eapply inv_local; [done|done|by eapply lc_set_task|done|].
  destruct Hok as [R G Pa Te Po Cu]. apply dec_stable in Hgen.
  destruct Cu as [Cu|[? _]]; [|lia]. split; try done.
  - intros. by eapply task_owner.
  - cbn. intros p' Hp'. assert (p' = p) as -> by congruence. rewrite decide_True by done.
    split_and!; [done | rewrite G; lia | right; by eexists].
  - intros ? [= <-]. cbn. split; [done|]. split; try done. by left.
  - intros p' t' _ ? Hp'. congruence.
  - intros k r Hk Hp'. destruct (i_requests _ I _ _ Hk) as (s0 & _ & [_ _ Hw]).
    destruct (Hw _ Hp') as (c0 & Hc0 & Hd). assert (c0 = c) as -> by congruence.
    destruct Hd as [?|[?|(t0 & Ht0 & E)]]; [congruence | by right; left|].
    right; right. split; [by eexists|]. congruence.
  - intros Hcl. by rewrite (i_closed _ I Hcl) in Ht.
Qed.

Section worker.
Context {W : Type} `{Disk W} `{Roaring} `{FlatBuffer FbTUIndex} (xxh3_64bits : bytes → Z).

Lemma received_index_safe data : safe (received_index data) (λ _, True).
Proof. unfold received_index. destruct data; [done|]. by destruct (tu_from _). Qed.

Lemma send_returned_safe p res now reads st :
  inv st → safe (send_returned (W := W) xxh3_64bits p res now reads st) inv.
Proof.
  intros I. unfold send_returned. apply safe_needed. intros t Ht. apply safe_guarded. intros Hpt.
  destruct (i_tasks _ I _ _ Ht) as (c & s & Hc & Ho & Hok). rewrite Ho. cbn [read Res_bind].
  destruct (i_objects _ I _ _ Ho) as [_ Hsok].
  destruct (decide _) as [|Hgen].
  { eapply finish_safe; [done|done|done|done|by apply lc_refl|apply advances_refl|done|done]. }
  apply dec_stable in Hgen. destruct res as [r|].
  2: { eapply finish_safe; [done|done|done|done|by apply lc_emit, lc_refl|apply advances_refl|done|done]. }
  apply safe_guarded. intros Hlen. apply Z.leb_le in Hlen.
  eapply safe_then; [apply received_index_safe|]. intros idx _.
  pose proof (capture_files_valid xxh3_64bits reads 0 (pool st) (result_deps r)
    (mkSnapshot [] [] (to_time_t now)) (i_pool _ I) Hlen eq_refl) as Hcap.
  change (capture_files _ _ _ _ _ _) with
    (capture_deps_snapshot xxh3_64bits now reads (pool st) (result_deps r)) in Hcap.
  destruct (capture_deps_snapshot _ _ _ _ _) as [pool' snap]. destruct Hcap as (Hpok & Hpre & Hval).
  match goal with |- context [update_object _ ?s1 _] => set (s2 := s1) end.
  assert (Heq : advances s s2 ∧ compiling s2 = compiling s ∧ path_id s2 = path_id s ∧
    text s2 = text s ∧ version s2 = version s ∧ ast_deps s2 = Some snap ∧
    compiled s2 = Some (task_params t)) by (subst s2; by destruct idx as [[? ?]|]).
  destruct Heq as (Hadv & Hcomp & E1 & E2 & E3 & E4 & E5).
  eapply safe_then; [eapply finish_safe; [done|done|done|done| |done|done|]|].
  - eapply lc_set_pool; [by eapply lc_object, lc_compile, lc_refl | done | done].
  - split.
    + rewrite E1. destruct (so_path _ _ Hsok) as [x Hx]. exists x. by eapply resolve_stable.
    + rewrite E4. by intros d [= <-].
    + intros _. exists (task_params t). rewrite E2, E3. split; [done|]. by apply (to_text _ _ _ _ Hok).
  - intros st' I'. cbn [safe]. by do 2 apply inv_emit.
Qed.
End worker.

(** ** Launching *)

(** The compilation in flight, if any, is out of date and waits for dependencies. *)
Definition replaceable st s : Prop :=
  ∀ p, compiling s = Some p →
    ∃ c, compiles st !! p = Some c ∧ pending_generation c ≠ generation s ∧ deps_done c = false.

Lemma inv_cancel_deps st q : inv st → inv (update_compile q cancelled_deps st).
Proof.
  intros []. assert (Hl : ∀ p c, compiles st !! p = Some c →
    ∃ c', compiles (update_compile q cancelled_deps st) !! p = Some c' ∧ done c' = done c ∧
      pending_generation c' = pending_generation c ∧ deps_done c' = deps_done c).
  { intros p c Hp. cbn. destruct (decide (p = q)) as [->|].
    - rewrite lookup_alter_eq, Hp. by eexists.
    - rewrite lookup_alter_ne by done. by exists c. }
  split; try done.
  - intros p c. cbn. rewrite lookup_alter_Some. naive_solver.
  - intros o s p Ho Hp. destruct (i_compiling o s p Ho Hp) as [(c & Hc & ? & ?) ?]. split; [|done].
    destruct (Hl p c Hc) as (c' & ? & E1 & E2 & E3). exists c'. rewrite E1, E2. done.
  - intros p t Ht. destruct (i_tasks p t Ht) as (c & s & Hc & ? & []).
    destruct (Hl p c Hc) as (c' & ? & E1 & E2 & E3). exists c', s. split_and!; [done..|].
    split; rewrite ?E1, ?E2, ?E3; done.
  - intros k r Hk. destruct (i_requests k r Hk) as (s & ? & [? ? Hw]). exists s. split; [done|].
    split; [done|done|]. intros p Hp. destruct (Hw p Hp) as (c & Hc & Hd).
    destruct (Hl p c Hc) as (c' & ? & E1 & _). exists c'. rewrite E1. done.
Qed.

Definition registered st o s : Server Pos :=
  mkServer (sessions st) (<[o := set_compiling (Some (next_compile st)) s]> (objects st))
    (next_object st)
    (<[next_compile st := mkPendingCompile false false (generation s) false false]> (compiles st))
    (S (next_compile st)) (tasks st) (requests st) (pool st) (closed st) (effects st).

Lemma fresh_task st : inv st → tasks st !! next_compile st = None.
Proof.
  intros I. destruct (tasks st !! next_compile st) as [t|] eqn:Ht; [|done].
  destruct (i_tasks _ I _ _ Ht) as (c & _ & Hc & _). apply (i_compiles _ I) in Hc. lia.
Qed.

Lemma lc_registered st o s :
  inv st → objects st !! o = Some s →
  local_change st (registered st o s) o (set_compiling (Some (next_compile st)) s) (next_compile st)
    (mkPendingCompile false false (generation s) false false) None.
Proof.
  intros I Ho. split; try done; cbn.
  - intros. apply lookup_insert_decide.
  - intros. apply lookup_insert_decide.
  - intros p'. case_decide; [|done]. subst. by apply fresh_task.
  - lia.
  - split; [apply (i_pool _ I) | done].
Qed.

(** What a launch leaves is good when the new compilation is settled, has a task, or
    the task group is closed. *)
Lemma launch_change_ok st o s s' c' t' :
  inv st → objects st !! o = Some s → replaceable st s →
  advances s s' → generation s' = generation s →
  (compiling s' = None ∧ done c' = true ∧ t' = None ∨
   compiling s' = Some (next_compile st) ∧ done c' = false ∧ pending_generation c' = generation s ∧
   (closed st = true ∧ t' = None ∨ closed st = false ∧ is_Some t')) →
  (∀ t, t' = Some t → task_session t = o ∧ task_ok (next_compile st) t c' s') →
  change_ok st o s s' (next_compile st) c' t'.
Proof.
  intros I Ho Hr Ha Hg Hcase Ht. split; try done.
  - intros o' s'' Ho' Hc. destruct (i_compiling _ I _ _ _ Ho' Hc) as [(c & Hp & _) _].
    apply (i_compiles _ I) in Hp. lia.
  - intros p' Hp'. destruct Hcase as [(Hn & _)|(Hn & ? & ? & Hcl)]; [congruence|].
    rewrite decide_True by congruence. split_and!; [done | lia |]. naive_solver.
  - intros p' t Hp' _ Hc. right. destruct (Hr _ Hc) as (c & Hcc & Hne & Hdd).
    destruct (i_tasks _ I _ _ Hp') as (c0 & s0 & Hc0 & Hs0 & [_ G Pa _ Po _]).
    assert (c0 = c) as -> by congruence.
    assert (s0 = s) as -> by (rewrite <- (task_owner _ _ _ _ _ I Hp' Ho Hc) in Hs0; congruence).
    split; [lia|]. destruct (task_point t); [done|congruence].
  - intros k r Hk Hp'. destruct (i_requests _ I _ _ Hk) as (s0 & _ & [_ _ Hw]).
    destruct (Hw _ Hp') as (c & Hc & _). apply (i_compiles _ I) in Hc. lia.
  - intros Hcl. destruct Hcase as [(_ & _ & ?)|(_ & _ & _ & [[_ ?]|[? _]])]; congruence.
Qed.

(** A request may wait for [p] on behalf of session [o]. *)
Definition waitable st p o : Prop :=
  ∃ c, compiles st !! p = Some c ∧ (done c = true ∨ closed st = true ∨ attended st p o).

(** What a step of [ensure_compiled] for session [o] leaves. *)
Record kept st st' o s : Prop := {
  k_inv : inv st';
  k_requests : requests st' = requests st;
  k_session : ∃ s', objects st' !! o = Some s' ∧ generation s' = generation s ∧
    text s' = text s ∧ line_starts s' = line_starts s;
}.

Lemma kept_refl st o s : inv st → objects st !! o = Some s → kept st st o s.
Proof. intros. split; [done|done|]. by exists s. Qed.

Lemma run_compile_safe found st o s :
  inv st → objects st !! o = Some s → replaceable st s → closed st = false →
  sure (run_compile found o (registered st o s))
    (λ st', kept st st' o s ∧ waitable st' (next_compile st) o).
Proof.
  intros I Ho Hr Hcl. pose proof (lc_registered st o s I Ho) as L. unfold run_compile.
  rewrite (lc_objects _ _ _ _ _ _ _ L), decide_True by done. cbn [read Res_bind set_compiling compiling].
  destruct (i_objects _ I _ _ Ho) as [_ Hsok]. destruct (so_path _ _ Hsok) as [path Hpath].
  cbn [pool registered path_id set_compiling]. rewrite Hpath. cbn [read Res_bind].
  set (s1 := set_header_context (found_context found) (set_compiling (Some (next_compile st)) s)).
  apply (lc_object _ _ _ _ _ _ _ s1) in L. assert (Hadv : advances s s1) by done.
  assert (Hok1 : session_ok (pool st) s1) by (by destruct Hsok).
  destruct (found_args found) as [[dir args]|].
  - eapply lc_set_task in L. cbn [sure]. split; [split; [|done|]|].
    + eapply inv_local; [done|done|exact L|done|].
      apply launch_change_ok; try done.
      { right. split_and!; [done..|]. right. split; [done|by eexists]. }
      intros t [= <-]. split; [done|]. split; try done. by left.
    + exists s1. by rewrite (lc_objects _ _ _ _ _ _ _ L), decide_True.
    + eexists. rewrite (lc_compiles _ _ _ _ _ _ _ L), decide_True by done. split; [done|].
      right; right. unfold attended. rewrite (lc_tasks _ _ _ _ _ _ _ L), decide_True by done.
      by eexists.
  - eapply sure_weaken; [by eapply finish_local|]. intros st' [L' Hp].
    assert (Hrel : released (next_compile st) s1 = set_compiling None s1)
      by (unfold released; by rewrite decide_True).
    rewrite Hrel in L'. split; [split|].
    + eapply inv_local; [done|done|exact L'| |].
      * rewrite Hp. by destruct Hok1.
      * apply launch_change_ok; try done. by left.
    + by rewrite (lc_requests _ _ _ _ _ _ _ L').
    + exists (set_compiling None s1). by rewrite (lc_objects _ _ _ _ _ _ _ L'), decide_True.
    + eexists. rewrite (lc_compiles _ _ _ _ _ _ _ L'), decide_True by done. split; [done|by left].
Qed.

Lemma waitable_cancel st q p o : waitable st p o → waitable (update_compile q cancelled_deps st) p o.
Proof.
  intros (c & Hc & Hd). destruct (decide (p = q)) as [->|].
  - exists (cancelled_deps c). cbn. by rewrite lookup_alter_eq, Hc.
  - exists c. cbn. by rewrite lookup_alter_ne.
Qed.

Lemma launch_safe found st o s :
  inv st → objects st !! o = Some s → replaceable st s →
  sure (launch found o st) (λ r, kept st r.1 o s ∧ waitable r.1 r.2 o).
Proof.
  intros I Ho Hr. unfold launch. rewrite Ho. cbn [read Res_bind]. fold (registered st o s).
  apply (sure_bind _ _ (λ st', kept st st' o s ∧ waitable st' (next_compile st) o)).
  - cbn [closed registered]. destruct (closed st) eqn:Hcl; [|by apply run_compile_safe].
    pose proof (lc_registered st o s I Ho) as L. cbn [sure]. split; [split; [|done|]|].
    + eapply inv_local; [done|done|exact L| |].
      * by destruct (proj2 (i_objects _ I _ _ Ho)).
      * apply launch_change_ok; try done. right. split_and!; [done..|]. by left.
    + eexists. by rewrite (lc_objects _ _ _ _ _ _ _ L), decide_True.
    + eexists. rewrite (lc_compiles _ _ _ _ _ _ _ L), decide_True by done. split; [done|].
      right; left. exact Hcl.
  - intros st' [[I' Hreq Hs] Hw]. cbn [sure fst snd].
    destruct (compiling s) as [q|]; [|done]. split; [|by apply waitable_cancel].
    split; [by apply inv_cancel_deps | done | done].
Qed.

(** The outcome of a step of [ensure_compiled]: the request may wait, and [true] is
    returned only for a tree that is up to date. *)
Definition outcome_ok st o (r : bool + RequestPoint) : Prop :=
  match r with
  | inl ok => ok = true → ∃ s, objects st !! o = Some s ∧ ast_dirty s = false
  | inr pt => ∃ p, awaited pt = Some p ∧ waitable st p o
  end.

Lemma loop_head_safe found st o s gen :
  inv st → objects st !! o = Some s →
  sure (loop_head found o gen st) (λ r, kept st r.1 o s ∧ outcome_ok r.1 o r.2).
Proof.
  intros I Ho. unfold loop_head. rewrite Ho. cbn [read Res_bind].
  destruct (compiling s) as [p|] eqn:Hp.
  - destruct (i_compiling _ I _ _ _ Ho Hp) as [(c & Hc & Hdone & _) Hatt].
    rewrite Hc. cbn [read Res_bind]. destruct (_ && _) eqn:Hb.
    + apply andb_true_iff in Hb as [Hne%bool_decide_eq_true Hdd%negb_true_iff].
      eapply sure_bind; [apply launch_safe; [done|done|]|].
      * intros p' Hp'. exists c. split_and!; [congruence|done|done].
      * intros [st' p'] [? ?]. cbn. split; [done|]. by exists p'.
    + cbn. split; [by apply kept_refl|]. exists p. split; [done|]. exists c. split; [done|]. by right.
  - destruct (decide _); [cbn; split; [by apply kept_refl|done]|].
    eapply sure_bind; [apply launch_safe; [done|done|]|].
    + intros p' Hp'. congruence.
    + intros [st' p'] [? ?]. cbn. split; [done|]. by exists p'.
Qed.

(** ** Requests *)

Section queries.
Context (to_offset : bytes → list Z → Pos → option Z).

Lemma query_answer_safe ok (req : Request Pos) s :
  (req_gen req = generation s → req_map req = (text s, line_starts s)) →
  sure (query_answer to_offset ok req s) (λ a, a ≠ AnswerNull → ok = true ∧ req_gen req = generation s).
Proof.
  intros Hm. unfold query_answer. destruct (negb ok) eqn:Hok; [done|]. apply negb_false_iff in Hok.
  destruct (decide _) as [|Hg]; [done|]. apply dec_stable in Hg. symmetry in Hg.
  assert (Hv : view req s = Ok (req_map req)) by (unfold view; by rewrite decide_True by auto).
  destruct (q_position _) as [pos|].
  - rewrite Hv. cbn [Res_bind]. destruct (to_offset _ _ _); [|done].
    destruct (q_range _) as [[? ?]|]; [|done]. by rewrite ?Hv.
  - destruct (q_range _) as [[? ?]|]; [|done]. by rewrite ?Hv.
Qed.

Lemma continue_safe q (req : Request Pos) st st' s outcome :
  kept st st' (req_session req) s → outcome_ok st' (req_session req) outcome →
  req_gen req ≤ generation s → (req_gen req = generation s → req_map req = (text s, line_starts s)) →
  safe (continue to_offset q req (st', outcome)) inv.
Proof.
  intros [I _ (s' & Hs' & E1 & E2 & E3)] Hout Hpast Hmap. unfold continue.
  rewrite <- E1 in Hpast. rewrite <- E1, <- E2, <- E3 in Hmap. destruct outcome as [ok|pt].
  - rewrite Hs'. cbn [read Res_bind]. eapply safe_then; [by eapply sure_safe, query_answer_safe|]. intros a Ha. cbn [safe].
    assert (inv (set_requests (<[q := set_point (Answered a) req]>) st')).
    { eapply inv_set_request; [done|done|]. by split. }
    destruct a; [done | by apply inv_emit].
  - cbn [safe]. eapply inv_set_request; [done|done|]. split; [done|done|]. cbn.
    destruct Hout as (p & Hp & Hw). intros p' Hp'. assert (p' = p) as -> by congruence. exact Hw.
Qed.

Section stale.
Context {W : Type} `{Disk W} (xxh3_64bits : bytes → Z).

Lemma is_stale_safe w pch_cache pool s :
  session_ok pool s → (∀ i d, pch_cache !! i = Some d → snapshot_valid pool d = true) →
  ∃ b, is_stale (W := W) xxh3_64bits w pch_cache pool s = Ok b.
Proof.
  intros [_ Hd _] Hp. unfold is_stale.
  assert (∃ b, match ast_deps s with Some d => deps_changed xxh3_64bits w pool d | None => Ok false end = Ok b)
    as [b Hb].
  { destruct (ast_deps s); [by apply deps_changed_total, Hd | by eexists]. }
  rewrite Hb. cbn [Res_bind]. destruct b; [by eexists|].
  destruct (pch_ref s) as [r|]; [|by eexists].
  destruct (pch_cache !! ref_path_id r) eqn:E; [|by eexists]. by eapply deps_changed_total, Hp.
Qed.

Lemma ensure_compiled_safe w pch_cache found st o s :
  inv st → objects st !! o = Some s →
  (∀ i d, pch_cache !! i = Some d → snapshot_valid (pool st) d = true) →
  safe (ensure_compiled (W := W) xxh3_64bits w pch_cache found o st)
    (λ r, kept st r.1 o s ∧ outcome_ok r.1 o r.2).
Proof.
  intros I Ho Hp. unfold ensure_compiled. rewrite Ho. cbn [read Res_bind].
  destruct (ast_dirty s) eqn:Hd; [by apply sure_safe, loop_head_safe|].
  destruct (is_stale_safe w pch_cache (pool st) s) as [b ->];
    [by apply (i_objects _ I) in Ho as [_ ?] | done |]. cbn [Res_bind]. destruct b.
  - assert (inv (update_object o (set_dirty true s) st)) as I1.
    { eapply inv_dirty_object; [done|done| |done|done|by left]. by split. }
    eapply safe_weaken; [apply sure_safe, (loop_head_safe _ _ o (set_dirty true s)); [done|cbn; apply lookup_insert_eq]|].
    intros [st' r] [[? ? ?] ?]. split; [|done]. by split.
  - cbn. split; [by apply kept_refl|]. intros _. by exists s.
Qed.

Lemma request_safe q id query w pch_cache found st :
  inv st → safe (request (W := W) xxh3_64bits to_offset q id query w pch_cache found st) inv.
Proof.
  intros I. unfold request. apply safe_guarded. intros _. apply safe_guarded. intros Hv.
  unfold find_session. destruct (sessions st !! id) as [o|] eqn:Hid; [|done].
  destruct (i_sessions _ I _ _ Hid) as (s & Ho & _). rewrite Ho. cbn [read Res_bind].
  destruct (so_path _ _ (proj2 (i_objects _ I _ _ Ho))) as [x Hx]. rewrite Hx. cbn [read Res_bind].
  after ensure_compiled_safe; [done|done| |].
  - intros i d Hd. rewrite forallb_forall in Hv. apply (Hv (i, d)).
    by apply list_elem_of_In, elem_of_map_to_list.
  - intros [st' r] [? ?]. by eapply continue_safe.
Qed.
End stale.

Lemma resume_safe q found st : inv st → safe (resume to_offset q found st) inv.
Proof.
  intros I. unfold resume. apply safe_needed. intros req Hq. apply safe_needed. intros p Hp.
  destruct (i_requests _ I _ _ Hq) as (s & Ho & [Hpast Hmap Hw]).
  destruct (Hw p Hp) as (c & Hc & _). rewrite Hc. cbn [read Res_bind]. apply safe_guarded. intros _.
  apply (safe_then _ _ (λ r, kept st r.1 (req_session req) s ∧ outcome_ok r.1 (req_session req) r.2)).
  - unfold ensure_compiled_resume. rewrite Ho. cbn [read Res_bind].
    destruct (req_point req); [| |done].
    + destruct (ast_dirty s) eqn:Hd; [by apply sure_safe, loop_head_safe|].
      cbn. split; [by apply kept_refl|]. intros _. by exists s.
    + cbn. split; [by apply kept_refl|]. intros Hd%negb_true_iff. by exists s.
  - intros [st' r] [? ?]. by eapply continue_safe.
Qed.

Lemma cancel_request_safe q st : inv st → safe (cancel_request q st) inv.
Proof.
  intros I. unfold cancel_request. do 2 (apply safe_needed; intros). by apply inv_delete_request.
Qed.
End queries.

(** ** Executions *)

Section executions.
Context {W : Type} `{Disk W} `{Roaring} `{FlatBuffer FbTUIndex} (xxh3_64bits : bytes → Z).
Context (build_line_starts : bytes → list Z) (to_offset : bytes → list Z → Pos → option Z).

Lemma step_safe (e : Event) st :
  inv st → safe (step (W := W) xxh3_64bits build_line_starts to_offset e st) inv.
Proof.
  intros I. destruct e; cbn [step].
  - by apply open_path_safe.
  - by apply did_change_safe.
  - by apply close_session_safe.
  - by apply on_file_saved_inv.
  - by apply on_crash_inv.
  - by apply switch_context_safe.
  - by apply request_safe.
  - by apply resume_safe.
  - by apply cancel_request_safe.
  - by apply deps_returned_safe.
  - by apply send_returned_safe.
  - by apply stop_safe.
Qed.

Lemma run_safe (events : list Event) st :
  inv st → ∃ st', run (W := W) xxh3_64bits build_line_starts to_offset events st = Ok st' ∧ inv st'.
Proof.
  revert st. induction events as [|e events IH]; intros st I; [by exists st|]. cbn [run].
  pose proof (step_safe e st I) as Hs. destruct (step _ _ _ _ _); cbn in Hs; [|by apply IH|done|done].
  by apply IH.
Qed.
End executions.
End tasks.
