(* ===== verification/DocumentTheorems.v ===== *)
(** * What holds of open documents in every execution *)
From stdpp Require Import relations.
From S2P Require Import Prelude PathPool Snapshot IndexData MergedIndex IndexLibraries IncludeGraph TUIndex TUTheorems Documents DocumentInvariant DocumentSteps DocumentTasks.
Local Open Scope Z_scope.
Local Open Scope cpp_scope.

(** Follows the successful path of a sequence of operations. *)
Ltac follow :=
  repeat match goal with
  | H : Res_bind ?m _ = Ok _ |- _ =>
      let E := fresh "E" in destruct m eqn:E; cbn [Res_bind] in H; [|discriminate H..]
  | H : read ?m = Ok _ |- _ =>
      let E := fresh "E" in destruct m eqn:E; cbn [read] in H; [|discriminate H]; injection H as H
  | H : need ?m = Ok _ |- _ =>
      let E := fresh "E" in destruct m eqn:E; cbn [need] in H; [|discriminate H]; injection H as H
  | H : guard_b ?b = Ok _ |- _ =>
      let E := fresh "E" in destruct b eqn:E; cbn [guard_b] in H; [|discriminate H]
  end; simplify_eq.

Section theorems.
Context {Pos W : Type} `{Disk W} `{Roaring} `{FlatBuffer FbTUIndex} (xxh3_64bits : bytes → Z).
Context (build_line_starts : bytes → list Z) (to_offset : bytes → list Z → Pos → option Z).
Implicit Types (st : Server Pos) (s : Session) (o p q : nat).

Abbreviation step := (step (W := W) xxh3_64bits build_line_starts to_offset).
Abbreviation run := (run (W := W) xxh3_64bits build_line_starts to_offset).

(** ** What the operations leave alone *)

Lemma finish_shape o p st st' :
  finish_compile o p st = Ok st' →
  requests st' = requests st ∧ closed st' = closed st ∧ tasks st' = delete p (tasks st).
Proof. unfold finish_compile. intros Hf. follow. by case_decide. Qed.

Definition task_weight (t : CompileTask) : nat := match task_point t with InDeps => 2 | InSend => 1 end.

(** A step of a task ends it or sends it on. *)
Definition task_moves p st st' : Prop :=
  requests st' = requests st ∧ closed st' = closed st ∧
  ∃ t, tasks st !! p = Some t ∧
    (tasks st' = delete p (tasks st) ∨
     ∃ t', tasks st' = <[p := t']> (tasks st) ∧ task_point t = InDeps ∧ task_point t' = InSend).

Lemma deps_returned_shape p ok ref pch pcms st st' :
  deps_returned p ok ref pch pcms st = Ok st' → task_moves p st st'.
Proof.
  unfold deps_returned. intros Hd. destruct (tasks st !! p) as [t|] eqn:Ht; [|done].
  cbn [need Res_bind] in Hd. destruct (task_point t) eqn:Hp; [|done]. follow.
  destruct (negb ok).
  { apply finish_shape in Hd as (? & ? & ?). split_and!; [done|done|]. exists t. split; [done|by left]. }
  case_decide.
  { apply finish_shape in Hd as (? & ? & ?). split_and!; [done|done|]. exists t. split; [done|by left]. }
  simplify_eq. split_and!; [done|done|]. exists t. split; [done|]. right. by eexists.
Qed.

Lemma send_returned_shape p res now reads st st' :
  send_returned (W := W) xxh3_64bits p res now reads st = Ok st' → task_moves p st st'.
Proof.
  unfold send_returned. intros Hd. follow. case_decide.
  { apply finish_shape in Hd as (? & ? & ?). split_and!; [done|done|]. eexists. split; [done|by left]. }
  destruct res as [r|].
  2: { apply finish_shape in Hd as (? & ? & ?). split_and!; [done|done|]. eexists. split; [done|by left]. }
  follow. destruct (capture_deps_snapshot _ _ _ _ _) as [pool' snap]. follow.
  match goal with E : finish_compile _ _ _ = Ok _ |- _ => apply finish_shape in E as (? & ? & ?) end.
  split_and!; [done|done|]. eexists. split; [done|by left].
Qed.

Lemma launch_shape found o st r :
  launch found o st = Ok r → requests r.1 = requests st ∧ closed r.1 = closed st.
Proof.
  unfold launch. intros Hl. destruct (objects st !! o) as [s|] eqn:Ho; [|done].
  cbn [read Res_bind closed] in Hl.
  match type of Hl with Res_bind ?m _ = _ => destruct m as [st1| | |] eqn:Hr end; try done.
  enough (requests st1 = requests st ∧ closed st1 = closed st)
    by (cbn in Hl; simplify_eq; by destruct (compiling s)).
  destruct (closed st) eqn:Hcl; [by simplify_eq|]. unfold run_compile in Hr. follow.
  destruct (found_args found) as [[? ?]|]; [by simplify_eq|]. by apply finish_shape in Hr as (-> & -> & _).
Qed.

(** What [ensure_compiled] does from the head of its loop: it returns [false], joins
    the compilation in flight, or launches one. *)
Lemma loop_head_shape found o gen st r :
  loop_head found o gen st = Ok r →
  (r = (st, inl false)) ∨
  (∃ s p, objects st !! o = Some s ∧ compiling s = Some p ∧ r = (st, inr (Joined p))) ∨
  (∃ p, r.2 = inr (Launched p) ∧ requests r.1 = requests st ∧ closed r.1 = closed st).
Proof.
  unfold loop_head. intros Hl. destruct (objects st !! o) as [s|] eqn:Ho; [|done].
  cbn [read Res_bind] in Hl. destruct (compiling s) as [p|] eqn:Hp.
  - follow. case_match; simplify_eq.
    + follow. right; right. eexists. split; [done|]. cbn. by eapply launch_shape.
    + right; left. by exists s, p.
  - case_decide; simplify_eq; [by left|]. follow. right; right. eexists. split; [done|].
    cbn. by eapply launch_shape.
Qed.

Lemma continue_shape q (req : Request Pos) st outcome st' :
  continue to_offset q req (st, outcome) = Ok st' →
  tasks st' = tasks st ∧ compiles st' = compiles st ∧ closed st' = closed st ∧
  objects st' = objects st ∧
  ∃ pt, requests st' = <[q := set_point pt req]> (requests st) ∧
    match outcome with
    | inr pt' => pt = pt'
    | inl ok => ∃ a s, pt = Answered a ∧ objects st !! req_session req = Some s ∧
        query_answer to_offset ok req s = Ok a
    end.
Proof.
  unfold continue. intros Hc. destruct outcome as [ok|pt]; follow.
  - split_and!; try by case_match.
    eexists. split; [by case_match|]. by eexists _, _.
  - split_and!; try done. by eexists.
Qed.

(** ** Notifications leave requests alone *)

Lemma bump_object_requests o st st' : bump_object o st = Ok st' → requests st' = requests st.
Proof. unfold bump_object. intros Hb. by follow. Qed.

Lemma mark_dirty_requests id st : requests (mark_dirty st id) = requests st.
Proof. unfold mark_dirty. by destruct (find_session id st). Qed.

Lemma foldl_requests {A} (f : Server Pos → A → Server Pos) l st :
  (∀ st a, requests (f st a) = requests st) → requests (foldl f st l) = requests st.
Proof. intros Hf. revert st. induction l as [|a l IH]; intros st; cbn; [done|]. by rewrite IH. Qed.

Lemma did_open_requests id ver content st st' :
  did_open build_line_starts id ver content st = Ok st' → requests st' = requests st.
Proof.
  unfold did_open, open_session. intros Ho. destruct (sessions st !! id).
  - match type of Ho with Res_bind (Res_bind ?m _) _ = _ => destruct m eqn:Hb end; try done.
    apply bump_object_requests in Hb. cbn in Ho. rewrite lookup_insert_eq in Ho. cbn in Ho. unfold bump in Ho. by follow.
  - cbn in Ho. rewrite lookup_insert_eq in Ho. cbn in Ho. unfold bump in Ho. by follow.
Qed.

Lemma close_session_requests id st st' : close_session id st = Ok st' → requests st' = requests st.
Proof.
  unfold close_session. cbn. intros Hc. destruct (sessions st !! id).
  - match type of Hc with Res_bind (Res_bind ?m _) _ = _ => destruct m eqn:Hb end; try done.
    apply bump_object_requests in Hb. cbn in Hc. by simplify_eq.
  - cbn in Hc. by simplify_eq.
Qed.

(** The events in which a request runs. *)
Definition asks (e : Event (Pos := Pos) (W := W)) (q : nat) : bool :=
  match e with
  | Ask q' _ _ _ _ _ | Resume q' _ | Cancel q' => bool_decide (q' = q)
  | _ => false
  end.

Lemma safe_ok {A} (r : Res unit A) P a : safe r P → r = Ok a → P a.
Proof. by intros Hs ->. Qed.

(** A request that goes on after a step of [ensure_compiled]. *)
Lemma continue_requests q (req : Request Pos) st s r st' :
  continue to_offset q req r = Ok st' → kept st r.1 (req_session req) s →
  ∃ pt, requests st' = <[q := set_point pt req]> (requests st).
Proof.
  intros Hc Hk. destruct r as [st1 out]. apply continue_shape in Hc as (_ & _ & _ & _ & pt & Hr & _).
  exists pt. pose proof (k_requests _ _ _ _ Hk) as E. cbn in E. by rewrite Hr, E.
Qed.

Lemma ensure_kept w pch_cache found o st s r :
  inv st → objects st !! o = Some s →
  forallb (λ e : Z * DepsSnapshot, snapshot_valid (pool st) e.2) (map_to_list pch_cache) = true →
  ensure_compiled (W := W) xxh3_64bits w pch_cache found o st = Ok r →
  kept st r.1 o s ∧ outcome_ok r.1 o r.2.
Proof.
  intros I Ho Hv He. refine (safe_ok _ _ _ (ensure_compiled_safe _ w pch_cache found st o s I Ho _) He).
  intros i d Hd. rewrite forallb_forall in Hv. apply (Hv (i, d)).
  by apply list_elem_of_In, elem_of_map_to_list.
Qed.

Lemma resume_kept found st o s gen pt r :
  inv st → objects st !! o = Some s → ensure_compiled_resume found o gen pt st = Ok r →
  kept st r.1 o s ∧ outcome_ok r.1 o r.2.
Proof.
  intros I Ho. unfold ensure_compiled_resume. rewrite Ho. cbn [read Res_bind]. destruct pt; [| |done].
  - destruct (ast_dirty s) eqn:Hd.
    + intros Hl. exact (safe_ok _ _ _ (sure_safe _ _ (loop_head_safe _ _ _ _ _ I Ho)) Hl).
    + intros [= <-]. split; [by apply kept_refl|]. intros _. by exists s.
  - intros [= <-]. split; [by apply kept_refl|]. cbn. intros Hd%negb_true_iff. by exists s.
Qed.

Lemma step_requests e st st' q :
  inv st → step e st = Ok st' → asks e q = false → requests st' !! q = requests st !! q.
Proof.
  intros I Hs Ha. destruct e; cbn [Documents.step] in Hs.
  - unfold open_path in Hs. follow. destruct (intern (pool st) path).
    by apply did_open_requests in Hs as ->.
  - unfold did_change in Hs. destruct (sessions st !! id); [|by simplify_eq]. by follow.
  - by apply close_session_requests in Hs as ->.
  - simplify_eq. cbn. f_equal. rewrite foldl_requests by done. apply foldl_requests.
    intros st0 a. unfold mark_or_enqueue. destruct (find_session a st0); [apply mark_dirty_requests|done].
  - simplify_eq. f_equal. apply foldl_requests. intros. apply mark_dirty_requests.
  - unfold switch_context in Hs. destruct (find_session id st); [|by simplify_eq]. by follow.
  - cbn in Ha. apply bool_decide_eq_false in Ha. unfold request in Hs. follow.
    destruct (find_session id st) as [o|]; [|by simplify_eq]. destruct (objects st !! o) as [s|] eqn:Ho; [|done].
    cbn [read Res_bind] in Hs. follow. destruct (ensure_kept w pch_cache found o st s a0) as [Hk _]; [done..|].
    destruct (continue_requests _ _ _ _ _ _ Hs Hk) as [pt ->]. by rewrite lookup_insert_ne.
  - cbn in Ha. apply bool_decide_eq_false in Ha. unfold resume in Hs. follow.
    match goal with E : requests st !! _ = Some ?r |- _ => destruct (i_requests _ I _ _ E) as (s & Ho & _) end.
    match goal with E : ensure_compiled_resume _ _ _ _ _ = Ok _ |- _ =>
      destruct (resume_kept _ _ _ _ _ _ _ I Ho E) as [Hk _] end.
    destruct (continue_requests _ _ _ _ _ _ Hs Hk) as [pt ->]. by rewrite lookup_insert_ne.
  - cbn in Ha. apply bool_decide_eq_false in Ha. unfold cancel_request in Hs. follow. cbn.
    by rewrite lookup_delete_ne.
  - by apply deps_returned_shape in Hs as [-> _].
  - by apply send_returned_shape in Hs as [-> _].
  - unfold stop in Hs. by simplify_eq.
Qed.

(** ** Queries *)

(** The parameters of the query are those of the positions in the session's text. *)
Definition asked (query : Query Pos) s (offset : option Z) (range : option (Z * Z)) : Prop :=
  (match q_position query with
   | None => offset = None
   | Some pos => is_Some offset ∧ offset = to_offset (text s) (line_starts s) pos
   end) ∧
  range = match q_range query with
          | None => None
          | Some (first, last) =>
            match to_offset (text s) (line_starts s) first, to_offset (text s) (line_starts s) last with
            | Some b, Some e => Some (b, e)
            | _, _ => None
            end
          end.

Lemma query_answer_queried ok (req : Request Pos) s offset range :
  query_answer to_offset ok req s = Ok (Queried offset range) →
  ok = true ∧ asked (req_query req) s offset range.
Proof.
  unfold query_answer, asked. destruct (negb ok) eqn:Hok; [done|]. apply negb_false_iff in Hok.
  destruct (decide _); [done|].
  assert (Hv : ∀ m, view req s = Ok m → m = (text s, line_starts s))
    by (intros m; unfold view; case_decide; naive_solver).
  destruct (q_position (req_query req)) as [pos|], (q_range (req_query req)) as [[first last]|]; intros Ha.
  all: repeat match type of Ha with Res_bind (view ?r ?x) _ = _ =>
    destruct (view r x) as [m| | |] eqn:Hm; cbn [Res_bind] in Ha; [|done..];
    try (specialize (Hv m eq_refl); subst m; cbn [fst snd] in Ha) end.
  1,2: destruct (to_offset (text s) (line_starts s) pos) as [off|] eqn:Hoff; [|done].
  all: simplify_eq; split_and!; eauto.
Qed.

Lemma answered_by_step e st st' q req :
  inv st → step e st = Ok st' → requests st' !! q ≠ requests st !! q → requests st' !! q = Some req →
  ∃ r s, kept st r.1 (req_session req) s ∧ outcome_ok r.1 (req_session req) r.2 ∧
    ∃ req0, req = set_point (req_point req) req0 ∧ continue to_offset q req0 r = Ok st'.
Proof.
  intros I Hs Hne Hq. destruct (asks e q) eqn:Ha; [|by rewrite (step_requests e st st' q I Hs Ha) in Hne].
  destruct e; try done; cbn in Ha; apply bool_decide_eq_true in Ha; subst q0; cbn [Documents.step] in Hs.
  - unfold request in Hs. follow. destruct (find_session id st) as [o|]; [|by simplify_eq].
    destruct (objects st !! o) as [s|] eqn:Ho; [|done]. cbn [read Res_bind] in Hs. follow.
    destruct (ensure_kept w pch_cache found o st s a0) as [Hk Hout]; [done..|].
    destruct (continue_requests _ _ _ _ _ _ Hs Hk) as [pt Hr]. rewrite Hr, lookup_insert_eq in Hq.
    injection Hq as <-. exists a0, s. split; [done|]. split; [done|]. by eexists.
  - unfold resume in Hs. destruct (requests st !! q) as [req0|] eqn:Hq0; [|done].
    cbn [need Res_bind] in Hs. follow. destruct (i_requests _ I _ _ Hq0) as (s & Ho & _).
    match goal with E : ensure_compiled_resume _ _ _ _ _ = Ok ?r |- _ =>
      destruct (resume_kept _ _ _ _ _ _ _ I Ho E) as [Hk Hout] end.
    destruct (continue_requests _ _ _ _ _ _ Hs Hk) as [pt Hr]. rewrite Hr, lookup_insert_eq in Hq.
    injection Hq as <-. eexists _, s. split; [done|]. split; [done|]. by eexists.
  - unfold cancel_request in Hs. follow. cbn in Hq. by rewrite lookup_delete_eq in Hq.
Qed.

(** C3. In every execution, when a request sends its query to the worker, the tree of
    its document is up to date: the last compilation the session has accepted was that
    of the text and version the session has at this moment, and the offsets of the
    query are those of the requested positions in that text. *)
Theorem queries_see_the_current_text (pool : PathPool) (events : list Event) (st st' : Server Pos)
    (e : Event) (q : nat) (req : Request Pos) (offset : option Z) (range : option (Z * Z)) :
  pool_ok pool → run events (initial pool) = Ok st → step e st = Ok st' →
  requests st' !! q ≠ requests st !! q → requests st' !! q = Some req →
  req_point req = Answered (Queried offset range) →
  ∃ s c, objects st' !! req_session req = Some s ∧ ast_dirty s = false ∧
    compiled s = Some c ∧ cp_text c = text s ∧ cp_version c = version s ∧
    asked (req_query req) s offset range.
Proof.
  intros Hp Hrun Hs Hne Hq Hpt.
  destruct (run_safe xxh3_64bits build_line_starts to_offset events _ (initial_inv pool Hp))
    as (st0 & E0 & I). rewrite Hrun in E0. injection E0 as <-.
  destruct (answered_by_step _ _ _ _ _ I Hs Hne Hq) as ([st1 out] & s0 & Hk & Hout & req0 & Hreq & Hc).
  cbn [fst snd] in Hk, Hout. apply continue_shape in Hc as (_ & _ & _ & Hobj & pt & Hr & Hm).
  rewrite Hr, lookup_insert_eq in Hq. injection Hq as <-. cbn in Hpt, Hout. subst pt.
  destruct out as [ok|pt']; [|by destruct Hout as (? & ? & _); subst].
  destruct Hm as (a & s & [= <-] & Hs1 & Ha). apply query_answer_queried in Ha as [-> Hasked].
  destruct (Hout eq_refl) as (s2 & Hs2 & Hd). cbn in Hs2. rewrite Hs1 in Hs2. injection Hs2 as <-.
  destruct (so_clean _ _ (proj2 (i_objects _ (k_inv _ _ _ _ Hk) _ _ Hs1)) Hd) as (c & ? & ? & ?).
  exists s, c. rewrite Hobj. by split_and!.
Qed.

(** A document is compiled by at most one worker request at a time: of two
    compilations of one session that have been sent to the worker, one has been
    answered; and every compilation in flight that the session has replaced is out of
    date and still waits for its dependencies. *)
Theorem one_compilation_is_sent (pool : PathPool) (events : list Event) (st : Server Pos)
    (p q : nat) (t u : CompileTask) :
  pool_ok pool → run events (initial pool) = Ok st →
  tasks st !! p = Some t → tasks st !! q = Some u → task_session t = task_session u → p ≠ q →
  ∃ s, objects st !! task_session t = Some s ∧
    (task_point t = InDeps ∧ task_gen t < generation s ∨
     task_point u = InDeps ∧ task_gen u < generation s).
Proof.
  intros Hp Hrun Ht Hu E Hne.
  destruct (run_safe xxh3_64bits build_line_starts to_offset events _ (initial_inv pool Hp))
    as (st0 & E0 & I). rewrite Hrun in E0. injection E0 as <-.
  destruct (i_tasks _ I _ _ Ht) as (c & s & _ & Hs & [_ _ _ _ _ [Hc|[? ?]]]); [|eauto].
  destruct (i_tasks _ I _ _ Hu) as (c' & s' & _ & Hs' & [_ _ _ _ _ [Hc'|[? ?]]]); [congruence|].
  exists s. split; [done|]. assert (s' = s) as -> by congruence. eauto.
Qed.

(** ** Requests end *)

(** The steps of the coroutines, without further notifications or requests. *)
Definition internal (e : Event (Pos := Pos) (W := W)) : bool :=
  match e with
  | Resume _ _ | DepsReturned _ _ _ _ _ | SendReturned _ _ _ _ => true
  | _ => false
  end.

Definition internal_step st st' : Prop := ∃ e, internal e = true ∧ step e st = Ok st'.

Definition joined (r : Request Pos) : nat := match req_point r with Joined _ => 1 | _ => 0 end.
Definition launched (r : Request Pos) : nat := match req_point r with Launched _ => 1 | _ => 0 end.
Definition woken st (r : Request Pos) : nat :=
  match req_point r with
  | Joined p => match compiles st !! p with Some c => if done c then 1 else 0 | None => 0 end
  | _ => 0
  end.

Definition count_joined st : nat := msum joined (requests st).
Definition count_running st : nat := msum task_weight (tasks st) + msum launched (requests st).
Definition count_woken st : nat := msum (woken st) (requests st).

Definition less st' st : Prop :=
  (count_joined st' < count_joined st ∨
   count_joined st' = count_joined st ∧ count_running st' < count_running st ∨
   count_joined st' = count_joined st ∧ count_running st' = count_running st ∧
     count_woken st' < count_woken st)%nat.

Lemma task_moves_less p st st' : task_moves p st st' → less st' st.
Proof.
  intros (Hr & _ & t & Ht & Hm). right; left. unfold count_joined, count_running. rewrite Hr.
  split; [done|]. destruct Hm as [->|(t' & -> & Hp & Hp')].
  - rewrite (msum_delete task_weight (tasks st) p t Ht).
    assert (0 < task_weight t)%nat by (unfold task_weight; destruct (task_point t); lia). lia.
  - pose proof (msum_update task_weight (tasks st) p t t' Ht) as E.
    assert (task_weight t = 2%nat) by (unfold task_weight; by rewrite Hp).
    assert (task_weight t' = 1%nat) by (unfold task_weight; by rewrite Hp'). lia.
Qed.

(** A request whose point changes from [pt] to [pt']. *)
Lemma request_moves q (req : Request Pos) pt' st st' :
  requests st !! q = Some req → requests st' = <[q := set_point pt' req]> (requests st) →
  (count_joined st' + joined req = joined (set_point pt' req) + count_joined st ∧
   msum launched (requests st') + launched req =
     launched (set_point pt' req) + msum launched (requests st))%nat.
Proof. intros Hq Hr. unfold count_joined. rewrite Hr. split; by apply msum_update. Qed.

Lemma joined_leaves q (req : Request Pos) p pt' st st' :
  requests st !! q = Some req → req_point req = Joined p →
  requests st' = <[q := set_point pt' req]> (requests st) →
  (∀ p', pt' ≠ Joined p') → less st' st.
Proof.
  intros Hq Hp Hr Hne. destruct (request_moves _ _ _ _ _ Hq Hr) as [E _]. left.
  assert (joined req = 1%nat) by (unfold joined; by rewrite Hp).
  assert (joined (set_point pt' req) = 0%nat) by (destruct pt'; naive_solver). lia.
Qed.

Lemma joined_again q (req : Request Pos) p p' c c' st st' :
  requests st !! q = Some req → req_point req = Joined p →
  compiles st !! p = Some c → done c = true → compiles st !! p' = Some c' → done c' = false →
  requests st' = <[q := set_point (Joined p') req]> (requests st) →
  tasks st' = tasks st → compiles st' = compiles st → less st' st.
Proof.
  intros Hq Hp Hc Hd Hc' Hd' Hr Ht Hcs. destruct (request_moves _ _ _ _ _ Hq Hr) as [E1 E2].
  right; right. assert (joined req = 1%nat) by (unfold joined; by rewrite Hp).
  assert (launched req = 0%nat) by (unfold launched; by rewrite Hp).
  change (joined (set_point (Joined p') req)) with 1%nat in E1.
  change (launched (set_point (Joined p') req)) with 0%nat in E2.
  split_and!; [lia | unfold count_running; rewrite Ht; lia|].
  assert (woken st' = woken st) as E3 by (unfold woken; by rewrite Hcs).
  unfold count_woken. rewrite E3, Hr.
  pose proof (msum_update (woken st) (requests st) q req (set_point (Joined p') req) Hq) as E.
  assert (woken st req = 1%nat) by (unfold woken; by rewrite Hp, Hc, Hd).
  assert (woken st (set_point (Joined p') req) = 0%nat) by (unfold woken; cbn; by rewrite Hc', Hd').
  lia.
Qed.

Lemma resume_less q found st st' :
  inv st → resume to_offset q found st = Ok st' → less st' st ∧ closed st' = closed st.
Proof.
  intros I Hs. unfold resume in Hs. destruct (requests st !! q) as [req|] eqn:Hq; [|done].
  cbn [need Res_bind] in Hs. destruct (awaited (req_point req)) as [p|] eqn:Hp; [|done].
  cbn [need Res_bind] in Hs. destruct (compiles st !! p) as [c|] eqn:Hc; [|done].
  cbn [read Res_bind] in Hs. destruct (done c) eqn:Hd; [|done]. cbn [guard_b Res_bind] in Hs.
  destruct (i_requests _ I _ _ Hq) as (s & Ho & _). unfold ensure_compiled_resume in Hs.
  rewrite Ho in Hs. cbn [read Res_bind] in Hs. destruct (req_point req) as [p0|p0|] eqn:Hpt; [| |done].
  - injection Hp as ->. destruct (ast_dirty s).
    2: { cbn [Res_bind] in Hs. apply continue_shape in Hs as (_ & _ & ? & _ & pt & Hr & (a & _ & -> & _)).
         split; [|done]. by eapply joined_leaves. }
    follow. destruct a as [st1 out]. match goal with E : loop_head _ _ _ _ = Ok _ |- _ => rename E into Hl end.
    apply loop_head_shape in Hl as [Hl|[(s1 & p' & Ho' & Hc' & Hl)|(p' & Hl & Hreq & Hcl)]];
      cbn [fst snd] in *; simplify_eq.
    + apply continue_shape in Hs as (_ & _ & ? & _ & pt & Hr & (a & _ & -> & _)).
      split; [|done]. by eapply joined_leaves.
    + apply continue_shape in Hs as (? & ? & ? & _ & pt & Hr & ->). split; [|done].
      destruct (i_compiling _ I _ _ _ Ho' Hc') as [(c' & ? & ? & _) _]. by eapply joined_again.
    + apply continue_shape in Hs as (_ & _ & ? & _ & pt & Hr & ->). rewrite Hreq in Hr.
      split; [by eapply joined_leaves | congruence].
  - cbn [Res_bind] in Hs. apply continue_shape in Hs as (Ht & _ & ? & _ & pt & Hr & (a & _ & -> & _)).
    split; [|done]. destruct (request_moves _ _ _ _ _ Hq Hr) as [E1 E2].
    right; left. assert (joined req = 0%nat) by (unfold joined; by rewrite Hpt).
    assert (launched req = 1%nat) by (unfold launched; by rewrite Hpt).
    change (joined (set_point (Answered a) req)) with 0%nat in E1.
    change (launched (set_point (Answered a) req)) with 0%nat in E2.
    split; [lia|]. unfold count_running. rewrite Ht. lia.
Qed.

Lemma internal_less st st' :
  inv st → internal_step st st' → inv st' ∧ less st' st ∧ closed st' = closed st.
Proof.
  intros I (e & He & Hs).
  pose proof (safe_ok _ _ _ (step_safe xxh3_64bits build_line_starts to_offset e st I) Hs) as I'.
  split; [done|]. destruct e; try done; cbn [Documents.step] in Hs.
  - by eapply resume_less.
  - apply deps_returned_shape in Hs. split; [by eapply task_moves_less | by destruct Hs as (_ & ? & _)].
  - apply send_returned_shape in Hs. split; [by eapply task_moves_less | by destruct Hs as (_ & ? & _)].
Qed.

Lemma internal_sn st : inv st → sn internal_step st.
Proof.
  remember (count_joined st) as a eqn:Ha. remember (count_running st) as b eqn:Hb.
  remember (count_woken st) as c eqn:Hc.
  revert b c st Ha Hb Hc. induction (lt_wf a) as [a _ IHa]. intros b.
  induction (lt_wf b) as [b _ IHb]. intros c. induction (lt_wf c) as [c _ IHc].
  intros st Ha Hb Hc I. constructor. intros st' Hstep. unfold flip in Hstep.
  destruct (internal_less _ _ I Hstep) as (I' & Hless & _).
  destruct Hless as [?|[[? ?]|(? & ? & ?)]].
  - eapply (IHa (count_joined st')); [lia|done..].
  - eapply (IHb (count_running st')); [lia|congruence|done..].
  - eapply (IHc (count_woken st')); [lia|congruence|congruence|done..].
Qed.

(** A request whose compilation is done can go on. *)
Lemma resume_enabled q found st (req : Request Pos) p c :
  inv st → requests st !! q = Some req → awaited (req_point req) = Some p →
  compiles st !! p = Some c → done c = true → ∃ st', resume to_offset q found st = Ok st'.
Proof.
  intros I Hq Hp Hc Hd. destruct (i_requests _ I _ _ Hq) as (s & Ho & [_ Hmap _]).
  enough (sure (resume to_offset q found st) (λ _, True)) by (destruct (resume _ _ _ _); [by eexists|done..]).
  unfold resume. rewrite Hq. cbn [need Res_bind]. rewrite Hp. cbn [need Res_bind]. rewrite Hc.
  cbn [read Res_bind]. rewrite Hd. cbn [guard_b Res_bind].
  eapply (sure_bind _ _ (λ r, kept st r.1 (req_session req) s)).
  - unfold ensure_compiled_resume. rewrite Ho. cbn [read Res_bind].
    destruct (req_point req); [|by apply kept_refl|done].
    destruct (ast_dirty s); [|by apply kept_refl].
    eapply sure_weaken; [by apply loop_head_safe|]. by intros r [? _].
  - intros [st1 out] [_ _ (s1 & Hs1 & Eg & Et & El)]. unfold continue. cbn [fst] in Hs1.
    destruct out; [|done]. rewrite Hs1. cbn [read Res_bind].
    eapply sure_bind; [apply query_answer_safe; rewrite Eg, Et, El; done|]. by intros.
Qed.

(** A task can always end. *)
Lemma task_enabled (w : W) st p t :
  inv st → tasks st !! p = Some t → ∃ st', internal_step st st'.
Proof.
  intros I Ht. destruct (i_tasks _ I _ _ Ht) as (c & s & _ & Hs & Hok). unfold internal_step.
  destruct (task_point t) eqn:Hpt.
  - enough (∃ st', deps_returned p false None ([], 0) ∅ st = Ok st') as [st' ?]
      by (by exists st', (DepsReturned p false None ([], 0) ∅)).
    unfold deps_returned. rewrite Ht. cbn [need Res_bind]. rewrite Hpt. cbn [guard_b Res_bind].
    rewrite Hs. cbn [read Res_bind negb]. unfold finish_compile.
    cbn [objects update_compile set_compiles update_object set_objects].
    rewrite lookup_insert_eq. by eexists.
  - enough (∃ st', send_returned xxh3_64bits p None 0 (λ _, w) st = Ok st') as [st' ?]
      by (by exists st', (SendReturned p None 0 (λ _, w))).
    unfold send_returned. rewrite Ht. cbn [need Res_bind]. rewrite Hpt. cbn [guard_b Res_bind].
    rewrite Hs. cbn [read Res_bind]. case_decide; unfold finish_compile; cbn [objects emit];
      rewrite Hs; by eexists.
Qed.

(** C4. Requests end.  From every reachable state, the steps of the coroutines
    terminate when no further notification or request arrives, whatever the
    compilations return; and where they cannot go on, every request has been answered,
    unless the compiler has been stopped. *)
Theorem requests_are_answered (w : W) (pool : PathPool) (events : list Event) (st : Server Pos) :
  pool_ok pool → run events (initial pool) = Ok st →
  sn internal_step st ∧
  (closed st = false → ∀ st', rtc internal_step st st' → nf internal_step st' →
     ∀ q req, requests st' !! q = Some req → ∃ a, req_point req = Answered a).
Proof.
  intros Hp Hrun.
  destruct (run_safe xxh3_64bits build_line_starts to_offset events _ (initial_inv pool Hp))
    as (st0 & E0 & I). rewrite Hrun in E0. injection E0 as <-.
  split; [by apply internal_sn|]. intros Hcl st' Hsteps Hnf q req Hq.
  assert (inv st' ∧ closed st' = false) as [I' Hcl'].
  { clear Hnf Hq Hrun. induction Hsteps as [|x y z Hxy _ IH]; [done|].
    destruct (internal_less _ _ I Hxy) as (? & _ & ?). apply IH; [done|congruence]. }
  destruct (awaited (req_point req)) as [p|] eqn:Hw; [|destruct (req_point req); naive_solver].
  exfalso. apply Hnf. destruct (i_requests _ I' _ _ Hq) as (s & Ho & [_ _ Hwait]).
  destruct (Hwait p Hw) as (c & Hc & [Hd|[?|(t & Ht & _)]]); [|congruence|by eapply task_enabled].
  destruct (resume_enabled q (mkFound None None) st' req p c) as [st2 Hr]; [done..|].
  by exists st2, (Resume q (mkFound None None)).
Qed.
End theorems.

(** ** Executions *)

(** Positions are offsets; there is one line. *)
Definition plain_offset (t : bytes) (_ : list Z) (pos : nat) : option Z :=
  if decide (pos ≤ length t)%nat then Some (Z.of_nat pos) else None.

Definition plain_disk : gmap bytes (bytes * Z) := ∅.

Definition plain_run (events : list (Event (Pos := nat) (W := gmap bytes (bytes * Z)))) :
    Res unit (Server nat) :=
  run byte_hash (λ _, [0]) plain_offset events (initial empty_pool).

Definition found_args_for (dir : string) : Found := mkFound (Some (str dir, [])) None.

(** Open a document, ask for position 1, and let the compilation end. *)
Definition hover_events : list (Event (Pos := nat) (W := gmap bytes (bytes * Z))) :=
  [DidOpen (str "/a.cpp") 1 (str "int");
   Ask 0 0 (mkQuery (Some 1%nat) None) plain_disk ∅ (found_args_for "/");
   DepsReturned 0 true None ([], 0) ∅;
   SendReturned 0 (Some (mkCompileResult [] [])) 0 (λ _, plain_disk)].

Definition state_of (r : Res unit (Server nat)) : Server nat :=
  match r with Ok st => st | _ => initial empty_pool end.

Definition hover_state : Server nat := state_of (plain_run hover_events).
Definition hovered_state : Server nat :=
  state_of (step byte_hash (λ _, [0]) plain_offset (Resume 0 (found_args_for "/")) hover_state).
Definition hover_request : Request nat :=
  mkRequest 0 1 (str "int", [0]) (mkQuery (Some 1%nat) None) (Answered (Queried (Some 1) None)).

Lemma queries_see_the_current_text_witness :
  ∃ s c, objects hovered_state !! 0%nat = Some s ∧ ast_dirty s = false ∧ compiled s = Some c ∧
    cp_text c = text s ∧ cp_version c = version s ∧
    asked plain_offset (mkQuery (Some 1%nat) None) s (Some 1) None.
Proof.
  apply (queries_see_the_current_text byte_hash (λ _, [0]) plain_offset empty_pool hover_events
           hover_state hovered_state (Resume 0 (found_args_for "/")) 0 hover_request).
  - apply empty_pool_ok.
  - vm_compute. reflexivity.
  - vm_compute. reflexivity.
  - vm_compute. discriminate.
  - vm_compute. reflexivity.
  - reflexivity.
Defined.

(** An edit while the compilation waits for its dependencies: the next request
    replaces it. *)
Definition replace_events : list (Event (Pos := nat) (W := gmap bytes (bytes * Z))) :=
  [DidOpen (str "/a.cpp") 1 (str "int");
   Ask 0 0 (mkQuery (Some 1%nat) None) plain_disk ∅ (found_args_for "/");
   DidChange 0 2 [WholeDocument (str "long")];
   Ask 1 0 (mkQuery (Some 2%nat) None) plain_disk ∅ (found_args_for "/")].

Definition replace_state : Server nat := state_of (plain_run replace_events).

Definition int_task : CompileTask :=
  mkCompileTask 0 1 (mkCompileParams (str "/a.cpp") 1 (str "int") (str "/") [] ([], 0) ∅) InDeps.
Definition long_task : CompileTask :=
  mkCompileTask 0 2 (mkCompileParams (str "/a.cpp") 2 (str "long") (str "/") [] ([], 0) ∅) InDeps.

Lemma one_compilation_is_sent_witness :
  ∃ s, objects replace_state !! 0%nat = Some s ∧
    (task_point int_task = InDeps ∧ task_gen int_task < generation s ∨
     task_point long_task = InDeps ∧ task_gen long_task < generation s).
Proof.
  apply (one_compilation_is_sent byte_hash (λ _, [0]) plain_offset empty_pool replace_events
           replace_state 0 1 int_task long_task).
  - apply empty_pool_ok.
  - vm_compute. reflexivity.
  - vm_compute. reflexivity.
  - vm_compute. reflexivity.
  - reflexivity.
  - discriminate.
Defined.

Lemma requests_are_answered_witness :
  sn (internal_step (W := gmap bytes (bytes * Z)) byte_hash (λ _, [0]) plain_offset) replace_state ∧
  (closed replace_state = false → ∀ st',
     rtc (internal_step (W := gmap bytes (bytes * Z)) byte_hash (λ _, [0]) plain_offset) replace_state st' →
     nf (internal_step (W := gmap bytes (bytes * Z)) byte_hash (λ _, [0]) plain_offset) st' →
     ∀ q req, requests st' !! q = Some req → ∃ a, req_point req = Answered a).
Proof.
  apply (requests_are_answered byte_hash (λ _, [0]) plain_offset plain_disk empty_pool replace_events
           replace_state).
  - apply empty_pool_ok.
  - vm_compute. reflexivity.
Defined.

(** A switch of context while a compilation is at the worker does not change the
    generation: the result for the old context is accepted and the document counts as up
    to date. *)
Lemma switch_during_compilation_is_lost :
  let st := state_of (plain_run
    [DidOpen (str "/a.h") 1 (str "int");
     Ask 0 0 (mkQuery None None) plain_disk ∅ (found_args_for "/old");
     DepsReturned 0 true None ([], 0) ∅;
     SwitchContext 0 7;
     SendReturned 0 (Some (mkCompileResult [] [])) 0 (λ _, plain_disk)]) in
  ∃ s c, objects st !! 0%nat = Some s ∧ active_context s = Some 7 ∧ ast_dirty s = false ∧
    compiled s = Some c ∧ cp_directory c = str "/old".
Proof. vm_compute. by eexists _, _. Qed.

(** A request that joined a replaced compilation launches one for a document that has
    been closed since: the check of the generation is skipped when another compilation
    is replaced.  The document is sent to the worker again after it was evicted. *)
Lemma closed_document_is_compiled :
  let st := state_of (plain_run
    [DidOpen (str "/a.cpp") 1 (str "int");
     Ask 0 0 (mkQuery None None) plain_disk ∅ (found_args_for "/");
     Ask 1 0 (mkQuery None None) plain_disk ∅ (found_args_for "/");
     DidChange 0 2 [WholeDocument (str "long")];
     Ask 2 0 (mkQuery None None) plain_disk ∅ (found_args_for "/");
     DidClose 0;
     DepsReturned 0 false None ([], 0) ∅;
     Resume 1 (found_args_for "/");
     DepsReturned 2 true None ([], 0) ∅]) in
  sessions st = ∅ ∧
  effects st = [NotifyUpdate 0 2; NotifyEvict 0; ClearDiagnostics 0; EnqueueIndex 0; ScheduleIndex;
    SendCompile 0 (mkCompileParams (str "/a.cpp") 2 (str "long") (str "/") [] ([], 0) ∅)].
Proof. vm_compute. done. Qed.

(** Saving the host of a header leaves the header's context in place: the loop over the
    sessions compares the host with the document itself. *)
Lemma saved_host_keeps_context :
  let context := mkHeaderFileContext 5 (str "/cache/p.h") 0 in
  let st := state_of (plain_run
    [DidOpen (str "/a.h") 1 (str "int");
     Ask 0 0 (mkQuery None None) plain_disk ∅ (mkFound (Some (str "/", [])) (Some context));
     DidSave [5]]) in
  (header_context <$> objects st !! 0%nat) = Some (Some context).
Proof. vm_compute. done. Qed.

(** [Compiler::stop] unwinds the tasks without completing them: a request that waits is
    left waiting. *)
Lemma stop_leaves_requests_waiting :
  let st := state_of (plain_run (hover_events ++
    [DidChange 0 2 [WholeDocument (str "long")];
     Ask 1 0 (mkQuery None None) plain_disk ∅ (found_args_for "/"); Stop])) in
  tasks st = ∅ ∧ (req_point <$> requests st !! 1%nat) = Some (Launched 1) ∧
  (done <$> compiles st !! 1%nat) = Some false.
Proof. vm_compute. done. Qed.
