(* ===== verification/StatefulWorker.v ===== *)
(** * The stateful worker (src/server/worker/stateful_worker.cpp)

    A stateful worker keeps the syntax trees of the documents assigned to it.
    Requests for one document take turns on its [strand]; documents beyond the
    sixteenth are evicted, least recently used first.  Handlers are coroutines on one
    event loop; the work they queue on the thread pool is one step.  Clang's compile
    function and the language features are parameters. *)
From S2P Require Import Prelude PathPool Snapshot IndexData MergedIndex IncludeGraph TUIndex Documents.
Local Open Scope Z_scope.
Local Open Scope cpp_scope.

Section worker.
(** [CompilationUnit], [compile] and the two tests on its outcome. *)
Context {U R : Type} (compile : CompileParams → U) (completed fatal_error : U → bool).

(** [params]: version, text, directory, arguments, pch and pcms.  [unit] is empty for
    [CompilationUnit(nullptr)]. *)
Record DocumentEntry := mkDocumentEntry {
  params : CompileParams;
  has_ast : bool;
  unit : option U;
  dirty : bool;
  ast_ready : bool;
  strand : bool;
}.

Definition no_params : CompileParams := mkCompileParams [] 0 [] [] [] ([], 0) ∅.
Definition new_entry : DocumentEntry := mkDocumentEntry no_params false None false false false.

(** Where a handler is suspended: before the lock, or with its work queued.  The
    handler of a query first waits for the first tree. *)
Inductive Handler :=
| CompileWaits (doc : nat) (ps : CompileParams)
| CompileRuns (doc : nat) (ps : CompileParams)
| QueryAwaitsTree (doc : nat) (fn : U → R)
| QueryWaits (doc : nat) (fn : U → R)
| QueryRuns (doc : nat) (fn : U → R)
| Replied (r : option R).

(** [lru] has the nodes of the list, the most recent first; [lru_index] the iterators
    into it. *)
Record Worker := mkWorker {
  documents : gmap bytes nat;
  entries : gmap nat DocumentEntry;
  next_entry : nat;
  lru : list (nat * bytes);
  lru_index : gmap bytes nat;
  next_node : nat;
  handlers : gmap nat Handler;
  evicted : list bytes;
}.

Definition initial_worker : Worker := mkWorker ∅ ∅ 0 [] ∅ 0 ∅ [].

Definition set_entry (o : nat) (d : DocumentEntry) (w : Worker) : Worker :=
  mkWorker (documents w) (<[o := d]> (entries w)) (next_entry w) (lru w) (lru_index w) (next_node w)
    (handlers w) (evicted w).
Definition set_handler (h : nat) (x : Handler) (w : Worker) : Worker :=
  mkWorker (documents w) (entries w) (next_entry w) (lru w) (lru_index w) (next_node w)
    (<[h := x]> (handlers w)) (evicted w).
Definition set_lru (l : list (nat * bytes)) (index : gmap bytes nat) (w : Worker) : Worker :=
  mkWorker (documents w) (entries w) (next_entry w) l index (next_node w) (handlers w) (evicted w).
Definition set_documents (ds : gmap bytes nat) (w : Worker) : Worker :=
  mkWorker ds (entries w) (next_entry w) (lru w) (lru_index w) (next_node w) (handlers w) (evicted w).

(** [lru.erase(it)]: the iterator must be one of the list. *)
Definition erase_node (node : nat) (l : list (nat * bytes)) : Res () (list (nat * bytes)) :=
  if decide (node ∈ l.*1) then Ok (filter (λ e, e.1 ≠ node) l) else Fault.

Definition touch_lru (path : bytes) (w : Worker) : Res () Worker :=
  let? l := match lru_index w !! path with
            | Some node => erase_node node (lru w)
            | None => Ok (lru w)
            end in
  Ok (mkWorker (documents w) (entries w) (next_entry w) ((next_node w, path) :: l)
        (<[path := next_node w]> (lru_index w)) (S (next_node w)) (handlers w) (evicted w)).

Definition max_documents : nat := 16.

(** The loop pops the back of the list: [l] is the list reversed. *)
Fixpoint shrink_loop (l : list (nat * bytes)) (w : Worker) : Worker :=
  match l with
  | [] => w
  | (_, path) :: l =>
    if decide (max_documents < size (documents w))%nat then
      shrink_loop l
        (mkWorker (delete path (documents w)) (entries w) (next_entry w) (rev l)
           (delete path (lru_index w)) (next_node w) (handlers w) (evicted w ++ [path]))
    else w
  end.

Definition shrink_if_over_limit (w : Worker) : Worker := shrink_loop (rev (lru w)) w.

Definition get_or_create (path : bytes) (w : Worker) : Worker * nat :=
  match documents w !! path with
  | Some o => (w, o)
  | None =>
    let o := next_entry w in
    (mkWorker (<[path := o]> (documents w)) (<[o := new_entry]> (entries w)) (S o) (lru w)
       (lru_index w) (next_node w) (handlers w) (evicted w), o)
  end.

(** ** The handlers *)

Definition with_strand (b : bool) (d : DocumentEntry) : DocumentEntry :=
  mkDocumentEntry (params d) (has_ast d) (unit d) (dirty d) (ast_ready d) b.
Definition with_params (ps : CompileParams) (d : DocumentEntry) : DocumentEntry :=
  mkDocumentEntry ps (has_ast d) (unit d) (dirty d) (ast_ready d) (strand d).
Definition with_dirty (b : bool) (d : DocumentEntry) : DocumentEntry :=
  mkDocumentEntry (params d) (has_ast d) (unit d) b (ast_ready d) (strand d).
Definition with_unit (u : U) (d : DocumentEntry) : DocumentEntry :=
  mkDocumentEntry (params d) true (Some u) false (ast_ready d) (strand d).
Definition with_ready (d : DocumentEntry) : DocumentEntry :=
  mkDocumentEntry (params d) (has_ast d) (unit d) (dirty d) true (strand d).

Definition fresh_handler (h : nat) (w : Worker) : Res () () :=
  guard_b (bool_decide (handlers w !! h = None)).

Definition compile_request (h : nat) (ps : CompileParams) (w : Worker) : Res () Worker :=
  let? _ := fresh_handler h w in
  let '(w, o) := get_or_create (cp_path ps) w in
  let? w := touch_lru (cp_path ps) w in
  Ok (set_handler h (CompileWaits o ps) w).

(** The handler gets the strand, which must be free. *)
Definition locked (h : nat) (w : Worker) : Res () Worker :=
  let? x := need (handlers w !! h) in
  match x with
  | CompileWaits o ps =>
    let? d := read (entries w !! o) in
    let? _ := guard_b (negb (strand d)) in
    Ok (set_handler h (CompileRuns o ps) (set_entry o (with_params ps (with_strand true d)) w))
  | QueryWaits o fn =>
    let? d := read (entries w !! o) in
    let? _ := guard_b (negb (strand d)) in
    Ok (set_handler h (QueryRuns o fn) (set_entry o (with_strand true d) w))
  | _ => Err tt
  end.

(** The queued work of a compilation has been done. *)
Definition compile_done (h o : nat) (w : Worker) : Res () Worker :=
  let? d := read (entries w !! o) in
  let d := with_unit (compile (params d)) d in
  let d := with_ready (with_strand false d) in
  let w := set_handler h (Replied None) (set_entry o d w) in
  Ok (shrink_if_over_limit w).

(** [fn] runs on the tree when there is a usable one. *)
Definition query_result (fn : U → R) (d : DocumentEntry) : option R :=
  if has_ast d then
    match unit d with
    | Some u => if completed u || fatal_error u then Some (fn u) else None
    | None => None
    end
  else None.

Definition query_done (h o : nat) (fn : U → R) (w : Worker) : Res () Worker :=
  let? d := read (entries w !! o) in
  Ok (set_handler h (Replied (query_result fn d)) (set_entry o (with_strand false d) w)).

Definition work_done (h : nat) (w : Worker) : Res () Worker :=
  let? x := need (handlers w !! h) in
  match x with
  | CompileRuns o _ => compile_done h o w
  | QueryRuns o fn => query_done h o fn w
  | _ => Err tt
  end.

(** [with_ast] up to the wait for the first tree, and after it. *)
Definition query_request (h : nat) (path : bytes) (fn : U → R) (w : Worker) : Res () Worker :=
  let? _ := fresh_handler h w in
  match documents w !! path with
  | None => Ok (set_handler h (Replied None) w)
  | Some o =>
    let? w := touch_lru path w in
    Ok (set_handler h (QueryAwaitsTree o fn) w)
  end.

Definition tree_ready (h : nat) (w : Worker) : Res () Worker :=
  let? x := need (handlers w !! h) in
  match x with
  | QueryAwaitsTree o fn =>
    let? d := read (entries w !! o) in
    let? _ := guard_b (ast_ready d) in
    Ok (set_handler h (QueryWaits o fn) w)
  | _ => Err tt
  end.

Definition document_update (path : bytes) (w : Worker) : Res () Worker :=
  match documents w !! path with
  | None => Ok w
  | Some o =>
    let? d := read (entries w !! o) in
    Ok (set_entry o (with_dirty true d) w)
  end.

Definition evict (path : bytes) (w : Worker) : Res () Worker :=
  let? w := match lru_index w !! path with
            | Some node =>
              let? l := erase_node node (lru w) in
              Ok (set_lru l (delete path (lru_index w)) w)
            | None => Ok w
            end in
  Ok (set_documents (delete path (documents w)) w).

Inductive WorkerEvent :=
| OnCompile (h : nat) (ps : CompileParams)
| OnQuery (h : nat) (path : bytes) (fn : U → R)
| OnUpdate (path : bytes)
| OnEvict (path : bytes)
| TreeReady (h : nat)
| Locked (h : nat)
| WorkDone (h : nat).

Definition worker_step (e : WorkerEvent) (w : Worker) : Res () Worker :=
  match e with
  | OnCompile h ps => compile_request h ps w
  | OnQuery h path fn => query_request h path fn w
  | OnUpdate path => document_update path w
  | OnEvict path => evict path w
  | TreeReady h => tree_ready h w
  | Locked h => locked h w
  | WorkDone h => work_done h w
  end.

Fixpoint worker_run (events : list WorkerEvent) (w : Worker) : Res () Worker :=
  match events with
  | [] => Ok w
  | e :: events =>
    match worker_step e w with
    | Ok w => worker_run events w
    | Err _ => worker_run events w
    | Fault => Fault
    | Stuck => Stuck
    end
  end.
End worker.
