(* ===== verification/StatefulTheorems.v ===== *)
(** * The stateful worker: eviction and the trees it answers from *)
From S2P Require Import Prelude PathPool Snapshot IndexData MergedIndex IncludeGraph TUIndex Documents DocumentSteps StatefulWorker.
Local Open Scope Z_scope.
Local Open Scope cpp_scope.

Section theorems.
Context {U R : Type} (compile : CompileParams → U) (completed fatal_error : U → bool).
Abbreviation worker := (Worker (U := U) (R := R)).
Implicit Types (w : worker) (path : bytes).

(** ** The list and its index *)

Record lru_core w : Prop := {
  lo_nodes : NoDup (lru w).*1;
  lo_paths : NoDup (lru w).*2;
  lo_fresh n path : (n, path) ∈ lru w → (n < next_node w)%nat;
  lo_index path n : lru_index w !! path = Some n ↔ (n, path) ∈ lru w;
}.

(** The documents are those of the list. *)
Definition lru_docs w : Prop := ∀ path, is_Some (documents w !! path) ↔ path ∈ (lru w).*2.

Lemma node_in (l : list (nat * bytes)) n path : (n, path) ∈ l → n ∈ l.*1 ∧ path ∈ l.*2.
Proof. intros Hin. split; apply list_elem_of_fmap; by exists (n, path). Qed.

Lemma same_path (l : list (nat * bytes)) n n' path :
  NoDup l.*2 → (n, path) ∈ l → (n', path) ∈ l → n = n'.
Proof.
  intros Hnd H1 H2. apply list_elem_of_lookup in H1 as [i Hi], H2 as [j Hj].
  assert (i = j) as ->.
  { eapply (NoDup_lookup l.*2); [done| |]; rewrite list_lookup_fmap; [rewrite Hi | rewrite Hj]; done. }
  congruence.
Qed.

Lemma same_node (l : list (nat * bytes)) n path path' :
  NoDup l.*1 → (n, path) ∈ l → (n, path') ∈ l → path = path'.
Proof.
  intros Hnd H1 H2. apply list_elem_of_lookup in H1 as [i Hi], H2 as [j Hj].
  assert (i = j) as ->.
  { eapply (NoDup_lookup l.*1); [done| |]; rewrite list_lookup_fmap; [rewrite Hi | rewrite Hj]; done. }
  congruence.
Qed.

Lemma NoDup_fmap_filter {A B} (f : A → B) (P : A → Prop) `{∀ x, Decision (P x)} l :
  NoDup (f <$> l) → NoDup (f <$> filter P l).
Proof.
  induction l as [|x l IH]; [done|]. rewrite fmap_cons, NoDup_cons. intros [Hx Hnd].
  rewrite filter_cons. case_decide; [|auto]. rewrite fmap_cons. constructor; [|auto].
  rewrite list_elem_of_fmap in *. intros (y & E & Hy). apply Hx. exists y.
  apply list_elem_of_filter in Hy as [_ ?]. done.
Qed.

(** Removing the node of a path leaves the nodes of the others. *)
Lemma elem_of_erased w n path m q :
  lru_core w → (n, path) ∈ lru w →
  (m, q) ∈ filter (λ e : nat * bytes, e.1 ≠ n) (lru w) ↔ (m, q) ∈ lru w ∧ q ≠ path.
Proof.
  intros [N P _ _] Hin. rewrite list_elem_of_filter. cbn. split.
  - intros [Hm Hq]. split; [done|]. intros ->. by destruct Hm, (same_path _ _ _ _ P Hin Hq).
  - intros [Hm Hq]. split; [|done]. intros ->. by destruct Hq, (same_node _ _ _ _ N Hin Hm).
Qed.

Lemma touch_ok path w :
  lru_core w →
  ∃ l w', touch_lru path w = Ok w' ∧ lru_core w' ∧ lru w' = (next_node w, path) :: l ∧
    (∀ e, e ∈ l ↔ e ∈ lru w ∧ e.2 ≠ path) ∧ l `sublist_of` lru w ∧
    documents w' = documents w ∧ entries w' = entries w ∧ next_entry w' = next_entry w ∧
    handlers w' = handlers w ∧ evicted w' = evicted w.
Proof.
  intros C. unfold touch_lru.
  assert (∃ l, match lru_index w !! path with
               | Some node => erase_node node (lru w)
               | None => Ok (lru w)
               end = Ok l ∧ l `sublist_of` lru w ∧ NoDup l.*1 ∧ NoDup l.*2 ∧
    (∀ e, e ∈ l ↔ e ∈ lru w ∧ e.2 ≠ path)) as (l & -> & Hsub & N & P & Hl).
  { destruct (lru_index w !! path) as [n|] eqn:Hi.
    - apply (lo_index _ C) in Hi. exists (filter (λ e, e.1 ≠ n) (lru w)). split_and!.
      + unfold erase_node. rewrite decide_True; [done|]. by apply (node_in _ _ _ Hi).
      + apply sublist_filter.
      + apply NoDup_fmap_filter, C.
      + apply NoDup_fmap_filter, C.
      + intros [m q]. by apply elem_of_erased.
    - exists (lru w). split_and!; [done|done|apply C..|]. intros [m q]. cbn. split; [|naive_solver].
      intros Hin. split; [done|]. intros ->. apply (lo_index _ C) in Hin. congruence. }
  exists l. eexists. split_and!; try done. cbn [Res_bind]. split; cbn.
  - constructor; [|done]. rewrite list_elem_of_fmap. intros ([m q] & E & Hin). cbn in E. subst m.
    apply Hl in Hin as [Hin _]. apply (lo_fresh _ C) in Hin. lia.
  - constructor; [|done]. rewrite list_elem_of_fmap. intros ([m q] & E & Hin). cbn in E. subst q.
    apply Hl in Hin as [_ ?]. done.
  - intros n q. rewrite elem_of_cons. intros [[= -> ->]|Hin]; [lia|].
    apply Hl in Hin as [Hin _]. apply (lo_fresh _ C) in Hin. lia.
  - intros q n. rewrite elem_of_cons. destruct (decide (q = path)) as [->|Hne].
    + rewrite lookup_insert_eq. split; [intros [= ->]; by left|].
      intros [[= ->]|Hin]; [done|]. by apply Hl in Hin as [_ ?].
    + rewrite lookup_insert_ne, (lo_index _ C) by done. split.
      * intros Hin. right. by apply Hl.
      * intros [[= -> ->]|Hin]; [done|]. by apply Hl in Hin as [? _].
Qed.

Lemma touch_docs path w w' l :
  lru w' = (next_node w, path) :: l → (∀ e, e ∈ l ↔ e ∈ lru w ∧ e.2 ≠ path) →
  documents w' = documents w → is_Some (documents w !! path) →
  (∀ q, q ≠ path → is_Some (documents w !! q) ↔ q ∈ (lru w).*2) → lru_docs w'.
Proof.
  intros El Hl Ed Hp Hd q. rewrite El, Ed. cbn. rewrite elem_of_cons.
  destruct (decide (q = path)) as [->|Hne]; [naive_solver|]. rewrite Hd by done.
  rewrite !list_elem_of_fmap. split.
  - intros (e & -> & He). right. exists e. split; [done|]. by apply Hl.
  - intros [?|(e & -> & He)]; [done|]. exists e. split; [done|]. by apply Hl in He as [? _].
Qed.

(** ** Eviction *)

Lemma documents_size w : lru_core w → lru_docs w → size (documents w) = length (lru w).
Proof.
  intros C D. rewrite <- size_dom.
  assert (dom (documents w) = list_to_set (lru w).*2) as ->.
  { apply set_eq. intros q. rewrite elem_of_dom, elem_of_list_to_set. apply D. }
  rewrite size_list_to_set by apply C. by rewrite length_fmap.
Qed.

Lemma pop_ok w l n path :
  lru_core w → lru_docs w → lru w = l ++ [(n, path)] →
  let w' := mkWorker (delete path (documents w)) (entries w) (next_entry w) l
              (delete path (lru_index w)) (next_node w) (handlers w) (evicted w ++ [path]) in
  lru_core w' ∧ lru_docs w'.
Proof.
  intros [N P F X] D El. rewrite El, fmap_app in N. rewrite El, fmap_app in P. cbn in N, P.
  assert (Hout : ∀ m q, (m, q) ∈ l → q ≠ path).
  { intros m q Hin ->. apply NoDup_app in P as (_ & Hp & _). eapply Hp; [|by apply list_elem_of_singleton].
    by apply (node_in _ m path). }
  apply NoDup_app in N as (? & _ & _). apply NoDup_app in P as (? & _ & _).
  split; [split|]; cbn [lru lru_index next_node documents]; try done.
  - intros m q Hin. apply (F m q). rewrite El. apply elem_of_app. by left.
  - intros q m. rewrite lookup_delete_Some, (X q m), El, elem_of_app, list_elem_of_singleton.
    split; [naive_solver|]. intros Hin. split; [|by left]. intros <-. by eapply Hout.
  - intros q. cbn [lru documents]. rewrite lookup_delete_is_Some, (D q), El, fmap_app, elem_of_app. cbn.
    rewrite list_elem_of_singleton. split; [naive_solver|]. intros Hin. split; [|by left].
    apply list_elem_of_fmap in Hin as ([m q'] & -> & Hin). intros ->. by eapply Hout.
Qed.

(** What is left is the front of the list. *)
Lemma shrink_keeps_front w :
  lru_core w → lru_docs w →
  let w' := shrink_if_over_limit w in
  lru_core w' ∧ lru_docs w' ∧ lru w' = take max_documents (lru w) ∧
  evicted w' = evicted w ++ rev (drop max_documents (lru w)).*2 ∧
  (∀ path o, documents w' !! path = Some o → documents w !! path = Some o) ∧
  entries w' = entries w ∧ next_entry w' = next_entry w ∧ handlers w' = handlers w.
Proof.
  unfold shrink_if_over_limit. remember (rev (lru w)) as l eqn:El.
  assert (lru w = rev l) as Elru by (by rewrite El, rev_involutive). clear El.
  revert w Elru. induction l as [|[n path] l IH]; intros w Elru C D; cbn [shrink_loop].
  - rewrite Elru. cbn. rewrite app_nil_r. done.
  - pose proof (documents_size _ C D) as Hsz. case_decide as Hlt.
    + cbn [rev] in Elru. destruct (pop_ok w (rev l) n path C D Elru) as [C' D'].
      match goal with |- context [shrink_loop l ?w1] => specialize (IH w1 eq_refl C' D') end.
      cbn [lru evicted documents entries next_entry handlers] in IH.
      destruct IH as (? & ? & Hl & He & Hd & ? & ? & ?). split_and!; try done.
      * rewrite Hl, Elru, take_app_le; [done|]. rewrite Elru, length_app in Hsz. cbn in Hsz. lia.
      * rewrite He, Elru. rewrite drop_app_le by (rewrite Elru, length_app in Hsz; cbn in Hsz; lia).
        rewrite fmap_app, rev_app_distr. cbn. by rewrite <- app_assoc.
      * intros q o Hq. apply Hd in Hq. by apply lookup_delete_Some in Hq as [_ ?].
    + rewrite take_ge, drop_ge by lia. cbn. rewrite app_nil_r. done.
Qed.

(** ** Strands *)

Definition doc_of (x : Handler (U := U) (R := R)) : option nat :=
  match x with
  | CompileWaits o _ | CompileRuns o _ | QueryAwaitsTree o _ | QueryWaits o _ | QueryRuns o _ => Some o
  | Replied _ => None
  end.

Definition holds (x : Handler (U := U) (R := R)) : option nat :=
  match x with CompileRuns o _ | QueryRuns o _ => Some o | _ => None end.

Definition compiles_doc (o : nat) (x : Handler (U := U) (R := R)) : Prop :=
  match x with CompileRuns o' _ => o' = o | _ => False end.

Record strands_ok (E : gmap nat (DocumentEntry (U := U))) (H : gmap nat (Handler (U := U) (R := R)))
    : Prop := {
  so_doc h x o : H !! h = Some x → doc_of x = Some o → is_Some (E !! o);
  so_lock h x o d : H !! h = Some x → holds x = Some o → E !! o = Some d → strand d = true;
  so_alone h h' x x' o : H !! h = Some x → H !! h' = Some x' →
    holds x = Some o → holds x' = Some o → h = h';
  so_held o d : E !! o = Some d → strand d = true → ∃ h x, H !! h = Some x ∧ holds x = Some o;
  so_unit o d : E !! o = Some d → has_ast d = true →
    (∀ h x, H !! h = Some x → ¬ compiles_doc o x) → StatefulWorker.unit d = Some (compile (params d));
}.

Lemma holds_doc x o : holds x = Some o → doc_of x = Some o.
Proof. by destruct x. Qed.

Lemma compiles_holds o x : compiles_doc o x → holds x = Some o.
Proof. by destruct x; cbn; intros; subst. Qed.

(** A handler that holds no strand may come, or move on without one. *)
Lemma strands_wait E H h x :
  strands_ok E H → (∀ y, H !! h = Some y → holds y = None) → holds x = None →
  (∀ o, doc_of x = Some o → is_Some (E !! o)) → strands_ok E (<[h := x]> H).
Proof.
  intros [D L A Hd Un] Hy Hx Hdoc.
  assert (Hne : ∀ h' x' o, H !! h' = Some x' → holds x' = Some o → h ≠ h').
  { intros h' x' o Hh' Ho <-. rewrite (Hy _ Hh') in Ho. done. }
  assert (Hold : ∀ h' x' o, <[h := x]> H !! h' = Some x' → holds x' = Some o → H !! h' = Some x').
  { intros h' x' o. destruct (decide (h = h')) as [<-|]; [rewrite lookup_insert_eq; congruence|].
    by rewrite lookup_insert_ne. }
  split.
  - intros h' x' o. destruct (decide (h = h')) as [<-|]; [rewrite lookup_insert_eq; naive_solver|].
    rewrite lookup_insert_ne by done. apply D.
  - intros h' x' o d Hh' Ho. by eapply L, Ho; eapply Hold.
  - intros h1 h2 x1 x2 o H1 H2 Ho1 Ho2. eapply A; eauto.
  - intros o d Ho Hs. destruct (Hd o d Ho Hs) as (h' & x' & Hh' & Hx'). exists h', x'.
    split; [|done]. rewrite lookup_insert_ne; [done|]. by eapply Hne.
  - intros o d Ho Ha Hno. apply (Un o d Ho Ha). intros h' x' Hh' Hc.
    eapply Hno, Hc. rewrite lookup_insert_ne; [done|]. by eapply Hne, compiles_holds.
Qed.

(** A handler takes the free strand of its document; what it changes in the entry
    concerns only compilations. *)
Lemma strands_lock E H h x o d d' :
  strands_ok E H → E !! o = Some d → strand d = false → (∀ y, H !! h = Some y → holds y = None) →
  holds x = Some o → strand d' = true → has_ast d' = has_ast d →
  (¬ compiles_doc o x → params d' = params d ∧ StatefulWorker.unit d' = StatefulWorker.unit d) →
  strands_ok (<[o := d']> E) (<[h := x]> H).
Proof.
  intros [D L A Hd Un] Ho Hfree Hy Hx Hs' Ha' Hp.
  assert (Hno : ∀ h' x', H !! h' = Some x' → holds x' ≠ Some o)
    by (intros h' x' Hh' Hx'; pose proof (L _ _ _ _ Hh' Hx' Ho); congruence).
  split.
  - intros h' x' o' Hh' Hdoc. apply lookup_insert_is_Some'.
    destruct (decide (h = h')) as [<-|]; [rewrite lookup_insert_eq in Hh'; simplify_eq|].
    + left. apply holds_doc in Hx. congruence.
    + rewrite lookup_insert_ne in Hh' by done. right. eauto.
  - intros h' x' o' d0 Hh' Hx' Hd0. destruct (decide (o = o')) as [<-|].
    + rewrite lookup_insert_eq in Hd0. congruence.
    + rewrite lookup_insert_ne in Hd0 by done. destruct (decide (h = h')) as [<-|];
        [rewrite lookup_insert_eq in Hh'; congruence | rewrite lookup_insert_ne in Hh' by done; eauto].
  - intros h1 h2 x1 x2 o' H1 H2 Ho1 Ho2.
    apply lookup_insert_Some in H1 as [[<- <-]|[? H1]], H2 as [[<- <-]|[? H2]]; [done| | |eauto].
    + simplify_eq. by destruct (Hno _ _ H2).
    + simplify_eq. by destruct (Hno _ _ H1).
  - intros o' d0 Hd0 Hs. destruct (decide (o = o')) as [<-|].
    + exists h, x. by rewrite lookup_insert_eq.
    + rewrite lookup_insert_ne in Hd0 by done. destruct (Hd _ _ Hd0 Hs) as (h' & x' & Hh' & Hx').
      exists h', x'. split; [|done]. rewrite lookup_insert_ne; [done|]. intros <-.
      rewrite (Hy _ Hh') in Hx'. done.
  - intros o' d0 Hd0 Ha Hc. destruct (decide (o = o')) as [<-|].
    + rewrite lookup_insert_eq in Hd0. simplify_eq. destruct Hp as [-> ->].
      { intros Hcx. eapply Hc, Hcx. apply lookup_insert_eq. }
      apply (Un o d Ho); [congruence|]. intros h' x' Hh' Hcx. by eapply Hno, compiles_holds.
    + rewrite lookup_insert_ne in Hd0 by done. apply (Un _ _ Hd0 Ha). intros h' x' Hh' Hcx.
      eapply Hc, Hcx. rewrite lookup_insert_ne; [done|]. intros <-.
      apply compiles_holds in Hcx. rewrite (Hy _ Hh') in Hcx. done.
Qed.

(** A handler gives its strand back; a compilation leaves the tree of its parameters. *)
Lemma strands_unlock E H h x r o d d' :
  strands_ok E H → E !! o = Some d → H !! h = Some x → holds x = Some o → strand d' = false →
  (has_ast d' = true → compiles_doc o x → StatefulWorker.unit d' = Some (compile (params d'))) →
  (¬ compiles_doc o x → has_ast d' = has_ast d ∧ params d' = params d ∧
     StatefulWorker.unit d' = StatefulWorker.unit d) →
  strands_ok (<[o := d']> E) (<[h := Replied r]> H).
Proof.
  intros [D L A Hd Un] Ho Hh Hx Hs' Hcomp Hother.
  assert (Hold : ∀ h' x', <[h := Replied r]> H !! h' = Some x' → is_Some (doc_of x') →
    h ≠ h' ∧ H !! h' = Some x').
  { intros h' x'. destruct (decide (h = h')) as [<-|];
      [rewrite lookup_insert_eq; intros [= <-] [? ?]; done | by rewrite lookup_insert_ne]. }
  assert (Hno : ∀ h' x', h ≠ h' → H !! h' = Some x' → holds x' ≠ Some o)
    by (intros h' x' Hne Hh' Hx'; by destruct Hne; eapply A).
  split.
  - intros h' x' o' Hh' Hdoc. apply lookup_insert_is_Some'. right.
    destruct (Hold _ _ Hh' ltac:(by eexists)) as [_ ?]. eauto.
  - intros h' x' o' d0 Hh' Hx' Hd0. destruct (Hold _ _ Hh') as [Hne Hh0]; [eexists; by apply holds_doc|].
    destruct (decide (o = o')) as [<-|]; [by destruct (Hno _ _ Hne Hh0)|].
    rewrite lookup_insert_ne in Hd0 by done. eauto.
  - intros h1 h2 x1 x2 o' H1 H2 Ho1 Ho2.
    destruct (Hold _ _ H1) as [_ ?]; [eexists; by apply holds_doc|].
    destruct (Hold _ _ H2) as [_ ?]; [eexists; by apply holds_doc|]. eauto.
  - intros o' d0 Hd0 Hs. destruct (decide (o = o')) as [<-|];
      [rewrite lookup_insert_eq in Hd0; congruence|].
    rewrite lookup_insert_ne in Hd0 by done. destruct (Hd _ _ Hd0 Hs) as (h' & x' & Hh' & Hx').
    exists h', x'. split; [|done]. rewrite lookup_insert_ne; [done|]. intros <-. congruence.
  - intros o' d0 Hd0 Ha Hc. destruct (decide (o = o')) as [<-|].
    + rewrite lookup_insert_eq in Hd0. simplify_eq. destruct x; cbn in Hx; simplify_eq.
      * by apply Hcomp.
      * destruct Hother as (E1 & -> & ->); [by intros []|]. apply (Un o d Ho); [congruence|].
        intros h' x' Hh' Hcx. apply compiles_holds in Hcx as Hx'.
        destruct (decide (h = h')) as [<-|Hne]; [by simplify_eq|]. by destruct (Hno _ _ Hne Hh').
    + rewrite lookup_insert_ne in Hd0 by done. apply (Un _ _ Hd0 Ha). intros h' x' Hh' Hcx.
      eapply Hc, Hcx. rewrite lookup_insert_ne; [done|]. intros <-.
      apply compiles_holds in Hcx. congruence.
Qed.

Lemma strands_new_entry E H o :
  strands_ok E H → E !! o = None → strands_ok (<[o := new_entry]> E) H.
Proof.
  intros [D L A Hd Un] Ho. split.
  - intros. apply lookup_insert_is_Some'. right. eauto.
  - intros h x o' d Hh Hx Hd'. apply lookup_insert_Some in Hd' as [[<- <-]|[? ?]]; [|eauto].
    destruct (D _ _ _ Hh (holds_doc _ _ Hx)). congruence.
  - done.
  - intros o' d Hd'. apply lookup_insert_Some in Hd' as [[<- <-]|[? ?]]; [done|eauto].
  - intros o' d Hd'. apply lookup_insert_Some in Hd' as [[<- <-]|[? ?]]; [done|eauto].
Qed.

Lemma strands_dirty E H o d b :
  strands_ok E H → E !! o = Some d → strands_ok (<[o := with_dirty b d]> E) H.
Proof.
  intros [D L A Hd Un] Ho. split.
  - intros. apply lookup_insert_is_Some'. right. eauto.
  - intros h x o' d' Hh Hx Hd'. apply lookup_insert_Some in Hd' as [[<- <-]|[? ?]]; [|eauto].
    cbn. eauto.
  - done.
  - intros o' d' Hd'. apply lookup_insert_Some in Hd' as [[<- <-]|[? ?]]; [|eauto]. cbn. eauto.
  - intros o' d' Hd'. apply lookup_insert_Some in Hd' as [[<- <-]|[? ?]]; [|eauto]. cbn. eauto.
Qed.

(** ** The invariant of the worker *)

Record worker_ok w : Prop := {
  wo_core : lru_core w;
  wo_docs : lru_docs w;
  wo_doc path o : documents w !! path = Some o → is_Some (entries w !! o);
  wo_entry o d : entries w !! o = Some d → (o < next_entry w)%nat;
  wo_strands : strands_ok (entries w) (handlers w);
}.

Lemma initial_worker_ok : worker_ok initial_worker.
Proof.
  split; try done.
  - split; cbn; [apply NoDup_nil_2 | apply NoDup_nil_2 | by intros ? ? ?%elem_of_nil |].
    intros path n. rewrite lookup_empty. split; [done | by intros ?%elem_of_nil].
  - intros path. cbn. rewrite lookup_empty. split; [by intros [] | by intros ?%elem_of_nil].
Qed.

(** Only entries and handlers change. *)
Lemma worker_ok_strands w w' :
  worker_ok w → documents w' = documents w → lru w' = lru w → lru_index w' = lru_index w →
  next_node w' = next_node w → next_entry w' = next_entry w →
  (∀ o, is_Some (entries w' !! o) ↔ is_Some (entries w !! o)) →
  strands_ok (entries w') (handlers w') → worker_ok w'.
Proof.
  intros [[N P F X] D Do En S] Ed El Ei En' Ee He HS. split.
  - split; rewrite ?El, ?Ei, ?En'; done.
  - unfold lru_docs. rewrite Ed, El. done.
  - intros path o. rewrite Ed. intros Hp. apply He. eauto.
  - intros o d Ho. destruct (proj1 (He o)) as [d' ?]; [by eexists|]. rewrite Ee. eauto.
  - done.
Qed.

Lemma insert_is_Some (E : gmap nat (DocumentEntry (U := U))) o d d' o' :
  E !! o = Some d → is_Some (<[o := d']> E !! o') ↔ is_Some (E !! o').
Proof. intros Ho. rewrite lookup_insert_is_Some'. naive_solver. Qed.

Lemma touch_worker path w :
  lru_core w → (∀ q, q ≠ path → is_Some (documents w !! q) ↔ q ∈ (lru w).*2) →
  is_Some (documents w !! path) →
  (∀ p o, documents w !! p = Some o → is_Some (entries w !! o)) →
  (∀ o d, entries w !! o = Some d → (o < next_entry w)%nat) →
  strands_ok (entries w) (handlers w) →
  sure (touch_lru path w) (λ w', worker_ok w' ∧ handlers w' = handlers w ∧
    documents w' = documents w ∧ entries w' = entries w).
Proof.
  intros C Hq Hp Hdoc Hent HS. destruct (touch_ok path w C) as (l & w' & -> & C' & El & Hl & _ & Ed & Ee & En & Eh & _).
  cbn. split_and!; [|done..]. split; [done| | | |].
  - by eapply touch_docs.
  - rewrite Ed, Ee. done.
  - rewrite Ee, En. done.
  - rewrite Ee, Eh. done.
Qed.

Lemma compile_request_safe h ps w : worker_ok w → safe (compile_request h ps w) worker_ok.
Proof.
  intros [C D Do En HS]. unfold compile_request. apply safe_guarded. intros Hh%bool_decide_eq_true.
  destruct (get_or_create (cp_path ps) w) as [w1 o] eqn:Hg.
  assert (sure (touch_lru (cp_path ps) w1) (λ w', worker_ok w' ∧ handlers w' = handlers w1 ∧
    documents w' = documents w1 ∧ entries w' = entries w1) ∧ handlers w1 = handlers w ∧
    is_Some (entries w1 !! o)) as (Ht & Eh & Ho).
  { unfold get_or_create in Hg. destruct (documents w !! cp_path ps) as [o'|] eqn:Hp; simplify_eq.
    - split_and!; [|done|eauto]. by apply touch_worker.
    - assert (entries w !! next_entry w = None) as Hfree.
      { destruct (entries w !! next_entry w) as [d|] eqn:E; [|done]. apply En in E. lia. }
      split_and!; [|done|cbn; rewrite lookup_insert_eq; by eexists].
      apply touch_worker; cbn [lru documents entries handlers next_entry].
      + by destruct C.
      + intros q Hq. rewrite lookup_insert_ne by done. apply D.
      + rewrite lookup_insert_eq. by eexists.
      + intros p o Hpo. apply lookup_insert_is_Some'.
        apply lookup_insert_Some in Hpo as [[<- <-]|[_ Hpo]]; [by left|right; eauto].
      + intros o d Hod. apply lookup_insert_Some in Hod as [[<- _]|[_ Hod%En]]; lia.
      + by apply strands_new_entry. }
  eapply safe_then; [by apply sure_safe|]. intros w2 (W2 & Eh2 & _ & Ee2). cbn [safe].
  eapply worker_ok_strands; try done. cbn. rewrite Eh2, Eh. apply strands_wait; [|congruence|done|].
  - rewrite <- Eh, <- Eh2. apply W2.
  - cbn. intros o' [= <-]. by rewrite Ee2.
Qed.

Lemma query_request_safe h path fn w : worker_ok w → safe (query_request h path fn w) worker_ok.
Proof.
  intros W. pose proof W as [C D Do En HS]. unfold query_request. apply safe_guarded.
  intros Hh%bool_decide_eq_true. destruct (documents w !! path) as [o|] eqn:Hp.
  - eapply safe_then; [apply sure_safe, touch_worker; try done; by eexists|].
    intros w2 (W2 & Eh & Ed & Ee). cbn [safe]. eapply worker_ok_strands; try done. cbn.
    rewrite Eh. apply strands_wait; [|congruence|done|].
    + rewrite <- Eh. apply W2.
    + cbn. intros o' [= <-]. rewrite Ee. eauto.
  - cbn [safe]. eapply worker_ok_strands; try done. cbn. apply strands_wait; [done|congruence|done|done].
Qed.

Lemma locked_safe h w : worker_ok w → safe (locked h w) worker_ok.
Proof.
  intros W. pose proof W as [C D Do En HS]. unfold locked. apply safe_needed. intros x Hx.
  destruct x as [o ps|o ps|o fn|o fn|o fn|r]; try done.
  all: destruct (so_doc _ _ HS h _ o Hx eq_refl) as [d Hd]; rewrite Hd; cbn [read Res_bind].
  all: apply safe_guarded; intros Hs%negb_true_iff; cbn [safe].
  all: eapply worker_ok_strands; try done; cbn; [intros o'; by eapply insert_is_Some|].
  - eapply strands_lock; try done. intros. by simplify_eq.
  - eapply strands_lock; try done. intros. by simplify_eq.
Qed.

Lemma tree_ready_safe h w : worker_ok w → safe (tree_ready h w) worker_ok.
Proof.
  intros W. pose proof W as [C D Do En HS]. unfold tree_ready. apply safe_needed. intros x Hx.
  destruct x as [o ps|o ps|o fn|o fn|o fn|r]; try done.
  destruct (so_doc _ _ HS h _ o Hx eq_refl) as [d Hd]; rewrite Hd; cbn [read Res_bind].
  apply safe_guarded. intros _. cbn [safe]. eapply worker_ok_strands; try done. cbn.
  apply strands_wait; [done|intros; by simplify_eq|done|]. cbn. intros o' [= <-]. by eexists.
Qed.

Lemma shrink_worker w : worker_ok w → worker_ok (shrink_if_over_limit w).
Proof.
  intros [C D Do En HS]. destruct (shrink_keeps_front w C D) as (C' & D' & _ & _ & Hd & Ee & En' & Eh).
  split; [done|done| | |].
  - intros path o Hp. rewrite Ee. eauto.
  - rewrite Ee, En'. done.
  - by rewrite Ee, Eh.
Qed.

Lemma work_done_safe h w : worker_ok w → safe (work_done compile completed fatal_error h w) worker_ok.
Proof.
  intros W. pose proof W as [C D Do En HS]. unfold work_done. apply safe_needed. intros x Hx.
  destruct x as [o ps|o ps|o fn|o fn|o fn|r]; try done.
  all: destruct (so_doc _ _ HS h _ o Hx eq_refl) as [d Hd].
  - unfold compile_done. rewrite Hd. cbn [read Res_bind safe]. apply shrink_worker.
    eapply worker_ok_strands; try done; cbn; [intros o'; by eapply insert_is_Some|].
    by eapply strands_unlock.
  - unfold query_done. rewrite Hd. cbn [read Res_bind safe].
    eapply worker_ok_strands; try done; cbn; [intros o'; by eapply insert_is_Some|].
    eapply strands_unlock; try done.
Qed.

Lemma document_update_safe path w : worker_ok w → safe (document_update path w) worker_ok.
Proof.
  intros W. pose proof W as [C D Do En HS]. unfold document_update.
  destruct (documents w !! path) as [o|] eqn:Hp; [|done]. destruct (Do _ _ Hp) as [d Hd].
  rewrite Hd. cbn [read Res_bind safe].
  eapply worker_ok_strands; try done; cbn; [intros o'; by eapply insert_is_Some|].
  by apply strands_dirty.
Qed.

Lemma evict_safe path w : worker_ok w → safe (evict path w) worker_ok.
Proof.
  intros [C D Do En HS]. unfold evict. destruct (lru_index w !! path) as [n|] eqn:Hi.
  - apply (lo_index _ C) in Hi as Hin. unfold erase_node.
    rewrite decide_True by (by apply (node_in _ _ _ Hin)). cbn [Res_bind safe].
    pose proof (λ m q, elem_of_erased w n path m q C Hin) as Her.
    split; cbn [lru lru_index documents entries handlers next_node next_entry set_documents set_lru].
    + split; cbn [lru lru_index next_node set_documents set_lru].
      * apply NoDup_fmap_filter, C.
      * apply NoDup_fmap_filter, C.
      * intros m q Hm. apply Her in Hm as [Hm _]. by eapply lo_fresh.
      * intros q m. rewrite lookup_delete_Some, (lo_index _ C q m), Her. naive_solver.
    + intros q. cbn [lru documents set_documents set_lru].
      rewrite lookup_delete_is_Some, (D q), !list_elem_of_fmap. split.
      * intros [Hq ([m q'] & -> & Hm)]. exists (m, q'). split; [done|]. apply Her. done.
      * intros ([m q'] & -> & Hm). apply Her in Hm as [Hm Hq]. split; [done|]. by exists (m, q').
    + intros q o. rewrite lookup_delete_Some. intros [_ Hq]. eauto.
    + done.
    + done.
  - cbn [Res_bind safe].
    assert (documents w !! path = None) as Hn.
    { destruct (documents w !! path) eqn:E; [|done]. assert (path ∈ (lru w).*2) as Hin by (apply D; by eexists).
      apply list_elem_of_fmap in Hin as ([m q] & -> & Hm). apply (lo_index _ C) in Hm. cbn in Hi. congruence. }
    rewrite delete_id by done. by destruct w.
Qed.

Lemma worker_step_safe e w :
  worker_ok w → safe (worker_step compile completed fatal_error e w) worker_ok.
Proof.
  intros W. destruct e; cbn [worker_step].
  - by apply compile_request_safe.
  - by apply query_request_safe.
  - by apply document_update_safe.
  - by apply evict_safe.
  - by apply tree_ready_safe.
  - by apply locked_safe.
  - by apply work_done_safe.
Qed.

Lemma worker_run_safe events w :
  worker_ok w → ∃ w', worker_run compile completed fatal_error events w = Ok w' ∧ worker_ok w'.
Proof.
  revert w. induction events as [|e events IH]; intros w W; [by exists w|]. cbn [worker_run].
  pose proof (worker_step_safe e w W) as Hs.
  destruct (worker_step _ _ _ _ _); cbn in Hs; [|by apply IH|done|done]. by apply IH.
Qed.

Abbreviation wstep := (worker_step compile completed fatal_error).
Abbreviation wrun := (worker_run compile completed fatal_error).

Lemma reachable_ok events w : wrun events initial_worker = Ok w → worker_ok w.
Proof.
  intros Hr. destruct (worker_run_safe events _ initial_worker_ok) as (w' & Hw' & Hok). congruence.
Qed.

(** ** Recency *)

(** The document an event uses: a compilation that is requested, and a query for a
    document the worker has. *)
Definition used (e : WorkerEvent (U := U) (R := R)) w : list bytes :=
  match e with
  | OnCompile _ ps => [cp_path ps]
  | OnQuery _ path _ => if documents w !! path then [path] else []
  | _ => []
  end.

(** The uses of a run, the last one first. *)
Fixpoint uses_from (events : list WorkerEvent) w (log : list bytes) : list bytes :=
  match events with
  | [] => log
  | e :: events =>
    match wstep e w with
    | Ok w' => uses_from events w' (used e w ++ log)
    | _ => uses_from events w log
    end
  end.

Definition uses (events : list WorkerEvent) : list bytes := uses_from events initial_worker [].

(** The documents of a log in the order of their last use. *)
Fixpoint by_last_use (log : list bytes) : list bytes :=
  match log with
  | [] => []
  | path :: log => path :: filter (.≠ path) (by_last_use log)
  end.

(** The documents the worker has, the most recently used first. *)
Definition held_by_last_use w (log : list bytes) : list bytes :=
  filter (λ path, is_Some (documents w !! path)) (by_last_use log).

Definition recency w (log : list bytes) : Prop := (lru w).*2 = held_by_last_use w log.

Lemma filter_twice {A} (P Q : A → Prop) `{∀ x, Decision (P x), ∀ x, Decision (Q x)} (l : list A) :
  (∀ x, P x → Q x) → filter P (filter Q l) = filter P l.
Proof.
  intros HPQ. induction l as [|x l IH]; [done|]. rewrite !filter_cons.
  destruct (decide (Q x)); [rewrite filter_cons; by case_decide; rewrite IH|].
  rewrite IH. rewrite decide_False; auto.
Qed.

Lemma filter_swap {A} (P Q : A → Prop) `{∀ x, Decision (P x), ∀ x, Decision (Q x)} (l : list A) :
  filter P (filter Q l) = filter Q (filter P l).
Proof.
  induction l as [|x l IH]; [done|]. rewrite !filter_cons.
  destruct (decide (Q x)), (decide (P x)); rewrite ?filter_cons, ?decide_True, ?decide_False by done;
    by rewrite IH.
Qed.

(** A part of a list without duplicates is determined by its elements. *)
Lemma sublist_is_filter {A} (P : A → Prop) `{∀ x, Decision (P x)} (l k : list A) :
  l `sublist_of` k → NoDup k → (∀ x, x ∈ l ↔ x ∈ k ∧ P x) → l = filter P k.
Proof.
  induction 1 as [|x l k Hs IH|x l k Hs IH]; intros Hnd Hl; [done| |].
  - apply NoDup_cons in Hnd as [Hx Hnd]. rewrite filter_cons, decide_True by (apply (Hl x); left).
    f_equal. apply IH; [done|]. intros y. specialize (Hl y). rewrite !elem_of_cons in Hl. split.
    + intros Hy. assert (y ∈ k) by (eapply elem_of_submseteq; [exact Hy|by apply sublist_submseteq]).
      split; [done|]. apply Hl. by right.
    + intros [Hy HP]. destruct (proj2 Hl) as [->|?]; auto. done.
  - apply NoDup_cons in Hnd as [Hx Hnd]. rewrite filter_cons, decide_False.
    + apply IH; [done|]. intros y. rewrite Hl, elem_of_cons. split; [|tauto]. intros [[->|?] HP]; [|done].
      exfalso. apply Hx. eapply elem_of_submseteq; [|by apply sublist_submseteq]. apply Hl. split; [left|done].
    + intros HP. apply Hx. eapply elem_of_submseteq; [|by apply sublist_submseteq]. apply Hl. split; [left|done].
Qed.

Lemma filter_paths (P : bytes → Prop) `{∀ x, Decision (P x)} (l : list (nat * bytes)) :
  (filter (λ e, P e.2) l).*2 = filter P l.*2.
Proof.
  induction l as [|[n q] l IH]; [done|]. rewrite fmap_cons, !filter_cons. cbn [snd].
  case_decide; rewrite ?fmap_cons, IH; done.
Qed.

Lemma NoDup_by_last_use log : NoDup (by_last_use log).
Proof.
  induction log as [|path log IH]; cbn; constructor; [|by apply NoDup_filter].
  rewrite list_elem_of_filter. tauto.
Qed.

Lemma filter_agree {A} (P Q : A → Prop) `{∀ x, Decision (P x), ∀ x, Decision (Q x)} (l : list A) :
  (∀ x, x ∈ l → P x ↔ Q x) → filter P l = filter Q l.
Proof.
  induction l as [|x l IH]; intros Hl; [done|]. rewrite !filter_cons.
  assert (filter P l = filter Q l) as -> by (apply IH; intros y Hy; apply Hl; by right).
  destruct (Hl x) as [H1 H2]; [left|]. repeat case_decide; tauto.
Qed.

(** Using a document puts it in front. *)
Lemma touch_recency path w w' (w0 : worker) log :
  lru_core w → touch_lru path w = Ok w' → lru w = lru w0 → is_Some (documents w !! path) →
  (∀ q, q ≠ path → documents w !! q = documents w0 !! q) →
  recency w0 log → recency w' (path :: log).
Proof.
  intros C Ht Elru Hp Hother Hr. destruct (touch_ok path w C) as (l & w2 & Ht' & _ & El & Hl & Hsub & Ed & _).
  rewrite Ht in Ht'. injection Ht' as <-. unfold recency, held_by_last_use in *. rewrite El, Ed, fmap_cons. cbn [snd by_last_use].
  rewrite filter_cons, decide_True by done. f_equal.
  rewrite (sublist_is_filter (λ e, e.2 ≠ path) l (lru w)); [|done|eapply NoDup_fmap_1, C|done].
  transitivity (filter (.≠ path) (lru w).*2); [exact (filter_paths (λ q, q ≠ path) (lru w))|].
  rewrite Elru, Hr, filter_swap. apply filter_agree.
  intros q [Hq _]%list_elem_of_filter. by rewrite Hother.
Qed.

Lemma sublist_paths (l k : list (nat * bytes)) : l `sublist_of` k → l.*2 `sublist_of` k.*2.
Proof. induction 1; rewrite ?fmap_cons; by constructor. Qed.

(** Dropping documents leaves the others in order. *)
Lemma drop_recency w w' log :
  recency w log → (∀ q, is_Some (documents w' !! q) → is_Some (documents w !! q)) →
  (lru w').*2 = filter (λ q, is_Some (documents w' !! q)) (lru w).*2 → recency w' log.
Proof. intros Hr Hd Hl. unfold recency, held_by_last_use in *. rewrite Hl, Hr. by apply filter_twice. Qed.

Lemma evict_recency path w w' log :
  worker_ok w → evict path w = Ok w' → recency w log → recency w' log.
Proof.
  intros W He Hr. apply (drop_recency w); [done| |].
  - assert (documents w' = delete path (documents w)) as ->.
    { unfold evict in He. destruct (lru_index w !! path); [|by injection He as <-].
      unfold erase_node in He. case_decide; [|done]. by injection He as <-. }
    intros q Hq. rewrite lookup_delete_is_Some in Hq. tauto.
  - pose proof (evict_safe path w W) as W'. rewrite He in W'. cbn in W'.
    assert ((lru w') `sublist_of` (lru w)) as Hsub.
    { unfold evict in He. destruct (lru_index w !! path); [|by injection He as <-].
      unfold erase_node in He. case_decide; [|done]. injection He as <-. cbn. apply sublist_filter. }
    apply sublist_is_filter; [by apply sublist_paths|apply W|]. intros q. rewrite <- (wo_docs _ W' q).
    split; [|tauto]. intros Hq. split; [|done]. apply (wo_docs _ W' q) in Hq.
    eapply elem_of_submseteq; [exact Hq|by apply sublist_submseteq, sublist_paths].
Qed.

Lemma shrink_recency w log : worker_ok w → recency w log → recency (shrink_if_over_limit w) log.
Proof.
  intros W Hr. destruct (shrink_keeps_front w (wo_core _ W) (wo_docs _ W)) as (C' & D' & El & _ & Hd & _).
  apply (drop_recency w); [done| |].
  - intros q [o Ho]. exists o. by apply Hd.
  - apply sublist_is_filter; [rewrite El; apply sublist_paths, sublist_take|apply W|].
    intros q. rewrite <- (D' q). split; [|tauto]. intros Hq. split; [|done].
    destruct Hq as [o Ho]. apply (wo_docs _ W q). exists o. by apply Hd.
Qed.

(** Nothing but entries and handlers changed. *)
Lemma same_recency w w' log :
  documents w' = documents w → lru w' = lru w → recency w log → recency w' log.
Proof. intros Hd Hl. unfold recency, held_by_last_use. by rewrite Hd, Hl. Qed.

Lemma compile_request_recency h ps w w' log :
  worker_ok w → compile_request h ps w = Ok w' → recency w log → recency w' (cp_path ps :: log).
Proof.
  intros W Hs Hr. unfold compile_request in Hs. destruct (fresh_handler h w); [|done..]. cbn in Hs.
  destruct (get_or_create (cp_path ps) w) as [w1 o] eqn:Hg.
  destruct (touch_lru (cp_path ps) w1) as [w2| | |] eqn:Ht; [|done..]. injection Hs as <-.
  apply (same_recency w2); [done|done|]. apply (touch_recency _ w1 w2 w); [|done|..|done].
  all: unfold get_or_create in Hg; destruct (documents w !! cp_path ps) eqn:Hp; injection Hg as <- <-.
  - apply W.
  - by destruct (wo_core _ W).
  - done.
  - done.
  - by rewrite Hp.
  - cbn. by rewrite lookup_insert_eq.
  - done.
  - intros q Hq. cbn. by rewrite lookup_insert_ne.
Qed.

Lemma step_recency e w w' log :
  worker_ok w → wstep e w = Ok w' → recency w log → recency w' (used e w ++ log).
Proof.
  intros W Hs Hr. destruct e as [h ps|h path fn|path|path|h|h|h]; cbn [worker_step used app] in *.
  - by eapply compile_request_recency.
  - unfold query_request in Hs. destruct (fresh_handler h w); [|done..]. cbn in Hs.
    destruct (documents w !! path) eqn:Hp; [|injection Hs as <-; by apply (same_recency w)].
    destruct (touch_lru path w) as [w2| | |] eqn:Ht; [|done..]. injection Hs as <-.
    apply (same_recency w2); [done|done|]. apply (touch_recency _ w w2 w); [apply W|done|done|by rewrite Hp|done|done].
  - unfold document_update in Hs. destruct (documents w !! path) as [o|]; [|by injection Hs as <-].
    destruct (entries w !! o); [|done]. injection Hs as <-. by apply (same_recency w).
  - by eapply evict_recency.
  - unfold tree_ready in Hs. destruct (handlers w !! h) as [[]|]; try done. cbn in Hs.
    destruct (entries w !! doc); [|done]. cbn in Hs. unfold guard_b in Hs. destruct (ast_ready _); [|done].
    injection Hs as <-. by apply (same_recency w).
  - unfold locked in Hs. destruct (handlers w !! h) as [[]|]; try done; cbn in Hs;
      (destruct (entries w !! doc); [|done]); cbn in Hs; unfold guard_b in Hs;
      (destruct (negb _); [|done]); injection Hs as <-; by apply (same_recency w).
  - pose proof (work_done_safe h w W) as Hw. unfold work_done in Hs, Hw.
    destruct (handlers w !! h) as [[]|] eqn:Hh; try done; cbn in Hs, Hw.
    + unfold compile_done in Hs. destruct (so_doc _ _ (wo_strands _ W) h _ doc Hh eq_refl) as [d Hd].
      rewrite Hd in Hs. cbn [read Res_bind] in Hs. injection Hs as <-. apply shrink_recency; [|by apply (same_recency w)].
      eapply worker_ok_strands; try done; cbn; [intros o'; by eapply insert_is_Some|].
      eapply strands_unlock; [apply W|done..].
    + unfold query_done in Hs. destruct (entries w !! doc); [|done]. injection Hs as <-.
      by apply (same_recency w).
Qed.

Lemma run_recency events w w' log :
  worker_ok w → wrun events w = Ok w' → recency w log → recency w' (uses_from events w log).
Proof.
  revert w log. induction events as [|e events IH]; intros w log W Hr Hlog; cbn [worker_run uses_from] in *.
  { by injection Hr as <-. }
  pose proof (worker_step_safe e w W) as Hs. destruct (wstep e w) as [w1| | |] eqn:Hst; [|by apply (IH w)|done|done].
  apply (IH w1); [done|done|]. by eapply step_recency.
Qed.

(** C18. Call a document used when its compilation is requested or when it is queried while
    the worker has it.  When a compilation ends, in any interleaving of requests, queries,
    updates, evictions and completions, the worker's list has its documents in the order of
    their last use; it then holds exactly the sixteen used most recently (all, if there are
    no more), and has reported the others as evicted, the least recently used first. *)
Theorem worker_keeps_recent_documents (events : list WorkerEvent) (w w' : worker) (h o : nat)
    (ps : CompileParams) :
  wrun events initial_worker = Ok w → handlers w !! h = Some (CompileRuns o ps) →
  wstep (WorkDone h) w = Ok w' →
  let l := held_by_last_use w (uses events) in
  (∀ path, is_Some (documents w !! path) ↔ path ∈ l) ∧
  (∀ path, is_Some (documents w' !! path) ↔ path ∈ take 16 l) ∧
  (lru w').*2 = take 16 l ∧ evicted w' = evicted w ++ rev (drop 16 l).
Proof.
  intros Hr Hh Hs l.
  assert ((lru w).*2 = l) as El0.
  { apply (run_recency events initial_worker); [apply initial_worker_ok|done|done]. }
  apply reachable_ok in Hr. split; [intros path; rewrite <- El0; apply Hr|]. rewrite <- El0.
  cbn [worker_step] in Hs. unfold work_done in Hs.
  rewrite Hh in Hs. cbn [need Res_bind] in Hs. unfold compile_done in Hs.
  destruct (entries w !! o) as [d|]; [|done]. cbn [read Res_bind] in Hs. injection Hs as <-.
  match goal with |- context [shrink_if_over_limit ?x] => set (w1 := x) end.
  destruct (shrink_keeps_front w1) as (_ & D' & El & Ee & _).
  - by destruct Hr as [[] ? ? ? ?].
  - by destruct Hr.
  - rewrite El, Ee. cbn [w1 lru evicted set_handler set_entry]. rewrite fmap_take, fmap_drop.
    split_and!; [|done|done]. intros path. rewrite (D' path), El. cbn [w1 lru set_handler set_entry].
    by rewrite fmap_take.
Qed.

(** C17. The work of a query runs alone on its document, and answers from the tree of
    the parameters the document was last compiled with: a compilation that holds the
    document keeps queries out until its tree is in place. *)
Theorem answers_come_from_the_last_compilation (events : list WorkerEvent) (w : worker) (h o : nat)
    (fn : U → R) :
  wrun events initial_worker = Ok w → handlers w !! h = Some (QueryRuns o fn) →
  ∃ d w', entries w !! o = Some d ∧ wstep (WorkDone h) w = Ok w' ∧
    handlers w' !! h = Some (Replied
      (if has_ast d then
         let u := compile (params d) in
         if completed u || fatal_error u then Some (fn u) else None
       else None)) ∧
    ∀ h' x, handlers w !! h' = Some x → holds x = Some o → h' = h.
Proof.
  intros Hr Hh. apply reachable_ok in Hr. pose proof (wo_strands _ Hr) as S.
  destruct (so_doc _ _ S _ _ _ Hh eq_refl) as [d Hd]. exists d. eexists. split; [done|].
  cbn [worker_step]. unfold work_done. rewrite Hh. cbn [need Res_bind]. unfold query_done. rewrite Hd.
  cbn [read Res_bind]. split; [reflexivity|]. split.
  - cbn. rewrite lookup_insert_eq. do 2 f_equal. unfold query_result. destruct (has_ast d) eqn:Ha; [|done].
    rewrite (so_unit _ _ S o d Hd Ha); [done|]. intros h' x Hx Hc.
    assert (h' = h) as -> by (eapply (so_alone _ _ S); [exact Hx | exact Hh | by apply compiles_holds | done]).
    by simplify_eq.
  - intros h' x Hx Hho. by eapply (so_alone _ _ S).
Qed.

(** A handler that waits for a strand gets it, or the one that has it can go on. *)
Lemma strand_makes_progress events w h x o :
  wrun events initial_worker = Ok w → handlers w !! h = Some x →
  match x with CompileWaits o' _ | QueryWaits o' _ => o' = o | _ => False end →
  ∃ h' w', wstep (Locked h') w = Ok w' ∨ wstep (WorkDone h') w = Ok w'.
Proof.
  intros Hr Hh Hx. apply reachable_ok in Hr. pose proof (wo_strands _ Hr) as S.
  assert (doc_of x = Some o) as Hdoc by (destruct x; naive_solver).
  destruct (so_doc _ _ S _ _ _ Hh Hdoc) as [d Hd]. destruct (strand d) eqn:Hs.
  - destruct (so_held _ _ S _ _ Hd Hs) as (h' & y & Hy & Hho). exists h'.
    cbn [worker_step]. unfold work_done. rewrite Hy. cbn [need Res_bind].
    destruct y; cbn in Hho; simplify_eq; unfold compile_done, query_done; rewrite Hd; eexists; right;
      reflexivity.
  - exists h. cbn [worker_step]. unfold locked. rewrite Hh. cbn [need Res_bind].
    destruct x; try done; subst; rewrite Hd; cbn [read Res_bind]; rewrite Hs; eexists; left;
      reflexivity.
Qed.
End theorems.

(** ** Executions *)

Definition text_params (path : string) (text : string) : CompileParams :=
  mkCompileParams (str path) 1 (str text) [] [] ([], 0) ∅.

(** Trees are texts; every compilation completes. *)
Definition demo_run (events : list (WorkerEvent (U := bytes) (R := bytes))) : Res () (Worker (U := bytes) (R := bytes)) :=
  worker_run cp_text (λ _, true) (λ _, false) events initial_worker.

Definition worker_of (r : Res () (Worker (U := bytes) (R := bytes))) : Worker (U := bytes) (R := bytes) :=
  match r with Ok w => w | _ => initial_worker end.

Definition compile_events : list (WorkerEvent (U := bytes) (R := bytes)) :=
  [OnCompile 0 (text_params "/a" "x"); Locked 0].

(** Sixteen documents are compiled, the first is queried, and a seventeenth is being
    compiled: the second will have to go. *)
Definition seventeen_events : list (WorkerEvent (U := bytes) (R := bytes)) :=
  let names := ["/a"; "/b"; "/c"; "/d"; "/e"; "/f"; "/g"; "/h"; "/i"; "/j"; "/k"; "/l"; "/m"; "/n";
                "/o"; "/p"]%string in
  concat (imap (λ i n, [OnCompile i (text_params n "x"); Locked i; WorkDone i]) names) ++
  [OnQuery 98 (str "/a") id; OnCompile 99 (text_params "/q" "x"); Locked 99].

Lemma worker_keeps_recent_documents_witness :
  let w := worker_of (demo_run seventeen_events) in
  let w' := worker_of (worker_step cp_text (λ _, true) (λ _, false) (WorkDone 99) w) in
  evicted w' = [str "/b"] ∧ take 2 (lru w').*2 = [str "/q"; str "/a"].
Proof.
  destruct (worker_keeps_recent_documents cp_text (λ _, true) (λ _, false) seventeen_events
    (worker_of (demo_run seventeen_events))
    (worker_of (worker_step cp_text (λ _, true) (λ _, false) (WorkDone 99)
       (worker_of (demo_run seventeen_events)))) 99 16 (text_params "/q" "x")) as (_ & _ & Hl & He).
  - vm_compute. reflexivity.
  - vm_compute. reflexivity.
  - vm_compute. reflexivity.
  - cbv zeta. rewrite Hl, He. split; vm_compute; reflexivity.
Defined.

Definition query_events : list (WorkerEvent (U := bytes) (R := bytes)) :=
  compile_events ++ [WorkDone 0; OnQuery 1 (str "/a") id; TreeReady 1; Locked 1].

Lemma answers_come_from_the_last_compilation_witness :
  let w := worker_of (demo_run query_events) in
  ∃ d w', StatefulWorker.entries w !! 0%nat = Some d ∧
    worker_step cp_text (λ _, true) (λ _, false) (WorkDone 1) w = Ok w' ∧
    handlers w' !! 1%nat = Some (Replied
      (if has_ast d then
         let u := cp_text (params d) in
         if (true || false) then Some (id u) else None
       else None)) ∧
    ∀ h' x, handlers w !! h' = Some x → holds x = Some 0%nat → h' = 1%nat.
Proof.
  apply (answers_come_from_the_last_compilation cp_text (λ _, true) (λ _, false) query_events _ 1 0 id).
  - vm_compute. reflexivity.
  - vm_compute. reflexivity.
Defined.

(** With a seventeenth document the first is gone, and a query for it finds no tree. *)
Lemma evicted_document_has_no_tree :
  let names := ["/a"; "/b"; "/c"; "/d"; "/e"; "/f"; "/g"; "/h"; "/i"; "/j"; "/k"; "/l"; "/m"; "/n";
                "/o"; "/p"; "/q"]%string in
  let compiled := concat (imap (λ i n, [OnCompile i (text_params n "x"); Locked i; WorkDone i]) names) in
  let w := worker_of (demo_run (compiled ++ [OnQuery 99 (str "/a") id])) in
  evicted w = [str "/a"] ∧ handlers w !! 99%nat = Some (Replied None).
Proof. vm_compute. done. Qed.
