(* ===== verification/CommandDatabase.v ===== *)
(** * Compile commands
      (src/command/{command.h,command.cpp,argument_parser.cpp}, src/support/object_pool.h)

    The compilation database classifies the options of every command once, shares
    what files have in common, and builds the command line of a file from it.  The
    option parser of the [kota] library with clang's option table, the path functions
    of LLVM and clang's table of file types are classes.  A [const char*] is an
    [option]: [StringSet] keeps the empty string as a null pointer.  Pooled objects
    are named by their position in the pool. *)
From S2P Require Import Prelude Text PathPool IndexData.
Local Open Scope Z_scope.
Local Open Scope cpp_scope.

Abbreviation cstring := (option bytes).

(** ** What the libraries provide *)

(** Option identifiers are the names of the option table, without [OPT_]. *)
Class OptionTable := {
  ParsedArg : Type;
  arg_id : ParsedArg → string;
  arg_values : ParsedArg → list bytes;
  arg_index : ParsedArg → nat;
  (** the arguments in order, [inl i] for a parse error at argument [i] *)
  parse : bool → Z → list bytes → list (nat + ParsedArg);
  render : ParsedArg → list bytes;
  prefixed_name : string → bytes;
  matches_group : string → string → bool;
  TokenizeGNUCommandLine : bytes → list bytes;
  resource_dir : bytes;
}.

Class PathTable := {
  is_absolute : bytes → bool;
  path_join : bytes → bytes → bytes;
  path_name : bytes → bytes;
  (** an extension clang accepts *)
  accepted_extension : bytes → bool;
}.

Definition mem (id : string) (l : list string) : bool := bool_decide (id ∈ l).

(** ** Classification of options *)

Definition is_discarded_option (id : string) : bool :=
  mem id ["INPUT"; "UNKNOWN"; "_DASH_DASH"; "main_file_name"; "c"; "o"; "dxc_Fc"; "dxc_Fo"; "_SLASH_Fo";
          "_SLASH_Fd"; "emit_pch"; "include_pch"; "_SLASH_Yu"; "_SLASH_Fp"; "E"; "M"; "MM"; "MD"; "MMD";
          "MF"; "MT"; "MQ"; "MG"; "MP"; "show_inst"; "show_encoding"; "show_includes";
          "_SLASH_showFilenames"; "_SLASH_showFilenames_"; "_SLASH_showIncludes";
          "_SLASH_showIncludes_user"; "fmodule_file"; "fmodule_output"; "fprebuilt_module_path"]%string.

Definition is_user_content_option (id : string) : bool :=
  mem id ["I"; "isystem"; "iquote"; "idirafter"; "D"; "U"; "include"]%string.

Definition is_include_path_option (id : string) : bool :=
  mem id ["I"; "isystem"; "iquote"; "idirafter"]%string.

Definition is_xclang_option (id : string) : bool := mem id ["Xclang"]%string.

Definition codegen_options : list string :=
  ["fPIC"; "fno_PIC"; "fpic"; "fno_pic"; "fPIE"; "fno_PIE"; "fpie"; "fno_pie"; "fomit_frame_pointer";
   "fno_omit_frame_pointer"; "funwind_tables"; "fno_unwind_tables"; "fasynchronous_unwind_tables";
   "fno_asynchronous_unwind_tables"; "fstack_protector"; "fstack_protector_strong";
   "fstack_protector_all"; "fno_stack_protector"; "fdata_sections"; "fno_data_sections";
   "ffunction_sections"; "fno_function_sections"; "flto"; "flto_EQ"; "fno_lto";
   "fsemantic_interposition"; "fno_semantic_interposition"; "fvisibility_inlines_hidden";
   "fcolor_diagnostics"; "fno_color_diagnostics"; "ftrapping_math"; "fno_trapping_math"]%string.

Section commands.
Context `{OptionTable} `{PathTable}.

Definition is_codegen_option (id : string) : bool :=
  matches_group id "DebugInfo_Group" || mem id codegen_options.

Definition is_diagnostics_option (id : string) : bool :=
  mem id ["w"]%string || matches_group id "Diag_Group" || matches_group id "pedantic_Group".

Definition CLOption : Z := 2.

(** [equals_insensitive]. *)
Definition to_lower (c : ascii) : ascii :=
  let n := nat_of_ascii c in
  if decide (65 ≤ n ∧ n ≤ 90)%nat then ascii_of_nat (n + 32) else c.
Definition equals_insensitive (a b : bytes) : bool := bool_decide (to_lower <$> a = to_lower <$> b).

Definition is_cl (name : bytes) : bool :=
  equals_insensitive name (str "cl") || equals_insensitive name (str "clang-cl").

Definition default_visibility (driver : bytes) : Z :=
  let name := path_name driver in
  let name := if ends_with (str ".exe") name then take (length name - 4) name else name in
  let unversioned := reverse (drop_while (one_of (str "0123456789.-")) (reverse name)) in
  if is_cl name || is_cl unversioned then two32 - 1 else two32 - 1 - CLOption.

Definition is_c_family_file (extension : bytes → bytes) (filename : bytes) : bool :=
  match extension filename with
  | [] => false
  | _ :: ext => accepted_extension ext
  end.

(** ** Cache key input *)

Inductive ArgsProfile := Preprocessing | Frontend | Full.

Definition nul : ascii := ascii_of_nat 0.
Definition fragment (s : bytes) : bytes := s ++ [nul].

Definition keeps (profile : ArgsProfile) (id : string) : bool :=
  match profile with
  | Full => true
  | Frontend => negb (is_discarded_option id) && negb (is_codegen_option id)
  | Preprocessing =>
    negb (is_discarded_option id) && negb (is_codegen_option id) && negb (is_diagnostics_option id)
  end.

Definition canonical_fragments (profile : ArgsProfile) (args : list bytes) (r : nat + ParsedArg) :
    list bytes :=
  match r with
  | inl index => option_list (args !! index)
  | inr arg =>
    if mem (arg_id arg) ["UNKNOWN"]%string then option_list (args !! arg_index arg)
    else if keeps profile (arg_id arg) then render arg
    else []
  end.

Definition canonicalize (args : list bytes) (profile : ArgsProfile) : bytes :=
  match args with
  | [] => []
  | driver :: args =>
    concat (fragment <$> driver ::
      concat (canonical_fragments profile args <$> parse true (default_visibility driver) args))
  end.

(** ** Commands *)

(** [StringSet::save(s).data()]: the empty string has no storage. *)
Definition save_string (s : bytes) : cstring := match s with [] => None | _ => Some s end.

Record ResolvedFlags := mkResolvedFlags { directory : bytes; flags : list cstring; is_cc1 : bool }.
Record CompileCommand := mkCompileCommand { resolved : ResolvedFlags; source_file : cstring }.

Definition to_argv (c : CompileCommand) : list cstring :=
  let fs := flags (resolved c) in
  match source_file c with
  | None => fs
  | Some file =>
    (if is_cc1 (resolved c) then
       concat ((λ f, if decide (f = Some (str "-cc1"))
                     then [f; Some (str "-main-file-name"); Some (path_name file)]
                     else [f]) <$> fs)
     else fs) ++ [Some file]
  end.

(** A [std::string] made from a null pointer is undefined behaviour. *)
Definition to_strings (l : list cstring) : Res () (list bytes) :=
  for_each l (λ a acc, let? s := read a in Ok (acc ++ [s])) [].

Definition to_string_argv (c : CompileCommand) : Res () (list bytes) := to_strings (to_argv c).

(** ** The database *)

Record CompilationInfo := mkCompilationInfo {
  info_directory : cstring;
  canonical : nat;
  patch : list cstring;
}.

Global Instance CompilationInfo_eq_dec : EqDecision CompilationInfo.
Proof. solve_decision. Defined.

Record CompilationEntry := mkCompilationEntry { entry_file : Z; entry_info : nat }.

Record CompilationDatabase := mkDatabase {
  canonicals : list (list cstring);
  infos : list CompilationInfo;
  db_paths : PathPool;
  db_entries : list CompilationEntry;
}.

Definition empty_database : CompilationDatabase := mkDatabase [] [] empty_pool [].

(** [ObjectSet::get]: the equal object of the pool, or a new one. *)
Definition pool_get {A} `{EqDecision A} (x : A) (objects : list A) : list A * nat :=
  match list_find (x =.) objects with
  | Some (i, _) => (objects, i)
  | None => (objects ++ [x], length objects)
  end.

(** The loop of [save_compilation_info]: canonical arguments, patch, [remove_pch]. *)
Definition classify_arg (dir : bytes) (st : list bytes * list bytes * bool) (r : nat + ParsedArg) :
    list bytes * list bytes * bool :=
  let '(canonical_args, patch_args, remove_pch) := st in
  match r with
  | inl _ => st
  | inr arg =>
    let id := arg_id arg in
    if is_discarded_option id then st
    else if is_codegen_option id then st
    else
      let xclang := is_xclang_option id && bool_decide (length (arg_values arg) = 1%nat) in
      if xclang && remove_pch then (canonical_args, patch_args, false)
      else if xclang && bool_decide (head (arg_values arg) = Some (str "-include-pch")) then
        (canonical_args, patch_args, true)
      else if is_user_content_option id then
        match arg_values arg with
        | [value] =>
          if is_include_path_option id then
            let value' := if negb (bool_decide (value = [])) && negb (is_absolute value)
                          then path_join dir value else value in
            (canonical_args, patch_args ++ [prefixed_name id; value'], remove_pch)
          else (canonical_args, patch_args ++ render arg, remove_pch)
        | _ => (canonical_args, patch_args ++ render arg, remove_pch)
        end
      else (canonical_args ++ render arg, patch_args, remove_pch)
  end.

(** An empty list fails the assertion. *)
Definition save_compilation_info (dir : bytes) (arguments : list bytes) (db : CompilationDatabase) :
    Res () (CompilationDatabase * nat) :=
  match arguments with
  | [] => Fault
  | driver :: rest =>
    let '(canonical_args, patch_args, _) :=
      foldl (classify_arg dir) ([driver], [], false) (parse true (default_visibility driver) rest) in
    let '(cs, c) := pool_get (save_string <$> canonical_args) (canonicals db) in
    let '(ifs, i) := pool_get (mkCompilationInfo (save_string dir) c (save_string <$> patch_args))
                      (infos db) in
    Ok (mkDatabase cs ifs (db_paths db) (db_entries db), i)
  end.

(** An element of the JSON array; an argument that is no string is [None]. *)
Inductive JsonItem :=
| NotObject
| JsonObject (dir file : option bytes) (arguments : option (list (option bytes)))
    (command : option bytes).

Definition add_entry (file dir : bytes) (arguments : list bytes) (db : CompilationDatabase) :
    Res () CompilationDatabase :=
  let? r := save_compilation_info dir arguments db in
  let '(db, info) := r in
  let '(ps, id) := intern (db_paths db) file in
  Ok (mkDatabase (canonicals db) (infos db) ps (db_entries db ++ [mkCompilationEntry id info])).

(** The accepted command of an item: absolute file, directory and arguments. *)
Definition item_command (extension : bytes → bytes) (item : JsonItem) :
    option (bytes * bytes * list bytes) :=
  match item with
  | JsonObject (Some dir) (Some file) arguments command =>
    if negb (is_c_family_file extension file) then None
    else
      let file := if is_absolute file then file else path_join dir file in
      match arguments with
      | Some l =>
        match mapM id l with
        | Some (a :: args) => Some (file, dir, a :: args)
        | _ => None
        end
      | None =>
        match command with
        | None => None
        | Some cmd =>
          match TokenizeGNUCommandLine cmd with
          | [] => None
          | a :: args => Some (file, dir, a :: args)
          end
        end
      end
  | _ => None
  end.

Definition load_item (extension : bytes → bytes) (item : JsonItem) (db : CompilationDatabase) :
    Res () CompilationDatabase :=
  match item_command extension item with
  | None => Ok db
  | Some (file, dir, args) => add_entry file dir args db
  end.

Definition load (extension : bytes → bytes) (sort : list CompilationEntry → list CompilationEntry)
    (doc : option (list JsonItem)) (db : CompilationDatabase) : Res () CompilationDatabase :=
  let db := mkDatabase (canonicals db) (infos db) (db_paths db) [] in
  match doc with
  | None => Ok db
  | Some items =>
    let? db := for_each items (load_item extension) db in
    Ok (mkDatabase (canonicals db) (infos db) (db_paths db) (sort (db_entries db)))
  end.

(** [ranges::equal_range]. *)
Definition equal_range {A} (lt gt : A → bool) (l : list A) : list A :=
  let first := lower_bound lt l in
  let last := lower_bound (λ a, negb (gt a)) l in
  take (last - first) (drop first l).

Definition find_entries (id : Z) (db : CompilationDatabase) : list CompilationEntry :=
  equal_range (λ e, entry_file e <? id) (λ e, id <? entry_file e) (db_entries db).

Record CommandOptions := mkCommandOptions {
  inject_resource_dir : bool;
  opt_remove : list bytes;
  opt_append : list bytes;
}.

Definition parsed (rs : list (nat + ParsedArg)) : list ParsedArg :=
  omap (λ r, match r with inr a => Some a | inl _ => None end) rs.

(** Whether an argument is removed by one of the sorted [remove_args]. *)
Definition removed_by (remove_args : list ParsedArg) (arg : ParsedArg) : bool :=
  existsb (λ r, bool_decide (arg_values r = [str "*"]) || bool_decide (arg_values arg = arg_values r))
    remove_args.

(** [default_mask] is the visibility of the parser's default options. *)
Definition build_command (default_mask : Z) (id_order : string → Z)
    (sort_args : list ParsedArg → list ParsedArg)
    (id : Z) (info : nat) (options : CommandOptions) (db : CompilationDatabase) :
    Res () CompileCommand :=
  let? i := read (infos db !! info) in
  let? canon := read (canonicals db !! canonical i) in
  let fs := canon ++ patch i in
  let fs := if inject_resource_dir options && negb (bool_decide (resource_dir = []))
               && negb (bool_decide (Some (str "-resource-dir") ∈ fs))
            then fs ++ [Some (str "-resource-dir"); Some resource_dir] else fs in
  let? fs :=
    match opt_remove options with
    | [] => Ok fs
    | remove =>
      let remove_args := sort_args (parsed (parse false default_mask remove)) in
      let? driver := read (head fs) in
      let? rest := to_strings (tail fs) in
      let kept := filter (λ arg, negb (removed_by
        (equal_range (λ r, id_order (arg_id r) <? id_order (arg_id arg))
           (λ r, id_order (arg_id arg) <? id_order (arg_id r)) remove_args) arg))
        (parsed (parse false default_mask rest)) in
      Ok (driver :: (save_string <$> concat (render <$> kept)))
    end in
  let fs := fs ++ (save_string <$> opt_append options) in
  let? file := read (resolve (db_paths db) id) in
  Ok (mkCompileCommand (mkResolvedFlags (default [] (info_directory i)) fs false) (Some file)).

Section lookups.
Context (default_mask : Z) (id_order : string → Z) (sort_args : list ParsedArg → list ParsedArg).

(** The command for a file that has no entry. *)
Definition default_command (file : bytes) (options : CommandOptions) : CompileCommand :=
  let fs := if ends_with (str ".cpp") file || ends_with (str ".hpp") file || ends_with (str ".cc") file
            then [Some (str "clang++"); Some (str "-std=c++20")] else [Some (str "clang")] in
  let fs := if inject_resource_dir options && negb (bool_decide (resource_dir = []))
            then fs ++ [Some (str "-resource-dir"); Some resource_dir] else fs in
  mkCompileCommand (mkResolvedFlags [] fs false) (Some (normalize file)).

Definition lookup_commands (file : bytes) (options : CommandOptions) (db : CompilationDatabase) :
    Res () (CompilationDatabase * list CompileCommand) :=
  let '(ps, id) := intern (db_paths db) file in
  let db := mkDatabase (canonicals db) (infos db) ps (db_entries db) in
  match find_entries id db with
  | [] => Ok (db, [default_command file options])
  | matched =>
    let? cs := for_each matched (λ e acc,
      let? c := build_command default_mask id_order sort_args id (entry_info e) options db in
      Ok (acc ++ [c])) [] in
    Ok (db, cs)
  end.

Definition has_entry (file : bytes) (db : CompilationDatabase) : CompilationDatabase * bool :=
  let '(ps, id) := intern (db_paths db) file in
  let db := mkDatabase (canonicals db) (infos db) ps (db_entries db) in
  (db, negb (bool_decide (find_entries id db = []))).

(** ** Groups of files with one configuration *)

Record ConfigGroup := mkConfigGroup {
  file_ids : list Z;
  command : CompileCommand;
  group_info : nat;
}.

Definition push_file (id : Z) (g : ConfigGroup) : ConfigGroup :=
  if bool_decide (last (file_ids g) = Some id) then g
  else mkConfigGroup (file_ids g ++ [id]) (command g) (group_info g).

(** One entry: [group_indices] and the groups. *)
Definition group_entry (options : CommandOptions) (db : CompilationDatabase) (e : CompilationEntry)
    (st : gmap nat nat * list ConfigGroup) : Res () (gmap nat nat * list ConfigGroup) :=
  let '(indices, groups) := st in
  match indices !! entry_info e with
  | Some k =>
    let? g := read (groups !! k) in
    Ok (indices, <[k := push_file (entry_file e) g]> groups)
  | None =>
    let? c := build_command default_mask id_order sort_args (entry_file e) (entry_info e) options db in
    Ok (<[entry_info e := length groups]> indices,
        groups ++ [push_file (entry_file e) (mkConfigGroup [] c (entry_info e))])
  end.

Definition unique_configs (options : CommandOptions) (db : CompilationDatabase) :
    Res () (list ConfigGroup) :=
  let? r := for_each (db_entries db) (group_entry options db) (∅, []) in
  Ok r.2.

Definition group_command (g : ConfigGroup) (options : CommandOptions) (db : CompilationDatabase) :
    Res () CompileCommand :=
  let? front := read (head (file_ids g)) in
  build_command default_mask id_order sort_args front (group_info g) options db.
End lookups.
End commands.
