(* ===== verification/CommandTheorems.v ===== *)
(** * What the compilation database guarantees *)
From S2P Require Import Prelude Text PathPool IndexData CommandDatabase.
From stdpp Require Import sorting.
Local Open Scope Z_scope.
Local Open Scope cpp_scope.

(** ** Binary search in a sorted vector is a filter *)

Section equal_range.
Context {A : Type} (key : A → Z).

Definition sorted_by_key (l : list A) : Prop :=
  ∀ i j x y, (i ≤ j)%nat → l !! i = Some x → l !! j = Some y → key x ≤ key y.

Lemma equal_range_filter id l :
  sorted_by_key l →
  equal_range (λ a, key a <? id) (λ a, id <? key a) l = filter (λ a, key a = id) l.
Proof.
  intros Hs. unfold equal_range.
  destruct (lower_bound_spec (λ a, key a <? id) l) as (H1 & Lo1 & Hi1).
  { intros i j x y Hij Hx Hy. pose proof (Hs i j x y Hij Hx Hy). rewrite !Is_true_true, !Z.ltb_lt. lia. }
  destruct (lower_bound_spec (λ a, negb (id <? key a)) l) as (H2 & Lo2 & Hi2).
  { intros i j x y Hij Hx Hy. pose proof (Hs i j x y Hij Hx Hy).
    rewrite !Is_true_true, !negb_true_iff, !Z.ltb_ge. lia. }
  set (a := lower_bound _ l) in *. set (b := lower_bound (λ a, negb _) l) in *.
  assert (a ≤ b)%nat as Hab.
  { destruct (decide (a ≤ b)%nat); [done|]. exfalso.
    destruct (lookup_lt_is_Some_2 l b ltac:(lia)) as [x Hx].
    assert (x ∈ take a l) as Hin1 by (apply list_elem_of_lookup; exists b; rewrite lookup_take_lt; [done|lia]).
    assert (x ∈ drop b l) as Hin2 by (apply list_elem_of_lookup; exists 0%nat; rewrite lookup_drop, Nat.add_0_r; done).
    apply Lo1 in Hin1. apply Hi2 in Hin2. rewrite Is_true_true, Z.ltb_lt in Hin1.
    rewrite Is_true_true, negb_true_iff, Z.ltb_ge in Hin2. lia. }
  rewrite <- (take_drop a l) at 2. rewrite <- (take_drop (b - a) (drop a l)) at 2.
  rewrite !filter_app, drop_drop. replace (a + (b - a))%nat with b by lia.
  rewrite (filter_none _ (take a l)), (filter_none _ (drop b l)), app_nil_r.
  - cbn [app]. symmetry. apply filter_all. intros x Hx.
    assert (x ∈ take b l).
    { apply list_elem_of_lookup in Hx as [i Hi]. apply lookup_take_Some in Hi as [Hi Hlt].
      rewrite lookup_drop in Hi. apply list_elem_of_lookup. exists (a + i)%nat.
      rewrite lookup_take_lt; [done|lia]. }
    assert (x ∈ drop a l) as Hd by (eapply (subseteq_take (b - a)); done).
    apply Hi1 in Hd. rewrite Is_true_true, Z.ltb_lt in Hd.
    match goal with E : x ∈ take b l |- _ => apply Lo2 in E; rewrite Is_true_true, negb_true_iff, Z.ltb_ge in E end. lia.
  - intros x Hx%Hi2. rewrite Is_true_true, negb_true_iff, Z.ltb_ge in Hx. lia.
  - intros x Hx%Lo1. rewrite Is_true_true, Z.ltb_lt in Hx. lia.
Qed.
End equal_range.

Section database.
Context `{OptionTable} `{PathTable}.
Implicit Types (db : CompilationDatabase).

(** ** Pools *)

Lemma pool_get_spec {A} `{EqDecision A} (x : A) l :
  l `prefix_of` (pool_get x l).1 ∧ (pool_get x l).1 !! (pool_get x l).2 = Some x.
Proof.
  unfold pool_get. destruct (list_find (x =.) l) as [[i y]|] eqn:E; cbn.
  - apply list_find_Some in E as (? & <- & _). done.
  - split; [by eexists|]. by rewrite lookup_app_r, Nat.sub_diag.
Qed.

(** Equal objects are pooled once. *)
Lemma pool_get_NoDup {A} `{EqDecision A} (x : A) l : NoDup l → NoDup (pool_get x l).1.
Proof.
  unfold pool_get. intros Hl. destruct (list_find (x =.) l) as [[i y]|] eqn:E; cbn; [done|].
  apply NoDup_app. split_and!; [done| |apply NoDup_singleton].
  intros y Hy ->%list_elem_of_singleton. apply list_find_None in E.
  rewrite Forall_forall in E. by apply (E x).
Qed.

(** ** The arguments of a command, without pools *)

Definition classified (dir : bytes) (arguments : list bytes) : list bytes * list bytes :=
  match arguments with
  | [] => ([], [])
  | driver :: rest =>
    (foldl (classify_arg dir) ([driver], [], false) (parse true (default_visibility driver) rest)).1
  end.

(** What an entry stands for. *)
Definition describes db (e : CompilationEntry) (c : bytes * bytes * list bytes) : Prop :=
  let '(file, dir, args) := c in
  resolve (db_paths db) (entry_file e) = Some (normalize file) ∧
  ∃ i, infos db !! entry_info e = Some i ∧ info_directory i = save_string dir ∧
    patch i = save_string <$> (classified dir args).2 ∧
    canonicals db !! canonical i = Some (save_string <$> (classified dir args).1).

(** A database whose pools have grown. *)
Definition grows db db' : Prop :=
  canonicals db `prefix_of` canonicals db' ∧ infos db `prefix_of` infos db' ∧
  paths (db_paths db) `prefix_of` paths (db_paths db').

Lemma grows_refl db : grows db db.
Proof. done. Qed.

Lemma describes_grows db db' e c : grows db db' → describes db e c → describes db' e c.
Proof.
  intros (Hc & Hi & Hp). destruct c as [[file dir] args]. intros (Hr & i & Hii & ? & ? & Hcc).
  split; [by eapply resolve_stable|]. exists i. split_and!; [by eapply prefix_lookup_Some|done|done|].
  by eapply prefix_lookup_Some.
Qed.

Lemma save_info_ok dir args db :
  args ≠ [] →
  ∃ db' i info, save_compilation_info dir args db = Ok (db', i) ∧
    canonicals db `prefix_of` canonicals db' ∧ infos db `prefix_of` infos db' ∧
    db_paths db' = db_paths db ∧ db_entries db' = db_entries db ∧
    (NoDup (infos db) → NoDup (infos db')) ∧
    infos db' !! i = Some info ∧ info_directory info = save_string dir ∧
    patch info = save_string <$> (classified dir args).2 ∧
    canonicals db' !! canonical info = Some (save_string <$> (classified dir args).1).
Proof.
  destruct args as [|driver rest]; [done|]. intros _. cbn [save_compilation_info classified].
  destruct (foldl _ _ _) as [[cargs pargs] b]. cbn [fst snd].
  destruct (pool_get_spec (save_string <$> cargs) (canonicals db)) as [Hc1 Hc2].
  destruct (pool_get (save_string <$> cargs) (canonicals db)) as [cs c]. cbn in Hc1, Hc2.
  set (info := mkCompilationInfo (save_string dir) c (save_string <$> pargs)).
  destruct (pool_get_spec info (infos db)) as [Hi1 Hi2].
  pose proof (pool_get_NoDup info (infos db)) as Hnd.
  destruct (pool_get info (infos db)) as [ifs i]. cbn in Hi1, Hi2, Hnd.
  eexists _, i, info. split_and!; try done; reflexivity.
Qed.

Lemma add_entry_ok file dir args db :
  args ≠ [] → pool_ok (db_paths db) → Z.of_nat (length (paths (db_paths db))) < two32 →
  ∃ db' e, add_entry file dir args db = Ok db' ∧ grows db db' ∧ pool_ok (db_paths db') ∧
    (length (paths (db_paths db')) ≤ S (length (paths (db_paths db))))%nat ∧
    (NoDup (infos db) → NoDup (infos db')) ∧
    db_entries db' = db_entries db ++ [e] ∧ describes db' e (file, dir, args).
Proof.
  intros Ha Hok Hlen. unfold add_entry.
  destruct (save_info_ok dir args db Ha)
    as (db1 & i & info & -> & Hc & Hi & Ep & Ee & Hnd & Hinfo & Hd & Hpa & Hca).
  cbn [Res_bind]. rewrite Ep.
  pose proof (intern_ok (db_paths db) file Hok Hlen) as Hok1.
  pose proof (resolve_intern (db_paths db) file Hok Hlen) as Hr.
  pose proof (intern_length (db_paths db) file) as Hl.
  pose proof (intern_paths_prefix (db_paths db) file) as Hp.
  destruct (intern (db_paths db) file) as [ps id]. cbn in Hok1, Hr, Hl, Hp.
  eexists _, (mkCompilationEntry id i). split_and!; try done; [by rewrite Ee|].
  split; [done|]. exists info. done.
Qed.

(** ** Loading *)

Section load.
Context (extension : bytes → bytes) (sort : list CompilationEntry → list CompilationEntry).
Context (sort_perm : ∀ l, sort l ≡ₚ l) (sort_sorted : ∀ l, sorted_by_key entry_file (sort l)).

Definition accepted (items : list JsonItem) : list (bytes * bytes * list bytes) :=
  omap (item_command extension) items.

Lemma accepted_snoc pre item :
  accepted (pre ++ [item]) = accepted pre ++ option_list (item_command extension item).
Proof. unfold accepted. by rewrite omap_app. Qed.

Lemma item_command_nonempty item file dir args :
  item_command extension item = Some (file, dir, args) → args ≠ [].
Proof.
  unfold item_command. destruct item as [|[d|] [f|] a c]; try done.
  destruct (negb _); [done|]. destruct a as [l|].
  - destruct (mapM id l) as [[|]|]; naive_solver.
  - destruct c as [cmd|]; [|done]. destruct (TokenizeGNUCommandLine cmd); naive_solver.
Qed.

Lemma describes_all_grows db db' es cs :
  grows db db' → Forall2 (describes db) es cs → Forall2 (describes db') es cs.
Proof. intros Hg Hf. eapply Forall2_impl; [exact Hf|]. intros. by eapply describes_grows. Qed.

Record loaded db0 db (pre : list JsonItem) : Prop := {
  l_pool : pool_ok (db_paths db);
  l_len : (length (paths (db_paths db)) ≤ length (paths (db_paths db0)) + length pre)%nat;
  l_infos : NoDup (infos db);
  l_entries : Forall2 (describes db) (db_entries db) (accepted pre);
}.

Lemma load_items_ok items db0 :
  pool_ok (db_paths db0) → NoDup (infos db0) → db_entries db0 = [] →
  Z.of_nat (length (paths (db_paths db0)) + length items) ≤ two32 →
  ∃ db, for_each items (load_item extension) db0 = Ok db ∧ loaded db0 db items.
Proof.
  intros Hok Hnd He Hlen. apply (for_each_prefix (λ pre db, loaded db0 db pre)).
  - split; [done|lia|done|]. rewrite He. constructor.
  - intros pre item post db -> [Lp Ll Li Le]. rewrite !length_app in Hlen. cbn in Hlen.
    unfold load_item. pose proof (accepted_snoc pre item) as Ea.
    destruct (item_command extension item) as [[[file dir] args]|] eqn:Ei.
    + destruct (add_entry_ok file dir args db) as (db' & e & -> & Hg & Hp' & Hl' & Hnd' & Ee & Hd);
        [by eapply item_command_nonempty | done | lia |].
      exists db'. split; [done|]. split; [done | rewrite length_app; cbn; lia | auto |].
      rewrite Ee, Ea. apply Forall2_app; [by eapply describes_all_grows|].
      cbn [option_list]. constructor; [exact Hd|constructor].
    + exists db. split; [done|]. split; [done | rewrite length_app; cbn; lia | done |].
      by rewrite Ea, app_nil_r.
Qed.

Lemma load_ok items db0 :
  pool_ok (db_paths db0) → NoDup (infos db0) →
  Z.of_nat (length (paths (db_paths db0)) + length items) ≤ two32 →
  ∃ db es, load extension sort (Some items) db0 = Ok db ∧ pool_ok (db_paths db) ∧ NoDup (infos db) ∧
    (length (paths (db_paths db)) ≤ length (paths (db_paths db0)) + length items)%nat ∧
    db_entries db = sort es ∧ Forall2 (describes db) es (accepted items).
Proof.
  intros Hok Hnd Hlen. unfold load.
  destruct (load_items_ok items (mkDatabase (canonicals db0) (infos db0) (db_paths db0) []))
    as (db & -> & [Lp Ll Li Le]); [done..|].
  eexists _, (db_entries db). cbn [Res_bind]. split; [reflexivity|]. done.
Qed.

(** ** Looking commands up *)

Section lookup.
Context (default_mask : Z) (id_order : string → Z) (sort_args : list ParsedArg → list ParsedArg).
Abbreviation build_cmd := (build_command default_mask id_order sort_args).
Abbreviation lookup_cmds := (lookup_commands default_mask id_order sort_args).

(** The command of a file, written down directly. *)
Definition plain_command (options : CommandOptions) (c : bytes * bytes * list bytes) : CompileCommand :=
  let '(file, dir, args) := c in
  let fs := save_string <$> (classified dir args).1 ++ (classified dir args).2 in
  let fs := if inject_resource_dir options && negb (bool_decide (resource_dir = []))
               && negb (bool_decide (Some (str "-resource-dir") ∈ fs))
            then fs ++ [Some (str "-resource-dir"); Some resource_dir] else fs in
  mkCompileCommand (mkResolvedFlags dir (fs ++ (save_string <$> opt_append options)) false)
    (Some (normalize file)).

Lemma save_string_default dir : default [] (save_string dir) = dir.
Proof. by destruct dir. Qed.

Lemma build_command_described options db e c :
  opt_remove options = [] → describes db e c →
  build_cmd (entry_file e) (entry_info e) options db = Ok (plain_command options c).
Proof.
  intros Hr. destruct c as [[file dir] args]. intros (Hres & i & Hi & Hd & Hp & Hc).
  unfold build_command. rewrite Hi. cbn [read Res_bind]. rewrite Hc. cbn [read Res_bind].
  rewrite Hr. cbn [Res_bind]. rewrite Hres. cbn [read Res_bind].
  rewrite Hd, Hp, save_string_default. unfold plain_command. by rewrite fmap_app.
Qed.

Lemma for_each_map {A B} (f : A → Res () B) (g : A → B) l :
  (∀ x, x ∈ l → f x = Ok (g x)) →
  for_each l (λ x acc, let? y := f x in Ok (acc ++ [y])) [] = Ok (g <$> l).
Proof.
  intros Hf.
  destruct (for_each_prefix (λ pre acc, acc = g <$> pre) l (λ x acc, let? y := f x in Ok (acc ++ [y])) [])
    as (r & Hr & ->); [done| |done].
  intros pre x post acc -> ->. rewrite Hf by (apply elem_of_app; right; left).
  eexists. split; [reflexivity|]. by rewrite fmap_app.
Qed.

(** The entries of one file among those of all. *)
Lemma described_file db es cs id file :
  pool_ok (db_paths db) → Forall2 (describes db) es cs →
  resolve (db_paths db) id = Some (normalize file) →
  Forall2 (λ e c, describes db e c ∧ entry_file e = id) (filter (λ e, entry_file e = id) es)
    (filter (λ c : bytes * bytes * list bytes, normalize c.1.1 = normalize file) cs).
Proof.
  intros Hok Hf Hid. induction Hf as [|e [[f d] a] es cs Hd _ IH]; [constructor|].
  rewrite !filter_cons. destruct (decide (entry_file e = id)) as [E|E].
  - rewrite decide_True; [by constructor|]. cbn. destruct Hd as [Hr _]. rewrite E in Hr. congruence.
  - rewrite decide_False; [done|]. cbn. intros En. apply E. destruct Hd as [Hr _]. rewrite En in Hr.
    unfold resolve in Hr, Hid. case_decide; [|done]. case_decide; [|done].
    assert (cache (db_paths db) !! normalize file = Some (entry_file e)) by (by apply Hok).
    assert (cache (db_paths db) !! normalize file = Some id) by (by apply Hok). congruence.
Qed.

Lemma Forall2_fmap_eq {A B C} (R : A → B → Prop) (f : A → C) (g : B → C) l k :
  Forall2 R l k → (∀ x y, R x y → f x = g y) → f <$> l = g <$> k.
Proof. intros Hf Hg. induction Hf; [done|]. cbn. f_equal; auto. Qed.

(** Every lookup in a loaded database. *)
Lemma lookup_ok options db es cs file :
  opt_remove options = [] → pool_ok (db_paths db) →
  Z.of_nat (length (paths (db_paths db))) < two32 →
  db_entries db = sort es → Forall2 (describes db) es cs →
  let wanted := filter (λ c : bytes * bytes * list bytes, normalize c.1.1 = normalize file) cs in
  ∃ db' found, lookup_cmds file options db = Ok (db', found) ∧
    (wanted = [] ∧ found = [default_command file options] ∨
     wanted ≠ [] ∧ found ≡ₚ plain_command options <$> wanted).
Proof.
  intros Hrem Hok Hlen He Hf wanted. unfold lookup_commands.
  pose proof (intern_ok (db_paths db) file Hok Hlen) as Hok1.
  pose proof (resolve_intern (db_paths db) file Hok Hlen) as Hr.
  pose proof (intern_paths_prefix (db_paths db) file) as Hp.
  destruct (intern (db_paths db) file) as [ps id]. cbn in Hok1, Hr, Hp.
  set (db' := mkDatabase (canonicals db) (infos db) ps (db_entries db)).
  assert (Hf' : Forall2 (describes db') es cs) by (eapply describes_all_grows; [|done]; done).
  pose proof (described_file db' es cs id file Hok1 Hf' Hr) as Hfile. fold wanted in Hfile.
  assert (Hfind : find_entries id db' = filter (λ e, entry_file e = id) (sort es)).
  { unfold find_entries. cbn [db_entries db']. rewrite He. by apply equal_range_filter. }
  assert (Hperm : find_entries id db' ≡ₚ filter (λ e, entry_file e = id) es)
    by (rewrite Hfind; by apply filter_Permutation).
  assert (Hbuild : ∀ e, e ∈ find_entries id db' → ∃ c, describes db' e c ∧ entry_file e = id).
  { intros e Hin. rewrite Hperm in Hin. apply list_elem_of_lookup in Hin as [k Hk].
    destruct (Forall2_lookup_l _ _ _ _ _ Hfile Hk) as (c & Hc & Hd). by exists c. }
  destruct (find_entries id db') as [|e0 rest] eqn:Efind.
  - eexists _, _. split; [done|]. left. split; [|done].
    symmetry in Hperm. apply Permutation_nil_r in Hperm. rewrite Hperm in Hfile. by inversion Hfile.
  - rewrite (for_each_map _ (λ e, match build_cmd id (entry_info e) options db' with Ok c => c | _ => default_command file options end)).
    2: { intros e Hin. destruct (Hbuild e Hin) as (c & Hd & <-).
         by rewrite (build_command_described options db' e c Hrem Hd). }
    cbn [Res_bind]. eexists _, _. split; [done|]. right. split.
    + intros E. rewrite E in Hfile. inversion Hfile as [Hn|]; subst. rewrite <- Hn in Hperm.
      by apply Permutation_nil_r in Hperm.
    + rewrite Hperm. erewrite (Forall2_fmap_eq _ _ (plain_command options)); [done | exact Hfile |].
      intros e c [Hd <-]. by rewrite (build_command_described options db' e c Hrem Hd).
Qed.

(** Whatever the file, a command is returned: the tests for an empty result in the
    callers never succeed. *)
Lemma lookup_never_empty file options db db' found :
  lookup_cmds file options db = Ok (db', found) → found ≠ [].
Proof.
  unfold lookup_commands. destruct (intern (db_paths db) file) as [ps id].
  destruct (find_entries _ _) as [|e rest]; [naive_solver|]. intros Hl Hn. subst found.
  match type of Hl with Res_bind ?m _ = _ => destruct m as [cs| | |] eqn:E end; try done.
  cbn in Hl. injection Hl as _ ->. cbn in E. destruct (build_cmd _ _ _ _) as [c| | |]; try done. cbn in E.
  enough (∀ l acc r, for_each l (λ (e : CompilationEntry) acc,
    let? c := build_cmd id (entry_info e) options
      (mkDatabase (canonicals db) (infos db) ps (db_entries db)) in Ok (acc ++ [c])) acc = Ok r →
    (length acc ≤ length r)%nat) as Hgen by (apply Hgen in E; cbn in E; lia).
  clear. induction l as [|x l IH]; intros acc r Hr; cbn in Hr; [naive_solver|].
  destruct (build_cmd _ _ _ _); try done. cbn in Hr. apply IH in Hr. rewrite length_app in Hr. lia.
Qed.
End lookup.
End load.
End database.

(** ** An example table *)

Abbreviation example_arg := (string * list bytes * nat)%type.

Fixpoint example_parse (i : nat) (args : list bytes) : list (nat + example_arg) :=
  match args with
  | [] => []
  | a :: rest =>
    if decide (a = str "-I") then
      match rest with
      | [] => [inl i]
      | v :: rest => inr ("I"%string, [v], i) :: example_parse (i + 2) rest
      end
    else if decide (a = str "-c") then inr ("c"%string, [], i) :: example_parse (i + 1) rest
    else if decide (a = str "-Wall") then inr ("Wall"%string, [], i) :: example_parse (i + 1) rest
    else if decide (take 2 a = str "-D") then
      inr ("D"%string, [drop 2 a], i) :: example_parse (i + 1) rest
    else inr ("INPUT"%string, [a], i) :: example_parse (i + 1) rest
  end.

Definition example_render (a : example_arg) : list bytes :=
  let '(id, values, _) := a in
  if decide (id = "D"%string) then [str "-D" ++ concat values] else str ("-" ++ id) :: values.

Definition split_spaces (s : bytes) : list bytes :=
  foldr (λ c acc, if decide (c = " "%char) then [] :: acc
                  else match acc with [] => [[c]] | w :: acc => (c :: w) :: acc end) [[]] s.

Definition example_table : OptionTable := {|
  ParsedArg := example_arg;
  arg_id a := a.1.1;
  arg_values a := a.1.2;
  arg_index a := a.2;
  parse _ _ args := example_parse 0 args;
  render := example_render;
  prefixed_name id := str ("-" ++ id);
  matches_group id g := false;
  TokenizeGNUCommandLine := split_spaces;
  resource_dir := str "/lib/clang";
|}.

Definition example_paths : PathTable := {|
  is_absolute p := bool_decide (head p = Some "/"%char);
  path_join a b := a ++ "/"%char :: b;
  path_name p := p;
  accepted_extension e := bool_decide (e = str "cpp");
|}.

Definition example_extension (p : bytes) : bytes := drop (length p - 4) p.

Definition by_file (a b : CompilationEntry) : Prop := entry_file a ≤ entry_file b.
Global Instance by_file_dec : RelDecision by_file.
Proof. intros a b. unfold by_file. apply _. Defined.
Global Instance by_file_trans : Transitive by_file.
Proof. unfold by_file. intros a b c ??. lia. Qed.
Global Instance by_file_total : Total by_file.
Proof. unfold by_file. intros a b. lia. Qed.

Definition sort_entries (l : list CompilationEntry) : list CompilationEntry := merge_sort by_file l.

Lemma strongly_sorted_by_key {A} (key : A → Z) l :
  StronglySorted (λ a b, key a ≤ key b) l → sorted_by_key key l.
Proof.
  induction 1 as [|x l _ IH Hx]; intros i j y z Hij Hy Hz; [done|].
  destruct i as [|i], j as [|j]; cbn in Hy, Hz; [simplify_eq; lia | | lia | eapply (IH i j); [lia|done|done]].
  simplify_eq. rewrite Forall_forall in Hx. apply Hx. by eapply list_elem_of_lookup_2.
Qed.

Lemma sort_entries_ok : (∀ l, sort_entries l ≡ₚ l) ∧ ∀ l, sorted_by_key entry_file (sort_entries l).
Proof.
  split; intros l; [apply merge_sort_Permutation|].
  apply strongly_sorted_by_key, (StronglySorted_merge_sort by_file).
Qed.

Definition example_items : list JsonItem :=
  [JsonObject (Some (str "/w")) (Some (str "b.cpp")) None (Some (str "cc -c -I inc b.cpp"));
   NotObject;
   JsonObject (Some (str "/w")) (Some (str "/w/a.cpp")) (Some [Some (str "cc"); Some (str "-Wall")]) None;
   JsonObject (Some (str "/w")) (Some (str "notes.txt")) None (Some (str "cc notes.txt"))].

(** An empty include directory is kept as a null pointer, from which [to_string_argv]
    makes a [std::string]. *)
Lemma empty_argument_is_a_null_pointer :
  let c := mkCompileCommand (mkResolvedFlags (str "/w") [Some (str "cc"); Some (str "-I"); None] false)
             (Some (str "/w/a.cpp")) in
  (let? db := @load example_table example_paths example_extension sort_entries
      (Some [JsonObject (Some (str "/w")) (Some (str "/w/a.cpp"))
               (Some [Some (str "cc"); Some (str "-I"); Some []]) None]) empty_database in
   let? r := @lookup_commands example_table 0 (λ _, 0) (λ l, l) (str "/w/a.cpp")
      (mkCommandOptions false [] []) db in Ok r.2) = Ok [c] ∧
  @to_string_argv example_paths c = Fault.
Proof. split; vm_compute; reflexivity. Qed.

(** ** Groups of files with one configuration, and removed options

    [unique_configs] walks the sorted entries once and compares each file with the last
    of its group only; [build_command] looks the options to remove up by binary search.
    Both are shown to do what the plain definitions do. *)

Section groups.
Context `{OptionTable} `{PathTable}.
Context (default_mask : Z) (id_order : string → Z) (sort_args : list ParsedArg → list ParsedArg).
Abbreviation build_cmd := (build_command default_mask id_order sort_args).
Context (options : CommandOptions) (db : CompilationDatabase).

(** ** One pass over the entries *)

Lemma strictly_sorted_snoc (l : list Z) x :
  StronglySorted Z.lt l → (∀ y, y ∈ l → y ≤ x) → last l ≠ Some x → StronglySorted Z.lt (l ++ [x]).
Proof.
  intros Hl Hle Hlast. apply StronglySorted_app_2; [|done|by repeat constructor].
  intros y z Hy ->%list_elem_of_singleton.
  destruct (last l) as [m|] eqn:Em; [|apply last_None in Em as ->; by apply elem_of_nil in Hy].
  assert (m ≤ x) by (apply Hle; by apply last_Some_elem_of).
  apply last_Some in Em as [l' ->]. apply elem_of_app in Hy as [Hy| ->%list_elem_of_singleton].
  - enough (y < m) by lia. eapply (StronglySorted_app_1_elem_of Z.lt); [done..|by left].
  - assert (m ≠ x) by congruence. lia.
Qed.

Lemma push_file_sorted g x :
  StronglySorted Z.lt (file_ids g) → (∀ y, y ∈ file_ids g → y ≤ x) →
  StronglySorted Z.lt (file_ids (push_file x g)).
Proof.
  intros Hs Hle. unfold push_file. case_bool_decide; [done|]. cbn. by apply strictly_sorted_snoc.
Qed.

Lemma elem_of_push_file g x y : y ∈ file_ids (push_file x g) ↔ y ∈ file_ids g ∨ y = x.
Proof.
  unfold push_file. case_bool_decide as E; cbn.
  - apply last_Some_elem_of in E. naive_solver.
  - rewrite elem_of_app, list_elem_of_singleton. done.
Qed.

Lemma push_file_info g x : group_info (push_file x g) = group_info g.
Proof. unfold push_file. by case_bool_decide. Qed.
Lemma push_file_command g x : command (push_file x g) = command g.
Proof. unfold push_file. by case_bool_decide. Qed.
Lemma push_file_head g x y : head (file_ids g) = Some y → head (file_ids (push_file x g)) = Some y.
Proof. unfold push_file. case_bool_decide; [done|]. cbn. by destruct (file_ids g). Qed.

(** A group after the entries [pre]. *)
Record group_ok (pre : list CompilationEntry) (g : ConfigGroup) : Prop := {
  go_sorted : StronglySorted Z.lt (file_ids g);
  go_files : ∀ f, f ∈ file_ids g ↔
    ∃ e, e ∈ pre ∧ entry_info e = group_info g ∧ entry_file e = f;
  go_command : ∃ f, head (file_ids g) = Some f ∧ build_cmd f (group_info g) options db = Ok (command g);
}.

Record grouped (pre : list CompilationEntry) (st : gmap nat nat * list ConfigGroup) : Prop := {
  gr_index : ∀ info k, st.1 !! info = Some k ↔ ∃ g, st.2 !! k = Some g ∧ group_info g = info;
  gr_groups : ∀ k g, st.2 !! k = Some g → group_ok pre g;
  gr_all : ∀ e, e ∈ pre → is_Some (st.1 !! entry_info e);
}.

Lemma group_ok_other pre e g :
  entry_info e ≠ group_info g → group_ok pre g → group_ok (pre ++ [e]) g.
Proof.
  intros Hne [Hs Hf Hc]. split; [done| |done]. intros f. rewrite Hf.
  setoid_rewrite elem_of_app. setoid_rewrite list_elem_of_singleton. naive_solver.
Qed.

Lemma group_ok_push pre e g :
  (∀ e', e' ∈ pre → entry_file e' ≤ entry_file e) →
  entry_info e = group_info g → group_ok pre g → group_ok (pre ++ [e]) (push_file (entry_file e) g).
Proof.
  intros Hle He [Hs Hf Hc]. split.
  - apply push_file_sorted; [done|]. intros y (e' & ? & _ & <-)%Hf. auto.
  - intros f. rewrite elem_of_push_file, push_file_info, Hf.
    setoid_rewrite elem_of_app. setoid_rewrite list_elem_of_singleton. naive_solver.
  - destruct Hc as (f & Hh & Hb). exists f. rewrite push_file_info, push_file_command.
    split; [by apply push_file_head|done].
Qed.

Lemma group_ok_new pre e c :
  build_cmd (entry_file e) (entry_info e) options db = Ok c →
  (∀ e', e' ∈ pre → entry_info e' ≠ entry_info e) →
  group_ok (pre ++ [e]) (push_file (entry_file e) (mkConfigGroup [] c (entry_info e))).
Proof.
  intros Hb Hnew. split.
  - apply push_file_sorted; [constructor|]. intros y Hy. by apply elem_of_nil in Hy.
  - intros f. rewrite elem_of_push_file, push_file_info. cbn [file_ids group_info]. rewrite elem_of_nil.
    setoid_rewrite elem_of_app. setoid_rewrite list_elem_of_singleton. split.
    + intros [[]| ->]. exists e. auto.
    + intros (e' & [Hin| ->] & Hi & Hf); [by apply Hnew in Hin|by right].
  - exists (entry_file e). by rewrite push_file_info, push_file_command.
Qed.

Lemma gr_index_insert (indices : gmap nat nat) (groups : list ConfigGroup) (k : nat) g x :
  (∀ info k, indices !! info = Some k ↔ ∃ g, groups !! k = Some g ∧ group_info g = info) →
  groups !! k = Some g →
  ∀ info j, indices !! info = Some j ↔ ∃ g', <[k := push_file x g]> groups !! j = Some g' ∧ group_info g' = info.
Proof.
  intros Hidx Hk info j. rewrite Hidx. destruct (decide (j = k)) as [->|Hj].
  - rewrite list_lookup_insert_eq by (by eapply lookup_lt_Some). rewrite Hk.
    split; intros (? & [= <-] & <-); eexists; (split; [reflexivity|]); by rewrite push_file_info.
  - by rewrite list_lookup_insert_ne.
Qed.

Lemma grouped_old pre e indices groups k :
  (∀ e', e' ∈ pre → entry_file e' ≤ entry_file e) →
  grouped pre (indices, groups) → indices !! entry_info e = Some k →
  ∃ st, group_entry default_mask id_order sort_args options db e (indices, groups) = Ok st ∧
    grouped (pre ++ [e]) st.
Proof.
  intros Hle [Hidx Hgs Hall] Hk. unfold group_entry. rewrite Hk.
  cbn [fst snd] in *. destruct (proj1 (Hidx _ _) Hk) as (g & Hg & He). rewrite Hg. cbn [read Res_bind].
  eexists. split; [reflexivity|]. split; cbn [fst snd].
  - by apply gr_index_insert.
  - intros j g'. rewrite list_lookup_insert_Some. intros [(<- & <- & _)|[Hj Hg']].
    + apply group_ok_push; [done..|]. by eapply Hgs.
    + apply group_ok_other; [|by eapply Hgs]. intros E. apply Hj.
      assert (indices !! group_info g' = Some j) by (apply Hidx; eauto).
      rewrite <- E in *. congruence.
  - intros e' [Hin| ->%list_elem_of_singleton]%elem_of_app; [by apply Hall|by eexists].
Qed.

Lemma grouped_new pre e indices groups c :
  build_cmd (entry_file e) (entry_info e) options db = Ok c →
  grouped pre (indices, groups) → indices !! entry_info e = None →
  ∃ st, group_entry default_mask id_order sort_args options db e (indices, groups) = Ok st ∧
    grouped (pre ++ [e]) st.
Proof.
  intros Hb [Hidx Hgs Hall] Hk. unfold group_entry. rewrite Hk, Hb. cbn [Res_bind].
  cbn [fst snd] in *. eexists. split; [reflexivity|]. split; cbn [fst snd].
  - intros info k. rewrite lookup_insert_Some, Hidx. setoid_rewrite lookup_app_Some.
    setoid_rewrite list_lookup_singleton_Some. split.
    + intros [[<- <-]|[? (g & Hg & <-)]]; [|eauto].
      eexists. split; [right; split; [lia|]; split; [lia|reflexivity]|]. by rewrite push_file_info.
    + intros (g & [Hg|(Hk1 & Hk2 & <-)] & <-).
      * right. split; [|eauto]. intros E.
        assert (indices !! group_info g = Some k) by (apply Hidx; eauto). congruence.
      * left. rewrite push_file_info. split; [done|lia].
  - intros k g [Hg|[_ Hg]]%lookup_app_Some.
    + apply group_ok_other; [|by eapply Hgs]. intros E.
      assert (indices !! group_info g = Some k) by (apply Hidx; eauto). congruence.
    + apply list_lookup_singleton_Some in Hg as [_ <-]. apply group_ok_new; [done|].
      intros e' Hin E. apply Hall in Hin. rewrite E, Hk in Hin. by destruct Hin.
  - intros e' [Hin| ->%list_elem_of_singleton]%elem_of_app; rewrite lookup_insert_is_Some; [|by left].
    destruct (decide (entry_info e = entry_info e')); [by left|right]. auto.
Qed.

Lemma unique_configs_grouped :
  sorted_by_key entry_file (db_entries db) →
  (∀ e, e ∈ db_entries db → ∃ c, build_cmd (entry_file e) (entry_info e) options db = Ok c) →
  ∃ st, for_each (db_entries db) (group_entry default_mask id_order sort_args options db) (∅, []) = Ok st ∧
    grouped (db_entries db) st.
Proof.
  intros Hs Hb. apply for_each_prefix.
  - split; cbn; [|done|by intros ? ?%elem_of_nil]. intros info k. rewrite lookup_empty. naive_solver.
  - intros pre e post [indices groups] Heq Hg.
    assert (e ∈ db_entries db) as Hin by (rewrite Heq; apply elem_of_app; right; left).
    destruct (indices !! entry_info e) as [k|] eqn:Ek.
    + eapply grouped_old; [|done..]. intros e' [i Hi]%list_elem_of_lookup.
      apply (Hs i (length pre)); [|rewrite Heq; by apply lookup_app_l_Some |
        by rewrite Heq, lookup_app_r, Nat.sub_diag].
      apply lookup_lt_Some in Hi. lia.
    + destruct (Hb e Hin) as [c Hc]. by eapply grouped_new.
Qed.

Lemma grouped_NoDup pre st : grouped pre st → NoDup (group_info <$> st.2).
Proof.
  intros [Hidx _ _]. apply NoDup_alt. intros i j info Hi Hj.
  apply list_lookup_fmap_Some in Hi as (g & -> & Hg).
  apply list_lookup_fmap_Some in Hj as (g' & Hi & Hg').
  assert (st.1 !! group_info g = Some i) by (apply Hidx; eauto).
  assert (st.1 !! group_info g = Some j) by (apply Hidx; eauto). congruence.
Qed.
End groups.

Section unique.
Context `{OptionTable} `{PathTable}.
Context (extension : bytes → bytes) (sort : list CompilationEntry → list CompilationEntry).
Context (sort_perm : ∀ l, sort l ≡ₚ l) (sort_sorted : ∀ l, sorted_by_key entry_file (sort l)).
Context (default_mask : Z) (id_order : string → Z) (sort_args : list ParsedArg → list ParsedArg).

(** Entries that share their information have the same flags. *)
Lemma shared_info_flags options db e e' c c' :
  describes db e c → describes db e' c' → entry_info e = entry_info e' →
  resolved (plain_command options c) = resolved (plain_command options c').
Proof.
  destruct c as [[f d] a], c' as [[f' d'] a'].
  intros (_ & i & Hi & Hd & Hp & Hc) (_ & i' & Hi' & Hd' & Hp' & Hc') E.
  rewrite E in Hi. assert (i' = i) as -> by congruence.
  assert (d = d') as <-.
  { rewrite <- (save_string_default d), <- (save_string_default d'). congruence. }
  unfold plain_command. cbn [resolved]. rewrite !fmap_app, <- Hp, <- Hp'.
  rewrite Hc in Hc'. injection Hc' as ->. done.
Qed.

(** The groups of a loaded database.  Every accepted item of the document is in a
    group whose command has the item's flags and directory, every file of a group comes
    from such an item, no group lists a file twice and no configuration has two groups. *)
Theorem unique_configs_cover_the_commands (items : list JsonItem) (db0 : CompilationDatabase)
    (options : CommandOptions) :
  pool_ok (db_paths db0) → NoDup (infos db0) → opt_remove options = [] →
  Z.of_nat (length (paths (db_paths db0)) + length items) < two32 →
  ∃ db groups, load extension sort (Some items) db0 = Ok db ∧
    unique_configs default_mask id_order sort_args options db = Ok groups ∧
    (∀ c, c ∈ accepted extension items → ∃ g id, g ∈ groups ∧ id ∈ file_ids g ∧
       resolve (db_paths db) id = Some (normalize c.1.1) ∧
       resolved (command g) = resolved (plain_command options c)) ∧
    (∀ g id, g ∈ groups → id ∈ file_ids g → ∃ c, c ∈ accepted extension items ∧
       resolve (db_paths db) id = Some (normalize c.1.1) ∧
       resolved (command g) = resolved (plain_command options c)) ∧
    (∀ g, g ∈ groups → StronglySorted Z.lt (file_ids g)) ∧ NoDup (group_info <$> groups).
Proof.
  intros Hok Hnd Hrem Hlen.
  destruct (load_ok extension sort items db0 Hok Hnd) as (db & es & Hl & Hp & _ & _ & He & Hf); [lia|].
  assert (∀ e, e ∈ db_entries db → ∃ c, c ∈ accepted extension items ∧ describes db e c) as Hdesc.
  { intros e Hin. rewrite He, (sort_perm es) in Hin. apply list_elem_of_lookup in Hin as [k Hk].
    destruct (Forall2_lookup_l _ _ _ _ _ Hf Hk) as (c & Hc & ?). exists c.
    split; [by eapply list_elem_of_lookup_2|done]. }
  destruct (unique_configs_grouped default_mask id_order sort_args options db)
    as ([indices groups] & Hrun & Hg).
  { by rewrite He. }
  { intros e (c & _ & Hc)%Hdesc. eexists. by apply build_command_described. }
  assert (∀ g e c, g ∈ groups → e ∈ db_entries db → entry_info e = group_info g → describes db e c →
            resolved (command g) = resolved (plain_command options c)) as Hcmd.
  { intros g e c [k Hk]%list_elem_of_lookup Hin Ei Hd.
    destruct (gr_groups _ _ _ _ _ _ _ Hg k g Hk) as [_ Hfiles (f & Hh & Hb)].
    destruct (proj1 (Hfiles f)) as (e0 & Hin0 & Hi0 & Hf0); [by apply head_Some_elem_of|].
    destruct (Hdesc e0 Hin0) as (c0 & _ & Hd0). rewrite <- Hf0, <- Hi0 in Hb.
    rewrite (build_command_described _ _ _ options db e0 c0 Hrem Hd0) in Hb. injection Hb as <-.
    eapply shared_info_flags; [done..|congruence]. }
  exists db, groups. split; [done|]. split; [unfold unique_configs; by rewrite Hrun|].
  split_and!; [| | |by apply (grouped_NoDup _ _ _ _ _ _ _ Hg)].
  - intros c [k Hk]%list_elem_of_lookup. destruct (Forall2_lookup_r _ _ _ _ _ Hf Hk) as (e & Hke & Hd).
    assert (e ∈ db_entries db) as Hin by (rewrite He, (sort_perm es); by eapply list_elem_of_lookup_2).
    destruct (gr_all _ _ _ _ _ _ _ Hg e Hin) as [j Hj].
    apply (gr_index _ _ _ _ _ _ _ Hg) in Hj as (g & Hg' & Ei). cbn in Hg'.
    assert (g ∈ groups) as Hgin by (by eapply list_elem_of_lookup_2).
    exists g, (entry_file e). split_and!; [done| | |by eapply Hcmd].
    + apply (go_files _ _ _ _ _ _ _ (gr_groups _ _ _ _ _ _ _ Hg j g Hg')). eauto.
    + destruct c as [[f d] a]. apply Hd.
  - intros g id Hgin Hid. pose proof Hgin as [k Hk]%list_elem_of_lookup.
    apply (go_files _ _ _ _ _ _ _ (gr_groups _ _ _ _ _ _ _ Hg k g Hk)) in Hid as (e & Hin & Ei & <-).
    destruct (Hdesc e Hin) as (c & Hc & Hd). exists c. split_and!; [done| |by eapply Hcmd].
    destruct c as [[f d] a]. apply Hd.
  - intros g [k Hk]%list_elem_of_lookup. apply (gr_groups _ _ _ _ _ _ _ Hg k g Hk).
Qed.
End unique.

(** The theorem at a document in which two files share their options. *)
Lemma unique_configs_cover_the_commands_witness :
  let items := [JsonObject (Some (str "/w")) (Some (str "b.cpp")) None (Some (str "cc -DX -c b.cpp"));
                JsonObject (Some (str "/w")) (Some (str "a.cpp")) None (Some (str "cc -DX -c a.cpp"))] in
  ∃ db groups,
    @load example_table example_paths example_extension sort_entries (Some items) empty_database = Ok db ∧
    @unique_configs example_table 0 (λ _, 0) (λ l, l) (mkCommandOptions false [] []) db = Ok groups ∧
    NoDup (group_info <$> groups).
Proof.
  intros items. destruct sort_entries_ok as [Hp Hs].
  destruct (@unique_configs_cover_the_commands example_table example_paths example_extension sort_entries
    Hp Hs 0 (λ _, 0) (λ l, l) items empty_database (mkCommandOptions false [] []))
    as (db & groups & Hl & Hu & _ & _ & _ & Hn).
  - apply empty_pool_ok.
  - constructor.
  - reflexivity.
  - vm_compute. reflexivity.
  - by exists db, groups.
Defined.

(** ** Removed options *)

Section removal.
Context `{OptionTable}.
Context (id_order : string → Z) (sort_args : list ParsedArg → list ParsedArg).
Context (id_order_inj : ∀ a b, id_order a = id_order b → a = b).
Context (sort_perm : ∀ l, sort_args l ≡ₚ l)
        (sort_sorted : ∀ l, sorted_by_key (λ a, id_order (arg_id a)) (sort_args l)).

(** What the remove list means: some removed argument has the option and either the
    value ["*"] or the same values. *)
Definition unwanted (remove : list ParsedArg) (arg : ParsedArg) : Prop :=
  Exists (λ r, arg_id r = arg_id arg ∧ (arg_values r = [str "*"] ∨ arg_values arg = arg_values r)) remove.

Global Instance unwanted_dec remove arg : Decision (unwanted remove arg).
Proof. apply _. Defined.

Lemma removed_by_unwanted remove arg :
  removed_by (equal_range (λ r, id_order (arg_id r) <? id_order (arg_id arg))
                (λ r, id_order (arg_id arg) <? id_order (arg_id r)) (sort_args remove)) arg = true ↔
  unwanted remove arg.
Proof.
  rewrite (equal_range_filter (λ a, id_order (arg_id a))) by apply sort_sorted.
  unfold removed_by, unwanted. rewrite existsb_exists, Exists_exists.
  setoid_rewrite orb_true_iff. setoid_rewrite bool_decide_eq_true.
  split; intros (r & Hr).
  - destruct Hr as [Hin Hv]. apply list_elem_of_In, list_elem_of_filter in Hin as [Hid Hin].
    rewrite (sort_perm remove) in Hin. exists r. auto.
  - destruct Hr as (Hin & Hid & Hv). exists r. split; [|done].
    apply list_elem_of_In, list_elem_of_filter. split; [by rewrite Hid|]. by rewrite (sort_perm remove).
Qed.
End removal.

(** ** The command of an item, said directly *)

Section expected.
Context `{OptionTable} `{PathTable}.
Implicit Types (a : ParsedArg) (dir : bytes).

(** The options that count for a file: those outside the two tables of output options and
    of code generation options. *)
Definition significant (driver : bytes) (rest : list bytes) : list ParsedArg :=
  filter (λ a, is_discarded_option (arg_id a) = false ∧ is_codegen_option (arg_id a) = false)
    (parsed (parse true (default_visibility driver) rest)).

Definition one_xclang a : Prop := arg_id a = "Xclang"%string ∧ length (arg_values a) = 1%nat.
Definition pch_option a : Prop := arg_id a = "Xclang"%string ∧ arg_values a = [str "-include-pch"].

(** Without [-Xclang -include-pch] and the [-Xclang] that has its value. *)
Inductive without_pch : list ParsedArg → list ParsedArg → Prop :=
| no_pch l : Forall (λ a, ¬ pch_option a) l → without_pch l l
| pch_with_value l p m v k k' :
    Forall (λ a, ¬ pch_option a) l → pch_option p → Forall (λ a, ¬ one_xclang a) m → one_xclang v →
    without_pch k k' → without_pch (l ++ p :: m ++ v :: k) (l ++ m ++ k')
| pch_without_value l p m :
    Forall (λ a, ¬ pch_option a) l → pch_option p → Forall (λ a, ¬ one_xclang a) m →
    without_pch (l ++ p :: m) (l ++ m).

(** The options that are the file's own. *)
Definition user_option a : Prop :=
  arg_id a ∈ ["I"; "isystem"; "iquote"; "idirafter"; "D"; "U"; "include"]%string.
Global Instance user_option_dec a : Decision (user_option a).
Proof. unfold user_option. apply _. Defined.

Definition absolute_in dir (v : bytes) : bytes :=
  if decide (v = [] ∨ is_absolute v = true) then v else path_join dir v.

(** An include directory is made absolute, anything else is spelt as it was. *)
Definition own_flags dir a : list bytes :=
  match arg_values a with
  | [v] => if decide (arg_id a ∈ ["I"; "isystem"; "iquote"; "idirafter"]%string)
           then [prefixed_name (arg_id a); absolute_in dir v] else render a
  | _ => render a
  end.

(** The driver, the options shared with other files, the file's own. *)
Definition expected_arguments dir (args fs : list bytes) : Prop :=
  ∃ driver rest kept, args = driver :: rest ∧ without_pch (significant driver rest) kept ∧
    fs = driver :: concat (render <$> filter (λ a, ¬ user_option a) kept) ++
                   concat (own_flags dir <$> filter user_option kept).

Definition with_resource_dir (options : CommandOptions) (fs : list bytes) : list bytes :=
  if decide (inject_resource_dir options = true ∧ resource_dir ≠ [] ∧ str "-resource-dir" ∉ fs)
  then fs ++ [str "-resource-dir"; resource_dir] else fs.

(** What the options of the caller remove. *)
Definition after_removal (default_mask : Z) (options : CommandOptions) (fs : list bytes) : list bytes :=
  match opt_remove options, fs with
  | [], _ | _, [] => fs
  | remove, driver :: rest =>
    driver :: concat (render <$> filter (λ a, ¬ unwanted (parsed (parse false default_mask remove)) a)
                        (parsed (parse false default_mask rest)))
  end.

(** The command of an accepted item: its directory, its file, and these flags; the null
    pointer stands for the empty string. *)
Definition expected_command (default_mask : Z) (options : CommandOptions)
    (c : bytes * bytes * list bytes) (cmd : CompileCommand) : Prop :=
  ∃ fs, expected_arguments c.1.2 c.2 fs ∧
    cmd = mkCompileCommand (mkResolvedFlags c.1.2 (save_string <$>
            after_removal default_mask options (with_resource_dir options fs) ++ opt_append options) false)
            (Some (normalize c.1.1)).

(** ** The loop does this *)

(** The state of the loop: whether the value of [-include-pch] is still to come. *)
Inductive pch_run : bool → list ParsedArg → list ParsedArg → Prop :=
| run_nil b : pch_run b [] []
| run_keep b a l l' :
    (b = true → ¬ one_xclang a) → (b = false → ¬ pch_option a) → pch_run b l l' → pch_run b (a :: l) (a :: l')
| run_pch a l l' : pch_option a → pch_run true l l' → pch_run false (a :: l) l'
| run_value a l l' : one_xclang a → pch_run false l l' → pch_run true (a :: l) l'.

Lemma without_pch_cons a l l' : ¬ pch_option a → without_pch l l' → without_pch (a :: l) (a :: l').
Proof.
  intros Ha [k Hk|k p m v r r' Hk Hp Hm Hv Hr|k p m Hk Hp Hm].
  - apply no_pch. by constructor.
  - apply (pch_with_value (a :: k)); try done. by constructor.
  - apply (pch_without_value (a :: k)); try done. by constructor.
Qed.

Lemma pch_run_without b l l' :
  pch_run b l l' →
  if b then
    (Forall (λ a, ¬ one_xclang a) l ∧ l' = l) ∨
    ∃ m v k k', l = m ++ v :: k ∧ Forall (λ a, ¬ one_xclang a) m ∧ one_xclang v ∧ without_pch k k' ∧ l' = m ++ k'
  else without_pch l l'.
Proof.
  induction 1 as [[]|[] a l l' H1 H2 Hr IH|a l l' Ha Hr IH|a l l' Ha Hr IH].
  - left. by split.
  - apply no_pch. constructor.
  - specialize (H1 eq_refl). destruct IH as [[Hl ->]|(m & v & k & k' & -> & Hm & Hv & Hk & ->)].
    + left. split; [by constructor|done].
    + right. exists (a :: m), v, k, k'. split_and!; try done. by constructor.
  - by apply without_pch_cons; auto.
  - destruct IH as [[Hl ->]|(m & v & k & k' & -> & Hm & Hv & Hk & ->)].
    + by apply (pch_without_value []).
    + by apply (pch_with_value []).
  - right. exists [], a, l, l'. by split_and!.
Qed.

Lemma own_flags_coded dir a :
  own_flags dir a =
  match arg_values a with
  | [value] =>
    if is_include_path_option (arg_id a) then
      [prefixed_name (arg_id a);
       if negb (bool_decide (value = [])) && negb (is_absolute value) then path_join dir value else value]
    else render a
  | _ => render a
  end.
Proof.
  unfold own_flags, is_include_path_option, mem, absolute_in. destruct (arg_values a) as [|v [|]]; try done.
  rewrite bool_decide_decide. case_decide; [|done]. do 2 f_equal. case_bool_decide; cbn.
  - rewrite decide_True; auto.
  - destruct (is_absolute v); cbn; [by rewrite decide_True by auto|]. rewrite decide_False; naive_solver.
Qed.

Lemma classify_run dir rs cs ps b :
  ∃ kept b', pch_run b (filter (λ a, is_discarded_option (arg_id a) = false ∧ is_codegen_option (arg_id a) = false)
                          (parsed rs)) kept ∧
    foldl (classify_arg dir) (cs, ps, b) rs =
    (cs ++ concat (render <$> filter (λ a, ¬ user_option a) kept),
     ps ++ concat (own_flags dir <$> filter user_option kept), b').
Proof.
  revert cs ps b. induction rs as [|r rs IH]; intros cs ps b; cbn [foldl].
  { exists [], b. cbn. rewrite !app_nil_r. split; [constructor|done]. }
  destruct r as [i|a]; [apply IH|]. change (parsed (inr a :: rs)) with (a :: parsed rs).
  rewrite filter_cons. cbn [classify_arg].
  destruct (is_discarded_option (arg_id a)) eqn:Ed; [rewrite decide_False by naive_solver; apply IH|].
  destruct (is_codegen_option (arg_id a)) eqn:Ec; [rewrite decide_False by naive_solver; apply IH|].
  rewrite decide_True by done.
  destruct (is_xclang_option (arg_id a) && bool_decide (length (arg_values a) = 1%nat)) eqn:Ex.
  - assert (one_xclang a) as Hx.
    { apply andb_true_iff in Ex as [E1 E2]. unfold is_xclang_option, mem in E1.
      apply bool_decide_eq_true, list_elem_of_singleton in E1. apply bool_decide_eq_true in E2. by split. }
    destruct b; cbn [andb].
    + destruct (IH cs ps false) as (kept & b' & Hr & ->). exists kept, b'. split; [by constructor|done].
    + destruct (bool_decide_reflect (head (arg_values a) = Some (str "-include-pch"))) as [Eh|Eh].
      * destruct (IH cs ps true) as (kept & b' & Hr & ->). exists kept, b'. split; [|done].
        constructor; [|done]. destruct Hx as [Hx Hl]. split; [done|].
        revert Hl Eh. destruct (arg_values a) as [|v [|]]; cbn; congruence.
      * assert (is_user_content_option (arg_id a) = false) as ->.
        { destruct Hx as [-> _]. reflexivity. }
        destruct (IH (cs ++ render a) ps false) as (kept & b' & Hr & ->). exists (a :: kept), b'. split.
        { constructor; [done| |done]. intros _ [_ Hv]. apply Eh. by rewrite Hv. }
        rewrite !filter_cons. assert (¬ user_option a) as Hu.
        { destruct Hx as [Hx _]. unfold user_option. rewrite Hx. set_solver. }
        rewrite (decide_True (P := ¬ user_option a)), (decide_False (P := user_option a)) by done.
        by rewrite fmap_cons; cbn; rewrite app_assoc.
  - assert (¬ one_xclang a) as Hx.
    { intros [Hx Hl]. unfold is_xclang_option, mem in Ex. rewrite Hx, Hl in Ex. done. }
    cbn [andb]. assert (pch_option a → one_xclang a) as Hpx by (intros [? Hv]; split; [done|by rewrite Hv]).
    assert (is_user_content_option (arg_id a) = bool_decide (user_option a)) as -> by done.
    destruct (bool_decide_reflect (user_option a)) as [Hu|Hu].
    + destruct (IH cs (ps ++ own_flags dir a) b) as (kept & b' & Hr & Hf). exists (a :: kept), b'. split.
      { constructor; [done|tauto|done]. }
      rewrite !filter_cons.
      rewrite (decide_False (P := ¬ user_option a)), (decide_True (P := user_option a)) by tauto.
      rewrite fmap_cons. cbn [concat]. rewrite app_assoc, <- Hf, own_flags_coded.
      destruct (arg_values a) as [|v [|]]; [done| |done]. by destruct (is_include_path_option _).
    + destruct (IH (cs ++ render a) ps b) as (kept & b' & Hr & ->). exists (a :: kept), b'. split.
      { constructor; [done|tauto|done]. }
      rewrite !filter_cons.
      rewrite (decide_True (P := ¬ user_option a)), (decide_False (P := user_option a)) by tauto.
      by rewrite fmap_cons; cbn; rewrite app_assoc.
Qed.

Lemma classified_expected dir args :
  args ≠ [] → expected_arguments dir args ((classified dir args).1 ++ (classified dir args).2).
Proof.
  destruct args as [|driver rest]; [done|]. intros _. cbn [classified].
  destruct (classify_run dir (parse true (default_visibility driver) rest) [driver] [] false)
    as (kept & b' & Hr & ->). cbn [fst snd].
  exists driver, rest, kept. split; [done|]. split; [by apply (pch_run_without false)|done].
Qed.
End expected.

Section expected_lookup.
Context `{OptionTable} `{PathTable}.
Context (extension : bytes → bytes) (sort : list CompilationEntry → list CompilationEntry).
Context (sort_perm : ∀ l, sort l ≡ₚ l) (sort_sorted : ∀ l, sorted_by_key entry_file (sort l)).
Context (default_mask : Z) (id_order : string → Z) (sort_args : list ParsedArg → list ParsedArg).
Context (id_order_inj : ∀ a b, id_order a = id_order b → a = b).
Context (args_perm : ∀ l, sort_args l ≡ₚ l)
        (args_sorted : ∀ l, sorted_by_key (λ a, id_order (arg_id a)) (sort_args l)).
Implicit Types (db : CompilationDatabase) (c : bytes * bytes * list bytes).

(** The flags before the caller's options are applied. *)
Definition item_flags (options : CommandOptions) c : list bytes :=
  with_resource_dir options ((classified c.1.2 c.2).1 ++ (classified c.1.2 c.2).2).

Definition item_built (options : CommandOptions) c : CompileCommand :=
  mkCompileCommand (mkResolvedFlags c.1.2
    (save_string <$> after_removal default_mask options (item_flags options c) ++ opt_append options) false)
    (Some (normalize c.1.1)).

Lemma to_strings_saved l :
  to_strings (save_string <$> l) = if decide ([] ∈ l) then Fault else Ok l.
Proof.
  unfold to_strings. assert (∀ acc, for_each (E := ()) (save_string <$> l) (λ a acc, let? s := read a in Ok (acc ++ [s])) acc =
    if decide ([] ∈ l) then Fault else Ok (acc ++ l)) as Hgen; [|by rewrite Hgen].
  induction l as [|x l IH]; intros acc; cbn [fmap list_fmap for_each].
  { rewrite decide_False by set_solver. by rewrite app_nil_r. }
  destruct x as [|ch x]; cbn [save_string read Res_bind]; [by rewrite decide_True by left|].
  unfold fmap in IH. rewrite IH. destruct (decide ([] ∈ l)).
  - rewrite decide_True; [done|]. by right.
  - rewrite decide_False by (rewrite elem_of_cons; naive_solver). by rewrite <- app_assoc.
Qed.

Lemma resource_dir_saved options fs :
  (if inject_resource_dir options && negb (bool_decide (resource_dir = []))
      && negb (bool_decide (Some (str "-resource-dir") ∈ save_string <$> fs))
   then (save_string <$> fs) ++ [Some (str "-resource-dir"); Some resource_dir] else save_string <$> fs) =
  save_string <$> with_resource_dir options fs.
Proof.
  assert (Some (str "-resource-dir") ∈ save_string <$> fs ↔ str "-resource-dir" ∈ fs) as Hin.
  { rewrite list_elem_of_fmap. split.
    - intros ([|ch x] & Heq & Hx); [done|]. change (save_string (ch :: x)) with (Some (ch :: x)) in Heq.
      by assert (str "-resource-dir" = ch :: x) as -> by congruence.
    - intros Hx. by exists (str "-resource-dir"). }
  unfold with_resource_dir. destruct (inject_resource_dir options); cbn [andb].
  2: { by rewrite decide_False by naive_solver. }
  destruct (bool_decide_reflect (resource_dir = [])) as [E1|E1]; cbn [negb andb];
    [by rewrite decide_False by (by intros (_ & ? & _))|].
  destruct (bool_decide_reflect (Some (str "-resource-dir") ∈ save_string <$> fs)) as [E2|E2]; cbn [negb];
    [rewrite decide_False; [done|by intros (_ & _ & []); apply Hin]|].
  rewrite decide_True by (by rewrite Hin in E2). rewrite fmap_app. by destruct resource_dir.
Qed.

Lemma item_flags_driver options c driver rest :
  c.2 = driver :: rest → ∃ l, item_flags options c = driver :: l.
Proof.
  intros Hc. destruct (classified_expected c.1.2 c.2) as (d & r & kept & Hd & _ & Hf); [by rewrite Hc|].
  unfold item_flags, with_resource_dir. rewrite Hf. rewrite Hc in Hd. injection Hd as -> ->.
  case_decide; by eexists.
Qed.

Lemma build_command_expected options db e c :
  describes db e c → c.2 ≠ [] →
  build_command default_mask id_order sort_args (entry_file e) (entry_info e) options db =
  if decide (opt_remove options ≠ [] ∧ [] ∈ tail (item_flags options c)) then Fault
  else Ok (item_built options c).
Proof.
  destruct c as [[file dir] args]. intros (Hres & i & Hi & Hd & Hp & Hc) Hne. cbn [snd] in Hne.
  unfold build_command. rewrite Hi. cbn [read Res_bind]. rewrite Hc. cbn [read Res_bind].
  rewrite Hp, <- fmap_app, resource_dir_saved.
  destruct args as [|driver rest]; [done|].
  destruct (item_flags_driver options (file, dir, driver :: rest) driver rest eq_refl) as [l Hl].
  unfold item_built. unfold item_flags in *. cbn [fst snd] in *. rewrite Hl. unfold after_removal.
  rewrite Hres, Hd, save_string_default.
  destruct (opt_remove options) as [|r0 rs].
  - rewrite decide_False by naive_solver. cbn [Res_bind read]. by rewrite fmap_app.
  - rewrite fmap_cons. cbn [head tail read Res_bind]. rewrite to_strings_saved.
    destruct (decide ([] ∈ l)); [by rewrite decide_True|]. rewrite decide_False by naive_solver.
    cbn [Res_bind read]. rewrite fmap_app, fmap_cons. do 6 f_equal.
    f_equal. f_equal. apply list_filter_iff. intros a. rewrite Is_true_true, negb_true_iff, <- not_true_iff_false.
    by rewrite (removed_by_unwanted id_order sort_args id_order_inj args_perm args_sorted).
Qed.

Lemma item_built_expected options c :
  c.2 ≠ [] → expected_command default_mask options c (item_built options c).
Proof. intros Hc. eexists. split; [by apply classified_expected|done]. Qed.

(** One pass over entries whose commands can be built, or not. *)
Lemma for_each_built {A B C} (f : A → Res () B) (g : C → B) (bad : C → Prop) `{∀ x, Decision (bad x)} l k acc :
  Forall2 (λ x y, f x = if decide (bad y) then Fault else Ok (g y)) l k →
  for_each l (λ x acc, let? y := f x in Ok (acc ++ [y])) acc =
  if decide (Exists bad k) then Fault else Ok (acc ++ (g <$> k)).
Proof.
  intros Hf. revert acc. induction Hf as [|x c l k Hx Hf IH]; intros acc; cbn [for_each].
  { rewrite decide_False by (by intros ?%Exists_nil). cbn. by rewrite app_nil_r. }
  rewrite Hx. destruct (decide (bad c)) as [Hc|Hc]; cbn [Res_bind].
  { by rewrite decide_True by (by apply Exists_cons_hd). }
  rewrite IH. destruct (decide (Exists bad k)); [by rewrite decide_True by (by apply Exists_cons_tl)|].
  rewrite decide_False by (rewrite Exists_cons; tauto). by rewrite <- app_assoc.
Qed.

Lemma Forall2_perm {A B} (R : A → B → Prop) l k m :
  l ≡ₚ k → Forall2 R k m → ∃ m', m' ≡ₚ m ∧ Forall2 R l m'.
Proof.
  intros Hp. revert m. induction Hp as [|x l k Hp IH|x y l|l k r _ IH1 _ IH2]; intros m Hm.
  - exists m. done.
  - apply Forall2_cons_inv_l in Hm as (c & m' & Hc & Hm & ->). destruct (IH m' Hm) as (m1 & ? & ?).
    exists (c :: m1). split; [by f_equiv|by constructor].
  - apply Forall2_cons_inv_l in Hm as (c & m' & Hc & Hm & ->).
    apply Forall2_cons_inv_l in Hm as (d & m2 & Hd & Hm & ->).
    exists (d :: c :: m2). split; [apply Permutation_swap|by repeat constructor].
  - destruct (IH2 m Hm) as (m2 & Hp2 & H2). destruct (IH1 m2 H2) as (m1 & Hp1 & H1).
    exists m1. split; [by rewrite Hp1|done].
Qed.

Lemma accepted_args c items : c ∈ accepted extension items → c.2 ≠ [].
Proof.
  unfold accepted. intros (item & _ & Hi)%list_elem_of_omap. destruct c as [[file dir] args].
  by eapply item_command_nonempty.
Qed.

(** What the lookup finds, from the entries' descriptions. *)
Lemma lookup_built options db es cs file :
  pool_ok (db_paths db) → Z.of_nat (length (paths (db_paths db))) < two32 →
  db_entries db = sort es → Forall2 (describes db) es cs → Forall (λ c, c.2 ≠ []) cs →
  let wanted := filter (λ c, normalize c.1.1 = normalize file) cs in
  (wanted = [] ∧ ∃ db', lookup_commands default_mask id_order sort_args file options db =
     Ok (db', [default_command file options])) ∨
  wanted ≠ [] ∧
  if decide (opt_remove options ≠ [] ∧ Exists (λ c, [] ∈ tail (item_flags options c)) wanted)
  then lookup_commands default_mask id_order sort_args file options db = Fault
  else ∃ db' found, lookup_commands default_mask id_order sort_args file options db = Ok (db', found) ∧
    found ≡ₚ item_built options <$> wanted.
Proof.
  intros Hok Hlen He Hf Hargs wanted. unfold lookup_commands.
  pose proof (intern_ok (db_paths db) file Hok Hlen) as Hok1.
  pose proof (resolve_intern (db_paths db) file Hok Hlen) as Hr.
  pose proof (intern_paths_prefix (db_paths db) file) as Hp.
  destruct (intern (db_paths db) file) as [ps id]. cbn in Hok1, Hr, Hp.
  set (db' := mkDatabase (canonicals db) (infos db) ps (db_entries db)).
  assert (Hf' : Forall2 (describes db') es cs) by (eapply describes_all_grows; [|done]; done).
  pose proof (described_file db' es cs id file Hok1 Hf' Hr) as Hfile. fold wanted in Hfile.
  assert (find_entries id db' ≡ₚ filter (λ e, entry_file e = id) es) as Hperm.
  { unfold find_entries. cbn [db_entries db']. rewrite He, (equal_range_filter entry_file) by apply sort_sorted.
    by apply filter_Permutation. }
  assert (Forall (λ c, c.2 ≠ []) wanted) as Hw.
  { apply Forall_forall. intros c [_ Hc]%list_elem_of_filter. rewrite Forall_forall in Hargs. by apply Hargs. }
  destruct (Forall2_perm _ _ _ _ Hperm Hfile) as (wanted' & Hpw & Hfound).
  assert (Forall2 (λ e c, build_command default_mask id_order sort_args id (entry_info e) options db' =
    if decide (opt_remove options ≠ [] ∧ [] ∈ tail (item_flags options c)) then Fault
    else Ok (item_built options c)) (find_entries id db') wanted') as Hbuild.
  { rewrite <- Hpw in Hw. rewrite Forall_forall in Hw. clear -Hfound Hw id_order_inj args_perm args_sorted sort_perm sort_sorted extension.
    induction Hfound as [|e c l k [Hd <-] Hl IH]; constructor; [|by apply IH; intros; apply Hw; right].
    apply build_command_expected; [done|]. apply Hw. left. }
  destruct (find_entries id db') as [|e0 rest] eqn:Efind.
  { left. inversion Hfound; subst. split; [by apply Permutation_nil_l in Hpw|by eexists]. }
  right. split.
  { intros Hw0. rewrite Hw0 in Hpw. apply Permutation_nil_r in Hpw. subst. by inversion Hfound. }
  rewrite (for_each_built _ _ _ _ _ [] Hbuild).
  destruct (decide (opt_remove options ≠ [] ∧ Exists _ wanted)) as [[Hrm Hex]|Hno].
  - rewrite decide_True; [done|]. rewrite Hpw. eapply Exists_impl; [exact Hex|]. done.
  - rewrite decide_False.
    + cbn [Res_bind]. eexists _, _. split; [done|]. by rewrite Hpw.
    + intros Hex. apply Hno. rewrite Hpw in Hex. split; [by apply Exists_exists in Hex as (? & _ & ? & _)|].
      eapply Exists_impl; [exact Hex|]. naive_solver.
Qed.

(** C20. Loading any document into a database with consistent pools and fewer than 2^32
    paths, and looking a file up, with entries and removed options sorted as the code sorts
    them.  If no accepted item names the file, up to the spelling of separators, the lookup
    returns one default command.  Otherwise it returns one command per such item, in some
    order: the item's directory, the driver, the options that matter (neither output nor
    code generation options, no [-include-pch] passed with [-Xclang]), first those shared with other files and
    then the file's own with include directories made absolute, the resource directory where
    it is wanted and missing, less the options the caller removes, plus those it appends.  The
    one exception is that the caller removes options and some such item has an empty string
    among its flags: then a [std::string] is made from a null pointer. *)
Theorem lookup_finds_the_loaded_commands (items : list JsonItem) (db0 : CompilationDatabase)
    (options : CommandOptions) (file : bytes) :
  pool_ok (db_paths db0) → NoDup (infos db0) →
  Z.of_nat (length (paths (db_paths db0)) + length items) < two32 →
  let wanted := filter (λ c, normalize c.1.1 = normalize file) (accepted extension items) in
  let lookup := lookup_commands default_mask id_order sort_args file options in
  ∃ db, load extension sort (Some items) db0 = Ok db ∧
    ((wanted = [] ∧ ∃ db', lookup db = Ok (db', [default_command file options])) ∨
     (wanted ≠ [] ∧ ∃ db' found cmds, lookup db = Ok (db', found) ∧ found ≡ₚ cmds ∧
        Forall2 (expected_command default_mask options) wanted cmds) ∨
     (opt_remove options ≠ [] ∧ lookup db = Fault ∧
        ∃ c fs, c ∈ wanted ∧ expected_arguments c.1.2 c.2 fs ∧ [] ∈ tail (with_resource_dir options fs))).
Proof.
  intros Hok Hnd Hlen wanted lookup.
  destruct (load_ok extension sort items db0 Hok Hnd) as (db & es & Hl & Hp & _ & Hlen' & He & Hf); [lia|].
  exists db. split; [done|].
  assert (Forall (λ c, c.2 ≠ []) (accepted extension items)) as Hargs.
  { apply Forall_forall. intros c Hc. by eapply accepted_args. }
  destruct (lookup_built options db es _ file Hp ltac:(lia) He Hf Hargs) as [?|[Hw Hcase]]; [by left|right].
  fold wanted in Hw, Hcase.
  assert (∀ c, c ∈ wanted → c.2 ≠ []) as Hne.
  { intros c [_ Hc]%list_elem_of_filter. by eapply accepted_args. }
  destruct (decide _) as [[Hrm Hex]|_].
  - right. split; [done|]. split; [done|]. apply Exists_exists in Hex as (c & Hc & Hin).
    eexists c, _. split; [done|]. split; [apply classified_expected; by apply Hne|done].
  - left. split; [done|]. destruct Hcase as (db' & found & Hlk & Hpf). exists db', found, (item_built options <$> wanted).
    split; [done|]. split; [done|]. clear -Hne id_order_inj args_perm args_sorted sort_perm sort_sorted extension.
    induction wanted as [|c l IH]; constructor.
    + apply item_built_expected, Hne. left.
    + apply IH. intros; apply Hne. by right.
Qed.
End expected_lookup.

(** The order of the example's options, and the sort by it. *)
Definition example_order (id : string) : Z := Zpos (encode id).
Definition by_option (a b : @ParsedArg example_table) : Prop :=
  example_order (arg_id a) ≤ example_order (arg_id b).
Global Instance by_option_dec : RelDecision by_option.
Proof. intros a b. unfold by_option. apply _. Defined.
Global Instance by_option_trans : Transitive by_option.
Proof. unfold by_option. intros a b c ??. lia. Qed.
Global Instance by_option_total : Total by_option.
Proof. unfold by_option. intros a b. lia. Qed.

Definition sort_options (l : list (@ParsedArg example_table)) : list (@ParsedArg example_table) :=
  merge_sort by_option l.

Lemma sort_options_ok :
  (∀ a b, example_order a = example_order b → a = b) ∧ (∀ l, sort_options l ≡ₚ l) ∧
  ∀ l, sorted_by_key (λ a, example_order (arg_id a)) (sort_options l).
Proof.
  split_and!.
  - intros a b [= E]. by apply (inj encode).
  - intros l. apply merge_sort_Permutation.
  - intros l. apply (strongly_sorted_by_key (λ a : @ParsedArg example_table, example_order (arg_id a))).
    apply (StronglySorted_merge_sort by_option).
Qed.

Definition removal_items : list JsonItem :=
  [JsonObject (Some (str "/w")) (Some (str "b.cpp")) None (Some (str "cc -c -I inc -DX -Wall b.cpp"));
   NotObject;
   JsonObject (Some (str "/w")) (Some (str "notes.txt")) None (Some (str "cc notes.txt"))].

Definition removal_options : CommandOptions := mkCommandOptions false [str "-Wall"] [str "-DY"].

Definition removal_command : CompileCommand :=
  mkCompileCommand (mkResolvedFlags (str "/w")
    [Some (str "cc"); Some (str "-I"); Some (str "/w/inc"); Some (str "-DX"); Some (str "-DY")] false) (Some (str "/w/b.cpp")).

(** A document of three items, one of which is accepted, and a caller that removes an option. *)
Lemma lookup_finds_the_loaded_commands_witness :
  (let? db := @load example_table example_paths example_extension sort_entries (Some removal_items) empty_database in
   let? r := @lookup_commands example_table 0 example_order sort_options (str "/w/b.cpp") removal_options db in
   Ok r.2) = Ok [removal_command] ∧
  @expected_command example_table example_paths 0 removal_options
    (str "/w/b.cpp", str "/w", [str "cc"; str "-c"; str "-I"; str "inc"; str "-DX"; str "-Wall"; str "b.cpp"])
    removal_command.
Proof.
  destruct sort_entries_ok as [Hp Hs]. destruct sort_options_ok as (Hi & Hap & Has).
  destruct (@lookup_finds_the_loaded_commands example_table example_paths example_extension sort_entries
    Hp Hs 0 example_order sort_options Hi Hap Has removal_items empty_database removal_options (str "/w/b.cpp"))
    as (db & Hl & Hcase).
  - apply empty_pool_ok.
  - constructor.
  - vm_compute. reflexivity.
  - assert ((let? db := @load example_table example_paths example_extension sort_entries (Some removal_items) empty_database in
       let? r := @lookup_commands example_table 0 example_order sort_options (str "/w/b.cpp") removal_options db in
       Ok r.2) = Ok [removal_command]) as Hrun by (vm_compute; reflexivity).
    split; [exact Hrun|]. rewrite Hl in Hrun. cbn [Res_bind] in Hrun.
    destruct Hcase as [[Hw _]|[(_ & db' & found & cmds & Hlk & Hperm & Hall)|(_ & Hlk & _)]].
    + exfalso. vm_compute in Hw. discriminate Hw.
    + cbv zeta in Hlk. rewrite Hlk in Hrun. cbn [Res_bind snd] in Hrun.
      assert (found = [removal_command]) as -> by (injection Hrun as Hr; exact Hr).
      apply Permutation_singleton_l in Hperm. subst cmds.
      replace (filter _ _) with
        [(str "/w/b.cpp", str "/w", [str "cc"; str "-c"; str "-I"; str "inc"; str "-DX"; str "-Wall"; str "b.cpp"])]
        in Hall by (vm_compute; reflexivity).
      inversion Hall; subst. assumption.
    + exfalso. cbv zeta in Hlk. rewrite Hlk in Hrun. discriminate Hrun.
Defined.
