(* ===== verification/Lexer.v ===== *)
(** * The lexer for directives (src/syntax/{token.h,lexer.h,lexer.cpp})

    A wrapper around clang's raw lexer that keeps one token of lookahead and switches
    the raw lexer into header-name mode after [#include].  The raw lexer is the class
    [RawLexer]; what the loops need of it, that it consumes its input, is the class
    [RawLexerOk].  Token kinds are the names of clang's enumeration. *)
From S2P Require Import Prelude Text IndexData.
Local Open Scope Z_scope.
Local Open Scope cpp_scope.

Abbreviation TokenKind := string.

Record Token := mkToken {
  is_at_start_of_line : bool;
  is_pp_keyword : bool;
  kind : TokenKind;
  range : Range;
}.

(** A default-constructed token. *)
Definition no_token : Token := mkToken false false "unknown" (mkRange (two32 - 1) (two32 - 1)).

(** [StringRef::substr] stops at the end of the text. *)
Definition substr (content : bytes) (start n : Z) : bytes :=
  take (Z.to_nat n) (drop (Z.to_nat start) content).

Definition text (t : Token) (content : bytes) : bytes :=
  substr content (range_begin (range t)) (u32 (range_end (range t) - range_begin (range t))).

Definition has_kind (k : TokenKind) (t : Token) : bool := bool_decide (kind t = k).
Definition is_eod (t : Token) : bool := has_kind "eod" t.
Definition is_eof (t : Token) : bool := has_kind "eof" t.
Definition is_identifier (t : Token) : bool := has_kind "raw_identifier" t.
Definition is_directive_hash (t : Token) : bool := is_at_start_of_line t && has_kind "hash" t.
Definition is_header_name (t : Token) : bool := has_kind "header_name" t.

(** ** The raw lexer *)

Record RawToken := mkRawToken {
  raw_kind : TokenKind;
  raw_start_of_line : bool;
  raw_offset : Z;
  raw_length : Z;
}.

Class RawLexer := {
  RawState : Type;
  (** a lexer at the start of a text, keeping comments or not *)
  raw_lexer : bytes → bool → RawState;
  LexFromRawLexer : RawState → RawToken * RawState;
  LexIncludeFilename : RawState → RawToken * RawState;
  setParsingPreprocessorDirective : bool → RawState → RawState;
}.

(** ** The lexer *)

Section lexer.
Context `{RawLexer}.

Record Lexer := mkLexer {
  content : bytes;
  parse_pp_keyword : bool;
  parse_header_name : bool;
  module_declaration_context : bool;
  last_token : Token;
  current_token : Token;
  next_token : option Token;
  raw : RawState;
}.

Definition new_lexer (content : bytes) (ignore_comments : bool) : Lexer :=
  mkLexer content false false true no_token no_token None (raw_lexer content (negb ignore_comments)).

(** Sets the three mode flags and the raw lexer. *)
Definition with_mode (pp header modules : bool) (r : RawState) (l : Lexer) : Lexer :=
  mkLexer (content l) pp header modules (last_token l) (current_token l) (next_token l) r.

Definition raw_range (r : RawToken) : Range :=
  let offset := u32 (raw_offset r) in mkRange offset (u32 (offset + raw_length r)).

Definition lex (l : Lexer) : Token * Lexer :=
  let '(r, s) := if parse_header_name l then LexIncludeFilename (raw l) else LexFromRawLexer (raw l) in
  let token := mkToken (raw_start_of_line r) (parse_pp_keyword l) (raw_kind r) (raw_range r) in
  if is_at_start_of_line token then
    if has_kind "hash" token
       || (module_declaration_context l && bool_decide (text token (content l) = str "export")) then
      (token, with_mode true false (module_declaration_context l)
                (setParsingPreprocessorDirective true s) l)
    else if module_declaration_context l && bool_decide (text token (content l) = str "module") then
      (mkToken true true (kind token) (range token),
       with_mode (parse_pp_keyword l) false true (setParsingPreprocessorDirective true s) l)
    else (token, with_mode (parse_pp_keyword l) false false s l)
  else if parse_pp_keyword l then
    let kw := text token (content l) in
    (token, with_mode false
       (bool_decide (kw = str "include") || bool_decide (kw = str "include_next")
        || bool_decide (kw = str "embed")) (module_declaration_context l) s l)
  else (token, with_mode (parse_pp_keyword l) (parse_header_name l) (module_declaration_context l) s l).

Definition with_next (t : option Token) (l : Lexer) : Lexer :=
  mkLexer (content l) (parse_pp_keyword l) (parse_header_name l) (module_declaration_context l)
    (last_token l) (current_token l) t (raw l).

Definition with_current (t : Token) (l : Lexer) : Lexer :=
  mkLexer (content l) (parse_pp_keyword l) (parse_header_name l) (module_declaration_context l)
    (current_token l) t None (raw l).

Definition last (l : Lexer) : Token := last_token l.

Definition next (l : Lexer) : Token * Lexer :=
  match next_token l with
  | Some t => (t, l)
  | None => let '(t, l) := lex l in (t, with_next (Some t) l)
  end.

Definition advance (l : Lexer) : Token * Lexer :=
  match next_token l with
  | Some t => (t, with_current t l)
  | None => let '(t, l) := lex l in (t, with_current t l)
  end.

Definition advance_if (callback : Token → bool) (l : Lexer) : option Token * Lexer :=
  let '(t, l) := next l in
  if callback t then let '(t, l) := advance l in (Some t, l) else (None, l).

Definition advance_if_spelling (spelling : bytes) (l : Lexer) : option Token * Lexer :=
  advance_if (λ t, is_identifier t && bool_decide (text t (content l) = spelling)) l.

Definition advance_if_kind (k : TokenKind) (l : Lexer) : option Token * Lexer :=
  advance_if (has_kind k) l.

(** [None] when the fuel does not suffice. *)
Fixpoint advance_until (fuel : nat) (k : TokenKind) (l : Lexer) : option (Token * Lexer) :=
  match fuel with
  | O => None
  | S fuel =>
    let '(t, l) := advance l in
    if has_kind k t || is_eof t then Some (t, l) else advance_until fuel k l
  end.

Definition set_header_name_mode (l : Lexer) : Lexer :=
  mkLexer (content l) (parse_pp_keyword l) true (module_declaration_context l)
    (last_token l) (current_token l) (next_token l) (raw l).

(** ** The argument of a directive *)

Definition is_has_keyword (w : bytes) : bool :=
  bool_decide (w ∈ [str "__has_include"; str "__has_include_next"; str "__has_embed"]).
Definition is_include_keyword (w : bytes) : bool :=
  bool_decide (w ∈ [str "include"; str "include_next"; str "embed"]).

Inductive Found := OutOfFuel | NotFound | FoundRange (r : Range).

(** The loop of [find_directive_argument] over the tokens of [line]. *)
Fixpoint argument_loop (fuel : nat) (line : bytes) (line_start offset : Z) (after_has_keyword ready : bool)
    (l : Lexer) : Found :=
  match fuel with
  | O => OutOfFuel
  | S fuel =>
    let '(tok, l) := advance l in
    if is_eof tok || is_eod tok then NotFound
    else
      let abs_begin := u32 (line_start + range_begin (range tok)) in
      let abs_end := u32 (line_start + range_end (range tok)) in
      if is_identifier tok && is_has_keyword (text tok line) then
        argument_loop fuel line line_start offset true ready l
      else if is_identifier tok && is_include_keyword (text tok line) then
        argument_loop fuel line line_start offset after_has_keyword true l
      else if has_kind "l_paren" tok && after_has_keyword then
        argument_loop fuel line line_start offset false true (set_header_name_mode l)
      else if (abs_begin <? offset) || negb ready then
        argument_loop fuel line line_start offset after_has_keyword ready l
      else if is_header_name tok || has_kind "string_literal" tok || is_identifier tok then
        FoundRange (mkRange abs_begin abs_end)
      else argument_loop fuel line line_start offset after_has_keyword ready l
  end.

(** [rfind s c from] is [StringRef::rfind] of LLVM. *)
Definition find_directive_argument (fuel : nat) (rfind : bytes → ascii → nat → option nat)
    (content : bytes) (offset : Z) : Found :=
  let line_start := match rfind content newline (Z.to_nat offset) with
                    | Some nl => u32 (Z.of_nat nl + 1)
                    | None => 0
                    end in
  let line := drop (Z.to_nat line_start) content in
  argument_loop fuel line line_start offset false false (new_lexer line true).
End lexer.

(** ** Termination *)

(** The raw lexer consumes its input: a token other than the end of the file takes at
    least one step, one with text at least two, entering a directive gives one back for
    the end-of-directive token. *)
Class RawLexerOk `{RawLexer} := {
  remaining : RawState → nat;
  lex_consumes s r s' : LexFromRawLexer s = (r, s') ∨ LexIncludeFilename s = (r, s') →
    raw_kind r ≠ "eof"%string → (remaining s' + (if (0 <? raw_length r)%Z then 2 else 1) ≤ remaining s)%nat;
  directive_end b s : (remaining (setParsingPreprocessorDirective b s) ≤ S (remaining s))%nat;
  eof_keeps s r s' : LexFromRawLexer s = (r, s') ∨ LexIncludeFilename s = (r, s') →
    raw_kind r = "eof"%string → raw_length r = 0 ∧ (remaining s' ≤ remaining s)%nat;
  hash_width s r s' : LexFromRawLexer s = (r, s') ∨ LexIncludeFilename s = (r, s') →
    0 ≤ raw_length r ∧ (raw_kind r = "hash"%string → 0 < raw_length r);
}.

Section progress.
Context `{RawLexerOk}.

Definition pending_work (l : Lexer) : nat :=
  remaining (raw l) + match next_token l with Some _ => 1 | None => 0 end.

Lemma text_needs_width r b p (c w : bytes) :
  0 ≤ raw_length r → w ≠ [] → text (mkToken b p (raw_kind r) (raw_range r)) c = w → 0 < raw_length r.
Proof.
  intros Hl Hw Ht. destruct (decide (raw_length r = 0)) as [E|]; [|lia]. exfalso. apply Hw. rewrite <- Ht.
  unfold text, raw_range, substr. cbn [range range_begin range_end]. rewrite E, Z.add_0_r.
  unfold u32. rewrite Zmod_mod, Z.sub_diag. done.
Qed.

Lemma lex_progress l t l' :
  lex l = (t, l') → is_eof t = false →
  (remaining (raw l') < remaining (raw l))%nat ∧ next_token l' = next_token l.
Proof.
  unfold lex, is_eof, has_kind. intros Hl Ht.
  destruct (if parse_header_name l then _ else _) as [r s] eqn:Hr.
  assert (LexFromRawLexer (raw l) = (r, s) ∨ LexIncludeFilename (raw l) = (r, s)) as Hraw
    by (destruct (parse_header_name l); auto).
  destruct (hash_width _ _ _ Hraw) as [Hnn Hhash].
  assert (raw_kind r ≠ "eof"%string) as Hne.
  { intros E. rewrite bool_decide_eq_false in Ht. apply Ht. rewrite <- E. clear Ht.
    repeat (case_match; simplify_eq/=); done. }
  pose proof (lex_consumes _ _ _ Hraw Hne) as Hc. pose proof (directive_end true s) as Hd.
  assert (0 < raw_length r → (remaining s + 2 ≤ remaining (raw l))%nat) as Hc2.
  { intros Hp. apply Z.ltb_lt in Hp. by rewrite Hp in Hc. }
  assert (remaining s < remaining (raw l))%nat by (destruct (0 <? raw_length r); lia).
  cbn [is_at_start_of_line] in Hl. destruct (raw_start_of_line r); [|destruct (parse_pp_keyword l); simplify_eq/=; (split; [lia|done])].
  match type of Hl with (if ?b then _ else if ?c then _ else _) = _ =>
    destruct b eqn:E1; [|destruct c eqn:E2] end; simplify_eq/=; try (split; [lia|done]).
  - assert (0 < raw_length r); [|split; [lia|done]].
    apply orb_true_iff in E1 as [E1|E1].
    + apply Hhash. by apply bool_decide_eq_true in E1.
    + apply andb_true_iff in E1 as [_ E1%bool_decide_eq_true]. eapply text_needs_width; [done| |exact E1]; done.
  - assert (0 < raw_length r); [|split; [lia|done]].
    apply andb_true_iff in E2 as [_ E2%bool_decide_eq_true]. eapply text_needs_width; [done| |exact E2]; done.
Qed.

Lemma advance_progress l t l' :
  advance l = (t, l') → is_eof t = false → (pending_work l' < pending_work l)%nat ∧ next_token l' = None.
Proof.
  unfold advance, pending_work. intros Ha He. destruct (next_token l) as [t0|] eqn:En.
  - simplify_eq/=. split; [lia|done].
  - destruct (lex l) as [t1 l1] eqn:El. simplify_eq/=. apply lex_progress in El as [? _]; [|done].
    split; [lia|done].
Qed.

(** The tokens [advance] returns. *)
Fixpoint advances (n : nat) (l : Lexer) : list Token * Lexer :=
  match n with
  | O => ([], l)
  | S n => let '(t, l) := advance l in let '(ts, l) := advances n l in (t :: ts, l)
  end.

(** [advance_until] returns: it stops at the first token of the wanted kind, or at
    the end of the file when there is none. *)
Lemma advance_until_stops_first (k : TokenKind) (l : Lexer) (fuel : nat) :
  (pending_work l < fuel)%nat →
  ∃ skipped t l', advances (S (length skipped)) l = (skipped ++ [t], l') ∧
    advance_until fuel k l = Some (t, l') ∧ (kind t = k ∨ is_eof t) ∧
    Forall (λ s, kind s ≠ k ∧ ¬ is_eof s) skipped.
Proof.
  revert l. induction fuel as [|fuel IH]; intros l Hf; [lia|]. cbn [advance_until].
  destruct (advance l) as [t l1] eqn:Ea. destruct (has_kind k t || is_eof t) eqn:Et.
  - exists [], t, l1. cbn. rewrite Ea. split_and!; [done..| |constructor].
    apply orb_true_iff in Et as [Et|Et]; [left; by apply bool_decide_eq_true in Et|right; by apply Is_true_true].
  - apply orb_false_iff in Et as [E1 E2]. destruct (advance_progress _ _ _ Ea E2) as [Hp _].
    destruct (IH l1) as (sk & t' & l' & Hadv & Hun & Hk & Hall); [lia|].
    exists (t :: sk), t', l'. split_and!; [|done|done|].
    + change (length (t :: sk)) with (S (length sk)). cbn [advances]. rewrite Ea.
      change (advances (S (length sk)) l1) with
        (let '(t0, l0) := advance l1 in let '(ts, l2) := advances (length sk) l0 in (t0 :: ts, l2)) in Hadv.
      by rewrite Hadv.
    + constructor; [|done]. split; [by apply bool_decide_eq_false in E1|]. rewrite E2. by intros [].
Qed.

Lemma lex_eof l t l' :
  lex l = (t, l') → is_eof t = true →
  (remaining (raw l') ≤ remaining (raw l))%nat ∧ next_token l' = next_token l.
Proof.
  unfold lex, is_eof, has_kind. intros Hl Ht%bool_decide_eq_true.
  destruct (if parse_header_name l then _ else _) as [r s] eqn:Hr.
  assert (LexFromRawLexer (raw l) = (r, s) ∨ LexIncludeFilename (raw l) = (r, s)) as Hraw
    by (destruct (parse_header_name l); auto).
  assert (raw_kind r = "eof"%string) as Hk by (rewrite <- Ht; clear Ht; repeat (case_match; simplify_eq/=); done).
  destruct (eof_keeps _ _ _ Hraw Hk) as [Hz Hle].
  assert (∀ w b p, w ≠ [] → bool_decide (text (mkToken b p (raw_kind r) (raw_range r)) (content l) = w) = false) as Htext.
  { intros w b p Hw. apply bool_decide_eq_false. intros E. apply text_needs_width in E; [|lia|done]. lia. }
  cbn [is_at_start_of_line kind] in Hl. rewrite !Htext in Hl by done. rewrite Hk in Hl.
  rewrite bool_decide_eq_false_2 in Hl by done. rewrite !andb_false_r in Hl. cbn [orb] in Hl.
  destruct (raw_start_of_line r); [by simplify_eq/=|]. by destruct (parse_pp_keyword l); simplify_eq/=.
Qed.

Lemma advance_work l t l' : advance l = (t, l') → (pending_work l' ≤ pending_work l)%nat.
Proof.
  intros Ha. destruct (is_eof t) eqn:He; [|by apply advance_progress in Ha as [? _]; [lia|]].
  unfold advance, pending_work in *. destruct (next_token l) as [t0|] eqn:En; [simplify_eq/=; lia|].
  destruct (lex l) as [t1 l1] eqn:El. simplify_eq/=. apply lex_eof in El as [? _]; [lia|done].
Qed.

Lemma advances_work n l ts l' : advances n l = (ts, l') → (pending_work l' ≤ pending_work l)%nat.
Proof.
  revert l ts. induction n as [|n IH]; intros l ts Ha; cbn in Ha; [by simplify_eq|].
  destruct (advance l) as [t l1] eqn:E1. destruct (advances n l1) as [ts1 l2] eqn:E2. simplify_eq.
  apply IH in E2. apply advance_work in E1. lia.
Qed.

Lemma set_header_mode_work l : pending_work (set_header_name_mode l) = pending_work l.
Proof. done. Qed.

(** The search for the argument ends, and what it finds is a name or a string at or
    after the offset. *)
Lemma argument_loop_ends fuel line line_start offset b1 b2 l :
  (pending_work l < fuel)%nat →
  match argument_loop fuel line line_start offset b1 b2 l with
  | OutOfFuel => False
  | NotFound => True
  | FoundRange r => offset ≤ range_begin r
  end.
Proof.
  revert b1 b2 l. induction fuel as [|fuel IH]; intros b1 b2 l Hf; [lia|]. cbn [argument_loop].
  destruct (advance l) as [t l1] eqn:Ea. destruct (is_eof t) eqn:Ee; [done|]. cbn [orb].
  destruct (advance_progress _ _ _ Ea Ee) as [Hp _].
  destruct (is_eod t); [done|].
  destruct (is_identifier t && is_has_keyword (text t line)); [apply IH; lia|].
  destruct (is_identifier t && is_include_keyword (text t line)); [apply IH; lia|].
  destruct (has_kind "l_paren" t && b1); [apply IH; rewrite set_header_mode_work; lia|].
  destruct (_ <? offset) eqn:Eo; [apply IH; lia|]. cbn [orb].
  destruct (negb b2); [apply IH; lia|].
  destruct (_ || _); [|apply IH; lia]. cbn [range_begin]. apply Z.ltb_ge in Eo. lia.
Qed.
End progress.

(** ** Lookahead *)

Section lookahead.
Context `{RawLexer}.

Inductive Op := Next | Advance.

(** The tokens the operations return, with the operation that returned each. *)
Fixpoint run (ops : list Op) (l : Lexer) : list (Op * Token) :=
  match ops with
  | [] => []
  | Next :: ops => let '(t, l) := next l in (Next, t) :: run ops l
  | Advance :: ops => let '(t, l) := advance l in (Advance, t) :: run ops l
  end.

(** [next] does not change what [advance] does. *)
Lemma advance_next l : advance (next l).2 = advance l.
Proof.
  unfold next, advance. destruct (next_token l) as [t|] eqn:E; cbn; [by rewrite E|].
  destruct (lex l) as [t l'] eqn:El. cbn. unfold with_current, with_next. cbn. done.
Qed.

Lemma next_advance l : (next l).1 = (advance l).1.
Proof. unfold next, advance. destruct (next_token l); [done|]. by destruct (lex l). Qed.

Lemma next_next l : next (next l).2 = next l.
Proof.
  unfold next. destruct (next_token l) as [t|] eqn:E; cbn; [by rewrite E|].
  by destruct (lex l) as [t l'].
Qed.

(** Only [Advance] counts; a [Next] shows the token the following [Advance] returns. *)
Fixpoint plain_run (ops : list Op) (l : Lexer) : list (Op * Token) :=
  match ops with
  | [] => []
  | Next :: ops => (Next, (advance l).1) :: plain_run ops l
  | Advance :: ops => (Advance, (advance l).1) :: plain_run ops (advance l).2
  end.

Lemma plain_run_same ops l l' : advance l = advance l' → plain_run ops l = plain_run ops l'.
Proof.
  revert l l'. induction ops as [|[] ops IH]; intros l l' E; cbn; [done| |].
  - rewrite E. f_equal. by apply IH.
  - by rewrite E.
Qed.

(** Lookahead is invisible: however [next] and [advance] are mixed, [advance]
    returns the tokens it would return without any [next], and every [next] shows the
    token the following [advance] returns. *)
Theorem lookahead_is_invisible (ops : list Op) (l : Lexer) : run ops l = plain_run ops l.
Proof.
  revert l. induction ops as [|[] ops IH]; intros l; cbn; [done| |].
  - rewrite <- next_advance. destruct (next l) as [t l'] eqn:E. cbn. f_equal. rewrite IH.
    apply plain_run_same. pose proof (advance_next l) as Ha. by rewrite E in Ha.
  - destruct (advance l) as [t l'] eqn:E. cbn. f_equal. apply IH.
Qed.

(** A token that does not match is left for the next call. *)
Lemma advance_if_keeps callback l l' :
  advance_if callback l = (None, l') → advance l' = advance l ∧ callback (advance l).1 = false.
Proof.
  unfold advance_if. pose proof (advance_next l) as Hn. pose proof (next_advance l) as H1.
  destruct (next l) as [t l1]. cbn in Hn, H1. destruct (callback t) eqn:E; [by destruct (advance l1)|].
  intros [= <-]. split; [done|]. by rewrite <- H1.
Qed.
End lookahead.
