(* ===== verification/SemanticTokens.v ===== *)
(** * Semantic tokens (src/feature/semantic_tokens.cpp, src/feature/feature.h)

    The tokens of a file are collected from the lexer and from the syntax tree, sorted
    and merged, and sent as differences of positions.  The visitor of the syntax tree is
    outside of the model: [merge_tokens] takes what it collected.  [LineMap] and
    [encoded_length] of the LSP library and clang's keyword table are parameters. *)
From S2P Require Import Prelude Text IndexData Lexer.
From stdpp Require Import sorting.
Local Open Scope Z_scope.
Local Open Scope cpp_scope.

(** ** Kinds (src/semantic/symbol_kind.h) *)

Definition Comment : Z := 0.
Definition Number : Z := 1.
Definition Character : Z := 2.
Definition String_ : Z := 3.
Definition Keyword : Z := 4.
Definition Directive : Z := 5.
Definition Header : Z := 6.
Definition Module_ : Z := 7.
Definition Macro : Z := 8.
Definition Conflict : Z := 30.

Record SemanticToken := mkSemanticToken {
  token_range : Range;
  token_kind : Z;
  modifiers : Z;
}.

Global Instance SemanticToken_eq_dec : EqDecision SemanticToken.
Proof. solve_decision. Defined.

(** ** Lexical tokens *)

Definition char_constants : list TokenKind :=
  ["char_constant"; "wide_char_constant"; "utf8_char_constant"; "utf16_char_constant";
   "utf32_char_constant"]%string.
Definition string_literals : list TokenKind :=
  ["string_literal"; "wide_string_literal"; "utf8_string_literal"; "utf16_string_literal";
   "utf32_string_literal"]%string.

Definition lexical_kind (isKeyword : bytes → bool) (content : bytes) (previous token : Token) : Z :=
  if is_directive_hash token || is_pp_keyword token then Directive
  else if has_kind "comment" token then Comment
  else if has_kind "numeric_constant" token then Number
  else if bool_decide (kind token ∈ char_constants) then Character
  else if bool_decide (kind token ∈ string_literals) then String_
  else if is_header_name token then Header
  else if is_identifier token then
    if is_pp_keyword previous && bool_decide (text previous content = str "define") then Macro
    else if isKeyword (text token content) then Keyword
    else invalid_kind
  else invalid_kind.

(** [add_token] for a token of the main file. *)
Definition add_lexical (range : Range) (k m : Z) (tokens : list SemanticToken) : list SemanticToken :=
  if k =? invalid_kind then tokens else tokens ++ [mkSemanticToken range k m].

Section lexical.
Context `{RawLexer}.

(** The loop of [highlight_lexical]; [None] when the fuel does not suffice. *)
Fixpoint highlight_loop (fuel : nat) (isKeyword : bytes → bool) (content : bytes) (l : Lexer)
    (tokens : list SemanticToken) : option (list SemanticToken) :=
  match fuel with
  | O => None
  | S fuel =>
    let '(token, l) := advance l in
    if is_eof token then Some tokens
    else highlight_loop fuel isKeyword content l
           (add_lexical (range token) (lexical_kind isKeyword content (Lexer.last l) token) 0 tokens)
  end.

Definition highlight_lexical (fuel : nat) (isKeyword : bytes → bool) (content : bytes)
    (tokens : list SemanticToken) : option (list SemanticToken) :=
  highlight_loop fuel isKeyword content (new_lexer content false) tokens.

(** The name of a named module, from its location [offset] on. *)
Definition shifted (offset : Z) (r : Range) : Range :=
  mkRange (u32 (offset + range_begin r)) (u32 (offset + range_end r)).

Fixpoint module_name_loop (fuel : nat) (offset : Z) (l : Lexer) (tokens : list SemanticToken) :
    option (list SemanticToken) :=
  match fuel with
  | O => None
  | S fuel =>
    let '(token, l) := advance l in
    if is_eof token || has_kind "semi" token then Some tokens
    else module_name_loop fuel offset l
           (if is_identifier token
            then tokens ++ [mkSemanticToken (shifted offset (range token)) Module_ 0] else tokens)
  end.

(** [highlight_modules] when the unit is a named module declared in the main file. *)
Definition highlight_module_name (fuel : nat) (content : bytes) (offset : Z) (tokens : list SemanticToken) :
    option (list SemanticToken) :=
  let l := new_lexer (drop (Z.to_nat offset) content) false in
  let '(module_token, l) := advance l in
  module_name_loop fuel offset l
    (if is_identifier module_token
     then tokens ++ [mkSemanticToken (shifted offset (range module_token)) Keyword 0] else tokens).
End lexical.

(** ** Merging *)

Definition with_kind (k : Z) (t : SemanticToken) : SemanticToken :=
  mkSemanticToken (token_range t) k (modifiers t).

Definition resolve_conflict (last current : SemanticToken) : SemanticToken :=
  if token_kind last =? Conflict then last
  else if token_kind last =? Directive then current
  else if token_kind current =? Directive then last
  else with_kind Conflict last.

(** One iteration of [merge_tokens]; [merged] is a vector whose back is changed. *)
Definition merge_step (merged : list SemanticToken) (token : SemanticToken) : list SemanticToken :=
  match last merged with
  | None => [token]
  | Some back =>
    let front := take (length merged - 1) merged in
    if decide (token_range back = token_range token) then front ++ [resolve_conflict back token]
    else if (range_end (token_range back) =? range_begin (token_range token))
            && (token_kind back =? token_kind token) then
      front ++ [mkSemanticToken (mkRange (range_begin (token_range back)) (range_end (token_range token)))
                  (token_kind back) (modifiers back)]
    else merged ++ [token]
  end.

Definition merge_tokens (sort : list SemanticToken → list SemanticToken) (tokens : list SemanticToken) :
    list SemanticToken :=
  foldl merge_step [] (sort tokens).

(** The order of the sort. *)
Definition range_lt (a b : Range) : Prop :=
  range_begin a < range_begin b ∨ range_begin a = range_begin b ∧ range_end a < range_end b.

(** ** Encoding *)

Section encoder.
Context (to_position : Z → option (Z * Z)) (encoded_length : bytes → Z).

Record Encoder := mkEncoder {
  output : list Z;
  last_line : Z;
  last_start_character : Z;
}.

Definition new_encoder : Encoder := mkEncoder [] 0 0.

Definition emit_relative (delta_line delta_start token_length kind modifiers : Z) (out : list Z) : list Z :=
  if token_length =? 0 then out
  else out ++ [delta_line; delta_start; token_length; kind; modifiers].

Definition delta_start_of (e : Encoder) (begin_line begin_char : Z) : Z :=
  if u32 (begin_line - last_line e) =? 0 then u32 (begin_char - last_start_character e) else begin_char.

(** The loop over the characters of a token on several lines: [piece] is the text since
    the last line break, [first] whether no line break was seen. *)
Fixpoint emit_pieces (chunk piece : bytes) (first : option (Z * Z)) (t : SemanticToken) (out : list Z) :
    list Z :=
  let '(delta_line, delta_start) := default (1, 0) first in
  match chunk with
  | [] =>
    match piece with
    | [] => out
    | _ => emit_relative 1 0 (encoded_length piece) (token_kind t) (modifiers t) out
    end
  | c :: chunk =>
    let piece := piece ++ [c] in
    if decide (c = newline) then
      emit_pieces chunk [] None t
        (emit_relative delta_line delta_start (encoded_length piece) (token_kind t) (modifiers t) out)
    else emit_pieces chunk piece first t out
  end.

(** An invalid or empty token is skipped; [*map.to_position(o)] of an offset that is not
    in the text is undefined. *)
Definition append (content : bytes) (t : SemanticToken) (e : Encoder) : Res () Encoder :=
  let b := range_begin (token_range t) in
  let en := range_end (token_range t) in
  if bool_decide (b = two32 - 1) || bool_decide (en = two32 - 1) || (en <=? b)
     || (Z.of_nat (length content) <? en) then Ok e
  else
    let? bp := read (to_position b) in
    let? ep := read (to_position en) in
    let '(begin_line, begin_char) := bp in
    let '(end_line, end_char) := ep in
    let delta_line := u32 (begin_line - last_line e) in
    let delta_start := delta_start_of e begin_line begin_char in
    let out :=
      if begin_line =? end_line then
        emit_relative delta_line delta_start (u32 (end_char - begin_char)) (token_kind t) (modifiers t)
          (output e)
      else emit_pieces (substr content b (en - b)) [] (Some (delta_line, delta_start)) t (output e) in
    Ok (mkEncoder out end_line begin_char).

Definition encode (content : bytes) (tokens : list SemanticToken) : Res () (list Z) :=
  let? e := for_each tokens (append content) new_encoder in
  Ok (output e).
End encoder.

(** [semantic_tokens] with an encoding, from the collected tokens. *)
Definition semantic_tokens (to_position : Z → option (Z * Z)) (encoded_length : bytes → Z)
    (sort : list SemanticToken → list SemanticToken) (content : bytes) (collected : list SemanticToken) :
    Res () (list Z) :=
  encode to_position encoded_length content (merge_tokens sort collected).
