(* ===== verification/SemanticTheorems.v ===== *)
(** * What the semantic tokens show *)
From S2P Require Import Prelude Text IndexData Lexer SemanticTokens.
From stdpp Require Import sorting.
Local Open Scope Z_scope.
Local Open Scope cpp_scope.

(** ** Merging *)

Definition covers (ts : list SemanticToken) (o : Z) : Prop :=
  ∃ t, t ∈ ts ∧ range_begin (token_range t) ≤ o < range_end (token_range t).

Definition range_le (a b : Range) : Prop := a = b ∨ range_lt a b.

Global Instance range_lt_trans : Transitive range_lt.
Proof. unfold range_lt. intros ????? . lia. Qed.

Lemma range_lt_irrefl r : ¬ range_lt r r.
Proof. unfold range_lt. lia. Qed.

(** The kind of a range on which tokens of these kinds lie: a directive gives way, and
    two other tokens are a conflict. *)
Definition combine (ks : list Z) : Z :=
  match filter (λ k, k ≠ Directive) ks with
  | [] => Directive
  | [k] => k
  | _ => Conflict
  end.

Lemma combine_elem ks : ks ≠ [] → combine ks ≠ Conflict → combine ks ∈ ks.
Proof.
  unfold combine. intros Hne Hc. destruct (filter _ ks) as [|k [|k' l]] eqn:E; [| |done].
  - destruct ks as [|k ks]; [done|]. rewrite filter_cons in E. case_decide; [done|].
    subst. left.
  - assert (k ∈ filter (λ k, k ≠ Directive) ks) as Hk by (rewrite E; left).
    by apply list_elem_of_filter in Hk as [_ ?].
Qed.

Lemma combine_snoc ks back t :
  ks ≠ [] → Conflict ∉ ks → token_kind back = combine ks → 
  token_kind (resolve_conflict back t) = combine (ks ++ [token_kind t]).
Proof.
  intros Hne Hnc Hb. unfold resolve_conflict, combine in *. rewrite filter_app.
  assert (∀ k l, filter (λ k, k ≠ Directive) ks = k :: l → k ≠ Directive ∧ k ≠ Conflict) as Hks.
  { intros k l E. assert (k ∈ filter (λ k, k ≠ Directive) ks) as Hk by (rewrite E; left).
    apply list_elem_of_filter in Hk as [? ?]. split; [done|]. by intros ->. }
  destruct (filter _ ks) as [|k [|k' l]] eqn:E; rewrite Hb.
  - cbn [app]. rewrite Z.eqb_refl. change (Directive =? Conflict) with false. cbv iota.
    rewrite filter_cons, filter_nil. case_decide; congruence.
  - destruct (Hks _ _ eq_refl) as [Hk1 Hk2]. apply Z.eqb_neq in Hk1, Hk2. rewrite Hk1, Hk2.
    rewrite filter_cons, filter_nil. destruct (token_kind t =? Directive) eqn:Ed.
    + rewrite decide_False by (apply Z.eqb_eq in Ed; auto). by rewrite Hb.
    + rewrite decide_True by (by apply Z.eqb_neq). done.
  - rewrite Z.eqb_refl. by rewrite Hb.
Qed.

Lemma resolve_conflict_range back t :
  token_range back = token_range t → token_range (resolve_conflict back t) = token_range t.
Proof. intros E. unfold resolve_conflict. repeat case_match; done. Qed.

Lemma merge_step_snoc merged back t :
  merge_step (merged ++ [back]) t =
  if decide (token_range back = token_range t) then merged ++ [resolve_conflict back t]
  else if (range_end (token_range back) =? range_begin (token_range t))
            && (token_kind back =? token_kind t) then
      merged ++ [mkSemanticToken (mkRange (range_begin (token_range back)) (range_end (token_range t)))
                  (token_kind back) (modifiers back)]
  else (merged ++ [back]) ++ [t].
Proof.
  unfold merge_step. rewrite last_snoc, length_app. cbn [length].
  by rewrite Nat.add_sub, take_app_length.
Qed.

(** Kinds of the tokens on one range. *)
Definition kinds_on (r : Range) (ts : list SemanticToken) : list Z :=
  token_kind <$> filter (λ t, token_range t = r) ts.

Lemma kinds_on_snoc r ts t :
  kinds_on r (ts ++ [t]) = kinds_on r ts ++ (if decide (token_range t = r) then [token_kind t] else []).
Proof.
  unfold kinds_on. rewrite filter_app, fmap_app, filter_cons, filter_nil. by case_decide.
Qed.

Lemma kinds_on_nil r ts : kinds_on r ts = [] ↔ r ∉ token_range <$> ts.
Proof.
  unfold kinds_on. split.
  - intros E [t [-> Ht]]%list_elem_of_fmap. apply fmap_nil_inv in E.
    assert (t ∈ filter (λ u, token_range u = token_range t) ts) as Hin by (by apply list_elem_of_filter).
    rewrite E in Hin. by apply elem_of_nil in Hin.
  - intros Hn. destruct (filter _ ts) as [|t l] eqn:E; [done|]. exfalso. apply Hn.
    assert (t ∈ filter (λ u, token_range u = r) ts) as Hin by (rewrite E; left).
    apply list_elem_of_filter in Hin as [<- Hin]. by apply list_elem_of_fmap_2.
Qed.

Lemma elem_of_kinds_on r ts k : k ∈ kinds_on r ts ↔ ∃ t, t ∈ ts ∧ token_range t = r ∧ token_kind t = k.
Proof.
  unfold kinds_on. rewrite list_elem_of_fmap. setoid_rewrite list_elem_of_filter. naive_solver.
Qed.

(** No two tokens of the same kind touch, and none is a conflict already. *)
Definition separated (ts : list SemanticToken) : Prop :=
  (∀ s t, s ∈ ts → t ∈ ts → range_end (token_range s) = range_begin (token_range t) →
     token_range s ≠ token_range t → token_kind s ≠ token_kind t) ∧
  ∀ t, t ∈ ts → token_kind t ≠ Conflict.

Record merged_upto (pre out : list SemanticToken) : Prop := {
  mu_sorted : StronglySorted range_lt (token_range <$> out);
  mu_ranges : ∀ r, r ∈ token_range <$> out ↔ r ∈ token_range <$> pre;
  mu_kinds : ∀ t, t ∈ out → token_kind t = combine (kinds_on (token_range t) pre);
}.

Lemma snoc_sorted (l : list Range) m x :
  StronglySorted range_lt (l ++ [m]) → range_lt m x → StronglySorted range_lt ((l ++ [m]) ++ [x]).
Proof.
  intros Hs Hm. apply StronglySorted_app_2; [|done|by repeat constructor].
  intros y z Hy ->%list_elem_of_singleton. apply elem_of_app in Hy as [Hy| ->%list_elem_of_singleton]; [|done].
  etransitivity; [|exact Hm]. eapply StronglySorted_app_1_elem_of; [done..|by left].
Qed.

Section merge.
Context (all : list SemanticToken) (Hsep : separated all).

Lemma merge_one pre t out :
  (∀ s, s ∈ pre ++ [t] → s ∈ all) → (∀ s, s ∈ pre → range_le (token_range s) (token_range t)) →
  merged_upto pre out → merged_upto (pre ++ [t]) (merge_step out t).
Proof.
  intros Hall Hle [Hs Hr Hk]. destruct Hsep as [Htouch Hnc].
  destruct out as [|back out _] using rev_ind.
  { assert (pre = []) as ->.
    { destruct pre as [|p pre]; [done|]. destruct (Hr (token_range p)) as [_ Hp].
      exfalso. eapply (not_elem_of_nil (token_range p)), Hp. left. }
    change (merge_step [] t) with [t]. split; [constructor; [constructor|done]|done|].
    intros s ->%list_elem_of_singleton. unfold kinds_on. cbn [app]. rewrite filter_cons, filter_nil, decide_True by done.
    unfold combine. cbn [fmap list_fmap]. rewrite filter_cons, filter_nil. case_decide; congruence. }
  rewrite merge_step_snoc. rewrite fmap_app in Hs. cbn [fmap list_fmap] in Hs.
  assert (token_range back ∈ token_range <$> pre) as Hback
    by (apply Hr; rewrite fmap_app; apply elem_of_app; right; left).
  assert (token_kind back = combine (kinds_on (token_range back) pre)) as Hbk
    by (apply Hk, elem_of_app; right; left).
  assert (kinds_on (token_range back) pre ≠ []) as Hne by (by intros E0%kinds_on_nil).
  assert (∀ r, Conflict ∉ kinds_on r pre) as Hncs.
  { intros r (s & Hin & _ & Ek)%elem_of_kinds_on. apply (Hnc s); [|done]. apply Hall, elem_of_app. by left. }
  destruct (decide (token_range back = token_range t)) as [E|E].
  - assert (∀ s, s ∈ out → token_range s ≠ token_range t) as Hother.
    { intros s Hin Es. apply (range_lt_irrefl (token_range t)). rewrite <- Es at 1. rewrite <- E.
      eapply StronglySorted_app_1_elem_of; [exact Hs|by apply list_elem_of_fmap_2|by left]. }
    split.
    + rewrite fmap_app. cbn [fmap list_fmap]. rewrite resolve_conflict_range by done. by rewrite <- E.
    + intros r. rewrite !fmap_app. cbn [fmap list_fmap]. rewrite resolve_conflict_range by done.
      rewrite !elem_of_app. rewrite <- (Hr r), fmap_app, elem_of_app. cbn [fmap list_fmap]. rewrite E.
      tauto.
    + intros s [Hin| ->%list_elem_of_singleton]%elem_of_app; rewrite kinds_on_snoc.
      * rewrite decide_False by (intros Es; by apply (Hother s)). rewrite app_nil_r.
        apply Hk, elem_of_app. by left.
      * rewrite resolve_conflict_range by done. rewrite decide_True by done.
        apply combine_snoc; rewrite <- ?E; auto.
  - destruct (_ && _) eqn:Et.
    { exfalso. apply andb_true_iff in Et as [E1%Z.eqb_eq E2%Z.eqb_eq].
      assert (token_kind t ≠ Conflict) as Htc by (apply Hnc, Hall, elem_of_app; right; left).
      assert (token_kind t ∈ kinds_on (token_range back) pre) as (s & Hin & Es & Ek)%elem_of_kinds_on.
      { rewrite <- E2, Hbk. apply combine_elem; [done|]. by rewrite <- Hbk, E2. }
      apply (Htouch s t); [apply Hall, elem_of_app; by left | apply Hall, elem_of_app; right; left | |  | done];
        congruence. }
    assert (range_lt (token_range back) (token_range t)) as Hlt.
    { apply list_elem_of_fmap in Hback as (s & Es & Hin). rewrite Es in E |- *. destruct (Hle s Hin); [done|done]. }
    assert (kinds_on (token_range t) pre = []) as Hnew.
    { apply kinds_on_nil. rewrite <- Hr, fmap_app. cbn [fmap list_fmap]. intros Hin.
      apply (range_lt_irrefl (token_range t)). apply elem_of_app in Hin as [Hin|Hin].
      - etransitivity; [|exact Hlt]. eapply StronglySorted_app_1_elem_of; [exact Hs|done|by left].
      - apply list_elem_of_singleton in Hin. by rewrite <- Hin in Hlt. }
    split.
    + rewrite !fmap_app. cbn [fmap list_fmap]. by apply snoc_sorted.
    + intros r. rewrite (fmap_app _ (out ++ [back])), (fmap_app _ pre), !elem_of_app, Hr. done.
    + intros s [Hin| ->%list_elem_of_singleton]%elem_of_app; rewrite kinds_on_snoc.
      * rewrite decide_False; [rewrite app_nil_r; by apply Hk|]. intros Es.
        apply kinds_on_nil in Hnew. apply Hnew, Hr. rewrite Es. by apply list_elem_of_fmap_2.
      * rewrite decide_True, Hnew by done. unfold combine. cbn [app]. rewrite filter_cons, filter_nil.
        case_decide; congruence.
Qed.
End merge.

Section sorted_merge.
Context (sort : list SemanticToken → list SemanticToken).
Context (sort_perm : ∀ l, sort l ≡ₚ l)
        (sort_sorted : ∀ l, StronglySorted (λ a b, range_le (token_range a) (token_range b)) (sort l)).

Lemma merge_prefix all pre post out :
  separated all → (∀ s, s ∈ pre ++ post → s ∈ all) →
  StronglySorted (λ a b, range_le (token_range a) (token_range b)) (pre ++ post) →
  merged_upto pre out → merged_upto (pre ++ post) (foldl merge_step out post).
Proof.
  intros Hsep. revert pre out. induction post as [|t post IH]; intros pre out Hall Hs Hm; [by rewrite app_nil_r|].
  cbn [foldl]. rewrite cons_middle, app_assoc in Hall, Hs |- *. apply IH; [done..|].
  eapply merge_one; [exact Hsep| | |done].
  - intros s Hin. apply Hall, elem_of_app. by left.
  - intros s Hin. apply StronglySorted_app_1_l in Hs.
    eapply (StronglySorted_app_1_elem_of (λ a b, range_le (token_range a) (token_range b))); [exact Hs|done|by left].
Qed.


(** Without that condition tokens may be joined, but the highlighted text stays the
    same. *)
Definition spans (t : SemanticToken) : Prop :=
  range_begin (token_range t) ≤ range_end (token_range t).

Lemma merge_step_covers out t o :
  Forall spans out → spans t →
  Forall spans (merge_step out t) ∧ (covers (merge_step out t) o ↔ covers (out ++ [t]) o).
Proof.
  intros Ho Ht. destruct out as [|back out _] using rev_ind.
  { change (merge_step [] t) with [t]. split; [by repeat constructor|done]. }
  rewrite merge_step_snoc. apply Forall_app in Ho as [Ho Hb]. rewrite Forall_singleton in Hb.
  assert (∀ x y z : list SemanticToken, covers (x ++ y) o ↔ covers x o ∨ covers y o) as Happ.
  { intros. unfold covers. setoid_rewrite elem_of_app. naive_solver. }
  assert (∀ u, covers [u] o ↔ range_begin (token_range u) ≤ o < range_end (token_range u)) as Hone.
  { intros. unfold covers. setoid_rewrite list_elem_of_singleton. naive_solver. }
  unfold spans in *. destruct (decide (token_range back = token_range t)) as [E|E].
  - split.
    + apply Forall_app. split; [done|]. constructor; [|constructor]. by rewrite resolve_conflict_range.
    + rewrite !Happ, !Hone by exact []. rewrite resolve_conflict_range, E by done. tauto.
  - destruct (_ && _) eqn:Et.
    + apply andb_true_iff in Et as [E1%Z.eqb_eq _]. split.
      * apply Forall_app. split; [done|]. constructor; [|constructor]. cbn. lia.
      * rewrite !Happ, !Hone by exact []. cbn. intuition lia.
    + split; [|done]. rewrite !Forall_app, !Forall_singleton. done.
Qed.

Lemma merge_keeps_text tokens o :
  Forall spans tokens → covers (merge_tokens sort tokens) o ↔ covers tokens o.
Proof.
  intros Hf. unfold merge_tokens.
  assert (∀ post out, Forall spans post → Forall spans out →
    covers (foldl merge_step out post) o ↔ covers (out ++ post) o) as Hgen.
  { induction post as [|t post IH]; intros out Hp Ho; [by rewrite app_nil_r|]. cbn [foldl].
    apply Forall_cons in Hp as [Ht Hp]. destruct (merge_step_covers out t o Ho Ht) as [Ho' Hc].
    rewrite IH by done. rewrite cons_middle, app_assoc. unfold covers in *.
    setoid_rewrite elem_of_app. setoid_rewrite elem_of_app in Hc. setoid_rewrite elem_of_app. naive_solver. }
  rewrite Hgen; [|by rewrite (sort_perm tokens)|constructor]. cbn [app]. unfold covers.
  by setoid_rewrite (sort_perm tokens).
Qed.
End sorted_merge.

(** Two tokens of the same kind on one range are a conflict too. *)
Lemma same_kind_is_a_conflict :
  merge_tokens (λ l, l) [mkSemanticToken (mkRange 0 3) Macro 0; mkSemanticToken (mkRange 0 3) Macro 2] =
  [mkSemanticToken (mkRange 0 3) Conflict 0].
Proof. reflexivity. Qed.

(** Once two touching tokens were joined, a second token on the later range is not
    recognised and the result overlaps. *)
Lemma joined_tokens_overlap :
  merge_tokens (λ l, l) [mkSemanticToken (mkRange 0 1) Directive 0; mkSemanticToken (mkRange 1 7) Directive 0;
                         mkSemanticToken (mkRange 1 7) Keyword 0] =
  [mkSemanticToken (mkRange 0 7) Directive 0; mkSemanticToken (mkRange 1 7) Keyword 0].
Proof. reflexivity. Qed.

(** ** Encoding *)

(** What a client reads: line, character, length, type and modifiers. *)
Abbreviation ClientToken := (Z * Z * Z * Z * Z)%type.

Fixpoint decode (line char : Z) (data : list Z) : list ClientToken :=
  match data with
  | dl :: ds :: len :: k :: m :: rest =>
    let line := line + dl in
    let char := if dl =? 0 then char + ds else ds in
    (line, char, len, k, m) :: decode line char rest
  | _ => []
  end.

(** The lines of a text, each with its line break. *)
Fixpoint lines_from (piece s : bytes) : list bytes :=
  match s with
  | [] => match piece with [] => [] | _ => [piece] end
  | c :: s => if decide (c = newline) then (piece ++ [c]) :: lines_from [] s else lines_from (piece ++ [c]) s
  end.

Lemma lines_concat piece s : concat (lines_from piece s) = piece ++ s.
Proof.
  revert piece. induction s as [|c s IH]; intros piece; cbn.
  - destruct piece; cbn; by rewrite ?app_nil_r.
  - case_decide; cbn [concat]; rewrite IH; by rewrite <- app_assoc.
Qed.

Section encoding.
Context (to_position : Z → option (Z * Z)) (encoded_length : bytes → Z) (content : bytes).
Abbreviation size := (Z.of_nat (length content)).

(** Positions are numbers of the protocol and grow with the offset. *)
Context (position_ok : ∀ o, 0 ≤ o ≤ size → ∃ l c, to_position o = Some (l, c) ∧ 0 ≤ l < two32 ∧ 0 ≤ c < two32).
Context (position_mono : ∀ a b la ca lb cb, a ≤ b → to_position a = Some (la, ca) →
           to_position b = Some (lb, cb) → la < lb ∨ la = lb ∧ ca ≤ cb).

Abbreviation tbegin t := (range_begin (token_range t)).
Abbreviation tend t := (range_end (token_range t)).
Abbreviation chunk t := (substr content (tbegin t) (tend t - tbegin t)).

Definition numbered (line start : Z) (t : SemanticToken) (ls : list bytes) : list ClientToken :=
  imap (λ i p, (line + Z.of_nat i, if decide (i = 0%nat) then start else 0, encoded_length p,
                token_kind t, modifiers t)) ls.

(** The tokens a client should see: one, or one per line. *)
Definition expected (t : SemanticToken) : list ClientToken :=
  match to_position (tbegin t), to_position (tend t) with
  | Some (bl, bc), Some (el, ec) =>
    if bl =? el then [(bl, bc, ec - bc, token_kind t, modifiers t)]
    else numbered bl bc t (lines_from [] (chunk t))
  | _, _ => []
  end.

(** A token inside the text.  One on several lines starts at the start of a line and has
    text on its last line, and has a line break per line. *)
Definition tidy (t : SemanticToken) : Prop :=
  0 ≤ tbegin t < tend t ∧ tend t ≤ size ∧ tend t < two32 - 1 ∧
  ∀ bl bc el ec, to_position (tbegin t) = Some (bl, bc) → to_position (tend t) = Some (el, ec) →
    if bl =? el then bc < ec
    else bc = 0 ∧ Z.of_nat (length (lines_from [] (chunk t))) = el - bl + 1 ∧
         (∃ ls, last (chunk t) = Some ls ∧ ls ≠ newline) ∧
         ∀ p, p ∈ lines_from [] (chunk t) → 0 < encoded_length p.

(** [data] moves a client from one position to another. *)
Inductive decodes : Z * Z → list Z → list ClientToken → Z * Z → Prop :=
| decodes_nil p : decodes p [] [] p
| decodes_cons line char dl ds len k m rest ts p' :
    let line' := line + dl in
    let char' := if dl =? 0 then char + ds else ds in
    decodes (line', char') rest ts p' →
    decodes (line, char) (dl :: ds :: len :: k :: m :: rest) ((line', char', len, k, m) :: ts) p'.

Lemma decodes_decode p data ts p' : decodes p data ts p' → decode p.1 p.2 data = ts.
Proof. induction 1; cbn; [done|]. by f_equal. Qed.

Lemma decodes_app p d1 t1 p' d2 t2 p'' :
  decodes p d1 t1 p' → decodes p' d2 t2 p'' → decodes p (d1 ++ d2) (t1 ++ t2) p''.
Proof. induction 1; intros; cbn; [done|]. constructor. auto. Qed.

Lemma decodes_one line char dl ds len k m line' char' :
  line' = line + dl → char' = (if dl =? 0 then char + ds else ds) →
  decodes (line, char) [dl; ds; len; k; m] [(line', char', len, k, m)] (line', char').
Proof. intros -> ->. repeat constructor. Qed.

Lemma numbered_zero t n ls :
  numbered n 0 t ls = imap (λ i p, (n + Z.of_nat i, 0, encoded_length p, token_kind t, modifiers t)) ls.
Proof. unfold numbered. apply imap_ext. intros i p _. by case_decide. Qed.

Lemma numbered_cons t n c p ls :
  numbered n c t (p :: ls) = (n, c, encoded_length p, token_kind t, modifiers t) :: numbered (n + 1) 0 t ls.
Proof.
  rewrite numbered_zero. unfold numbered. rewrite imap_cons, Z.add_0_r. f_equal.
  apply imap_ext. intros i q _. cbn. do 4 f_equal. lia.
Qed.

Lemma emit_some dl ds p t out :
  0 < encoded_length p →
  emit_relative dl ds (encoded_length p) (token_kind t) (modifiers t) out =
  out ++ [dl; ds; encoded_length p; token_kind t; modifiers t].
Proof. intros. unfold emit_relative. by rewrite (proj2 (Z.eqb_neq _ _)) by lia. Qed.

(** The pieces after the first. *)
Lemma rest_pieces t s piece line char out :
  (∀ p, p ∈ lines_from piece s → 0 < encoded_length p) →
  ∃ data, emit_pieces encoded_length s piece None t out = out ++ data ∧
    decodes (line, char) data (numbered (line + 1) 0 t (lines_from piece s))
      (line + Z.of_nat (length (lines_from piece s)), match lines_from piece s with [] => char | _ => 0 end).
Proof.
  revert piece line char out. induction s as [|c s IH]; intros piece line char out Hpos;
    cbn [emit_pieces lines_from default] in *.
  - destruct piece as [|a piece].
    + exists []. rewrite app_nil_r. cbn. rewrite Z.add_0_r. split; [done|constructor].
    + exists [1; 0; encoded_length (a :: piece); token_kind t; modifiers t].
      rewrite emit_some by (apply Hpos; left). split; [done|]. rewrite numbered_cons.
      by apply decodes_one.
  - destruct (decide (c = newline)) as [->|Hc]; [|by apply IH].
    rewrite emit_some by (apply Hpos; left).
    destruct (IH [] (line + 1) 0 (out ++ [1; 0; encoded_length (piece ++ [newline]); token_kind t; modifiers t]))
      as (data & -> & Hd); [intros p Hp; apply Hpos; by right|].
    eexists. rewrite <- app_assoc. split; [reflexivity|]. rewrite numbered_cons.
    eapply (decodes_app _ _ [_] (line + 1, 0)); [by apply decodes_one|].
    cbn [length]. replace (line + Z.of_nat (S (length (lines_from [] s))))
      with (line + 1 + Z.of_nat (length (lines_from [] s))) by lia.
    by destruct (lines_from [] s).
Qed.

(** All pieces of a token with a line break. *)
Lemma all_pieces t s piece line char dl ds line0 char0 out :
  newline ∈ s → last s ≠ Some newline → (∀ p, p ∈ lines_from piece s → 0 < encoded_length p) →
  line0 = line + dl → char0 = (if dl =? 0 then char + ds else ds) →
  ∃ data, emit_pieces encoded_length s piece (Some (dl, ds)) t out = out ++ data ∧
    decodes (line, char) data (numbered line0 char0 t (lines_from piece s))
      (line0 + Z.of_nat (length (lines_from piece s)) - 1, 0).
Proof.
  intros Hin Hlast Hpos Hl Hc. revert piece Hpos. induction s as [|c s IH]; intros piece Hpos;
    cbn [emit_pieces lines_from default from_option id] in *; [by apply elem_of_nil in Hin|].
  destruct (decide (c = newline)) as [->|Hne].
  - rewrite emit_some by (apply Hpos; left).
    destruct (rest_pieces t s [] line0 char0 (out ++ [dl; ds; encoded_length (piece ++ [newline]); token_kind t; modifiers t]))
      as (data & -> & Hd); [intros p Hp; apply Hpos; by right|].
    eexists. rewrite <- app_assoc. split; [reflexivity|]. rewrite numbered_cons.
    eapply (decodes_app _ _ [_] (line0, char0)); [by apply decodes_one|].
    assert (lines_from [] s ≠ []) as Hls.
    { intros E. pose proof (lines_concat [] s) as Hcat. rewrite E in Hcat. cbn in Hcat. by subst s. }
    cbn [length]. replace (line0 + Z.of_nat (S (length (lines_from [] s))) - 1)
      with (line0 + Z.of_nat (length (lines_from [] s))) by lia.
    by destruct (lines_from [] s).
  - apply elem_of_cons in Hin as [?|Hin]; [done|]. apply IH; [done| |done].
    rewrite last_cons in Hlast. destruct (last s) eqn:E; [done|]. by apply last_None in E as ->.
Qed.
Lemma one_line piece s : newline ∉ s → (length (lines_from piece s) ≤ 1)%nat.
Proof.
  revert piece. induction s as [|c s IH]; intros piece Hs; cbn; [by destruct piece; cbn; lia|].
  rewrite elem_of_cons in Hs. rewrite decide_False by naive_solver. apply IH. naive_solver.
Qed.

Abbreviation at_encoder e := (last_line e, last_start_character e).

Definition not_after (p : Z * Z) (o : Z) : Prop :=
  ∃ l c, to_position o = Some (l, c) ∧ 0 ≤ p.1 ∧ 0 ≤ p.2 ∧ (p.1 < l ∨ p.1 = l ∧ p.2 ≤ c).

Lemma not_after_mono p a b : 0 ≤ a ≤ b → b ≤ size → not_after p a → not_after p b.
Proof.
  intros Hab Hb (l & c & Ha & H1 & H2 & Hle).
  destruct (position_ok b) as (l' & c' & Hb' & _); [lia|]. exists l', c'.
  pose proof (position_mono _ _ _ _ _ _ (proj2 Hab) Ha Hb'). split_and!; [done..|lia].
Qed.

Lemma append_one t e :
  tidy t → not_after (at_encoder e) (tbegin t) →
  ∃ e' data, append to_position encoded_length content t e = Ok e' ∧ output e' = output e ++ data ∧
    decodes (at_encoder e) data (expected t) (at_encoder e') ∧ not_after (at_encoder e') (tend t).
Proof.
  intros (Hb & Hs & Hv & Hshape) (bl & bc & Hbp & Hl0 & Hc0 & Hle). cbn [fst snd] in Hl0, Hc0, Hle.
  destruct (position_ok (tbegin t)) as (bl' & bc' & Hbp' & Hbl & Hbc); [lia|]. simplify_eq.
  destruct (position_ok (tend t)) as (el & ec & Hep & Hel & Hec); [lia|].
  pose proof (position_mono _ _ _ _ _ _ (Z.lt_le_incl _ _ (proj2 Hb)) Hbp Hep) as Hmono.
  specialize (Hshape _ _ _ _ Hbp Hep). unfold append, expected. rewrite Hbp, Hep.
  rewrite !bool_decide_eq_false_2 by lia. rewrite (proj2 (Z.leb_gt _ _)), (proj2 (Z.ltb_ge _ _)) by lia.
  cbn [orb read Res_bind].
  assert (u32 (bl - last_line e) = bl - last_line e) as Hdl by (apply u32_small; lia).
  assert (bc = if bl - last_line e =? 0 then last_start_character e + delta_start_of e bl bc
               else delta_start_of e bl bc) as Hds.
  { unfold delta_start_of. rewrite Hdl. destruct (Z.eqb_spec (bl - last_line e) 0); [|done].
    rewrite u32_small; lia. }
  destruct (Z.eqb_spec bl el) as [<-|Hne].
  - assert (u32 (ec - bc) = ec - bc) as Hw by (apply u32_small; lia).
    eexists _, [bl - last_line e; delta_start_of e bl bc; ec - bc; token_kind t; modifiers t].
    split; [reflexivity|]. cbn [output last_line last_start_character]. split_and!.
    + unfold emit_relative. rewrite Hw, Hdl. by rewrite (proj2 (Z.eqb_neq _ _)) by lia.
    + apply decodes_one; [lia|done].
    + exists bl, ec. cbn. split_and!; [done|lia..].
  - destruct Hshape as (-> & Hlen & (lastc & Hlc & Hnl) & Hpos).
    destruct (all_pieces t (chunk t) [] (last_line e) (last_start_character e) (u32 (bl - last_line e))
      (delta_start_of e bl 0) bl 0 (output e)) as (data & Hem & Hd).
    + destruct (decide (newline ∈ chunk t)) as [|Hnn]; [done|].
      pose proof (one_line [] _ Hnn). lia.
    + rewrite Hlc. congruence.
    + done.
    + rewrite Hdl. lia.
    + rewrite Hdl. exact Hds.
    + eexists _, data. split; [reflexivity|]. cbn [output last_line last_start_character].
      split_and!; [done| |].
      * replace el with (bl + Z.of_nat (length (lines_from [] (chunk t))) - 1) by lia. exact Hd.
      * exists el, ec. cbn. split_and!; [done|lia..].
Qed.

Lemma append_all ts e :
  Forall tidy ts → StronglySorted (λ a b, tend a ≤ tbegin b) ts →
  (∀ t, t ∈ ts → not_after (at_encoder e) (tbegin t)) →
  ∃ e' data, for_each ts (append to_position encoded_length content) e = Ok e' ∧
    output e' = output e ++ data ∧ decodes (at_encoder e) data (concat (expected <$> ts)) (at_encoder e').
Proof.
  revert e. induction ts as [|t ts IH]; intros e Ht Hs Hna.
  { exists e, []. rewrite app_nil_r. split_and!; [done..|constructor]. }
  apply Forall_cons in Ht as [Ht Hts]. apply StronglySorted_cons in Hs as [Hall Hs].
  destruct (append_one t e Ht) as (e1 & d1 & Ha & Ho & Hd & Hn); [apply Hna; left|].
  destruct (IH e1 Hts Hs) as (e' & d2 & Hf & Ho' & Hd').
  { intros u Hu. rewrite Forall_forall in Hall. specialize (Hall u Hu).
    rewrite Forall_forall in Hts. destruct (Hts u Hu) as (? & ? & ? & _). destruct Ht as (? & ? & ? & _).
    eapply not_after_mono; [| |exact Hn]; lia. }
  exists e', (d1 ++ d2). cbn [for_each]. rewrite Ha. cbn [Res_bind]. split_and!; [done| |].
  - rewrite Ho', Ho. by rewrite <- app_assoc.
  - cbn [fmap list_fmap concat]. by eapply decodes_app.
Qed.

(** C23. What the client reads is what was meant.  When the merged tokens do not overlap
    and those on several lines start in the first column, the encoded numbers decode to
    the position, length, kind and modifiers of every token, one per line. *)
Theorem client_reads_the_tokens (sort : list SemanticToken → list SemanticToken)
    (collected : list SemanticToken) :
  let tokens := merge_tokens sort collected in
  Forall tidy tokens → StronglySorted (λ a b, tend a ≤ tbegin b) tokens →
  ∃ data, semantic_tokens to_position encoded_length sort content collected = Ok data ∧
    decode 0 0 data = concat (expected <$> tokens).
Proof.
  intros tokens Ht Hs. unfold semantic_tokens, encode. fold tokens.
  destruct (append_all tokens new_encoder Ht Hs) as (e & data & Hf & Ho & Hd).
  { intros t Hin. rewrite Forall_forall in Ht. destruct (Ht t Hin) as (? & ? & ? & _).
    destruct (position_ok (tbegin t)) as (l & c & Hp & ? & ?); [lia|]. exists l, c. cbn. split_and!; [done|lia..]. }
  rewrite Hf. cbn [Res_bind]. eexists. split; [reflexivity|]. rewrite Ho. cbn [new_encoder output app].
  by apply decodes_decode in Hd.
Qed.
End encoding.

(** ** An example *)

(** Positions in bytes. *)
Definition byte_position (content : bytes) (o : Z) : option (Z * Z) :=
  if (0 <=? o) && (o <=? Z.of_nat (length content)) then
    let before := take (Z.to_nat o) content in
    Some (Z.of_nat (length (filter (λ c, c = newline) before)),
          Z.of_nat (length (take_while (λ c, negb (bool_decide (c = newline))) (reverse before))))
  else None.

Definition byte_length (s : bytes) : Z := Z.of_nat (length s).

(** A token after one on several lines that does not start in the first column: the
    difference is taken from the first line's column and wraps around. *)
Lemma token_after_indented_comment :
  let content := str "    /*" ++ [newline] ++ str "*/int" in
  encode (byte_position content) byte_length content
    [mkSemanticToken (mkRange 4 9) Comment 0; mkSemanticToken (mkRange 9 12) Keyword 0] =
  Ok [0; 4; 3; Comment; 0;  1; 0; 2; Comment; 0;  0; 4294967294; 3; Keyword; 0].
Proof. vm_compute. reflexivity. Qed.

Definition by_range (a b : SemanticToken) : Prop := range_le (token_range a) (token_range b).
Global Instance by_range_dec : RelDecision by_range.
Proof. intros a b. unfold by_range, range_le, range_lt. apply _. Defined.
Global Instance by_range_total : Total by_range.
Proof.
  intros [[b1 e1] k1 m1] [[b2 e2] k2 m2]. unfold by_range, range_le, range_lt. cbn.
  destruct (decide (b1 = b2)) as [->|]; [|lia]. destruct (decide (e1 = e2)) as [->|]; [by left; left|lia].
Qed.
Global Instance by_range_trans : Transitive by_range.
Proof.
  unfold by_range. intros a b c [->|H1] [H2|H2]; [left; congruence|by right|right; by rewrite <- H2|].
  right. by etransitivity.
Qed.

Definition sort_tokens (l : list SemanticToken) : list SemanticToken := merge_sort by_range l.


Definition comment_content : bytes := str "/*" ++ [newline] ++ str "*/int".

Lemma comment_positions o l c :
  byte_position comment_content o = Some (l, c) →
  (o, l, c) ∈ [(0, 0, 0); (1, 0, 1); (2, 0, 2); (3, 1, 0); (4, 1, 1); (5, 1, 2); (6, 1, 3); (7, 1, 4); (8, 1, 5)].
Proof.
  intros Ho.
  assert (o = 0 ∨ o = 1 ∨ o = 2 ∨ o = 3 ∨ o = 4 ∨ o = 5 ∨ o = 6 ∨ o = 7 ∨ o = 8) as Hc.
  { unfold byte_position in Ho. change (Z.of_nat (length comment_content)) with 8 in Ho.
    destruct (Z.leb_spec 0 o); [|done]. destruct (Z.leb_spec o 8); [|done]. lia. }
  destruct_or! Hc; subst; vm_compute in Ho; injection Ho as <- <-; set_solver.
Qed.

(** The encoding theorem at a comment on two lines followed by a keyword. *)
Lemma client_reads_the_tokens_witness :
  ∃ data, semantic_tokens (byte_position comment_content) byte_length (λ l, l) comment_content
      [mkSemanticToken (mkRange 0 5) Comment 0; mkSemanticToken (mkRange 5 8) Keyword 0] = Ok data ∧
    decode 0 0 data = [(0, 0, 3, Comment, 0); (1, 0, 2, Comment, 0); (1, 2, 3, Keyword, 0)].
Proof.
  destruct (client_reads_the_tokens (byte_position comment_content) byte_length comment_content) with
    (sort := λ l : list SemanticToken, l)
    (collected := [mkSemanticToken (mkRange 0 5) Comment 0; mkSemanticToken (mkRange 5 8) Keyword 0])
    as (data & Hd & Hdec).
  - intros o Ho. change (Z.of_nat (length comment_content)) with 8 in Ho.
    destruct (byte_position comment_content o) as [[l c]|] eqn:E.
    + apply comment_positions in E. exists l, c. split; [done|].
      rewrite !elem_of_cons, elem_of_nil in E. unfold two32. destruct_or! E; simplify_eq; lia.
    + exfalso. unfold byte_position in E. change (Z.of_nat (length comment_content)) with 8 in E.
      destruct (Z.leb_spec 0 o); [|lia]. destruct (Z.leb_spec o 8); [done|lia].
  - intros a b la ca lb cb Hab Ha Hb. apply comment_positions in Ha. apply comment_positions in Hb.
    rewrite !elem_of_cons, elem_of_nil in Ha. rewrite !elem_of_cons, elem_of_nil in Hb.
    destruct_or! Ha; destruct_or! Hb; simplify_eq; lia.
  - change (merge_tokens _ _) with
      [mkSemanticToken (mkRange 0 5) Comment 0; mkSemanticToken (mkRange 5 8) Keyword 0].
    unfold tidy, two32. change (Z.of_nat (length comment_content)) with 8.
    constructor; [|constructor; [|constructor]]; cbn [token_range range_begin range_end];
      (split_and!; [lia..|]); intros bl bc el ec Hb He.
    + vm_compute in Hb, He. simplify_eq. cbn [Z.eqb]. split_and!; [done|vm_compute; reflexivity| |].
      * exists "/"%char. split; [vm_compute; reflexivity|done].
      * intros p Hp. change (p ∈ [str "/*" ++ [newline]; str "*/"]) in Hp.
        rewrite !elem_of_cons, elem_of_nil in Hp. destruct_or! Hp; subst; done.
    + vm_compute in Hb, He. simplify_eq. cbn. lia.
  - change (merge_tokens _ _) with
      [mkSemanticToken (mkRange 0 5) Comment 0; mkSemanticToken (mkRange 5 8) Keyword 0].
    repeat constructor; cbn; lia.
  - exists data. split; [exact Hd|]. rewrite Hdec. vm_compute. reflexivity.
Defined.
