(* ===== verification/Diagnostics.v ===== *)
(** * Diagnostics (src/compile/diagnostic.{h,cpp}, src/feature/diagnostics.cpp)

    [HandleDiagnostic] records what clang reports and chooses a range for it;
    [diagnostics] turns the records into the diagnostics of the protocol and attaches
    notes to the diagnostic they follow.  Locations and file identifiers are numbers,
    zero when invalid; clang's source manager is the class [SourceManager]. *)
From S2P Require Import Prelude Text IndexData.
Local Open Scope Z_scope.
Local Open Scope cpp_scope.

Inductive DiagnosticLevel := Ignored | Note | Remark | Warning | Error | Fatal | InvalidLevel.
Inductive DiagnosticSource := UnknownSource | Clang | ClangTidy | Clice.

Global Instance DiagnosticLevel_eq_dec : EqDecision DiagnosticLevel.
Proof. solve_decision. Defined.
Global Instance DiagnosticSource_eq_dec : EqDecision DiagnosticSource.
Proof. solve_decision. Defined.

(** [value] is the name of the diagnostic in clang's tables. *)
Record DiagnosticID := mkDiagnosticID {
  value : string;
  level : DiagnosticLevel;
  source : DiagnosticSource;
  name : bytes;
}.

Record Diagnostic := mkDiagnostic {
  id : DiagnosticID;
  fid : Z;
  diagnostic_range_of : Range;
  message : bytes;
}.

Definition diagnostic_document_uri (d : DiagnosticID) : option bytes :=
  match source d with
  | UnknownSource | Clang => None
  | ClangTidy =>
    let module := take_while (λ c, negb (bool_decide (c = "-"%char))) (name d) in
    let check := drop (S (length module)) (name d) in
    if bool_decide (module = []) || bool_decide (check = []) then None
    else Some (str "https://clang.llvm.org/extra/clang-tidy/checks/" ++ module ++ str "/" ++ check ++ str ".html")
  | Clice => None
  end.

Definition deprecated_diags : list string :=
  ["warn_access_decl_deprecated"; "warn_atl_uuid_deprecated"; "warn_deprecated";
   "warn_deprecated_altivec_src_compat"; "warn_deprecated_comma_subscript"; "warn_deprecated_copy";
   "warn_deprecated_copy_with_dtor"; "warn_deprecated_copy_with_user_provided_copy";
   "warn_deprecated_copy_with_user_provided_dtor"; "warn_deprecated_def";
   "warn_deprecated_increment_decrement_volatile"; "warn_deprecated_message";
   "warn_deprecated_redundant_constexpr_static_def"; "warn_deprecated_register";
   "warn_deprecated_simple_assign_volatile"; "warn_deprecated_string_literal_conversion";
   "warn_deprecated_this_capture"; "warn_deprecated_volatile_param"; "warn_deprecated_volatile_return";
   "warn_deprecated_volatile_structured_binding"; "warn_opencl_attr_deprecated_ignored";
   "warn_property_method_deprecated"; "warn_vector_mode_deprecated"]%string.

Definition unused_diags : list string :=
  ["warn_opencl_attr_deprecated_ignored"; "warn_pragma_attribute_unused"; "warn_unused_but_set_parameter";
   "warn_unused_but_set_variable"; "warn_unused_comparison"; "warn_unused_const_variable";
   "warn_unused_exception_param"; "warn_unused_function"; "warn_unused_label"; "warn_unused_lambda_capture";
   "warn_unused_local_typedef"; "warn_unused_member_function"; "warn_unused_parameter";
   "warn_unused_private_field"; "warn_unused_property_backing_ivar"; "warn_unused_template";
   "warn_unused_variable"]%string.

Definition is_deprecated (d : DiagnosticID) : bool :=
  bool_decide (source d = Clang) && bool_decide (value d ∈ deprecated_diags).
Definition is_unused (d : DiagnosticID) : bool :=
  bool_decide (source d = Clang) && bool_decide (value d ∈ unused_diags).

(** ** The source manager and the position map *)

(** A character or token range of clang, from [makeFileCharRange]. *)
Record CharRange := mkCharRange { char_begin : Z; char_end : Z; is_token_range : bool }.

(** A diagnostic of clang. *)
Record RawDiagnostic := mkRawDiagnostic {
  raw_id : string;
  raw_location : Z;
  raw_ranges : list CharRange;
  raw_message : bytes;
}.

Class SourceManager := {
  file_id : Z → Z;
  file_offset : Z → Z;
  file_location : Z → Z;
  token_length : Z → Z;
  include_location : Z → Z;
  file_path : Z → bytes;
  interested_file : Z;
}.

(** ** Recording *)

Section recording.
Context `{SourceManager}.

(** The first range that the loop accepts. *)
Fixpoint accepted_range (fid0 offset : Z) (ranges : list CharRange) : option Range :=
  match ranges with
  | [] => None
  | r :: ranges =>
    let begin_offset := file_offset (char_begin r) in
    if negb (file_id (char_begin r) =? fid0) || (begin_offset <=? offset) then
      accepted_range fid0 offset ranges
    else
      let end_offset := u32 (file_offset (char_end r) + (if is_token_range r then token_length (char_end r) else 0)) in
      if (file_id (char_end r) =? fid0) && (offset <=? end_offset) then Some (mkRange begin_offset end_offset)
      else accepted_range fid0 offset ranges
  end.

Definition diagnostic_range (d : RawDiagnostic) : option (Z * Range) :=
  if raw_location d =? 0 then None
  else
    let location := file_location (raw_location d) in
    let fid0 := file_id location in
    let offset := file_offset location in
    match accepted_range fid0 offset (raw_ranges d) with
    | Some r => Some (fid0, r)
    | None => Some (fid0, mkRange offset (u32 (offset + token_length location)))
    end.

Definition is_note (l : DiagnosticLevel) : bool := bool_decide (l = Note) || bool_decide (l = Remark).

(** [adjust_level] and [adjust_diag] are the clang-tidy checker's, [None] without one. *)
Definition HandleDiagnostic
    (checker : option ((DiagnosticLevel → RawDiagnostic → DiagnosticLevel) * (Diagnostic → Diagnostic)))
    (l : DiagnosticLevel) (d : RawDiagnostic) (diagnostics : list Diagnostic) : list Diagnostic :=
  let l := match checker with
           | Some (adjust_level, _) => if is_note l then l else adjust_level l d
           | None => l
           end in
  let '(f, r) := default (0, mkRange (two32 - 1) (two32 - 1)) (diagnostic_range d) in
  let diagnostic := mkDiagnostic (mkDiagnosticID (raw_id d) l Clang []) f r (raw_message d) in
  diagnostics ++ [match checker with Some (_, adjust_diag) => adjust_diag diagnostic | None => diagnostic end].
End recording.

(** ** Publishing *)

Inductive Severity := SeverityError | SeverityWarning.
Inductive Tag := Deprecated | Unnecessary.

Abbreviation Position := (Z * Z)%type.

Record RelatedInformation := mkRelated {
  related_uri : bytes;
  related_range : Position * Position;
  related_message : bytes;
}.

Record Published := mkPublished {
  p_range : Position * Position;
  p_severity : option Severity;
  p_code : option bytes;
  p_href : option bytes;
  p_tags : list Tag;
  p_message : bytes;
  p_related : list RelatedInformation;
}.

Section publishing.
Context `{SourceManager}.
(** [to_range fid b e]: the range in the text of a file; [diagnostic_code] is clang's table. *)
Context (to_range : Z → Z → Z → option (Position * Position)).
Context (diagnostic_code : string → bytes) (to_uri : bytes → bytes).

Definition range_valid (r : Range) : bool :=
  negb (range_begin r =? two32 - 1) && negb (range_end r =? two32 - 1).

Definition tags_of (d : DiagnosticID) : list Tag :=
  if is_deprecated d then [Deprecated] else if is_unused d then [Unnecessary] else [].

Definition add_related (p : Published) (raw : Diagnostic) : Res () Published :=
  if (fid raw =? 0) || negb (range_valid (diagnostic_range_of raw)) then Ok p
  else
    let? r := read (to_range (fid raw) (range_begin (diagnostic_range_of raw))
                     (range_end (diagnostic_range_of raw))) in
    Ok (mkPublished (p_range p) (p_severity p) (p_code p) (p_href p) (p_tags p) (p_message p)
          (p_related p ++ [mkRelated (to_uri (file_path (fid raw))) r (message raw)])).

(** The loop that looks for the include directive in the main file. *)
Fixpoint climb (fuel : nat) (location : Z) : option Z :=
  match fuel with
  | O => None
  | S fuel =>
    let parent := file_id location in
    if parent =? 0 then Some location else climb fuel (include_location parent)
  end.

Definition diagnostic_position (fuel : nat) (raw : Diagnostic) : Res () (Position * Position) :=
  if fid raw =? 0 then Ok ((0, 0), (0, 0))
  else if fid raw =? interested_file then
    read (to_range interested_file (range_begin (diagnostic_range_of raw)) (range_end (diagnostic_range_of raw)))
  else
    match climb fuel (include_location (fid raw)) with
    | None => Stuck
    | Some location =>
      let offset := file_offset location in
      read (to_range interested_file offset (u32 (offset + token_length location)))
    end.

Definition severity_of (l : DiagnosticLevel) : option Severity :=
  match l with
  | Warning => Some SeverityWarning
  | Error | Fatal => Some SeverityError
  | _ => None
  end.

Definition publish (fuel : nat) (raw : Diagnostic) : Res () Published :=
  let? r := diagnostic_position fuel raw in
  Ok (mkPublished r (severity_of (level (id raw)))
        (match diagnostic_code (value (id raw)) with [] => None | c => Some c end)
        (diagnostic_document_uri (id raw)) (tags_of (id raw)) (message raw) []).

Definition flush (st : option Published * list Published) : list Published :=
  st.2 ++ option_list st.1.

Definition diagnostics_step (fuel : nat) (raw : Diagnostic) (st : option Published * list Published) :
    Res () (option Published * list Published) :=
  match level (id raw) with
  | Ignored => Ok st
  | Note | Remark =>
    match st.1 with
    | Some current => let? current := add_related current raw in Ok (Some current, st.2)
    | None => Ok st
    end
  | _ => let? p := publish fuel raw in Ok (Some p, flush st)
  end.

Definition diagnostics (fuel : nat) (raws : list Diagnostic) : Res () (list Published) :=
  let? st := for_each raws (diagnostics_step fuel) (None, []) in
  Ok (flush st).
End publishing.

(** ** Notes follow their diagnostic *)

Definition is_main (d : Diagnostic) : bool :=
  match level (id d) with Ignored | Note | Remark => false | _ => true end.

(** The notes before the next diagnostic. *)
Fixpoint notes_after (raws : list Diagnostic) : list Diagnostic :=
  match raws with
  | [] => []
  | r :: raws =>
    if is_main r then []
    else if bool_decide (level (id r) = Ignored) then notes_after raws else r :: notes_after raws
  end.

(** Every diagnostic with its notes. *)
Fixpoint groups (raws : list Diagnostic) : list (Diagnostic * list Diagnostic) :=
  match raws with
  | [] => []
  | r :: raws => if is_main r then (r, notes_after raws) :: groups raws else groups raws
  end.

Section grouping.
Context `{SourceManager} (to_range : Z → Z → Z → option (Position * Position)).
Context (diagnostic_code : string → bytes) (to_uri : bytes → bytes) (fuel : nat).
Abbreviation publish_raw := (publish to_range diagnostic_code fuel).
Abbreviation run_step := (diagnostics_step to_range diagnostic_code to_uri fuel).

Definition related_of (raw : Diagnostic) : option RelatedInformation :=
  if (fid raw =? 0) || negb (range_valid (diagnostic_range_of raw)) then None
  else r ← to_range (fid raw) (range_begin (diagnostic_range_of raw)) (range_end (diagnostic_range_of raw));
       Some (mkRelated (to_uri (file_path (fid raw))) r (message raw)).

Definition with_notes (p : Published) (notes : list Diagnostic) : Published :=
  mkPublished (p_range p) (p_severity p) (p_code p) (p_href p) (p_tags p) (p_message p)
    (p_related p ++ omap related_of notes).

(** What the position map must provide. *)
Definition mapped (raw : Diagnostic) : Prop :=
  if is_main raw then ∃ p, publish_raw raw = Ok p
  else (fid raw =? 0) || negb (range_valid (diagnostic_range_of raw)) = false →
    is_Some (to_range (fid raw) (range_begin (diagnostic_range_of raw)) (range_end (diagnostic_range_of raw))).

Lemma add_related_ok p raw :
  is_main raw = false → mapped raw → add_related to_range to_uri p raw = Ok (with_notes p [raw]).
Proof.
  unfold mapped, add_related, with_notes. intros -> Hm. cbn [omap list_omap]. unfold related_of.
  destruct (_ || _); [by rewrite app_nil_r; destruct p|]. destruct Hm as [r Hr]; [done|]. by rewrite Hr.
Qed.

Lemma with_notes_cons p raw notes : with_notes (with_notes p [raw]) notes = with_notes p (raw :: notes).
Proof.
  unfold with_notes. cbn [p_range p_severity p_code p_href p_tags p_message p_related].
  by rewrite <- app_assoc, <- omap_app.
Qed.

Lemma run_groups raws cur done :
  Forall mapped raws →
  ∃ st ps, for_each raws run_step (cur, done) = Ok st ∧
    flush st = done ++ ((λ p, with_notes p (notes_after raws)) <$> option_list cur) ++ ps ∧
    Forall2 (λ g p, ∃ p0, publish_raw g.1 = Ok p0 ∧ p = with_notes p0 g.2) (groups raws) ps.
Proof.
  revert cur done. induction raws as [|raw raws IH]; intros cur done Hm.
  { exists (cur, done), []. split_and!; [reflexivity| |constructor]. unfold flush. cbn. rewrite app_nil_r.
    f_equal. destruct cur as [p|]; cbn; [|reflexivity]. unfold with_notes. cbn. rewrite app_nil_r. by destruct p. }
  apply Forall_cons in Hm as [Hraw Hm]. cbn [for_each groups notes_after]. unfold run_step at 2.
  destruct (is_main raw) eqn:Em.
  - pose proof Hraw as Hpub. unfold mapped in Hpub. rewrite Em in Hpub. destruct Hpub as [p Hp].
    assert (diagnostics_step to_range diagnostic_code to_uri fuel raw (cur, done) = Ok (Some p, flush (cur, done))) as ->.
    { unfold diagnostics_step. rewrite Hp. unfold is_main in Em. by destruct (level (id raw)). }
    cbn [Res_bind]. destruct (IH (Some p) (flush (cur, done)) Hm) as (st & ps & Hf & Hfl & Hall).
    exists st, (with_notes p (notes_after raws) :: ps). split_and!; [done| |constructor; [eauto|done]].
    rewrite Hfl. unfold flush. cbn. rewrite <- app_assoc. f_equal.
    destruct cur as [q|]; cbn; [|reflexivity]. f_equal. unfold with_notes. cbn. rewrite app_nil_r. by destruct q.
  - case_bool_decide as El.
    + destruct (IH cur done Hm) as (st & ps & Hf & Hfl & Hall). exists st, ps. unfold diagnostics_step.
      rewrite El. done.
    + assert (diagnostics_step to_range diagnostic_code to_uri fuel raw (cur, done) =
              Ok ((λ p, with_notes p [raw]) <$> cur, done)) as ->.
      { unfold diagnostics_step. cbn [fst snd]. destruct cur as [p|]; [|unfold is_main in Em; by destruct (level (id raw))].
        rewrite (add_related_ok p raw Em Hraw). unfold is_main in Em. by destruct (level (id raw)). }
      cbn [Res_bind]. destruct (IH ((λ p, with_notes p [raw]) <$> cur) done Hm) as (st & ps & Hf & Hfl & Hall).
      exists st, ps. split_and!; [done| |done]. rewrite Hfl. destruct cur as [p|]; [|done]. cbn.
      by rewrite with_notes_cons.
Qed.

(** Publishing diagnostics: one diagnostic per warning or error, in order, and each
    carries as related information the notes between it and the next one; notes before
    the first diagnostic and ignored ones are dropped. *)
Theorem notes_follow_their_diagnostic (raws : list Diagnostic) :
  Forall mapped raws →
  ∃ ps, diagnostics to_range diagnostic_code to_uri fuel raws = Ok ps ∧
    Forall2 (λ g p, ∃ p0, publish_raw g.1 = Ok p0 ∧ p = with_notes p0 g.2) (groups raws) ps.
Proof.
  intros Hm. destruct (run_groups raws None [] Hm) as (st & ps & Hf & Hfl & Hall).
  exists ps. unfold diagnostics. rewrite Hf. cbn [Res_bind]. cbn in Hfl. by rewrite Hfl.
Qed.

(** The search for the include directive ends at an invalid location only: a diagnostic
    of a header is placed where [file_offset] puts the invalid location. *)
Lemma header_diagnostic_has_no_location location found :
  (∀ l, l ≠ 0 → file_id l ≠ 0) → climb fuel location = Some found → found = 0.
Proof.
  intros Hv. revert location. induction fuel as [|n IH]; intros location Hc; [done|]. cbn in Hc.
  destruct (Z.eqb_spec (file_id location) 0) as [E|E]; [|by eapply IH].
  injection Hc as <-. apply dec_stable. intros Hn. by apply (Hv location).
Qed.

(** A range around the location is never chosen. *)
Lemma surrounding_range_is_skipped fid0 offset ranges r :
  accepted_range fid0 offset ranges = Some r → offset < range_begin r.
Proof.
  induction ranges as [|c ranges IH]; [done|]. cbn.
  destruct (negb _); [done|]. cbn. destruct (Z.leb_spec (file_offset (char_begin c)) offset); [done|].
  destruct (_ && _); [|done]. intros [= <-]. done.
Qed.
End grouping.

(** Two files: the main file 1 and a header 2 included at location 5 of it. *)
Definition example_manager : SourceManager := {|
  file_id l := if (l =? 0) then 0 else if (l <? 10) then 1 else 2;
  file_offset l := l;
  file_location l := l;
  token_length _ := 1;
  include_location f := if f =? 2 then 5 else 0;
  file_path f := if f =? 1 then str "/main.cpp" else str "/a.h";
  interested_file := 1;
|}.

Definition example_diagnostic (l : DiagnosticLevel) (f : Z) (m : string) : Diagnostic :=
  mkDiagnostic (mkDiagnosticID "err_x" l Clang []) f (mkRange 2 4) (str m).

(** The theorem at an error with two notes, one of them ignored, and a warning. *)
Lemma notes_follow_their_diagnostic_witness :
  ∃ ps, @diagnostics example_manager (λ f b e, Some ((f, b), (f, e))) (λ _, []) (λ p, p) 3
    [example_diagnostic Note 1 "lost"; example_diagnostic Error 1 "e"; example_diagnostic Note 2 "n";
     example_diagnostic Ignored 1 "i"; example_diagnostic Warning 1 "w"] = Ok ps ∧ length ps = 2%nat ∧
    (λ p, (p_message p, related_message <$> p_related p)) <$> ps = [(str "e", [str "n"]); (str "w", [])].
Proof.
  destruct (@notes_follow_their_diagnostic example_manager (λ f b e, Some ((f, b), (f, e))) (λ _, []) (λ p, p) 3
    [example_diagnostic Note 1 "lost"; example_diagnostic Error 1 "e"; example_diagnostic Note 2 "n";
     example_diagnostic Ignored 1 "i"; example_diagnostic Warning 1 "w"]) as (ps & Hd & Hf).
  - repeat constructor; unfold mapped; cbn; eauto.
  - exists ps. split; [exact Hd|]. apply Forall2_length in Hf. split; [by rewrite <- Hf|].
    vm_compute in Hd. injection Hd as <-. vm_compute. reflexivity.
Defined.
