(* ===== verification/Folding.v ===== *)
(** * Folding ranges (src/feature/folding_ranges.cpp)

    The ranges that editors may fold.  The visitor of the syntax tree hands locations and
    token lists to the functions below; [FoldUnit] is what they use of the compilation
    unit.  Locations are numbers, zero when invalid. *)
From S2P Require Import Prelude Text IndexData.
Local Open Scope Z_scope.
Local Open Scope cpp_scope.

Inductive FoldingKind :=
| Namespace | Class_ | Enum | Struct | Union | LambdaCapture | FunctionParams | FunctionBody | FunctionCall
| CompoundStmt | AccessSpecifier | ConditionDirective | Initializer | Region.

Definition to_kind (k : FoldingKind) : string :=
  match k with
  | Namespace => "namespace" | Class_ => "class" | Enum => "enum" | Struct => "struct" | Union => "union"
  | LambdaCapture => "lambdaCapture" | FunctionParams => "functionParams" | FunctionBody => "functionBody"
  | FunctionCall => "functionCall" | CompoundStmt => "compoundStmt" | AccessSpecifier => "accessSpecifier"
  | ConditionDirective => "conditionDirective" | Initializer => "initializer" | Region => "region"
  end.

Record FoldingRange := mkFolding { fold_range : Range; fold_kind : string; collapsed_text : bytes }.

Class FoldUnit := {
  expansion_location : Z → Z;
  decompose_range : Z → Z → Z * Range;
  interested_file : Z;
  content : bytes;
}.

Section folding.
Context `{FoldUnit}.
Abbreviation Ranges := (Res () (list FoldingRange)).

(** The scan for a line break; [content[offset]] outside of the text fails an assertion. *)
Fixpoint is_single_line (n : nat) (offset : Z) : Res () bool :=
  match n with
  | O => Ok true
  | S n =>
    let? c := read (content !! Z.to_nat offset) in
    if bool_decide (c = newline) then Ok false else is_single_line n (offset + 1)
  end.

Definition add_range (b e : Z) (k : FoldingKind) (collapsed : bytes) (ranges : list FoldingRange) : Ranges :=
  if (b =? 0) || (e =? 0) then Ok ranges
  else
    let b := expansion_location b in
    let e := expansion_location e in
    if b =? e then Ok ranges
    else
      let '(fid, local) := decompose_range b e in
      if negb (fid =? interested_file) || (range_begin local =? two32 - 1) || (range_end local =? two32 - 1)
         || (range_end local <=? range_begin local) then Ok ranges
      else
        let? single := is_single_line (Z.to_nat (range_end local - range_begin local)) (range_begin local) in
        Ok (if single then ranges else ranges ++ [mkFolding local (to_kind k) collapsed]).

(** ** Tokens and members *)

(** A token of the expanded stream: kind and location. *)
Abbreviation SyntaxToken := (string * Z)%type.

Abbreviation of_kind k := (λ t : SyntaxToken, t.1 = k%string).

(** [VisitNamespaceDecl] from the tokens of the declaration. *)
Definition visit_namespace (tokens : list SyntaxToken) (r_brace : Z) (ranges : list FoldingRange) : Ranges :=
  match list_find (of_kind "l_brace") tokens with
  | None => Ok ranges
  | Some (_, t) => add_range t.2 r_brace Namespace (str "{...}") ranges
  end.

(** The access specifiers of a class: colon and specifier location. *)
Fixpoint access_sections (previous : option (Z * Z)) (members : list (Z * Z)) (brace_end : Z)
    (ranges : list FoldingRange) : Ranges :=
  match members with
  | [] =>
    match previous with
    | Some p => add_range p.1 brace_end AccessSpecifier [] ranges
    | None => Ok ranges
    end
  | m :: members =>
    let? ranges := match previous with
                   | Some p => add_range p.1 m.2 AccessSpecifier [] ranges
                   | None => Ok ranges
                   end in
    access_sections (Some m) members brace_end ranges
  end.

(** The loop of [VisitCallExpr], over the tokens from the back; [depth] is a [size_t]. *)
Fixpoint match_paren (right_paren : Z) (depth : Z) (reversed : list SyntaxToken) : option (Z * Z) :=
  match reversed with
  | [] => None
  | t :: reversed =>
    if decide (t.1 = "r_paren"%string) then match_paren right_paren (u64 (depth + 1)) reversed
    else if decide (t.1 = "l_paren"%string) then
      let depth := u64 (depth - 1) in
      if depth =? 0 then Some (t.2, right_paren) else match_paren right_paren depth reversed
    else match_paren right_paren depth reversed
  end.

Definition visit_call (tokens : list SyntaxToken) (ranges : list FoldingRange) : Ranges :=
  match reverse tokens with
  | [] => Ok ranges
  | back :: _ =>
    if decide (back.1 = "r_paren"%string) then
      match match_paren back.2 0 (reverse tokens) with
      | Some (l, r) => add_range l r FunctionCall (str "(...)") ranges
      | None => Ok ranges
      end
    else Ok ranges
  end.

Definition collect_parameter_list (tokens : list SyntaxToken) (ranges : list FoldingRange) : Ranges :=
  match list_find (of_kind "l_paren") tokens with
  | None => Ok ranges
  | Some (i, l) =>
    match list_find (of_kind "r_paren") (reverse (drop i tokens)) with
    | None => Ok ranges
    | Some (_, r) => add_range l.2 r.2 FunctionParams (str "(...)") ranges
    end
  end.

(** Statements, as far as compound statements are concerned. *)
Inductive Stmt := Compound (l_brace r_brace : Z) (children : list Stmt) | OtherStmt.

Fixpoint collect_compound_stmt (s : Stmt) (ranges : list FoldingRange) : Ranges :=
  match s with
  | OtherStmt => Ok ranges
  | Compound l r children =>
    let? ranges := add_range l r CompoundStmt (str "{...}") ranges in
    (fix collect_children cs ranges :=
       match cs with
       | [] => Ok ranges
       | c :: cs => let? ranges := collect_compound_stmt c ranges in collect_children cs ranges
       end) children ranges
  end.

(** ** Directives *)

Inductive BranchKind := If | Elif | Ifdef | Elifdef | Ifndef | Elifndef | Else | EndIf.
Record Condition := mkCondition { branch : BranchKind; loc : Z; condition_end : Z }.

(** The stack has its top first. *)
Definition condition_step (c : Condition) (st : list Condition * list FoldingRange) :
    Res () (list Condition * list FoldingRange) :=
  let '(stack, ranges) := st in
  match branch c with
  | If | Ifdef | Ifndef | Elif | Elifndef => Ok (c :: stack, ranges)
  | Else =>
    match stack with
    | previous :: stack =>
      let? ranges := add_range (condition_end previous) (loc c) ConditionDirective [] ranges in
      Ok (c :: stack, ranges)
    | [] => Ok ([c], ranges)
    end
  | EndIf => Ok (tail stack, ranges)
  | Elifdef => Ok st
  end.

Definition collect_condition_directives (conditions : list Condition) (ranges : list FoldingRange) : Ranges :=
  let? st := for_each conditions condition_step ([], ranges) in Ok st.2.

Inductive PragmaKind := RegionPragma | EndRegion | OtherPragma.
Record Pragma := mkPragma { pragma_kind : PragmaKind; pragma_loc : Z }.

(** Matching of region pragmas: the stack and the pairs in the order they are added. *)
Definition region_step (st : list Pragma * list (Pragma * Pragma)) (p : Pragma) :
    list Pragma * list (Pragma * Pragma) :=
  let '(stack, pairs) := st in
  match pragma_kind p, stack with
  | RegionPragma, _ => (p :: stack, pairs)
  | EndRegion, previous :: stack => (stack, pairs ++ [(previous, p)])
  | _, _ => st
  end.

Definition region_pairs (pragmas : list Pragma) : list (Pragma * Pragma) :=
  (foldl region_step ([], []) pragmas).2.

Definition collect_pragma_region (pragmas : list Pragma) (ranges : list FoldingRange) : Ranges :=
  for_each (region_pairs pragmas) (λ p, add_range (pragma_loc p.1) (pragma_loc p.2) Region []) ranges.

Definition collect_directives (conditions : list Condition) (pragmas : list Pragma) (ranges : list FoldingRange) :
    Ranges :=
  let? ranges := collect_condition_directives conditions ranges in
  collect_pragma_region pragmas ranges.

(** [collect], from what the traversal of the tree added. *)
Definition collect (sort : list FoldingRange → list FoldingRange)
    (directives : option (list Condition * list Pragma)) (ranges : list FoldingRange) : Ranges :=
  let? ranges := match directives with
                 | Some (cs, ps) => collect_directives cs ps ranges
                 | None => Ok ranges
                 end in
  Ok (sort ranges).
End folding.

(** ** Regions are matched like parentheses *)

Inductive balanced : list Pragma → Prop :=
| balanced_nil : balanced []
| balanced_other p l : pragma_kind p = OtherPragma → balanced l → balanced (p :: l)
| balanced_nest o l c k : pragma_kind o = RegionPragma → pragma_kind c = EndRegion →
    balanced l → balanced k → balanced (o :: l ++ c :: k).
#[local] Hint Constructors balanced : core.

Lemma balanced_app l k : balanced l → balanced k → balanced (l ++ k).
Proof.
  induction 1 as [|p l Hp _ IH|o l c k' Ho Hc Hl _ _ IH]; intros Hk; [done|cbn; auto|].
  cbn. rewrite <- app_assoc. cbn. auto.
Qed.

(** The open regions of a prefix. *)
Inductive open_regions : list Pragma → list Pragma → Prop :=
| open_none l : open_regions [] l
| open_one o stack l mid : open_regions stack l → pragma_kind o = RegionPragma → balanced mid →
    open_regions (o :: stack) (l ++ o :: mid).

Lemma open_regions_more stack l mid : open_regions stack l → balanced mid → open_regions stack (l ++ mid).
Proof.
  intros [l'|o s l' m Ho Hk Hm] Hmid; [constructor|]. rewrite <- app_assoc. cbn.
  constructor; [done..|]. by apply balanced_app.
Qed.

Definition enclosed (l : list Pragma) (p : Pragma * Pragma) : Prop :=
  ∃ pre mid post, l = pre ++ p.1 :: mid ++ p.2 :: post ∧ pragma_kind p.1 = RegionPragma ∧
    pragma_kind p.2 = EndRegion ∧ balanced mid.

Lemma enclosed_more l p x : enclosed l p → enclosed (l ++ [x]) p.
Proof.
  intros (pre & mid & post & -> & ? & ? & ?). exists pre, mid, (post ++ [x]).
  split_and!; [|done..]. rewrite <- app_assoc. cbn. by rewrite <- app_assoc.
Qed.

Lemma region_step_sound l st p :
  open_regions st.1 l → (∀ q, q ∈ st.2 → enclosed l q) →
  open_regions (region_step st p).1 (l ++ [p]) ∧ ∀ q, q ∈ (region_step st p).2 → enclosed (l ++ [p]) q.
Proof.
  destruct st as [stack pairs]. cbn [fst snd]. intros Ho Hp. unfold region_step.
  destruct (pragma_kind p) eqn:Ek; cbn.
  - split; [|intros; by apply enclosed_more, Hp]. by constructor.
  - destruct stack as [|o stack]; cbn.
    { split; [constructor|intros; by apply enclosed_more, Hp]. }
    inversion Ho as [|? ? l' mid Ho' Hk Hm]; subst. split.
    + rewrite <- app_assoc. apply open_regions_more; [done|]. cbn. by apply (balanced_nest o mid p []).
    + intros q [Hq| ->%list_elem_of_singleton]%elem_of_app; [by apply enclosed_more, Hp|].
      exists l', mid, []. rewrite <- app_assoc. done.
  - split; [|intros; by apply enclosed_more, Hp]. apply open_regions_more; auto.
Qed.

Lemma regions_sound pragmas p : p ∈ region_pairs pragmas → enclosed pragmas p.
Proof.
  unfold region_pairs.
  assert (∀ post pre st, open_regions st.1 pre → (∀ q, q ∈ st.2 → enclosed pre q) →
            ∀ q, q ∈ (foldl region_step st post).2 → enclosed (pre ++ post) q) as Hgen.
  { induction post as [|x post IH]; intros pre st Ho Hq q; cbn; [rewrite app_nil_r; auto|].
    rewrite cons_middle, app_assoc. by apply IH; apply region_step_sound. }
  intros Hp. apply (Hgen pragmas [] ([], [])) in Hp; [done|constructor|by intros ? ?%elem_of_nil].
Qed.

Lemma region_run_balanced mid st :
  balanced mid → ∃ more, foldl region_step st mid = (st.1, st.2 ++ more).
Proof.
  intros Hb. revert st. induction Hb as [|p l Hp _ IH|o l c k Ho Hc _ IHl _ IHk]; intros [s ps].
  - exists []. by rewrite app_nil_r.
  - cbn [foldl]. replace (region_step (s, ps) p) with (s, ps) by (unfold region_step; by rewrite Hp). apply IH.
  - cbn [foldl]. replace (region_step (s, ps) o) with (o :: s, ps) by (unfold region_step; by rewrite Ho).
    rewrite foldl_app. destruct (IHl (o :: s, ps)) as [m1 ->]. cbn [foldl fst snd].
    replace (region_step (o :: s, ps ++ m1) c) with (s, (ps ++ m1) ++ [(o, c)]) by (unfold region_step; by rewrite Hc).
    destruct (IHk (s, (ps ++ m1) ++ [(o, c)])) as [m2 ->]. cbn [fst snd].
    exists (m1 ++ [(o, c)] ++ m2). by rewrite <- !app_assoc.
Qed.

Lemma region_pairs_grow post st q : q ∈ st.2 → q ∈ (foldl region_step st post).2.
Proof.
  revert st. induction post as [|x post IH]; intros [s ps] Hq; cbn; [done|]. apply IH.
  unfold region_step. destruct (pragma_kind x), s; cbn; try done. apply elem_of_app. by left.
Qed.

(** Region pragmas fold like parentheses: an opening and a closing pragma are paired
    exactly when what lies between them is balanced, whatever unmatched pragmas there
    are before, after or around them. *)
Theorem regions_fold_like_parentheses (pragmas : list Pragma) (p : Pragma * Pragma) :
  p ∈ region_pairs pragmas ↔ enclosed pragmas p.
Proof.
  split; [apply regions_sound|]. intros (pre & mid & post & -> & Ho & Hc & Hm).
  unfold region_pairs. rewrite foldl_app. destruct (foldl region_step ([], []) pre) as [s ps].
  cbn [foldl]. replace (region_step (s, ps) p.1) with (p.1 :: s, ps) by (unfold region_step; by rewrite Ho).
  rewrite foldl_app. destruct (region_run_balanced mid (p.1 :: s, ps) Hm) as [more ->]. cbn [foldl fst snd].
  apply region_pairs_grow. unfold region_step. rewrite Hc. cbn. apply elem_of_app. right.
  destruct p. by left.
Qed.

(** A branch after [#elif] leaves an entry behind, which a later [#else] of another
    conditional may meet: the range starts in the wrong conditional. *)
Lemma elif_leaves_an_entry `{FoldUnit} ranges :
  for_each [mkCondition If 1 2; mkCondition Elif 3 4; mkCondition EndIf 5 0] condition_step ([], ranges) =
  Ok ([mkCondition If 1 2], ranges).
Proof. reflexivity. Qed.

(** What is added has a line break in it. *)
Lemma added_ranges_span_lines `{FoldUnit} b e k c ranges ranges' :
  add_range b e k c ranges = Ok ranges' →
  ranges' = ranges ∨ ∃ r, ranges' = ranges ++ [r] ∧
    ∃ o, range_begin (fold_range r) ≤ o < range_end (fold_range r) ∧ content !! Z.to_nat o = Some newline.
Proof.
  unfold add_range. destruct (_ || _); [naive_solver|]. destruct (_ =? _); [naive_solver|].
  destruct (decompose_range _ _) as [f local]. destruct (_ || _) eqn:Ev; [naive_solver|].
  apply orb_false_iff in Ev as [_ Hlt%Z.leb_gt].
  intros (single & Hs & He)%Res_bind_Ok. destruct single; [naive_solver|]. injection He as <-.
  right. eexists. split; [done|]. cbn [fold_range].
  assert (∀ n o, is_single_line n o = Ok false → ∃ i, o ≤ i < o + Z.of_nat n ∧ content !! Z.to_nat i = Some newline) as Hscan.
  { clear. induction n as [|n IH]; intros o Hs; [done|]. cbn [is_single_line] in Hs.
    destruct (content !! Z.to_nat o) as [c|] eqn:Ec; [|done]. cbn in Hs. case_bool_decide as E.
    - exists o. subst. split; [lia|done].
    - destruct (IH _ Hs) as (i & ? & ?). exists i. split; [lia|done]. }
  destruct (Hscan _ _ Hs) as (i & ? & ?). exists i. split; [lia|done].
Qed.
