(* ===== verification/IncludeResolver.v ===== *)
(** * Include search
      (src/command/search_config.{h,cpp}, src/syntax/include_resolver.{h,cpp},
       src/syntax/completion.{h,cpp})

    The search directories of a command line, the resolution of an include against
    cached directory listings, and the completion of include paths and module names.
    The option parser is the class [OptionTable]; the path functions of LLVM and the
    disk are the class [FileSystem]. *)
From S2P Require Import Prelude Text PathPool IndexData CommandDatabase.
Local Open Scope Z_scope.
Local Open Scope cpp_scope.

Class FileSystem := {
  fs_is_absolute : bytes → bool;
  (** [fs::make_absolute(directory, path)] *)
  fs_make_absolute : bytes → bytes → bytes;
  remove_dots : bytes → bytes;
  path_append : bytes → bytes → bytes;
  parent_path : bytes → bytes;
  path_filename : bytes → bytes;
  fs_exists : bytes → bool;
  fs_is_directory : bytes → bool;
  (** the names [directory_iterator] yields before it ends or fails *)
  readdir : bytes → gset bytes;
}.

(** ** Search configuration *)

Record SearchConfig := mkSearchConfig {
  dirs : list bytes;
  angled_start_idx : Z;
  system_start_idx : Z;
  after_start_idx : Z;
}.

(** The four segments and the prefix while the arguments are read. *)
Record Segments := mkSegments {
  quoted : list bytes;
  angled : list bytes;
  system : list bytes;
  after : list bytes;
  iprefix : bytes;
}.

Section search.
Context `{OptionTable} `{PathTable} `{FileSystem}.

Definition make_absolute (directory path : bytes) : bytes :=
  remove_dots (if fs_is_absolute path then path else fs_make_absolute directory path).

Definition search_arg (directory : bytes) (r : nat + ParsedArg) (s : Segments) : Res () Segments :=
  match r with
  | inl _ => Ok s
  | inr arg =>
    let abs := make_absolute directory in
    let id := arg_id arg in
    if mem id ["iquote"]%string then
      let? v := read (head (arg_values arg)) in
      Ok (mkSegments (quoted s ++ [abs v]) (angled s) (system s) (after s) (iprefix s))
    else if mem id ["I"]%string then
      let? v := read (head (arg_values arg)) in
      Ok (mkSegments (quoted s) (angled s ++ [abs v]) (system s) (after s) (iprefix s))
    else if mem id ["isystem"; "internal_isystem"; "internal_externc_isystem"]%string then
      let? v := read (head (arg_values arg)) in
      Ok (mkSegments (quoted s) (angled s) (system s ++ [abs v]) (after s) (iprefix s))
    else if mem id ["iprefix"]%string then
      let? v := read (head (arg_values arg)) in
      Ok (mkSegments (quoted s) (angled s) (system s) (after s) v)
    else if mem id ["iwithprefix"]%string then
      let? v := read (head (arg_values arg)) in
      Ok (mkSegments (quoted s) (angled s) (system s) (after s ++ [abs (iprefix s ++ v)]) (iprefix s))
    else if mem id ["iwithprefixbefore"]%string then
      let? v := read (head (arg_values arg)) in
      Ok (mkSegments (quoted s) (angled s ++ [abs (iprefix s ++ v)]) (system s) (after s) (iprefix s))
    else if mem id ["idirafter"]%string then
      let? v := read (head (arg_values arg)) in
      Ok (mkSegments (quoted s) (angled s) (system s) (after s ++ [abs v]) (iprefix s))
    else Ok s
  end.

(** The loop that removes duplicates in place: [dirs], [write], [seen] and the two
    counters, at position [read_pos]. *)
Record Dedup := mkDedup {
  d_dirs : list bytes;
  d_write : nat;
  d_seen : gset bytes;
  removed_before_system : nat;
  removed_before_after : nat;
}.

Definition dedup_step (system_start after_start read_pos : nat) (d : Dedup) : Res () Dedup :=
  let? path := read (d_dirs d !! read_pos) in
  if bool_decide (path ∈ d_seen d) then
    Ok (mkDedup (d_dirs d) (d_write d) (d_seen d)
          (removed_before_system d + (if bool_decide (read_pos < system_start)%nat then 1 else 0))
          (removed_before_after d + (if bool_decide (read_pos < after_start)%nat then 1 else 0)))
  else
    Ok (mkDedup (if bool_decide (d_write d = read_pos) then d_dirs d else <[d_write d := path]> (d_dirs d))
          (S (d_write d)) ({[path]} ∪ d_seen d) (removed_before_system d) (removed_before_after d)).

Definition dedup (quoted_size system_start after_start : nat) (all : list bytes) : Res () Dedup :=
  for_each (seq quoted_size (length all - quoted_size)) (dedup_step system_start after_start)
    (mkDedup all quoted_size ∅ 0 0).

Definition finish_config (s : Segments) : Res () SearchConfig :=
  let all := quoted s ++ angled s ++ system s ++ after s in
  let angled_start := length (quoted s) in
  let system_start := (angled_start + length (angled s))%nat in
  let after_start := (system_start + length (system s))%nat in
  let? d := dedup angled_start system_start after_start all in
  Ok (mkSearchConfig (take (d_write d) (d_dirs d)) (u32 (Z.of_nat angled_start))
        (u32 (Z.of_nat system_start - Z.of_nat (removed_before_system d)))
        (u32 (Z.of_nat after_start - Z.of_nat (removed_before_after d)))).

Definition extract_search_config (arguments : list cstring) (directory : bytes) : Res () SearchConfig :=
  let? rest := to_strings (tail arguments) in
  let? first := read (head arguments) in
  let? driver := read first in
  let? s := for_each (parse true (default_visibility driver) rest) (search_arg directory)
              (mkSegments [] [] [] [] []) in
  finish_config s.
End search.

(** ** Directory listings *)

Section resolver.
Context `{FileSystem}.

Abbreviation DirListingCache := (gmap bytes (gset bytes)).

Definition resolve_dir (dir : bytes) (cache : DirListingCache) : gset bytes * DirListingCache :=
  match cache !! dir with
  | Some entries => (entries, cache)
  | None => (readdir dir, <[dir := readdir dir]> cache)
  end.

Record ResolvedSearchConfig := mkResolved {
  r_dirs : list (bytes * gset bytes);
  r_angled_start_idx : Z;
  r_system_start_idx : Z;
  r_after_start_idx : Z;
}.

Fixpoint resolve_dirs (ds : list bytes) (cache : DirListingCache) :
    list (bytes * gset bytes) * DirListingCache :=
  match ds with
  | [] => ([], cache)
  | d :: ds =>
    let '(entries, cache) := resolve_dir d cache in
    let '(rest, cache) := resolve_dirs ds cache in
    ((d, entries) :: rest, cache)
  end.

Definition resolve_search_config (config : SearchConfig) (cache : DirListingCache) :
    ResolvedSearchConfig * DirListingCache :=
  let '(ds, cache) := resolve_dirs (dirs config) cache in
  (mkResolved ds (angled_start_idx config) (system_start_idx config) (after_start_idx config), cache).

(** ** Resolution *)

Definition is_separator (c : ascii) : bool := bool_decide (c = "/"%char) || bool_decide (c = "\"%char).
Definition is_simple (filename : bytes) : bool := negb (existsb is_separator filename).
Definition first_component (filename : bytes) : bytes := take_while (λ c, negb (is_separator c)) filename.

Definition check_in_dir (dir_path : bytes) (entries : gset bytes) (filename : bytes)
    (cache : DirListingCache) : bool * DirListingCache :=
  if is_simple filename then (bool_decide (filename ∈ entries), cache)
  else
    let first := first_component filename in
    if negb (bool_decide (first = str ".")) && negb (bool_decide (first = str ".."))
       && negb (bool_decide (first ∈ entries)) then (false, cache)
    else
      let full := path_append dir_path filename in
      let '(sub_entries, cache) := resolve_dir (parent_path full) cache in
      (bool_decide (path_filename full ∈ sub_entries), cache).

(** Whether [pat] occurs in [s]. *)
Fixpoint occurs (pat s : bytes) : bool :=
  starts_with pat s || match s with [] => false | _ :: s => occurs pat s end.

Definition needs_normalize (filename : bytes) : bool :=
  negb (is_simple filename)
  && (occurs (str "..") filename || occurs (str "./") filename || occurs (str ".\") filename
      || occurs (str "\.") filename).

Definition make_candidate (dir filename : bytes) : bytes :=
  let candidate := path_append dir filename in
  if needs_normalize filename then remove_dots candidate else candidate.

Record ResolveResult := mkResolveResult { r_path : bytes; found_dir_idx : Z }.

(** The search from position [i] on. *)
Fixpoint search_from (filename : bytes) (i : Z) (ds : list (bytes * gset bytes)) (cache : DirListingCache) :
    option ResolveResult * DirListingCache :=
  match ds with
  | [] => (None, cache)
  | (dir, entries) :: ds =>
    let '(found, cache) := check_in_dir dir entries filename cache in
    if found then (Some (mkResolveResult (make_candidate dir filename) i), cache)
    else search_from filename (i + 1) ds cache
  end.

(** [start] is an [unsigned]. *)
Definition search_dirs (filename : bytes) (start : Z) (config : ResolvedSearchConfig)
    (cache : DirListingCache) : option ResolveResult * DirListingCache :=
  search_from filename start (drop (Z.to_nat start) (r_dirs config)) cache.

Definition resolve_include (filename : bytes) (is_angled : bool) (includer_entries : option (gset bytes))
    (includer_dir : bytes) (is_include_next : bool) (idx : Z) (config : ResolvedSearchConfig)
    (cache : DirListingCache) : option ResolveResult * DirListingCache :=
  if fs_is_absolute filename then
    (if fs_exists filename then Some (mkResolveResult filename 0) else None, cache)
  else if is_include_next then search_dirs filename (u32 (idx + 1)) config cache
  else
    let '(found, cache) :=
      match includer_entries with
      | Some entries => if is_angled then (false, cache) else check_in_dir includer_dir entries filename cache
      | None => (false, cache)
      end in
    if found then (Some (mkResolveResult (make_candidate includer_dir filename) 0), cache)
    else search_dirs filename (if is_angled then r_angled_start_idx config else 0) config cache.

(** The overload that resolves the configuration first. *)
Definition resolve_include_config (filename : bytes) (is_angled : bool) (includer_dir : bytes)
    (is_include_next : bool) (idx : Z) (config : SearchConfig) (cache : DirListingCache) :
    option ResolveResult * DirListingCache :=
  let '(resolved, cache) := resolve_search_config config cache in
  let '(entries, cache) :=
    match includer_dir with
    | [] => (None, cache)
    | _ => let '(e, cache) := resolve_dir includer_dir cache in (Some e, cache)
    end in
  resolve_include filename is_angled entries includer_dir is_include_next idx resolved cache.

(** ** Completion *)

Inductive CompletionContext := NoContext | IncludeQuoted (prefix : bytes) | IncludeAngled (prefix : bytes)
                             | Import (prefix : bytes).

Definition consume_front (prefix s : bytes) : option bytes :=
  if starts_with prefix s then Some (drop (length prefix) s) else None.

(** [rfind] is that of LLVM's [StringRef]. *)
Definition detect_completion_context (rfind : bytes → ascii → nat → option nat) (text : bytes) (offset : nat) :
    CompletionContext :=
  let line_start := match rfind text newline (offset - 1)%nat with Some p => S p | None => 0%nat end in
  let line := take (offset - line_start) (drop line_start text) in
  let trimmed := ltrim line in
  match consume_front (str "#") trimmed with
  | Some directive =>
    match consume_front (str "include") (ltrim directive) with
    | Some directive =>
      let directive := ltrim directive in
      match consume_front ["034"%char] directive, consume_front (str "<") directive with
      | Some d, _ => IncludeQuoted d
      | None, Some d => IncludeAngled d
      | None, None => NoContext
      end
    | None => NoContext
    end
  | None =>
    let import_check :=
      match consume_front (str "export") trimmed with
      | Some (c :: rest) => if isAlnum c then c :: rest else ltrim (c :: rest)
      | Some [] => []
      | None => trimmed
      end in
    match consume_front (str "import") import_check with
    | Some rest =>
      if match rest with [] => true | c :: _ => negb (isAlnum c) end then
        let line_end := match find_if (λ c, bool_decide (c = newline)) (drop offset text) with
                        | Some n => (offset + n)%nat
                        | None => length text
                        end in
        let rest_of_line := take (line_end - line_start) (drop line_start text) in
        if bool_decide (";"%char ∈ rest_of_line) then NoContext else Import (ltrim rest)
      else NoContext
    | None => NoContext
    end
  end.

(** The modules in the order of the map. *)
Definition complete_module_import (modules : list (Z * bytes)) (prefix : bytes) : list bytes :=
  filter (λ m, starts_with prefix m = true) (modules.*2).

Record IncludeCandidate := mkCandidate { c_name : bytes; c_is_dir : bool }.

(** Entries of one directory, [order] being the iteration order of the set. *)
Definition complete_entry (dir dir_prefix file_prefix name : bytes)
    (st : list IncludeCandidate * gset bytes) : list IncludeCandidate * gset bytes :=
  let '(results, seen) := st in
  if negb (starts_with file_prefix name) then st
  else if bool_decide (name ∈ seen) then st
  else
    let base := match dir_prefix with [] => dir | _ => path_append dir dir_prefix end in
    (results ++ [mkCandidate name (fs_is_directory (path_append base name))], {[name]} ∪ seen).

Fixpoint complete_dirs (order : gset bytes → list bytes) (dir_prefix file_prefix : bytes)
    (ds : list (bytes * gset bytes)) (st : list IncludeCandidate * gset bytes) (cache : DirListingCache) :
    (list IncludeCandidate * gset bytes) * DirListingCache :=
  match ds with
  | [] => (st, cache)
  | (dir, entries) :: ds =>
    let '(entries, cache) :=
      match dir_prefix with
      | [] => (entries, cache)
      | _ => resolve_dir (path_append dir dir_prefix) cache
      end in
    complete_dirs order dir_prefix file_prefix ds
      (foldl (λ st name, complete_entry dir dir_prefix file_prefix name st) st (order entries)) cache
  end.

(** Where the last slash splits the prefix. *)
Definition split_prefix (prefix : bytes) : bytes * bytes :=
  match find_if (λ c, bool_decide (c = "/"%char)) (reverse prefix) with
  | Some n => (take (length prefix - n - 1) prefix, drop (length prefix - n) prefix)
  | None => ([], prefix)
  end.

Definition complete_include_path (order : gset bytes → list bytes) (resolved : ResolvedSearchConfig)
    (prefix : bytes) (is_angled : bool) (cache : DirListingCache) : list IncludeCandidate * DirListingCache :=
  let '(dir_prefix, file_prefix) := split_prefix prefix in
  let start := if is_angled then r_angled_start_idx resolved else 0 in
  let '((results, _), cache) :=
    complete_dirs order dir_prefix file_prefix (drop (Z.to_nat start) (r_dirs resolved)) ([], ∅) cache in
  (results, cache).
End resolver.
