(* ===== verification/IncludeTheorems.v ===== *)
(** * What the include search guarantees *)
From S2P Require Import Prelude Text PathPool IndexData CommandDatabase IncludeResolver.
Local Open Scope Z_scope.
Local Open Scope cpp_scope.

(** ** Duplicates *)

(** The first occurrences, in order. *)
Fixpoint first_occurrences (seen : gset bytes) (l : list bytes) : list bytes :=
  match l with
  | [] => []
  | x :: l => if decide (x ∈ seen) then first_occurrences seen l
              else x :: first_occurrences ({[x]} ∪ seen) l
  end.

Lemma first_occurrences_app seen l k :
  first_occurrences seen (l ++ k) =
  first_occurrences seen l ++ first_occurrences (list_to_set l ∪ seen) k.
Proof.
  revert seen. induction l as [|x l IH]; intros seen; cbn.
  - f_equal. set_solver.
  - destruct (decide (x ∈ seen)); cbn; rewrite IH; [|f_equal]; f_equal; f_equal; set_solver.
Qed.

Lemma first_occurrences_snoc seen l x :
  first_occurrences seen (l ++ [x]) =
  first_occurrences seen l ++ (if decide (x ∈ (list_to_set l : gset bytes) ∪ seen) then [] else [x]).
Proof. rewrite first_occurrences_app. cbn. by case_decide. Qed.

Lemma first_occurrences_length seen l : (length (first_occurrences seen l) ≤ length l)%nat.
Proof.
  revert seen. induction l as [|x l IH]; intros seen; cbn; [done|].
  destruct (decide (x ∈ seen)); cbn; [specialize (IH seen)|specialize (IH ({[x]} ∪ seen))]; lia.
Qed.

Lemma elem_of_first_occurrences seen l x : x ∈ first_occurrences seen l ↔ x ∈ l ∧ x ∉ seen.
Proof.
  revert seen. induction l as [|y l IH]; intros seen; cbn; [set_solver|].
  destruct (decide (y ∈ seen)); [rewrite IH; set_solver|].
  rewrite elem_of_cons, IH. destruct (decide (x = y)); set_solver.
Qed.

Lemma NoDup_first_occurrences seen l : NoDup (first_occurrences seen l).
Proof.
  revert seen. induction l as [|y l IH]; intros seen; cbn; [constructor|].
  destruct (decide (y ∈ seen)); [done|]. constructor; [|done]. rewrite elem_of_first_occurrences. set_solver.
Qed.

Section dedup.
Context (quoted rest : list bytes) (system_start after_start : nat).
Abbreviation base := (length quoted).

(** After the first [n] directories that are not quoted. *)
Record deduped (n : nat) (d : Dedup) : Prop := {
  dd_front : take (d_write d) (d_dirs d) = quoted ++ first_occurrences ∅ (take n rest);
  dd_write : d_write d = (base + length (first_occurrences ∅ (take n rest)))%nat;
  dd_back : drop (base + n) (d_dirs d) = drop n rest;
  dd_length : length (d_dirs d) = (base + length rest)%nat;
  dd_seen : d_seen d = list_to_set (take n rest);
  dd_system : (removed_before_system d +
    length (first_occurrences ∅ (take (min n (system_start - base)) rest)) = min n (system_start - base))%nat;
  dd_after : (removed_before_after d +
    length (first_occurrences ∅ (take (min n (after_start - base)) rest)) = min n (after_start - base))%nat;
}.

(** Counting what was removed before a boundary [b]. *)
Lemma counted n b removed x :
  rest !! n = Some x →
  (removed + length (first_occurrences ∅ (take (min n b) rest)) = min n b)%nat →
  (removed + (if decide (x ∈ (list_to_set (take n rest) : gset bytes)) then
                if bool_decide (n < b)%nat then 1 else 0 else 0)
   + length (first_occurrences ∅ (take (min (S n) b) rest)) = min (S n) b)%nat.
Proof.
  intros Hx Hr. destruct (decide (n < b)%nat) as [Hb|Hb].
  - rewrite bool_decide_eq_true_2 by done. rewrite !Nat.min_l in * by lia.
    rewrite (take_S_r _ _ _ Hx), first_occurrences_snoc, length_app, union_empty_r_L.
    case_decide; cbn [length]; lia.
  - rewrite bool_decide_eq_false_2 by done. rewrite !Nat.min_r in * by lia. case_decide; lia.
Qed.

Lemma dedup_step_ok n d x :
  (base ≤ system_start ≤ after_start)%nat → rest !! n = Some x → deduped n d →
  ∃ d', dedup_step system_start after_start (base + n) d = Ok d' ∧ deduped (S n) d'.
Proof.
  intros Hb Hx [Hf Hw Hk Hl Hs H1 H2]. unfold dedup_step.
  assert (d_dirs d !! (base + n)%nat = Some x) as Hread.
  { rewrite <- (Nat.add_0_r (base + n)), <- lookup_drop, Hk, lookup_drop. by rewrite Nat.add_0_r. }
  rewrite Hread. cbn [read Res_bind].
  assert (n < length rest)%nat as Hn by (by apply lookup_lt_Some in Hx).
  pose proof (first_occurrences_length ∅ (take n rest)) as Hlen. rewrite length_take in Hlen.
  pose proof (counted n (system_start - base) _ x Hx H1) as C1.
  pose proof (counted n (after_start - base) _ x Hx H2) as C2.
  assert (∀ b, bool_decide (base + n < b)%nat = bool_decide (n < b - base)%nat) as Hbd
    by (intros b; apply bool_decide_ext; lia).
  assert (∀ k : list bytes, drop (base + S n) k = drop 1 (drop (base + n) k)) as Hdrop.
  { intros k. rewrite drop_drop. f_equal. lia. }
  destruct (decide (x ∈ d_seen d)) as [Hin|Hin].
  - rewrite (bool_decide_eq_true_2 _ Hin). rewrite Hs in Hin. eexists. split; [reflexivity|]. rewrite decide_True in C1, C2 by done.
    split; cbn [d_write d_dirs d_seen removed_before_system removed_before_after].
    + rewrite Hf, (take_S_r _ _ _ Hx), first_occurrences_snoc, union_empty_r_L, decide_True by done.
      by rewrite app_nil_r.
    + rewrite Hw, (take_S_r _ _ _ Hx), first_occurrences_snoc, union_empty_r_L, decide_True by done.
      by rewrite app_nil_r.
    + rewrite Hdrop, Hk, drop_drop. f_equal. lia.
    + done.
    + rewrite Hs, (take_S_r _ _ _ Hx). set_solver.
    + rewrite Hbd. lia.
    + rewrite Hbd. lia.
  - rewrite (bool_decide_eq_false_2 _ Hin). rewrite Hs in Hin. eexists. split; [reflexivity|]. rewrite decide_False in C1, C2 by done.
    split; cbn [d_write d_dirs d_seen removed_before_system removed_before_after].
    + rewrite (take_S_r _ _ _ Hx), first_occurrences_snoc, union_empty_r_L, decide_False by done.
      rewrite app_assoc, <- Hf. case_bool_decide as Ew.
      * apply take_S_r. by rewrite Ew.
      * rewrite (take_S_r _ _ x).
        -- by rewrite take_insert_ge by lia.
        -- apply list_lookup_insert_eq. lia.
    + rewrite (take_S_r _ _ _ Hx), first_occurrences_snoc, union_empty_r_L, decide_False by done.
      rewrite length_app, Hw. cbn. lia.
    + case_bool_decide; [|rewrite drop_insert_lt by lia]; rewrite Hdrop, Hk, drop_drop; f_equal; lia.
    + case_bool_decide; rewrite ?length_insert; done.
    + rewrite Hs, (take_S_r _ _ _ Hx). set_solver.
    + lia.
    + lia.
Qed.

Lemma dedup_ok :
  (base ≤ system_start ≤ after_start)%nat →
  ∃ d, dedup base system_start after_start (quoted ++ rest) = Ok d ∧ deduped (length rest) d.
Proof.
  intros Hb. unfold dedup. rewrite length_app. replace (base + length rest - base)%nat with (length rest) by lia.
  destruct (for_each_prefix (E := ()) (λ pre d, deduped (length pre) d) (seq base (length rest))
    (dedup_step system_start after_start) (mkDedup (quoted ++ rest) base ∅ 0 0)) as (d & Hd & Hok).
  - split; cbn [d_write d_dirs d_seen removed_before_system removed_before_after length].
    + rewrite take_app_length. cbn. by rewrite app_nil_r.
    + change (take 0 rest) with (@nil bytes). cbn [first_occurrences length]. by rewrite Nat.add_0_r.
    + by rewrite Nat.add_0_r, drop_app_length.
    + by rewrite length_app.
    + done.
    + done.
    + done.
  - intros pre i post d Heq Hd.
    assert (i = (base + length pre)%nat ∧ (length pre < length rest)%nat) as [-> Hlt].
    { assert (seq base (length rest) !! length pre = Some i) as Hi
        by (by rewrite Heq, lookup_app_r, Nat.sub_diag).
      apply lookup_seq in Hi. lia. }
    destruct (lookup_lt_is_Some_2 rest (length pre) Hlt) as [x Hx].
    destruct (dedup_step_ok _ _ x Hb Hx Hd) as (d' & Hs & Hd'). exists d'. split; [done|].
    rewrite length_app, Nat.add_1_r. done.
  - rewrite length_seq in Hok. by exists d.
Qed.
End dedup.

(** The search directories of a command line: the quoted ones are kept as given, the
    others once each at their first occurrence, and every start index is the position at
    which its group begins after the duplicates are gone. *)
Theorem search_config_keeps_first_occurrences (s : Segments) :
  Z.of_nat (length (quoted s ++ angled s ++ system s ++ after s)) < two32 →
  ∃ c, finish_config s = Ok c ∧
    dirs c = quoted s ++ first_occurrences ∅ (angled s ++ system s ++ after s) ∧
    angled_start_idx c = Z.of_nat (length (quoted s)) ∧
    system_start_idx c = Z.of_nat (length (quoted s ++ first_occurrences ∅ (angled s))) ∧
    after_start_idx c = Z.of_nat (length (quoted s ++ first_occurrences ∅ (angled s ++ system s))).
Proof.
  intros Hlen. unfold finish_config.
  set (ss := (length (quoted s) + length (angled s))%nat). set (sa := (ss + length (system s))%nat).
  destruct (dedup_ok (quoted s) (angled s ++ system s ++ after s) ss sa) as (d & -> & [Hf _ _ _ _ H1 H2]); [lia|].
  rewrite !length_app in *. cbn [Res_bind]. eexists. split; [reflexivity|].
  cbn [dirs angled_start_idx system_start_idx after_start_idx]. rewrite <- !length_app in Hf, H1, H2.
  assert (∀ (a b : list bytes), take (length a) (a ++ b) = a) as Htake by (intros; apply take_app_length).
  assert (ss - length (quoted s) = length (angled s))%nat as E1 by lia.
  assert (sa - length (quoted s) = length (angled s ++ system s))%nat as E2 by (rewrite length_app; lia).
  rewrite E1, Nat.min_r, Htake in H1 by (rewrite !length_app; lia).
  rewrite E2, Nat.min_r, app_assoc, Htake in H2 by (rewrite !length_app; lia).
  rewrite length_app in H2.
  pose proof (first_occurrences_length ∅ (angled s)) as L1.
  split_and!.
  - rewrite Hf, firstn_all. done.
  - unfold u32. apply Z.mod_small. lia.
  - unfold u32. rewrite Z.mod_small by lia. lia.
  - unfold u32. rewrite Z.mod_small by lia. lia.
Qed.

(** Four groups with duplicates within and across them. *)
Lemma search_config_keeps_first_occurrences_witness :
  ∃ c, finish_config (mkSegments [str "q"; str "a"] [str "a"; str "b"; str "a"] [str "b"; str "s"] [str "s"; str "t"] [])
    = Ok c ∧ dirs c = str <$> ["q"; "a"; "a"; "b"; "s"; "t"]%string ∧ system_start_idx c = 4 ∧ after_start_idx c = 5.
Proof.
  destruct (search_config_keeps_first_occurrences
    (mkSegments [str "q"; str "a"] [str "a"; str "b"; str "a"] [str "b"; str "s"] [str "s"; str "t"] []))
    as (c & Hc & Hd & _ & H1 & H2); [vm_compute; reflexivity|].
  exists c. split_and!; [exact Hc | rewrite Hd; vm_compute; reflexivity | rewrite H1; vm_compute; reflexivity |
    rewrite H2; vm_compute; reflexivity].
Defined.

(** ** Resolution *)

Section resolution.
Context `{FileSystem}.

(** The file is there, according to the disk: it is listed in the directory; or, when it has
    several components, the first of them is listed in the directory (or is a dot or two),
    and its name is listed in the directory the rest of the path leads to. *)
Definition in_dir (filename dir : bytes) : Prop :=
  if is_simple filename then filename ∈ readdir dir
  else (first_component filename = str "." ∨ first_component filename = str ".." ∨
        first_component filename ∈ readdir dir) ∧
       path_filename (path_append dir filename) ∈ readdir (parent_path (path_append dir filename)).
Global Instance in_dir_dec filename dir : Decision (in_dir filename dir).
Proof. unfold in_dir. destruct (is_simple filename); apply _. Defined.

Definition coherent (cache : gmap bytes (gset bytes)) : Prop :=
  ∀ dir entries, cache !! dir = Some entries → entries = readdir dir.

Definition config_ok (config : ResolvedSearchConfig) : Prop :=
  Forall (λ d, d.2 = readdir d.1) (r_dirs config).

Lemma resolve_dir_ok dir cache :
  coherent cache → (resolve_dir dir cache).1 = readdir dir ∧ coherent (resolve_dir dir cache).2.
Proof.
  intros Hc. unfold resolve_dir. destruct (cache !! dir) as [e|] eqn:E; cbn; [auto|]. split; [done|].
  intros d e. rewrite lookup_insert_Some. naive_solver.
Qed.

Lemma check_in_dir_ok dir filename cache :
  coherent cache →
  (check_in_dir dir (readdir dir) filename cache).1 = bool_decide (in_dir filename dir) ∧
  coherent (check_in_dir dir (readdir dir) filename cache).2.
Proof.
  intros Hc. unfold check_in_dir. destruct (is_simple filename) eqn:Es.
  { split; [|done]. cbn. apply bool_decide_ext. unfold in_dir. by rewrite Es. }
  destruct (_ && _) eqn:Eq.
  - apply andb_true_iff in Eq as [[E1 E2]%andb_true_iff E3].
    rewrite negb_true_iff, bool_decide_eq_false in E1, E2, E3. cbn. split; [|done].
    symmetry. apply bool_decide_eq_false. unfold in_dir. rewrite Es. naive_solver.
  - destruct (resolve_dir_ok (parent_path (path_append dir filename)) cache Hc) as [Hr Hc'].
    destruct (resolve_dir _ cache) as [e c]. cbn in *. subst e. split; [|done].
    apply bool_decide_ext. unfold in_dir. rewrite Es.
    rewrite !andb_false_iff, !negb_false_iff, !bool_decide_eq_true in Eq. tauto.
Qed.

(** The first directory from [start] on that has the file. *)
Definition first_with (filename : bytes) (start : Z) (ds : list (bytes * gset bytes)) : option ResolveResult :=
  match list_find (λ d, in_dir filename d.1) ds with
  | Some (k, d) => Some (mkResolveResult (make_candidate d.1 filename) (start + Z.of_nat k))
  | None => None
  end.

Lemma search_from_ok filename i ds cache :
  Forall (λ d, d.2 = readdir d.1) ds → coherent cache →
  (search_from filename i ds cache).1 = first_with filename i ds ∧ coherent (search_from filename i ds cache).2.
Proof.
  intros Hd. revert i cache. induction Hd as [|[dir e] ds He _ IH]; intros i cache Hc; [done|].
  cbn in He. subst e. cbn [search_from]. destruct (check_in_dir_ok dir filename cache Hc) as [Hk Hc'].
  destruct (check_in_dir _ _ _ _) as [found c]. cbn in Hk, Hc'. subst found.
  unfold first_with. cbn [list_find fst]. case_bool_decide as Hin.
  - rewrite decide_True by done. cbn. by rewrite Z.add_0_r.
  - rewrite decide_False by done. destruct (IH (i + 1) c Hc') as [Hr Hc'']. split; [|done].
    rewrite Hr. unfold first_with. destruct (list_find _ ds) as [[k d]|]; [|done]. cbn. do 2 f_equal. lia.
Qed.

(** Resolution without a cache and without shortcuts. *)
Definition plain_resolve (filename : bytes) (is_angled : bool) (includer : option bytes) (is_include_next : bool)
    (idx : Z) (config : ResolvedSearchConfig) : option ResolveResult :=
  let from start := first_with filename start (drop (Z.to_nat start) (r_dirs config)) in
  if fs_is_absolute filename then if fs_exists filename then Some (mkResolveResult filename 0) else None
  else if is_include_next then from (u32 (idx + 1))
  else match includer with
       | Some dir => if negb is_angled && bool_decide (in_dir filename dir)
                     then Some (mkResolveResult (make_candidate dir filename) 0)
                     else from (if is_angled then r_angled_start_idx config else 0)
       | None => from (if is_angled then r_angled_start_idx config else 0)
       end.

Lemma resolve_include_ok (filename includer_dir : bytes) (is_angled given is_include_next : bool) (idx : Z)
    (config : ResolvedSearchConfig) (cache : gmap bytes (gset bytes)) :
  config_ok config → coherent cache →
  let includer := if given then Some includer_dir else None in
  let r := resolve_include filename is_angled (readdir <$> includer) includer_dir is_include_next idx config cache in
  r.1 = plain_resolve filename is_angled includer is_include_next idx config ∧ coherent r.2.
Proof.
  intros Hcfg Hc includer r. unfold r, resolve_include, plain_resolve.
  assert (∀ start cache, coherent cache → (search_dirs filename start config cache).1 =
    first_with filename start (drop (Z.to_nat start) (r_dirs config)) ∧
    coherent (search_dirs filename start config cache).2) as Hs.
  { intros start c Hc'. apply search_from_ok; [by apply Forall_drop|done]. }
  destruct (fs_is_absolute filename); [done|]. destruct is_include_next; [by apply Hs|].
  unfold includer. destruct given; cbn [fmap option_fmap option_map]; [|by apply Hs].
  destruct is_angled; cbn [negb andb]; [by apply Hs|].
  destruct (check_in_dir_ok includer_dir filename cache Hc) as [Hk Hc'].
  destruct (check_in_dir _ _ _ _) as [found c]. cbn in Hk, Hc'. subst found.
  case_bool_decide; [done|]. by apply Hs.
Qed.

(** C25. Cached directory listings do not change what an include resolves to, as long as the
    cache and the configuration hold what the disk lists: it is the absolute path if it
    exists, else the file beside the includer, or the file in the first search directory
    that has it, counted from the group the directive may search.  A directory has a file
    of several components when the first is listed in it (or is a dot or two dots) and the
    last is listed in the directory the path leads to.  The cache stays true to the disk. *)
Theorem resolution_is_plain (filename includer_dir : bytes) (is_angled given is_include_next : bool) (idx : Z)
    (config : ResolvedSearchConfig) (cache : gmap bytes (gset bytes)) :
  config_ok config → coherent cache →
  let includer := if given then Some includer_dir else None in
  let r := resolve_include filename is_angled (readdir <$> includer) includer_dir is_include_next idx config cache in
  r.1 = plain_resolve filename is_angled includer is_include_next idx config ∧ coherent r.2.
Proof. apply resolve_include_ok. Qed.

Lemma resolve_dirs_ok ds cache :
  coherent cache → Forall (λ d, d.2 = readdir d.1) (resolve_dirs ds cache).1 ∧
    (resolve_dirs ds cache).1.*1 = ds ∧ coherent (resolve_dirs ds cache).2.
Proof.
  revert cache. induction ds as [|d ds IH]; intros cache Hc; cbn; [done|].
  destruct (resolve_dir_ok d cache Hc) as [He Hc']. destruct (resolve_dir d cache) as [e c]. cbn in He, Hc'.
  destruct (IH c Hc') as (Hf & Hl & Hc''). destruct (resolve_dirs ds c) as [rest c']. cbn in *.
  split_and!; [by constructor|by f_equal|done].
Qed.

(** ** Completion *)

Section completion.
Context (order : gset bytes → list bytes) (order_ok : ∀ s x, x ∈ order s ↔ x ∈ s).

Definition completed (P : bytes → Prop) (st : list IncludeCandidate * gset bytes) : Prop :=
  NoDup (c_name <$> st.1) ∧ ∀ x, (x ∈ c_name <$> st.1 ↔ x ∈ st.2) ∧ (x ∈ st.2 ↔ P x).

Lemma complete_entry_ok P dir dp fp name st :
  completed P st → completed (λ x, P x ∨ x = name ∧ starts_with fp x = true) (complete_entry dir dp fp name st).
Proof.
  destruct st as [rs seen]. intros [Hn Hs]. unfold complete_entry.
  destruct (starts_with fp name) eqn:E; cbn [negb].
  - case_bool_decide as Hin; cbn [fst snd] in *.
    + split; [done|]. intros x. destruct (Hs x) as [H1 H2]. split; [done|]. rewrite H2.
      destruct (Hs name) as [_ H3]. cbn in H3. naive_solver.
    + split; cbn [fst snd].
      * rewrite fmap_app. apply NoDup_app. split_and!; [done| |apply NoDup_singleton].
        intros x Hx ->%list_elem_of_singleton. cbn in *. apply Hin, (proj1 (Hs name)), Hx.
      * intros x. destruct (Hs x) as [H1 H2]. cbn [fst snd] in H1, H2. split.
        -- rewrite fmap_app, elem_of_app, H1. cbn. rewrite list_elem_of_singleton. set_solver.
        -- rewrite elem_of_union, elem_of_singleton, H2. naive_solver.
  - split; [done|]. intros x. destruct (Hs x) as [H1 H2]. split; [done|]. rewrite H2. naive_solver congruence.
Qed.

Lemma completed_ext P Q st : (∀ x, P x ↔ Q x) → completed P st → completed Q st.
Proof. intros He [Hn Hs]. split; [done|]. intros x. destruct (Hs x). split; [done|]. by rewrite <- He. Qed.

Lemma complete_entries_ok P dir dp fp names st :
  completed P st →
  completed (λ x, P x ∨ x ∈ names ∧ starts_with fp x = true)
    (foldl (λ st name, complete_entry dir dp fp name st) st names).
Proof.
  revert P st. induction names as [|n names IH]; intros P st Hc; cbn [foldl].
  - eapply completed_ext; [|done]. intros x. rewrite elem_of_nil. naive_solver.
  - eapply completed_ext; [|apply IH, complete_entry_ok, Hc]. intros x. cbn. rewrite elem_of_cons. naive_solver.
Qed.

Definition listing (dp dir : bytes) : gset bytes :=
  readdir (match dp with [] => dir | _ => path_append dir dp end).

Lemma complete_dirs_ok dp fp ds P st cache :
  Forall (λ d, d.2 = readdir d.1) ds → coherent cache → completed P st →
  completed (λ x, P x ∨ (∃ d, d ∈ ds ∧ x ∈ listing dp d.1) ∧ starts_with fp x = true)
    (complete_dirs order dp fp ds st cache).1.
Proof.
  intros Hd. revert P st cache. induction Hd as [|[dir e] ds He _ IH]; intros P st cache Hc Hst.
  - cbn. eapply completed_ext; [|done]. intros x. setoid_rewrite elem_of_nil. naive_solver.
  - cbn in He. subst e. cbn [complete_dirs].
    assert (∃ c', (match dp with [] => (readdir dir, cache) | _ => resolve_dir (path_append dir dp) cache end)
              = (listing dp dir, c') ∧ coherent c') as (c' & -> & Hc').
    { destruct dp as [|a dp]; [by eexists|].
      destruct (resolve_dir_ok (path_append dir (a :: dp)) cache Hc) as [Hr Hc'].
      destruct (resolve_dir _ cache) as [e c]. cbn in *. subst. by eexists. }
    eapply completed_ext; [|apply IH; [exact Hc'|apply complete_entries_ok, Hst]].
    intros x. cbn. setoid_rewrite elem_of_cons. rewrite order_ok. naive_solver.
Qed.

(** The completion of an include path offers every matching name once. *)
Lemma completion_offers_each_name_once resolved prefix is_angled cache :
  config_ok resolved → coherent cache →
  let results := (complete_include_path order resolved prefix is_angled cache).1 in
  let ds := drop (Z.to_nat (if is_angled then r_angled_start_idx resolved else 0)) (r_dirs resolved) in
  NoDup (c_name <$> results) ∧
  ∀ x, x ∈ c_name <$> results ↔
    (∃ d, d ∈ ds ∧ x ∈ listing (split_prefix prefix).1 d.1) ∧ starts_with (split_prefix prefix).2 x = true.
Proof.
  intros Hcfg Hc results ds. unfold results, complete_include_path. fold ds.
  destruct (split_prefix prefix) as [dp fp].
  pose proof (complete_dirs_ok dp fp ds (λ _, False) ([], ∅) cache) as Hd. cbn [fst snd].
  destruct (complete_dirs order dp fp ds ([], ∅) cache) as [[rs seen] c]. cbn [fst snd] in *.
  destruct Hd as [Hn Hs]; [by apply Forall_drop|done| |].
  - split; [constructor|]. intros x. cbn. rewrite elem_of_nil. set_solver.
  - split; [done|]. intros x. destruct (Hs x) as [-> H2]. rewrite H2. naive_solver.
Qed.
End completion.
End resolution.

(** ** An example *)

Definition not_slash (c : ascii) : bool := negb (bool_decide (c = "/"%char)).

(** One file, [/a/x]. *)
Definition example_readdir (dir : bytes) : gset bytes :=
  if decide (dir = []) then {[str "a"]} else if decide (dir = str "/a") then {[str "x"]} else ∅.

Definition example_fs : FileSystem := {|
  fs_is_absolute p := bool_decide (head p = Some "/"%char);
  fs_make_absolute dir p := dir ++ str "/" ++ p;
  remove_dots p := p;
  path_append dir p := dir ++ "/"%char :: p;
  parent_path p := reverse (drop 1 (drop_while not_slash (reverse p)));
  path_filename p := reverse (take_while not_slash (reverse p));
  fs_exists p := bool_decide (p = str "/a/x");
  fs_is_directory p := bool_decide (p = str "/a");
  readdir := example_readdir;
|}.

Lemma take_drop_slash s :
  "/"%char ∈ s → s = take_while not_slash s ++ "/"%char :: drop 1 (drop_while not_slash s).
Proof.
  induction s as [|c s IH]; intros Hin; [by apply elem_of_nil in Hin|]. cbn.
  unfold not_slash at 1 3. case_bool_decide as E; cbn [negb].
  - by subst.
  - cbn. f_equal. apply IH. apply elem_of_cons in Hin as [?|?]; congruence.
Qed.

Lemma example_split p :
  "/"%char ∈ p → p = @parent_path example_fs p ++ "/"%char :: @path_filename example_fs p.
Proof.
  intros Hin. cbn. rewrite <- (reverse_involutive p) at 1.
  rewrite (take_drop_slash (reverse p)) at 1 by (by rewrite elem_of_reverse).
  by rewrite reverse_app, reverse_cons, <- app_assoc.
Qed.

Definition example_config : ResolvedSearchConfig :=
  mkResolved [([], example_readdir []); (str "/a", example_readdir (str "/a"))] 0 2 2.

(** The resolution theorem at a path with two components. *)
Lemma resolution_is_plain_witness :
  (@resolve_include example_fs (str "a/x") true None [] false 0 example_config ∅).1 =
  Some (mkResolveResult (str "/a/x") 0).
Proof.
  destruct (@resolution_is_plain example_fs (str "a/x") [] true false false 0 example_config ∅)
    as [Hr _].
  - repeat constructor.
  - intros d e Hd. by rewrite lookup_empty in Hd.
  - cbn [fmap option_fmap option_map] in Hr. rewrite Hr. vm_compute. reflexivity.
Defined.

(** A file found beside its includer is reported with index 0, so that an [#include_next]
    in it does not look into the first search directory. *)
Lemma include_next_skips_first_directory :
  let config := mkResolved [(str "/a", example_readdir (str "/a"))] 0 1 1 in
  (@resolve_include example_fs (str "a") false (Some (example_readdir [])) [] false 0 config ∅).1 =
    Some (mkResolveResult (str "/a") 0) ∧
  (@resolve_include example_fs (str "x") false (Some (example_readdir [])) [] true 0 config ∅).1 = None.
Proof. split; vm_compute; reflexivity. Qed.

(** With a search that only looks below its bound, the newline right before the cursor is
    missed: on the empty line after an unfinished import the context is the import. *)
Lemma empty_line_completes_the_line_above rfind :
  (∀ s c n p, rfind s c n = Some p → (p < n)%nat ∧ s !! p = Some c) →
  detect_completion_context rfind (str "import a" ++ [newline]) 9 = Import (str "a" ++ [newline]).
Proof.
  intros Hr. unfold detect_completion_context.
  destruct (rfind _ newline (9 - 1)%nat) as [p|] eqn:E; [|vm_compute; reflexivity].
  apply Hr in E as [Hp Hn]. do 8 (destruct p as [|p]; [discriminate Hn|]). lia.
Qed.
