(* ===== verification/Scanner.v ===== *)
(** * Scanning one file (src/syntax/scan.{h,cpp})

    [scan] finds the includes and the module declaration of a text from the directives
    clang's dependency scanner reports, a parameter; the preamble functions bound the
    part of a text that a precompiled header may cover and tell whether it is complete
    as typed. *)
From S2P Require Import Prelude Text IndexData Lexer.
From stdpp Require Import list.
Local Open Scope Z_scope.
Local Open Scope cpp_scope.

Record IncludeInfo := mkIncludeInfo {
  path : bytes;
  conditional : bool;
  not_found : bool;
  is_angled : bool;
  is_include_next : bool;
}.

Record ScanResult := mkScanResult {
  module_name : bytes;
  is_interface_unit : bool;
  need_preprocess : bool;
  includes : list IncludeInfo;
  modules : list bytes;
}.

Definition no_result : ScanResult := mkScanResult [] false false [] [].

(** A directive of clang's scanner: its kind, without the prefix, and its tokens. *)
Record DirectiveToken := mkDirectiveToken { tok_kind : TokenKind; tok_offset : Z; tok_length : Z }.
Record Directive := mkDirective { dir_kind : string; dir_tokens : list DirectiveToken }.

Definition spelling (content : bytes) (t : DirectiveToken) : bytes :=
  substr content (tok_offset t) (tok_length t).

Definition is_conditional_start (k : string) : bool := bool_decide (k ∈ ["pp_if"; "pp_ifdef"; "pp_ifndef"]%string).
Definition is_include_directive (k : string) : bool :=
  bool_decide (k ∈ ["pp_include"; "pp_include_next"; "pp___include_macros"]%string).
Definition is_module_directive (k : string) : bool :=
  bool_decide (k ∈ ["cxx_module_decl"; "cxx_export_module_decl"]%string).

Definition is_header_token (t : DirectiveToken) : Prop :=
  tok_kind t = "header_name"%string ∨ tok_kind t = "string_literal"%string.

(** The include of a directive, if it names one. *)
Definition directive_include (content : bytes) (depth : Z) (d : Directive) : option IncludeInfo :=
  match list_find (λ t, tok_kind t = "header_name"%string ∨ tok_kind t = "string_literal"%string)
          (dir_tokens d) with
  | None => None
  | Some (_, t) =>
    match spelling content t with
    | (c :: _ :: _) as name =>
      Some (mkIncludeInfo (take (length name - 2) (drop 1 name)) (0 <? depth) false
              (bool_decide (c = "<"%char)) (bool_decide (dir_kind d = "pp_include_next"%string)))
    | _ => None
    end
  end.

(** The name after the keyword [module]. *)
Fixpoint module_name_from (content : bytes) (seen_keyword : bool) (tokens : list DirectiveToken) (name : bytes) :
    bytes :=
  match tokens with
  | [] => name
  | t :: tokens =>
    if negb seen_keyword then
      module_name_from content
        (bool_decide (tok_kind t = "raw_identifier"%string) && bool_decide (spelling content t = str "module"))
        tokens name
    else
      module_name_from content true tokens
        (if decide (tok_kind t = "raw_identifier"%string) then name ++ spelling content t
         else if decide (tok_kind t = "period"%string) then name ++ str "."
         else if decide (tok_kind t = "colon"%string) then name ++ str ":"
         else name)
  end.

(** The loop of [scan]. *)
Fixpoint scan_directives (content : bytes) (ds : list Directive) (depth : Z) (r : ScanResult) : ScanResult :=
  match ds with
  | [] => r
  | d :: ds =>
    let k := dir_kind d in
    if is_conditional_start k then scan_directives content ds (depth + 1) r
    else if bool_decide (k = "pp_endif"%string) then
      scan_directives content ds (if 0 <? depth then depth - 1 else depth) r
    else if is_include_directive k then
      scan_directives content ds depth
        (mkScanResult (module_name r) (is_interface_unit r) (need_preprocess r)
           (includes r ++ option_list (directive_include content depth d)) (modules r))
    else if is_module_directive k then
      if 0 <? depth then
        mkScanResult (module_name r) (is_interface_unit r) true (includes r) (modules r)
      else
        scan_directives content ds depth
          (mkScanResult (module_name_from content false (dir_tokens d) [])
             (bool_decide (k = "cxx_export_module_decl"%string)) (need_preprocess r) (includes r) (modules r))
    else scan_directives content ds depth r
  end.

Section scan.
(** [clang::scanSourceForDependencyDirectives], [None] when it fails. *)
Context (scan_source : bytes → option (list Directive)).

Definition scan (content : bytes) : ScanResult :=
  match scan_source content with
  | None => no_result
  | Some ds => scan_directives content ds 0 no_result
  end.
End scan.

(** ** The callbacks of the precise scan *)

Record Precise := mkPrecise { p_includes : list IncludeInfo; p_modules : list bytes; p_depth : Z }.

Definition InclusionDirective (file_name : bytes) (angled : bool) (file : option bytes) (next : bool)
    (p : Precise) : Precise :=
  mkPrecise (p_includes p ++ [mkIncludeInfo (default file_name file) (0 <? p_depth p)
               (bool_decide (file = None)) angled next]) (p_modules p) (p_depth p).
Definition enter_conditional (p : Precise) : Precise := mkPrecise (p_includes p) (p_modules p) (p_depth p + 1).
Definition Endif (p : Precise) : Precise :=
  mkPrecise (p_includes p) (p_modules p) (if 0 <? p_depth p then p_depth p - 1 else p_depth p).
Definition moduleImport (names : list bytes) (p : Precise) : Precise :=
  let name := foldl (λ name part, (match name with [] => [] | _ => name ++ str "." end) ++ part) [] names in
  mkPrecise (p_includes p) (p_modules p ++ [name]) (p_depth p).

(** ** The preamble *)

Section preamble.
Context `{RawLexer}.

Fixpoint bounds_loop (fuel : nat) (content : bytes) (l : Lexer) (result : list Z) : option (list Z) :=
  match fuel with
  | O => None
  | S fuel =>
    let '(token, l) := advance l in
    if is_eof token then Some result
    else if is_at_start_of_line token then
      if has_kind "hash" token then
        match advance_until fuel "eod" l with
        | None => None
        | Some (_, l) => bounds_loop fuel content l (result ++ [range_end (range (Lexer.last l))])
        end
      else if is_identifier token && bool_decide (text token content = str "module") then
        let '(next, l) := next l in
        if has_kind "semi" next then
          let '(_, l) := advance l in bounds_loop fuel content l (result ++ [range_end (range next)])
        else Some result
      else Some result
    else bounds_loop fuel content l result
  end.

Definition compute_preamble_bounds (fuel : nat) (content : bytes) : option (list Z) :=
  bounds_loop fuel content (new_lexer content true) [].

Definition compute_preamble_bound (fuel : nat) (content : bytes) : option Z :=
  match compute_preamble_bounds fuel content with
  | Some bounds => Some (default 0 (last bounds))
  | None => None
  end.
End preamble.

Definition count_char (c : ascii) (s : bytes) : nat := length (filter (c =.) s).
Definition quote : ascii := "034"%char.

Definition is_include_directive_complete (directive : bytes) : bool :=
  let after_keyword := drop (if starts_with (str "import") directive then 6 else 7) directive in
  if bool_decide (quote ∈ directive) then bool_decide (2 ≤ count_char quote after_keyword)%nat
  else if bool_decide ("<"%char ∈ directive) then bool_decide (">"%char ∈ directive)
  else negb (bool_decide (ltrim after_keyword = [])).

Definition is_module_statement_complete (trimmed : bytes) : bool := ends_with (str ";") (rtrim trimmed).

Definition is_keyword (s keyword : bytes) : bool :=
  starts_with keyword s && match drop (length keyword) s with [] => true | c :: _ => negb (isAlnum c) end.

(** One line of the preamble. *)
Definition line_complete (line : bytes) : bool :=
  let trimmed := ltrim line in
  if starts_with (str "#") trimmed then
    let directive := ltrim (drop 1 trimmed) in
    if starts_with (str "include") directive || starts_with (str "import") directive
    then is_include_directive_complete directive else true
  else if is_keyword trimmed (str "import") || is_keyword trimmed (str "export")
  then is_module_statement_complete trimmed
  else true.

(** The loop; a line is what precedes the next line break. *)
Fixpoint complete_loop (fuel : nat) (preamble : bytes) : option bool :=
  match fuel with
  | O => None
  | S fuel =>
    match preamble with
    | [] => Some true
    | _ =>
      let line := take_while (λ c, negb (bool_decide (c = newline))) preamble in
      if line_complete line then complete_loop fuel (drop (S (length line)) preamble) else Some false
    end
  end.

Definition is_preamble_complete (fuel : nat) (content : bytes) (bound : nat) : option bool :=
  complete_loop fuel (take bound content).

(** ** Properties *)

(** The nesting depth before a directive. *)
Definition nesting (before : list Directive) : Z :=
  foldl (λ depth d, if is_conditional_start (dir_kind d) then depth + 1
                    else if bool_decide (dir_kind d = "pp_endif"%string) then if 0 <? depth then depth - 1 else depth
                    else depth) 0 before.

(** What the includes should be: one per include directive that names a file, flagged
    when it is inside a conditional. *)
Fixpoint expected_includes (content : bytes) (before ds : list Directive) : list IncludeInfo :=
  match ds with
  | [] => []
  | d :: ds =>
    (if is_include_directive (dir_kind d) then option_list (directive_include content (nesting before) d) else [])
    ++ expected_includes content (before ++ [d]) ds
  end.

Definition conditional_module (before : list Directive) (d : Directive) : bool :=
  is_module_directive (dir_kind d) && (0 <? nesting before).

(** The directives before a conditional module declaration. *)
Fixpoint before_conditional_module (before ds : list Directive) : list Directive :=
  match ds with
  | [] => []
  | d :: ds => if conditional_module before d then [] else d :: before_conditional_module (before ++ [d]) ds
  end.

Lemma nesting_snoc before d :
  nesting (before ++ [d]) =
  if is_conditional_start (dir_kind d) then nesting before + 1
  else if bool_decide (dir_kind d = "pp_endif"%string)
       then if 0 <? nesting before then nesting before - 1 else nesting before
       else nesting before.
Proof. unfold nesting. by rewrite foldl_app. Qed.

Lemma kinds_apart k :
  (is_conditional_start k = true → is_include_directive k = false ∧ is_module_directive k = false) ∧
  (k = "pp_endif"%string → is_conditional_start k = false ∧ is_include_directive k = false ∧ is_module_directive k = false) ∧
  (is_include_directive k = true → is_module_directive k = false).
Proof.
  unfold is_conditional_start, is_include_directive, is_module_directive. rewrite !bool_decide_eq_true.
  split_and!; [intros Hk; rewrite !elem_of_cons, elem_of_nil in Hk; destruct_or! Hk; subst; try done; by split
    | intros ->; done | intros Hk; rewrite !elem_of_cons, elem_of_nil in Hk; destruct_or! Hk; subst; done].
Qed.

Lemma scan_directives_includes content before ds r :
  includes (scan_directives content ds (nesting before) r) =
    includes r ++ expected_includes content before (before_conditional_module before ds) ∧
  (need_preprocess (scan_directives content ds (nesting before) r) =
     need_preprocess r || negb (bool_decide (length (before_conditional_module before ds) = length ds))).
Proof.
  revert before r. induction ds as [|d ds IH]; intros before r.
  { cbn. rewrite app_nil_r. split; [done|]. by rewrite orb_false_r. }
  destruct (kinds_apart (dir_kind d)) as (K1 & K2 & K3).
  cbn [scan_directives before_conditional_module]. unfold conditional_module.
  assert (∀ n m : nat, bool_decide (S n = S m) = bool_decide (n = m)) as HS
    by (intros; apply bool_decide_ext; lia).
  pose proof (nesting_snoc before d) as Hn.
  destruct (is_conditional_start (dir_kind d)) eqn:E1.
  { destruct K1 as [Ei Em]; [done|]. rewrite Em. cbn [andb]. rewrite <- Hn. destruct (IH (before ++ [d]) r) as [-> ->].
    cbn [expected_includes length]. rewrite Ei, HS. done. }
  case_bool_decide as E2.
  { destruct (K2 E2) as (_ & Ei & Em). rewrite Em. cbn [andb]. rewrite <- Hn.
    destruct (IH (before ++ [d]) r) as [-> ->]. cbn [expected_includes length]. rewrite Ei, HS. done. }
  destruct (is_include_directive (dir_kind d)) eqn:E3.
  { rewrite K3 by done. cbn [andb]. rewrite <- Hn. rewrite Hn at 1. rewrite <- Hn.
    match goal with |- includes (scan_directives _ _ _ ?r') = _ ∧ _ => destruct (IH (before ++ [d]) r') as [-> ->] end.
    cbn [expected_includes length includes need_preprocess]. rewrite E3, HS, Hn. split; [|done].
    by rewrite <- app_assoc. }
  destruct (is_module_directive (dir_kind d)) eqn:E4; cbn [andb].
  - destruct (0 <? nesting before) eqn:E5.
    + cbn. rewrite app_nil_r. split; [done|]. by rewrite orb_true_r.
    + rewrite <- Hn.
      match goal with |- includes (scan_directives _ _ _ ?r') = _ ∧ _ => destruct (IH (before ++ [d]) r') as [-> ->] end.
      cbn [expected_includes length includes need_preprocess]. rewrite E3, HS. done.
  - rewrite <- Hn. destruct (IH (before ++ [d]) r) as [-> ->]. cbn [expected_includes length]. rewrite E3, HS. done.
Qed.

(** ** The same, said of positions *)

Definition opens (d : Directive) : Prop :=
  dir_kind d = "pp_if"%string ∨ dir_kind d = "pp_ifdef"%string ∨ dir_kind d = "pp_ifndef"%string.
Definition closes (d : Directive) : Prop := dir_kind d = "pp_endif"%string.
Global Instance opens_dec d : Decision (opens d).
Proof. unfold opens. apply _. Defined.
Global Instance closes_dec d : Decision (closes d).
Proof. unfold closes. apply _. Defined.

(** More conditionals are opened than closed, by so many. *)
Definition surplus (l : list Directive) : Z :=
  Z.of_nat (length (filter opens l)) - Z.of_nat (length (filter closes l)).

(** Some conditional opened in [before] has not been closed since. *)
Definition inside_conditional (before : list Directive) : Prop :=
  ∃ pre o post, before = pre ++ o :: post ∧ opens o ∧ ∀ mid, mid `prefix_of` post → 0 ≤ surplus mid.

Definition is_header (t : DirectiveToken) : Prop :=
  tok_kind t = "header_name"%string ∨ tok_kind t = "string_literal"%string.

(** The include a directive stands for: the first header name or string among its tokens,
    without its delimiters. *)
Definition stands_for (content : bytes) (before : list Directive) (d : Directive) (info : IncludeInfo) : Prop :=
  (dir_kind d = "pp_include"%string ∨ dir_kind d = "pp_include_next"%string ∨
   dir_kind d = "pp___include_macros"%string) ∧
  ∃ pre t post open name close, dir_tokens d = pre ++ t :: post ∧ Forall (λ t, ¬ is_header t) pre ∧ is_header t ∧
    spelling content t = open :: name ++ [close] ∧ path info = name ∧ not_found info = false ∧
    (conditional info = true ↔ inside_conditional before) ∧ (is_angled info = true ↔ open = "<"%char) ∧
    (is_include_next info = true ↔ dir_kind d = "pp_include_next"%string).

(** One include per directive that stands for one. *)
Inductive includes_of (content : bytes) : list Directive → list Directive → list IncludeInfo → Prop :=
| includes_nil before : includes_of content before [] []
| includes_one before d ds info l :
    stands_for content before d info → includes_of content (before ++ [d]) ds l →
    includes_of content before (d :: ds) (info :: l)
| includes_skip before d ds l :
    (∀ info, ¬ stands_for content before d info) → includes_of content (before ++ [d]) ds l →
    includes_of content before (d :: ds) l.

Definition declares_module (d : Directive) : Prop :=
  dir_kind d = "cxx_module_decl"%string ∨ dir_kind d = "cxx_export_module_decl"%string.

Lemma surplus_app l k : surplus (l ++ k) = surplus l + surplus k.
Proof. unfold surplus. rewrite !filter_app, !length_app. lia. Qed.

Lemma surplus_one d : surplus [d] = if decide (opens d) then 1 else if decide (closes d) then -1 else 0.
Proof.
  unfold surplus. rewrite !filter_cons, !filter_nil.
  destruct (decide (opens d)) as [Ho|]; destruct (decide (closes d)) as [Hc|]; try done.
  exfalso. unfold opens, closes in *. rewrite Hc in Ho. by destruct_or! Ho.
Qed.

Lemma nesting_step before d :
  nesting (before ++ [d]) = Z.max (nesting before + surplus [d]) 0 ∧ 0 ≤ nesting before.
Proof.
  assert (0 ≤ nesting before) as Hn.
  { induction before as [|x l IH] using rev_ind; [done|]. rewrite nesting_snoc.
    destruct (is_conditional_start _); [lia|]. case_bool_decide; [|done]. destruct (Z.ltb_spec 0 (nesting l)); lia. }
  split; [|done]. rewrite nesting_snoc, surplus_one.
  assert (is_conditional_start (dir_kind d) = bool_decide (opens d)) as ->.
  { unfold is_conditional_start, opens. apply bool_decide_ext. set_solver. }
  rewrite bool_decide_decide. destruct (decide (opens d)); [lia|].
  rewrite bool_decide_decide. unfold closes. destruct (decide (dir_kind d = "pp_endif"%string)); [|lia].
  destruct (Z.ltb_spec 0 (nesting before)); lia.
Qed.

(** The depth is the largest surplus of an end of the list. *)
Lemma nesting_suffixes before :
  (∀ pre l, before = pre ++ l → surplus l ≤ nesting before) ∧
  ∃ pre l, before = pre ++ l ∧ surplus l = nesting before.
Proof.
  induction before as [|d before [IH1 (p0 & l0 & E0 & IH2)]] using rev_ind.
  { split; [|by exists [], []]. intros pre l Hl. symmetry in Hl. apply app_nil in Hl as [_ ->]. done. }
  destruct (nesting_step before d) as [-> Hn]. split.
  - intros pre l Hl. destruct l as [|x l _] using rev_ind; [change (surplus []) with 0; lia|].
    rewrite app_assoc in Hl. apply app_inj_tail in Hl as [Hl <-]. rewrite surplus_app.
    specialize (IH1 pre l Hl). lia.
  - destruct (decide (0 ≤ nesting before + surplus [d])).
    + exists p0, (l0 ++ [d]). rewrite app_assoc, <- E0. split; [done|]. rewrite surplus_app. lia.
    + exists (before ++ [d]), []. rewrite app_nil_r. split; [done|]. change (surplus []) with 0. lia.
Qed.

(** A list has an end of positive surplus only from an opening that is not closed. *)
Lemma first_unclosed l :
  (∀ pre k, l = pre ++ k → surplus k ≤ 0) ∨ inside_conditional l.
Proof.
  induction l as [|d l [IH|(pre & o & post & -> & Ho & Hmid)]].
  - left. intros pre k Hk. symmetry in Hk. apply app_nil in Hk as [_ ->]. done.
  - destruct (decide (surplus (d :: l) ≤ 0)) as [Hle|Hgt].
    + left. intros [|x pre] k Hk; cbn in Hk; [by subst|]. injection Hk as _ Hk. by apply (IH pre).
    + right. change (d :: l) with ([d] ++ l) in Hgt. rewrite surplus_app, surplus_one in Hgt.
      pose proof (IH [] l eq_refl). exists [], d, l. split; [done|].
      destruct (decide (opens d)) as [Ho|]; [|by destruct (decide (closes d)); lia].
      split; [done|]. intros mid (rest & Hr). pose proof (IH mid rest Hr).
      rewrite Hr in Hgt. rewrite surplus_app in Hgt. lia.
  - right. by exists (d :: pre), o, post.
Qed.

Lemma nesting_inside before : 0 < nesting before ↔ inside_conditional before.
Proof.
  destruct (nesting_suffixes before) as [H1 (p & l & E & H2)]. split.
  - intros Hpos. destruct (first_unclosed before) as [Hno|]; [|done]. specialize (Hno p l E). lia.
  - intros (pre & o & post & Hb & Ho & Hmid). specialize (H1 pre (o :: post) Hb).
    change (o :: post) with ([o] ++ post) in H1. rewrite surplus_app, surplus_one, decide_True in H1 by done.
    specialize (Hmid post ltac:(done)). lia.
Qed.

(** The loop's include is the one the directive stands for. *)
Lemma directive_include_stands content before d :
  is_include_directive (dir_kind d) = true →
  match directive_include content (nesting before) d with
  | Some info => stands_for content before d info
  | None => ∀ info, ¬ stands_for content before d info
  end.
Proof.
  intros Hk%bool_decide_eq_true. assert (dir_kind d = "pp_include"%string ∨ dir_kind d = "pp_include_next"%string ∨
    dir_kind d = "pp___include_macros"%string) as Hkind by set_solver. clear Hk.
  unfold directive_include.
  assert (∀ info, stands_for content before d info → ∃ i t open name close,
    list_find is_header (dir_tokens d) = Some (i, t) ∧ spelling content t = open :: name ++ [close]) as Hfind.
  { intros info (_ & pre & t & post & o & name & c & Ht & Hpre & Hh & Hs & _). exists (length pre), t, o, name, c.
    split; [|done]. apply list_find_Some. rewrite Ht. split; [by rewrite lookup_app_r, Nat.sub_diag|].
    split; [done|]. intros j y Hy Hj. rewrite lookup_app_l in Hy by done.
    rewrite Forall_forall in Hpre. apply Hpre. by eapply list_elem_of_lookup_2. }
  change (list_find (λ t, tok_kind t = "header_name"%string ∨ tok_kind t = "string_literal"%string) (dir_tokens d))
    with (list_find is_header (dir_tokens d)).
  destruct (list_find is_header (dir_tokens d)) as [[i t]|] eqn:Ef.
  2: { intros info (i & t & ? & ? & ? & [=] & _)%Hfind. }
  apply list_find_Some in Ef as (Hi & Hh & Hbefore).
  destruct (spelling content t) as [|o [|c name]] eqn:Hs.
  1, 2: intros info (i' & t' & o' & n' & c' & [= <- <-] & Hs')%Hfind; rewrite Hs in Hs'; by destruct n'.
  destruct (exists_last (l := c :: name)) as (mid & close & Hmid); [done|]. rewrite Hmid.
  split; [done|]. exists (take i (dir_tokens d)), t, (drop (S i) (dir_tokens d)), o, mid, close.
  split_and!; cbn [path conditional not_found is_angled is_include_next].
  - by rewrite take_drop_middle.
  - apply Forall_forall. intros x [j Hj]%list_elem_of_lookup. apply lookup_take_Some in Hj as [Hj Hlt]. eauto.
  - done.
  - by rewrite Hs, Hmid.
  - cbn [drop length]. rewrite length_app. cbn [length]. replace (S (length mid + 1) - 2)%nat with (length mid) by lia.
    by rewrite drop_0, take_app_length.
  - done.
  - rewrite <- nesting_inside. apply Z.ltb_lt.
  - apply bool_decide_eq_true.
  - apply bool_decide_eq_true.
Qed.

Lemma expected_includes_of content before ds : includes_of content before ds (expected_includes content before ds).
Proof.
  revert before. induction ds as [|d ds IH]; intros before; cbn [expected_includes]; [constructor|].
  destruct (is_include_directive (dir_kind d)) eqn:Ek.
  - pose proof (directive_include_stands content before d Ek) as Hd.
    destruct (directive_include content (nesting before) d); cbn; [by apply includes_one|by apply includes_skip].
  - cbn. apply includes_skip; [|done]. intros info [Hk _]. apply bool_decide_eq_false in Ek. set_solver.
Qed.

Lemma conditional_module_inside before d :
  conditional_module before d = true ↔ declares_module d ∧ inside_conditional before.
Proof.
  unfold conditional_module, is_module_directive, declares_module.
  rewrite andb_true_iff, bool_decide_eq_true, Z.ltb_lt, nesting_inside. set_solver.
Qed.

(** What comes before a module declaration in a conditional. *)
Lemma before_conditional_module_split before ds :
  let seen := before_conditional_module before ds in
  (∀ pre d post, seen = pre ++ d :: post → declares_module d → ¬ inside_conditional (before ++ pre)) ∧
  (seen = ds ∨ ∃ m rest, ds = seen ++ m :: rest ∧ declares_module m ∧ inside_conditional (before ++ seen)).
Proof.
  revert before. induction ds as [|d ds IH]; intros before; cbn [before_conditional_module].
  { split; [|by left]. intros [] ? ? Hx; discriminate Hx. }
  destruct (conditional_module before d) eqn:Ec.
  - apply conditional_module_inside in Ec as [Hm Hi]. split; [by intros [] ? ? Hx; discriminate Hx|].
    right. exists d, ds. by rewrite app_nil_r.
  - destruct (IH (before ++ [d])) as [H1 H2]. split.
    + intros [|x pre] e post Hx Hm Hin; cbn in Hx; injection Hx as -> Hx.
      * rewrite app_nil_r in Hin. assert (conditional_module before e = true) by (by apply conditional_module_inside).
        congruence.
      * apply (H1 pre e post Hx Hm). by rewrite <- app_assoc.
    + destruct H2 as [H2|(m & rest & Hds & Hm & Hin)]; [left; by rewrite H2|right].
      exists m, rest. split; [by rewrite Hds at 1|]. split; [done|]. by rewrite <- app_assoc in Hin.
Qed.

(** C26. When clang's scanner gives the directives of a file, the quick scan reports one
    include per include directive (#include, #include_next, #__include_macros) with a header name
    or string of at least two characters: its first such token without the delimiters,
    angled when it begins with <, marked for #include_next, and conditional exactly when
    some #if, #ifdef or #ifndef before it has not been closed by its #endif.  It goes up to
    the first module declaration that stands inside a conditional, at which it asks for a
    preprocessor and stops, and otherwise through all directives without asking. *)
Theorem scan_reports_the_includes (scan_source : bytes → option (list Directive)) (content : bytes) (ds : list Directive) :
  scan_source content = Some ds →
  ∃ seen, includes_of content [] seen (includes (scan scan_source content)) ∧
    (∀ pre d post, seen = pre ++ d :: post → declares_module d → ¬ inside_conditional pre) ∧
    (seen = ds ∧ need_preprocess (scan scan_source content) = false ∨
     (∃ m rest, ds = seen ++ m :: rest ∧ declares_module m ∧ inside_conditional seen) ∧
     need_preprocess (scan scan_source content) = true).
Proof.
  intros Hs. unfold scan. rewrite Hs. exists (before_conditional_module [] ds).
  destruct (scan_directives_includes content [] ds no_result) as [Hi Hn]. change (nesting []) with 0 in Hi, Hn.
  rewrite Hi, Hn. cbn [includes need_preprocess no_result orb app].
  destruct (before_conditional_module_split [] ds) as [H1 H2]. split_and!.
  - apply expected_includes_of.
  - exact H1.
  - destruct H2 as [H2|(m & rest & Hds & Hm & Hin)].
    + left. split; [done|]. by rewrite H2, bool_decide_eq_true_2.
    + right. split; [by exists m, rest|]. rewrite bool_decide_eq_false_2; [done|].
      rewrite Hds at 2. rewrite length_app. cbn. lia.
Qed.

Definition include_line : bytes := str "<v>#".

(** A file with a plain include, one that is next and inside two conditionals, one after
    both are closed, and one after a module declaration in a conditional, which is lost. *)
Definition demo_directives : list Directive :=
  let header := mkDirectiveToken "header_name" 0 3 in
  let inc := mkDirective "pp_include" [header] in
  [inc; mkDirective "pp_ifndef" []; mkDirective "pp_if" []; mkDirective "pp_include_next" [header];
   mkDirective "pp_endif" []; mkDirective "pp_endif" []; inc; mkDirective "pp_ifdef" [];
   mkDirective "cxx_export_module_decl" []; mkDirective "pp_endif" []; inc].

Lemma scan_reports_the_includes_witness :
  includes (scan (λ _, Some demo_directives) include_line) =
    [mkIncludeInfo (str "v") false false true false; mkIncludeInfo (str "v") true false true true;
     mkIncludeInfo (str "v") false false true false] ∧
  ∃ seen m rest, includes_of include_line [] seen (includes (scan (λ _, Some demo_directives) include_line)) ∧
    demo_directives = seen ++ m :: rest ∧ declares_module m ∧ inside_conditional seen.
Proof.
  split; [vm_compute; reflexivity|].
  destruct (scan_reports_the_includes (λ _, Some demo_directives) include_line demo_directives)
    as (seen & Hi & _ & Hcase); [reflexivity|].
  destruct Hcase as [[_ Hn]|[(m & rest & Hs & Hm & Hin) _]].
  - exfalso. vm_compute in Hn. discriminate Hn.
  - exists seen, m, rest. split; [exact Hi|]. split; [exact Hs|]. split; [exact Hm|exact Hin].
Defined.

(** The preamble is complete when every line is. *)
Lemma complete_loop_lines fuel preamble :
  (length preamble < fuel)%nat →
  complete_loop fuel preamble = Some (forallb line_complete (split_on newline preamble)).
Proof.
  assert (∀ s, split_on newline s =
    let line := take_while (λ c, negb (bool_decide (c = newline))) s in
    line :: match drop (length line) s with [] => [] | _ :: rest => split_on newline rest end) as Hsplit.
  { induction s as [|c s IH]; [done|]. cbn [split_on take_while]. case_bool_decide as E; cbn [negb].
    - cbn [length drop]. rewrite IH. cbn beta iota zeta. by rewrite decide_True.
    - rewrite IH. cbn beta iota zeta. rewrite decide_False by done. cbn [length drop]. done. }
  revert preamble. induction fuel as [|fuel IH]; intros p Hf; [lia|]. cbn [complete_loop].
  destruct p as [|c p]; [done|]. rewrite Hsplit.
  set (line := take_while _ _). cbn [forallb]. destruct (line_complete line); [|done]. cbn [andb].
  replace (drop (S (length line)) (c :: p)) with (drop 1 (drop (length line) (c :: p)))
    by (rewrite drop_drop; f_equal; lia).
  destruct (drop (length line) (c :: p)) as [|d rest] eqn:Ed.
  - cbn. by destruct fuel; [cbn in Hf; lia|].
  - cbn [drop]. apply IH. assert (length (drop (length line) (c :: p)) ≤ length (c :: p))%nat as Hl
      by (rewrite length_drop; lia).
    rewrite Ed in Hl. cbn in Hl, Hf |- *. lia.
Qed.

Section bounds.
Context `{RawLexerOk}.

(** The bounds are computed in finitely many steps. *)
Lemma preamble_bounds_end fuel content l result :
  (pending_work l < fuel)%nat → ∃ bounds, bounds_loop fuel content l result = Some (result ++ bounds).
Proof.
  revert l result. induction fuel as [|fuel IH]; intros l result Hf; [lia|]. cbn [bounds_loop].
  destruct (advance l) as [t l1] eqn:Ea. destruct (is_eof t) eqn:Ee; [by exists []; rewrite app_nil_r|].
  destruct (advance_progress _ _ _ Ea Ee) as [Hp Hnx].
  destruct (is_at_start_of_line t); [|apply IH; lia].
  destruct (has_kind "hash" t).
  - destruct (advance_until_stops_first "eod" l1 fuel) as (sk & t' & l' & Hadv & -> & _ & Hall); [lia|].
    destruct (IH l' (result ++ [range_end (range (Lexer.last l'))])) as [b Hb].
    + enough (pending_work l' ≤ pending_work l1)%nat by lia. eapply advances_work. exact Hadv.
    + eexists. rewrite Hb. by rewrite <- app_assoc.
  - destruct (_ && _); [|by exists []; rewrite app_nil_r].
    destruct (next l1) as [n l2] eqn:En. destruct (has_kind "semi" n) eqn:Es; [|by exists []; rewrite app_nil_r].
    destruct (advance l2) as [t3 l3] eqn:Ea3.
    assert (is_eof t3 = false ∧ pending_work l3 < pending_work l)%nat as [_ Hlt].
    { pose proof (advance_next l1) as Han. pose proof (next_advance l1) as Hna. rewrite En in Han, Hna.
      cbn in Han, Hna. rewrite Ea3 in Han. rewrite <- Han in Hna. cbn in Hna. subst n.
      assert (is_eof t3 = false) as He3.
      { unfold is_eof, has_kind in *. apply bool_decide_eq_true in Es. rewrite Es. done. }
      split; [done|]. destruct (advance_progress _ _ _ (eq_sym Han) He3) as [? _]. lia. }
    destruct (IH l3 (result ++ [range_end (range n)])) as [b Hb]; [lia|].
    eexists. rewrite Hb. by rewrite <- app_assoc.
Qed.
End bounds.
