(* ===== verification/DependencyScan.v ===== *)
(** * The dependency scan (src/syntax/dependency_graph.{h,cpp})

    [scan_dependency_graph] reads the files of the compilation database wave by wave:
    the includes of the files of one wave are resolved, recorded in the graph, and the
    files seen for the first time form the next wave.  Directory listings, resolved
    angled includes and scan results may be kept between scans in a [ScanCache].

    The disk is a parameter that does not change during a scan, so the results of the
    tasks on the thread pool depend only on the files they read; [tasks_ok n] says
    whether the tasks of wave [n] succeed.  Times are not modelled.  [fallback] stands
    for the module declaration that a preprocessor run finds in a file of the database,
    [toolchain] for the command that [Toolchain::resolve_or_warn] leaves. *)
From S2P Require Import Prelude Text PathPool IndexData DependencyGraph CommandDatabase IncludeResolver Lexer Scanner.
Local Open Scope Z_scope.
Local Open Scope cpp_scope.

Record WaveEntry := mkWaveEntry { w_path_id : Z; w_config_id : Z; w_found_dir_idx : Z }.

Record FileScanResult := mkFileScanResult {
  fs_path : bytes;
  fs_path_id : Z;
  fs_config_id : Z;
  fs_result : ScanResult;
  read_failed : bool;
}.

(** [path_id] and [found_dir_idx]. *)
Abbreviation CachedInclude := (Z * Z)%type.
Definition UINT32_MAX : Z := two32 - 1.

Record UnresolvedInclude := mkUnresolved {
  u_header : bytes;
  u_includer : bytes;
  u_angled : bool;
  u_conditional : bool;
}.

Record ScanReport := mkReport {
  source_files : Z;
  header_files : Z;
  total_files : Z;
  conditional_edges : Z;
  unconditional_edges : Z;
  includes_found : Z;
  includes_resolved : Z;
  include_cache_hits : Z;
  scan_cache_hits : Z;
  waves : Z;
  unresolved : list UnresolvedInclude;
}.

Definition empty_report : ScanReport := mkReport 0 0 0 0 0 0 0 0 0 0 [].

(** What a scan reads and writes.  [ext] says whether a persistent cache was given;
    [results] is its table of scan results. *)
Record ScanState := mkScanState {
  pool : PathPool;
  graph : DependencyGraph;
  dir_cache : gmap bytes (gset bytes);
  include_cache : gmap bytes CachedInclude;
  results : gmap Z ScanResult;
  scanned_files : gmap Z Z;
  report : ScanReport;
}.

Definition with_report (f : ScanReport → ScanReport) (s : ScanState) : ScanState :=
  mkScanState (pool s) (graph s) (dir_cache s) (include_cache s) (results s) (scanned_files s) (f (report s)).
Definition with_graph (f : DependencyGraph → DependencyGraph) (s : ScanState) : ScanState :=
  mkScanState (pool s) (f (graph s)) (dir_cache s) (include_cache s) (results s) (scanned_files s) (report s).
Definition with_dirs (c : gmap bytes (gset bytes)) (s : ScanState) : ScanState :=
  mkScanState (pool s) (graph s) c (include_cache s) (results s) (scanned_files s) (report s).
Definition with_includes (c : gmap bytes CachedInclude) (s : ScanState) : ScanState :=
  mkScanState (pool s) (graph s) (dir_cache s) c (results s) (scanned_files s) (report s).
Definition with_results (r : gmap Z ScanResult) (s : ScanState) : ScanState :=
  mkScanState (pool s) (graph s) (dir_cache s) (include_cache s) r (scanned_files s) (report s).
Definition with_pool (p : PathPool) (s : ScanState) : ScanState :=
  mkScanState p (graph s) (dir_cache s) (include_cache s) (results s) (scanned_files s) (report s).
Definition with_scanned (m : gmap Z Z) (s : ScanState) : ScanState :=
  mkScanState (pool s) (graph s) (dir_cache s) (include_cache s) (results s) m (report s).

(** Counters of the report. *)
Definition count_file (r : ScanReport) : ScanReport :=
  mkReport (source_files r) (header_files r) (total_files r + 1) (conditional_edges r) (unconditional_edges r)
    (includes_found r) (includes_resolved r) (include_cache_hits r) (scan_cache_hits r) (waves r) (unresolved r).
Definition count_found (n : nat) (r : ScanReport) : ScanReport :=
  mkReport (source_files r) (header_files r) (total_files r) (conditional_edges r) (unconditional_edges r)
    (includes_found r + Z.of_nat n) (includes_resolved r) (include_cache_hits r) (scan_cache_hits r) (waves r)
    (unresolved r).
Definition count_hit (r : ScanReport) : ScanReport :=
  mkReport (source_files r) (header_files r) (total_files r) (conditional_edges r) (unconditional_edges r)
    (includes_found r) (includes_resolved r) (include_cache_hits r + 1) (scan_cache_hits r) (waves r) (unresolved r).
Definition count_scan_hit (r : ScanReport) : ScanReport :=
  mkReport (source_files r) (header_files r) (total_files r) (conditional_edges r) (unconditional_edges r)
    (includes_found r) (includes_resolved r) (include_cache_hits r) (scan_cache_hits r + 1) (waves r) (unresolved r).
Definition count_edge (conditional : bool) (r : ScanReport) : ScanReport :=
  mkReport (source_files r) (header_files r) (total_files r)
    (conditional_edges r + (if conditional then 1 else 0)) (unconditional_edges r + (if conditional then 0 else 1))
    (includes_found r) (includes_resolved r + 1) (include_cache_hits r) (scan_cache_hits r) (waves r) (unresolved r).
Definition add_unresolved (u : UnresolvedInclude) (r : ScanReport) : ScanReport :=
  mkReport (source_files r) (header_files r) (total_files r) (conditional_edges r) (unconditional_edges r)
    (includes_found r) (includes_resolved r) (include_cache_hits r) (scan_cache_hits r) (waves r)
    (unresolved r ++ [u]).
Definition finish_report (n : Z) (r : ScanReport) : ScanReport :=
  mkReport (source_files r) (u64 (total_files r - source_files r)) (total_files r) (conditional_edges r)
    (unconditional_edges r) (includes_found r) (includes_resolved r) (include_cache_hits r) (scan_cache_hits r) n
    (unresolved r).

Section scan.
Context `{FileSystem} (scan_source : bytes → option (list Directive)) (disk : bytes → option bytes).
Context (fallback : bytes → option (bytes * bool)) (tasks_ok : nat → bool) (ext : bool).

Definition scan_file_worker (path : bytes) (id config : Z) : FileScanResult :=
  match disk path with
  | None => mkFileScanResult path id config no_result true
  | Some content => mkFileScanResult path id config (scan scan_source content) false
  end.

(** ** Phase 1: scan results of a wave *)

(** The files served from the cache. *)
Definition cached_result (e : WaveEntry) (st : list FileScanResult * ScanState) :
    Res () (list FileScanResult * ScanState) :=
  let '(out, s) := st in
  if negb ext then Ok st
  else
    match results s !! w_path_id e with
    | None => Ok st
    | Some r =>
      let? p := read (resolve (pool s) (w_path_id e)) in
      Ok (out ++ [mkFileScanResult p (w_path_id e) (w_config_id e) r false], with_report count_scan_hit s)
    end.

(** A scanned file: kept in the cache unless it could not be read. *)
Definition store_result (r : FileScanResult) (s : ScanState) : ScanState :=
  if negb (read_failed r) && ext then with_results (try_emplace (results s) (fs_path_id r) (fs_result r)) s else s.

(** A prefetch task: path, identifier and configuration. *)
Abbreviation Task := (bytes * Z * Z)%type.

Definition run_tasks (tasks : list Task) : list FileScanResult :=
  (λ t, scan_file_worker t.1.1 t.1.2 t.2) <$> tasks.

(** The tasks of the first wave: entries that are not in the cache. *)
Definition wave_task (e : WaveEntry) (st : list Task * ScanState) : Res () (list Task * ScanState) :=
  let '(tasks, s) := st in
  if ext && bool_decide (is_Some (results s !! w_path_id e)) then Ok st
  else
    let? p := read (resolve (pool s) (w_path_id e)) in
    Ok (tasks ++ [(p, w_path_id e, w_config_id e)], s).

(** [None] when the tasks fail and the loop is left. *)
Definition phase1 (n : nat) (wave : list WaveEntry) (prefetch : list Task) (s : ScanState) :
    Res () (option (list FileScanResult * ScanState)) :=
  let? st := for_each wave cached_result ([], s) in
  let '(hits, s) := st in
  let? ts := match prefetch with
             | [] => let? r := for_each wave wave_task ([], s) in Ok r.1
             | _ => Ok prefetch
             end in
  if bool_decide (ts = []) || tasks_ok n then
    let scanned := run_tasks ts in
    Ok (Some (hits ++ scanned, foldl (λ s r, store_result r s) s scanned))
  else Ok None.

(** ** Phase 2: includes of one file *)

(** The key of the include cache: the bytes of the configuration and the name. *)
Definition include_key (config : Z) (name : bytes) : bytes := le_bytes 4 config ++ name.

(** The file being processed. *)
Record Includer := mkIncluder {
  in_path : bytes;
  in_id : Z;
  in_config : Z;
  in_dir : bytes;
  in_entries : gset bytes;
  in_idx : Z;
  in_resolved : ResolvedSearchConfig;
}.

(** [include_ids], the next wave and the prefetched tasks. *)
Record Wave := mkWave { ids : list Z; next_wave : list WaveEntry; prefetch : list Task }.

Definition flagged (inc : IncludeInfo) (id : Z) : Z :=
  if conditional inc then Z.lor id CONDITIONAL_FLAG else id.

(** The edge to a resolved file. *)
Definition add_edge (inc : IncludeInfo) (id : Z) (w : Wave) (s : ScanState) : Wave * ScanState :=
  (mkWave (ids w ++ [flagged inc id]) (next_wave w) (prefetch w),
   with_report (count_edge (conditional inc)) s).

Definition note_unresolved (f : Includer) (inc : IncludeInfo) (w : Wave) (s : ScanState) : Res () (Wave * ScanState) :=
  let? includer := read (resolve (pool s) (in_id f)) in
  Ok (w, with_report (add_unresolved (mkUnresolved (path inc) includer (is_angled inc) (conditional inc))) s).

(** A file is new when it was not scanned before. *)
Definition discover (f : Includer) (id idx : Z) (w : Wave) (s : ScanState) : bool * Wave * ScanState :=
  match scanned_files s !! id with
  | Some _ => (false, w, s)
  | None =>
    (true, mkWave (ids w) (next_wave w ++ [mkWaveEntry id (in_config f) idx]) (prefetch w),
     with_scanned (<[id := idx]> (scanned_files s)) s)
  end.

Definition cache_eligible (inc : IncludeInfo) : bool := is_angled inc && negb (is_include_next inc).

Definition cached_include (f : Includer) (inc : IncludeInfo) (cached : CachedInclude) (w : Wave) (s : ScanState) :
    Res () (Wave * ScanState) :=
  let s := with_report count_hit s in
  if cached.1 =? UINT32_MAX then note_unresolved f inc w s
  else
    let '(w, s) := add_edge inc cached.1 w s in
    let '(_, w, s) := discover f cached.1 cached.2 w s in
    Ok (w, s).

Definition remember (f : Includer) (inc : IncludeInfo) (c : CachedInclude) (s : ScanState) : ScanState :=
  if cache_eligible inc
  then with_includes (try_emplace (include_cache s) (include_key (in_config f) (path inc)) c) s else s.

(** A file that an include resolved to. *)
Definition resolved_include (f : Includer) (inc : IncludeInfo) (r : ResolveResult) (w : Wave) (s : ScanState) :
    Res () (Wave * ScanState) :=
  let '(p, id) := intern (pool s) (r_path r) in
  let s := remember f inc (id, found_dir_idx r) (with_pool p s) in
  let '(w, s) := add_edge inc id w s in
  let '(new, w, s) := discover f id (found_dir_idx r) w s in
  if new && (negb ext || bool_decide (results s !! id = None)) then
    let? q := read (resolve (pool s) id) in
    Ok (mkWave (ids w) (next_wave w) (prefetch w ++ [(q, id, in_config f)]), s)
  else Ok (w, s).

Definition fresh_include (f : Includer) (inc : IncludeInfo) (w : Wave) (s : ScanState) : Res () (Wave * ScanState) :=
  let '(found, dc) := resolve_include (path inc) (is_angled inc) (Some (in_entries f)) (in_dir f)
                        (is_include_next inc) (in_idx f) (in_resolved f) (dir_cache s) in
  let s := with_dirs dc s in
  match found with
  | None => note_unresolved f inc w (remember f inc (UINT32_MAX, 0) s)
  | Some r => resolved_include f inc r w s
  end.

Definition process_include (f : Includer) (inc : IncludeInfo) (st : Wave * ScanState) : Res () (Wave * ScanState) :=
  let '(w, s) := st in
  match (if cache_eligible inc then include_cache s !! include_key (in_config f) (path inc) else None) with
  | Some cached => cached_include f inc cached w s
  | None => fresh_include f inc w s
  end.

(** The module declaration of a file whose declaration is conditional. *)
Definition with_module (name : bytes) (interface : bool) (keep : bool) (r : ScanResult) : ScanResult :=
  mkScanResult name interface (need_preprocess r && keep) (Scanner.includes r) (modules r).

Definition module_fallback (wave_num : nat) (r : FileScanResult) (s : ScanState) : ScanResult * ScanState :=
  if need_preprocess (fs_result r) && bool_decide (wave_num = 0%nat) then
    match fallback (fs_path r) with
    | None => (fs_result r, s)
    | Some (name, interface) =>
      (with_module name interface true (fs_result r),
       if ext then with_results (alter (with_module name interface false) (fs_path_id r) (results s)) s else s)
    end
  else (fs_result r, s).

Definition process_file (configs : gmap Z ResolvedSearchConfig) (wave_num : nat) (r : FileScanResult)
    (st : Wave * ScanState) : Res () (Wave * ScanState) :=
  let '(w, s) := st in
  let s := with_report count_file s in
  if read_failed r then Ok (w, s)
  else
    match configs !! fs_config_id r with
    | None => Ok (w, s)
    | Some config =>
      let dir := parent_path (fs_path r) in
      let '(entries, dc) := resolve_dir dir (dir_cache s) in
      let s := with_dirs dc s in
      let f := mkIncluder (fs_path r) (fs_path_id r) (fs_config_id r) dir entries
                 (default 0 (scanned_files s !! fs_path_id r)) config in
      let '(result, s) := module_fallback wave_num r s in
      let s := if is_interface_unit result
               then with_graph (λ g, add_module g (module_name result) (fs_path_id r)) s else s in
      let s := with_report (count_found (length (Scanner.includes result))) s in
      let? st := for_each (Scanner.includes result) (process_include f) (mkWave [] (next_wave w) (prefetch w), s) in
      let '(w, s) := st in
      Ok (w, with_graph (λ g, set_includes g (fs_path_id r) (fs_config_id r) (ids w)) s)
    end.

(** ** The waves *)

Fixpoint scan_waves (fuel : nat) (configs : gmap Z ResolvedSearchConfig) (n : nat) (wave : list WaveEntry)
    (prefetched : list Task) (s : ScanState) : Res () (nat * ScanState) :=
  match wave with
  | [] => Ok (n, s)
  | _ =>
    match fuel with
    | O => Stuck
    | S fuel =>
      let? p1 := phase1 n wave prefetched s in
      match p1 with
      | None => Ok (n, s)
      | Some (scan_results, s) =>
        let? st := for_each scan_results (process_file configs n) (mkWave [] [] [], s) in
        let '(w, s) := st in
        scan_waves fuel configs (S n) (next_wave w) (prefetch w) s
      end
    end
  end.

(** The search configurations with their listings. *)
Definition resolve_configs (configs : list (Z * SearchConfig)) (cache : gmap bytes (gset bytes)) :
    gmap Z ResolvedSearchConfig * gmap bytes (gset bytes) :=
  foldl (λ st c, let '(m, cache) := st in
                 let '(r, cache) := resolve_search_config c.2 cache in
                 (<[c.1 := r]> m, cache)) (∅, cache) configs.

(** Directories listed ahead of time by tasks: those of the configurations and those of
    the source files.  Nothing is listed when the cache holds any directory. *)
Definition prefetch_dirs (configs : list (Z * SearchConfig)) (files : list bytes) (cache : gmap bytes (gset bytes)) :
    gmap bytes (gset bytes) :=
  if decide (cache = ∅) then
    foldl (λ cache d, try_emplace cache d (readdir d)) cache
      (concat ((λ c, dirs c.2) <$> configs) ++ filter (λ d, d ≠ []) (parent_path <$> files))
  else cache.

Definition start_wave (wave : list WaveEntry) (s : ScanState) : ScanState :=
  with_report (λ r, mkReport (Z.of_nat (length wave)) (header_files r) (total_files r) (conditional_edges r)
      (unconditional_edges r) (includes_found r) (includes_resolved r) (include_cache_hits r) (scan_cache_hits r)
      (waves r) (unresolved r))
    (with_scanned (foldl (λ m e, try_emplace m (w_path_id e) (w_found_dir_idx e)) ∅ wave) s).

(** The loop of [scan_impl] with the configurations and the first wave given. *)
Definition scan_from (fuel : nat) (configs : list (Z * SearchConfig)) (files : list bytes) (wave : list WaveEntry)
    (s : ScanState) : Res () ScanState :=
  let s := start_wave wave s in
  let s := with_dirs (prefetch_dirs configs files (dir_cache s)) s in
  let '(resolved, dc) := resolve_configs configs (dir_cache s) in
  let? r := scan_waves fuel resolved 0 wave [] (with_dirs dc s) in
  Ok (with_report (finish_report (Z.of_nat r.1)) r.2).
End scan.

(** ** From the compilation database *)

Section impl.
Context `{OptionTable} `{PathTable} `{FileSystem}.
Context (scan_source : bytes → option (list Directive)) (disk : bytes → option bytes).
Context (fallback : bytes → option (bytes * bool)) (tasks_ok : nat → bool).
Context (default_mask : Z) (id_order : string → Z) (sort_args : list ParsedArg → list ParsedArg).
Context (toolchain : CompileCommand → CompileCommand) (rule_matcher : bytes → list bytes * list bytes).

(** The search configuration of a group; rules give what to append and to remove. *)
Definition group_config (g : ConfigGroup) (db : CompilationDatabase) : Res () SearchConfig :=
  let? file := read (source_file (command g)) in
  let '(append, remove) := rule_matcher file in
  let? cmd := group_command default_mask id_order sort_args g (mkCommandOptions true remove append) db in
  let cmd := toolchain cmd in
  extract_search_config (to_argv cmd) (directory (resolved cmd)).

Definition extract_configs (groups : list ConfigGroup) (db : CompilationDatabase) : Res () (list (Z * SearchConfig)) :=
  let? r := for_each groups (λ g st,
    let '(n, out) := (st : Z * list (Z * SearchConfig)) in
    let? c := group_config g db in Ok (n + 1, out ++ [(n, c)])) (0, []) in
  Ok r.2.

(** The first wave: the files of the groups, in the pool of the scan. *)
Definition group_files (config : Z) (g : ConfigGroup) (db : CompilationDatabase) (st : PathPool * list WaveEntry) :
    Res () (PathPool * list WaveEntry) :=
  for_each (file_ids g) (λ id st,
    let '(pool, wave) := st in
    let? p := read (resolve (db_paths db) id) in
    let '(pool, pid) := intern pool p in
    Ok (pool, wave ++ [mkWaveEntry pid config 0])) st.

Definition first_wave (groups : list ConfigGroup) (db : CompilationDatabase) (pool : PathPool) :
    Res () (PathPool * list WaveEntry) :=
  let? r := for_each groups (λ g st,
    let '(n, st) := (st : Z * (PathPool * list WaveEntry)) in
    let? st := group_files n g db st in Ok (n + 1, st)) (0, (pool, [])) in
  Ok r.2.

(** [ScanCache]. *)
Record ScanCache := mkScanCache {
  c_dirs : gmap bytes (gset bytes);
  c_includes : gmap bytes CachedInclude;
  c_results : gmap Z ScanResult;
  c_configs : list (Z * SearchConfig);
  c_initial_wave : list WaveEntry;
}.

Definition empty_cache : ScanCache := mkScanCache ∅ ∅ ∅ [] [].

Definition scan_dependency_graph (fuel : nat) (db : CompilationDatabase) (pool0 : PathPool) (graph0 : DependencyGraph)
    (cache : option ScanCache) : Res () (ScanState * ScanCache) :=
  let c := default empty_cache cache in
  let s0 pool := mkScanState pool graph0 (c_dirs c) (c_includes c) (c_results c) ∅ empty_report in
  match db_entries db with
  | [] => Ok (s0 pool0, c)
  | _ =>
    let warm := bool_decide (is_Some cache) && negb (bool_decide (length (c_configs c) = 0%nat))
                && negb (bool_decide (length (c_initial_wave c) = 0%nat)) in
    let? start :=
      if warm then Ok (c_configs c, (pool0, c_initial_wave c))
      else
        let? groups := unique_configs default_mask id_order sort_args (mkCommandOptions true [] []) db in
        let? configs := extract_configs groups db in
        let? wave := first_wave groups db pool0 in
        Ok (configs, wave) in
    let '(configs, (pool, wave)) := start in
    let? files := for_each (db_entries db) (λ e acc,
      let? p := read (resolve (db_paths db) (entry_file e)) in Ok (acc ++ [p])) [] in
    let? s := scan_from scan_source disk fallback tasks_ok (bool_decide (is_Some cache)) fuel configs files wave
                (s0 pool) in
    Ok (s, mkScanCache (dir_cache s) (include_cache s) (results s) configs wave)
  end.
End impl.
