(* ===== verification/ScanTheorems.v ===== *)
(** * What the dependency scan guarantees

    A scan without a persistent cache, on a disk where includes resolve into a finite
    set of files, ends; every file it reaches is recorded with the files its includes
    resolve to, and these are reached as well. *)
From S2P Require Import Prelude Text PathPool IndexData DependencyGraph CommandDatabase.
From S2P Require Import IncludeResolver IncludeTheorems Lexer Scanner DependencyScan.
Local Open Scope Z_scope.
Local Open Scope cpp_scope.

(** ** The key of the include cache *)

Lemma le_bytes_length n z : length (le_bytes n z) = n.
Proof. revert z. induction n as [|n IH]; intros z; cbn; [done|]. by rewrite IH. Qed.

Lemma le_bytes_inj n a b : 0 ≤ a < 256 ^ Z.of_nat n → 0 ≤ b < 256 ^ Z.of_nat n → le_bytes n a = le_bytes n b → a = b.
Proof.
  revert a b. induction n as [|n IH]; intros a b Ha Hb E; [cbn in *; lia|]. cbn [le_bytes] in E.
  injection E as E1 E2. rewrite Nat2Z.inj_succ, Z.pow_succ_r in Ha, Hb by lia.
  assert (∀ x, 0 ≤ x < 256 * 256 ^ Z.of_nat n → 0 ≤ x / 256 < 256 ^ Z.of_nat n) as Hdiv.
  { intros x Hx. split; [apply Z.div_pos; lia|apply Z.div_lt_upper_bound; lia]. }
  pose proof (IH (a / 256) (b / 256) (Hdiv a Ha) (Hdiv b Hb) E2) as Hq.
  assert (∀ x, N_of_ascii (ascii_of_N (Z.to_N (x mod 256))) = Z.to_N (x mod 256)) as Hasc.
  { intros x. apply N_ascii_embedding. pose proof (Z.mod_pos_bound x 256). lia. }
  assert (a mod 256 = b mod 256) as Hm.
  { pose proof (Z.mod_pos_bound a 256). pose proof (Z.mod_pos_bound b 256).
    pose proof (Hasc a) as Ea. rewrite E1, Hasc in Ea. lia. }
  rewrite (Z.div_mod a 256), (Z.div_mod b 256) by lia. lia.
Qed.

Lemma include_key_inj c c' n n' :
  0 ≤ c < two32 → 0 ≤ c' < two32 → include_key c n = include_key c' n' → c = c' ∧ n = n'.
Proof.
  intros Hc Hc' E. unfold include_key in E. apply app_inj_1 in E as [E ->]; [|by rewrite !le_bytes_length].
  split; [|done]. apply le_bytes_inj in E; done.
Qed.

(** ** Pools *)

Lemma pool_NoDup p : pool_ok p → NoDup (paths p).
Proof.
  intros [_ Hc]. apply NoDup_alt. intros i j x Hi Hj.
  assert (cache p !! x = Some (Z.of_nat i)) as E1 by (apply Hc; rewrite Nat2Z.id; split; [lia|done]).
  assert (cache p !! x = Some (Z.of_nat j)) as E2 by (apply Hc; rewrite Nat2Z.id; split; [lia|done]).
  rewrite E1 in E2. injection E2 as E2. lia.
Qed.

Section scan_theorems.
Context `{FileSystem} (scan_source : bytes → option (list Directive)) (disk : bytes → option bytes).
Context (fallback : bytes → option (bytes * bool)).
Context (configs : gmap Z ResolvedSearchConfig).
Context (configs_ok : ∀ c config, configs !! c = Some config → config_ok config ∧ 0 ≤ c < two32).
(** The includes of a finite set of files resolve into the set. *)
Context (U : gset bytes) (U_small : Z.of_nat (size U) < CONDITIONAL_FLAG).
Context (U_closed : ∀ p content inc idx c config r, p ∈ U → disk p = Some content →
  inc ∈ Scanner.includes (scan scan_source content) → configs !! c = Some config →
  plain_resolve (path inc) (is_angled inc) (Some (parent_path p)) (is_include_next inc) idx config = Some r →
  normalize (r_path r) ∈ U).

Definition in_universe (p : PathPool) : Prop := pool_ok p ∧ ∀ x, x ∈ paths p → x ∈ U.

Lemma universe_length p : in_universe p → (length (paths p) ≤ size U)%nat.
Proof.
  intros [Hok Hsub]. rewrite <- (size_list_to_set (C := gset bytes)) by (by apply pool_NoDup).
  apply subseteq_size. intros x. rewrite elem_of_list_to_set. apply Hsub.
Qed.

Lemma universe_intern p x :
  in_universe p → normalize x ∈ U →
  in_universe (intern p x).1 ∧ resolve (intern p x).1 (intern p x).2 = Some (normalize x) ∧
  paths p `prefix_of` paths (intern p x).1.
Proof.
  intros Hp Hx. pose proof (universe_length p Hp) as Hl. destruct Hp as [Hok Hsub].
  assert (Z.of_nat (length (paths p)) < two32) as Hlen by (unfold CONDITIONAL_FLAG, two32 in *; lia).
  split_and!; [split; [by apply intern_ok|] | by apply resolve_intern | apply intern_paths_prefix].
  intros y. unfold intern. destruct (cache p !! normalize x); cbn; [apply Hsub|].
  rewrite elem_of_app, list_elem_of_singleton. intros [?| ->]; auto.
Qed.

(** An identifier of the pool is no marker and has no flag. *)
Lemma resolve_bound p id x : in_universe p → resolve p id = Some x → 0 ≤ id < CONDITIONAL_FLAG.
Proof.
  intros Hp Hr. pose proof (universe_length p Hp). unfold resolve in Hr. case_decide; [|done].
  apply lookup_lt_Some in Hr. lia.
Qed.

(** ** What is recorded *)

(** The includes that resolve, with what they resolve to. *)
Definition resolved_includes (config : ResolvedSearchConfig) (dir : bytes) (idx : Z) (incs : list IncludeInfo) :
    list (IncludeInfo * ResolveResult) :=
  omap (λ inc, r ← plain_resolve (path inc) (is_angled inc) (Some dir) (is_include_next inc) idx config;
               Some (inc, r)) incs.

(** The edge to a resolved include: the flagged identifier of the file, which is scanned. *)
Definition edge (s : ScanState) (x : IncludeInfo * ResolveResult) (e : Z) : Prop :=
  ∃ id, e = flagged x.1 id ∧ resolve (pool s) id = Some (normalize (r_path x.2)) ∧
    is_Some (scanned_files s !! id).

Definition recorded (s : ScanState) (id c : Z) : Prop :=
  ∃ p idx, resolve (pool s) id = Some p ∧ scanned_files s !! id = Some idx ∧
    ∀ content config, disk p = Some content → configs !! c = Some config →
    ∃ es, DependencyGraph.includes (graph s) !! mkIncludeKey id c = Some es ∧
      Forall2 (edge s) (resolved_includes config (parent_path p) idx (Scanner.includes (scan scan_source content))) es.

(** Later states know more paths and more scanned files. *)
Definition later (s s' : ScanState) : Prop :=
  paths (pool s) `prefix_of` paths (pool s') ∧ scanned_files s ⊆ scanned_files s'.

Lemma later_refl s : later s s.
Proof. done. Qed.

Lemma later_trans s s' s'' : later s s' → later s' s'' → later s s''.
Proof. intros [? ?] [? ?]. split; by etrans. Qed.

Lemma later_edge s s' x e : later s s' → edge s x e → edge s' x e.
Proof.
  intros [Hp Hs] (id & -> & Hr & i & Hi). exists id. split_and!; [done|by eapply resolve_stable|].
  exists i. by eapply lookup_weaken.
Qed.

(** ** The state between includes *)

Record state_ok (s : ScanState) : Prop := {
  so_pool : in_universe (pool s);
  so_dirs : coherent (dir_cache s);
  so_scanned : ∀ id, is_Some (scanned_files s !! id) → is_Some (resolve (pool s) id);
  so_cache : ∀ c config name id idx, configs !! c = Some config →
    include_cache s !! include_key c name = Some (id, idx) →
    match plain_resolve name true None false 0 config with
    | None => id = UINT32_MAX
    | Some r => resolve (pool s) id = Some (normalize (r_path r)) ∧ idx = found_dir_idx r ∧
                is_Some (scanned_files s !! id)
    end;
}.

(** An angled include resolves the same way from everywhere. *)
Lemma plain_resolve_angled name includer idx config :
  plain_resolve name true includer false idx config = plain_resolve name true None false 0 config.
Proof. unfold plain_resolve. destruct (fs_is_absolute name); [done|]. by destruct includer. Qed.

(** The prefetched tasks are those of the next wave. *)
Definition tasks_for (p : PathPool) (es : list WaveEntry) (ts : list (bytes * Z * Z)) : Prop :=
  Forall2 (λ e t, t.1.2 = w_path_id e ∧ t.2 = w_config_id e ∧ resolve p (w_path_id e) = Some t.1.1) es ts.

Lemma tasks_for_later p p' es ts : paths p `prefix_of` paths p' → tasks_for p es ts → tasks_for p' es ts.
Proof.
  intros Hp Ht. eapply Forall2_impl; [exact Ht|]. intros e t (? & ? & ?). split_and!; [done..|].
  by eapply resolve_stable.
Qed.

(** Every scanned file is known to be due in some wave. *)
Record wave_ok (w : Wave) (s : ScanState) : Prop := {
  wo_tasks : tasks_for (pool s) (next_wave w) (prefetch w);
  wo_scanned : ∀ e, e ∈ next_wave w → is_Some (scanned_files s !! w_path_id e);
}.

Lemma with_report_ok f s : state_ok s → state_ok (with_report f s).
Proof. intros [? ? ? ?]. by split. Qed.
Lemma with_graph_ok f s : state_ok s → state_ok (with_graph f s).
Proof. intros [? ? ? ?]. by split. Qed.
Lemma with_dirs_ok d s : coherent d → state_ok s → state_ok (with_dirs d s).
Proof. intros ? [? ? ? ?]. by split. Qed.

(** What processing one include does: [extra] is the edge it adds, if any. *)
Record include_step (f : Includer) (inc : IncludeInfo) (w : Wave) (s : ScanState) (w' : Wave) (s' : ScanState) : Prop := {
  is_state : state_ok s';
  is_wave : wave_ok w' s';
  is_later : later s s';
  is_graph : graph s' = graph s;
  is_next : ∃ more, next_wave w' = next_wave w ++ more ∧
    (∀ e, e ∈ more → w_config_id e = in_config f) ∧
    (∀ id, is_Some (scanned_files s' !! id) → is_Some (scanned_files s !! id) ∨ ∃ e, e ∈ more ∧ w_path_id e = id) ∧
    (size (dom (scanned_files s')) = size (dom (scanned_files s)) + length more)%nat;
  is_edge : ∃ es, ids w' = ids w ++ es ∧
    Forall2 (edge s') (option_list (r ← plain_resolve (path inc) (is_angled inc) (Some (in_dir f))
                                        (is_include_next inc) (in_idx f) (in_resolved f); Some (inc, r))) es;
}.

Lemma note_unresolved_ok f inc w s :
  state_ok s → is_Some (resolve (pool s) (in_id f)) →
  ∃ s', note_unresolved f inc w s = Ok (w, s') ∧ state_ok s' ∧ pool s' = pool s ∧
    scanned_files s' = scanned_files s ∧ graph s' = graph s.
Proof.
  intros Hs [p Hp]. unfold note_unresolved. rewrite Hp. cbn [read Res_bind]. eexists. split; [done|].
  split_and!; try done. by apply with_report_ok.
Qed.

(** The cache after an include was resolved. *)
Lemma remember_cache f inc c s c' config name v :
  configs !! in_config f = Some (in_resolved f) → configs !! c' = Some config →
  include_cache (remember f inc c s) !! include_key c' name = Some v →
  include_cache s !! include_key c' name = Some v ∨
  cache_eligible inc = true ∧ c' = in_config f ∧ name = path inc ∧ v = c ∧ config = in_resolved f.
Proof.
  intros Hf Hc'. unfold remember. destruct (cache_eligible inc); [|auto]. cbn [include_cache with_includes]. unfold try_emplace.
  destruct (include_cache s !! include_key (in_config f) (path inc)); [auto|].
  rewrite lookup_insert_Some. intros [[Hk <-]|[_ ?]]; [|auto]. right.
  destruct (include_key_inj _ _ _ _ (proj2 (configs_ok _ _ Hf)) (proj2 (configs_ok _ _ Hc')) Hk) as [E1 E2].
  rewrite E1 in Hf. split_and!; congruence.
Qed.

Record includer_ok (f : Includer) (s : ScanState) : Prop := {
  io_entries : in_entries f = readdir (in_dir f);
  io_config : configs !! in_config f = Some (in_resolved f);
  io_id : is_Some (resolve (pool s) (in_id f));
}.

(** The include stands in a file of the set. *)
Definition stands_in (f : Includer) (inc : IncludeInfo) : Prop :=
  ∃ p content, p ∈ U ∧ disk p = Some content ∧ in_dir f = parent_path p ∧
    inc ∈ Scanner.includes (scan scan_source content).

Lemma eligible_plain f inc :
  cache_eligible inc = true →
  plain_resolve (path inc) (is_angled inc) (Some (in_dir f)) (is_include_next inc) (in_idx f) (in_resolved f) =
  plain_resolve (path inc) true None false 0 (in_resolved f).
Proof.
  unfold cache_eligible. intros [-> Hn%negb_true_iff]%andb_true_iff. rewrite Hn. apply plain_resolve_angled.
Qed.

Lemma unresolved_step f inc w s s0 :
  includer_ok f s0 → wave_ok w s0 → state_ok s → pool s = pool s0 → scanned_files s = scanned_files s0 → graph s = graph s0 →
  plain_resolve (path inc) (is_angled inc) (Some (in_dir f)) (is_include_next inc) (in_idx f) (in_resolved f) = None →
  ∃ s', note_unresolved f inc w s = Ok (w, s') ∧ include_step f inc w s0 w s'.
Proof.
  intros [_ _ Hid] [Ht Hw] Hs Ep Es Eg Hnone. rewrite <- Ep in Hid.
  destruct (note_unresolved_ok f inc w s Hs Hid) as (s' & Hn & Hs' & Ep' & Es' & Eg').
  exists s'. split; [done|]. split; [done| | |congruence| |].
  - split; [by rewrite Ep', Ep|by rewrite Es', Es].
  - split; [by rewrite Ep', Ep|by rewrite Es', Es].
  - exists []. rewrite Es', Es, app_nil_r. split_and!; [done|by intros ? ?%elem_of_nil|auto|cbn; lia].
  - exists []. rewrite app_nil_r, Hnone. split; [done|constructor].
Qed.

Lemma cached_step f inc cached w s :
  state_ok s → wave_ok w s → includer_ok f s → cache_eligible inc = true →
  include_cache s !! include_key (in_config f) (path inc) = Some cached →
  ∃ w' s', cached_include f inc cached w s = Ok (w', s') ∧ include_step f inc w s w' s'.
Proof.
  intros Hs Hw Hf He Hc. destruct cached as [id idx].
  pose proof (so_cache s Hs _ _ _ _ _ (io_config f s Hf) Hc) as Hm. rewrite <- (eligible_plain f inc He) in Hm.
  unfold cached_include. cbn [fst snd].
  destruct (plain_resolve _ _ _ _ _ _) as [r|] eqn:Er.
  - destruct Hm as (Hr & -> & Hsc). pose proof (resolve_bound _ _ _ (so_pool s Hs) Hr) as Hb.
    rewrite (proj2 (Z.eqb_neq _ _)) by (unfold UINT32_MAX, CONDITIONAL_FLAG, two32 in *; lia).
    cbn [add_edge]. unfold discover. cbn [scanned_files with_report].
    destruct Hsc as [i Hi]. rewrite Hi. eexists _, _. split; [reflexivity|].
    split; [by do 2 apply with_report_ok| | |done| |].
    + destruct Hw as [Ht Hn]. by split.
    + done.
    + exists []. cbn. rewrite app_nil_r. split_and!; [done|by intros ? ?%elem_of_nil|auto|lia].
    + eexists. split; [reflexivity|]. rewrite Er. cbn. constructor; [|constructor].
      exists id. split_and!; [done|done|by exists i].
  - subst id. rewrite Z.eqb_refl.
    destruct (unresolved_step f inc w (with_report count_hit s) s) as (s' & Hn & Hstep); try done.
    { by apply with_report_ok. }
    by exists w, s'.
Qed.

Lemma remember_same f inc c s :
  pool (remember f inc c s) = pool s ∧ scanned_files (remember f inc c s) = scanned_files s ∧
  graph (remember f inc c s) = graph s ∧ dir_cache (remember f inc c s) = dir_cache s.
Proof. unfold remember. by destruct (cache_eligible inc). Qed.

Lemma remember_unresolved f inc s :
  state_ok s → configs !! in_config f = Some (in_resolved f) →
  plain_resolve (path inc) (is_angled inc) (Some (in_dir f)) (is_include_next inc) (in_idx f) (in_resolved f) = None →
  state_ok (remember f inc (UINT32_MAX, 0) s).
Proof.
  intros Hs Hf Hnone. destruct (remember_same f inc (UINT32_MAX, 0) s) as (Ep & Es & Eg & Ed).
  destruct Hs as [S1 S2 S3 S4]. split; rewrite ?Ep, ?Es, ?Ed; [done..|].
  intros c config name id idx Hc Hk.
  destruct (remember_cache _ _ _ _ _ _ _ _ Hf Hc Hk) as [Hold|(He & -> & -> & Hv & ->)]; [by eapply S4|].
  rewrite <- (eligible_plain f inc He), Hnone. congruence.
Qed.

(** A resolved include. *)
Lemma resolved_step f inc w s r dc :
  state_ok s → wave_ok w s → includer_ok f s → stands_in f inc → coherent dc →
  plain_resolve (path inc) (is_angled inc) (Some (in_dir f)) (is_include_next inc) (in_idx f) (in_resolved f) = Some r →
  ∃ w' s', resolved_include false f inc r w (with_dirs dc s) = Ok (w', s') ∧ include_step f inc w s w' s'.
Proof.
  intros Hs Hw Hf (fp & content & Hfp & Hcontent & Hdir & Hinc) Hdc Hr. unfold resolved_include. change (pool (with_dirs dc s)) with (pool s).
  assert (normalize (r_path r) ∈ U) as HU.
  { eapply (U_closed fp); [done..|apply (io_config f s Hf)|]. by rewrite <- Hdir. }
  destruct (universe_intern (pool s) (r_path r) (so_pool s Hs) HU) as (Hp & Hid & Hpre).
  destruct (intern (pool s) (r_path r)) as [p id]. cbn [fst snd] in Hp, Hid, Hpre.
  set (s1 := remember f inc (id, found_dir_idx r) (with_pool p (with_dirs dc s))).
  destruct (remember_same f inc (id, found_dir_idx r) (with_pool p (with_dirs dc s))) as (Ep & Es & Eg & Ed).
  fold s1 in Ep, Es, Eg, Ed. cbn [add_edge]. unfold discover. cbn [scanned_files with_report ids next_wave prefetch].
  rewrite Es. cbn [scanned_files with_pool with_dirs].
  assert (∀ m, (∀ i, is_Some (scanned_files s !! i) → is_Some (m !! i)) →
    (∀ i, is_Some (m !! i) → is_Some (scanned_files s !! i) ∨ i = id) → is_Some (m !! id) →
    state_ok (with_scanned m (with_report (count_edge (conditional inc)) s1))) as Hok.
  { intros m Hup Hdown Hin. split; cbn [pool dir_cache scanned_files include_cache with_scanned with_report].
    - by rewrite Ep.
    - by rewrite Ed.
    - intros i Hi. rewrite Ep. cbn. destruct (Hdown i Hi) as [Hi'| ->]; [|by eexists].
      destruct (so_scanned s Hs i Hi') as [x Hx]. exists x. by eapply resolve_stable.
    - intros c config name i idx Hc Hk. rewrite Ep. cbn [pool with_pool].
      destruct (remember_cache _ _ _ _ _ _ _ _ (io_config f s Hf) Hc Hk) as [Hold|(He & -> & -> & Hv & ->)].
      + cbn in Hold. pose proof (so_cache s Hs _ _ _ _ _ Hc Hold) as Hm.
        destruct (plain_resolve name true None false 0 config) as [q|]; [|done]. destruct Hm as (Hq & Hidx & Hsc).
        split_and!; [by eapply resolve_stable|done|auto].
      + rewrite <- (eligible_plain f inc He), Hr. simplify_eq. done. }
  destruct (scanned_files s !! id) as [i|] eqn:Esc; cbn [andb negb orb].
  - eexists _, _. split; [reflexivity|].
    assert (state_ok (with_report (count_edge (conditional inc)) s1)) as Hs'.
    { specialize (Hok (scanned_files s)). destruct Hok as [O1 O2 O3 O4]; [auto|auto|by eexists|].
      split; cbn [scanned_files with_report with_scanned] in *; rewrite ?Es; done. }
    split; [done| | | | |].
    + destruct Hw as [Ht Hn]. split; cbn; rewrite ?Ep, ?Es; [by eapply tasks_for_later|done].
    + split; cbn; rewrite ?Ep, ?Es; done.
    + done.
    + exists []. cbn. rewrite app_nil_r, Es. split_and!; [done|by intros ? ?%elem_of_nil|auto|cbn; lia].
    + eexists. split; [reflexivity|]. rewrite Hr. cbn. constructor; [|constructor].
      exists id. cbn. rewrite Ep, Es. split_and!; [done|done|by exists i].
  - cbn [pool with_scanned with_report]. rewrite Ep. cbn [pool with_pool with_dirs]. rewrite Hid. cbn [read Res_bind].
    eexists _, _. split; [reflexivity|].
    assert (is_Some (<[id := found_dir_idx r]> (scanned_files s) !! id)) as Hnew by (rewrite lookup_insert_eq; by eexists).
    split.
    + apply Hok; [|intros i Hi; rewrite lookup_insert_is_Some in Hi; naive_solver|done].
      intros i Hi. rewrite lookup_insert_is_Some. destruct (decide (id = i)); auto.
    + destruct Hw as [Ht Hn]. split; cbn [next_wave prefetch pool scanned_files with_scanned with_report].
      * rewrite Ep. cbn. apply Forall2_app; [by eapply tasks_for_later|]. constructor; [|constructor]. done.
      * intros e [He| ->%list_elem_of_singleton]%elem_of_app; [|done]. rewrite lookup_insert_is_Some.
        destruct (decide (id = w_path_id e)); auto.
    + split; cbn [pool scanned_files with_scanned with_report]; rewrite ?Ep; [done|]. by apply insert_subseteq.
    + done.
    + eexists. split; [reflexivity|]. cbn [scanned_files with_scanned]. split_and!.
      * intros e ->%list_elem_of_singleton. done.
      * intros i. rewrite lookup_insert_is_Some. intros [<-|[_ Hi]]; [right|by left].
        eexists. split; [by left|done].
      * rewrite dom_insert_L, size_union, size_singleton; [cbn; lia|].
        apply disjoint_singleton_l. by apply not_elem_of_dom.
    + eexists. split; [reflexivity|]. rewrite Hr. cbn. constructor; [|constructor].
      exists id. cbn [pool scanned_files with_scanned with_report]. rewrite Ep. split_and!; done.
Qed.

Lemma process_include_ok f inc w s :
  state_ok s → wave_ok w s → includer_ok f s → stands_in f inc →
  ∃ w' s', process_include false f inc (w, s) = Ok (w', s') ∧ include_step f inc w s w' s'.
Proof.
  intros Hs Hw Hf Hin. unfold process_include.
  destruct (cache_eligible inc) eqn:He; [destruct (include_cache s !! _) as [cached|] eqn:Ec|];
    [by apply cached_step| |].
  all: unfold fresh_include; rewrite (io_entries f s Hf);
    destruct (resolve_include_ok (path inc) (in_dir f) (is_angled inc) true (is_include_next inc) (in_idx f)
      (in_resolved f) (dir_cache s) (proj1 (configs_ok _ _ (io_config f s Hf))) (so_dirs s Hs)) as [Hr Hdc];
    cbn [fmap option_fmap option_map] in Hr, Hdc;
    destruct (resolve_include _ _ _ _ _ _ _ _) as [found dc]; cbn [fst snd] in Hr, Hdc; subst found.
  all: destruct (plain_resolve (path inc) _ _ _ _ _) as [r|] eqn:Er; [by apply resolved_step|].
  all: pose proof (remember_unresolved f inc (with_dirs dc s) (with_dirs_ok _ _ Hdc Hs) (io_config f s Hf) Er) as Hs';
    destruct (remember_same f inc (UINT32_MAX, 0) (with_dirs dc s)) as (Ep & Es & Eg & Ed);
    destruct (unresolved_step f inc w _ s Hf Hw Hs' Ep Es Eg Er) as (s' & Hn & Hst); by exists w, s'.
Qed.

(** ** The includes of a file *)

(** Growth of a wave: what was appended covers what was newly scanned. *)
Definition grew (w : Wave) (s : ScanState) (w' : Wave) (s' : ScanState) : Prop :=
  ∃ more, next_wave w' = next_wave w ++ more ∧
    (∀ id, is_Some (scanned_files s' !! id) → is_Some (scanned_files s !! id) ∨ ∃ e, e ∈ more ∧ w_path_id e = id) ∧
    (size (dom (scanned_files s')) = size (dom (scanned_files s)) + length more)%nat.

Lemma grew_refl w s : grew w s w s.
Proof. exists []. rewrite app_nil_r. split_and!; [done|auto|cbn; lia]. Qed.

Lemma grew_trans w s w' s' w'' s'' : grew w s w' s' → grew w' s' w'' s'' → grew w s w'' s''.
Proof.
  intros (m & E & Hd & Hsz) (m' & E' & Hd' & Hsz'). exists (m ++ m'). rewrite E', E, app_assoc, length_app.
  split_and!; [done| |lia]. setoid_rewrite elem_of_app. intros id [?|(e & ? & ?)]%Hd'; [|by eauto 6].
  destruct (Hd id) as [?|(e & ? & ?)]; eauto.
Qed.

Record between (w : Wave) (s : ScanState) (w' : Wave) (s' : ScanState) : Prop := {
  bt_state : state_ok s';
  bt_wave : wave_ok w' s';
  bt_later : later s s';
  bt_grew : grew w s w' s';
}.

Lemma process_includes_ok f incs w s :
  state_ok s → wave_ok w s → includer_ok f s → (∀ inc, inc ∈ incs → stands_in f inc) → ids w = [] →
  ∃ w' s', for_each incs (process_include false f) (w, s) = Ok (w', s') ∧ between w s w' s' ∧
    graph s' = graph s ∧ Forall2 (edge s') (resolved_includes (in_resolved f) (in_dir f) (in_idx f) incs) (ids w').
Proof.
  intros Hs Hw Hf Hincs Hids.
  destruct (for_each_prefix (E := ()) (λ pre st, between w s st.1 st.2 ∧ graph st.2 = graph s ∧
      Forall2 (edge st.2) (resolved_includes (in_resolved f) (in_dir f) (in_idx f) pre) (ids st.1))
    incs (process_include false f) (w, s)) as ([w' s'] & Hr & HI).
  - cbn [fst snd]. rewrite Hids. split_and!; [|done|constructor]. split; [done..|apply grew_refl].
  - intros pre inc post [w1 s1] Hsplit ([B1 B2 B3 B4] & Hg & He). cbn [fst snd] in *.
    assert (stands_in f inc) as Hinc by (apply Hincs; rewrite Hsplit; apply elem_of_app; right; left).
    assert (includer_ok f s1) as Hf1.
    { destruct Hf as [F1 F2 [x F3]]. split; [done|done|]. exists x. eapply resolve_stable; [apply B3|done]. }
    destruct (process_include_ok f inc w1 s1 B1 B2 Hf1 Hinc) as (w2 & s2 & Hp & [I1 I2 I3 I4 (m & M1 & _ & M2 & M3) (es & E1 & E2)]).
    exists (w2, s2). split; [done|]. cbn [fst snd]. split_and!; [|congruence|].
    + split; [done|done|by eapply later_trans|]. eapply grew_trans; [exact B4|]. by exists m.
    + unfold resolved_includes in *. rewrite omap_app, E1. apply Forall2_app.
      * eapply Forall2_impl; [exact He|]. intros x e. by apply later_edge.
      * cbn [omap list_omap]. destruct (plain_resolve _ _ _ _ _ _); exact E2.
  - exists w', s'. destruct HI as (? & ? & ?). done.
Qed.

(** ** Files *)

Lemma recorded_later s s' id c :
  later s s' → DependencyGraph.includes (graph s') !! mkIncludeKey id c = DependencyGraph.includes (graph s) !! mkIncludeKey id c →
  recorded s id c → recorded s' id c.
Proof.
  intros Hl Hg (p & idx & Hr & Hi & Hrec). exists p, idx.
  split_and!; [eapply resolve_stable; [apply Hl|done] | eapply lookup_weaken; [done|apply Hl] |].
  intros content config Hd Hc. destruct (Hrec content config Hd Hc) as (es & He & Hf). exists es.
  split; [by rewrite Hg|]. eapply Forall2_impl; [exact Hf|]. intros x e. by apply later_edge.
Qed.

Lemma module_fallback_ok n r s :
  ∃ result, module_fallback fallback false n r s = (result, s) ∧
    Scanner.includes result = Scanner.includes (fs_result r).
Proof.
  unfold module_fallback. destruct (_ && _); [|by eexists].
  destruct (fallback (fs_path r)) as [[name b]|]; by eexists.
Qed.

Lemma scan_worker_fields p id c :
  fs_path (scan_file_worker scan_source disk p id c) = p ∧
  fs_path_id (scan_file_worker scan_source disk p id c) = id ∧
  fs_config_id (scan_file_worker scan_source disk p id c) = c.
Proof. unfold scan_file_worker. by destruct (disk p). Qed.

Abbreviation process := (process_file fallback false configs).

Lemma process_file_ok n p id c w s idx :
  state_ok s → wave_ok w s → resolve (pool s) id = Some p → scanned_files s !! id = Some idx →
  ∃ w' s', process n (scan_file_worker scan_source disk p id c) (w, s) = Ok (w', s') ∧ between w s w' s' ∧
    recorded s' id c ∧ ∀ id' c', recorded s id' c' → recorded s' id' c'.
Proof.
  intros Hs Hw Hr Hi. unfold process_file. destruct (scan_worker_fields p id c) as (Ep & Eid & Ec).
  set (r := scan_file_worker scan_source disk p id c) in *.
  assert (between w s w (with_report count_file s)) as Hb0.
  { split; [by apply with_report_ok|destruct Hw; by split|done|]. exists []. rewrite app_nil_r. cbn.
    split_and!; [done|auto|lia]. }
  assert (∀ s', later s s' → graph s' = graph s → ∀ id' c', recorded s id' c' → recorded s' id' c') as Hkeep.
  { intros s' Hl Hg id' c'. apply recorded_later; [done|by rewrite Hg]. }
  destruct (disk p) as [content|] eqn:Ed.
  2: { assert (read_failed r = true) as -> by (unfold r, scan_file_worker; by rewrite Ed).
       eexists _, _. split; [reflexivity|]. split_and!; [done| |by apply Hkeep].
       exists p, idx. split_and!; [done..|]. intros. congruence. }
  assert (read_failed r = false ∧ fs_result r = scan scan_source content) as [-> Eres]
    by (unfold r, scan_file_worker; by rewrite Ed).
  rewrite Ep, Eid, Ec. destruct (configs !! c) as [config|] eqn:Ecfg.
  2: { eexists _, _. split; [reflexivity|]. split_and!; [done| |by apply Hkeep].
       exists p, idx. split_and!; [done..|]. intros. congruence. }
  destruct (resolve_dir_ok (parent_path p) (dir_cache (with_report count_file s)) (so_dirs s Hs)) as [Hent Hdc].
  destruct (resolve_dir _ _) as [entries dc]. cbn [fst snd] in Hent, Hdc. subst entries.
  set (s1 := with_dirs dc (with_report count_file s)).
  change (scanned_files s1) with (scanned_files s). rewrite Hi. change (default 0 (Some idx)) with idx.
  destruct (module_fallback_ok n r s1) as (result & -> & Einc). rewrite Eres in Einc.
  set (f := mkIncluder p id c (parent_path p) (readdir (parent_path p)) idx config).
  set (s2 := if is_interface_unit result then _ else s1).
  set (s3 := with_report (count_found _) s2).
  assert (state_ok s3 ∧ pool s3 = pool s ∧ scanned_files s3 = scanned_files s ∧
    DependencyGraph.includes (graph s3) = DependencyGraph.includes (graph s)) as (Hs3 & P3 & S3 & G3).
  { unfold s3, s2, s1. destruct (is_interface_unit result); split_and!; try done;
      repeat first [apply with_report_ok | apply with_graph_ok | apply with_dirs_ok]; done. }
  destruct (process_includes_ok f (Scanner.includes result) (mkWave [] (next_wave w) (prefetch w)) s3)
    as (w' & s' & -> & [B1 B2 B3 B4] & Hg & He); [done | | | | done |].
  { destruct Hw as [W1 W2]. split; cbn [next_wave prefetch]; rewrite ?P3, ?S3; done. }
  { split; [done..|]. exists p. by rewrite P3. }
  { intros inc Hinc. exists p, content. split_and!; [|done|done|by rewrite <- Einc].
    apply (so_pool s Hs). unfold resolve in Hr. case_decide; [|done]. by eapply list_elem_of_lookup_2. }
  cbn [Res_bind]. eexists _, _. split; [reflexivity|].
  assert (later s s') as Hl by (destruct B3; split; by rewrite <- ?P3, <- ?S3).
  assert (recorded (with_graph (λ g, set_includes g id c (ids w')) s') id c) as Hrec.
  { exists p, idx. split_and!; [eapply resolve_stable; [apply Hl|done] | eapply lookup_weaken; [done|apply Hl] |].
    intros content' config' Hd' Hc'. exists (ids w'). cbn. split; [by rewrite lookup_insert_eq|].
    rewrite Ecfg in Hc'. rewrite Ed in Hd'. simplify_eq. rewrite <- Einc. exact He. }
  split_and!; [|done|].
  - split; [by apply with_graph_ok|destruct B2; by split|done|].
    destruct B4 as (more & M1 & M2 & M3). exists more. cbn. rewrite S3 in M2, M3. done.
  - intros id' c' Hold. destruct (decide (mkIncludeKey id c = mkIncludeKey id' c')) as [E|E]; [by injection E as <- <-|].
    eapply (recorded_later s); [done| |done]. cbn. rewrite lookup_insert_ne by done. by rewrite Hg, G3.
Qed.

(** ** Waves *)

Lemma scanned_bound s : state_ok s → (size (dom (scanned_files s)) ≤ size U)%nat.
Proof.
  intros Hs. etrans; [|by apply (universe_length _ (so_pool s Hs))].
  set (n := length (paths (pool s))).
  assert (n = length (seqZ 0 (Z.of_nat n))) as -> by (rewrite length_seqZ; lia).
  rewrite <- (size_list_to_set (C := gset Z)) by apply NoDup_seqZ.
  apply subseteq_size. intros id [x Hx]%elem_of_dom. apply elem_of_list_to_set, elem_of_seqZ.
  destruct (so_scanned s Hs id) as [q Hq]; [by eexists|]. unfold resolve in Hq. case_decide; [|done].
  apply lookup_lt_Some in Hq. unfold n. lia.
Qed.

(** All files of a wave. *)
Lemma process_wave_ok n wave ts s :
  state_ok s → tasks_for (pool s) wave ts → (∀ e, e ∈ wave → is_Some (scanned_files s !! w_path_id e)) →
  ∃ w' s', for_each (run_tasks scan_source disk ts) (process n) (mkWave [] [] [], s) = Ok (w', s') ∧
    between (mkWave [] [] []) s w' s' ∧ (∀ e, e ∈ wave → recorded s' (w_path_id e) (w_config_id e)) ∧
    ∀ id c, recorded s id c → recorded s' id c.
Proof.
  intros Hs Ht Hw.
  assert (∃ w' s', for_each (run_tasks scan_source disk ts) (process n) (mkWave [] [] [], s) = Ok (w', s') ∧
    between (mkWave [] [] []) s w' s' ∧ (∀ t, t ∈ ts → recorded s' t.1.2 t.2) ∧
    ∀ id c, recorded s id c → recorded s' id c) as (w' & s' & Hr & Hb & Hrec & Hold).
  { assert (∀ t, t ∈ ts → resolve (pool s) t.1.2 = Some t.1.1 ∧ is_Some (scanned_files s !! t.1.2)) as Hts.
    { intros t [k Hk]%list_elem_of_lookup. destruct (Forall2_lookup_r _ _ _ _ _ Ht Hk) as (e & He & E1 & E2 & E3).
      rewrite E1. split; [done|]. apply Hw. by eapply list_elem_of_lookup_2. }
    clear Hw Ht. unfold run_tasks.
    assert (∀ ts w s, state_ok s → wave_ok w s →
      (∀ t, t ∈ ts → resolve (pool s) t.1.2 = Some t.1.1 ∧ is_Some (scanned_files s !! t.1.2)) →
      ∃ w' s', for_each ((λ t, scan_file_worker scan_source disk t.1.1 t.1.2 t.2) <$> ts) (process n) (w, s) = Ok (w', s') ∧
        between w s w' s' ∧ (∀ t, t ∈ ts → recorded s' t.1.2 t.2) ∧ ∀ id c, recorded s id c → recorded s' id c) as Hgen.
    { clear s Hs Hts ts wave. intros ts. induction ts as [|[[p id] c] ts IH]; intros w s Hs Hw Hts.
      - exists w, s. split_and!; [done| |by intros ? ?%elem_of_nil|done]. split; [done..|apply grew_refl].
      - destruct (Hts (p, id, c)) as [Hr [idx Hi]]; [by left|]. cbn [fst snd] in Hr, Hi.
        destruct (process_file_ok n p id c w s idx Hs Hw Hr Hi) as (w1 & s1 & Hp & [B1 B2 B3 B4] & Hrec & Hold).
        destruct (IH w1 s1 B1 B2) as (w' & s' & Hf & [C1 C2 C3 C4] & Hrecs & Hold').
        { intros t Hin. destruct (Hts t) as [Hr' [i Hi']]; [by right|]. split; [eapply resolve_stable; [apply B3|done]|].
          exists i. eapply lookup_weaken; [done|apply B3]. }
        exists w', s'. cbn [fmap list_fmap for_each fst snd]. rewrite Hp. cbn [Res_bind]. split_and!; [done| | |].
        + split; [done..|by eapply later_trans|by eapply grew_trans].
        + intros t [->|Hin]%elem_of_cons; [by apply Hold'|by apply Hrecs].
        + auto. }
    apply Hgen; [done| |done]. split; [constructor|by intros ? ?%elem_of_nil]. }
  exists w', s'. split_and!; [done..| |done]. intros e [k Hk]%list_elem_of_lookup.
  destruct (Forall2_lookup_l _ _ _ _ _ Ht Hk) as (t & Hin & <- & <- & _). apply Hrec.
  by eapply list_elem_of_lookup_2.
Qed.

(** The tasks of the first wave. *)
Lemma wave_tasks_ok wave s :
  (∀ e, e ∈ wave → is_Some (resolve (pool s) (w_path_id e))) →
  ∃ ts, for_each wave (wave_task false) ([], s) = Ok (ts, s) ∧ tasks_for (pool s) wave ts.
Proof.
  intros Hr. destruct (for_each_prefix (E := ()) (λ pre st, st.2 = s ∧ tasks_for (pool s) pre st.1) wave (wave_task false) ([], s))
    as ([ts s'] & Hf & Es & Ht); [split; [done|constructor]| |cbn in Es, Ht; subst s'; by exists ts].
  intros pre e post [ts s'] Heq [Es Ht]. cbn [fst snd] in *. subst s'.
  destruct (Hr e) as [p Hp]; [rewrite Heq; apply elem_of_app; right; left|].
  eexists. unfold wave_task. cbn [andb]. rewrite Hp. cbn [read Res_bind]. split; [reflexivity|]. split; [done|].
  apply Forall2_app; [done|]. constructor; [done|constructor].
Qed.

Lemma cold_hits wave s : for_each wave (cached_result false) ([], s) = Ok ([], s).
Proof. induction wave as [|e wave IH]; [done|]. cbn [for_each]. unfold cached_result at 1. cbn. exact IH. Qed.

Lemma cold_store rs s : foldl (λ s r, store_result false r s) s rs = s.
Proof.
  induction rs as [|r rs IH]; [done|]. cbn. unfold store_result at 2. rewrite andb_false_r. done.
Qed.

Lemma phase1_ok n wave prefetched ts s :
  tasks_for (pool s) wave ts → (prefetched = ts ∨ prefetched = []) →
  ∃ ts', phase1 scan_source disk (λ _, true) false n wave prefetched s =
    Ok (Some (run_tasks scan_source disk ts', s)) ∧ tasks_for (pool s) wave ts'.
Proof.
  intros Ht Hp. unfold phase1. rewrite cold_hits. cbn [Res_bind].
  assert (∀ e, e ∈ wave → is_Some (resolve (pool s) (w_path_id e))) as Hr.
  { intros e [k Hk]%list_elem_of_lookup. destruct (Forall2_lookup_l _ _ _ _ _ Ht Hk) as (t & _ & _ & _ & E). eauto. }
  destruct prefetched as [|t0 rest].
  - destruct (wave_tasks_ok wave s Hr) as (ts' & -> & Ht'). cbn [Res_bind fst]. rewrite orb_true_r. cbn [app].
    rewrite cold_store. by exists ts'.
  - destruct Hp as [<-|?]; [|done]. cbn [Res_bind]. rewrite orb_true_r. cbn [app]. rewrite cold_store. by eexists.
Qed.

Lemma scan_waves_ok fuel n wave prefetched ts s :
  state_ok s → tasks_for (pool s) wave ts → (prefetched = ts ∨ prefetched = []) →
  (∀ e, e ∈ wave → is_Some (scanned_files s !! w_path_id e)) →
  (size U < fuel + size (dom (scanned_files s)))%nat →
  ∃ m s', scan_waves scan_source disk fallback (λ _, true) false fuel configs n wave prefetched s = Ok (m, s') ∧
    state_ok s' ∧ later s s' ∧ (∀ e, e ∈ wave → recorded s' (w_path_id e) (w_config_id e)) ∧
    (∀ id c, recorded s id c → recorded s' id c) ∧
    ∀ id, is_Some (scanned_files s' !! id) → is_Some (scanned_files s !! id) ∨ ∃ c, recorded s' id c.
Proof.
  revert n wave prefetched ts s. induction fuel as [|fuel IH]; intros n wave prefetched ts s Hs Ht Hp Hw Hfuel.
  { pose proof (scanned_bound s Hs). lia. }
  destruct wave as [|e0 rest].
  { exists n, s. split_and!; [done..|by intros ? ?%elem_of_nil|done|auto]. }
  cbn [scan_waves]. destruct (phase1_ok n (e0 :: rest) prefetched ts s Ht Hp) as (ts' & -> & Ht'). cbn [Res_bind].
  destruct (process_wave_ok n (e0 :: rest) ts' s Hs Ht' Hw) as (w' & s1 & -> & [B1 B2 B3 (more & M1 & M2 & M3)] & Hrec & Hold).
  cbn [Res_bind]. cbn [next_wave app] in M1. subst more. destruct B2 as [W1 W2].
  destruct (decide (next_wave w' = [])) as [En|En].
  { rewrite En in *. exists (S n), s1. destruct fuel; cbn [scan_waves];
      (split_and!; [done..| |done|]; [done|]; intros id [?|(e & ?%elem_of_nil & _)]%M2; [by left|done]). }
  assert (0 < length (next_wave w'))%nat by (destruct (next_wave w'); [done|cbn; lia]).
  destruct (IH (S n) (next_wave w') (prefetch w') (prefetch w') s1 B1 W1 (or_introl eq_refl) W2) as
    (m & s' & Hrun & Hs' & Hl & Hrec' & Hold' & Hsc); [lia|].
  exists m, s'. split_and!; [done|done|by eapply later_trans|auto|auto|].
  intros id [Hi|?]%Hsc; [|by right]. destruct (M2 id Hi) as [?|(e & He & <-)]; [by left|right].
  eexists. by apply Hrec'.
Qed.
End scan_theorems.

(** ** The whole scan *)

Section whole.
Context `{FileSystem} (scan_source : bytes → option (list Directive)) (disk : bytes → option bytes).
Context (fallback : bytes → option (bytes * bool)).

(** A configuration with the listings of its directories. *)
Definition listed (c : SearchConfig) : ResolvedSearchConfig :=
  mkResolved ((λ d, (d, readdir d)) <$> dirs c) (angled_start_idx c) (system_start_idx c) (after_start_idx c).

Definition listed_configs (configs : list (Z * SearchConfig)) : gmap Z ResolvedSearchConfig :=
  foldl (λ m c, <[c.1 := listed c.2]> m) ∅ configs.

Lemma resolve_search_config_listed c cache :
  coherent cache → (resolve_search_config c cache).1 = listed c ∧ coherent (resolve_search_config c cache).2.
Proof.
  intros Hc. unfold resolve_search_config, listed. destruct (resolve_dirs_ok (dirs c) cache Hc) as (Hf & Hl & Hc').
  destruct (resolve_dirs (dirs c) cache) as [ds cache']. cbn [fst snd] in *. split; [|done]. f_equal.
  rewrite <- Hl, <- list_fmap_compose. clear -Hf. induction Hf as [|[d e] ds He _ IH]; [done|]. cbn in *.
  subst e. by f_equal.
Qed.

Lemma resolve_configs_listed configs cache :
  coherent cache → ∃ cache', resolve_configs configs cache = (listed_configs configs, cache') ∧ coherent cache'.
Proof.
  intros Hc. unfold resolve_configs, listed_configs. generalize (∅ : gmap Z ResolvedSearchConfig).
  revert cache Hc. induction configs as [|c configs IH]; intros cache Hc m; [by eexists|]. cbn [foldl].
  destruct (resolve_search_config_listed c.2 cache Hc) as [Hl Hc'].
  destruct (resolve_search_config c.2 cache) as [r cache']. cbn [fst snd] in *. subst r. by apply IH.
Qed.

Lemma prefetch_coherent configs files : coherent (prefetch_dirs configs files ∅).
Proof.
  unfold prefetch_dirs. rewrite decide_True by done.
  assert (∀ (ds : list bytes) cache, coherent cache → coherent (foldl (λ cache d, try_emplace cache d (readdir d)) cache ds)) as Hgen.
  { induction ds as [|d ds IH]; intros cache Hc; [done|]. cbn [foldl]. apply IH. unfold try_emplace.
    destruct (cache !! d); [done|]. intros d' e. rewrite lookup_insert_Some. naive_solver. }
  apply Hgen. intros d e. by rewrite lookup_empty.
Qed.

Lemma listed_configs_elem configs c config :
  listed_configs configs !! c = Some config → ∃ cfg, (c, cfg) ∈ configs ∧ config = listed cfg.
Proof.
  unfold listed_configs.
  assert (∀ m : gmap Z ResolvedSearchConfig, foldl (λ m c, <[c.1 := listed c.2]> m) m configs !! c = Some config →
    m !! c = Some config ∨ ∃ cfg, (c, cfg) ∈ configs ∧ config = listed cfg) as Hgen.
  { induction configs as [|[c0 cfg0] configs IH]; intros m Hm; [by left|]. cbn [foldl fst snd] in Hm.
    apply IH in Hm as [Hm|(cfg & Hin & ->)]; [|right; exists cfg; split; [by right|done]].
    apply lookup_insert_Some in Hm as [[<- <-]|[_ Hm]]; [|by left]. right. exists cfg0. split; [by left|done]. }
  intros Hc. apply Hgen in Hc as [Hc|?]; [by rewrite lookup_empty in Hc|done].
Qed.

Lemma first_scanned (wave : list WaveEntry) id :
  is_Some (foldl (λ m e, try_emplace m (w_path_id e) (w_found_dir_idx e)) (∅ : gmap Z Z) wave !! id) ↔
  ∃ e, e ∈ wave ∧ w_path_id e = id.
Proof.
  assert (∀ m : gmap Z Z, is_Some (foldl (λ m e, try_emplace m (w_path_id e) (w_found_dir_idx e)) m wave !! id) ↔
    is_Some (m !! id) ∨ ∃ e, e ∈ wave ∧ w_path_id e = id) as Hgen.
  { induction wave as [|e wave IH]; intros m; cbn [foldl].
    - setoid_rewrite elem_of_nil. naive_solver.
    - rewrite IH. setoid_rewrite elem_of_cons. unfold try_emplace.
      destruct (m !! w_path_id e) as [x|] eqn:E; [|rewrite lookup_insert_is_Some'].
      + destruct (decide (w_path_id e = id)) as [<-|]; [rewrite E|]; naive_solver.
      + destruct (decide (w_path_id e = id)) as [<-|]; naive_solver. }
  rewrite Hgen, lookup_empty. split; [intros [[? ?]|?]; done|auto].
Qed.

End whole.

(** ** An example *)

Definition example_universe : gset bytes := {[str "/a"; str "/a/x"; str "/m.cpp"]}.

Lemma example_in_dir filename dir :
  @IncludeTheorems.in_dir example_fs filename dir → @path_append example_fs dir filename ∈ [str "/a"; str "/a/x"].
Proof.
  assert (∀ d f, f ∈ example_readdir d → d ++ "/"%char :: f ∈ [str "/a"; str "/a/x"]) as Hone.
  { intros d f. unfold example_readdir. destruct (decide (d = [])) as [->|]; [intros ->%elem_of_singleton; by left|].
    destruct (decide (d = str "/a")) as [->|]; [intros ->%elem_of_singleton; right; by left|].
    by intros ?%not_elem_of_empty. }
  unfold IncludeTheorems.in_dir. destruct (is_simple filename); [intros Hin; by apply Hone|]. intros [_ Hin].
  rewrite (example_split (@path_append example_fs dir filename)) by (apply elem_of_app; right; left).
  by apply Hone.
Qed.

Lemma example_resolves name angled includer next idx config r :
  @plain_resolve example_fs name angled includer next idx config = Some r → normalize (r_path r) ∈ example_universe.
Proof.
  assert (∀ p, p ∈ [str "/a"; str "/a/x"] → normalize p ∈ example_universe) as HU.
  { intros p. rewrite !elem_of_cons, elem_of_nil. intros [->|[->|[]]]; vm_compute; reflexivity. }
  assert (∀ dir, @IncludeTheorems.in_dir example_fs name dir → normalize (@make_candidate example_fs dir name) ∈ example_universe) as Hd.
  { intros dir Hin. apply HU. unfold make_candidate. destruct (needs_normalize name); by apply example_in_dir. }
  assert (∀ start ds, @first_with example_fs name start ds = Some r → normalize (r_path r) ∈ example_universe) as Hf.
  { intros start ds. unfold first_with. destruct (list_find _ ds) as [[k d]|] eqn:E; [|done]. intros [= <-].
    apply list_find_Some in E as (_ & Hin & _). by apply Hd. }
  unfold plain_resolve. destruct (@fs_is_absolute example_fs name).
  - destruct (@fs_exists example_fs name) eqn:E; [|done]. intros [= <-]. cbn in E.
    apply bool_decide_eq_true in E. subst. apply HU. right. by left.
  - destruct next; [apply Hf|]. destruct includer as [dir|]; [|apply Hf].
    destruct (negb angled && bool_decide (IncludeTheorems.in_dir name dir)) eqn:E; [|apply Hf].
    apply andb_true_iff in E as [_ E%bool_decide_eq_true]. intros [= <-]. by apply Hd.
Qed.

Definition example_disk (p : bytes) : option bytes :=
  if decide (p = str "/m.cpp") then Some (str "<x>|a|")
  else if decide (p = str "/a/x") then Some (str "x") else if decide (p = str "/a") then Some (str "a") else None.

(** The main file includes [<x>] and, after it, ["a"]. *)
Definition example_source (content : bytes) : option (list Directive) :=
  Some (if decide (length content = 6%nat)
        then [mkDirective "pp_include" [mkDirectiveToken "header_name" 0 3];
              mkDirective "pp_include" [mkDirectiveToken "string_literal" 3 3]] else []).

Definition example_search : SearchConfig := mkSearchConfig [str "/a"] 0 1 1.


(** With a persistent cache from which the result of a header was dropped: the header is
    found through the cache of includes, without a task, and when another new file has
    one, the header is not scanned. *)
Lemma dropped_header_is_not_scanned :
  (let? s := @scan_from example_fs example_source example_disk (λ _, None) (λ _, true) true 4 [(0, example_search)] []
      [mkWaveEntry 0 0 0]
      (mkScanState (intern_all empty_pool [str "/m.cpp"; str "/a/x"]).1 empty_graph ∅
         {[include_key 0 (str "x") := (1, 0)]}
         {[0 := mkScanResult [] false false [mkIncludeInfo (str "x") false false true false;
                                             mkIncludeInfo (str "a") false false false false] []]} ∅ empty_report) in
   Ok (get_includes (graph s) 0 0, DependencyGraph.includes (graph s) !! mkIncludeKey 1 0,
       DependencyGraph.includes (graph s) !! mkIncludeKey 2 0)) = Ok ([1; 2], None, Some []).
Proof. vm_compute. reflexivity. Qed.

(** When the tasks of the first wave fail, the number of headers wraps around. *)
Lemma header_count_wraps :
  (let? s := @scan_from example_fs example_source example_disk (λ _, None) (λ _, false) false 4 [(0, example_search)] []
      [mkWaveEntry 0 0 0] (mkScanState (intern empty_pool (str "/m.cpp")).1 empty_graph ∅ ∅ ∅ ∅ empty_report) in
   Ok (header_files (report s))) = Ok (two64 - 1).
Proof. vm_compute. reflexivity. Qed.
