(* ===== verification/Workspace.v ===== *)
(** * The state shared by all documents (src/server/workspace/workspace.{h,cpp})

    A [Workspace] has the tables derived from files on disk: the path pool, the module
    names, the cached precompiled headers and modules.  [load_cache] and [save_cache] keep
    the tables of the artifacts in the file cache.json beside the blobs; they run in the
    monad of the blob store.  The encoding of that file is the class [CacheCodec]. *)
From S2P Require Import Prelude CacheStore PathPool IndexData Snapshot Lexer Scanner.
From S2P Require CompileGraph DependencyGraph.
Local Open Scope Z_scope.
Local Open Scope cpp_scope.

(** ** Data *)

(** [building] is the event of the build under way, by number. *)
Record PCHState := mkPCHState {
  pch_path : bytes;
  bound : Z;
  pch_key : bytes;
  pch_deps : DepsSnapshot;
  document_links_json : bytes;
  building : option nat;
}.

Definition new_pch : PCHState := mkPCHState [] 0 [] empty_snapshot [] None.

Record PCMState := mkPCMState { pcm_path : bytes; pcm_key : bytes; pcm_deps : DepsSnapshot }.

Record Workspace := mkWorkspace {
  path_pool : PathPool;
  compile_graph : option CompileGraph.graph;
  path_to_module : gmap Z bytes;
  pch_cache : gmap Z PCHState;
  pcm_cache : gmap Z PCMState;
  pcm_paths : gmap Z bytes;
}.

Definition set_pool (p : PathPool) (ws : Workspace) : Workspace :=
  mkWorkspace p (compile_graph ws) (path_to_module ws) (pch_cache ws) (pcm_cache ws) (pcm_paths ws).
Definition set_graph (g : CompileGraph.graph) (ws : Workspace) : Workspace :=
  mkWorkspace (path_pool ws) (Some g) (path_to_module ws) (pch_cache ws) (pcm_cache ws) (pcm_paths ws).
Definition set_modules (m : gmap Z bytes) (ws : Workspace) : Workspace :=
  mkWorkspace (path_pool ws) (compile_graph ws) m (pch_cache ws) (pcm_cache ws) (pcm_paths ws).
Definition set_pch (id : Z) (st : PCHState) (ws : Workspace) : Workspace :=
  mkWorkspace (path_pool ws) (compile_graph ws) (path_to_module ws) (<[id := st]> (pch_cache ws))
    (pcm_cache ws) (pcm_paths ws).
Definition erase_pch (id : Z) (ws : Workspace) : Workspace :=
  mkWorkspace (path_pool ws) (compile_graph ws) (path_to_module ws) (delete id (pch_cache ws))
    (pcm_cache ws) (pcm_paths ws).
Definition set_pcm (id : Z) (st : PCMState) (ws : Workspace) : Workspace :=
  mkWorkspace (path_pool ws) (compile_graph ws) (path_to_module ws) (pch_cache ws)
    (<[id := st]> (pcm_cache ws)) (<[id := pcm_path st]> (pcm_paths ws)).
Definition erase_pcm (ws : Workspace) (id : Z) : Workspace :=
  mkWorkspace (path_pool ws) (compile_graph ws) (path_to_module ws) (pch_cache ws)
    (delete id (pcm_cache ws)) (delete id (pcm_paths ws)).

(** ** Saved and closed files *)

(** [content] is the file on disk, if it can be read; [update] must end. *)
Definition on_file_saved (scan_source : bytes → option (list Directive)) (content : option bytes) (path_id : Z) (ws : Workspace) :
    Res () (Workspace * list Z) :=
  let? _ := read (resolve (path_pool ws) path_id) in
  let ws :=
    match content with
    | None => ws
    | Some c =>
      match module_name (scan scan_source c) with
      | [] => set_modules (delete path_id (path_to_module ws)) ws
      | name => set_modules (<[path_id := name]> (path_to_module ws)) ws
      end
    end in
  match compile_graph ws with
  | None => Ok (ws, [])
  | Some g =>
    match CompileGraph.update path_id g with
    | None => Stuck
    | Some (g, dirtied) => Ok (foldl erase_pcm (set_graph g ws) dirtied, dirtied)
    end
  end.

Definition on_file_closed (path_id : Z) (ws : Workspace) : Res () Workspace :=
  match compile_graph ws with
  | None => Ok (erase_pch path_id ws)
  | Some g =>
    if CompileGraph.has_unit g path_id then
      match CompileGraph.update path_id g with
      | None => Stuck
      | Some (g, _) => Ok (erase_pch path_id (set_graph g ws))
      end
    else Ok (erase_pch path_id ws)
  end.

Definition cancel_all (order : list Z) (ws : Workspace) : Workspace :=
  match compile_graph ws with
  | None => ws
  | Some g => set_graph (CompileGraph.cancel_all order g) ws
  end.

(** ** Modules *)

Section maps.
Context (ord : Order).

Definition build_module_map (modules : gmap bytes (list Z)) (ws : Workspace) : Workspace :=
  set_modules
    (foldl (λ m e, foldl (λ m id, <[id := e.1]> m) m e.2) (path_to_module ws) (entries ord modules)) ws.

Definition fill_pcm_deps (ws : Workspace) (exclude_path_id : Z) (pcms : gmap bytes bytes) :
    gmap bytes bytes :=
  foldl (λ pcms e,
    if decide (e.1 = exclude_path_id) then pcms
    else match path_to_module ws !! e.1 with
         | Some name => <[name := e.2]> pcms
         | None => pcms
         end) pcms (entries ord (pcm_paths ws)).
End maps.

(** ** The tables on disk *)

Record CacheDepEntry := mkCacheDep { dep_path : Z; dep_hash : Z }.

Record CachePCHEntry := mkCachePCH {
  h_key : bytes;
  h_source_file : Z;
  h_bound : Z;
  h_build_at : Z;
  h_deps : list CacheDepEntry;
}.

Record CachePCMEntry := mkCachePCM {
  c_key : bytes;
  c_source_file : Z;
  c_module_name : bytes;
  c_build_at : Z;
  c_deps : list CacheDepEntry;
}.

Record CacheData := mkCacheData {
  cd_paths : list bytes;
  cd_pch : list CachePCHEntry;
  cd_pcm : list CachePCMEntry;
}.

Class CacheCodec := {
  cache_to_json : CacheData → option bytes;
  cache_from_json : bytes → option CacheData;
}.

(** [data.paths] with [index_map]. *)
Record CacheIndex := mkCacheIndex { index_paths : list bytes; index_map : gmap bytes Z }.

Definition empty_index : CacheIndex := mkCacheIndex [] ∅.

Definition pch_ns : bytes := str "pch".
Definition pcm_ns : bytes := str "pcm".

Section save.
Context (ws : Workspace).

(** The lambda [intern] of [save_cache]. *)
Definition cache_intern (id : Z) (ix : CacheIndex) : Res errc (Z * CacheIndex) :=
  let? path := read (resolve (path_pool ws) id) in
  match index_map ix !! path with
  | Some i => Ok (i, ix)
  | None =>
    let i := u32 (Z.of_nat (length (index_paths ix))) in
    Ok (i, mkCacheIndex (index_paths ix ++ [path]) (<[path := i]> (index_map ix)))
  end.

Fixpoint cache_deps (ids hs : list Z) (ix : CacheIndex) : Res errc (list CacheDepEntry * CacheIndex) :=
  match ids with
  | [] => Ok ([], ix)
  | id :: ids =>
    let? (i, ix) := cache_intern id ix in
    let? hash := read (head hs) in
    let? (rest, ix) := cache_deps ids (tail hs) ix in
    Ok (mkCacheDep i hash :: rest, ix)
  end.

Definition cache_snapshot (snap : DepsSnapshot) : CacheIndex → Res errc (list CacheDepEntry * CacheIndex) :=
  cache_deps (path_ids snap) (hashes snap).

Fixpoint save_pchs (l : list (Z * PCHState)) (ix : CacheIndex) : Res errc (list CachePCHEntry * CacheIndex) :=
  match l with
  | [] => Ok ([], ix)
  | (path_id, st) :: l =>
    match pch_path st with
    | [] => save_pchs l ix
    | _ =>
      let? (source, ix) := cache_intern path_id ix in
      let? (deps, ix) := cache_snapshot (pch_deps st) ix in
      let? (rest, ix) := save_pchs l ix in
      Ok (mkCachePCH (pch_key st) source (bound st) (build_at (pch_deps st)) deps :: rest, ix)
    end
  end.

Fixpoint save_pcms (l : list (Z * PCMState)) (ix : CacheIndex) : Res errc (list CachePCMEntry * CacheIndex) :=
  match l with
  | [] => Ok ([], ix)
  | (path_id, st) :: l =>
    match pcm_path st with
    | [] => save_pcms l ix
    | _ =>
      let? (source, ix) := cache_intern path_id ix in
      let name := default [] (path_to_module ws !! path_id) in
      let? (deps, ix) := cache_snapshot (pcm_deps st) ix in
      let? (rest, ix) := save_pcms l ix in
      Ok (mkCachePCM (pcm_key st) source name (build_at (pcm_deps st)) deps :: rest, ix)
    end
  end.

Definition cache_data (ord : Order) : Res errc CacheData :=
  let? (pch, ix) := save_pchs (entries ord (pch_cache ws)) empty_index in
  let? (pcm, ix) := save_pcms (entries ord (pcm_cache ws)) ix in
  Ok (mkCacheData (index_paths ix) pch pcm).
End save.

Definition resolve_path (data : CacheData) (idx : Z) : bytes :=
  if decide (idx < Z.of_nat (length (cd_paths data))) then default [] (cd_paths data !! Z.to_nat idx)
  else [].

Fixpoint load_deps (data : CacheData) (deps : list CacheDepEntry) (pool : PathPool) (snap : DepsSnapshot) :
    PathPool * DepsSnapshot :=
  match deps with
  | [] => (pool, snap)
  | dep :: deps =>
    match resolve_path data (dep_path dep) with
    | [] => load_deps data deps pool snap
    | p =>
      let '(pool, id) := intern pool p in
      load_deps data deps pool
        (mkSnapshot (path_ids snap ++ [id]) (hashes snap ++ [dep_hash dep]) (build_at snap))
    end
  end.

Definition load_snapshot (data : CacheData) (t : Z) (deps : list CacheDepEntry) (pool : PathPool) :
    PathPool * DepsSnapshot := load_deps data deps pool (mkSnapshot [] [] t).

(** An entry of cache.json whose blob is at [blob], if the store has it. *)
Definition restore_pch (data : CacheData) (e : CachePCHEntry) (blob : option bytes) (ws : Workspace) :
    Workspace :=
  match blob, resolve_path data (h_source_file e) with
  | None, _ | _, [] => ws
  | Some blob, source =>
    let '(pool, id) := intern (path_pool ws) source in
    let '(pool, snap) := load_snapshot data (h_build_at e) (h_deps e) pool in
    let st := default new_pch (pch_cache ws !! id) in
    set_pch id (mkPCHState blob (h_bound e) (h_key e) snap (document_links_json st) (building st))
      (set_pool pool ws)
  end.

Definition restore_pcm (data : CacheData) (e : CachePCMEntry) (blob : option bytes) (ws : Workspace) :
    Workspace :=
  match blob, resolve_path data (c_source_file e) with
  | None, _ | _, [] => ws
  | Some blob, source =>
    let '(pool, id) := intern (path_pool ws) source in
    let '(pool, snap) := load_snapshot data (c_build_at e) (c_deps e) pool in
    set_pcm id (mkPCMState blob (c_key e) snap) (set_pool pool ws)
  end.

Section monadic.
Context {W : Type} `{Platform W} `{CacheCodec} (ord : Order).

Definition lift {A} (r : Res errc A) : M W A := λ s, (r, s).

Fixpoint load_pchs (data : CacheData) (l : list CachePCHEntry) (ws : Workspace) : M W Workspace :=
  match l with
  | [] => ret ws
  | e :: l =>
    let! blob := CacheStore.lookup pch_ns (h_key e) in
    load_pchs data l (restore_pch data e blob ws)
  end.

Fixpoint load_pcms (data : CacheData) (l : list CachePCMEntry) (ws : Workspace) : M W Workspace :=
  match l with
  | [] => ret ws
  | e :: l =>
    let! blob := CacheStore.lookup pcm_ns (c_key e) in
    load_pcms data l (restore_pcm data e blob ws)
  end.

Definition load_cache (has_store : bool) (ws : Workspace) : M W Workspace :=
  if negb has_store then ret ws
  else
    let! dir := base_dir in
    let! content := fs_read (CacheStore.join dir (str "cache.json")) in
    match content with
    | inl _ => ret ws
    | inr content =>
      match cache_from_json content with
      | None => ret ws
      | Some data =>
        let! ws := load_pchs data (cd_pch data) ws in
        load_pcms data (cd_pcm data) ws
      end
    end.

(** The result tells whether the new file is in place; a failure is only logged. *)
Definition save_cache (has_store : bool) (ws : Workspace) : M W bool :=
  if negb has_store then ret false
  else
    let! data := lift (cache_data ws ord) in
    match cache_to_json data with
    | None => ret false
    | Some json =>
      let! dir := base_dir in
      let cache_path := CacheStore.join dir (str "cache.json") in
      let! pid := call os_getpid in
      let tmp_path := CacheStore.join (CacheStore.join (CacheStore.join dir (str "tmp")) (decimal pid)) (str "cache.json") in
      let! w := fs_write tmp_path json in
      match w with
      | Some _ => ret false
      | None =>
        let! r := fs_rename tmp_path cache_path in
        ret (bool_decide (r = None))
      end
    end.
End monadic.
