(* ===== verification/WorkspaceTheorems.v ===== *)
(** * The tables of cached artifacts survive a restart

    [save_cache] writes the tables of precompiled headers and modules, [load_cache] reads
    them back in another process, with another path pool: what is restored belongs to the
    same files, has the same keys and gives the same verdict on staleness. *)
From S2P Require CompileGraph.
From S2P Require Import Prelude CacheStore CachePlatform CacheInvariant CacheTheorems PathPool IndexData Snapshot Lexer Scanner Workspace.
Local Open Scope Z_scope.
Local Open Scope cpp_scope.

(** ** Saved files and modules *)

Lemma erase_pcms ids ws :
  let ws' := foldl erase_pcm ws ids in
  (∀ x, pcm_cache ws' !! x = if decide (x ∈ ids) then None else pcm_cache ws !! x) ∧
  (∀ x, pcm_paths ws' !! x = if decide (x ∈ ids) then None else pcm_paths ws !! x) ∧
  pch_cache ws' = pch_cache ws ∧ path_to_module ws' = path_to_module ws.
Proof.
  revert ws. induction ids as [|i ids IH]; intros ws.
  { cbn. split_and!; [intros; by rewrite decide_False by set_solver..|done|done]. }
  destruct (IH (erase_pcm ws i)) as (H1 & H2 & H3 & H4). cbn [foldl].
  split_and!; [| |done|done]; intros x; rewrite ?H1, ?H2; cbn;
    (destruct (decide (x = i)) as [-> |Hne];
     [rewrite (decide_True (P := i ∈ i :: ids)) by set_solver; rewrite lookup_delete_eq; by case_decide
     |rewrite lookup_delete_ne by done; apply decide_ext; set_solver]).
Qed.

(** Saving a file: the module it declares now is recorded, and exactly the compiled modules
    of the units that depend on it, directly or not, are dropped. *)
Lemma on_file_saved_ok scan_source content id ws g :
  compile_graph ws = Some g → CompileGraph.edges_ok g → is_Some (resolve (path_pool ws) id) →
  ∃ ws' dirtied, on_file_saved scan_source content id ws = Ok (ws', dirtied) ∧
    (∀ x, x ∈ dirtied ↔ is_Some (CompileGraph.units g !! x) ∧
       rtc (λ a b, b ∈ CompileGraph.dependents_of g a) id x) ∧
    (∀ x, pcm_cache ws' !! x = if decide (x ∈ dirtied) then None else pcm_cache ws !! x) ∧
    (∀ x, pcm_paths ws' !! x = if decide (x ∈ dirtied) then None else pcm_paths ws !! x) ∧
    pch_cache ws' = pch_cache ws ∧
    (∀ c, content = Some c → path_to_module ws' !! id =
       match module_name (scan scan_source c) with [] => None | name => Some name end) ∧
    (∀ x, x ≠ id ∨ content = None → path_to_module ws' !! x = path_to_module ws !! x).
Proof.
  intros Hg Hok [p Hp]. destruct (CompileGraph.update_run g Hok id) as (g' & d & visited & Hup & Hrel & Hvis).
  unfold on_file_saved. rewrite Hp. cbn.
  set (ws1 := match content with None => ws | Some c => _ end).
  assert (compile_graph ws1 = Some g ∧ pcm_cache ws1 = pcm_cache ws ∧ pcm_paths ws1 = pcm_paths ws ∧
    pch_cache ws1 = pch_cache ws) as (-> & H1 & H2 & H3).
  { unfold ws1. destruct content; [case_match|]; done. }
  rewrite Hup. destruct (erase_pcms d (set_graph g' ws1)) as (H4 & H5 & H6 & H7).
  eexists _, d. split; [done|]. cbn in H4, H5, H6, H7. rewrite H1 in H4. rewrite H2 in H5.
  split_and!; [|done|done|by rewrite H6| |].
  - intros x. destruct Hrel as [_ [_ Hd] _ _ _]. rewrite Hd, Hvis. naive_solver.
  - intros c ->. rewrite H7. unfold ws1. case_match; cbn; [by rewrite lookup_delete_eq|by rewrite lookup_insert_eq].
  - intros x Hx. rewrite H7. unfold ws1. destruct content; [|done]. destruct Hx as [Hx|]; [|done].
    case_match; cbn; [by rewrite lookup_delete_ne|by rewrite lookup_insert_ne].
Qed.

(** The modules a compilation is given: one file per module name, of some unit other than
    the excluded one. *)
Lemma fill_pcm_deps_ok ord ws exclude name :
  (∀ p, fill_pcm_deps ord ws exclude ∅ !! name = Some p →
     ∃ id, id ≠ exclude ∧ pcm_paths ws !! id = Some p ∧ path_to_module ws !! id = Some name) ∧
  (∀ id, id ≠ exclude → is_Some (pcm_paths ws !! id) → path_to_module ws !! id = Some name →
     is_Some (fill_pcm_deps ord ws exclude ∅ !! name)).
Proof.
  unfold fill_pcm_deps. set (step := λ pcms e, _).
  assert (∀ l (pcms : gmap bytes bytes),
    (∀ p, foldl step pcms l !! name = Some p → pcms !! name = Some p ∨
       ∃ id, (id, p) ∈ l ∧ id ≠ exclude ∧ path_to_module ws !! id = Some name) ∧
    (∀ id p, (id, p) ∈ l → id ≠ exclude → path_to_module ws !! id = Some name →
       is_Some (foldl step pcms l !! name)) ∧
    (is_Some (pcms !! name) → is_Some (foldl step pcms l !! name))) as Hstep.
  { induction l as [|[id p] l IH]; intros pcms; cbn; [split_and!; [auto|set_solver|done]|].
    destruct (IH (step pcms (id, p))) as (H1 & H2 & H3). clear IH.
    assert (is_Some (pcms !! name) → is_Some (step pcms (id, p) !! name)) as Hkeep.
    { unfold step. cbn. case_decide; [done|].
      destruct (path_to_module ws !! id) as [n|]; [|done]. destruct (decide (n = name)) as [-> |]; [by rewrite lookup_insert_eq|by rewrite lookup_insert_ne]. }
    split_and!; [| |by auto].
    - intros q Hq%H1. destruct Hq as [Hq|(i & ? & ?)]; [|set_solver].
      unfold step in Hq. cbn in Hq. case_decide; [auto|].
      destruct (path_to_module ws !! id) as [n|] eqn:Hm; [|auto]. destruct (decide (n = name)) as [-> |]; [|rewrite lookup_insert_ne in Hq by done; auto].
      rewrite lookup_insert_eq in Hq. simplify_eq. right. exists id. set_solver.
    - intros i q [[= -> ->]|Hi]%elem_of_cons Hne Hm; [|by eapply H2]. apply H3. unfold step. cbn.
      rewrite decide_False, Hm by done. by rewrite lookup_insert_eq. }
  destruct (Hstep (entries ord (pcm_paths ws)) ∅) as (H1 & H2 & _). split.
  - intros p [?|(id & Hin%elem_of_entries & ? & ?)]%H1; [done|]. by exists id.
  - intros id Hne [p Hp] Hm. apply (H2 id p); [|done|done]. by apply elem_of_entries.
Qed.

(** ** The paths of a pool *)

Lemma pool_paths_NoDup pool : pool_ok pool → NoDup (paths pool).
Proof.
  intros [_ Hinv]. apply NoDup_alt. intros i j p Hi Hj.
  assert (cache pool !! p = Some (Z.of_nat i)) by (apply Hinv; rewrite Nat2Z.id; split; [lia|done]).
  assert (cache pool !! p = Some (Z.of_nat j)) by (apply Hinv; rewrite Nat2Z.id; split; [lia|done]).
  simplify_eq. lia.
Qed.

Lemma resolve_elem pool id p : resolve pool id = Some p → p ∈ paths pool.
Proof. unfold resolve. case_decide; [|done]. intros. by eapply list_elem_of_lookup_2. Qed.

Lemma resolve_inj pool a b p : pool_ok pool → resolve pool a = Some p → resolve pool b = Some p → a = b.
Proof.
  intros [_ Hinv]. unfold resolve. do 2 (case_decide; [|done]). intros Ha Hb.
  assert (cache pool !! p = Some a) by (by apply Hinv). assert (cache pool !! p = Some b) by (by apply Hinv).
  congruence.
Qed.

(** ** Saving *)

Definition at_index (ps : list bytes) (i : Z) (p : bytes) : Prop := 0 ≤ i ∧ ps !! Z.to_nat i = Some p.

Definition dep_entry (ps : list bytes) (f : bytes * Z) (d : CacheDepEntry) : Prop :=
  at_index ps (dep_path d) f.1 ∧ dep_hash d = f.2.

(** What an entry of the file says of the artifact [snap] of the file [id]. *)
Definition entry_ok (pool : PathPool) (ps : list bytes) (id : Z) (snap : DepsSnapshot)
    (source t : Z) (deps : list CacheDepEntry) : Prop :=
  ∃ p files, resolve pool id = Some p ∧ snapshot_of pool snap files ∧
    at_index ps source p ∧ t = build_at snap ∧ Forall2 (dep_entry ps) files deps.

Lemma at_index_extend ps ps' i p : ps `prefix_of` ps' → at_index ps i p → at_index ps' i p.
Proof. intros [l ->] [? ?]. split; [done|]. by apply lookup_app_l_Some. Qed.

Lemma entry_ok_extend pool ps ps' id snap source t deps :
  ps `prefix_of` ps' → entry_ok pool ps id snap source t deps → entry_ok pool ps' id snap source t deps.
Proof.
  intros Hp (p & files & Hr & Hs & Ha & Ht & Hd). exists p, files. split_and!; try done.
  - by eapply at_index_extend.
  - eapply Forall2_impl; [exact Hd|]. intros f d [? ?]. split; [by eapply at_index_extend|done].
Qed.

Section saving.
Context (ws : Workspace).
Notation pool := (path_pool ws).
Context (Hpool : pool_ok pool).

Record ix_ok (ix : CacheIndex) : Prop := {
  ix_nodup : NoDup (index_paths ix);
  ix_sub : index_paths ix ⊆ paths pool;
  ix_map : ∀ p i, index_map ix !! p = Some i ↔ at_index (index_paths ix) i p;
}.

Lemma empty_index_ok : ix_ok empty_index.
Proof.
  split; cbn; [constructor|set_solver|]. intros p i. rewrite lookup_empty. unfold at_index.
  rewrite lookup_nil. naive_solver.
Qed.

(** A new path takes the next index, which fits. *)
Lemma index_room ix p : ix_ok ix → p ∈ paths pool → p ∉ index_paths ix →
  Z.of_nat (length (index_paths ix)) < two32.
Proof.
  intros Hix Hp Hnew. destruct Hpool as [Hlen _].
  assert (p :: index_paths ix ⊆+ paths pool) as Hsub%submseteq_length.
  { apply NoDup_submseteq; [constructor; [done|apply Hix]|].
    intros q [-> |Hq]%elem_of_cons; [done|]. by apply (ix_sub _ Hix). }
  cbn in Hsub. lia.
Qed.

Lemma cache_intern_ok ix id p :
  ix_ok ix → resolve pool id = Some p →
  ∃ i ix', cache_intern ws id ix = Ok (i, ix') ∧ ix_ok ix' ∧
    index_paths ix `prefix_of` index_paths ix' ∧ at_index (index_paths ix') i p.
Proof.
  intros Hix Hr. unfold cache_intern. rewrite Hr. cbn.
  destruct (index_map ix !! p) as [i|] eqn:Hm.
  { exists i, ix. split_and!; [done..|]. by apply (ix_map _ Hix). }
  assert (p ∉ index_paths ix) as Hnew.
  { intros [k Hk]%list_elem_of_lookup. enough (index_map ix !! p = Some (Z.of_nat k)) by congruence.
    apply (ix_map _ Hix). split; [lia|]. by rewrite Nat2Z.id. }
  assert (p ∈ paths pool) as Hin by (by eapply resolve_elem).
  rewrite u32_small by (pose proof (index_room ix p Hix Hin Hnew); lia).
  eexists _, _. split; [done|]. cbn [index_paths].
  assert (at_index (index_paths ix ++ [p]) (Z.of_nat (length (index_paths ix))) p) as Hat.
  { split; [lia|]. rewrite Nat2Z.id. by rewrite lookup_app_r, Nat.sub_diag. }
  split_and!; [|by eexists|done]. split; cbn.
  - apply NoDup_app. split_and!; [apply Hix| |apply NoDup_singleton].
    intros q Hq ->%list_elem_of_singleton. done.
  - intros q [?| ->%list_elem_of_singleton]%elem_of_app; [by apply (ix_sub _ Hix)|done].
  - intros q i. destruct (decide (q = p)) as [-> |Hne].
    + rewrite lookup_insert_eq. split; [by intros [= <-]|]. intros [Hi Hl].
      apply lookup_app_Some in Hl as [Hl|[? Hl]]; [by apply list_elem_of_lookup_2 in Hl|].
      apply list_lookup_singleton_Some in Hl as [? _]. f_equal. lia.
    + rewrite lookup_insert_ne by done. rewrite (ix_map _ Hix). split.
      * intros. eapply at_index_extend; [|done]. by eexists.
      * intros [Hi Hl]. split; [done|]. apply lookup_app_Some in Hl as [Hl|[? Hl]]; [done|].
        apply list_lookup_singleton_Some in Hl as [_ ?]. congruence.
Qed.

Lemma cache_deps_ok files ids ix :
  ix_ok ix → Forall2 (λ (f : bytes * Z) id, resolve pool id = Some f.1) files ids →
  ∃ deps ix', cache_deps ws ids files.*2 ix = Ok (deps, ix') ∧ ix_ok ix' ∧
    index_paths ix `prefix_of` index_paths ix' ∧ Forall2 (dep_entry (index_paths ix')) files deps.
Proof.
  intros Hix Hf. revert ix Hix. induction Hf as [|[p h] id files ids Hr _ IH]; intros ix Hix; cbn.
  { exists [], ix. split_and!; [done..|constructor]. }
  cbn in Hr. destruct (cache_intern_ok ix id p Hix Hr) as (i & ix1 & -> & Hix1 & Hp1 & Hat). cbn.
  destruct (IH ix1 Hix1) as (deps & ix2 & -> & Hix2 & Hp2 & Hd). cbn.
  eexists _, _. split; [done|]. split_and!; [done|by trans (index_paths ix1)|].
  constructor; [|done]. split; [|done]. by eapply at_index_extend.
Qed.

(** The source and the dependencies of one artifact. *)
Lemma save_artifact_ok ix id snap :
  ix_ok ix → is_Some (resolve pool id) → (∃ files, snapshot_of pool snap files) →
  ∃ source deps ix1 ix2, cache_intern ws id ix = Ok (source, ix1) ∧
    cache_snapshot ws snap ix1 = Ok (deps, ix2) ∧ ix_ok ix2 ∧ index_paths ix `prefix_of` index_paths ix2 ∧
    entry_ok pool (index_paths ix2) id snap source (build_at snap) deps.
Proof.
  intros Hix [p Hr] [files [Hids Hh]].
  destruct (cache_intern_ok ix id p Hix Hr) as (i & ix1 & Hi & Hix1 & Hp1 & Hat).
  destruct (cache_deps_ok files (path_ids snap) ix1 Hix1 Hids) as (deps & ix2 & Hd & Hix2 & Hp2 & Hds).
  exists i, deps, ix1, ix2. unfold cache_snapshot. rewrite Hh.
  split_and!; [done..|by trans (index_paths ix1)|].
  exists p, files. split_and!; try done. by eapply at_index_extend.
Qed.

Definition artifact_ok (id : Z) (snap : DepsSnapshot) : Prop :=
  is_Some (resolve pool id) ∧ ∃ files, snapshot_of pool snap files.

Definition pch_entry (ps : list bytes) (x : Z * PCHState) (e : CachePCHEntry) : Prop :=
  entry_ok pool ps x.1 (pch_deps x.2) (h_source_file e) (h_build_at e) (h_deps e) ∧
  h_key e = pch_key x.2 ∧ h_bound e = bound x.2.

Definition pcm_entry (ps : list bytes) (x : Z * PCMState) (e : CachePCMEntry) : Prop :=
  entry_ok pool ps x.1 (pcm_deps x.2) (c_source_file e) (c_build_at e) (c_deps e) ∧
  c_key e = pcm_key x.2.

Lemma save_pchs_ok l ix :
  ix_ok ix → Forall (λ x : Z * PCHState, artifact_ok x.1 (pch_deps x.2)) l →
  ∃ es ix', save_pchs ws l ix = Ok (es, ix') ∧ ix_ok ix' ∧ index_paths ix `prefix_of` index_paths ix' ∧
    Forall2 (pch_entry (index_paths ix')) (filter (λ x, pch_path x.2 ≠ []) l) es.
Proof.
  intros Hix Hl. revert ix Hix. induction Hl as [|[id st] l [Hid Hs] _ IH]; intros ix Hix.
  { exists [], ix. split_and!; [done..|constructor]. }
  cbn [save_pchs]. rewrite filter_cons. cbn in Hid, Hs. destruct (pch_path st) eqn:Hp.
  { rewrite decide_False by (cbn; rewrite Hp; tauto). by apply IH. }
  rewrite decide_True by (cbn; rewrite Hp; done).
  destruct (save_artifact_ok ix id (pch_deps st) Hix Hid Hs) as (src & deps & ix0 & ix1 & -> & Hd & Hix1 & Hp1 & He).
  cbn. rewrite Hd. cbn.
  destruct (IH ix1 Hix1) as (es & ix2 & -> & Hix2 & Hp2 & Hes). cbn.
  eexists _, _. split; [done|]. split_and!; [done|by trans (index_paths ix1)|].
  constructor; [|done]. split; [|done]. by eapply entry_ok_extend.
Qed.

Lemma save_pcms_ok l ix :
  ix_ok ix → Forall (λ x : Z * PCMState, artifact_ok x.1 (pcm_deps x.2)) l →
  ∃ es ix', save_pcms ws l ix = Ok (es, ix') ∧ ix_ok ix' ∧ index_paths ix `prefix_of` index_paths ix' ∧
    Forall2 (pcm_entry (index_paths ix')) (filter (λ x, pcm_path x.2 ≠ []) l) es.
Proof.
  intros Hix Hl. revert ix Hix. induction Hl as [|[id st] l [Hid Hs] _ IH]; intros ix Hix.
  { exists [], ix. split_and!; [done..|constructor]. }
  cbn [save_pcms]. rewrite filter_cons. cbn in Hid, Hs. destruct (pcm_path st) eqn:Hp.
  { rewrite decide_False by (cbn; rewrite Hp; tauto). by apply IH. }
  rewrite decide_True by (cbn; rewrite Hp; done).
  destruct (save_artifact_ok ix id (pcm_deps st) Hix Hid Hs) as (src & deps & ix0 & ix1 & -> & Hd & Hix1 & Hp1 & He).
  cbn. rewrite Hd. cbn.
  destruct (IH ix1 Hix1) as (es & ix2 & -> & Hix2 & Hp2 & Hes). cbn.
  eexists _, _. split; [done|]. split_and!; [done|by trans (index_paths ix1)|].
  constructor; [|done]. split; [|done]. by eapply entry_ok_extend.
Qed.

(** The tables are in order: ids and snapshots belong to the pool. *)
Definition tables_ok : Prop :=
  map_Forall (λ id st, artifact_ok id (pch_deps st)) (pch_cache ws) ∧
  map_Forall (λ id st, artifact_ok id (pcm_deps st)) (pcm_cache ws).

Lemma cache_data_ok ord :
  tables_ok →
  ∃ data, cache_data ws ord = Ok data ∧ NoDup (cd_paths data) ∧ cd_paths data ⊆ paths pool ∧
    Forall2 (pch_entry (cd_paths data)) (filter (λ x, pch_path x.2 ≠ []) (entries ord (pch_cache ws))) (cd_pch data) ∧
    Forall2 (pcm_entry (cd_paths data)) (filter (λ x, pcm_path x.2 ≠ []) (entries ord (pcm_cache ws))) (cd_pcm data).
Proof.
  intros [Hh Hc].
  destruct (save_pchs_ok (entries ord (pch_cache ws)) empty_index empty_index_ok) as (hs & ix1 & H1 & Hix1 & _ & He1).
  { apply Forall_forall. intros [id st] Hin%elem_of_entries. by apply Hh. }
  destruct (save_pcms_ok (entries ord (pcm_cache ws)) ix1 Hix1) as (cs & ix2 & H2 & Hix2 & Hp2 & He2).
  { apply Forall_forall. intros [id st] Hin%elem_of_entries. by apply Hc. }
  exists (mkCacheData (index_paths ix2) hs cs). unfold cache_data. rewrite H1. cbn. rewrite H2. cbn.
  split; [done|]. split_and!; [apply Hix2..| |done].
  eapply Forall2_impl; [exact He1|]. intros x e [? ?]. split; [by eapply entry_ok_extend|done].
Qed.
End saving.

(** ** Restoring *)

(** The pool has room for the paths [ps] beside those it had at first. *)
Record room (first ps : list bytes) (pool : PathPool) : Prop := {
  room_ok : pool_ok pool;
  room_sub : paths pool ⊆ first ++ ps;
  room_few : Z.of_nat (length first + length ps) < two32;
}.

Lemma room_lt first ps pool : room first ps pool → Z.of_nat (length (paths pool)) < two32.
Proof.
  intros [Hok Hsub Hfew].
  assert (paths pool ⊆+ first ++ ps) as Hl%submseteq_length
    by (apply NoDup_submseteq; [by apply pool_paths_NoDup|done]).
  rewrite length_app in Hl. lia.
Qed.

Lemma intern_paths pool p : paths (intern pool p).1 ⊆ normalize p :: paths pool.
Proof. unfold intern. case_match; cbn; set_solver. Qed.

Lemma room_intern first ps pool p :
  room first ps pool → p ∈ ps → normalize p = p →
  room first ps (intern pool p).1 ∧ resolve (intern pool p).1 (intern pool p).2 = Some p.
Proof.
  intros Hr Hp Hn. pose proof (room_lt _ _ _ Hr). split; [split|].
  - apply intern_ok; [apply Hr|done].
  - intros q Hq%intern_paths. rewrite Hn in Hq. apply elem_of_cons in Hq as [-> |Hq]; [set_solver|].
    by apply (room_sub _ _ _ Hr).
  - apply Hr.
  - rewrite resolve_intern; [by rewrite Hn|apply Hr|done].
Qed.

Definition plain_path (p : bytes) : Prop := p ≠ [] ∧ normalize p = p.

Lemma resolve_path_at data i p : at_index (cd_paths data) i p → resolve_path data i = p.
Proof.
  intros [Hi Hl]. unfold resolve_path. rewrite decide_True; [by rewrite Hl|].
  apply lookup_lt_Some in Hl. lia.
Qed.

Lemma at_index_elem ps i p : at_index ps i p → p ∈ ps.
Proof. intros [_ Hl]. by eapply list_elem_of_lookup_2. Qed.

Section restoring.
Context (data : CacheData) (first : list bytes) (Hplain : Forall plain_path (cd_paths data)).
Notation ps := (cd_paths data).

Lemma plain_at i p : at_index ps i p → p ≠ [] ∧ normalize p = p.
Proof. intros Hat%at_index_elem. by apply (proj1 (Forall_forall _ _) Hplain) in Hat. Qed.

Lemma load_deps_ok files deps pool snap done :
  room first ps pool → Forall2 (dep_entry ps) files deps → snapshot_of pool snap done →
  let '(pool', snap') := load_deps data deps pool snap in
  room first ps pool' ∧ paths pool `prefix_of` paths pool' ∧ build_at snap' = build_at snap ∧
  snapshot_of pool' snap' (done ++ files).
Proof.
  intros Hr Hd. revert pool snap done Hr. induction Hd as [|[p h] d files deps [Hat Hh] _ IH];
    intros pool snap done Hr Hs; cbn [load_deps].
  { by rewrite app_nil_r. }
  cbn in Hat, Hh. rewrite (resolve_path_at _ _ _ Hat). destruct (plain_at _ _ Hat) as [Hne Hn].
  destruct p as [|c p']; [done|]. set (p := c :: p') in *.
  destruct (room_intern first ps pool p Hr (at_index_elem _ _ _ Hat) Hn) as [Hr1 Hres].
  pose proof (intern_paths_prefix pool p) as Hpre.
  destruct (intern pool p) as [pool1 id]. cbn in Hr1, Hres, Hpre.
  specialize (IH pool1 (mkSnapshot (path_ids snap ++ [id]) (hashes snap ++ [dep_hash d]) (build_at snap))
    (done ++ [(p, h)]) Hr1).
  destruct (load_deps _ _ _ _) as [pool2 snap2]. destruct IH as (H1 & H2 & H3 & H4).
  { apply (snapshot_of_extend _ _ _ _ Hpre) in Hs as [Hids Hhs]. split; cbn.
    - apply Forall2_app; [done|]. by repeat constructor.
    - by rewrite fmap_app, Hhs, Hh. }
  rewrite <- app_assoc in H4. split_and!; [done|by trans (paths pool1)|done..].
Qed.

Lemma load_artifact_ok pool old id snap source t deps :
  room first ps pool → entry_ok old ps id snap source t deps →
  ∃ p files id' pool1 pool2 snap',
    resolve old id = Some p ∧ snapshot_of old snap files ∧
    resolve_path data source = p ∧ p ≠ [] ∧ intern pool p = (pool1, id') ∧
    load_snapshot data t deps pool1 = (pool2, snap') ∧
    room first ps pool2 ∧ paths pool `prefix_of` paths pool2 ∧ resolve pool2 id' = Some p ∧
    build_at snap' = build_at snap ∧ snapshot_of pool2 snap' files.
Proof.
  intros Hr (p & files & Hres & Hs & Hat & -> & Hd). exists p, files.
  destruct (plain_at _ _ Hat) as [Hne Hn].
  destruct (room_intern first ps pool p Hr (at_index_elem _ _ _ Hat) Hn) as [Hr1 Hres1].
  pose proof (intern_paths_prefix pool p) as Hpre.
  destruct (intern pool p) as [pool1 id']. cbn in Hr1, Hres1, Hpre.
  pose proof (load_deps_ok files deps pool1 (mkSnapshot [] [] (build_at snap)) [] Hr1 Hd) as Hl.
  destruct (load_deps _ _ _ _) as [pool2 snap2] eqn:E.
  destruct Hl as (H1 & H2 & H3 & H4); [by split|].
  exists id', pool1, pool2, snap2. split_and!; try done.
  - by apply resolve_path_at.
  - by trans (paths pool1).
  - by eapply resolve_stable.
Qed.
End restoring.

(** [m'] has, under ids of [pool'], the artifacts of the list [l] that are kept: those of
    [l] under ids of [pool], with the same dependencies and with [same] contents. *)
Section restored.
Context {A : Type} (deps : A → DepsSnapshot) (kept : A → Prop) (same : A → A → Prop) (pool : PathPool).
Context (Hpool : pool_ok pool).

Definition restored_as (pool' : PathPool) (x y : Z * A) : Prop :=
  ∃ p files, resolve pool x.1 = Some p ∧ resolve pool' y.1 = Some p ∧
    snapshot_of pool (deps x.2) files ∧ snapshot_of pool' (deps y.2) files ∧
    build_at (deps y.2) = build_at (deps x.2) ∧ same x.2 y.2.

Record restored (l : list (Z * A)) (pool' : PathPool) (m' : gmap Z A) : Prop := {
  restored_all x : x ∈ l → kept x.2 → ∃ id' st', m' !! id' = Some st' ∧ restored_as pool' x (id', st');
  restored_only id' st' : m' !! id' = Some st' → ∃ x, x ∈ l ∧ kept x.2 ∧ restored_as pool' x (id', st');
}.

Lemma restored_as_extend pool1 pool2 x y :
  paths pool1 `prefix_of` paths pool2 → restored_as pool1 x y → restored_as pool2 x y.
Proof using Type.
  intros Hp (p & files & H1 & H2 & H3 & H4 & H5 & H6). exists p, files.
  split_and!; try done; [by eapply resolve_stable|by eapply snapshot_of_extend].
Qed.

Lemma restored_extend l pool1 pool2 m :
  paths pool1 `prefix_of` paths pool2 → restored l pool1 m → restored l pool2 m.
Proof using Type.
  intros Hp [Hall Honly]. split.
  - intros x Hx Hk. destruct (Hall x Hx Hk) as (id' & st' & ? & ?). exists id', st'.
    split; [done|]. by eapply restored_as_extend.
  - intros id' st' Hm. destruct (Honly _ _ Hm) as (x & ? & ? & ?). exists x.
    split_and!; try done. by eapply restored_as_extend.
Qed.

Lemma restored_skip l pool' m x : ¬ kept x.2 → restored l pool' m → restored (l ++ [x]) pool' m.
Proof using Type.
  intros Hk [Hall Honly]. split.
  - intros y [Hy| ->%list_elem_of_singleton]%elem_of_app Hy'; [by apply Hall|done].
  - intros id' st' Hm. destruct (Honly _ _ Hm) as (y & ? & ? & ?). exists y.
    split_and!; [apply elem_of_app; by left|done..].
Qed.

(** The file of a new artifact has no entry yet. *)
Lemma restored_fresh l pool' m x id' p :
  NoDup (l ++ [x]).*1 → restored l pool' m → resolve pool x.1 = Some p → resolve pool' id' = Some p →
  m !! id' = None.
Proof.
  intros Hnd [_ Honly] Hx Hid. destruct (m !! id') as [st'|] eqn:Hm; [|done]. exfalso.
  destruct (Honly _ _ Hm) as (y & Hy & _ & q & files & Hq & Hq' & _). cbn in Hq'. simplify_eq.
  assert (y.1 = x.1) as Heq by (by eapply resolve_inj).
  rewrite fmap_app in Hnd. apply NoDup_app in Hnd as (_ & Hd & _).
  apply (Hd y.1); [apply list_elem_of_fmap; eauto|]. rewrite Heq. cbn. set_solver.
Qed.

Lemma restored_insert l pool' m x id' st' :
  NoDup (l ++ [x]).*1 → restored l pool' m → kept x.2 → restored_as pool' x (id', st') →
  restored (l ++ [x]) pool' (<[id' := st']> m).
Proof.
  intros Hnd Hr Hk Has.
  assert (m !! id' = None) as Hfresh.
  { destruct Has as (p & files & H1 & H2 & _). by eapply restored_fresh. }
  destruct Hr as [Hall Honly]. split.
  - intros y [Hy| ->%list_elem_of_singleton]%elem_of_app Hy'.
    + destruct (Hall y Hy Hy') as (i & s & Hm & Hs). exists i, s. split; [|done].
      rewrite lookup_insert_ne; [done|]. congruence.
    + exists id', st'. by rewrite lookup_insert_eq.
  - intros i s [(<- & <-)|(Hne & Hm)]%lookup_insert_Some; [exists x; set_solver|].
    destruct (Honly _ _ Hm) as (y & ? & ? & ?). exists y. set_solver.
Qed.
End restored.

Section tables.
Context (ws : Workspace) (Hpool : pool_ok (path_pool ws)) (data : CacheData) (first : list bytes).
Context (Hplain : Forall plain_path (cd_paths data)) (found : bytes → bytes → option bytes).
Notation ps := (cd_paths data).

Definition kept_pch (st : PCHState) : Prop := is_Some (found pch_ns (pch_key st)).
Definition same_pch (st st' : PCHState) : Prop :=
  pch_key st' = pch_key st ∧ bound st' = bound st ∧ found pch_ns (pch_key st) = Some (pch_path st').
Definition kept_pcm (st : PCMState) : Prop := is_Some (found pcm_ns (pcm_key st)).
Definition same_pcm (st st' : PCMState) : Prop :=
  pcm_key st' = pcm_key st ∧ found pcm_ns (pcm_key st) = Some (pcm_path st').

Definition pchs_restored := restored pch_deps kept_pch same_pch (path_pool ws).
Definition pcms_restored := restored pcm_deps kept_pcm same_pcm (path_pool ws).

Definition restore_pchs (es : list CachePCHEntry) (w : Workspace) : Workspace :=
  foldl (λ w e, restore_pch data e (found pch_ns (h_key e)) w) w es.
Definition restore_pcms (es : list CachePCMEntry) (w : Workspace) : Workspace :=
  foldl (λ w e, restore_pcm data e (found pcm_ns (c_key e)) w) w es.

Lemma restore_pch_ok l x e w :
  NoDup (l ++ [x]).*1 → pch_entry ws ps x e → room first ps (path_pool w) →
  pchs_restored l (path_pool w) (pch_cache w) →
  let w' := restore_pch data e (found pch_ns (h_key e)) w in
  room first ps (path_pool w') ∧ pchs_restored (l ++ [x]) (path_pool w') (pch_cache w') ∧
  pcm_cache w' = pcm_cache w ∧ pcm_paths w' = pcm_paths w.
Proof.
  intros Hnd [He [Hk Hb]] Hroom Hr. unfold restore_pch. rewrite Hk.
  destruct (found pch_ns (pch_key x.2)) as [blob|] eqn:Hf; cbn zeta.
  2: { split_and!; [done| |done..]. apply restored_skip; [|exact Hr]. unfold kept_pch, kept_pcm. rewrite Hf. by intros [? ?]. }
  destruct (load_artifact_ok data first Hplain _ _ _ _ _ _ _ Hroom He)
    as (p & files & id' & pool1 & pool2 & snap & Hp & Hs & -> & Hne & Hi & Hl & Hroom2 & Hpre & Hid & Ht & Hs2).
  destruct p as [|c p]; [done|]. rewrite Hi, Hl.
  cbn [path_pool pch_cache pcm_cache pcm_paths set_pch set_pool].
  split_and!; [done| |done..].
  apply restored_insert; [exact Hpool|exact Hnd| |by exists blob|].
  { by eapply restored_extend. }
  exists (c :: p), files. cbn. split_and!; try done.
Qed.

Lemma restore_pcm_ok l x e w :
  NoDup (l ++ [x]).*1 → pcm_entry ws ps x e → room first ps (path_pool w) →
  pcms_restored l (path_pool w) (pcm_cache w) → pcm_paths w = pcm_path <$> pcm_cache w →
  let w' := restore_pcm data e (found pcm_ns (c_key e)) w in
  room first ps (path_pool w') ∧ pcms_restored (l ++ [x]) (path_pool w') (pcm_cache w') ∧
  pcm_paths w' = pcm_path <$> pcm_cache w' ∧
  paths (path_pool w) `prefix_of` paths (path_pool w') ∧ pch_cache w' = pch_cache w.
Proof.
  intros Hnd [He Hk] Hroom Hr Hpaths. unfold restore_pcm. rewrite Hk.
  destruct (found pcm_ns (pcm_key x.2)) as [blob|] eqn:Hf; cbn zeta.
  2: { split_and!; [done| |done..]. apply restored_skip; [|exact Hr]. unfold kept_pch, kept_pcm. rewrite Hf. by intros [? ?]. }
  destruct (load_artifact_ok data first Hplain _ _ _ _ _ _ _ Hroom He)
    as (p & files & id' & pool1 & pool2 & snap & Hp & Hs & -> & Hne & Hi & Hl & Hroom2 & Hpre & Hid & Ht & Hs2).
  destruct p as [|c p]; [done|]. rewrite Hi, Hl.
  cbn [path_pool pch_cache pcm_cache pcm_paths set_pcm set_pool pcm_path].
  split_and!; [done| |by rewrite fmap_insert, Hpaths|done..].
  apply restored_insert; [exact Hpool|exact Hnd| |by exists blob|].
  { by eapply restored_extend. }
  exists (c :: p), files. cbn. split_and!; try done.
Qed.

Lemma restore_pchs_ok l es l0 w :
  NoDup (l0 ++ l).*1 → Forall2 (pch_entry ws ps) l es → room first ps (path_pool w) →
  pchs_restored l0 (path_pool w) (pch_cache w) →
  let w' := restore_pchs es w in
  room first ps (path_pool w') ∧ pchs_restored (l0 ++ l) (path_pool w') (pch_cache w') ∧
  pcm_cache w' = pcm_cache w ∧ pcm_paths w' = pcm_paths w.
Proof.
  intros Hnd Hl. revert l0 w Hnd. induction Hl as [|x e l es He _ IH]; intros l0 w Hnd Hroom Hr.
  { by rewrite app_nil_r. }
  rewrite cons_middle, app_assoc in Hnd |- *.
  destruct (restore_pch_ok l0 x e w) as (H1 & H2 & H3 & H4); [|done..|].
  { rewrite fmap_app in Hnd. by apply NoDup_app in Hnd as [? _]. }
  destruct (IH (l0 ++ [x]) _ Hnd H1 H2) as (H5 & H6 & H7 & H8). cbn.
  split_and!; [done|done|by rewrite <- H3|by rewrite <- H4].
Qed.

Lemma restore_pcms_ok l es l0 w :
  NoDup (l0 ++ l).*1 → Forall2 (pcm_entry ws ps) l es → room first ps (path_pool w) →
  pcms_restored l0 (path_pool w) (pcm_cache w) → pcm_paths w = pcm_path <$> pcm_cache w →
  let w' := restore_pcms es w in
  pcms_restored (l0 ++ l) (path_pool w') (pcm_cache w') ∧ pcm_paths w' = pcm_path <$> pcm_cache w' ∧
  paths (path_pool w) `prefix_of` paths (path_pool w') ∧ pch_cache w' = pch_cache w.
Proof.
  intros Hnd Hl. revert l0 w Hnd. induction Hl as [|x e l es He _ IH]; intros l0 w Hnd Hroom Hr Hp.
  { by rewrite app_nil_r. }
  rewrite cons_middle, app_assoc in Hnd |- *.
  destruct (restore_pcm_ok l0 x e w) as (H1 & H2 & H3 & H4 & H5); [|done..|].
  { rewrite fmap_app in Hnd. by apply NoDup_app in Hnd as [? _]. }
  destruct (IH (l0 ++ [x]) _ Hnd H1 H2 H3) as (H6 & H7 & H8 & H9). cbn.
  split_and!; [done|done|by etrans|by rewrite <- H5].
Qed.

Lemma restore_tables_ok ord fresh :
  Forall2 (pch_entry ws ps) (filter (λ x, pch_path x.2 ≠ []) (entries ord (pch_cache ws))) (cd_pch data) →
  Forall2 (pcm_entry ws ps) (filter (λ x, pcm_path x.2 ≠ []) (entries ord (pcm_cache ws))) (cd_pcm data) →
  room first ps (path_pool fresh) → pch_cache fresh = ∅ → pcm_cache fresh = ∅ → pcm_paths fresh = ∅ →
  let w' := restore_pcms (cd_pcm data) (restore_pchs (cd_pch data) fresh) in
  pchs_restored (filter (λ x, pch_path x.2 ≠ []) (entries ord (pch_cache ws))) (path_pool w') (pch_cache w') ∧
  pcms_restored (filter (λ x, pcm_path x.2 ≠ []) (entries ord (pcm_cache ws))) (path_pool w') (pcm_cache w') ∧
  pcm_paths w' = pcm_path <$> pcm_cache w'.
Proof.
  intros Hh Hc Hroom H1 H2 H3.
  assert (∀ {A} (P : Z * A → Prop) `{∀ x, Decision (P x)} (m : gmap Z A), NoDup (filter P (entries ord m)).*1) as Hnd.
  { intros A P HP m. eapply sublist_NoDup; [|apply fmap_sublist, sublist_filter].
    apply NoDup_entries_fst. }
  destruct (restore_pchs_ok _ _ [] fresh (Hnd _ _ _ _) Hh Hroom) as (H4 & H5 & H6 & H7).
  { rewrite H1. split; [by intros ? ?%elem_of_nil|by intros ? ? ?%lookup_empty_Some]. }
  destruct (restore_pcms_ok _ _ [] _ (Hnd _ _ _ _) Hc H4) as (H8 & H9 & H10 & H11).
  { rewrite H6, H2. split; [by intros ? ?%elem_of_nil|by intros ? ? ?%lookup_empty_Some]. }
  { rewrite H6, H7, H2, H3. by rewrite fmap_empty. }
  cbn. split_and!; [|done..]. rewrite H11. by eapply restored_extend.
Qed.
End tables.

(** ** The store *)

Section run.
Context {W : Type} `{PlatformLaws W} `{CacheCodec} (ord : Order).

(** Where the store has the blob of a key. *)
Definition blob_of (s : State) (ns key : bytes) : option bytes :=
  match namespaces s !! ns with
  | Some n => match CacheStore.entries n !! key with Some _ => Some (blob_path n key) | None => None end
  | None => None
  end.

Definition same_blobs (s s' : State) : Prop := ∀ ns key, blob_of s' ns key = blob_of s ns key.

(** Looking up changes stamps only, and fails only at the end of the store's clock. *)
Lemma lookup_total ns key (x : Sys W) :
  let '(r, x') := CacheStore.lookup ns key x in
  match r with
  | Ok b => b = blob_of (store x) ns key ∧ same_blobs (store x) (store x')
  | Fault => max_i64 ≤ last_stamp (store x')
  | _ => False
  end.
Proof.
  unfold CacheStore.lookup, find_namespace, blob_of at 1, bind, get, ret. cbn.
  destruct (namespaces (store x) !! ns) as [n|] eqn:Hn; [|done].
  destruct (CacheStore.entries n !! key) as [e|] eqn:He; [|done].
  unfold next_stamp, bind, call, get, modify. destruct (os_now_ms (world x)) as [now w]. cbn.
  case_decide; cbn; [|lia]. split; [done|]. intros ns' key'. unfold blob_of. cbn.
  destruct (decide (ns' = ns)) as [-> |Hne]; [|by rewrite lookup_insert_ne].
  rewrite lookup_insert_eq, Hn. cbn.
  destruct (decide (key' = key)) as [-> |Hk]; [by rewrite lookup_insert_eq, He|].
  by rewrite lookup_insert_ne.
Qed.

Lemma load_pchs_run data found es ws (x : Sys W) :
  (∀ ns key, blob_of (store x) ns key = found ns key) →
  let '(r, x') := load_pchs data es ws x in
  match r with
  | Ok ws' => ws' = restore_pchs data found es ws ∧ ∀ ns key, blob_of (store x') ns key = found ns key
  | Fault => max_i64 ≤ last_stamp (store x')
  | _ => False
  end.
Proof.
  revert ws x. induction es as [|e es IH]; intros ws x Hf; cbn [load_pchs]; [done|].
  pose proof (lookup_total pch_ns (h_key e) x) as Hl. unfold bind at 1.
  destruct (CacheStore.lookup pch_ns (h_key e) x) as [[b|er| |] x1]; [|done..].
  destruct Hl as [-> Hsame]. rewrite Hf.
  apply (IH (restore_pch data e (found pch_ns (h_key e)) ws)). intros. by rewrite Hsame.
Qed.

Lemma load_pcms_run data found es ws (x : Sys W) :
  (∀ ns key, blob_of (store x) ns key = found ns key) →
  let '(r, x') := load_pcms data es ws x in
  match r with
  | Ok ws' => ws' = restore_pcms data found es ws
  | Fault => max_i64 ≤ last_stamp (store x')
  | _ => False
  end.
Proof.
  revert ws x. induction es as [|e es IH]; intros ws x Hf; cbn [load_pcms]; [done|].
  pose proof (lookup_total pcm_ns (c_key e) x) as Hl. unfold bind at 1.
  destruct (CacheStore.lookup pcm_ns (c_key e) x) as [[b|er| |] x1]; [|done..].
  destruct Hl as [-> Hsame]. rewrite Hf.
  apply (IH (restore_pcm data e (found pcm_ns (c_key e)) ws)). intros. by rewrite Hsame.
Qed.

Definition cache_file (x : Sys W) : bytes := CacheStore.join (base (store x)) (str "cache.json").

Lemma load_cache_run content data ws (x : Sys W) :
  (os_read (cache_file x) (world x)).1 = inr content → cache_from_json content = Some data →
  let '(r, x') := load_cache true ws x in
  match r with
  | Ok ws' => ws' = restore_pcms data (blob_of (store x)) (cd_pcm data)
                      (restore_pchs data (blob_of (store x)) (cd_pch data) ws)
  | Fault => max_i64 ≤ last_stamp (store x')
  | _ => False
  end.
Proof.
  intros Hread Hjson. unfold load_cache. cbn [negb]. unfold base_dir, fs_read, bind, get, ret, call.
  fold (cache_file x). destruct (os_read (cache_file x) (world x)) as [c w]. cbn in Hread. subst c.
  cbn [store world]. rewrite Hjson.
  pose proof (load_pchs_run data (blob_of (store x)) (cd_pch data) ws (mkSys (store x) w)) as Hrun.
  destruct (load_pchs data (cd_pch data) ws (mkSys (store x) w)) as [[ws1|e| |] x1];
    [|by apply Hrun..]. destruct Hrun as [-> Hb]; [done|].
  apply (load_pcms_run data (blob_of (store x)) (cd_pcm data) _ x1 Hb).
Qed.

(** Saving never fails, and replaces the file as a whole or leaves it alone. *)
Lemma save_cache_run ws (x : Sys W) :
  pool_ok (path_pool ws) → tables_ok ws →
  ∃ data, cache_data ws ord = Ok data ∧
    let '(r, x') := save_cache ord true ws x in
    store x' = store x ∧ ∃ published, r = Ok published ∧
      (published = true → ∃ json, cache_to_json data = Some json ∧
         node_at (world x') (cache_file x) = Some (File json)).
Proof.
  intros Hpool Htab. destruct (cache_data_ok ws Hpool ord Htab) as (data & Hd & _). exists data.
  split; [done|]. unfold save_cache. cbn [negb]. unfold bind at 1, lift. rewrite Hd.
  destruct (cache_to_json data) as [json|] eqn:Hj; [|by split; [done|exists false]].
  unfold base_dir, fs_write, fs_rename, bind, get, ret, call. fold (cache_file x).
  destruct (os_getpid (world x)) as [pid w]. cbn [store world].
  match goal with |- context [os_write ?tmp json w] =>
    pose proof (write_law tmp json w) as [_ Hw]; destruct (os_write tmp json w) as [[e|] w1];
    [by split; [done|exists false]|]; cbn in Hw; specialize (Hw eq_refl);
    pose proof (rename_law tmp (cache_file x) w1 json Hw) as Hr;
    cbn [world store]; destruct (os_rename tmp (cache_file x) w1) as [[e|] w2]; cbn in Hr |- *; [by split; [done|exists false]|]
  end.
  split; [done|]. exists true. split; [done|]. intros _. exists json. by destruct Hr.
Qed.

(** What a restored artifact shares with the one that was saved. *)
Definition same_file (ws ws' : Workspace) (id id' : Z) : Prop :=
  ∃ p, resolve (path_pool ws) id = Some p ∧ resolve (path_pool ws') id' = Some p.

Definition same_verdict (ws ws' : Workspace) (snap snap' : DepsSnapshot) : Prop :=
  ∀ (D : Type) (HD : Disk D) (hash : bytes → Z) (disk : D),
    deps_changed hash disk (path_pool ws') snap' = deps_changed hash disk (path_pool ws) snap.

Definition same_header (ws ws' : Workspace) (id id' : Z) (st st' : PCHState) : Prop :=
  same_file ws ws' id id' ∧ same_verdict ws ws' (pch_deps st) (pch_deps st') ∧
  pch_key st' = pch_key st ∧ bound st' = bound st.

Definition same_module (ws ws' : Workspace) (id id' : Z) (st st' : PCMState) : Prop :=
  same_file ws ws' id id' ∧ same_verdict ws ws' (pcm_deps st) (pcm_deps st') ∧ pcm_key st' = pcm_key st.

Lemma restored_as_same {A} (deps : A → DepsSnapshot) same ws ws' x y :
  restored_as deps same (path_pool ws) (path_pool ws') x y →
  same_file ws ws' x.1 y.1 ∧ same_verdict ws ws' (deps x.2) (deps y.2) ∧ same x.2 y.2.
Proof.
  intros (p & files & H1' & H2' & H3' & H4' & H5' & H6'). split_and!; [by exists p| |done].
  intros D HD hash disk. rewrite (deps_changed_ok hash disk _ _ _ H3'), (deps_changed_ok hash disk _ _ _ H4').
  by rewrite H5'.
Qed.

(** C6. The tables of cached artifacts survive a restart.  When [save_cache] has published its
    file and a later process reads it, with the blobs its store has then, that process ends
    up with an entry for exactly the precompiled headers and modules that were saved and
    whose blobs are still there: each belongs to the same file, has the same key and bound
    and the path of the blob, and its dependencies give the same verdict on staleness on
    every disk, although the path ids of the two processes differ.  The only other outcome
    is the end of the store's clock. *)
Theorem cache_survives_restart ws x x1 fresh x2 content :
  (∀ data json, cache_to_json data = Some json → cache_from_json json = Some data) →
  pool_ok (path_pool ws) → Forall plain_path (paths (path_pool ws)) → tables_ok ws →
  save_cache ord true ws x = (Ok true, x1) →
  base (store x2) = base (store x) →
  node_at (world x2) (cache_file x) = node_at (world x1) (cache_file x) →
  (os_read (cache_file x2) (world x2)).1 = inr content →
  pool_ok (path_pool fresh) →
  Z.of_nat (length (paths (path_pool fresh)) + length (paths (path_pool ws))) < two32 →
  pch_cache fresh = ∅ → pcm_cache fresh = ∅ → pcm_paths fresh = ∅ →
  ∃ r x3, load_cache true fresh x2 = (r, x3) ∧
    match r with
    | Ok ws' =>
      (∀ id st blob, pch_cache ws !! id = Some st → pch_path st ≠ [] →
         blob_of (store x2) pch_ns (pch_key st) = Some blob →
         ∃ id' st', pch_cache ws' !! id' = Some st' ∧ pch_path st' = blob ∧ same_header ws ws' id id' st st') ∧
      (∀ id' st', pch_cache ws' !! id' = Some st' →
         ∃ id st, pch_cache ws !! id = Some st ∧ pch_path st ≠ [] ∧ same_header ws ws' id id' st st' ∧
           blob_of (store x2) pch_ns (pch_key st) = Some (pch_path st')) ∧
      (∀ id st blob, pcm_cache ws !! id = Some st → pcm_path st ≠ [] →
         blob_of (store x2) pcm_ns (pcm_key st) = Some blob →
         ∃ id' st', pcm_cache ws' !! id' = Some st' ∧ pcm_path st' = blob ∧ same_module ws ws' id id' st st') ∧
      (∀ id' st', pcm_cache ws' !! id' = Some st' →
         ∃ id st, pcm_cache ws !! id = Some st ∧ pcm_path st ≠ [] ∧ same_module ws ws' id id' st st' ∧
           blob_of (store x2) pcm_ns (pcm_key st) = Some (pcm_path st')) ∧
      pcm_paths ws' = pcm_path <$> pcm_cache ws'
    | Fault => max_i64 ≤ last_stamp (store x3)
    | _ => False
    end.
Proof.
  intros Hcodec Hpool Hplain Htab Hsave Hbase Hnode Hread Hpool' Hfew He1 He2 He3.
  destruct (save_cache_run ws x Hpool Htab) as (data & Hd & Hrun). rewrite Hsave in Hrun.
  destruct Hrun as (_ & published & [= <-] & Hpub). destruct (Hpub eq_refl) as (json & Hj & Hfile).
  assert (cache_file x2 = cache_file x) as Hcf by (unfold cache_file; by rewrite Hbase).
  assert (content = json) as ->.
  { destruct (read_law (cache_file x2) (world x2)) as [_ Hr]. apply Hr in Hread.
    rewrite Hcf, Hnode, Hfile in Hread. congruence. }
  pose proof (load_cache_run json data fresh x2 Hread (Hcodec _ _ Hj)) as Hload.
  destruct (load_cache true fresh x2) as [r x3]. exists r, x3. split; [done|].
  destruct r as [ws'| | |]; try done. subst ws'.
  destruct (cache_data_ok ws Hpool ord Htab) as (data' & Hd' & Hnd & Hsub & Hh & Hc). assert (data' = data) as -> by congruence.
  assert (length (cd_paths data) ≤ length (paths (path_pool ws)))%nat as Hlen.
  { apply submseteq_length, NoDup_submseteq; [exact Hnd|exact Hsub]. }
  destruct (restore_tables_ok ws Hpool data (paths (path_pool fresh))) with
    (found := blob_of (store x2)) (ord := ord) (fresh := fresh) as (Hpch & Hpcm & Hpp); try done.
  { apply Forall_forall. intros p Hp%Hsub. by apply (proj1 (Forall_forall _ _) Hplain). }
  { split; [done|set_solver|lia]. }
  set (ws' := restore_pcms _ _ _ _) in *. split_and!; [..|done].
  - intros id st blob Hm Hne Hb. destruct (restored_all _ _ _ _ _ _ _ Hpch (id, st)) as (id' & st' & Hm' & Has).
    { apply list_elem_of_filter. split; [done|]. by apply elem_of_entries. }
    { by exists blob. }
    apply restored_as_same in Has as (? & ? & ? & ? & Hb'). exists id', st'. cbn in *. unfold same_header.
    split_and!; try done. congruence.
  - intros id' st' Hm. destruct (restored_only _ _ _ _ _ _ _ Hpch _ _ Hm) as ([id st] & Hin & _ & Has).
    apply list_elem_of_filter in Hin as [Hne Hin%elem_of_entries].
    apply restored_as_same in Has as (? & ? & ? & ? & Hb'). exists id, st. by unfold same_header.
  - intros id st blob Hm Hne Hb. destruct (restored_all _ _ _ _ _ _ _ Hpcm (id, st)) as (id' & st' & Hm' & Has).
    { apply list_elem_of_filter. split; [done|]. by apply elem_of_entries. }
    { by exists blob. }
    apply restored_as_same in Has as (? & ? & ? & Hb'). exists id', st'. cbn in *. unfold same_module.
    split_and!; try done. congruence.
  - intros id' st' Hm. destruct (restored_only _ _ _ _ _ _ _ Hpcm _ _ Hm) as ([id st] & Hin & _ & Has).
    apply list_elem_of_filter in Hin as [Hne Hin%elem_of_entries].
    apply restored_as_same in Has as (? & ? & ? & Hb'). exists id, st. by unfold same_module.
Qed.
End run.

(** ** An encoding, and a run *)

#[export] Instance CacheDepEntry_eq_dec : EqDecision CacheDepEntry.
Proof. solve_decision. Defined.
#[export] Instance CacheDepEntry_countable : Countable CacheDepEntry.
Proof.
  apply (inj_countable' (λ d, (dep_path d, dep_hash d)) (λ t, mkCacheDep t.1 t.2)). by intros [].
Defined.
#[export] Instance CachePCHEntry_eq_dec : EqDecision CachePCHEntry.
Proof. solve_decision. Defined.
#[export] Instance CachePCHEntry_countable : Countable CachePCHEntry.
Proof.
  apply (inj_countable' (λ e, (h_key e, h_source_file e, h_bound e, h_build_at e, h_deps e))
    (λ t, let '(a, b, c, d, f) := t in mkCachePCH a b c d f)). by intros [].
Defined.
#[export] Instance CachePCMEntry_eq_dec : EqDecision CachePCMEntry.
Proof. solve_decision. Defined.
#[export] Instance CachePCMEntry_countable : Countable CachePCMEntry.
Proof.
  apply (inj_countable' (λ e, (c_key e, c_source_file e, c_module_name e, c_build_at e, c_deps e))
    (λ t, let '(a, b, c, d, f) := t in mkCachePCM a b c d f)). by intros [].
Defined.
#[export] Instance CacheData_eq_dec : EqDecision CacheData.
Proof. solve_decision. Defined.
#[export] Instance CacheData_countable : Countable CacheData.
Proof.
  apply (inj_countable' (λ d, (cd_paths d, cd_pch d, cd_pcm d))
    (λ t, let '(a, b, c) := t in mkCacheData a b c)). by intros [].
Defined.

#[export] Instance code_codec : CacheCodec := {
  cache_to_json d := Some (pos_digits (encode d));
  cache_from_json b := decode (digits_pos b);
}.

Lemma code_codec_ok data json : cache_to_json data = Some json → cache_from_json json = Some data.
Proof. intros [= <-]. cbn. by rewrite pos_digits_roundtrip, decode_encode. Qed.

(** A workspace with one precompiled header, and one that has interned another path. *)
Definition saved_workspace : Workspace :=
  let pool := (intern_all empty_pool [str "/m.cpp"; str "/a.h"]).1 in
  mkWorkspace pool None ∅
    {[0 := mkPCHState (str "blob") 7 (str "k1") (mkSnapshot [1] [5] 9) [] None]} ∅ ∅.

Definition fresh_workspace : Workspace :=
  mkWorkspace (intern_all empty_pool [str "/z"]).1 None ∅ ∅ ∅ ∅.

Definition saved_run : Sys MemFs := (save_cache bucket_order true saved_workspace demo4).2.

Lemma saved_workspace_ok :
  pool_ok (path_pool saved_workspace) ∧ Forall plain_path (paths (path_pool saved_workspace)) ∧
  tables_ok saved_workspace.
Proof.
  split_and!.
  - pose proof (intern_all_resolve empty_pool [str "/m.cpp"; str "/a.h"] empty_pool_ok) as Hok.
    cbn [path_pool saved_workspace]. destruct (intern_all _ _). by apply Hok.
  - by do 2 (constructor; [split; [done|vm_compute; reflexivity]|]); constructor.
  - split; [|apply map_Forall_empty]. apply map_Forall_singleton. split; [by eexists|].
    exists [(str "/a.h", 5)]. split; [|done]. cbn. repeat constructor.
Qed.

Lemma cache_survives_restart_witness :
  ∃ ws' x3, load_cache true fresh_workspace saved_run = (Ok ws', x3) ∧
    ∃ id' st', pch_cache ws' !! id' = Some st' ∧ pch_path st' = str "r/cache/v1/pch/k1.pch" ∧
      same_header saved_workspace ws' 0 id'
        (mkPCHState (str "blob") 7 (str "k1") (mkSnapshot [1] [5] 9) [] None) st'.
Proof.
  destruct saved_workspace_ok as (H1 & H2 & H3).
  destruct (cache_survives_restart bucket_order saved_workspace demo4 saved_run fresh_workspace saved_run
    (match mem_files (world saved_run) !! cache_file saved_run with Some c => c | None => [] end)
    code_codec_ok H1 H2 H3) as (r & x3 & Hrun & Hr).
  1-4: vm_compute; reflexivity.
  1: pose proof (intern_all_resolve empty_pool [str "/z"] empty_pool_ok) as Hok;
     cbn [path_pool fresh_workspace]; destruct (intern_all _ _); by apply Hok.
  1-4: vm_compute; reflexivity.
  destruct r as [ws'| | |]; [|destruct Hr|exfalso|destruct Hr].
  - exists ws', x3. split; [exact Hrun|]. destruct Hr as (Hr & _). apply (Hr 0); [done|done|].
    vm_compute. reflexivity.
  - assert ((load_cache true fresh_workspace saved_run).1 ≠ Fault) as Hne by (vm_compute; discriminate).
    rewrite Hrun in Hne. by apply Hne.
Defined.
