(* ===== verification/Config.v ===== *)
(** * The configuration (src/server/workspace/config.{h,cpp})

    Defaults, the placeholder for the workspace in paths, and the rules that add flags to
    and remove flags from the command of the files their patterns match.  The environment
    (variables, cores, directories) is the class [Environment]; the readers of TOML and
    JSON are arguments. *)
From S2P Require Import Prelude Text Glob.
Local Open Scope Z_scope.
Local Open Scope cpp_scope.

(** ** Data *)

Record ConfigRule := mkConfigRule {
  rule_patterns : list bytes;
  rule_append : list bytes;
  rule_remove : list bytes;
}.

Record ProjectConfig := mkProjectConfig {
  clang_tidy : bool;
  max_active_file : Z;
  cache_dir : bytes;
  logging_dir : bytes;
  compile_commands_paths : list bytes;
  enable_indexing : option bool;
  idle_timeout_ms : option Z;
  stateful_worker_count : Z;
  stateless_worker_count : Z;
  min_stateless_worker_count : Z;
  max_stateless_worker_count : Z;
  worker_memory_limit : Z;
}.

Record CompiledRule := mkCompiledRule {
  c_patterns : list GlobPattern;
  c_append : list bytes;
  c_remove : list bytes;
}.

Record Config := mkConfig {
  project : ProjectConfig;
  rules : list ConfigRule;
  compiled_rules : list CompiledRule;
}.

Definition default_project : ProjectConfig := mkProjectConfig false 0 [] [] [] None None 0 0 0 0 0.
Definition default_config : Config := mkConfig default_project [] [].

(** ** The placeholder *)

Definition placeholder : bytes := str "${workspace}".

(** [value.find(needle, pos)]. *)
Fixpoint find_in (needle s : bytes) : option nat :=
  if starts_with needle s then Some 0%nat
  else match s with
       | [] => None
       | _ :: s => S <$> find_in needle s
       end.

Definition find_from (needle s : bytes) (pos : nat) : option nat :=
  if decide (pos ≤ length s)%nat then (λ i, pos + i)%nat <$> find_in needle (drop pos s) else None.

(** [value.replace(pos, len, with)]. *)
Definition replace (s : bytes) (pos len : nat) (by_ : bytes) : bytes := take pos s ++ by_ ++ drop (pos + len) s.

Fixpoint substitute_loop (fuel : nat) (value root : bytes) (pos : nat) : Res glob_error bytes :=
  match fuel with
  | O => Stuck
  | S fuel =>
    match find_from placeholder value pos with
    | None => Ok value
    | Some p => substitute_loop fuel (replace value p (length placeholder) root) root (p + length root)
    end
  end.

Definition substitute_workspace (value root : bytes) : Res glob_error bytes :=
  match root with
  | [] => Ok value
  | _ => substitute_loop (S (length value)) value root 0
  end.

Fixpoint substitute_all (values : list bytes) (root : bytes) : Res glob_error (list bytes) :=
  match values with
  | [] => Ok []
  | v :: vs =>
    let? v := substitute_workspace v root in
    let? vs := substitute_all vs root in
    Ok (v :: vs)
  end.

(** ** Defaults *)

Class Environment := {
  get_env : bytes → option bytes;
  parallelism : Z;
  make_directories : bytes → bool;
  join_path : bytes → bytes → bytes;
  xxh3_64 : bytes → Z;
}.

Section config.
Context `{Environment} (char_signed : bool) (fuel : nat).

Definition resolve_xdg_cache_dir (workspace_root : bytes) : bytes :=
  let base :=
    match get_env (str "XDG_CACHE_HOME") with
    | Some (_ :: _ as xdg) => Some xdg
    | _ =>
      match get_env (str "HOME") with
      | Some (_ :: _ as home) => Some (join_path home (str ".cache"))
      | _ => None
      end
    end in
  match base with
  | None => []
  | Some base =>
    let dir := join_path (join_path base (str "clice")) (hex16 (xxh3_64 workspace_root)) in
    if make_directories dir then dir else []
  end.

Fixpoint compile_patterns (ps : list bytes) : Res glob_error (list GlobPattern) :=
  match ps with
  | [] => Ok []
  | p :: ps =>
    match create char_signed p 100 with
    | Ok pat => let? rest := compile_patterns ps in Ok (pat :: rest)
    | Err _ => compile_patterns ps
    | Fault => Fault
    | Stuck => Stuck
    end
  end.

Fixpoint compile_rules (rs : list ConfigRule) : Res glob_error (list CompiledRule) :=
  match rs with
  | [] => Ok []
  | r :: rs =>
    let? pats := compile_patterns (rule_patterns r) in
    let? rest := compile_rules rs in
    Ok (match pats with
        | [] => rest
        | _ => mkCompiledRule pats (rule_append r) (rule_remove r) :: rest
        end)
  end.

Definition or_default (z d : Z) : Z := if decide (z = 0) then d else z.

Definition default_cache_dir (dir workspace_root : bytes) : bytes :=
  match dir, workspace_root with
  | [], _ :: _ =>
    match resolve_xdg_cache_dir workspace_root with
    | [] => join_path workspace_root (str ".clice")
    | dir => dir
    end
  | _, _ => dir
  end.

Definition default_logging_dir (logging cache : bytes) : bytes :=
  match logging, cache with [], _ :: _ => join_path cache (str "logs") | _, _ => logging end.

Definition apply_defaults (workspace_root : bytes) (this : Config) : Res glob_error Config :=
  let p := project this in
  let cache := default_cache_dir (cache_dir p) workspace_root in
  let logging := default_logging_dir (logging_dir p) cache in
  let? cache := substitute_workspace cache workspace_root in
  let? logging := substitute_workspace logging workspace_root in
  let? commands := substitute_all (compile_commands_paths p) workspace_root in
  let? compiled := compile_rules (rules this) in
  Ok (mkConfig
        (mkProjectConfig (clang_tidy p) (or_default (max_active_file p) 8) cache logging commands
           (Some (default true (enable_indexing p))) (Some (default 3000 (idle_timeout_ms p)))
           (or_default (stateful_worker_count p) 2)
           (or_default (stateless_worker_count p) (Z.max (Z.quot parallelism 2) 2))
           (min_stateless_worker_count p) (max_stateless_worker_count p)
           (or_default (worker_memory_limit p) (4 * 1024 * 1024 * 1024)))
        (rules this) compiled).

(** ** Rules *)

Fixpoint any_match (ps : list GlobPattern) (file_path : bytes) : Res glob_error bool :=
  match ps with
  | [] => Ok false
  | p :: ps =>
    let? b := glob_match fuel p file_path in
    if b : bool then Ok true else any_match ps file_path
  end.

(** [std::erase(append, r); remove.push_back(r)] for every flag of the rule. *)
Definition remove_flag (st : list bytes * list bytes) (r : bytes) : list bytes * list bytes :=
  (filter (λ a, a ≠ r) st.1, st.2 ++ [r]).

Definition apply_rule (rule : CompiledRule) (st : list bytes * list bytes) : list bytes * list bytes :=
  let st := foldl remove_flag st (c_remove rule) in
  (st.1 ++ c_append rule, st.2).

Fixpoint match_rules_from (rs : list CompiledRule) (file_path : bytes) (st : list bytes * list bytes) :
    Res glob_error (list bytes * list bytes) :=
  match rs with
  | [] => Ok st
  | rule :: rs =>
    let? matched := any_match (c_patterns rule) file_path in
    match_rules_from rs file_path (if matched : bool then apply_rule rule st else st)
  end.

Definition match_rules (this : Config) (file_path : bytes) (append remove : list bytes) :
    Res glob_error (list bytes * list bytes) :=
  match_rules_from (compiled_rules this) file_path (append, remove).

(** ** Loading *)

Section load.
Context (file : bytes → option bytes) (parse_toml parse_json : bytes → option Config).

Definition load (path workspace_root : bytes) : Res glob_error (option Config) :=
  match file path with
  | None => Ok None
  | Some content =>
    match parse_toml content with
    | None => Ok None
    | Some config => let? config := apply_defaults workspace_root config in Ok (Some config)
    end
  end.

Definition load_from_json (json workspace_root : bytes) : Res glob_error (option Config) :=
  match parse_json json with
  | None => Ok None
  | Some config => let? config := apply_defaults workspace_root config in Ok (Some config)
  end.

Context (exists_ : bytes → bool).

Fixpoint load_first (names : list bytes) (workspace_root : bytes) : Res glob_error (option Config) :=
  match names with
  | [] => Ok None
  | name :: names =>
    let config_path := join_path workspace_root name in
    if exists_ config_path then
      let? config := load config_path workspace_root in
      match config with
      | Some config => Ok (Some config)
      | None => load_first names workspace_root
      end
    else load_first names workspace_root
  end.

Definition load_from_workspace (workspace_root : bytes) : Res glob_error Config :=
  let? found := match workspace_root with
                | [] => Ok None
                | _ => load_first [str "clice.toml"; str ".clice/config.toml"] workspace_root
                end in
  match found with
  | Some config => Ok config
  | None => apply_defaults workspace_root default_config
  end.
End load.
End config.

(** ** Substitution against its reference

    [substituted skip s]: the text that replaces [s], of which [skip] characters belong to
    a placeholder that has been replaced. *)
Section substitution.
Context (root : bytes).

Fixpoint substituted (skip : nat) (s : bytes) : bytes :=
  match s with
  | [] => []
  | c :: s' =>
    match skip with
    | S skip => substituted skip s'
    | O => if starts_with placeholder s then root ++ substituted (length placeholder - 1) s'
           else c :: substituted 0 s'
    end
  end.

Lemma substituted_skip n s : (n ≤ length s)%nat → substituted n s = substituted 0 (drop n s).
Proof.
  revert s. induction n as [|n IH]; intros s Hn; [done|]. destruct s as [|c s]; [cbn in Hn; lia|].
  cbn in *. apply IH. lia.
Qed.

Lemma find_in_some needle s i :
  find_in needle s = Some i → (i ≤ length s)%nat ∧ starts_with needle (drop i s) = true ∧
    ∀ j, (j < i)%nat → starts_with needle (drop j s) = false.
Proof.
  revert i. induction s as [|c s IH]; intros i; cbn [find_in].
  { destruct (starts_with needle []) eqn:E; [|done]. intros [= <-]. split; [done|]. split; [done|lia]. }
  destruct (starts_with needle (c :: s)) eqn:E.
  { intros [= <-]. split; [lia|]. split; [done|lia]. }
  intros (k & Hk & ->)%fmap_Some. destruct (IH k Hk) as (H1 & H2 & H3). cbn. split; [lia|]. split; [done|].
  intros [|j] Hj; [done|]. apply H3. lia.
Qed.

Lemma find_in_none needle s : find_in needle s = None → ∀ j, (j ≤ length s)%nat → starts_with needle (drop j s) = false.
Proof.
  induction s as [|c s IH]; cbn [find_in]; intros Hn j Hj.
  - destruct (starts_with needle []) eqn:E; [done|]. by rewrite drop_nil.
  - destruct (starts_with needle (c :: s)) eqn:E; [done|]. apply fmap_None in Hn.
    destruct j as [|j]; [done|]. apply IH; [done|cbn in Hj; lia].
Qed.

Lemma substituted_before s i :
  (i ≤ length s)%nat → (∀ j, (j < i)%nat → starts_with placeholder (drop j s) = false) →
  substituted 0 s = take i s ++ substituted 0 (drop i s).
Proof.
  revert s. induction i as [|i IH]; intros s Hi Hb; [done|]. destruct s as [|c s]; [cbn in Hi; lia|].
  pose proof (Hb 0%nat ltac:(lia)) as H0. cbn [drop] in H0. cbn [substituted take drop app].
  rewrite H0. f_equal. apply IH; [cbn in Hi; lia|]. intros j Hj. apply (Hb (S j)). lia.
Qed.

Lemma starts_with_length p s : starts_with p s = true → (length p ≤ length s)%nat.
Proof.
  intros Hs%bool_decide_eq_true. rewrite <- Hs. rewrite length_take. lia.
Qed.

(** The loop, entered with [front] done and [rest] to go. *)
Lemma substitute_loop_ok fuel front rest :
  (length rest < fuel)%nat →
  substitute_loop fuel (front ++ rest) root (length front) = Ok (front ++ substituted 0 rest).
Proof.
  revert front rest. induction fuel as [|fuel IH]; intros front rest Hf; [lia|]. cbn [substitute_loop].
  unfold find_from. rewrite decide_True by (rewrite length_app; lia). rewrite drop_app_length.
  destruct (find_in placeholder rest) as [i|] eqn:Hi; cbn [fmap option_fmap option_map].
  - destruct (find_in_some _ _ _ Hi) as (H1 & H2 & H3).
    pose proof (starts_with_length _ _ H2) as Hlen. rewrite length_drop in Hlen.
    assert (length placeholder = 12)%nat as Hp by reflexivity.
    replace (replace (front ++ rest) (length front + i) (length placeholder) root)
      with ((front ++ take i rest ++ root) ++ drop (i + length placeholder) rest).
    2: { unfold replace. rewrite take_app_add, <- Nat.add_assoc, drop_app_add. by rewrite <- !app_assoc. }
    replace (length front + i + length root)%nat with (length (front ++ take i rest ++ root))
      by (rewrite !length_app, length_take; lia).
    rewrite IH by (rewrite length_drop; lia). f_equal. rewrite <- !app_assoc. f_equal.
    rewrite (substituted_before rest i H1 H3). f_equal.
    destruct (drop i rest) as [|c r] eqn:Hr.
    { apply (f_equal length) in Hr. rewrite length_drop in Hr. cbn in Hr. lia. }
    cbn [substituted]. rewrite H2. f_equal. rewrite (substituted_skip (length placeholder - 1) r).
    + change r with (drop 1 (c :: r)). rewrite <- Hr, !drop_drop. do 2 f_equal.
    + apply (f_equal length) in Hr. rewrite length_drop in Hr. cbn in Hr. lia.
  - f_equal. f_equal. symmetry. rewrite (substituted_before rest (length rest)).
    + rewrite take_ge, drop_ge by lia. by rewrite app_nil_r.
    + done.
    + intros j Hj. apply (find_in_none _ _ Hi). lia.
Qed.

(** Substitution always ends, and replaces every placeholder from left to right; what is
    put in is not looked at again. *)
Lemma substitute_workspace_ok value :
  substitute_workspace value root = Ok (match root with [] => value | _ => substituted 0 value end).
Proof.
  unfold substitute_workspace. destruct root as [|c r] eqn:E; [done|]. rewrite <- E.
  apply (substitute_loop_ok (S (length value)) [] value). lia.
Qed.
End substitution.

(** ** Rules *)

Section rules.
Context (fuel : nat) (file_path : bytes).

(** Which rules apply. *)
Definition matches (m : CompiledRule → bool) (rs : list CompiledRule) : Prop :=
  Forall (λ r, any_match fuel (c_patterns r) file_path = Ok (m r)) rs.

(** The flags the matching rules of [rs] remove, and those of their additions no later
    matching rule removes. *)
Definition removed (m : CompiledRule → bool) (rs : list CompiledRule) : list bytes :=
  concat (c_remove <$> filter (λ r, m r = true) rs).

Fixpoint surviving (m : CompiledRule → bool) (rs : list CompiledRule) : list bytes :=
  match rs with
  | [] => []
  | r :: rs => (if m r then filter (λ a, a ∉ removed m rs) (c_append r) else []) ++ surviving m rs
  end.

Lemma remove_flags_ok rs append remove :
  foldl remove_flag (append, remove) rs = (filter (λ a, a ∉ rs) append, remove ++ rs).
Proof.
  revert append remove. induction rs as [|r rs IH]; intros append remove; cbn [foldl].
  { rewrite app_nil_r. f_equal. symmetry. apply filter_all. set_solver. }
  unfold remove_flag at 2. cbn [fst snd]. rewrite IH, <- app_assoc, list_filter_filter. f_equal. apply list_filter_iff. set_solver.
Qed.

Lemma match_rules_from_ok m rs append remove :
  matches m rs →
  match_rules_from fuel rs file_path (append, remove) =
    Ok (filter (λ a, a ∉ removed m rs) append ++ surviving m rs, remove ++ removed m rs).
Proof.
  intros Hm. revert append remove. induction Hm as [|r rs Hr _ IH]; intros append remove; cbn [match_rules_from].
  { cbn. rewrite !app_nil_r. do 2 f_equal. symmetry. apply filter_all. set_solver. }
  rewrite Hr. cbn [Res_bind surviving]. unfold removed. rewrite filter_cons. destruct (m r) eqn:Hmr.
  - rewrite decide_True by done. unfold apply_rule. rewrite remove_flags_ok. cbn [fst snd].
    rewrite IH, filter_app, list_filter_filter. cbn [fmap list_fmap concat].
    rewrite <- !app_assoc. do 3 f_equal. apply list_filter_iff. fold (removed m rs). set_solver.
  - rewrite decide_False by done. apply IH.
Qed.
End rules.

(** C22. The flags for a file.  Rules apply in order: the removals of all matching rules are
    collected, and an added flag survives exactly when no later matching rule removes it;
    in particular a rule that removes and adds the same flag keeps it.  Flags the caller
    already had are subject to all removals. *)
Theorem rules_apply_in_order (fuel : nat) (this : Config) (file_path : bytes) (append remove : list bytes)
    (m : CompiledRule → bool) :
  matches fuel file_path m (compiled_rules this) →
  ∃ append', match_rules fuel this file_path append remove = Ok (append', remove ++ removed m (compiled_rules this)) ∧
    append' = filter (λ a, a ∉ removed m (compiled_rules this)) append ++ surviving m (compiled_rules this) ∧
    ∀ a, a ∈ surviving m (compiled_rules this) ↔
      ∃ before r after, compiled_rules this = before ++ r :: after ∧ m r = true ∧ a ∈ c_append r ∧
        ∀ r', r' ∈ after → m r' = true → a ∉ c_remove r'.
Proof.
  intros Hm. eexists. split; [by apply match_rules_from_ok|]. split; [done|]. clear. intros a.
  assert (∀ rs, a ∉ removed m rs ↔ ∀ r', r' ∈ rs → m r' = true → a ∉ c_remove r') as Hrem.
  { intros rs. unfold removed. rewrite elem_of_concat. setoid_rewrite list_elem_of_fmap.
    setoid_rewrite list_elem_of_filter. naive_solver. }
  generalize (compiled_rules this) as rs. induction rs as [|r rs IH]; cbn [surviving].
  { split; [by intros ?%elem_of_nil|]. intros (before & r & after & Hnil & _). by destruct before. }
  rewrite elem_of_app, IH. split.
  - intros [Ha|(before & r' & after & -> & H1 & H2 & H3)]; [|by exists (r :: before), r', after].
    destruct (m r) eqn:Hmr; [|by apply elem_of_nil in Ha]. apply list_elem_of_filter in Ha as [Hn Ha].
    exists [], r, rs. split_and!; try done. by apply Hrem.
  - intros (before & r' & after & Heq & H1 & H2 & H3). destruct before as [|b before]; simplify_eq/=.
    + left. rewrite H1. apply list_elem_of_filter. split; [by apply Hrem|done].
    + right. by exists before, r', after.
Qed.

#[export] Instance plain_environment : Environment := {
  get_env name := if decide (name = str "HOME") then Some (str "/home/u") else None;
  parallelism := 8;
  make_directories _ := true;
  join_path a b := a ++ "/"%char :: b;
  xxh3_64 s := Z.of_nat (length s);
}.

(** C sources get two flags; what follows takes one of them back. *)
Definition example_rules : Config :=
  mkConfig default_project
    [mkConfigRule [str "*.c"] [str "-a"; str "-b"] [];
     mkConfigRule [str "x*"] [str "-q"] [str "-z"];
     mkConfigRule [str "m*"] [str "-b"] [str "-a"; str "-b"]] [].

Definition example_config : Config :=
  match apply_defaults true (str "/w") example_rules with Ok c => c | _ => default_config end.

Definition applies (fuel : nat) (file_path : bytes) (r : CompiledRule) : bool :=
  match any_match fuel (c_patterns r) file_path with Ok b => b | _ => false end.

Lemma matches_applies fuel file_path rs :
  forallb (λ r, is_ok (any_match fuel (c_patterns r) file_path)) rs = true →
  matches fuel file_path (applies fuel file_path) rs.
Proof.
  intros Hok. apply Forall_forall. intros r Hr. rewrite forallb_forall in Hok.
  apply list_elem_of_In, Hok in Hr. unfold applies. by destruct (any_match _ _ _).
Qed.

Lemma rules_apply_in_order_witness :
  ∃ append', match_rules 50 example_config (str "main.c") [] [] = Ok (append', [str "-a"; str "-b"]) ∧
    append' = [str "-b"].
Proof.
  destruct (rules_apply_in_order 50 example_config (str "main.c") [] []
    (applies 50 (str "main.c"))) as (a & H1 & H2 & _).
  { apply matches_applies. vm_compute. reflexivity. }
  exists a. split; [|rewrite H2; vm_compute; reflexivity]. rewrite H1. vm_compute. reflexivity.
Defined.

(** ** Defaults *)

Section defaults.
Context `{Environment} (char_signed : bool).

Definition compilable (p : bytes) : Prop :=
  match create char_signed p 100 with Ok _ | Err _ => True | _ => False end.

Lemma compile_patterns_ok ps : Forall compilable ps → ∃ pats, compile_patterns char_signed ps = Ok pats.
Proof.
  induction 1 as [|p ps Hp _ [pats IH]]; cbn; [by eexists|]. unfold compilable in Hp. rewrite IH.
  destruct (create char_signed p 100); [by eexists|by eexists|done..].
Qed.

Lemma compile_rules_ok rs :
  Forall (λ r, Forall compilable (rule_patterns r)) rs →
  ∃ compiled, compile_rules char_signed rs = Ok compiled ∧ Forall (λ r, c_patterns r ≠ []) compiled ∧
    (λ r, (c_append r, c_remove r)) <$> compiled `sublist_of` (λ r, (rule_append r, rule_remove r)) <$> rs.
Proof.
  induction 1 as [|r rs Hr _ (compiled & IH & Hne & Hsub)]; cbn [compile_rules].
  { eexists. split; [done|]. split; [constructor|done]. }
  destruct (compile_patterns_ok _ Hr) as [pats Hp]. rewrite Hp. cbn. rewrite IH. cbn.
  eexists. split; [done|]. destruct pats as [|pat pats].
  - split; [done|]. by constructor.
  - split; [by constructor|]. by constructor.
Qed.

Lemma substitute_all_ok values root : ∃ values', substitute_all values root = Ok values' ∧ length values' = length values.
Proof.
  induction values as [|v vs (vs' & IH & Hl)]; [by eexists|]. cbn [substitute_all].
  rewrite substitute_workspace_ok. cbn. rewrite IH. cbn. eexists. split; [done|]. cbn. by rewrite Hl.
Qed.

(** The defaults fill what is unset and leave alone what is set; the number of workers and
    the limits are positive; every compiled rule can match, and the rules keep their order.
    This fails only where a pattern cannot be compiled without undefined behaviour. *)
Lemma apply_defaults_ok root this :
  Forall (λ r, Forall compilable (rule_patterns r)) (rules this) →
  0 ≤ stateful_worker_count (project this) → 0 ≤ stateless_worker_count (project this) →
  0 ≤ worker_memory_limit (project this) →
  ∃ this', apply_defaults char_signed root this = Ok this' ∧
    let p := project this in let p' := project this' in
    0 < stateful_worker_count p' ∧ 0 < stateless_worker_count p' ∧ 0 < worker_memory_limit p' ∧
    (stateful_worker_count p ≠ 0 → stateful_worker_count p' = stateful_worker_count p) ∧
    (stateless_worker_count p ≠ 0 → stateless_worker_count p' = stateless_worker_count p) ∧
    (worker_memory_limit p ≠ 0 → worker_memory_limit p' = worker_memory_limit p) ∧
    is_Some (enable_indexing p') ∧ (∀ b, enable_indexing p = Some b → enable_indexing p' = Some b) ∧
    is_Some (idle_timeout_ms p') ∧ (∀ t, idle_timeout_ms p = Some t → idle_timeout_ms p' = Some t) ∧
    rules this' = rules this ∧ Forall (λ r, c_patterns r ≠ []) (compiled_rules this') ∧
    (λ r, (c_append r, c_remove r)) <$> compiled_rules this' `sublist_of`
      (λ r, (rule_append r, rule_remove r)) <$> rules this.
Proof.
  intros Hr H1 H2 H3. unfold apply_defaults. rewrite !substitute_workspace_ok. cbn [Res_bind].
  destruct (substitute_all_ok (compile_commands_paths (project this)) root) as (cs & -> & _). cbn [Res_bind].
  destruct (compile_rules_ok (rules this) Hr) as (compiled & -> & Hne & Hsub). cbn [Res_bind].
  eexists. split; [done|]. cbn. unfold or_default.
  split_and!; try done; repeat case_decide; try lia; try (by eexists); try naive_solver lia.
  all: intros ? ->; done.
Qed.
End defaults.

(** A clice.toml that cannot be parsed does not lead to the defaults: the second location is
    tried. *)
Lemma malformed_config_is_skipped :
  let second := mkConfig (mkProjectConfig true 3 [] [] [] None None 5 5 0 0 7) [] [] in
  (let? c := load_from_workspace true (λ p, if decide (p = str "/w/clice.toml") then Some (str "?") else Some (str "ok"))
     (λ c, if decide (c = str "ok") then Some second else None) (λ _, true) (str "/w") in
   Ok (max_active_file (project c))) = Ok 3.
Proof. vm_compute. reflexivity. Qed.
