(* ===== verification/HeaderContext.v ===== *)
(** * The command a file is compiled with (src/server/compiler/compiler.cpp: [cache_key],
      [fill_compile_args], [fill_header_context_args], [resolve_header_context])

    A file has the command of the compilation database; a header whose context was chosen
    has that of its host, with a generated file in front that has what precedes the header
    in the chain of includes from the host.  The tool chain, clang's version and the hashes
    are parameters; the disk is that of the class [Platform]. *)
From stdpp Require Import pretty.
From S2P Require CacheStore Documents.
From S2P Require Import Prelude Text PathPool Glob Config DependencyGraph CommandDatabase.
Local Open Scope Z_scope.
Local Open Scope cpp_scope.

(** ** Keys of cached artifacts *)

Definition key_part (part : bytes) : bytes := CacheStore.decimal (Z.of_nat (length part)) ++ ":"%char :: part.
Definition key_input (parts : list bytes) : bytes := concat (key_part <$> parts).

Definition cache_key (xxh3_128 : bytes → Z * Z) (parts : list bytes) : bytes :=
  let '(high64, low64) := xxh3_128 (key_input parts) in hex16 high64 ++ hex16 low64.

(** ** The include line *)

Definition quote_char : ascii := ascii_of_nat 34.

Section context.
Context `{OptionTable} `{PathTable}.

(** Whether a trimmed line includes a file of that name. *)
Definition includes_file (next_filename line : bytes) : bool :=
  if starts_with (str "#include") line || starts_with (str "# include") line then
    match find_if (λ c, bool_decide (c = quote_char) || bool_decide (c = "<"%char)) line with
    | None => false
    | Some quote_start =>
      let close := if decide (line !! quote_start = Some quote_char) then quote_char else ">"%char in
      let after := drop (S quote_start) line in
      match find_if (λ c, bool_decide (c = close)) after with
      | None => false
      | Some len => bool_decide (path_name (take len after) = next_filename)
      end
    end
  else false.

(** The loop over the lines; [line_start] is where the next one begins. *)
Fixpoint include_line (next_filename : bytes) (lines : list bytes) (line_start : nat) : option nat :=
  match lines with
  | [] => None
  | line :: lines =>
    if includes_file next_filename (trim line) then Some line_start
    else include_line next_filename lines (line_start + length line + 1)
  end.

(** What a file of the chain contributes. *)
Definition line_marker (path : bytes) : bytes :=
  str "#line 1 " ++ [quote_char] ++ path ++ [quote_char; newline].

Definition before_include (next_path content : bytes) : bytes :=
  match include_line (path_name next_path) (split_on newline content) 0 with
  | Some include_line_start => take include_line_start content
  | None => content
  end.

(** ** The context of a header *)

Record Compiler := mkCompiler {
  pool : PathPool;
  dep_graph : DependencyGraph;
  cdb : CompilationDatabase;
  config : Config;
}.

Definition set_cdb (db : CompilationDatabase) (c : Compiler) : Compiler :=
  mkCompiler (pool c) (dep_graph c) db (config c).
Definition set_pool (p : PathPool) (c : Compiler) : Compiler :=
  mkCompiler p (dep_graph c) (cdb c) (config c).

Context (default_mask : Z) (id_order : string → Z) (sort_args : list ParsedArg → list ParsedArg).
Context (fuel : nat) (toolchain : CompileCommand → CompileCommand) (xxh3_64bits : bytes → Z).
Context {W : Type} `{CacheStore.Platform W}.

Definition lookup_in (path : bytes) (options : CommandOptions) (c : Compiler) : Res () (Compiler * list CompileCommand) :=
  let? r := lookup_commands default_mask id_order sort_args path options (cdb c) in
  Ok (set_cdb r.1 c, r.2).

Definition no_options : CommandOptions := mkCommandOptions true [] [].

(** The host [candidate], if it has a command and a chain of includes to the header. *)
Definition try_host (header candidate : Z) (c : Compiler) : Res () (Compiler * option (list Z)) :=
  let? path := read (resolve (pool c) candidate) in
  let? r := lookup_in path no_options c in
  match r.2 with
  | [] => Ok (r.1, None)
  | _ =>
    match find_include_chain (dep_graph c) candidate header with
    | None => Stuck
    | Some [] => Ok (r.1, None)
    | Some chain => Ok (r.1, Some chain)
    end
  end.

Fixpoint first_host (header : Z) (hosts : list Z) (c : Compiler) : Res () (Compiler * option (Z * list Z)) :=
  match hosts with
  | [] => Ok (c, None)
  | candidate :: hosts =>
    let? (c, chain) := try_host header candidate c in
    match chain with
    | Some chain => Ok (c, Some (candidate, chain))
    | None => first_host header hosts c
    end
  end.

Definition choose_host (header : Z) (active : option Z) (hosts : list Z) (c : Compiler) :
    Res () (Compiler * option (Z * list Z)) :=
  let? (c, preferred) :=
    match active with
    | None => Ok (c, None)
    | Some host => let? (c, chain) := try_host header host c in Ok (c, pair host <$> chain)
    end in
  match preferred with
  | Some _ => Ok (c, preferred)
  | None => first_host header hosts c
  end.

Fixpoint build_preamble (pool : PathPool) (chain : list Z) (preamble : bytes) (w : W) : Res () (option bytes * W) :=
  match chain with
  | [] => Ok (Some preamble, w)
  | cur :: rest =>
    match rest with
    | [] => Ok (Some preamble, w)
    | next :: _ =>
      let? cur_path := read (resolve pool cur) in
      let? next_path := read (resolve pool next) in
      let '(content, w) := CacheStore.os_read cur_path w in
      match content with
      | inl _ => Ok (None, w)
      | inr content =>
        build_preamble pool rest (preamble ++ line_marker cur_path ++ before_include next_path content) w
      end
    end
  end.

(** [llvm::sys::fs::exists]. *)
Definition exists_file (path : bytes) (w : W) : bool * W :=
  let '(r, w) := CacheStore.os_status path w in (match r with inr _ => true | inl _ => false end, w).

Definition write_preamble (dir preamble : bytes) (w : W) : option (bytes * Z) * W :=
  let hash := xxh3_64bits preamble in
  let preamble_dir := CacheStore.join dir (str "header_context") in
  let path := CacheStore.join preamble_dir (hex16 hash ++ str ".h") in
  let '(there, w) := exists_file path w in
  if there : bool then (Some (path, hash), w)
  else
    let '(ec, w) := CacheStore.os_create_directories preamble_dir w in
    match ec with
    | Some _ => (None, w)
    | None =>
      let '(ec, w) := CacheStore.os_write path preamble w in
      match ec with
      | Some _ => (None, w)
      | None => (Some (path, hash), w)
      end
    end.

Definition resolve_header_context (header : Z) (active : option Z) (c : Compiler) (w : W) :
    Res () (option Documents.HeaderFileContext * Compiler * W) :=
  match find_host_sources (dep_graph c) header with
  | None => Stuck
  | Some [] => Ok (None, c, w)
  | Some hosts =>
    let? (c, chosen) := choose_host header active hosts c in
    match chosen with
    | None => Ok (None, c, w)
    | Some (host, chain) =>
      let? (preamble, w) := build_preamble (pool c) chain [] w in
      match preamble with
      | None => Ok (None, c, w)
      | Some preamble =>
        let '(written, w) := write_preamble (cache_dir (project (config c))) preamble w in
        match written with
        | None => Ok (None, c, w)
        | Some (path, hash) => Ok (Some (Documents.mkHeaderFileContext host path hash), c, w)
        end
      end
    end
  end.

(** ** Arguments *)

(** The flags of the rules that match a path. *)
Definition rule_options (path : bytes) (c : Compiler) : Res () CommandOptions :=
  match match_rules fuel (config c) path [] [] with
  | Ok (append, remove) => Ok (mkCommandOptions true remove append)
  | Err _ | Stuck => Stuck
  | Fault => Fault
  end.

(** [flags.insert(flags.begin() + pos, flag)]. *)
Definition insert_flag (pos : nat) (flag : cstring) (fs : list cstring) : Res () (list cstring) :=
  if decide (pos ≤ length fs)%nat then Ok (take pos fs ++ flag :: drop pos fs) else Fault.

(** The fields of the session the functions use: [active_context] and [header_context];
    [None] for background indexing. *)
Definition SessionContext : Type := option (option Z * option Documents.HeaderFileContext).

Definition cached_context (session : SessionContext) : option Documents.HeaderFileContext :=
  match session with
  | Some (active, Some ctx) =>
    match active with
    | Some host => if decide (Documents.host_path_id ctx ≠ host) then None else Some ctx
    | None => Some ctx
    end
  | _ => None
  end.

Definition active_of (session : SessionContext) : option Z :=
  match session with Some (active, _) => active | None => None end.

(** The result: directory and arguments if there are any, the session's context, the rest. *)
Definition Filled : Type := option (bytes * list bytes) * SessionContext * Compiler * W.

Definition fill_header_context_args (path : bytes) (path_id : Z) (session : SessionContext) (c : Compiler) (w : W) :
    Res () Filled :=
  let? (ctx, session, c, w) :=
    match cached_context session with
    | Some ctx => Ok (Some ctx, session, c, w)
    | None =>
      let? (resolved, c, w) := resolve_header_context path_id (active_of session) c w in
      match resolved with
      | None =>
        let cleared := match session with Some (active, _) => Some (active, None) | None => None end in
        Ok (None, cleared, c, w)
      | Some ctx =>
        let kept := match session with Some (active, _) => Some (active, Some ctx) | None => None end in
        Ok (Some ctx, kept, c, w)
      end
    end in
  match ctx with
  | None => Ok (None, session, c, w)
  | Some ctx =>
    let? host_path := read (resolve (pool c) (Documents.host_path_id ctx)) in
    let? options := rule_options path c in
    let? (c, results) := lookup_in host_path options c in
    match results with
    | [] => Ok (None, session, c, w)
    | front :: _ =>
      let host_cmd := toolchain front in
      let? file := read (resolve (pool c) path_id) in
      let inject_pos := if is_cc1 (CommandDatabase.resolved host_cmd) then 2%nat else 1%nat in
      let? fs := insert_flag inject_pos (Some (Documents.preamble_path ctx)) (flags (CommandDatabase.resolved host_cmd)) in
      let? fs := insert_flag inject_pos (Some (str "-include")) fs in
      let header_cmd := mkCompileCommand
        (mkResolvedFlags (directory (CommandDatabase.resolved host_cmd)) fs (is_cc1 (CommandDatabase.resolved host_cmd)))
        (Some file) in
      let? arguments := to_string_argv header_cmd in
      Ok (Some (directory (CommandDatabase.resolved host_cmd), arguments), session, c, w)
    end
  end.

Definition fill_compile_args (path : bytes) (session : SessionContext) (c : Compiler) (w : W) : Res () Filled :=
  let '(p, path_id) := intern (pool c) path in
  let c := set_pool p c in
  match active_of session with
  | Some _ => fill_header_context_args path path_id session c w
  | None =>
    let? options := rule_options path c in
    let? (c, results) := lookup_in path options c in
    match results with
    | front :: _ =>
      let cmd := toolchain front in
      let? arguments := to_string_argv cmd in
      Ok (Some (directory (CommandDatabase.resolved cmd), arguments), session, c, w)
    | [] => fill_header_context_args path path_id session c w
    end
  end.
End context.
