(* ===== verification/HeaderTheorems.v ===== *)
(** * The command of a file: keys, preambles and header contexts *)
From stdpp Require Import pretty.
From S2P Require CacheStore Documents.
From S2P Require Import Prelude Text PathPool CachePlatform CacheTheorems Glob Config DependencyGraph.
From S2P Require Import CommandDatabase CommandTheorems HeaderContext.
Local Open Scope Z_scope.
Local Open Scope cpp_scope.

(** ** Keys *)

Lemma digits_colon (a b x y : bytes) :
  Forall is_digit a → Forall is_digit b → a ++ ":"%char :: x = b ++ ":"%char :: y → a = b ∧ x = y.
Proof.
  assert (¬ is_digit ":") as Hc by (unfold is_digit; vm_compute; intuition congruence).
  revert b. induction a as [|c a IH]; intros [|d b] Ha Hb Heq; cbn in Heq; simplify_eq; [done|..].
  - by inv Hb.
  - by inv Ha.
  - inv Ha. inv Hb. by destruct (IH b) as [-> ->].
Qed.

Lemma key_part_nonempty p : key_part p ≠ [].
Proof. unfold key_part. by destruct (CacheStore.decimal _). Qed.

(** The length in front of every part makes the input unambiguous. *)
Lemma key_input_inj parts parts' : key_input parts = key_input parts' → parts = parts'.
Proof.
  unfold key_input. revert parts'. induction parts as [|p parts IH]; intros [|p' parts'] Heq; cbn in Heq.
  - done.
  - destruct (key_part p') eqn:E; [by apply key_part_nonempty in E|done].
  - destruct (key_part p) eqn:E; [by apply key_part_nonempty in E|done].
  - unfold key_part in Heq. rewrite <- !app_assoc in Heq. cbn in Heq.
    apply digits_colon in Heq as [Hd Hr]; [|apply decimal_digits; lia..].
    apply decimal_inj in Hd. apply app_inj_1 in Hr as [-> Hr]; [|lia]. f_equal. by apply IH.
Qed.

Lemma hex_digit_code z : 0 ≤ z < 16 → N_of_ascii (hex_digit z) = Z.to_N (if decide (z < 10) then 48 + z else 87 + z).
Proof. intros Hz. unfold hex_digit. apply N_ascii_embedding. case_decide; lia. Qed.

Lemma hex_digit_inj a b : 0 ≤ a < 16 → 0 ≤ b < 16 → hex_digit a = hex_digit b → a = b.
Proof.
  intros Ha Hb Heq. apply (f_equal N_of_ascii) in Heq. rewrite !hex_digit_code in Heq by done.
  repeat case_decide; lia.
Qed.

Lemma hex_digits_length n z : length (hex_digits n z) = n.
Proof. revert z. induction n as [|n IH]; intros z; cbn; [done|]. rewrite length_app, IH. cbn. lia. Qed.

Lemma hex_digits_inj n a b :
  0 ≤ a < 16 ^ Z.of_nat n → 0 ≤ b < 16 ^ Z.of_nat n → hex_digits n a = hex_digits n b → a = b.
Proof.
  revert a b. induction n as [|n IH]; intros a b Ha Hb Heq; [cbn in *; lia|].
  cbn [hex_digits] in Heq. apply app_inj_2 in Heq as [Hd [= Hl]]; [|done].
  rewrite Nat2Z.inj_succ, Z.pow_succ_r in Ha, Hb by lia.
  assert (a `div` 16 = b `div` 16) as Hq.
  { apply IH; [split; [apply Z.div_pos; lia|apply Z.div_lt_upper_bound; lia]..|done]. }
  apply hex_digit_inj in Hl; [|apply Z.mod_pos_bound; lia..].
  rewrite (Z.div_mod a 16), (Z.div_mod b 16) by lia. congruence.
Qed.

Lemma hex16_inj a b : 0 ≤ a < two64 → 0 ≤ b < two64 → hex16 a = hex16 b → a = b.
Proof. intros Ha Hb. apply hex_digits_inj; by change (16 ^ Z.of_nat 16) with two64. Qed.

(** Equal keys come from equal parts, unless the hash collides. *)
Lemma cache_key_inj (xxh3_128 : bytes → Z * Z) parts parts' :
  (∀ b, 0 ≤ (xxh3_128 b).1 < two64 ∧ 0 ≤ (xxh3_128 b).2 < two64) →
  (xxh3_128 (key_input parts) = xxh3_128 (key_input parts') → key_input parts = key_input parts') →
  cache_key xxh3_128 parts = cache_key xxh3_128 parts' → parts = parts'.
Proof.
  intros Hr Hcol Heq. apply key_input_inj, Hcol. unfold cache_key in Heq.
  pose proof (Hr (key_input parts)) as [Ha1 Ha2]. pose proof (Hr (key_input parts')) as [Hb1 Hb2].
  destruct (xxh3_128 (key_input parts)) as [h l], (xxh3_128 (key_input parts')) as [h' l']. cbn [fst snd] in *.
  apply app_inj_1 in Heq as [Hh Hl]; [|unfold hex16; by rewrite !hex_digits_length].
  apply hex16_inj in Hh, Hl; [|done..]. by subst.
Qed.

(** ** What precedes an include *)

Section preamble.
Context `{PathTable}.

(** [before] is made of the lines of [content] in front of the first one that includes a
    file of the name of [next], all of it if there is none. *)
Definition precedes (next content before : bytes) : Prop :=
  let hit line := includes_file (path_name next) (trim line) in
  (∃ l1 line l2, split_on newline content = l1 ++ line :: l2 ∧ hit line = true ∧
     Forall (λ l, hit l = false) l1 ∧ before = concat ((λ l, l ++ [newline]) <$> l1)) ∨
  (Forall (λ l, hit l = false) (split_on newline content) ∧ before = content).

Lemma split_on_prefix s l1 l2 :
  split_on newline s = l1 ++ l2 → l2 ≠ [] →
  take (length (concat ((λ l, l ++ [newline]) <$> l1))) s = concat ((λ l, l ++ [newline]) <$> l1).
Proof.
  revert l1. induction s as [|c s IH]; intros l1 Hs Hne; cbn [split_on] in Hs.
  { destruct l1 as [|l l1]; [done|]. destruct l1, l2; simplify_eq/=; done. }
  destruct (split_on newline s) as [|p ps] eqn:E.
  { exfalso. clear -E. destruct s as [|d s]; cbn in E; [done|]. destruct (split_on newline s); [done|].
    case_decide; done. }
  destruct l1 as [|l l1]; [done|]. case_decide as Hc.
  - injection Hs as <- Hs. cbn. subst c. f_equal. apply (IH l1); done.
  - injection Hs as <- Hs. cbn. f_equal. specialize (IH (p :: l1)). cbn in IH. apply IH; [|done]. by rewrite Hs.
Qed.

Lemma include_line_spec name lines start :
  match include_line name lines start with
  | Some pos => ∃ l1 line l2, lines = l1 ++ line :: l2 ∧ includes_file name (trim line) = true ∧
      Forall (λ l, includes_file name (trim l) = false) l1 ∧
      pos = (start + length (concat ((λ l, l ++ [newline]) <$> l1)))%nat
  | None => Forall (λ l, includes_file name (trim l) = false) lines
  end.
Proof.
  revert start. induction lines as [|line lines IH]; intros start; cbn [include_line]; [constructor|].
  destruct (includes_file name (trim line)) eqn:Hi.
  { exists [], line, lines. split_and!; [done|done|constructor|cbn; lia]. }
  specialize (IH (start + length line + 1)%nat). destruct (include_line _ _ _) as [pos|]; [|by constructor].
  destruct IH as (l1 & l & l2 & -> & H1 & H2 & ->). exists (line :: l1), l, l2.
  split_and!; [done|done|by constructor|]. cbn. rewrite !length_app. cbn. lia.
Qed.

Lemma before_include_ok next content : precedes next content (before_include next content).
Proof.
  unfold before_include. pose proof (include_line_spec (path_name next) (split_on newline content) 0) as Hi.
  destruct (include_line _ _ _) as [pos|]; [left|by right].
  destruct Hi as (l1 & line & l2 & Hs & H1 & H2 & ->). exists l1, line, l2. split_and!; try done.
  rewrite Nat.add_0_l. by apply (split_on_prefix content l1 (line :: l2)).
Qed.
End preamble.

(** ** The database as a source of commands

    [ready k db]: the next [k] lookups without extra options succeed. *)
Section commands.
Context `{OptionTable} `{PathTable}.
Context (default_mask : Z) (id_order : string → Z) (sort_args : list ParsedArg → list ParsedArg).

Class CommandSource (ready : nat → CompilationDatabase → Prop) := {
  lookup_ready k db path : ready (S k) db →
    ∃ db' found, lookup_commands default_mask id_order sort_args path no_options db = Ok (db', found) ∧
      found ≠ [] ∧ ready k db';
  ready_down k db : ready (S k) db → ready k db;
}.

Context (sort : list CompilationEntry → list CompilationEntry).
Context (sort_perm : ∀ l, sort l ≡ₚ l) (sort_sorted : ∀ l, sorted_by_key entry_file (sort l)).

(** A loaded database, with room in its pool for the paths looked up. *)
Definition can_look_up (k : nat) (db : CompilationDatabase) : Prop :=
  pool_ok (db_paths db) ∧ Z.of_nat (length (paths (db_paths db)) + k) ≤ two32 ∧
  ∃ es cs, db_entries db = sort es ∧ Forall2 (describes db) es cs.

Lemma lookup_database path options db db' found :
  lookup_commands default_mask id_order sort_args path options db = Ok (db', found) →
  db' = mkDatabase (canonicals db) (infos db) (intern (db_paths db) path).1 (db_entries db).
Proof.
  unfold lookup_commands. destruct (intern (db_paths db) path) as [ps id].
  destruct (find_entries _ _); [naive_solver|]. destruct (for_each _ _ _); naive_solver.
Qed.

#[export] Instance database_source : CommandSource can_look_up.
Proof using sort_perm sort_sorted.
  split; [|intros k db (? & ? & ?); split_and!; [done|lia|done]].
  intros k db path (Hok & Hlen & es & cs & He & Hf).
  destruct (lookup_ok sort sort_perm sort_sorted default_mask id_order sort_args no_options db es cs path)
    as (db' & found & Hl & Hcase); [done|done|lia|done|done|].
  exists db', found. split; [done|]. split; [by eapply lookup_never_empty|].
  pose proof (lookup_database _ _ _ _ _ Hl) as ->. split_and!.
  - apply intern_ok; [done|lia].
  - cbn. pose proof (intern_length (db_paths db) path). lia.
  - exists es, cs. split; [done|]. eapply describes_all_grows; [|done]. cbn.
    by pose proof (intern_paths_prefix (db_paths db) path).
Qed.
End commands.

(** ** Header contexts *)

Section contexts.
Context `{OptionTable} `{PathTable}.
Context (default_mask : Z) (id_order : string → Z) (sort_args : list ParsedArg → list ParsedArg).
Context (ready : nat → CompilationDatabase → Prop) {source : CommandSource default_mask id_order sort_args ready}.
Context (xxh3_64bits : bytes → Z) {W : Type} `{PlatformLaws W}.
Abbreviation try := (try_host default_mask id_order sort_args).
Abbreviation choose := (choose_host default_mask id_order sort_args).

Lemma lookup_in_ready k path c :
  ready (S k) (cdb c) →
  ∃ db found, lookup_in default_mask id_order sort_args path no_options c = Ok (set_cdb db c, found) ∧
    found ≠ [] ∧ ready k db.
Proof using source.
  intros Hr. destruct (lookup_ready default_mask id_order sort_args _ _ path Hr) as (db & found & Hl & Hne & Hk).
  exists db, found. unfold lookup_in. rewrite Hl. done.
Qed.

(** A shortest chain of includes. *)
Definition shortest_chain (g : DependencyGraph) (chain : list Z) (host header : Z) : Prop :=
  include_path g chain host header ∧ ∀ l, include_path g l host header → (length chain ≤ length l)%nat.

Lemma try_host_ok k header host c :
  graph_ok (dep_graph c) → is_Some (resolve (pool c) host) → ready (S k) (cdb c) →
  ∃ db chain, try header host c = Ok (set_cdb db c, chain) ∧ ready k db ∧
    match chain with
    | Some chain => shortest_chain (dep_graph c) chain host header
    | None => ∀ l, ¬ include_path (dep_graph c) l host header
    end.
Proof using source.
  intros Hg [p Hp] Hr. unfold try_host. rewrite Hp. cbn [read Res_bind].
  destruct (lookup_in_ready k p c Hr) as (db & found & -> & Hne & Hk). cbn [Res_bind snd fst].
  destruct found as [|f fs]; [done|].
  destruct (find_include_chain_ok (dep_graph c) host header Hg) as (chain & -> & Hc).
  destruct chain as [|x chain]; eexists _, _; by split.
Qed.

Lemma first_host_ok header hosts c :
  graph_ok (dep_graph c) → Forall (λ h, is_Some (resolve (pool c) h)) hosts → ready (length hosts) (cdb c) →
  ∃ db chosen, first_host default_mask id_order sort_args header hosts c = Ok (set_cdb db c, chosen) ∧
    match chosen with
    | Some (host, chain) => host ∈ hosts ∧ shortest_chain (dep_graph c) chain host header
    | None => ∀ host l, host ∈ hosts → ¬ include_path (dep_graph c) l host header
    end.
Proof using source.
  intros Hg Hh. revert c Hg Hh. induction hosts as [|host hosts IH]; intros c Hg Hh Hr; cbn [first_host].
  { exists (cdb c), None. split; [by destruct c|]. by intros ? ? ?%elem_of_nil. }
  apply Forall_cons in Hh as [Hp Hh].
  destruct (try_host_ok _ header host c Hg Hp Hr) as (db & chain & -> & Hk & Hc). cbn [Res_bind].
  destruct chain as [chain|]; [eexists _, _; split; [done|]; split; [set_solver|done]|].
  destruct (IH (set_cdb db c)) as (db' & chosen & -> & Hch); [done..|]. exists db', chosen.
  split; [done|]. destruct chosen as [[h l]|]; [set_solver|].
  intros h l [-> |Hin]%elem_of_cons; [apply Hc|by apply Hch].
Qed.

(** Which host is chosen: the active one if the header is reached from it, otherwise the
    first host of the list from which it is. *)
Lemma choose_host_ok header active hosts c :
  graph_ok (dep_graph c) → Forall (λ h, is_Some (resolve (pool c) h)) (option_list active ++ hosts) →
  ready (S (length hosts)) (cdb c) →
  ∃ db chosen, choose header active hosts c = Ok (set_cdb db c, chosen) ∧
    match chosen with
    | Some (host, chain) => host ∈ option_list active ++ hosts ∧ shortest_chain (dep_graph c) chain host header ∧
        (∀ h l, active = Some h → include_path (dep_graph c) l h header → host = h)
    | None => ∀ host l, host ∈ option_list active ++ hosts → ¬ include_path (dep_graph c) l host header
    end.
Proof using source.
  intros Hg [Ha Hh]%Forall_app Hr. unfold choose_host. destruct active as [h|]; cbn [option_list app] in *.
  - apply Forall_cons in Ha as [Ha _].
    destruct (try_host_ok _ header h c Hg Ha Hr) as (db & chain & -> & Hk & Hc). cbn [Res_bind].
    destruct chain as [chain|]; cbn [fmap option_fmap option_map].
    { eexists _, _. split; [done|]. split; [set_solver|]. split; [done|]. by intros ? ? [= ->]. }
    destruct (first_host_ok header hosts (set_cdb db c)) as (db' & chosen & -> & Hch); [done..|].
    exists db', chosen. split; [done|]. destruct chosen as [[host chain]|].
    + destruct Hch as [Hin Hs]. split_and!; [set_solver|done|]. intros ? l [= ->] Hl. by destruct (Hc l).
    + intros host l [-> |Hin]%elem_of_cons; [apply Hc|by apply Hch].
  - cbn [Res_bind]. destruct (first_host_ok header hosts c) as (db' & chosen & -> & Hch); [done|done|by eapply ready_down|].
    exists db', chosen. split; [done|]. destruct chosen as [[host chain]|]; [|done].
    destruct Hch as [Hin Hs]. by split_and!.
Qed.

(** What the files of a chain contribute, as they are on disk. *)
Inductive preamble_of (pl : PathPool) (w : W) : list Z → bytes → Prop :=
| preamble_last x : preamble_of pl w [x] []
| preamble_step cur next rest cur_path next_path content before p :
    resolve pl cur = Some cur_path → resolve pl next = Some next_path →
    node_at w cur_path = Some (File content) → precedes next_path content before →
    preamble_of pl w (next :: rest) p →
    preamble_of pl w (cur :: next :: rest) (line_marker cur_path ++ before ++ p).

Definition same_nodes (w w' : W) : Prop := ∀ q, node_at w' q = node_at w q.

Lemma preamble_of_nodes pl w w' chain p : same_nodes w w' → preamble_of pl w' chain p → preamble_of pl w chain p.
Proof. intros Hs. induction 1; econstructor; try done. by rewrite <- Hs. Qed.

(** Reading the files of a chain one after the other, each read in the world the ones before
    have left, one read fails. *)
Inductive read_refused (pl : PathPool) : list Z → W → Prop :=
| refused_here cur next rest cur_path e w w' :
    resolve pl cur = Some cur_path → CacheStore.os_read cur_path w = (inl e, w') →
    read_refused pl (cur :: next :: rest) w
| refused_later cur next rest cur_path content w w' :
    resolve pl cur = Some cur_path → CacheStore.os_read cur_path w = (inr content, w') →
    read_refused pl (next :: rest) w' → read_refused pl (cur :: next :: rest) w.

Lemma build_preamble_ok pl chain acc w :
  chain ≠ [] → Forall (λ x, is_Some (resolve pl x)) chain →
  ∃ r w', build_preamble pl chain acc w = Ok (r, w') ∧ same_nodes w w' ∧
    match r with
    | Some p => ∃ q, p = acc ++ q ∧ preamble_of pl w chain q
    | None => read_refused pl chain w
    end.
Proof.
  revert acc w. induction chain as [|cur rest IH]; intros acc w Hne Hf; [done|]. cbn [build_preamble].
  destruct rest as [|next rest].
  { eexists _, w. split; [done|]. split; [done|]. exists []. split; [by rewrite app_nil_r|constructor]. }
  apply Forall_cons in Hf as [[cp Hcp] Hf]. assert (is_Some (resolve pl next)) as [np Hnp] by (by inv Hf).
  rewrite Hcp, Hnp. cbn [read Res_bind].
  pose proof (read_law cp w) as [Hsame Hread]. destruct (CacheStore.os_read cp w) as [[e|content] w1] eqn:Er; cbn in Hsame, Hread.
  { eexists _, w1. split; [done|]. split; [done|]. by econstructor. }
  specialize (Hread content eq_refl).
  destruct (IH (acc ++ line_marker cp ++ before_include np content) w1) as (r & w2 & -> & Hs2 & Hr); [done|done|].
  eexists _, w2. split; [done|]. split; [intros q; by rewrite Hs2, Hsame|]. destruct r as [p|].
  - destruct Hr as (q & -> & Hq). exists (line_marker cp ++ before_include np content ++ q).
    split; [by rewrite <- !app_assoc|]. econstructor; try done; [apply before_include_ok|by eapply preamble_of_nodes].
  - by eapply refused_later.
Qed.

Definition context_path (dir preamble : bytes) : bytes :=
  CacheStore.join (CacheStore.join dir (str "header_context")) (hex16 (xxh3_64bits preamble) ++ str ".h").

(** The file of a preamble is not there, and its directory or itself cannot be made. *)
Definition write_refused (dir p : bytes) (w : W) : Prop :=
  ∃ e w1, CacheStore.os_status (context_path dir p) w = (inl e, w1) ∧
    ((∃ ec, (CacheStore.os_create_directories (CacheStore.join dir (str "header_context")) w1).1 = Some ec) ∨
     ∃ w2 ec, CacheStore.os_create_directories (CacheStore.join dir (str "header_context")) w1 = (None, w2) ∧
       (CacheStore.os_write (context_path dir p) p w2).1 = Some ec).

Lemma write_preamble_ok dir p w w0 :
  same_nodes w0 w →
  let '(r, w') := write_preamble xxh3_64bits dir p w in
  match r with
  | Some (path, hash) => path = context_path dir p ∧ hash = xxh3_64bits p ∧ is_Some (node_at w' path) ∧
      (node_at w0 path = None → node_at w' path = Some (File p))
  | None => write_refused dir p w
  end.
Proof.
  intros Hsame. unfold write_preamble, exists_file. fold (context_path dir p).
  pose proof (status_law (context_path dir p) w) as [Hs1 Hst].
  destruct (CacheStore.os_status (context_path dir p) w) as [st w1] eqn:Est. cbn in Hs1, Hst.
  destruct st as [e|st].
  - destruct (CacheStore.os_create_directories _ w1) as [[ec|] w2] eqn:Ed.
    { exists e, w1. split; [done|]. left. exists ec. by rewrite Ed. }
    pose proof (write_law (context_path dir p) p w2) as [_ Hw].
    destruct (CacheStore.os_write _ p w2) as [[ec|] w3] eqn:Ew.
    { exists e, w1. split; [done|]. right. exists w2, ec. by rewrite Ew. }
    cbn in Hw. rewrite (Hw eq_refl). split_and!; [done|done|by eexists|done].
  - rewrite <- Hsame. split_and!; [done|done|rewrite Hs1|intros Hn]; destruct (node_at w _) as [n|] eqn:En; try done.
    + by destruct Hst.
    + by destruct Hst.
Qed.

Lemma chain_resolves c chain host header :
  include_path (dep_graph c) chain host header →
  is_Some (resolve (pool c) host) →
  (∀ a b, include_edge (dep_graph c) a b → is_Some (resolve (pool c) b)) →
  Forall (λ x, is_Some (resolve (pool c) x)) chain.
Proof.
  intros (Hh & _ & He) Hhost Hknown. apply Forall_lookup. intros [|i] x Hx.
  - destruct chain; [done|]. by simplify_eq/=.
  - destruct (lookup_lt_is_Some_2 chain i) as [y Hy]; [apply lookup_lt_Some in Hx; lia|].
    by eapply Hknown, He.
Qed.

(** A source that reaches the header is an includer of some file. *)
Lemma host_includes (g : DependencyGraph) header h :
  rtc (λ b a, a ∈ get_includers g b) header h → h ≠ header → ∃ b, h ∈ get_includers g b.
Proof using Type. intros Hr Hne. apply rtc_inv_r in Hr as [?|(b & _ & Hb)]; [congruence|by exists b]. Qed.

End contexts.

(** ** Arguments *)

Section arguments.
Context `{OptionTable} `{PathTable}.
Context (default_mask : Z) (id_order : string → Z) (sort_args : list ParsedArg → list ParsedArg).
Context (fuel : nat) (toolchain : CompileCommand → CompileCommand) (xxh3_64bits : bytes → Z).
Context {W : Type} `{CacheStore.Platform W}.

(** The command of a header in its context: that of the host, for the header's file, with
    the preamble included right behind the driver. *)
Lemma header_arguments path path_id session ctx host_path file options c c' w front results pre post :
  cached_context session = Some ctx → resolve (pool c) (Documents.host_path_id ctx) = Some host_path →
  resolve (pool c) path_id = Some file → rule_options fuel path c = Ok options →
  lookup_in default_mask id_order sort_args host_path options c = Ok (c', front :: results) →
  let cmd := CommandDatabase.resolved (toolchain front) in
  flags cmd = pre ++ post → length pre = (if is_cc1 cmd then 2 else 1)%nat →
  fill_header_context_args default_mask id_order sort_args fuel toolchain xxh3_64bits path path_id session c w =
    (let? arguments := to_string_argv (mkCompileCommand
       (mkResolvedFlags (directory cmd) (pre ++ [Some (str "-include"); Some (Documents.preamble_path ctx)] ++ post)
          (is_cc1 cmd)) (Some file)) in
     Ok (Some (directory cmd, arguments), session, c', w)).
Proof.
  intros Hctx Hhost Hfile Hopt Hlook cmd Hfs Hlen. unfold fill_header_context_args. rewrite Hctx. cbn [Res_bind].
  rewrite Hhost. cbn [read Res_bind]. rewrite Hopt. cbn [Res_bind]. rewrite Hlook. cbn [Res_bind].
  assert (pool c' = pool c) as ->.
  { unfold lookup_in in Hlook. destruct (lookup_commands _ _ _ _ _ _) as [r| | |]; try done. by simplify_eq/=. }
  rewrite Hfile. cbn [read Res_bind]. fold cmd. rewrite <- Hlen, Hfs.
  unfold insert_flag. rewrite decide_True by (rewrite length_app; lia). cbn [Res_bind].
  rewrite take_app_length, drop_app_length. rewrite decide_True by (rewrite length_app; cbn; lia).
  cbn [Res_bind]. rewrite take_app_length, drop_app_length. done.
Qed.

(** Without a chosen context a file gets the command of the database, which answers every
    lookup: contexts are never resolved automatically, also for a header without an entry. *)
Lemma automatic_context_is_unreachable path session c w r session' c' w' :
  active_of session = None →
  fill_compile_args default_mask id_order sort_args fuel toolchain xxh3_64bits path session c w =
    Ok (r, session', c', w') →
  is_Some r ∧ session' = session ∧ w' = w.
Proof.
  intros Ha. unfold fill_compile_args. destruct (intern (pool c) path) as [p id]. rewrite Ha.
  destruct (rule_options _ _ _) as [o| | |]; try done. cbn [Res_bind].
  destruct (lookup_in _ _ _ _ _ _) as [[c1 found]| | |] eqn:Hl; try done. cbn [Res_bind].
  destruct found as [|front found].
  - exfalso. unfold lookup_in in Hl. destruct (lookup_commands _ _ _ _ _ _) as [[db f]| | |] eqn:E; try done.
    cbn in Hl. simplify_eq. by apply lookup_never_empty in E.
  - destruct (to_string_argv _) as [args| | |]; try done. cbn. intros [= <- <- <- <-]. by split_and!; [eexists|..].
Qed.
End arguments.

(** ** A header and its host *)

Definition example_graph : DependencyGraph :=
  let g := set_includes empty_graph 0 0 [1] in build_reverse_map g (map_to_list (includes g)).

Definition example_compiler : Compiler :=
  mkCompiler (intern_all empty_pool [str "m.cpp"; str "h.h"]).1 example_graph empty_database
    (mkConfig (mkProjectConfig false 0 (str "/c") [] [] None None 0 0 0 0 0) [] []).

Definition example_world : MemFs :=
  write_file (str "m.cpp") (str "int a;" ++ newline :: str "#include <h.h>") (mkMemFs ∅ ∅ ∅ 0).

Definition text_hash (b : bytes) : Z := Z.of_nat (length b).

