(* ===== verification/PchBuild.v ===== *)
(** * Building precompiled headers (src/server/compiler/compiler.cpp: [ensure_pch], [BuildingGuard])

    [ensure_pch] runs as a coroutine for every compilation that needs the precompiled header
    of its document.  It reuses the cached one, waits for a build that is under way, or
    builds one with a stateless worker and commits it to the blob store.  A [Frame] is a
    coroutine that is suspended; an [Event] makes one run up to its next suspension point,
    or is something else that happens to the workspace.  Events of coroutines that cannot
    happen are [Err tt]; [Fault] is undefined behaviour, here only that of the store. *)
From S2P Require Import Prelude Text CacheStore PathPool IndexData Snapshot CommandDatabase Lexer Scanner.
From S2P Require Import CachePlatform CacheInvariant CacheTheorems CommandTheorems Workspace WorkspaceTheorems HeaderContext.
From S2P Require Documents IndexStore.
Local Open Scope Z_scope.
Local Open Scope cpp_scope.

(** ** Data *)

(** Where a coroutine is suspended: on the event of another build, in [send_stateless],
    before the queued commit runs, and after it. *)
Inductive Point :=
| Waiting
| Sending (pending : PendingEntry)
| Committing (pending : PendingEntry) (deps : list bytes) (links : bytes)
| Committed (result : errc + bytes) (deps : list bytes) (links : bytes).

(** [f_completion] is the event waited for, or the one of the guard. *)
Record Frame := mkFrame {
  f_session : nat;
  f_id : Z;
  f_key : bytes;
  f_bound : Z;
  f_completion : nat;
  f_point : Point;
}.

Definition is_builder (f : Frame) : bool := match f_point f with Waiting => false | _ => true end.

Definition at_point (p : Point) (f : Frame) : Frame :=
  mkFrame (f_session f) (f_id f) (f_key f) (f_bound f) (f_completion f) p.

Definition set_building (e : option nat) (s : PCHState) : PCHState :=
  mkPCHState (pch_path s) (bound s) (pch_key s) (pch_deps s) (document_links_json s) e.
Definition set_bound (z : Z) (s : PCHState) : PCHState :=
  mkPCHState (pch_path s) z (pch_key s) (pch_deps s) (document_links_json s) (building s).

Section pch.
Context {W : Type} `{Platform W} `{Disk W} `{CacheCodec} (ord : Order).
Context `{RawLexer} `{OptionTable} `{PathTable}.
Context (ndebug has_store : bool) (fuel : nat) (xxh3_64bits : bytes → Z) (xxh3_128 : bytes → Z * Z).
Context (clang_version : bytes) (parent_path : bytes → bytes).

(** [refs] are the sessions' [pch_ref]; [finished] what the coroutines have returned. *)
Record Server := mkServer {
  ws : Workspace;
  sys : Sys W;
  events : gset nat;
  next_event : nat;
  frames : gmap nat Frame;
  refs : gmap nat (option Documents.PCHRef);
  finished : list (nat * bool);
}.

Definition set_ws (x : Workspace) (s : Server) : Server :=
  mkServer x (sys s) (events s) (next_event s) (frames s) (refs s) (finished s).
Definition set_sys (x : Sys W) (s : Server) : Server :=
  mkServer (ws s) x (events s) (next_event s) (frames s) (refs s) (finished s).
Definition set_frame (b : nat) (f : Frame) (s : Server) : Server :=
  mkServer (ws s) (sys s) (events s) (next_event s) (<[b := f]> (frames s)) (refs s) (finished s).
Definition set_ref (o : nat) (r : option Documents.PCHRef) (s : Server) : Server :=
  mkServer (ws s) (sys s) (events s) (next_event s) (frames s) (<[o := r]> (refs s)) (finished s).
Definition set_event (e : nat) (s : Server) : Server :=
  mkServer (ws s) (sys s) ({[e]} ∪ events s) (next_event s) (frames s) (refs s) (finished s).
Definition drop_frame (b : nat) (s : Server) : Server :=
  mkServer (ws s) (sys s) (events s) (next_event s) (delete b (frames s)) (refs s) (finished s).

(** [co_return r]. *)
Definition finish (b : nat) (r : bool) (s : Server) : Server :=
  mkServer (ws s) (sys s) (events s) (next_event s) (delete b (frames s)) (refs s) (finished s ++ [(b, r)]).

(** An operation of the store that cannot return an error. *)
Definition on_store {A} (m : M W A) (s : Server) : Res () (A * Server) :=
  match m (sys s) with
  | (Ok a, x) => Ok (a, set_sys x s)
  | (Fault, _) => Fault
  | (Err _, _) | (Stuck, _) => Stuck
  end.

(** ~BuildingGuard: only the own registration is reset. *)
Definition guard_ends (id : Z) (completion : nat) (s : Server) : Server :=
  let s :=
    match pch_cache (ws s) !! id with
    | Some st =>
      if decide (building st = Some completion) then set_ws (set_pch id (set_building None st) (ws s)) s else s
    | None => s
    end in
  set_event completion s.

(** [pch_cache.count(path_id) && !pch_cache[path_id].path.empty()]. *)
Definition has_header (id : Z) (w : Workspace) : bool :=
  match pch_cache w !! id with
  | Some st => negb (bool_decide (pch_path st = []))
  | None => false
  end.

Definition pch_key_of (path text directory : bytes) (bound : Z) (arguments : list bytes) : bytes :=
  cache_key xxh3_128 [clang_version; directory; parent_path path; take (Z.to_nat bound) text;
                      canonicalize arguments Frontend].

(** Whether the cached header can be used: the operands of && in their order. *)
Definition reusable (id : Z) (key : bytes) (s : Server) : Res () (bool * Server) :=
  match pch_cache (ws s) !! id with
  | None => Ok (false, s)
  | Some st =>
    if negb (bool_decide (pch_key st = key)) || bool_decide (pch_path st = []) || negb has_store then Ok (false, s)
    else
      let? (blob, s) := on_store (CacheStore.lookup pch_ns key) s in
      match blob with
      | None => Ok (false, s)
      | Some _ =>
        let? changed := deps_changed xxh3_64bits (world (sys s)) (path_pool (ws s)) (pch_deps st) in
        Ok (negb changed, s)
      end
  end.

(** The registration of a build, and the request to the worker. *)
Definition start_build (b o : nat) (id : Z) (key : bytes) (bound : Z) (s : Server) : Res () Server :=
  let e := next_event s in
  let st := default new_pch (pch_cache (ws s) !! id) in
  let s := mkServer (set_pch id (set_building (Some e) st) (ws s)) (sys s) (events s) (S e) (frames s) (refs s)
             (finished s) in
  if negb has_store then Ok (finish b false (guard_ends id e s))
  else
    let? (pending, s) := on_store (begin_store ndebug pch_ns key) s in
    Ok (set_frame b (mkFrame o id key bound e (Sending pending)) s).

Definition ensure_pch (b o : nat) (id : Z) (text directory : bytes) (arguments : list bytes) (s : Server) :
    Res () Server :=
  if decide (is_Some (frames s !! b)) then Err tt
  else
    let? path := read (resolve (path_pool (ws s)) id) in
    match compute_preamble_bound fuel text with
    | None => Stuck
    | Some 0 => Ok (finish b true (set_ref o None (set_ws (erase_pch id (ws s)) s)))
    | Some bound =>
      let key := pch_key_of path text directory bound arguments in
      let? (reuse, s) := reusable id key s in
      if reuse : bool then
        let st := default new_pch (pch_cache (ws s) !! id) in
        Ok (finish b true (set_ref o (Some (Documents.mkPCHRef id key bound))
              (set_ws (set_pch id (set_bound bound st) (ws s)) s)))
      else
        match is_preamble_complete fuel text (Z.to_nat bound) with
        | None => Stuck
        | Some false => Ok (finish b (has_header id (ws s)) s)
        | Some true =>
          match pch_cache (ws s) !! id ≫= building with
          | Some e => Ok (set_frame b (mkFrame o id key bound e Waiting) s)
          | None => start_build b o id key bound s
          end
        end
    end.

(** [send_stateless] has returned: the dependencies and links of a successful build. *)
Definition send_returned (b : nat) (result : option (list bytes * bytes)) (s : Server) : Res () Server :=
  match frames s !! b with
  | Some (mkFrame o id key bound e (Sending pending) as f) =>
    match result with
    | None =>
      let? (_, s) := on_store (abort pending) s in
      Ok (finish b false (guard_ends id e s))
    | Some (deps, links) => Ok (set_frame b (at_point (Committing pending deps links) f) s)
    end
  | _ => Err tt
  end.

(** The commit runs on the thread pool. *)
Definition run_commit (b : nat) (s : Server) : Res () Server :=
  match frames s !! b with
  | Some (mkFrame o id key bound e (Committing pending deps links) as f) =>
    let? (r, s) := on_store (IndexStore.attempt (commit pending)) s in
    Ok (set_frame b (at_point (Committed r deps links) f) s)
  | _ => Err tt
  end.

(** The coroutine goes on after the commit; [now] and [reads] are what the recording of the
    dependencies sees. *)
Definition commit_returned (b : nat) (now : Z) (reads : nat → W) (s : Server) : Res () Server :=
  match frames s !! b with
  | Some (mkFrame o id key bound e (Committed result deps links)) =>
    match result with
    | inl _ => Ok (finish b false (guard_ends id e s))
    | inr path =>
      let '(pool, snap) := capture_deps_snapshot xxh3_64bits now reads (path_pool (ws s)) deps in
      let st := default new_pch (pch_cache (ws s) !! id) in
      let s := set_ws (set_pch id (mkPCHState path bound key snap links (building st)) (Workspace.set_pool pool (ws s))) s in
      let s := set_ref o (Some (Documents.mkPCHRef id key bound)) s in
      let? (_, s) := on_store (save_cache ord has_store (ws s)) s in
      Ok (finish b true (guard_ends id e s))
    end
  | _ => Err tt
  end.

(** A waiting coroutine whose event is set. *)
Definition wake (b : nat) (s : Server) : Res () Server :=
  match frames s !! b with
  | Some (mkFrame o id _ _ e Waiting) =>
    if decide (e ∈ events s) then
      let s :=
        match pch_cache (ws s) !! id with
        | Some st => set_ref o (Some (Documents.mkPCHRef id (pch_key st) (bound st))) s
        | None => s
        end in
      Ok (finish b (has_header id (ws s)) s)
    else Err tt
  | _ => Err tt
  end.

(** A cancelled coroutine unwinds at its suspension point. *)
Definition cancel (b : nat) (s : Server) : Res () Server :=
  match frames s !! b with
  | None => Err tt
  | Some f => Ok (drop_frame b (if is_builder f then guard_ends (f_id f) (f_completion f) s else s))
  end.

Inductive Event :=
| Ensure (b o : nat) (id : Z) (text directory : bytes) (arguments : list bytes)
| SendReturned (b : nat) (result : option (list bytes * bytes))
| RunCommit (b : nat)
| CommitReturned (b : nat) (now : Z) (reads : nat → W)
| Wake (b : nat)
| Cancel (b : nat)
| Closed (id : Z)          (* the document is closed: its entry is erased *)
| Outside (x : Sys W)      (* the store and the disk change *)
| Interned (p : PathPool). (* other parts intern paths *)

Definition step (ev : Event) (s : Server) : Res () Server :=
  match ev with
  | Ensure b o id text directory arguments => ensure_pch b o id text directory arguments s
  | SendReturned b result => send_returned b result s
  | RunCommit b => run_commit b s
  | CommitReturned b now reads => commit_returned b now reads s
  | Wake b => wake b s
  | Cancel b => cancel b s
  | Closed id => Ok (set_ws (erase_pch id (ws s)) s)
  | Outside x => Ok (set_sys x s)
  | Interned p => Ok (set_ws (Workspace.set_pool p (ws s)) s)
  end.

Definition start (w : Workspace) (x : Sys W) : Server := mkServer w x ∅ 0 ∅ ∅ [].

(** The states reached from a workspace in which no build is registered. *)
Inductive reachable : Server → Prop :=
| reach_start w x : map_Forall (λ _ st, building st = None) (pch_cache w) → reachable (start w x)
| reach_step ev s s' : reachable s → step ev s = Ok s' → reachable s'.
End pch.
Arguments Server W : clear implicits.
Arguments Event W : clear implicits.

(** ** Waiting for precompiled headers

    Coroutines that wait for the build of another one are woken whatever ends that build,
    also after the document was closed and its entry erased, and a registration always
    belongs to exactly one build that is under way. *)

(** ** The invariant *)

Record Inv (cache : gmap Z PCHState) (ev : gset nat) (n : nat) (fr : gmap nat Frame) : Prop := {
  i_builder b f : fr !! b = Some f → is_builder f = true → (f_completion f < n)%nat ∧ f_completion f ∉ ev;
  i_distinct b b' f f' : fr !! b = Some f → fr !! b' = Some f' → is_builder f = true → is_builder f' = true →
    f_completion f = f_completion f' → b = b';
  i_waiting b f : fr !! b = Some f → is_builder f = false →
    f_completion f ∈ ev ∨ ∃ b' f', fr !! b' = Some f' ∧ is_builder f' = true ∧ f_completion f' = f_completion f;
  i_registered id st e : cache !! id = Some st → building st = Some e →
    ∃ b f, fr !! b = Some f ∧ is_builder f = true ∧ f_completion f = e ∧ f_id f = id;
  i_events e : e ∈ ev → (e < n)%nat;
}.

(** No registration is added. *)
Definition registers_less (cache' cache : gmap Z PCHState) : Prop :=
  ∀ id st e, cache' !! id = Some st → building st = Some e →
    ∃ st0, cache !! id = Some st0 ∧ building st0 = Some e.

Lemma inv_cache cache cache' ev n fr : Inv cache ev n fr → registers_less cache' cache → Inv cache' ev n fr.
Proof. intros [] Hl. split; eauto. intros id st e Hc Hb. destruct (Hl _ _ _ Hc Hb) as (st0 & ? & ?). eauto. Qed.

Lemma registers_less_refl cache : registers_less cache cache.
Proof. intros id st e ? ?. eauto. Qed.

Lemma registers_less_delete cache id : registers_less (delete id cache) cache.
Proof. intros i st e [_ Hc]%lookup_delete_Some ?. eauto. Qed.

Lemma registers_less_insert cache id st :
  (∀ e, building st = Some e → ∃ st0, cache !! id = Some st0 ∧ building st0 = Some e) →
  registers_less (<[id := st]> cache) cache.
Proof. intros Hst i st' e [(<- & <-)|(_ & Hc)]%lookup_insert_Some Hb; eauto. Qed.

(** A build goes on at another point. *)
Lemma inv_move cache ev n fr b f p :
  Inv cache ev n fr → fr !! b = Some f → is_builder f = true → is_builder (at_point p f) = true →
  Inv cache ev n (<[b := at_point p f]> fr).
Proof.
  intros [Hb Hd Hw Hr He] Hf Hbf Hbp.
  assert (∀ b' f', <[b := at_point p f]> fr !! b' = Some f' → is_builder f' = true →
    ∃ f0, fr !! b' = Some f0 ∧ is_builder f0 = true ∧ f_completion f0 = f_completion f' ∧ f_id f0 = f_id f') as Hback.
  { intros b' f' [(<- & <-)|(Hne & Hl)]%lookup_insert_Some ?; [by exists f|by exists f']. }
  assert (∀ b' f', fr !! b' = Some f' → is_builder f' = true → ∃ f0, <[b := at_point p f]> fr !! b' = Some f0 ∧
    is_builder f0 = true ∧ f_completion f0 = f_completion f' ∧ f_id f0 = f_id f') as Hfwd.
  { intros b' f' Hl Hbf'. destruct (decide (b' = b)) as [-> |Hne].
    - rewrite lookup_insert_eq. simplify_eq. by exists (at_point p f).
    - rewrite lookup_insert_ne by done. by exists f'. }
  split.
  - intros b' f' Hl Hbf'. destruct (Hback _ _ Hl Hbf') as (f0 & Hl0 & Hb0 & <- & _). by eapply Hb.
  - intros b1 b2 f1 f2 H1 H2 Hb1 Hb2 Heq. destruct (Hback _ _ H1 Hb1) as (g1 & ? & ? & E1 & _).
    destruct (Hback _ _ H2 Hb2) as (g2 & ? & ? & E2 & _). eapply Hd; [done..|congruence].
  - intros b' f' [(<- & <-)|(Hne & Hl)]%lookup_insert_Some Hnb; [congruence|].
    destruct (Hw _ _ Hl Hnb) as [|(b2 & f2 & Hl2 & Hb2 & Heq)]; [by left|right].
    destruct (Hfwd _ _ Hl2 Hb2) as (g & ? & ? & E & _). exists b2, g. split_and!; [done..|congruence].
  - intros id st e Hc Hbu. destruct (Hr _ _ _ Hc Hbu) as (b2 & f2 & Hl2 & Hb2 & <- & <-).
    destruct (Hfwd _ _ Hl2 Hb2) as (g & ? & ? & E & E'). by exists b2, g.
  - done.
Qed.

(** A coroutine begins to wait for a registered build. *)
Lemma inv_wait cache ev n fr b f id st :
  Inv cache ev n fr → fr !! b = None → is_builder f = false → cache !! id = Some st →
  building st = Some (f_completion f) → Inv cache ev n (<[b := f]> fr).
Proof.
  intros [Hb Hd Hw Hr He] Hnone Hnb Hc Hbu.
  assert (∀ b' f', <[b := f]> fr !! b' = Some f' → is_builder f' = true → fr !! b' = Some f') as Hback.
  { intros b' f' [(<- & <-)|(Hne & Hl)]%lookup_insert_Some ?; [congruence|done]. }
  assert (∀ b' f', fr !! b' = Some f' → <[b := f]> fr !! b' = Some f') as Hfwd.
  { intros b' f' Hl. rewrite lookup_insert_ne; [done|congruence]. }
  split; [eauto|eauto| |eauto|done].
  - intros b' f' [(<- & <-)|(Hne & Hl)]%lookup_insert_Some Hnb'.
    + right. destruct (Hr _ _ _ Hc Hbu) as (b2 & f2 & ? & ? & ? & _). exists b2, f2.
      split_and!; [by apply Hfwd|done..].
    + destruct (Hw _ _ Hl Hnb') as [|(b2 & f2 & ? & ? & ?)]; eauto 8.
  - intros i s e Hci Hbi. destruct (Hr _ _ _ Hci Hbi) as (b2 & f2 & ? & ? & ? & ?). eauto 8.
Qed.

(** A new build is registered. *)
Lemma inv_build cache ev n fr b f st :
  Inv cache ev n fr → fr !! b = None → is_builder f = true → f_completion f = n → building st = Some n →
  Inv (<[f_id f := st]> cache) ev (S n) (<[b := f]> fr).
Proof.
  intros [Hb Hd Hw Hr He] Hnone Hbf Hn Hbu.
  assert (∀ b' f', fr !! b' = Some f' → <[b := f]> fr !! b' = Some f') as Hfwd.
  { intros b' f' Hl. rewrite lookup_insert_ne; [done|congruence]. }
  split.
  - intros b' f' [(<- & <-)|(Hne & Hl)]%lookup_insert_Some Hbf'.
    + split; [lia|]. intros Hin%He. lia.
    + destruct (Hb _ _ Hl Hbf'). split; [lia|done].
  - intros b1 b2 f1 f2 [(<- & <-)|(Hn1 & H1)]%lookup_insert_Some [(<- & <-)|(Hn2 & H2)]%lookup_insert_Some Hb1 Hb2 Heq;
      [done| | |by eapply Hd].
    + destruct (Hb _ _ H2 Hb2). lia.
    + destruct (Hb _ _ H1 Hb1). lia.
  - intros b' f' [(<- & <-)|(Hne & Hl)]%lookup_insert_Some Hnb; [congruence|].
    destruct (Hw _ _ Hl Hnb) as [|(b2 & f2 & ? & ? & ?)]; eauto 8.
  - intros i s e [(<- & <-)|(Hne & Hl)]%lookup_insert_Some Hbi.
    + exists b, f. rewrite lookup_insert_eq. split_and!; [done..|congruence|done].
    + destruct (Hr _ _ _ Hl Hbi) as (b2 & f2 & ? & ? & ? & ?). eauto 8.
  - intros e Hin%He. lia.
Qed.

(** A build ends: its event is set and its registration, if it is still there, is reset. *)
Lemma inv_end cache cache' ev n fr b f :
  Inv cache ev n fr → fr !! b = Some f → is_builder f = true →
  registers_less cache' cache → (∀ id st, cache' !! id = Some st → building st ≠ Some (f_completion f)) →
  Inv cache' ({[f_completion f]} ∪ ev) n (delete b fr).
Proof.
  intros [Hb Hd Hw Hr He] Hf Hbf Hl Hgone. split.
  - intros b' f' [Hne Hf']%lookup_delete_Some Hbf'. destruct (Hb _ _ Hf' Hbf'). split; [done|].
    intros [Heq%elem_of_singleton|?]%elem_of_union; [|done]. destruct Hne. by eapply Hd.
  - intros b1 b2 f1 f2 [_ H1]%lookup_delete_Some [_ H2]%lookup_delete_Some. by eapply Hd.
  - intros b' f' [Hne Hf']%lookup_delete_Some Hnb.
    destruct (Hw _ _ Hf' Hnb) as [|(b2 & f2 & Hf2 & Hb2 & Heq)]; [left; set_solver|].
    destruct (decide (b2 = b)) as [-> |Hne2]; [left; simplify_eq; set_solver|].
    right. exists b2, f2. by rewrite lookup_delete_ne.
  - intros id st e Hc Hbu. destruct (Hl _ _ _ Hc Hbu) as (st0 & Hc0 & Hb0).
    destruct (Hr _ _ _ Hc0 Hb0) as (b2 & f2 & Hf2 & Hb2 & Heq & Hid). exists b2, f2. split_and!; try done.
    rewrite lookup_delete_ne; [done|]. intros Hbb. apply (Hgone id st Hc). congruence.
  - intros e [ ->%elem_of_singleton|Hin]%elem_of_union; [by destruct (Hb _ _ Hf Hbf)|by apply He].
Qed.

(** A coroutine that builds nothing is gone. *)
Lemma inv_drop cache ev n fr b :
  Inv cache ev n fr → (∀ f, fr !! b = Some f → is_builder f = false) → Inv cache ev n (delete b fr).
Proof.
  intros [Hb Hd Hw Hr He] Hnb.
  assert (∀ b' f', fr !! b' = Some f' → is_builder f' = true → delete b fr !! b' = Some f') as Hfwd.
  { intros b' f' Hl Hbf. rewrite lookup_delete_ne; [done|]. intros <-. by rewrite (Hnb _ Hl) in Hbf. }
  split.
  - intros b' f' [_ Hf']%lookup_delete_Some. by apply (Hb b').
  - intros b1 b2 f1 f2 [_ H1]%lookup_delete_Some [_ H2]%lookup_delete_Some. by eapply Hd.
  - intros b' f' [_ Hf']%lookup_delete_Some Hn. destruct (Hw _ _ Hf' Hn) as [|(b2 & f2 & ? & ? & ?)]; eauto 8.
  - intros id st e Hc Hbu. destruct (Hr _ _ _ Hc Hbu) as (b2 & f2 & ? & ? & ? & ?). eauto 8.
  - done.
Qed.

Section reach.
Context {W : Type} `{Platform W} `{Disk W} `{CacheCodec} (ord : Order).
Context `{RawLexer} `{OptionTable} `{PathTable}.
Context (ndebug has_store : bool) (fuel : nat) (xxh3_64bits : bytes → Z) (xxh3_128 : bytes → Z * Z).
Context (clang_version : bytes) (parent_path : bytes → bytes).
Abbreviation step := (PchBuild.step ord ndebug has_store fuel xxh3_64bits xxh3_128 clang_version parent_path).
Abbreviation reach := (reachable ord ndebug has_store fuel xxh3_64bits xxh3_128 clang_version parent_path).

Definition SInv (s : Server W) : Prop := Inv (pch_cache (ws s)) (events s) (next_event s) (frames s).

(** The store is used without touching the rest. *)
Lemma on_store_frame {A} (m : M W A) (s : Server W) a s' :
  on_store m s = Ok (a, s') →
  ws s' = ws s ∧ events s' = events s ∧ next_event s' = next_event s ∧ frames s' = frames s ∧ refs s' = refs s.
Proof. unfold on_store. destruct (m (sys s)) as [[] x]; [|done..]. by intros [= <- <-]. Qed.

Lemma on_store_inv {A} (m : M W A) s a s' : on_store m s = Ok (a, s') → SInv s → SInv s'.
Proof. unfold SInv. by intros (-> & -> & -> & -> & _)%on_store_frame. Qed.

(** What the guard does to the table. *)
Lemma guard_cache id e (s : Server W) :
  registers_less (pch_cache (ws (guard_ends id e s))) (pch_cache (ws s)) ∧
  ∀ st, pch_cache (ws (guard_ends id e s)) !! id = Some st → building st ≠ Some e.
Proof.
  unfold guard_ends. destruct (pch_cache (ws s) !! id) as [st|] eqn:Hst; cbn.
  - case_decide as Hb; cbn.
    + split; [by apply registers_less_insert|]. intros st'. rewrite lookup_insert_eq. by intros [= <-].
    + split; [apply registers_less_refl|]. by rewrite Hst; intros st' [= <-].
  - split; [apply registers_less_refl|]. by rewrite Hst.
Qed.

(** The end of a build, with or without a result. *)
Lemma guard_inv b f s :
  SInv s → frames s !! b = Some f → is_builder f = true →
  let s' := guard_ends (f_id f) (f_completion f) s in
  Inv (pch_cache (ws s')) (events s') (next_event s') (delete b (frames s')).
Proof.
  intros Hs Hf Hb. destruct (guard_cache (f_id f) (f_completion f) s) as [Hl Hg]. cbn zeta.
  assert (events (guard_ends (f_id f) (f_completion f) s) = {[f_completion f]} ∪ events s ∧
    next_event (guard_ends (f_id f) (f_completion f) s) = next_event s ∧
    frames (guard_ends (f_id f) (f_completion f) s) = frames s) as (-> & -> & ->).
  { unfold guard_ends. destruct (pch_cache (ws s) !! f_id f); [case_decide|]; done. }
  eapply inv_end; [exact Hs|done..|]. intros id st Hc Hbu.
  destruct (Hl _ _ _ Hc Hbu) as (st0 & Hc0 & Hb0).
  destruct (i_registered _ _ _ _ Hs _ _ _ Hc0 Hb0) as (b2 & f2 & Hf2 & Hb2 & Heq & Hid).
  assert (b2 = b) as -> by (by eapply (i_distinct _ _ _ _ Hs)). simplify_eq. by apply (Hg st).
Qed.

Lemma frame_ends_inv b f r s :
  SInv s → frames s !! b = Some f → is_builder f = true →
  SInv (finish b r (guard_ends (f_id f) (f_completion f) s)).
Proof. apply guard_inv. Qed.

Lemma reusable_frame id key s r s' :
  reusable has_store xxh3_64bits id key s = Ok (r, s') →
  ws s' = ws s ∧ events s' = events s ∧ next_event s' = next_event s ∧ frames s' = frames s.
Proof.
  unfold reusable. destruct (pch_cache (ws s) !! id) as [st|]; [|by intros [= <- <-]].
  destruct (_ || _); [by intros [= <- <-]|].
  destruct (on_store _ s) as [[blob s1]| | |] eqn:Ho; try done. cbn.
  apply on_store_frame in Ho as (? & ? & ? & ? & _). destruct blob; [|by intros [= <- <-]].
  destruct (deps_changed _ _ _ _); try done. by intros [= <- <-].
Qed.

Lemma start_build_inv b o id key bd s s' :
  SInv s → frames s !! b = None →
  start_build ndebug has_store b o id key bd s = Ok s' → SInv s'.
Proof.
  intros Hs Hnone. unfold start_build. set (e := next_event s).
  set (st := set_building (Some e) (default new_pch (pch_cache (ws s) !! id))).
  set (f := mkFrame o id key bd e Waiting).
  assert (∀ p, is_builder (at_point p f) = true →
    Inv (<[id := st]> (pch_cache (ws s))) (events s) (S e) (<[b := at_point p f]> (frames s))) as Hnew.
  { intros p Hp. apply (inv_build _ _ _ _ b (at_point p f) st Hs Hnone Hp); done. }
  destruct has_store; cbn [negb].
  - destruct (on_store _ _) as [[pending s1]| | |] eqn:Ho; try done. cbn [Res_bind]. intros [= <-].
    apply on_store_frame in Ho as (Hw & He & Hn & Hf & _). unfold SInv. cbn.
    rewrite Hw, He, Hn, Hf. cbn. by apply (Hnew (Sending pending)).
  - intros [= <-].
    set (s1 := mkServer _ _ _ _ _ _ _).
    set (s2 := set_frame b (at_point (Sending (mkPendingEntry [] [] [])) f) s1).
    assert (SInv s2) as Hs2 by (by apply Hnew).
    pose proof (frame_ends_inv b _ false s2 Hs2 (lookup_insert_eq _ _ _) eq_refl) as Hfin.
    unfold SInv in *. unfold finish, guard_ends in Hfin |- *. cbn in Hfin |- *.
    rewrite lookup_insert_eq in Hfin |- *. cbn in Hfin |- *.
    rewrite decide_True in Hfin |- * by done. cbn in Hfin |- *. by rewrite delete_insert_eq in Hfin.
Qed.

Lemma ensure_inv b o id text dir args s s' :
  SInv s → step (Ensure b o id text dir args) s = Ok s' → SInv s'.
Proof.
  intros Hs. cbn. unfold ensure_pch. case_decide as Hfr; [done|]. apply eq_None_not_Some in Hfr.
  assert (∀ f, frames s !! b = Some f → is_builder f = false) as Hno by congruence.
  destruct (resolve _ _) as [path|]; [|done]. cbn [read Res_bind].
  destruct (compute_preamble_bound fuel text) as [bd|]; [|done].
  assert (bd = 0 ∨ bd ≠ 0) as [-> |Hbd] by lia.
  { intros [= <-]. apply (inv_drop _ _ _ _ b); [|done]. eapply inv_cache; [exact Hs|]. apply registers_less_delete. }
  assert (∀ (A : Type) (x y : A), match bd with 0 => x | _ => y end = y) as Hm by (intros; by destruct bd).
  rewrite Hm. clear Hm. set (key := pch_key_of _ _ _ _ _ _ _ _).
  destruct (reusable _ _ id key s) as [[reuse s1]| | |] eqn:Hr; try done. cbn [Res_bind].
  apply reusable_frame in Hr as (Hw & He & Hn & Hf).
  assert (SInv s1) as Hs1 by (unfold SInv; by rewrite Hw, He, Hn, Hf).
  rewrite <- Hf in Hfr, Hno. destruct reuse.
  { intros [= <-]. apply (inv_drop _ _ _ _ b); [|done]. eapply inv_cache; [exact Hs1|]. cbn.
    apply registers_less_insert. cbn. destruct (pch_cache (ws s1) !! id) as [st|]; [|done]. eauto. }
  destruct (is_preamble_complete _ _ _) as [[]|]; [| |done].
  - destruct (pch_cache (ws s1) !! id ≫= building) as [e|] eqn:Hb; [|by apply start_build_inv].
    apply bind_Some in Hb as (st & Hst & Hb). intros [= <-]. by apply (inv_wait _ _ _ _ b _ id st Hs1).
  - intros [= <-]. by apply (inv_drop _ _ _ _ b).
Qed.

Lemma step_inv ev s s' : SInv s → step ev s = Ok s' → SInv s'.
Proof.
  intros Hs. destruct ev as [b o id text dir args|b res|b|b now reads|b|b|id|x|p]; [by apply ensure_inv|..]; cbn.
  - unfold send_returned. destruct (frames s !! b) as [[o id key bd e [|pending| |]]|] eqn:Hf; try done.
    destruct res as [[deps links]|].
    + intros [= <-]. by apply (inv_move _ _ _ _ b _ _ Hs Hf).
    + destruct (on_store _ s) as [[[] s1]| | |] eqn:Ho; try done. cbn. intros [= <-].
      pose proof (on_store_inv _ _ _ _ Ho Hs) as Hs1. apply on_store_frame in Ho as (_ & _ & _ & Hfr & _).
      rewrite <- Hfr in Hf. by apply (frame_ends_inv b _ _ s1 Hs1 Hf).
  - unfold run_commit. destruct (frames s !! b) as [[o id key bd e [| |pending deps links|]]|] eqn:Hf; try done.
    destruct (on_store _ s) as [[r s1]| | |] eqn:Ho; try done. cbn. intros [= <-].
    pose proof (on_store_inv _ _ _ _ Ho Hs) as Hs1. apply on_store_frame in Ho as (_ & _ & _ & Hfr & _).
    rewrite <- Hfr in Hf. by apply (inv_move _ _ _ _ b _ _ Hs1 Hf).
  - unfold commit_returned. destruct (frames s !! b) as [[o id key bd e [| | |r deps links]]|] eqn:Hf; try done.
    destruct r as [err|path]; [intros [= <-]; by apply (frame_ends_inv b _ _ s Hs Hf)|].
    destruct (capture_deps_snapshot _ _ _ _ _) as [pl snap].
    destruct (on_store _ _) as [[r s1]| | |] eqn:Ho; try done. cbn [Res_bind]. intros [= <-].
    pose proof (on_store_frame _ _ _ _ Ho) as (_ & _ & _ & Hfr & _).
    apply on_store_inv in Ho.
    + cbn in Hfr. rewrite <- Hfr in Hf. by apply (frame_ends_inv b _ _ s1 Ho Hf).
    + eapply inv_cache; [exact Hs|]. cbn. apply registers_less_insert. cbn.
      destruct (pch_cache (ws s) !! id) as [st|]; [|done]. eauto.
  - unfold wake. destruct (frames s !! b) as [[o id key bd e [| | |]]|] eqn:Hf; try done.
    case_decide; [|done]. intros [= <-]. unfold SInv.
    destruct (pch_cache (ws s) !! id); (apply (inv_drop _ _ _ _ b); [exact Hs|]); intros f Hf';
      cbn in Hf'; rewrite Hf in Hf'; by simplify_eq.
  - unfold cancel. destruct (frames s !! b) as [f|] eqn:Hf; [|done]. intros [= <-].
    destruct (is_builder f) eqn:Hb; [by apply guard_inv|].
    apply (inv_drop _ _ _ _ b); [exact Hs|]. intros f' Hf'. by simplify_eq.
  - intros [= <-]. eapply inv_cache; [exact Hs|]. apply registers_less_delete.
  - by intros [= <-].
  - by intros [= <-].
Qed.

Lemma reach_inv s : reach s → SInv s.
Proof.
  induction 1 as [w x Hw|ev s s' _ IH Hstep]; [|by eapply step_inv].
  split; cbn; try (intros; by rewrite ?lookup_empty in * ).
  intros id st e Hc Hb. specialize (Hw _ _ Hc). cbn in Hw. congruence.
Qed.

(** C5. Waiting for a header.  In every execution, also when documents are closed, preambles
    vanish, builds fail or coroutines are cancelled at any point: a registration in the table
    belongs to exactly one build that is under way; a coroutine that waits has its event set,
    so that it can run on and return, or the build that will set it is under way; and when no
    build is left, every waiting coroutine can return. *)
Theorem pch_waiters_are_woken s :
  reach s →
  (∀ id st e, pch_cache (ws s) !! id = Some st → building st = Some e →
     ∃ b f, frames s !! b = Some f ∧ is_builder f = true ∧ f_completion f = e ∧ f_id f = id ∧
       ∀ b' f', frames s !! b' = Some f' → is_builder f' = true → f_completion f' = e → b' = b) ∧
  (∀ b f, frames s !! b = Some f → is_builder f = false →
     (∃ s' r, step (Wake b) s = Ok s' ∧ frames s' = delete b (frames s) ∧ finished s' = finished s ++ [(b, r)]) ∨
     ∃ b' f', frames s !! b' = Some f' ∧ is_builder f' = true ∧ f_completion f' = f_completion f) ∧
  (map_Forall (λ _ f, is_builder f = false) (frames s) →
   ∀ b, is_Some (frames s !! b) → ∃ s' r, step (Wake b) s = Ok s' ∧ finished s' = finished s ++ [(b, r)]).
Proof.
  intros Hs%reach_inv.
  assert (∀ b f, frames s !! b = Some f → is_builder f = false → f_completion f ∈ events s →
    ∃ s' r, step (Wake b) s = Ok s' ∧ frames s' = delete b (frames s) ∧ finished s' = finished s ++ [(b, r)]) as Hwake.
  { intros b f Hf Hnb He. cbn. unfold wake. rewrite Hf. destruct f as [o id key bd e [| | |]]; try done.
    cbn in He. rewrite decide_True by done.
    destruct (pch_cache (ws s) !! id); eexists _, _; by split_and!. }
  split_and!.
  - intros id st e Hc Hb. destruct (i_registered _ _ _ _ Hs _ _ _ Hc Hb) as (b & f & Hf & Hbf & He & Hid).
    exists b, f. split_and!; try done. intros b' f' Hf' Hbf' He'.
    eapply (i_distinct _ _ _ _ Hs); [done..|congruence].
  - intros b f Hf Hnb. destruct (i_waiting _ _ _ _ Hs _ _ Hf Hnb) as [He|Hex]; [left; by eapply Hwake|by right].
  - intros Hall b [f Hf]. specialize (Hall b f Hf) as Hnb.
    destruct (i_waiting _ _ _ _ Hs _ _ Hf Hnb) as [He|(b' & f' & Hf' & Hb' & _)].
    + destruct (Hwake b f Hf Hnb He) as (s' & r & ? & _ & ?). eauto.
    + specialize (Hall _ _ Hf'). cbn in Hall. congruence.
Qed.
End reach.

(** ** A run *)

(** A lexer of single characters. *)
Fixpoint char_token (pos : Z) (rest : bytes) (line_start directive : bool) :
    RawToken * (Z * bytes * bool * bool) :=
  match rest with
  | [] =>
    if directive then (mkRawToken "eod" false pos 0, (pos, [], false, false))
    else (mkRawToken "eof" false pos 0, (pos, [], false, false))
  | c :: rest =>
    if decide (c = newline) then
      if directive then (mkRawToken "eod" false pos 0, (pos + 1, rest, true, false))
      else char_token (pos + 1) rest true false
    else (mkRawToken (if decide (c = "#"%char) then "hash" else "raw_identifier") line_start pos 1,
          (pos + 1, rest, false, directive))
  end.

#[export] Instance char_lexer : RawLexer := {
  RawState := Z * bytes * bool * bool;
  raw_lexer content _ := (0, content, true, false);
  LexFromRawLexer s := let '(pos, rest, sol, dir) := s in char_token pos rest sol dir;
  LexIncludeFilename s := let '(pos, rest, sol, dir) := s in char_token pos rest sol dir;
  setParsingPreprocessorDirective b s := let '(pos, rest, sol, _) := s in (pos, rest, sol, b);
}.

#[export] Instance mem_disk : Disk MemFs := {
  file_content w p := mem_files w !! p;
  file_mtime w p := (λ _, 0) <$> mem_files w !! p;
}.

#[local] Existing Instance example_table.
#[local] Existing Instance example_paths.

Definition length_hash (b : bytes) : Z * Z := (Z.of_nat (length b), byte_hash b mod two64).

Definition run_step : Event MemFs → Server MemFs → Res () (Server MemFs) :=
  PchBuild.step bucket_order false true 80 byte_hash length_hash
    (str "clang") (λ p, p).

Fixpoint run (evs : list (Event MemFs)) (s : Server MemFs) : Res () (Server MemFs) :=
  match evs with
  | [] => Ok s
  | ev :: evs => let? s := run_step ev s in run evs s
  end.

Definition first_text : bytes := str "#include <a>" ++ [newline].
Definition second_text : bytes := str "#include <bb>" ++ [newline].

Definition pch_workspace : Workspace :=
  mkWorkspace (intern_all empty_pool [str "/m.cpp"]).1 None ∅ ∅ ∅ ∅.

Definition pch_start : Server MemFs := start pch_workspace demo1.

Definition after_two : Server MemFs :=
  match run [Ensure 0 0 0 first_text (str "/") [str "cc"]; Ensure 1 0 0 second_text (str "/") [str "cc"]] pch_start with
  | Ok s => s
  | _ => pch_start
  end.

Lemma pch_waiters_are_woken_witness :
  ∃ b' f f', frames after_two !! 1%nat = Some f ∧ frames after_two !! b' = Some f' ∧ is_builder f' = true ∧
    f_completion f' = f_completion f.
Proof.
  set (f := mkFrame 0 0 (pch_key_of length_hash (str "clang") (λ p, p) (str "/m.cpp") second_text (str "/") 13 [str "cc"]) 13 0 Waiting).
  assert (frames after_two !! 1%nat = Some f) as Hf by (vm_compute; reflexivity).
  assert (reachable bucket_order false true 80 byte_hash length_hash
    (str "clang") (λ p, p) after_two) as Hreach.
  { eapply (reach_step _ _ _ _ _ _ _ _ (Ensure 1 0 0 second_text (str "/") [str "cc"])).
    - eapply (reach_step _ _ _ _ _ _ _ _ (Ensure 0 0 0 first_text (str "/") [str "cc"]));
        [apply (reach_start _ _ _ _ _ _ _ _ pch_workspace demo1); apply map_Forall_empty|vm_compute; reflexivity].
    - vm_compute. reflexivity. }
  destruct (pch_waiters_are_woken bucket_order false true 80 byte_hash length_hash (str "clang") (λ p, p) after_two Hreach)
    as (_ & Hwait & _).
  destruct (Hwait 1%nat f Hf eq_refl) as [(s' & r & Hs' & _)|(b' & f' & Hf' & Hb' & He')].
  - exfalso. vm_compute in Hs'. discriminate Hs'.
  - exists b', f, f'. by split_and!.
Defined.

(** A compilation whose text changed while another build of the file was under way takes
    that build's header, of another preamble, and reports success: a coroutine that was
    woken does not look at its own key again. *)
Definition with_output : Sys MemFs :=
  mkSys (store (sys after_two)) (write_file (str "r/cache/v1/tmp/42/0.pch") (str "ab") (world (sys after_two))).

Lemma waiter_takes_another_header :
  let key text bound := pch_key_of length_hash (str "clang") (λ p, p) (str "/m.cpp") text (str "/") bound [str "cc"] in
  match run [Outside with_output; SendReturned 0 (Some ([], [])); RunCommit 0; CommitReturned 0 0 (λ _, world with_output);
             Wake 1] after_two with
  | Ok s => finished s = [(0%nat, true); (1%nat, true)] ∧
      refs s !! 0%nat = Some (Some (Documents.mkPCHRef 0 (key first_text 12) 12)) ∧
      key second_text 13 ≠ key first_text 12
  | _ => False
  end.
Proof. vm_compute. split_and!; [reflexivity|reflexivity|discriminate]. Qed.
