(* ===== verification/ModuleBuild.v ===== *)
(** * Building modules (src/server/compiler/compiler.cpp: [init_compile_graph], [ensure_deps])

    The two callbacks of the module compilation graph: [resolve], which finds the files a
    module unit imports, and [dispatch], the coroutine that builds a module with a
    stateless worker and commits it to the blob store; and the loop by which [ensure_deps]
    drops modules whose blobs were evicted.  The precise scan is clang's preprocessor, a
    parameter. *)
From S2P Require Import Prelude Text CacheStore PathPool IndexData Snapshot CommandDatabase Lexer Scanner.
From S2P Require Import CachePlatform Workspace WorkspaceTheorems HeaderContext.
From S2P Require CompileGraph DependencyGraph IndexStore.
Local Open Scope Z_scope.
Local Open Scope cpp_scope.

Section modules.
Context {W : Type} `{Platform W} `{Disk W} `{CacheCodec} (ord : Order).
Context `{OptionTable} `{PathTable}.
Context (default_mask : Z) (id_order : string → Z) (sort_args : list ParsedArg → list ParsedArg).
Context (ndebug has_store : bool) (fuel : nat) (toolchain : CompileCommand → CompileCommand).
Context (scan_precise : list cstring → bytes → ScanResult).
Context (xxh3_64bits : bytes → Z) (xxh3_128 : bytes → Z * Z) (clang_version : bytes).

(** ** Imports *)

(** [deps.push_back(mod_ids[0])] where there are any. *)
Definition first_file (g : DependencyGraph.DependencyGraph) (module : bytes) : list Z :=
  match DependencyGraph.lookup_module g module with [] => [] | id :: _ => [id] end.

Definition resolve_imports (path_id : Z) (c : Compiler) : Res () (Compiler * list Z) :=
  let? file_path := read (resolve (pool c) path_id) in
  let? options := rule_options fuel file_path c in
  let? (c, results) := lookup_in default_mask id_order sort_args file_path options c in
  match results with
  | [] => Ok (c, [])
  | front :: _ =>
    let cmd := toolchain front in
    let scanned := scan_precise (to_argv cmd) (directory (resolved cmd)) in
    let deps := concat (first_file (dep_graph c) <$> modules scanned) in
    let own := if negb (bool_decide (module_name scanned = [])) && negb (is_interface_unit scanned)
               then first_file (dep_graph c) (module_name scanned) else [] in
    Ok (c, deps ++ own)
  end.

(** ** Dispatch *)

(** [std::ranges::replace(name, ':', '-')]. *)
Definition safe_module_name (name : bytes) : bytes :=
  (λ c, if decide (c = ":"%char) then "-"%char else c) <$> name.

Definition pcm_key_of (module path directory : bytes) (arguments : list bytes) : bytes :=
  safe_module_name module ++ "-"%char ::
    cache_key xxh3_128 [clang_version; directory; path; canonicalize arguments Frontend].

(** What a build is asked for. *)
Record BuildParams := mkBuildParams {
  bp_file : bytes;
  bp_directory : bytes;
  bp_arguments : list bytes;
  bp_module_name : bytes;
  bp_output_path : bytes;
  bp_pcms : gmap bytes bytes;
}.

(** The coroutine has returned, waits for the worker, or for the commit. *)
Inductive Dispatch :=
| Returned (ok : bool)
| Sent (path_id : Z) (key : bytes) (pending : PendingEntry) (params : BuildParams)
| Queued (path_id : Z) (key : bytes) (pending : PendingEntry) (deps : list bytes)
| Stored (path_id : Z) (key : bytes) (result : errc + bytes) (deps : list bytes).

Definition on_disk {A} (m : M W A) (x : Sys W) : Res () (A * Sys W) :=
  match m x with
  | (Ok a, x) => Ok (a, x)
  | (Fault, _) => Fault
  | (Err _, _) | (Stuck, _) => Stuck
  end.

(** Whether the cached module is valid. *)
Definition valid_module (path_id : Z) (key : bytes) (ws : Workspace) (x : Sys W) : Res () (option PCMState * Sys W) :=
  match pcm_cache ws !! path_id with
  | None => Ok (None, x)
  | Some st =>
    if negb (bool_decide (pcm_key st = key)) then Ok (None, x)
    else
      let? (blob, x) := on_disk (CacheStore.lookup pcm_ns key) x in
      match blob with
      | None => Ok (None, x)
      | Some _ =>
        let? changed := deps_changed xxh3_64bits (world x) (path_pool ws) (pcm_deps st) in
        Ok (if changed : bool then None else Some st, x)
      end
  end.

Definition set_pcm_path (id : Z) (p : bytes) (ws : Workspace) : Workspace :=
  mkWorkspace (path_pool ws) (compile_graph ws) (path_to_module ws) (pch_cache ws) (pcm_cache ws)
    (<[id := p]> (pcm_paths ws)).

(** [filled]: what [fill_compile_args] found for the file. *)
Definition dispatch (path_id : Z) (filled : option (bytes * list bytes)) (ws : Workspace) (x : Sys W) :
    Res () (Dispatch * Workspace * Sys W) :=
  match path_to_module ws !! path_id with
  | None => Ok (Returned false, ws, x)
  | Some name =>
    let? file_path := read (resolve (path_pool ws) path_id) in
    match filled with
    | None => Ok (Returned false, ws, x)
    | Some (directory, arguments) =>
      if negb has_store then Ok (Returned false, ws, x)
      else
        let key := pcm_key_of name file_path directory arguments in
        let? (valid, x) := valid_module path_id key ws x in
        match valid with
        | Some st => Ok (Returned true, set_pcm_path path_id (pcm_path st) ws, x)
        | None =>
          let? (pending, x) := on_disk (begin_store ndebug pcm_ns key) x in
          Ok (Sent path_id key pending
                (mkBuildParams file_path directory arguments name (p_tmp_path pending) (fill_pcm_deps ord ws path_id ∅)),
              ws, x)
        end
    end
  end.

(** The worker has answered. *)
Definition build_returned (d : Dispatch) (result : option (list bytes)) (ws : Workspace) (x : Sys W) :
    Res () (Dispatch * Workspace * Sys W) :=
  match d with
  | Sent path_id key pending _ =>
    match result with
    | None => let? (_, x) := on_disk (abort pending) x in Ok (Returned false, ws, x)
    | Some deps => Ok (Queued path_id key pending deps, ws, x)
    end
  | _ => Err tt
  end.

Definition run_commit (d : Dispatch) (ws : Workspace) (x : Sys W) : Res () (Dispatch * Workspace * Sys W) :=
  match d with
  | Queued path_id key pending deps =>
    let? (r, x) := on_disk (IndexStore.attempt (commit pending)) x in
    Ok (Stored path_id key r deps, ws, x)
  | _ => Err tt
  end.

Definition commit_returned (d : Dispatch) (now : Z) (reads : nat → W) (ws : Workspace) (x : Sys W) :
    Res () (Dispatch * Workspace * Sys W) :=
  match d with
  | Stored path_id key result deps =>
    match result with
    | inl _ => Ok (Returned false, ws, x)
    | inr path =>
      let '(pool, snap) := capture_deps_snapshot xxh3_64bits now reads (path_pool ws) deps in
      let ws := set_pcm path_id (mkPCMState path key snap) (Workspace.set_pool pool ws) in
      let? (_, x) := on_disk (save_cache ord has_store ws) x in
      Ok (Returned true, ws, x)
    end
  | _ => Err tt
  end.

(** ** Evicted modules *)

Definition path_exists (p : bytes) (x : W) : bool * W :=
  let '(r, x) := os_status p x in (match r with inr _ => true | inl _ => false end, x).

Fixpoint find_evicted (l : list (Z * bytes)) (x : W) : list Z * W :=
  match l with
  | [] => ([], x)
  | (pid, pcm) :: l =>
    let '(there, x) := path_exists pcm x in
    let '(rest, x) := find_evicted l x in
    (if there then rest else pid :: rest, x)
  end.

Fixpoint drop_evicted (evicted : list Z) (ws : Workspace) : Res () Workspace :=
  match evicted with
  | [] => Ok ws
  | pid :: evicted =>
    match compile_graph ws with
    | None => drop_evicted evicted ws
    | Some g =>
      match CompileGraph.update pid g with
      | None => Stuck
      | Some (g, dirtied) =>
        drop_evicted evicted (erase_pcm (foldl erase_pcm (set_graph g ws) dirtied) pid)
      end
    end
  end.

(** One attempt of [ensure_deps], up to the compilation of the dependencies: [None] when
    the set is stable and the loop ends. *)
Definition revalidate (attempt : nat) (ws : Workspace) (x : W) : Res () (option Workspace * W) :=
  let '(evicted, x) := find_evicted (entries ord (pcm_paths ws)) x in
  match attempt, evicted with
  | S _, [] => Ok (None, x)
  | _, _ => let? ws := drop_evicted evicted ws in Ok (Some ws, x)
  end.

(** How the loop ends: a wait reported a failure, a later scan missed no file, or the last
    attempt is over. *)
Inductive LoopEnd := Failed | Stable | Exhausted.

(** [co_await compile_deps(path_id)]: what the attempt's wait makes of the workspace and of the
    disk, whatever other coroutines do meanwhile. *)
Context (compile_deps : nat → Workspace → W → Res () (bool * Workspace * W)).

(** The loop of [ensure_deps], with the states in which its waits begin. *)
Fixpoint ensure_modules (remaining attempt : nat) (ws : Workspace) (x : W) :
    Res () (LoopEnd * list (Workspace * W) * Workspace * W) :=
  match remaining with
  | O => Ok (Exhausted, [], ws, x)
  | S remaining =>
    let? (r, x) := revalidate attempt ws x in
    match r with
    | None => Ok (Stable, [], ws, x)
    | Some ws =>
      let? (ok, ws', x') := compile_deps attempt ws x in
      if negb ok then Ok (Failed, [(ws, x)], ws', x')
      else
        let? (e, waits, ws', x') := ensure_modules remaining (S attempt) ws' x' in
        Ok (e, (ws, x) :: waits, ws', x')
    end
  end.

(** [for(int attempt = 0; attempt < 3; ++attempt)] *)
Definition ensure_deps_modules : Workspace → W → Res () (LoopEnd * list (Workspace * W) * Workspace * W) :=
  ensure_modules 3 0.
End modules.

(** ** What is left after a revalidation *)

(** One update dirties the unit it starts from and cleans nothing. *)
Lemma update_dirties g p :
  CompileGraph.edges_ok g →
  ∃ g' d, CompileGraph.update p g = Some (g', d) ∧ CompileGraph.edges_ok g' ∧
    (∀ x u, CompileGraph.units g !! x = Some u → ∃ u', CompileGraph.units g' !! x = Some u' ∧
       (CompileGraph.dirty u = true ∨ rtc (λ a b, b ∈ CompileGraph.dependents_of g a) p x →
        CompileGraph.dirty u' = true)) ∧
    (∀ x, x ∈ d ↔ is_Some (CompileGraph.units g !! x) ∧ rtc (λ a b, b ∈ CompileGraph.dependents_of g a) p x).
Proof.
  intros Hok. destruct (CompileGraph.update_run g Hok p) as (g' & d & visited & Hup & Hrel & Hvis).
  exists g', d. split; [done|].
  assert (p ∈ visited) as Hp by (apply Hvis; reflexivity).
  split; [by eapply CompileGraph.update_rel_edges|]. destruct Hrel as [Hu [_ Hd] _ _ _]. split.
  - intros x u Hx. specialize (Hu x). rewrite Hx in Hu. destruct Hu as (src & Hg & _). eexists. split; [exact Hg|].
    cbn. intros [Hdirty|Hr%Hvis]; [|by rewrite decide_True].
    by case_decide.
  - intros x. rewrite Hd, Hvis. naive_solver.
Qed.

(** The modules that are dropped, and the rest. *)
Definition keeps_modules (ws ws' : Workspace) (gone : Z → Prop) : Prop :=
  (∀ id p, pcm_paths ws' !! id = Some p → pcm_paths ws !! id = Some p ∧ ¬ gone id) ∧
  (∀ id st, pcm_cache ws' !! id = Some st → pcm_cache ws !! id = Some st ∧ ¬ gone id) ∧
  pch_cache ws' = pch_cache ws ∧ path_to_module ws' = path_to_module ws ∧ path_pool ws' = path_pool ws.

Lemma erase_pcms_pool ids ws :
  path_pool (foldl erase_pcm ws ids) = path_pool ws ∧ compile_graph (foldl erase_pcm ws ids) = compile_graph ws.
Proof. revert ws. induction ids as [|i ids IH]; intros ws; cbn; [done|]. destruct (IH (erase_pcm ws i)) as [-> ->]. done. Qed.

Lemma drop_one ws g' d pid :
  keeps_modules ws (erase_pcm (foldl erase_pcm (set_graph g' ws) d) pid) (λ id, id = pid ∨ id ∈ d).
Proof.
  destruct (erase_pcms d (set_graph g' ws)) as (H1 & H2 & H3 & H4).
  destruct (erase_pcms_pool d (set_graph g' ws)) as [H5 _].
  split_and!; [| |done..]; cbn; intros id y [Hne Hl]%lookup_delete_Some; rewrite ?H1, ?H2 in Hl; case_decide; try done;
    (split; [done|naive_solver]).
Qed.

Lemma drop_evicted_ok evicted ws g :
  compile_graph ws = Some g → CompileGraph.edges_ok g →
  ∃ ws' g', drop_evicted evicted ws = Ok ws' ∧ compile_graph ws' = Some g' ∧ CompileGraph.edges_ok g' ∧
    keeps_modules ws ws' (λ id, id ∈ evicted) ∧
    (∀ x u, CompileGraph.units g !! x = Some u → ∃ u', CompileGraph.units g' !! x = Some u' ∧
       (CompileGraph.dirty u = true ∨ x ∈ evicted → CompileGraph.dirty u' = true)).
Proof.
  revert ws g. induction evicted as [|pid evicted IH]; intros ws g Hg Hok; cbn [drop_evicted].
  { exists ws, g. split; [done|]. split; [done|]. split; [done|]. split.
    - split_and!; [intros; split; [done|apply not_elem_of_nil]..|done|done|done].
    - intros x u Hx. exists u. split; [done|]. by intros [?|?%elem_of_nil]. }
  rewrite Hg. destruct (update_dirties g pid Hok) as (g1 & d & -> & Hok1 & Hdirty & _).
  destruct (IH (erase_pcm (foldl erase_pcm (set_graph g1 ws) d) pid) g1) as (ws' & g' & Hdrop & Hg' & Hok' & Hk & Hd').
  { cbn. by destruct (erase_pcms_pool d (set_graph g1 ws)) as [_ ->]. }
  { done. }
  exists ws', g'. split_and!; [done..| |].
  - destruct (drop_one ws g1 d pid) as (K1 & K2 & K3 & K4 & K5). destruct Hk as (L1 & L2 & L3 & L4 & L5).
    split_and!; [| |congruence..].
    + intros id p Hl. destruct (L1 id p Hl) as [Hl1 Hn]. destruct (K1 id p Hl1) as [? ?]. split; [done|]. set_solver.
    + intros id p Hl. destruct (L2 id p Hl) as [Hl1 Hn]. destruct (K2 id p Hl1) as [? ?]. split; [done|]. set_solver.
  - intros x u Hx. destruct (Hdirty x u Hx) as (u1 & Hu1 & Hd1). destruct (Hd' x u1 Hu1) as (u' & Hu' & Hd2).
    exists u'. split; [done|]. intros [Hdu|[-> |Hin]%elem_of_cons]; apply Hd2; [left; apply Hd1; by left| |by right].
    left. apply Hd1. right. reflexivity.
Qed.

Section revalidation.
Context {W : Type} `{PlatformLaws W} (ord : Order).

Lemma find_evicted_ok l (x : W) :
  let '(evicted, x') := find_evicted l x in
  (∀ q, node_at x' q = node_at x q) ∧
  (∀ id p, (id, p) ∈ l → node_at x p = None → id ∈ evicted) ∧ (∀ id, id ∈ evicted → id ∈ l.*1).
Proof.
  revert x. induction l as [|[pid pcm] l IH]; intros x; cbn [find_evicted]; [set_solver|].
  unfold path_exists. pose proof (status_law pcm x) as [Hs Hst]. destruct (os_status pcm x) as [st x1]. cbn in Hs, Hst.
  specialize (IH x1). destruct (find_evicted l x1) as [rest x2]. destruct IH as (H1' & H2' & H3').
  split_and!; [intros q; by rewrite H1', Hs| |].
  - intros id p [[= -> ->]|Hin]%elem_of_cons Hn.
    + rewrite Hn in Hst. destruct Hst as [e ->]. set_solver.
    + assert (id ∈ rest) by (apply (H2' id p); [done|by rewrite Hs]). destruct st; set_solver.
  - intros id Hin. cbn. destruct st; set_solver.
Qed.

(** One scan. *)
Lemma revalidate_ok ws g attempt (x : W) :
  compile_graph ws = Some g → CompileGraph.edges_ok g →
  ∃ r x', revalidate ord attempt ws x = Ok (r, x') ∧
    let after := default ws r in
    (∀ id p, pcm_paths after !! id = Some p → pcm_paths ws !! id = Some p ∧ is_Some (node_at x' p)) ∧
    (∀ id st, pcm_cache after !! id = Some st → pcm_cache ws !! id = Some st) ∧
    (r = None → (0 < attempt)%nat) ∧
    ∃ g', compile_graph after = Some g' ∧ CompileGraph.edges_ok g' ∧
      ∀ id p u, pcm_paths ws !! id = Some p → node_at x p = None → CompileGraph.units g !! id = Some u →
        pcm_paths after !! id = None ∧
        ∃ u', CompileGraph.units g' !! id = Some u' ∧ CompileGraph.dirty u' = true.
Proof.
  intros Hg Hok. unfold revalidate. pose proof (find_evicted_ok (entries ord (pcm_paths ws)) x) as Hev.
  destruct (find_evicted _ x) as [evicted x']. destruct Hev as (Hs & Hin & _).
  assert (∀ id p, pcm_paths ws !! id = Some p → node_at x p = None → id ∈ evicted) as Hgone.
  { intros id p Hp. apply (Hin id p). by apply elem_of_entries. }
  assert (∀ p, node_at x p ≠ None → is_Some (node_at x' p)) as Hsome.
  { intros p Hp. rewrite Hs. by destruct (node_at x p); [eexists|]. }
  assert (∀ l, evicted = l → (let? ws' := drop_evicted l ws in Ok (Some ws', x')) =
    match attempt, evicted with S _, [] => Ok (None, x') | _, _ => let? ws' := drop_evicted evicted ws in Ok (Some ws', x') end ∨
    l = [] ∧ (0 < attempt)%nat) as Hcase.
  { intros l <-. destruct attempt as [|a], evicted; [by left..|right|by left]. split; [done|lia]. }
  destruct (Hcase evicted eq_refl) as [<-|[-> Ha]].
  - destruct (drop_evicted_ok evicted ws g Hg Hok) as (ws' & g' & -> & Hg' & Hok' & (K1 & K2 & _) & Hdirty).
    exists (Some ws'), x'. split; [done|]. cbn. split_and!; [| |done|].
    + intros id p Hp. destruct (K1 id p Hp) as [Hp' Hn]. split; [done|]. apply Hsome. intros Hnone.
      apply Hn. by eapply Hgone.
    + intros id st Hst. by apply (K2 id st).
    + exists g'. split_and!; [done..|]. intros id p u Hp Hn Hu. split.
      { destruct (pcm_paths ws' !! id) as [q|] eqn:Hq; [|done]. destruct (K1 id q Hq) as [_ Hx].
        exfalso. apply Hx. by apply (Hgone id p). }
      destruct (Hdirty id u Hu) as (u' & ? & Hd).
      exists u'. split; [done|]. apply Hd. right. by eapply Hgone.
  - destruct attempt as [|a]; [lia|]. exists None, x'. split; [done|]. cbn. split_and!; [|done|lia|].
    + intros id p Hp. split; [done|]. apply Hsome. intros Hn. by apply (Hgone id p) in Hn; [apply elem_of_nil in Hn|].
    + exists g. split_and!; [done..|]. intros id p u Hp Hn. by apply (Hgone id p) in Hn; [apply elem_of_nil in Hn|].
Qed.

Context (compile_deps : nat → Workspace → W → Res () (bool * Workspace * W)).

(** A workspace with a well-formed graph. *)
Definition has_graph (ws : Workspace) : Prop :=
  ∃ g, compile_graph ws = Some g ∧ CompileGraph.edges_ok g.

(** Every wait returns, with a well-formed graph. *)
Definition waits_return : Prop :=
  ∀ k ws x, has_graph ws → ∃ ok ws' x', compile_deps k ws x = Ok (ok, ws', x') ∧ has_graph ws'.

Definition files_exist (ws : Workspace) (x : W) : Prop :=
  ∀ id p, pcm_paths ws !! id = Some p → is_Some (node_at x p).

Lemma ensure_modules_ok remaining attempt ws x :
  waits_return → has_graph ws →
  ∃ e waits ws' x', ensure_modules ord compile_deps remaining attempt ws x = Ok (e, waits, ws', x') ∧
    has_graph ws' ∧ (length waits ≤ remaining)%nat ∧ (attempt = 0 → remaining ≠ 0 → waits ≠ [])%nat ∧
    Forall (λ w, files_exist w.1 w.2) waits ∧ (e = Stable → files_exist ws' x') ∧
    (e = Exhausted → length waits = remaining).
Proof.
  intros Hret. revert attempt ws x. induction remaining as [|remaining IH]; intros attempt ws x Hgr; cbn [ensure_modules].
  { eexists _, [], ws, x. split; [done|]. split_and!; done. }
  destruct Hgr as (g & Hg & Hok).
  destruct (revalidate_ok ws g attempt x Hg Hok) as (r & x1 & -> & Hp & _ & Hnone & g1 & Hg1 & Hok1 & _).
  cbn [Res_bind]. destruct r as [ws1|]; cbn [default] in *.
  - assert (files_exist ws1 x1) as Hfiles by (intros id p Hid; by apply (Hp id p)).
    destruct (Hret attempt ws1 x1) as (ok & ws2 & x2 & -> & Hgr2); [by exists g1|]. cbn [Res_bind].
    destruct ok; cbn [negb].
    + destruct (IH (S attempt) ws2 x2 Hgr2) as (e & waits & ws' & x' & -> & Hgr' & Hlen & _ & Hall & Hst & Hex).
      cbn [Res_bind]. eexists _, _, ws', x'. split; [done|]. split_and!; [done|cbn; lia|done|by constructor|done|].
      intros He. cbn. by rewrite (Hex He).
    + eexists _, _, ws2, x2. split; [done|]. split_and!; [done|cbn; lia|done|by repeat constructor|done|done].
  - eexists _, [], ws, x1. split; [done|]. split_and!; [by exists g|cbn; lia| |done| |done].
    + intros ->. specialize (Hnone eq_refl). lia.
    + intros _ id p Hid. by apply (Hp id p).
Qed.

(** C19. Modules whose blobs are gone: the loop of [ensure_deps].  Whatever its waits for the
    dependencies make of the workspace and of the disk (evicting further blobs included), as
    long as each returns and leaves the module graph well-formed, the loop ends, with one to
    three waits; when a wait begins, every module that is then recorded has its file on disk;
    a module whose file was gone at the start is no longer recorded when the first wait
    begins, and its unit is dirty, so that the wait builds it again; when the loop ends because
    a scan missed nothing, every recorded module has its file at that moment, and it ends with
    neither this nor a failed wait only after three waits.  This says nothing of the waits that
    follow the loop (the imports of the buffer and the PCH), which can evict again before the
    paths are passed on. *)
Theorem recorded_modules_exist ws g (x : W) :
  compile_graph ws = Some g → CompileGraph.edges_ok g → waits_return →
  ∃ e waits ws' x', ensure_deps_modules ord compile_deps ws x = Ok (e, waits, ws', x') ∧
    (1 ≤ length waits ≤ 3)%nat ∧ Forall (λ w, files_exist w.1 w.2) waits ∧
    (e = Stable → files_exist ws' x') ∧ (e = Exhausted → length waits = 3%nat) ∧
    ∀ id p u, pcm_paths ws !! id = Some p → node_at x p = None → CompileGraph.units g !! id = Some u →
      ∃ ws1 x1 g1 u1, head waits = Some (ws1, x1) ∧ pcm_paths ws1 !! id = None ∧
        compile_graph ws1 = Some g1 ∧ CompileGraph.units g1 !! id = Some u1 ∧ CompileGraph.dirty u1 = true.
Proof.
  intros Hg Hok Hret.
  destruct (ensure_modules_ok 3 0 ws x Hret (ex_intro _ g (conj Hg Hok)))
    as (e & waits & ws' & x' & Hrun & _ & Hlen & Hne & Hall & Hst & Hex).
  exists e, waits, ws', x'. specialize (Hne eq_refl ltac:(done)).
  split; [done|]. split; [destruct waits; [done|cbn in *; lia]|]. split; [done|]. split; [done|]. split; [done|].
  intros id p u Hp Hn Hu.
  assert (∃ n, ensure_modules ord compile_deps (S n) 0 ws x = Ok (e, waits, ws', x')) as [n Hrun'] by (by exists 2%nat).
  clear Hrun Hlen Hex. rename Hrun' into Hrun. cbn [ensure_modules] in Hrun.
  destruct (revalidate_ok ws g 0 x Hg Hok) as (r & x1 & Hr & _ & _ & Hnone & g1 & Hg1 & _ & Hdrop).
  rewrite Hr in Hrun. cbn [Res_bind] in Hrun. destruct r as [ws1|]; [|by specialize (Hnone eq_refl); lia].
  destruct (Hdrop id p u Hp Hn Hu) as (Hgone & u1 & Hu1 & Hd1). exists ws1, x1, g1, u1.
  split_and!; try done.
  destruct (compile_deps 0 ws1 x1) as [[[ok ws2] x2]| | |]; [|done..]. cbn [Res_bind] in Hrun.
  destruct ok; cbn [negb] in Hrun; [|by injection Hrun as _ <- _ _].
  destruct (ensure_modules ord compile_deps n 1 ws2 x2) as [[[[e2 w2] ws3] x3]| | |]; [|done..].
  by injection Hrun as _ <- _ _.
Qed.
End revalidation.


(** What the tables say of a module after its build: nothing new when the commit failed,
    and otherwise the committed blob under the key of the build. *)
Lemma module_is_recorded {W} `{Platform W} `{Disk W} `{CacheCodec} ord has_store hash d now (reads : nat → W) ws x d' ws' x' :
  commit_returned ord has_store hash d now reads ws x = Ok (d', ws', x') →
  ∃ id key result deps, d = Stored id key result deps ∧
    match result with
    | inl _ => d' = Returned false ∧ ws' = ws
    | inr path => d' = Returned true ∧ pcm_paths ws' !! id = Some path ∧
        ∃ snap, pcm_cache ws' !! id = Some (mkPCMState path key snap) ∧
          ∀ i, i ≠ id → pcm_cache ws' !! i = pcm_cache ws !! i ∧ pcm_paths ws' !! i = pcm_paths ws !! i
    end.
Proof.
  unfold commit_returned. destruct d as [| | |id key result deps]; try done. intros Hc.
  exists id, key, result, deps. split; [done|]. destruct result as [err|path]; [by injection Hc as <- <- <-|].
  destruct (capture_deps_snapshot _ _ _ _ _) as [pl snap]. destruct (on_disk _ _) as [[r x1]| | |]; try done.
  injection Hc as <- <- <-. cbn. split; [done|]. split; [by rewrite lookup_insert_eq|]. exists snap.
  split; [by rewrite lookup_insert_eq|]. intros i Hi. by rewrite !lookup_insert_ne.
Qed.

(** Module 2 is imported by 1; the file of 2 is gone. *)
Definition two_modules : Workspace :=
  mkWorkspace (intern_all empty_pool [str "/o"; str "/a.cppm"; str "/b.cppm"]).1 (Some CompileGraph.sample_units) ∅ ∅ ∅
    {[1 := str "/a.pcm"; 2 := str "/b.pcm"]}.

Definition one_file : MemFs := mkMemFs {[str "/a.pcm" := str "x"]} ∅ ∅ 0.

(** The first wait builds both modules again; committing the second evicts the blob of the
    first. *)
Definition evicting_wait (k : nat) (ws : Workspace) (x : MemFs) : Res () (bool * Workspace * MemFs) :=
  match k with
  | O => Ok (true, set_pcm_path 2 (str "/b.pcm") (set_pcm_path 1 (str "/a.pcm") ws), mkMemFs {[str "/b.pcm" := str "y"]} ∅ ∅ 0)
  | _ => Ok (true, ws, x)
  end.

Lemma evicting_wait_returns : waits_return evicting_wait.
Proof.
  intros k ws x (g & Hg & Hok). destruct k; [|by eexists true, ws, x; split; [|exists g]].
  eexists _, _, _. split; [reflexivity|]. by exists g.
Qed.

Lemma recorded_modules_exist_witness :
  ∃ e waits ws' x', ensure_deps_modules bucket_order evicting_wait two_modules one_file = Ok (e, waits, ws', x') ∧
    e = Stable ∧ length waits = 2%nat ∧ files_exist ws' x' ∧ pcm_paths ws' !! 1 = None.
Proof.
  destruct (recorded_modules_exist bucket_order evicting_wait two_modules CompileGraph.sample_units one_file)
    as (e & waits & ws' & x' & Hrun & _ & _ & Hst & _ & _).
  - reflexivity.
  - apply CompileGraph.ensure_resolved_edges_ok, CompileGraph.edges_ok_empty.
  - apply evicting_wait_returns.
  - assert (∃ w s y, ensure_deps_modules bucket_order evicting_wait two_modules one_file = Ok (Stable, w, s, y) ∧
      length w = 2%nat ∧ pcm_paths s !! 1 = None) as (w & s & y & Hrun' & Hw & Hs).
    { eexists _, _, _. split; [vm_compute; reflexivity|]. split; vm_compute; reflexivity. }
    rewrite Hrun in Hrun'. injection Hrun' as -> -> -> ->.
    exists Stable, w, s, y. split; [exact Hrun|]. split; [reflexivity|]. split; [exact Hw|]. split; [|exact Hs].
    exact (Hst eq_refl).
Defined.
