(* ===== verification/Toolchain.v ===== *)
(** * Tool chain queries (src/command/toolchain.{h,cpp})

    Driver commands are turned into commands of clang's frontend by asking the driver
    once per kind of command and remembering the answer.  What a driver, the process
    runtime and clang's driver library do is a class over a world [W], which the queries
    thread; a query that runs concurrently with others sees some world of its own, here
    the one the queries before it in the list have left. *)
From S2P Require Import Prelude Text PathPool IndexData CacheTheorems CommandDatabase CommandTheorems IncludeResolver.
From S2P Require CacheStore.
Local Open Scope Z_scope.
Local Open Scope cpp_scope.

(** ** Families of drivers *)

Inductive CompilerFamily := Unknown | GCC | Clang | MSVC | ClangCL | NVCC | Intel | Zig.
Global Instance CompilerFamily_eq_dec : EqDecision CompilerFamily.
Proof. solve_decision. Defined.

(** [try_get]. *)
Definition try_get (name : bytes) : CompilerFamily :=
  if bool_decide (name = str "cl") then MSVC
  else if bool_decide (name = str "nvcc") then NVCC
  else if ends_with (str "clang-cl") name then ClangCL
  else if ends_with (str "clang") name || ends_with (str "clang++") name then Clang
  else if occurs (str "icpc") name || occurs (str "icc") name || occurs (str "dpcpp") name
          || occurs (str "icx") name then Intel
  else if ends_with (str "cc") name || ends_with (str "c++") name || ends_with (str "gcc") name
          || ends_with (str "g++") name then GCC
  else if ends_with (str "zig") name then Zig
  else Unknown.

Definition consume_back (suffix name : bytes) : bytes :=
  if ends_with suffix name then take (length name - length suffix) name else name.

(** [rtrim(set)]. *)
Definition rtrim_set (set name : bytes) : bytes := reverse (drop_while (one_of set) (reverse name)).

(** [slice(0, rfind('-'))]: all of it where there is no dash. *)
Definition before_last_dash (name : bytes) : bytes :=
  match find_if (λ c, bool_decide (c = "-"%char)) (reverse name) with
  | Some i => take (length name - S i) name
  | None => name
  end.

(** The first family that is known, else the last result. *)
Definition or_else (f g : CompilerFamily) : CompilerFamily := if decide (f = Unknown) then g else f.

Section toolchain.
Context `{OptionTable} `{PathTable}.

Definition driver_family (driver : bytes) : CompilerFamily :=
  let name := path_name driver in
  let unsuffixed := consume_back (str ".exe") name in
  let unversioned := rtrim_set (str "0123456789.-") unsuffixed in
  or_else (try_get name) (or_else (try_get unsuffixed) (or_else (try_get unversioned)
    (try_get (before_last_dash unversioned)))).

(** ** Asking a driver *)

(** What a child process did: it could not be started; or it wrote to its pipes, read in
    chunks ([None] is a read error), and its end was awaited. *)
Inductive Child :=
| SpawnFailed (message : bytes)
| Ran (out err : list (option bytes)) (exit : bytes + Z).

(** A step of the world with a result. *)
Class Drivers (W : Type) := {
  spawn : bytes → list bytes → W → Child * W;
  find_program : bytes → W → option bytes * W;
  (** [fs::exists] and [fs::can_execute] *)
  executable : bytes → W → bool * W;
  (** an error message or the path of the new file *)
  create_temporary : bytes → W → (bytes + bytes) * W;
  remove_temporary : bytes → W → W;
  (** the jobs of clang's driver, each with the name of the tool that made it *)
  build_compilation : list cstring → W → option (list (bytes * list bytes)) * W;
  (** greedy parsing with the visibility of the frontend: identifier, first and last argument *)
  parse_cc1_args : list bytes → list (nat + string * nat * nat);
  (** the number of an option *)
  option_number : string → Z;
  extension : bytes → bytes;
}.

Context {W : Type} `{Drivers W}.

Fixpoint drain_pipe (chunks : list (option bytes)) (buf : bytes) : bytes :=
  match chunks with
  | Some (c :: chunk) :: rest => drain_pipe rest (buf ++ c :: chunk)
  | _ => buf
  end.

(** The first argument names the program; there is one in every call. *)
Definition execute_async (arguments : list bytes) (capture_stdout : bool) (w : W) :
    Res () ((bytes + bytes) * W) :=
  let? file := read (head arguments) in
  let '(child, w) := spawn file arguments w in
  Ok (match child with
      | SpawnFailed m => inl (str "Failed to spawn " ++ file ++ str ": " ++ m)
      | Ran out err exit =>
        match exit with
        | inl m => inl (str "Process wait failed: " ++ m)
        | inr status =>
          if decide (status ≠ 0) then
            inl (str "Process " ++ file ++ str " exited with code " ++ CacheStore.decimal status)
          else inr (drain_pipe (if capture_stdout then out else err) [])
        end
      end, w).

(** The driver and the arguments of the first job clang itself has. *)
Definition query_driver (arguments : list cstring) (w : W) : Res () ((bytes + bytes * list bytes) * W) :=
  match arguments with
  | [] => Fault
  | None :: _ => Fault
  | Some driver :: rest =>
    let '(compilation, w) := build_compilation (Some driver :: Some (str "-fsyntax-only") :: rest) w in
    Ok (match compilation with
        | None => inl (str "Failed to build compilation for " ++ driver)
        | Some jobs =>
          match list_find (λ job, job.1 = str "clang") jobs with
          | None => inl (str "No clang job found for " ++ driver)
          | Some (_, (_, cc1)) => inr (driver, cc1)
          end
        end, w)
  end.

Definition raw_tokens (raw : list bytes) (index next : nat) : Res () (list bytes) :=
  for_each (seq index (next - index)) (λ i acc, let? s := read (raw !! i) in Ok (acc ++ [s])) [].

(** The options this clang knows. *)
Fixpoint known_tokens (raw : list bytes) (rs : list (nat + string * nat * nat)) : Res () (list bytes) :=
  match rs with
  | [] => Ok []
  | inl _ :: rs => known_tokens raw rs
  | inr (id, index, next) :: rs =>
    let? first := if decide (id = "UNKNOWN"%string) then Ok [] else raw_tokens raw index next in
    let? rest := known_tokens raw rs in Ok (first ++ rest)
  end.

Definition quote : ascii := ascii_of_nat 34.

Fixpoint parse_cc1_lines (lines : list bytes) : Res () (list bytes) :=
  match lines with
  | [] => Ok []
  | line :: lines =>
    let line := trim line in
    if decide (head line = Some quote) then
      match TokenizeGNUCommandLine line with
      | first :: second :: raw =>
        if decide (second = str "-cc1") then
          let? known := known_tokens raw (parse_cc1_args raw) in Ok (first :: second :: known)
        else parse_cc1_lines lines
      | _ => parse_cc1_lines lines
      end
    else parse_cc1_lines lines
  end.

Definition parse_cc1_output (content : bytes) : Res () (list bytes) :=
  parse_cc1_lines (filter (.≠ []) (split_on newline content)).

(** The directory on the [install:] line of [-print-search-dirs]. *)
Fixpoint install_path (lines : list bytes) : bytes :=
  match lines with
  | [] => []
  | line :: lines =>
    let line := trim line in
    if bool_decide (to_lower <$> take 8 line = str "install:") then trim (drop 8 line)
    else install_path lines
  end.

Definition query_gcc (driver : bytes) (rest : list cstring) (w : W) : Res () ((bytes + list bytes) * W) :=
  let? (target, w) := execute_async [driver; str "-dumpmachine"] true w in
  match target with
  | inl e => Ok (inl e, w)
  | inr target =>
    let? (dirs, w) := execute_async [driver; str "-print-search-dirs"] true w in
    match dirs with
    | inl e => Ok (inl e, w)
    | inr dirs =>
      let path := install_path (filter (.≠ []) (split_on newline dirs)) in
      let? (queried, w) := query_driver (Some driver :: Some (str "--target=" ++ trim target)
                                           :: Some (str "--gcc-install-dir=" ++ path) :: rest) w in
      Ok (match queried with inl e => inl e | inr (d, cc1) => inr (d :: str "-cc1" :: cc1) end, w)
    end
  end.

Definition query_clang (zig : bool) (args : list cstring) (w : W) : Res () ((bytes + list bytes) * W) :=
  let count := if zig then 2%nat else 1%nat in
  let? exec_args := to_strings (take count args ++ Some (str "-###") :: Some (str "-fsyntax-only") :: drop count args) in
  let? (content, w) := execute_async exec_args false w in
  match content with
  | inl e => Ok (inl e, w)
  | inr content => let? cc1 := parse_cc1_output content in Ok (inr cc1, w)
  end.

Definition query_family (driver : bytes) (rest : list cstring) (w : W) : Res () ((bytes + list bytes) * W) :=
  match driver_family driver with
  | GCC => query_gcc driver rest w
  | Clang => query_clang false (Some driver :: rest) w
  | Zig => query_clang true (Some driver :: rest) w
  | MSVC | ClangCL =>
    let? (queried, w) := query_driver (Some driver :: Some (str "--driver-mode=cl") :: rest) w in
    Ok (match queried with inl e => inl e | inr (d, cc1) => inr (d :: cc1) end, w)
  | _ =>
    let? (queried, w) := query_driver (Some driver :: rest) w in
    Ok (match queried with inl e => inl e | inr (d, cc1) => inr (d :: str "-cc1" :: cc1) end, w)
  end.

(** What refers to the temporary file. *)
Definition probe_arg (src_path s : bytes) : bool :=
  bool_decide (s = src_path) || bool_decide (s = str "-fmodules-reduced-bmi") || starts_with (str "-fmodule-output") s.

Definition consume_dot (ext : bytes) : bytes :=
  match ext with c :: e => if decide (c = "."%char) then e else ext | [] => [] end.

(** The path of the driver, searched where it is not absolute. *)
Definition find_driver (driver : bytes) (w : W) : (bytes + bytes) * W :=
  let '(found, w) := if is_absolute driver then (Some driver, w) else find_program driver w in
  match found with
  | None => (inl (str "Cannot find driver: " ++ driver), w)
  | Some driver =>
    let '(ok, w) := executable driver w in
    (if ok : bool then inr driver else inl (str "Driver " ++ driver ++ str " not found or not executable"), w)
  end.

Definition query_one (arguments : list cstring) (file : bytes) (w : W) : Res () ((bytes + list bytes) * W) :=
  match arguments with
  | [] => Ok (inl (str "Empty arguments"), w)
  | first :: rest =>
    let '(found, w) := find_driver (default [] first) w in
    match found with
    | inl e => Ok (inl e, w)
    | inr driver =>
      let '(temp, w) := create_temporary (consume_dot (extension file)) w in
      match temp with
      | inl e => Ok (inl (str "Failed to create temp file: " ++ e), w)
      | inr src_path =>
        let? (answer, w) := query_family driver (rest ++ [Some src_path]) w in
        let w := remove_temporary src_path w in
        Ok (match answer with
            | inl e => inl e
            | inr cc1 =>
              match filter (λ s, probe_arg src_path s = false) cc1 with
              | [] => inl (str "No cc1 args produced for " ++ file)
              | cc1 => inr cc1
              end
            end, w)
      end
    end
  end.

(** ** Answers that are kept *)

Record Toolchain := mkToolchain { cache : gmap bytes (list cstring); failed : gmap bytes bytes }.

Definition empty_toolchain : Toolchain := mkToolchain ∅ ∅.

(** The part of a key an option contributes. *)
Definition key_part (arg : ParsedArg) : bytes :=
  fragment (CacheStore.decimal (option_number (arg_id arg))) ++ concat (fragment <$> arg_values arg).

(** The options of a command: those the user's own files are about, or the others. *)
Definition options_of (user : bool) (driver : bytes) (args : list bytes) : list ParsedArg :=
  filter (λ a, is_user_content_option (arg_id a) = user) (parsed (parse true (default_visibility driver) args)).

Definition rendered (args : list ParsedArg) : list cstring := concat ((λ a, save_string <$> render a) <$> args).

(** The key and the arguments of a query; a null pointer among the arguments is undefined
    behaviour, and so is an empty list. *)
Definition extract_flags (file : bytes) (arguments : list cstring) : Res () (bytes * list cstring) :=
  let? first := read (head arguments) in
  let? driver := read first in
  let? parse_args := to_strings (tail arguments) in
  let args := options_of false driver parse_args in
  Ok (fragment driver ++ fragment (extension file) ++ concat (key_part <$> args), Some driver :: rendered args).

(** ** Resolution of a command *)

Definition flag_resource_dir : bytes := str "-resource-dir".
Definition flag_main_file : bytes := str "-main-file-name".

(** The value of the first [-resource-dir] that is not the last argument. *)
Fixpoint old_resource_dir (fs : list cstring) : bytes :=
  match fs with
  | a :: (b :: _) as rest => if decide (a = Some flag_resource_dir) then default [] b else old_resource_dir rest
  | _ => []
  end.

Definition relocate (old : bytes) (arg : cstring) : cstring :=
  let s := default [] arg in
  if starts_with old s then save_string (resource_dir ++ drop (length old) s) else arg.

Definition replace_resource_dir (fs : list cstring) : list cstring :=
  if decide (resource_dir = []) then fs
  else
    let old := old_resource_dir fs in
    if decide (old ≠ [] ∧ old ≠ resource_dir) then relocate old <$> fs else fs.

Fixpoint strip_main_file (fs : list cstring) : list cstring :=
  match fs with
  | a :: (_ :: rest) as l => if decide (a = Some flag_main_file) then strip_main_file rest else a :: strip_main_file l
  | _ => fs
  end.

Definition file_of (cmd : CompileCommand) : bytes := default [] (source_file cmd).

(** [try_emplace] of an answer. *)
Definition add_answer (t : Toolchain) (key : bytes) (result : bytes + list bytes) : Toolchain :=
  match result with
  | inl e => mkToolchain (cache t) (try_emplace (failed t) key e)
  | inr args => mkToolchain (try_emplace (cache t) key (save_string <$> args)) (failed t)
  end.

(** The rewriting of a command by a cached answer. *)
Definition patch_command (cmd : CompileCommand) (cached : list cstring) : Res () CompileCommand :=
  let fs := flags (resolved cmd) in
  let? first := read (head fs) in
  let? driver := read first in
  let? args := to_strings (tail fs) in
  let new_flags := replace_resource_dir cached ++ rendered (options_of true driver args) in
  let cleaned := strip_main_file new_flags in
  Ok (mkCompileCommand (mkResolvedFlags (directory (resolved cmd)) cleaned (bool_decide (Some (str "-cc1") ∈ cleaned)))
        (source_file cmd)).

(** The error message, if any, beside what is left behind. *)
Definition resolve (cmd : CompileCommand) (t : Toolchain) (w : W) :
    Res () (option bytes * CompileCommand * Toolchain * W) :=
  match flags (resolved cmd) with
  | [] => Ok (Some (str "empty flags"), cmd, t, w)
  | fs =>
    let? (key, query_args) := extract_flags (file_of cmd) fs in
    match cache t !! key with
    | Some cached => let? cmd := patch_command cmd cached in Ok (None, cmd, t, w)
    | None =>
      match failed t !! key with
      | Some e => Ok (Some e, cmd, t, w)
      | None =>
        let? (result, w) := query_one query_args (file_of cmd) w in
        let t := add_answer t key result in
        match result with
        | inl e => Ok (Some e, cmd, t, w)
        | inr args => let? cmd := patch_command cmd (save_string <$> args) in Ok (None, cmd, t, w)
        end
      end
    end
  end.

Definition resolve_or_warn (cmd : CompileCommand) (t : Toolchain) (w : W) : Res () (CompileCommand * Toolchain * W) :=
  let? (_, cmd, t, w) := resolve cmd t w in Ok (cmd, t, w).

Definition has_cache (t : Toolchain) : bool := negb (bool_decide (cache t = ∅)).

(** ** Asking ahead *)

Record PendingQuery := mkPending { q_key : bytes; q_args : list cstring; q_file : bytes }.

Definition known (t : Toolchain) (key : bytes) : bool :=
  bool_decide (is_Some (cache t !! key)) || bool_decide (is_Some (failed t !! key)).

Fixpoint pending_queries (cmds : list CompileCommand) (t : Toolchain) (seen : gset bytes) :
    Res () (list PendingQuery) :=
  match cmds with
  | [] => Ok []
  | cmd :: cmds =>
    match flags (resolved cmd) with
    | [] => pending_queries cmds t seen
    | fs =>
      let? (key, query_args) := extract_flags (file_of cmd) fs in
      if known t key || bool_decide (key ∈ seen) then pending_queries cmds t seen
      else let? rest := pending_queries cmds t ({[key]} ∪ seen) in
           Ok (mkPending key query_args (file_of cmd) :: rest)
    end
  end.

Fixpoint run_queries (pending : list PendingQuery) (w : W) : Res () (list (bytes * (bytes + list bytes)) * W) :=
  match pending with
  | [] => Ok ([], w)
  | q :: pending =>
    let? (result, w) := query_one (q_args q) (q_file q) w in
    let? (outcomes, w) := run_queries pending w in
    Ok ((q_key q, result) :: outcomes, w)
  end.

Definition warm (cmds : list CompileCommand) (t : Toolchain) (w : W) : Res () (Toolchain * W) :=
  let? pending := pending_queries cmds t ∅ in
  let? (outcomes, w) := run_queries pending w in
  Ok (foldl (λ t o, add_answer t o.1 o.2) t outcomes, w).
End toolchain.

(** ** Queries end *)

Lemma to_strings_ok (l : list bytes) : to_strings (Some <$> l) = Ok l.
Proof.
  unfold to_strings.
  assert (∀ acc, for_each (Some <$> l) (λ a acc, let? s := read a in Ok (E := ()) (acc ++ [s])) acc = Ok (acc ++ l)) as ->; [|done].
  induction l as [|s l IH]; intros acc; cbn; [by rewrite app_nil_r|].
  by rewrite IH, <- app_assoc.
Qed.

Section queries.
Context `{OptionTable} `{PathTable} {W : Type} `{Drivers W}.

(** The parser names arguments it was given. *)
Definition parser_in_range : Prop :=
  ∀ raw id index next, inr (id, index, next) ∈ parse_cc1_args raw → (next ≤ length raw)%nat.

Lemma raw_tokens_ok (raw : list bytes) index next :
  (next ≤ length raw)%nat → ∃ l, raw_tokens raw index next = Ok l.
Proof.
  intros Hn. unfold raw_tokens.
  destruct (for_each_range (E := ()) (λ _ _, True) index (next - index)
    (λ i acc, let? s := read (raw !! i) in Ok (acc ++ [s])) []) as (l & Hl & _); [done| |by exists l].
  intros i acc Hi _. destruct (lookup_lt_is_Some_2 raw i) as [s Hs]; [lia|]. rewrite Hs. by eexists.
Qed.

Lemma known_tokens_ok raw rs :
  (∀ id index next, inr (id, index, next) ∈ rs → (next ≤ length raw)%nat) → ∃ l, known_tokens raw rs = Ok l.
Proof.
  intros Hr. induction rs as [|[i|[[id index] next]] rs IH]; cbn [known_tokens]; [by eexists| |].
  { apply IH. intros ??? Hin. eapply Hr. by right. }
  destruct IH as [l Hl]; [intros ??? Hin; eapply Hr; by right|]. rewrite Hl.
  destruct (raw_tokens_ok raw index next) as [l' Hl']; [eapply Hr; by left|].
  rewrite Hl'. case_decide; by eexists.
Qed.

Lemma parse_cc1_output_ok content : parser_in_range → ∃ l, parse_cc1_output content = Ok l.
Proof.
  intros Hp. unfold parse_cc1_output. generalize (filter (.≠ []) (split_on newline content)).
  induction l as [|line l IH]; cbn [parse_cc1_lines]; [by eexists|].
  case_decide; [|done]. destruct (TokenizeGNUCommandLine (trim line)) as [|a [|b raw]]; [done..|].
  case_decide; [|done]. destruct (known_tokens_ok raw (parse_cc1_args raw)) as [k Hk]; [intros ??? Hin; by eapply Hp|].
  rewrite Hk. by eexists.
Qed.

Lemma execute_async_ok driver args b (w : W) : ∃ r w', execute_async (driver :: args) b w = Ok (r, w').
Proof. unfold execute_async. cbn. destruct (spawn _ _ w). by eexists _, _. Qed.

Lemma query_driver_ok driver args (w : W) : ∃ r w', query_driver (Some driver :: args) w = Ok (r, w').
Proof. cbn. destruct (build_compilation _ w). by eexists _, _. Qed.

Lemma query_gcc_ok driver args (w : W) : ∃ r w', query_gcc driver args w = Ok (r, w').
Proof.
  unfold query_gcc. destruct (execute_async_ok driver [str "-dumpmachine"] true w) as (r & w1 & ->). cbn [Res_bind].
  destruct r as [e|target]; [by eexists _, _|].
  destruct (execute_async_ok driver [str "-print-search-dirs"] true w1) as (r & w2 & ->). cbn [Res_bind].
  destruct r as [e|dirs]; [by eexists _, _|].
  match goal with |- context [query_driver (Some driver :: ?args) w2] =>
    destruct (query_driver_ok driver args w2) as (q & w3 & ->) end. by eexists _, _.
Qed.

Lemma query_clang_ok zig driver args (w : W) :
  parser_in_range → ∃ r w', query_clang zig (Some driver :: (Some <$> args)) w = Ok (r, w').
Proof.
  intros Hp. unfold query_clang.
  set (count := if zig then 2%nat else 1%nat).
  assert (take count (Some driver :: (Some <$> args)) ++ Some (str "-###") :: Some (str "-fsyntax-only")
            :: drop count (Some driver :: (Some <$> args))
          = Some <$> take count (driver :: args) ++ str "-###" :: str "-fsyntax-only" :: drop count (driver :: args)) as ->.
  { rewrite fmap_app, !fmap_cons, fmap_take, fmap_drop. done. }
  rewrite to_strings_ok. cbn [Res_bind].
  assert (∃ first rest, take count (driver :: args) ++ str "-###" :: str "-fsyntax-only" :: drop count (driver :: args)
    = first :: rest) as (first & rest & ->) by (subst count; destruct zig; cbn; by eexists _, _).
  destruct (execute_async_ok first rest false w) as (r & w1 & ->). cbn [Res_bind].
  destruct r as [e|content]; [by eexists _, _|].
  destruct (parse_cc1_output_ok content Hp) as [l ->]. by eexists _, _.
Qed.

Lemma query_one_ok driver args file (w : W) :
  parser_in_range → ∃ r w', query_one (Some driver :: (Some <$> args)) file w = Ok (r, w').
Proof.
  intros Hp. unfold query_one. change (default [] (Some driver)) with driver. destruct (find_driver driver w) as [[e|d] w1]; [by eexists _, _|].
  destruct (create_temporary _ w1) as [[e|src] w2]; [by eexists _, _|].
  assert ((Some <$> args) ++ [Some src] = Some <$> args ++ [src]) as -> by (by rewrite fmap_app).
  assert (∃ r w', query_family d (Some <$> args ++ [src]) w2 = Ok (r, w')) as (r & w3 & ->); [|by eexists _, _].
  unfold query_family. destruct (driver_family d);
    [| apply query_gcc_ok | by apply query_clang_ok | | | | | by apply query_clang_ok ];
    match goal with |- context [query_driver (Some d :: ?l) w2] => destruct (query_driver_ok d l w2) as (q & w3 & ->) end;
    by eexists _, _.
Qed.

(** ** Keys *)

(** A command without null pointers, whose options have no empty part. *)
Definition sane (cmd : CompileCommand) : Prop :=
  ∃ driver args, flags (resolved cmd) = Some driver :: (Some <$> args) ∧
    Forall (λ a, Forall (.≠ []) (render a)) (parsed (parse true (default_visibility driver) args)).

(** What the command says about the user's own files. *)
Definition user_flags (cmd : CompileCommand) : list cstring :=
  match flags (resolved cmd) with
  | Some driver :: rest => rendered (options_of true driver (omap id rest))
  | _ => []
  end.

Lemma omap_Some {A} (l : list A) : omap id (Some <$> l) = l.
Proof. induction l as [|a l IH]; cbn; [done|by f_equal]. Qed.

Lemma rendered_ok args :
  Forall (λ a, Forall (.≠ []) (render a)) args → rendered args = Some <$> concat (render <$> args).
Proof.
  intros Ha. unfold rendered. induction Ha as [|a args Ha _ IH]; [done|]. cbn [fmap list_fmap concat].
  rewrite fmap_app, IH. f_equal. clear IH. induction Ha as [|s l Hs _ IH]; [done|]. cbn. rewrite <- IH. by destruct s.
Qed.

Lemma extract_flags_ok cmd :
  sane cmd → ∃ driver args key, extract_flags (file_of cmd) (flags (resolved cmd)) = Ok (key, Some driver :: (Some <$> args)).
Proof.
  intros (driver & args & Hf & Hr). rewrite Hf. unfold extract_flags. cbn [head tail read Res_bind].
  rewrite to_strings_ok. cbn [Res_bind]. rewrite rendered_ok; [by eexists _, _, _|].
  unfold options_of. rewrite Forall_forall in *. intros a [_ Ha]%list_elem_of_filter. by apply Hr.
Qed.

(** A C string has no null character inside, so a list of them is read back. *)
Lemma fragments_inj (l1 l2 : list bytes) :
  Forall (nul ∉.) l1 → Forall (nul ∉.) l2 → concat (fragment <$> l1) = concat (fragment <$> l2) → l1 = l2.
Proof using Type.
  intros H1'. revert l2. induction H1' as [|s l1 Hs _ IH]; intros [|s' l2]; cbn [fmap list_fmap concat]; [done|..].
  - intros _ Heq. apply (f_equal length) in Heq. unfold fragment in Heq. rewrite !length_app in Heq. cbn in Heq. lia.
  - intros _ Heq. apply (f_equal length) in Heq. unfold fragment in Heq. rewrite !length_app in Heq. cbn in Heq. lia.
  - intros [Hs' Hl]%Forall_cons. unfold fragment. rewrite <- !app_assoc. cbn [app]. intros Heq.
    assert (s = s') as <-; [|f_equal; apply IH; [done|by simplify_list_eq]].
    clear IH Hl. revert s' Hs' Heq. induction s as [|c s IHs]; intros [|c' s'] Hs' Heq; cbn in Heq; simplify_list_eq; [done|set_solver..|].
    f_equal. apply IHs; [set_solver|set_solver|done].
Qed.

(** The number of an option and its values. *)
Definition key_tokens (args : list ParsedArg) : list bytes :=
  concat ((λ a, CacheStore.decimal (option_number (arg_id a)) :: arg_values a) <$> args).

Lemma key_parts_tokens args : concat (key_part <$> args) = concat (fragment <$> key_tokens args).
Proof.
  induction args as [|a args IH]; [done|]. unfold key_tokens in *. cbn [fmap list_fmap concat].
  rewrite IH, fmap_app, concat_app. done.
Qed.

(** Commands with one key ask the same question: what is sent to the driver is the same, and
    so is the suffix of the probe, as long as options have a number of values that their
    identifier fixes, and are printed from identifier and values. *)
Lemma same_key_same_query c1 c2 driver1 driver2 l1 l2 key a1 a2 :
  flags (resolved c1) = Some driver1 :: (Some <$> l1) → flags (resolved c2) = Some driver2 :: (Some <$> l2) →
  let o1 := options_of false driver1 l1 in let o2 := options_of false driver2 l2 in
  (∀ id id', option_number id = option_number id' → id = id') →
  (∀ a b, a ∈ o1 → b ∈ o2 → arg_id a = arg_id b → length (arg_values a) = length (arg_values b)) →
  (∀ a b, a ∈ o1 → b ∈ o2 → arg_id a = arg_id b → arg_values a = arg_values b → render a = render b) →
  Forall (nul ∉.) (driver1 :: extension (file_of c1) :: key_tokens o1) →
  Forall (nul ∉.) (driver2 :: extension (file_of c2) :: key_tokens o2) →
  extract_flags (file_of c1) (flags (resolved c1)) = Ok (key, a1) →
  extract_flags (file_of c2) (flags (resolved c2)) = Ok (key, a2) →
  a1 = a2 ∧ extension (file_of c1) = extension (file_of c2).
Proof.
  intros -> -> o1 o2 Hnum Har Hren Hn1 Hn2. unfold extract_flags. cbn [head tail read Res_bind].
  rewrite !to_strings_ok. cbn [Res_bind]. fold o1 o2. intros Heq1 Heq2.
  injection Heq1 as Hk1 <-. injection Heq2 as Hk2 <-. rewrite <- Hk2, !key_parts_tokens in Hk1.
  assert (driver1 :: extension (file_of c1) :: key_tokens o1 = driver2 :: extension (file_of c2) :: key_tokens o2) as Heq
    by (by apply fragments_inj).
  injection Heq as -> Hext Htok. split; [|done]. f_equal. clear Hk1 Hk2 Hn1 Hn2 Hext key.
  revert Htok Har Hren. generalize o1 o2. clear o1 o2. induction o1 as [|a o1 IH]; intros [|b o2]; [done..|].
  unfold key_tokens, rendered in *. cbn [fmap list_fmap concat app]. intros Htok Har Hren. injection Htok as Hid Hval.
  assert (arg_id a = arg_id b) as Hab by (by apply Hnum, decimal_inj).
  apply app_inj_1 in Hval as [Hv Htok]; [|by apply Har; [left|left|]].
  rewrite (Hren a b) by (done || by left). f_equal. apply IH; [done|..].
  - intros x y ???. apply Har; [by right|by right|done].
  - intros x y ????. apply Hren; [by right|by right|done|done].
Qed.

(** ** Asking ahead *)

(** What is known under a key. *)
Definition answered (t : Toolchain) (key : bytes) (r : bytes + list bytes) : Prop :=
  match r with
  | inl e => failed t !! key = Some e ∧ cache t !! key = None
  | inr l => cache t !! key = Some (save_string <$> l) ∧ failed t !! key = None
  end.

(** No key has both an answer and an error. *)
Definition toolchain_ok (t : Toolchain) : Prop := ∀ key, cache t !! key = None ∨ failed t !! key = None.

Definition key_of (cmd : CompileCommand) (key : bytes) (args : list cstring) : Prop :=
  flags (resolved cmd) ≠ [] ∧ extract_flags (file_of cmd) (flags (resolved cmd)) = Ok (key, args).

Lemma pending_queries_ok cmds t seen :
  Forall (λ c, flags (resolved c) ≠ [] → sane c) cmds →
  ∃ pending, pending_queries cmds t seen = Ok pending ∧ NoDup (q_key <$> pending) ∧
    (∀ q, q ∈ pending → known t (q_key q) = false ∧ (q_key q ∉ seen) ∧
       ∃ cmd, cmd ∈ cmds ∧ key_of cmd (q_key q) (q_args q) ∧ q_file q = file_of cmd) ∧
    (∀ cmd key args, cmd ∈ cmds → key_of cmd key args →
       known t key = true ∨ key ∈ seen ∨ key ∈ (q_key <$> pending)).
Proof.
  revert seen. induction cmds as [|cmd cmds IH]; intros seen Hs; cbn [pending_queries].
  { exists []. split_and!; [done|constructor|set_solver|set_solver]. }
  apply Forall_cons in Hs as [Hc Hs].
  destruct (flags (resolved cmd)) as [|f fs] eqn:Hf.
  { destruct (IH seen Hs) as (p & Hp & Hnd & H1' & H2'). exists p. split_and!; [done|done| |].
    - intros q Hq. destruct (H1' q Hq) as (? & ? & c & ? & ? & ?). split_and!; [done..|]. exists c. split_and!; [set_solver|done..].
    - intros c key args [-> |Hin]%elem_of_cons [Hne Hk]; [by rewrite Hf in Hne|by eapply H2']. }
  destruct (extract_flags_ok cmd) as (driver & args & key & Hk); [by apply Hc|]. rewrite Hf in Hk. rewrite Hk. cbn [Res_bind].
  assert (key_of cmd key (Some driver :: (Some <$> args))) as Hkey by (split; rewrite Hf; done).
  destruct (known t key || bool_decide (key ∈ seen)) eqn:Hkn.
  - destruct (IH seen Hs) as (p & Hp & Hnd & H1' & H2'). exists p. split_and!; [done|done| |].
    + intros q Hq. destruct (H1' q Hq) as (? & ? & c & ? & ? & ?). split_and!; [done..|]. exists c. split_and!; [set_solver|done..].
    + intros c k a [-> |Hin]%elem_of_cons Hka; [|by eapply H2'].
      destruct Hka as [_ Hka]. rewrite Hf, Hk in Hka. simplify_eq.
      apply orb_true_iff in Hkn as [?|?%bool_decide_eq_true]; auto.
  - apply orb_false_iff in Hkn as [Hkn Hseen%bool_decide_eq_false].
    destruct (IH ({[key]} ∪ seen) Hs) as (p & Hp & Hnd & H1' & H2'). rewrite Hp. eexists. split; [done|]. split_and!.
    + cbn. constructor; [|done]. intros (q & Heq & Hq)%list_elem_of_fmap.
      destruct (H1' q Hq) as (_ & Hns & _). rewrite <- Heq in Hns. set_solver.
    + intros q [-> |Hq]%elem_of_cons.
      * split_and!; [done..|]. exists cmd. split_and!; [set_solver|done..].
      * destruct (H1' q Hq) as (? & ? & c & ? & ? & ?). split_and!; [done|set_solver|]. exists c. split_and!; [set_solver|done..].
    + intros c k a [-> |Hin]%elem_of_cons Hka.
      * destruct Hka as [_ Hka]. rewrite Hf, Hk in Hka. simplify_eq. right; right. cbn. set_solver.
      * destruct (H2' c k a Hin Hka) as [?|[?|?]]; [auto| |cbn; set_solver]. cbn; set_solver.
Qed.

Lemma run_queries_ok pending (w : W) :
  (∀ q, q ∈ pending → ∀ w0 : W, ∃ r w', query_one (q_args q) (q_file q) w0 = Ok (r, w')) →
  ∃ outcomes w', run_queries pending w = Ok (outcomes, w') ∧ outcomes.*1 = q_key <$> pending ∧
    ∀ key r, (key, r) ∈ outcomes → ∃ q (w1 w2 : W), q ∈ pending ∧ q_key q = key ∧ query_one (q_args q) (q_file q) w1 = Ok (r, w2).
Proof.
  revert w. induction pending as [|q pending IH]; intros w Hq; cbn [run_queries].
  { eexists [], w. split_and!; [done..|]. set_solver. }
  destruct (Hq q ltac:(set_solver) w) as (r & w1 & Hr). rewrite Hr. cbn [Res_bind].
  destruct (IH w1) as (outcomes & w2 & -> & Hk & Ho); [set_solver|]. cbn [Res_bind].
  eexists _, _. split; [done|]. split; [cbn; by f_equal|].
  intros key r' [[= -> ->]|Hin]%elem_of_cons; [exists q, w, w1; set_solver|].
  destruct (Ho _ _ Hin) as (q' & ? & ? & ? & ? & ?). exists q'. eexists _, _. split_and!; [set_solver|done..].
Qed.

Lemma add_answers_ok outcomes t :
  NoDup outcomes.*1 → (∀ key, key ∈ outcomes.*1 → cache t !! key = None ∧ failed t !! key = None) →
  let t' := foldl (λ t o, add_answer t o.1 o.2) t outcomes in
  (∀ key r, (key, r) ∈ outcomes → answered t' key r) ∧
  (∀ key, key ∉ outcomes.*1 → cache t' !! key = cache t !! key ∧ failed t' !! key = failed t !! key).
Proof.
  revert t. induction outcomes as [|[k r] os IH]; intros t Hnd Hnew; cbn [foldl fst snd]; [split; [set_solver|done]|].
  cbn in Hnd, Hnew. apply NoDup_cons in Hnd as [Hk Hnd].
  destruct (Hnew k ltac:(set_solver)) as [Hc Hf].
  assert (∀ key, key ≠ k → cache (add_answer t k r) !! key = cache t !! key ∧ failed (add_answer t k r) !! key = failed t !! key) as Hother.
  { intros key Hne. destruct r; cbn; unfold try_emplace; [rewrite Hf|rewrite Hc]; by rewrite lookup_insert_ne. }
  destruct (IH (add_answer t k r)) as [H1' H2']; [done| |].
  { intros key Hin. destruct (Hother key) as [-> ->]; [intros ->; done|]. apply Hnew. by right. }
  split.
  - intros key r' [[= -> ->]|Hin]%elem_of_cons; [|by apply H1'].
    destruct (H2' k Hk) as [Ha Hb]. unfold answered. cbn in Ha, Hb |- *. rewrite Ha, Hb.
    destruct r; cbn; unfold try_emplace; [rewrite Hf|rewrite Hc]; rewrite lookup_insert_eq; done.
  - intros key [Hne Hni]%not_elem_of_cons. destruct (H2' key Hni) as [-> ->]. by apply Hother.
Qed.

(** ** Rewriting *)

Lemma strip_main_file_cons a b l :
  strip_main_file (a :: b :: l) =
    if decide (a = Some flag_main_file) then strip_main_file l else a :: strip_main_file (b :: l).
Proof using Type. done. Qed.

Lemma strip_main_file_app a b :
  last a ≠ Some (Some flag_main_file) → Some flag_main_file ∉ b →
  strip_main_file (a ++ b) = strip_main_file a ++ b ∧ Some flag_main_file ∉ strip_main_file a.
Proof using Type.
  intros Ha Hb. assert (∀ l, Some flag_main_file ∉ l → strip_main_file l = l) as Hid.
  { clear. induction l as [|x l IH]; [done|]. intros [Hx Hl]%not_elem_of_cons. destruct l as [|y l]; [done|].
    rewrite strip_main_file_cons, decide_False by done. f_equal. by apply IH. }
  remember (length a) as n eqn:Hn. revert a Hn Ha. induction n as [n IH] using lt_wf_ind. intros a -> Ha.
  destruct a as [|x [|y a]]; cbn [app].
  - cbn. split; [by apply Hid|set_solver].
  - rewrite (Hid (x :: b)); [|set_solver]. cbn. split; [done|set_solver].
  - rewrite !strip_main_file_cons. case_decide as Hx.
    + apply (IH (length a)); [cbn; lia|done|]. destruct a as [|z a]; [done|]. by cbn in Ha.
    + destruct (IH (length (y :: a))) with (a := y :: a) as [Heq Hni]; [cbn; lia|done|done|].
      cbn [app] in Heq. rewrite Heq. split; [done|set_solver].
Qed.

(** After the rewriting the resource directory is that of this clang. *)
Lemma relocate_ok old (fs : list cstring) :
  resource_dir ≠ [] → old ≠ [] → starts_with old flag_resource_dir = false → old_resource_dir fs = old →
  (∀ rest, resource_dir ++ rest ≠ flag_resource_dir) →
  old_resource_dir (relocate old <$> fs) = resource_dir.
Proof.
  intros Hr Ho Hs Hold Hd. induction fs as [|a [|b fs] IH]; cbn [old_resource_dir] in Hold; [congruence..|].
  cbn [fmap list_fmap old_resource_dir]. case_decide as Ha.
  - subst a. assert (relocate old (Some flag_resource_dir) = Some flag_resource_dir) as ->.
    { unfold relocate. change (default [] (Some flag_resource_dir)) with flag_resource_dir. by rewrite Hs. }
    rewrite decide_True by done. unfold relocate. rewrite Hold.
    assert (starts_with old old = true) as -> by (unfold starts_with; rewrite firstn_all; by apply bool_decide_eq_true).
    rewrite drop_all, app_nil_r. by destruct resource_dir.
  - rewrite decide_False; [by apply IH|]. unfold relocate. destruct (starts_with old (default [] a)) eqn:Hsa; [|done].
    destruct (resource_dir ++ drop (length old) (default [] a)) as [|c s] eqn:Hc; [done|].
    change (save_string (c :: s)) with (Some (c :: s)). intros Heq. apply (Hd (drop (length old) (default [] a))). rewrite Hc. congruence.
Qed.

Lemma replace_resource_dir_ok (fs : list cstring) :
  resource_dir ≠ [] → (∀ rest, resource_dir ++ rest ≠ flag_resource_dir) →
  old_resource_dir fs ≠ [] → starts_with (old_resource_dir fs) flag_resource_dir = false →
  old_resource_dir (replace_resource_dir fs) = resource_dir.
Proof.
  intros Hr Hd Ho Hs. unfold replace_resource_dir. rewrite decide_False by done. case_decide as Hc; [by apply relocate_ok|].
  destruct (decide (old_resource_dir fs = resource_dir)); [done|tauto].
Qed.

Lemma patch_command_ok cmd cc1 :
  sane cmd → ∃ cmd', patch_command cmd cc1 = Ok cmd' ∧ source_file cmd' = source_file cmd ∧
    directory (resolved cmd') = directory (resolved cmd) ∧
    flags (resolved cmd') = strip_main_file (replace_resource_dir cc1 ++ user_flags cmd) ∧
    (is_cc1 (resolved cmd') = true ↔ Some (str "-cc1") ∈ flags (resolved cmd')).
Proof.
  intros (driver & args & Hf & _). unfold patch_command, user_flags. rewrite Hf. cbn [head tail read Res_bind].
  rewrite to_strings_ok, omap_Some. cbn [Res_bind]. eexists. split_and!; [done..|]. cbn. apply bool_decide_eq_true.
Qed.

(** A known command is resolved without asking again. *)
Lemma resolve_known cmd key args t (w : W) :
  sane cmd → key_of cmd key args → known t key = true →
  match cache t !! key with
  | Some cc1 => ∃ cmd', resolve cmd t w = Ok (None, cmd', t, w) ∧ patch_command cmd cc1 = Ok cmd'
  | None => ∃ e, failed t !! key = Some e ∧ resolve cmd t w = Ok (Some e, cmd, t, w)
  end.
Proof.
  intros Hs [Hne Hk] Hkn. unfold resolve. destruct (flags (resolved cmd)) as [|f fs] eqn:Hf; [done|]. rewrite Hk. cbn [Res_bind].
  destruct (cache t !! key) as [cc1|] eqn:Hc.
  - destruct (patch_command_ok cmd cc1 Hs) as (cmd' & Hp & _). rewrite Hp. by exists cmd'.
  - unfold known in Hkn. rewrite Hc in Hkn. cbn in Hkn. apply bool_decide_eq_true in Hkn as [e He]. exists e. by rewrite He.
Qed.

(** What a resolved command looks like, given the answer of the driver: it has the answer
    without the name of the probe and with this clang's resource directory, and then the
    options the command has for the user's own files, in their order. *)
Definition resolved_to (cmd : CompileCommand) (cc1 : list cstring) (cmd' : CompileCommand) : Prop :=
  source_file cmd' = source_file cmd ∧ directory (resolved cmd') = directory (resolved cmd) ∧
  (is_cc1 (resolved cmd') = true ↔ Some (str "-cc1") ∈ flags (resolved cmd')) ∧
  (last (replace_resource_dir cc1) ≠ Some (Some flag_main_file) → Some flag_main_file ∉ user_flags cmd →
   flags (resolved cmd') = strip_main_file (replace_resource_dir cc1) ++ user_flags cmd ∧
   Some flag_main_file ∉ flags (resolved cmd')) ∧
  (resource_dir ≠ [] → (∀ rest, resource_dir ++ rest ≠ flag_resource_dir) →
   old_resource_dir cc1 ≠ [] → starts_with (old_resource_dir cc1) flag_resource_dir = false →
   old_resource_dir (replace_resource_dir cc1) = resource_dir).

Lemma patch_resolved_to cmd cc1 cmd' : sane cmd → patch_command cmd cc1 = Ok cmd' → resolved_to cmd cc1 cmd'.
Proof.
  intros Hs Hp. destruct (patch_command_ok cmd cc1 Hs) as (c & Hp' & Hsrc & Hdir & Hfl & Hcc). rewrite Hp in Hp'. injection Hp' as <-.
  refine (conj Hsrc (conj Hdir (conj Hcc (conj _ (replace_resource_dir_ok cc1))))).
  intros Hl Hu. destruct (strip_main_file_app (replace_resource_dir cc1) (user_flags cmd) Hl Hu) as [Heq Hni].
  rewrite Hfl, Heq. split; [done|]. intros [?|?]%elem_of_app; done.
Qed.

Lemma known_false t key : known t key = false ↔ cache t !! key = None ∧ failed t !! key = None.
Proof. unfold known. by rewrite orb_false_iff, !bool_decide_eq_false, !eq_None_not_Some. Qed.

(** What warming leaves: old entries are kept, and every key of the commands is known from
    before or by an answer to one of them. *)
Lemma warm_ok cmds t (w : W) :
  parser_in_range → Forall (λ c, flags (resolved c) ≠ [] → sane c) cmds →
  ∃ t' w', warm cmds t w = Ok (t', w') ∧
    (∀ key, (∃ r, known t key = false ∧ answered t' key r) ∨
            (cache t' !! key = cache t !! key ∧ failed t' !! key = failed t !! key)) ∧
    ∀ cmd key args, cmd ∈ cmds → key_of cmd key args →
      known t' key = true ∧
      (known t key = true ∨
       ∃ asked args' r (w1 w2 : W), asked ∈ cmds ∧ key_of asked key args' ∧
         query_one args' (file_of asked) w1 = Ok (r, w2) ∧ answered t' key r).
Proof.
  intros Hp Hs. unfold warm.
  destruct (pending_queries_ok cmds t ∅ Hs) as (pending & -> & Hnd & Hpend & Hall). cbn [Res_bind].
  destruct (run_queries_ok pending w) as (outcomes & w' & -> & Hkeys & Hout).
  { intros q Hq w0. destruct (Hpend q Hq) as (_ & _ & c & Hc & [Hne Hk] & ->).
    rewrite Forall_forall in Hs. destruct (extract_flags_ok c) as (d & a & k & Hk'); [by apply Hs|].
    rewrite Hk in Hk'. injection Hk' as _ ->. by apply query_one_ok. }
  cbn [Res_bind].
  destruct (add_answers_ok outcomes t) as [Hans Hkeep]; [by rewrite Hkeys| |].
  { intros key. rewrite Hkeys. intros (q & -> & Hq)%list_elem_of_fmap. apply known_false. by apply Hpend. }
  set (t' := foldl _ t outcomes) in *. exists t', w'. split; [done|].
  assert (∀ key, key ∈ outcomes.*1 → known t key = false ∧ ∃ r, (key, r) ∈ outcomes) as Hnew.
  { intros key Hin. split; [|apply list_elem_of_fmap in Hin as ([k r] & -> & ?); by exists r].
    rewrite Hkeys in Hin. apply list_elem_of_fmap in Hin as (q & -> & Hq). by apply Hpend. }
  split.
  - intros key. destruct (decide (key ∈ outcomes.*1)) as [Hin|Hni]; [left|right; by apply Hkeep].
    destruct (Hnew key Hin) as [? [r Hr]]. exists r. split; [done|by apply Hans].
  - intros cmd key args Hc Hkey. destruct (Hall cmd key _ Hc Hkey) as [Hkn|[?|Hin]]; [|set_solver|].
    + split; [|by left]. assert (key ∉ outcomes.*1) as Hni by (intros Hin; by destruct (Hnew key Hin); congruence).
      unfold known. by destruct (Hkeep key Hni) as [-> ->].
    + rewrite <- Hkeys in Hin. destruct (Hnew key Hin) as [_ [r Hr]]. specialize (Hans _ _ Hr).
      destruct (Hout _ _ Hr) as (q & w1 & w2 & Hq & <- & Hquery).
      destruct (Hpend q Hq) as (_ & _ & asked & Hasked & Hka & Hfile). rewrite Hfile in Hquery.
      split; [unfold known; destruct r; cbn in Hans; destruct Hans as [-> ->]; done|].
      right. by eexists _, _, _, _, _.
Qed.

(** A null pointer among the arguments of a command is undefined behaviour. *)
Lemma to_strings_null l : None ∈ l → to_strings l = Fault.
Proof.
  unfold to_strings. intros Hin.
  assert (∀ acc, for_each l (λ a acc, let? s := read a in Ok (E := ()) (acc ++ [s])) acc = Fault) as ->; [|done].
  induction l as [|[s|] l IH]; intros acc; cbn; [by apply elem_of_nil in Hin| |done].
  apply IH. by apply elem_of_cons in Hin as [?|?].
Qed.

Lemma extract_flags_null file fs : None ∈ fs → extract_flags file fs = Fault.
Proof.
  intros Hin. destruct fs as [|[d|] fs]; [by apply elem_of_nil in Hin| |done].
  apply elem_of_cons in Hin as [?|Hin]; [done|]. unfold extract_flags. cbn [head tail read Res_bind].
  by rewrite to_strings_null.
Qed.

Lemma extract_flags_cases file fs : extract_flags file fs = Fault ∨ ∃ r, extract_flags file fs = Ok r.
Proof.
  destruct fs as [|[d|] fs]; [by left| |by left]. unfold extract_flags. cbn [head tail read Res_bind].
  destruct (decide (None ∈ fs)) as [Hin|Hni]; [left; by rewrite to_strings_null|right].
  assert (∃ l, fs = Some <$> l) as [l ->]; [|rewrite to_strings_ok; by eexists].
  clear -Hni. induction fs as [|[s|] fs IH]; [by exists []| |by destruct Hni; left].
  destruct IH as [l ->]; [intros Hin; apply Hni; by right|]. by exists (s :: l).
Qed.

Lemma pending_queries_null cmds t seen :
  (∃ cmd, cmd ∈ cmds ∧ None ∈ flags (resolved cmd)) → pending_queries cmds t seen = Fault.
Proof.
  intros (cmd & Hc & Hn). revert seen. induction cmds as [|c cmds IH]; intros seen; [by apply elem_of_nil in Hc|].
  cbn [pending_queries]. apply elem_of_cons in Hc as [<-|Hc].
  - destruct (flags (resolved cmd)) as [|f fs] eqn:Hf; [by apply elem_of_nil in Hn|].
    by rewrite extract_flags_null.
  - destruct (flags (resolved c)) as [|f fs]; [by apply IH|].
    destruct (extract_flags_cases (file_of c) (f :: fs)) as [->|[[key args] ->]]; [done|]. cbn [Res_bind].
    destruct (_ || _); [by apply IH|]. by rewrite IH.
Qed.

(** C21. Asking ahead, with an option parser that only names arguments it was given and
    drivers that end (how long one runs is not modelled), from tables that never have both an
    answer and an error for a key.  If no command has an empty string among its arguments or
    their rendering: warming ends, keeps what was known and still has at most one of the two
    per key; afterwards each of its commands that has flags is resolved without asking a
    driver, with nothing changed: with the error or by the answer that was known before, or
    that the driver gave when it was asked for one of the commands with the same key; and
    the resolved command is the answer with this clang's resource directory and without the
    name of the probe, followed by the command's own include paths and macros (the first
    unless [-resource-dir] itself begins with the driver's directory or this clang's begins
    it, the second unless [-main-file-name] ends the answer or is among the command's own
    flags).  If some
    command has the null pointer an empty argument is stored as, warming dereferences it. *)
Theorem warmed_commands_resolve cmds t (w : W) :
  parser_in_range → toolchain_ok t →
  (Forall (λ c, flags (resolved c) ≠ [] → sane c) cmds →
   ∃ t' w', warm cmds t w = Ok (t', w') ∧ toolchain_ok t' ∧ cache t ⊆ cache t' ∧ failed t ⊆ failed t' ∧
    ∀ cmd, cmd ∈ cmds → flags (resolved cmd) ≠ [] →
      ∃ key args, key_of cmd key args ∧
        (known t key = true ∨
         ∃ asked args' r (w1 w2 : W), asked ∈ cmds ∧ key_of asked key args' ∧
           query_one args' (file_of asked) w1 = Ok (r, w2) ∧ answered t' key r) ∧
        ∀ w0, match cache t' !! key with
              | Some cc1 => ∃ cmd', resolve cmd t' w0 = Ok (None, cmd', t', w0) ∧ resolved_to cmd cc1 cmd'
              | None => ∃ e, failed t' !! key = Some e ∧ resolve cmd t' w0 = Ok (Some e, cmd, t', w0)
              end) ∧
  ((∃ cmd, cmd ∈ cmds ∧ None ∈ flags (resolved cmd)) → warm cmds t w = Fault).
Proof.
  intros Hp Ht. split; [|intros Hn; unfold warm; by rewrite pending_queries_null].
  intros Hs. destruct (warm_ok cmds t w Hp Hs) as (t' & w' & Hw & Hkeep & Hcmds).
  exists t', w'. split_and!; [done|..].
  - intros key. destruct (Hkeep key) as [(r & _ & Hr)|[-> ->]]; [destruct r; cbn in Hr; tauto|apply Ht].
  - apply map_subseteq_spec. intros key x Hx. destruct (Hkeep key) as [(r & [? _]%known_false & _)|[-> _]]; congruence.
  - apply map_subseteq_spec. intros key x Hx. destruct (Hkeep key) as [(r & [_ ?]%known_false & _)|[_ ->]]; congruence.
  - intros cmd Hc Hne. assert (sane cmd) as Hsane by (rewrite Forall_forall in Hs; by apply Hs).
    destruct (extract_flags_ok cmd Hsane) as (d & a & key & Hk). exists key, (Some d :: (Some <$> a)).
    assert (key_of cmd key (Some d :: (Some <$> a))) as Hkey by done. split; [done|].
    destruct (Hcmds cmd key _ Hc Hkey) as [Hkn Hfrom]. split; [done|]. intros w0.
    pose proof (resolve_known cmd key _ t' w0 Hsane Hkey Hkn) as Hres.
    destruct (cache t' !! key); [|done]. destruct Hres as (c & ? & ?). exists c. split; [done|by apply patch_resolved_to].
Qed.
End queries.

(** ** Two files, one question *)

Section example.
#[local] Existing Instance example_table.
#[local] Existing Instance example_paths.

Definition numbered (l : list bytes) : list (nat + string * nat * nat) :=
  (λ i, inr ("x"%string, i, S i)) <$> seq 0 (length l).

(** A driver that counts how often it is started. *)
#[local] Instance example_drivers : Drivers nat := {|
  spawn _ _ n := (Ran [] [Some (quote :: str "clang -cc1 -resource-dir /old -isysroot /old/x -main-file-name q.cpp")] (inr 0), S n);
  find_program p n := (Some (str "/bin/" ++ p), n);
  executable _ n := (true, n);
  create_temporary _ n := (inr (str "/tmp/q.cpp"), n);
  remove_temporary _ n := n;
  build_compilation _ n := (None, n);
  parse_cc1_args := numbered;
  option_number _ := 7;
  extension := example_extension;
|}.

Definition example_command (file macro : bytes) : CompileCommand :=
  mkCompileCommand (mkResolvedFlags (str "/w") [Some (str "clang"); Some (str "-Wall"); Some macro] false) (Some file).

Definition two_commands : list CompileCommand :=
  [example_command (str "/w/a.cpp") (str "-DA"); example_command (str "/w/b.cpp") (str "-DB")].

Lemma warmed_commands_resolve_witness :
  ∃ t, warm two_commands empty_toolchain 0%nat = Ok (t, 1%nat) ∧
    ∀ w0, ∃ cmd', resolve (example_command (str "/w/b.cpp") (str "-DB")) t w0 = Ok (None, cmd', t, w0) ∧
      flags (resolved cmd') = Some <$> (quote :: str "clang") :: (str <$>
        ["-cc1"; "-resource-dir"; "/lib/clang"; "-isysroot"; "/lib/clang/x"; "-DB"]%string).
Proof.
  assert (parser_in_range (W := nat)) as Hp.
  { intros raw id i n (k & [= -> -> ->] & Hk%elem_of_seq)%list_elem_of_fmap. lia. }
  assert (∀ file macro, macro ≠ [] → example_parse 0 [str "-Wall"; macro] = [inr ("Wall"%string, [], 0%nat); inr ("D"%string, [drop 2 macro], 1%nat)] →
    sane (example_command file macro)) as Hsane.
  { intros file macro Hm Hparse. exists (str "clang"), [str "-Wall"; macro]. split; [done|]. cbn [parse example_table].
    rewrite Hparse. repeat constructor; done. }
  destruct (warmed_commands_resolve two_commands empty_toolchain 0%nat Hp) as [Hwarm _].
  { intros key. left. apply lookup_empty. }
  destruct Hwarm as (t & w' & Hw & _ & _ & _ & Hres).
  { repeat constructor; intros _; by apply Hsane. }
  exists t. assert (w' = 1%nat) as -> by (vm_compute in Hw; congruence). split; [done|]. intros w0.
  destruct (Hres (example_command (str "/w/b.cpp") (str "-DB"))) as (key & args & Hk & _ & Hall); [set_solver|done|].
  specialize (Hall w0). vm_compute in Hw. injection Hw as <-. destruct Hk as [_ Hk]. vm_compute in Hk. injection Hk as <- _.
  destruct Hall as (cmd' & Hr & _). exists cmd'. split; [exact Hr|]. vm_compute in Hr. by injection Hr as <-.
Defined.
End example.
